(* ===== verification/_CoqProject ===== *)
-Q . S2P
Prelude.v
Bits.v
Sync.v
FreeList.v
WFQueue.v
Bitmask.v
Team.v
TeamLife.v
WrkSync.v
Regions.v
Slots.v
SymmTable.v
Loops.v
Ring.v
Barrier.v
GdaBarrier.v
Collectives.v
ReduceScatter.v
Direct.v
ReduceDas.v
FlagAlltoall.v
GdaAlltoall.v
ChainBroadcast.v
Staged.v
Transfers.v
Broadcast.v
GdaReduce.v
Tile.v
TileColl.v
TileReduce.v
Bytes.v
Mlx5Wqe.v
Mlx5.v
QpKeys.v
GdaSymm.v
Network.v
Bootstrap.v
IpcPeers.v
Coalesce.v
RoQueue.v
MpiTransport.v
RoSystem.v
SdmaPkt.v
Sdma.v
SdmaPolicy.v
