(* ===== verification/Prelude.v ===== *)
(** * Verification of rocSHMEM

    rocSHMEM is an implementation of OpenSHMEM for GPUs.  Processing elements (PEs),
    one process and GPU each, share a symmetric heap: an address of it means the
    same object on every PE.  GPU threads put and get memory of other PEs, do
    atomic operations there, and take part in collectives of teams of PEs.  There
    are three backends: IPC (the memory of PEs of the same node is mapped, and
    copies are made by the GPU or by a copy engine), GPU direct access or GDA (GPU
    threads write work requests for a network card), and reverse offload or RO
    (GPU threads post commands to a host thread that calls MPI).  Paths below are
    relative to the sources, src/src.

    ** Parts and where they are modelled

    Device-side containers and helpers.  [Bits]: bit.hpp, gda/endian.hpp and the
    ranking of active lanes.  [Sync]: the array-based lock of sync/.  [FreeList]
    and [WFQueue]: the containers of containers/ that the lock protects; their
    operations are single transitions, or one side of a queue, because [Sync] shows
    that one thread at a time is inside.  [Loops]: the copies and the division of
    work of util.hpp.

    Teams.  [Team]: translation of PE numbers and splitting (team.cpp,
    rocshmem.cpp).  [Bitmask], [WrkSync], [TeamLife]: the pools from which the IPC
    backend takes the arrays of a team, and the life of teams from creation to
    finalisation (ipc/backend_ipc.cpp, team_tracker.cpp,
    host/collective_launcher.hpp).

    Memory.  [Regions]: registered user buffers (backend_bc.cpp).  [Slots],
    [SymmTable], [GdaSymm]: symmetric registration over IPC and over network cards
    (backend_bc.cpp, gda/backend_gda.cpp), with the translation of addresses that
    the device reads; [QpKeys]: the same for the queue pairs (gda/queue_pair.cpp).
    [IpcPeers]: which PEs are reached over IPC (ipc_policy.hpp).

    Collectives.  [Barrier]: the synchronisation of a team
    (ipc/context_ipc_device_coll.cpp); its class [Separates] is what [Collectives]
    (all-to-all, alltoallv, fcollect) is proved against.  [GdaBarrier]: the same over
    network cards (gda/context_gda_device_coll.cpp), as a refinement of [Barrier].
    [Ring], [ReduceScatter],
    [Direct]: the protocols of the all-reduce and reduce-scatter
    (ipc/context_ipc_tmpl_device.hpp, ipc/context_ipc_tmpl_device_das.hpp,
    gda/context_gda_tmpl_device.hpp); [ReduceDas]: the choice between them and
    what they leave in the arrays they share.  [FlagAlltoall]: the all-to-all
    without synchronisation, as threads of accesses; [GdaAlltoall]: its form over
    network cards, with the requests posted to queue pairs and the waits for them,
    simulated by the former (gda/context_gda_device_coll.cpp).  [ChainBroadcast]: the broadcast
    along a chain of PEs, chunk by chunk (ipc/context_ipc_tmpl_device_das.hpp).

    Collectives in stages.  [Staged] is a machine for code that moves data in stages
    separated by barriers: puts and gets that are in flight between their issue and
    a wait on their queue pair, barriers that all PEs pass together.  Programs whose
    stages do not interfere have one result, the one of running the stages in order.
    [Transfers] has the buffers and copies of several PEs on it.  [Broadcast]: the
    broadcasts by put, by get, by leaders of nodes and by proxies, with the fcollect
    and the chunked all-to-all built on them (ipc/context_ipc_device_coll.cpp,
    gda/context_gda_device_coll.cpp, gda/context_gda_device_coll_das.cpp,
    gda/context_gda_tmpl_device_das.hpp).  [GdaReduce]: the all-reduce in which the
    PEs of a node are proxies for slices (gda/context_gda_tmpl_device_das.hpp).

    Tiles.  [Tile]: puts and gets of parts of one- and two-dimensional tensors, over
    mapped memory and as work requests of many workers (tile_layout.hpp,
    tile_memcpy_device.hpp, gda/context_gda_tmpl_device.hpp).  Its copies are the
    instances of the class [TileGet], against which the allgather and the broadcast of
    tiles are proved in [TileColl]; [TileReduce]: the reduction of tiles to a root
    (ipc/context_ipc_tmpl_device.hpp, gda/context_gda_tmpl_device.hpp).

    Network cards.  [Bytes], [Mlx5Wqe], [Mlx5]: work requests and send queue of the
    mlx5 provider (gda/mlx5/).

    Copy engines.  [SdmaPkt], [Sdma], [SdmaPolicy]: packets, submission ring and
    choice of the engine (sdma/anvil_device.hpp, sdma_policy.hpp).

    Host.  [Network], [Bootstrap]: the collectives over sockets by which PEs
    start (bootstrap/bootstrap.cpp).  [RoQueue], [MpiTransport], [RoSystem]: the
    command rings, the host thread and the two together (reverse_offload/).
    [Coalesce]: the merging of the commands of a wavefront (wf_coal_policy.cpp).

    [Prelude] holds what the files share: integers of fixed width, invariants of
    runs, arrays, sums, reductions, and the tactics [unwrap], [case_if] and [case_ifs].

    ** How the code is modelled

    Fields of a class are a record, loops and operations are functions with the
    names of the source, and code that several threads or PEs run at once is a
    machine: a program counter per thread, a function [exec] (or [step]) that makes
    one step of one thread and is [None] while it is blocked, and the reflexive
    transitive closure of its steps as the runs.  One step is one access to shared
    memory, or a block of accesses that a lock or a flag is shown to protect.
    Interleavings are arbitrary and accesses sequentially consistent, which is what
    the fences and system-scope atomics of the source are there for.  A put of many
    bytes takes two steps, between which the target range holds arbitrary values.
    The steps of a PE are those of its work-group: the lanes of a wavefront run in
    lockstep, and wavefronts meet at [__syncthreads] and [s_barrier].  Where the source
    has a copy by all wavefronts and then an access by thread zero, or the reverse,
    with no such barrier between them, the two are in a race when the work-group has
    more than 64 threads; [Ring] (the das version), [Direct] (the GDA context) and
    [GdaReduce] have that race as steps of their own, and their theorems say for which
    work-groups it cannot occur.
    Failed assertions and aborts are [None], error codes values.  Unsigned
    integers that may wrap are kept at their width by [wrap]; where a file takes
    counts or indices as unbounded it says so in its header.

    Code outside the sources is an argument with hypotheses: the HIP runtime and the
    drivers answer through environments ([SymmTable], [GdaSymm], [TeamLife]); the
    card executes work requests in order ([Mlx5]); the copy engine moves its read
    index ([Sdma]); MPI completes requests in any order ([MpiTransport]); sockets
    are reliable queues with bounded buffers, on which a send waits until its message
    is accepted ([Network]); a queue pair is executed in order, at any time after the
    posting ([GdaAlltoall]).

    ** What the theorems show

    Data structures and locks refine their abstract objects: [abql_refines_fcfs],
    [free_list_refines_queue], [wf_queue_linearizable], [mlx5_queue_is_fifo],
    [ro_queue_fifo], [sdma_quiet_exact].  Their runs keep what they promise:
    [sdma_stream], [mlx5_quiet_waits], [ro_notified_when_complete],
    [ro_blocking_call_complete], [team_slots_exclusive], [sync_is_a_barrier],
    [ring_barrier_separates].  The barrier over network cards refines the one over
    IPC: [gda_sync_is_a_barrier].

    Optimised routines have the effect of the plain ones: [tile_memcpy_rma_exact],
    [tile_gda_exact] (against copying element by element), [coalesce_exact] (against
    sending every message).

    Collectives compute what they should under every interleaving and for any
    sequence of calls: [ring_allreduce_correct], [rs_correct], [direct_correct],
    [reduce_scatter_wg_correct], [alltoall_correct], [thread_puts_correct],
    [chain_correct], [gda_broadcast_correct], [gda_fcollect_correct],
    [gda_alltoall_correct], [proxy_allreduce_correct], [tile_reduce_correct],
    [tile_allgather_correct], [tile_broadcast_correct],
    [bootstrap_collectives_correct].  They end: [ring_allreduce_terminates],
    [rs_finishes], [thread_puts_finish], [posted_finish], [chain_finishes], [tile_reduce_ends], with a
    bound on the number of steps and the absence of deadlock; likewise
    [gda_sync_progress], [mlx5_progress], [ro_no_deadlock], [sdma_drains].

    Translations and layouts are exact: [symm_register_translation],
    [gda_symm_register_translation], [split_strided_members], [team_translation],
    [team_sync_areas_disjoint], [mlx5_rma_layout].

    Some theorems are about what goes wrong: [reduce_das_can_deadlock],
    [direct_subteam_stale], [reduce_das_stale_flag], [alltoallv_copy_race],
    [alltoall_mixed_deadlock], [chain_broadcast_deadlock],
    [gda_put_broadcast_returns_early], [get_broadcast_reads_early],
    [proxy_allreduce_reads_early], [sdma_quiet_returns_early],
    [ro_slot_reuse_breaks_wait], [ro_default_context_starves_context0],
    [gda_atomic_barrier_loses_arrival], [tile_allgather_reads_early], the races between
    wavefronts [ring_das_race], [gda_direct_race] and [proxy_allreduce_race], and
    [bootstrap_ring_deadlock], which holds for every schedule.  Each of the others gives
    a run of the model that ends in a wrong result or in a state without steps.
    [gda_wg_announces_wrong_pe], [tile_strided_count_overflows], [tile_wave_partial],
    [tile_request_overflows], [collect_size_overflows] and
    [coalesce_drops_4gib] evaluate single operations outside the bounds within which
    the theorems above hold.

    ** Bounds

    No theorem about a machine bounds the number of PEs, threads or steps, but for
    [gda_sync_is_a_barrier], which is about the barrier that the code takes below 64
    PEs.  The fuel of the concrete runs in the witnesses ([drive], [direct_drive],
    [flag_drive], [staged_drive], [reduce_drive] and the like) only has to be enough
    for that run, which the witness checks by evaluation.  Bounds in hypotheses are those of the code: 32
    turn words of the lock, 64 lanes of a wave, a queue depth below [2^16] for
    the mlx5 counters, [2^31] for C integers, among them the lengths of the requests
    of tiles ([Tile]) and the sizes and indices of the collect operation and the
    all-to-all ([Broadcast]).  The protocols of [Ring], [Direct], [FlagAlltoall],
    [GdaAlltoall] and the hierarchical broadcast and all-reduce take ranks, counts and
    indices as unbounded integers.  Collectives in stages assume that the sources are
    in place when the first PE starts, since the code reads them before any
    synchronisation; those over nodes assume nodes of equal size.

    ** Not modelled

    Contexts of the GDA backend apart from the collectives named above and the
    other card providers (bnxt, ionic, shca), whose rings have the structure of the
    mlx5 one and other formats of requests; the wave form of the reduce-scatter; the
    control messages of alltoallv_get; the interleaving of the waves of the work-group
    barrier over network cards, of which only the loops are modelled; the choice of the
    network interface and the connection of sockets.  Creation of
    queue pairs and copy queues, discovery of network cards, allocators of device
    memory, the host API on MPI and RCCL, sockets, environment variables and start-up:
    calls of libraries and of the operating system whose behaviour is not in the
    sources.  dlmalloc.cpp is a copy of a public allocator.  The wrappers of the
    public API add statistics and dispatch; inline assembly and atomics are the
    compiler's.  Puts, gets and atomics between PEs are an address translation,
    which is modelled, and a device copy, which is modelled, or a hardware
    atomic. *)

From Stdlib Require Import ZArith Lia.
From Stdlib Require Export ZifyBool.
From stdpp Require Import base numbers list relations gmap.

Open Scope Z_scope.

(** ** Notation scope of the development *)

Declare Scope shmem_scope.
Delimit Scope shmem_scope with shmem.

(** ** Machine integers

    An unsigned [w]-bit integer is a [Z] kept in [0, 2^w); every operation of
    the source that may wrap is followed by [wrap w]. *)

Definition wrap (w x : Z) : Z := x mod 2 ^ w.

Abbreviation u8 := (wrap 8).
Abbreviation u16 := (wrap 16).
Abbreviation u32 := (wrap 32).
Abbreviation u64 := (wrap 64).

(** Two's complement reading of a [w]-bit pattern. *)
Definition signed (w x : Z) : Z :=
  let y := wrap w x in if y <? 2 ^ (w - 1) then y else y - 2 ^ w.

Abbreviation s32 := (signed 32).

Lemma wrap_range w x : 0 <= w -> 0 <= wrap w x < 2 ^ w.
Proof. intros Hw. apply Z.mod_pos_bound. lia. Qed.

Lemma wrap_small w x : 0 <= x < 2 ^ w -> wrap w x = x.
Proof. apply Z.mod_small. Qed.

Lemma wrap_wrap w x : wrap w (wrap w x) = wrap w x.
Proof. unfold wrap. apply Zmod_mod. Qed.

Lemma wrap_add_l w x y : wrap w (wrap w x + y) = wrap w (x + y).
Proof. unfold wrap. apply Zplus_mod_idemp_l. Qed.

Lemma wrap_add_r w x y : wrap w (x + wrap w y) = wrap w (x + y).
Proof. unfold wrap. apply Zplus_mod_idemp_r. Qed.

Lemma wrap_sub_l w x y : wrap w (wrap w x - y) = wrap w (x - y).
Proof. unfold wrap. apply Zminus_mod_idemp_l. Qed.

Lemma wrap_sub_r w x y : wrap w (x - wrap w y) = wrap w (x - y).
Proof. unfold wrap. apply Zminus_mod_idemp_r. Qed.

(** Two values in one window of [2^w] consecutive integers have the same
    [w]-bit pattern only if they are equal. *)
Lemma wrap_inj_window w x y :
  0 <= w -> Z.abs (x - y) < 2 ^ w -> wrap w x = wrap w y -> x = y.
Proof.
  unfold wrap. intros Hw Hd He.
  assert (Hp : 0 < 2 ^ w) by lia.
  pose proof (Z_div_mod_eq_full x (2 ^ w)) as Hx.
  pose proof (Z_div_mod_eq_full y (2 ^ w)) as Hy.
  rewrite He in Hx. set (a := x / 2 ^ w) in *. set (b := y / 2 ^ w) in *.
  assert (Hq : x - y = 2 ^ w * (a - b)) by lia.
  revert Hp Hd Hq. generalize (2 ^ w). intros p Hp Hd Hq.
  destruct (Z.eq_dec a b) as [->|Hne]; [lia|]. rewrite Hq in Hd. nia.
Qed.

(** A modulus that divides [2^w] sees through the wrap. *)
Lemma wrap_mod_divide w m x : 0 < m -> (m | 2 ^ w) -> wrap w x mod m = x mod m.
Proof.
  intros Hm [k Hk]. unfold wrap. rewrite Hk, Z.mul_comm.
  destruct (Z.eq_dec k 0) as [->|Hk0].
  { rewrite Z.mul_0_r, Z.mod_0_r. done. }
  rewrite Z.rem_mul_r by lia. rewrite Z.mul_comm, Z_mod_plus_full. apply Zmod_mod.
Qed.

Create Rewrite HintDb wrap.
#[export] Hint Rewrite wrap_wrap wrap_add_l wrap_add_r wrap_sub_l wrap_sub_r : wrap.

(** ** Reachability *)

(** An inductive invariant of a step relation holds in every reachable state. *)
Lemma rtc_invariant {A} (R : relation A) (P : A -> Prop) :
  (forall x y, P x -> R x y -> P y) -> forall x y, rtc R x y -> P x -> P y.
Proof. intros Hstep x y. induction 1 as [|x y z Hxy _ IH]; eauto. Qed.

(** ** Tactics *)

(** Case analysis on every boolean test of the goal, with the test as a
    hypothesis that [lia] can read. *)
Ltac case_if :=
  match goal with
  | |- context [if ?b then _ else _] =>
      lazymatch b with
      | context [if _ then _ else _] => fail
      | _ => lazymatch type of b with
             | bool => let E := fresh "E" in destruct b eqn:E
             end
      end
  end.

Ltac case_if_in H :=
  match type of H with
  | context [if ?b then _ else _] =>
      lazymatch b with
      | context [if _ then _ else _] => fail
      | _ => lazymatch type of b with
             | bool => let E := fresh "E" in destruct b eqn:E
             end
      end
  end.

Ltac case_ifs := repeat (case_if; try lia).

Ltac case_ifs_in H := repeat (case_if_in H; try lia).

Lemma s32_small x : - 2 ^ 31 <= x < 2 ^ 31 -> s32 x = x.
Proof.
  intros Hx. unfold signed, wrap. change (32 - 1) with 31.
  destruct (Z.le_gt_cases 0 x).
  - rewrite Z.mod_small by lia. case_if; lia.
  - replace (x mod 2 ^ 32) with (x + 2 ^ 32).
    + case_if; lia.
    + rewrite <- (Z.mod_add x 1 (2 ^ 32)), Z.mod_small by lia. lia.
Qed.

(** Removes the wrap-around of every expression that [lia] shows to be in range,
    innermost first. *)
Ltac unwrap :=
  repeat match goal with
  | |- context [wrap ?w ?x] =>
      lazymatch x with
      | context [wrap _ _] => fail
      | _ => rewrite (wrap_small w x) by lia
      end
  end.

(** ** Arrays of several PEs *)

(** [len] elements of an array from index [lo] on. *)
Definition overwrite {A} (d : Z -> A) (lo len : Z) (f : Z -> A) : Z -> A :=
  fun i => if (lo <=? i) && (i <? lo + len) then f (i - lo) else d i.

(** The same for the array of PE [p]. *)
Definition write {A} (m : Z -> Z -> A) (p lo len : Z) (f : Z -> A) : Z -> Z -> A :=
  fun p' => if p' =? p then overwrite (m p') lo len f else m p'.

Definition upd {A} (f : Z -> A) (p : Z) (x : A) : Z -> A := fun p' => if p' =? p then x else f p'.

Lemma upd_eq {A} (f : Z -> A) p x : upd f p x p = x.
Proof. unfold upd. by rewrite Z.eqb_refl. Qed.

Lemma upd_ne {A} (f : Z -> A) p q x : q <> p -> upd f p x q = f q.
Proof. intros H. unfold upd. by rewrite (proj2 (Z.eqb_neq q p) H). Qed.

(** Writing one cell. *)
Lemma write_flag (m : Z -> Z -> Z) i k v p x :
  write m i k 1 (fun _ => v) p x = if (p =? i) && (x =? k) then v else m p x.
Proof.
  unfold write, overwrite. destruct (p =? i); [|done]. cbn [andb].
  destruct (Z.eqb_spec x k) as [->|]; case_if; try done; exfalso; lia.
Qed.

Lemma forallb_false {A} (P : A -> bool) l : forallb P l = false -> exists x, x ∈ l /\ P x = false.
Proof.
  induction l as [|x l IH]; [done|]. cbn. destruct (P x) eqn:Ex.
  - intros (y & Hy & Hp)%IH. exists y. split; [by right|done].
  - intros _. exists x. split; [by left|done].
Qed.

(** ** Sums over a list of integers *)

Definition zsum (f : Z -> Z) (l : list Z) : Z := foldr Z.add 0 (f <$> l).

Lemma zsum_ext (f g : Z -> Z) l : (forall x, x ∈ l -> f x = g x) -> zsum f l = zsum g l.
Proof.
  unfold zsum. induction l as [|x l IH]; intros H; [done|]. rewrite !fmap_cons. cbn [foldr].
  rewrite (H x) by (by left). rewrite IH; [done|]. intros y Hy. apply H. by right.
Qed.

(** One summand changes. *)
Lemma zsum_change (f g : Z -> Z) l p : NoDup l -> p ∈ l -> (forall x, x ∈ l -> x <> p -> f x = g x) ->
  zsum f l = zsum g l + (f p - g p).
Proof.
  induction l as [|x l IH]; [by intros _ ?%elem_of_nil|]. intros [Hn Hnd]%NoDup_cons Hin H.
  unfold zsum in *. rewrite !fmap_cons. cbn [foldr]. apply elem_of_cons in Hin as [->|Hin].
  - fold (zsum f l) (zsum g l). rewrite (zsum_ext f g l); [lia|]. intros y Hy. apply H; [by right|].
    by intros ->.
  - rewrite IH; [|done|done|intros y Hy; apply H; by right]. rewrite (H x); [lia|by left|by intros ->].
Qed.

(** A full count means that every summand is one. *)
Lemma zsum_full (f : Z -> Z) l : (forall x, x ∈ l -> f x <= 1) -> zsum f l <= Z.of_nat (length l) /\
  (zsum f l = Z.of_nat (length l) -> forall x, x ∈ l -> f x = 1).
Proof.
  unfold zsum. induction l as [|x l IH]; intros H; [split; [simpl; lia|by intros _ y ?%elem_of_nil]|].
  rewrite fmap_cons. cbn [foldr length]. destruct IH as [IH1 IH2]; [intros y Hy; apply H; by right|].
  pose proof (H x ltac:(by left)). split; [lia|]. intros Hs y [->|Hy]%elem_of_cons; [lia|].
  apply IH2; [lia|done].
Qed.

Lemma zsum_zero (f : Z -> Z) l : (forall x, x ∈ l -> f x = 0) -> zsum f l = 0.
Proof.
  unfold zsum. induction l as [|x l IH]; intros H; [done|]. rewrite fmap_cons. cbn [foldr].
  rewrite (H x), IH; [done| |by left]. intros y Hy. apply H. by right.
Qed.

Lemma zsum_ones l : zsum (fun _ => 1) l = Z.of_nat (length l).
Proof. unfold zsum. induction l as [|x l IH]; [done|]. rewrite fmap_cons. cbn [foldr length]. lia. Qed.

Lemma zsum_const (v : Z) l : zsum (fun _ => v) l = v * Z.of_nat (length l).
Proof.
  induction l as [|x l IH]; [cbn; lia|].
  change (zsum (fun _ => v) (x :: l)) with (v + zsum (fun _ => v) l). rewrite IH. cbn [length]. lia.
Qed.

Lemma zsum_nonneg (f : Z -> Z) l : (forall x, x ∈ l -> 0 <= f x) -> 0 <= zsum f l.
Proof.
  unfold zsum. induction l as [|x l IH]; intros H; [done|]. rewrite fmap_cons. cbn [foldr].
  specialize (IH ltac:(intros y Hy; apply H; by right)). specialize (H x ltac:(by left)). lia.
Qed.

(** ** Reductions *)

Section reductions.
Context {T : Type} (Calc : T -> T -> T).

Definition reduce_list (l : list T) : option T :=
  match l with [] => None | x :: l => Some (foldl Calc x l) end.

Context (assoc : forall x y z, Calc x (Calc y z) = Calc (Calc x y) z).
Context (comm : forall x y, Calc x y = Calc y x).

Lemma foldl_reduce x l :
  foldl Calc x l = match reduce_list l with None => x | Some y => Calc x y end.
Proof using assoc.
  destruct l as [|y l]; [done|]. simpl. revert x y. induction l as [|z l IH]; intros x y; [done|].
  simpl. by rewrite <- assoc, <- IH.
Qed.

(** The order of the operands does not matter. *)
Lemma reduce_perm l l' : l ≡ₚ l' -> reduce_list l = reduce_list l'.
Proof using assoc comm.
  induction 1 as [|x l l' _ IH|x y l|l1 l2 l3 _ IH1 _ IH2]; [done| | |congruence].
  - simpl. by rewrite !foldl_reduce, IH.
  - simpl. by rewrite (comm x y).
Qed.

End reductions.
