(* ===== verification/Bits.v ===== *)
(** * Bit manipulation and lane masks

    Model of [src/bit.hpp] (the counting and rounding functions on unsigned
    integers of a given number of digits), [src/gda/endian.hpp] (byte order) and
    of the lane-mask helpers of [src/util.hpp] and
    [src/containers/atomic_wf_queue_impl.hpp], which rank the active lanes of a
    wavefront. *)

From Stdlib Require Import ZArith Lia.
From stdpp Require Import base list.
From S2P Require Import Prelude.

Open Scope Z_scope.

(** ** Counting bits *)

(** Number of bits set below position [n]: [__builtin_popcount] on a value of
    [n] digits. *)
Fixpoint popcount (n : nat) (x : Z) : Z :=
  match n with
  | O => 0
  | S n' => popcount n' x + Z.b2z (Z.testbit x (Z.of_nat n'))
  end.

(** Number of zero bits below the lowest set one, at most [n]. *)
Fixpoint ctz (n : nat) (x : Z) : Z :=
  match n with
  | O => 0
  | S n' => if Z.odd x then 0 else 1 + ctz n' (Z.div2 x)
  end.

(** Number of zero bits above the highest set one among [n] digits. *)
Fixpoint clz (n : nat) (x : Z) : Z :=
  match n with
  | O => 0
  | S n' => if Z.testbit x (Z.of_nat n') then 0 else 1 + clz n' x
  end.

(** [digits] is [std::numeric_limits<T>::digits]; the builtins are undefined at 0,
    which the fallback of [_clzT] and [_ctzT] covers. *)
Definition countl_zero (digits : nat) (val : Z) : Z :=
  if val =? 0 then Z.of_nat digits else clz digits val.

Definition countr_zero (digits : nat) (val : Z) : Z :=
  if val =? 0 then Z.of_nat digits else ctz digits val.

Definition complement (digits : nat) (val : Z) : Z := wrap (Z.of_nat digits) (Z.lnot val).

Definition countl_one (digits : nat) (val : Z) : Z :=
  countl_zero digits (complement digits val).

Definition countr_one (digits : nat) (val : Z) : Z :=
  countr_zero digits (complement digits val).

Definition bit_log2 (digits : nat) (val : Z) : Z :=
  Z.of_nat digits - 1 - countl_zero digits val.

Definition bit_width (digits : nat) (val : Z) : Z :=
  if val =? 0 then 0 else bit_log2 digits val + 1.

(** [static_cast<T>(T{1} << bit_width(val - 1))] *)
Definition bit_ceil (digits : nat) (val : Z) : Z :=
  if val <? 2 then 1
  else wrap (Z.of_nat digits) (Z.shiftl 1 (bit_width digits (wrap (Z.of_nat digits) (val - 1)))).

Definition bit_floor (digits : nat) (val : Z) : Z :=
  if val =? 0 then 0 else Z.shiftl 1 (bit_log2 digits val).

(** ** Byte order *)

(** [bytes] is [sizeof(T)]; the lowest byte of the value becomes the highest. *)
Fixpoint byteswap (bytes : nat) (val : Z) : Z :=
  match bytes with
  | O => 0
  | S n => Z.lor (Z.shiftl (Z.land val 255) (8 * Z.of_nat n)) (byteswap n (Z.shiftr val 8))
  end.

Inductive Order := Big | Little.

#[export] Instance Order_eq_dec : EqDecision Order.
Proof. solve_decision. Defined.

Definition convert (To From : Order) (bytes : nat) (val : Z) : Z :=
  if decide (To = From) then val else byteswap bytes val.

Definition to_be (Native : Order) := convert Big Native.
Definition from_be (Native : Order) := convert Native Big.
Definition to_le (Native : Order) := convert Little Native.
Definition from_le (Native : Order) := convert Native Little.

(** ** Lanes of a wavefront

    A wavefront has at most 64 lanes; a mask has bit [i] set when lane [i] takes
    part.  [__lanemask_eq()] of lane [i] is [1 << i]. *)

Definition get_active_lane_count (active_lane_mask : Z) : Z := popcount 64 active_lane_mask.

Definition get_active_lane_num (lane : Z) (active_lane_mask : Z) : Z :=
  popcount 64 (Z.land active_lane_mask (u64 (Z.shiftl 1 lane - 1))).

Definition get_first_active_lane_id (active_lane_mask : Z) : Z :=
  countr_zero 64 active_lane_mask.

Definition is_first_active_lane (lane active_lane_mask : Z) : bool :=
  get_active_lane_num lane active_lane_mask =? 0.

Definition get_last_active_lane_id (active_lane_mask : Z) : Z := bit_log2 64 active_lane_mask.

Definition is_last_active_lane (lane active_lane_mask : Z) : bool :=
  get_active_lane_num lane active_lane_mask =? get_active_lane_count active_lane_mask - 1.

(** [AtomicWFQueue::active_logical_lane_id] computes the same rank with an
    inverted mask. *)
Definition active_logical_lane_id (my_physical_lane_id ballot : Z) : Z :=
  let all_ones_mask := u64 (-1) in
  let lane_mask := u64 (Z.shiftl all_ones_mask my_physical_lane_id) in
  let inverted_mask := u64 (Z.lnot lane_mask) in
  let lower_active_lanes := Z.land ballot inverted_mask in
  popcount 64 lower_active_lanes.

(** ** Lemmas on counting *)

Lemma popcount_bounds n x : 0 <= popcount n x <= Z.of_nat n.
Proof.
  induction n as [|n IH]; cbn [popcount]; [lia|].
  destruct (Z.testbit x (Z.of_nat n)); simpl; lia.
Qed.

Lemma popcount_mono n m x : (n <= m)%nat -> popcount n x <= popcount m x.
Proof.
  induction 1 as [|m _ IH]; [lia|]. cbn [popcount].
  destruct (Z.testbit x (Z.of_nat m)); simpl; lia.
Qed.

Lemma popcount_strict n m x :
  (n < m)%nat -> Z.testbit x (Z.of_nat n) = true -> popcount n x < popcount m x.
Proof.
  intros Hlt Hb. pose proof (popcount_mono (S n) m x Hlt) as Hm.
  cbn [popcount] in Hm. rewrite Hb in Hm. simpl in Hm. lia.
Qed.

(** Counting under a mask of [i] low bits counts the bits below [i]. *)
Lemma popcount_low_bits n i x :
  0 <= i -> popcount n (Z.land x (Z.ones i)) = popcount (Nat.min n (Z.to_nat i)) x.
Proof.
  intros Hi. induction n as [|n IH]; [done|]. cbn [popcount].
  rewrite IH, Z.land_spec, Z.testbit_ones_nonneg by lia.
  destruct (Z.ltb_spec (Z.of_nat n) i).
  - rewrite !Nat.min_l by lia. cbn [popcount]. by rewrite andb_true_r.
  - rewrite !Nat.min_r by lia. rewrite andb_false_r. simpl. lia.
Qed.

(** Every count below the total is reached at a set bit. *)
Lemma popcount_reaches n x k :
  0 <= k < popcount n x ->
  exists i, (i < n)%nat /\ Z.testbit x (Z.of_nat i) = true /\ popcount i x = k.
Proof.
  induction n as [|n IH]; cbn [popcount]; [lia|]. intros Hk.
  destruct (Z.testbit x (Z.of_nat n)) eqn:Hb; simpl in Hk.
  - destruct (Z.eq_dec k (popcount n x)) as [->|Hne]; [exists n; split_and!; auto with lia|].
    destruct IH as (i & Hi & Hib & Hik); [lia|]. exists i. split_and!; auto with lia.
  - destruct IH as (i & Hi & Hib & Hik); [lia|]. exists i. split_and!; auto with lia.
Qed.

Lemma popcount_zero n x :
  (forall i, (i < n)%nat -> Z.testbit x (Z.of_nat i) = false) -> popcount n x = 0.
Proof.
  intros H. induction n as [|n IH]; [done|]. cbn [popcount].
  rewrite H by lia. rewrite IH; [done|]. intros i Hi. apply H. lia.
Qed.

(** [ctz] is the position of the lowest set bit. *)
Lemma ctz_spec n x :
  0 < x < 2 ^ Z.of_nat n ->
  0 <= ctz n x < Z.of_nat n /\ Z.testbit x (ctz n x) = true /\
  forall j, 0 <= j < ctz n x -> Z.testbit x j = false.
Proof.
  revert x. induction n as [|n IH]; intros x Hx; [simpl in Hx; lia|].
  cbn [ctz]. destruct (Z.odd x) eqn:Ho.
  - split; [lia|]. rewrite Z.bit0_odd. split; [done|lia].
  - assert (Hd : x = 2 * Z.div2 x) by (pose proof (Z.div2_odd x) as E; rewrite Ho in E;
      cbn [Z.b2z] in E; lia).
    rewrite Nat2Z.inj_succ, Z.pow_succ_r in Hx by lia.
    destruct (IH (Z.div2 x)) as (Hr & Hb & Hl); [lia|].
    clear IH Ho. generalize dependent (Z.div2 x). intros y -> Hr Hb Hl.
    split; [lia|]. rewrite (Z.mul_comm 2 y). change 2 with (2 ^ 1). split.
    + rewrite Z.mul_pow2_bits by lia. by replace (1 + ctz n y - 1) with (ctz n y) by lia.
    + intros j Hj. rewrite Z.mul_pow2_bits by lia.
      destruct (Z.eq_dec j 0) as [->|]; [by rewrite Z.testbit_neg_r|]. apply Hl. lia.
Qed.

Lemma clz_log2 n x : 0 < x < 2 ^ Z.of_nat n -> clz n x = Z.of_nat n - 1 - Z.log2 x.
Proof.
  induction n as [|n IH]; intros Hx; [simpl in Hx; lia|]. cbn [clz].
  assert (Hlog : Z.log2 x < Z.of_nat (S n)) by (apply Z.log2_lt_pow2; lia).
  destruct (Z.testbit x (Z.of_nat n)) eqn:Hb.
  - assert (Z.of_nat n <= Z.log2 x); [|lia].
    destruct (Z.le_gt_cases (Z.of_nat n) (Z.log2 x)); [done|].
    rewrite Z.bits_above_log2 in Hb by lia. done.
  - assert (Z.log2 x <> Z.of_nat n) by (intros He; rewrite <- He, Z.bit_log2 in Hb by lia; done).
    rewrite IH; [lia|]. split; [lia|]. apply Z.log2_lt_pow2; lia.
Qed.

Lemma bit_log2_spec n x : 0 < x < 2 ^ Z.of_nat n -> bit_log2 n x = Z.log2 x.
Proof.
  intros Hx. unfold bit_log2, countl_zero. destruct (Z.eqb_spec x 0); [lia|].
  rewrite clz_log2 by done. lia.
Qed.

(** ** Lemmas on lanes *)

Lemma lane_num_rank lane m :
  0 <= lane < 64 -> get_active_lane_num lane m = popcount (Z.to_nat lane) m.
Proof.
  intros Hl. unfold get_active_lane_num. rewrite Z.shiftl_1_l, Z.sub_1_r, <- Z.ones_equiv.
  rewrite wrap_small by
    (rewrite Z.ones_equiv; pose proof (Z.pow_lt_mono_r 2 lane 64); lia).
  rewrite popcount_low_bits by lia. f_equal. lia.
Qed.

Lemma lane_count_rank m : get_active_lane_count m = popcount 64 m.
Proof. reflexivity. Qed.

Lemma logical_lane_rank lane m :
  0 <= lane < 64 -> active_logical_lane_id lane m = popcount (Z.to_nat lane) m.
Proof.
  intros Hl. unfold active_logical_lane_id, wrap.
  assert (Hm : Z.lnot (Z.shiftl (-1 mod 2 ^ 64) lane mod 2 ^ 64) mod 2 ^ 64 = Z.ones lane).
  { apply Z.bits_inj'. intros i Hi. rewrite <- !Z.land_ones, Z.testbit_ones_nonneg by lia.
    rewrite Z.land_spec, Z.lnot_spec, Z.land_spec by lia.
    rewrite (Z.testbit_ones_nonneg 64) by lia. rewrite Z.shiftl_spec by lia.
    destruct (Z.ltb_spec i lane).
    - rewrite Z.testbit_neg_r by lia. destruct (Z.ltb_spec i 64); [done|lia].
    - destruct (Z.ltb_spec i 64); [|by rewrite andb_false_r].
      rewrite Z.land_spec, Z.testbit_ones_nonneg, Z.bits_m1 by lia.
      destruct (Z.ltb_spec (i - lane) 64); [done|lia]. }
  rewrite Hm, popcount_low_bits by lia. f_equal. lia.
Qed.

Lemma first_lane_spec m :
  0 < m < 2 ^ 64 ->
  let f := get_first_active_lane_id m in
  0 <= f < 64 /\ Z.testbit m f = true /\ popcount (Z.to_nat f) m = 0.
Proof.
  intros Hm f. subst f. unfold get_first_active_lane_id, countr_zero.
  destruct (Z.eqb_spec m 0); [lia|].
  destruct (ctz_spec 64 m) as (Hr & Hb & Hl); [exact Hm|].
  split_and!; try done; try lia. apply popcount_zero. intros i Hi. apply Hl. lia.
Qed.

(** No bit counts above the highest one. *)
Lemma popcount_above_log2 k x :
  0 <= x -> popcount (S (Z.to_nat (Z.log2 x)) + k) x = popcount (S (Z.to_nat (Z.log2 x))) x.
Proof.
  intros Hx. induction k as [|k IH]; [by rewrite Nat.add_0_r|].
  rewrite Nat.add_succ_r. cbn [popcount] in *. rewrite IH.
  rewrite (Z.bits_above_log2 x (Z.of_nat (S _ + k))) by lia. simpl Z.b2z. lia.
Qed.

Lemma last_lane_spec m :
  0 < m < 2 ^ 64 ->
  let l := get_last_active_lane_id m in
  0 <= l < 64 /\ Z.testbit m l = true /\ popcount (Z.to_nat l) m = popcount 64 m - 1.
Proof.
  intros Hm l. subst l. unfold get_last_active_lane_id. rewrite bit_log2_spec by exact Hm.
  pose proof (Z.log2_nonneg m). assert (Z.log2 m < 64) by (apply Z.log2_lt_pow2; lia).
  pose proof (popcount_above_log2 (63 - Z.to_nat (Z.log2 m)) m) as Hp.
  replace (S (Z.to_nat (Z.log2 m)) + (63 - Z.to_nat (Z.log2 m)))%nat with 64%nat in Hp by lia.
  rewrite Hp by lia. cbn [popcount]. rewrite Z2Nat.id, Z.bit_log2 by lia.
  simpl Z.b2z. split_and!; try done; lia.
Qed.

(** An active lane is determined by its rank. *)
Lemma lane_rank_inj m i j :
  0 <= i < 64 -> 0 <= j < 64 -> Z.testbit m i = true -> Z.testbit m j = true ->
  popcount (Z.to_nat i) m = popcount (Z.to_nat j) m -> i = j.
Proof.
  intros Hi Hj Hbi Hbj He. destruct (Z.lt_trichotomy i j) as [Hlt|[->|Hlt]]; [|done|].
  - pose proof (popcount_strict (Z.to_nat i) (Z.to_nat j) m). rewrite Z2Nat.id in * by lia.
    specialize (H ltac:(lia) Hbi). lia.
  - pose proof (popcount_strict (Z.to_nat j) (Z.to_nat i) m). rewrite Z2Nat.id in * by lia.
    specialize (H ltac:(lia) Hbj). lia.
Qed.

(** ** Properties *)

(** The rank [get_active_lane_num] numbers the active lanes of a wavefront
    without gaps: ranks of active lanes lie in [0, count), increase strictly
    with the lane, and every number below the count is the rank of an active
    lane; [active_logical_lane_id] computes the same rank. *)
Theorem lane_ranks_are_dense (m lane1 lane2 k : Z)
    (H1 : 0 <= lane1 < lane2) (H2 : lane2 < 64)
    (Ha : Z.testbit m lane1 = true) (Hb : Z.testbit m lane2 = true)
    (Hk : 0 <= k < get_active_lane_count m) :
  get_active_lane_num lane1 m < get_active_lane_num lane2 m < get_active_lane_count m /\
  (exists lane, 0 <= lane < 64 /\ Z.testbit m lane = true /\ get_active_lane_num lane m = k) /\
  active_logical_lane_id lane2 m = get_active_lane_num lane2 m.
Proof.
  rewrite lane_count_rank in *.
  rewrite logical_lane_rank, !lane_num_rank by lia. split_and!; [| | |done].
  - apply popcount_strict; [lia|]. by rewrite Z2Nat.id by lia.
  - apply popcount_strict; [lia|]. by rewrite Z2Nat.id by lia.
  - destruct (popcount_reaches 64 m k Hk) as (i & Hi & Hbi & <-).
    exists (Z.of_nat i). rewrite lane_num_rank, Nat2Z.id by lia. split_and!; [lia..|done|done].
Qed.

Lemma lane_ranks_are_dense_witness :
  get_active_lane_num 3 200 < get_active_lane_num 7 200 < get_active_lane_count 200.
Proof.
  apply (lane_ranks_are_dense 200 3 7 0); vm_compute; intuition congruence.
Defined.

(** In a non-empty mask the lane that [is_first_active_lane] elects is
    exactly the one [get_first_active_lane_id] names, and likewise for the last
    lane, so a wavefront has one leader and its shuffles read from it. *)
Theorem lane_leaders_agree (m lane : Z)
    (Hm : 0 < m < 2 ^ 64) (Hl : 0 <= lane < 64) (Ha : Z.testbit m lane = true) :
  (is_first_active_lane lane m = true <-> lane = get_first_active_lane_id m) /\
  (is_last_active_lane lane m = true <-> lane = get_last_active_lane_id m).
Proof.
  unfold is_first_active_lane, is_last_active_lane. rewrite lane_count_rank.
  rewrite !Z.eqb_eq, lane_num_rank by lia.
  destruct (first_lane_spec m Hm) as (Hf & Hfb & Hfr).
  destruct (last_lane_spec m Hm) as (Hg & Hgb & Hgr).
  split; (split; [intros He; apply (lane_rank_inj m); try done; lia|intros ->; done]).
Qed.

Lemma lane_leaders_agree_witness :
  (is_first_active_lane 3 200 = true <-> 3 = get_first_active_lane_id 200) /\
  (is_last_active_lane 3 200 = true <-> 3 = get_last_active_lane_id 200).
Proof. apply (lane_leaders_agree 200 3); [lia|lia|reflexivity]. Defined.

(** [bit_ceil] of a value that has a power of two above it in its type is the
    least such power, and [bit_floor] the greatest power of two below. *)
Theorem bit_rounding (n : nat) (val : Z)
    (Hn : (0 < n)%nat) (Hv : 0 < val <= 2 ^ (Z.of_nat n - 1)) :
  (exists k, 0 <= k /\ bit_ceil n val = 2 ^ k /\ val <= 2 ^ k /\
     forall j, 0 <= j -> val <= 2 ^ j -> 2 ^ k <= 2 ^ j) /\
  (exists k, 0 <= k /\ bit_floor n val = 2 ^ k /\ 2 ^ k <= val < 2 ^ (k + 1)).
Proof.
  assert (Hpow : 2 ^ Z.of_nat n = 2 * 2 ^ (Z.of_nat n - 1)).
  { rewrite <- Z.pow_succ_r by lia. f_equal. lia. }
  split.
  - unfold bit_ceil. destruct (Z.ltb_spec val 2).
    + exists 0. split_and!; try lia.
    + exists (Z.log2_up val). pose proof (Z.log2_up_nonneg val).
      destruct (Z.log2_up_spec val) as [_ Hup]; [lia|].
      assert (Hlog : Z.log2_up val <= Z.of_nat n - 1) by (apply Z.log2_up_le_pow2; lia).
      pose proof (Z.pow_le_mono_r 2 _ _ ltac:(lia) Hlog).
      rewrite (wrap_small _ (val - 1)) by lia. unfold bit_width.
      destruct (Z.eqb_spec (val - 1) 0); [lia|].
      rewrite bit_log2_spec by lia. replace (val - 1) with (Z.pred val) by lia.
      rewrite Z.add_1_r, <- Z.log2_up_eqn by lia.
      rewrite Z.shiftl_1_l. split_and!; try done; [apply wrap_small; lia|].
      intros j Hj Hle. apply Z.pow_le_mono_r; [lia|]. by apply Z.log2_up_le_pow2; [lia..|].
  - unfold bit_floor. destruct (Z.eqb_spec val 0); [lia|].
    exists (Z.log2 val). rewrite bit_log2_spec, Z.shiftl_1_l by lia.
    destruct (Z.log2_spec val) as [Hlo Hhi]; [lia|].
    split_and!; try done. apply Z.log2_nonneg.
Qed.

Lemma bit_rounding_witness :
  (exists k, 0 <= k /\ bit_ceil 32 100 = 2 ^ k /\ 100 <= 2 ^ k /\
     forall j, 0 <= j -> 100 <= 2 ^ j -> 2 ^ k <= 2 ^ j) /\
  (exists k, 0 <= k /\ bit_floor 32 100 = 2 ^ k /\ 2 ^ k <= 100 < 2 ^ (k + 1)).
Proof. apply (bit_rounding 32 100); [lia|]. vm_compute. split; congruence. Defined.

(** ** Byte order *)

Lemma byteswap_spec n v i :
  0 <= i ->
  Z.testbit (byteswap n v) i =
  if i <? 8 * Z.of_nat n then Z.testbit v (8 * (Z.of_nat n - 1 - i / 8) + i mod 8) else false.
Proof.
  revert v. induction n as [|n IH]; intros v Hi.
  - cbn [byteswap]. rewrite Z.bits_0. by destruct (Z.ltb_spec i (8 * Z.of_nat 0)); [lia|].
  - cbn [byteswap]. rewrite Z.lor_spec, IH, Z.shiftl_spec, Z.land_spec by lia.
    pose proof (Z.div_mod i 8). pose proof (Z.mod_pos_bound i 8).
    change 255 with (Z.ones 8).
    destruct (Z.ltb_spec i (8 * Z.of_nat n)), (Z.ltb_spec i (8 * Z.of_nat (S n))); try lia.
    + rewrite (Z.testbit_neg_r v (i - _)) by lia. rewrite Z.shiftr_spec by lia.
      simpl orb. f_equal. lia.
    + rewrite Z.testbit_ones_nonneg by lia. destruct (Z.ltb_spec (i - 8 * Z.of_nat n) 8); [|lia].
      rewrite andb_true_r, orb_false_r. f_equal. lia.
    + rewrite Z.testbit_ones_nonneg by lia. destruct (Z.ltb_spec (i - 8 * Z.of_nat n) 8); [lia|].
      by rewrite andb_false_r.
Qed.

Lemma byteswap_twice n v : 0 <= v < 2 ^ (8 * Z.of_nat n) -> byteswap n (byteswap n v) = v.
Proof.
  intros Hv. apply Z.bits_inj'. intros i Hi. rewrite byteswap_spec by lia.
  pose proof (Z.div_mod i 8). pose proof (Z.mod_pos_bound i 8).
  destruct (Z.ltb_spec i (8 * Z.of_nat n)).
  - rewrite byteswap_spec by lia.
    set (k := Z.of_nat n - 1 - i / 8). assert (0 <= k < Z.of_nat n) by lia.
    assert (Hd : (8 * k + i mod 8) / 8 = k).
    { rewrite Z.add_comm, Z.mul_comm, Z.div_add, Z.div_small by lia. lia. }
    assert (Hm : (8 * k + i mod 8) mod 8 = i mod 8).
    { rewrite Z.add_comm, Z.mul_comm, Z.mod_add, Z.mod_mod by lia. done. }
    rewrite Hd, Hm. destruct (Z.ltb_spec (8 * k + i mod 8) (8 * Z.of_nat n)); [|lia].
    f_equal. subst k. lia.
  - destruct (Z.eq_dec v 0) as [->|]; [by rewrite Z.bits_0|].
    symmetry. apply Z.bits_above_log2; [lia|]. apply Z.log2_lt_pow2; [lia|].
    eapply Z.lt_le_trans; [apply Hv|]. apply Z.pow_le_mono_r; lia.
Qed.

(** Converting a value to big or little endian and back is the identity on
    every value of the type, whatever the byte order of the machine, and the
    conversion to the other order moves byte [j] to byte [n-1-j]. *)
Theorem endian_roundtrip (Native : Order) (n : nat) (v : Z)
    (Hv : 0 <= v < 2 ^ (8 * Z.of_nat n)) :
  from_be Native n (to_be Native n v) = v /\
  from_le Native n (to_le Native n v) = v /\
  forall j k, 0 <= j < Z.of_nat n -> 0 <= k < 8 ->
    Z.testbit (byteswap n v) (8 * j + k) = Z.testbit v (8 * (Z.of_nat n - 1 - j) + k).
Proof.
  split_and!.
  - unfold from_be, to_be, convert. destruct Native; simpl; auto using byteswap_twice.
  - unfold from_le, to_le, convert. destruct Native; simpl; auto using byteswap_twice.
  - intros j k Hj Hk. rewrite byteswap_spec by lia.
    destruct (Z.ltb_spec (8 * j + k) (8 * Z.of_nat n)); [|lia].
    rewrite (Z.add_comm (8 * j)), (Z.mul_comm 8 j), Z.div_add, Z.mod_add by lia.
    rewrite Z.div_small, Z.mod_small by lia. f_equal; lia.
Qed.

Lemma endian_roundtrip_witness :
  from_be Little 4 (to_be Little 4 305419896) = 305419896.
Proof. apply (endian_roundtrip Little 4 305419896). lia. Defined.
