(* ===== verification/Sync.v ===== *)
(** * The array-based queueing lock

    Model of [src/sync/abql_block_mutex.hpp] and [src/sync/abql_block_mutex.cpp],
    the ticket lock that protects the device-side containers.  The mutex is a
    64-bit ticket counter and 32 turn words on separate memory channels; the
    threads that use it interleave one memory operation at a time.  The lock is
    shown to implement a first-come first-served lock, wrap-around of the
    64-bit tickets included. *)

From Stdlib Require Import ZArith Lia.
From stdpp Require Import base list relations.
From S2P Require Import Prelude.

(** ** The mutex *)

Definition memory_channels_ : Z := 32.

Record mutex := Mutex {
  ticket_ : Z;         (* TicketT ticket_ *)
  turns_ : list Z      (* Turn turns_[memory_channels_], the field vol_ *)
}.

Definition mutex_init : mutex := Mutex 0 (replicate (Z.to_nat memory_channels_) 0).

Definition turn_index (ticket : Z) : nat := Z.to_nat (ticket mod memory_channels_).

(** [atomicAdd(&ticket_, 1)]: the ticket is the old value of the counter. *)
Definition grab_ticket_ (m : mutex) : Z * mutex :=
  (ticket_ m, Mutex (u64 (ticket_ m + 1)) (turns_ m)).

Definition is_turn_ (m : mutex) (ticket : Z) : bool :=
  match turns_ m !! turn_index ticket with
  | Some v => v =? ticket
  | None => false
  end.

Definition signal_next_ (m : mutex) (ticket : Z) : mutex :=
  Mutex (ticket_ m) (<[turn_index ticket := ticket]> (turns_ m)).

Definition unlock (m : mutex) (my_ticket : Z) : mutex :=
  signal_next_ m (u64 (my_ticket + 1)).

(** ** Threads

    [lock] is [grab_ticket_] followed by the spin loop of [wait_turn_]; a
    thread is outside, spinning with its ticket, or between [lock] and
    [unlock]. *)

Inductive tstate :=
| Outside
| Waiting (ticket : Z)
| Holding (ticket : Z).

#[export] Instance tstate_eq_dec : EqDecision tstate.
Proof. solve_decision. Defined.

Inductive label :=
| Request (i : nat)
| Spin (i : nat)
| Enter (i : nat)
| Leave (i : nat).

Record config := Config { lock_mem : mutex; threads : list tstate }.

Definition config_init (n : nat) : config := Config mutex_init (replicate n Outside).

(** One step of thread [i]: the ticket is taken ([lock], first line), the spin
    loop of [wait_turn_] reads the turn word once and goes on or leaves, or the
    holder calls [unlock]. *)
Definition exec (l : label) (c : config) : option config :=
  let m := lock_mem c in
  let ts := threads c in
  match l with
  | Request i =>
      match ts !! i with
      | Some Outside =>
          let '(t, m') := grab_ticket_ m in Some (Config m' (<[i := Waiting t]> ts))
      | _ => None
      end
  | Spin i =>
      match ts !! i with
      | Some (Waiting t) => if is_turn_ m t then None else Some c
      | _ => None
      end
  | Enter i =>
      match ts !! i with
      | Some (Waiting t) => if is_turn_ m t then Some (Config m (<[i := Holding t]> ts)) else None
      | _ => None
      end
  | Leave i =>
      match ts !! i with
      | Some (Holding t) => Some (Config (unlock m t) (<[i := Outside]> ts))
      | _ => None
      end
  end.

Fixpoint run (ls : list label) (c : config) : option config :=
  match ls with
  | [] => Some c
  | l :: ls' => match exec l c with Some c' => run ls' c' | None => None end
  end.

(** ** Specification: a first-come first-served lock *)

Module Fcfs.

Record state := State { waiters : list nat; held : bool }.

Definition init : state := State [] false.

Definition exec (l : label) (s : state) : option state :=
  match l with
  | Request i => if decide (i ∈ waiters s) then None else Some (State (waiters s ++ [i]) (held s))
  | Spin _ => Some s
  | Enter i =>
      match waiters s, held s with
      | j :: _, false => if decide (i = j) then Some (State (waiters s) true) else None
      | _, _ => None
      end
  | Leave i =>
      match waiters s, held s with
      | j :: q, true => if decide (i = j) then Some (State q false) else None
      | _, _ => None
      end
  end.

Fixpoint run (ls : list label) (s : state) : option state :=
  match ls with
  | [] => Some s
  | l :: ls' => match exec l s with Some s' => run ls' s' | None => None end
  end.

End Fcfs.

(** ** The turn words

    When [s] tickets have been served, the word of channel [j] holds the last
    served ticket that maps to [j], or its initial 0. *)

Definition last_turn (s j : Z) : Z :=
  if s <? j then 0 else s - (s - j) mod memory_channels_.

Lemma last_turn_succ s j :
  0 <= s -> 0 <= j < memory_channels_ -> j <> (s + 1) mod memory_channels_ ->
  last_turn (s + 1) j = last_turn s j.
Proof.
  unfold last_turn, memory_channels_. intros Hs Hj Hne.
  destruct (Z.ltb_spec (s + 1) j), (Z.ltb_spec s j);
    Z.to_euclidean_division_equations; lia.
Qed.

Lemma last_turn_hit s : 0 <= s -> last_turn s (s mod memory_channels_) = s.
Proof.
  unfold last_turn, memory_channels_. intros Hs.
  destruct (Z.ltb_spec s (s mod 32)); Z.to_euclidean_division_equations; lia.
Qed.

Lemma channels_divide : (memory_channels_ | 2 ^ 64).
Proof. exists (2 ^ 59). reflexivity. Qed.

Lemma u64_mod_channels x : u64 x mod memory_channels_ = x mod memory_channels_.
Proof. apply wrap_mod_divide; [reflexivity | apply channels_divide]. Qed.

(** Among the outstanding tickets [s, s + k), exactly the first one finds its
    turn word set. *)
Lemma last_turn_only s k :
  0 <= s -> 0 <= k -> k + memory_channels_ <= 2 ^ 64 ->
  u64 (last_turn s ((s + k) mod memory_channels_)) = u64 (s + k) <-> k = 0.
Proof.
  intros Hs Hk Hb. split.
  - intros He. destruct (Z.eq_dec k 0) as [|Hk0]; [done|exfalso].
    assert (Hj : 0 <= (s + k) mod memory_channels_ < memory_channels_)
      by (apply Z.mod_pos_bound; reflexivity).
    revert He. unfold last_turn. case_if; intros He.
    + assert (Hm : (s + k) mod memory_channels_ = 0).
      { rewrite <- (u64_mod_channels (s + k)), <- He. reflexivity. }
      lia.
    + assert (Hr : 0 <= (s - (s + k) mod memory_channels_) mod memory_channels_ < memory_channels_)
        by (apply Z.mod_pos_bound; reflexivity).
      apply wrap_inj_window in He; unfold memory_channels_ in *; lia.
  - intros ->. rewrite Z.add_0_r, last_turn_hit; done.
Qed.

(** ** The simulation relation *)

Definition queued (s : Z) (held : bool) (k : nat) : tstate :=
  if held && (k =? 0)%nat then Holding (u64 s) else Waiting (u64 (s + Z.of_nat k)).

Record simulates (s : Z) (c : config) (a : Fcfs.state) : Prop := {
  sim_s : 0 <= s;
  sim_bound : Z.of_nat (length (threads c)) + memory_channels_ <= 2 ^ 64;
  sim_ticket : ticket_ (lock_mem c) = u64 (s + Z.of_nat (length (Fcfs.waiters a)));
  sim_turns_len : length (turns_ (lock_mem c)) = Z.to_nat memory_channels_;
  sim_turns : forall j, 0 <= j < memory_channels_ ->
    turns_ (lock_mem c) !! Z.to_nat j = Some (u64 (last_turn s j));
  sim_nodup : NoDup (Fcfs.waiters a);
  sim_queue : forall k i, Fcfs.waiters a !! k = Some i ->
    threads c !! i = Some (queued s (Fcfs.held a) k);
  sim_outside : forall i t, threads c !! i = Some t -> t <> Outside -> i ∈ Fcfs.waiters a;
  sim_held : Fcfs.held a = true -> Fcfs.waiters a <> []
}.

Lemma sim_waiters_length s c a :
  simulates s c a -> (length (Fcfs.waiters a) <= length (threads c))%nat.
Proof.
  intros H.
  assert (Hin : Fcfs.waiters a ⊆ seq 0 (length (threads c))).
  { intros i [k Hk]%list_elem_of_lookup. apply elem_of_seq.
    apply (sim_queue _ _ _ H), lookup_lt_Some in Hk. lia. }
  apply NoDup_submseteq in Hin; [|apply (sim_nodup _ _ _ H)].
  apply submseteq_length in Hin. by rewrite length_seq in Hin.
Qed.

Lemma sim_init n :
  Z.of_nat n + memory_channels_ <= 2 ^ 64 -> simulates 0 (config_init n) Fcfs.init.
Proof.
  intros Hn. split; [lia | by simpl; rewrite length_replicate | reflexivity | reflexivity
    | | constructor | done | | done].
  - intros j Hj. change (turns_ (lock_mem (config_init n))) with (replicate 32 0).
    unfold memory_channels_ in Hj. rewrite lookup_replicate_2 by lia.
    unfold last_turn. destruct (Z.ltb_spec 0 j); [done|].
    by replace j with 0 by lia.
  - intros i t Ht Hne. apply lookup_replicate in Ht as [-> _]. done.
Qed.

(** The turn word of an outstanding ticket is set exactly for the oldest. *)
Lemma sim_is_turn s c a k :
  simulates s c a -> (k < length (Fcfs.waiters a))%nat ->
  is_turn_ (lock_mem c) (u64 (s + Z.of_nat k)) = (k =? 0)%nat.
Proof.
  intros H Hk. pose proof (sim_waiters_length _ _ _ H) as Hlen.
  pose proof (sim_bound _ _ _ H). pose proof (sim_s _ _ _ H).
  assert (Hj : 0 <= (s + Z.of_nat k) mod memory_channels_ < memory_channels_)
    by (apply Z.mod_pos_bound; reflexivity).
  unfold is_turn_, turn_index. rewrite u64_mod_channels, (sim_turns _ _ _ H) by done.
  pose proof (last_turn_only s (Z.of_nat k)) as Hl.
  destruct (Nat.eqb_spec k 0) as [->|Hne].
  - apply Z.eqb_eq, Hl; lia.
  - apply Z.eqb_neq. intros He. apply Hl in He; lia.
Qed.

(** A thread that waits or holds is in the queue, at the place its ticket says. *)
Lemma sim_member s c a i t :
  simulates s c a -> threads c !! i = Some t -> t <> Outside ->
  exists k, Fcfs.waiters a !! k = Some i /\ t = queued s (Fcfs.held a) k.
Proof.
  intros H Hi Ht. pose proof (sim_outside _ _ _ H _ _ Hi Ht) as [k Hk]%list_elem_of_lookup.
  exists k. split; [done|]. pose proof (sim_queue _ _ _ H _ _ Hk). congruence.
Qed.

Lemma sim_request s c a i c' :
  simulates s c a -> exec (Request i) c = Some c' ->
  exists a', Fcfs.exec (Request i) a = Some a' /\ simulates s c' a'.
Proof.
  intros H. simpl. destruct (threads c !! i) as [[| |]|] eqn:Hi; try done. intros [= <-].
  assert (Hni : i ∉ Fcfs.waiters a).
  { intros [k Hk]%list_elem_of_lookup. pose proof (sim_queue _ _ _ H _ _ Hk) as Hq.
    rewrite Hi in Hq. unfold queued in Hq. by destruct (_ && _). }
  rewrite decide_False by done. eexists; split; [done|].
  destruct H as [Hs Hb Htk Hl Htn Hnd Hq Ho Hh].
  split; simpl; rewrite ?length_insert; try done.
  - rewrite length_app, Htk, wrap_add_l. f_equal. simpl. lia.
  - apply NoDup_app. split; [done|]. split; [|by apply NoDup_singleton].
    intros j Hj ->%list_elem_of_singleton. done.
  - intros k j. rewrite lookup_app_Some. intros [Hk|[Hk1 Hk2]].
    + destruct (decide (i = j)) as [->|Hne].
      { exfalso. apply Hni, list_elem_of_lookup. eauto. }
      rewrite list_lookup_insert_ne by done. auto.
    + apply list_lookup_singleton_Some in Hk2 as [Hk0 <-].
      rewrite list_lookup_insert_eq by (eapply lookup_lt_Some; eauto).
      unfold queued. replace k with (length (Fcfs.waiters a)) by lia.
      rewrite Htk. destruct (Fcfs.held a); [|done]. simpl.
      destruct (Nat.eqb_spec (length (Fcfs.waiters a)) 0) as [H0|]; [|done].
      apply nil_length_inv in H0. by destruct Hh.
  - intros j t Hj Ht. apply elem_of_app.
    destruct (decide (i = j)) as [->|Hne]; [right; by apply list_elem_of_singleton|].
    rewrite list_lookup_insert_ne in Hj by done. left. eauto.
  - intros Hhd. destruct (Fcfs.waiters a); done.
Qed.

Lemma sim_enter s c a i c' :
  simulates s c a -> exec (Enter i) c = Some c' ->
  exists a', Fcfs.exec (Enter i) a = Some a' /\ simulates s c' a'.
Proof.
  intros H. simpl. destruct (threads c !! i) as [[|t|]|] eqn:Hi; try done.
  destruct (is_turn_ _ t) eqn:Hturn; [|done]. intros [= <-].
  destruct (sim_member _ _ _ _ _ H Hi) as (k & Hk & Ht); [done|].
  assert (k = 0%nat) as ->.
  { unfold queued in Ht. destruct (Fcfs.held a && (k =? 0)%nat); [done|].
    injection Ht as ->. rewrite (sim_is_turn _ _ _ k H) in Hturn.
    - by apply Nat.eqb_eq.
    - by eapply lookup_lt_Some. }
  destruct (Fcfs.held a) eqn:Hheld; [done|].
  destruct (Fcfs.waiters a) as [|j q] eqn:Hw; [done|]. injection Hk as ->.
  rewrite decide_True by done. eexists; split; [done|].
  destruct H as [Hs Hb Htk Hl Htn Hnd Hq Ho Hh]. rewrite Hw, Hheld in *.
  split; simpl; rewrite ?length_insert; try done.
  - intros k j Hk. destruct k as [|k]; simpl in Hk.
    + injection Hk as <-. rewrite list_lookup_insert_eq by (eapply lookup_lt_Some; eauto).
      unfold queued in *. simpl in *. injection Ht as ->. by rewrite Z.add_0_r.
    + rewrite list_lookup_insert_ne; [by apply Hq|]. intros ->.
      apply NoDup_cons in Hnd as [Hnd _]. apply Hnd, list_elem_of_lookup. eauto.
  - intros j t' Hj Ht'. destruct (decide (i = j)) as [->|Hne]; [by left|].
    rewrite list_lookup_insert_ne in Hj by done. eauto.
Qed.

Lemma sim_leave s c a i c' :
  simulates s c a -> exec (Leave i) c = Some c' ->
  exists a', Fcfs.exec (Leave i) a = Some a' /\ simulates (s + 1) c' a'.
Proof.
  intros H. simpl. destruct (threads c !! i) as [[| |t]|] eqn:Hi; try done. intros [= <-].
  destruct (sim_member _ _ _ _ _ H Hi) as (k & Hk & Ht); [done|].
  assert (Fcfs.held a = true /\ k = 0%nat /\ t = u64 s) as (Hheld & -> & ->).
  { unfold queued in Ht. destruct (Fcfs.held a); simpl in Ht; [|done].
    destruct (Nat.eqb_spec k 0); [|done]. split; [done|]. split; [done|congruence]. }
  rewrite Hheld. destruct (Fcfs.waiters a) as [|j q] eqn:Hw; [done|]. injection Hk as ->.
  rewrite decide_True by done. eexists; split; [done|].
  destruct H as [Hs Hb Htk Hl Htn Hnd Hq Ho Hh]. rewrite Hw, Hheld in *.
  apply NoDup_cons in Hnd as [Hni Hnd].
  split; simpl; rewrite ?length_insert; try done.
  - lia.
  - rewrite Htk. f_equal. simpl. lia.
  - intros j Hj. unfold turn_index. rewrite !wrap_add_l, u64_mod_channels.
    destruct (Z.eq_dec j ((s + 1) mod memory_channels_)) as [->|Hne].
    + rewrite list_lookup_insert_eq by (rewrite Hl; lia).
      by rewrite last_turn_hit by lia.
    + rewrite list_lookup_insert_ne.
      * rewrite last_turn_succ by (done || lia). auto.
      * pose proof (Z.mod_pos_bound (s + 1) memory_channels_ eq_refl). lia.
  - intros k j Hk. rewrite list_lookup_insert_ne.
    + rewrite (Hq (S k) j) by done. unfold queued. simpl. f_equal. f_equal. f_equal. lia.
    + intros ->. apply Hni, list_elem_of_lookup. eauto.
  - intros j t Hj Ht'. destruct (decide (i = j)) as [->|Hne].
    + rewrite list_lookup_insert_eq in Hj by (eapply lookup_lt_Some; eauto). congruence.
    + rewrite list_lookup_insert_ne in Hj by done.
      specialize (Ho _ _ Hj Ht'). apply elem_of_cons in Ho as [->|]; done.
Qed.

Lemma sim_exec s c a l c' :
  simulates s c a -> exec l c = Some c' ->
  exists s' a', Fcfs.exec l a = Some a' /\ simulates s' c' a'.
Proof.
  intros H He. destruct l as [i|i|i|i].
  - destruct (sim_request _ _ _ _ _ H He) as (a' & ? & ?). eauto.
  - exists s, a. split; [done|]. simpl in He.
    destruct (threads c !! i) as [[|t|]|]; try done. destruct (is_turn_ _ t); congruence.
  - destruct (sim_enter _ _ _ _ _ H He) as (a' & ? & ?). eauto.
  - destruct (sim_leave _ _ _ _ _ H He) as (a' & ? & ?). eauto.
Qed.

Lemma sim_run ls s c a c' :
  simulates s c a -> run ls c = Some c' ->
  exists s' a', Fcfs.run ls a = Some a' /\ simulates s' c' a'.
Proof.
  revert s c a. induction ls as [|l ls IH]; intros s c a H Hr; simpl in Hr.
  - injection Hr as <-. exists s, a. done.
  - destruct (exec l c) as [c1|] eqn:He; [|done].
    destruct (sim_exec _ _ _ _ _ H He) as (s1 & a1 & Ha & H1). simpl. rewrite Ha. eauto.
Qed.

(** Only the head of the queue can hold the lock. *)
Lemma sim_holder s c a i t :
  simulates s c a -> threads c !! i = Some (Holding t) ->
  Fcfs.waiters a !! 0%nat = Some i.
Proof.
  intros H Hi. destruct (sim_member _ _ _ _ _ H Hi) as (k & Hk & Ht); [done|].
  unfold queued in Ht. destruct (Fcfs.held a); [|done]. simpl in Ht.
  by destruct (Nat.eqb_spec k 0) as [->|].
Qed.

(** ** The properties of the lock *)

(** C20: every interleaving of any number of threads of the lock (fewer than
    [2^64 - 32] of them) is a run of the first-come first-served lock: requests
    enter at the tail, only the head of the queue enters, only the holder
    leaves.  The 64-bit tickets may wrap. *)
Theorem abql_refines_fcfs (n : nat) (ls : list label) (c : config)
  (Hn : Z.of_nat n + memory_channels_ <= 2 ^ 64)
  (Hrun : run ls (config_init n) = Some c) :
  exists a, Fcfs.run ls Fcfs.init = Some a /\
    (forall i t, threads c !! i = Some (Waiting t) -> i ∈ Fcfs.waiters a) /\
    (forall i t, threads c !! i = Some (Holding t) ->
       Fcfs.held a = true /\ head (Fcfs.waiters a) = Some i).
Proof.
  destruct (sim_run _ _ _ _ _ (sim_init n Hn) Hrun) as (s & a & Ha & H).
  exists a. split; [done|]. split.
  - intros i t Hi. by eapply sim_outside; eauto.
  - intros i t Hi. pose proof (sim_holder _ _ _ _ _ H Hi) as H0. split.
    + pose proof (sim_queue _ _ _ H _ _ H0) as Hq. rewrite Hi in Hq.
      unfold queued in Hq. by destruct (Fcfs.held a).
    + destruct (Fcfs.waiters a); [done|]. by simpl in *.
Qed.

Lemma abql_refines_fcfs_witness :
  exists a, Fcfs.run [Request 1; Request 0; Enter 1] Fcfs.init = Some a /\
    head (Fcfs.waiters a) = Some 1%nat.
Proof.
  destruct (abql_refines_fcfs 2 [Request 1; Request 0; Enter 1]
    (Config (Mutex 2 (turns_ mutex_init)) [Waiting 1; Holding 0])) as (a & Ha & _ & Hh).
  - vm_compute. discriminate.
  - reflexivity.
  - exists a. split; [exact Ha|]. apply (Hh 1%nat 0). reflexivity.
Defined.

(** Mutual exclusion: in every reachable state at most one thread is
    between [lock] and [unlock]. *)
Theorem abql_mutual_exclusion (n : nat) (ls : list label) (c : config) (i j : nat) (t u : Z)
  (Hn : Z.of_nat n + memory_channels_ <= 2 ^ 64)
  (Hrun : run ls (config_init n) = Some c)
  (Hi : threads c !! i = Some (Holding t)) (Hj : threads c !! j = Some (Holding u)) :
  i = j.
Proof.
  destruct (sim_run _ _ _ _ _ (sim_init n Hn) Hrun) as (s & a & _ & H).
  pose proof (sim_holder _ _ _ _ _ H Hi). pose proof (sim_holder _ _ _ _ _ H Hj). congruence.
Qed.

Lemma abql_mutual_exclusion_witness : 1%nat = 1%nat.
Proof.
  apply (abql_mutual_exclusion 2 [Request 1; Request 0; Enter 1]
    (Config (Mutex 2 (turns_ mutex_init)) [Waiting 1; Holding 0]) 1 1 0 0);
    [vm_compute; discriminate | reflexivity | reflexivity | reflexivity].
Defined.

(** The lock never gets stuck: while some thread waits, either the holder
    can leave or the oldest waiting thread can enter. *)
Theorem abql_progress (n : nat) (ls : list label) (c : config) (i : nat) (t : Z)
  (Hn : Z.of_nat n + memory_channels_ <= 2 ^ 64)
  (Hrun : run ls (config_init n) = Some c)
  (Hi : threads c !! i = Some (Waiting t)) :
  exists j c', exec (Enter j) c = Some c' \/ exec (Leave j) c = Some c'.
Proof.
  destruct (sim_run _ _ _ _ _ (sim_init n Hn) Hrun) as (s & a & _ & H).
  pose proof (sim_outside _ _ _ H _ _ Hi ltac:(done)) as Hin.
  destruct (Fcfs.waiters a) as [|j q] eqn:Hw; [by apply elem_of_nil in Hin|].
  assert (H0 : Fcfs.waiters a !! 0%nat = Some j) by by rewrite Hw.
  pose proof (sim_queue _ _ _ H _ _ H0) as Hj. exists j.
  unfold queued in Hj. destruct (Fcfs.held a); simpl in Hj.
  - eexists. right. simpl. by rewrite Hj.
  - eexists. left. simpl. rewrite Hj.
    pose proof (sim_is_turn _ _ _ 0%nat H) as Ht. simpl in Ht.
    rewrite Ht by (rewrite Hw; simpl; lia). done.
Qed.

Lemma abql_progress_witness :
  exists j c', exec (Enter j) (Config (Mutex 1 (turns_ mutex_init)) [Waiting 0]) = Some c' \/
               exec (Leave j) (Config (Mutex 1 (turns_ mutex_init)) [Waiting 0]) = Some c'.
Proof.
  apply (abql_progress 1 [Request 0] (Config (Mutex 1 (turns_ mutex_init)) [Waiting 0]) 0 0);
    [vm_compute; discriminate | reflexivity | reflexivity].
Defined.
