(* ===== verification/FreeList.v ===== *)
(** * The free list

    Model of [src/containers/free_list.hpp] and [src/containers/free_list_impl.hpp]:
    a singly linked list with a head and a tail pointer, whose removed nodes are
    kept in a second list and reused by the device-side [push_back].  The nodes
    live in an explicit heap, so the model sees aliasing, dangling pointers and
    double frees; an access outside the heap is a fault ([None]).  Each
    device-side operation runs inside the lock of [Sync] from its first to its
    last memory access, and is therefore one transition. *)

From Stdlib Require Import ZArith Lia.
From stdpp Require Import base option list gmap.
From S2P Require Import Prelude.

Open Scope nat_scope.

Abbreviation addr := positive.

Section free_list.
Context {A : Type} `{!Inhabited A}.

(** ** Data *)

Record node := Node { data : A; next : option addr }.

Record flist := FList {
  heap : gmap addr node;
  head_ : option addr;
  tail_ : option addr;
  deallocated_nodes_ : option addr
}.

Record pop_result := PopResult { value : A; success : bool }.

Definition flist_init : flist := FList ∅ None None None.

(** ** Operations *)

(** Device-side [allocate_node]: take the first recycled node, if any. *)
Definition allocate_node (s : flist) : option (option addr * flist) :=
  match deallocated_nodes_ s with
  | None => Some (None, s)
  | Some p =>
      n ← heap s !! p;
      Some (Some p, FList (heap s) (head_ s) (tail_ s) (next n))
  end.

Definition insert_node_at_tail (p : addr) (s : flist) : option flist :=
  h ← match tail_ s with
      | Some t => n ← heap s !! t; Some (<[t := Node (data n) (Some p)]> (heap s))
      | None => Some (heap s)
      end;
  Some (FList h
    (match head_ s with None => Some p | Some q => Some q end)
    (Some p)
    (deallocated_nodes_ s)).

Definition deallocate_node (p : addr) (s : flist) : option flist :=
  n ← heap s !! p;
  Some (FList (<[p := Node (data n) (deallocated_nodes_ s)]> (heap s))
    (head_ s) (tail_ s) (Some p)).

(** [node->data = val; node->next = nullptr;] *)
Definition write_node (p : addr) (val : A) (s : flist) : option flist :=
  _ ← heap s !! p;
  Some (FList (<[p := Node val None]> (heap s)) (head_ s) (tail_ s) (deallocated_nodes_ s)).

(** Device-side [push_back]. *)
Definition push_back (val : A) (s : flist) : option (bool * flist) :=
  '(r, s1) ← allocate_node s;
  match r with
  | None => Some (false, s1)
  | Some p =>
      s2 ← write_node p val s1;
      s3 ← insert_node_at_tail p s2;
      Some (true, s3)
  end.

Definition pop_front (s : flist) : option (pop_result * flist) :=
  match head_ s with
  | None => Some (PopResult inhabitant false, s)
  | Some last_node =>
      n ← heap s !! last_node;
      let head' := next n in
      let tail' := match head' with None => None | Some _ => tail_ s end in
      let s1 := FList (heap s) head' tail' (deallocated_nodes_ s) in
      s2 ← deallocate_node last_node s1;
      Some (PopResult (data n) true, s2)
  end.

(** The first [while] loop of [deallocate_all_nodes]; freeing a node that is not
    in the heap is a fault. *)
Fixpoint deallocate_chain (fuel : nat) (h : gmap addr node) (p : option addr)
  : option (gmap addr node) :=
  match p, fuel with
  | None, _ => Some h
  | Some _, O => None
  | Some a, S fuel' => n ← h !! a; deallocate_chain fuel' (delete a h) (next n)
  end.

Definition deallocate_all_nodes (fuel : nat) (s : flist) : option flist :=
  h1 ← deallocate_chain fuel (heap s) (head_ s);
  h2 ← deallocate_chain fuel h1 (deallocated_nodes_ s);
  Some (FList h2 None None None).

(** ** Representation *)

Fixpoint chain (h : gmap addr node) (p : option addr) (l : list addr) : Prop :=
  match l with
  | [] => p = None
  | a :: l' => p = Some a /\ exists n, h !! a = Some n /\ chain h (next n) l'
  end.

(** The list [vs] is stored in the nodes [ps], the recycled nodes are [fs], and
    the heap holds these nodes and no other. *)
Record represents (s : flist) (ps : list addr) (vs : list A) (fs : list addr) : Prop := {
  rep_head : chain (heap s) (head_ s) ps;
  rep_tail : tail_ s = last ps;
  rep_free : chain (heap s) (deallocated_nodes_ s) fs;
  rep_data : Forall2 (fun p v => data <$> heap s !! p = Some v) ps vs;
  rep_nodup : NoDup (ps ++ fs);
  rep_owned : forall a, is_Some (heap s !! a) <-> a ∈ ps ++ fs
}.

Lemma chain_frame (h : gmap addr node) p l a n : a ∉ l -> chain h p l -> chain (<[a := n]> h) p l.
Proof.
  revert p. induction l as [|b l IH]; intros p Ha; simpl; [done|].
  apply not_elem_of_cons in Ha as [Hne Ha].
  intros (-> & m & Hm & Hc). split; [done|]. exists m.
  rewrite lookup_insert_ne by done. auto.
Qed.

(** Linking a detached node behind the last one. *)
Lemma chain_snoc (h : gmap addr node) p l a b n m :
  h !! b = Some n -> next n = None -> NoDup (l ++ [a]) -> b ∉ l ++ [a] ->
  h !! a = Some m -> chain h p (l ++ [a]) ->
  chain (<[a := Node (data m) (Some b)]> h) p (l ++ [a; b]).
Proof.
  intros Hb Hn. revert p. induction l as [|x l IH]; intros p Hnd Hni Ha; simpl.
  - intros (-> & m' & Hm' & _). split; [done|]. eexists. split; [by rewrite lookup_insert_eq|].
    simpl. split; [done|]. exists n. rewrite lookup_insert_ne; [done|].
    intros ->. apply Hni. by left.
  - simpl in *. apply NoDup_cons in Hnd as [Hx Hnd]. intros (-> & k & Hk & Hc). split; [done|].
    apply not_elem_of_cons in Hni as [_ Hni].
    exists k. rewrite lookup_insert_ne; [split; [done|]; by apply IH|].
    intros ->. apply Hx. rewrite elem_of_app, list_elem_of_singleton. by right.
Qed.

Lemma data_frame (h : gmap addr node) ps vs a n :
  a ∉ ps -> Forall2 (fun p v => data <$> h !! p = Some v) ps vs ->
  Forall2 (fun p v => data <$> <[a := n]> h !! p = Some v) ps vs.
Proof.
  intros Ha HF. induction HF as [|p v ps vs Hp HF IH]; [constructor|].
  apply not_elem_of_cons in Ha as [Hne Ha]. constructor; [|auto].
  by rewrite lookup_insert_ne.
Qed.

Lemma data_relink (h : gmap addr node) ps vs a m q :
  h !! a = Some m -> Forall2 (fun p v => data <$> h !! p = Some v) ps vs ->
  Forall2 (fun p v => data <$> <[a := Node (data m) q]> h !! p = Some v) ps vs.
Proof.
  intros Hm HF. induction HF as [|p v ps vs Hp HF IH]; constructor; [|done].
  destruct (decide (a = p)) as [->|Hne].
  - rewrite lookup_insert_eq. simpl. rewrite Hm in Hp. done.
  - by rewrite lookup_insert_ne.
Qed.

Lemma owned_write (h : gmap addr node) (l : list addr) b n :
  b ∈ l -> (forall a, is_Some (h !! a) <-> a ∈ l) ->
  forall a, is_Some (<[b := n]> h !! a) <-> a ∈ l.
Proof.
  intros Hb Ho a. destruct (decide (b = a)) as [->|Hne].
  - rewrite lookup_insert_eq. split; [done|eauto].
  - rewrite lookup_insert_ne by done. apply Ho.
Qed.

Lemma owned_perm (h : gmap addr node) (l l' : list addr) :
  l ≡ₚ l' -> (forall a, is_Some (h !! a) <-> a ∈ l) -> forall a, is_Some (h !! a) <-> a ∈ l'.
Proof. intros Hp Ho a. by rewrite Ho, Hp. Qed.

(** Appending a detached, filled node [b] keeps a well-formed list. *)
Lemma insert_node_at_tail_ok s ps vs fs b v :
  heap s !! b = Some (Node v None) ->
  chain (heap s) (head_ s) ps -> tail_ s = last ps ->
  chain (heap s) (deallocated_nodes_ s) fs ->
  Forall2 (fun p v => data <$> heap s !! p = Some v) ps vs ->
  NoDup (ps ++ b :: fs) ->
  (forall a, is_Some (heap s !! a) <-> a ∈ ps ++ b :: fs) ->
  exists s', insert_node_at_tail b s = Some s' /\ represents s' (ps ++ [b]) (vs ++ [v]) fs.
Proof.
  intros Hb Hh Ht Hf Hd Hnd Ho. unfold insert_node_at_tail.
  assert (Hnd' : NoDup ((ps ++ [b]) ++ fs)) by (by rewrite <- app_assoc).
  assert (Ho' : forall a, is_Some (heap s !! a) <-> a ∈ (ps ++ [b]) ++ fs).
  { by rewrite <- app_assoc. }
  clear Ho. apply NoDup_app in Hnd as (Hnp & Hdis & _).
  assert (Hbp : b ∉ ps) by (intros Hin; apply (Hdis b Hin); by left).
  destruct ps as [|a ps _] using rev_ind.
  - simpl in *. subst. rewrite Ht. simpl. eexists. split; [done|]. rewrite Hh.
    inversion Hd; subst. split; simpl; try done.
    + split; [done|]. exists (Node v None). done.
    + constructor; [by rewrite Hb|constructor].
  - rewrite last_snoc in Ht. rewrite Ht.
    assert (Ha : a ∈ ((ps ++ [a]) ++ [b]) ++ fs).
    { rewrite !elem_of_app, list_elem_of_singleton. tauto. }
    assert (Hab : a <> b).
    { intros ->. apply Hbp. rewrite elem_of_app, list_elem_of_singleton. by right. }
    destruct (proj2 (Ho' a) Ha) as [m Hm]. rewrite Hm. simpl. eexists. split; [done|].
    assert (Hhead : exists q, head_ s = Some q).
    { destruct ps; simpl in Hh; destruct Hh as [-> _]; eauto. }
    destruct Hhead as [q Hq]. rewrite Hq in *.
    split; simpl; try done.
    + rewrite <- app_assoc. simpl. by eapply chain_snoc.
    + by rewrite last_snoc.
    + apply chain_frame; [|done]. intros Hin. apply (Hdis a); [|by right].
      rewrite elem_of_app, list_elem_of_singleton. by right.
    + apply Forall2_app; [by apply data_relink|].
      constructor; [|constructor]. rewrite lookup_insert_ne by done. by rewrite Hb.
    + by apply owned_write.
Qed.

Lemma push_back_recycles s ps vs f fs v :
  represents s ps vs (f :: fs) ->
  exists s', push_back v s = Some (true, s') /\ represents s' (ps ++ [f]) (vs ++ [v]) fs.
Proof.
  intros [Hh Ht Hf Hd Hnd Ho]. simpl in Hf. destruct Hf as (Hdn & n & Hn & Hf).
  unfold push_back, allocate_node. rewrite Hdn, Hn. simpl.
  unfold write_node. simpl. rewrite Hn. simpl.
  apply NoDup_app in Hnd as (Hnp & Hdis & Hnf). pose proof Hnf as Hnf'.
  apply NoDup_cons in Hnf as [Hff Hnf].
  assert (Hfp : f ∉ ps) by (intros Hin; apply (Hdis f Hin); by left).
  edestruct (insert_node_at_tail_ok
    (FList (<[f := Node v None]> (heap s)) (head_ s) (tail_ s) (next n)) ps vs fs f v)
    as (s' & -> & Hrep); simpl; eauto.
  - by rewrite lookup_insert_eq.
  - by apply chain_frame.
  - by apply chain_frame.
  - by apply data_frame.
  - by apply NoDup_app.
  - apply owned_write; [|done]. rewrite elem_of_app. right. by left.
Qed.

Lemma push_back_full s ps vs v :
  represents s ps vs [] -> push_back v s = Some (false, s).
Proof. intros H. unfold push_back, allocate_node. by rewrite (rep_free _ _ _ _ H). Qed.

Lemma pop_front_nonempty s ps p vs v fs :
  represents s (p :: ps) (v :: vs) fs ->
  exists s', pop_front s = Some (PopResult v true, s') /\ represents s' ps vs (p :: fs).
Proof.
  intros [Hh Ht Hf Hd Hnd Ho]. simpl in Hh. destruct Hh as (Hhd & n & Hn & Hh).
  unfold pop_front, deallocate_node. rewrite Hhd, Hn. simpl. rewrite Hn. simpl.
  inversion Hd as [|? ? ? ? Hpv Hd']; subst. rewrite Hn in Hpv. simpl in Hpv.
  injection Hpv as ->. eexists. split; [done|].
  simpl in Hnd. apply NoDup_cons in Hnd as [Hp Hnd].
  apply not_elem_of_app in Hp as [Hpp Hpf].
  split; simpl.
  - by apply chain_frame.
  - destruct ps as [|q ps]; simpl in Hh |- *; [by rewrite Hh|].
    destruct Hh as [-> _]. done.
  - split; [done|]. eexists. split; [by rewrite lookup_insert_eq|]. simpl. by apply chain_frame.
  - by apply data_frame.
  - rewrite <- Permutation_middle. apply NoDup_cons. split; [|done].
    by apply not_elem_of_app.
  - apply owned_write; [rewrite elem_of_app; right; by left|].
    eapply owned_perm; [|exact Ho]. apply Permutation_middle.
Qed.

Lemma pop_front_empty s fs :
  represents s [] [] fs -> pop_front s = Some (PopResult inhabitant false, s).
Proof. intros H. unfold pop_front. by rewrite (rep_head _ _ _ _ H). Qed.

(** Walking a chain frees exactly its nodes. *)
Lemma deallocate_chain_ok fuel (h : gmap addr node) p l :
  chain h p l -> NoDup l -> length l <= fuel ->
  exists h', deallocate_chain fuel h p = Some h' /\
    forall a, h' !! a = if decide (a ∈ l) then None else h !! a.
Proof.
  revert fuel h p. induction l as [|x l IH]; intros fuel h p Hc Hnd Hf; simpl in *.
  - subst. exists h. split; [by destruct fuel|]. done.
  - destruct Hc as (-> & n & Hn & Hc). destruct fuel as [|fuel]; [lia|].
    apply NoDup_cons in Hnd as [Hx Hnd]. simpl. rewrite Hn. simpl.
    assert (Hc' : chain (delete x h) (next n) l).
    { clear -Hx Hc. revert Hc. generalize (next n). revert Hx.
      induction l as [|y l IHl]; intros Hx q; simpl; [done|].
      intros (-> & m & Hm & Hc). apply not_elem_of_cons in Hx as [Hne Hx].
      split; [done|]. exists m. rewrite lookup_delete_ne by done. auto. }
    destruct (IH fuel _ _ Hc' Hnd) as (h' & Hd & Hl); [lia|].
    exists h'. split; [done|]. intros a. rewrite Hl.
    destruct (decide (a = x)) as [->|Hne].
    + rewrite decide_False, decide_True, lookup_delete_eq by (done || by left). done.
    + rewrite lookup_delete_ne by done.
      destruct (decide (a ∈ l)); [rewrite decide_True by (by right)|
        rewrite decide_False by (rewrite elem_of_cons; tauto)]; done.
Qed.

(** ** Specification: a bounded FIFO queue *)

Record queue := Queue { items : list A; spare : nat }.

Inductive op := Push (v : A) | Pop.

Inductive result := Pushed (b : bool) | Popped (v : option A).

Definition spec_op (o : op) (q : queue) : result * queue :=
  match o with
  | Push v =>
      match spare q with
      | O => (Pushed false, q)
      | S k => (Pushed true, Queue (items q ++ [v]) k)
      end
  | Pop =>
      match items q with
      | [] => (Popped None, q)
      | v :: vs => (Popped (Some v), Queue vs (S (spare q)))
      end
  end.

Fixpoint spec_ops (os : list op) (q : queue) : list result * queue :=
  match os with
  | [] => ([], q)
  | o :: os' =>
      let '(r, q1) := spec_op o q in
      let '(rs, q2) := spec_ops os' q1 in (r :: rs, q2)
  end.

Definition impl_op (o : op) (s : flist) : option (result * flist) :=
  match o with
  | Push v => '(b, s') ← push_back v s; Some (Pushed b, s')
  | Pop =>
      '(r, s') ← pop_front s;
      Some (Popped (if success r then Some (value r) else None), s')
  end.

Fixpoint impl_ops (os : list op) (s : flist) : option (list result * flist) :=
  match os with
  | [] => Some ([], s)
  | o :: os' =>
      '(r, s1) ← impl_op o s;
      '(rs, s2) ← impl_ops os' s1;
      Some (r :: rs, s2)
  end.

Lemma impl_op_refines o s ps vs fs :
  represents s ps vs fs ->
  let '(r, q) := spec_op o (Queue vs (length fs)) in
  exists s' ps' fs', impl_op o s = Some (r, s') /\
    represents s' ps' (items q) fs' /\ spare q = length fs' /\
    ps ++ fs ≡ₚ ps' ++ fs'.
Proof.
  intros H. destruct o as [v|]; simpl.
  - destruct fs as [|f fs]; simpl.
    + rewrite (push_back_full _ _ _ _ H). simpl. eauto 10.
    + destruct (push_back_recycles _ _ _ _ _ v H) as (s' & -> & H'). simpl.
      exists s', (ps ++ [f]), fs. split_and!; try done. by rewrite <- app_assoc.
  - destruct vs as [|v vs]; simpl.
    + pose proof (Forall2_nil_inv_r _ _ (rep_data _ _ _ _ H)) as ->.
      rewrite (pop_front_empty _ _ H). simpl. eauto 10.
    + destruct (Forall2_cons_inv_r _ _ _ _ (rep_data _ _ _ _ H)) as (p & ps' & _ & _ & ->).
      destruct (pop_front_nonempty _ _ _ _ _ _ H) as (s' & -> & H'). simpl.
      exists s', ps', (p :: fs). split_and!; try done. by rewrite Permutation_middle.
Qed.

(** The recycled nodes and the list together are never lost: every node stays in
    one of the two chains. *)
Lemma impl_ops_refines os s ps vs fs :
  represents s ps vs fs ->
  let '(rs, q) := spec_ops os (Queue vs (length fs)) in
  exists s' ps' fs', impl_ops os s = Some (rs, s') /\
    represents s' ps' (items q) fs' /\ spare q = length fs' /\
    ps ++ fs ≡ₚ ps' ++ fs'.
Proof.
  revert s ps vs fs. induction os as [|o os IH]; intros s ps vs fs H; simpl; [eauto 10|].
  pose proof (impl_op_refines o s ps vs fs H) as Ho.
  destruct (spec_op o _) as [r [vs1 k]] eqn:E.
  destruct Ho as (s1 & ps1 & fs1 & -> & H1 & Hk & Hp). simpl in *. subst k.
  specialize (IH s1 ps1 vs1 fs1 H1). destruct (spec_ops os _) as [rs q].
  destruct IH as (s2 & ps2 & fs2 & -> & H2 & Hk2 & Hp2). simpl.
  exists s2, ps2, fs2. split_and!; try done. by rewrite Hp.
Qed.

Lemma deallocate_all_ok fuel s ps vs fs :
  represents s ps vs fs -> length (ps ++ fs) <= fuel ->
  deallocate_all_nodes fuel s = Some flist_init.
Proof.
  intros [Hh Ht Hf Hd Hnd Ho] Hfuel. rewrite length_app in Hfuel.
  apply NoDup_app in Hnd as (Hnp & Hdis & Hnf). unfold deallocate_all_nodes.
  destruct (deallocate_chain_ok fuel _ _ _ Hh Hnp) as (h1 & -> & H1); [lia|]. simpl.
  assert (Hf1 : chain h1 (deallocated_nodes_ s) fs).
  { clear -Hf H1 Hdis. revert Hf. generalize (deallocated_nodes_ s). revert Hdis.
    induction fs as [|f fs IH]; intros Hdis p; simpl; [done|].
    intros (-> & n & Hn & Hc). split; [done|]. exists n. split.
    - rewrite H1. case_decide as Hin; [|done]. destruct (Hdis f Hin). by left.
    - apply IH; [|done]. intros x Hx Hxf. apply (Hdis x Hx). by right. }
  destruct (deallocate_chain_ok fuel _ _ _ Hf1 Hnf) as (h2 & -> & H2); [lia|]. simpl.
  unfold flist_init. do 2 f_equal. apply map_eq. intros a. rewrite H2, H1, lookup_empty.
  repeat case_decide; try done. apply eq_None_not_Some. rewrite Ho, elem_of_app. tauto.
Qed.

(** ** Host-side filling *)

Section host_side.

(** The host allocator is outside the repository: it returns an address that no
    live node has, or fails. *)
Variable host_allocate : gmap addr node -> option addr.

(** Host-side [push_back]. *)
Definition push_back_host (val : A) (s : flist) : option (bool * flist) :=
  match host_allocate (heap s) with
  | None => Some (false, s)
  | Some p =>
      let s1 := FList (<[p := Node val None]> (heap s)) (head_ s) (tail_ s)
                  (deallocated_nodes_ s) in
      s2 ← insert_node_at_tail p s1;
      Some (true, s2)
  end.

Fixpoint push_back_range (vals : list A) (s : flist) : option (bool * flist) :=
  match vals with
  | [] => Some (true, s)
  | key :: rest =>
      r ← push_back_host key s;
      let '(result, s1) := (r : bool * flist) in
      if result then push_back_range rest s1 else Some (false, s1)
  end.

Hypothesis host_allocate_fresh :
  forall h p, host_allocate h = Some p -> h !! p = None.

Lemma represents_init : represents flist_init [] [] [].
Proof. split; simpl; try done; [constructor|]. intros a. rewrite lookup_empty.
  split; [by intros []|]. by rewrite elem_of_nil.
Qed.

Lemma push_back_host_ok s ps vs fs v p :
  represents s ps vs fs -> host_allocate (heap s) = Some p ->
  exists s', push_back_host v s = Some (true, s') /\ represents s' (ps ++ [p]) (vs ++ [v]) fs.
Proof.
  intros [Hh Ht Hf Hd Hnd Ho] Ha. unfold push_back_host. rewrite Ha.
  apply host_allocate_fresh in Ha.
  assert (Hn : p ∉ ps ++ fs).
  { intros Hin. apply Ho in Hin. rewrite Ha in Hin. by destruct Hin. }
  apply not_elem_of_app in Hn as [Hnp Hnf].
  edestruct (insert_node_at_tail_ok
    (FList (<[p := Node v None]> (heap s)) (head_ s) (tail_ s) (deallocated_nodes_ s))
    ps vs fs p v) as (s' & -> & Hrep); simpl; eauto.
  - by rewrite lookup_insert_eq.
  - by apply chain_frame.
  - by apply chain_frame.
  - by apply data_frame.
  - rewrite <- Permutation_middle. apply NoDup_cons. split; [|done].
    by apply not_elem_of_app.
  - intros a. rewrite <- Permutation_middle, elem_of_cons, <- Ho.
    destruct (decide (p = a)) as [->|Hne].
    + rewrite lookup_insert_eq. split; [by left|eauto].
    + rewrite lookup_insert_ne by done. split; [by right|]. by intros [->|?].
Qed.

(** A failed allocation stops the loop after a prefix of the values. *)
Lemma push_back_range_ok vals s ps vs fs :
  represents s ps vs fs ->
  exists b s' qs k, push_back_range vals s = Some (b, s') /\
    represents s' qs (vs ++ take k vals) fs /\ (b = true -> k = length vals) /\
    (b = false -> host_allocate (heap s') = None /\ k < length vals).
Proof.
  revert s ps vs. induction vals as [|v vals IH]; intros s ps vs H; simpl.
  - exists true, s, ps, 0. rewrite app_nil_r. split_and!; done.
  - destruct (host_allocate (heap s)) as [p|] eqn:Ha.
    + destruct (push_back_host_ok _ _ _ _ v p H Ha) as (s1 & -> & H1). simpl.
      destruct (IH _ _ _ H1) as (b & s' & qs & k & -> & H' & Ht & Hf).
      exists b, s', qs, (S k). simpl. rewrite <- app_assoc in H'. split_and!; try done.
      * intros Hb. by rewrite Ht.
      * intros Hb. destruct (Hf Hb). split; [done|lia].
    + unfold push_back_host. rewrite Ha. simpl. exists false, s, ps, 0.
      rewrite app_nil_r. split_and!; try done. intros _. split; [done|lia].
Qed.

End host_side.

End free_list.

Arguments node : clear implicits.
Arguments flist : clear implicits.
Arguments pop_result : clear implicits.
Arguments queue : clear implicits.
Arguments op : clear implicits.
Arguments result : clear implicits.

(** ** Properties *)

(** A new list, filled by the host through [push_back_range]. *)
Definition filled {A} (host_allocate : gmap addr (node A) -> option addr) (vals : list A)
  : option (bool * flist A) :=
  push_back_range host_allocate vals flist_init.

(** C21: a free list that the host has filled with [vals], and on which the
    device then runs any sequence of [push_back] and [pop_front], never touches
    memory outside its nodes and answers like a FIFO queue of capacity
    [length vals]: a push fails exactly when all nodes are in use, a pop fails
    exactly when the queue is empty, and values leave in the order they entered. *)
Theorem free_list_refines_queue {A} `{!Inhabited A}
    (host_allocate : gmap addr (node A) -> option addr) (vals : list A)
    (os : list (op A)) (s : flist A)
    (Hfresh : forall h p, host_allocate h = Some p -> h !! p = None)
    (Hfill : filled host_allocate vals = Some (true, s)) :
  exists s', impl_ops os s = Some (fst (spec_ops os (Queue vals 0)), s') /\
    size (heap s') = length vals.
Proof.
  destruct (push_back_range_ok host_allocate Hfresh vals flist_init [] [] [] represents_init)
    as (b & s0 & qs & k & Hp & Hrep & Hk & _).
  unfold filled in Hfill. rewrite Hp in Hfill. injection Hfill as -> ->.
  rewrite Hk, firstn_all in Hrep by done. simpl in Hrep.
  pose proof (impl_ops_refines os _ _ _ _ Hrep) as Hr. simpl in Hr.
  destruct (spec_ops os _) as [rs q]. destruct Hr as (s' & ps' & fs' & Hi & Hrep' & _ & Hperm).
  exists s'. split; [exact Hi|].
  assert (Hdom : dom (heap s') = list_to_set (ps' ++ fs')).
  { apply set_eq. intros a. rewrite elem_of_dom, (rep_owned _ _ _ _ Hrep').
    by rewrite elem_of_list_to_set. }
  rewrite <- size_dom, Hdom, size_list_to_set by apply (rep_nodup _ _ _ _ Hrep').
  rewrite <- Hperm, app_nil_r. exact (Forall2_length _ _ _ (rep_data _ _ _ _ Hrep)).
Qed.

(** Whatever sequence of device operations ran on a free list the host
    filled, the destructor's [deallocate_all_nodes] terminates, frees every
    node exactly once and leaves no node allocated. *)
Theorem free_list_releases_all {A} `{!Inhabited A}
    (host_allocate : gmap addr (node A) -> option addr) (vals : list A)
    (os : list (op A)) (s s' : flist A) (b : bool) (rs : list (result A))
    (Hfresh : forall h p, host_allocate h = Some p -> h !! p = None)
    (Hfill : filled host_allocate vals = Some (b, s))
    (Hrun : impl_ops os s = Some (rs, s')) :
  deallocate_all_nodes (length vals) s' = Some flist_init.
Proof.
  destruct (push_back_range_ok host_allocate Hfresh vals flist_init [] [] [] represents_init)
    as (b0 & s0 & qs & k & Hp & Hrep & _ & _).
  unfold filled in Hfill. rewrite Hp in Hfill. injection Hfill as -> ->.
  pose proof (impl_ops_refines os _ _ _ _ Hrep) as Hr.
  destruct (spec_ops os _) as [rs1 q]. destruct Hr as (s1 & ps1 & fs1 & Hi & Hrep' & _ & Hperm).
  rewrite Hi in Hrun. injection Hrun as -> ->.
  eapply deallocate_all_ok; [exact Hrep'|]. rewrite <- Hperm, app_nil_r.
  rewrite (Forall2_length _ _ _ (rep_data _ _ _ _ Hrep)). simpl.
  rewrite length_take. lia.
Qed.

(** A host allocator that hands out a fresh address. *)
Definition fresh_allocate (h : gmap addr (node Z)) : option addr := Some (fresh (dom h)).

Lemma fresh_allocate_fresh h p : fresh_allocate h = Some p -> h !! p = None.
Proof.
  unfold fresh_allocate. intros [= <-]. apply not_elem_of_dom, is_fresh.
Qed.

Definition example_list : flist Z :=
  match filled fresh_allocate [10%Z; 20%Z] with Some (_, s) => s | None => flist_init end.

Definition example_ops : list (op Z) := [Push 30%Z; Pop; Push 40%Z; Pop; Pop; Pop].

Lemma free_list_refines_queue_witness :
  exists s', impl_ops example_ops example_list =
    Some ([Pushed false; Popped (Some 10%Z); Pushed true; Popped (Some 20%Z);
           Popped (Some 40%Z); Popped None], s') /\ size (heap s') = 2.
Proof.
  apply (free_list_refines_queue fresh_allocate [10%Z; 20%Z] example_ops example_list).
  - exact fresh_allocate_fresh.
  - vm_compute. reflexivity.
Defined.

Lemma free_list_releases_all_witness :
  exists s', snd <$> impl_ops example_ops example_list = Some s' /\
    deallocate_all_nodes 2 s' = Some flist_init.
Proof.
  eexists. split; [vm_compute; reflexivity|].
  refine (free_list_releases_all fresh_allocate [10%Z; 20%Z] example_ops example_list _ true _
    fresh_allocate_fresh _ _); vm_compute; reflexivity.
Defined.
