(* ===== verification/WFQueue.v ===== *)
(** * The wavefront queue

    Model of [src/containers/atomic_wf_queue.hpp] and
    [src/containers/atomic_wf_queue_impl.hpp]: a ring buffer whose enqueue side
    and dequeue side are protected by two different locks and communicate
    through the atomic counter [curr_size_].  Each side is a small program
    counter machine with one transition per shared-memory access, and the two
    sides interleave freely, sequentially consistently; the locks let one
    wavefront at a time into each side (theorem of [Sync]). *)

From Stdlib Require Import ZArith Lia.
From stdpp Require Import base option list.
From S2P Require Import Prelude.

Open Scope Z_scope.

Section wf_queue.
Context {A : Type}.

(** ** State *)

Record wfq := WFQ {
  head_ : Z;
  tail_ : Z;
  size_ : Z;
  curr_size_ : Z;
  queue_ : list A
}.

Definition is_full (q : wfq) : bool := curr_size_ q =? size_ q.
Definition is_empty (q : wfq) : bool := curr_size_ q =? 0.

(** [allocate_queue]: the array of [size] cells that the allocator returned,
    with whatever it holds. *)
Definition allocate_queue (cells : list A) : wfq :=
  WFQ 0 0 (Z.of_nat (length cells)) 0 cells.

Definition deallocate_queue (q : wfq) : wfq := WFQ 0 0 0 0 [].

(** Host-side [push]; on a full queue it only prints a message. *)
Definition push (val : A) (q : wfq) : wfq :=
  if curr_size_ q <? size_ q then
    WFQ (head_ q) ((tail_ q + 1) mod size_ q) (size_ q) (curr_size_ q + 1)
      (<[Z.to_nat (tail_ q) := val]> (queue_ q))
  else q.

(** ** The two sides of the queue *)

(** Where the wavefront inside [enqueue] is. *)
Inductive enq_pc :=
  | EIdle
  | EAssert (val : A)                  (* holds the lock, before [assert] *)
  | EWrite (val : A)                   (* before [queue_[tail_] = val] *)
  | ETail (val : A) (next_tail : Z)    (* before [tail_ = next_tail] *)
  | EAdd (val : A).                    (* before [atomic_add] *)

(** Where the wavefront inside [dequeue] is. *)
Inductive deq_pc :=
  | DIdle
  | DWait                              (* in [while (is_empty())] *)
  | DRead                              (* before [ret_val = queue_[head_]] *)
  | DHead (ret_val : A) (next_head : Z) (* before [head_ = next_head] *)
  | DSub (ret_val : A).                (* before [atomic_sub] *)

Inductive event := Enq (val : A) | Deq (val : A).

Record config := Config {
  mem : wfq;
  enq : enq_pc;
  deq : deq_pc;
  events : list event      (* completed operations, oldest first *)
}.

Inductive label := EnqStart (val : A) | EnqStep | DeqStart | DeqStep.

(** One access of [enqueue]; [None] when the assertion traps or an index is
    outside the array. *)
Definition enq_step (c : config) : option config :=
  let q := mem c in
  match enq c with
  | EIdle => None
  | EAssert v => if is_full q then None else Some (Config q (EWrite v) (deq c) (events c))
  | EWrite v =>
      _ ← queue_ q !! Z.to_nat (tail_ q);
      Some (Config
        (WFQ (head_ q) (tail_ q) (size_ q) (curr_size_ q) (<[Z.to_nat (tail_ q) := v]> (queue_ q)))
        (ETail v ((tail_ q + 1) mod size_ q)) (deq c) (events c))
  | ETail v nt =>
      Some (Config (WFQ (head_ q) nt (size_ q) (curr_size_ q) (queue_ q)) (EAdd v) (deq c)
        (events c))
  | EAdd v =>
      Some (Config (WFQ (head_ q) (tail_ q) (size_ q) (curr_size_ q + 1) (queue_ q)) EIdle (deq c)
        (events c ++ [Enq v]))
  end.

(** One access of [dequeue]; a failed test of the loop leaves it waiting. *)
Definition deq_step (c : config) : option config :=
  let q := mem c in
  match deq c with
  | DIdle => None
  | DWait => Some (Config q (enq c) (if is_empty q then DWait else DRead) (events c))
  | DRead =>
      v ← queue_ q !! Z.to_nat (head_ q);
      Some (Config q (enq c) (DHead v ((head_ q + 1) mod size_ q)) (events c))
  | DHead v nh =>
      Some (Config (WFQ nh (tail_ q) (size_ q) (curr_size_ q) (queue_ q)) (enq c) (DSub v)
        (events c))
  | DSub v =>
      Some (Config (WFQ (head_ q) (tail_ q) (size_ q) (curr_size_ q - 1) (queue_ q)) (enq c) DIdle
        (events c ++ [Deq v]))
  end.

Definition exec (l : label) (c : config) : option config :=
  match l with
  | EnqStart v =>
      match enq c with
      | EIdle => Some (Config (mem c) (EAssert v) (deq c) (events c))
      | _ => None
      end
  | EnqStep => enq_step c
  | DeqStart =>
      match deq c with
      | DIdle => Some (Config (mem c) (enq c) DWait (events c))
      | _ => None
      end
  | DeqStep => deq_step c
  end.

Fixpoint run (ls : list label) (c : config) : option config :=
  match ls with
  | [] => Some c
  | l :: ls' => c' ← exec l c; run ls' c'
  end.

Definition start (q : wfq) : config := Config q EIdle DIdle [].

(** ** Specification: a bounded FIFO queue *)

(** [fifo cap q0 es q]: the operations [es], oldest first, are legal on a queue of
    capacity [cap] that held [q0], and leave [q]. *)
Inductive fifo (cap : Z) (q0 : list A) : list event -> list A -> Prop :=
  | fifo_nil : fifo cap q0 [] q0
  | fifo_enq es q v :
      fifo cap q0 es q -> Z.of_nat (length q) < cap -> fifo cap q0 (es ++ [Enq v]) (q ++ [v])
  | fifo_deq es q v : fifo cap q0 es (v :: q) -> fifo cap q0 (es ++ [Deq v]) q.

(** ** Invariant *)

(** Cells of the contents [q] the dequeue side has not given up yet. *)
Definition unread (d : deq_pc) (q : list A) : list A :=
  match d with DSub _ => drop 1 q | _ => q end.

(** The value the enqueue side has stored but not announced yet. *)
Definition unannounced (e : enq_pc) : list A :=
  match e with ETail v _ | EAdd v => [v] | _ => [] end.

Definition moved (e : enq_pc) : Z := match e with EAdd _ => 1 | _ => 0 end.

(** [n] is the position of [head_] on the unrolled ring. *)
Record inv (q0 : list A) (c : config) (q : list A) (n : Z) : Prop := {
  inv_trace : fifo (size_ (mem c)) q0 (events c) q;
  inv_size : size_ (mem c) = Z.of_nat (length (queue_ (mem c)));
  inv_pos : 0 < size_ (mem c);
  inv_curr : curr_size_ (mem c) = Z.of_nat (length q);
  inv_cap : Z.of_nat (length q) <= size_ (mem c);
  inv_n : 0 <= n;
  inv_head : head_ (mem c) = n mod size_ (mem c);
  inv_tail : tail_ (mem c) =
    (n + Z.of_nat (length (unread (deq c) q)) + moved (enq c)) mod size_ (mem c);
  inv_enq : match enq c with
            | EWrite _ | EAdd _ => Z.of_nat (length q) < size_ (mem c)
            | ETail _ nt => Z.of_nat (length q) < size_ (mem c) /\
                nt = (n + Z.of_nat (length (unread (deq c) q)) + 1) mod size_ (mem c)
            | _ => True
            end;
  inv_deq : match deq c with
            | DRead => q <> []
            | DHead v nh => head q = Some v /\ nh = (n + 1) mod size_ (mem c)
            | DSub v => head q = Some v
            | _ => True
            end;
  inv_cells : forall j x, (unread (deq c) q ++ unannounced (enq c)) !! j = Some x ->
    queue_ (mem c) !! Z.to_nat ((n + Z.of_nat j) mod size_ (mem c)) = Some x
}.

Lemma unread_length d (q : list A) : (length (unread d q) <= length q)%nat.
Proof. destruct d; simpl; try lia. rewrite length_drop. lia. Qed.

(** The next free cell is none of the live ones. *)
Lemma free_cell_apart n k j w :
  0 < w -> 0 <= n -> 0 <= j < k -> k < w ->
  Z.to_nat ((n + j) mod w) <> Z.to_nat ((n + k) mod w).
Proof.
  intros Hw Hn Hj Hk He.
  pose proof (Z.mod_pos_bound (n + j) w Hw). pose proof (Z.mod_pos_bound (n + k) w Hw).
  apply Z2Nat.inj in He; [|lia..].
  pose proof (Z.div_mod (n + j) w ltac:(lia)). pose proof (Z.div_mod (n + k) w ltac:(lia)).
  set (t := (n + k) / w - (n + j) / w).
  assert (Ht : k - j = w * t) by lia. clearbody t.
  destruct (Z.le_gt_cases t 0); nia.
Qed.

Lemma cell_in_range (c : list A) x w : w = Z.of_nat (length c) -> 0 < w ->
  is_Some (c !! Z.to_nat (x mod w)).
Proof.
  intros -> Hw. apply lookup_lt_is_Some. pose proof (Z.mod_pos_bound x _ Hw). lia.
Qed.

Ltac close_inv H :=
  destruct H; split; simpl in *; rewrite ?app_nil_r, ?Z.add_0_r in *; eauto with lia.

Lemma enq_step_inv q0 c q n c' :
  inv q0 c q n -> enq_step c = Some c' -> exists q', inv q0 c' q' n.
Proof.
  intros H He. destruct c as [[hd tl sz cs cells] e d es]. unfold enq_step in He. simpl in He.
  destruct e as [|v|v|v nt|v]; simplify_eq/=.
  - unfold is_full in He. simpl in He. destruct (Z.eqb_spec cs sz); simplify_eq/=.
    exists q. close_inv H.
  - pose proof (unread_length d q). destruct H; simpl in *. rewrite Z.add_0_r in *.
    destruct (cell_in_range cells (n + Z.of_nat (length (unread d q))) sz) as [old Hold]; try done.
    rewrite inv_tail0, Hold in He. simplify_eq/=. exists q. rewrite app_nil_r in *.
    split; simpl; rewrite ?length_insert, ?Z.add_0_r; eauto.
    + split; [done|]. by rewrite Zplus_mod_idemp_l.
    + intros j x Hj. apply lookup_app_Some in Hj as [Hj|[Hlen Hj]].
      * assert (Hlt := lookup_lt_Some _ _ _ Hj).
        rewrite list_lookup_insert_ne; [by apply inv_cells0|].
        intros Heq. symmetry in Heq. revert Heq. apply free_cell_apart; lia.
      * apply list_lookup_singleton_Some in Hj as [Hj ->].
        replace (Z.of_nat j) with (Z.of_nat (length (unread d q))) by lia.
        rewrite list_lookup_insert_eq; [done|]. by apply lookup_lt_is_Some; exists old.
  - exists q. destruct H; simpl in *. destruct inv_enq0 as [Hlt ->]. split; simpl; eauto.
  - exists (q ++ [v]). destruct H; simpl in *.
    assert (Hu : unread d (q ++ [v]) = unread d q ++ [v]).
    { destruct d; simpl in *; try done. destruct q; [done|]. done. }
    split; simpl; rewrite ?Hu, ?app_nil_r, ?length_app in *; simpl in *; eauto with lia.
    + by constructor.
    + rewrite inv_tail0. f_equal. lia.
    + destruct d; try done; destruct q; naive_solver.
Qed.

Lemma deq_step_inv q0 c q n c' :
  inv q0 c q n -> deq_step c = Some c' -> exists q' n', inv q0 c' q' n'.
Proof.
  intros H He. destruct c as [[hd tl sz cs cells] e d es]. unfold deq_step in He. simpl in He.
  destruct d as [| | |v nh|v]; simplify_eq/=.
  - exists q, n. unfold is_empty. simpl. destruct (Z.eqb_spec cs 0); close_inv H.
    intros ->. simpl in *. lia.
  - exists q, n. destruct (cells !! Z.to_nat hd) as [v|] eqn:Hv; simplify_eq/=.
    destruct H; simpl in *. split; simpl; eauto.
    destruct q as [|x q]; [done|]. split.
    + pose proof (inv_cells0 O x eq_refl) as Hc. rewrite Z.add_0_r, <- inv_head0 in Hc. simpl. congruence.
    + by rewrite inv_head0, Zplus_mod_idemp_l.
  - exists q, (n + 1). destruct H; simpl in *. destruct inv_deq0 as [Hh ->].
    destruct q as [|x q]; [done|]. simpl in Hh. injection Hh as ->.
    simpl in *. split; simpl; rewrite ?drop_0; eauto with lia.
    + rewrite inv_tail0. f_equal. lia.
    + destruct e; try done. destruct inv_enq0 as [? ->]. split; [done|]. f_equal. lia.
    + intros j x Hj. rewrite <- (inv_cells0 (S j) x Hj). do 2 f_equal. f_equal. lia.
  - destruct q as [|x q]; [by destruct H|]. exists q, n. destruct H; simpl in *.
    rewrite ?drop_0 in *. injection inv_deq0 as ->.
    split; simpl; eauto with lia.
    + by econstructor.
    + destruct e; try done; try lia.
Qed.

Lemma exec_size l c c' : exec l c = Some c' -> size_ (mem c') = size_ (mem c).
Proof.
  unfold exec, enq_step, deq_step. intros He.
  destruct l, (enq c), (deq c); simpl in He; simplify_eq/=;
    try (destruct (is_full (mem c))); try (destruct (queue_ (mem c) !! _)); simplify_eq/=; done.
Qed.

Lemma run_size ls c c' : run ls c = Some c' -> size_ (mem c') = size_ (mem c).
Proof.
  revert c. induction ls as [|l ls IH]; simpl; intros c Hr; [by simplify_eq|].
  destruct (exec l c) as [c1|] eqn:He; [|done]. simpl in Hr. rewrite (IH _ Hr).
  by apply (exec_size l).
Qed.

Lemma wfq_exec_inv q0 c q n l c' :
  inv q0 c q n -> exec l c = Some c' -> exists q' n', inv q0 c' q' n'.
Proof.
  intros H He. destruct l as [v| | |]; simpl in He.
  - destruct (enq c) eqn:Hp; simplify_eq/=. exists q, n. destruct H. rewrite Hp in *. by split.
  - destruct (enq_step_inv _ _ _ _ _ H He). eauto.
  - destruct (deq c) eqn:Hp; simplify_eq/=. exists q, n. destruct H. rewrite Hp in *. by split.
  - by eapply deq_step_inv.
Qed.

Lemma wfq_run_inv q0 c q n ls c' :
  inv q0 c q n -> run ls c = Some c' -> exists q' n', inv q0 c' q' n'.
Proof.
  revert c q n. induction ls as [|l ls IH]; intros c q n H Hr; simpl in Hr; [simplify_eq; eauto|].
  destruct (exec l c) as [c1|] eqn:He; simpl in Hr; [|done].
  destruct (wfq_exec_inv _ _ _ _ _ _ H He) as (q1 & n1 & H1). eauto.
Qed.

(** The state the host leaves after [allocate_queue] and a number of pushes. *)
Definition host_filled (cells vals : list A) : wfq :=
  fold_left (fun q v => push v q) vals (allocate_queue cells).

Lemma push_inv q0 q v :
  inv q0 (start q) q0 0 -> Z.of_nat (length q0) < size_ q ->
  inv (q0 ++ [v]) (start (push v q)) (q0 ++ [v]) 0.
Proof.
  intros H Hlt. destruct H; simpl in *. unfold push.
  destruct (Z.ltb_spec (curr_size_ q) (size_ q)) as [_|]; [|lia].
  rewrite ?Z.add_0_r, ?Z.add_0_l, ?app_nil_r in *.
  assert (Ht : tail_ q = Z.of_nat (length q0)) by (rewrite inv_tail0; apply Z.mod_small; lia).
  split; simpl; rewrite ?length_insert, ?length_app, ?app_nil_r; simpl; eauto with lia.
  - constructor.
  - rewrite Ht. f_equal. lia.
  - intros j x Hj. apply lookup_app_Some in Hj as [Hj|[Hlen Hj]].
    + assert (Hl := lookup_lt_Some _ _ _ Hj). rewrite list_lookup_insert_ne; [by apply inv_cells0|].
      rewrite Z.mod_small by lia. lia.
    + apply list_lookup_singleton_Some in Hj as [Hj ->]. rewrite Z.mod_small by lia.
      replace (Z.to_nat (0 + Z.of_nat j)) with (Z.to_nat (tail_ q)) by lia.
      apply list_lookup_insert_eq. lia.
Qed.

Lemma push_size v q : size_ (push v q) = size_ q.
Proof. unfold push. by destruct (_ <? _). Qed.

Lemma host_filled_inv cells vals :
  0 < Z.of_nat (length cells) -> (length vals <= length cells)%nat ->
  inv vals (start (host_filled cells vals)) vals 0 /\
  size_ (host_filled cells vals) = Z.of_nat (length cells).
Proof.
  intros Hc. induction vals as [|v vals IH] using rev_ind; intros Hl.
  - split; [|done]. unfold host_filled. split; simpl; try done; [constructor|lia].
  - rewrite length_app in Hl. simpl in Hl. destruct IH as [IH Hs]; [lia|].
    unfold host_filled. rewrite fold_left_app. simpl. fold (host_filled cells vals).
    rewrite push_size. split; [|done]. apply push_inv; [done|]. rewrite Hs. lia.
Qed.

End wf_queue.

Arguments wfq : clear implicits.
Arguments config : clear implicits.
Arguments label : clear implicits.
Arguments event : clear implicits.

(** ** Properties *)

Definition enq_count {A} (es : list (event A)) : nat :=
  length (filter (fun e => match e with Enq _ => true | Deq _ => false end = true) es).

Definition deq_count {A} (es : list (event A)) : nat :=
  length (filter (fun e => match e with Enq _ => false | Deq _ => true end = true) es).

Lemma fifo_length {A} cap (q0 : list A) es q :
  fifo cap q0 es q -> (length q + deq_count es = length q0 + enq_count es)%nat.
Proof.
  unfold enq_count, deq_count.
  induction 1; rewrite ?filter_app, ?length_app in *; simpl in *; [done|lia..].
Qed.

(** C19: under every interleaving of the memory accesses of one enqueuing and one
    dequeuing wavefront, the completed operations of a queue that the host
    created with [length cells] cells and filled with [vals] form a legal
    history of a FIFO queue of that capacity: values leave in the order they
    entered, none is lost, duplicated or overwritten, and [curr_size_] is the
    number of values between the two. *)
Theorem wf_queue_linearizable {A} (cells vals : list A) (ls : list (label A)) (c : config A)
    (Hsize : (0 < length cells)%nat) (Hfit : (length vals <= length cells)%nat)
    (Hrun : run ls (start (host_filled cells vals)) = Some c) :
  exists q, fifo (Z.of_nat (length cells)) vals (events c) q /\
    curr_size_ (mem c) = Z.of_nat (length q) /\
    0 <= curr_size_ (mem c) <= Z.of_nat (length cells).
Proof.
  destruct (host_filled_inv cells vals) as [H0 Hs]; [lia|done|].
  assert (Hsz : size_ (mem c) = Z.of_nat (length cells)) by (by rewrite <- Hs, (run_size _ _ _ Hrun)).
  destruct (wfq_run_inv _ _ _ _ _ _ H0 Hrun) as (q & n & H).
  exists q. rewrite <- Hsz. destruct H. split_and!; try done; lia.
Qed.

Definition enq_busy {A} (e : @enq_pc A) : nat := match e with EIdle => 0 | _ => 1 end.

(** The queue recycles tokens: as long as every enqueue that is running or
    done puts back a value that a completed dequeue took out, the assertion
    [!is_full()] in [enqueue] never traps, no index leaves the array, and
    neither side is ever stuck between two accesses. *)
Theorem wf_queue_never_traps {A} (cells vals : list A) (ls : list (label A)) (c : config A)
    (Hsize : (0 < length cells)%nat) (Hfit : (length vals <= length cells)%nat)
    (Hrun : run ls (start (host_filled cells vals)) = Some c)
    (Htokens : (enq_count (events c) + enq_busy (enq c) <= deq_count (events c))%nat) :
  (enq c = EIdle \/ exists c', exec EnqStep c = Some c') /\
  (deq c = DIdle \/ exists c', exec DeqStep c = Some c').
Proof.
  destruct (host_filled_inv cells vals) as [H0 Hs]; [lia|done|].
  pose proof (run_size _ _ _ Hrun) as Hsz. simpl in Hsz.
  destruct (wfq_run_inv _ _ _ _ _ _ H0 Hrun) as (q & n & H).
  pose proof (fifo_length _ _ _ _ (inv_trace _ _ _ _ H)) as Hlen. destruct H.
  simpl. unfold enq_step, deq_step. split.
  - destruct (enq c) as [|v|v|v nt|v]; [by left|right..]; eauto.
    + unfold is_full. simpl in Htokens. destruct (Z.eqb_spec (curr_size_ (mem c)) (size_ (mem c)));
        [lia|eauto].
    + rewrite inv_tail0.
      destruct (cell_in_range (queue_ (mem c)) (n + Z.of_nat (length (unread (deq c) q)) + 0)
        (size_ (mem c))) as [old Hold]; [done..|]. simpl. rewrite Hold. simpl. eauto.
  - destruct (deq c); [by left|right..]; eauto. rewrite inv_head0.
    destruct (cell_in_range (queue_ (mem c)) n (size_ (mem c))) as [old Hold]; [done..|].
    rewrite Hold. simpl. eauto.
Qed.

(** Two cells, two tokens; a dequeue is followed by the enqueue of its value,
    and a second dequeue overlaps it. *)
Definition example_labels : list (label Z) :=
  [DeqStart; DeqStep; DeqStep; DeqStep; DeqStep;
   EnqStart 7; DeqStart; EnqStep; DeqStep; EnqStep; DeqStep; EnqStep].

Definition example_end : config Z :=
  match run example_labels (start (host_filled [0; 0] [7; 8])) with
  | Some c => c
  | None => start (allocate_queue [])
  end.

Lemma wf_queue_linearizable_witness :
  exists q, fifo (Z.of_nat (length [0; 0])) [7; 8] (events example_end) q /\
    curr_size_ (mem example_end) = Z.of_nat (length q) /\
    0 <= curr_size_ (mem example_end) <= Z.of_nat (length [0; 0]).
Proof.
  apply (wf_queue_linearizable [0; 0] [7; 8] example_labels example_end); [simpl; lia|simpl; lia|].
  vm_compute. reflexivity.
Defined.

Lemma wf_queue_never_traps_witness :
  (enq example_end = EIdle \/ exists c', exec EnqStep example_end = Some c') /\
  (deq example_end = DIdle \/ exists c', exec DeqStep example_end = Some c').
Proof.
  apply (wf_queue_never_traps [0; 0] [7; 8] example_labels example_end); [simpl; lia|simpl; lia|..].
  - vm_compute. reflexivity.
  - vm_compute. lia.
Defined.
