(* ===== verification/Bitmask.v ===== *)
(** * Bit masks of pool slots

    Model of the byte-array bit mask with which the IPC backend
    ([src/ipc/backend_ipc.cpp]) hands out slots of the team pools: its
    initialisation in [teams_init], the scan [get_ls_non_zero_bit], the updates in
    [create_new_team] and [team_destroy], and the reduction
    [Allreduce_char_BAND]. *)

From Stdlib Require Import ZArith Lia.
From stdpp Require Import base option list.
From S2P Require Import Prelude.

Open Scope Z_scope.

Definition CHAR_BIT : Z := 8.

(** ** Operations *)

Definition byte_at (m : list Z) (i : Z) : Z := default 0 (m !! Z.to_nat i).

(** [mask[bit / CHAR_BIT] & (1 << (bit % CHAR_BIT))], as a truth value. *)
Definition test_bit (m : list Z) (bit : Z) : bool :=
  negb (Z.land (byte_at m (bit ÷ CHAR_BIT)) (Z.shiftl 1 (Z.rem bit CHAR_BIT)) =? 0).

(** [mask[bit / CHAR_BIT] |= 1 << (bit % CHAR_BIT)], stored back in a byte. *)
Definition set_bit (m : list Z) (bit : Z) : list Z :=
  let byte_i := bit ÷ CHAR_BIT in
  <[Z.to_nat byte_i := u8 (Z.lor (byte_at m byte_i) (Z.shiftl 1 (Z.rem bit CHAR_BIT)))]> m.

(** [mask[byte] &= ~(1 << (bit % CHAR_BIT))] *)
Definition clear_bit (m : list Z) (bit : Z) : list Z :=
  let byte := bit ÷ CHAR_BIT in
  <[Z.to_nat byte := u8 (Z.land (byte_at m byte) (Z.lnot (Z.shiftl 1 (Z.rem bit CHAR_BIT))))]> m.

(** The loop of [get_ls_non_zero_bit] from [bit_i] on, [n] iterations at most. *)
Fixpoint scan_bits (m : list Z) (n : nat) (bit_i : Z) : Z :=
  match n with
  | O => -1
  | S n' => if test_bit m bit_i then bit_i else scan_bits m n' (bit_i + 1)
  end.

Definition get_ls_non_zero_bit (m : list Z) (mask_length : Z) : Z :=
  scan_bits m (Z.to_nat mask_length) 0.

Definition team_bitmask_size (max_num_teams : Z) : Z :=
  if Z.rem max_num_teams CHAR_BIT =? 0 then max_num_teams ÷ CHAR_BIT
  else max_num_teams ÷ CHAR_BIT + 1.

Fixpoint set_bits (m : list Z) (n : nat) (bit_i : Z) : list Z :=
  match n with
  | O => m
  | S n' => set_bits (set_bit m bit_i) n' (bit_i + 1)
  end.

(** The mask [teams_init] builds: all slots available except the reserved ones. *)
Definition init_bitmask (reserved max_num_teams : Z) : list Z :=
  set_bits (replicate (Z.to_nat (team_bitmask_size max_num_teams)) 0)
    (Z.to_nat (max_num_teams - reserved)) reserved.

(** The local reduction at the end of [Allreduce_char_BAND]: byte [i] of the
    result over the [num_pes] rows of the gathered buffer. *)
Fixpoint band_rows (tmp_buffer : list Z) (num_bytes i : nat) (rows : nat) (acc : Z) (j : nat) : Z :=
  match rows with
  | O => acc
  | S rows' =>
      band_rows tmp_buffer num_bytes i rows'
        (Z.land acc (byte_at tmp_buffer (Z.of_nat (j * num_bytes + i)))) (S j)
  end.

Definition Allreduce_char_BAND (tmp_buffer : list Z) (num_bytes num_pes : nat) : list Z :=
  map (fun i => band_rows tmp_buffer num_bytes i (num_pes - 1)
      (byte_at tmp_buffer (Z.of_nat i)) 1)
    (seq 0 num_bytes).

(** ** Lemmas *)

(** A mask of [n] bytes with room for [len] bits. *)
Definition mask_ok (len : Z) (m : list Z) : Prop :=
  Forall (fun b => 0 <= b < 256) m /\ len <= 8 * Z.of_nat (length m).

Lemma shift_div_rem bit : 0 <= bit -> bit ÷ CHAR_BIT = bit / 8 /\ Z.rem bit CHAR_BIT = bit mod 8.
Proof.
  intros H. unfold CHAR_BIT. rewrite Z.quot_div_nonneg, Z.rem_mod_nonneg by lia. done.
Qed.

Lemma test_bit_testbit m bit :
  0 <= bit -> test_bit m bit = Z.testbit (byte_at m (bit / 8)) (bit mod 8).
Proof.
  intros H. unfold test_bit. destruct (shift_div_rem bit H) as [-> ->].
  pose proof (Z.mod_pos_bound bit 8). rewrite Z.shiftl_1_l.
  destruct (Z.testbit (byte_at m (bit / 8)) (bit mod 8)) eqn:Hb.
  - destruct (Z.eqb_spec (Z.land (byte_at m (bit / 8)) (2 ^ (bit mod 8))) 0) as [He|]; [|done].
    apply (f_equal (fun x => Z.testbit x (bit mod 8))) in He.
    rewrite Z.land_spec, Hb, Z.pow2_bits_true, Z.bits_0 in He by lia. done.
  - replace (Z.land _ _) with 0; [done|]. symmetry. apply Z.bits_inj'. intros i Hi.
    rewrite Z.land_spec, Z.bits_0.
    destruct (Z.eq_dec i (bit mod 8)) as [->|Hne]; [by rewrite Hb|].
    rewrite Z.pow2_bits_false by lia. apply andb_false_r.
Qed.

Lemma byte_at_insert m i j b :
  0 <= i < Z.of_nat (length m) -> 0 <= j ->
  byte_at (<[Z.to_nat i := b]> m) j = if j =? i then b else byte_at m j.
Proof.
  intros Hi Hj. unfold byte_at. destruct (Z.eqb_spec j i) as [->|Hne].
  - rewrite list_lookup_insert_eq; [done|lia].
  - rewrite list_lookup_insert_ne; [done|lia].
Qed.

Lemma bit_split a b :
  0 <= a -> 0 <= b -> a <> b -> b / 8 = a / 8 -> b mod 8 <> a mod 8.
Proof. intros. pose proof (Z.div_mod a 8). pose proof (Z.div_mod b 8). lia. Qed.

Lemma test_set_bit len m bit j :
  mask_ok len m -> 0 <= bit < len -> 0 <= j ->
  test_bit (set_bit m bit) j = if j =? bit then true else test_bit m j.
Proof.
  intros [Hb Hl] Hbit Hj. unfold set_bit. destruct (shift_div_rem bit) as [-> ->]; [lia|].
  pose proof (Z.mod_pos_bound bit 8). pose proof (Z.mod_pos_bound j 8).
  assert (0 <= bit / 8 < Z.of_nat (length m)) by (split; [apply Z.div_pos; lia|
    apply Z.div_lt_upper_bound; lia]).
  rewrite !test_bit_testbit by lia.
  rewrite byte_at_insert by (try apply Z.div_pos; lia).
  rewrite Z.shiftl_1_l. unfold wrap.
  destruct (Z.eqb_spec (j / 8) (bit / 8)) as [Hd|Hd].
  - rewrite Z.mod_pow2_bits_low, Z.lor_spec by lia.
    destruct (Z.eqb_spec j bit) as [->|Hne].
    + rewrite Z.pow2_bits_true by lia. apply orb_true_r.
    + rewrite Z.pow2_bits_false, orb_false_r by (pose proof (bit_split bit j); lia).
      by rewrite Hd.
  - destruct (Z.eqb_spec j bit) as [->|Hne]; [done|]. done.
Qed.

Lemma test_clear_bit len m bit j :
  mask_ok len m -> 0 <= bit < len -> 0 <= j ->
  test_bit (clear_bit m bit) j = if j =? bit then false else test_bit m j.
Proof.
  intros [Hb Hl] Hbit Hj. unfold clear_bit. destruct (shift_div_rem bit) as [-> ->]; [lia|].
  pose proof (Z.mod_pos_bound bit 8). pose proof (Z.mod_pos_bound j 8).
  assert (0 <= bit / 8 < Z.of_nat (length m)) by (split; [apply Z.div_pos; lia|
    apply Z.div_lt_upper_bound; lia]).
  rewrite !test_bit_testbit by lia.
  rewrite byte_at_insert by (try apply Z.div_pos; lia).
  rewrite Z.shiftl_1_l. unfold wrap.
  destruct (Z.eqb_spec (j / 8) (bit / 8)) as [Hd|Hd].
  - rewrite Z.mod_pow2_bits_low, Z.land_spec, Z.lnot_spec by lia.
    destruct (Z.eqb_spec j bit) as [->|Hne].
    + rewrite Z.pow2_bits_true by lia. apply andb_false_r.
    + rewrite Z.pow2_bits_false, andb_true_r by (pose proof (bit_split bit j); lia).
      by rewrite Hd.
  - destruct (Z.eqb_spec j bit) as [->|Hne]; [done|]. done.
Qed.

Lemma mask_ok_insert len m i b :
  mask_ok len m -> 0 <= b < 256 -> mask_ok len (<[i := b]> m).
Proof.
  intros [Hb Hl] Hr. split; [by apply Forall_insert|]. by rewrite length_insert.
Qed.

Lemma mask_ok_set_bit len m bit : mask_ok len m -> mask_ok len (set_bit m bit).
Proof. intros H. apply mask_ok_insert; [done|]. by apply (wrap_range 8). Qed.

Lemma mask_ok_clear_bit len m bit : mask_ok len m -> mask_ok len (clear_bit m bit).
Proof. intros H. apply mask_ok_insert; [done|]. by apply (wrap_range 8). Qed.

#[export] Hint Resolve mask_ok_set_bit mask_ok_clear_bit : core.

(** The scan finds the lowest set bit, or reports that there is none. *)
Lemma scan_bits_spec m n s :
  let r := scan_bits m n s in
  (r = -1 /\ forall j, s <= j < s + Z.of_nat n -> test_bit m j = false) \/
  (s <= r < s + Z.of_nat n /\ test_bit m r = true /\
   forall j, s <= j < r -> test_bit m j = false).
Proof.
  revert s. induction n as [|n IH]; intros s; cbn [scan_bits].
  - left. split; [done|]. lia.
  - destruct (test_bit m s) eqn:Hs.
    + right. split_and!; [lia|lia|done|lia].
    + destruct (IH (s + 1)) as [[Hr Hn]|(Hr & Ht & Hn)].
      * left. split; [done|]. intros j Hj. destruct (Z.eq_dec j s) as [->|]; [done|]. apply Hn. lia.
      * right. split_and!; [lia|lia|done|]. intros j Hj.
        destruct (Z.eq_dec j s) as [->|]; [done|]. apply Hn. lia.
Qed.

Lemma ls_bit_spec m len :
  0 <= len ->
  let r := get_ls_non_zero_bit m len in
  (r = -1 /\ forall j, 0 <= j < len -> test_bit m j = false) \/
  (0 <= r < len /\ test_bit m r = true /\ forall j, 0 <= j < r -> test_bit m j = false).
Proof.
  intros Hl. unfold get_ls_non_zero_bit. pose proof (scan_bits_spec m (Z.to_nat len) 0) as H.
  rewrite Z2Nat.id, Z.add_0_l in H by done. exact H.
Qed.

Lemma set_bits_spec len m n s :
  mask_ok len m -> 0 <= s -> s + Z.of_nat n <= len ->
  mask_ok len (set_bits m n s) /\
  forall j, 0 <= j -> test_bit (set_bits m n s) j =
    (test_bit m j || ((s <=? j) && (j <? s + Z.of_nat n)))%bool.
Proof.
  revert m s. induction n as [|n IH]; intros m s Hm Hs Hl; cbn [set_bits].
  - split; [done|]. intros j Hj.
    destruct (Z.leb_spec s j), (Z.ltb_spec j (s + Z.of_nat 0)); simpl; try lia;
      by rewrite orb_false_r.
  - destruct (IH (set_bit m s) (s + 1)) as [Hok Ht]; [auto|lia|lia|].
    split; [done|]. intros j Hj. rewrite Ht, (test_set_bit len) by (done || lia).
    destruct (Z.eqb_spec j s) as [He|He], (test_bit m j); simpl; try done.
    + symmetry. apply andb_true_intro. lia.
    + destruct (Z.leb_spec (s + 1) j), (Z.leb_spec s j), (Z.ltb_spec j (s + 1 + Z.of_nat n)),
        (Z.ltb_spec j (s + Z.of_nat (S n))); simpl; try done; lia.
Qed.

Lemma test_bit_zero n j : 0 <= j -> test_bit (replicate n 0) j = false.
Proof.
  intros Hj. rewrite test_bit_testbit by done. unfold byte_at.
  destruct (replicate n 0 !! Z.to_nat (j / 8)) as [x|] eqn:Hx; [|apply Z.bits_0].
  apply lookup_replicate in Hx as [-> _]. apply Z.bits_0.
Qed.

(** ** The reduction *)

Lemma band_rows_testbit buf nb i rows acc j k :
  Z.testbit (band_rows buf nb i rows acc j) k = true <->
  Z.testbit acc k = true /\
  forall r, (j <= r < j + rows)%nat ->
    Z.testbit (byte_at buf (Z.of_nat (r * nb + i))) k = true.
Proof.
  revert acc j. induction rows as [|rows IH]; intros acc j; cbn [band_rows].
  - split; [|by intros [? _]]. intros H. split; [done|]. intros r Hr. lia.
  - rewrite IH, Z.land_spec, andb_true_iff. split.
    + intros [[Ha Hj] Hr]. split; [done|]. intros r Hr'.
      destruct (decide (r = j)) as [->|]; [done|]. apply Hr. lia.
    + intros [Ha Hr]. split; [split; [done|apply Hr; lia]|]. intros r Hr'. apply Hr. lia.
Qed.

(** Byte [i] of row [r] of a buffer that concatenates rows of [nb] bytes. *)
Lemma concat_row (rows : list (list Z)) nb r row i :
  Forall (fun row => length row = nb) rows -> rows !! r = Some row -> (i < nb)%nat ->
  concat rows !! (r * nb + i)%nat = row !! i.
Proof.
  intros HF. revert r. induction HF as [|x rows Hx HF IH]; intros r Hr Hi; [done|].
  destruct r as [|r]; simpl in *.
  - simplify_eq. by rewrite lookup_app_l by lia.
  - rewrite lookup_app_r by lia. rewrite <- (IH r Hr Hi). f_equal. lia.
Qed.

(** A bit of the result is set exactly when it is set in every mask. *)
Lemma Allreduce_char_BAND_spec (rows : list (list Z)) nb bit :
  Forall (fun row => length row = nb) rows -> rows <> [] -> 0 <= bit < 8 * Z.of_nat nb ->
  test_bit (Allreduce_char_BAND (concat rows) nb (length rows)) bit = true <->
  forall row, row ∈ rows -> test_bit row bit = true.
Proof.
  intros HF Hne Hb. rewrite test_bit_testbit by lia.
  assert (Hi : 0 <= bit / 8 < Z.of_nat nb).
  { split; [apply Z.div_pos; lia|apply Z.div_lt_upper_bound; lia]. }
  set (i := Z.to_nat (bit / 8)).
  assert (Hrow : forall r row, rows !! r = Some row ->
    byte_at (concat rows) (Z.of_nat (r * nb + i)) = byte_at row (bit / 8)).
  { intros r row Hr. unfold byte_at. rewrite Nat2Z.id, (concat_row _ nb r row) by (done || lia).
    done. }
  unfold byte_at at 1. unfold Allreduce_char_BAND. fold i.
  rewrite list_lookup_fmap, lookup_seq_lt by lia. simpl.
  rewrite band_rows_testbit. split.
  - intros [H0 Hr] row Hin. apply list_elem_of_lookup in Hin as [r Hr'].
    rewrite test_bit_testbit, <- (Hrow r row Hr') by lia.
    destruct r as [|r]; [exact H0|]. apply Hr. apply lookup_lt_Some in Hr'. lia.
  - intros Hall.
    assert (Hset : forall r, (r < length rows)%nat ->
      Z.testbit (byte_at (concat rows) (Z.of_nat (r * nb + i))) (bit mod 8) = true).
    { intros r Hr. destruct (lookup_lt_is_Some_2 rows r Hr) as [row Hrow'].
      rewrite (Hrow r row Hrow'), <- test_bit_testbit by lia.
      apply Hall. by eapply list_elem_of_lookup_2. }
    split; [apply (Hset O); destruct rows; [done|simpl; lia]|].
    intros r Hr. apply Hset. destruct rows; [done|simpl in *; lia].
Qed.

(** After [teams_init] exactly the slots [reserved .. max-1] are available. *)
Lemma init_bitmask_spec reserved max_num_teams :
  0 <= reserved <= max_num_teams ->
  mask_ok max_num_teams (init_bitmask reserved max_num_teams) /\
  forall j, 0 <= j -> test_bit (init_bitmask reserved max_num_teams) j =
    ((reserved <=? j) && (j <? max_num_teams))%bool.
Proof.
  intros Hr. unfold init_bitmask.
  assert (Hz : mask_ok max_num_teams
    (replicate (Z.to_nat (team_bitmask_size max_num_teams)) 0)).
  { split; [apply Forall_replicate; lia|]. rewrite length_replicate.
    unfold team_bitmask_size. destruct (shift_div_rem max_num_teams) as [-> ->]; [lia|].
    pose proof (Z.div_mod max_num_teams 8). pose proof (Z.mod_pos_bound max_num_teams 8).
    destruct (Z.eqb_spec (max_num_teams mod 8) 0); lia. }
  destruct (set_bits_spec max_num_teams _ (Z.to_nat (max_num_teams - reserved)) reserved Hz)
    as [Hok Ht]; [lia|lia|].
  split; [done|]. intros j Hj. rewrite Ht, test_bit_zero by done. simpl.
  by replace (reserved + Z.of_nat (Z.to_nat (max_num_teams - reserved))) with max_num_teams by lia.
Qed.

(** ** Properties *)

(** The members of a new team gather their masks and each computes the same
    slot: the least one that is free at every member, or -1 exactly when no slot
    is free at all of them. *)
Theorem common_slot_is_least_free (rows : list (list Z)) (nb : nat) (max_num_teams : Z)
    (Hrows : Forall (fun row => length row = nb) rows) (Hne : rows <> [])
    (Hmax : 0 <= max_num_teams <= 8 * Z.of_nat nb) :
  let common_index :=
    get_ls_non_zero_bit (Allreduce_char_BAND (concat rows) nb (length rows)) max_num_teams in
  let free_everywhere j := forall row, row ∈ rows -> test_bit row j = true in
  (common_index = -1 /\ forall j, 0 <= j < max_num_teams -> ~ free_everywhere j) \/
  (0 <= common_index < max_num_teams /\ free_everywhere common_index /\
   forall j, 0 <= j < common_index -> ~ free_everywhere j).
Proof.
  cbv zeta. set (red := Allreduce_char_BAND _ _ _).
  assert (Hspec : forall j, 0 <= j < max_num_teams ->
    test_bit red j = true <-> forall row, row ∈ rows -> test_bit row j = true).
  { intros j Hj. apply Allreduce_char_BAND_spec; [done|done|lia]. }
  destruct (ls_bit_spec red max_num_teams) as [[-> Hn]|(Hr & Ht & Hn)]; [lia|left|right].
  - split; [done|]. intros j Hj Hf. apply Hspec in Hf; [|done]. rewrite Hn in Hf; done.
  - split_and!; [lia|lia|by apply Hspec|]. intros j Hj Hf. apply Hspec in Hf; [|lia].
    rewrite Hn in Hf; done.
Qed.

Lemma common_slot_is_least_free_witness :
  let common_index := get_ls_non_zero_bit (Allreduce_char_BAND (concat [[252]; [248]]) 1 2) 8 in
  let free_everywhere j := forall row, row ∈ [[252]; [248]] -> test_bit row j = true in
  (common_index = -1 /\ forall j, 0 <= j < 8 -> ~ free_everywhere j) \/
  (0 <= common_index < 8 /\ free_everywhere common_index /\
   forall j, 0 <= j < common_index -> ~ free_everywhere j).
Proof.
  apply (common_slot_is_least_free [[252]; [248]] 1 8); [repeat constructor|done|lia].
Defined.
