(* ===== verification/Team.v ===== *)
(** * Teams: PE arithmetic and splitting

    Model of [src/team.cpp], [src/team.hpp] and of the team splitting logic of
    [src/rocshmem.cpp]: the translation of PE indices between a team and the
    world, the checks and computations of [rocshmem_team_split_strided], and the
    grid of teams of [rocshmem_team_split_2d].  C [int]s are kept at 32 bits. *)

From Stdlib Require Import ZArith Lia.
From stdpp Require Import base option list.
From S2P Require Import Prelude.

Open Scope Z_scope.

(** ** Data *)

Abbreviation tid := positive.

Record TeamInfo := mkTeamInfo {
  parent_team : option tid;
  pe_start : Z;
  stride : Z;
  size : Z
}.

Record team := mkTeam {
  world_size : Z;
  my_pe_in_world : Z;
  tinfo_wrt_parent : TeamInfo;
  tinfo_wrt_world : TeamInfo;
  num_pes : Z;
  my_pe : Z;
  mpi_comm : option positive;
  pool_index_ : Z
}.

(** ** Translation of PE indices *)

Definition get_pe_in_world (t : team) (pe : Z) : Z :=
  let i := tinfo_wrt_world t in s32 (pe_start i + s32 (stride i * pe)).

(** C division and remainder truncate towards zero. *)
Definition get_pe_in_my_team (t : team) (pe_in_world : Z) : Z :=
  let start := pe_start (tinfo_wrt_world t) in
  let step := stride (tinfo_wrt_world t) in
  if pe_in_world <? start then -1
  else if negb (Z.rem (s32 (pe_in_world - start)) step =? 0) then -1
  else
    let pe_in_my_team := s32 (pe_in_world - start) ÷ step in
    if pe_in_my_team >=? num_pes t then -1 else pe_in_my_team.

(** [None] is [ROCSHMEM_TEAM_INVALID]. *)
Definition team_translate_pe (src_team : option team) (src_pe : Z) (dst_team : option team) : Z :=
  match src_team, dst_team with
  | Some src, Some dst => get_pe_in_my_team dst (get_pe_in_world src src_pe)
  | _, _ => -1
  end.

Definition rocshmem_team_n_pes (t : option team) : Z :=
  match t with None => -1 | Some t => num_pes t end.

Definition rocshmem_team_my_pe (t : option team) : Z :=
  match t with None => -1 | Some t => my_pe t end.

Definition pe_in_active_set (start stride size pe : Z) : Z :=
  let translated_pe := s32 (pe - start) ÷ stride in
  if (pe <? start) || negb (Z.rem (s32 (pe - start)) stride =? 0) || (translated_pe >=? size)
  then -1 else translated_pe.

(** ** [rocshmem_team_split_strided]: checks and computed infos *)

Inductive plan :=
  | PlanError
  | PlanTeam (wrt_parent wrt_world : TeamInfo) (my_pe_in_new_team : Z).

(** [world_pes] and [world_me] are [backend->num_pes] and [backend->my_pe],
    [world] is [team_tracker.get_team_world()]. *)
Definition split_plan (world_pes world_me : Z) (world : option tid)
    (parent_id : tid) (parent : team) (start stride_ size_ : Z) : plan :=
  if (start <? 0) || (start >=? num_pes parent) || (size_ <? 1) || (size_ >? num_pes parent)
     || (stride_ <? 1)
  then PlanError
  else
    let pe_start_in_world := get_pe_in_world parent start in
    let stride_in_world := s32 (stride_ * stride (tinfo_wrt_world parent)) in
    let pe_end_in_world := s32 (pe_start_in_world + s32 (stride_in_world * (size_ - 1))) in
    if pe_end_in_world >? world_pes then PlanError
    else
      PlanTeam (mkTeamInfo (Some parent_id) start stride_ size_)
        (mkTeamInfo world pe_start_in_world stride_in_world size_)
        (pe_in_active_set pe_start_in_world stride_in_world size_ world_me).

(** ** [rocshmem_team_split_2d]: the arguments of the splits *)

Record split_args := mkSplit { sa_start : Z; sa_stride : Z; sa_size : Z }.

Definition clamp_xrange (parent_size xrange : Z) : Z :=
  if xrange >? parent_size then parent_size else xrange.

(** First loop: [n] iterations from [i], with the running [start]. *)
Fixpoint xteams_loop (xrange remainder num_xteams : Z) (n : nat) (i start : Z) : list split_args :=
  match n with
  | O => []
  | S n' =>
      let xsize := if (i =? num_xteams - 1) && negb (remainder =? 0) then remainder else xrange in
      mkSplit start 1 xsize :: xteams_loop xrange remainder num_xteams n' (i + 1) (start + xrange)
  end.

(** Second loop. *)
Fixpoint yteams_loop (xrange yrange remainder : Z) (n : nat) (i start : Z) : list split_args :=
  match n with
  | O => []
  | S n' =>
      let ysize := if negb (remainder =? 0) && (i <? remainder) then yrange + 1 else yrange in
      mkSplit start xrange ysize :: yteams_loop xrange yrange remainder n' (i + 1) (start + 1)
  end.

Definition xaxis_splits (parent_size xrange : Z) : list split_args :=
  let _xrange := clamp_xrange parent_size xrange in
  let num_xteams := (parent_size + _xrange - 1) ÷ _xrange in
  xteams_loop _xrange (Z.rem parent_size _xrange) num_xteams (Z.to_nat num_xteams) 0 0.

Definition yaxis_splits (parent_size xrange : Z) : list split_args :=
  let _xrange := clamp_xrange parent_size xrange in
  yteams_loop _xrange (parent_size ÷ _xrange) (Z.rem parent_size _xrange) (Z.to_nat _xrange) 0 0.

(** ** Lemmas on translation *)

(** A team whose members all have an index that fits in an [int]. *)
Record team_wf (t : team) : Prop := {
  wf_start : 0 <= pe_start (tinfo_wrt_world t);
  wf_stride : 1 <= stride (tinfo_wrt_world t);
  wf_size : 1 <= num_pes t;
  wf_end : pe_start (tinfo_wrt_world t) +
    stride (tinfo_wrt_world t) * num_pes t < 2 ^ 31
}.

Lemma pe_in_world_value t pe :
  team_wf t -> 0 <= pe < num_pes t ->
  get_pe_in_world t pe = pe_start (tinfo_wrt_world t) + stride (tinfo_wrt_world t) * pe.
Proof.
  intros [] Hpe. unfold get_pe_in_world.
  assert (0 <= stride (tinfo_wrt_world t) * pe <= stride (tinfo_wrt_world t) * num_pes t) by nia.
  rewrite (s32_small (_ * _)) by lia. apply s32_small. lia.
Qed.

(** The common test of [get_pe_in_my_team] and [pe_in_active_set]. *)
Lemma strided_index start step n pe i :
  1 <= step -> 0 <= start -> 0 <= pe < 2 ^ 31 -> start < 2 ^ 31 -> 0 <= i ->
  (start <= pe /\ Z.rem (pe - start) step = 0 /\ (pe - start) ÷ step < n /\
     i = (pe - start) ÷ step) <->
  (i < n /\ pe = start + step * i).
Proof.
  intros Hs H0 Hpe Hst Hi. split.
  - intros (Hle & Hr & Hn & ->). split; [done|].
    pose proof (Z.quot_rem (pe - start) step). lia.
  - intros [Hn ->]. replace (start + step * i - start) with (i * step) by lia.
    rewrite Z.rem_mul, Z.quot_mul by lia. split_and!; try done; nia.
Qed.

Lemma active_set_spec start step n pe i :
  1 <= step -> 0 <= start < 2 ^ 31 -> 0 <= pe < 2 ^ 31 -> 0 <= i ->
  pe_in_active_set start step n pe = i <-> i < n /\ pe = start + step * i.
Proof.
  intros Hs Hst Hpe Hi. unfold pe_in_active_set. rewrite s32_small by lia.
  rewrite <- (strided_index start step n pe i) by lia.
  case_if.
  - split; [lia|]. intros (Hle & Hr & Hn & He). lia.
  - split; [intros <-; lia|]. intros (_ & _ & _ & He). done.
Qed.

Lemma my_team_spec t pe i :
  team_wf t -> 0 <= pe < 2 ^ 31 -> 0 <= i ->
  get_pe_in_my_team t pe = i <->
  i < num_pes t /\ pe = pe_start (tinfo_wrt_world t) + stride (tinfo_wrt_world t) * i.
Proof.
  intros [] Hpe Hi. rewrite <- active_set_spec by (try done; nia).
  unfold get_pe_in_my_team, pe_in_active_set.
  destruct (pe <? _), (Z.rem _ _ =? 0), (_ >=? _); simpl; done.
Qed.

(** ** Lemmas on the grid of teams *)

Lemma xteams_loop_lookup x r nx n i s k :
  xteams_loop x r nx n i s !! k =
  if decide (k < n)%nat
  then Some (mkSplit (s + x * Z.of_nat k) 1
    (if (i + Z.of_nat k =? nx - 1) && negb (r =? 0) then r else x))
  else None.
Proof.
  revert i s k. induction n as [|n IH]; intros i s k; [done|].
  destruct k as [|k].
  - rewrite decide_True by lia. simpl. by rewrite Z.mul_0_r, !Z.add_0_r.
  - cbn [xteams_loop lookup list_lookup]. rewrite IH. destruct (decide (k < n)%nat).
    + rewrite decide_True by lia.
      replace (i + 1 + Z.of_nat k) with (i + Z.of_nat (S k)) by lia. do 2 f_equal. lia.
    + rewrite decide_False by lia. done.
Qed.

Lemma yteams_loop_lookup x y r n i s k :
  yteams_loop x y r n i s !! k =
  if decide (k < n)%nat
  then Some (mkSplit (s + Z.of_nat k) x
    (if negb (r =? 0) && (i + Z.of_nat k <? r) then y + 1 else y))
  else None.
Proof.
  revert i s k. induction n as [|n IH]; intros i s k; [done|].
  destruct k as [|k].
  - rewrite decide_True by lia. simpl. by rewrite !Z.add_0_r.
  - cbn [yteams_loop lookup list_lookup]. rewrite IH. destruct (decide (k < n)%nat).
    + rewrite decide_True by lia.
      replace (i + 1 + Z.of_nat k) with (i + Z.of_nat (S k)) by lia. do 2 f_equal. lia.
    + rewrite decide_False by lia. done.
Qed.

(** Number of rows of a grid of width [x] with [n] cells. *)
Lemma rows_spec n x : 1 <= x <= n ->
  let rows := (n + x - 1) ÷ x in
  rows = n / x + (if n mod x =? 0 then 0 else 1) /\ 1 <= rows /\
  x * (n / x) + n mod x = n /\ 0 <= n mod x < x /\ n ÷ x = n / x /\ Z.rem n x = n mod x.
Proof.
  intros Hx rows. subst rows. rewrite !Z.quot_div_nonneg, Z.rem_mod_nonneg by lia.
  pose proof (Z.div_mod n x). pose proof (Z.mod_pos_bound n x).
  assert (1 <= n / x) by (apply Z.div_le_lower_bound; lia).
  assert (Hrows : (n + x - 1) / x = n / x + (if n mod x =? 0 then 0 else 1)).
  { symmetry. destruct (Z.eqb_spec (n mod x) 0).
    - apply Z.div_unique with (r := x - 1); lia.
    - apply Z.div_unique with (r := n mod x - 1); nia. }
  rewrite Hrows. destruct (Z.eqb_spec (n mod x) 0); split_and!; lia.
Qed.

Lemma clamp_range n xr : 1 <= n -> 1 <= xr -> 1 <= clamp_xrange n xr <= n.
Proof. intros. unfold clamp_xrange. destruct (Z.gtb_spec xr n); lia. Qed.

(** [a] selects member [p] of the parent at position [i]. *)
Definition selects (a : split_args) (p i : Z) : Prop :=
  0 <= i < sa_size a /\ p = sa_start a + sa_stride a * i.

Lemma xaxis_selects n xr k a p i :
  1 <= n -> 1 <= xr -> 0 <= p < n ->
  xaxis_splits n xr !! k = Some a ->
  let x := clamp_xrange n xr in
  selects a p i <-> (Z.of_nat k = p / x /\ i = p mod x).
Proof.
  intros Hn Hxr Hp Ha x. pose proof (clamp_range n xr Hn Hxr) as Hx. fold x in Hx.
  unfold xaxis_splits in Ha. fold x in Ha. rewrite xteams_loop_lookup in Ha.
  destruct (rows_spec n x Hx) as (Hrows & Hpos & Hdm & Hr & Hq & Hrem).
  rewrite Hrem in Ha. set (rows := (n + x - 1) ÷ x) in *.
  case_decide as Hk; [|done]. injection Ha as <-. unfold selects. cbn [sa_start sa_stride sa_size].
  pose proof (Z.div_mod p x). pose proof (Z.mod_pos_bound p x).
  rewrite !Z.add_0_l, Z.mul_1_l. split.
  - intros [Hi ->].
    assert (Hix : 0 <= i < x).
    { destruct ((Z.of_nat k =? rows - 1) && negb (n mod x =? 0)); lia. }
    split; [apply Z.div_unique with (r := i)|apply Z.mod_unique with (q := Z.of_nat k)]; lia.
  - intros [Hk' ->]. split; [|rewrite Hk'; lia].
    destruct (Z.eqb_spec (Z.of_nat k) (rows - 1)), (Z.eqb_spec (n mod x) 0); simpl; lia.
Qed.

Lemma yaxis_selects n xr k a p i :
  1 <= n -> 1 <= xr -> 0 <= p < n ->
  yaxis_splits n xr !! k = Some a ->
  let x := clamp_xrange n xr in
  selects a p i <-> (Z.of_nat k = p mod x /\ i = p / x).
Proof.
  intros Hn Hxr Hp Ha x. pose proof (clamp_range n xr Hn Hxr) as Hx. fold x in Hx.
  unfold yaxis_splits in Ha. fold x in Ha. rewrite yteams_loop_lookup in Ha.
  destruct (rows_spec n x Hx) as (_ & _ & Hdm & Hr & Hq & Hrem). rewrite Hq, Hrem in Ha.
  case_decide as Hk; [|done]. injection Ha as <-. unfold selects. cbn [sa_start sa_stride sa_size].
  pose proof (Z.div_mod p x). pose proof (Z.mod_pos_bound p x).
  rewrite !Z.add_0_l. split.
  - intros [Hi ->].
    split; [apply Z.mod_unique with (q := i)|apply Z.div_unique with (r := Z.of_nat k)]; lia.
  - intros [Hk' ->]. split; [|lia].
    assert (0 <= p / x <= n / x) by (split; [apply Z.div_pos|apply Z.div_le_mono]; lia).
    destruct (Z.eqb_spec (n mod x) 0), (Z.ltb_spec (Z.of_nat k) (n mod x)); simpl; nia.
Qed.

Lemma xaxis_rows n xr k :
  1 <= n -> 1 <= xr -> 0 <= Z.of_nat k * clamp_xrange n xr < n ->
  is_Some (xaxis_splits n xr !! k).
Proof.
  intros Hn Hxr Hk. unfold xaxis_splits. set (x := clamp_xrange n xr) in *.
  pose proof (clamp_range n xr Hn Hxr) as Hx. fold x in Hx. rewrite xteams_loop_lookup.
  destruct (rows_spec n x Hx) as (Hrows & Hpos & Hdm & Hr & _ & _).
  rewrite decide_True; [eauto|].
  destruct (Z.eqb_spec (n mod x) 0); nia.
Qed.

(** ** Properties *)

(** C31: translating a PE of one team to another team gives the index in the
    target team of the same world PE, or -1 exactly when that PE is not a
    member of the target; a translation that succeeds can be undone. *)
Theorem team_translation (src dst : team) (p : Z)
    (Hsrc : team_wf src) (Hdst : team_wf dst) (Hp : 0 <= p < num_pes src) :
  let r := team_translate_pe (Some src) p (Some dst) in
  (r = -1 /\ forall i, 0 <= i < num_pes dst -> get_pe_in_world dst i <> get_pe_in_world src p) \/
  (0 <= r < num_pes dst /\ get_pe_in_world dst r = get_pe_in_world src p /\
   team_translate_pe (Some dst) r (Some src) = p).
Proof.
  cbn zeta. unfold team_translate_pe.
  assert (Hw : 0 <= get_pe_in_world src p < 2 ^ 31).
  { rewrite pe_in_world_value by done. destruct Hsrc. nia. }
  set (w := get_pe_in_world src p) in *. set (r := get_pe_in_my_team dst w).
  destruct (Z.le_gt_cases 0 r) as [Hr|Hr].
  - right. destruct (proj1 (my_team_spec dst w r Hdst Hw Hr) eq_refl) as [Hlt Heq].
    rewrite <- pe_in_world_value in Heq by (done || lia). split_and!; [done..|].
    rewrite <- Heq. apply my_team_spec; [done|done|lia|]. split; [lia|].
    subst w. by rewrite pe_in_world_value.
  - left. split.
    + subst r. unfold get_pe_in_my_team in *. destruct Hdst.
      rewrite s32_small in * by lia. repeat (case_if; try lia).
      pose proof (Z.quot_pos (w - pe_start (tinfo_wrt_world dst)) (stride (tinfo_wrt_world dst))).
      lia.
    + intros i Hi He. rewrite pe_in_world_value in He by done.
      assert (r = i) by (apply my_team_spec; [done|done|lia|split; [lia|done]]). lia.
Qed.

(** C30: a split whose last member lies in the parent is accepted, its world
    description places member [i] at the world index of member
    [start + stride * i] of the parent, and every PE computes as its own index
    in the new team the [i] at which it is a member, or -1. *)
Theorem split_strided_members (world_pes world_me : Z) (world : option tid) (parent_id : tid)
    (parent : team) (start stride_ size_ : Z)
    (Hwf : team_wf parent) (Hstart : 0 <= start) (Hsize : 1 <= size_) (Hstride : 1 <= stride_)
    (Hlast : start + stride_ * (size_ - 1) < num_pes parent)
    (Hstep : stride_ * stride (tinfo_wrt_world parent) < 2 ^ 31)
    (Hworld : forall i, 0 <= i < num_pes parent -> get_pe_in_world parent i < world_pes)
    (Hme : 0 <= world_me < 2 ^ 31) :
  exists winfo me,
    split_plan world_pes world_me world parent_id parent start stride_ size_ =
      PlanTeam (mkTeamInfo (Some parent_id) start stride_ size_) winfo me /\
    (forall i, 0 <= i < size_ ->
       pe_start winfo + stride winfo * i = get_pe_in_world parent (start + stride_ * i)) /\
    (forall i, 0 <= i ->
       (me = i <-> i < size_ /\ world_me = get_pe_in_world parent (start + stride_ * i))).
Proof.
  pose proof (wf_stride parent Hwf). pose proof (wf_end parent Hwf). pose proof (wf_start parent Hwf).
  assert (Hs : start < num_pes parent) by nia. assert (size_ <= num_pes parent) by nia.
  assert (Hval : forall i, 0 <= i < size_ ->
    get_pe_in_world parent start + stride_ * stride (tinfo_wrt_world parent) * i =
    get_pe_in_world parent (start + stride_ * i)).
  { intros i Hi. rewrite !pe_in_world_value by (done || nia). lia. }
  unfold split_plan. case_if; [lia|]. cbv zeta.
  rewrite (s32_small (stride_ * _)) by nia.
  assert (Hend : s32 (get_pe_in_world parent start +
    s32 (stride_ * stride (tinfo_wrt_world parent) * (size_ - 1))) =
    get_pe_in_world parent (start + stride_ * (size_ - 1))).
  { pose proof (Hval (size_ - 1) ltac:(lia)) as Hv. pose proof Hv as Hv'.
    rewrite !pe_in_world_value in Hv' by (done || nia).
    rewrite (s32_small (_ * _ * _)) by nia. rewrite Hv.
    apply s32_small. rewrite pe_in_world_value by (done || nia). nia. }
  rewrite Hend. pose proof (Hworld (start + stride_ * (size_ - 1)) ltac:(nia)).
  case_if; [lia|]. eexists _, _. split; [done|]. cbn [pe_start stride]. split; [done|].
  intros i Hi. rewrite active_set_spec; [| nia | | done | done].
  - split; intros [Hlt He]; (split; [done|]); rewrite He; [|symmetry]; apply Hval; lia.
  - rewrite pe_in_world_value by (done || lia). nia.
Qed.

(** [rocshmem_team_split_2d] arranges the members of the parent in a grid of
    width [x] (the requested range, at most the parent's size): member [p]
    belongs to exactly one x-axis team, the one of its row [p / x], at position
    [p mod x], and to exactly one y-axis team, the one of its column [p mod x],
    at position [p / x]. *)
Theorem split_2d_grid (parent_size xrange p : Z)
    (Hn : 1 <= parent_size) (Hx : 1 <= xrange) (Hp : 0 <= p < parent_size) :
  let x := clamp_xrange parent_size xrange in
  (exists a, xaxis_splits parent_size xrange !! Z.to_nat (p / x) = Some a /\
     selects a p (p mod x)) /\
  (exists a, yaxis_splits parent_size xrange !! Z.to_nat (p mod x) = Some a /\
     selects a p (p / x)) /\
  (forall k a i, xaxis_splits parent_size xrange !! k = Some a -> selects a p i ->
     k = Z.to_nat (p / x) /\ i = p mod x) /\
  (forall k a i, yaxis_splits parent_size xrange !! k = Some a -> selects a p i ->
     k = Z.to_nat (p mod x) /\ i = p / x).
Proof.
  cbn zeta. set (x := clamp_xrange parent_size xrange).
  pose proof (clamp_range parent_size xrange Hn Hx) as Hc. fold x in Hc.
  pose proof (Z.div_mod p x ltac:(lia)). pose proof (Z.mod_pos_bound p x ltac:(lia)).
  assert (0 <= p / x) by (apply Z.div_pos; lia). split_and!.
  - destruct (xaxis_rows parent_size xrange (Z.to_nat (p / x)) Hn Hx) as [a Ha].
    { fold x. nia. }
    exists a. split; [done|]. apply (xaxis_selects _ _ _ _ _ _ Hn Hx Hp Ha). fold x. lia.
  - assert (Ha : is_Some (yaxis_splits parent_size xrange !! Z.to_nat (p mod x))).
    { unfold yaxis_splits. fold x. rewrite yteams_loop_lookup, decide_True by lia. eauto. }
    destruct Ha as [a Ha]. exists a. split; [done|].
    apply (yaxis_selects _ _ _ _ _ _ Hn Hx Hp Ha). fold x. lia.
  - intros k a i Ha Hs. apply (xaxis_selects _ _ _ _ _ _ Hn Hx Hp Ha) in Hs. fold x in Hs. lia.
  - intros k a i Ha Hs. apply (yaxis_selects _ _ _ _ _ _ Hn Hx Hp Ha) in Hs. fold x in Hs. lia.
Qed.

(** The world team of [n] PEs, seen from PE [me] ([setup_team_world]). *)
Definition world_team (n me : Z) : team :=
  mkTeam n me (mkTeamInfo None 0 1 n) (mkTeamInfo None 0 1 n) n me None 0.

(** The bounds check of [rocshmem_team_split_strided] is off by one: on every
    world of [P >= 2] PEs the split of the world team with start 0, stride [P]
    and size 2 is accepted, although its second member is the world PE [P],
    which does not exist. *)
Theorem split_strided_accepts_missing_pe (P me : Z) (w : tid)
    (HP : 2 <= P < 2 ^ 31) (Hme : 0 <= me < P) :
  exists winfo my,
    split_plan P me (Some w) w (world_team P me) 0 P 2 =
      PlanTeam (mkTeamInfo (Some w) 0 P 2) winfo my /\
    size winfo = 2 /\ pe_start winfo + stride winfo * 1 = P.
Proof.
  unfold split_plan, get_pe_in_world. cbn [num_pes world_team tinfo_wrt_world pe_start stride].
  case_if; [lia|]. cbv zeta.
  rewrite !Z.mul_0_r, !Z.mul_1_r. change (s32 0) with 0. rewrite (s32_small P) by lia.
  change (s32 (0 + 0)) with 0. replace (P * (2 - 1)) with P by lia.
  rewrite (s32_small P), Z.add_0_l, (s32_small P) by lia. case_if; [lia|].
  eexists _, _. split; [done|]. cbn [size pe_start stride]. split; [done|]. lia.
Qed.

(** ** Witnesses *)

Lemma world_team_wf n me : 1 <= n < 2 ^ 31 -> team_wf (world_team n me).
Proof. intros H. split; cbn [world_team tinfo_wrt_world num_pes pe_start stride]; lia. Qed.

(** Members 1, 3, 5 of a world of eight PEs. *)
Definition odd_team : team :=
  mkTeam 8 3 (mkTeamInfo (Some 1%positive) 1 2 3) (mkTeamInfo (Some 1%positive) 1 2 3) 3 1 None 2.

Lemma odd_team_wf : team_wf odd_team.
Proof. split; cbn; lia. Qed.

Lemma team_translation_witness :
  let r := team_translate_pe (Some (world_team 8 3)) 5 (Some odd_team) in
  (r = -1 /\ forall i, 0 <= i < 3 ->
     get_pe_in_world odd_team i <> get_pe_in_world (world_team 8 3) 5) \/
  (0 <= r < 3 /\ get_pe_in_world odd_team r = get_pe_in_world (world_team 8 3) 5 /\
   team_translate_pe (Some odd_team) r (Some (world_team 8 3)) = 5).
Proof.
  apply (team_translation (world_team 8 3) odd_team 5);
    [apply world_team_wf; lia|exact odd_team_wf|cbn; lia].
Defined.

Lemma split_strided_members_witness :
  exists winfo me,
    split_plan 8 5 (Some 1%positive) 2%positive odd_team 0 2 2 =
      PlanTeam (mkTeamInfo (Some 2%positive) 0 2 2) winfo me /\
    (forall i, 0 <= i < 2 ->
       pe_start winfo + stride winfo * i = get_pe_in_world odd_team (0 + 2 * i)) /\
    (forall i, 0 <= i ->
       (me = i <-> i < 2 /\ 5 = get_pe_in_world odd_team (0 + 2 * i))).
Proof.
  apply (split_strided_members 8 5 (Some 1%positive) 2%positive odd_team 0 2 2);
    try (cbn; lia); [exact odd_team_wf|].
  intros i Hi. rewrite pe_in_world_value by (exact odd_team_wf || exact Hi). cbn in *. lia.
Defined.

Lemma split_2d_grid_witness :
  exists a, xaxis_splits 7 3 !! Z.to_nat (5 / clamp_xrange 7 3) = Some a /\
    selects a 5 (5 mod clamp_xrange 7 3).
Proof. apply (split_2d_grid 7 3 5); lia. Defined.

Lemma split_strided_accepts_missing_pe_witness :
  exists winfo my,
    split_plan 4 1 (Some 1%positive) 1%positive (world_team 4 1) 0 4 2 =
      PlanTeam (mkTeamInfo (Some 1%positive) 0 4 2) winfo my /\
    size winfo = 2 /\ pe_start winfo + stride winfo * 1 = 4.
Proof. apply (split_strided_accepts_missing_pe 4 1 1%positive); lia. Defined.
