(* ===== verification/TeamLife.v ===== *)
(** * Life cycle of teams

    Model of how one PE creates, caches and destroys teams: the tracker
    ([src/team_tracker.cpp]), [create_new_team] and [team_destroy] of the IPC
    backend ([src/ipc/backend_ipc.cpp]), the API functions
    [rocshmem_team_split_strided], [rocshmem_team_split_2d],
    [rocshmem_team_destroy] and the team part of [rocshmem_finalize]
    ([src/rocshmem.cpp]), and the duplicate teams that the collective launcher
    caches per parent team ([src/host/collective_launcher.hpp]).  An abort or a
    failed assertion is [None]. *)

From Stdlib Require Import ZArith Lia.
From stdpp Require Import base option list gmap.
From S2P Require Import Prelude Bitmask Team.

Open Scope Z_scope.

(** ** State *)

Abbreviation comm := positive.

Definition NUM_RESERVED_TEAMS : Z := 2.
Definition ROCSHMEM_SUCCESS : Z := 0.
Definition ROCSHMEM_ERROR : Z := 1.

Record TeamTracker := mkTracker {
  teams_ : list tid;
  max_num_teams_ : Z;
  team_world_ : tid;
  team_shared_ : tid
}.

Record ParallelResources := mkRes {
  wg_teams : list (option tid);
  dev_wg_teams : bool;            (* whether the device array is allocated *)
  uploaded_wg_teams : Z;
  wg_team_creation_failed : bool
}.

Definition res_empty : ParallelResources := mkRes [] false 0 false.

Record backend := mkBackend {
  b_num_pes : Z;
  b_my_pe : Z;
  objects : gmap tid team;          (* team objects in device memory *)
  team_tracker : TeamTracker;
  team_pool_bitmask_ : list Z;
  comms : gset comm;                (* live MPI communicators *)
  resources_map : gmap tid ParallelResources
}.

Definition set_objects (o : gmap tid team) (b : backend) : backend :=
  mkBackend (b_num_pes b) (b_my_pe b) o (team_tracker b) (team_pool_bitmask_ b) (comms b)
    (resources_map b).
Definition set_teams (l : list tid) (b : backend) : backend :=
  let k := team_tracker b in
  mkBackend (b_num_pes b) (b_my_pe b) (objects b)
    (mkTracker l (max_num_teams_ k) (team_world_ k) (team_shared_ k))
    (team_pool_bitmask_ b) (comms b) (resources_map b).
Definition set_pool (m : list Z) (b : backend) : backend :=
  mkBackend (b_num_pes b) (b_my_pe b) (objects b) (team_tracker b) m (comms b) (resources_map b).
Definition set_comms (c : gset comm) (b : backend) : backend :=
  mkBackend (b_num_pes b) (b_my_pe b) (objects b) (team_tracker b) (team_pool_bitmask_ b) c
    (resources_map b).
Definition set_resources (r : gmap tid ParallelResources) (b : backend) : backend :=
  mkBackend (b_num_pes b) (b_my_pe b) (objects b) (team_tracker b) (team_pool_bitmask_ b)
    (comms b) r.

Definition tracked (b : backend) : list tid := teams_ (team_tracker b).
Definition max_num_teams (b : backend) : Z := max_num_teams_ (team_tracker b).

(** ** Tracker *)

Definition track (t : option tid) (b : backend) : backend :=
  match t with None => b | Some t => set_teams (tracked b ++ [t]) b end.

(** [std::find], the assertion that it succeeds, and [erase]. *)
Fixpoint find_erase (t : tid) (l : list tid) : option (list tid) :=
  match l with
  | [] => None
  | x :: l' => if decide (x = t) then Some l' else l1 ← find_erase t l'; Some (x :: l1)
  end.

Definition untrack (t : tid) (b : backend) : option backend :=
  l ← find_erase t (tracked b); Some (set_teams l b).

(** ** Creation and destruction in the backend *)

Section life_cycle.

(** What is outside this PE: the result of the AND-reduction of the masks over
    the members of the new team, the address of a new allocation given the live
    ones, and the handle of a new communicator given the live ones. *)
Context (allreduce : TeamInfo -> list Z -> list Z).
Context (hip_malloc : gset tid -> tid).
Context (comm_new : gset comm -> comm).

Definition comm_free (c : option comm) (b : backend) : backend :=
  match c with None => b | Some c => set_comms (comms b ∖ {[c]}) b end.

(** The constructors [IPCTeam] and [Team]; the latter duplicates the
    communicator. *)
Definition new_team_object (wrt_parent wrt_world : TeamInfo) (n me : Z) (c : option comm)
    (pool_index : Z) (b : backend) : tid * backend :=
  let t := hip_malloc (dom (objects b)) in
  let '(d, b1) :=
    match c with
    | None => (None, b)
    | Some _ => let d := comm_new (comms b) in (Some d, set_comms ({[d]} ∪ comms b) b)
    end in
  (t, set_objects (<[t := mkTeam (b_num_pes b) (b_my_pe b) wrt_parent wrt_world n me d pool_index]>
         (objects b1)) b1).

Definition create_new_team (wrt_parent wrt_world : TeamInfo) (n me : Z) (new_comm : option comm)
    (b : backend) : option (option tid * backend) :=
  let reduced := allreduce wrt_world (team_pool_bitmask_ b) in
  let common_index := get_ls_non_zero_bit reduced (max_num_teams b) in
  if common_index <? 0 then None
  else
    let b1 := set_pool (clear_bit (team_pool_bitmask_ b) common_index) b in
    let '(t, b2) := new_team_object wrt_parent wrt_world n me new_comm common_index b1 in
    Some (Some t, b2).

Definition team_destroy (t : tid) (b : backend) : option backend :=
  obj ← objects b !! t;
  let b1 := set_pool (set_bit (team_pool_bitmask_ b) (pool_index_ obj)) b in
  let b2 := comm_free (mpi_comm obj) b1 in
  Some (set_objects (delete t (objects b2)) b2).

(** ** API functions *)

Definition rocshmem_team_split_strided (parent : option tid) (start stride_ size_ : Z)
    (b : backend) : option (Z * option tid * backend) :=
  if Z.of_nat (length (tracked b)) >=? u64 (max_num_teams b - NUM_RESERVED_TEAMS)
  then Some (-1, None, b)
  else
    match parent with
    | None => Some (0, None, b)
    | Some p =>
        obj ← objects b !! p;
        match split_plan (b_num_pes b) (b_my_pe b) (Some (team_world_ (team_tracker b)))
                p obj start stride_ size_ with
        | PlanError => Some (-1, None, b)
        | PlanTeam wrt_parent wrt_world me =>
            let '(team_comm, b1) :=
              match mpi_comm obj with
              | None => (None, b)
              | Some _ =>
                  if me <? 0 then (None, b)
                  else let c := comm_new (comms b) in (Some c, set_comms ({[c]} ∪ comms b) b)
              end in
            if me <? 0 then Some (0, None, comm_free team_comm b1)
            else
              r ← create_new_team wrt_parent wrt_world size_ me team_comm b1;
              let '(new_team, b2) := (r : option tid * backend) in
              match new_team with
              | None => Some (ROCSHMEM_ERROR, None, comm_free team_comm b2)
              | Some _ => Some (0, new_team, comm_free team_comm (track new_team b2))
              end
        end
    end.

(** One of the two loops of [rocshmem_team_split_2d]: the last valid handle wins. *)
Fixpoint split_loop (parent : tid) (args : list split_args) (axis_team : option tid)
    (b : backend) : option (Z * option tid * backend) :=
  match args with
  | [] => Some (ROCSHMEM_SUCCESS, axis_team, b)
  | a :: args' =>
      r ← rocshmem_team_split_strided (Some parent) (sa_start a) (sa_stride a) (sa_size a) b;
      let '(ret, t, b1) := (r : Z * option tid * backend) in
      if negb (ret =? 0) then Some (ROCSHMEM_ERROR, axis_team, b1)
      else split_loop parent args' (match t with Some _ => t | None => axis_team end) b1
  end.

(** Returns the status, the x-axis team and the y-axis team. *)
Definition rocshmem_team_split_2d (parent : option tid) (xrange : Z) (b : backend)
  : option (Z * option tid * option tid * backend) :=
  match parent with
  | None => Some (ROCSHMEM_ERROR, None, None, b)
  | Some p =>
      if xrange <? 1 then Some (ROCSHMEM_ERROR, None, None, b)
      else
        obj ← objects b !! p;
        r ← split_loop p (xaxis_splits (num_pes obj) xrange) None b;
        let '(ret, xteam, b1) := (r : Z * option tid * backend) in
        if negb (ret =? 0) then Some (ROCSHMEM_ERROR, xteam, None, b1)
        else
          r2 ← split_loop p (yaxis_splits (num_pes obj) xrange) None b1;
          let '(ret2, yteam, b2) := (r2 : Z * option tid * backend) in
          Some (ret2, xteam, yteam, b2)
  end.

Definition destroy_cached_team (t : tid) (b : backend) : option backend :=
  b1 ← untrack t b; team_destroy t b1.

Fixpoint destroy_wg_teams (l : list (option tid)) (b : backend) : option backend :=
  match l with
  | [] => Some b
  | None :: l' => destroy_wg_teams l' b
  | Some t :: l' => b1 ← destroy_cached_team t b; destroy_wg_teams l' b1
  end.

(** [CollectiveLauncher::release_team] *)
Definition release_team (t : tid) (b : backend) : option backend :=
  match resources_map b !! t with
  | None => Some b
  | Some r =>
      b1 ← destroy_wg_teams (wg_teams r) b;
      Some (set_resources (delete t (resources_map b1)) b1)
  end.

Definition rocshmem_team_destroy (t : option tid) (b : backend) : option backend :=
  match t with
  | None => Some b
  | Some t =>
      if decide (t = team_world_ (team_tracker b) \/ t = team_shared_ (team_tracker b))
      then Some b
      else
        b1 ← release_team t b;
        b2 ← untrack t b1;
        team_destroy t b2
  end.

(** [CollectiveLauncher::release_all]; the entries are visited in some order. *)
Fixpoint release_entries (l : list (tid * ParallelResources)) (b : backend) : option backend :=
  match l with
  | [] => Some b
  | (_, r) :: l' => b1 ← destroy_wg_teams (wg_teams r) b; release_entries l' b1
  end.

Definition release_all (b : backend) : option backend :=
  b1 ← release_entries (map_to_list (resources_map b)) b;
  Some (set_resources ∅ b1).

(** [TeamTracker::destroy_all]: destroy the last team and pop it, until none is
    left; [l] is the tracked list from its end. *)
Fixpoint destroy_all (l : list tid) (b : backend) : option backend :=
  match l with
  | [] => Some (set_teams [] b)
  | t :: l' => b1 ← team_destroy t (set_teams (rev (t :: l')) b);
               destroy_all l' (set_teams (rev l') b1)
  end.

(** The team part of [rocshmem_finalize]. *)
Definition finalize_teams (b : backend) : option backend :=
  b1 ← release_all b; destroy_all (rev (tracked b1)) b1.

(** ** The duplicate teams of the collective launcher *)

(** The loop of [ensure_wg_teams] that fills the entries: [done] holds the
    entries already visited, in order.  The result says whether all were
    created. *)
Fixpoint fill_wg_teams (parent : tid) (team_size : Z) (done todo : list (option tid))
    (b : backend) : option (bool * list (option tid) * backend) :=
  match todo with
  | [] => Some (true, done, b)
  | Some t :: todo' => fill_wg_teams parent team_size (done ++ [Some t]) todo' b
  | None :: todo' =>
      r ← rocshmem_team_split_strided (Some parent) 0 1 team_size b;
      let '(status, t, b1) := (r : Z * option tid * backend) in
      match t with
      | Some t' =>
          if negb (status =? 0)
          then Some (false, done ++ [Some t'], b1)
          else fill_wg_teams parent team_size (done ++ [Some t']) todo' b1
      | None => Some (false, done ++ [None], b1)
      end
  end.

(** The clean-up loop after a failed split. *)
Fixpoint destroy_created (l : list (option tid)) (b : backend) : option backend :=
  match l with
  | [] => Some b
  | None :: l' => destroy_created l' b
  | Some t :: l' => b1 ← rocshmem_team_destroy (Some t) b; destroy_created l' b1
  end.

(** [wg_teams.resize(n, ROCSHMEM_TEAM_INVALID)] for a larger [n]. *)
Definition resize_up (l : list (option tid)) (n : nat) : list (option tid) :=
  l ++ replicate (n - length l) None.

(** While the loop runs the vector of the entry is the list of [fill_wg_teams], and
    the map holds an empty entry that no other code reads. *)
Definition ensure_wg_teams (parent : tid) (team_size : Z) (required : nat) (b : backend)
  : option backend :=
  let r := default res_empty (resources_map b !! parent) in
  let store r' b' := set_resources (<[parent := r']> (resources_map b')) b' in
  if wg_team_creation_failed r then Some (store r b)
  else
    let upload l b' :=
      store (mkRes l true (Z.max (uploaded_wg_teams r) (Z.of_nat required)) false) b' in
    if (length (wg_teams r) <? required)%nat then
      f ← fill_wg_teams parent team_size [] (resize_up (wg_teams r) required) (store res_empty b);
      let '(ok, l, b1) := (f : bool * list (option tid) * backend) in
      if ok then Some (upload l b1)
      else
        b2 ← destroy_created l b1;
        Some (store (mkRes [] (dev_wg_teams r) 0 true) b2)
    else Some (upload (wg_teams r) b).

(** ** Invariant *)

Definition owned (o : gmap tid team) (c : comm) : Prop :=
  exists t obj, o !! t = Some obj /\ mpi_comm obj = Some c.

(** [E] are the communicators that a running API call still has to free. *)
Record pool_inv (E : gset comm) (b : backend) : Prop := {
  pi_max : NUM_RESERVED_TEAMS <= max_num_teams b < 2 ^ 31;
  pi_mask : mask_ok (max_num_teams b) (team_pool_bitmask_ b);
  pi_nodup : NoDup (tracked b);
  pi_world : team_world_ (team_tracker b) ∉ tracked b;
  pi_shared : team_shared_ (team_tracker b) ∉ tracked b;
  pi_dom : forall t, is_Some (objects b !! t) <->
    t = team_world_ (team_tracker b) \/ t = team_shared_ (team_tracker b) \/ t ∈ tracked b;
  pi_range : forall t obj, objects b !! t = Some obj ->
    0 <= pool_index_ obj < max_num_teams b /\
    (pool_index_ obj < NUM_RESERVED_TEAMS <-> t ∉ tracked b);
  pi_bits : forall i, 0 <= i < max_num_teams b ->
    (test_bit (team_pool_bitmask_ b) i = false <->
     i < NUM_RESERVED_TEAMS \/ exists t obj, objects b !! t = Some obj /\ pool_index_ obj = i);
  pi_inj : forall t1 t2 o1 o2, objects b !! t1 = Some o1 -> objects b !! t2 = Some o2 ->
    pool_index_ o1 = pool_index_ o2 -> t1 = t2;
  pi_comms : forall c, c ∈ comms b <-> c ∈ E \/ owned (objects b) c;
  pi_extra : forall c, owned (objects b) c -> c ∉ E;
  pi_comm_inj : forall t1 t2 o1 o2 c, objects b !! t1 = Some o1 -> objects b !! t2 = Some o2 ->
    mpi_comm o1 = Some c -> mpi_comm o2 = Some c -> t1 = t2
}.

Definition child (r : ParallelResources) (t : tid) : Prop := Some t ∈ wg_teams r.

Record res_inv (m : gmap tid ParallelResources) (b : backend) : Prop := {
  ri_live : forall p r, m !! p = Some r -> is_Some (objects b !! p);
  ri_child : forall p r t, m !! p = Some r -> child r t -> t ∈ tracked b /\ m !! t = None;
  ri_nodup : forall p r, m !! p = Some r -> NoDup (omap id (wg_teams r));
  ri_inj : forall p1 p2 r1 r2 t, m !! p1 = Some r1 -> m !! p2 = Some r2 ->
    child r1 t -> child r2 t -> p1 = p2
}.

(** Two states that differ only in the live teams, slots and communicators. *)
Record frame (b b' : backend) : Prop := {
  fr_res : resources_map b' = resources_map b;
  fr_world : team_world_ (team_tracker b') = team_world_ (team_tracker b);
  fr_shared : team_shared_ (team_tracker b') = team_shared_ (team_tracker b);
  fr_max : max_num_teams b' = max_num_teams b
}.

#[local] Instance frame_preorder : PreOrder frame.
Proof.
  split; [by intros b|]. intros b1 b2 b3 [] []. split; congruence.
Qed.

Definition cached (b : backend) (t : tid) : Prop :=
  exists p r, resources_map b !! p = Some r /\ child r t.

Lemma child_omap r t : child r t <-> t ∈ omap id (wg_teams r).
Proof.
  unfold child. rewrite list_elem_of_omap. split.
  - intros H. by exists (Some t).
  - intros (x & Hx & Hid). unfold id in Hid. by subst.
Qed.

(** ** The tracker *)

Lemma find_erase_spec t l :
  t ∈ l -> exists l', find_erase t l = Some l' /\ l ≡ₚ t :: l'.
Proof.
  induction l as [|x l IH]; [by intros ?%elem_of_nil|]. intros Hin. simpl.
  destruct (decide (x = t)) as [->|Hne]; [eauto|].
  apply elem_of_cons in Hin as [->|Hin]; [done|]. destruct (IH Hin) as (l' & -> & Hp).
  simpl. eexists. split; [done|]. rewrite Hp. apply Permutation_swap.
Qed.

(** ** Creation *)

Hypothesis allreduce_subset : forall info m i,
  0 <= i -> test_bit (allreduce info m) i = true -> test_bit m i = true.
Hypothesis hip_malloc_fresh : forall s, hip_malloc s ∉ s.
Hypothesis comm_new_fresh : forall s, comm_new s ∉ s.

Lemma add_comm_inv E b :
  pool_inv E b ->
  pool_inv ({[comm_new (comms b)]} ∪ E) (set_comms ({[comm_new (comms b)]} ∪ comms b) b).
Proof.
  intros []. pose proof (comm_new_fresh (comms b)) as Hf. split; simpl; try done.
  - intros c. rewrite !elem_of_union, pi_comms0. tauto.
  - intros c Hc. rewrite not_elem_of_union, not_elem_of_singleton. split; [|by apply pi_extra0].
    intros ->. apply Hf, pi_comms0. by right.
Qed.

Lemma comm_free_inv E c b :
  pool_inv ({[c]} ∪ E) b -> c ∉ E -> pool_inv E (comm_free (Some c) b).
Proof.
  intros [] Hc. split; simpl; try done.
  - intros d. rewrite elem_of_difference, pi_comms0, elem_of_union, not_elem_of_singleton.
    rewrite elem_of_singleton. split; [tauto|]. intros [Hd|Hd].
    + split; [tauto|]. by intros ->.
    + split; [tauto|]. intros ->. apply (pi_extra0 c Hd). set_solver.
  - intros d Hd Hin. apply (pi_extra0 d Hd). set_solver.
Qed.

Lemma owned_insert o t obj c :
  o !! t = None ->
  owned (<[t := obj]> o) c <-> mpi_comm obj = Some c \/ owned o c.
Proof.
  intros Ht. unfold owned. split.
  - intros (t' & obj' & Hl & Hm). apply lookup_insert_Some in Hl as [[-> ->]|[Hne Hl]]; eauto.
  - intros [Hm|(t' & obj' & Hl & Hm)].
    + exists t, obj. by rewrite lookup_insert_eq.
    + exists t', obj'. rewrite lookup_insert_ne; [done|]. congruence.
Qed.

(** Allocating an object for a slot that was free, and tracking it. *)
Lemma insert_team_inv E b t obj :
  pool_inv E b -> objects b !! t = None ->
  NUM_RESERVED_TEAMS <= pool_index_ obj < max_num_teams b ->
  test_bit (team_pool_bitmask_ b) (pool_index_ obj) = true ->
  (forall c, mpi_comm obj = Some c -> c ∉ comms b) ->
  pool_inv E (set_teams (tracked b ++ [t])
    (set_comms (match mpi_comm obj with None => comms b | Some c => {[c]} ∪ comms b end)
      (set_objects (<[t := obj]> (objects b))
        (set_pool (clear_bit (team_pool_bitmask_ b) (pool_index_ obj)) b)))).
Proof.
  intros [] Ht Hr Hfree Hc. unfold NUM_RESERVED_TEAMS in *.
  assert (Hnew : t ∉ tracked b /\ t <> team_world_ (team_tracker b) /\
                 t <> team_shared_ (team_tracker b)).
  { assert (~ is_Some (objects b !! t)) as Hn by (rewrite Ht; by intros []).
    rewrite pi_dom0 in Hn. tauto. }
  destruct Hnew as (Hnt & Hnw & Hns).
  assert (Hidx : forall t' o', objects b !! t' = Some o' -> pool_index_ o' <> pool_index_ obj).
  { intros t' o' Ho He. enough (test_bit (team_pool_bitmask_ b) (pool_index_ obj) = false) by congruence.
    apply pi_bits0; [lia|]. right. eauto. }
  split; simpl; unfold max_num_teams, tracked, NUM_RESERVED_TEAMS in *; simpl; try done.
  - auto.
  - apply NoDup_app. split_and!; [done| |apply NoDup_singleton].
    intros x Hx Hx'. apply list_elem_of_singleton in Hx' as ->. done.
  - rewrite elem_of_app, list_elem_of_singleton. intros [?|?]; [done|congruence].
  - rewrite elem_of_app, list_elem_of_singleton. intros [?|?]; [done|congruence].
  - intros t'. rewrite lookup_insert_is_Some', elem_of_app, list_elem_of_singleton, pi_dom0.
    intuition congruence.
  - intros t' o' Hl. apply lookup_insert_Some in Hl as [[-> ->]|[Hne Hl]].
    + split; [lia|]. split; [intros ?; lia|]. intros Hn. exfalso. apply Hn, elem_of_app. right. by left.
    + destruct (pi_range0 _ _ Hl) as [Hr1 Hr2]. split; [done|]. rewrite Hr2.
      rewrite not_elem_of_app, list_elem_of_singleton. intuition congruence.
  - intros i Hi. rewrite (test_clear_bit (max_num_teams_ (team_tracker b))) by (done || lia).
    destruct (Z.eqb_spec i (pool_index_ obj)) as [->|Hne].
    + split; [|done]. intros _. right. exists t, obj. by rewrite lookup_insert_eq.
    + rewrite pi_bits0 by done. split; (intros [?|(t' & o' & Hl & Hp)]; [by left|right]).
      * exists t', o'. rewrite lookup_insert_ne by congruence. done.
      * apply lookup_insert_Some in Hl as [[-> ->]|[_ Hl]]; [congruence|eauto].
  - intros t1 t2 o1 o2 H1 H2 He.
    apply lookup_insert_Some in H1 as [[<- <-]|[Hn1 H1]], H2 as [[<- <-]|[Hn2 H2]]; try done.
    + by destruct (Hidx _ _ H2).
    + by destruct (Hidx _ _ H1).
    + eauto.
  - intros c. rewrite owned_insert by done. destruct (mpi_comm obj) as [d|].
    + rewrite elem_of_union, elem_of_singleton, pi_comms0.
      assert (Some d = Some c <-> c = d) by (split; congruence). tauto.
    + rewrite pi_comms0. assert (~ None = Some c) by done. tauto.
  - intros c. rewrite owned_insert by done. intros [Hm|Ho]; [|eauto].
    intros HE. apply (Hc c Hm). apply pi_comms0. by left.
  - intros t1 t2 o1 o2 c H1 H2 Hc1 Hc2.
    apply lookup_insert_Some in H1 as [[<- <-]|[Hn1 H1]], H2 as [[<- <-]|[Hn2 H2]]; try done.
    + destruct (Hc c Hc1). apply pi_comms0. right. by exists t2, o2.
    + destruct (Hc c Hc2). apply pi_comms0. right. by exists t1, o1.
    + eauto.
Qed.

Lemma create_track_inv E wp ww n me tc b nt b' :
  pool_inv E b -> create_new_team wp ww n me tc b = Some (nt, b') ->
  exists t, nt = Some t /\ objects b !! t = None /\ pool_inv E (track nt b') /\
    tracked (track nt b') = tracked b ++ [t] /\ frame b (track nt b') /\
    (forall p, is_Some (objects b !! p) -> is_Some (objects b' !! p)).
Proof.
  intros Hinv Hc. unfold create_new_team in Hc.
  set (red := allreduce ww (team_pool_bitmask_ b)) in *.
  destruct (ls_bit_spec red (max_num_teams b)) as [[Hr _]|(Hr & Ht & _)].
  { destruct Hinv. unfold NUM_RESERVED_TEAMS in *. lia. }
  { rewrite Hr in Hc. done. }
  set (idx := get_ls_non_zero_bit red (max_num_teams b)) in *.
  destruct (Z.ltb_spec idx 0); [lia|].
  assert (Hfree : test_bit (team_pool_bitmask_ b) idx = true) by (eapply allreduce_subset; [lia|done]).
  assert (Hres : NUM_RESERVED_TEAMS <= idx).
  { destruct (Z.le_gt_cases NUM_RESERVED_TEAMS idx); [done|].
    enough (test_bit (team_pool_bitmask_ b) idx = false) by congruence.
    apply (pi_bits _ _ Hinv); [done|by left]. }
  set (t := hip_malloc (dom (objects b))).
  assert (Hnew : objects b !! t = None) by (apply not_elem_of_dom, hip_malloc_fresh).
  assert (Hlive : forall obj p, is_Some (objects b !! p) -> is_Some (<[t := obj]> (objects b) !! p)).
  { intros obj p Hp. rewrite lookup_insert_is_Some'. by right. }
  destruct tc as [c|]; unfold new_team_object in Hc; simpl in Hc; injection Hc as <- <-; exists t;
    (split_and!; [done|done| |done|by split|apply Hlive]).
  - apply (insert_team_inv E b t (mkTeam _ _ wp ww n me (Some (comm_new (comms b))) idx));
      simpl; [done|done|lia|done|]. intros c' [= <-]. apply comm_new_fresh.
  - apply (insert_team_inv E b t (mkTeam _ _ wp ww n me None idx)); simpl; [done|done|lia|done|done].
Qed.

Lemma comm_free_objects c b : objects (comm_free c b) = objects b.
Proof. by destruct c. Qed.

(** ** Destruction *)

Lemma owned_delete o t obj c :
  o !! t = Some obj -> owned o c ->
  (forall t' o', o !! t' = Some o' -> mpi_comm o' = Some c -> mpi_comm obj = Some c -> t' = t) ->
  owned (delete t o) c <-> mpi_comm obj <> Some c.
Proof.
  intros Ht (t' & o' & Hl & Hm) Huniq. split.
  - intros (t2 & o2 & Hl2 & Hm2) Hc. apply lookup_delete_Some in Hl2 as [Hne Hl2].
    apply Hne. symmetry. eauto.
  - intros Hne. exists t', o'. rewrite lookup_delete_ne; [done|]. congruence.
Qed.

Lemma owned_delete_sub o t c : owned (delete t o) c -> owned o c.
Proof. intros (t' & o' & [_ Hl]%lookup_delete_Some & Hm). by exists t', o'. Qed.

(** Untracking and destroying a tracked team gives its slot and its communicator
    back. *)
Lemma destroy_core_inv E b t l obj :
  pool_inv E b -> objects b !! t = Some obj -> tracked b ≡ₚ t :: l ->
  exists b', team_destroy t (set_teams l b) = Some b' /\ pool_inv E b' /\ tracked b' = l /\
    frame b b' /\ objects b' = delete t (objects b) /\
    test_bit (team_pool_bitmask_ b') (pool_index_ obj) = true.
Proof.
  intros [] Ht Hp. unfold team_destroy. simpl. rewrite Ht. simpl.
  destruct (pi_range0 _ _ Ht) as [Hr Hr2].
  assert (Hin : t ∈ tracked b) by (rewrite Hp; by left).
  assert (Hge : NUM_RESERVED_TEAMS <= pool_index_ obj).
  { destruct (Z.le_gt_cases NUM_RESERVED_TEAMS (pool_index_ obj)) as [|Hlt]; [done|]. by apply Hr2 in Hlt. }
  assert (Hnd : NoDup (t :: l)) by (by rewrite <- Hp).
  apply NoDup_cons in Hnd as [Hnt Hnd].
  eexists. split; [done|]. rewrite comm_free_objects. simpl. rewrite Hp in pi_world0, pi_shared0.
  apply not_elem_of_cons in pi_world0 as [Hw1 Hw2], pi_shared0 as [Hs1 Hs2].
  assert (Hset : forall i, 0 <= i -> test_bit (set_bit (team_pool_bitmask_ b) (pool_index_ obj)) i =
    if i =? pool_index_ obj then true else test_bit (team_pool_bitmask_ b) i).
  { intros i Hi. by apply (test_set_bit (max_num_teams b)). }
  assert (Hlook : forall t' o', delete t (objects b) !! t' = Some o' <->
    t' <> t /\ objects b !! t' = Some o').
  { intros t' o'. rewrite lookup_delete_Some. intuition congruence. }
  assert (Hmem : forall t', t' ∈ tracked b <-> t' = t \/ t' ∈ l).
  { intros t'. by rewrite Hp, elem_of_cons. }
  assert (Hgoal : pool_inv E (set_objects (delete t (objects b))
    (comm_free (mpi_comm obj) (set_pool (set_bit (team_pool_bitmask_ b) (pool_index_ obj))
      (set_teams l b))))).
  { destruct (mpi_comm obj) as [c0|] eqn:Hc0;
    (split; unfold max_num_teams, tracked in *; simpl in *; try done; try (by auto);
    [ intros t'; rewrite lookup_delete_is_Some, pi_dom0, Hmem; intuition congruence
    | intros t' o' [Hne Hl]%Hlook; destruct (pi_range0 _ _ Hl) as [? Hr3]; split; [done|];
      rewrite Hr3, Hmem; intuition congruence
    | intros i Hi; rewrite Hset by lia; destruct (Z.eqb_spec i (pool_index_ obj)) as [->|Hne];
      [ split; [done|]; intros [?|(t' & o' & [Hne Hl]%Hlook & He)];
        [lia|by destruct (Hne (pi_inj0 _ _ _ _ Hl Ht He))]
      | rewrite pi_bits0 by done; split; (intros [?|(t' & o' & Hl & He)]; [by left|right]);
        [exists t', o'; rewrite Hlook; split; [split; congruence|done]
        |apply Hlook in Hl as [_ Hl]; eauto] ]
    | intros t1 t2 o1 o2 [_ H1]%Hlook [_ H2]%Hlook; eauto
    | 
    | intros c Hc; apply owned_delete_sub in Hc; eauto
    | intros t1 t2 o1 o2 c [_ H1]%Hlook [_ H2]%Hlook; eauto ]).
    - intros c. rewrite elem_of_difference, not_elem_of_singleton, pi_comms0.
      assert (Hoc0 : owned (objects b) c0) by (by exists t, obj).
      split.
      + intros [[HE|Ho] Hne]; [by left|right].
        apply (owned_delete _ _ obj); try done; [|congruence]. intros. congruence.
      + intros [HE|Ho].
        * split; [by left|]. intros ->. by apply (pi_extra0 c0).
        * pose proof (owned_delete_sub _ _ _ Ho) as Ho'. split; [by right|]. intros ->.
          revert Ho. rewrite (owned_delete _ _ obj) by (try done; intros; eauto). congruence.
    - intros c. rewrite pi_comms0. split; intros [HE|Ho]; [by left| |by left|].
      + right. apply (owned_delete _ _ obj); try done; [|congruence]. intros. congruence.
      + right. by eapply owned_delete_sub. }
  split; [exact Hgoal|]. destruct (mpi_comm obj); (split_and!; [done|by split|done|]); simpl;
    rewrite Hset by lia; by rewrite Z.eqb_refl.
Qed.

Lemma destroy_cached_inv E b t :
  pool_inv E b -> t ∈ tracked b ->
  exists b', destroy_cached_team t b = Some b' /\ pool_inv E b' /\ tracked b ≡ₚ t :: tracked b' /\
    frame b b' /\ objects b' = delete t (objects b) /\
    forall obj, objects b !! t = Some obj ->
      test_bit (team_pool_bitmask_ b') (pool_index_ obj) = true.
Proof.
  intros Hinv Hin. destruct (find_erase_spec t (tracked b) Hin) as (l & Hl & Hp).
  assert (Hobj : is_Some (objects b !! t)) by (apply (pi_dom _ _ Hinv); tauto).
  destruct Hobj as [obj Hobj].
  destruct (destroy_core_inv E b t l obj Hinv Hobj Hp) as (b' & Hd & Hinv' & <- & Hres & Ho & Hb).
  exists b'. unfold destroy_cached_team, untrack. rewrite Hl. simpl. split_and!; try done.
  intros obj'. rewrite Hobj. by intros [= <-].
Qed.

(** Destroying the duplicates of one entry. *)
Lemma destroy_wg_teams_inv E l b :
  pool_inv E b -> NoDup (omap id l) -> (forall t, t ∈ omap id l -> t ∈ tracked b) ->
  exists b', destroy_wg_teams l b = Some b' /\ pool_inv E b' /\
    tracked b ≡ₚ omap id l ++ tracked b' /\ frame b b'.
Proof.
  revert b. induction l as [|[t|] l IH]; intros b Hinv Hnd Hin; simpl in *; [by exists b| |eauto].
  apply NoDup_cons in Hnd as [Hnt Hnd].
  destruct (destroy_cached_inv E b t Hinv) as (b1 & Hd & Hinv1 & Hp & Hres & Ho & _).
  { apply Hin. by left. }
  rewrite Hd. simpl.
  destruct (IH b1 Hinv1 Hnd) as (b' & Hd' & Hinv' & Hp' & Hres').
  { intros t' Ht'. assert (t' ∈ tracked b) as Hb by (apply Hin; by right).
    rewrite Hp in Hb. apply elem_of_cons in Hb as [->|?]; done. }
  exists b'. split_and!; [done|done| |by transitivity b1]. by rewrite Hp, Hp'.
Qed.

Lemma release_entry_inv E m b p r :
  pool_inv E b -> res_inv m b -> m !! p = Some r ->
  exists b', destroy_wg_teams (wg_teams r) b = Some b' /\ pool_inv E b' /\
    res_inv (delete p m) b' /\ frame b b' /\
    tracked b ≡ₚ omap id (wg_teams r) ++ tracked b'.
Proof.
  intros Hinv [Hlive Hchild Hnd Hinj] Hp.
  destruct (destroy_wg_teams_inv E (wg_teams r) b Hinv) as (b' & Hd & Hinv' & Hperm & Hres);
    [eauto|intros t Ht%child_omap; by destruct (Hchild p r t Hp Ht)|].
  assert (Hkeep : forall t, t ∈ tracked b -> ~ child r t -> t ∈ tracked b').
  { intros t Ht Hn. rewrite Hperm, elem_of_app, <- child_omap in Ht. tauto. }
  assert (Hfix : forall q, is_Some (objects b !! q) -> ~ child r q -> is_Some (objects b' !! q)).
  { intros q Hq Hn. apply (pi_dom _ _ Hinv').
    rewrite (fr_world _ _ Hres), (fr_shared _ _ Hres).
    apply (pi_dom _ _ Hinv) in Hq as [?|[?|?]]; eauto. }
  assert (Hother : forall q r' t, delete p m !! q = Some r' -> child r' t -> ~ child r t).
  { intros q r' t [Hne Hq]%lookup_delete_Some Hc Hc'. apply Hne. symmetry. eauto. }
  exists b'. split_and!; try done. split.
  - intros q r' [Hne Hq]%lookup_delete_Some. apply Hfix; [eauto|]. intros Hc.
    destruct (Hchild p r q Hp Hc). congruence.
  - intros q r' t Hq Hc. pose proof (Hother q r' t Hq Hc) as Hn.
    apply lookup_delete_Some in Hq as [Hne Hq]. destruct (Hchild q r' t Hq Hc) as [Ht Hm].
    split; [by apply Hkeep|]. by rewrite lookup_delete_None, Hm; right.
  - intros q r' [_ Hq]%lookup_delete_Some. eauto.
  - intros q1 q2 r1 r2 t [_ H1]%lookup_delete_Some [_ H2]%lookup_delete_Some. eauto.
Qed.

(** ** The API functions *)

(** [b'] extends [b] by the team [t], if any. *)
Record grows (b b' : backend) (t : option tid) : Prop := {
  gr_frame : frame b b';
  gr_live : forall p, is_Some (objects b !! p) -> is_Some (objects b' !! p);
  gr_new : forall t', t = Some t' -> objects b !! t' = None;
  gr_tracked : tracked b' = tracked b ++ match t with Some t' => [t'] | None => [] end
}.

Lemma grows_refl b : grows b b None.
Proof. split; [done|done|done|]. by rewrite app_nil_r. Qed.

Lemma comm_free_grows c b b' t : grows b b' t -> grows b (comm_free c b') t.
Proof. intros []. destruct c; [|by split]. split; try done. by destruct gr_frame0. Qed.

Lemma split_inv parent start stride_ size_ b ret t b' :
  pool_inv ∅ b -> rocshmem_team_split_strided parent start stride_ size_ b = Some (ret, t, b') ->
  pool_inv ∅ b' /\ grows b b' t /\ (t <> None -> ret = 0).
Proof.
  intros Hinv. pose proof (grows_refl b) as Hrefl. unfold rocshmem_team_split_strided.
  case_if; [by intros [= <- <- <-]|].
  destruct parent as [p|]; [|by intros [= <- <- <-]].
  destruct (objects b !! p) as [obj|]; [|done]. cbn [mbind option_bind].
  destruct (split_plan _ _ _ _ _ _ _ _) as [|wp ww me]; [by intros [= <- <- <-]|].
  destruct (Z.ltb_spec me 0) as [Hme|Hme].
  { destruct (mpi_comm obj); simpl; by intros [= <- <- <-]. }
  destruct (mpi_comm obj) as [c|].
  - set (d := comm_new (comms b)).
    pose proof (add_comm_inv ∅ b Hinv) as Hadd. fold d in Hadd.
    destruct (create_new_team _ _ _ _ _ _) as [[nt b2]|] eqn:Hc; [|done].
    cbn [mbind option_bind].
    destruct (create_track_inv _ _ _ _ _ _ _ _ _ Hadd Hc)
      as (t' & -> & Hnew & Hinv2 & Htr & Hfr & Hlive).
    intros [= <- <- <-]. split_and!; [|apply (comm_free_grows (Some d) b (track (Some t') b2)); split|done]; try done.
    + exact (comm_free_inv ∅ d _ Hinv2 (not_elem_of_empty d)).
    + by destruct Hfr.
    + by intros t'' [= <-].
  - destruct (create_new_team _ _ _ _ _ _) as [[nt b2]|] eqn:Hc; [|done].
    cbn [mbind option_bind].
    destruct (create_track_inv _ _ _ _ _ _ _ _ _ Hinv Hc)
      as (t' & -> & Hnew & Hinv2 & Htr & Hfr & Hlive).
    intros [= <- <- <-]. split_and!; [done|split|done]; try done. by intros t'' [= <-].
Qed.

Lemma res_inv_grow m b b' t : res_inv m b -> grows b b' t -> res_inv m b'.
Proof.
  intros [Hlive Hchild Hnd Hinj] [Hfr Hl _ Htr]. split; [eauto| |done|done].
  intros p r t' Hp Hc. destruct (Hchild p r t' Hp Hc). split; [|done].
  rewrite Htr, elem_of_app. by left.
Qed.

(** All that holds between API calls. *)
Definition inv (b : backend) : Prop := pool_inv ∅ b /\ res_inv (resources_map b) b.

Lemma split_keeps_inv parent start stride_ size_ b ret t b' :
  inv b -> rocshmem_team_split_strided parent start stride_ size_ b = Some (ret, t, b') ->
  inv b' /\ frame b b'.
Proof.
  intros [Hp Hr] Hs. destruct (split_inv _ _ _ _ _ _ _ _ Hp Hs) as (Hp' & Hg & _).
  pose proof (gr_frame _ _ _ Hg) as Hf. split; [split; [done|]|done].
  rewrite (fr_res _ _ Hf). by eapply res_inv_grow.
Qed.

Lemma split_loop_inv p args acc b ret t b' :
  inv b -> split_loop p args acc b = Some (ret, t, b') -> inv b' /\ frame b b'.
Proof.
  revert acc b. induction args as [|a args IH]; intros acc b Hinv; simpl; [by intros [= <- <- <-]|].
  destruct (rocshmem_team_split_strided _ _ _ _ b) as [[[r t1] b1]|] eqn:Hs; [|done]. simpl.
  destruct (split_keeps_inv _ _ _ _ _ _ _ _ Hinv Hs) as [Hinv1 Hf1].
  case_if; [by intros [= <- <- <-]|]. intros Hl. destruct (IH _ _ Hinv1 Hl) as [Hinv2 Hf2].
  split; [done|]. by transitivity b1.
Qed.

Lemma split_2d_inv parent xrange b ret xt yt b' :
  inv b -> rocshmem_team_split_2d parent xrange b = Some (ret, xt, yt, b') -> inv b' /\ frame b b'.
Proof.
  intros Hinv. unfold rocshmem_team_split_2d.
  destruct parent as [p|]; [|by intros [= <- <- <- <-]].
  case_if; [by intros [= <- <- <- <-]|]. destruct (objects b !! p) as [obj|]; [|done]. simpl.
  destruct (split_loop p _ _ b) as [[[r t1] b1]|] eqn:Hx; [|done]. simpl.
  destruct (split_loop_inv _ _ _ _ _ _ _ Hinv Hx) as [Hinv1 Hf1].
  case_if; [by intros [= <- <- <- <-]|].
  destruct (split_loop p _ _ b1) as [[[r2 t2] b2]|] eqn:Hy; [|done]. simpl.
  destruct (split_loop_inv _ _ _ _ _ _ _ Hinv1 Hy) as [Hinv2 Hf2].
  intros [= <- <- <- <-]. split; [done|]. by transitivity b1.
Qed.

(** A team that the launcher does not cache can be removed. *)
Lemma remove_inv b t :
  pool_inv ∅ b -> res_inv (resources_map b) b -> resources_map b !! t = None -> ~ cached b t ->
  t ∈ tracked b ->
  exists b', destroy_cached_team t b = Some b' /\ inv b' /\ frame b b' /\
    objects b' = delete t (objects b) /\ tracked b ≡ₚ t :: tracked b' /\
    forall obj, objects b !! t = Some obj ->
      test_bit (team_pool_bitmask_ b') (pool_index_ obj) = true.
Proof.
  intros Hp [Hlive Hchild Hnd Hinj] Hnone Hnc Hin.
  destruct (destroy_cached_inv ∅ b t Hp Hin) as (b' & Hd & Hp' & Hperm & Hf & Ho & Hbit).
  exists b'. split_and!; try done. split; [done|]. rewrite (fr_res _ _ Hf). split; [| |done|done].
  - intros p r Hpr. rewrite Ho, lookup_delete_is_Some. split; [congruence|eauto].
  - intros p r t' Hpr Hc. destruct (Hchild p r t' Hpr Hc) as [Ht Hm]. split; [|done].
    rewrite Hperm in Ht. apply elem_of_cons in Ht as [->|?]; [|done].
    destruct Hnc. by exists p, r.
Qed.

Lemma team_destroy_inv b t :
  inv b -> t ∈ tracked b -> ~ cached b t ->
  exists b', rocshmem_team_destroy (Some t) b = Some b' /\ inv b' /\
    objects b' !! t = None /\
    team_world_ (team_tracker b') = team_world_ (team_tracker b) /\
    team_shared_ (team_tracker b') = team_shared_ (team_tracker b) /\
    max_num_teams b' = max_num_teams b.
Proof.
  intros [Hp Hr] Hin Hnc. unfold rocshmem_team_destroy.
  rewrite decide_False by (intros [->| ->]; [by apply (pi_world _ _ Hp)|by apply (pi_shared _ _ Hp)]).
  fold (destroy_cached_team t).
  assert (Hrel : exists b1, release_team t b = Some b1 /\ inv b1 /\
    resources_map b1 !! t = None /\ ~ cached b1 t /\ t ∈ tracked b1 /\
    team_world_ (team_tracker b1) = team_world_ (team_tracker b) /\
    team_shared_ (team_tracker b1) = team_shared_ (team_tracker b) /\
    max_num_teams b1 = max_num_teams b).
  { unfold release_team. destruct (resources_map b !! t) as [r|] eqn:Hm; [|by eexists].
    destruct (release_entry_inv ∅ _ b t r Hp Hr Hm) as (b1 & Hd & Hp1 & Hr1 & Hf & Hperm).
    rewrite Hd. simpl. rewrite (fr_res _ _ Hf). eexists. split; [done|]. destruct Hf.
    split_and!; try done.
    - split; [by destruct Hp1|]. by destruct Hr1.
    - apply lookup_delete_eq.
    - intros (p & r' & Hpr & Hc). simpl in Hpr. apply lookup_delete_Some in Hpr as [_ Hpr]. apply Hnc. by exists p, r'.
    - rewrite Hperm, elem_of_app in Hin. destruct Hin as [Hin|Hin]; [|done].
      apply child_omap in Hin. destruct (ri_child _ _ Hr t r t Hm Hin). congruence. }
  destruct Hrel as (b1 & -> & [Hp1 Hr1] & Hm1 & Hnc1 & Hin1 & Hw & Hs & Hmax). simpl.
  destruct (remove_inv b1 t Hp1 Hr1 Hm1 Hnc1 Hin1) as (b2 & Hd & Hinv2 & [] & Ho & _ & _).
  exists b2. unfold destroy_cached_team in Hd. split_and!; try done; try congruence.
  rewrite Ho. apply lookup_delete_eq.
Qed.

(** ** The duplicate teams *)

(** Teams held by [ensure_wg_teams] while its loop runs: they are in no entry of
    the map. *)
Definition held (l : list (option tid)) (b : backend) : Prop :=
  NoDup (omap id l) /\
  forall t, t ∈ omap id l -> t ∈ tracked b /\ resources_map b !! t = None /\ ~ cached b t.

Lemma cached_frame b b' t : frame b b' -> cached b' t <-> cached b t.
Proof. intros []. unfold cached. by rewrite fr_res0. Qed.

(** A team just created is held by nobody. *)
Lemma new_team_unheld b b' t :
  inv b -> grows b b' (Some t) -> resources_map b' !! t = None /\ ~ cached b' t /\ t ∉ tracked b.
Proof.
  intros [Hp Hr] [Hf _ Hn _]. specialize (Hn t eq_refl). rewrite (cached_frame b b') by done.
  rewrite (fr_res _ _ Hf). split_and!.
  - destruct (resources_map b !! t) as [r|] eqn:Hm; [|done].
    destruct (ri_live _ _ Hr t r Hm). congruence.
  - intros (p & r & Hpr & Hc). destruct (ri_child _ _ Hr p r t Hpr Hc) as [Ht _].
    assert (is_Some (objects b !! t)) as [? ?] by (apply (pi_dom _ _ Hp); tauto). congruence.
  - intros Ht. assert (is_Some (objects b !! t)) as [? ?] by (apply (pi_dom _ _ Hp); tauto).
    congruence.
Qed.

Lemma held_grow l b b' t : held l b -> grows b b' t -> held l b'.
Proof.
  intros [Hnd Hl] [Hf _ _ Htr]. split; [done|]. intros t' Ht'.
  destruct (Hl t' Ht') as (Ht & Hm & Hc). rewrite (cached_frame b b'), (fr_res _ _ Hf) by done.
  split_and!; try done. rewrite Htr, elem_of_app. by left.
Qed.

Lemma omap_snoc (l : list (option tid)) x :
  omap id (l ++ [x]) = omap id l ++ match x with Some t => [t] | None => [] end.
Proof. rewrite omap_app. by destruct x. Qed.

Lemma fill_wg_teams_inv p n done todo b ok l b' :
  inv b -> held (done ++ todo) b ->
  fill_wg_teams p n done todo b = Some (ok, l, b') ->
  inv b' /\ held l b' /\ frame b b' /\ (forall q, is_Some (objects b !! q) -> is_Some (objects b' !! q)).
Proof.
  revert done b. induction todo as [|[t|] todo IH]; intros done b Hinv Hh; simpl.
  - intros [= <- <- <-]. rewrite app_nil_r in Hh. split_and!; try done.
  - intros Hf. apply (IH (done ++ [Some t]) b Hinv); [by rewrite <- app_assoc|done].
  - destruct (rocshmem_team_split_strided _ _ _ _ b) as [[[r t1] b1]|] eqn:Hs; [|done].
    cbn [mbind option_bind].
    destruct (split_keeps_inv _ _ _ _ _ _ _ _ Hinv Hs) as [Hinv1 Hf1].
    destruct (split_inv _ _ _ _ _ _ _ _ (proj1 Hinv) Hs) as (_ & Hg & Hret).
    pose proof (held_grow _ _ _ _ Hh Hg) as [Hnd1 Hh1]. pose proof (gr_live _ _ _ Hg) as Hlive.
    rewrite omap_app in Hnd1, Hh1. simpl in Hnd1, Hh1.
    destruct t1 as [t|].
    + rewrite Hret by done. simpl. intros Hfill.
      destruct (new_team_unheld b b1 t Hinv Hg) as (Hm & Hc & Hnt).
      destruct (IH (done ++ [Some t]) b1 Hinv1) as (Hinv2 & Hh2 & Hf2 & Hl2); [|done|].
      * assert (Hperm : omap id ((done ++ [Some t]) ++ todo) ≡ₚ t :: omap id done ++ omap id todo).
        { rewrite omap_app, omap_snoc, <- app_assoc. simpl. symmetry. apply Permutation_middle. }
        assert (Hfresh : t ∉ omap id done ++ omap id todo).
        { intros Hin. destruct (proj2 Hh t) as [? _]; [|done]. by rewrite omap_app. }
        split.
        { rewrite Hperm. by apply NoDup_cons. }
        intros t'. rewrite Hperm, elem_of_cons. intros [->|Ht']; [|by apply Hh1].
        split_and!; try done. rewrite (gr_tracked _ _ _ Hg), elem_of_app. right. by left.
      * split_and!; [done|done|by transitivity b1|eauto].
    + intros [= <- <- <-]. split_and!; [done| |done|done].
      split; rewrite omap_snoc, app_nil_r.
      * by apply NoDup_app in Hnd1 as (? & _ & _).
      * intros t Ht. apply Hh1. rewrite elem_of_app. by left.
Qed.

Lemma destroy_created_inv l b :
  inv b -> held l b ->
  exists b', destroy_created l b = Some b' /\ inv b' /\ frame b b' /\
    forall q, is_Some (objects b !! q) -> q ∉ omap id l -> is_Some (objects b' !! q).
Proof.
  revert b. induction l as [|[t|] l IH]; intros b Hinv [Hnd Hl]; simpl in *;
    [by exists b| |by apply IH].
  apply NoDup_cons in Hnd as [Hnt Hnd].
  destruct (Hl t ltac:(by left)) as (Hin & Hm & Hc). destruct Hinv as [Hp Hr].
  rewrite decide_False by (intros [->| ->]; [by apply (pi_world _ _ Hp)|by apply (pi_shared _ _ Hp)]).
  unfold release_team. rewrite Hm. simpl. fold (destroy_cached_team t b).
  destruct (remove_inv b t Hp Hr Hm Hc Hin) as (b1 & -> & Hinv1 & Hf1 & Ho & Hperm & _). simpl.
  destruct (IH b1 Hinv1) as (b' & Hd & Hinv' & Hf' & Hlive).
  { split; [done|]. intros t' Ht'. destruct (Hl t' ltac:(by right)) as (Hin' & Hm' & Hc').
    rewrite (cached_frame b b1), (fr_res _ _ Hf1) by done. split_and!; try done.
    rewrite Hperm in Hin'. apply elem_of_cons in Hin' as [->|?]; done. }
  exists b'. split_and!; [done|done|by transitivity b1|].
  intros q Hq Hn. apply not_elem_of_cons in Hn as [Hne Hn]. apply Hlive; [|done].
  rewrite Ho, lookup_delete_is_Some. split; [congruence|done].
Qed.

(** Storing an entry for [p] whose duplicates are held by nobody else. *)
Lemma store_entry_inv p r b :
  inv (set_resources (<[p := res_empty]> (resources_map b)) b) ->
  ~ cached (set_resources (<[p := res_empty]> (resources_map b)) b) p ->
  held (wg_teams r) (set_resources (<[p := res_empty]> (resources_map b)) b) ->
  inv (set_resources (<[p := r]> (resources_map b)) b).
Proof.
  intros [Hp [Hlive Hchild Hnd Hinj]] Hnc [Hnd' Hh]. split; [by destruct Hp|]. simpl in *.
  assert (Hother : forall q r', q <> p -> <[p := r]> (resources_map b) !! q = Some r' ->
    <[p := res_empty]> (resources_map b) !! q = Some r').
  { intros q r' Hne. by rewrite !lookup_insert_ne. }
  assert (Hnone : forall t, <[p := res_empty]> (resources_map b) !! t = None ->
    <[p := r]> (resources_map b) !! t = None).
  { intros t. rewrite !lookup_insert_None. done. }
  assert (Hch : forall t, child r t -> t ∈ tracked b /\
    <[p := res_empty]> (resources_map b) !! t = None /\
    forall q r', q <> p -> <[p := r]> (resources_map b) !! q = Some r' -> ~ child r' t).
  { intros t Hc. destruct (Hh t) as (Ht & Hm & Hn); [by apply child_omap|]. split_and!; try done.
    intros q r' Hne Hq Hc'. apply Hn. exists q, r'. split; [|done]. simpl. by apply Hother. }
  split.
  - intros q r' Hq. destruct (decide (q = p)) as [->|Hne]; [|eauto].
    eapply Hlive. apply lookup_insert_eq.
  - intros q r' t Hq Hc. destruct (decide (q = p)) as [->|Hne].
    + rewrite lookup_insert_eq in Hq. injection Hq as <-. destruct (Hch t Hc) as (? & ? & _). eauto.
    + destruct (Hchild q r' t (Hother _ _ Hne Hq) Hc). eauto.
  - intros q r' Hq. destruct (decide (q = p)) as [->|Hne]; [|eauto].
    rewrite lookup_insert_eq in Hq. by injection Hq as <-.
  - intros q1 q2 r1 r2 t H1 H2 Hc1 Hc2.
    destruct (decide (q1 = p)) as [->|Hn1], (decide (q2 = p)) as [->|Hn2]; try done.
    + rewrite lookup_insert_eq in H1. injection H1 as <-. destruct (Hch t Hc1) as (_ & _ & Hx).
      by destruct (Hx q2 r2 Hn2 H2).
    + rewrite lookup_insert_eq in H2. injection H2 as <-. destruct (Hch t Hc2) as (_ & _ & Hx).
      by destruct (Hx q1 r1 Hn1 H1).
    + eauto.
Qed.

(** Taking the duplicates out of the entry of [p], or creating the entry. *)
Lemma open_entry_inv p b :
  inv b -> is_Some (objects b !! p) -> ~ cached b p ->
  let b0 := set_resources (<[p := res_empty]> (resources_map b)) b in
  inv b0 /\ ~ cached b0 p /\ held (wg_teams (default res_empty (resources_map b !! p))) b0.
Proof.
  intros [Hp [Hlive Hchild Hnd Hinj]] Hobj Hnc b0.
  assert (Hold : forall q r, <[p := res_empty]> (resources_map b) !! q = Some r ->
    forall t, child r t -> q <> p /\ resources_map b !! q = Some r).
  { intros q r Hq t Hc. apply lookup_insert_Some in Hq as [[<- <-]|[Hne Hq]]; [|done].
    by apply elem_of_nil in Hc. }
  assert (Hpne : forall t q r, resources_map b !! q = Some r -> child r t ->
    <[p := res_empty]> (resources_map b) !! t = None).
  { intros t q r Hq Hc. destruct (Hchild q r t Hq Hc) as [_ Hm]. apply lookup_insert_None.
    split; [done|]. intros ->. apply Hnc. by exists q, r. }
  split_and!.
  - split; [by destruct Hp|]. subst b0. simpl. split.
    + intros q r Hq. apply lookup_insert_Some in Hq as [[<- _]|[_ Hq]]; [done|eauto].
    + intros q r t Hq Hc. destruct (Hold q r Hq t Hc) as [_ Hq']. split; [|eauto].
      by destruct (Hchild q r t Hq' Hc).
    + intros q r Hq. apply lookup_insert_Some in Hq as [[_ <-]|[_ Hq]]; [constructor|eauto].
    + intros q1 q2 r1 r2 t H1 H2 Hc1 Hc2.
      destruct (Hold q1 r1 H1 t Hc1) as [_ H1'], (Hold q2 r2 H2 t Hc2) as [_ H2']. eauto.
  - intros (q & r & Hq & Hc). destruct (Hold q r Hq p Hc) as [_ Hq']. apply Hnc. by exists q, r.
  - destruct (resources_map b !! p) as [r|] eqn:Hr; simpl; [|by split; [constructor|]; intros t ?%elem_of_nil].
    split; [eauto|]. intros t Ht%child_omap. destruct (Hchild p r t Hr Ht). split_and!; try done.
    + eapply Hpne; eauto.
    + intros (q & r' & Hq & Hc). destruct (Hold q r' Hq t Hc) as [Hne Hq'].
      apply Hne. eauto.
Qed.

Lemma reopen p b :
  resources_map b !! p = Some res_empty ->
  set_resources (<[p := res_empty]> (resources_map b)) b = b.
Proof. intros H. unfold set_resources. rewrite insert_id by done. by destruct b. Qed.

Lemma held_resize l k b : held l b -> held (resize_up l k) b.
Proof.
  assert (omap id (resize_up l k) = omap id l) as He.
  { unfold resize_up. rewrite omap_app.
    induction (k - length l)%nat as [|j IH]; simpl; [by rewrite app_nil_r|done]. }
  intros [Hnd Hh]. split; rewrite He; done.
Qed.

(** Writing an entry back once the loop has run. *)
Lemma close_entry_inv p r b :
  inv b -> resources_map b !! p = Some res_empty -> ~ cached b p -> held (wg_teams r) b ->
  inv (set_resources (<[p := r]> (resources_map b)) b).
Proof. intros Hinv Hm Hnc Hh. apply store_entry_inv; rewrite reopen; done. Qed.

Lemma ensure_inv p n k b b' :
  inv b -> is_Some (objects b !! p) -> ~ cached b p ->
  ensure_wg_teams p n k b = Some b' -> inv b' /\
    team_world_ (team_tracker b') = team_world_ (team_tracker b) /\
    team_shared_ (team_tracker b') = team_shared_ (team_tracker b) /\
    max_num_teams b' = max_num_teams b.
Proof.
  intros Hinv Hobj Hnc. destruct (open_entry_inv p b Hinv Hobj Hnc) as (Hinv0 & Hnc0 & Hh0).
  set (r := default res_empty (resources_map b !! p)) in *.
  assert (Hstay : forall d u f, inv (set_resources (<[p := mkRes (wg_teams r) d u f]>
    (resources_map b)) b)).
  { intros d u f. by apply store_entry_inv. }
  unfold ensure_wg_teams. fold r. destruct (wg_team_creation_failed r).
  { intros [= <-]. split_and!; try done. destruct r as [l d u f]. apply Hstay. }
  destruct (Nat.ltb_spec (length (wg_teams r)) k); [|by intros [= <-]; split_and!; try apply Hstay].
  destruct (fill_wg_teams _ _ _ _ _) as [[[ok l] b1]|] eqn:Hf; [|done]. cbn [mbind option_bind].
  set (b0 := set_resources (<[p := res_empty]> (resources_map b)) b) in *.
  destruct (fill_wg_teams_inv p n [] _ b0 ok l b1 Hinv0 (held_resize _ k _ Hh0) Hf)
    as (Hinv1 & Hh1 & Hf1 & _).
  assert (Hm1 : resources_map b1 !! p = Some res_empty).
  { rewrite (fr_res _ _ Hf1). apply lookup_insert_eq. }
  assert (Hnc1 : ~ cached b1 p) by (by rewrite (cached_frame b0 b1)).
  destruct ok.
  - intros [= <-]. split; [by apply close_entry_inv|]. by destruct Hf1.
  - destruct (destroy_created_inv l b1 Hinv1 Hh1) as (b2 & -> & Hinv2 & Hf2 & _).
    cbn [mbind option_bind]. intros [= <-]. split.
    + apply close_entry_inv; [done| | |].
      * by rewrite (fr_res _ _ Hf2).
      * by rewrite (cached_frame b1 b2).
      * split; [constructor|]. intros t ?%elem_of_nil. done.
    + destruct Hf1, Hf2. unfold max_num_teams in *. simpl in *. split_and!; congruence.
Qed.

(** ** Finalisation *)

Lemma res_inv_delete p m b : res_inv m b -> res_inv (delete p m) b.
Proof.
  intros [Hlive Hchild Hnd Hinj]. split.
  - intros q r [_ Hq]%lookup_delete_Some. eauto.
  - intros q r t [_ Hq]%lookup_delete_Some Hc. destruct (Hchild q r t Hq Hc).
    split; [done|]. apply lookup_delete_None. by right.
  - intros q r [_ Hq]%lookup_delete_Some. eauto.
  - intros q1 q2 r1 r2 t [_ H1]%lookup_delete_Some [_ H2]%lookup_delete_Some. eauto.
Qed.

Lemma release_entries_inv L b :
  pool_inv ∅ b -> NoDup L.*1 -> res_inv (list_to_map L) b ->
  exists b', release_entries L b = Some b' /\ pool_inv ∅ b' /\ frame b b'.
Proof.
  revert b. induction L as [|[p r] L IH]; intros b Hp Hnd Hr; simpl in *; [by exists b|].
  apply NoDup_cons in Hnd as [Hn Hnd].
  destruct (release_entry_inv ∅ _ b p r Hp Hr) as (b1 & -> & Hp1 & Hr1 & Hf1 & _);
    [apply lookup_insert_eq|]. simpl.
  rewrite delete_insert_id in Hr1 by (by apply not_elem_of_list_to_map_1).
  destruct (IH b1 Hp1 Hnd Hr1) as (b' & Hd & Hp' & Hf'). exists b'. split_and!; try done.
  by transitivity b1.
Qed.

Lemma destroy_all_inv l b :
  pool_inv ∅ b -> tracked b = rev l ->
  exists b', destroy_all l b = Some b' /\ pool_inv ∅ b' /\ frame b b' /\ tracked b' = [].
Proof.
  revert b. induction l as [|t l IH]; intros b Hp Htr; simpl.
  - eexists. split; [done|]. simpl in Htr. split; [|done]. unfold tracked in Htr.
    destruct Hp. split; unfold tracked, max_num_teams in *; simpl; rewrite ?Htr in *; done.
  - assert (Hperm : tracked b ≡ₚ t :: rev l) by (rewrite Htr; simpl; by rewrite Permutation_app_comm).
    assert (Hobj : is_Some (objects b !! t)).
    { apply (pi_dom _ _ Hp). right. right. rewrite Hperm. by left. }
    destruct Hobj as [obj Hobj].
    destruct (destroy_core_inv ∅ b t (rev l) obj Hp Hobj Hperm) as (b1 & Hd & Hp1 & Htr1 & Hf1 & _).
    assert (Hd' : exists b2, team_destroy t (set_teams (rev l ++ [t]) b) = Some b2 /\
      set_teams (rev l) b2 = b1).
    { unfold team_destroy in *. simpl in *. rewrite Hobj in *. simpl in *.
      injection Hd as <-. eexists. split; [done|]. by destruct (mpi_comm obj). }
    destruct Hd' as (b2 & -> & Hb1). simpl. rewrite Hb1.
    destruct (IH b1 Hp1 Htr1) as (b' & Hd' & Hp' & Hf' & Ht'). exists b'. split_and!; try done.
    by transitivity b1.
Qed.

Lemma finalize_inv b :
  inv b -> exists b', finalize_teams b = Some b' /\ pool_inv ∅ b' /\ tracked b' = [] /\
    team_world_ (team_tracker b') = team_world_ (team_tracker b) /\
    team_shared_ (team_tracker b') = team_shared_ (team_tracker b) /\
    max_num_teams b' = max_num_teams b /\ resources_map b' = ∅.
Proof.
  intros [Hp Hr]. unfold finalize_teams, release_all.
  destruct (release_entries_inv (map_to_list (resources_map b)) b Hp) as (b1 & -> & Hp1 & Hf1).
  { apply NoDup_fst_map_to_list. }
  { by rewrite list_to_map_to_list. }
  cbn [mbind option_bind].
  assert (Hp2 : pool_inv ∅ (set_resources ∅ b1)) by (by destruct Hp1).
  destruct (destroy_all_inv (rev (tracked b1)) (set_resources ∅ b1) Hp2) as (b' & Hd & Hp' & Hf' & Ht).
  { simpl. by rewrite rev_involutive. }
  exists b'. destruct Hf1, Hf'. unfold max_num_teams in *. simpl in *.
  split_and!; try done; congruence.
Qed.

(** ** Reachable states *)

(** The state after [teams_init], [setup_team_world] and [setup_team_shared]:
    the predefined teams use slots 0 and 1 and own the communicators [cw], [cs],
    if any. *)
Definition comm_set (c : option comm) : gset comm :=
  match c with Some c => {[c]} | None => ∅ end.

Definition backend_init (n me max : Z) (w s : tid) (cw cs : option comm) : backend :=
  let info := mkTeamInfo None 0 1 n in
  mkBackend n me
    (<[w := mkTeam n me info info n me cw 0]> {[s := mkTeam n me info info n me cs 1]})
    (mkTracker [] max w s)
    (init_bitmask NUM_RESERVED_TEAMS max)
    (comm_set cw ∪ comm_set cs) ∅.

(** One API call that returns. *)
Inductive step (b b' : backend) : Prop :=
  | step_split parent start stride_ size_ ret t :
      rocshmem_team_split_strided parent start stride_ size_ b = Some (ret, t, b') -> step b b'
  | step_split_2d parent xrange ret xt yt :
      rocshmem_team_split_2d parent xrange b = Some (ret, xt, yt, b') -> step b b'
  | step_destroy t :
      t ∈ tracked b -> ~ cached b t -> rocshmem_team_destroy (Some t) b = Some b' -> step b b'
  | step_ensure parent n k :
      is_Some (objects b !! parent) -> ~ cached b parent ->
      ensure_wg_teams parent n k b = Some b' -> step b b'.

Definition reachable (b0 b : backend) : Prop := rtc step b0 b.

Record init_ok (max : Z) (w s : tid) (cw cs : option comm) : Prop := {
  io_max : NUM_RESERVED_TEAMS <= max < 2 ^ 31;
  io_teams : w <> s;
  io_comms : forall c, cw = Some c -> cs = Some c -> False
}.

Lemma backend_init_inv n me max w s cw cs :
  init_ok max w s cw cs -> inv (backend_init n me max w s cw cs).
Proof.
  intros [Hmax Hne Hcc]. unfold NUM_RESERVED_TEAMS in *.
  destruct (init_bitmask_spec 2 max) as [Hok Hbits]; [lia|].
  set (info := mkTeamInfo None 0 1 n).
  set (ow := mkTeam n me info info n me cw 0). set (os := mkTeam n me info info n me cs 1).
  assert (Hlook : forall t o, (<[w := ow]> {[s := os]} : gmap tid team) !! t = Some o <->
    (t = w /\ o = ow) \/ (t = s /\ o = os)).
  { intros t o. rewrite lookup_insert_Some, lookup_singleton_Some. naive_solver. }
  split; [|by split].
  split; unfold max_num_teams, tracked, backend_init; simpl; fold info ow os; try done.
  - constructor.
  - apply not_elem_of_nil.
  - apply not_elem_of_nil.
  - intros t. rewrite elem_of_nil. split.
    + intros [o Ho]. apply Hlook in Ho. tauto.
    + intros [->|[->|[]]]; [exists ow|exists os]; apply Hlook; tauto.
  - intros t o Ho. apply Hlook in Ho. split.
    + destruct Ho as [[_ ->]|[_ ->]]; simpl; lia.
    + split; [intros _; apply not_elem_of_nil|]. intros _.
      destruct Ho as [[_ ->]|[_ ->]]; simpl; unfold NUM_RESERVED_TEAMS; lia.
  - intros i Hi. unfold NUM_RESERVED_TEAMS in *. rewrite Hbits by lia. split; [intros ?; left; lia|].
    intros [?|(t & o & Ho & <-)]; [lia|]. apply Hlook in Ho as [[_ ->]|[_ ->]]; simpl; lia.
  - intros t1 t2 o1 o2 H1 H2 He. apply Hlook in H1, H2.
    destruct H1 as [[-> ->]|[-> ->]], H2 as [[-> ->]|[-> ->]]; simpl in He; done.
  - assert (Hset : forall c x, c ∈ comm_set x <-> x = Some c).
    { intros c [d|]; simpl; [rewrite elem_of_singleton|rewrite elem_of_empty]; naive_solver. }
    intros c. rewrite elem_of_union, !Hset. split.
    + intros [Hc|Hc]; right; [exists w, ow|exists s, os]; (split; [apply Hlook; tauto|done]).
    + intros [?%elem_of_empty|(t & o & Ho & Hm)]; [done|].
      apply Hlook in Ho as [[_ ->]|[_ ->]]; simpl in Hm; tauto.
  - intros t1 t2 o1 o2 c H1 H2 Hc1 Hc2. apply Hlook in H1, H2.
    destruct H1 as [[-> ->]|[-> ->]], H2 as [[-> ->]|[-> ->]]; simpl in *; try done;
      by destruct (Hcc c).
Qed.

Lemma step_inv b b' : inv b -> step b b' ->
  inv b' /\ team_world_ (team_tracker b') = team_world_ (team_tracker b) /\
  team_shared_ (team_tracker b') = team_shared_ (team_tracker b) /\
  max_num_teams b' = max_num_teams b.
Proof.
  intros Hinv [parent start st sz ret t Hs|parent xr ret xt yt Hs|t Hin Hnc Hd|p n k Hp Hnc He].
  - destruct (split_keeps_inv _ _ _ _ _ _ _ _ Hinv Hs) as [? []]. done.
  - destruct (split_2d_inv _ _ _ _ _ _ _ Hinv Hs) as [? []]. done.
  - destruct (team_destroy_inv b t Hinv Hin Hnc) as (b1 & Hd1 & Hinv1 & _ & Hrest). assert (b' = b1) as -> by congruence. done.
  - by eapply ensure_inv.
Qed.

Lemma reachable_inv n me max w s cw cs b :
  init_ok max w s cw cs -> reachable (backend_init n me max w s cw cs) b ->
  inv b /\ team_world_ (team_tracker b) = w /\ team_shared_ (team_tracker b) = s /\
  max_num_teams b = max.
Proof.
  intros Hio Hr. revert Hr. unfold reachable.
  intros Hr. eapply (rtc_invariant step (fun b => inv b /\ team_world_ (team_tracker b) = w /\
    team_shared_ (team_tracker b) = s /\ max_num_teams b = max)); [|exact Hr|].
  - intros b1 b2 (Hinv & Hw & Hs & Hm) Hst.
    destruct (step_inv b1 b2 Hinv Hst) as (? & ? & ? & ?). split_and!; congruence.
  - split; [by apply backend_init_inv|done].
Qed.

End life_cycle.

(** ** Properties *)

(** C24: after any sequence of splits, 2D splits, destructions and launcher
    requests, no two live teams of a PE share a slot of the synchronisation
    pools, every slot index is within the pools, and the bit mask marks as free
    exactly the slots that no live team uses. *)
Theorem team_slots_exclusive (allreduce : TeamInfo -> list Z -> list Z)
    (hip_malloc : gset tid -> tid) (comm_new : gset comm -> comm)
    (n me max : Z) (w s : tid) (cw cs : option comm) (b : backend)
    (Hband : forall info m i, 0 <= i -> test_bit (allreduce info m) i = true -> test_bit m i = true)
    (Hmalloc : forall l, hip_malloc l ∉ l) (Hcomm : forall l, comm_new l ∉ l)
    (Hinit : init_ok max w s cw cs)
    (Hreach : reachable allreduce hip_malloc comm_new (backend_init n me max w s cw cs) b) :
  (forall t1 t2 o1 o2, objects b !! t1 = Some o1 -> objects b !! t2 = Some o2 -> t1 <> t2 ->
     pool_index_ o1 <> pool_index_ o2) /\
  (forall t o, objects b !! t = Some o -> 0 <= pool_index_ o < max) /\
  (forall i, NUM_RESERVED_TEAMS <= i < max ->
     (test_bit (team_pool_bitmask_ b) i = true <->
      forall t o, objects b !! t = Some o -> pool_index_ o <> i)).
Proof.
  destruct (reachable_inv allreduce hip_malloc comm_new Hband Hmalloc Hcomm
    n me max w s cw cs b Hinit Hreach) as ((Hp & _) & _ & _ & <-). split_and!.
  - intros t1 t2 o1 o2 H1 H2 Hne He. apply Hne. by eapply (pi_inj _ _ Hp).
  - intros t o Ho. by destruct (pi_range _ _ Hp t o Ho).
  - intros i Hi. unfold NUM_RESERVED_TEAMS in *.
    pose proof (pi_bits _ _ Hp i ltac:(lia)) as Hb. unfold NUM_RESERVED_TEAMS in Hb.
    destruct (test_bit (team_pool_bitmask_ b) i).
    + split; [|done]. intros _ t o Ho He. enough (true = false) by done. apply Hb. right. eauto.
    + split; [done|]. intros Hn. destruct (proj1 Hb eq_refl) as [?|(t & o & Ho & He)]; [lia|].
      by destruct (Hn t o Ho).
Qed.

(** In every reachable state, destroying a team that the user created always
    returns: the tracker finds the team and each of its cached duplicates, so no
    assertion fails and nothing is destroyed twice, and afterwards the team has
    neither an object, a tracker entry nor launcher resources. *)
Theorem team_destroy_total (allreduce : TeamInfo -> list Z -> list Z)
    (hip_malloc : gset tid -> tid) (comm_new : gset comm -> comm)
    (n me max : Z) (w s : tid) (cw cs : option comm) (b : backend) (t : tid)
    (Hband : forall info m i, 0 <= i -> test_bit (allreduce info m) i = true -> test_bit m i = true)
    (Hmalloc : forall l, hip_malloc l ∉ l) (Hcomm : forall l, comm_new l ∉ l)
    (Hinit : init_ok max w s cw cs)
    (Hreach : reachable allreduce hip_malloc comm_new (backend_init n me max w s cw cs) b)
    (Htracked : t ∈ tracked b) (Huser : ~ cached b t) :
  exists b', rocshmem_team_destroy (Some t) b = Some b' /\ objects b' !! t = None /\
    t ∉ tracked b' /\ resources_map b' !! t = None.
Proof.
  destruct (reachable_inv allreduce hip_malloc comm_new Hband Hmalloc Hcomm
    n me max w s cw cs b Hinit Hreach) as (Hinv & _).
  destruct (team_destroy_inv b t Hinv Htracked Huser) as (b' & Hd & [Hp' Hr'] & Ho & _).
  exists b'. split_and!; try done.
  - intros Hin. assert (is_Some (objects b' !! t)) as [? ?] by (apply (pi_dom _ _ Hp'); tauto).
    congruence.
  - destruct (resources_map b' !! t) as [r|] eqn:Hm; [|done].
    destruct (ri_live _ _ Hr' t r Hm). congruence.
Qed.

(** Finalisation from any reachable state destroys every team that is still
    live exactly once, cached duplicates included: afterwards only the two
    predefined teams exist, every user slot is free again, and no communicator
    is left but theirs. *)
Theorem finalize_releases_teams (allreduce : TeamInfo -> list Z -> list Z)
    (hip_malloc : gset tid -> tid) (comm_new : gset comm -> comm)
    (n me max : Z) (w s : tid) (cw cs : option comm) (b : backend)
    (Hband : forall info m i, 0 <= i -> test_bit (allreduce info m) i = true -> test_bit m i = true)
    (Hmalloc : forall l, hip_malloc l ∉ l) (Hcomm : forall l, comm_new l ∉ l)
    (Hinit : init_ok max w s cw cs)
    (Hreach : reachable allreduce hip_malloc comm_new (backend_init n me max w s cw cs) b) :
  exists b', finalize_teams b = Some b' /\ tracked b' = [] /\
    (forall t, is_Some (objects b' !! t) <-> t = w \/ t = s) /\
    (forall i, NUM_RESERVED_TEAMS <= i < max -> test_bit (team_pool_bitmask_ b') i = true) /\
    (forall c, c ∈ comms b' <-> owned (objects b') c).
Proof.
  destruct (reachable_inv allreduce hip_malloc comm_new Hband Hmalloc Hcomm
    n me max w s cw cs b Hinit Hreach) as (Hinv & Hw & Hs & Hm).
  destruct (finalize_inv b Hinv) as (b' & Hd & Hp' & Ht & Hw' & Hs' & Hm' & _).
  rewrite Hw in Hw'. rewrite Hs in Hs'. rewrite Hm in Hm'.
  assert (Hdom : forall t, is_Some (objects b' !! t) <-> t = w \/ t = s).
  { intros t. rewrite (pi_dom _ _ Hp'), Ht, elem_of_nil, Hw', Hs'. tauto. }
  exists b'. split_and!; try done.
  - intros i Hi. unfold NUM_RESERVED_TEAMS in *.
    destruct (test_bit (team_pool_bitmask_ b') i) eqn:Hb; [done|].
    apply (pi_bits _ _ Hp') in Hb; [|lia]. unfold NUM_RESERVED_TEAMS in Hb.
    destruct Hb as [?|(t & o & Ho & He)]; [lia|].
    destruct (pi_range _ _ Hp' t o Ho) as [_ Hr]. rewrite Ht in Hr. unfold NUM_RESERVED_TEAMS in Hr.
    assert (pool_index_ o < 2) by (apply Hr; apply not_elem_of_nil). lia.
  - intros c. rewrite (pi_comms _ _ Hp'). split; [|by right]. by intros [?%elem_of_empty|?].
Qed.

(** ** Witnesses

    Four PEs with six slots; the other members have slots 0 to 2 in use. *)

Definition example_allreduce (info : TeamInfo) (m : list Z) : list Z :=
  map (fun x => Z.land x 56) m.

Lemma example_allreduce_subset info m i :
  0 <= i -> test_bit (example_allreduce info m) i = true -> test_bit m i = true.
Proof.
  intros Hi. unfold example_allreduce. rewrite !test_bit_testbit by done. unfold byte_at.
  rewrite list_lookup_fmap. destruct (m !! _) as [x|]; simpl; [|done].
  rewrite Z.land_spec, andb_true_iff. by intros [? _].
Qed.

Definition example_malloc (l : gset positive) : positive := fresh l.

Lemma example_malloc_fresh l : example_malloc l ∉ l.
Proof. apply is_fresh. Qed.

Definition example_init : backend :=
  backend_init 4 1 6 1%positive 2%positive (Some 1%positive) (Some 2%positive).

Lemma example_init_ok :
  init_ok 6 1%positive 2%positive (Some 1%positive) (Some 2%positive).
Proof. split; [unfold NUM_RESERVED_TEAMS; lia|done|]. by intros c [= <-]. Qed.

(** The state after splitting off the PEs 1 and 3, of which this PE is one. *)
Definition example_backend : backend :=
  match rocshmem_team_split_strided example_allreduce example_malloc example_malloc
          (Some 1%positive) 1 2 2 example_init with
  | Some (_, _, b) => b
  | None => example_init
  end.

Lemma example_reachable :
  reachable example_allreduce example_malloc example_malloc example_init example_backend.
Proof.
  apply rtc_once. apply (step_split _ _ _ _ _ (Some 1%positive) 1 2 2 0 (Some 3%positive)).
  vm_compute. reflexivity.
Qed.

Lemma team_slots_exclusive_witness :
  exists o1 o3, objects example_backend !! 1%positive = Some o1 /\
    objects example_backend !! 3%positive = Some o3 /\ pool_index_ o1 <> pool_index_ o3.
Proof.
  eexists _, _. split; [vm_compute; reflexivity|]. split; [vm_compute; reflexivity|].
  refine (proj1 (team_slots_exclusive example_allreduce example_malloc example_malloc
    4 1 6 1%positive 2%positive (Some 1%positive) (Some 2%positive) example_backend
    example_allreduce_subset example_malloc_fresh example_malloc_fresh
    example_init_ok example_reachable) 1%positive 3%positive _ _ _ _ _);
    [vm_compute; reflexivity|vm_compute; reflexivity|discriminate].
Defined.

Lemma team_destroy_total_witness :
  exists b', rocshmem_team_destroy (Some 3%positive) example_backend = Some b' /\
    objects b' !! 3%positive = None /\ 3%positive ∉ tracked b' /\
    resources_map b' !! 3%positive = None.
Proof.
  apply (team_destroy_total example_allreduce example_malloc example_malloc
    4 1 6 1%positive 2%positive (Some 1%positive) (Some 2%positive) example_backend 3%positive
    example_allreduce_subset example_malloc_fresh example_malloc_fresh
    example_init_ok example_reachable).
  - vm_compute. left.
  - intros (p & r & Hp & _). revert Hp. vm_compute. done.
Defined.

Lemma finalize_releases_teams_witness :
  exists b', finalize_teams example_backend = Some b' /\ tracked b' = [] /\
    (forall t, is_Some (objects b' !! t) <-> t = 1%positive \/ t = 2%positive) /\
    (forall i, NUM_RESERVED_TEAMS <= i < 6 -> test_bit (team_pool_bitmask_ b') i = true) /\
    (forall c, c ∈ comms b' <-> owned (objects b') c).
Proof.
  apply (finalize_releases_teams example_allreduce example_malloc example_malloc
    4 1 6 1%positive 2%positive (Some 1%positive) (Some 2%positive) example_backend
    example_allreduce_subset example_malloc_fresh example_malloc_fresh
    example_init_ok example_reachable).
Defined.
