(* ===== verification/WrkSync.v ===== *)
(** * Layout of the work and synchronisation pool

    Model of how the IPC backend sizes and carves the pool of synchronisation
    and work arrays ([setup_wrk_sync_buffers], [rocshmem_collective_init],
    [teams_init] and [setup_fence_buffer] in [src/ipc/backend_ipc.cpp], in the
    order of [init]) and of the slices a team takes by its slot
    ([src/ipc/ipc_team.cpp]).  Addresses and sizes are [size_t]s. *)

From Stdlib Require Import ZArith Lia.
From stdpp Require Import base list.
From S2P Require Import Prelude.

Open Scope Z_scope.

(** ** Constants *)

Definition ROCSHMEM_REDUCE_MIN_WRKDATA_SIZE : Z := 1048576.
Definition ROCSHMEM_BARRIER_SYNC_SIZE : Z := 256.
Definition ROCSHMEM_REDUCE_SYNC_SIZE : Z := 256.
Definition ROCSHMEM_BCAST_SYNC_SIZE : Z := ROCSHMEM_BARRIER_SYNC_SIZE.
Definition ROCSHMEM_ALLTOALL_SYNC_SIZE : Z := ROCSHMEM_BARRIER_SYNC_SIZE + 1.

Definition sizeof_long : Z := 8.
Definition sizeof_double : Z := 8.
Definition sizeof_int : Z := 4.
Definition wrk_sync_pool_alignment : Z := 8.

(** [__builtin_align_up] on a 64-bit value. *)
Definition align_up (x a : Z) : Z := u64 (x + a - 1) / a * a.

(** ** Size *)

Definition wrk_sync_pool_size (max_num_teams num_pes : Z) : Z :=
  let s1 := u64 (sizeof_long * ROCSHMEM_BARRIER_SYNC_SIZE) in
  let s2 := u64 (s1 + u64 (sizeof_long * max_num_teams *
              (ROCSHMEM_BARRIER_SYNC_SIZE + ROCSHMEM_REDUCE_SYNC_SIZE +
               ROCSHMEM_BCAST_SYNC_SIZE + ROCSHMEM_ALLTOALL_SYNC_SIZE))) in
  let s3 := u64 (s2 + u64 (sizeof_double * max_num_teams * ROCSHMEM_REDUCE_MIN_WRKDATA_SIZE)) in
  let s4 := u64 (s3 + u64 (sizeof_int * num_pes)) in
  align_up s4 wrk_sync_pool_alignment.

(** ** Carving *)

Record pools := Pools {
  wrk_sync_pool_top_ : Z;
  barrier_sync : Z;
  barrier_pSync_pool : Z;
  reduce_pSync_pool : Z;
  bcast_pSync_pool : Z;
  alltoall_pSync_pool : Z;
  pWrk_pool : Z;
  fence_pool : Z
}.

Definition rocshmem_collective_init (p : pools) : pools :=
  let top := align_up (wrk_sync_pool_top_ p) wrk_sync_pool_alignment in
  Pools (u64 (top + sizeof_long * ROCSHMEM_BARRIER_SYNC_SIZE)) top
    (barrier_pSync_pool p) (reduce_pSync_pool p) (bcast_pSync_pool p) (alltoall_pSync_pool p)
    (pWrk_pool p) (fence_pool p).

Definition teams_init (max_num_teams : Z) (p : pools) : pools :=
  let barrier := align_up (wrk_sync_pool_top_ p) wrk_sync_pool_alignment in
  let reduce := u64 (barrier + sizeof_long * ROCSHMEM_BARRIER_SYNC_SIZE * max_num_teams) in
  let bcast := u64 (reduce + sizeof_long * ROCSHMEM_REDUCE_SYNC_SIZE * max_num_teams) in
  let alltoall := u64 (bcast + sizeof_long * ROCSHMEM_BCAST_SYNC_SIZE * max_num_teams) in
  let wrk := u64 (alltoall + sizeof_long * ROCSHMEM_ALLTOALL_SYNC_SIZE * max_num_teams) in
  let top := u64 (wrk + sizeof_double * ROCSHMEM_REDUCE_MIN_WRKDATA_SIZE * max_num_teams) in
  Pools top (barrier_sync p) barrier reduce bcast alltoall wrk (fence_pool p).

Definition setup_fence_buffer (num_pes : Z) (p : pools) : pools :=
  Pools (u64 (wrk_sync_pool_top_ p + sizeof_int * num_pes)) (barrier_sync p)
    (barrier_pSync_pool p) (reduce_pSync_pool p) (bcast_pSync_pool p) (alltoall_pSync_pool p)
    (pWrk_pool p) (wrk_sync_pool_top_ p).

(** The order of [IPCBackend::init]; [wrk_sync_pool_] is what the allocator
    returned. *)
Definition init (wrk_sync_pool_ max_num_teams num_pes : Z) : pools :=
  setup_fence_buffer num_pes
    (teams_init max_num_teams
      (rocshmem_collective_init (Pools wrk_sync_pool_ 0 0 0 0 0 0 0))).

(** ** The slices of a team *)

Inductive area := Barrier | Reduce | Bcast | Alltoall | Wrk.

#[export] Instance area_eq_dec : EqDecision area.
Proof. solve_decision. Defined.

(** Start address and length in bytes of an area of the team in a slot: the
    pointer arithmetic of the constructor [IPCTeam]. *)
Definition area_start (p : pools) (pool_index : Z) (a : area) : Z :=
  match a with
  | Barrier => barrier_pSync_pool p + sizeof_long * (pool_index * ROCSHMEM_BARRIER_SYNC_SIZE)
  | Reduce => reduce_pSync_pool p + sizeof_long * (pool_index * ROCSHMEM_REDUCE_SYNC_SIZE)
  | Bcast => bcast_pSync_pool p + sizeof_long * (pool_index * ROCSHMEM_BCAST_SYNC_SIZE)
  | Alltoall => alltoall_pSync_pool p + sizeof_long * (pool_index * ROCSHMEM_ALLTOALL_SYNC_SIZE)
  | Wrk => pWrk_pool p + ROCSHMEM_REDUCE_MIN_WRKDATA_SIZE * sizeof_double * pool_index
  end.

Definition area_bytes (a : area) : Z :=
  match a with
  | Barrier => sizeof_long * ROCSHMEM_BARRIER_SYNC_SIZE
  | Reduce => sizeof_long * ROCSHMEM_REDUCE_SYNC_SIZE
  | Bcast => sizeof_long * ROCSHMEM_BCAST_SYNC_SIZE
  | Alltoall => sizeof_long * ROCSHMEM_ALLTOALL_SYNC_SIZE
  | Wrk => sizeof_double * ROCSHMEM_REDUCE_MIN_WRKDATA_SIZE
  end.

(** ** Lemmas *)

Definition disjoint_ranges (s1 l1 s2 l2 : Z) : Prop := s1 + l1 <= s2 \/ s2 + l2 <= s1.

Ltac unfold_sizes :=
  unfold ROCSHMEM_ALLTOALL_SYNC_SIZE, ROCSHMEM_BCAST_SYNC_SIZE, ROCSHMEM_REDUCE_SYNC_SIZE,
    ROCSHMEM_BARRIER_SYNC_SIZE, ROCSHMEM_REDUCE_MIN_WRKDATA_SIZE,
    sizeof_long, sizeof_double, sizeof_int, wrk_sync_pool_alignment in *.

Lemma align_up_aligned x : 0 <= x < 2 ^ 63 -> x mod 8 = 0 -> align_up x 8 = x.
Proof.
  intros Hx Hm. unfold align_up. rewrite wrap_small by lia.
  pose proof (Z.div_mod x 8). replace ((x + 8 - 1) / 8) with (x / 8); [lia|].
  apply Z.div_unique with (r := 7); lia.
Qed.

Lemma align_up_bounds x : 0 <= x < 2 ^ 63 -> x <= align_up x 8 < x + 8 /\ align_up x 8 mod 8 = 0.
Proof.
  intros Hx. unfold align_up. rewrite wrap_small by lia.
  pose proof (Z.div_mod (x + 8 - 1) 8). pose proof (Z.mod_pos_bound (x + 8 - 1) 8).
  rewrite Z.mod_mul by lia. lia.
Qed.

Section layout.
Context (base max_num_teams num_pes : Z).
Hypothesis base_aligned : base mod wrk_sync_pool_alignment = 0.
Hypothesis base_range : 0 <= base < 2 ^ 62.
Hypothesis teams_range : 0 <= max_num_teams < 2 ^ 31.
Hypothesis pes_range : 0 <= num_pes < 2 ^ 31.

Lemma carve_values :
  let p := init base max_num_teams num_pes in
  barrier_sync p = base /\
  barrier_pSync_pool p = base + 2048 /\
  reduce_pSync_pool p = base + 2048 + 2048 * max_num_teams /\
  bcast_pSync_pool p = base + 2048 + 4096 * max_num_teams /\
  alltoall_pSync_pool p = base + 2048 + 6144 * max_num_teams /\
  pWrk_pool p = base + 2048 + 8200 * max_num_teams /\
  fence_pool p = base + 2048 + 8396808 * max_num_teams /\
  wrk_sync_pool_top_ p = base + 2048 + 8396808 * max_num_teams + 4 * num_pes.
Proof.
  unfold_sizes. unfold init, setup_fence_buffer, teams_init, rocshmem_collective_init.
  unfold_sizes. cbn -[Z.add Z.mul wrap align_up].
  rewrite (align_up_aligned base) by lia.
  rewrite (wrap_small 64 (base + _)) by lia.
  assert ((base + 8 * 256) mod 8 = 0) by (Z.to_euclidean_division_equations; lia).
  rewrite (align_up_aligned (base + _)) by lia.
  unwrap. split_and!; lia.
Qed.

Lemma pool_size_value :
  2048 + 8396808 * max_num_teams + 4 * num_pes <= wrk_sync_pool_size max_num_teams num_pes.
Proof.
  unfold wrk_sync_pool_size. unfold_sizes. unwrap.
  match goal with |- _ <= align_up ?x 8 => pose proof (align_up_bounds x) end. lia.
Qed.

End layout.

(** ** Properties *)

(** C32: the synchronisation pool that the IPC backend allocates holds all that it
    carves out of it: the barrier array, the five areas of every team slot and the
    fence array lie inside the pool, aligned for their elements, and no two of them
    overlap, where an area of a slot is compared with every area of every slot. *)
Theorem team_sync_areas_disjoint (base max_num_teams num_pes i j : Z) (a b : area)
    (Halign : base mod wrk_sync_pool_alignment = 0) (Hbase : 0 <= base < 2 ^ 62)
    (Hteams : 0 <= max_num_teams < 2 ^ 31) (Hpes : 0 <= num_pes < 2 ^ 31)
    (Hi : 0 <= i < max_num_teams) (Hj : 0 <= j < max_num_teams) :
  let p := init base max_num_teams num_pes in
  let pool_end := base + wrk_sync_pool_size max_num_teams num_pes in
  let barrier_bytes := sizeof_long * ROCSHMEM_BARRIER_SYNC_SIZE in
  let fence_bytes := sizeof_int * num_pes in
  ((i, a) <> (j, b) ->
     disjoint_ranges (area_start p i a) (area_bytes a) (area_start p j b) (area_bytes b)) /\
  disjoint_ranges (area_start p i a) (area_bytes a) (barrier_sync p) barrier_bytes /\
  disjoint_ranges (area_start p i a) (area_bytes a) (fence_pool p) fence_bytes /\
  disjoint_ranges (barrier_sync p) barrier_bytes (fence_pool p) fence_bytes /\
  (base <= area_start p i a /\ area_start p i a + area_bytes a <= pool_end) /\
  (base <= barrier_sync p /\ barrier_sync p + barrier_bytes <= pool_end) /\
  (base <= fence_pool p /\ fence_pool p + fence_bytes <= pool_end) /\
  area_start p i a mod sizeof_long = 0 /\ barrier_sync p mod sizeof_long = 0 /\ fence_pool p mod sizeof_int = 0.
Proof.
  cbv zeta. pose proof (pool_size_value max_num_teams num_pes Hteams Hpes) as Hsize.
  destruct (carve_values base max_num_teams num_pes Halign Hbase Hteams Hpes)
    as (Hb & H1 & H2 & H3 & H4 & H5 & H6 & _).
  unfold disjoint_ranges, area_start, area_bytes. unfold_sizes.
  rewrite Hb, H1, H2, H3, H4, H5, H6. split_and!; try (destruct a; lia).
  - intros Hne. destruct a, b; try (assert (i <> j) by congruence); lia.
  - pose proof (Z.div_mod base 8). destruct a; Z.to_euclidean_division_equations; lia.
  - pose proof (Z.div_mod base 8). Z.to_euclidean_division_equations; lia.
Qed.

Lemma team_sync_areas_disjoint_witness :
  let p := init 4096 42 3 in
  disjoint_ranges (area_start p 7 Barrier) (area_bytes Barrier)
    (area_start p 8 Barrier) (area_bytes Barrier).
Proof. apply (team_sync_areas_disjoint 4096 42 3 7 8 Barrier Barrier); done || lia. Defined.
