(* ===== verification/Regions.v ===== *)
(** * Registered user buffers

    Model of [buffer_register], [buffer_unregister] and [buffer_unregister_all]
    in [src/backend_bc.cpp].  The [std::map] from start address to length is a
    list of pairs sorted by key; an iterator is a split of that list, so
    [lower_bound], [upper_bound] and [std::prev] are exact. *)

From Stdlib Require Import ZArith Lia.
From stdpp Require Import base option list sorting.
From S2P Require Import Prelude.

Open Scope Z_scope.

Definition UINTPTR_MAX : Z := 2 ^ 64 - 1.
Definition ROCSHMEM_SUCCESS : Z := 0.
Definition ROCSHMEM_ERROR : Z := 1.

Definition region : Type := Z * Z.
Definition regions : Type := list region.

(** ** The ordered map *)

(** The entries before the first one whose key fails [p], latest first, and the
    rest: the position of an iterator, with [std::prev] at hand. *)
Fixpoint span (p : Z -> bool) (before : regions) (m : regions) : regions * regions :=
  match m with
  | [] => (before, [])
  | (k, v) :: m' => if p k then span p ((k, v) :: before) m' else (before, (k, v) :: m')
  end.

(** First entry with key [>= x]. *)
Definition lower_bound (x : Z) (m : regions) : regions * regions := span (fun k => k <? x) [] m.

(** First entry with key [> x]. *)
Definition upper_bound (x : Z) (m : regions) : regions * regions := span (fun k => k <=? x) [] m.

(** [m[key] = value] at the position that [lower_bound key] returned. *)
Definition map_set (key value : Z) (m : regions) : regions :=
  let '(before, it) := lower_bound key m in
  match it with
  | (k, v) :: it' =>
      if k =? key then reverse before ++ (key, value) :: it' else reverse before ++ (key, value) :: it
  | [] => reverse before ++ [(key, value)]
  end.

(** ** Operations *)

Definition buffer_register (addr length : Z) (m : regions) : Z * regions :=
  if addr =? 0 then (ROCSHMEM_ERROR, m)
  else if length =? 0 then (ROCSHMEM_ERROR, m)
  else if addr >? UINTPTR_MAX - length then (ROCSHMEM_ERROR, m)
  else
    let end_ := u64 (addr + length) in
    let '(before, it) := lower_bound addr m in
    let overlap_after := match it with [] => false | (k, _) :: _ => k <? end_ end in
    if overlap_after then (ROCSHMEM_ERROR, m)
    else
      let overlap_before :=
        match before with [] => false | (k, v) :: _ => u64 (k + v) >? addr end in
      if overlap_before then (ROCSHMEM_ERROR, m)
      else (ROCSHMEM_SUCCESS, map_set addr length m).

Definition buffer_unregister (addr : Z) (m : regions) : Z * regions :=
  if addr =? 0 then (ROCSHMEM_ERROR, m)
  else
    let '(before, it) := upper_bound addr m in
    match before with
    | [] => (ROCSHMEM_ERROR, m)
    | (start, len) :: before' =>
        if addr <? u64 (start + len) then (ROCSHMEM_SUCCESS, reverse before' ++ it)
        else (ROCSHMEM_ERROR, m)
    end.

Definition buffer_unregister_all (m : regions) : regions := [].

(** ** Invariant *)

Definition region_ok (r : region) : Prop := 0 < fst r /\ 0 < snd r /\ fst r + snd r <= UINTPTR_MAX.

(** Each region ends before the next one starts. *)
Definition before_region (r1 r2 : region) : Prop := fst r1 + snd r1 <= fst r2.

Definition regions_ok (m : regions) : Prop := Forall region_ok m /\ StronglySorted before_region m.

Definition contains (r : region) (x : Z) : Prop := fst r <= x < fst r + snd r.

Definition overlaps (r : region) (addr len : Z) : Prop :=
  fst r < addr + len /\ addr < fst r + snd r.

(** ** Lemmas on positions *)

Lemma span_spec p b m :
  let '(before, it) := span p b m in
  exists pre, before = reverse pre ++ b /\ m = pre ++ it /\
    Forall (fun r => p (fst r) = true) pre /\
    match it with [] => True | r :: _ => p (fst r) = false end.
Proof.
  revert b. induction m as [|[k v] m IH]; intros b; simpl.
  - by exists [].
  - destruct (p k) eqn:Hp; [|by exists []].
    specialize (IH ((k, v) :: b)). destruct (span p ((k, v) :: b) m) as [before it].
    destruct IH as (pre & -> & -> & HF & Hit). exists ((k, v) :: pre). simpl.
    rewrite reverse_cons, <- app_assoc. split_and!; [done|done|by constructor|done].
Qed.

Lemma regions_ok_nil : regions_ok [].
Proof. split; constructor. Qed.

Lemma regions_ok_cons r m :
  regions_ok (r :: m) <-> region_ok r /\ regions_ok m /\ forall r', r' ∈ m -> before_region r r'.
Proof.
  unfold regions_ok. rewrite Forall_cons. split.
  - intros [[Hr HF] HS]. apply StronglySorted_inv in HS as [HS Hall].
    rewrite Forall_forall in Hall. done.
  - intros (Hr & [HF HS] & Hall). split; [done|]. constructor; [done|]. by apply Forall_forall.
Qed.

Lemma regions_ok_app (pre it : regions) :
  regions_ok (pre ++ it) <->
  regions_ok pre /\ regions_ok it /\ forall r1 r2, r1 ∈ pre -> r2 ∈ it -> before_region r1 r2.
Proof.
  induction pre as [|r pre IH]; simpl.
  - split; [|by intros (_ & ? & _)]. intros H. split_and!; [apply regions_ok_nil|done|].
    intros r1 r2 Hin. by apply elem_of_nil in Hin.
  - rewrite !regions_ok_cons, IH. setoid_rewrite elem_of_app. setoid_rewrite elem_of_cons. split.
    + intros (Hr & (Hp & Hi & Hlt) & Hall). split_and!; try done; [by auto|].
      intros r1 r2 [->|H1] H2; auto.
    + intros ((Hr & Hp & Hall) & Hi & Hlt). split_and!; try done; [by auto|].
      intros r' [H|H]; auto.
Qed.

(** Splitting a well-formed map at a monotone predicate on keys. *)
Lemma span_sorted (p : Z -> bool) m :
  regions_ok m -> (forall k k', k <= k' -> p k' = true -> p k = true) ->
  exists pre it, span p [] m = (reverse pre, it) /\ m = pre ++ it /\
    (forall r, r ∈ pre -> p (fst r) = true) /\ (forall r, r ∈ it -> p (fst r) = false).
Proof.
  intros Hok Hmono. pose proof (span_spec p [] m) as H. destruct (span p [] m) as [before it].
  destruct H as (pre & -> & -> & HF & Hit). exists pre, it. rewrite app_nil_r.
  rewrite Forall_forall in HF. split_and!; try done.
  apply regions_ok_app in Hok as (_ & Hi & _). destruct it as [|r0 it]; [by intros r ?%elem_of_nil|].
  apply regions_ok_cons in Hi as (Hr0 & _ & Hall). intros r Hr.
  destruct (p (fst r)) eqn:Hp; [|done]. apply elem_of_cons in Hr as [->|Hr]; [congruence|].
  specialize (Hall r Hr). unfold before_region in Hall. destruct Hr0 as (_ & Hpos & _).
  rewrite (Hmono (fst r0) (fst r)) in Hit; [done|lia|done].
Qed.

Lemma lower_bound_spec x m :
  regions_ok m ->
  exists pre it, lower_bound x m = (reverse pre, it) /\ m = pre ++ it /\
    (forall r, r ∈ pre -> fst r < x) /\ (forall r, r ∈ it -> x <= fst r).
Proof.
  intros Hok. destruct (span_sorted (fun k => k <? x) m Hok) as (pre & it & H & -> & H1 & H2);
    [intros; lia|].
  exists pre, it. split_and!; try done; intros r Hr; [specialize (H1 r Hr)|specialize (H2 r Hr)]; lia.
Qed.

Lemma upper_bound_spec x m :
  regions_ok m ->
  exists pre it, upper_bound x m = (reverse pre, it) /\ m = pre ++ it /\
    (forall r, r ∈ pre -> fst r <= x) /\ (forall r, r ∈ it -> x < fst r).
Proof.
  intros Hok. destruct (span_sorted (fun k => k <=? x) m Hok) as (pre & it & H & -> & H1 & H2);
    [intros; lia|].
  exists pre, it. split_and!; try done; intros r Hr; [specialize (H1 r Hr)|specialize (H2 r Hr)]; lia.
Qed.

Lemma region_end r : region_ok r -> u64 (fst r + snd r) = fst r + snd r.
Proof. intros (? & ? & ?). unfold UINTPTR_MAX in *. apply wrap_small. lia. Qed.

(** ** Operations *)

Definition valid_range (addr len : Z) : Prop := 0 < addr /\ 0 < len /\ addr + len <= UINTPTR_MAX.

Lemma map_set_fresh addr len pre it :
  lower_bound addr (pre ++ it) = (reverse pre, it) -> (forall r, r ∈ it -> addr < fst r) ->
  map_set addr len (pre ++ it) = pre ++ (addr, len) :: it.
Proof.
  intros Hlb Hit. unfold map_set. rewrite Hlb, reverse_involutive.
  destruct it as [|[k v] it]; [done|]. specialize (Hit (k, v) ltac:(by left)). simpl in Hit.
  destruct (Z.eqb_spec k addr); [lia|done].
Qed.

(** The last region of a prefix ends last. *)
Lemma prefix_ends pre x :
  regions_ok pre -> match reverse pre with [] => True | r :: _ => fst r + snd r <= x end ->
  forall r, r ∈ pre -> fst r + snd r <= x.
Proof.
  intros Hok. destruct pre as [|l pre _] using rev_ind; [by intros _ r ?%elem_of_nil|].
  rewrite reverse_snoc. intros Hl r Hr. apply regions_ok_app in Hok as (_ & Hlok & Hlt).
  apply elem_of_app in Hr as [Hr|Hr%list_elem_of_singleton]; [|by subst].
  specialize (Hlt r l Hr ltac:(by left)). apply regions_ok_cons in Hlok as ((? & ? & ?) & _).
  unfold before_region in Hlt. lia.
Qed.

Lemma reverse_head_elem (pre : regions) r l : reverse pre = r :: l -> r ∈ pre.
Proof. intros H. rewrite <- (reverse_involutive pre), H, reverse_cons, elem_of_app. right. by left. Qed.

Lemma register_spec addr len m :
  regions_ok m -> 0 <= addr -> 0 <= len ->
  let '(status, m') := buffer_register addr len m in
  (status = ROCSHMEM_SUCCESS /\ valid_range addr len /\ (forall r, r ∈ m -> ~ overlaps r addr len) /\
     m' ≡ₚ (addr, len) :: m /\ regions_ok m') \/
  (status = ROCSHMEM_ERROR /\ m' = m /\
     (~ valid_range addr len \/ exists r, r ∈ m /\ overlaps r addr len)).
Proof.
  intros Hok Ha Hl. unfold buffer_register, valid_range.
  destruct (Z.eqb_spec addr 0); [right; split_and!; try done; left; lia|].
  destruct (Z.eqb_spec len 0); [right; split_and!; try done; left; lia|].
  destruct (Z.gtb_spec addr (UINTPTR_MAX - len)); [right; split_and!; try done; left; lia|].
  assert (He : u64 (addr + len) = addr + len) by (unfold UINTPTR_MAX in *; apply wrap_small; lia).
  rewrite He. pose proof Hok as Hok'.
  destruct (lower_bound_spec addr m Hok) as (pre & it & Hlb & -> & Hpre & Hit). rewrite Hlb.
  apply regions_ok_app in Hok' as (Hp & Hi & Hlt).
  destruct (match it with [] => false | (k, _) :: _ => k <? addr + len end) eqn:Hafter.
  { right. split_and!; try done. right. destruct it as [|[k v] it]; [done|].
    exists (k, v). apply regions_ok_cons in Hi as ((? & ? & ?) & _).
    specialize (Hit (k, v) ltac:(by left)). unfold overlaps. simpl in *.
    split; [apply elem_of_app; right; by left|]. lia. }
  assert (Hnoit : forall r, r ∈ it -> addr + len <= fst r).
  { destruct it as [|[k v] it]; [by intros r ?%elem_of_nil|]. intros r Hr.
    apply regions_ok_cons in Hi as ((? & ? & ?) & _ & Hall).
    apply elem_of_cons in Hr as [->|Hr]; simpl in *; [lia|].
    specialize (Hall r Hr). unfold before_region in Hall. simpl in *. lia. }
  destruct (match reverse pre with [] => false | (k, v) :: _ => u64 (k + v) >? addr end) eqn:Hbef.
  { right. split_and!; try done. right. destruct (reverse pre) as [|[k v] l] eqn:Hr; [done|].
    apply reverse_head_elem in Hr. exists (k, v). pose proof (Hpre _ Hr).
    assert (Hrok : region_ok (k, v)) by (destruct Hp as [HF _]; by eapply Forall_forall in HF).
    pose proof (region_end _ Hrok) as Hend. simpl in *. rewrite Hend in Hbef.
    split; [apply elem_of_app; by left|]. unfold overlaps. simpl. lia. }
  assert (Hends : forall r, r ∈ pre -> fst r + snd r <= addr).
  { apply prefix_ends; [done|]. destruct (reverse pre) as [|[k v] l] eqn:Hr; [done|].
    apply reverse_head_elem in Hr.
    assert (Hrok : region_ok (k, v)) by (destruct Hp as [HF _]; by eapply Forall_forall in HF).
    pose proof (region_end _ Hrok) as Hend. simpl in *. rewrite Hend in Hbef. lia. }
  left. rewrite map_set_fresh by (try done; intros r Hr; specialize (Hnoit r Hr); lia).
  split_and!; try done; try lia.
  - intros r [Hr|Hr]%elem_of_app; [specialize (Hends r Hr)|specialize (Hnoit r Hr)];
      unfold overlaps; lia.
  - symmetry. apply Permutation_middle.
  - apply regions_ok_app. split_and!; [done| |].
    + apply regions_ok_cons. split_and!; [unfold region_ok; simpl; lia|done|]. exact Hnoit.
    + intros r1 r2 H1 H2. apply elem_of_cons in H2 as [->|H2]; [by apply Hends|by apply Hlt].
Qed.

Lemma unregister_spec addr m :
  regions_ok m -> 0 <= addr ->
  let '(status, m') := buffer_unregister addr m in
  (status = ROCSHMEM_SUCCESS /\ (exists r, contains r addr /\ m ≡ₚ r :: m') /\ regions_ok m') \/
  (status = ROCSHMEM_ERROR /\ m' = m /\ forall r, r ∈ m -> ~ contains r addr).
Proof.
  intros Hok Ha. unfold buffer_unregister. pose proof (proj1 Hok) as HF. rewrite Forall_forall in HF.
  destruct (Z.eqb_spec addr 0).
  { right. split_and!; try done. intros r Hr [? _]. destruct (HF r Hr). lia. }
  pose proof Hok as Hok'.
  destruct (upper_bound_spec addr m Hok) as (pre & it & Hub & -> & Hpre & Hit). rewrite Hub.
  apply regions_ok_app in Hok' as (Hp & Hi & Hlt).
  destruct pre as [|[k v] pre _] using rev_ind.
  { rewrite reverse_nil. right. split_and!; try done. intros r Hr [? _]. specialize (Hit r Hr). lia. }
  rewrite reverse_snoc.
  assert (Hin : (k, v) ∈ pre ++ [(k, v)]) by (apply elem_of_app; right; by left).
  assert (Hrok : region_ok (k, v)) by (apply HF, elem_of_app; by left).
  pose proof (region_end _ Hrok) as Hend. simpl in Hend. rewrite Hend.
  pose proof (Hpre _ Hin) as Hk. simpl in Hk.
  destruct (Z.ltb_spec addr (k + v)) as [Hlt'|Hge].
  - left. rewrite reverse_involutive. split_and!; [done| |].
    + exists (k, v). split; [done|]. rewrite <- app_assoc. symmetry. apply Permutation_middle.
    + rewrite <- app_assoc in Hok. apply regions_ok_app in Hok as (? & H2 & H3).
      apply regions_ok_cons in H2 as (_ & H2 & _). apply regions_ok_app. split_and!; try done.
      intros r1 r2 Hr1 Hr2. apply H3; [done|by right].
  - right. split_and!; try done. intros r [Hr|Hr]%elem_of_app [Hc1 Hc2].
    + apply (prefix_ends _ addr Hp) in Hr; [lia|]. rewrite reverse_snoc. simpl. lia.
    + specialize (Hit r Hr). lia.
Qed.

(** ** Histories *)

Inductive op := Register (addr length : Z) | Unregister (addr : Z) | UnregisterAll.

Definition exec (o : op) (m : regions) : regions :=
  match o with
  | Register a l => snd (buffer_register a l m)
  | Unregister a => snd (buffer_unregister a m)
  | UnregisterAll => buffer_unregister_all m
  end.

(** Addresses and lengths are unsigned. *)
Definition op_wf (o : op) : Prop :=
  match o with
  | Register a l => 0 <= a /\ 0 <= l
  | Unregister a => 0 <= a
  | UnregisterAll => True
  end.

Definition history (os : list op) : regions := fold_left (fun m o => exec o m) os [].

Lemma history_ok os : Forall op_wf os -> regions_ok (history os).
Proof.
  unfold history. intros HF. induction os as [|o os IH] using rev_ind; [apply regions_ok_nil|].
  apply Forall_app in HF as [HF Ho]. rewrite Forall_singleton in Ho. rewrite fold_left_app. simpl.
  specialize (IH HF). destruct o as [a l|a|]; simpl in *; [| |apply regions_ok_nil].
  - pose proof (register_spec a l _ IH (proj1 Ho) (proj2 Ho)) as H.
    destruct (buffer_register _ _ _). destruct H as [(_ & _ & _ & _ & ?)|(_ & -> & _)]; done.
  - pose proof (unregister_spec a _ IH Ho) as H.
    destruct (buffer_unregister _ _). destruct H as [(_ & _ & ?)|(_ & -> & _)]; done.
Qed.

(** ** Properties *)

(** After any history of registrations the table holds pairwise disjoint
    regions, and the next registration succeeds exactly when its range is
    non-empty, starts above address 0, does not wrap around the address space
    and overlaps no registered region; a success adds exactly that region, a
    failure changes nothing. *)
Theorem buffer_register_exact (os : list op) (addr len : Z)
    (Hos : Forall op_wf os) (Ha : 0 <= addr) (Hl : 0 <= len) :
  let m := history os in
  let '(status, m') := buffer_register addr len m in
  StronglySorted before_region m /\
  (status = ROCSHMEM_SUCCESS <->
     valid_range addr len /\ forall r, r ∈ m -> ~ overlaps r addr len) /\
  (status = ROCSHMEM_SUCCESS -> m' ≡ₚ (addr, len) :: m) /\
  (status <> ROCSHMEM_SUCCESS -> m' = m).
Proof.
  pose proof (history_ok os Hos) as Hok. cbv zeta.
  pose proof (register_spec addr len (history os) Hok Ha Hl) as H.
  destruct (buffer_register addr len (history os)) as [st m'].
  split; [by destruct Hok|]. destruct H as [(-> & Hv & Hn & Hp & _)|(-> & -> & Hbad)].
  - split_and!; done.
  - split_and!; try done. split; [done|]. intros [Hv Hn].
    destruct Hbad as [Hbad|(r & Hr & Ho)]; [done|]. by destruct (Hn r Hr).
Qed.

(** After any history, unregistering an address succeeds exactly when some
    registered region contains it (its first byte or any other), and then
    removes that region and no other. *)
Theorem buffer_unregister_exact (os : list op) (addr : Z)
    (Hos : Forall op_wf os) (Ha : 0 <= addr) :
  let m := history os in
  let '(status, m') := buffer_unregister addr m in
  (status = ROCSHMEM_SUCCESS <-> exists r, r ∈ m /\ contains r addr) /\
  (status = ROCSHMEM_SUCCESS -> exists r, contains r addr /\ m ≡ₚ r :: m') /\
  (status <> ROCSHMEM_SUCCESS -> m' = m).
Proof.
  pose proof (history_ok os Hos) as Hok. cbv zeta.
  pose proof (unregister_spec addr (history os) Hok Ha) as H.
  destruct (buffer_unregister addr (history os)) as [st m'].
  destruct H as [(-> & (r & Hc & Hp) & _)|(-> & -> & Hn)].
  - split_and!; try done; [|by eexists]. split; [|done]. intros _. exists r. split; [|done].
    rewrite Hp. by left.
  - split_and!; try done. split; [done|]. intros (r & Hr & Hc). by destruct (Hn r Hr).
Qed.

Definition example_history : list op :=
  [Register 4096 100; Register 8192 50; Register 4100 8; Register 4196 4; Unregister 8200].

Lemma example_history_wf : Forall op_wf example_history.
Proof. repeat constructor; simpl; lia. Qed.

Lemma buffer_register_exact_witness :
  let '(status, m') := buffer_register 4190 20 (history example_history) in
  status = ROCSHMEM_SUCCESS <->
    valid_range 4190 20 /\ forall r, r ∈ history example_history -> ~ overlaps r 4190 20.
Proof.
  pose proof (buffer_register_exact example_history 4190 20 example_history_wf
    ltac:(lia) ltac:(lia)) as H.
  cbv zeta in H. destruct (buffer_register 4190 20 (history example_history)). apply H.
Defined.

Lemma buffer_unregister_exact_witness :
  let '(status, m') := buffer_unregister 4195 (history example_history) in
  status = ROCSHMEM_SUCCESS <-> exists r, r ∈ history example_history /\ contains r 4195.
Proof.
  pose proof (buffer_unregister_exact example_history 4195 example_history_wf ltac:(lia)) as H.
  cbv zeta in H. destruct (buffer_unregister 4195 (history example_history)). apply H.
Defined.
