(* ===== verification/Slots.v ===== *)
(** * Tables of records with slots

    What the two tables of registered symmetric buffers ([ipc_symm_records_] of
    [src/backend_bc.cpp] and [gda_symm_records_] of [src/gda/backend_gda.cpp]) share:
    maps with unique keys as association lists, and the removal of a row of a table
    by moving the last row into its place, with the record of the moved row
    renumbered. *)

From Stdlib Require Import ZArith Lia.
From stdpp Require Import base option numbers list.
From S2P Require Import Prelude.

Open Scope Z_scope.

(** ** Association lists: [std::map] with unique keys *)

Fixpoint assoc {V} (k : Z) (m : list (Z * V)) : option V :=
  match m with
  | [] => None
  | (k', v) :: m' => if k' =? k then Some v else assoc k m'
  end.

Fixpoint erase {V} (k : Z) (m : list (Z * V)) : list (Z * V) :=
  match m with
  | [] => []
  | (k', v) :: m' => if k' =? k then m' else (k', v) :: erase k m'
  end.

Fixpoint remove_one (x : Z) (l : list Z) : list Z :=
  match l with
  | [] => []
  | y :: l' => if y =? x then l' else y :: remove_one x l'
  end.

(** ** Records that name the slot of their row *)

Class Slotted (R : Type) := {
  rslot : R -> nat;
  with_slot : nat -> R -> R;
  rslot_with_slot i r : rslot (with_slot i r) = i
}.

(** The loop over the records that renumbers the moved row, left after the first match. *)
Fixpoint renumber {R} `{Slotted R} (last slot' : nat) (m : list (Z * R)) : list (Z * R) :=
  match m with
  | [] => []
  | (k, r) :: m' =>
      if (rslot r =? last)%nat then (k, with_slot slot' r) :: m' else (k, r) :: renumber last slot' m'
  end.

(** The first [n] rows once the last of them has moved to [i]. *)
Definition swap_remove {A} (i : nat) (rows : list A) : list A :=
  let last := (length rows - 1)%nat in
  take last (if (i =? last)%nat then rows
             else match rows !! last with Some a => <[i := a]> rows | None => rows end).

(** ** Association lists *)


Lemma remove_one_perm x l : x ∈ l -> l ≡ₚ x :: remove_one x l.
Proof.
  induction l as [|y l IH]; [by intros ?%elem_of_nil|]. intros Hin. simpl.
  destruct (Z.eqb_spec y x) as [->|Hne]; [done|].
  apply elem_of_cons in Hin as [->|Hin]; [done|]. rewrite (IH Hin) at 1. apply Permutation_swap.
Qed.

Lemma remove_all_perm l h rest :
  h ≡ₚ l ++ rest -> fold_left (fun h b => remove_one b h) l h ≡ₚ rest.
Proof.
  revert h. induction l as [|x l IH]; intros h Hp; simpl in *; [done|].
  apply IH. apply (Permutation_cons_inv (a := x)).
  rewrite <- remove_one_perm; [done|]. rewrite Hp. by left.
Qed.

Lemma assoc_perm {V} k (m : list (Z * V)) v : assoc k m = Some v -> m ≡ₚ (k, v) :: erase k m.
Proof.
  induction m as [|[k' v'] m IH]; [done|]. simpl.
  destruct (Z.eqb_spec k' k) as [->|Hne]; [by intros [= ->]|].
  intros H. rewrite (IH H) at 1. apply Permutation_swap.
Qed.

Lemma assoc_None {V} k (m : list (Z * V)) : assoc k m = None <-> k ∉ m.*1.
Proof.
  induction m as [|[k' v'] m IH]; simpl; [split; [intros _; apply not_elem_of_nil|done]|].
  rewrite elem_of_cons. destruct (Z.eqb_spec k' k) as [->|Hne]; [naive_solver|].
  rewrite IH. naive_solver.
Qed.

Lemma assoc_Some {V} k v (m : list (Z * V)) :
  NoDup m.*1 -> (k, v) ∈ m -> assoc k m = Some v.
Proof.
  induction m as [|[k' v'] m IH]; simpl; [by intros _ ?%elem_of_nil|].
  intros [Hn Hnd]%NoDup_cons Hin. apply elem_of_cons in Hin as [[= -> ->]|Hin].
  - by rewrite Z.eqb_refl.
  - destruct (Z.eqb_spec k' k) as [->|]; [|eauto].
    destruct Hn. apply list_elem_of_fmap. by exists (k, v).
Qed.

(** Overwriting one element exchanges the two. *)
Lemma insert_swap_perm {A} (l : list A) i x y :
  l !! i = Some x -> y :: l ≡ₚ x :: <[i := y]> l.
Proof.
  intros Hi. assert (Hlt := lookup_lt_Some _ _ _ Hi).
  rewrite insert_take_drop by done. rewrite <- (take_drop_middle l i x Hi) at 1.
  rewrite <- !Permutation_middle. apply Permutation_swap.
Qed.

(** Removing one region by moving the last one into its place. *)
Lemma swap_remove_perm {A} (t : list A) n i r moved :
  (i < S n)%nat -> t !! i = Some r -> t !! n = Some moved ->
  take (S n) t ≡ₚ r :: take n (if (i =? n)%nat then t else <[i := moved]> t).
Proof.
  intros Hi Hr Hm. rewrite (take_S_r t n moved Hm), Permutation_app_comm. simpl.
  destruct (Nat.eqb_spec i n) as [->|Hne]; [by assert (moved = r) as -> by congruence|].
  rewrite take_insert_lt by lia. apply insert_swap_perm. rewrite lookup_take_lt by lia. done.
Qed.

Lemma erase_elem {V} k (m : list (Z * V)) x : x ∈ erase k m -> x ∈ m.
Proof.
  induction m as [|[k' v] m IH]; [done|]. simpl. destruct (k' =? k); rewrite !elem_of_cons; tauto.
Qed.

Lemma erase_absent {V} k (m : list (Z * V)) : k ∉ m.*1 -> erase k m = m.
Proof.
  induction m as [|[k' v] m IH]; simpl; [done|]. rewrite not_elem_of_cons. intros [Hne Hm].
  destruct (Z.eqb_spec k' k); [congruence|]. by rewrite IH.
Qed.

Lemma remove_head x l : remove_one x (x :: l) = l.
Proof. simpl. by rewrite Z.eqb_refl. Qed.

(** ** Removing a row *)

Section Slots.

Context {R : Type} `{Slotted R}.

(** The renumbering as a map over the records. *)
Definition moved_record (last slot' : nat) (kr : Z * R) : Z * R :=
  if (rslot kr.2 =? last)%nat then (kr.1, with_slot slot' kr.2) else kr.

Abbreviation slot_of := (fun kr : Z * R => rslot kr.2).

Lemma moved_record_id last slot' (m : list (Z * R)) :
  last ∉ slot_of <$> m -> moved_record last slot' <$> m = m.
Proof.
  intros Hn. rewrite <- (list_fmap_id m) at 2. apply list_fmap_ext. intros i kr Hi.
  unfold moved_record. destruct (Nat.eqb_spec (rslot kr.2) last) as [He|]; [|done].
  destruct Hn. apply list_elem_of_fmap. exists kr. split; [done|]. by eapply list_elem_of_lookup_2.
Qed.

Lemma renumber_fmap last slot' (m : list (Z * R)) :
  NoDup (slot_of <$> m) -> renumber last slot' m = moved_record last slot' <$> m.
Proof.
  induction m as [|[k r] m IH]; [done|]. cbn. intros [Hn Hnd]%NoDup_cons.
  unfold moved_record at 1. simpl. destruct (Nat.eqb_spec (rslot r) last) as [He|].
  - f_equal. symmetry. apply moved_record_id. by rewrite <- He.
  - f_equal. by apply IH.
Qed.

Lemma erase_moved k last slot' (m : list (Z * R)) :
  erase k (moved_record last slot' <$> m) = moved_record last slot' <$> erase k m.
Proof.
  induction m as [|[k' r] m IH]; [done|]. simpl. unfold moved_record at 1. simpl.
  destruct (rslot r =? last)%nat eqn:He; simpl; destruct (k' =? k); try done; simpl;
    unfold moved_record at 2; simpl; rewrite He; by f_equal.
Qed.

(** What does not depend on the slots survives the renumbering. *)
Lemma fmap_moved {B} (f : Z * R -> B) last slot' (m : list (Z * R)) :
  (forall k r i, f (k, with_slot i r) = f (k, r)) -> f <$> (moved_record last slot' <$> m) = f <$> m.
Proof.
  intros Hf. rewrite <- list_fmap_compose. apply list_fmap_ext. intros i [k r] _. simpl.
  unfold moved_record. simpl. by destruct (rslot r =? last)%nat.
Qed.

Lemma bind_moved {B} (f : Z * R -> list B) last slot' (m : list (Z * R)) :
  (forall k r i, f (k, with_slot i r) = f (k, r)) -> (moved_record last slot' <$> m) ≫= f = m ≫= f.
Proof.
  intros Hf. induction m as [|[k r] m IH]; [done|]. cbn. rewrite IH. f_equal.
  unfold moved_record. simpl. by destruct (rslot r =? last)%nat.
Qed.

(** The records left by an unregistration: renumbered and erased. *)
Lemma renumber_erase k r last (m rest : list (Z * R)) :
  NoDup (slot_of <$> m) -> m ≡ₚ (k, r) :: rest -> rest = erase k m ->
  erase k (if (rslot r =? last)%nat then m else renumber last (rslot r) m) =
  moved_record last (rslot r) <$> rest.
Proof.
  intros Hnd Hp ->. destruct (Nat.eqb_spec (rslot r) last) as [He|]; [|by rewrite renumber_fmap, erase_moved].
  rewrite moved_record_id; [done|]. rewrite <- He. rewrite Hp in Hnd. by apply NoDup_cons in Hnd as [? _].
Qed.

(** Distinct slots, each of a row that fits its record. *)
Definition slots_fit {A} (P : Z -> R -> A -> Prop) (rows : list A) (m : list (Z * R)) : Prop :=
  NoDup (slot_of <$> m) /\
  forall k r, (k, r) ∈ m -> exists a, rows !! rslot r = Some a /\ P k r a.

Lemma slots_fit_push {A} (P : Z -> R -> A -> Prop) rows m k r a :
  slots_fit P rows m -> rslot r = length rows -> P k r a -> slots_fit P (rows ++ [a]) ((k, r) :: m).
Proof.
  intros [Hnd HP] Hr Ha. split.
  - simpl. constructor; [|done]. rewrite list_elem_of_fmap. intros ([k' r'] & He & Hin).
    destruct (HP _ _ Hin) as (a' & Hl & _). apply lookup_lt_Some in Hl. simpl in He. lia.
  - intros k' r' [[= -> ->]|Hin]%elem_of_cons.
    + exists a. rewrite Hr, lookup_app_r, Nat.sub_diag by lia. done.
    + destruct (HP _ _ Hin) as (a' & Hl & ?). exists a'. split; [|done]. by apply lookup_app_l_Some.
Qed.

Lemma swap_remove_lookup {A} i (rows : list A) j :
  (i < length rows)%nat -> (j < length rows)%nat -> j <> i ->
  swap_remove i rows !! (if (j =? length rows - 1)%nat then i else j) = rows !! j.
Proof.
  intros Hi Hj Hne. unfold swap_remove. set (last := (length rows - 1)%nat).
  destruct (lookup_lt_is_Some_2 rows last ltac:(lia)) as [a Ha]. rewrite Ha.
  destruct (Nat.eqb_spec j last) as [->|]; destruct (Nat.eqb_spec i last) as [->|]; try lia.
  - rewrite lookup_take_lt, list_lookup_insert_eq by lia. done.
  - by rewrite lookup_take_lt by lia.
  - by rewrite lookup_take_lt, list_lookup_insert_ne by lia.
Qed.

(** Removing a record and its row keeps the others in place. *)
Lemma slots_fit_remove {A} (P : Z -> R -> A -> Prop) rows m k r rest :
  slots_fit P rows m -> m ≡ₚ (k, r) :: rest ->
  (forall k r i a, P k r a -> P k (with_slot i r) a) ->
  slots_fit P (swap_remove (rslot r) rows) (moved_record (length rows - 1) (rslot r) <$> rest).
Proof.
  intros [Hnd HP] Hperm Hset. set (last := (length rows - 1)%nat).
  rewrite Hperm in Hnd. apply NoDup_cons in Hnd as [Hn Hnd]. simpl in Hn.
  assert (Hr : (rslot r < length rows)%nat).
  { destruct (HP k r) as (a & Hl & _); [rewrite Hperm; by left|]. by apply lookup_lt_Some in Hl. }
  assert (Hother : forall k r1, (k, r1) ∈ rest -> rslot r1 <> rslot r).
  { intros k1 r1 Hin He. apply Hn. apply list_elem_of_fmap. by exists (k1, r1). }
  split.
  - assert (Hslots : slot_of <$> (moved_record last (rslot r) <$> rest) =
      (fun n => if (n =? last)%nat then rslot r else n) <$> (slot_of <$> rest)).
    { rewrite <- !list_fmap_compose. apply list_fmap_ext. intros i kr _. simpl. unfold moved_record.
      destruct (rslot kr.2 =? last)%nat; [|done]. apply rslot_with_slot. }
    rewrite Hslots. apply NoDup_fmap_2_strong; [|done]. intros x y Hx Hy He.
    destruct (Nat.eqb_spec x last), (Nat.eqb_spec y last); subst; done.
  - intros k' r' Hin. apply list_elem_of_fmap in Hin as ([k1 r1] & He & Hin).
    destruct (HP k1 r1) as (a & Hl & HPa); [rewrite Hperm; by right|].
    pose proof (swap_remove_lookup (rslot r) rows (rslot r1) Hr (lookup_lt_Some _ _ _ Hl)
      (Hother _ _ Hin)) as Hmove. exists a. unfold moved_record in He. simpl in He.
    fold last in Hmove. destruct (rslot r1 =? last)%nat; injection He as -> ->.
    + rewrite rslot_with_slot, Hmove. auto.
    + rewrite Hmove. auto.
Qed.

End Slots.

Lemma length_swap_remove {A} i (rows : list A) : length (swap_remove i rows) = (length rows - 1)%nat.
Proof.
  unfold swap_remove. rewrite length_take. destruct (i =? _)%nat; [lia|].
  destruct (rows !! _); rewrite ?length_insert; lia.
Qed.

Lemma swap_remove_split {A} i (rows : list A) a : rows !! i = Some a -> rows ≡ₚ a :: swap_remove i rows.
Proof.
  intros Hi. pose proof (lookup_lt_Some _ _ _ Hi) as Hlt.
  destruct (lookup_lt_is_Some_2 rows (length rows - 1)%nat ltac:(lia)) as [b Hb].
  pose proof (swap_remove_perm rows (length rows - 1) i a b ltac:(lia) Hi Hb) as Hp.
  unfold swap_remove. rewrite Hb. rewrite take_ge in Hp by lia. exact Hp.
Qed.
