(* ===== verification/SymmTable.v ===== *)
(** * Symmetric registration of user buffers over IPC

    Model of the collective registration of user buffers on one PE:
    [Backend::buffer_register_symmetric], [buffer_unregister_symmetric],
    [register_ipc_symm_region] and [unregister_ipc_symm_region]
    ([src/backend_bc.cpp]), the IPC backend's functions of the same names
    ([src/ipc/backend_ipc.cpp]) and the address translation [ipcPeerPtr]
    ([src/ipc_policy.hpp]).  What the other PEs and the HIP runtime answer during
    one call is an argument ([env]). *)

From Stdlib Require Import ZArith Lia.
From stdpp Require Import base option numbers list relations.
From S2P Require Import Prelude Regions Slots.

Open Scope Z_scope.

(** ** State *)

Record IpcSymmRegion := mkRegion {
  local_base : Z;
  length_ : Z;
  peer_bases : list Z
}.

Record IpcSymmRecord := mkRecord {
  slot : nat;
  self_index : nat;
  rec_peer_bases : list Z;
  local_handle : Z                      (* the buffer whose handle was exported *)
}.

Record SymmRegion := mkSymm { sr_length : Z; orig_base : Z }.

Record state := mkState {
  symm_buffer_regions : list (Z * SymmRegion);
  symm_orig_regions : regions;
  count : nat;
  table : list IpcSymmRegion;           (* [capacity] entries *)
  ipc_symm_records_ : list (Z * IpcSymmRecord);
  aliases : list (Z * Z);               (* live alias mappings: base and length *)
  open_handles : list Z;                (* peer mappings opened and not closed *)
  exported : list Z                     (* buffers whose handle is exported *)
}.

#[export] Instance ipc_record_slotted : Slotted IpcSymmRecord := {
  rslot := slot;
  with_slot i r := mkRecord i (self_index r) (rec_peer_bases r) (local_handle r);
  rslot_with_slot _ _ := eq_refl
}.

Definition zero_region : IpcSymmRegion := mkRegion 0 0 [].

(** [alloc_ipc_symm_table] *)
Definition alloc_ipc_symm_table (max_symm_regions : nat) : state :=
  let capacity := if (max_symm_regions <=? 0)%nat then 1%nat else max_symm_regions in
  mkState [] [] 0 (replicate capacity zero_region) [] [] [] [].

(** What happens outside during one registration: the lengths and success flags
    of the other PEs, the outcome of validation, of mapping the alias, of the
    export and of opening the handle of each peer. *)
Record env := mkEnv {
  other_lengths : list Z;
  vmm_valid : bool;
  new_alias : option Z;
  other_registered : list bool;
  export_ok : bool;
  other_exported : list bool;
  opened : list (option Z);
  other_opened : list bool
}.

(** ** Collective agreement *)

Definition all_pes_agree {T} (ok : T -> bool) (local : T) (others : list T) : bool :=
  forallb ok (local :: others).

Definition all_pes_succeeded (local : bool) (others : list bool) : bool :=
  all_pes_agree (fun v => v) local others.

Definition symm_lengths_match (length : Z) (others : list Z) : bool :=
  all_pes_agree (fun v => v =? length) length others.

(** ** Host-side bookkeeping: [Backend::buffer_(un)register_symmetric] *)

(** The overlap checks on the user's original range. *)
Definition orig_range_free (addr length : Z) (m : regions) : bool :=
  if addr >? UINTPTR_MAX - length then false
  else
    let orig_end := u64 (addr + length) in
    let '(before, it) := lower_bound addr m in
    if match it with [] => false | (k, _) :: _ => k <? orig_end end then false
    else if match before with [] => false | (k, v) :: _ => u64 (k + v) >? addr end then false
    else true.

Definition base_register (max_symm_regions : nat) (addr length : Z) (e : env) (s : state)
  : option Z * state :=
  if negb (vmm_valid e) then (None, s)
  else if (max_symm_regions <=? List.length (symm_buffer_regions s))%nat then (None, s)
  else if negb (orig_range_free addr length (symm_orig_regions s)) then (None, s)
  else
    match new_alias e with
    | None => (None, s)
    | Some alias =>
        (Some alias,
         mkState ((alias, mkSymm length addr) :: symm_buffer_regions s)
           (map_set addr length (symm_orig_regions s)) (count s) (table s)
           (ipc_symm_records_ s) ((alias, length) :: aliases s) (open_handles s) (exported s))
    end.

Definition base_unregister (addr : Z) (s : state) : Z * state :=
  if addr =? 0 then (ROCSHMEM_ERROR, s)
  else
    match assoc addr (symm_buffer_regions s) with
    | None => (ROCSHMEM_ERROR, s)
    | Some r =>
        (ROCSHMEM_SUCCESS,
         mkState (erase addr (symm_buffer_regions s)) (erase (orig_base r) (symm_orig_regions s))
           (count s) (table s) (ipc_symm_records_ s) (erase addr (aliases s)) (open_handles s)
           (exported s))
    end.

(** ** IPC handles *)

Definition set_handles (h : list Z) (s : state) : state :=
  mkState (symm_buffer_regions s) (symm_orig_regions s) (count s) (table s) (ipc_symm_records_ s)
    (aliases s) h (exported s).

Definition set_exported (x : list Z) (s : state) : state :=
  mkState (symm_buffer_regions s) (symm_orig_regions s) (count s) (table s) (ipc_symm_records_ s)
    (aliases s) (open_handles s) x.

(** The mappings in a peer array that are not this PE's own. *)
Fixpoint foreign (self : nat) (bases : list Z) : list Z :=
  match bases with
  | [] => []
  | b :: bases' =>
      match self with
      | O => bases'
      | S self' => b :: foreign self' bases'
      end
  end.

(** [CloseIpcHandle] on each entry of a peer array except this PE's own. *)
Definition close_handles (l : list Z) (s : state) : state :=
  set_handles (fold_left (fun h b => remove_one b h) l (open_handles s)) s.

(** The loop that opens the handle of each peer; a failure closes the ones
    opened so far.  [i] is the index of the next peer, [acc] the bases so far. *)
Fixpoint open_peers (self : nat) (symm_addr : Z) (i : nat) (acc : list Z) (l : list (option Z))
    (s : state) : option (list Z) * state :=
  match l with
  | [] => (Some acc, s)
  | r :: l' =>
      if (i =? self)%nat then open_peers self symm_addr (S i) (acc ++ [symm_addr]) l' s
      else
        match r with
        | None => (None, close_handles (foreign self acc) s)
        | Some p =>
            open_peers self symm_addr (S i) (acc ++ [p]) l' (set_handles (p :: open_handles s) s)
        end
  end.

Definition register_ipc_symm_region (symm_addr export_addr length : Z) (self : nat) (e : env)
    (s : state) : Z * state :=
  let s1 := if export_ok e then set_exported (export_addr :: exported s) s else s in
  if negb (all_pes_succeeded (export_ok e) (other_exported e)) then
    (ROCSHMEM_ERROR,
     if export_ok e then set_exported (remove_one export_addr (exported s1)) s1 else s1)
  else
    let '(bases, s2) := open_peers self symm_addr 0 [] (opened e) s1 in
    let open_ok := match bases with Some _ => true | None => false end in
    let bases := default [] bases in
    if negb (all_pes_succeeded open_ok (other_opened e)) then
      let s3 := if open_ok then close_handles (foreign self bases) s2 else s2 in
      (ROCSHMEM_ERROR, set_exported (remove_one export_addr (exported s3)) s3)
    else
      let slot := count s2 in
      if (List.length (table s2) <=? slot)%nat then
        let s3 := close_handles (foreign self bases) s2 in
        (ROCSHMEM_ERROR, set_exported (remove_one export_addr (exported s3)) s3)
      else
        (ROCSHMEM_SUCCESS,
         mkState (symm_buffer_regions s2) (symm_orig_regions s2) (S slot)
           (<[slot := mkRegion symm_addr length bases]> (table s2))
           ((symm_addr, mkRecord slot self bases export_addr) :: ipc_symm_records_ s2)
           (aliases s2) (open_handles s2) (exported s2)).

Definition unregister_ipc_symm_region (symm_addr : Z) (s : state) : Z * state :=
  match assoc symm_addr (ipc_symm_records_ s) with
  | None => (ROCSHMEM_ERROR, s)
  | Some r =>
      let s1 := close_handles (foreign (self_index r) (rec_peer_bases r)) s in
      let s2 := set_exported (remove_one (local_handle r) (exported s1)) s1 in
      let last := (count s2 - 1)%nat in
      let moved := default zero_region (table s2 !! last) in
      let table' := if (slot r =? last)%nat then table s2 else <[slot r := moved]> (table s2) in
      let records' := if (slot r =? last)%nat then ipc_symm_records_ s2
                      else renumber last (slot r) (ipc_symm_records_ s2) in
      (ROCSHMEM_SUCCESS,
       mkState (symm_buffer_regions s2) (symm_orig_regions s2) last table'
         (erase symm_addr records') (aliases s2) (open_handles s2) (exported s2))
  end.

(** ** The API of the IPC backend *)

Definition buffer_register_symmetric (max_symm_regions my_pe : nat) (addr length : Z) (e : env)
    (s : state) : option Z * state :=
  if negb (symm_lengths_match length (other_lengths e)) then (None, s)
  else
    let '(r, s1) := base_register max_symm_regions addr length e s in
    let register_ok := match r with Some _ => true | None => false end in
    let alias := default 0 r in
    if negb (all_pes_succeeded register_ok (other_registered e)) then
      (None, if register_ok then snd (base_unregister alias s1) else s1)
    else
      let '(status, s2) := register_ipc_symm_region alias addr length my_pe e s1 in
      if negb (status =? ROCSHMEM_SUCCESS) then (None, snd (base_unregister alias s2))
      else (Some alias, s2).

Definition buffer_unregister_symmetric (addr : Z) (s : state) : Z * state :=
  if addr =? 0 then (ROCSHMEM_ERROR, s)
  else
    let '(status, s1) := unregister_ipc_symm_region addr s in
    if negb (status =? ROCSHMEM_SUCCESS) then (ROCSHMEM_ERROR, s1)
    else base_unregister addr s1.

(** ** Translation on the device *)

Fixpoint search_regions (l : list IpcSymmRegion) (addr : Z) (pe : nat) : option Z :=
  match l with
  | [] => None
  | r :: l' =>
      if (addr >=? local_base r) && (addr <? u64 (local_base r + length_ r))
      then (fun b => u64 (b + u64 (addr - local_base r))) <$> (peer_bases r !! pe)
      else search_regions l' addr pe
  end.

(** [None] is the null pointer (or, for a peer out of range, an invalid read). *)
Definition ipcPeerPtr (heap_base heap_size : Z) (ipc_bases : list Z) (s : state)
    (addr : Z) (pe : nat) : option Z :=
  if u64 (addr - heap_base) <? heap_size
  then (fun b => u64 (b + u64 (addr - heap_base))) <$> (ipc_bases !! pe)
  else search_regions (take (count s) (table s)) addr pe.

(** ** Peers *)

Lemma foreign_snoc self acc x :
  foreign self (acc ++ [x]) = foreign self acc ++ if (length acc =? self)%nat then [] else [x].
Proof.
  revert self. induction acc as [|b acc IH]; intros [|self]; simpl; try done; [by destruct self|].
  by rewrite IH.
Qed.

(** The loop from index [i] on, with [acc] opened before and [h0] the handles of
    other registrations: either every peer's base is in place and its handle
    open, or the handles opened so far are closed again. *)
Definition peers_result (self : nat) (a : Z) (i : nat) (acc : list Z) (l : list (option Z))
    (s : state) (h0 : list Z) (out : option (list Z) * state) : Prop :=
  out.2 = set_handles (open_handles out.2) s /\
  match out.1 with
  | None => open_handles out.2 ≡ₚ h0
  | Some b => open_handles out.2 ≡ₚ foreign self b ++ h0 /\ length b = (i + length l)%nat /\
      (forall j, (j < i)%nat -> b !! j = acc !! j) /\
      forall j x, l !! j = Some x ->
        b !! (i + j)%nat = if (i + j =? self)%nat then Some a else x
  end.

Lemma peers_result_step self a i acc r l s s1 h0 x out :
  length acc = i -> Some x = (if (i =? self)%nat then Some a else r) ->
  (forall h, set_handles h s1 = set_handles h s) ->
  peers_result self a (S i) (acc ++ [x]) l s1 h0 out -> peers_result self a i acc (r :: l) s h0 out.
Proof.
  intros Hlen Hx Hs [Hout Hres]. split; [by rewrite <- Hs|].
  destruct (out.1) as [b|]; [|done]. destruct Hres as (Hp & Hb & Hlow & Hhigh).
  split_and!; [done|simpl; lia| |].
  - intros j Hj. rewrite Hlow by lia. by rewrite lookup_app_l by lia.
  - intros [|j] x' Hj; simpl in Hj.
    + rewrite Nat.add_0_r. injection Hj as <-. rewrite Hlow by lia.
      by rewrite lookup_app_r, Hlen, Nat.sub_diag by lia.
    + replace (i + S j)%nat with (S i + j)%nat by lia. by apply Hhigh.
Qed.

Lemma open_peers_spec self a i acc l s h0 :
  length acc = i -> open_handles s ≡ₚ foreign self acc ++ h0 ->
  peers_result self a i acc l s h0 (open_peers self a i acc l s).
Proof.
  revert i acc s. induction l as [|r l IH]; intros i acc s Hlen Hh; cbn [open_peers].
  - split; [by destruct s|]. simpl. split_and!; [done|lia|done|]. intros j x Hj.
    by rewrite lookup_nil in Hj.
  - destruct (i =? self)%nat eqn:He; [|destruct r as [p|]].
    + eapply peers_result_step; [done|by rewrite He|done|]. apply IH; [rewrite length_app; simpl; lia|].
      by rewrite foreign_snoc, Hlen, He, app_nil_r.
    + eapply peers_result_step; [done|by rewrite He| |apply IH; [rewrite length_app; simpl; lia|]]; [done|].
      rewrite foreign_snoc, Hlen, He. simpl. rewrite Hh, <- app_assoc. apply Permutation_middle.
    + split; [done|]. simpl. by apply remove_all_perm.
Qed.

(** ** Invariant *)

Definition live (s : state) : list IpcSymmRegion := take (count s) (table s).

Definition range_of (r : IpcSymmRegion) : Z * Z := (local_base r, length_ r).

Definition ranges_apart (a b : Z * Z) : Prop :=
  fst a + snd a <= fst b \/ fst b + snd b <= fst a.

Definition range_ok (a : Z * Z) : Prop := 0 < fst a /\ 0 < snd a /\ fst a + snd a < 2 ^ 64.

(** Live alias mappings: valid ranges, pairwise apart. *)
Inductive apart : list (Z * Z) -> Prop :=
  | apart_nil : apart []
  | apart_cons a l : range_ok a -> Forall (ranges_apart a) l -> apart l -> apart (a :: l).

Lemma ranges_apart_sym a b : ranges_apart a b -> ranges_apart b a.
Proof. unfold ranges_apart. tauto. Qed.

Lemma apart_perm l l' : l ≡ₚ l' -> apart l -> apart l'.
Proof.
  induction 1 as [|a l l' Hp IH|a b l|l1 l2 l3 _ IH1 _ IH2]; intros Ha; [done| | |by auto].
  - inversion Ha; subst. constructor; [done| |by apply IH]. by rewrite <- Hp.
  - inversion Ha as [|? ? Hb HFb Hl]; subst. inversion Hl as [|? ? Ha' HFa Hl']; subst.
    inversion HFb; subst. constructor; [done| |constructor; done].
    constructor; [by apply ranges_apart_sym|done].
Qed.

#[export] Instance apart_proper : Proper ((≡ₚ) ==> iff) apart.
Proof. intros l l' Hp. split; by apply apart_perm. Qed.

Lemma apart_inv a l : apart (a :: l) -> range_ok a /\ Forall (ranges_apart a) l /\ apart l.
Proof. by inversion 1. Qed.

Lemma apart_range l a : apart l -> a ∈ l -> range_ok a.
Proof.
  induction 1 as [|b l Hb HF _ IH]; [by intros ?%elem_of_nil|].
  intros [->|?]%elem_of_cons; auto.
Qed.

Lemma apart_nodup l : apart l -> NoDup l.*1.
Proof.
  induction 1 as [|a l Ha HF Hl IH]; simpl; constructor; [|done].
  rewrite list_elem_of_fmap. intros (b & Hb & Hin). rewrite Forall_forall in HF.
  specialize (HF b Hin). pose proof (apart_range l b Hl Hin) as (? & ? & ?).
  unfold ranges_apart in HF. destruct Ha as (? & ? & ?). lia.
Qed.

Definition foreign_of (kr : Z * IpcSymmRecord) : list Z :=
  foreign (self_index kr.2) (rec_peer_bases kr.2).

(** The region that a record describes. *)
Definition record_fits (k : Z) (r : IpcSymmRecord) (reg : IpcSymmRegion) : Prop :=
  local_base reg = k /\ peer_bases reg = rec_peer_bases r.

(** What holds of the IPC part of the state, whatever host-side registrations
    are under way. *)
Record table_inv (s : state) : Prop := {
  ti_count : (count s <= length (table s))%nat;
  ti_fit : slots_fit record_fits (live s) (ipc_symm_records_ s);
  ti_keys : (ipc_symm_records_ s).*1 ≡ₚ local_base <$> live s;
  ti_handles : open_handles s ≡ₚ ipc_symm_records_ s ≫= foreign_of;
  ti_exported : exported s ≡ₚ (fun kr : Z * IpcSymmRecord => local_handle kr.2) <$> ipc_symm_records_ s
}.

(** [extra] are the host-side registrations that have no IPC region (yet). *)
Record host_inv (extra : list (Z * Z)) (s : state) : Prop := {
  hi_apart : apart (aliases s);
  hi_live : aliases s ≡ₚ extra ++ (range_of <$> live s);
  hi_buf : (fun kr : Z * SymmRegion => (kr.1, sr_length kr.2)) <$> symm_buffer_regions s ≡ₚ aliases s;
  hi_orig : (fun kr : Z * SymmRegion => (orig_base kr.2, sr_length kr.2)) <$> symm_buffer_regions s
    ≡ₚ symm_orig_regions s;
  hi_ok : regions_ok (symm_orig_regions s)
}.

Definition inv (s : state) : Prop := table_inv s /\ host_inv [] s.

(** ** Host-side steps *)

(** The documented guarantees of the calls outside: validation rejects null and
    empty buffers, and a new alias is a fresh range of addresses. *)
Record env_ok (addr length : Z) (e : env) (s : state) : Prop := {
  eo_valid : vmm_valid e = true -> 0 < addr /\ 0 < length;
  eo_alias : forall a, new_alias e = Some a ->
    range_ok (a, length) /\ Forall (ranges_apart (a, length)) (aliases s)
}.

Lemma orig_range_free_spec addr len m :
  regions_ok m -> 0 < addr -> 0 < len -> orig_range_free addr len m = true ->
  map_set addr len m ≡ₚ (addr, len) :: m /\ regions_ok (map_set addr len m).
Proof.
  intros Hok Ha Hl Hfree.
  assert (Hreg : buffer_register addr len m = (ROCSHMEM_SUCCESS, map_set addr len m)).
  { unfold buffer_register, orig_range_free in *.
    destruct (Z.eqb_spec addr 0); [lia|]. destruct (Z.eqb_spec len 0); [lia|].
    destruct (addr >? UINTPTR_MAX - len); [done|]. destruct (lower_bound addr m) as [before it].
    destruct (match it with [] => false | (k, _) :: _ => k <? u64 (addr + len) end); [done|].
    by destruct (match before with [] => false | (k, v) :: _ => u64 (k + v) >? addr end). }
  pose proof (register_spec addr len m Hok ltac:(lia) ltac:(lia)) as H. rewrite Hreg in H.
  destruct H as [(_ & _ & _ & Hp & Hok')|(He & _)]; [done|]. done.
Qed.

(** The fields that a host-side step leaves alone. *)
Definition same_ipc (s s' : state) : Prop :=
  table s' = table s /\ count s' = count s /\ ipc_symm_records_ s' = ipc_symm_records_ s /\
  open_handles s' = open_handles s /\ exported s' = exported s.

Lemma base_register_inv mx addr len e s extra :
  host_inv extra s -> env_ok addr len e s ->
  let '(r, s') := base_register mx addr len e s in
  match r with
  | None => s' = s
  | Some a => new_alias e = Some a /\ host_inv ((a, len) :: extra) s' /\ same_ipc s s' /\
      aliases s' = (a, len) :: aliases s
  end.
Proof.
  intros [Hap Hlive Hbuf Horig Hok] [Hv Ha]. unfold base_register.
  destruct (vmm_valid e); [|done]. simpl. destruct (Hv eq_refl) as [Hpos Hlen].
  destruct (mx <=? _)%nat; [done|].
  destruct (orig_range_free addr len (symm_orig_regions s)) eqn:Hf; [|done]. simpl.
  destruct (new_alias e) as [a|] eqn:He; [|done]. destruct (Ha a eq_refl) as [Hra Hfa].
  destruct (orig_range_free_spec _ _ _ Hok Hpos Hlen Hf) as [Hp Hok'].
  split_and!; try done. unfold live in *. split; simpl; try done.
  - by constructor.
  - f_equiv. done.
  - f_equiv. done.
  - rewrite Hp. f_equiv. done.
Qed.

Lemma regions_ok_nodup m : regions_ok m -> NoDup m.*1.
Proof.
  induction m as [|r m IH]; [constructor|]. intros (Hr & Hm & Hb)%regions_ok_cons.
  rewrite fmap_cons. constructor; [|by apply IH]. rewrite list_elem_of_fmap. intros (r' & He & Hin).
  specialize (Hb r' Hin). destruct Hr as (? & ? & ?). unfold before_region in Hb. lia.
Qed.

Lemma regions_ok_erase k m : regions_ok m -> regions_ok (erase k m).
Proof.
  induction m as [|[k' v] m IH]; [done|]. simpl. intros (Hr & Hm & Hb)%regions_ok_cons.
  destruct (k' =? k); [done|]. apply regions_ok_cons. split_and!; [done|by apply IH|].
  intros r' ?%erase_elem. by apply Hb.
Qed.

Lemma base_unregister_inv a len s extra :
  host_inv ((a, len) :: extra) s ->
  let '(st, s') := base_unregister a s in
  st = ROCSHMEM_SUCCESS /\ host_inv extra s' /\ same_ipc s s' /\
  aliases s ≡ₚ (a, len) :: aliases s'.
Proof.
  intros [Hap Hlive Hbuf Horig Hok]. unfold base_unregister.
  assert (Hin : (a, len) ∈ aliases s) by (rewrite Hlive; by left).
  pose proof (apart_range _ _ Hap Hin) as (Hpos & _). simpl in Hpos.
  destruct (Z.eqb_spec a 0); [lia|].
  pose proof (apart_nodup _ Hap) as Hnd.
  assert (Hbnd : NoDup (symm_buffer_regions s).*1).
  { rewrite <- Hbuf in Hnd. by rewrite <- list_fmap_compose in Hnd. }
  pose proof Hin as Hin'. rewrite <- Hbuf in Hin'.
  apply list_elem_of_fmap in Hin' as ([a' r] & [= <- ->] & Hreg).
  pose proof (assoc_Some _ _ _ Hbnd Hreg) as Hassoc. rewrite Hassoc.
  pose proof (assoc_perm _ _ _ Hassoc) as Hperm.
  pose proof (assoc_perm _ _ _ (assoc_Some _ _ _ Hnd Hin)) as Hal.
  assert (Hob : symm_orig_regions s ≡ₚ (orig_base r, sr_length r) ::
    erase (orig_base r) (symm_orig_regions s)).
  { apply assoc_perm, assoc_Some; [by apply regions_ok_nodup|].
    rewrite <- Horig. apply list_elem_of_fmap. by exists (a, r). }
  split_and!; try done. unfold live in *. split; simpl.
  - apply (apart_perm _ _ Hal), apart_inv in Hap. tauto.
  - apply (Permutation_cons_inv (a := (a, sr_length r))). by rewrite <- Hal.
  - apply (Permutation_cons_inv (a := (a, sr_length r))). rewrite <- Hal, <- Hbuf.
    symmetry. exact (fmap_Permutation _ _ _ Hperm).
  - apply (Permutation_cons_inv (a := (orig_base r, sr_length r))).
    rewrite <- Hob, <- Horig. symmetry. exact (fmap_Permutation _ _ _ Hperm).
  - by apply regions_ok_erase.
Qed.

(** ** IPC-side steps *)

(** Only the order of the resource lists may differ. *)
Definition same_resources (s s' : state) : Prop :=
  s' = set_handles (open_handles s') (set_exported (exported s') s) /\
  open_handles s' ≡ₚ open_handles s /\ exported s' ≡ₚ exported s.

Lemma table_inv_resources s s' : same_resources s s' -> table_inv s -> table_inv s'.
Proof.
  intros (He & Hh & Hx) [H1 H2 H4 H5 H6]. rewrite He. split; try done; simpl.
  - by rewrite Hh.
  - by rewrite Hx.
Qed.

Lemma host_inv_resources x s s' : same_resources s s' -> host_inv x s -> host_inv x s'.
Proof. intros (He & _) [H1 H2 H3 H4 H5]. rewrite He. by split. Qed.

(** The entry that a successful registration adds. *)
Definition added (self : nat) (a len : Z) (e : env) (reg : IpcSymmRegion) : Prop :=
  local_base reg = a /\ length_ reg = len /\ length (peer_bases reg) = length (opened e) /\
  forall j x, opened e !! j = Some x -> peer_bases reg !! j = if (j =? self)%nat then Some a else x.

Lemma live_push s reg : (count s < length (table s))%nat ->
  take (S (count s)) (<[count s := reg]> (table s)) = live s ++ [reg].
Proof.
  intros Hlt. rewrite (take_S_r _ _ reg) by (by rewrite list_lookup_insert_eq).
  by rewrite take_insert_ge by lia.
Qed.

Lemma push_table_inv s a reg self x :
  table_inv s -> (count s < length (table s))%nat -> local_base reg = a ->
  table_inv (mkState (symm_buffer_regions s) (symm_orig_regions s) (S (count s))
    (<[count s := reg]> (table s))
    ((a, mkRecord (count s) self (peer_bases reg) x) :: ipc_symm_records_ s)
    (aliases s) (foreign self (peer_bases reg) ++ open_handles s) (x :: exported s)).
Proof.
  intros [H1 H2 H4 H5 H6] Hlt Ha. split; simpl.
  - rewrite length_insert. lia.
  - unfold live. simpl. rewrite live_push by done. apply slots_fit_push; [done| |done].
    simpl. unfold live. rewrite length_take. lia.
  - unfold live. simpl. rewrite live_push, fmap_app, <- Ha by done. simpl. rewrite H4.
    by rewrite Permutation_app_comm.
  - by rewrite H5.
  - by rewrite H6.
Qed.

Lemma register_ipc_spec a addr len self e s :
  table_inv s -> host_inv [(a, len)] s ->
  let '(st, s') := register_ipc_symm_region a addr len self e s in
  (st = ROCSHMEM_SUCCESS /\ inv s' /\ aliases s' = aliases s /\
     exists reg, added self a len e reg /\ live s' = live s ++ [reg]) \/
  (st = ROCSHMEM_ERROR /\ same_resources s s').
Proof.
  intros Ht Hh. unfold register_ipc_symm_region.
  destruct (export_ok e) eqn:Hx; simpl all_pes_succeeded.
  2:{ right. split; [done|]. destruct s. by split_and!. }
  destruct (all_pes_succeeded true (other_exported e)); cbn [negb].
  2:{ right. split; [done|]. cbn [exported set_exported]. rewrite remove_head. destruct s. by split_and!. }
  set (s1 := set_exported (addr :: exported s) s).
  pose proof (open_peers_spec self a 0 [] (opened e) s1 (open_handles s) eq_refl ltac:(by destruct self)) as Hp.
  destruct (open_peers self a 0 [] (opened e) s1) as [res s2].
  destruct Hp as [Hs2 Hres]. simpl fst in *. simpl snd in *.
  assert (Hclose : forall b, open_handles s2 ≡ₚ foreign self b ++ open_handles s ->
    same_resources s (set_exported (remove_one addr (exported (close_handles (foreign self b) s2)))
      (close_handles (foreign self b) s2))).
  { intros b Hb. rewrite Hs2. simpl. rewrite Z.eqb_refl. split_and!; [by destruct s| |done]. simpl.
    by apply remove_all_perm. }
  destruct res as [b|]; cbn [default].
  2:{ right. split; [done|]. rewrite Hs2. simpl. rewrite Z.eqb_refl. by split_and!; [destruct s| |]. }
  destruct Hres as (Hhan & Hlen & _ & Hpeers).
  destruct (all_pes_succeeded true (other_opened e)); cbn [negb]; [|right; by auto].
  destruct (Nat.leb_spec (length (table s2)) (count s2)) as [Hc|Hc]; [right; by auto|left].
  split; [done|]. rewrite Hs2 in Hc |- *. simpl in Hc |- *.
  assert (Hlive : take (S (count s)) (<[count s:=mkRegion a len b]> (table s)) =
    live s ++ [mkRegion a len b]) by (by apply live_push).
  split_and!; [split| |exists (mkRegion a len b); split_and!]; try done.
  - pose proof (push_table_inv s a (mkRegion a len b) self addr Ht Hc eq_refl) as [I1 I2 I4 I5 I6].
    split; try done; simpl in *. by rewrite Hhan.
  - destruct Hh as [J1 J2 J3 J4 J5]. split; try done. unfold live at 1. simpl.
    rewrite Hlive, J2, fmap_app. simpl. by rewrite Permutation_app_comm.
Qed.

Lemma length_live s : (count s <= length (table s))%nat -> length (live s) = count s.
Proof. unfold live. rewrite length_take. lia. Qed.

(** Moving the last entry of the table is moving the last live region. *)
Lemma live_swap_remove s i :
  (count s <= length (table s))%nat -> (i < length (live s))%nat ->
  let last := (length (live s) - 1)%nat in
  take last (if (i =? last)%nat then table s
             else <[i := default zero_region (table s !! last)]> (table s)) = swap_remove i (live s).
Proof.
  intros Hc Hi last. unfold swap_remove. fold last. pose proof (length_live s Hc) as Hlen.
  destruct (lookup_lt_is_Some_2 (table s) last ltac:(lia)) as [moved Hm].
  assert (Hm' : live s !! last = Some moved) by (unfold live; by rewrite lookup_take_lt by lia).
  rewrite Hm, Hm'. simpl. unfold live. destruct (Nat.eqb_spec i last).
  - rewrite take_take. f_equal. lia.
  - rewrite !take_insert_lt by lia. rewrite take_take. do 2 f_equal. lia.
Qed.

Lemma unregister_ipc_spec a s :
  table_inv s -> NoDup (ipc_symm_records_ s).*1 ->
  let '(st, s') := unregister_ipc_symm_region a s in
  (st = ROCSHMEM_SUCCESS /\ table_inv s' /\ symm_buffer_regions s' = symm_buffer_regions s /\
     symm_orig_regions s' = symm_orig_regions s /\ aliases s' = aliases s /\
     exists reg, local_base reg = a /\ live s ≡ₚ reg :: live s') \/
  (st = ROCSHMEM_ERROR /\ s' = s /\ a ∉ local_base <$> live s).
Proof.
  intros Hinv Hnd. pose proof Hinv as [H1 H2 H4 H5 H6]. unfold unregister_ipc_symm_region.
  destruct (assoc a (ipc_symm_records_ s)) as [r|] eqn:Ha.
  2:{ right. split_and!; [done|done|]. rewrite <- H4. by apply assoc_None. }
  left. split; [done|]. pose proof (assoc_perm _ _ _ Ha) as Hperm.
  set (rest := erase a (ipc_symm_records_ s)) in *.
  destruct (proj2 H2 a r) as (reg & Ht & Hb & Hp); [rewrite Hperm; by left|].
  change (rslot r) with (slot r) in Ht. pose proof (swap_remove_split _ _ _ Ht) as Hlive.
  simpl count. simpl table. simpl ipc_symm_records_. rewrite <- (length_live s H1) in *.
  set (last := (length (live s) - 1)%nat).
  pose proof (renumber_erase a r last _ _ (proj1 H2) Hperm eq_refl) as Hrecs.
  change (rslot r) with (slot r) in Hrecs. rewrite Hrecs.
  assert (Hl' : take last (if (slot r =? last)%nat then table s
    else <[slot r := default zero_region (table s !! last)]> (table s)) = swap_remove (slot r) (live s)).
  { apply live_swap_remove; [done|]. by eapply lookup_lt_Some. }
  split_and!; try done; [split; unfold live; simpl; rewrite ?Hl'|].
  - pose proof (length_live s H1). destruct (slot r =? last)%nat; rewrite ?length_insert; lia.
  - exact (slots_fit_remove record_fits (live s) _ a r rest H2 Hperm (fun _ _ _ _ H => H)).
  - rewrite fmap_moved by done. apply (Permutation_cons_inv (a := a)).
    rewrite <- Hb at 2. change (a :: rest.*1) with (((a, r) :: rest).*1). rewrite <- Hperm, H4.
    exact (fmap_Permutation _ _ _ Hlive).
  - rewrite bind_moved by done. apply remove_all_perm. by rewrite H5, Hperm.
  - rewrite fmap_moved by done. apply (Permutation_cons_inv (a := local_handle r)).
    rewrite <- remove_one_perm; [|rewrite H6, Hperm; by left]. rewrite H6.
    exact (fmap_Permutation _ _ _ Hperm).
  - exists reg. split; [done|]. unfold live at 2. simpl. by rewrite Hl'.
Qed.

(** ** API *)

Lemma inv_keys_nodup s : inv s -> NoDup (ipc_symm_records_ s).*1.
Proof.
  intros [Ht Hh]. rewrite (ti_keys _ Ht). pose proof (apart_nodup _ (hi_apart _ _ Hh)) as H.
  rewrite (hi_live _ _ Hh) in H. simpl in H. by rewrite <- list_fmap_compose in H.
Qed.

Lemma same_ipc_table s s' : same_ipc s s' -> table_inv s -> table_inv s'.
Proof.
  intros (H1 & H2 & H3 & H4 & H5) [I1 I2 I4 I5 I6].
  split; unfold live in *; rewrite ?H1, ?H2, ?H3, ?H4, ?H5; done.
Qed.

Lemma same_ipc_live s s' : same_ipc s s' -> live s' = live s.
Proof. intros (H1 & H2 & _). unfold live. by rewrite H1, H2. Qed.

(** The resources held: alias mappings, open peer handles and exports. *)
Definition same_held (s s' : state) : Prop :=
  live s' = live s /\ aliases s' ≡ₚ aliases s /\ open_handles s' ≡ₚ open_handles s /\
  exported s' ≡ₚ exported s.

Lemma register_symmetric_spec mx my addr len e s :
  inv s -> env_ok addr len e s ->
  let '(r, s') := buffer_register_symmetric mx my addr len e s in
  inv s' /\
  match r with
  | Some a => new_alias e = Some a /\ aliases s' = (a, len) :: aliases s /\
      exists reg, added my a len e reg /\ live s' = live s ++ [reg]
  | None => same_held s s'
  end.
Proof.
  intros Hinv He. assert (Hrefl : same_held s s) by done. destruct Hinv as [Ht Hh].
  unfold buffer_register_symmetric. destruct (symm_lengths_match _ _); [|done]. simpl.
  pose proof (base_register_inv mx addr len e s [] Hh He) as Hb.
  destruct (base_register mx addr len e s) as [[a|] s1]; [|by subst s1].
  destruct Hb as (Hna & Hh1 & Hipc & Hal). simpl default.
  pose proof (same_ipc_table _ _ Hipc Ht) as Ht1.
  assert (Hundo : forall s2, same_resources s1 s2 ->
    let s3 := snd (base_unregister a s2) in inv s3 /\ same_held s s3).
  { intros s2 Hres s3. pose proof (host_inv_resources _ _ _ Hres Hh1) as Hh2.
    pose proof (base_unregister_inv a len s2 [] Hh2) as Hu. unfold s3.
    destruct (base_unregister a s2) as [st s4]. destruct Hu as (_ & Hh4 & Hipc4 & Hal4). simpl.
    split; [split; [|done]|].
    - apply (same_ipc_table _ _ Hipc4), (table_inv_resources _ _ Hres), Ht1.
    - destruct Hres as (Hs2 & Hhan & Hexp). destruct Hipc as (E1 & E2 & E3 & E4 & E5).
      destruct Hipc4 as (F1 & F2 & F3 & F4 & F5). split_and!.
      + unfold live. rewrite F1, F2, Hs2. simpl. by rewrite E1, E2.
      + apply (Permutation_cons_inv (a := (a, len))). rewrite <- Hal4, Hs2. simpl. by rewrite Hal.
      + by rewrite F4, Hhan, E4.
      + by rewrite F5, Hexp, E5. }
  destruct (all_pes_succeeded true (other_registered e)); cbn [negb].
  2:{ apply Hundo. by destruct s1. }
  pose proof (register_ipc_spec a addr len my e s1 Ht1 Hh1) as Hr.
  destruct (register_ipc_symm_region a addr len my e s1) as [st s2].
  destruct Hr as [(-> & Hinv2 & Hal2 & reg & Hadd & Hlive)|(-> & Hres)]; simpl; [|by apply Hundo].
  split_and!; [done|done|congruence|]. exists reg. by rewrite Hlive, (same_ipc_live _ _ Hipc).
Qed.

Lemma live_apart s : inv s -> apart (range_of <$> live s).
Proof. intros [_ Hh]. apply (apart_perm _ _ (hi_live _ _ Hh)), Hh. Qed.

Lemma unregister_symmetric_spec a s :
  inv s ->
  let '(st, s') := buffer_unregister_symmetric a s in
  inv s' /\
  ((st = ROCSHMEM_SUCCESS /\ exists reg, local_base reg = a /\ live s ≡ₚ reg :: live s') \/
   (st = ROCSHMEM_ERROR /\ s' = s /\ a ∉ local_base <$> live s)).
Proof.
  intros Hinv. unfold buffer_unregister_symmetric.
  destruct (Z.eqb_spec a 0) as [->|Hne].
  { split; [done|]. right. split_and!; [done|done|]. rewrite list_elem_of_fmap.
    intros (reg & He & Hin). pose proof (live_apart s Hinv) as Hap.
    destruct (apart_range _ (range_of reg) Hap) as (Hpos & _); [|simpl in Hpos; lia].
    apply list_elem_of_fmap. by exists reg. }
  pose proof (unregister_ipc_spec a s (proj1 Hinv) (inv_keys_nodup s Hinv)) as Hu.
  destruct (unregister_ipc_symm_region a s) as [st s1].
  destruct Hu as [(-> & Ht1 & Hb & Ho & Hal & reg & Ha & Hlive)|(-> & -> & Hn)]; simpl; [|by auto].
  assert (Hh1 : host_inv [range_of reg] s1).
  { destruct Hinv as [_ [J1 J2 J3 J4 J5]]. split; rewrite ?Hal, ?Hb, ?Ho; try done.
    rewrite J2, Hlive. done. }
  unfold range_of in Hh1. rewrite Ha in Hh1. apply base_unregister_inv in Hh1.
  destruct (base_unregister a s1) as [st s2]. destruct Hh1 as (-> & Hh2 & Hipc & _).
  split; [split; [by apply (same_ipc_table _ _ Hipc)|done]|]. left. split; [done|]. exists reg.
  by rewrite (same_ipc_live _ _ Hipc).
Qed.

(** ** Histories *)

(** One PE's calls, each with the answers of the calls outside. *)
Inductive step (mx my : nat) (s : state) : state -> Prop :=
  | step_register addr len e : env_ok addr len e s ->
      step mx my s (snd (buffer_register_symmetric mx my addr len e s))
  | step_unregister addr : step mx my s (snd (buffer_unregister_symmetric addr s)).

Definition reachable (mx my : nat) (s : state) : Prop :=
  rtc (step mx my) (alloc_ipc_symm_table mx) s.

Lemma inv_init mx : inv (alloc_ipc_symm_table mx).
Proof.
  split; split; simpl; try done.
  - lia.
  - split; [constructor|]. by intros k r ?%elem_of_nil.
  - constructor.
  - apply regions_ok_nil.
Qed.

Lemma symm_reachable_inv mx my s : reachable mx my s -> inv s.
Proof.
  intros Hr. eapply (rtc_invariant (step mx my) inv); [|exact Hr|apply inv_init].
  intros x y Hx [addr len e He|addr].
  - pose proof (register_symmetric_spec mx my addr len e x Hx He) as H.
    by destruct (buffer_register_symmetric mx my addr len e x) as [r s']; destruct H.
  - pose proof (unregister_symmetric_spec addr x Hx) as H.
    by destruct (buffer_unregister_symmetric addr x) as [r s']; destruct H.
Qed.

(** ** The search *)

Definition inside (reg : IpcSymmRegion) (x : Z) : Prop :=
  local_base reg <= x < local_base reg + length_ reg.

#[export] Instance inside_dec reg x : Decision (inside reg x).
Proof. unfold inside. apply _. Defined.

(** A matching region is the answer wherever it is in the table. *)
Lemma search_found l reg x pe :
  apart (range_of <$> l) -> reg ∈ l -> inside reg x ->
  search_regions l x pe = (fun b => u64 (b + (x - local_base reg))) <$> (peer_bases reg !! pe).
Proof.
  induction l as [|r l IH]; [by intros _ ?%elem_of_nil|]. cbn. intros Hap Hin Hx.
  apply apart_inv in Hap as (Hr & HF & Hap). destruct Hr as (Hr1 & Hr2 & Hr3). simpl in *.
  rewrite (wrap_small 64 (local_base r + length_ r)) by lia.
  apply elem_of_cons in Hin as [->|Hin].
  - unfold inside in Hx. rewrite (proj2 (Z.geb_le _ _)), (proj2 (Z.ltb_lt _ _)) by lia. simpl.
    by rewrite (wrap_small 64 (x - local_base r)) by lia.
  - rewrite Forall_forall in HF.
    assert (Ha : ranges_apart (range_of r) (range_of reg)).
    { apply HF. apply list_elem_of_fmap. by exists reg. }
    unfold ranges_apart, inside in *. simpl in Ha.
    destruct ((x >=? local_base r) && (x <? local_base r + length_ r)) eqn:Hb; [lia|]. by apply IH.
Qed.

Lemma search_missing l x pe :
  apart (range_of <$> l) -> Forall (fun reg => ~ inside reg x) l -> search_regions l x pe = None.
Proof.
  induction l as [|r l IH]; [done|]. cbn. intros Hap HF. inversion HF as [|? ? Hn HF']; subst.
  apply apart_inv in Hap as ((Hr1 & Hr2 & Hr3) & _ & Hap). simpl in *.
  rewrite (wrap_small 64 (local_base r + length_ r)) by lia. unfold inside in Hn.
  destruct ((x >=? local_base r) && (x <? local_base r + length_ r)) eqn:Hb; [lia|]. by apply IH.
Qed.

Lemma search_skip r l x pe :
  0 < local_base r /\ 0 < length_ r /\ local_base r + length_ r < 2 ^ 64 -> ~ inside r x ->
  search_regions (r :: l) x pe = search_regions l x pe.
Proof.
  intros Hr Hn. cbn. rewrite (wrap_small 64 (local_base r + length_ r)) by lia. unfold inside in Hn.
  by destruct ((x >=? local_base r) && (x <? local_base r + length_ r)) eqn:Hb; [lia|].
Qed.

(** So the order of the table does not matter. *)
Lemma search_perm l l' x pe :
  l ≡ₚ l' -> apart (range_of <$> l) -> search_regions l x pe = search_regions l' x pe.
Proof.
  intros Hp Hap. pose proof (apart_perm _ _ (fmap_Permutation range_of _ _ Hp) Hap) as Hap'.
  destruct (decide (Exists (fun reg => inside reg x) l)) as [Hex|Hno].
  - apply Exists_exists in Hex as (reg & Hin & Hx).
    rewrite !(search_found _ reg) by (done || by rewrite <- Hp). done.
  - apply Forall_Exists_neg in Hno. rewrite !search_missing; try done. by rewrite <- Hp.
Qed.

(** ** Properties *)

Definition off_heap (heap_base heap_size x : Z) : Prop := heap_size <= u64 (x - heap_base).

Lemma ptr_off_heap hb hs bases s x pe :
  off_heap hb hs x -> ipcPeerPtr hb hs bases s x pe = search_regions (live s) x pe.
Proof. intros H. unfold ipcPeerPtr, off_heap in *. by rewrite (proj2 (Z.ltb_ge _ _)) by lia. Qed.

(** C26: after any history of collective registrations, a call that succeeds makes
    every address of the new alias translate to the same offset in the buffer
    opened from the peer (for this PE, in the alias itself) and changes the
    translation of no other address; a call that fails changes no translation
    and holds no more aliases, open handles or exports than before. *)
Theorem symm_register_translation mx my s addr len e hb hs bases :
  reachable mx my s -> env_ok addr len e s ->
  (forall a off, new_alias e = Some a -> 0 <= off < len -> off_heap hb hs (a + off)) ->
  let '(r, s') := buffer_register_symmetric mx my addr len e s in
  match r with
  | Some a =>
      (forall off pe b, 0 <= off < len -> opened e !! pe = Some (Some b) -> pe <> my ->
         0 <= b -> b + len <= 2 ^ 64 ->
         ipcPeerPtr hb hs bases s' (a + off) pe = Some (b + off)) /\
      (forall off, 0 <= off < len -> (my < length (opened e))%nat ->
         ipcPeerPtr hb hs bases s' (a + off) my = Some (a + off)) /\
      (forall x pe, ~ a <= x < a + len ->
         ipcPeerPtr hb hs bases s' x pe = ipcPeerPtr hb hs bases s x pe)
  | None =>
      (forall x pe, ipcPeerPtr hb hs bases s' x pe = ipcPeerPtr hb hs bases s x pe) /\
      same_held s s'
  end.
Proof.
  intros Hr He Hheap. pose proof (register_symmetric_spec mx my addr len e s (symm_reachable_inv _ _ _ Hr) He) as H.
  destruct (buffer_register_symmetric mx my addr len e s) as [[a|] s'].
  2:{ destruct H as [_ Hs]. split; [|done]. intros x pe. unfold ipcPeerPtr.
      destruct Hs as [Hl _]. unfold live in Hl. by rewrite Hl. }
  destruct H as (Hinv' & Hna & Hal & reg & (Hb & Hlen & Hpl & Hpeers) & Hlive).
  pose proof (live_apart _ Hinv') as Hap. specialize (Hheap a).
  assert (Hin : reg ∈ live s') by (rewrite Hlive; apply elem_of_app; right; by left).
  destruct (apart_range _ (range_of reg) Hap) as (Hr1 & Hr2 & Hr3).
  { apply list_elem_of_fmap. by exists reg. }
  simpl in Hr1, Hr2, Hr3.
  assert (Hat : forall off pe, 0 <= off < len ->
    ipcPeerPtr hb hs bases s' (a + off) pe = (fun b => u64 (b + off)) <$> (peer_bases reg !! pe)).
  { intros off pe Hoff. rewrite ptr_off_heap by (by apply Hheap).
    rewrite (search_found _ reg) by (done || unfold inside; lia).
    by replace (a + off - local_base reg) with off by lia. }
  split_and!.
  - intros off pe b Hoff Hpe Hne Hb0 Hbl. rewrite Hat by done. rewrite (Hpeers _ _ Hpe).
    rewrite (proj2 (Nat.eqb_neq _ _) Hne). simpl. by rewrite wrap_small by lia.
  - intros off Hoff Hmy. rewrite Hat by done.
    destruct (lookup_lt_is_Some_2 _ _ Hmy) as [x Hx].
    rewrite (Hpeers _ _ Hx), Nat.eqb_refl. simpl. by rewrite wrap_small by lia.
  - intros x pe Hx. unfold ipcPeerPtr. destruct (_ <? hs); [done|]. fold (live s') (live s).
    rewrite Hlive in *. rewrite (search_perm _ (reg :: live s)); [|by rewrite Permutation_app_comm|done].
    by apply search_skip; [lia|unfold inside; lia].
Qed.

(** A handle returned by a registration that is still live can be unregistered:
    the call succeeds exactly for the bases of live regions, then removes that
    region alone (its addresses no longer translate, all others translate as
    before, although the last region of the table moves); any other argument is
    refused and changes nothing. *)
Theorem symm_unregister_translation mx my s a hb hs bases :
  reachable mx my s ->
  let '(st, s') := buffer_unregister_symmetric a s in
  (st = ROCSHMEM_SUCCESS <-> a ∈ local_base <$> live s) /\
  (st <> ROCSHMEM_SUCCESS -> s' = s) /\
  forall reg, reg ∈ live s -> local_base reg = a ->
    (forall x pe, inside reg x -> off_heap hb hs x -> ipcPeerPtr hb hs bases s' x pe = None) /\
    (forall x pe, ~ inside reg x ->
       ipcPeerPtr hb hs bases s' x pe = ipcPeerPtr hb hs bases s x pe).
Proof.
  intros Hr. pose proof (symm_reachable_inv _ _ _ Hr) as Hinv. pose proof (unregister_symmetric_spec a s Hinv) as H.
  destruct (buffer_unregister_symmetric a s) as [st s']. destruct H as [Hinv' H].
  pose proof (live_apart _ Hinv) as Hap.
  destruct H as [(-> & reg & Ha & Hlive)|(-> & -> & Hn)].
  2:{ split_and!; [by split|done|]. intros reg Hin Ha. destruct Hn. apply list_elem_of_fmap.
      by exists reg. }
  split_and!; [split; [intros _|done]|done|].
  { rewrite Hlive. rewrite <- Ha. by left. }
  intros reg' Hin Ha'.
  assert (Hap' : apart (range_of <$> reg :: live s')).
  { by apply (apart_perm _ _ (fmap_Permutation range_of _ _ Hlive)). }
  apply apart_inv in Hap' as (Hrg & HF & Hap').
  assert (reg' = reg) as ->.
  { rewrite Hlive in Hin. apply elem_of_cons in Hin as [|Hin]; [done|]. exfalso.
    rewrite Forall_forall in HF.
    pose proof (HF (range_of reg') ltac:(apply list_elem_of_fmap; by exists reg')) as Hx.
    pose proof (apart_range _ (range_of reg') Hap' ltac:(apply list_elem_of_fmap; by exists reg')) as Hy.
    destruct Hrg as (? & ? & ?), Hy as (? & ? & ?). unfold ranges_apart in Hx. simpl in *. lia. }
  split.
  - intros x pe Hx Hoff. rewrite ptr_off_heap by done. apply search_missing; [done|].
    apply Forall_forall. intros r Hrin Hrx. rewrite Forall_forall in HF.
    pose proof (HF (range_of r) ltac:(apply list_elem_of_fmap; by exists r)) as Hd.
    unfold ranges_apart, inside in *. simpl in Hd. lia.
  - intros x pe Hx. unfold ipcPeerPtr. destruct (_ <? hs); [done|]. fold (live s') (live s).
    rewrite (search_perm (live s) (reg :: live s')) by done. destruct Hrg as (? & ? & ?). simpl in *.
    symmetry. apply search_skip; [lia|done].
Qed.

(** After any history of registrations, failed ones included, the resources
    held are those of the live registrations: one alias mapping per region, one
    open handle per foreign peer base, one export per region; and every record
    names the slot of its own region. *)
Theorem symm_resources_exact mx my s :
  reachable mx my s ->
  aliases s ≡ₚ range_of <$> live s /\
  open_handles s ≡ₚ ipc_symm_records_ s ≫= foreign_of /\
  exported s ≡ₚ (fun kr : Z * IpcSymmRecord => local_handle kr.2) <$> ipc_symm_records_ s /\
  length (ipc_symm_records_ s) = count s /\
  length (symm_buffer_regions s) = count s /\
  forall k r, (k, r) ∈ ipc_symm_records_ s ->
    exists reg, live s !! slot r = Some reg /\ local_base reg = k /\ peer_bases reg = rec_peer_bases r.
Proof.
  intros Hr. destruct (symm_reachable_inv _ _ _ Hr) as [[H1 H2 H4 H5 H6] [J1 J2 J3 J4 J5]].
  assert (Hlen : length (live s) = count s) by (unfold live; rewrite length_take; lia).
  split_and!; try done.
  - apply Permutation_length in H4. by rewrite !length_fmap, Hlen in H4.
  - apply Permutation_length in J3. rewrite length_fmap in J3. rewrite J3, J2. simpl.
    by rewrite length_fmap.
  - apply H2.
Qed.

(** ** A registration by PE 0 of two PEs *)

Definition demo_env (alias peer : Z) : env :=
  mkEnv [256] true (Some alias) [true] true [true] [None; Some peer] [true].

Definition demo_state : state :=
  snd (buffer_register_symmetric 4 0 4096 256 (demo_env 65536 131072) (alloc_ipc_symm_table 4)).

Lemma demo_env_ok : env_ok 4096 256 (demo_env 65536 131072) (alloc_ipc_symm_table 4).
Proof.
  split; [intros _; lia|]. intros a [= <-]. split; [unfold range_ok; simpl; lia|constructor].
Qed.

Lemma demo_reachable : reachable 4 0 demo_state.
Proof. apply rtc_once. apply (step_register 4 0 _ 4096 256). apply demo_env_ok. Qed.

Lemma demo_env2_ok : env_ok 8192 256 (demo_env 66048 132096) demo_state.
Proof.
  split; [intros _; lia|]. intros a [= <-]. split; [unfold range_ok; simpl; lia|].
  constructor; [|constructor]. right. simpl. lia.
Qed.

Lemma symm_register_translation_witness :
  ipcPeerPtr 1048576 4096 [1048576; 2097152]
    (snd (buffer_register_symmetric 4 0 8192 256 (demo_env 66048 132096) demo_state)) 66056 1 =
  Some 132104.
Proof.
  pose proof (symm_register_translation 4 0 demo_state 8192 256 (demo_env 66048 132096)
    1048576 4096 [1048576; 2097152] demo_reachable demo_env2_ok) as H.
  assert (Hh : forall a off, new_alias (demo_env 66048 132096) = Some a -> 0 <= off < 256 ->
    off_heap 1048576 4096 (a + off)).
  { intros a off [= <-] Hoff. unfold off_heap.
    unfold u64, wrap. rewrite <- (Z.mod_add _ 1), Z.mod_small by lia. lia. }
  specialize (H Hh).
  destruct (buffer_register_symmetric 4 0 8192 256 (demo_env 66048 132096) demo_state) as [r s'] eqn:He.
  assert (r = Some 66048) as -> by (apply (f_equal fst) in He; vm_compute in He; congruence).
  destruct H as (H & _). apply (H 8 1%nat 132096); [lia|reflexivity|lia|lia|lia].
Defined.

Lemma symm_unregister_translation_witness :
  fst (buffer_unregister_symmetric 65536 demo_state) = ROCSHMEM_SUCCESS /\
  ipcPeerPtr 1048576 4096 [1048576; 2097152] (snd (buffer_unregister_symmetric 65536 demo_state))
    65540 1 = None.
Proof.
  pose proof (symm_unregister_translation 4 0 demo_state 65536 1048576 4096 [1048576; 2097152]
    demo_reachable) as H.
  assert (Hin : mkRegion 65536 256 [65536; 131072] ∈ live demo_state) by (vm_compute; left).
  destruct (buffer_unregister_symmetric 65536 demo_state) as [st s'].
  destruct H as (Hs & _ & H). split.
  - apply Hs. apply list_elem_of_fmap. eexists. split; [|exact Hin]. reflexivity.
  - destruct (H _ Hin eq_refl) as [H1 _]. apply H1; [unfold inside; simpl; lia|].
    unfold off_heap. vm_compute. discriminate.
Defined.

Lemma symm_resources_exact_witness : aliases demo_state ≡ₚ range_of <$> live demo_state.
Proof. apply (symm_resources_exact 4 0 demo_state demo_reachable). Defined.
