(* ===== verification/Loops.v ===== *)
(** * Parallel loops and copies

    Model of the loops by which the threads of a work-group or wavefront share
    work, and of the copies built from them: [split_wg_range], [memcpy_lane],
    [memcpy_wg] and [memcpy_wave] ([src/util.hpp]).  A copy routine is the list
    of the fixed-size moves it makes; the moves of different threads may happen in
    any order. *)

From Stdlib Require Import ZArith Lia.
From stdpp Require Import base option numbers list.
From S2P Require Import Prelude.

Open Scope Z_scope.

(** ** [for (int i = start; i < bound; i += step)] *)

Fixpoint strided_loop (fuel : nat) (i step bound : Z) : list Z :=
  match fuel with
  | O => []
  | S fuel' => if i <? bound then i :: strided_loop fuel' (i + step) step bound else []
  end.

(** Enough fuel for any positive step. *)
Definition strided (start step bound : Z) : list Z :=
  strided_loop (Z.to_nat (bound - start)) start step bound.

(** [for (int j = 16; j >= 1; j >>= 1)] *)
Fixpoint halving_loop (fuel : nat) (j : Z) : list Z :=
  match fuel with
  | O => []
  | S fuel' => if j >=? 1 then j :: halving_loop fuel' (Z.shiftr j 1) else []
  end.

Definition widths : list Z := halving_loop 6 16.

(** ** [split_wg_range] *)

(** Offset and count of a worker; [size_t] arithmetic. *)
Definition split_wg_range (total wg_id wg_count : Z) : Z * Z :=
  let base := total / wg_count in
  let remainder := total mod wg_count in
  let count := u64 (base + if wg_id <? remainder then 1 else 0) in
  let offset := u64 (u64 (wg_id * base) + if wg_id <? remainder then wg_id else remainder) in
  (offset, count).

(** ** Copies *)

(** Offset from the start of the buffers, and number of bytes. *)
Definition move : Type := Z * Z.

(** The inner loop of [memcpy_lane] for one width. *)
Fixpoint lane_moves (fuel : nat) (i base size : Z) : list move * Z * Z :=
  match fuel with
  | O => ([], base, size)
  | S fuel' =>
      if size >=? i then
        let '(l, b, r) := lane_moves fuel' i (u64 (base + i)) (u64 (size - i)) in ((base, i) :: l, b, r)
      else ([], base, size)
  end.

Fixpoint lane_passes (js : list Z) (base size : Z) : list move :=
  match js with
  | [] => []
  | j :: js' =>
      let '(l, b, r) := lane_moves (Z.to_nat size) j base size in l ++ lane_passes js' b r
  end.

Definition memcpy_lane (size : Z) : list move := lane_passes widths 0 size.

(** The passes of [memcpy_wg] and [memcpy_wave] for one thread out of
    [block_size]; counts and products are [int]s. *)
Fixpoint wg_passes (js : list Z) (thread_id block_size base size : Z) : list move :=
  match js with
  | [] => []
  | j :: js' =>
      let cpy_size := s32 (size / j) in
      ((fun i => (u64 (base + s32 (i * j)), j)) <$> strided thread_id block_size cpy_size) ++
      wg_passes js' thread_id block_size (u64 (base + s32 (cpy_size * j)))
        (u64 (size - s32 (cpy_size * j)))
  end.

Definition memcpy_wg (thread_id block_size size : Z) : list move :=
  wg_passes widths thread_id block_size 0 size.

(** The wavefront's threads are numbered within it. *)
Definition memcpy_wave (flat_id wave_size size : Z) : list move :=
  wg_passes widths (Z.rem flat_id 64) wave_size 0 size.

(** The effect of moves on a buffer. *)
Definition perform (src dst : Z -> Z) (l : list move) : Z -> Z :=
  fold_left (fun d (m : move) => fun b => if (fst m <=? b) && (b <? fst m + snd m) then src b else d b) l dst.

(** ** Loops *)

Lemma strided_loop_elem fuel i step bound x :
  0 < step -> bound - i <= Z.of_nat fuel ->
  x ∈ strided_loop fuel i step bound <-> x < bound /\ exists k, 0 <= k /\ x = i + k * step.
Proof.
  intros Hs. revert i. induction fuel as [|fuel IH]; intros i Hf; cbn [strided_loop].
  - rewrite elem_of_nil. split; [done|]. intros (Hx & k & Hk & ->). nia.
  - destruct (Z.ltb_spec i bound) as [Hl|Hl].
    + rewrite elem_of_cons, IH by lia. split.
      * intros [->|(Hx & k & Hk & ->)]; [split; [done|]; exists 0; lia|].
        split; [done|]. exists (k + 1). lia.
      * intros (Hx & k & Hk & ->). destruct (Z.eq_dec k 0) as [->|]; [left; lia|].
        right. split; [done|]. exists (k - 1). lia.
    + rewrite elem_of_nil. split; [done|]. intros (Hx & k & Hk & ->). nia.
Qed.

Lemma strided_elem start step bound x :
  0 < step -> x ∈ strided start step bound <-> x < bound /\ exists k, 0 <= k /\ x = start + k * step.
Proof. intros Hs. apply strided_loop_elem; [done|]. lia. Qed.

Lemma strided_loop_sorted fuel i step bound : 0 < step -> NoDup (strided_loop fuel i step bound).
Proof.
  intros Hs. revert i. induction fuel as [|fuel IH]; intros i; cbn [strided_loop]; [constructor|].
  destruct (Z.ltb_spec i bound); [|constructor]. constructor; [|apply IH].
  assert (Hge : forall fuel j x, x ∈ strided_loop fuel j step bound -> j <= x).
  { clear -Hs. induction fuel as [|fuel IH]; intros j x; cbn [strided_loop]; [by intros ?%elem_of_nil|].
    destruct (j <? bound); [|by intros ?%elem_of_nil]. intros [->|Hx]%elem_of_cons; [lia|].
    apply IH in Hx. lia. }
  intros Hin. apply Hge in Hin. lia.
Qed.

Lemma strided_nodup start step bound : 0 < step -> NoDup (strided start step bound).
Proof. apply strided_loop_sorted. Qed.

(** The threads' shares are a partition of the range. *)
Lemma strided_partition step bound : 0 < step ->
  seqZ 0 step ≫= (fun t => strided t step bound) ≡ₚ seqZ 0 bound.
Proof.
  intros Hs. apply NoDup_Permutation.
  - apply NoDup_bind; [|intros; by apply strided_nodup|apply NoDup_seqZ].
    intros t1 t2 x H1 H2 Hx1 Hx2. apply elem_of_seqZ in H1, H2.
    apply strided_elem in Hx1 as (_ & k1 & ? & ->); [|done].
    apply strided_elem in Hx2 as (_ & k2 & ? & He); [|done]. assert (k1 = k2) by nia. lia.
  - apply NoDup_seqZ.
  - intros x. rewrite list_elem_of_bind, elem_of_seqZ. split.
    + intros (t & Hx & Ht). apply elem_of_seqZ in Ht. apply strided_elem in Hx as (? & k & ? & ->); [|done].
      split; [nia|lia].
    + intros Hx. exists (x mod step). rewrite elem_of_seqZ, strided_elem by done.
      pose proof (Z.mod_pos_bound x step Hs). pose proof (Z.div_mod x step ltac:(lia)).
      split; [|lia]. split; [lia|]. exists (x / step). split; [apply Z.div_pos; lia|lia].
Qed.

(** ** Tilings *)

(** Consecutive moves that cover [[a, b)] exactly. *)
Inductive tiles : Z -> list move -> Z -> Prop :=
  | tiles_nil a : tiles a [] a
  | tiles_cons a n l b : 0 < n -> tiles (a + n) l b -> tiles a ((a, n) :: l) b.

Lemma tiles_app a l1 b l2 c : tiles a l1 b -> tiles b l2 c -> tiles a (l1 ++ l2) c.
Proof. induction 1; [done|]. intros. simpl. constructor; auto. Qed.

Lemma tiles_le a l b : tiles a l b -> a <= b.
Proof. induction 1; lia. Qed.

(** Each byte of the range is in exactly one move, each byte outside in none. *)
Lemma tiles_cover a l b x : tiles a l b ->
  (exists m, m ∈ l /\ fst m <= x < fst m + snd m) <-> a <= x < b.
Proof.
  induction 1 as [a|a n l b Hn Ht IH].
  - split; [intros (m & Hm & _); by apply elem_of_nil in Hm|lia].
  - apply tiles_le in Ht. split.
    + intros (m & [->|Hm]%elem_of_cons & Hx); simpl in *; [lia|].
      assert (a + n <= x < b); [|lia]. apply IH. by exists m.
    + intros Hx. destruct (Z.lt_ge_cases x (a + n)); [exists (a, n); split; [by left|simpl; lia]|].
      destruct (proj2 IH) as (m & Hm & ?); [lia|]. exists m. split; [by right|done].
Qed.

Lemma tiles_disjoint a l b : tiles a l b ->
  forall i k m n x, l !! i = Some m -> l !! k = Some n -> fst m <= x < fst m + snd m ->
  fst n <= x < fst n + snd n -> i = k.
Proof.
  induction 1 as [a|a w l b Hw Ht IH]; [intros i k m n x H; by rewrite lookup_nil in H|].
  assert (Hrest : forall k n x, l !! k = Some n -> fst n <= x < fst n + snd n -> a + w <= x).
  { intros k n x Hk Hx. assert (Hc : a + w <= x < b); [|lia]. apply (tiles_cover _ _ _ x Ht).
    exists n. split; [by eapply list_elem_of_lookup_2|done]. }
  intros [|i] [|k] m n x; simpl; intros Hm Hn Hx Hy; [done| | |f_equal; by eapply IH].
  - injection Hm as <-. simpl in Hx. specialize (Hrest k n x Hn Hy). lia.
  - injection Hn as <-. simpl in Hy. specialize (Hrest i m x Hm Hx). lia.
Qed.

Lemma tiles_row base j n : 0 < j -> 0 <= n ->
  tiles base ((fun i => (base + i * j, j)) <$> seqZ 0 n) (base + n * j).
Proof.
  intros Hj Hn. rewrite <- (Z2Nat.id n Hn). induction (Z.to_nat n) as [|k IH].
  - simpl. rewrite Z.add_0_r. constructor.
  - replace (Z.of_nat (S k)) with (Z.of_nat k + 1) by lia. rewrite seqZ_app, fmap_app by lia.
    eapply tiles_app; [exact IH|]. simpl. replace (base + (Z.of_nat k + 1) * j) with
      (base + Z.of_nat k * j + j) by lia. constructor; [done|constructor].
Qed.

(** The moves of all threads together, pass by pass. *)
Fixpoint rows (js : list Z) (base size : Z) : list move :=
  match js with
  | [] => []
  | j :: js' =>
      ((fun i => (base + i * j, j)) <$> seqZ 0 (size / j)) ++
      rows js' (base + size / j * j) (size mod j)
  end.

(** Bytes left after the passes. *)
Fixpoint rest (js : list Z) (size : Z) : Z :=
  match js with [] => size | j :: js' => rest js' (size mod j) end.

Lemma rows_tile js base size : Forall (Z.lt 0) js -> 0 <= size ->
  tiles base (rows js base size) (base + size - rest js size).
Proof.
  intros Hjs. revert base size. induction Hjs as [|j js Hj _ IH]; intros base size Hs; cbn [rows rest].
  - replace (base + size - size) with base by lia. constructor.
  - pose proof (Z.div_mod size j ltac:(lia)) as Hdm. pose proof (Z.mod_pos_bound size j Hj).
    eapply tiles_app; [apply tiles_row; [done|apply Z.div_pos; lia]|].
    replace (base + size - rest js (size mod j)) with
      (base + size / j * j + size mod j - rest js (size mod j)) by lia.
    apply IH. lia.
Qed.

Lemma rest_widths size : rest widths size = 0.
Proof. cbn. apply Z.mod_1_r. Qed.

Lemma bind_app_perm {A B} (f g : A -> list B) (l : list A) :
  l ≫= (fun x => f x ++ g x) ≡ₚ (l ≫= f) ++ (l ≫= g).
Proof.
  induction l as [|x l IH]; [done|]. rewrite !bind_cons, IH, <- !app_assoc. f_equiv.
  rewrite !app_assoc. f_equiv. apply Permutation_app_comm.
Qed.

Lemma fmap_bind {A B C} (f : B -> C) (g : A -> list B) (l : list A) :
  f <$> (l ≫= g) = l ≫= (fun x => f <$> g x).
Proof. induction l as [|x l IH]; [done|]. by rewrite !bind_cons, fmap_app, IH. Qed.

Lemma bind_ext_elem {A B} (f g : A -> list B) (l : list A) :
  (forall x, x ∈ l -> f x = g x) -> l ≫= f = l ≫= g.
Proof.
  induction l as [|x l IH]; intros H; [done|]. rewrite !bind_cons, (H x) by (by left).
  f_equal. apply IH. intros y Hy. apply H. by right.
Qed.

Lemma wg_rows js block base size :
  0 < block -> Forall (Z.lt 0) js -> 0 <= base -> 0 <= size -> base + size < 2 ^ 31 ->
  seqZ 0 block ≫= (fun t => wg_passes js t block base size) ≡ₚ rows js base size.
Proof.
  intros Hb Hjs. revert base size. induction Hjs as [|j js Hj _ IH]; intros base size Hbase Hs Hlt;
    cbn [wg_passes rows].
  - induction (seqZ 0 block) as [|x l IHl]; [done|]. by rewrite bind_cons.
  - pose proof (Z.div_mod size j ltac:(lia)) as Hdm. pose proof (Z.mod_pos_bound size j Hj) as Hm.
    assert (Hq : 0 <= size / j <= size).
    { split; [apply Z.div_pos; lia|]. apply Z.div_le_upper_bound; nia. }
    assert (Hqj : 0 <= size / j * j <= size) by lia.
    rewrite (s32_small (size / j)), (s32_small (size / j * j)) by lia.
    rewrite (wrap_small 64 (base + size / j * j)), (wrap_small 64 (size - size / j * j)) by lia.
    replace (size - size / j * j) with (size mod j) by lia.
    rewrite bind_app_perm. f_equiv; [|apply IH; lia].
    rewrite <- (strided_partition block (size / j) Hb), fmap_bind.
    rewrite (bind_ext_elem _ (fun t => (fun i => (base + i * j, j)) <$> strided t block (size / j)));
      [done|]. intros t Ht%elem_of_seqZ. apply list_fmap_ext. intros k i Hi.
    apply list_elem_of_lookup_2, strided_elem in Hi as (Hi & c & Hc & He); [|done].
    assert (0 <= i * j < size) by nia.
    rewrite s32_small, (wrap_small 64) by lia. done.
Qed.

Lemma lane_moves_spec fuel i base size :
  0 < i -> 0 <= base -> 0 <= size -> base + size < 2 ^ 64 -> size < Z.of_nat fuel * i + i ->
  let '(l, b, r) := lane_moves fuel i base size in
  tiles base l b /\ b + r = base + size /\ r = size mod i /\ Z.of_nat (length l) = size / i.
Proof.
  revert base size. induction fuel as [|fuel IH]; intros base size Hi Hb Hs Hlt Hf; cbn [lane_moves].
  - split_and!; [constructor|done|by rewrite Z.mod_small by lia|by rewrite Z.div_small by lia].
  - destruct (Z.geb_spec size i) as [Hge|Hl].
    + rewrite !(wrap_small 64) by lia.
      specialize (IH (base + i) (size - i) Hi ltac:(lia) ltac:(lia) ltac:(lia) ltac:(lia)).
      destruct (lane_moves fuel i (base + i) (size - i)) as [[l b] r].
      destruct IH as (Ht & Hsum & Hr & Hlen). split_and!; [by constructor|lia| |].
      * rewrite Hr. replace size with (size - i + 1 * i) at 2 by lia. by rewrite Z.mod_add by lia.
      * cbn [length]. replace size with (size - i + 1 * i) by lia. rewrite Z.div_add by lia. lia.
    + split_and!; [constructor|done|by rewrite Z.mod_small by lia|by rewrite Z.div_small by lia].
Qed.

Lemma lane_passes_tile js base size : Forall (Z.lt 0) js -> 0 <= base -> 0 <= size -> base + size < 2 ^ 64 ->
  tiles base (lane_passes js base size) (base + size - rest js size).
Proof.
  intros Hjs. revert base size. induction Hjs as [|j js Hj _ IH]; intros base size Hb Hs Hlt;
    cbn [lane_passes rest].
  - replace (base + size - size) with base by lia. constructor.
  - pose proof (lane_moves_spec (Z.to_nat size) j base size Hj Hb Hs Hlt ltac:(nia)) as H.
    destruct (lane_moves (Z.to_nat size) j base size) as [[l b] r]. destruct H as (Ht & Hsum & Hr & _).
    pose proof (Z.mod_pos_bound size j Hj). apply tiles_le in Ht as Hle.
    eapply tiles_app; [exact Ht|]. rewrite <- Hr, <- Hsum. apply IH; lia.
Qed.

Lemma widths_pos : Forall (Z.lt 0) widths.
Proof. repeat constructor. Qed.

(** The order of the moves does not matter. *)
Lemma perform_spec src l dst b :
  ((exists m, m ∈ l /\ fst m <= b < fst m + snd m) -> perform src dst l b = src b) /\
  (~ (exists m, m ∈ l /\ fst m <= b < fst m + snd m) -> perform src dst l b = dst b).
Proof.
  unfold perform. revert dst. induction l as [|m l IH] using rev_ind; intros dst.
  - split; [intros (m & Hm & _); by apply elem_of_nil in Hm|done].
  - rewrite fold_left_app. simpl. destruct (IH dst) as [IH1 IH2].
    destruct ((fst m <=? b) && (b <? fst m + snd m)) eqn:He; split; try done.
    + intros Hno. destruct Hno. exists m. split; [apply elem_of_app; right; by left|lia].
    + intros (m' & [Hm|Hm]%elem_of_app & Hx); [apply IH1; by exists m'|].
      apply list_elem_of_singleton in Hm as ->. lia.
    + intros Hno. apply IH2. intros (m' & Hm & Hx). apply Hno. exists m'.
      split; [apply elem_of_app; by left|done].
Qed.

Lemma perform_tiling src dst l t size b : l ≡ₚ t -> tiles 0 t size ->
  perform src dst l b = if (0 <=? b) && (b <? size) then src b else dst b.
Proof.
  intros Hp Ht. destruct (perform_spec src l dst b) as [H1 H2].
  pose proof (tiles_cover _ _ _ b Ht) as Hc.
  assert (Hiff : (exists m, m ∈ l /\ fst m <= b < fst m + snd m) <-> 0 <= b < size).
  { rewrite <- Hc. split; intros (m & Hm & ?); exists m; (split; [by rewrite ?Hp in * |done]). }
  case_if; [apply H1|apply H2]; rewrite Hiff; lia.
Qed.

(** ** Properties *)

(** The moves that the threads of a work-group make for a copy of less than
    2^31 bytes are, in whatever order they happen, a rearrangement of a tiling of
    the buffer: every byte is written exactly once, by one thread, and after all
    of them the destination holds the source and nothing outside has changed. *)
Theorem memcpy_wg_exact block size src dst (l : list move)
    (Hb : 0 < block) (Hs : 0 <= size < 2 ^ 31)
    (Hl : l ≡ₚ seqZ 0 block ≫= (fun t => memcpy_wg t block size)) :
  (exists t, l ≡ₚ t /\ tiles 0 t size) /\
  forall b, perform src dst l b = if (0 <=? b) && (b <? size) then src b else dst b.
Proof.
  assert (Hrows : l ≡ₚ rows widths 0 size).
  { rewrite Hl. apply wg_rows; [done|apply widths_pos|lia..]. }
  pose proof (rows_tile widths 0 size widths_pos ltac:(lia)) as Ht. rewrite rest_widths, Z.sub_0_r in Ht.
  split; [by exists (rows widths 0 size)|]. intros b. by eapply perform_tiling.
Qed.

(** The moves of [memcpy_lane], which one thread makes, tile the buffer in
    order for every 64-bit size, widest moves first, so the copy is exact. *)
Theorem memcpy_lane_exact size src dst (Hs : 0 <= size < 2 ^ 64) :
  tiles 0 (memcpy_lane size) size /\
  forall b, perform src dst (memcpy_lane size) b = if (0 <=? b) && (b <? size) then src b else dst b.
Proof.
  pose proof (lane_passes_tile widths 0 size widths_pos ltac:(lia) ltac:(lia) ltac:(lia)) as Ht.
  rewrite rest_widths, Z.sub_0_r in Ht. split; [exact Ht|]. intros b. by eapply perform_tiling.
Qed.

(** The slices that [split_wg_range] gives to the work-groups are consecutive,
    start at 0, end at the total, and differ in length by at most one. *)
Theorem split_wg_range_partition total wg_count
    (Ht : 0 <= total < 2 ^ 63) (Hw : 0 < wg_count < 2 ^ 31) :
  fst (split_wg_range total 0 wg_count) = 0 /\
  (forall w, 0 <= w < wg_count ->
     let '(offset, count) := split_wg_range total w wg_count in
     0 <= offset /\ offset + count <= total /\
     total / wg_count <= count <= total / wg_count + 1 /\
     if w =? wg_count - 1 then offset + count = total
     else fst (split_wg_range total (w + 1) wg_count) = offset + count).
Proof.
  pose proof (Z.div_mod total wg_count ltac:(lia)) as Hdm.
  pose proof (Z.mod_pos_bound total wg_count ltac:(lia)) as Hm.
  assert (Hq : 0 <= total / wg_count) by (apply Z.div_pos; lia).
  assert (Hval : forall w, 0 <= w < wg_count -> split_wg_range total w wg_count =
    (w * (total / wg_count) + Z.min w (total mod wg_count),
     total / wg_count + if w <? total mod wg_count then 1 else 0)).
  { intros w Hw'. unfold split_wg_range. set (q := total / wg_count) in *. set (r := total mod wg_count) in *.
    assert (0 <= w * q <= wg_count * q) by nia. assert (0 <= q <= total) by nia.
    rewrite (wrap_small 64 (w * q)) by lia. rewrite !(wrap_small 64) by (case_ifs; lia). f_equal. case_ifs; lia. }
  split; [rewrite Hval by lia; simpl; lia|].
  intros w Hw'. rewrite Hval by done. set (q := total / wg_count) in *. set (r := total mod wg_count) in *.
  assert ((w + 1) * q <= wg_count * q) by nia.
  split_and!; try (case_ifs; nia).
  destruct (Z.eqb_spec w (wg_count - 1)) as [->|]; [case_ifs; lia|].
  rewrite Hval by lia. simpl. case_ifs; lia.
Qed.

(** ** Examples *)

Lemma memcpy_wg_exact_witness :
  perform (fun b => b + 7) (fun _ => 0) (seqZ 0 4 ≫= (fun t => memcpy_wg t 4 37)) 36 = 43.
Proof.
  exact (proj2 (memcpy_wg_exact 4 37 (fun b => b + 7) (fun _ => 0) _ ltac:(lia) ltac:(lia)
    (Permutation_refl _)) 36).
Defined.

Lemma memcpy_lane_exact_witness : tiles 0 (memcpy_lane 37) 37.
Proof. exact (proj1 (memcpy_lane_exact 37 (fun b => b) (fun b => b) ltac:(lia))). Defined.

Lemma split_wg_range_partition_witness :
  fst (split_wg_range 10 1 4) = 3 /\ fst (split_wg_range 10 0 4) = 0.
Proof.
  destruct (split_wg_range_partition 10 4 ltac:(lia) ltac:(lia)) as [H0 H]. split; [|exact H0].
  destruct (H 0 ltac:(lia)) as (_ & _ & _ & H1). exact H1.
Defined.
