(* ===== verification/Ring.v ===== *)
(** * Ring allreduce

    Model of [IPCContext::internal_ring_allreduce_das]
    ([src/ipc/context_ipc_tmpl_device_das.hpp]) and of its upstream version
    [internal_ring_allreduce_wg] ([src/ipc/context_ipc_tmpl_device.hpp]) as run
    by the PEs of a team, interleaved in any order.  Each PE is a program counter
    over the loops of the function; a step of a PE is one put, one signal, one
    wait, one local reduction of a chunk.  A put takes two steps: between them
    the target range has arbitrary contents.  PEs are named by their rank in the
    team.

    The lanes of a wavefront run in lockstep; several wavefronts of a work-group
    are ordered only by its barriers.  The puts of the first loop end with one
    ([internal_putmem_wg]), and so do both loops of the upstream version.  The
    puts of the second loop of [internal_ring_allreduce_das] do not
    ([putmem_nbi_wg]): with more than one wavefront, thread zero may raise the
    flag while the others still copy.  [exec_early] is that step. *)

From Stdlib Require Import ZArith Lia.
From stdpp Require Import base option numbers list relations.
From S2P Require Import Prelude Loops.

Open Scope Z_scope.

(** ** Program counters *)

(** [Racing]: thread zero has raised the flag, other wavefronts are in the put. *)
Inductive phase := PutBegin | PutDone | Signal | Racing | Await | Compute.

Inductive counter :=
  | Idle
  | At (seg iter : Z) (ph : phase)
  | Resetting
  | Finished.

Section ring.
Context {T : Type}.
(** [OpWrap<Op>::Calc] on one element: the new value of [dst]. *)
Context (Calc : T -> T -> T).
Context (PE_size n_seg seg_size chunk_size nelems : Z).
Context (src : Z -> Z -> T).
(** Whether the version of [internal_ring_allreduce_das] runs, and the threads of
    the work-group. *)
Context (das : bool) (block_size : Z).

Record state := mkState {
  dst : Z -> Z -> T;
  pWrk : Z -> Z -> T;
  pSync : Z -> Z -> Z;
  pc : Z -> counter
}.

(** Iterations of both loops for one segment. *)
Definition iters : Z := 2 * PE_size - 2.

Definition send_pe (me : Z) : Z := Z.rem (me + 1) PE_size.

Definition off_send (me iter : Z) : Z := Z.rem (me + 1 - iter + 2 * PE_size) PE_size * chunk_size.

Definition off_recv (me iter : Z) : Z := Z.rem (me - iter + 2 * PE_size) PE_size * chunk_size.

Definition wait_val (seg iter : Z) : Z := if iter <? PE_size - 1 then seg + 100 else seg + 10.

(** Where the loops go on; with one PE no loop has an iteration. *)
Definition enter (seg iter : Z) : counter :=
  if (seg <? n_seg) && (iter <? iters) then At seg iter PutBegin else Resetting.

Definition next (seg iter : Z) : counter :=
  if iter + 1 <? iters then enter seg (iter + 1) else enter (seg + 1) 0.

(** The put of one iteration with the elements [f]: to the work array of the next
    PE in the first loop, to its destination in the second. *)
Definition put (me seg iter : Z) (f : Z -> T) (s : state) : state :=
  let off := off_send me iter in
  if iter <? PE_size - 1
  then mkState (dst s) (write (pWrk s) (send_pe me) off chunk_size f) (pSync s) (pc s)
  else mkState (write (dst s) (send_pe me) (off + seg * seg_size) chunk_size f) (pWrk s)
         (pSync s) (pc s).

Definition goto (me : Z) (c : counter) (s : state) : state :=
  mkState (dst s) (pWrk s) (pSync s) (upd (pc s) me c).

Definition signal (me seg iter : Z) (s : state) : state :=
  mkState (dst s) (pWrk s) (write (pSync s) (send_pe me) iter 1 (fun _ => wait_val seg iter)) (pc s).

(** What the put of an iteration writes. *)
Definition sent (me seg iter : Z) (s : state) : Z -> T :=
  fun j => dst s me (off_send me iter + seg * seg_size + j).

(** One step of PE [me]; [None] while it is blocked or once it has finished.
    [junk] is what the target of a put holds while the put is in flight. *)
Definition exec (junk : Z -> T) (me : Z) (s : state) : option state :=
  match pc s me with
  | Idle =>
      Some (goto me (enter 0 0)
        (mkState (write (dst s) me 0 nelems (src me)) (pWrk s) (pSync s) (pc s)))
  | At seg iter PutBegin => Some (goto me (At seg iter PutDone) (put me seg iter junk s))
  | At seg iter PutDone =>
      Some (goto me (At seg iter Signal) (put me seg iter (sent me seg iter s) s))
  | At seg iter Signal => Some (goto me (At seg iter Await) (signal me seg iter s))
  | At seg iter Racing => Some (goto me (At seg iter Await) (put me seg iter (sent me seg iter s) s))
  | At seg iter Await =>
      if pSync s me iter =? wait_val seg iter
      then Some (goto me (if iter <? PE_size - 1 then At seg iter Compute else next seg iter) s)
      else None
  | At seg iter Compute =>
      let off := off_recv me iter in
      Some (goto me (next seg iter)
        (mkState
           (write (dst s) me (seg * seg_size + off) chunk_size
              (fun j => Calc (pWrk s me (off + j)) (dst s me (seg * seg_size + off + j))))
           (pWrk s) (pSync s) (pc s)))
  | Resetting =>
      Some (goto me Finished
        (mkState (dst s) (pWrk s) (write (pSync s) me 0 iters (fun _ => 0)) (pc s)))
  | Finished => None
  end.

(** No barrier of the work-group orders the put of the second loop and the flag. *)
Definition unjoined : bool := das && (64 <? block_size).

(** Thread zero raises the flag while the put is in flight; the other wavefronts
    end the put before they meet thread zero at the end of the iteration. *)
Definition exec_early (me : Z) (s : state) : option state :=
  match pc s me with
  | At seg iter PutDone =>
      if unjoined && (PE_size - 1 <=? iter)
      then Some (goto me (At seg iter Racing) (signal me seg iter s))
      else None
  | _ => None
  end.

Definition is_pe (p : Z) : Prop := 0 <= p < PE_size.

Inductive step (s : state) : state -> Prop :=
  | step_pe junk p s' : is_pe p -> exec junk p s = Some s' -> step s s'
  | step_early p s' : is_pe p -> exec_early p s = Some s' -> step s s'.

(** Before the call: the flags are at [ROCSHMEM_SYNC_VALUE]. *)
Definition initial (s : state) : Prop :=
  (forall p, is_pe p -> pc s p = Idle) /\ (forall p i, is_pe p -> 0 <= i < iters -> pSync s p i = 0).

Definition finished (s : state) : Prop := forall p, is_pe p -> pc s p = Finished.

(** ** What is computed *)

(** Chunk [c] after [k] hops: it starts at the PE before [c] and each PE it
    reaches combines it with its own source. *)
Fixpoint ring_value (c : Z) (k : nat) (i : Z) : T :=
  match k with
  | O => src ((c - 1) mod PE_size) i
  | S k' => Calc (ring_value c k' i) (src ((c + Z.of_nat k') mod PE_size) i)
  end.

(** The value every PE ends with at index [i]. *)
Definition ring_result (i : Z) : T :=
  ring_value ((i mod seg_size) / chunk_size) (Z.to_nat (PE_size - 1)) i.

(** ** Indices *)

Hypothesis PE_size_ge : 2 <= PE_size.
Hypothesis n_seg_nonneg : 0 <= n_seg.
Hypothesis chunk_pos : 0 < chunk_size.
Hypothesis seg_size_eq : seg_size = chunk_size * PE_size.
Hypothesis nelems_ge : n_seg * seg_size <= nelems.

(** [a mod PE_size] for [a] within one turn of the range. *)
Lemma mod_turn a : - PE_size <= a < 2 * PE_size ->
  a mod PE_size = if a <? 0 then a + PE_size else if a <? PE_size then a else a - PE_size.
Proof.
  intros Ha. case_ifs.
  - rewrite <- (Z.mod_add a 1), Z.mod_small by lia. lia.
  - by rewrite Z.mod_small by lia.
  - rewrite <- (Z.mod_add a (-1)), Z.mod_small by lia. lia.
Qed.

(** The PE that sends to [p]. *)
Definition pred (p : Z) : Z := if p =? 0 then PE_size - 1 else p - 1.

(** The iteration (of the first loop) in which [p] receives chunk [c]. *)
Definition hop (p c : Z) : Z := if c <=? p then p - c else p - c + PE_size.

(** The chunk that [p] receives in an iteration of either loop. *)
Definition chunk (p iter : Z) : Z :=
  let d := p - iter in
  if 0 <=? d then d else if 0 <=? d + PE_size then d + PE_size else d + 2 * PE_size.

Lemma send_pe_eq p q : is_pe p -> is_pe q -> send_pe p = q <-> pred q = p.
Proof.
  unfold is_pe, send_pe, pred. intros Hp Hq. rewrite Z.rem_mod_nonneg by lia.
  rewrite mod_turn by lia. case_ifs; lia.
Qed.

Lemma send_pe_pred p : is_pe p -> is_pe (send_pe p) /\ pred (send_pe p) = p.
Proof.
  unfold is_pe, send_pe, pred. intros Hp. rewrite Z.rem_mod_nonneg by lia.
  rewrite mod_turn by lia. case_ifs; lia.
Qed.

Lemma pred_pe p : is_pe p -> is_pe (pred p) /\ pred p <> p.
Proof. unfold is_pe, pred. case_ifs; lia. Qed.

Lemma off_recv_chunk p iter : is_pe p -> 0 <= iter < iters -> off_recv p iter = chunk p iter * chunk_size.
Proof.
  unfold is_pe, iters, off_recv, chunk. intros Hp Hi. f_equal. rewrite Z.rem_mod_nonneg by lia.
  rewrite Z.mod_add by lia. destruct (Z.leb_spec 0 (p - iter + PE_size)).
  - rewrite mod_turn by lia. case_ifs; lia.
  - rewrite <- (Z.mod_add _ 1), mod_turn by lia. case_ifs; lia.
Qed.

Lemma off_send_chunk p iter : is_pe p -> 0 <= iter < iters ->
  off_send p iter = chunk (send_pe p) iter * chunk_size.
Proof.
  intros Hp Hi. rewrite <- off_recv_chunk by (done || by apply send_pe_pred). unfold off_send, off_recv.
  f_equal. unfold is_pe, iters, send_pe in *. rewrite !Z.rem_mod_nonneg; try lia.
  - replace (p + 1 - iter + 2 * PE_size) with ((p + 1) + (2 * PE_size - iter)) by lia.
    replace ((p + 1) mod PE_size - iter + 2 * PE_size) with
      ((p + 1) mod PE_size + (2 * PE_size - iter)) by lia.
    by rewrite Z.add_mod_idemp_l by lia.
  - pose proof (Z.rem_bound_pos (p + 1) PE_size). lia.
Qed.

Lemma chunk_range p iter : is_pe p -> 0 <= iter < iters -> 0 <= chunk p iter < PE_size.
Proof. unfold is_pe, iters, chunk. intros. case_ifs; lia. Qed.

(** The hop of a received chunk. *)
Lemma hop_chunk p iter : is_pe p -> 0 <= iter < iters ->
  hop p (chunk p iter) = if iter <? PE_size then iter else iter - PE_size.
Proof. unfold is_pe, iters, hop, chunk. intros. case_ifs; lia. Qed.

Lemma chunk_hop p c : is_pe p -> 0 <= c < PE_size -> chunk p (hop p c) = c /\ 0 <= hop p c < PE_size.
Proof. unfold is_pe, hop, chunk. intros. case_ifs; lia. Qed.

Lemma chunk_inj p i i' : is_pe p -> 0 <= i < iters -> 0 <= i' < iters -> chunk p i = chunk p i' ->
  i = i' \/ i' = i + PE_size \/ i = i' + PE_size.
Proof. unfold is_pe, iters, chunk. intros Hp Hi Hi' He. case_ifs_in He; lia. Qed.

(** One hop earlier, at the sender. *)
Lemma hop_pred p c : is_pe p -> 0 <= c < PE_size ->
  hop (pred p) c = if hop p c =? 0 then PE_size - 1 else hop p c - 1.
Proof. unfold is_pe, hop, pred. intros. case_ifs; lia. Qed.

(** Chunks of different places do not meet. *)
Lemma chunks_apart seg c j seg' c' :
  0 <= c < PE_size -> 0 <= c' < PE_size -> 0 <= j < chunk_size ->
  seg' * seg_size + c' * chunk_size <= seg * seg_size + c * chunk_size + j <
    seg' * seg_size + c' * chunk_size + chunk_size -> seg = seg' /\ c = c'.
Proof.
  rewrite seg_size_eq. intros Hc Hc' Hj H.
  set (A := seg * PE_size + c). set (B := seg' * PE_size + c').
  assert (HAB : B * chunk_size <= A * chunk_size + j < B * chunk_size + chunk_size) by (unfold A, B; lia).
  assert (He : A = B) by nia. clear H HAB. unfold A, B in He. assert (seg = seg') by nia. lia.
Qed.

Lemma seg_order seg seg' iter iter' :
  0 <= iter < iters -> 0 <= iter' < iters ->
  seg * iters + iter = seg' * iters + iter' -> seg = seg' /\ iter = iter'.
Proof. intros. assert (seg = seg') by nia. split; [done|lia]. Qed.

(** The chunk sent in one iteration is the one received in the iteration before. *)
Lemma chunk_send p iter : is_pe p -> 0 <= iter < iters ->
  chunk (send_pe p) iter = if iter =? 0 then chunk p (PE_size - 1) else chunk p (iter - 1).
Proof.
  unfold is_pe, iters, chunk, send_pe. intros. rewrite Z.rem_mod_nonneg, mod_turn by lia. case_ifs; lia.
Qed.

Lemma chunk_turn p iter : 0 <= iter -> is_pe p -> iter < PE_size - 2 ->
  chunk p (PE_size + iter) = chunk p iter.
Proof. unfold is_pe, chunk. intros. case_ifs; lia. Qed.

(** ** Chunks in arrays *)

Definition index (seg c j : Z) : Z := seg * seg_size + c * chunk_size + j.

Lemma overwrite_chunk {A} (d : Z -> A) seg c j seg' c' f :
  0 <= c < PE_size -> 0 <= c' < PE_size -> 0 <= j < chunk_size ->
  overwrite d (seg' * seg_size + c' * chunk_size) chunk_size f (index seg c j) =
  if (seg =? seg') && (c =? c') then f j else d (index seg c j).
Proof.
  intros Hc Hc' Hj. unfold overwrite, index.
  destruct (Z.eqb_spec seg seg') as [->|Hs]; [destruct (Z.eqb_spec c c') as [->|Hne]|]; simpl.
  - rewrite (proj2 (Z.leb_le _ _)), (proj2 (Z.ltb_lt _ _)) by lia. simpl. f_equal. lia.
  - case_if; [|done]. destruct (chunks_apart seg' c j seg' c'); lia.
  - case_if; [|done]. destruct (chunks_apart seg c j seg' c'); lia.
Qed.

Lemma overwrite_work {A} (d : Z -> A) c j c' f :
  0 <= c < PE_size -> 0 <= c' < PE_size -> 0 <= j < chunk_size ->
  overwrite d (c' * chunk_size) chunk_size f (c * chunk_size + j) =
  if c =? c' then f j else d (c * chunk_size + j).
Proof. exact (overwrite_chunk d 0 c j 0 c' f). Qed.

(** ** Progress of one PE *)

Definition rank (c : counter) : Z :=
  match c with
  | At _ _ PutBegin => 0 | At _ _ PutDone => 1 | At _ _ Signal => 2 | At _ _ (Racing | Await) => 3
  | At _ _ Compute => 4 | _ => 0
  end.

(** The source has been copied. *)
Definition started (c : counter) : Prop := match c with Idle => False | _ => True end.

(** Iterations completed. *)
Definition completed (c : counter) : Z :=
  match c with
  | Idle => 0
  | At seg iter _ => seg * iters + iter
  | Resetting | Finished => n_seg * iters
  end.

(** Steps of a kind completed: begun puts, ended puts, signals, waits. *)
Definition passed (k : Z) (c : counter) : Z := completed c + if k <=? rank c then 1 else 0.

Abbreviation begun := (passed 1).
Abbreviation ended := (passed 2).
Abbreviation signalled := (passed 3).
Abbreviation awaited := (passed 4).

Definition counter_ok (c : counter) : Prop :=
  match c with
  | At seg iter ph => 0 <= seg < n_seg /\ 0 <= iter < iters /\ (ph = Compute -> iter < PE_size - 1) /\
      (ph = Racing -> unjoined = true)
  | _ => True
  end.

Lemma passed_order c :
  completed c <= awaited c /\ awaited c <= signalled c /\ signalled c <= ended c /\
  ended c <= begun c /\ begun c <= completed c + 1.
Proof. unfold passed. case_ifs; lia. Qed.

Lemma completed_enter seg iter : 0 <= iter <= iters -> 0 <= seg <= n_seg ->
  (seg = n_seg -> iter = 0) -> (iter = iters -> False) ->
  counter_ok (enter seg iter) /\ completed (enter seg iter) = seg * iters + iter /\
  rank (enter seg iter) = 0 /\ started (enter seg iter) /\ enter seg iter <> Finished.
Proof.
  unfold enter. intros Hi Hs He Hn. destruct (Z.ltb_spec seg n_seg), (Z.ltb_spec iter iters); simpl;
    try lia; split_and!; try done; try lia.
  assert (seg = n_seg) by lia. rewrite He by done. lia.
Qed.

Lemma completed_next seg iter : 0 <= seg < n_seg -> 0 <= iter < iters ->
  counter_ok (next seg iter) /\ completed (next seg iter) = seg * iters + iter + 1 /\
  rank (next seg iter) = 0 /\ started (next seg iter) /\ next seg iter <> Finished.
Proof.
  intros Hs Hi. unfold next. destruct (Z.ltb_spec (iter + 1) iters).
  - destruct (completed_enter seg (iter + 1)) as (? & -> & ?); try lia. split_and!; tauto || lia.
  - destruct (completed_enter (seg + 1) 0) as (? & -> & ?); try lia; unfold iters in *; try lia.
    split_and!; tauto || lia.
Qed.

(** ** What the arrays of one PE hold *)

(** The arrays [d] and [w] of PE [p], which has completed [cp] iterations, when
    its predecessor has begun [sq] and ended [eq] puts.  [st]: the source has been
    copied. *)
Record data_ok (p : Z) (st : Prop) (cp sq eq : Z) (d w : Z -> T) : Prop := {
  ok_work : forall seg iter j, 0 <= seg < n_seg -> 0 <= iter < PE_size - 1 -> 0 <= j < chunk_size ->
    cp <= seg * iters + iter < eq ->
    w (chunk p iter * chunk_size + j) =
    ring_value (chunk p iter) (Z.to_nat iter) (index seg (chunk p iter) j);
  ok_own : st -> forall seg iter j,
    0 <= seg < n_seg -> 0 <= iter < PE_size - 1 -> 0 <= j < chunk_size ->
    cp <= seg * iters + iter ->
    d (index seg (chunk p iter) j) = src p (index seg (chunk p iter) j);
  ok_partial : st -> forall seg iter j,
    0 <= seg < n_seg -> 0 <= iter < PE_size - 1 -> 0 <= j < chunk_size ->
    seg * iters + iter < cp -> (iter = PE_size - 2 \/ sq <= seg * iters + PE_size + iter) ->
    d (index seg (chunk p iter) j) =
    ring_value (chunk p iter) (Z.to_nat (iter + 1)) (index seg (chunk p iter) j);
  ok_first : st -> forall seg j, 0 <= seg < n_seg -> 0 <= j < chunk_size ->
    sq <= seg * iters + (PE_size - 1) ->
    d (index seg (chunk p (PE_size - 1)) j) = src p (index seg (chunk p (PE_size - 1)) j);
  ok_full : st -> forall seg iter j,
    0 <= seg < n_seg -> PE_size - 1 <= iter < iters -> 0 <= j < chunk_size ->
    seg * iters + iter < eq ->
    d (index seg (chunk p iter) j) =
    ring_value (chunk p iter) (Z.to_nat (PE_size - 1)) (index seg (chunk p iter) j);
  ok_rest : st -> forall i, n_seg * seg_size <= i < nelems -> d i = src p i
}.

(** Iterations of the same place in different segments are [iters] apart. *)
Lemma seg_apart seg seg' : seg = seg' \/ seg * iters <= seg' * iters - iters \/
  seg * iters >= seg' * iters + iters.
Proof. unfold iters. destruct (Z.lt_trichotomy seg seg') as [|[|]]; [right; left|left|right; right]; nia. Qed.

Ltac chunk_eq :=
  match goal with
  | H : chunk ?p ?i = chunk ?p ?i' |- _ =>
      let Hx := fresh "Hx" in
      assert (Hx := chunk_inj p i i' ltac:(done) ltac:(unfold iters in *; lia)
        ltac:(unfold iters in *; lia) H)
  end.

(** A chunk other than the overwritten one keeps its claim [H]. *)
Ltac other_chunk H :=
  match goal with
  | |- context [(?s =? ?s') && (?c =? ?c')] =>
      destruct (Z.eqb_spec s s'); [subst s|by apply H];
      let Hc := fresh "Hc" in
      destruct (Z.eqb_spec c c') as [Hc|]; [|by apply H]; simpl; chunk_eq; unfold iters in *; lia
  end.

Lemma overwrite_rest {A} (d : Z -> A) seg c f i :
  0 <= seg < n_seg -> 0 <= c < PE_size -> n_seg * seg_size <= i ->
  overwrite d (seg * seg_size + c * chunk_size) chunk_size f i = d i.
Proof.
  intros Hs Hc Hi. unfold overwrite. case_if; [|done]. exfalso. rewrite seg_size_eq in *.
  assert (seg * (chunk_size * PE_size) + chunk_size * PE_size <= n_seg * (chunk_size * PE_size)) by nia.
  assert (c * chunk_size + chunk_size <= chunk_size * PE_size) by nia. lia.
Qed.

(** The predecessor overwrites a chunk of the work array. *)
Lemma data_work p st cp sq eq sq' eq' d w seg iter f :
  is_pe p -> 0 <= seg < n_seg -> 0 <= iter < PE_size - 1 ->
  sq = seg * iters + iter \/ sq = seg * iters + iter + 1 -> eq = seg * iters + iter -> sq' = eq + 1 ->
  eq' = eq \/ (eq' = eq + 1 /\ forall j, 0 <= j < chunk_size ->
    f j = ring_value (chunk p iter) (Z.to_nat iter) (index seg (chunk p iter) j)) ->
  eq - iters < cp ->
  data_ok p st cp sq eq d w ->
  data_ok p st cp sq' eq' d (overwrite w (chunk p iter * chunk_size) chunk_size f).
Proof.
  intros Hp Hseg Hiter Hsq Heq Hsq' Heq' Hcp [H1 H2 H3 H4 H5 H6].
  assert (Hfar : PE_size <= iters) by (unfold iters; lia).
  split; try done.
  - intros seg' iter' j Hs Hi Hj Hr. rewrite overwrite_work by (done || apply chunk_range; done || lia).
    destruct (Z.eqb_spec (chunk p iter') (chunk p iter)) as [Hc|Hc].
    + chunk_eq. assert (iter' = iter) as -> by lia.
      destruct (seg_apart seg' seg) as [->|[]]; [|lia|lia].
      destruct Heq' as [|[? Hf]]; [lia|by apply Hf].
    + apply H1; try done. destruct Heq' as [->|[-> _]]; [lia|].
      destruct (Z.eq_dec (seg' * iters + iter') eq) as [He|]; [|lia].
      destruct (seg_order seg' seg iter' iter) as [-> ->]; [lia|lia|lia|done].
  - intros Hst seg' iter' j Hs Hi Hj Hc Hr. apply H3; try done. destruct Hr as [|]; [by left|right; lia].
  - intros Hst seg' j Hs Hj Hr. apply H4; try done. lia.
  - intros Hst seg' iter' j Hs Hi Hj Hr. apply H5; try done.
    destruct Heq' as [->|[-> _]]; [lia|].
    destruct (Z.eq_dec (seg' * iters + iter') eq) as [He|]; [|lia].
    destruct (seg_order seg' seg iter' iter); lia.
Qed.

(** The predecessor overwrites a chunk of the destination. *)
Lemma data_dst p (st : Prop) cp sq eq sq' eq' d w seg iter f :
  is_pe p -> 0 <= seg < n_seg -> PE_size - 1 <= iter < iters ->
  eq = seg * iters + iter -> sq' = eq + 1 ->
  sq = seg * iters + iter \/ sq = seg * iters + iter + 1 ->
  eq' = eq \/ (eq' = eq + 1 /\ forall j, 0 <= j < chunk_size ->
    f j = ring_value (chunk p iter) (Z.to_nat (PE_size - 1)) (index seg (chunk p iter) j)) ->
  eq - PE_size < cp ->
  data_ok p st cp sq eq d w ->
  data_ok p st cp sq' eq' (overwrite d (seg * seg_size + chunk p iter * chunk_size) chunk_size f) w.
Proof.
  intros Hp Hseg Hiter Heq Hsq' Hsq Heq' Hcp [H1 H2 H3 H4 H5 H6].
  assert (Hfar : PE_size <= iters < 2 * PE_size) by (unfold iters; lia).
  assert (Hrange : forall i, 0 <= i < iters -> 0 <= chunk p i < PE_size).
  { intros i Hi. by apply chunk_range. }
  split.
  - intros seg' iter' j Hs Hi Hj Hr. apply H1; try done. destruct Heq' as [->|[-> _]]; [lia|].
    destruct (Z.eq_dec (seg' * iters + iter') eq) as [He|]; [|lia].
    destruct (seg_order seg' seg iter' iter); lia.
  - intros Hst seg' iter' j Hs Hi Hj Hr. rewrite overwrite_chunk by (done || apply Hrange; lia).
    other_chunk H2.
  - intros Hst seg' iter' j Hs Hi Hj Hr Hn. rewrite overwrite_chunk by (done || apply Hrange; lia).
    assert (Hn' : iter' = PE_size - 2 \/ sq <= seg' * iters + PE_size + iter') by lia.
    other_chunk H3.
  - intros Hst seg' j Hs Hj Hr. rewrite overwrite_chunk by (done || apply Hrange; lia).
    assert (Hr' : sq <= seg' * iters + (PE_size - 1)) by lia.
    other_chunk H4.
  - intros Hst seg' iter' j Hs Hi Hj Hr. rewrite overwrite_chunk by (done || apply Hrange; lia).
    destruct (Z.eq_dec (seg' * iters + iter') eq) as [He|He].
    + destruct (seg_order seg' seg iter' iter) as [-> ->]; [lia|lia|lia|].
      rewrite !Z.eqb_refl. simpl. destruct Heq' as [|[_ Hf]]; [lia|by apply Hf].
    + assert (Hr' : seg' * iters + iter' < eq) by lia.
      other_chunk H5.
  - intros Hst i Hi. rewrite overwrite_rest by (lia || apply Hrange; lia). by apply H6.
Qed.

(** The PE reduces a received chunk into its destination. *)
Lemma data_compute p cp sq eq d w seg iter :
  is_pe p -> 0 <= seg < n_seg -> 0 <= iter < PE_size - 1 -> cp = seg * iters + iter ->
  cp < eq -> sq <= cp + PE_size -> eq <= sq ->
  data_ok p True cp sq eq d w ->
  data_ok p True (cp + 1) sq eq
    (overwrite d (seg * seg_size + chunk p iter * chunk_size) chunk_size
      (fun j => Calc (w (chunk p iter * chunk_size + j)) (d (index seg (chunk p iter) j)))) w.
Proof.
  intros Hp Hseg Hiter Hcp Heq Hsq Hle [H1 H2 H3 H4 H5 H6].
  assert (Hfar : PE_size <= iters < 2 * PE_size) by (unfold iters; lia).
  assert (Hrange : forall i, 0 <= i < iters -> 0 <= chunk p i < PE_size).
  { intros i Hi. by apply chunk_range. }
  split.
  - intros seg' iter' j Hs Hi Hj Hr. apply H1; try done. lia.
  - intros _ seg' iter' j Hs Hi Hj Hr. rewrite overwrite_chunk by (done || apply Hrange; lia).
    assert (Hr' : cp <= seg' * iters + iter') by lia.
    other_chunk H2.
  - intros _ seg' iter' j Hs Hi Hj Hr Hn. rewrite overwrite_chunk by (done || apply Hrange; lia).
    destruct (Z.eq_dec (seg' * iters + iter') cp) as [He|He].
    + destruct (seg_order seg' seg iter' iter) as [-> ->]; [lia|lia|lia|].
      rewrite !Z.eqb_refl. simpl. rewrite (H1 seg iter j), (H2 I seg iter j) by lia.
      rewrite Z2Nat.inj_add by lia. simpl. rewrite Nat.add_1_r. simpl. f_equal. f_equal.
      rewrite Z2Nat.id by lia. pose proof (Hrange iter ltac:(lia)).
      rewrite mod_turn by lia. unfold is_pe, chunk in *. case_ifs; lia.
    + assert (Hr' : seg' * iters + iter' < cp) by lia.
      other_chunk H3.
  - intros _ seg' j Hs Hj Hr. rewrite overwrite_chunk by (done || apply Hrange; lia).
    other_chunk H4.
  - intros _ seg' iter' j Hs Hi Hj Hr. rewrite overwrite_chunk by (done || apply Hrange; lia).
    other_chunk H5.
  - intros _ i Hi. rewrite overwrite_rest by (lia || apply Hrange; lia). by apply H6.
Qed.

(** The PE completes an iteration of the second loop. *)
Lemma data_advance p st cp sq eq d w seg iter :
  is_pe p -> 0 <= seg < n_seg -> PE_size - 1 <= iter < iters -> cp = seg * iters + iter ->
  data_ok p st cp sq eq d w -> data_ok p st (cp + 1) sq eq d w.
Proof.
  intros Hp Hs Hi Hcp [H1 H2 H3 H4 H5 H6]. split; try done.
  - intros seg' iter' j Hs' Hi' Hj Hr. apply H1; try done. lia.
  - intros Hst seg' iter' j Hs' Hi' Hj Hr. apply H2; try done. lia.
  - intros Hst seg' iter' j Hs' Hi' Hj Hr Hn. apply H3; try done.
    destruct (Z.eq_dec (seg' * iters + iter') cp); [|lia].
    destruct (seg_order seg' seg iter' iter); unfold iters in *; lia.
Qed.

(** The PE copies its source. *)
Lemma data_start p st sq eq d w :
  is_pe p -> eq <= sq -> sq <= PE_size - 1 ->
  data_ok p st 0 sq eq d w -> data_ok p True 0 sq eq (overwrite d 0 nelems (src p)) w.
Proof.
  intros Hp Hle Hsq [H1 _ _ _ _ _].
  assert (Hcopy : forall i, 0 <= i < nelems -> overwrite d 0 nelems (src p) i = src p i).
  { intros i Hi. unfold overwrite. rewrite (proj2 (Z.leb_le 0 i)), (proj2 (Z.ltb_lt i (0 + nelems))) by lia.
    simpl. by rewrite Z.sub_0_r. }
  assert (Hin : forall seg c j, 0 <= seg < n_seg -> 0 <= c < PE_size -> 0 <= j < chunk_size ->
    0 <= index seg c j < nelems).
  { intros seg c j Hs Hc Hj. unfold index. rewrite seg_size_eq in *.
    assert (0 <= seg * (chunk_size * PE_size) <= n_seg * (chunk_size * PE_size) - chunk_size * PE_size) by nia.
    assert (0 <= c * chunk_size <= chunk_size * PE_size - chunk_size) by nia. lia. }
  assert (Hr : forall seg iter, 0 <= seg -> 0 <= iter -> 0 <= seg * iters + iter).
  { unfold iters. nia. }
  split; try done.
  - intros _ seg iter j Hs Hi Hj _. apply Hcopy, Hin; try done. apply chunk_range; unfold iters; lia || done.
  - intros _ seg iter j Hs Hi Hj Hlt. specialize (Hr seg iter). lia.
  - intros _ seg j Hs Hj _. apply Hcopy, Hin; try done. apply chunk_range; unfold iters; lia || done.
  - intros _ seg iter j Hs Hi Hj Hlt. specialize (Hr seg 0). lia.
  - intros _ i Hi. apply Hcopy. rewrite seg_size_eq in *.
    assert (0 <= n_seg * (chunk_size * PE_size)) by nia. lia.
Qed.

(** ** Invariant *)

(** The flag [x] of iteration [i] when the predecessor has sent [f] signals. *)
Definition flag_ok (f i x : Z) : Prop :=
  (f <= i -> x = 0) /\
  (forall k, 0 <= k -> k * iters + i < f <= (k + 1) * iters + i -> x = wait_val k i).

Record inv (s : state) : Prop := {
  inv_pc : forall p, is_pe p -> counter_ok (pc s p);
  inv_order : forall p, is_pe p -> awaited (pc s p) <= signalled (pc s (pred p));
  inv_sync : forall p i, is_pe p -> 0 <= i < iters -> pc s p <> Finished ->
    flag_ok (signalled (pc s (pred p))) i (pSync s p i);
  inv_reset : forall p i, is_pe p -> 0 <= i < iters -> pc s p = Finished -> pSync s p i = 0;
  inv_data : forall p, is_pe p -> unjoined = false ->
    data_ok p (started (pc s p)) (completed (pc s p)) (begun (pc s (pred p))) (ended (pc s (pred p)))
      (dst s p) (pWrk s p)
}.

(** Following the waits round the ring, a PE is at most [PE_size - 1] iterations
    ahead of the one it sends to. *)
Lemma ring_distance s p : inv s -> is_pe p ->
  awaited (pc s (pred p)) <= signalled (pc s p) + PE_size - 2.
Proof.
  intros Hinv Hp.
  set (back := fun (p k : Z) => if k <=? p then p - k else p - k + PE_size).
  assert (Hchain : forall k : nat, (k < Z.to_nat PE_size - 1)%nat -> forall q, is_pe q ->
    awaited (pc s q) <= signalled (pc s (back q (Z.of_nat k + 1))) + Z.of_nat k).
  { induction k as [|k IH]; intros Hk q Hq.
    - pose proof (inv_order s Hinv q Hq) as Ho. replace (back q (Z.of_nat 0 + 1)) with (pred q); [lia|].
      unfold back, pred, is_pe in *. case_ifs; lia.
    - pose proof (inv_order s Hinv q Hq) as Ho. destruct (pred_pe q Hq) as [Hpq _].
      specialize (IH ltac:(lia) (pred q) Hpq). pose proof (passed_order (pc s (pred q))).
      replace (back q (Z.of_nat (S k) + 1)) with (back (pred q) (Z.of_nat k + 1)); [lia|].
      unfold back, pred, is_pe in *. case_ifs; lia. }
  destruct (pred_pe p Hp) as [Hpp _].
  specialize (Hchain (Z.to_nat (PE_size - 2)) ltac:(lia) (pred p) Hpp).
  replace (back (pred p) (Z.of_nat (Z.to_nat (PE_size - 2)) + 1)) with p in Hchain; [lia|].
  unfold back, pred, is_pe in *. case_ifs; lia.
Qed.

(** A step of [a] to the counter [c'] keeps the invariant if it keeps it at [a]
    and at the PE that [a] sends to. *)
Lemma inv_intro a c' s s' :
  inv s -> is_pe a -> pc s' = upd (pc s) a c' -> counter_ok c' ->
  awaited c' <= signalled (pc s (pred a)) -> signalled (pc s a) <= signalled c' ->
  (forall i, 0 <= i < iters -> c' <> Finished -> pSync s' a i = pSync s a i /\ pc s a <> Finished) ->
  (forall i, 0 <= i < iters -> pc s (send_pe a) <> Finished ->
     flag_ok (signalled c') i (pSync s' (send_pe a) i)) ->
  (forall i, 0 <= i < iters -> c' = Finished -> pSync s' a i = 0) ->
  (forall i, 0 <= i < iters -> pc s (send_pe a) = Finished ->
     pSync s' (send_pe a) i = pSync s (send_pe a) i) ->
  (unjoined = false -> data_ok a (started c') (completed c') (begun (pc s (pred a))) (ended (pc s (pred a)))
    (dst s' a) (pWrk s' a)) ->
  (unjoined = false -> data_ok (send_pe a) (started (pc s (send_pe a))) (completed (pc s (send_pe a))) (begun c') (ended c')
    (dst s' (send_pe a)) (pWrk s' (send_pe a))) ->
  (forall p, p <> a -> p <> send_pe a ->
     dst s' p = dst s p /\ pWrk s' p = pWrk s p /\ pSync s' p = pSync s p) ->
  inv s'.
Proof.
  intros [I1 I2 I3 I5 I4] Ha Hpc Hok Hord Hsig Hsa Hst Hra Hrt Hda Hdt Hrest.
  destruct (send_pe_pred a Ha) as [Ht Hpt]. destruct (pred_pe a Ha) as [Hpa Hpne].
  assert (Htne : send_pe a <> a) by (intros He; rewrite He in Hpt; done).
  assert (Hpred : forall p, is_pe p -> p <> send_pe a -> pred p <> a).
  { intros p Hp Hne He. apply Hne. symmetry. by apply send_pe_eq. }
  split; intros p; rewrite Hpc.
  - intros Hp. destruct (Z.eq_dec p a) as [->|]; [by rewrite upd_eq|rewrite upd_ne by done; by apply I1].
  - intros Hp. destruct (Z.eq_dec p a) as [->|Hne]; [by rewrite upd_eq, upd_ne|].
    rewrite (upd_ne _ _ p) by done. destruct (Z.eq_dec p (send_pe a)) as [->|Hnt].
    + rewrite Hpt, upd_eq. specialize (I2 (send_pe a) Ht). rewrite Hpt in I2. lia.
    + rewrite upd_ne by (by apply Hpred). by apply I2.
  - intros i Hp Hi. destruct (Z.eq_dec p a) as [->|Hne].
    + rewrite upd_eq, upd_ne by done. intros Hnf. destruct (Hsa i Hi Hnf) as [-> ?]. by apply I3.
    + rewrite (upd_ne _ _ p) by done. intros Hnf. destruct (Z.eq_dec p (send_pe a)) as [->|Hnt].
      * rewrite Hpt, upd_eq. by apply Hst.
      * rewrite upd_ne by (by apply Hpred). destruct (Hrest p Hne Hnt) as (_ & _ & ->). by apply I3.
  - intros i Hp Hi. destruct (Z.eq_dec p a) as [->|Hne]; [rewrite upd_eq; by apply Hra|].
    rewrite upd_ne by done. intros Hf. destruct (Z.eq_dec p (send_pe a)) as [->|Hnt].
    + rewrite Hrt by done. by apply I5.
    + destruct (Hrest p Hne Hnt) as (_ & _ & ->). by apply I5.
  - intros Hp. destruct (Z.eq_dec p a) as [->|Hne]; [by rewrite upd_eq, upd_ne|].
    rewrite (upd_ne _ _ p) by done. destruct (Z.eq_dec p (send_pe a)) as [->|Hnt].
    + by rewrite Hpt, upd_eq.
    + rewrite upd_ne by (by apply Hpred). destruct (Hrest p Hne Hnt) as (-> & -> & _). by apply I4.
Qed.

(** What a PE sends: the chunk with the contributions of the PEs it has passed. *)
Lemma sent_value s a seg iter j :
  inv s -> unjoined = false -> is_pe a -> pc s a = At seg iter PutDone -> 0 <= j < chunk_size ->
  sent a seg iter s j =
  ring_value (chunk (send_pe a) iter) (Z.to_nat (Z.min iter (PE_size - 1)))
    (index seg (chunk (send_pe a) iter) j).
Proof.
  intros Hinv Hjoin Ha Hpc Hj. pose proof (inv_pc s Hinv a Ha) as Hok. rewrite Hpc in Hok.
  destruct Hok as (Hs & Hi & _). unfold sent. rewrite off_send_chunk by done.
  replace (chunk (send_pe a) iter * chunk_size + seg * seg_size + j) with
    (index seg (chunk (send_pe a) iter) j) by (unfold index; lia).
  pose proof (inv_data s Hinv a Ha Hjoin) as [_ _ H3 H4 H5 _]. pose proof (inv_order s Hinv a Ha) as Ho.
  pose proof (ring_distance s a Hinv Ha) as Hd. pose proof (passed_order (pc s (pred a))) as Hpo.
  rewrite Hpc in *. unfold passed in Ho at 1. unfold passed in Hd at 2. simpl in Ho, Hd.
  cbn [completed] in H3. rewrite chunk_send by done.
  destruct (Z.eqb_spec iter 0) as [->|Hne].
  { rewrite H4 by (done || lia). rewrite Z.min_l by lia. simpl. f_equal.
    rewrite mod_turn by (unfold is_pe, chunk in *; case_ifs; lia).
    unfold is_pe, chunk in *. case_ifs; lia. }
  destruct (Z.le_gt_cases iter (PE_size - 1)) as [Hl|Hg].
  - rewrite H3 by (done || lia). rewrite Z.min_l by lia. do 2 f_equal. lia.
  - rewrite H5 by (done || lia). by rewrite Z.min_r by lia.
Qed.



Lemma put_step a seg iter ph ph' f s :
  inv s -> is_pe a -> pc s a = At seg iter ph ->
  (ph = PutBegin /\ ph' = PutDone) \/ (ph = Racing /\ ph' = Await) \/
  (ph = PutDone /\ ph' = Signal /\ forall j, unjoined = false -> 0 <= j < chunk_size ->
     f j = ring_value (chunk (send_pe a) iter) (Z.to_nat (Z.min iter (PE_size - 1)))
             (index seg (chunk (send_pe a) iter) j)) ->
  inv (goto a (At seg iter ph') (put a seg iter f s)).
Proof.
  intros Hinv Ha Hpc Hph. pose proof (inv_pc s Hinv a Ha) as Hok. rewrite Hpc in Hok.
  destruct Hok as (Hs & Hi & _ & Hrace). destruct (send_pe_pred a Ha) as [Ht Hpt].
  assert (Htne : send_pe a <> a) by (intros He; rewrite He in Hpt; by apply (pred_pe a)).
  pose proof (ring_distance s (send_pe a) Hinv Ht) as Hd. rewrite Hpt, Hpc in Hd.
  pose proof (passed_order (pc s (send_pe a))) as Hpo.
  pose proof (inv_order s Hinv a Ha) as Ho. rewrite Hpc in Ho.
  pose proof (inv_data s Hinv a Ha) as Hda. rewrite Hpc in Hda.
  pose proof (inv_data s Hinv _ Ht) as Hdt. rewrite Hpt, Hpc in Hdt.
  assert (Hsync : forall i, 0 <= i < iters -> pc s (send_pe a) <> Finished ->
    flag_ok (signalled (At seg iter ph)) i (pSync s (send_pe a) i)).
  { intros i Hi' Hn. pose proof (inv_sync s Hinv _ i Ht Hi' Hn) as H. by rewrite Hpt, Hpc in H. }
  assert (Hfar : PE_size <= iters) by (unfold iters; lia).
  assert (Hsame : signalled (At seg iter ph') = signalled (At seg iter ph) /\
    awaited (At seg iter ph') = awaited (At seg iter ph)).
  { by destruct Hph as [[-> ->]|[[-> ->]|(-> & -> & _)]]. }
  assert (Hok : counter_ok (At seg iter ph')).
  { split_and!; try lia; by destruct Hph as [[-> ->]|[[-> ->]|(-> & -> & _)]]. }
  unfold put. rewrite off_send_chunk by done. destruct (Z.ltb_spec iter (PE_size - 1)) as [Hl|Hl];
    (apply (inv_intro a (At seg iter ph') s); simpl pc; simpl dst; simpl pWrk; simpl pSync; try done;
     [destruct Hsame; lia|rewrite Hpc; destruct Hsame; lia|by rewrite Hpc|by rewrite (proj1 Hsame)| | |]).
  - unfold write. rewrite (proj2 (Z.eqb_neq a _)) by done. done.
  - intros Hj. unfold write at 1. rewrite Z.eqb_refl.
    destruct Hph as [[-> ->]|[[-> ->]|(-> & -> & Hf)]]; [|by rewrite Hrace in Hj|];
      (eapply data_work; [done|exact Hs|lia| | | | | |exact (Hdt Hj)]);
      unfold passed in *; simpl in *; try lia.
    right. split; [lia|]. intros x Hx. rewrite Hf by done. by rewrite Z.min_l by lia.
  - intros p Hp Hpne. unfold write. by rewrite (proj2 (Z.eqb_neq p _)).
  - unfold write at 1. rewrite (proj2 (Z.eqb_neq a _)) by done. done.
  - intros Hj. unfold write at 1. rewrite Z.eqb_refl, Z.add_comm.
    destruct Hph as [[-> ->]|[[-> ->]|(-> & -> & Hf)]]; [|by rewrite Hrace in Hj|];
      (eapply data_dst; [done|exact Hs|lia| | | | | |exact (Hdt Hj)]);
      unfold passed in *; simpl in *; try lia.
    right. split; [lia|]. intros x Hx. rewrite Hf by done. by rewrite Z.min_r by lia.
  - intros p Hp Hpne. unfold write. by rewrite (proj2 (Z.eqb_neq p _)).
Qed.

Lemma wait_val_pos seg iter : 0 <= seg -> 0 < wait_val seg iter.
Proof. unfold wait_val. case_ifs. Qed.

(** A flag with the expected value has been sent. *)
Lemma flag_sent f i x seg : 0 <= i < iters -> 0 <= seg -> flag_ok f i x -> x = wait_val seg i ->
  seg * iters + i < f.
Proof.
  intros Hi Hs [H0 H1] ->. destruct (Z.lt_ge_cases (seg * iters + i) f) as [|Hge]; [done|].
  pose proof (wait_val_pos seg i Hs) as Hpos.
  destruct (Z.le_gt_cases f i) as [Hle|Hgt]; [specialize (H0 Hle); lia|].
  set (k := (f - 1 - i) / iters). pose proof (Z.div_mod (f - 1 - i) iters ltac:(lia)) as Hdm.
  pose proof (Z.mod_pos_bound (f - 1 - i) iters ltac:(lia)) as Hm. fold k in Hdm.
  assert (Hk : 0 <= k) by (apply Z.div_pos; lia).
  specialize (H1 k Hk ltac:(lia)). unfold wait_val in H1. assert (k < seg) by nia. case_ifs_in H1.
Qed.

(** Sending the next flag. *)
Lemma flag_send seg iter i x :
  0 <= seg -> 0 <= iter < iters -> 0 <= i < iters -> flag_ok (seg * iters + iter) i x ->
  flag_ok (seg * iters + iter + 1) i (if i =? iter then wait_val seg iter else x).
Proof.
  intros Hs Hiter Hi [H0 H1]. assert (0 <= seg * iters) by nia.
  destruct (Z.eqb_spec i iter) as [->|Hne].
  - split; [lia|]. intros k Hk Hr. f_equal. assert (k = seg) by nia. done.
  - split; [intros; apply H0; lia|]. intros k Hk Hr. apply H1; [done|].
    destruct (Z.eq_dec (k * iters + i) (seg * iters + iter)) as [He|]; [|lia].
    destruct (seg_order k seg i iter); lia.
Qed.

Lemma signal_step a seg iter ph ph' s :
  inv s -> is_pe a -> pc s a = At seg iter ph ->
  (ph = Signal /\ ph' = Await) \/ (ph = PutDone /\ ph' = Racing /\ unjoined = true) ->
  inv (goto a (At seg iter ph') (signal a seg iter s)).
Proof.
  intros Hinv Ha Hpc Hph. pose proof (inv_pc s Hinv a Ha) as Hok. rewrite Hpc in Hok.
  destruct (send_pe_pred a Ha) as [Ht Hpt].
  assert (Htne : send_pe a <> a) by (intros He; rewrite He in Hpt; by apply (pred_pe a)).
  pose proof (inv_order s Hinv a Ha) as Ho. rewrite Hpc in Ho.
  pose proof (inv_data s Hinv a Ha) as Hda. rewrite Hpc in Hda.
  pose proof (inv_data s Hinv _ Ht) as Hdt. rewrite Hpt, Hpc in Hdt.
  assert (Hold : signalled (At seg iter ph) = seg * iters + iter) by (unfold passed; destruct Hph as [[-> _]|[-> _]]; simpl; lia).
  assert (Hnew : signalled (At seg iter ph') = seg * iters + iter + 1) by (unfold passed; destruct Hph as [[_ ->]|(_ & -> & _)]; simpl; lia).
  unfold signal. apply (inv_intro a (At seg iter ph') s); simpl pc; simpl dst; simpl pWrk; simpl pSync; try done.
  - destruct Hok as (? & ? & _). simpl. split_and!; try lia; by destruct Hph as [[_ ->]|(_ & -> & ?)].
  - by destruct Hph as [[-> ->]|(-> & -> & _)].
  - rewrite Hpc, Hold, Hnew. lia.
  - intros i Hi _. unfold write. by rewrite (proj2 (Z.eqb_neq a _)), Hpc.
  - intros i Hi Hn. pose proof (inv_sync s Hinv _ i Ht Hi Hn) as H. rewrite Hpt, Hpc in H.
    destruct Hok as (? & ? & _). rewrite Hold in H. rewrite Hnew. apply (flag_send seg iter i) in H; [|lia..]. unfold write, overwrite. rewrite Z.eqb_refl.
    replace ((iter <=? i) && (i <? iter + 1)) with (i =? iter) by lia. done.
  - intros i Hi Hf. exfalso. pose proof (inv_order s Hinv _ Ht) as H. rewrite Hpt, Hpc, Hf, Hold in H.
    unfold passed in H. simpl in H. destruct Hok as (? & ? & _).
    assert (seg * iters + iters <= n_seg * iters) by nia. lia.
  - intros Hj. specialize (Hdt Hj). destruct Hph as [[-> ->]|(_ & _ & Hu)]; [exact Hdt|by rewrite Hu in Hj].
  - intros p Hp Hpne. unfold write. by rewrite (proj2 (Z.eqb_neq p _)).
Qed.

Lemma await_step a seg iter s :
  inv s -> is_pe a -> pc s a = At seg iter Await -> pSync s a iter = wait_val seg iter ->
  inv (goto a (if iter <? PE_size - 1 then At seg iter Compute else next seg iter) s).
Proof.
  intros Hinv Ha Hpc Hflag. pose proof (inv_pc s Hinv a Ha) as Hok. rewrite Hpc in Hok.
  destruct Hok as (Hs & Hi & _). destruct (send_pe_pred a Ha) as [Ht Hpt].
  pose proof (inv_sync s Hinv a iter Ha Hi ltac:(by rewrite Hpc)) as Hf.
  apply (flag_sent _ _ _ seg Hi ltac:(lia)) in Hf; [|done].
  pose proof (inv_data s Hinv a Ha) as Hda. rewrite Hpc in Hda.
  pose proof (inv_data s Hinv _ Ht) as Hdt. rewrite Hpt, Hpc in Hdt.
  assert (Hst : forall i, 0 <= i < iters -> pc s (send_pe a) <> Finished ->
    flag_ok (seg * iters + iter + 1) i (pSync s (send_pe a) i)).
  { intros i Hi' Hn. pose proof (inv_sync s Hinv _ i Ht Hi' Hn) as H. by rewrite Hpt, Hpc in H. }
  destruct (Z.ltb_spec iter (PE_size - 1)) as [Hl|Hl].
  - apply (inv_intro a (At seg iter Compute) s); simpl pc; simpl dst; simpl pWrk; simpl pSync; try done.
    + unfold passed at 1. simpl. lia.
    + by rewrite Hpc.
    + by rewrite Hpc.
  - destruct (completed_next seg iter Hs Hi) as (Hcok & Hc & Hrk & Hstart & Hnf).
    assert (Hp : forall k, 1 <= k -> passed k (next seg iter) = seg * iters + iter + 1).
    { intros k Hk. unfold passed. rewrite Hc, Hrk. case_ifs. }
    apply (inv_intro a (next seg iter) s); simpl pc; simpl dst; simpl pWrk; simpl pSync; try done;
      rewrite ?Hp by lia; try lia; try done.
    + rewrite Hpc. unfold passed. simpl. lia.
    + by rewrite Hpc.
    + rewrite Hc. assert (started (next seg iter) = True) as -> by (by destruct (next seg iter)).
      intros Hj. apply (data_advance a True _ _ _ _ _ seg iter); [done|done|lia|done|exact (Hda Hj)].
Qed.

Lemma compute_step a seg iter s :
  inv s -> is_pe a -> pc s a = At seg iter Compute ->
  inv (goto a (next seg iter) (mkState
    (write (dst s) a (seg * seg_size + off_recv a iter) chunk_size
       (fun j => Calc (pWrk s a (off_recv a iter + j)) (dst s a (seg * seg_size + off_recv a iter + j))))
    (pWrk s) (pSync s) (pc s))).
Proof.
  intros Hinv Ha Hpc. pose proof (inv_pc s Hinv a Ha) as Hok. rewrite Hpc in Hok.
  destruct Hok as (Hs & Hi & Hl & _). specialize (Hl eq_refl). destruct (send_pe_pred a Ha) as [Ht Hpt].
  assert (Htne : send_pe a <> a) by (intros He; rewrite He in Hpt; by apply (pred_pe a)).
  pose proof (inv_order s Hinv a Ha) as Ho. rewrite Hpc in Ho.
  pose proof (ring_distance s a Hinv Ha) as Hd. rewrite Hpc in Hd.
  pose proof (passed_order (pc s (pred a))) as Hpo.
  pose proof (inv_data s Hinv a Ha) as Hda. rewrite Hpc in Hda.
  pose proof (inv_data s Hinv _ Ht) as Hdt. rewrite Hpt, Hpc in Hdt.
  destruct (completed_next seg iter Hs Hi) as (Hcok & Hc & Hrk & Hstart & Hnf).
  assert (Hp : forall k, 1 <= k -> passed k (next seg iter) = seg * iters + iter + 1).
  { intros k Hk. unfold passed. rewrite Hc, Hrk. case_ifs. }
  rewrite off_recv_chunk by done.
  apply (inv_intro a (next seg iter) s); simpl pc; simpl dst; simpl pWrk; simpl pSync; try done;
    rewrite ?Hp by lia; try lia; try done.
  - rewrite Hpc. unfold passed. simpl. lia.
  - by rewrite Hpc.
  - intros i Hi' Hn. pose proof (inv_sync s Hinv _ i Ht Hi' Hn) as H. by rewrite Hpt, Hpc in H.
  - rewrite Hc. assert (started (next seg iter) = True) as -> by (by destruct (next seg iter)).
    intros Hj. specialize (Hda Hj). unfold write at 1. rewrite Z.eqb_refl. unfold passed in Ho at 1. unfold passed in Hd at 2. simpl in *.
    apply (data_compute a _ _ _ _ _ seg iter); [done|exact Hs|lia|done|lia|lia|lia|exact Hda].
  - unfold write. by rewrite (proj2 (Z.eqb_neq _ a)).
  - intros p Hpne _. unfold write. by rewrite (proj2 (Z.eqb_neq p a)).
Qed.

Lemma start_step a s :
  inv s -> is_pe a -> pc s a = Idle ->
  inv (goto a (enter 0 0)
    (mkState (write (dst s) a 0 nelems (src a)) (pWrk s) (pSync s) (pc s))).
Proof.
  intros Hinv Ha Hpc. destruct (send_pe_pred a Ha) as [Ht Hpt].
  assert (Htne : send_pe a <> a) by (intros He; rewrite He in Hpt; by apply (pred_pe a)).
  pose proof (inv_order s Hinv a Ha) as Ho. rewrite Hpc in Ho.
  pose proof (ring_distance s a Hinv Ha) as Hd. rewrite Hpc in Hd.
  pose proof (passed_order (pc s (pred a))) as Hpo.
  pose proof (inv_data s Hinv a Ha) as Hda. rewrite Hpc in Hda.
  pose proof (inv_data s Hinv _ Ht) as Hdt. rewrite Hpt, Hpc in Hdt.
  destruct (completed_enter 0 0) as (Hcok & Hc & Hrk & Hstart & Hnf); try (unfold iters; lia).
  assert (Hp : forall k, 1 <= k -> passed k (enter 0 0) = 0).
  { intros k Hk. unfold passed. rewrite Hc, Hrk. case_ifs. }
  apply (inv_intro a (enter 0 0) s); simpl pc; simpl dst; simpl pWrk; simpl pSync; try done;
    rewrite ?Hp by lia; try done.
  - by rewrite Hpc.
  - by rewrite Hpc.
  - intros i Hi Hn. pose proof (inv_sync s Hinv _ i Ht Hi Hn) as H. by rewrite Hpt, Hpc in H.
  - rewrite Hc. assert (started (enter 0 0) = True) as -> by (by destruct (enter 0 0)).
    intros Hj. unfold write. rewrite Z.eqb_refl. unfold passed in Hd at 2. simpl in Hd.
    apply (data_start a False); [done|lia|lia|exact (Hda Hj)].
  - unfold write. by rewrite (proj2 (Z.eqb_neq _ a)).
  - intros p Hpne _. unfold write. by rewrite (proj2 (Z.eqb_neq p a)).
Qed.

Lemma reset_step a s :
  inv s -> is_pe a -> pc s a = Resetting ->
  inv (goto a Finished (mkState (dst s) (pWrk s) (write (pSync s) a 0 iters (fun _ => 0)) (pc s))).
Proof.
  intros Hinv Ha Hpc. destruct (send_pe_pred a Ha) as [Ht Hpt].
  assert (Htne : send_pe a <> a) by (intros He; rewrite He in Hpt; by apply (pred_pe a)).
  pose proof (inv_order s Hinv a Ha) as Ho. rewrite Hpc in Ho.
  pose proof (inv_data s Hinv a Ha) as Hda. rewrite Hpc in Hda.
  pose proof (inv_data s Hinv _ Ht) as Hdt. rewrite Hpt, Hpc in Hdt.
  apply (inv_intro a Finished s); simpl pc; simpl dst; simpl pWrk; simpl pSync; try done.
  - by rewrite Hpc.
  - intros i Hi Hn. unfold write. rewrite (proj2 (Z.eqb_neq _ a)) by done.
    pose proof (inv_sync s Hinv _ i Ht Hi Hn) as H. by rewrite Hpt, Hpc in H.
  - intros i Hi _. unfold write, overwrite. rewrite Z.eqb_refl.
    by replace ((0 <=? i) && (i <? 0 + iters)) with true by lia.
  - intros i Hi _. unfold write. by rewrite (proj2 (Z.eqb_neq _ a)).
  - intros p Hpne _. unfold write. by rewrite (proj2 (Z.eqb_neq p a)).
Qed.

Lemma ring_exec_inv junk a s s' : inv s -> is_pe a -> exec junk a s = Some s' -> inv s'.
Proof.
  intros Hinv Ha. unfold exec. destruct (pc s a) as [|seg iter ph| |] eqn:Hpc.
  - intros [= <-]. by apply start_step.
  - destruct ph.
    + intros [= <-]. eapply put_step; [done|done|done|]. by left.
    + intros [= <-]. eapply put_step; [done|done|done|]. do 2 right. split_and!; [done|done|].
      intros j Hj Hx. by apply sent_value.
    + intros [= <-]. eapply signal_step; [done|done|done|]. by left.
    + intros [= <-]. eapply put_step; [done|done|done|]. right. by left.
    + destruct (Z.eqb_spec (pSync s a iter) (wait_val seg iter)) as [He|]; [|done].
      intros [= <-]. by apply await_step.
    + intros [= <-]. by apply compute_step.
  - intros [= <-]. by apply reset_step.
  - done.
Qed.

Lemma ring_early_inv a s s' : inv s -> is_pe a -> exec_early a s = Some s' -> inv s'.
Proof.
  intros Hinv Ha. unfold exec_early. destruct (pc s a) as [|seg iter []| |] eqn:Hpc; try done.
  destruct unjoined eqn:Hu; [|done]. destruct (_ <=? _); [|done]. intros [= <-].
  eapply signal_step; [done|done|done|]. by right.
Qed.

Lemma ring_step_inv s s' : inv s -> step s s' -> inv s'.
Proof. intros Hinv [junk p x Hp He|p x Hp He]; [by eapply ring_exec_inv|by eapply ring_early_inv]. Qed.

Lemma initial_inv s : initial s -> inv s.
Proof.
  intros [Hpc Hsync].
  split; intros p; [intros Hp|intros Hp|intros i Hp Hi _|intros i Hp Hi|intros Hp]; destruct (pred_pe p Hp) as [Hq _];
    rewrite ?(Hpc p Hp), ?(Hpc _ Hq); try done.
  - rewrite (Hsync p i Hp Hi). split; [done|]. unfold passed. simpl. intros k Hk Hr. nia.
  - split; try done. unfold passed. simpl. intros seg iter j Hs Hi Hj Hr. unfold iters in *. nia.
Qed.

Lemma reachable_inv_ring s s' : initial s -> rtc step s s' -> inv s'.
Proof.
  intros Hi Hr. eapply (rtc_invariant step inv); [|exact Hr|by apply initial_inv].
  exact ring_step_inv.
Qed.

(** ** Termination *)

(** Steps made within an iteration. *)
Definition stage (c : counter) : Z := match c with At _ _ Racing => 2 | _ => rank c end.

(** Steps a PE has made. *)
Definition work (c : counter) : Z :=
  match c with
  | Idle => 0
  | At _ _ _ | Resetting => 1 + 5 * completed c + stage c
  | Finished => 2 + 5 * (n_seg * iters)
  end.

Definition pes : list Z := seqZ 0 PE_size.

Definition total_work (s : state) : Z := foldr Z.add 0 ((fun p => work (pc s p)) <$> pes).

Lemma work_bound c : counter_ok c -> 0 <= work c <= 2 + 5 * (n_seg * iters).
Proof.
  assert (0 <= n_seg * iters) by (unfold iters; nia).
  destruct c as [|seg iter ph| |]; simpl; try lia. intros (Hs & Hi & _).
  assert (0 <= seg * iters /\ seg * iters + iters <= n_seg * iters) by nia.
  destruct ph; lia.
Qed.

Lemma put_pc a seg iter f s : pc (put a seg iter f s) = pc s.
Proof. unfold put. by destruct (iter <? PE_size - 1). Qed.

Lemma exec_work junk a s s' : inv s -> is_pe a -> exec junk a s = Some s' ->
  exists c', pc s' = upd (pc s) a c' /\ work (pc s a) + 1 <= work c'.
Proof.
  intros Hinv Ha. pose proof (inv_pc s Hinv a Ha) as Hok. unfold exec.
  assert (Hw : forall c, started c -> c <> Finished -> rank c = 0 -> work c = 1 + 5 * completed c).
  { intros [|? ? []| |] ? ? Hr; simpl in *; lia || done. }
  destruct (pc s a) as [|seg iter ph| |] eqn:Hpc.
  - intros [= <-]. eexists. split; [done|].
    destruct (completed_enter 0 0) as (_ & Hc & Hrk & Hst & Hnf); try (unfold iters; lia).
    rewrite (Hw (enter 0 0)), Hc by done. simpl. lia.
  - destruct Hok as (Hs & Hi & _).
    destruct (completed_next seg iter Hs Hi) as (_ & Hc & Hrk & Hst & Hnf).
    destruct ph; [| | | |destruct (_ =? _); [|done]|]; intros [= <-]; eexists;
      (split; [unfold goto; cbn [pc]; by rewrite ?put_pc|]); simpl; try lia.
    + destruct (iter <? PE_size - 1); [simpl; lia|]. rewrite (Hw (next seg iter)), Hc by done. lia.
    + rewrite (Hw (next seg iter)), Hc by done. lia.
  - intros [= <-]. eexists. split; [done|]. simpl. lia.
  - done.
Qed.

Lemma early_work a s s' : exec_early a s = Some s' ->
  exists c', pc s' = upd (pc s) a c' /\ work (pc s a) + 1 <= work c'.
Proof.
  unfold exec_early. destruct (pc s a) as [|seg iter []| |]; try done. destruct (_ && _); [|done].
  intros [= <-]. eexists. split; [done|]. simpl. lia.
Qed.

Lemma step_work s s' : inv s -> step s s' ->
  exists a c', is_pe a /\ pc s' = upd (pc s) a c' /\ work (pc s a) + 1 <= work c'.
Proof.
  intros Hinv [junk p x Hp He|p x Hp He]; exists p;
    [destruct (exec_work _ _ _ _ Hinv Hp He) as (c & ?)|destruct (early_work _ _ _ He) as (c & ?)]; by exists c.
Qed.

Lemma sum_set (f : Z -> counter) a c l :
  NoDup l -> a ∈ l ->
  foldr Z.add 0 ((fun p => work (upd f a c p)) <$> l) =
  foldr Z.add 0 ((fun p => work (f p)) <$> l) - work (f a) + work c.
Proof.
  induction l as [|p l IH]; [by intros _ ?%elem_of_nil|]. intros [Hn Hnd]%NoDup_cons Hin.
  rewrite !fmap_cons. cbn [foldr]. destruct (Z.eq_dec p a) as [->|Hne].
  - rewrite upd_eq. assert (Hrest : (fun p => work (upd f a c p)) <$> l = (fun p => work (f p)) <$> l).
    { apply list_fmap_ext. intros i x Hx. rewrite upd_ne; [done|]. intros ->. apply Hn.
      by eapply list_elem_of_lookup_2. }
    rewrite Hrest. lia.
  - rewrite upd_ne by done. apply elem_of_cons in Hin as [|Hin]; [done|]. rewrite IH by done. lia.
Qed.

Lemma pes_elem p : p ∈ pes <-> is_pe p.
Proof. unfold pes, is_pe. rewrite elem_of_seqZ. lia. Qed.

Lemma step_total s s' : inv s -> step s s' -> total_work s + 1 <= total_work s'.
Proof.
  intros Hinv Hs. destruct (step_work _ _ Hinv Hs) as (a & c' & Ha & Hpc & Hw).
  unfold total_work. rewrite Hpc, sum_set; [lia|apply NoDup_seqZ|by apply pes_elem].
Qed.

Lemma sum_bound (f : Z -> Z) B l : (forall p, p ∈ l -> 0 <= f p <= B) ->
  0 <= foldr Z.add 0 (f <$> l) <= Z.of_nat (length l) * B.
Proof.
  induction l as [|p l IH]; intros Hall; [simpl; lia|]. rewrite fmap_cons. cbn [foldr length].
  pose proof (IH ltac:(intros q Hq; apply Hall; by right)).
  specialize (Hall p ltac:(by left)). lia.
Qed.

Lemma total_bound s : inv s -> 0 <= total_work s <= PE_size * (2 + 5 * (n_seg * iters)).
Proof.
  intros Hinv. assert (Hl : Z.of_nat (length pes) = PE_size) by (unfold pes; rewrite length_seqZ; lia).
  rewrite <- Hl. apply sum_bound. intros p Hp. apply work_bound, Hinv. by apply pes_elem.
Qed.

Lemma run_bounded s s' k : initial s -> nsteps step k s s' ->
  Z.of_nat k <= PE_size * (2 + 5 * (n_seg * iters)).
Proof.
  intros Hi Hr.
  assert (Hk : forall k x y, inv x -> nsteps step k x y -> total_work x + Z.of_nat k <= total_work y /\ inv y).
  { clear s s' k Hi Hr. induction k as [|k IH]; intros x y Hx Hr; inversion Hr as [|? ? z ? Hs Hr']; subst; [by split; [lia|]|].
    assert (Hz : inv z) by (by eapply ring_step_inv). pose proof (step_total x z Hx Hs).
    destruct (IH z y Hz Hr'). split; [lia|done]. }
  destruct (Hk k s s' (initial_inv s Hi) Hr) as [Hle Hinv].
  pose proof (total_bound _ Hinv). pose proof (total_bound _ (initial_inv s Hi)). lia.
Qed.

(** ** Progress *)

Definition waiting (c : counter) : Prop := exists seg iter, c = At seg iter Await.

Lemma exec_blocked junk a s : exec junk a s = None -> waiting (pc s a) \/ pc s a = Finished.
Proof.
  unfold exec. destruct (pc s a) as [|seg iter ph| |] eqn:Hpc; try done; [|by right].
  destruct ph; try done. intros _. left. by exists seg, iter.
Qed.

(** A PE whose flag has been sent goes on. *)
Lemma await_enabled junk s a seg iter :
  inv s -> is_pe a -> pc s a = At seg iter Await -> seg * iters + iter < signalled (pc s (pred a)) ->
  exists s', exec junk a s = Some s'.
Proof.
  intros Hinv Ha Hpc Hlt. pose proof (inv_pc s Hinv a Ha) as Hok. rewrite Hpc in Hok.
  destruct Hok as (Hs & Hi & _).
  destruct (inv_sync s Hinv a iter Ha Hi ltac:(by rewrite Hpc)) as [_ Hf].
  pose proof (ring_distance s a Hinv Ha) as Hd. rewrite Hpc in Hd. unfold passed in Hd at 2. simpl in Hd.
  pose proof (passed_order (pc s (pred a))) as Hpo.
  unfold exec. rewrite Hpc, (Hf seg) by (unfold iters in *; lia). rewrite Z.eqb_refl. by eexists.
Qed.

(** Some PE among the waiting ones has completed the fewest iterations. *)
Lemma least_waiting s l : l <> [] -> exists a, a ∈ l /\ forall p, p ∈ l -> completed (pc s a) <= completed (pc s p).
Proof.
  induction l as [|p l IH]; [done|]. intros _. destruct l as [|q l].
  - exists p. split; [by left|]. intros x [->|?%elem_of_nil]%elem_of_cons; [lia|done].
  - destruct (IH ltac:(done)) as (a & Hin & Hmin).
    destruct (Z.le_gt_cases (completed (pc s p)) (completed (pc s a))) as [Hle|Hgt].
    + exists p. split; [by left|]. intros x [->|Hx]%elem_of_cons; [lia|]. specialize (Hmin x Hx). lia.
    + exists a. split; [by right|]. intros x [->|Hx]%elem_of_cons; [lia|by apply Hmin].
Qed.

Lemma ring_progress junk s : inv s -> ~ finished s -> exists p s', is_pe p /\ exec junk p s = Some s'.
Proof.
  intros Hinv Hnf.
  destruct (decide (Exists (fun p => is_Some (exec junk p s)) pes)) as [He|Hno].
  { apply Exists_exists in He as (p & Hp & s' & He). exists p, s'. split; [by apply pes_elem|done]. }
  exfalso.
  assert (Hall : forall p, is_pe p -> waiting (pc s p) \/ pc s p = Finished).
  { intros p Hp. apply (exec_blocked junk). destruct (exec junk p s) eqn:He; [|done]. exfalso.
    apply Hno. apply Exists_exists. exists p. split; [by apply pes_elem|by eexists]. }
  destruct (least_waiting s pes) as (a & Hin & Hmin).
  { unfold pes. intros H. apply (f_equal length) in H. rewrite length_seqZ in H. simpl in H. lia. }
  apply pes_elem in Hin. destruct (Hall a Hin) as [(seg & iter & Hpc)|Hf].
  - pose proof (inv_pc s Hinv a Hin) as Hok. rewrite Hpc in Hok. destruct Hok as (Hs & Hi & _).
    destruct (pred_pe a Hin) as [Hq _].
    assert (Hlt : seg * iters + iter < signalled (pc s (pred a))).
    { specialize (Hmin (pred a) ltac:(by apply pes_elem)). rewrite Hpc in Hmin. simpl in Hmin.
      destruct (Hall _ Hq) as [(seg' & iter' & Hpq)|Hf]; [rewrite Hpq in *; unfold passed; simpl in *; lia|].
      rewrite Hf. unfold passed. simpl. assert (seg * iters + iters <= n_seg * iters) by nia. lia. }
    destruct (await_enabled junk s a seg iter Hinv Hin Hpc Hlt) as [s' He]. apply Hno.
    apply Exists_exists. exists a. split; [by apply pes_elem|by eexists].
  - apply Hnf. intros p Hp. destruct (Hall p Hp) as [(seg & iter & Hpc)|]; [|done].
    specialize (Hmin p ltac:(by apply pes_elem)). rewrite Hf, Hpc in Hmin. simpl in Hmin.
    pose proof (inv_pc s Hinv p Hp) as Hok. rewrite Hpc in Hok. destruct Hok as (Hs & Hi & _).
    assert (seg * iters + iters <= n_seg * iters) by nia. lia.
Qed.

(** ** Results *)

Lemma index_of i : 0 <= i < n_seg * seg_size ->
  exists j, 0 <= i / seg_size < n_seg /\ 0 <= (i mod seg_size) / chunk_size < PE_size /\
    0 <= j < chunk_size /\ i = index (i / seg_size) ((i mod seg_size) / chunk_size) j.
Proof.
  intros Hi. exists ((i mod seg_size) mod chunk_size). rewrite seg_size_eq in *.
  assert (Hss : 0 < chunk_size * PE_size) by nia.
  pose proof (Z.div_mod i (chunk_size * PE_size) ltac:(lia)) as H1.
  pose proof (Z.mod_pos_bound i _ Hss) as H2. set (m := i mod (chunk_size * PE_size)) in *.
  pose proof (Z.div_mod m chunk_size ltac:(lia)) as H3.
  pose proof (Z.mod_pos_bound m _ chunk_pos) as H4.
  split_and!; try lia.
  - apply Z.div_pos; lia.
  - apply Z.div_lt_upper_bound; lia.
  - apply Z.div_pos; lia.
  - apply Z.div_lt_upper_bound; lia.
  - unfold index. rewrite seg_size_eq. lia.
Qed.

Lemma final_value s p i : inv s -> unjoined = false -> is_pe p -> pc s p = Finished -> 0 <= i < n_seg * seg_size ->
  dst s p i = ring_result i.
Proof.
  intros Hinv Hj' Hp Hfin Hi. destruct (index_of i Hi) as (j & Hs & Hc & Hj & He). unfold ring_result.
  set (seg := i / seg_size) in *. set (c := (i mod seg_size) / chunk_size) in *.
  pose proof (inv_data s Hinv p Hp Hj') as [_ _ H3 _ H5 _].
  assert (Hended : n_seg * iters <= ended (pc s (pred p))).
  { pose proof (inv_order s Hinv p Hp) as Ho. pose proof (passed_order (pc s (pred p))).
    rewrite Hfin in Ho. unfold passed in Ho at 1. simpl in Ho. lia. }
  rewrite Hfin in *. simpl in *.
  assert (Hb0 : (seg + 1) * iters <= n_seg * iters) by (apply Z.mul_le_mono_nonneg_r; unfold iters; lia).
  assert (Hb : forall iter, iter < iters -> seg * iters + iter < n_seg * iters) by (intros; lia).
  destruct (chunk_hop p c Hp Hc) as [Hch Hh]. rewrite He.
  destruct (Z.eq_dec (hop p c) (PE_size - 2)) as [Hh2|].
  - rewrite <- Hch. rewrite Hh2. rewrite (H3 I seg (PE_size - 2) j); try done; try lia;
      [do 2 f_equal; lia|]. apply Hb. unfold iters. lia.
  - destruct (Z.eq_dec (hop p c) (PE_size - 1)) as [Hh1|].
    + rewrite <- Hch, Hh1. rewrite (H5 I seg (PE_size - 1) j); try done; [unfold iters; lia|].
      specialize (Hb (PE_size - 1)). unfold iters in *. lia.
    + rewrite <- Hch, <- chunk_turn by (done || lia).
      rewrite (H5 I seg (PE_size + hop p c) j); try done; [unfold iters; lia|].
      specialize (Hb (PE_size + hop p c)). unfold iters in *. lia.
Qed.

Lemma final_rest s p i : inv s -> unjoined = false -> is_pe p -> pc s p = Finished -> n_seg * seg_size <= i < nelems ->
  dst s p i = src p i.
Proof.
  intros Hinv Hj Hp Hfin Hi. apply (ok_rest _ _ _ _ _ _ _ (inv_data s Hinv p Hp Hj)); [|done].
  by rewrite Hfin.
Qed.

(** ** Order of the operands *)

(** The reduction in order of rank. *)
Definition reduction (i : Z) : T :=
  foldl (fun acc q => Calc acc (src q i)) (src 0 i) (seqZ 1 (PE_size - 1)).

Context (assoc : forall x y z, Calc x (Calc y z) = Calc (Calc x y) z).
Context (comm : forall x y, Calc x y = Calc y x).

Lemma ring_value_fold c k i :
  ring_value c k i =
  foldl (fun acc q => Calc acc (src q i)) (src ((c - 1) mod PE_size) i)
    ((fun m => (c + m) mod PE_size) <$> seqZ 0 (Z.of_nat k)).
Proof.
  induction k as [|k IH]; [done|]. cbn [ring_value]. rewrite IH.
  replace (Z.of_nat (S k)) with (Z.of_nat k + 1) by lia. rewrite seqZ_app by lia.
  rewrite fmap_app, foldl_app. done.
Qed.

Lemma ring_result_reduction i : ring_result i = reduction i.
Proof.
  unfold ring_result, reduction. set (c := (i mod seg_size) / chunk_size). rewrite ring_value_fold.
  rewrite Z2Nat.id by lia.
  set (l := (fun m => (c + m) mod PE_size) <$> seqZ 0 (PE_size - 1)).
  assert (Hf : forall x l, foldl (fun acc q => Calc acc (src q i)) (src x i) l =
    foldl Calc (src x i) ((fun q => src q i) <$> l)).
  { intros x l'. generalize (src x i). induction l' as [|y l' IH]; intros t; [done|]. simpl. apply IH. }
  rewrite !Hf. apply (inj Some).
  enough (Hperm : (c - 1) mod PE_size :: l ≡ₚ 0 :: seqZ 1 (PE_size - 1)).
  { apply (fmap_Permutation (fun q => src q i)), (reduce_perm Calc assoc comm) in Hperm.
    rewrite !fmap_cons in Hperm. exact Hperm. }
  replace (0 :: seqZ 1 (PE_size - 1)) with (seqZ 0 PE_size) by (by rewrite seqZ_cons by lia).
  replace ((c - 1) mod PE_size :: l) with ((fun m => (c + m) mod PE_size) <$> seqZ (-1) PE_size).
  2:{ rewrite seqZ_cons by lia. done. }
  apply NoDup_Permutation.
  - apply NoDup_fmap_2_strong; [|apply NoDup_seqZ]. intros x y Hx%elem_of_seqZ Hy%elem_of_seqZ He.
    assert (Hd : (c + x - (c + y)) mod PE_size = 0) by (rewrite Zminus_mod, He, Z.sub_diag; apply Z.mod_0_l; lia).
    apply Z.mod_divide in Hd as [k Hk]; [|lia]. assert (k = 0) by nia. lia.
  - apply NoDup_seqZ.
  - intros x. rewrite list_elem_of_fmap, elem_of_seqZ. setoid_rewrite elem_of_seqZ. split.
    + intros (y & -> & Hy). apply Z.mod_pos_bound. lia.
    + intros Hx. exists ((x - c + 1) mod PE_size - 1). split.
      * replace (c + ((x - c + 1) mod PE_size - 1)) with ((c - 1) + (x - c + 1) mod PE_size) by lia.
        rewrite Z.add_mod_idemp_r by lia. replace (c - 1 + (x - c + 1)) with x by lia.
        by rewrite Z.mod_small by lia.
      * pose proof (Z.mod_pos_bound (x - c + 1) PE_size ltac:(lia)). lia.
Qed.

End ring.

(** ** Consecutive calls *)

(** The sizes of one call: segments, segment size, chunk size, elements. *)
Record call := mkCall { c_n_seg : Z; c_seg_size : Z; c_chunk_size : Z; c_nelems : Z }.

Definition ROCSHMEM_REDUCE_MIN_WRKDATA_SIZE : Z := 1048576.
Definition ROCSHMEM_REDUCE_SYNC_SIZE : Z := 256.
Definition DIRECT_MAX_NELEMS : Z := 8192.

(** The paths of [reduce_das]. *)
Definition use_direct (PE_size nreduce : Z) : bool :=
  (PE_size * nreduce <=? ROCSHMEM_REDUCE_MIN_WRKDATA_SIZE) &&
  (PE_size <=? ROCSHMEM_REDUCE_SYNC_SIZE) && (nreduce <=? DIRECT_MAX_NELEMS).

Definition use_reduce_scatter_allgather (PE_size nreduce : Z) : bool :=
  negb (use_direct PE_size nreduce) && (Z.rem nreduce PE_size =? 0) &&
  (1024 <=? Z.quot nreduce PE_size).

(** The ring calls that [reduce_das] makes one after the other. *)
Definition ring_calls (PE_size nreduce : Z) : list call :=
  let chunk_size := Z.quot ROCSHMEM_REDUCE_MIN_WRKDATA_SIZE PE_size in
  let seg_size := chunk_size * PE_size in
  let n_seg := Z.quot nreduce seg_size in
  let n_seg_up := Z.quot (nreduce - 1) seg_size + 1 in
  let chunk_size := Z.quot seg_size PE_size in
  let first := if 0 <? n_seg then [mkCall n_seg seg_size chunk_size nreduce] else [] in
  let p_count := nreduce - n_seg * seg_size in
  let p_chunk := Z.quot p_count PE_size in
  let second := if (n_seg <? n_seg_up) && (0 <? p_chunk)
                then [mkCall 1 (p_chunk * PE_size) p_chunk (p_chunk * PE_size)] else [] in
  first ++ second.

Section sequence.
Context {T : Type} (Calc : T -> T -> T) (PE_size : Z) (calls : list call) (src : nat -> Z -> Z -> T).

(** All calls of a team use the same work array and flags; each has its own part
    of the destination. *)
Record team_state := mkTeam {
  dsts : nat -> Z -> Z -> T;
  t_pWrk : Z -> Z -> T;
  t_pSync : Z -> Z -> Z;
  at_call : Z -> nat;
  t_pc : Z -> counter
}.

(** One step of a PE in its current call; a finished call is followed by the next. *)
Definition exec_calls (junk : Z -> T) (me : Z) (t : team_state) : option team_state :=
  let k := at_call t me in
  match calls !! k with
  | None => None
  | Some c =>
      match t_pc t me with
      | Finished =>
          Some (mkTeam (dsts t) (t_pWrk t) (t_pSync t) (upd (at_call t) me (S k)) (upd (t_pc t) me Idle))
      | _ =>
          match exec Calc PE_size (c_n_seg c) (c_seg_size c) (c_chunk_size c) (c_nelems c) (src k)
                  junk me (mkState (dsts t k) (t_pWrk t) (t_pSync t) (t_pc t)) with
          | Some s => Some (mkTeam (fun k' => if (k' =? k)%nat then dst s else dsts t k')
                                   (pWrk s) (pSync s) (at_call t) (pc s))
          | None => None
          end
      end
  end.

Fixpoint run_calls (junk : Z -> T) (schedule : list Z) (t : team_state) : option team_state :=
  match schedule with
  | [] => Some t
  | p :: l => t' ← exec_calls junk p t; run_calls junk l t'
  end.

Lemma blocked_call junk me t c :
  calls !! at_call t me = Some c ->
  (exists seg iter, t_pc t me = At seg iter Await /\ t_pSync t me iter <> wait_val PE_size seg iter) ->
  exec_calls junk me t = None.
Proof.
  intros Hc (seg & iter & Hpc & Hne). unfold exec_calls. rewrite Hc, Hpc. unfold exec. simpl. rewrite Hpc.
  by rewrite (proj2 (Z.eqb_neq _ _) Hne).
Qed.

(** Call, counter and awaited flag of two PEs. *)
Definition view (p q : Z) (t : team_state) : nat * counter * Z * nat * counter * Z :=
  let flag p := match t_pc t p with At _ iter _ => t_pSync t p iter | _ => 0 end in
  (at_call t p, t_pc t p, flag p, at_call t q, t_pc t q, flag q).
End sequence.

(** ** Properties *)

Lemma joined_unjoined das block_size : das = false \/ block_size <= 64 -> unjoined das block_size = false.
Proof. unfold unjoined. intros [->|H]; [done|]. rewrite (proj2 (Z.ltb_ge _ _)) by done. by destruct das. Qed.

Definition ring_sizes (PE_size n_seg seg_size chunk_size nelems : Z) : Prop :=
  2 <= PE_size /\ 0 <= n_seg /\ 0 < chunk_size /\ seg_size = chunk_size * PE_size /\
  n_seg * seg_size <= nelems.

(** C1: under every interleaving of the PEs, a PE that has finished, whether or
    not the others have, holds at every index of the segments the reduction in
    the order of the ring, the same on every PE; for an associative and
    commutative operation it is the reduction of the sources of all PEs.  The
    elements after the segments are those of its own source, and its flags are
    back at zero.  This holds for the upstream version with any work-group, and
    for [internal_ring_allreduce_das] with a work-group of one wavefront (at most
    64 threads). *)
Theorem ring_allreduce_correct {T : Type} (Calc : T -> T -> T)
    (PE_size n_seg seg_size chunk_size nelems : Z) (src : Z -> Z -> T) (das : bool) (block_size : Z) (s s' : state) :
  ring_sizes PE_size n_seg seg_size chunk_size nelems ->
  das = false \/ block_size <= 64 ->
  initial PE_size s ->
  rtc (step Calc PE_size n_seg seg_size chunk_size nelems src das block_size) s s' ->
  forall p, is_pe PE_size p -> pc s' p = Finished ->
    (forall i, 0 <= i < n_seg * seg_size ->
       dst s' p i = ring_result Calc PE_size seg_size chunk_size src i /\
       ((forall x y z, Calc x (Calc y z) = Calc (Calc x y) z) -> (forall x y, Calc x y = Calc y x) ->
        dst s' p i = reduction Calc PE_size src i)) /\
    (forall i, n_seg * seg_size <= i < nelems -> dst s' p i = src p i) /\
    (forall i, 0 <= i < 2 * PE_size - 2 -> pSync s' p i = 0).
Proof.
  intros (Hn & Hs & Hc & He & Hle) Hj Hi Hr p Hp Hf. apply joined_unjoined in Hj.
  pose proof (reachable_inv_ring Calc PE_size n_seg seg_size chunk_size nelems src das block_size
    Hn Hs Hc He Hle s s' Hi Hr) as Hinv.
  split_and!.
  - intros i Hr'. assert (Hv : dst s' p i = ring_result Calc PE_size seg_size chunk_size src i).
    { by eapply (final_value Calc PE_size n_seg seg_size chunk_size nelems src das block_size). }
    split; [done|]. intros Ha Hco. rewrite Hv. by apply ring_result_reduction.
  - intros i Hr'. by eapply (final_rest Calc PE_size n_seg seg_size chunk_size nelems src das block_size).
  - intros i Hr'. by eapply inv_reset.
Qed.

(** C33: every execution of the ring ends, in both versions and for any size of
    the work-group: the number of steps is bounded, and as long as some PE has not
    finished some PE can go on (no deadlock). *)
Theorem ring_allreduce_terminates {T : Type} (Calc : T -> T -> T)
    (PE_size n_seg seg_size chunk_size nelems : Z) (src : Z -> Z -> T) (das : bool) (block_size : Z) (s : state) :
  ring_sizes PE_size n_seg seg_size chunk_size nelems ->
  initial PE_size s ->
  (forall k s', nsteps (step Calc PE_size n_seg seg_size chunk_size nelems src das block_size) k s s' ->
     Z.of_nat k <= PE_size * (2 + 5 * (n_seg * (2 * PE_size - 2)))) /\
  (forall s', rtc (step Calc PE_size n_seg seg_size chunk_size nelems src das block_size) s s' ->
     ~ finished PE_size s' ->
     exists s'', step Calc PE_size n_seg seg_size chunk_size nelems src das block_size s' s'').
Proof.
  intros (Hn & Hs & Hc & He & Hle) Hi. split.
  - intros k s' Hr. by eapply (run_bounded Calc PE_size n_seg seg_size chunk_size nelems src das block_size).
  - intros s' Hr Hf. pose proof (reachable_inv_ring Calc PE_size n_seg seg_size chunk_size nelems src das block_size
      Hn Hs Hc He Hle s s' Hi Hr) as Hinv.
    destruct (ring_progress Calc PE_size n_seg seg_size chunk_size nelems src das block_size Hn Hc (src 0) s' Hinv Hf)
      as (p & s'' & Hp & Hx). exists s''. by econstructor.
Qed.

(** Two PEs that reduce 1048579 elements can deadlock: [reduce_das] makes two
    ring calls with no barrier between them, and a PE that clears its flags at
    the end of the first call erases the first signal of the second. *)
Theorem reduce_das_can_deadlock (src : nat -> Z -> Z -> Z) (junk : Z -> Z) :
  use_direct 2 1048579 = false /\ use_reduce_scatter_allgather 2 1048579 = false /\
  exists schedule t,
    run_calls Z.add 2 (ring_calls 2 1048579) src junk schedule
      (mkTeam (fun _ _ _ => 0) (fun _ _ => 0) (fun _ _ => 0) (fun _ => 0%nat) (fun _ => Idle)) = Some t /\
    (at_call t 0 = 1%nat /\ at_call t 1 = 1%nat) /\
    forall p, p = 0 \/ p = 1 -> t_pc t p <> Finished /\
      forall junk', exec_calls Z.add 2 (ring_calls 2 1048579) src junk' p t = None.
Proof.
  split; [reflexivity|]. split; [reflexivity|].
  set (t0 := mkTeam _ _ _ _ _).
  set (schedule := [0; 1] ++ [0; 0; 0; 1; 1; 1; 0; 1; 0; 1] ++ [0; 0; 0; 1; 1; 1; 0; 1] ++
          [0; 0; 0; 0; 0; 0] ++ [1; 1; 1; 1; 1; 1] ++ [0; 0; 0; 0; 0]).
  assert (Hv : option_map (view 0 1) (run_calls Z.add 2 (ring_calls 2 1048579) src junk schedule t0) =
    Some (1%nat, At 0 1 Await, 0, 1%nat, At 0 0 Await, 0)) by (vm_compute; reflexivity).
  destruct (run_calls Z.add 2 (ring_calls 2 1048579) src junk schedule t0) as [t|] eqn:He; [|done].
  injection Hv as H1 H2 H3 H4 H5 H6. exists schedule, t.
  split; [exact He|]. split; [split; assumption|]. clear He.
  assert (Hc : ring_calls 2 1048579 !! 1%nat = Some (mkCall 1 2 1 2)) by reflexivity.
  intros p [->| ->].
  - split; [rewrite H2; discriminate|]. intros junk'. apply blocked_call with (c := mkCall 1 2 1 2).
    + rewrite H1. exact Hc.
    + exists 0, 1. rewrite H2 in *. split; [reflexivity|]. rewrite H3. discriminate.
  - split; [rewrite H5; discriminate|]. intros junk'. apply blocked_call with (c := mkCall 1 2 1 2).
    + rewrite H4. exact Hc.
    + exists 0, 0. rewrite H5 in *. split; [reflexivity|]. rewrite H6. discriminate.
Qed.

(** ** Two PEs, one segment of two chunks *)

Fixpoint run (junk : Z -> Z) (schedule : list Z) (s : @state Z) : option (@state Z) :=
  match schedule with
  | [] => Some s
  | p :: l => s' ← exec Z.add 2 1 2 1 3 (fun p i => 10 * p + i) junk p s; run junk l s'
  end.

Lemma run_rtc junk l s s' : Forall (is_pe 2) l -> run junk l s = Some s' ->
  rtc (step Z.add 2 1 2 1 3 (fun p i => 10 * p + i) true 64) s s'.
Proof.
  revert s. induction l as [|p l IH]; intros s Hl; cbn [run]; [intros [= ->]; constructor|].
  apply Forall_cons in Hl as [Hp Hl]. intros (s1 & He & Hr)%bind_Some.
  eapply rtc_l; [by econstructor|]. by apply IH.
Qed.

Definition demo_start : state := mkState (fun _ _ => 0) (fun _ _ => 0) (fun _ _ => 0) (fun _ => Idle).

Definition demo_schedule : list Z :=
  [0; 1; 0; 0; 0; 1; 1; 1; 0; 1; 0; 1; 0; 0; 0; 1; 1; 1; 0; 1; 0; 1].

Lemma demo_initial : initial 2 demo_start.
Proof. by split. Qed.

Lemma demo_run : exists s', rtc (step Z.add 2 1 2 1 3 (fun p i => 10 * p + i) true 64) demo_start s' /\
  finished 2 s' /\ dst s' 0 1 = 12.
Proof.
  assert (Hv : option_map (fun s => (pc s 0, pc s 1, dst s 0 1)) (run (fun _ => 0) demo_schedule demo_start) =
    Some (Finished, Finished, 12)) by (vm_compute; reflexivity).
  destruct (run (fun _ => 0) demo_schedule demo_start) as [s'|] eqn:He; [|discriminate].
  injection Hv as H1 H2 H3. exists s'. split; [|split; [|exact H3]].
  - apply (run_rtc (fun _ => 0) demo_schedule); [|exact He].
    unfold demo_schedule, is_pe. repeat constructor; lia.
  - intros p Hp. unfold is_pe in Hp. assert (p = 0 \/ p = 1) as [->| ->] by lia; assumption.
Qed.

Lemma demo_sizes : ring_sizes 2 1 2 1 3.
Proof. unfold ring_sizes. lia. Qed.

Lemma ring_allreduce_correct_witness :
  exists s', finished 2 s' /\ dst s' 1 0 = ring_result Z.add 2 2 1 (fun p i => 10 * p + i) 0.
Proof.
  destruct demo_run as (s' & Hr & Hf & _). exists s'. split; [exact Hf|].
  refine (proj1 (proj1 (ring_allreduce_correct Z.add 2 1 2 1 3 (fun p i => 10 * p + i) true 64 demo_start s'
    demo_sizes (or_intror (Z.le_refl 64)) demo_initial Hr 1 _ (Hf 1 _)) 0 _)); unfold is_pe; lia.
Defined.

Lemma ring_allreduce_terminates_witness :
  exists s'', step Z.add 2 1 2 1 3 (fun p i => 10 * p + i) true 128 demo_start s''.
Proof.
  apply (proj2 (ring_allreduce_terminates Z.add 2 1 2 1 3 (fun p i => 10 * p + i) true 128 demo_start
    demo_sizes demo_initial)); [constructor|].
  intros Hf. specialize (Hf 0 ltac:(unfold is_pe; lia)). discriminate.
Defined.

(** ** Three PEs whose work-groups have two wavefronts *)

(** Element [j] of a chunk of 256 elements of 8 bytes is moved by a thread of the
    second wavefront of 128 threads. *)
Definition second_wave (j : Z) : bool :=
  existsb (fun t => existsb (fun '(b, n) => (b <=? 8 * j) && (8 * j <? b + n)) (memcpy_wg t 128 2048)) (seqZ 64 64).

Definition race_src (p i : Z) : Z := 10 ^ p.

(** The first wavefront has made its moves, the second has not. *)
Definition race_junk (p : Z) (s : @state Z) (j : Z) : Z :=
  match pc s p with
  | At seg iter _ =>
      if second_wave j then dst s (send_pe 3 p) (off_send 3 256 p iter + seg * 768 + j)
      else sent 3 768 256 p seg iter s j
  | _ => 0
  end.

(** Steps of the PEs, each of thread zero ahead of the second wavefront or not. *)
Fixpoint race_run (schedule : list (bool * Z)) (s : @state Z) : option (@state Z) :=
  match schedule with
  | [] => Some s
  | (early, p) :: l =>
      s' ← (if early : bool then exec_early 3 true 128 p s
            else exec Z.add 3 1 768 256 768 race_src (race_junk p s) p s);
      race_run l s'
  end.

Lemma race_run_rtc l s s' : Forall (fun m => is_pe 3 m.2) l -> race_run l s = Some s' ->
  rtc (step Z.add 3 1 768 256 768 race_src true 128) s s'.
Proof.
  revert s. induction l as [|[early p] l IH]; intros s Hl; cbn [race_run]; [intros [= ->]; constructor|].
  apply Forall_cons in Hl as [Hp Hl]. intros (s1 & He & Hr)%bind_Some. eapply rtc_l; [|by apply IH].
  destruct early; [by eapply step_early|by eapply step_pe].
Qed.

Definition race_schedule : list (bool * Z) :=
  let go n p := replicate n (false, p) in
  let iteration := go 3%nat 0 ++ go 3%nat 1 ++ go 3%nat 2 ++ go 2%nat 0 ++ go 2%nat 1 ++ go 2%nat 2 in
  go 1%nat 0 ++ go 1%nat 1 ++ go 1%nat 2 ++ iteration ++ iteration ++
  [(false, 0); (true, 0)] ++ go 3%nat 1 ++ go 3%nat 2 ++
  go 4%nat 1 ++ go 4%nat 2 ++ go 5%nat 0 ++ go 2%nat 1 ++ go 2%nat 2 ++ go 2%nat 0.

(** With work-groups of two wavefronts [internal_ring_allreduce_das] can end with
    a wrong result: thread zero of PE 0 raises the flag of the second loop before
    the second wavefront has made its moves, PE 1 forwards the chunk as it is, and
    PE 2 keeps it.  Its element 640 is the source of PE 1 alone.  [reduce_das] makes
    this call for three PEs and 1049344 elements. *)
Theorem ring_das_race :
  use_direct 3 1049344 = false /\ use_reduce_scatter_allgather 3 1049344 = false /\
  ring_calls 3 1049344 !! 1%nat = Some (mkCall 1 768 256 768) /\
  exists s', rtc (step Z.add 3 1 768 256 768 race_src true 128) demo_start s' /\ finished 3 s' /\
    dst s' 2 640 = 10 /\ reduction Z.add 3 race_src 640 = 111.
Proof.
  split; [reflexivity|]. split; [reflexivity|]. split; [reflexivity|].
  assert (Hv : option_map (fun s => (pc s 0, pc s 1, pc s 2, dst s 2 640)) (race_run race_schedule demo_start) =
    Some (Finished, Finished, Finished, 10)) by (vm_compute; reflexivity).
  destruct (race_run race_schedule demo_start) as [s'|] eqn:He; [|discriminate].
  injection Hv as H0 H1 H2 H3. exists s'. split; [|split; [|split; [exact H3|reflexivity]]].
  - apply (race_run_rtc race_schedule); [|exact He]. unfold race_schedule, is_pe. repeat constructor; cbn; lia.
  - intros p Hp. unfold is_pe in Hp. assert (p = 0 \/ p = 1 \/ p = 2) as [->|[->| ->]] by lia; assumption.
Qed.
