(* ===== verification/Barrier.v ===== *)
(** * Team synchronisation

    Model of [IPCContext::internal_sync], [internal_direct_barrier] and
    [internal_atomic_barrier] ([src/ipc/context_ipc_device_coll.cpp]) as run any
    number of times by the PEs of a team, interleaved in any order.  PEs are named
    by their rank, [(pe - PE_start) / stride]; the leader has rank 0.  A step is
    one put, one atomic addition, one wait or one store to a local flag.  The
    class [Separates] states what collectives rely on. *)

From Stdlib Require Import ZArith Lia.
From stdpp Require Import base option numbers list relations.
From S2P Require Import Prelude.

Open Scope Z_scope.

(** ** Interface *)

(** A synchronisation among the PEs below [n]: [enters] and [leaves] count the
    calls each PE has begun and completed. *)
Class Separates (n : Z) {S : Type} (start : S -> Prop) (move : S -> S -> Prop)
    (enters leaves : S -> Z -> Z) : Prop := {
  nothing_entered : forall s p, start s -> enters s p = 0;
  enters_mono : forall s s' p, move s s' -> enters s p <= enters s' p;
  (** Nobody completes a call that some PE has not begun. *)
  leave_after_all : forall s s' p q, start s -> rtc move s s' -> 0 <= p < n -> 0 <= q < n ->
    leaves s' p <= enters s' q
}.

(** ** Program counters *)

Inductive counter :=
  | Out                 (* between calls *)
  | Gather (i : Z)      (* leader, direct: wait for PE i *)
  | Clear (i : Z)       (* leader, direct: reset the flag of PE i *)
  | GatherAll           (* leader, atomic: wait for the count *)
  | ClearAll            (* leader, atomic: reset the count *)
  | Release (i : Z)     (* leader: signal PE i *)
  | Arrive              (* others: signal the leader *)
  | Wait                (* others: wait for the leader *)
  | Reset.              (* others: reset the flag *)

#[export] Instance counter_eq_dec : EqDecision counter.
Proof. solve_decision. Defined.

Section barrier.
Context (PE_size : Z).

Record state := mkState {
  pSync : Z -> Z -> Z;
  pc : Z -> counter;
  entered : Z -> Z;
  left : Z -> Z
}.

Definition store (p i x : Z) (s : state) : state :=
  mkState (upd (pSync s) p (upd (pSync s p) i x)) (pc s) (entered s) (left s).

Definition goto (p : Z) (c : counter) (s : state) : state :=
  mkState (pSync s) (upd (pc s) p c) (entered s) (left s).

Definition enter (p : Z) (s : state) : state :=
  mkState (pSync s) (pc s) (upd (entered s) p (entered s p + 1)) (left s).

Definition leave (p : Z) (s : state) : state :=
  mkState (pSync s) (upd (pc s) p Out) (entered s) (upd (left s) p (left s p + 1)).

Definition direct : bool := PE_size <? 64.

(** The loops of the leader over the other PEs. *)
Definition gather_from (i : Z) : counter := if i <? PE_size then Gather i else Release 1.

Definition exec (me : Z) (s : state) : option state :=
  match pc s me with
  | Out =>
      Some (goto me (if me =? 0 then (if direct then gather_from 1 else GatherAll) else Arrive)
              (enter me s))
  | Gather i => if pSync s me i =? 1 then Some (goto me (Clear i) s) else None
  | Clear i => Some (goto me (gather_from (i + 1)) (store me i 0 s))
  | GatherAll => if pSync s me 0 =? PE_size - 1 then Some (goto me ClearAll s) else None
  | ClearAll => Some (goto me (Release 1) (store me 0 0 s))
  | Release i =>
      Some (if i <? PE_size then goto me (Release (i + 1)) (store i 0 1 s) else leave me s)
  | Arrive =>
      Some (goto me Wait (if direct then store 0 me 1 s else store 0 0 (pSync s 0 0 + 1) s))
  | Wait => if pSync s me 0 =? 1 then Some (goto me Reset s) else None
  | Reset => Some (leave me (store me 0 0 s))
  end.

Definition is_pe (p : Z) : Prop := 0 <= p < PE_size.

Inductive step (s : state) : state -> Prop :=
  | step_pe p s' : is_pe p -> exec p s = Some s' -> step s s'.

Definition initial (s : state) : Prop :=
  (forall p, pc s p = Out /\ entered s p = 0 /\ left s p = 0) /\
  (forall p i, is_pe p -> 0 <= i < PE_size -> pSync s p i = 0).

(** ** Counting signals *)

(** Signals sent to the leader by PE [i]. *)
Definition arrivals (s : state) (i : Z) : Z :=
  entered s i - match pc s i with Arrive => 1 | _ => 0 end.

(** Signals of PE [i] that the leader has taken. *)
Definition taken (s : state) (i : Z) : Z :=
  left s 0 + match pc s 0 with
             | Gather j | Clear j => if i <? j then 1 else 0
             | Release _ => 1
             | _ => 0
             end.

(** Signals sent to PE [i] by the leader. *)
Definition released (s : state) (i : Z) : Z :=
  left s 0 + match pc s 0 with Release j => if i <? j then 1 else 0 | _ => 0 end.

Definition others : list Z := seqZ 1 (PE_size - 1).

Definition pc_ok (s : state) (p : Z) : Prop :=
  match pc s p with
  | Out => True
  | Gather i => p = 0 /\ direct = true /\ 1 <= i < PE_size
  | Clear i => p = 0 /\ direct = true /\ 1 <= i < PE_size /\ taken s i < arrivals s i
  | GatherAll => p = 0 /\ direct = false
  | ClearAll => p = 0 /\ direct = false /\ forall i, 1 <= i < PE_size -> taken s i < arrivals s i
  | Release i => p = 0 /\ 1 <= i <= PE_size
  | Arrive | Wait => p <> 0
  | Reset => p <> 0 /\ left s p < released s p
  end.

Definition inside (c : counter) : bool := match c with Out => false | _ => true end.

Record inv (s : state) : Prop := {
  inv_pc : forall p, is_pe p -> pc_ok s p;
  inv_calls : forall p, is_pe p -> entered s p = left s p + if inside (pc s p) then 1 else 0;
  inv_taken : forall i, 1 <= i < PE_size -> taken s i <= arrivals s i;
  inv_released : forall i, 1 <= i < PE_size -> left s i <= released s i;
  inv_arrival_flags : direct = true -> forall i, 1 <= i < PE_size ->
    pSync s 0 i = arrivals s i - taken s i;
  inv_arrival_count : direct = false -> pSync s 0 0 = zsum (fun i => arrivals s i - taken s i) others;
  inv_release_flags : forall i, 1 <= i < PE_size -> pSync s i 0 = released s i - left s i
}.

(** ** Lemmas on the counts *)

Lemma others_elem i : i ∈ others <-> 1 <= i < PE_size.
Proof. unfold others. rewrite elem_of_seqZ. lia. Qed.

(** ** Consequences of the invariant *)

Lemma arrivals_bound s i : inv s -> 1 <= i < PE_size ->
  arrivals s i <= left s i + 1 /\ arrivals s i <= taken s i + 1 /\ released s i <= taken s i.
Proof.
  intros Hinv Hi. pose proof (inv_calls s Hinv i ltac:(unfold is_pe; lia)) as Hc.
  pose proof (inv_released s Hinv i Hi) as Hr.
  assert (Hrt : released s i <= taken s i).
  { unfold released, taken. pose proof (inv_pc s Hinv 0 ltac:(unfold is_pe; lia)) as Hp.
    unfold pc_ok in Hp. destruct (pc s 0); case_ifs; lia. }
  assert (arrivals s i <= left s i + 1) by (unfold arrivals; destruct (pc s i); simpl in Hc; lia).
  split_and!; lia.
Qed.

Lemma sync_initial_inv s : 1 <= PE_size -> initial s -> inv s.
Proof.
  intros Hn [Hpc Hsync].
  assert (Ha : forall i, arrivals s i = 0 /\ taken s i = 0 /\ released s i = 0 /\ left s i = 0).
  { intros i. unfold arrivals, taken, released. destruct (Hpc i) as (-> & -> & ->), (Hpc 0) as (-> & _ & ->).
    lia. }
  split; intros.
  - unfold pc_ok. by rewrite (proj1 (Hpc p)).
  - destruct (Hpc p) as (-> & -> & ->). done.
  - destruct (Ha i) as (-> & -> & _). lia.
  - destruct (Ha i) as (_ & _ & -> & ->). lia.
  - destruct (Ha i) as (-> & -> & _). rewrite Hsync; unfold is_pe; lia.
  - rewrite Hsync by (unfold is_pe; lia). symmetry. apply zsum_zero. intros x _.
    destruct (Ha x) as (-> & -> & _). lia.
  - destruct (Ha i) as (_ & _ & -> & ->). rewrite Hsync; unfold is_pe; lia.
Qed.

(** ** Steps *)

(** A step of a PE other than the leader. *)
Lemma other_intro p s s' :
  inv s -> 1 <= p < PE_size ->
  (forall q, q <> p -> pc s' q = pc s q /\ entered s' q = entered s q /\ left s' q = left s q) ->
  pc_ok s' p -> entered s' p = left s' p + (if inside (pc s' p) then 1 else 0) ->
  arrivals s p <= arrivals s' p -> left s' p <= released s p ->
  (direct = true -> pSync s' 0 p = arrivals s' p - taken s p /\
     forall i, i <> p -> pSync s' 0 i = pSync s 0 i) ->
  (direct = false -> pSync s' 0 0 = pSync s 0 0 + (arrivals s' p - arrivals s p)) ->
  pSync s' p 0 = released s p - left s' p ->
  (forall i, i <> 0 -> i <> p -> pSync s' i 0 = pSync s i 0) ->
  inv s'.
Proof.
  intros Hinv Hp Hsame Hpc Hcalls Harr Hleft Hflag Hcount Hown Hrest.
  destruct (Hsame 0 ltac:(lia)) as (H0pc & H0e & H0l).
  assert (Ht : forall i, taken s' i = taken s i) by (intros; unfold taken; by rewrite H0pc, H0l).
  assert (Hr : forall i, released s' i = released s i) by (intros; unfold released; by rewrite H0pc, H0l).
  assert (Ha : forall i, i <> p -> arrivals s' i = arrivals s i).
  { intros i Hi. destruct (Hsame i Hi) as (E1 & E2 & _). unfold arrivals. by rewrite E1, E2. }
  assert (Hle : forall i, arrivals s i <= arrivals s' i).
  { intros i. destruct (Z.eq_dec i p) as [->|Hne]; [done|]. rewrite Ha by done. lia. }
  split.
  - intros q Hq. destruct (Z.eq_dec q p) as [->|Hne]; [done|]. pose proof (inv_pc s Hinv q Hq) as H.
    destruct (Hsame q Hne) as (E1 & _ & E3). unfold pc_ok in *. rewrite E1. destruct (pc s q); try done.
    + rewrite Ht. specialize (Hle i). destruct H as (-> & Hd & ? & ?). split_and!; lia || done.
    + destruct H as (-> & Hd & H). split_and!; [done|done|]. intros i Hi. rewrite Ht.
      specialize (Hle i). specialize (H i Hi). lia.
    + rewrite Hr, E3. done.
  - intros q Hq. destruct (Z.eq_dec q p) as [->|Hne]; [done|].
    destruct (Hsame q Hne) as (-> & -> & ->). by apply (inv_calls s Hinv).
  - intros i Hi. rewrite Ht. pose proof (inv_taken s Hinv i Hi). specialize (Hle i). lia.
  - intros i Hi. rewrite Hr. destruct (Z.eq_dec i p) as [->|Hne]; [done|].
    destruct (Hsame i Hne) as (_ & _ & ->). by apply (inv_released s Hinv).
  - intros Hd i Hi. destruct (Hflag Hd) as [H1 H2]. rewrite Ht.
    destruct (Z.eq_dec i p) as [->|Hne]; [done|]. rewrite H2, Ha by done.
    by apply (inv_arrival_flags s Hinv).
  - intros Hd. rewrite (Hcount Hd), (inv_arrival_count s Hinv Hd).
    rewrite (zsum_change (fun i => arrivals s' i - taken s' i) (fun i => arrivals s i - taken s i) others p).
    + rewrite Ht. lia.
    + apply NoDup_seqZ.
    + by apply others_elem.
    + intros x _ Hne. by rewrite Ha, Ht.
  - intros i Hi. rewrite Hr. destruct (Z.eq_dec i p) as [->|Hne]; [done|].
    destruct (Hsame i Hne) as (_ & _ & ->). rewrite Hrest by lia. by apply (inv_release_flags s Hinv).
Qed.

(** A step of the leader. *)
Lemma leader_intro s s' :
  inv s -> 1 <= PE_size ->
  (forall q, q <> 0 -> pc s' q = pc s q /\ entered s' q = entered s q /\ left s' q = left s q) ->
  pc_ok s' 0 -> entered s' 0 = left s' 0 + (if inside (pc s' 0) then 1 else 0) ->
  (forall i, 1 <= i < PE_size -> taken s' i <= arrivals s i /\ released s i <= released s' i /\
     pSync s' i 0 = pSync s i 0 + (released s' i - released s i) /\
     (direct = true -> pSync s' 0 i = arrivals s i - taken s' i)) ->
  (direct = false -> pSync s' 0 0 = zsum (fun i => arrivals s i - taken s' i) others) ->
  inv s'.
Proof.
  intros Hinv Hn Hsame Hpc Hcalls Hall Hcount.
  assert (Ha : forall i, i <> 0 -> arrivals s' i = arrivals s i).
  { intros i Hi. destruct (Hsame i Hi) as (E1 & E2 & _). unfold arrivals. by rewrite E1, E2. }
  split.
  - intros q Hq. destruct (Z.eq_dec q 0) as [->|Hne]; [done|]. pose proof (inv_pc s Hinv q Hq) as H.
    destruct (Hsame q Hne) as (E1 & _ & E3). unfold pc_ok in *. rewrite E1.
    destruct (pc s q); try done; try (exfalso; tauto).
    rewrite E3. unfold is_pe in Hq. destruct (Hall q ltac:(lia)) as (_ & Hr & _). lia.
  - intros q Hq. destruct (Z.eq_dec q 0) as [->|Hne]; [done|].
    destruct (Hsame q Hne) as (-> & -> & ->). by apply (inv_calls s Hinv).
  - intros i Hi. rewrite Ha by lia. by apply Hall.
  - intros i Hi. destruct (Hsame i ltac:(lia)) as (_ & _ & ->). pose proof (inv_released s Hinv i Hi).
    destruct (Hall i Hi) as (_ & Hr & _). lia.
  - intros Hd i Hi. rewrite Ha by lia. by apply Hall.
  - intros Hd. rewrite (Hcount Hd). apply zsum_ext. intros x Hx%others_elem. by rewrite Ha by lia.
  - intros i Hi. destruct (Hsame i ltac:(lia)) as (_ & _ & ->). destruct (Hall i Hi) as (_ & _ & -> & _).
    rewrite (inv_release_flags s Hinv i Hi). lia.
Qed.

Ltac others_same :=
  intros ? ?; unfold goto, enter, leave, store; cbn [pc entered left]; rewrite ?upd_ne by done; done.

Lemma other_exec_inv p s s' : inv s -> 1 <= p < PE_size -> exec p s = Some s' -> inv s'.
Proof.
  intros Hinv Hp. assert (Hpe : is_pe p) by (unfold is_pe; lia).
  pose proof (inv_pc s Hinv p Hpe) as Hpc. pose proof (inv_calls s Hinv p Hpe) as Hcalls.
  pose proof (inv_released s Hinv p Hp) as Hrel. pose proof (inv_taken s Hinv p Hp) as Htak.
  pose proof (inv_release_flags s Hinv p Hp) as Hown.
  destruct (arrivals_bound s p Hinv Hp) as (Hb1 & Hb2 & Hb3).
  assert (Hflag : direct = true -> pSync s 0 p = arrivals s p - taken s p).
  { intros Hd. by apply (inv_arrival_flags s Hinv Hd). }
  unfold exec, pc_ok in *. destruct (pc s p) as [|i|i| | |i| | |] eqn:Hc;
    try (exfalso; lia); simpl in Hcalls.
  - intros [= <-]. rewrite (proj2 (Z.eqb_neq p 0)) by lia.
    assert (Ha : forall f, arrivals (mkState (pSync s) (upd (pc s) p Arrive)
      (upd (entered s) p (entered s p + 1)) f) p = arrivals s p).
    { intros f. unfold arrivals. simpl. rewrite !upd_eq, Hc. lia. }
    apply (other_intro p s); try done; unfold goto, enter; cbn [pc entered left pSync];
      rewrite ?Ha; try lia; try done.
    + others_same.
    + unfold pc_ok. cbn [pc]. rewrite upd_eq. lia.
    + rewrite !upd_eq. simpl. lia.
    + by split; [apply Hflag|].
  - intros [= <-]. assert (Ha : forall f, arrivals (mkState f (upd (pc s) p Wait) (entered s) (left s)) p =
      arrivals s p + 1).
    { intros f. unfold arrivals. simpl. rewrite upd_eq, Hc. lia. }
    assert (Hz : arrivals s p = left s p) by (unfold arrivals; rewrite Hc; lia).
    apply (other_intro p s); try done; destruct direct eqn:Hd;
      unfold goto, store; cbn [pc entered left pSync]; rewrite ?Ha; try lia; try done;
      rewrite ?upd_eq; simpl; try lia; try done.
    1, 2: others_same.
    1, 2: unfold pc_ok; cbn [pc]; rewrite upd_eq; lia.
    + intros _. rewrite ?upd_eq. specialize (Hflag eq_refl). split; [lia|]. intros i Hi. by rewrite upd_ne.
    + rewrite upd_ne by lia. done.
    + rewrite upd_ne by lia. done.
    + intros i Hi Hne. by rewrite upd_ne.
    + intros i Hi Hne. by rewrite upd_ne.
  - destruct (Z.eqb_spec (pSync s p 0) 1) as [Hone|]; [|done]. intros [= <-].
    assert (Ha : arrivals (goto p Reset s) p = arrivals s p).
    { unfold arrivals. simpl. by rewrite upd_eq, Hc. }
    apply (other_intro p s); try done; rewrite ?Ha; unfold goto; cbn [pc entered left pSync]; try lia; try done.
    + others_same.
    + unfold pc_ok. cbn [pc]. rewrite upd_eq. split; [lia|]. cbn [left].
      assert (Hr : released (mkState (pSync s) (upd (pc s) p Reset) (entered s) (left s)) p = released s p).
      { unfold released. cbn [pc left]. by rewrite upd_ne by lia. }
      rewrite Hr. lia.
    + rewrite upd_eq. simpl. lia.
    + by split; [apply Hflag|].
  - intros [= <-].
    assert (Ha : arrivals (leave p (store p 0 0 s)) p = arrivals s p).
    { unfold arrivals. simpl. by rewrite upd_eq, Hc. }
    destruct Hpc as [Hp0 Hlt].
    apply (other_intro p s); try done; rewrite ?Ha; unfold leave, store; cbn [pc entered left pSync];
      rewrite ?upd_eq; try lia; try done.
    + others_same.
    + unfold pc_ok. cbn [pc]. by rewrite upd_eq.
    + simpl. lia.
    + intros Hd. rewrite upd_ne by lia. by split; [apply Hflag|].
    + intros Hd. rewrite upd_ne by lia. lia.
    + intros i Hi Hne. by rewrite upd_ne.
Qed.

(** The facts on the leader's place that each of its steps uses. *)
Ltac leader_facts s Hinv :=
  match goal with
  | Hc : pc s 0 = _ |- _ =>
      assert (Hpe : is_pe 0) by (unfold is_pe; lia);
      pose proof (inv_pc s Hinv 0 Hpe) as Hpc; pose proof (inv_calls s Hinv 0 Hpe) as Hcalls;
      pose proof (inv_taken s Hinv) as Htak; pose proof (inv_arrival_flags s Hinv) as Hflag;
      pose proof (inv_arrival_count s Hinv) as Hcount;
      unfold exec, pc_ok in *; rewrite Hc in *; simpl in Hcalls
  end.

Lemma leader_enter s s' : inv s -> 1 <= PE_size -> pc s 0 = Out -> exec 0 s = Some s' -> inv s'.
Proof.
  intros Hinv Hn Hc. leader_facts s Hinv.
  intros [= <-].
  set (c := if direct then gather_from 1 else GatherAll).
  assert (Ht : forall i, 1 <= i < PE_size -> taken (goto 0 c (enter 0 s)) i = taken s i).
  { intros i Hi. unfold taken, goto, enter, c. cbn [pc left]. rewrite upd_eq, Hc. unfold gather_from.
    case_ifs; simpl; case_ifs. }
  assert (Hr : forall i, 1 <= i < PE_size -> released (goto 0 c (enter 0 s)) i = released s i).
  { intros i Hi. unfold released, goto, enter, c. cbn [pc left]. rewrite upd_eq, Hc. unfold gather_from.
    case_ifs; simpl; case_ifs. }
  apply (leader_intro s); try done.
  - others_same.
  - unfold pc_ok, goto. cbn [pc]. rewrite upd_eq. unfold c, gather_from. case_ifs; lia || done.
  - unfold goto, enter. cbn [pc entered left]. rewrite !upd_eq. unfold c, gather_from.
    destruct direct; [destruct (1 <? PE_size)|]; simpl; lia.
  - intros i Hi. rewrite Ht, Hr by done. unfold goto, enter. cbn [pSync].
    specialize (Htak i Hi). split_and!; try lia. intros Hd. by apply Hflag.
  - intros Hd. unfold goto, enter. cbn [pSync]. rewrite (Hcount Hd). apply zsum_ext.
    intros x Hx%others_elem. by rewrite <- Ht.
Qed.

Lemma leader_gather i s s' : inv s -> 1 <= PE_size -> pc s 0 = Gather i -> exec 0 s = Some s' -> inv s'.
Proof.
  intros Hinv Hn Hc. leader_facts s Hinv.
  destruct (Z.eqb_spec (pSync s 0 i) 1) as [Hone|]; [|done]. intros [= <-].
  destruct Hpc as (_ & Hd & Hi). specialize (Hflag Hd).
  apply (leader_intro s); try done; unfold goto; cbn [pc entered left pSync].
  - others_same.
  - unfold pc_ok. cbn [pc]. rewrite upd_eq. split_and!; try done; try lia.
    unfold taken, arrivals. cbn [pc left entered]. rewrite upd_eq, upd_ne by lia.
    rewrite Z.ltb_irrefl. specialize (Hflag i Hi). unfold taken, arrivals in Hflag.
    rewrite Hc, Z.ltb_irrefl in Hflag. lia.
  - intros j Hj. specialize (Htak j Hj). specialize (Hflag j Hj).
    unfold taken, released in *. cbn [pc left]. rewrite upd_eq, Hc in *. split_and!; lia.
  - by rewrite Hd.
Qed.

Lemma leader_clear i s s' : inv s -> 1 <= PE_size -> pc s 0 = Clear i -> exec 0 s = Some s' -> inv s'.
Proof.
  intros Hinv Hn Hc. leader_facts s Hinv.
  intros [= <-]. destruct Hpc as (_ & Hd & Hi & Hlt).
  assert (Hrest : forall j, 1 <= j < PE_size ->
    taken (goto 0 (gather_from (i + 1)) (store 0 i 0 s)) j = (if j =? i then taken s j + 1 else taken s j) /\
    released (goto 0 (gather_from (i + 1)) (store 0 i 0 s)) j = released s j).
  { intros j Hj. unfold taken, released, goto, store. cbn [pc left]. rewrite upd_eq, Hc.
    unfold gather_from. case_ifs; simpl; case_ifs. }
  apply (leader_intro s); try done.
  - others_same.
  - unfold pc_ok, goto. cbn [pc]. rewrite upd_eq. unfold gather_from. case_ifs; lia || done.
  - unfold goto, store. cbn [pc entered left]. rewrite upd_eq. unfold gather_from.
    by destruct (i + 1 <? PE_size).
  - intros j Hj. destruct (Hrest j Hj) as [-> ->]. unfold goto, store. cbn [pSync].
    rewrite upd_eq, (upd_ne _ 0) by lia. specialize (Htak j Hj). pose proof (Hflag Hd j Hj) as Hf.
    destruct (Z.eqb_spec j i) as [->|Hne]; [rewrite upd_eq|rewrite upd_ne by done]; split_and!; try lia; intros _.
    destruct (arrivals_bound s i Hinv Hj) as (_ & ? & _). lia.
  - by rewrite Hd.
Qed.

Lemma leader_gather_all s s' : inv s -> 1 <= PE_size -> pc s 0 = GatherAll -> exec 0 s = Some s' -> inv s'.
Proof.
  intros Hinv Hn Hc. leader_facts s Hinv.
  destruct (Z.eqb_spec (pSync s 0 0) (PE_size - 1)) as [Hall|]; [|done]. intros [= <-].
  destruct Hpc as (_ & Hd). specialize (Hcount Hd).
  assert (Hfull : forall j, 1 <= j < PE_size -> arrivals s j - taken s j = 1).
  { intros j Hj. apply (zsum_full (fun i => arrivals s i - taken s i) others); [|rewrite <- Hcount, Hall|by apply others_elem].
    - intros x Hx%others_elem. destruct (arrivals_bound s x Hinv Hx) as (_ & ? & _). lia.
    - unfold others. rewrite length_seqZ. lia. }
  assert (Hrest : forall j, taken (goto 0 ClearAll s) j = taken s j /\
    released (goto 0 ClearAll s) j = released s j).
  { intros j. unfold taken, released, goto. cbn [pc left]. by rewrite upd_eq, Hc. }
  apply (leader_intro s); try done.
  - others_same.
  - unfold pc_ok, goto. cbn [pc]. rewrite upd_eq. split_and!; try done. intros j Hj.
    destruct (Hrest j) as [Ht _]. unfold goto in Ht. rewrite Ht. unfold arrivals at 1. cbn [pc entered].
    rewrite upd_ne by lia. fold (arrivals s j). specialize (Hfull j Hj). lia.
  - intros j Hj. destruct (Hrest j) as [-> ->]. unfold goto. cbn [pSync]. specialize (Htak j Hj).
    split_and!; lia.
  - intros _. rewrite (zsum_ext _ (fun i => arrivals s i - taken s i)); [exact Hcount|].
    intros x _. by rewrite (proj1 (Hrest x)).
Qed.

Lemma leader_clear_all s s' : inv s -> 1 <= PE_size -> pc s 0 = ClearAll -> exec 0 s = Some s' -> inv s'.
Proof.
  intros Hinv Hn Hc. leader_facts s Hinv.
  intros [= <-]. destruct Hpc as (_ & Hd & Hlt).
  assert (Hrest : forall j, 1 <= j < PE_size -> taken (goto 0 (Release 1) (store 0 0 0 s)) j = taken s j + 1 /\
    released (goto 0 (Release 1) (store 0 0 0 s)) j = released s j).
  { intros j Hj. unfold taken, released, goto, store. cbn [pc left]. rewrite upd_eq, Hc. case_ifs. }
  apply (leader_intro s); try done.
  - others_same.
  - intros j Hj. destruct (Hrest j Hj) as [-> ->]. specialize (Hlt j Hj). unfold goto, store. cbn [pSync].
    rewrite (upd_ne _ 0) by lia. split_and!; lia.
  - intros _. rewrite zsum_zero; [unfold goto, store; cbn [pSync]; by rewrite !upd_eq|].
    intros x Hx%others_elem. destruct (Hrest x Hx) as [-> _]. specialize (Hlt x Hx).
    destruct (arrivals_bound s x Hinv Hx) as (_ & ? & _). lia.
Qed.

Lemma leader_release i s s' : inv s -> 1 <= PE_size -> pc s 0 = Release i -> exec 0 s = Some s' -> inv s'.
Proof.
  intros Hinv Hn Hc. leader_facts s Hinv.
  intros [= <-]. destruct Hpc as (_ & Hi). destruct (Z.ltb_spec i PE_size) as [Hl|Hl].
  - assert (Hrest : forall j, 1 <= j < PE_size -> taken (goto 0 (Release (i + 1)) (store i 0 1 s)) j = taken s j /\
      released (goto 0 (Release (i + 1)) (store i 0 1 s)) j = if j =? i then released s j + 1 else released s j).
    { intros j Hj. unfold taken, released, goto, store. cbn [pc left]. rewrite upd_eq, Hc. case_ifs. }
    apply (leader_intro s); try done.
    + others_same.
    + unfold pc_ok, goto. cbn [pc]. rewrite upd_eq. lia.
    + intros j Hj. destruct (Hrest j Hj) as [-> ->]. specialize (Htak j Hj). unfold goto, store. cbn [pSync].
      rewrite (upd_ne _ i 0) by lia.
      destruct (Z.eqb_spec j i) as [->|Hne]; [rewrite !upd_eq|rewrite upd_ne by done];
        (split_and!; [lia|lia| |intros Hd; by apply Hflag]); [|lia].
      pose proof (inv_release_flags s Hinv i Hj) as Hf. pose proof (inv_released s Hinv i Hj).
      destruct (arrivals_bound s i Hinv Hj) as (? & _ & _).
      unfold released, taken in *. rewrite Hc in *. rewrite Z.ltb_irrefl in *. lia.
    + intros Hd. rewrite (zsum_ext _ (fun i => arrivals s i - taken s i)).
      * unfold goto, store. cbn [pSync]. rewrite upd_ne by lia. by apply Hcount.
      * intros x Hx%others_elem. by rewrite (proj1 (Hrest x Hx)).
  - assert (Hrest : forall j, 1 <= j < PE_size -> taken (leave 0 s) j = taken s j /\
      released (leave 0 s) j = released s j).
    { intros j Hj. unfold taken, released, leave. cbn [pc left]. rewrite !upd_eq, Hc. case_ifs. }
    apply (leader_intro s); try done.
    + others_same.
    + unfold leave. cbn [pc entered left]. rewrite !upd_eq. simpl. lia.
    + intros j Hj. destruct (Hrest j Hj) as [-> ->]. specialize (Htak j Hj). unfold leave. cbn [pSync].
      split_and!; try lia. intros Hd. by apply Hflag.
    + intros Hd. rewrite (zsum_ext _ (fun i => arrivals s i - taken s i)); [by apply Hcount|].
      intros x Hx%others_elem. by rewrite (proj1 (Hrest x Hx)).
Qed.

Lemma leader_exec_inv s s' : inv s -> 1 <= PE_size -> exec 0 s = Some s' -> inv s'.
Proof.
  intros Hinv Hn. pose proof (inv_pc s Hinv 0 ltac:(unfold is_pe; lia)) as Hpc. unfold pc_ok in Hpc.
  destruct (pc s 0) eqn:Hc; try (exfalso; tauto).
  - by apply leader_enter.
  - by eapply leader_gather.
  - by eapply leader_clear.
  - by apply leader_gather_all.
  - by apply leader_clear_all.
  - by eapply leader_release.
Qed.

Lemma sync_exec_inv p s s' : inv s -> is_pe p -> exec p s = Some s' -> inv s'.
Proof.
  intros Hinv Hp He. destruct (Z.eq_dec p 0) as [->|Hne].
  - apply (leader_exec_inv s); [done|unfold is_pe in Hp; lia|done].
  - apply (other_exec_inv p s); [done|unfold is_pe in Hp; lia|done].
Qed.

Lemma sync_reachable_inv s s' : 1 <= PE_size -> initial s -> rtc step s s' -> inv s'.
Proof.
  intros Hn Hi Hr. eapply (rtc_invariant step inv); [|exact Hr|by apply sync_initial_inv].
  intros x y Hx [p s1 Hp He]. by eapply sync_exec_inv.
Qed.

(** Signals of the current round: the leader has taken all of them before it
    releases anybody. *)
Lemma leave_enter s p q : inv s -> is_pe p -> is_pe q -> left s p <= entered s q.
Proof.
  intros Hinv Hp Hq. pose proof (inv_calls s Hinv q Hq) as Hcq. unfold is_pe in *.
  assert (H0 : left s 0 <= entered s 0 /\ forall i, 1 <= i < PE_size -> released s i <= entered s 0).
  { pose proof (inv_calls s Hinv 0 ltac:(unfold is_pe; lia)) as Hc0. split.
    - destruct (pc s 0); simpl in Hc0; lia.
    - intros i Hi. unfold released. destruct (pc s 0); simpl in Hc0; case_ifs; lia. }
  assert (Hle : left s p <= entered s 0 /\ (q <> 0 -> left s p <= taken s q)).
  { destruct (Z.eq_dec p 0) as [->|Hne].
    - split; [tauto|]. intros Hq0. unfold taken. destruct (pc s 0); case_ifs; lia.
    - pose proof (inv_released s Hinv p ltac:(lia)) as Hr. split; [destruct H0 as [_ H0]; specialize (H0 p); lia|].
      intros Hq0. unfold released, taken in *. destruct (pc s 0); case_ifs; case_ifs_in Hr; lia. }
  destruct (Z.eq_dec q 0) as [->|Hq0]; [tauto|].
  pose proof (inv_taken s Hinv q ltac:(lia)) as Ht. unfold arrivals in Ht.
  destruct Hle as [_ Hle]. specialize (Hle Hq0). destruct (pc s q); lia.
Qed.

Lemma exec_entered p s s' q : exec p s = Some s' -> entered s q <= entered s' q.
Proof.
  unfold exec. destruct (pc s p); repeat case_match; intros [= <-]; unfold goto, enter, store, leave;
    cbn [entered]; try lia; unfold upd; case_ifs.
  all: try lia. all: subst. all: assert (q = p) as -> by lia. all: lia.
Qed.

(** ** Progress *)

(** A PE inside a call that cannot go on waits for a signal. *)
Lemma blocked_at p s : inv s -> is_pe p -> pc s p <> Out -> exec p s = None ->
  match pc s p with
  | Gather i => p = 0 /\ 1 <= i < PE_size /\ arrivals s i = taken s i
  | GatherAll => p = 0 /\ exists i, 1 <= i < PE_size /\ arrivals s i = taken s i
  | Wait => p <> 0 /\ left s p = released s p /\ entered s p = left s p + 1
  | _ => False
  end.
Proof.
  intros Hinv Hp Hin. pose proof (inv_pc s Hinv p Hp) as Hpc. pose proof (inv_calls s Hinv p Hp) as Hcalls.
  unfold exec, pc_ok in *. destruct (pc s p) as [|i|i| | |i| | |] eqn:Hc; try done.
  - destruct Hpc as (-> & Hd & Hi). pose proof (inv_arrival_flags s Hinv Hd i Hi) as Hf.
    destruct (arrivals_bound s i Hinv Hi) as (_ & Hb & _). pose proof (inv_taken s Hinv i Hi).
    destruct (Z.eqb_spec (pSync s 0 i) 1); [done|]. intros _. split_and!; lia.
  - destruct Hpc as (-> & Hd). pose proof (inv_arrival_count s Hinv Hd) as Hs.
    destruct (Z.eqb_spec (pSync s 0 0) (PE_size - 1)) as [|Hne]; [done|]. intros _. split; [done|].
    destruct (decide (Exists (fun i => arrivals s i = taken s i) others)) as [He|Hno].
    { apply Exists_exists in He as (i & Hi%others_elem & He). by exists i. }
    exfalso. apply Hne. rewrite Hs. rewrite (zsum_ext _ (fun _ => 1)).
    + rewrite zsum_ones. unfold others, is_pe in *. rewrite length_seqZ. lia.
    + intros x Hx. assert (Hne' : arrivals s x <> taken s x).
      { intros He. apply Hno. apply Exists_exists. by exists x. }
      apply others_elem in Hx. destruct (arrivals_bound s x Hinv Hx) as (_ & ? & _).
      pose proof (inv_taken s Hinv x Hx). lia.
  - destruct (Z.eqb_spec (pSync s p 0) 1); [done|]. intros _. unfold is_pe in Hp.
    pose proof (inv_release_flags s Hinv p ltac:(lia)). pose proof (inv_released s Hinv p ltac:(lia)).
    destruct (arrivals_bound s p Hinv ltac:(lia)) as (? & ? & ?). simpl in Hcalls.
    pose proof (inv_taken s Hinv p ltac:(lia)).
    assert (arrivals s p = left s p + 1) by (unfold arrivals; rewrite Hc; lia).
    split_and!; lia.
Qed.

(** A PE that waits for the leader, or for which the leader waits. *)
Lemma waiting_round s p : inv s -> is_pe p -> pc s p <> Out -> exec p s = None -> left s 0 < entered s p \/
  exists i, pc s 0 = Release i.
Proof.
  intros Hinv Hp Hin Hb. pose proof (blocked_at p s Hinv Hp Hin Hb) as H.
  pose proof (inv_calls s Hinv p Hp) as Hc.
  destruct (pc s p) eqn:Hpc; try done; simpl in Hc.
  - destruct H as (-> & _). left. lia.
  - destruct H as (-> & _). left. lia.
  - destruct H as (Hne & Hl & He). unfold released in Hl. destruct (pc s 0) eqn:Hp0; [left; lia..| |left; lia|left; lia|left; lia].
    right. by eexists.
Qed.

Lemma sync_progress_inv s p : inv s -> is_pe p -> pc s p <> Out ->
  (exists q s', is_pe q /\ pc s q <> Out /\ exec q s = Some s') \/
  (exists q, is_pe q /\ pc s q = Out /\ entered s q < entered s p).
Proof.
  intros Hinv Hp Hin. destruct (exec p s) as [s'|] eqn:Hep; [left; by exists p, s'|].
  assert (H0 : is_pe 0) by (unfold is_pe in *; lia).
  destruct (decide (pc s 0 = Out)) as [Ho|Hno].
  { right. exists 0. split_and!; try done. pose proof (inv_calls s Hinv 0 H0) as Hc. rewrite Ho in Hc. simpl in Hc.
    destruct (waiting_round s p Hinv Hp Hin Hep) as [|[i Hi]]; [lia|congruence]. }
  destruct (exec 0 s) as [s'|] eqn:He0; [left; by exists 0, s'|].
  pose proof (blocked_at 0 s Hinv H0 Hno He0) as Hb.
  assert (Hi : exists i, 1 <= i < PE_size /\ arrivals s i = taken s i /\ taken s i = left s 0).
  { destruct (pc s 0) as [|i|i| | |i| | |] eqn:Hc; try done.
    - exists i. destruct Hb as (_ & Hi & Ha). split_and!; try lia. unfold taken. rewrite Hc, Z.ltb_irrefl. lia.
    - destruct Hb as (_ & i & Hi & Ha). exists i. split_and!; try lia. unfold taken. rewrite Hc. lia.
    - destruct Hb; done. }
  destruct Hi as (i & Hi & Ha & Ht). assert (Hpi : is_pe i) by (unfold is_pe; lia).
  assert (Hlt : left s 0 < entered s p).
  { destruct (waiting_round s p Hinv Hp Hin Hep) as [|[j Hj]]; [done|]. by rewrite Hj in Hb. }
  destruct (decide (pc s i = Out)) as [Hio|Hin'].
  - right. exists i. split_and!; try done. unfold arrivals in Ha. rewrite Hio in Ha. lia.
  - left. destruct (exec i s) as [s'|] eqn:Hei; [by exists i, s'|]. exfalso.
    pose proof (blocked_at i s Hinv Hpi Hin' Hei) as Hbi.
    destruct (arrivals_bound s i Hinv Hi) as (_ & _ & Hrt). pose proof (inv_released s Hinv i Hi).
    unfold arrivals in Ha. destruct (pc s i) eqn:Hc; try done; [destruct Hbi as (-> & _); lia..|].
    destruct Hbi as (_ & Hl & He).
    assert (Hr : released s i = left s 0).
    { unfold released. by destruct (pc s 0) eqn:Hp0; try lia. }
    lia.
Qed.

(** ** Work left *)

(** Bound on the steps to the end of the call a PE is in. *)
Definition steps_left (c : counter) : Z :=
  match c with
  | Out => 0
  | Gather i => 2 * Z.max 0 (PE_size - i) + PE_size + 2
  | Clear i => 2 * Z.max 0 (PE_size - i) + PE_size + 1
  | GatherAll => PE_size + 3
  | ClearAll => PE_size + 2
  | Release i => Z.max 0 (PE_size - i) + 1
  | Arrive => 3
  | Wait => 2
  | Reset => 1
  end.

(** A call takes less than [call_steps] steps. *)
Definition call_steps : Z := 3 * PE_size + 4.

(** Bound on the steps of PE [p] before its second call. *)
Definition sync_work (s : state) (p : Z) : Z := (1 - entered s p) * call_steps + steps_left (pc s p).

Lemma sync_exec_work p s s' q : 1 <= PE_size -> exec p s = Some s' ->
  sync_work s' q <= sync_work s q /\ (q = p -> sync_work s' q < sync_work s q) /\
  (q <> p -> sync_work s' q = sync_work s q).
Proof.
  intros Hn He. assert (Hg : forall i, i < PE_size /\ steps_left (gather_from i) = 2 * (PE_size - i) + PE_size + 2 \/
    PE_size <= i /\ steps_left (gather_from i) = PE_size).
  { intros i. unfold gather_from. case_if; simpl; lia. }
  destruct (Z.eq_dec q p) as [->|Hne].
  - split; [|split; [intros _|done]]; enough (sync_work s' p < sync_work s p) by lia; revert He; unfold exec;
      destruct (pc s p) eqn:Hpc; repeat case_match; intros [= <-]; unfold sync_work, call_steps; cbn [pc entered goto store enter leave];
      rewrite ?upd_eq, Hpc; cbn [steps_left]; pose proof (Hg 1); try pose proof (Hg (i + 1)); lia.
  - assert (sync_work s' q = sync_work s q); [|lia]. revert He. unfold exec.
    destruct (pc s p) eqn:Hpc; repeat case_match; intros [= <-]; unfold sync_work; cbn [pc entered goto store enter leave];
      by rewrite ?upd_ne by done.
Qed.

Lemma steps_left_nonneg c : 1 <= PE_size -> 0 <= steps_left c.
Proof. destruct c; simpl; lia. Qed.
End barrier.

(** The flags of a team whose PEs are all between calls. *)
Lemma quiescent_flags PE_size s : 1 <= PE_size -> inv PE_size s -> (forall p, is_pe PE_size p -> pc s p = Out) ->
  (forall p, is_pe PE_size p -> left s p = left s 0) /\
  (forall i, 1 <= i < PE_size -> pSync s i 0 = 0 /\ (direct PE_size = true -> pSync s 0 i = 0)) /\
  (direct PE_size = false -> pSync s 0 0 = 0).
Proof.
  intros Hn Hinv Hout.
  assert (H0 : pc s 0 = Out) by (apply Hout; unfold is_pe; lia).
  assert (Heq : forall i, 1 <= i < PE_size ->
    arrivals s i = left s i /\ taken s i = left s 0 /\ released s i = left s 0 /\ left s i = left s 0).
  { intros i Hi. assert (Hpi : is_pe PE_size i) by (unfold is_pe; lia).
    pose proof (inv_calls _ s Hinv i Hpi) as Hc. rewrite (Hout i Hpi) in Hc. simpl in Hc.
    pose proof (inv_taken _ s Hinv i Hi). pose proof (inv_released _ s Hinv i Hi).
    unfold arrivals, taken, released in *. rewrite (Hout i Hpi), H0 in *. lia. }
  split_and!.
  - intros p Hp. destruct (Z.eq_dec p 0) as [->|]; [done|]. apply Heq. unfold is_pe in Hp. lia.
  - intros i Hi. destruct (Heq i Hi) as (Ha & Ht & Hr & Hl). split.
    + rewrite (inv_release_flags _ s Hinv i Hi). lia.
    + intros Hd. rewrite (inv_arrival_flags _ s Hinv Hd i Hi). lia.
  - intros Hd. rewrite (inv_arrival_count _ s Hinv Hd). apply zsum_zero. intros x Hx%others_elem.
    destruct (Heq x Hx) as (Ha & Ht & Hr & Hl). lia.
Qed.

#[export] Instance internal_sync_separates PE_size (Hn : 1 <= PE_size) :
  Separates PE_size (initial PE_size) (step PE_size) entered left.
Proof.
  split.
  - intros s p [Hpc _]. by destruct (Hpc p) as (_ & ? & _).
  - intros s s' p [q s1 Hq He]. by eapply exec_entered.
  - intros s s' p q Hi Hr Hp Hq. eapply leave_enter; [by eapply sync_reachable_inv|done|done].
Qed.

(** ** Properties *)

(** C23: however the PEs of a team interleave and however often they synchronise,
    no PE completes its [k]-th call of [internal_sync] before every PE has begun
    its own [k]-th call; and whenever all PEs are between calls they have
    completed the same number of calls and the flags are back at zero. *)
Theorem sync_is_a_barrier PE_size s0 s (Hn : 1 <= PE_size) (Hi : initial PE_size s0)
    (Hr : rtc (step PE_size) s0 s) :
  (forall p q, is_pe PE_size p -> is_pe PE_size q -> left s p <= entered s q) /\
  ((forall p, is_pe PE_size p -> pc s p = Out) ->
   (forall p, is_pe PE_size p -> left s p = left s 0) /\
   (forall i, 1 <= i < PE_size -> pSync s i 0 = 0 /\ (direct PE_size = true -> pSync s 0 i = 0)) /\
   (direct PE_size = false -> pSync s 0 0 = 0)).
Proof.
  pose proof (sync_reachable_inv PE_size s0 s Hn Hi Hr) as Hinv. split.
  - intros p q Hp Hq. by eapply leave_enter.
  - intros Hout. by apply quiescent_flags.
Qed.

(** The synchronisation does not deadlock: as long as some PE is inside a
    call, a PE inside a call can go on, or some PE has not yet made the call that
    the first one is in. *)
Theorem sync_progress PE_size s0 s p (Hn : 1 <= PE_size) (Hi : initial PE_size s0)
    (Hr : rtc (step PE_size) s0 s) (Hp : is_pe PE_size p) (Hin : pc s p <> Out) :
  (exists q s', is_pe PE_size q /\ pc s q <> Out /\ exec PE_size q s = Some s') \/
  (exists q, is_pe PE_size q /\ pc s q = Out /\ entered s q < entered s p).
Proof. apply sync_progress_inv; [by eapply sync_reachable_inv|done|done]. Qed.

(** ** Three PEs *)

Definition demo_initial : state := mkState (fun _ _ => 0) (fun _ => Out) (fun _ => 0) (fun _ => 0).

Lemma demo_initial_ok n : initial n demo_initial.
Proof. by split. Qed.

Definition demo_entered : state := goto 1 Arrive (enter 1 demo_initial).

Lemma demo_entered_reachable : rtc (step 3) demo_initial demo_entered.
Proof. apply rtc_once. apply (step_pe 3 _ 1); [unfold is_pe; lia|reflexivity]. Qed.

Lemma sync_is_a_barrier_witness : left demo_entered 1 <= entered demo_entered 2.
Proof.
  refine (proj1 (sync_is_a_barrier 3 demo_initial demo_entered _ (demo_initial_ok 3)
    demo_entered_reachable) 1 2 _ _); unfold is_pe; lia.
Defined.

Lemma sync_progress_witness :
  (exists q s', is_pe 3 q /\ pc demo_entered q <> Out /\ exec 3 q demo_entered = Some s') \/
  (exists q, is_pe 3 q /\ pc demo_entered q = Out /\ entered demo_entered q < entered demo_entered 1).
Proof.
  apply (sync_progress 3 demo_initial demo_entered 1); [lia|apply demo_initial_ok|
    apply demo_entered_reachable|unfold is_pe; lia|vm_compute; discriminate].
Defined.
