(* ===== verification/GdaBarrier.v ===== *)
(** * Team synchronisation over the network cards

    Model of [GDAContext::internal_sync], [internal_direct_barrier],
    [internal_atomic_barrier] and [internal_direct_barrier_wg]
    ([src/gda/context_gda_device_coll.cpp]), run any number of times by the PEs of
    a team in any interleaving.  PEs are named by their rank, as in [Barrier].  A
    put of a flag is posted, delivered later and waited for; the card reads the
    flag when it delivers the put, or when it is posted for an inline request.
    The direct barrier refines the barrier over IPC; the atomic one loses
    arrivals. *)

From Stdlib Require Import ZArith Lia.
From stdpp Require Import base option numbers list relations.
From S2P Require Import Prelude Barrier Loops.

Open Scope Z_scope.

Module GdaSync.

(** ** Data *)

Inductive counter :=
  | Out                 (* between calls *)
  | Gather (i : Z)      (* leader, direct: wait for PE i *)
  | Clear (i : Z)       (* leader, direct: reset the flag of PE i *)
  | Mark (i : Z)        (* leader, direct: store the flag to send *)
  | Post (i : Z)        (* leader, direct: post the put to PE i *)
  | Quiet (i : Z)       (* leader, direct: wait for the put to PE i *)
  | GatherAll           (* leader, atomic: wait for the count *)
  | ClearAll            (* leader, atomic: reset the count *)
  | MarkAll             (* leader, atomic: store the flag to send *)
  | PostAll (i : Z)     (* leader, atomic: post the put to PE i *)
  | QuietAll            (* leader, atomic: wait for all puts *)
  | Last                (* leader: reset its own flag *)
  | MarkArrive          (* others, direct: store the flag to send *)
  | PostArrive          (* others, direct: post the put to the leader *)
  | QuietArrive         (* others, direct: wait for the put *)
  | Add                 (* others, atomic: post the addition *)
  | Wait                (* others: wait for the leader *)
  | Reset               (* others: reset the flag *)
  | ResetOwn.           (* others, direct: reset the flag that was sent *)

#[export] Instance counter_eq_dec : EqDecision counter.
Proof. solve_decision. Defined.

(** A request on its way: a put of the flag with index [i] to the same index of [target],
    with the value if the request carries it, or an addition. *)
Inductive request :=
  | PutFlag (target i : Z) (inline_value : option Z)
  | AddFlag (target i value : Z).

Record state := mkState {
  pSync : Z -> Z -> Z;
  pc : Z -> counter;
  entered : Z -> Z;
  left : Z -> Z;
  inflight : Z -> list request
}.

Section barrier.
Context (PE_size : Z) (inlined : bool).

Definition store (p i x : Z) (s : state) : state :=
  mkState (upd (pSync s) p (upd (pSync s p) i x)) (pc s) (entered s) (left s) (inflight s).

Definition goto (p : Z) (c : counter) (s : state) : state :=
  mkState (pSync s) (upd (pc s) p c) (entered s) (left s) (inflight s).

Definition enter (p : Z) (s : state) : state :=
  mkState (pSync s) (pc s) (upd (entered s) p (entered s p + 1)) (left s) (inflight s).

Definition leave (p : Z) (s : state) : state :=
  mkState (pSync s) (upd (pc s) p Out) (entered s) (upd (left s) p (left s p + 1)) (inflight s).

Definition post (p : Z) (r : request) (s : state) : state :=
  mkState (pSync s) (pc s) (entered s) (left s) (upd (inflight s) p (inflight s p ++ [r])).

(** A put from [p] of its flag [i] to the flag [i] of [target]. *)
Definition put_flag (p target i : Z) (s : state) : state :=
  post p (PutFlag target i (if inlined then Some (pSync s p i) else None)) s.

Definition quiet (p : Z) (c : counter) (s : state) : option state :=
  if decide (inflight s p = []) then Some (goto p c s) else None.

(** ** Operations *)

Definition direct : bool := PE_size <? 64.

(** The loops of the leader over the other PEs. *)
Definition release_from (i : Z) : counter := if i <? PE_size then Mark i else Last.

Definition gather_from (i : Z) : counter := if i <? PE_size then Gather i else release_from 1.

Definition internal_direct_barrier (me : Z) (s : state) : option state :=
  match pc s me with
  | Gather i => if pSync s me i =? 1 then Some (goto me (Clear i) s) else None
  | Clear i => Some (goto me (gather_from (i + 1)) (store me i 0 s))
  | Mark i => Some (goto me (Post i) (store me 0 1 s))
  | Post i => Some (goto me (Quiet i) (put_flag me i 0 s))
  | Quiet i => quiet me (release_from (i + 1)) s
  | Last => Some (leave me (store me 0 0 s))
  | MarkArrive => Some (goto me PostArrive (store me me 1 s))
  | PostArrive => Some (goto me QuietArrive (put_flag me 0 me s))
  | QuietArrive => quiet me Wait s
  | Wait => if pSync s me 0 =? 1 then Some (goto me Reset s) else None
  | Reset => Some (goto me ResetOwn (store me 0 0 s))
  | ResetOwn => Some (leave me (store me me 0 s))
  | _ => None
  end.

Definition internal_atomic_barrier (me : Z) (s : state) : option state :=
  match pc s me with
  | GatherAll => if pSync s me 0 =? PE_size - 1 then Some (goto me ClearAll s) else None
  | ClearAll => Some (goto me MarkAll (store me 0 0 s))
  | MarkAll => Some (goto me (PostAll 1) (store me 0 1 s))
  | PostAll i =>
      Some (if i <? PE_size then goto me (PostAll (i + 1)) (put_flag me i 0 s)
            else goto me QuietAll s)
  | QuietAll => quiet me Last s
  | Last => Some (leave me (store me 0 0 s))
  | Add => Some (goto me Wait (post me (AddFlag 0 0 1) s))
  | Wait => if pSync s me 0 =? 1 then Some (goto me Reset s) else None
  | Reset => Some (leave me (store me 0 0 s))
  | _ => None
  end.

Definition internal_sync (me : Z) (s : state) : option state :=
  match pc s me with
  | Out =>
      Some (goto me (if direct then (if me =? 0 then gather_from 1 else MarkArrive)
                     else (if me =? 0 then GatherAll else Add)) (enter me s))
  | _ => if direct then internal_direct_barrier me s else internal_atomic_barrier me s
  end.

(** The card of [p] carries out its request number [k]. *)
Definition deliver (p : Z) (k : nat) (s : state) : option state :=
  match inflight s p !! k with
  | None => None
  | Some r =>
      let s' := mkState (pSync s) (pc s) (entered s) (left s)
                  (upd (inflight s) p (delete k (inflight s p))) in
      Some (match r with
            | PutFlag target i v => store target i (default (pSync s p i) v) s'
            | AddFlag target i v => store target i (pSync s target i + v) s'
            end)
  end.

Definition is_pe (p : Z) : Prop := 0 <= p < PE_size.

Inductive step (s : state) : state -> Prop :=
  | step_pe p s' : is_pe p -> internal_sync p s = Some s' -> step s s'
  | step_deliver p k s' : is_pe p -> deliver p k s = Some s' -> step s s'.

Definition initial (s : state) : Prop :=
  (forall p, pc s p = Out /\ entered s p = 0 /\ left s p = 0 /\ inflight s p = []) /\
  (forall p i, is_pe p -> 0 <= i < PE_size -> pSync s p i = 0).

End barrier.

(** ** Refinement of the barrier over IPC *)

Section refinement.
Context (PE_size : Z) (inlined : bool).
Hypothesis Hn : 1 <= PE_size < 64.

Notation is_pe := (is_pe PE_size).

(** The position in [Barrier] that a position of a PE with the given requests on their way
    stands for. *)
Definition abs_pc (fl : list request) (c : counter) : Barrier.counter :=
  match c with
  | Gather i => Barrier.Gather i
  | Clear i => Barrier.Clear i
  | Mark i | Post i => Barrier.Release i
  | Quiet i => Barrier.Release (if decide (fl = []) then i + 1 else i)
  | Last => Barrier.Release PE_size
  | MarkArrive | PostArrive => Barrier.Arrive
  | QuietArrive => if decide (fl = []) then Barrier.Wait else Barrier.Arrive
  | Wait => Barrier.Wait
  | Reset => Barrier.Reset
  | _ => Barrier.Out
  end.

(** At [ResetOwn] the call is over for [Barrier]. *)
Definition over (c : counter) : Z := match c with ResetOwn => 1 | _ => 0 end.

(** A put of a flag that is 1. *)
Definition sends_one (r : request) (target i : Z) : Prop :=
  exists v, r = PutFlag target i v /\ (v = None \/ v = Some 1).

(** The requests on their way and the flag that they send, for each position. *)
Definition pc_ok (s : state) (p : Z) : Prop :=
  match pc s p with
  | Out => inflight s p = []
  | Gather i | Clear i | Mark i => p = 0 /\ 1 <= i < PE_size /\ inflight s p = []
  | Post i => p = 0 /\ 1 <= i < PE_size /\ inflight s p = [] /\ pSync s p p = 1
  | Quiet i => p = 0 /\ 1 <= i < PE_size /\ pSync s p p = 1 /\
      (inflight s p = [] \/ exists r, inflight s p = [r] /\ sends_one r i 0)
  | Last => p = 0 /\ inflight s p = []
  | MarkArrive | Wait | Reset | ResetOwn => p <> 0 /\ inflight s p = []
  | PostArrive => p <> 0 /\ inflight s p = [] /\ pSync s p p = 1
  | QuietArrive => p <> 0 /\ pSync s p p = 1 /\
      (inflight s p = [] \/ exists r, inflight s p = [r] /\ sends_one r 0 p)
  | _ => False
  end.

(** The flags that the PEs wait for are the flags of [Barrier]; the flags that they only
    send from are not. *)
Record rel (s : state) (a : Barrier.state) : Prop := {
  rel_pc : forall p, is_pe p -> Barrier.pc a p = abs_pc (inflight s p) (pc s p);
  rel_entered : forall p, is_pe p -> Barrier.entered a p = entered s p;
  rel_left : forall p, is_pe p -> Barrier.left a p = left s p + over (pc s p);
  rel_arrive : forall i, 1 <= i < PE_size -> Barrier.pSync a 0 i = pSync s 0 i;
  rel_release : forall i, 1 <= i < PE_size -> Barrier.pSync a i 0 = pSync s i 0;
  rel_ok : forall p, is_pe p -> pc_ok s p
}.

(** A step of PE [p] or of its card. *)
Lemma rel_intro p s s' a a' : rel s a -> is_pe p ->
  (forall q, q <> p -> pc s' q = pc s q /\ entered s' q = entered s q /\ left s' q = left s q /\
     inflight s' q = inflight s q /\ pSync s' q q = pSync s q q /\
     Barrier.pc a' q = Barrier.pc a q /\ Barrier.entered a' q = Barrier.entered a q /\
     Barrier.left a' q = Barrier.left a q) ->
  (forall i, 1 <= i < PE_size ->
     Barrier.pSync a' 0 i = pSync s' 0 i /\ Barrier.pSync a' i 0 = pSync s' i 0) ->
  Barrier.pc a' p = abs_pc (inflight s' p) (pc s' p) ->
  Barrier.entered a' p = entered s' p ->
  Barrier.left a' p = left s' p + over (pc s' p) ->
  pc_ok s' p -> rel s' a'.
Proof.
  intros Hr Hp Hq Hcells Hpc He Hl Hok. split.
  - intros q Hqp. destruct (Z.eq_dec q p) as [->|Hne]; [done|].
    destruct (Hq q Hne) as (-> & _ & _ & -> & _ & -> & _). by apply Hr.
  - intros q Hqp. destruct (Z.eq_dec q p) as [->|Hne]; [done|].
    destruct (Hq q Hne) as (_ & -> & _ & _ & _ & _ & -> & _). by apply Hr.
  - intros q Hqp. destruct (Z.eq_dec q p) as [->|Hne]; [done|].
    destruct (Hq q Hne) as (-> & _ & -> & _ & _ & _ & _ & ->). by apply Hr.
  - intros i Hi. by apply Hcells.
  - intros i Hi. by apply Hcells.
  - intros q Hqp. destruct (Z.eq_dec q p) as [->|Hne]; [done|].
    destruct (Hq q Hne) as (E1 & _ & _ & E4 & E5 & _). unfold pc_ok.
    rewrite E1, E4, E5. by apply (rel_ok s a Hr q Hqp).
Qed.

Lemma rel_initial s : initial PE_size s ->
  exists a, Barrier.initial PE_size a /\ rel s a.
Proof using Hn.
  intros [Hpc Hs].
  exists (Barrier.mkState (pSync s) (fun _ => Barrier.Out) (fun _ => 0) (fun _ => 0)). split.
  - split; [done|]. intros p i Hp Hi. by apply Hs.
  - split; intros p Hp; try done; unfold pc_ok;
      destruct (Hpc p) as (Epc & Een & Ele & Efl); rewrite ?Epc; cbn; lia || done.
Qed.

(** Evaluates the fields of a state after an operation at the PE that moved. *)
Ltac fields :=
  cbn [pSync pc entered left inflight store goto enter leave post put_flag
       Barrier.pSync Barrier.pc Barrier.entered Barrier.left
       Barrier.store Barrier.goto Barrier.enter Barrier.leave];
  repeat first [rewrite upd_eq | rewrite upd_ne by (done || lia)].

Ltac ranks :=
  repeat (match goal with |- context [?x =? ?y] => destruct (Z.eqb_spec x y) end; subst; try lia).

(** The flags that both sides wait for, after the same store on both sides. *)
Ltac flags Hr :=
  let i := fresh "i" in let Hi := fresh "Hi" in
  intros i Hi; pose proof (rel_arrive _ _ Hr i Hi); pose proof (rel_release _ _ Hr i Hi);
  fields; unfold upd; ranks; split; lia || congruence.

(** Nothing of the other PEs changes. *)
Ltac others :=
  let q := fresh "q" in let Hq := fresh "Hq" in
  intros q Hq; fields; split_and!; try done;
  unfold upd; ranks; done.

Lemma direct_n : direct PE_size = true /\ Barrier.direct PE_size = true.
Proof using Hn. unfold direct, Barrier.direct. lia. Qed.

(** A step that [Barrier] does not see. *)
Lemma sim_stutter p s s' a : rel s a -> is_pe p ->
  (forall q, q <> p -> pc s' q = pc s q /\ entered s' q = entered s q /\ left s' q = left s q /\
     inflight s' q = inflight s q /\ pSync s' q q = pSync s q q) ->
  (forall i, 1 <= i < PE_size -> pSync s' 0 i = pSync s 0 i /\ pSync s' i 0 = pSync s i 0) ->
  abs_pc (inflight s' p) (pc s' p) = abs_pc (inflight s p) (pc s p) ->
  entered s' p = entered s p -> left s' p + over (pc s' p) = left s p + over (pc s p) ->
  pc_ok s' p -> exists a', rtc (Barrier.step PE_size) a a' /\ rel s' a'.
Proof.
  intros Hr Hp Hq Hc Hpc He Hl Hok. exists a. split; [done|].
  apply (rel_intro p s s' a a Hr Hp); try done.
  - intros q Hne. destruct (Hq q Hne) as (?&?&?&?&?). split_and!; done.
  - intros i Hi. destruct (Hc i Hi) as [-> ->]. split; by apply Hr.
  - rewrite Hpc. by apply Hr.
  - rewrite He. by apply Hr.
  - rewrite Hl. by apply Hr.
Qed.

(** A step that [Barrier] takes too. *)
Lemma sim_step p s' a a' : is_pe p -> Barrier.exec PE_size p a = Some a' -> rel s' a' ->
  exists a', rtc (Barrier.step PE_size) a a' /\ rel s' a'.
Proof.
  intros Hp He Hr. exists a'. split; [|done]. apply rtc_once. by apply (Barrier.step_pe _ _ p).
Qed.

Lemma sim_call p s s' a : rel s a -> is_pe p -> pc s p = Out ->
  internal_sync PE_size inlined p s = Some s' ->
  exists a', rtc (Barrier.step PE_size) a a' /\ rel s' a'.
Proof using Hn.
  intros Hr Hp Hc. destruct direct_n as [Hd Hd']. unfold internal_sync. rewrite Hc, Hd.
  intros [= <-]. pose proof (rel_pc s a Hr p Hp) as Ha. rewrite Hc in Ha.
  pose proof (rel_ok s a Hr p Hp) as Hok. unfold pc_ok in Hok. rewrite Hc in Hok.
  pose proof (rel_entered s a Hr p Hp) as He. pose proof (rel_left s a Hr p Hp) as Hl.
  rewrite Hc in Hl. eapply (sim_step p); [done| |].
  { unfold Barrier.exec. rewrite Ha, Hd'. reflexivity. }
  apply (rel_intro p s _ a _ Hr Hp); [others|flags Hr| | | |]; fields.
  - rewrite Hok. unfold gather_from, release_from, Barrier.gather_from.
    destruct (p =? 0); [|done]. destruct (Z.ltb_spec 1 PE_size); [done|].
    cbn. f_equal. lia.
  - lia.
  - rewrite Hl. unfold gather_from, release_from. case_ifs; done.
  - unfold pc_ok. fields. unfold gather_from, release_from.
    destruct (Z.eqb_spec p 0); [|by split]. destruct (Z.ltb_spec 1 PE_size); split_and!; done || lia.
Qed.

(** The leader gathers the flags of the others. *)
Lemma sim_gather p s s' a : rel s a -> is_pe p ->
  (exists i, pc s p = Gather i \/ pc s p = Clear i) ->
  internal_direct_barrier PE_size inlined p s = Some s' ->
  exists a', rtc (Barrier.step PE_size) a a' /\ rel s' a'.
Proof using Hn.
  intros Hr Hp [i Hc]. unfold internal_direct_barrier.
  pose proof (rel_pc s a Hr p Hp) as Ha. pose proof (rel_ok s a Hr p Hp) as Hok.
  pose proof (rel_entered s a Hr p Hp) as He. pose proof (rel_left s a Hr p Hp) as Hl.
  unfold pc_ok in Hok. destruct Hc as [Hc|Hc]; rewrite Hc in *; destruct Hok as (-> & Hi & Hf).
  - pose proof (rel_arrive s a Hr i Hi) as Hfl. destruct (Z.eqb_spec (pSync s 0 i) 1) as [E|]; [|done].
    intros [= <-]. eapply (sim_step 0); [done| |].
    { unfold Barrier.exec. rewrite Ha. cbn [abs_pc]. rewrite Hfl, E. reflexivity. }
    apply (rel_intro 0 s _ a _ Hr Hp); [others|flags Hr| | | |]; unfold pc_ok; fields; done.
  - intros [= <-]. eapply (sim_step 0); [done| |].
    { unfold Barrier.exec. rewrite Ha. reflexivity. }
    apply (rel_intro 0 s _ a _ Hr Hp); [others|flags Hr| | | |]; fields; try done.
    + unfold gather_from, release_from, Barrier.gather_from. rewrite Hf.
      destruct (Z.ltb_spec (i + 1) PE_size); [done|].
      destruct (Z.ltb_spec 1 PE_size); cbn; [done|]. f_equal. lia.
    + unfold gather_from, release_from. case_ifs; done.
    + unfold pc_ok. fields. unfold gather_from, release_from.
      destruct (Z.ltb_spec (i + 1) PE_size); [split_and!; done || lia|].
      destruct (Z.ltb_spec 1 PE_size); split_and!; done || lia.
Qed.

(** The leader prepares, posts and completes a put, which [Barrier] does not see. *)
Lemma sim_release p s s' a : rel s a -> is_pe p ->
  (exists i, pc s p = Mark i \/ pc s p = Post i \/ pc s p = Quiet i) ->
  internal_direct_barrier PE_size inlined p s = Some s' ->
  exists a', rtc (Barrier.step PE_size) a a' /\ rel s' a'.
Proof using Hn.
  intros Hr Hp [i Hc]. unfold internal_direct_barrier.
  pose proof (rel_ok s a Hr p Hp) as Hok. unfold pc_ok in Hok.
  destruct Hc as [Hc|[Hc|Hc]]; rewrite Hc in *; destruct Hok as (-> & Hi & Hok).
  - intros [= <-]. apply (sim_stutter 0 s _ a Hr Hp); [others|flags Hr|..]; fields; rewrite ?Hc; done.
  - destruct Hok as [Hf Hv]. intros [= <-].
    apply (sim_stutter 0 s _ a Hr Hp); [others|flags Hr|..]; fields; try (rewrite ?Hc; done).
    + rewrite Hc, Hf. cbn. done.
    + unfold pc_ok. fields. split_and!; try done || lia. right. rewrite Hf. eexists. split; [done|].
      eexists. split; [done|]. rewrite Hv. destruct inlined; [by right|by left].
  - destruct Hok as [Hv Hf]. unfold quiet. destruct (decide (inflight s 0 = [])) as [E|]; [|done].
    intros [= <-]. apply (sim_stutter 0 s _ a Hr Hp); [others|flags Hr|..]; fields; try done.
    + rewrite Hc, E. cbn [abs_pc]. rewrite decide_True by done. unfold release_from.
      destruct (Z.ltb_spec (i + 1) PE_size); cbn [abs_pc]; f_equal; lia.
    + rewrite Hc. unfold release_from. case_if; done.
    + unfold pc_ok. fields. unfold release_from.
      destruct (Z.ltb_spec (i + 1) PE_size); split_and!; done || lia.
Qed.

Lemma sim_last p s s' a : rel s a -> is_pe p -> pc s p = Last ->
  internal_direct_barrier PE_size inlined p s = Some s' ->
  exists a', rtc (Barrier.step PE_size) a a' /\ rel s' a'.
Proof using Hn.
  intros Hr Hp Hc. unfold internal_direct_barrier. rewrite Hc. intros [= <-].
  pose proof (rel_pc s a Hr p Hp) as Ha. pose proof (rel_ok s a Hr p Hp) as Hok.
  pose proof (rel_entered s a Hr p Hp) as He. pose proof (rel_left s a Hr p Hp) as Hl.
  unfold pc_ok in Hok. rewrite Hc in *. destruct Hok as (-> & Hf).
  eapply (sim_step 0); [done| |].
  { unfold Barrier.exec. rewrite Ha. cbn [abs_pc]. rewrite Z.ltb_irrefl. reflexivity. }
  apply (rel_intro 0 s _ a _ Hr Hp); [others|flags Hr| | | |]; unfold pc_ok; fields; try done.
  rewrite Hl. cbn [over]. lia.
Qed.

(** The others prepare, post and complete the put of their arrival, and reset the flag
    they sent, which [Barrier] does not see. *)
Lemma sim_arrive p s s' a : rel s a -> is_pe p ->
  pc s p ∈ [MarkArrive; PostArrive; QuietArrive; ResetOwn] ->
  internal_direct_barrier PE_size inlined p s = Some s' ->
  exists a', rtc (Barrier.step PE_size) a a' /\ rel s' a'.
Proof using Hn.
  intros Hr Hp Hc. unfold internal_direct_barrier.
  pose proof (rel_ok s a Hr p Hp) as Hok. unfold pc_ok in Hok.
  rewrite !elem_of_cons, elem_of_nil in Hc.
  destruct Hc as [Hc|[Hc|[Hc|[Hc|[]]]]]; rewrite Hc in *.
  - destruct Hok as [Hne Hf]. intros [= <-].
    apply (sim_stutter p s _ a Hr Hp); [others|flags Hr|..]; unfold pc_ok; fields; rewrite ?Hc; done.
  - destruct Hok as (Hne & Hf & Hv). intros [= <-].
    apply (sim_stutter p s _ a Hr Hp); [others|flags Hr|..]; unfold pc_ok; fields; rewrite ?Hc; try done.
    + rewrite Hf. done.
    + split_and!; try done. right. rewrite Hf. eexists. split; [done|].
      eexists. split; [done|]. rewrite Hv. destruct inlined; [by right|by left].
  - destruct Hok as (Hne & Hv & Hf). unfold quiet.
    destruct (decide (inflight s p = [])) as [E|]; [|done]. intros [= <-].
    apply (sim_stutter p s _ a Hr Hp); [others|flags Hr|..]; unfold pc_ok; fields; rewrite ?Hc; try done.
    rewrite E. cbn [abs_pc]. by rewrite decide_True.
  - destruct Hok as [Hne Hf]. intros [= <-].
    apply (sim_stutter p s _ a Hr Hp); [others|flags Hr|..]; unfold pc_ok; fields; rewrite ?Hc; try done.
    cbn [over]. lia.
Qed.

Lemma sim_wait p s s' a : rel s a -> is_pe p -> pc s p = Wait \/ pc s p = Reset ->
  internal_direct_barrier PE_size inlined p s = Some s' ->
  exists a', rtc (Barrier.step PE_size) a a' /\ rel s' a'.
Proof using Hn.
  intros Hr Hp Hc. unfold internal_direct_barrier. assert (Hp' := Hp). unfold GdaSync.is_pe in Hp'.
  pose proof (rel_pc s a Hr p Hp) as Ha. pose proof (rel_ok s a Hr p Hp) as Hok.
  pose proof (rel_entered s a Hr p Hp) as He. pose proof (rel_left s a Hr p Hp) as Hl.
  unfold pc_ok in Hok. destruct Hc as [Hc|Hc]; rewrite Hc in *; destruct Hok as (Hne & Hf).
  - pose proof (rel_release s a Hr p ltac:(lia)) as Hfl.
    destruct (Z.eqb_spec (pSync s p 0) 1) as [E|]; [|done]. intros [= <-].
    eapply (sim_step p); [done| |].
    { unfold Barrier.exec. rewrite Ha. cbn [abs_pc]. rewrite Hfl, E. reflexivity. }
    apply (rel_intro p s _ a _ Hr Hp); [others|flags Hr| | | |]; unfold pc_ok; fields; done.
  - intros [= <-]. eapply (sim_step p); [done| |].
    { unfold Barrier.exec. rewrite Ha. reflexivity. }
    apply (rel_intro p s _ a _ Hr Hp); [others|flags Hr| | | |]; unfold pc_ok; fields; try done.
    rewrite Hl. cbn [over]. lia.
Qed.

(** The card delivers the only request of its PE, which is the signal of [Barrier]. *)
Lemma sim_deliver p k s s' a : rel s a -> is_pe p -> deliver p k s = Some s' ->
  exists a', rtc (Barrier.step PE_size) a a' /\ rel s' a'.
Proof using Hn.
  intros Hr Hp. unfold deliver. assert (Hp' := Hp). unfold GdaSync.is_pe in Hp'.
  pose proof (rel_pc s a Hr p Hp) as Ha. pose proof (rel_ok s a Hr p Hp) as Hok.
  pose proof (rel_entered s a Hr p Hp) as He. pose proof (rel_left s a Hr p Hp) as Hl.
  destruct direct_n as [_ Hd]. unfold pc_ok in Hok.
  destruct (inflight s p !! k) as [r|] eqn:Ek; [|done].
  assert (Hne : inflight s p <> []) by (intros E; by rewrite E in Ek).
  destruct (pc s p) as [|i|i|i|i|i| | | |i| | | | | | | | |] eqn:Hc; try (naive_solver; fail).
  - destruct Hok as (-> & Hi & Hv & [?|(r' & Hf & v & Hrv & Hval)]); [done|].
    rewrite Hf in Ek, Ha. destruct k; [|done]. injection Ek as <-. subst r'. intros [= <-].
    eapply (sim_step 0); [done| |].
    { unfold Barrier.exec. rewrite Ha. cbn [abs_pc]. rewrite decide_False by done.
      rewrite (proj2 (Z.ltb_lt i PE_size)) by lia. reflexivity. }
    assert (Hone : default (pSync s 0 0) v = 1) by (destruct Hval as [-> | ->]; done).
    rewrite Hone, Hf. apply (rel_intro 0 s _ a _ Hr Hp); [others|flags Hr| | | |];
      unfold pc_ok; fields; rewrite ?Hc; try done. split_and!; try done || lia. by left.
  - destruct Hok as (Hp0 & Hv & [?|(r' & Hf & v & Hrv & Hval)]); [done|].
    rewrite Hf in Ek, Ha. destruct k; [|done]. injection Ek as <-. subst r'. intros [= <-].
    eapply (sim_step p); [done| |].
    { unfold Barrier.exec. rewrite Ha. cbn [abs_pc]. rewrite decide_False, Hd by done. reflexivity. }
    assert (Hone : default (pSync s p p) v = 1) by (destruct Hval as [-> | ->]; done).
    rewrite Hone, Hf. apply (rel_intro p s _ a _ Hr Hp); [others|flags Hr| | | |];
      unfold pc_ok; fields; rewrite ?Hc; try done. split_and!; try done. by left.
Qed.

Lemma sim_any s s' a : rel s a -> step PE_size inlined s s' ->
  exists a', rtc (Barrier.step PE_size) a a' /\ rel s' a'.
Proof using Hn.
  intros Hr [p t Hp He|p k t Hp He]; [|by eapply sim_deliver].
  pose proof (rel_ok s a Hr p Hp) as Hok. unfold pc_ok in Hok.
  destruct (pc s p) eqn:Hc; try done; try (by eapply sim_call);
    unfold internal_sync in He; rewrite Hc, (proj1 direct_n) in He.
  all: first [ by eapply (sim_gather p); eauto | by eapply (sim_release p); eauto
             | by eapply (sim_last p) | by eapply (sim_wait p); eauto
             | by eapply (sim_arrive p); eauto; rewrite Hc, !elem_of_cons; tauto ].
Qed.

(** Every run is a run of [Barrier]. *)
Lemma gda_sync_simulates s0 s : initial PE_size s0 -> rtc (step PE_size inlined) s0 s ->
  exists a0 a, Barrier.initial PE_size a0 /\ rtc (Barrier.step PE_size) a0 a /\ rel s a.
Proof using Hn.
  intros Hi Hr. destruct (rel_initial s0 Hi) as (a0 & Ha0 & Hrel).
  enough (exists a, rtc (Barrier.step PE_size) a0 a /\ rel s a) as (a & ? & ?) by (by exists a0, a).
  clear Hi Ha0. revert a0 Hrel. induction Hr as [s|s s1 s2 Hs _ IH]; intros a0 Hrel; [by exists a0|].
  destruct (sim_any s s1 a0 Hrel Hs) as (a1 & H1 & Hrel1).
  destruct (IH a1 Hrel1) as (a2 & H2 & Hrel2). exists a2. split; [by etrans|done].
Qed.

(** ** Progress *)

(** A PE that can move in [Barrier] can move itself or its card can. *)
Lemma can_move p s a a' : rel s a -> is_pe p -> Barrier.pc a p <> Barrier.Out ->
  Barrier.exec PE_size p a = Some a' ->
  exists s', internal_sync PE_size inlined p s = Some s' \/ deliver p 0 s = Some s'.
Proof using Hn.
  intros Hr Hp Hout He. pose proof (rel_pc s a Hr p Hp) as Ha. pose proof (rel_ok s a Hr p Hp) as Hok.
  unfold pc_ok, internal_sync, internal_direct_barrier in *. rewrite (proj1 direct_n).
  assert (Hp' := Hp). unfold GdaSync.is_pe in Hp'. unfold Barrier.exec in He. rewrite Ha in He, Hout.
  assert (Hq : (inflight s p = [] \/ exists r, inflight s p = [r]) ->
    forall c, exists s', quiet p c s = Some s' \/ deliver p 0 s = Some s').
  { intros [E|[r E]] c; unfold quiet, deliver; rewrite E; eexists; [left|right]; done. }
  destruct (pc s p) as [|i|i|i|i|i| | | |i| | | | | | | | |] eqn:Hc; cbn [abs_pc] in He; try done;
    try (eexists; left; reflexivity).
  - destruct Hok as (-> & Hi & _). rewrite (rel_arrive s a Hr i Hi) in He.
    destruct (pSync s 0 i =? 1); [|done]. eexists. by left.
  - apply Hq. destruct Hok as (_ & _ & _ & [?|(r & ? & _)]); [by left|right; by exists r].
  - apply Hq. destruct Hok as (_ & _ & [?|(r & ? & _)]); [by left|right; by exists r].
  - destruct Hok as [Hne _]. rewrite (rel_release s a Hr p ltac:(lia)) in He.
    destruct (pSync s p 0 =? 1); [|done]. eexists. by left.
Qed.

Lemma abs_out s a p : rel s a -> is_pe p -> Barrier.pc a p = Barrier.Out ->
  pc s p = Out \/ exists s', internal_sync PE_size inlined p s = Some s'.
Proof using Hn.
  intros Hr Hp Ha. rewrite (rel_pc s a Hr p Hp) in Ha.
  pose proof (rel_ok s a Hr p Hp) as Hok. unfold pc_ok in Hok.
  destruct (pc s p) eqn:Hc; try done; [by left|cbn in Ha; case_decide; done|].
  right. unfold internal_sync, internal_direct_barrier. rewrite Hc, (proj1 direct_n). by eexists.
Qed.

End refinement.

(** ** Properties *)

(** C22: for teams of less than 64 PEs the synchronisation over the network cards refines the
    one over IPC: however the PEs and the deliveries of their puts interleave and whether or
    not a request carries its value, every run stands for a run of [Barrier] with the same
    calls begun, so no PE completes its [k]-th call before every PE has begun its own. *)
Theorem gda_sync_is_a_barrier PE_size inlined s0 s
  (Hn : 1 <= PE_size < 64) (Hi : initial PE_size s0) (Hr : rtc (step PE_size inlined) s0 s) :
  (exists a0 a, Barrier.initial PE_size a0 /\ rtc (Barrier.step PE_size) a0 a /\
     forall p, is_pe PE_size p -> Barrier.entered a p = entered s p /\
       left s p <= Barrier.left a p <= left s p + 1) /\
  (forall p q, is_pe PE_size p -> is_pe PE_size q -> left s p <= entered s q).
Proof.
  destruct (gda_sync_simulates PE_size inlined Hn s0 s Hi Hr) as (a0 & a & Ha0 & Ha & Hrel).
  assert (Hl : forall p, is_pe PE_size p -> left s p <= Barrier.left a p <= left s p + 1).
  { intros p Hp. rewrite (rel_left _ s a Hrel p Hp). destruct (pc s p); cbn; lia. }
  split.
  - exists a0, a. split_and!; try done. intros p Hp. split; [by apply (rel_entered _ s a Hrel)|by apply Hl].
  - intros p q Hp Hq. rewrite <- (rel_entered _ s a Hrel q Hq).
    pose proof (leave_after_all (Separates := internal_sync_separates PE_size ltac:(lia))
      a0 a p q Ha0 Ha Hp Hq). specialize (Hl p Hp). lia.
Qed.

(** It does not deadlock: as long as some PE is inside a call, a PE inside a call or its
    card can go on, or some PE has not yet made the call that the first one is in. *)
Lemma gda_sync_progress PE_size inlined s0 s p (Hn : 1 <= PE_size < 64) (Hi : initial PE_size s0)
    (Hr : rtc (step PE_size inlined) s0 s) (Hp : is_pe PE_size p) (Hin : pc s p <> Out) :
  (exists q s', is_pe PE_size q /\ pc s q <> Out /\
     (internal_sync PE_size inlined q s = Some s' \/ deliver q 0 s = Some s')) \/
  (exists q, is_pe PE_size q /\ pc s q = Out /\ entered s q < entered s p).
Proof.
  destruct (gda_sync_simulates PE_size inlined Hn s0 s Hi Hr) as (a0 & a & Ha0 & Ha & Hrel).
  destruct (decide (Barrier.pc a p = Barrier.Out)) as [Ho|Hno].
  { destruct (abs_out PE_size inlined Hn s a p Hrel Hp Ho) as [|[s' ?]]; [done|]. left. exists p, s'. auto. }
  pose proof (sync_reachable_inv PE_size a0 a ltac:(lia) Ha0 Ha) as Hinv.
  destruct (sync_progress_inv PE_size a p Hinv Hp Hno) as [(q & a' & Hq & Hqo & He)|(q & Hq & Hqo & He)].
  - destruct (can_move PE_size inlined Hn q s a a' Hrel Hq Hqo He) as [s' Hs]. left. exists q, s'.
    split_and!; try done. intros Hc. apply Hqo. by rewrite (rel_pc _ s a Hrel q Hq), Hc.
  - rewrite !(rel_entered _ s a Hrel) in He by done.
    destruct (decide (pc s q = Out)) as [|Hne]; [right; by exists q|].
    destruct (abs_out PE_size inlined Hn s a q Hrel Hq Hqo) as [|[s' ?]]; [done|].
    left. exists q, s'. auto.
Qed.


(** ** Runs *)

Inductive event := Run (p : Z) | Deliver (p : Z).

Section runs.
Context (PE_size : Z) (inlined : bool).

Definition perform (e : event) (s : state) : option state :=
  match e with
  | Run p => internal_sync PE_size inlined p s
  | Deliver p => deliver p 0 s
  end.

(** Carries out the events that are possible, in order. *)
Definition drive (es : list event) (s : state) : state :=
  fold_left (fun s e => default s (perform e s)) es s.

Definition event_pe (e : event) : Z := match e with Run p | Deliver p => p end.

Lemma gda_drive_rtc es s : Forall (fun e => is_pe PE_size (event_pe e)) es ->
  rtc (step PE_size inlined) s (drive es s).
Proof.
  intros H. revert s. induction H as [|e es He _ IH]; intros s; [done|]. cbn.
  destruct (perform e s) as [s'|] eqn:E; [|by apply IH]. eapply rtc_l; [|by apply IH].
  destruct e as [p|p]; [by apply (step_pe _ _ _ p)|by apply (step_deliver _ _ _ p 0)].
Qed.

(** Nothing can happen. *)
Definition stuck_pe (s : state) (p : Z) : bool :=
  match internal_sync PE_size inlined p s, inflight s p with None, [] => true | _, _ => false end.

Lemma stuck_no_step s : forallb (stuck_pe s) (seqZ 0 PE_size) = true ->
  forall s', ~ step PE_size inlined s s'.
Proof.
  rewrite <- Is_true_true, forallb_True, Forall_forall. intros H s' [p t Hp He|p k t Hp He];
    specialize (H p ltac:(apply elem_of_seqZ; unfold is_pe in Hp; lia)); unfold stuck_pe in H.
  - by rewrite He in H.
  - unfold deliver in He. destruct (internal_sync PE_size inlined p s); [done|].
    destruct (inflight s p); done.
Qed.

End runs.

Definition all_out : state :=
  mkState (fun _ _ => 0) (fun _ => Out) (fun _ => 0) (fun _ => 0) (fun _ => []).

Lemma all_out_initial n : initial n all_out.
Proof. by split. Qed.

Lemma events_in_range n es :
  forallb (fun e => (0 <=? event_pe e) && (event_pe e <? n)) es = true ->
  Forall (fun e => is_pe n (event_pe e)) es.
Proof.
  rewrite <- Is_true_true, forallb_True. intros H. apply (Forall_impl _ _ _ H). intros e He. unfold is_pe. apply Is_true_true in He. lia.
Qed.

(** Two PEs: PE 1 arrives, the leader releases it and PE 1 leaves first. *)
Definition two_pes : list event :=
  [Run 1; Run 1; Run 1; Deliver 1; Run 1; Run 0; Run 0; Run 0; Run 0; Run 0; Deliver 0;
   Run 1; Run 1; Run 1].

Lemma gda_sync_is_a_barrier_witness :
  left (drive 2 false two_pes all_out) 1 = 1 /\
  left (drive 2 false two_pes all_out) 1 <= entered (drive 2 false two_pes all_out) 0.
Proof.
  split; [by vm_compute|].
  refine (proj2 (gda_sync_is_a_barrier 2 false all_out _ _ (all_out_initial 2)
    (gda_drive_rtc 2 false two_pes all_out (events_in_range 2 two_pes eq_refl))) 1 0 _ _);
    unfold is_pe; lia.
Defined.

(** ** The atomic barrier *)

Definition others_of (n : Z) : list Z := seqZ 1 (n - 1).

(** All PEs arrive, the leader releases all of them, PE 1 leaves and arrives again before the
    leader resets its flag, then all PEs make their second call. *)
Definition lost_arrival (n : Z) : list event :=
  (others_of n ≫= (fun p => [Run p; Run p; Deliver p])) ++
  [Run 0; Run 0; Run 0; Run 0] ++ ((fun _ => Run 0) <$> others_of n) ++ [Run 0] ++
  ((fun _ => Deliver 0) <$> others_of n) ++
  [Run 1; Run 1; Run 1; Run 1; Deliver 1] ++
  [Run 0; Run 0] ++
  (seqZ 2 (n - 2) ≫= (fun p => [Run p; Run p; Run p; Run p; Deliver p])) ++ [Run 0].

Lemma lost_arrival_stuck inlined :
  let s := drive 64 inlined (lost_arrival 64) all_out in
  forallb (fun p => (entered s p =? 2) && (left s p =? 1)) (seqZ 0 64) = true /\
  forallb (stuck_pe 64 inlined s) (seqZ 0 64) = true.
Proof. destruct inlined; by vm_compute. Qed.

(** C35: teams of 64 and more PEs use the atomic barrier, whose leader keeps the flag it sends
    from in the cell that counts the arrivals.  A PE that is released and arrives again
    before the leader resets the cell is forgotten: with 64 PEs there is a run in which every
    PE makes two calls and then none of them can ever go on, whether or not the
    requests carry their values. *)
Theorem gda_atomic_barrier_loses_arrival inlined :
  exists s, rtc (step 64 inlined) all_out s /\
    (forall p, is_pe 64 p -> entered s p = 2 /\ left s p = 1) /\
    (forall s', ~ step 64 inlined s s').
Proof.
  pose proof (gda_drive_rtc 64 inlined (lost_arrival 64) all_out
    (events_in_range 64 (lost_arrival 64) ltac:(by vm_compute))) as Hr.
  pose proof (lost_arrival_stuck inlined) as [Hc Hs]. revert Hr Hc Hs.
  generalize (drive 64 inlined (lost_arrival 64) all_out). intros s Hr Hc Hs.
  exists s. split_and!; [done| |by apply stuck_no_step].
  rewrite <- Is_true_true, forallb_True, Forall_forall in Hc. intros p Hp.
  specialize (Hc p ltac:(apply elem_of_seqZ; unfold is_pe in Hp; lia)). apply Is_true_true in Hc. lia.
Qed.

(** ** The work-group form *)

(** Wavefronts of a work-group of [block_size] threads. *)
Definition wf_count (block_size : Z) : Z := (block_size + 63) / 64.

(** The flags that wavefront [wf_id] of the leader waits for and resets. *)
Definition gather_wg (W wf_id n_pes : Z) : list Z := strided (wf_id + 1) W n_pes.

(** The PEs of the world that wavefront [wf_id] of the leader announces to; the loop that
    quiets their queue pairs runs over the same ones. *)
Fixpoint announce_loop (fuel : nat) (W stride n_pes i j : Z) : list Z :=
  match fuel with
  | O => []
  | S fuel =>
      if i <? n_pes
      then j :: announce_loop fuel W stride n_pes (i + W) (j + W * stride)
      else []
  end.

Definition announce_wg (W PE_start stride n_pes wf_id : Z) : list Z :=
  announce_loop (Z.to_nat (n_pes - (wf_id + 1))) W stride n_pes
    (wf_id + 1) (PE_start + stride + wf_id).

Lemma announce_loop_spec fuel W stride n i j :
  announce_loop fuel W stride n i j = (fun x => j + (x - i) * stride) <$> strided_loop fuel i W n.
Proof.
  revert i j. induction fuel as [|fuel IH]; intros i j; [done|]. cbn [announce_loop strided_loop].
  destruct (i <? n); [|done]. rewrite fmap_cons. f_equal; [lia|]. rewrite IH.
  apply list_fmap_ext. intros k x _. lia.
Qed.

Lemma strided_shift t W n : strided (t + 1) W n = Z.succ <$> strided t W (n - 1).
Proof.
  unfold strided. replace (n - (t + 1)) with (n - 1 - t) by lia. generalize (Z.to_nat (n - 1 - t)).
  intros fuel. revert t. induction fuel as [|fuel IH]; intros t; [done|]. cbn [strided_loop].
  replace (t + 1 <? n) with (t <? n - 1) by lia. destruct (t <? n - 1); [|done].
  rewrite fmap_cons. f_equal. replace (t + 1 + W) with (t + W + 1) by lia. apply IH.
Qed.

(** The wavefronts together cover the other members. *)
Lemma wg_members W n : 0 < W -> seqZ 0 W ≫= (fun t => strided (t + 1) W n) ≡ₚ seqZ 1 (n - 1).
Proof.
  intros HW. transitivity (Z.succ <$> (seqZ 0 W ≫= (fun t => strided t W (n - 1)))).
  - induction (seqZ 0 W) as [|t l IH]; [done|]. cbn. rewrite fmap_app, strided_shift. by f_equiv.
  - rewrite strided_partition by done. change 1 with (1 + 0) at 2. rewrite <- fmap_add_seqZ.
    apply Permutation_refl', list_fmap_ext. intros i x _. lia.
Qed.

(** The leader's wavefronts of the work-group form wait for the flag of every other member
    exactly once, and announce to every other member exactly once, if the team has stride 1
    or the work-group is a single wavefront. *)
Theorem gda_wg_announces block_size PE_start stride n_pes
  (Hb : 0 < block_size) (Hs : stride = 1 \/ block_size <= 64) :
  let W := wf_count block_size in
  seqZ 0 W ≫= (fun wf_id => gather_wg W wf_id n_pes) ≡ₚ seqZ 1 (n_pes - 1) /\
  seqZ 0 W ≫= announce_wg W PE_start stride n_pes
  ≡ₚ (fun i => PE_start + i * stride) <$> seqZ 1 (n_pes - 1).
Proof.
  intros W. assert (HW : 0 < W /\ (stride = 1 \/ W = 1)).
  { unfold W, wf_count. split; [apply Z.div_str_pos; lia|]. destruct Hs; [by left|]. right.
    symmetry. apply (Z.div_unique_pos _ _ _ (block_size - 1)); lia. }
  clearbody W. destruct HW as [HW HW1].
  split; [by apply wg_members|]. rewrite <- (wg_members W n_pes HW), fmap_bind.
  apply Permutation_refl'. apply bind_ext_elem. intros t Ht%elem_of_seqZ.
  unfold announce_wg. rewrite announce_loop_spec. apply list_fmap_ext. intros k x _.
  destruct HW1 as [->| ->]; [lia|]. replace t with 0 by lia. lia.
Qed.

Lemma gda_wg_announces_witness :
  seqZ 0 (wf_count 128) ≫= announce_wg (wf_count 128) 4 1 5 = [5; 7; 6; 8] /\
  seqZ 0 (wf_count 128) ≫= announce_wg (wf_count 128) 4 1 5 ≡ₚ (fun i => 4 + i * 1) <$> seqZ 1 4.
Proof.
  split; [by vm_compute|]. apply (gda_wg_announces 128 4 1 5); [lia|by left].
Defined.

(** With stride 2 and two wavefronts, members 4 and 6 of the team {0, 2, 4, 6} are PEs 4
    and 6; the leader announces to PEs 2, 6 and 3 instead. *)
Lemma gda_wg_announces_wrong_pe :
  let W := wf_count 128 in seqZ 0 W ≫= announce_wg W 0 2 4 = [2; 6; 3].
Proof. by vm_compute. Qed.

End GdaSync.
