(* ===== verification/Collectives.v ===== *)
(** * Collectives made of puts and a synchronisation

    Model of the collectives in which every PE puts its data into the
    destinations of the others and then synchronises with the team:
    [alltoall_linear_wg_das], [alltoallv_das] and [fcollect_linear_das]
    ([src/ipc/context_ipc_tmpl_device_das.hpp]).  The wavefronts of a PE issue
    their puts independently; the PEs and wavefronts interleave in any order.
    What the collectives need of the synchronisation is the class [Separates];
    the properties are stated for [internal_sync].  PEs are named by rank. *)

From Stdlib Require Import ZArith Lia.
From stdpp Require Import base option numbers list relations.
From S2P Require Import Prelude Barrier Loops.

Open Scope Z_scope.

(** ** Puts *)

(** A put of [count] elements of the source, from index [from_], into the
    destination of the PE [target], at index [to_]. *)
Record put := Put { target : Z; to_ : Z; from_ : Z; count : Z }.

#[export] Instance put_eq_dec : EqDecision put.
Proof. solve_decision. Defined.

Definition covers (u : put) (x : Z) : Prop := to_ u <= x < to_ u + count u.

(** ** The collectives *)

Definition ROCSHMEM_CHUNK_BYTES : Z := 262144.

(** The pieces of a range: the whole of it, or pipelined in chunks. *)
Definition chunks (sizeof_T elem_count : Z) : list (Z * Z) :=
  let CHUNK_NELEMS := ROCSHMEM_CHUNK_BYTES / sizeof_T in
  if elem_count >? CHUNK_NELEMS then
    (fun c_start => let c_end := Z.min (c_start + CHUNK_NELEMS) elem_count in (c_start, c_end - c_start))
      <$> strided 0 CHUNK_NELEMS elem_count
  else [(0, elem_count)].

Definition range_count (elem_count nelems : Z) : Z := if elem_count <? 0 then nelems else elem_count.

(** The puts of one wavefront [wf_id] of [wf_count]; element indices are computed
    as [int]. *)
Definition alltoall_linear_wg_das (sizeof_T pe_size nelems elem_offset elem_count wf_count my wf_id : Z)
  : list put :=
  chunks sizeof_T (range_count elem_count nelems) ≫= (fun '(c_start, c_nelems) =>
    (fun j => Put j (s32 (my * nelems + elem_offset + c_start)) (s32 (j * nelems + elem_offset + c_start)) c_nelems)
      <$> strided wf_id wf_count pe_size).

Definition fcollect_linear_das (sizeof_T pe_size nelems elem_offset elem_count wf_count my wf_id : Z)
  : list put :=
  chunks sizeof_T (range_count elem_count nelems) ≫= (fun '(c_start, c_nelems) =>
    (fun j => Put j (s32 (my * nelems + elem_offset + c_start)) (s32 (elem_offset + c_start)) c_nelems)
      <$> strided wf_id wf_count pe_size).

(** The path of [alltoallv_das] for nonuniform counts; the arrays are those of
    the calling PE. *)
Definition alltoallv_puts (pe_size : Z) (dest_displs source_nelems source_displs : Z -> Z)
    (wg_id wg_count num_waves my wave_id : Z) : list put :=
  omap (fun remote_rank =>
    let '(elem_offset, elem_count) := split_wg_range (source_nelems remote_rank) wg_id wg_count in
    if elem_count =? 0 then None
    else Some (Put remote_rank (dest_displs my + elem_offset)
                 (source_displs remote_rank + elem_offset) elem_count))
    (strided wave_id num_waves pe_size).

(** ** Execution *)

Section execution.
Context {T S : Type} (PE_size waves : Z) (src dst0 : Z -> Z -> T) (puts : Z -> Z -> list put).
Context {start : S -> Prop} {move : S -> S -> Prop} {enters leaves : S -> Z -> Z}.
Context `{Hsync : !Separates PE_size start move enters leaves}.

Record machine := mkMachine {
  dst : Z -> Z -> T;
  issued : Z -> Z -> nat;          (* puts made by each wavefront of each PE *)
  sync : S
}.

Definition agent (p w : Z) : Prop := 0 <= p < PE_size /\ 0 <= w < waves.

Definition do_put (p : Z) (u : put) (d : Z -> Z -> T) : Z -> Z -> T :=
  write d (target u) (to_ u) (count u) (fun k => src p (from_ u + k)).

Definition all_issued (m : machine) (p : Z) : Prop :=
  forall w, 0 <= w < waves -> issued m p w = length (puts p w).

(** A wavefront makes its next put, or the synchronisation moves on; a PE enters
    it once, when all its wavefronts are done. *)
Inductive step (m : machine) : machine -> Prop :=
  | step_put p w u : agent p w -> puts p w !! issued m p w = Some u ->
      step m (mkMachine (do_put p u (dst m)) (upd (issued m) p (upd (issued m p) w (issued m p w + 1)%nat))
                (sync m))
  | step_sync s : move (sync m) s ->
      (forall p, 0 <= p < PE_size -> enters s p <= 1 /\ (0 < enters s p -> all_issued m p)) ->
      step m (mkMachine (dst m) (issued m) s).

Definition initial (m : machine) : Prop :=
  dst m = dst0 /\ (forall p w, issued m p w = 0%nat) /\ start (sync m).

(** Puts to the same place are the same put. *)
Definition no_overlap : Prop :=
  (forall p w, agent p w -> NoDup (puts p w)) /\
  forall p w u p' w' u' x, agent p w -> agent p' w' -> u ∈ puts p w -> u' ∈ puts p' w' ->
    target u = target u' -> covers u x -> covers u' x -> p = p' /\ w = w' /\ u = u'.

Definition made (m : machine) (p w : Z) (u : put) : Prop :=
  exists a, (a < issued m p w)%nat /\ puts p w !! a = Some u.

Record inv (m : machine) : Prop := {
  inv_issued : forall p w, (issued m p w <= length (puts p w))%nat;
  inv_made : forall p w u x, agent p w -> made m p w u -> covers u x ->
    dst m (target u) x = src p (from_ u + (x - to_ u));
  inv_kept : forall t x, (forall p w u, agent p w -> made m p w u -> target u = t -> ~ covers u x) ->
    dst m t x = dst0 t x;
  inv_entered : forall p, 0 <= p < PE_size -> 0 < enters (sync m) p -> all_issued m p
}.

Lemma do_put_at p u d x : covers u x -> do_put p u d (target u) x = src p (from_ u + (x - to_ u)).
Proof.
  intros Hx. unfold do_put, write, overwrite. rewrite Z.eqb_refl. unfold covers in Hx.
  by replace ((to_ u <=? x) && (x <? to_ u + count u)) with true by lia.
Qed.

Lemma do_put_other p u d t x : t <> target u \/ ~ covers u x -> do_put p u d t x = d t x.
Proof.
  intros Hx. unfold do_put, write, overwrite. destruct (Z.eqb_spec t (target u)) as [->|]; [|done].
  unfold covers in Hx. by replace ((to_ u <=? x) && (x <? to_ u + count u)) with false by lia.
Qed.

#[local] Instance covers_dec u x : Decision (covers u x).
Proof. unfold covers. apply _. Defined.

(** The put that a step makes, and those made before. *)
Lemma made_step m d p w u s p' w' u' :
  agent p w -> puts p w !! issued m p w = Some u ->
  made (mkMachine d (upd (issued m) p (upd (issued m p) w (issued m p w + 1)%nat)) s) p' w' u' <->
  made m p' w' u' \/ (p' = p /\ w' = w /\ u' = u).
Proof.
  intros Ha Hu. unfold made, upd. simpl. destruct (Z.eqb_spec p' p) as [->|]; [destruct (Z.eqb_spec w' w) as [->|]|].
  - split.
    + intros (a & Hlt & Hl). destruct (decide (a = issued m p w)) as [->|].
      * right. split_and!; congruence.
      * left. exists a. split; [lia|done].
    + intros [(a & Hlt & Hl)|(_ & _ & ->)]; [exists a; split; [lia|done]|].
      exists (issued m p w). split; [lia|done].
  - split; [by left|]. intros [?|(_ & ? & _)]; done.
  - split; [by left|]. intros [?|(? & _)]; done.
Qed.

Lemma made_elem m p w u : made m p w u -> u ∈ puts p w.
Proof. intros (a & _ & Hl). by eapply list_elem_of_lookup_2. Qed.

Lemma step_put_inv m p w u : no_overlap -> inv m -> agent p w -> puts p w !! issued m p w = Some u ->
  inv (mkMachine (do_put p u (dst m)) (upd (issued m) p (upd (issued m p) w (issued m p w + 1)%nat)) (sync m)).
Proof.
  intros [Hnd Hno] [I1 I2 I3 I4] Ha Hu. pose proof (lookup_lt_Some _ _ _ Hu) as Hlt.
  assert (Hin : u ∈ puts p w) by (by eapply list_elem_of_lookup_2).
  split.
  - intros p' w'. simpl. unfold upd. destruct (Z.eqb_spec p' p) as [->|]; [|done].
    destruct (Z.eqb_spec w' w) as [->|]; [lia|done].
  - intros p' w' u' x Ha' Hm Hx. simpl. apply (made_step m _ p w u _ p' w' u' Ha Hu) in Hm.
    destruct Hm as [Hm|(-> & -> & ->)]; [|by apply do_put_at].
    destruct (decide (target u' = target u)) as [He|Hne]; [|rewrite do_put_other by (by left); by apply (I2 p' w')].
    destruct (decide (covers u x)) as [Hc|Hc]; [|rewrite do_put_other by (by right); by apply (I2 p' w')].
    exfalso. destruct (Hno p' w' u' p w u x Ha' Ha (made_elem _ _ _ _ Hm) Hin He Hx Hc) as (-> & -> & ->).
    destruct Hm as (a & Hl & Hp). assert (a = issued m p w); [|lia].
    by eapply (NoDup_lookup (puts p w)); [apply Hnd| |].
  - intros t x Hnone. simpl. rewrite do_put_other.
    + apply I3. intros p' w' u' Ha' Hm. apply (Hnone p' w' u' Ha'). apply (made_step m _ p w u _ p' w' u' Ha Hu). by left.
    + destruct (decide (t = target u)) as [->|]; [right|by left].
      apply (Hnone p w u Ha); [|done]. apply (made_step m _ p w u _ p w u Ha Hu). by right.
  - intros q Hq Hen. simpl in Hen. intros w' Hw'. simpl. unfold upd. destruct (Z.eqb_spec q p) as [->|]; [|by apply I4].
    destruct (Z.eqb_spec w' w) as [->|]; [|by apply I4]. specialize (I4 p Hq Hen w Hw'). lia.
Qed.

Lemma machine_step_inv m m' : no_overlap -> inv m -> step m m' -> inv m'.
Proof.
  intros Hno Hinv [p w u Ha Hu|s Hm Hall]; [by apply step_put_inv|].
  destruct Hinv as [I1 I2 I3 I4]. split; [done..|]. intros p Hp. by apply Hall.
Qed.

Lemma machine_initial_inv m : initial m -> inv m.
Proof.
  intros (Hd & Hi & Hs). split.
  - intros p w. rewrite Hi. lia.
  - intros p w u x _ (a & Hlt & _). rewrite Hi in Hlt. lia.
  - intros t x _. by rewrite Hd.
  - intros p _ Hen. rewrite (nothing_entered (Separates := Hsync)) in Hen by done. lia.
Qed.

(** The synchronisation runs as it would alone. *)
Lemma sync_runs m m' : rtc step m m' -> rtc move (sync m) (sync m').
Proof.
  induction 1 as [|x y z [p w u Ha Hu|s Hm Hall] _ IH]; [constructor|done|].
  eapply rtc_l; [exact Hm|exact IH].
Qed.

Lemma left_all_issued m m' p q : no_overlap -> initial m -> rtc step m m' -> 0 <= p < PE_size -> 0 <= q < PE_size ->
  0 < leaves (sync m') p -> all_issued m' q.
Proof.
  intros Hno Hi Hr Hp Hq Hl.
  assert (Hinv : inv m').
  { eapply (rtc_invariant step inv); [|exact Hr|by apply machine_initial_inv]. intros x y Hx Hs. by eapply machine_step_inv. }
  apply (inv_entered _ Hinv q Hq).
  pose proof (leave_after_all (Separates := Hsync) (sync m) (sync m') p q (proj2 (proj2 Hi))
    (sync_runs m m' Hr) Hp Hq). lia.
Qed.

(** What a PE finds once it has left the synchronisation. *)
Lemma after_sync m m' p : no_overlap -> initial m -> rtc step m m' -> 0 <= p < PE_size -> 0 < leaves (sync m') p ->
  (forall q w u x, agent q w -> u ∈ puts q w -> target u = p -> covers u x ->
     dst m' p x = src q (from_ u + (x - to_ u))) /\
  (forall x, (forall q w u, agent q w -> u ∈ puts q w -> target u = p -> ~ covers u x) -> dst m' p x = dst0 p x).
Proof.
  intros Hno Hi Hr Hp Hl.
  assert (Hinv : inv m').
  { eapply (rtc_invariant step inv); [|exact Hr|by apply machine_initial_inv]. intros x y Hx Hs. by eapply machine_step_inv. }
  split.
  - intros q w u x Ha Hu <- Hx. apply (inv_made _ Hinv q w); [done| |done].
    apply list_elem_of_lookup in Hu as [a Hu']. exists a. split; [|done].
    rewrite (left_all_issued m m' (target u) q Hno Hi Hr Hp (proj1 Ha) Hl w (proj2 Ha)).
    by eapply lookup_lt_Some.
  - intros x Hx. apply (inv_kept _ Hinv). intros q w u Ha Hm Ht. apply (Hx q w u Ha); [|done].
    by eapply made_elem.
Qed.
End execution.

(** ** Placement *)

(** Puts that cut the block for each target into pieces. *)
Section placement.
Context (PE_size waves : Z) (puts : Z -> Z -> list put).
Context (place : Z -> Z) (fetch : Z -> Z -> Z) (pieces : Z -> Z -> list (Z * Z)) (len : Z -> Z -> Z).
Hypothesis waves_pos : 0 < waves.
Hypothesis puts_elem : forall p w u, agent PE_size waves p w ->
  u ∈ puts p w <-> exists j c n, 0 <= j < PE_size /\ j mod waves = w /\ (c, n) ∈ pieces p j /\
    u = Put j (place p + c) (fetch p j + c) n.
Hypothesis puts_nodup : forall p w, agent PE_size waves p w -> NoDup (puts p w).
Hypothesis pieces_cover : forall p j e, 0 <= j < PE_size ->
  0 <= e < len p j <-> exists c n, (c, n) ∈ pieces p j /\ c <= e < c + n.
Hypothesis pieces_apart : forall p j c n c' n' e, 0 <= j < PE_size ->
  (c, n) ∈ pieces p j -> (c', n') ∈ pieces p j -> c <= e < c + n -> c' <= e < c' + n' -> c = c' /\ n = n'.
Hypothesis blocks_apart : forall p p' j x, 0 <= p < PE_size -> 0 <= p' < PE_size -> 0 <= j < PE_size ->
  place p <= x < place p + len p j -> place p' <= x < place p' + len p' j -> p = p'.

Lemma placement_no_overlap : no_overlap PE_size waves puts.
Proof.
  split; [done|]. intros p w u p' w' u' x Ha Ha' Hu Hu' Ht Hx Hx'.
  apply puts_elem in Hu as (j & c & n & Hj & Hw & Hc & ->); [|done].
  apply puts_elem in Hu' as (j' & c' & n' & Hj' & Hw' & Hc' & ->); [|done].
  unfold covers in *. simpl in *. subst j'.
  assert (He : 0 <= x - place p < len p j) by (apply pieces_cover; [done|]; exists c, n; split; [done|lia]).
  assert (He' : 0 <= x - place p' < len p' j) by (apply pieces_cover; [done|]; exists c', n'; split; [done|lia]).
  assert (p = p') as <- by (apply (blocks_apart p p' j x); [apply Ha|apply Ha'|done|lia|lia]).
  destruct (pieces_apart p j c n c' n' (x - place p)) as [-> ->]; [done..|lia|lia|]. by subst.
Qed.

Context {T S : Type} (src dst0 : Z -> Z -> T).
Context {start : S -> Prop} {move : S -> S -> Prop} {enters leaves : S -> Z -> Z}.
Context `{Hsync : !Separates PE_size start move enters leaves}.

(** Every block is in its place and the rest of the destination is unchanged. *)
Lemma placement_result m m' p : initial dst0 (start := start) m ->
  rtc (step PE_size waves src puts (move := move) (enters := enters)) m m' ->
  0 <= p < PE_size -> 0 < leaves (sync m') p ->
  (forall q e, 0 <= q < PE_size -> 0 <= e < len q p -> dst m' p (place q + e) = src q (fetch q p + e)) /\
  (forall x, (forall q, 0 <= q < PE_size -> ~ place q <= x < place q + len q p) -> dst m' p x = dst0 p x).
Proof.
  intros Hi Hr Hp Hl.
  destruct (after_sync PE_size waves src dst0 puts m m' p placement_no_overlap Hi Hr Hp Hl) as [Hin Hout].
  split.
  - intros q e Hq He. apply (pieces_cover q p e Hp) in He as (c & n & Hc & He).
    assert (Ha : agent PE_size waves q (p mod waves)) by (split; [done|apply Z.mod_pos_bound; lia]).
    rewrite (Hin q (p mod waves) (Put p (place q + c) (fetch q p + c) n)); simpl; try done.
    + f_equal. lia.
    + apply puts_elem; [done|]. by exists p, c, n.
    + unfold covers. simpl. lia.
  - intros x Hx. apply Hout. intros q w u Ha Hu Ht Hcov.
    apply puts_elem in Hu as (j & c & n & Hj & Hw & Hc & ->); [|done]. simpl in Ht. subst j.
    unfold covers in Hcov. simpl in Hcov. apply (Hx q (proj1 Ha)).
    assert (0 <= x - place q < len q p); [|lia]. apply pieces_cover; [done|]. exists c, n. split; [done|lia].
Qed.
End placement.

(** ** Chunks *)

Lemma strided_mod w step bound x : 0 <= w < step ->
  x ∈ strided w step bound <-> 0 <= x < bound /\ x mod step = w.
Proof.
  intros Hw. rewrite strided_elem by lia. split.
  - intros (Hx & k & Hk & ->). split; [nia|]. rewrite Z.mod_add by lia. by rewrite Z.mod_small by lia.
  - intros (Hx & Hm). split; [lia|]. exists (x / step). pose proof (Z.div_mod x step ltac:(lia)).
    split; [apply Z.div_pos; lia|lia].
Qed.

Lemma strided_tiles fuel i step bound : 0 < step -> i < bound -> bound - i <= Z.of_nat fuel ->
  tiles i ((fun c => (c, Z.min (c + step) bound - c)) <$> strided_loop fuel i step bound) bound.
Proof.
  intros Hs. revert i. induction fuel as [|fuel IH]; intros i Hi Hf; [lia|]. cbn [strided_loop].
  rewrite (proj2 (Z.ltb_lt i bound) Hi), fmap_cons. constructor; [lia|].
  destruct (Z.lt_ge_cases (i + step) bound) as [Hl|Hl].
  - rewrite Z.min_l by lia. replace (i + (i + step - i)) with (i + step) by lia. apply IH; lia.
  - rewrite Z.min_r by lia. replace (i + (bound - i)) with bound by lia.
    assert (strided_loop fuel (i + step) step bound = []) as ->; [|constructor].
    destruct fuel; [done|]. cbn [strided_loop]. by rewrite (proj2 (Z.ltb_ge _ _)) by lia.
Qed.

(** The chunks tile the range; an empty range is one empty put. *)
Lemma chunks_tile sizeof_T n : 0 < sizeof_T <= ROCSHMEM_CHUNK_BYTES -> 0 < n -> tiles 0 (chunks sizeof_T n) n.
Proof.
  intros Hs Hn. unfold chunks. set (C := ROCSHMEM_CHUNK_BYTES / sizeof_T).
  assert (HC : 0 < C) by (apply Z.div_str_pos; lia).
  destruct (n >? C); [|replace n with (0 + n) at 2 by lia; constructor; [done|constructor]].
  apply strided_tiles; lia.
Qed.

Lemma chunks_spec sizeof_T n : 0 < sizeof_T <= ROCSHMEM_CHUNK_BYTES -> 0 <= n ->
  NoDup (chunks sizeof_T n).*1 /\
  (forall e, 0 <= e < n <-> exists c k, (c, k) ∈ chunks sizeof_T n /\ c <= e < c + k) /\
  (forall c k c' k' e, (c, k) ∈ chunks sizeof_T n -> (c', k') ∈ chunks sizeof_T n ->
     c <= e < c + k -> c' <= e < c' + k' -> c = c' /\ k = k').
Proof.
  intros Hs Hn. destruct (Z.eq_dec n 0) as [->|Hne].
  { assert (chunks sizeof_T 0 = [(0, 0)]) as ->.
    { unfold chunks. assert (0 <= ROCSHMEM_CHUNK_BYTES / sizeof_T) by (apply Z.div_pos; unfold ROCSHMEM_CHUNK_BYTES; lia).
      by rewrite Z.gtb_ltb, (proj2 (Z.ltb_ge _ _)) by lia. }
    split_and!.
    - apply NoDup_singleton.
    - intros e. split; [lia|]. intros (c & k & [= -> ->]%list_elem_of_singleton & ?). lia.
    - intros c k c' k' e [= -> ->]%list_elem_of_singleton. lia. }
  pose proof (chunks_tile sizeof_T n Hs ltac:(lia)) as Ht. split_and!.
  - assert (Hgen : forall a l b, tiles a l b -> NoDup l.*1 /\ forall m, m ∈ l -> a <= fst m).
    { clear. induction 1 as [a|a k l b Hk _ [IH1 IH2]]; [split; [constructor|by intros m ?%elem_of_nil]|].
      split.
      - rewrite fmap_cons. constructor; [|done]. rewrite list_elem_of_fmap. intros (m & He & Hm).
        specialize (IH2 m Hm). simpl in He. lia.
      - intros m [->|Hm]%elem_of_cons; [simpl; lia|]. specialize (IH2 m Hm). lia. }
    by apply Hgen in Ht as [? _].
  - intros e. rewrite <- (tiles_cover _ _ _ e Ht). split.
    + intros ([c k] & Hm & Hx). by exists c, k.
    + intros (c & k & Hm & Hx). by exists (c, k).
  - intros c k c' k' e H1 H2 Hx Hx'. apply list_elem_of_lookup in H1 as [i H1], H2 as [i' H2].
    assert (i = i') as <- by (eapply (tiles_disjoint _ _ _ Ht i i' (c, k) (c', k') e); done).
    rewrite H1 in H2. by injection H2.
Qed.

(** Puts chunk by chunk, each to the targets of the wavefront. *)
Definition chunked (sizeof_T pe_size count waves : Z) (place : Z) (fetch : Z -> Z) (w : Z) : list put :=
  chunks sizeof_T count ≫= (fun '(c, n) =>
    (fun j => Put j (place + c) (fetch j + c) n) <$> strided w waves pe_size).

Lemma chunked_elem sizeof_T pe_size count waves place fetch w u : 0 <= w < waves ->
  u ∈ chunked sizeof_T pe_size count waves place fetch w <->
  exists j c n, 0 <= j < pe_size /\ j mod waves = w /\ (c, n) ∈ chunks sizeof_T count /\
    u = Put j (place + c) (fetch j + c) n.
Proof.
  intros Hw. unfold chunked. rewrite list_elem_of_bind. split.
  - intros ([c n] & Hu & Hc). apply list_elem_of_fmap in Hu as (j & -> & Hj).
    apply strided_mod in Hj as [Hj Hm]; [|done]. by exists j, c, n.
  - intros (j & c & n & Hj & Hm & Hc & ->). exists (c, n). split; [|done].
    apply list_elem_of_fmap. exists j. split; [done|]. by apply strided_mod.
Qed.

Lemma chunked_nodup sizeof_T pe_size count waves place fetch w :
  0 < sizeof_T <= ROCSHMEM_CHUNK_BYTES -> 0 <= count -> 0 < waves ->
  NoDup (chunked sizeof_T pe_size count waves place fetch w).
Proof.
  intros Hs Hc Hw. destruct (chunks_spec sizeof_T count Hs Hc) as (Hnd & _ & _). unfold chunked.
  apply NoDup_bind.
  - intros [c n] [c' n'] u H1 H2 Hu Hu'. apply list_elem_of_fmap in Hu as (j & -> & _).
    apply list_elem_of_fmap in Hu' as (j' & He & _). injection He as _ Hto _ Hn. f_equal; lia.
  - intros [c n] _. apply NoDup_fmap_2_strong; [|by apply strided_nodup]. intros j j' _ _ He. by injection He.
  - by apply NoDup_fmap_1 in Hnd.
Qed.

Lemma chunks_start sizeof_T n c k : 0 < sizeof_T <= ROCSHMEM_CHUNK_BYTES -> 0 <= n ->
  (c, k) ∈ chunks sizeof_T n -> 0 <= c <= n.
Proof.
  intros Hs Hn. unfold chunks. assert (0 < ROCSHMEM_CHUNK_BYTES / sizeof_T) by (apply Z.div_str_pos; lia).
  case_if.
  - intros (i & [= -> ->] & Hi)%list_elem_of_fmap. apply strided_elem in Hi as (Hi & k' & Hk & He); [nia|done].
  - intros [= -> ->]%list_elem_of_singleton. lia.
Qed.

Lemma block_in_array q n size : 0 <= q < n -> 0 <= size -> 0 <= q * size /\ q * size + size <= n * size.
Proof. nia. Qed.

(** Indices that fit in an [int] are computed exactly. *)
Lemma chunked_exact sizeof_T pe_size count waves to from place fetch w :
  0 < sizeof_T <= ROCSHMEM_CHUNK_BYTES -> 0 <= count -> 0 <= w < waves ->
  (forall j c, 0 <= j < pe_size -> 0 <= c <= count -> to c = place + c /\ from j c = fetch j + c) ->
  (chunks sizeof_T count ≫= (fun '(c, n) => (fun j => Put j (to c) (from j c) n) <$> strided w waves pe_size)) =
  chunked sizeof_T pe_size count waves place fetch w.
Proof.
  intros Hs Hc Hw Heq. unfold chunked. pose proof (chunks_start sizeof_T count) as Hst. revert Hst.
  induction (chunks sizeof_T count) as [|[c n] l IH]; intros Hst; [done|]. rewrite !bind_cons. f_equal.
  - apply list_fmap_ext. intros i j Hj%list_elem_of_lookup_2. apply strided_mod in Hj as [Hj _]; [|done].
    destruct (Heq j c Hj) as [-> ->]; [|done]. apply (Hst c n); [done|done|by left].
  - apply IH. intros c' k' H1 H2 H3. apply (Hst c' k'); [done|done|by right].
Qed.

(** ** Runs with [internal_sync] *)

Abbreviation sync_state := Barrier.state.

(** Executions of a collective: from destinations [dst0] and cleared flags. *)
Definition begins {T} (PE_size : Z) (dst0 : Z -> Z -> T) (m : machine (T := T) (S := sync_state)) : Prop :=
  initial dst0 (start := Barrier.initial PE_size) m.

Definition runs {T} (PE_size waves : Z) (src : Z -> Z -> T) (puts : Z -> Z -> list put)
    (m m' : machine (T := T) (S := sync_state)) : Prop :=
  rtc (step PE_size waves src puts (move := Barrier.step PE_size) (enters := Barrier.entered)) m m'.

(** The PE has completed the synchronisation that ends the collective. *)
Definition returned {T} (m : machine (T := T) (S := sync_state)) (p : Z) : Prop := 0 < Barrier.left (sync m) p.

(** ** Every call ends *)

Section ending.
Context {T : Type} (src dst0 : Z -> Z -> T) (PE_size waves : Z) (puts : Z -> Z -> list put).
Hypothesis PE_size_ok : 1 <= PE_size.

Abbreviation run_machine := (machine (T := T) (S := sync_state)).
Abbreviation run_step := (step PE_size waves src puts (move := Barrier.step PE_size) (enters := Barrier.entered)).

Definition put_work (m : run_machine) (p : Z) : Z :=
  zsum (fun w => Z.of_nat (length (puts p w)) - Z.of_nat (issued m p w)) (seqZ 0 waves).

Definition work (m : run_machine) (p : Z) : Z := put_work m p + Barrier.sync_work PE_size (sync m) p.

Definition total_work (m : run_machine) : Z := zsum (work m) (seqZ 0 PE_size).

(** What the steps keep, whatever the puts. *)
Record sane (m : run_machine) : Prop := {
  sane_issued : forall p w, (issued m p w <= length (puts p w))%nat;
  sane_entered : forall p, 0 <= p < PE_size -> entered (sync m) p <= 1;
  sane_all : forall p, 0 <= p < PE_size -> 0 < entered (sync m) p -> all_issued waves puts m p;
  sane_sync : Barrier.inv PE_size (sync m)
}.

Lemma total_work_nonneg m : sane m -> 0 <= total_work m.
Proof.
  intros [H1 H2 _ _]. apply zsum_nonneg. intros p Hp%elem_of_seqZ. unfold work.
  assert (0 <= put_work m p) by (apply zsum_nonneg; intros w _; specialize (H1 p w); lia).
  specialize (H2 p ltac:(lia)). pose proof (steps_left_nonneg PE_size (pc (sync m) p) PE_size_ok).
  unfold sync_work, call_steps. nia.
Qed.

Lemma sane_step m m' : sane m -> run_step m m' -> sane m'.
Proof.
  intros [H1 H2 H3 H4] [p w u Ha Hu|s Hm Hall]; split; simpl; try done.
  - intros p' w'. unfold upd. pose proof (lookup_lt_Some _ _ _ Hu).
    destruct (Z.eqb_spec p' p) as [->|]; [|done]. destruct (Z.eqb_spec w' w) as [->|]; [lia|done].
  - intros q Hq He w' Hw'. simpl. pose proof (H3 q Hq He w' Hw'). pose proof (lookup_lt_Some _ _ _ Hu).
    unfold upd. destruct (Z.eqb_spec q p) as [->|]; [|done]. destruct (Z.eqb_spec w' w) as [->|]; [lia|done].
  - intros p Hp. by apply Hall.
  - intros p Hp. by apply Hall.
  - destruct Hm. by eapply Barrier.sync_exec_inv.
Qed.

Lemma begins_sane m : begins PE_size dst0 m -> sane m.
Proof.
  intros (_ & Hi & Hs). split; [intros p w; rewrite Hi; lia| | |by apply Barrier.sync_initial_inv];
    intros p _; destruct (proj1 Hs p) as (_ & -> & _); lia.
Qed.

Lemma total_work_step m m' : run_step m m' -> total_work m' < total_work m.
Proof.
  intros [p w u [Hp Hw] Hu|s Hm Hall]; unfold total_work.
  - rewrite (zsum_change _ (work m) _ p).
    + unfold work, put_work. cbn [issued sync]. rewrite upd_eq.
      rewrite (zsum_change (fun w0 => Z.of_nat (length (puts p w0)) -
        Z.of_nat (upd (issued m p) w (issued m p w + 1)%nat w0))
        (fun w => Z.of_nat (length (puts p w)) - Z.of_nat (issued m p w)) _ w).
      * rewrite upd_eq. lia.
      * apply NoDup_seqZ.
      * apply elem_of_seqZ. lia.
      * intros w' _ Hne. by rewrite upd_ne.
    + apply NoDup_seqZ.
    + apply elem_of_seqZ. lia.
    + intros q _ Hne. unfold work, put_work. cbn [issued sync]. by rewrite upd_ne.
  - destruct Hm as [p s' Hp He]. unfold Barrier.is_pe in Hp.
    destruct (Barrier.sync_exec_work PE_size p (sync m) s' p PE_size_ok He) as (_ & Hlt & _).
    specialize (Hlt eq_refl). rewrite (zsum_change _ (work m) _ p).
    + unfold work, put_work. cbn [issued sync]. lia.
    + apply NoDup_seqZ.
    + apply elem_of_seqZ. lia.
    + intros q _ Hne. unfold work, put_work. cbn [issued sync].
      destruct (Barrier.sync_exec_work PE_size p (sync m) s' q PE_size_ok He) as (_ & _ & Heq). by rewrite Heq.
Qed.

Lemma total_work_run k m m' : sane m -> nsteps run_step k m m' -> Z.of_nat k + total_work m' <= total_work m /\ sane m'.
Proof.
  revert m. induction k as [|k IH]; intros m Hm Hr; inversion Hr as [|? ? z ? Hs Hr']; subst; [by split; [lia|]|].
  pose proof (total_work_step _ _ Hs). destruct (IH z (sane_step _ _ Hm Hs) Hr'). split; [lia|done].
Qed.

Lemma issued_or_pending m p : sane m -> all_issued waves puts m p \/
  exists w u, 0 <= w < waves /\ puts p w !! issued m p w = Some u.
Proof.
  intros [H1 _ _ _]. destruct (decide (Exists (fun w => issued m p w <> length (puts p w)) (seqZ 0 waves))) as [He|Hn].
  - right. apply Exists_exists in He as (w & Hw%elem_of_seqZ & Hne).
    destruct (lookup_lt_is_Some_2 (puts p w) (issued m p w)) as [u Hu]; [specialize (H1 p w); lia|].
    exists w, u. split; [lia|done].
  - left. intros w Hw. destruct (decide (issued m p w = length (puts p w))) as [|Hne]; [done|]. exfalso.
    apply Hn, Exists_exists. exists w. split; [apply elem_of_seqZ; lia|done].
Qed.

(** A PE that has not entered the synchronisation can put or enter. *)
Lemma outside_progress m p : sane m -> 0 <= p < PE_size -> pc (sync m) p = Out -> entered (sync m) p <= 0 ->
  exists m', run_step m m'.
Proof.
  intros Hs Hp Ho He. destruct (issued_or_pending m p Hs) as [Hi|(w & u & Hw & Hu)].
  - destruct (Barrier.exec PE_size p (sync m)) as [s'|] eqn:Hx; [|unfold Barrier.exec in Hx; by rewrite Ho in Hx].
    eexists. apply (step_sync _ _ _ _ m s'); [by apply (Barrier.step_pe _ _ p)|].
    unfold Barrier.exec in Hx. rewrite Ho in Hx. injection Hx as <-.
    intros q Hq. cbn [entered goto enter]. destruct (Z.eq_dec q p) as [->|Hne].
    + rewrite upd_eq. split; [lia|done].
    + rewrite upd_ne by done. split; [by apply Hs|by apply Hs].
  - eexists. by apply (step_put _ _ _ _ m p w u).
Qed.

Lemma call_progress m p : sane m -> 0 <= p < PE_size -> ~ returned m p -> exists m', run_step m m'.
Proof.
  intros Hs Hp Hr. unfold returned in Hr.
  pose proof (Barrier.inv_calls _ _ (sane_sync _ Hs) p Hp) as Hc.
  destruct (decide (pc (sync m) p = Out)) as [Ho|Hin].
  { apply (outside_progress m p); try done. rewrite Ho in Hc. simpl in Hc. lia. }
  destruct (Barrier.sync_progress_inv PE_size (sync m) p (sane_sync _ Hs) Hp Hin)
    as [(q & s' & Hq & Hqin & Hx)|(q & Hq & Hqo & Hlt)].
  - exists (mkMachine (dst m) (issued m) s'). apply step_sync; [by apply (Barrier.step_pe _ _ q)|].
    intros r Hr'. replace (entered s' r) with (entered (sync m) r); [by split; apply Hs|].
    revert Hx. unfold Barrier.exec. destruct (pc (sync m) q); [done|..]; repeat case_match; by intros [= <-].
  - apply (outside_progress m q); try done. pose proof (sane_entered _ Hs p Hp). lia.
Qed.
End ending.

Section chunked_result.
Context {T : Type} (src dst0 : Z -> Z -> T).
Context (sizeof_T PE_size nelems elem_offset elem_count waves : Z) (fetch : Z -> Z -> Z).
Hypothesis sizeof_ok : 0 < sizeof_T <= ROCSHMEM_CHUNK_BYTES.
Hypothesis range_ok : 0 <= elem_offset /\ 0 <= range_count elem_count nelems /\
  elem_offset + range_count elem_count nelems <= nelems.
Hypothesis waves_ok : 0 < waves.
Hypothesis PE_size_ok : 1 <= PE_size.

Lemma chunked_result puts m m' p :
  (forall q w, agent PE_size waves q w -> puts q w = chunked sizeof_T PE_size (range_count elem_count nelems) waves
     (q * nelems + elem_offset) (fetch q) w) ->
  begins PE_size dst0 m -> runs PE_size waves src puts m m' -> 0 <= p < PE_size -> returned m' p ->
  (forall q e, 0 <= q < PE_size -> 0 <= e < range_count elem_count nelems ->
     dst m' p (q * nelems + elem_offset + e) = src q (fetch q p + e)) /\
  (forall x, (forall q, 0 <= q < PE_size ->
     ~ q * nelems + elem_offset <= x < q * nelems + elem_offset + range_count elem_count nelems) ->
     dst m' p x = dst0 p x).
Proof.
  intros Hputs Hi Hr Hp Hl. pose proof (internal_sync_separates PE_size PE_size_ok) as Hsync.
  set (count := range_count elem_count nelems) in *.
  destruct (chunks_spec sizeof_T count sizeof_ok ltac:(lia)) as (_ & Hcov & Hap).
  eapply (placement_result PE_size waves puts (fun q => q * nelems + elem_offset) fetch
    (fun _ _ => chunks sizeof_T count) (fun _ _ => count) waves_ok); [..|exact Hi|exact Hr|done|exact Hl].
  - intros q w u Ha. rewrite Hputs by done. apply chunked_elem, Ha.
  - intros q w Ha. rewrite Hputs by done. apply chunked_nodup; [done|lia|done].
  - intros q j e _. apply Hcov.
  - intros q j c n c' n' e _. apply Hap.
  - intros q q' j x Hq Hq' _ Hx Hx'. nia.
  - exact Hsync.
Qed.
End chunked_result.

(** ** Properties *)

(** When a PE returns from the all-to-all exchange, element [e] of the
    requested range in block [q] of its destination is the element that PE [q]
    had for it, for every [q], whatever the number of wavefronts, the pipelining
    and the interleaving; nothing else in its destination has changed. *)
Theorem alltoall_correct {T : Type} (src dst0 : Z -> Z -> T)
    sizeof_T PE_size nelems elem_offset elem_count waves m m' p
    (Hs : 0 < sizeof_T <= ROCSHMEM_CHUNK_BYTES)
    (Hrange : 0 <= elem_offset /\ 0 <= range_count elem_count nelems /\
       elem_offset + range_count elem_count nelems <= nelems)
    (Hint : PE_size * nelems + ROCSHMEM_CHUNK_BYTES <= 2 ^ 31)
    (Hw : 0 < waves) (Hn : 1 <= PE_size)
    (Hi : begins PE_size dst0 m)
    (Hr : runs PE_size waves src
       (alltoall_linear_wg_das sizeof_T PE_size nelems elem_offset elem_count waves) m m')
    (Hp : 0 <= p < PE_size) (Hl : returned m' p) :
  (forall q e, 0 <= q < PE_size -> 0 <= e < range_count elem_count nelems ->
     dst m' p (q * nelems + elem_offset + e) = src q (p * nelems + elem_offset + e)) /\
  (forall x, (forall q, 0 <= q < PE_size ->
     ~ q * nelems + elem_offset <= x < q * nelems + elem_offset + range_count elem_count nelems) ->
     dst m' p x = dst0 p x).
Proof.
  apply (chunked_result src dst0 sizeof_T PE_size nelems elem_offset elem_count waves
    (fun _ j => j * nelems + elem_offset) Hs Hrange Hw Hn
    (alltoall_linear_wg_das sizeof_T PE_size nelems elem_offset elem_count waves) m m' p); [|exact Hi|exact Hr|exact Hp|exact Hl].
  intros q w [Hq Hqw].
  apply (chunked_exact _ _ _ _ (fun c => s32 (q * nelems + elem_offset + c)) (fun j c => s32 (j * nelems + elem_offset + c)));
    [done|lia|done|]. unfold ROCSHMEM_CHUNK_BYTES in *. intros j c Hj Hc.
  pose proof (block_in_array q PE_size nelems Hq ltac:(lia)). pose proof (block_in_array j PE_size nelems Hj ltac:(lia)).
  rewrite !s32_small by lia. lia.
Qed.

(** When a PE returns from the collection, block [q] of its destination holds
    the requested range of the source of PE [q], for every [q]; nothing else in
    its destination has changed. *)
Theorem fcollect_correct {T : Type} (src dst0 : Z -> Z -> T)
    sizeof_T PE_size nelems elem_offset elem_count waves m m' p
    (Hs : 0 < sizeof_T <= ROCSHMEM_CHUNK_BYTES)
    (Hrange : 0 <= elem_offset /\ 0 <= range_count elem_count nelems /\
       elem_offset + range_count elem_count nelems <= nelems)
    (Hint : PE_size * nelems + ROCSHMEM_CHUNK_BYTES <= 2 ^ 31)
    (Hw : 0 < waves) (Hn : 1 <= PE_size)
    (Hi : begins PE_size dst0 m)
    (Hr : runs PE_size waves src
       (fcollect_linear_das sizeof_T PE_size nelems elem_offset elem_count waves) m m')
    (Hp : 0 <= p < PE_size) (Hl : returned m' p) :
  (forall q e, 0 <= q < PE_size -> 0 <= e < range_count elem_count nelems ->
     dst m' p (q * nelems + elem_offset + e) = src q (elem_offset + e)) /\
  (forall x, (forall q, 0 <= q < PE_size ->
     ~ q * nelems + elem_offset <= x < q * nelems + elem_offset + range_count elem_count nelems) ->
     dst m' p x = dst0 p x).
Proof.
  apply (chunked_result src dst0 sizeof_T PE_size nelems elem_offset elem_count waves
    (fun _ _ => elem_offset) Hs Hrange Hw Hn
    (fcollect_linear_das sizeof_T PE_size nelems elem_offset elem_count waves) m m' p); [|exact Hi|exact Hr|exact Hp|exact Hl].
  intros q w [Hq Hqw].
  apply (chunked_exact _ _ _ _ (fun c => s32 (q * nelems + elem_offset + c)) (fun _ c => s32 (elem_offset + c)));
    [done|lia|done|]. unfold ROCSHMEM_CHUNK_BYTES in *. intros j c Hj Hc.
  pose proof (block_in_array q PE_size nelems Hq ltac:(lia)). pose proof (block_in_array j PE_size nelems Hj ltac:(lia)).
  rewrite !s32_small by lia. lia.
Qed.

Lemma split_small total w n : 0 <= total < 2 ^ 63 -> 0 <= w < n -> n < 2 ^ 31 ->
  let '(offset, k) := split_wg_range total w n in 0 <= offset /\ 0 <= k /\ offset + k <= total.
Proof.
  intros Ht Hw Hn. unfold split_wg_range. pose proof (Z.div_mod total n ltac:(lia)) as Hdm.
  pose proof (Z.mod_pos_bound total n ltac:(lia)) as Hm.
  assert (Hq : 0 <= total / n) by (apply Z.div_pos; lia).
  set (q := total / n) in *. set (r := total mod n) in *.
  assert (0 <= w * q /\ w * q + q <= n * q) by nia. assert (q <= total) by nia.
  rewrite (wrap_small 64 (w * q)) by lia. rewrite !(wrap_small 64) by (case_ifs; lia). case_ifs; nia.
Qed.

Lemma alltoallv_elem pe_size dd sn sd wg_id wg_count waves my w u : 0 <= w < waves ->
  u ∈ alltoallv_puts pe_size dd sn sd wg_id wg_count waves my w <->
  exists j, 0 <= j < pe_size /\ j mod waves = w /\
    let '(o, k) := split_wg_range (sn j) wg_id wg_count in k <> 0 /\ u = Put j (dd my + o) (sd j + o) k.
Proof.
  intros Hw. unfold alltoallv_puts. rewrite list_elem_of_omap. split.
  - intros (j & Hj & Hu). apply strided_mod in Hj as [Hj Hm]; [|done]. exists j. split_and!; try lia.
    destruct (split_wg_range (sn j) wg_id wg_count) as [o k]. destruct (Z.eqb_spec k 0); [done|].
    by injection Hu as <-.
  - intros (j & Hj & Hm & Hu). exists j. split; [by apply strided_mod|].
    destruct (split_wg_range (sn j) wg_id wg_count) as [o k]. destruct Hu as [Hk ->].
    by rewrite (proj2 (Z.eqb_neq k 0) Hk).
Qed.

Lemma omap_nodup {A B} (f : A -> option B) l :
  (forall x y b, f x = Some b -> f y = Some b -> x = y) -> NoDup l -> NoDup (omap f l).
Proof.
  intros Hinj Hnd. induction Hnd as [|x l Hx Hnd IH]; [constructor|]. cbn [omap list_omap].
  destruct (f x) as [b|] eqn:Hf; [|exact IH]. constructor; [|exact IH].
  rewrite list_elem_of_omap. intros (y & Hy & Hb). by rewrite (Hinj x y b Hf Hb) in Hx.
Qed.

Lemma alltoallv_nodup pe_size dd sn sd wg_id wg_count waves my w : 0 < waves ->
  NoDup (alltoallv_puts pe_size dd sn sd wg_id wg_count waves my w).
Proof.
  intros Hw. unfold alltoallv_puts. apply omap_nodup; [|by apply strided_nodup].
  intros j j' b Hj Hj'. destruct (split_wg_range (sn j) wg_id wg_count) as [o k].
  destruct (split_wg_range (sn j') wg_id wg_count) as [o' k']. case_ifs_in Hj; case_ifs_in Hj'; congruence.
Qed.

Section alltoallv.
Context (PE_size waves wg_id wg_count : Z) (dest_displs source_nelems source_displs : Z -> Z -> Z).
Hypothesis (Hw : 0 < waves) (Hwg : 0 <= wg_id < wg_count) (Hwc : wg_count < 2 ^ 31).
Hypothesis Hlen : forall q j, 0 <= q < PE_size -> 0 <= j < PE_size -> 0 <= source_nelems q j < 2 ^ 63.
Hypothesis Hapart : forall q q' j x, 0 <= q < PE_size -> 0 <= q' < PE_size -> 0 <= j < PE_size ->
  dest_displs q q <= x < dest_displs q q + source_nelems q j ->
  dest_displs q' q' <= x < dest_displs q' q' + source_nelems q' j -> q = q'.

Lemma alltoallv_slice q j : 0 <= q < PE_size -> 0 <= j < PE_size ->
  let '(o, k) := split_wg_range (source_nelems q j) wg_id wg_count in
  0 <= o /\ 0 <= k /\ o + k <= source_nelems q j.
Proof using Hwg Hwc Hlen. intros Hq Hj. apply split_small; [by apply Hlen|lia|lia]. Qed.

Lemma alltoallv_no_overlap : no_overlap PE_size waves (fun q =>
  alltoallv_puts PE_size (dest_displs q) (source_nelems q) (source_displs q) wg_id wg_count waves q).
Proof.
  split; [intros q w _; by apply alltoallv_nodup|].
  intros q w u q' w' u' x [Hq Hqw] [Hq' Hqw'] Hu Hu' Ht Hx Hx'.
  apply alltoallv_elem in Hu as (j & Hj & Hm & Hu); [|done].
  apply alltoallv_elem in Hu' as (j' & Hj' & Hm' & Hu'); [|done].
  pose proof (alltoallv_slice q j Hq Hj) as H1. pose proof (alltoallv_slice q' j' Hq' Hj') as H2.
  destruct (split_wg_range (source_nelems q j) wg_id wg_count) as [o k] eqn:Ho.
  destruct (split_wg_range (source_nelems q' j') wg_id wg_count) as [o' k'] eqn:Ho'.
  destruct Hu as [Hk ->], Hu' as [Hk' ->]. unfold covers in *. simpl in *. subst j'.
  assert (q = q') as <- by (apply (Hapart q q' j x); lia). rewrite Ho in Ho'. injection Ho' as -> ->.
  by subst.
Qed.
End alltoallv.

(** One work-group of the general all-to-all exchange puts its slice of every
    block into the place that the sender's own displacement array gives for the
    sender's rank.  So a block arrives where the receiver's array says, as
    documented, when the displacements of the PEs agree; the work-groups' slices
    together are the whole block. *)
Theorem alltoallv_correct {T : Type} (src dst0 : Z -> Z -> T) PE_size waves wg_id wg_count
    (dest_displs source_nelems source_displs : Z -> Z -> Z) m m' p
    (Hw : 0 < waves) (Hn : 1 <= PE_size) (Hwg : 0 <= wg_id < wg_count) (Hwc : wg_count < 2 ^ 31)
    (Hlen : forall q j, 0 <= q < PE_size -> 0 <= j < PE_size -> 0 <= source_nelems q j < 2 ^ 63)
    (Hapart : forall q q' j x, 0 <= q < PE_size -> 0 <= q' < PE_size -> 0 <= j < PE_size ->
       dest_displs q q <= x < dest_displs q q + source_nelems q j ->
       dest_displs q' q' <= x < dest_displs q' q' + source_nelems q' j -> q = q')
    (Hi : begins PE_size dst0 m)
    (Hr : runs PE_size waves src (fun q => alltoallv_puts PE_size (dest_displs q) (source_nelems q)
       (source_displs q) wg_id wg_count waves q) m m')
    (Hp : 0 <= p < PE_size) (Hl : returned m' p) :
  (forall q, 0 <= q < PE_size ->
     let '(offset, k) := split_wg_range (source_nelems q p) wg_id wg_count in
     forall e, offset <= e < offset + k ->
       dst m' p (dest_displs q q + e) = src q (source_displs q p + e) /\
       (dest_displs p q = dest_displs q q -> dst m' p (dest_displs p q + e) = src q (source_displs q p + e))) /\
  (forall x, (forall q, 0 <= q < PE_size ->
     ~ dest_displs q q <= x < dest_displs q q + source_nelems q p) -> dst m' p x = dst0 p x).
Proof.
  pose proof (internal_sync_separates PE_size Hn) as Hsync.
  pose proof (alltoallv_slice PE_size wg_id wg_count source_nelems Hwg Hwc Hlen) as Hsm.
  pose proof (alltoallv_no_overlap PE_size waves wg_id wg_count dest_displs source_nelems source_displs
    Hw Hwg Hwc Hlen Hapart) as Hno.
  destruct (after_sync PE_size waves src dst0 _ m m' p Hno Hi Hr Hp Hl) as [Hin Hout]. split.
  - intros q Hq. pose proof (Hsm q p Hq Hp) as H1.
    destruct (split_wg_range (source_nelems q p) wg_id wg_count) as [o k] eqn:Ho. intros e He.
    assert (Hv : dst m' p (dest_displs q q + e) = src q (source_displs q p + e)).
    { rewrite (Hin q (p mod waves) (Put p (dest_displs q q + o) (source_displs q p + o) k)); simpl; try done.
      - f_equal. lia.
      - split; [done|apply Z.mod_pos_bound; lia].
      - apply alltoallv_elem; [apply Z.mod_pos_bound; lia|]. exists p. split_and!; try lia. rewrite Ho. split; [lia|done].
      - unfold covers. simpl. lia. }
    split; [done|]. intros ->. done.
  - intros x Hx. apply Hout. intros q w u [Hq Hqw] Hu Ht Hc.
    apply alltoallv_elem in Hu as (j & Hj & _ & Hu); [|done]. pose proof (Hsm q j Hq Hj) as H1.
    destruct (split_wg_range (source_nelems q j) wg_id wg_count) as [o k]. destruct Hu as [_ ->].
    unfold covers in Hc. simpl in *. subst j. apply (Hx q Hq). lia.
Qed.

(** Every call of a collective that puts and then synchronises ends: whatever
    the puts and the interleaving, the number of steps is bounded, and as long as
    some PE has not returned there is a next step (no deadlock). *)
Theorem collective_terminates {T : Type} (src dst0 : Z -> Z -> T) PE_size waves puts m
    (Hn : 1 <= PE_size) (Hi : begins PE_size dst0 m) :
  (forall k m', nsteps (step PE_size waves src puts (move := Barrier.step PE_size) (enters := Barrier.entered)) k m m' ->
     Z.of_nat k <= zsum (fun p =>
       zsum (fun w => Z.of_nat (length (puts p w))) (seqZ 0 waves) + Barrier.call_steps PE_size) (seqZ 0 PE_size)) /\
  (forall m' p, runs PE_size waves src puts m m' -> 0 <= p < PE_size -> ~ returned m' p ->
     exists m'', step PE_size waves src puts (move := Barrier.step PE_size) (enters := Barrier.entered) m' m'').
Proof.
  pose proof (begins_sane dst0 PE_size waves puts Hn m Hi) as Hs. split.
  - intros k m' Hr. destruct (total_work_run src PE_size waves puts Hn k m m' Hs Hr) as [Hk Hs'].
    pose proof (total_work_nonneg PE_size waves puts Hn m' Hs').
    enough (total_work PE_size waves puts m = zsum (fun p =>
       zsum (fun w => Z.of_nat (length (puts p w))) (seqZ 0 waves) + Barrier.call_steps PE_size)
       (seqZ 0 PE_size)) by lia.
    destruct Hi as (_ & Hi & Hb). apply zsum_ext. intros p _. unfold work, sync_work.
    destruct (proj1 Hb p) as (-> & -> & _). cbn [steps_left]. unfold put_work.
    rewrite (zsum_ext _ (fun w => Z.of_nat (length (puts p w)))); [lia|]. intros w _. rewrite Hi. lia.
  - intros m' p Hr Hp Hret. apply (call_progress src PE_size waves puts m' p); try done.
    eapply (rtc_invariant _ (sane PE_size waves puts)); [|exact Hr|exact Hs]. intros x y. by apply sane_step.
Qed.

(** ** Witnesses *)

(** An explicit schedule: a wavefront puts, or a PE moves on in [internal_sync]. *)
Inductive event := Issue (p w : Z) | Move (p : Z).

Section schedule.
Context (PE_size waves : Z) (src : Z -> Z -> Z) (puts : Z -> Z -> list put).

Definition issued_allb (m : machine (T := Z) (S := sync_state)) (s : sync_state) (p : Z) : bool :=
  (Barrier.entered s p <=? 1) && (negb (0 <? Barrier.entered s p) ||
  forallb (fun w => Nat.eqb (issued m p w) (length (puts p w))) (seqZ 0 waves)).

Definition act (e : event) (m : machine (T := Z) (S := sync_state)) : option machine :=
  match e with
  | Issue p w =>
      if (0 <=? p) && (p <? PE_size) && (0 <=? w) && (w <? waves) then
        u ← puts p w !! issued m p w;
        Some (mkMachine (do_put src p u (dst m)) (upd (issued m) p (upd (issued m p) w (issued m p w + 1)%nat))
                (sync m))
      else None
  | Move p =>
      if (0 <=? p) && (p <? PE_size) then
        s ← Barrier.exec PE_size p (sync m);
        if forallb (issued_allb m s) (seqZ 0 PE_size) then Some (mkMachine (dst m) (issued m) s) else None
      else None
  end.

Definition schedule (es : list event) (m : machine) : option machine :=
  foldl (fun o e => m ← o; act e m) (Some m) es.

Lemma act_step e m m' : act e m = Some m' ->
  step PE_size waves src puts (move := Barrier.step PE_size) (enters := Barrier.entered) m m'.
Proof.
  destruct e as [p w|p]; simpl; intros H; case_if_in H; try done.
  - destruct (puts p w !! issued m p w) as [u|] eqn:Hu; [|done]. injection H as <-.
    apply step_put; [unfold agent; lia|done].
  - destruct (Barrier.exec PE_size p (sync m)) as [s|] eqn:Hs; [|done]. simpl in H.
    destruct (forallb (issued_allb m s) (seqZ 0 PE_size)) eqn:Hb; [|done]. injection H as <-.
    apply step_sync; [by apply (Barrier.step_pe _ _ p); [unfold Barrier.is_pe; lia|]|].
    intros q Hq. rewrite forallb_forall in Hb. specialize (Hb q). unfold issued_allb in Hb.
    assert (Hq' : In q (seqZ 0 PE_size)) by (apply list_elem_of_In, elem_of_seqZ; lia).
    apply Hb in Hq' as [Hle Hq']%andb_prop. split; [lia|]. intros He w Hw'.
    rewrite (proj2 (Z.ltb_lt _ _) He) in Hq'. simpl in Hq'. rewrite forallb_forall in Hq'.
    apply Nat.eqb_eq, Hq', list_elem_of_In, elem_of_seqZ; lia.
Qed.

Lemma schedule_runs es m : bool_decide (is_Some (schedule es m)) = true ->
  runs PE_size waves src puts m (default m (schedule es m)).
Proof.
  intros Hb. apply bool_decide_eq_true in Hb as [m' Hm]. rewrite Hm. simpl. revert m Hm.
  induction es as [|e es IH]; intros m Hm; [injection Hm as <-; constructor|].
  unfold schedule in Hm. simpl in Hm. destruct (act e m) as [m1|] eqn:He.
  - eapply rtc_l; [by apply (act_step e)|]. by apply IH.
  - exfalso. clear -Hm. induction es; [done|]. by apply IHes.
Qed.
End schedule.

Definition demo_src (p x : Z) : Z := 10 * p + x.
Definition demo_machine : machine (T := Z) (S := sync_state) :=
  mkMachine (fun _ _ => -1) (fun _ _ => 0%nat) Barrier.demo_initial.

(** Two PEs with two wavefronts; the PEs put in turn and synchronise. *)
Definition demo_events : list event :=
  [Issue 0 0; Issue 1 1; Issue 1 0; Move 1; Issue 0 1; Move 0; Move 1; Move 0; Move 0; Move 0; Move 0; Move 1; Move 1].

Definition demo_end (puts : Z -> Z -> list put) : machine :=
  default demo_machine (schedule 2 2 demo_src puts demo_events demo_machine).

Lemma demo_begins : begins 2 (fun _ _ => -1) demo_machine.
Proof. split_and!; [done|done|apply Barrier.demo_initial_ok]. Qed.

Lemma alltoall_correct_witness :
  dst (demo_end (alltoall_linear_wg_das 4 2 3 1 2 2)) 1 (0 * 3 + 1 + 1) = demo_src 0 (1 * 3 + 1 + 1).
Proof.
  set (m' := demo_end _).
  assert (Hr : runs 2 2 demo_src (alltoall_linear_wg_das 4 2 3 1 2 2) demo_machine m').
  { apply schedule_runs. vm_compute. reflexivity. }
  assert (Hl : returned m' 1) by (vm_compute; reflexivity). clearbody m'.
  refine (proj1 (alltoall_correct demo_src (fun _ _ => -1) 4 2 3 1 2 2 demo_machine m' 1 _ _ _ _ _ demo_begins Hr _ Hl) 0 1 _ _);
    unfold range_count, ROCSHMEM_CHUNK_BYTES; simpl; lia.
Defined.

Lemma fcollect_correct_witness :
  dst (demo_end (fcollect_linear_das 4 2 3 0 (-1) 2)) 1 (0 * 3 + 0 + 2) = demo_src 0 (0 + 2).
Proof.
  set (m' := demo_end _).
  assert (Hr : runs 2 2 demo_src (fcollect_linear_das 4 2 3 0 (-1) 2) demo_machine m').
  { apply schedule_runs. vm_compute. reflexivity. }
  assert (Hl : returned m' 1) by (vm_compute; reflexivity). clearbody m'.
  refine (proj1 (fcollect_correct demo_src (fun _ _ => -1) 4 2 3 0 (-1) 2 demo_machine m' 1 _ _ _ _ _ demo_begins Hr _ Hl) 0 2 _ _);
    unfold range_count, ROCSHMEM_CHUNK_BYTES; simpl; lia.
Defined.

(** PE [q] has [q + 1] elements for everyone. *)
Definition demo_puts (q : Z) : Z -> list put :=
  alltoallv_puts 2 (fun i => i) (fun _ => q + 1) (fun j => j * (q + 1)) 0 1 2 q.

Lemma alltoallv_correct_witness : dst (demo_end demo_puts) 0 (1 + 1) = demo_src 1 (0 * 2 + 1).
Proof.
  assert (Hr : runs 2 2 demo_src demo_puts demo_machine (demo_end demo_puts)).
  { apply schedule_runs. vm_compute. reflexivity. }
  refine (proj1 (proj1 (alltoallv_correct demo_src (fun _ _ => -1) 2 2 0 1 (fun _ i => i) (fun q _ => q + 1)
    (fun q j => j * (q + 1)) demo_machine (demo_end demo_puts) 0 _ _ _ _ _ _ demo_begins Hr _ _) 1 _ 1 _));
    try lia; try (vm_compute; intuition congruence).
Defined.

Lemma collective_terminates_witness :
  exists m'', step 2 2 demo_src demo_puts (move := Barrier.step 2) (enters := Barrier.entered) demo_machine m''.
Proof.
  refine (proj2 (collective_terminates demo_src (fun _ _ => -1) 2 2 demo_puts demo_machine _ demo_begins)
    demo_machine 0 _ _ _); [lia|constructor|lia|vm_compute; discriminate].
Defined.
