(* ===== verification/ReduceScatter.v ===== *)
(** * Reduce-scatter through scratch slots

    [IPCContext::reduce_scatter_wg_das] (src/ipc/context_ipc_tmpl_device_das.hpp)
    as run by the PEs of a team for any sequence of calls, interleaved in any
    order.  For each chunk a PE puts its contribution into a slot of every peer
    and raises a flag there, waits for the flags of all peers, combines the slots
    with its own contribution, acknowledges to all peers and waits for their
    acknowledgements.  Flags carry a generation number that grows with every
    chunk, so none is ever reset.  The puts and the waits of phases 1 and 2 are
    made by the waves of the block in parallel: they happen in any order here.  A
    put takes two steps, between which the slot has arbitrary contents.  PEs are
    named by their rank in the team.

    Indices are integers of the source's [int] taken not to overflow. *)

From Stdlib Require Import ZArith Lia.
From stdpp Require Import base option numbers list relations.
From S2P Require Import Prelude.

Section reduce_scatter.
Context {T : Type}.
(** [OpWrap<Op>::Calc] on one element: the new value of the accumulator. *)
Context (Calc : T -> T -> T).
Context (pe_size chunk_size : Z).

(** One call: its arguments, the same on all PEs but for the sources. *)
Record args := mkArgs {
  nreduce : Z;
  elem_offset : Z;
  elem_count : Z;
  source : Z -> Z -> T
}.

Context (calls : list args).

(** ** Program counters *)

Inductive send_phase := ToPut | Putting | ToFlag | Sent.

Inductive phase :=
  | Sending (f : Z -> send_phase)
  | Waiting (seen : Z -> bool)
  | Computing
  | Acking (i : Z)
  | AckWaiting (i : Z).

Inductive counter :=
  | Out (c : nat)
  | At (c : nat) (chunk_index first_flag : Z) (ph : phase).

Record state := mkState {
  dest : nat -> Z -> Z -> T;
  pWrk : Z -> Z -> T;
  pSync : Z -> Z -> Z;
  pc : Z -> counter
}.

(** ** Geometry of the chunks *)

(** A negative count stands for the whole block. *)
Definition range_count (a : args) : Z := if elem_count a <? 0 then nreduce a else elem_count a.

Definition num_chunks (a : args) : Z := (range_count a + chunk_size - 1) / chunk_size.

Definition chunk_offset (a : args) (j : Z) : Z := elem_offset a + j * chunk_size.

Definition chunk_count (a : args) (j : Z) : Z :=
  Z.min chunk_size (elem_offset a + range_count a - chunk_offset a j).

(** The condition of the loop over the chunks. *)
Definition in_range (a : args) (j : Z) : bool := chunk_offset a j <? elem_offset a + range_count a.

(** The slot of [from] in the scratch array of [to]. *)
Definition scratch_slot (from to : Z) : Z := from - (if to <? from then 1 else 0).

(** ** One step *)

Definition peers : list Z := seqZ 0 pe_size.

Definition is_peer (me i : Z) : bool := (0 <=? i) && (i <? pe_size) && negb (i =? me).

Definition all_sent (me : Z) (f : Z -> send_phase) : bool :=
  forallb (fun i => (i =? me) || match f i with Sent => true | _ => false end) peers.

Definition all_seen (me : Z) (seen : Z -> bool) : bool := forallb (fun i => (i =? me) || seen i) peers.

Definition goto (me : Z) (k : counter) (s : state) : state :=
  mkState (dest s) (pWrk s) (pSync s) (upd (pc s) me k).

Definition put_slot (me i : Z) (count : Z) (g : Z -> T) (s : state) : state :=
  mkState (dest s) (write (pWrk s) i (scratch_slot me i * chunk_size) count g) (pSync s) (pc s).

Definition put_flag (i k v : Z) (s : state) : state :=
  mkState (dest s) (pWrk s) (write (pSync s) i k 1 (fun _ => v)) (pc s).

(** The element [x] of the result of one chunk, from the scratch array [w]. *)
Definition combine (a : args) (me j : Z) (w : Z -> T) (x : Z) : T :=
  foldl (fun acc i => if i =? me then acc else Calc (w (scratch_slot i me * chunk_size + x)) acc)
    (source a me (me * nreduce a + chunk_offset a j + x)) peers.

(** Phase 1: one access of the put to peer [i] or of its flag. *)
Definition exec_send (junk : Z -> T) (a : args) (me i : Z) (c : nat) (j first : Z) (f : Z -> send_phase) (s : state)
    : option state :=
  if all_sent me f then Some (goto me (At c j first (Waiting (fun _ => false))) s)
  else if is_peer me i then
    let next q := At c j first (Sending (upd f i q)) in
    match f i with
    | ToPut => Some (goto me (next Putting) (put_slot me i (chunk_count a j) junk s))
    | Putting =>
        Some (goto me (next ToFlag)
          (put_slot me i (chunk_count a j) (fun x => source a me (i * nreduce a + chunk_offset a j + x)) s))
    | ToFlag => Some (goto me (next Sent) (put_flag i me (first + j) s))
    | Sent => None
    end
  else None.

(** One step of PE [me]; [i] chooses the peer where the waves of the block are
    free to.  [None] while it is blocked or has made all its calls. *)
Definition exec (junk : Z -> T) (me i : Z) (s : state) : option state :=
  match pc s me with
  | Out c =>
      match calls !! c with
      | None => None
      | Some a =>
          let g := pSync s me (2 * pe_size) + num_chunks a in
          Some (goto me (if in_range a 0 then At c 0 (g - num_chunks a + 1) (Sending (fun _ => ToPut)) else Out (S c))
                 (put_flag me (2 * pe_size) g s))
      end
  | At c j first ph =>
      match calls !! c with
      | None => None
      | Some a =>
          let flag_val := first + j in
          match ph with
          | Sending f => exec_send junk a me i c j first f s
          | Waiting seen =>
              if all_seen me seen then Some (goto me (At c j first Computing) s)
              else if is_peer me i && negb (seen i) && (pSync s me i =? flag_val)
              then Some (goto me (At c j first (Waiting (upd seen i true))) s) else None
          | Computing =>
              Some (goto me (At c j first (Acking 0))
                (mkState (fun c' => if decide (c' = c) then write (dest s c) me (chunk_offset a j) (chunk_count a j)
                                                             (combine a me j (pWrk s me)) else dest s c')
                   (pWrk s) (pSync s) (pc s)))
          | Acking k =>
              if k <? pe_size then
                Some (goto me (At c j first (Acking (k + 1)))
                  (if k =? me then s else put_flag k (pe_size + me) flag_val s))
              else Some (goto me (At c j first (AckWaiting 0)) s)
          | AckWaiting k =>
              if k <? pe_size then
                if (k =? me) || (pSync s me (pe_size + k) =? flag_val)
                then Some (goto me (At c j first (AckWaiting (k + 1))) s) else None
              else Some (goto me (if in_range a (j + 1) then At c (j + 1) first (Sending (fun _ => ToPut)) else Out (S c)) s)
          end
      end
  end.

Definition is_pe (p : Z) : Prop := 0 <= p < pe_size.

Inductive step (s : state) : state -> Prop :=
  | step_pe junk p i s' : is_pe p -> exec junk p i s = Some s' -> step s s'.

(** Before the first call: no flag is ahead of the generation, which is the same
    on all PEs. *)
Definition initial (g0 : Z) (s : state) : Prop :=
  forall p, is_pe p -> pc s p = Out 0 /\ pSync s p (2 * pe_size) = g0 /\
    forall i, 0 <= i < 2 * pe_size -> pSync s p i <= g0.

(** Element [idx] of the block of PE [me], combined in the order of the ranks. *)
Definition result (a : args) (me idx : Z) : T :=
  foldl (fun acc i => if i =? me then acc else Calc (source a i (me * nreduce a + idx)) acc)
    (source a me (me * nreduce a + idx)) peers.

(** ** Progress of a PE, in chunks *)

(** Chunks of the calls before call [c]. *)
Definition base (c : nat) : Z := foldr (fun a n => num_chunks a + n) 0 (take c calls).

Definition round (k : counter) : Z := match k with Out c => base c | At c j _ _ => base c + j end.

(** Chunks whose flag the PE has raised at peer [i]. *)
Definition sent (k : counter) (i : Z) : Z :=
  round k + match k with
            | Out _ => 0
            | At _ _ _ (Sending f) => match f i with Sent => 1 | _ => 0 end
            | At _ _ _ _ => 1
            end.

(** Chunks it has acknowledged to peer [i]. *)
Definition acked (k : counter) (i : Z) : Z :=
  round k + match k with
            | At _ _ _ (Acking q) => if i <? q then 1 else 0
            | At _ _ _ (AckWaiting _) => 1
            | _ => 0
            end.

(** The generation it has reserved. *)
Definition reserved (k : counter) : Z := match k with Out c => base c | At c _ _ _ => base (S c) end.

(** Its slot at peer [i] holds its contribution to the current chunk. *)
Definition filled (k : counter) (i : Z) : bool :=
  match k with
  | Out _ => false
  | At _ _ _ (Sending f) => match f i with ToFlag | Sent => true | _ => false end
  | At _ _ _ _ => true
  end.

(** It has combined the current chunk. *)
Definition combined (ph : phase) : Z := match ph with Acking _ | AckWaiting _ => 1 | _ => 0 end.

(** It has stored element [idx] of call [c]. *)
Definition stored (k : counter) (c : nat) (a : args) (idx : Z) : Prop :=
  match k with
  | Out c' => (c < c')%nat
  | At c' j _ ph => (c < c')%nat \/ c = c' /\ idx < chunk_offset a (j + combined ph)
  end.

(** ** Invariant *)

Hypothesis pe_size_pos : 0 < pe_size.
Hypothesis chunk_pos : 0 < chunk_size.
Hypothesis calls_ok : Forall (fun a => 0 <= range_count a) calls.

Context (g0 : Z).

(** A flag that has been raised [m] times. *)
Definition flag_is (v m : Z) : Prop := if m =? 0 then v <= g0 else v = g0 + m.

Definition pc_ok (k : counter) : Prop :=
  match k with
  | Out c => (c <= length calls)%nat
  | At c j first ph =>
      (exists a, calls !! c = Some a /\ 0 <= j < num_chunks a) /\ first = g0 + base c + 1 /\
      match ph with Acking q | AckWaiting q => 0 <= q <= pe_size | _ => True end
  end.

(** What a PE knows of peer [i], whose counter is [ki]. *)
Definition seen_ok (k : counter) (i : Z) (sent_i : Z) : Prop :=
  match k with
  | Out _ | At _ _ _ (Sending _) => True
  | At _ _ _ (Waiting g) => g i = true -> round k + 1 <= sent_i
  | At _ _ _ _ => round k + 1 <= sent_i
  end.

Definition acks_ok (k : counter) (i : Z) (acked_i : Z) : Prop :=
  round k <= acked_i /\
  match k with At _ _ _ (AckWaiting q) => i < q -> round k + 1 <= acked_i | _ => True end.

Definition slot_ok (w : Z -> Z -> T) (k : counter) (r i : Z) : Prop :=
  match k with
  | Out _ => True
  | At c j _ _ => filled k i = true -> forall a x, calls !! c = Some a -> 0 <= x < chunk_count a j ->
      w i (scratch_slot r i * chunk_size + x) = source a r (i * nreduce a + chunk_offset a j + x)
  end.

Record inv (s : state) : Prop := {
  v_pc : forall r, is_pe r -> pc_ok (pc s r);
  v_gen : forall r, is_pe r -> pSync s r (2 * pe_size) = g0 + reserved (pc s r);
  v_flag : forall r i, is_pe r -> is_pe i -> r <> i -> flag_is (pSync s i r) (sent (pc s r) i);
  v_ack : forall r i, is_pe r -> is_pe i -> r <> i -> flag_is (pSync s i (pe_size + r)) (acked (pc s r) i);
  v_seen : forall r i, is_pe r -> is_pe i -> r <> i -> seen_ok (pc s r) i (sent (pc s i) r);
  v_acks : forall r i, is_pe r -> is_pe i -> r <> i -> acks_ok (pc s r) i (acked (pc s i) r);
  v_slot : forall r i, is_pe r -> is_pe i -> r <> i -> slot_ok (pWrk s) (pc s r) r i;
  v_dest : forall r c a idx, is_pe r -> calls !! c = Some a ->
    elem_offset a <= idx < elem_offset a + range_count a -> stored (pc s r) c a idx ->
    dest s c r idx = result a r idx
}.

(** A step of one PE whose flags only grow: what the peers know stays true. *)
Lemma inv_move s s' r k' :
  inv s -> is_pe r -> pc s' = upd (pc s) r k' ->
  (forall i, is_pe i -> i <> r -> sent (pc s r) i <= sent k' i) -> (forall i, is_pe i -> i <> r -> acked (pc s r) i <= acked k' i) -> pc_ok k' ->
  (forall p, is_pe p -> pSync s' p (2 * pe_size) = g0 + reserved (pc s' p)) ->
  (forall p i, is_pe p -> is_pe i -> p <> i -> flag_is (pSync s' i p) (sent (pc s' p) i)) ->
  (forall p i, is_pe p -> is_pe i -> p <> i -> flag_is (pSync s' i (pe_size + p)) (acked (pc s' p) i)) ->
  (forall i, is_pe i -> r <> i -> seen_ok k' i (sent (pc s i) r)) ->
  (forall i, is_pe i -> r <> i -> acks_ok k' i (acked (pc s i) r)) ->
  (forall p i, is_pe p -> is_pe i -> p <> i -> slot_ok (pWrk s') (pc s' p) p i) ->
  (forall p c a idx, is_pe p -> calls !! c = Some a -> elem_offset a <= idx < elem_offset a + range_count a ->
    stored (pc s' p) c a idx -> dest s' c p idx = result a p idx) ->
  inv s'.
Proof.
  intros Hi Hr Hpc Hs Ha Hk Hg Hf Hak Hse Hac Hsl Hd.
  split; try done; rewrite Hpc; unfold upd.
  - intros p Hp. case_if; [done|]. by apply Hi.
  - intros p i Hp Hii Hne. case_if; case_if; try lia.
    + assert (p = r) as -> by lia. by apply Hse.
    + assert (i = r) as -> by lia. pose proof (v_seen s Hi p r Hp Hr ltac:(lia)) as H. specialize (Hs p Hp ltac:(lia)).
      destruct (pc s p) as [c|c j fl []]; cbn in *; try done; lia || (intros Hx; specialize (H Hx); lia).
    + by apply Hi.
  - intros p i Hp Hii Hne. case_if; case_if; try lia.
    + assert (p = r) as -> by lia. by apply Hac.
    + assert (i = r) as -> by lia. pose proof (v_acks s Hi p r Hp Hr ltac:(lia)) as [H1 H2]. specialize (Ha p Hp ltac:(lia)).
      split; [lia|]. destruct (pc s p) as [c|c j fl []]; try done. intros Hx. specialize (H2 Hx). lia.
    + by apply Hi.
Qed.

(** A step that touches no memory. *)
Lemma inv_quiet s r k' :
  inv s -> is_pe r -> (forall i, is_pe i -> i <> r -> sent k' i = sent (pc s r) i) -> (forall i, is_pe i -> i <> r -> acked k' i = acked (pc s r) i) ->
  reserved k' = reserved (pc s r) -> pc_ok k' ->
  (forall i, is_pe i -> r <> i -> seen_ok k' i (sent (pc s i) r)) ->
  (forall i, is_pe i -> r <> i -> acks_ok k' i (acked (pc s i) r)) ->
  (forall i, is_pe i -> r <> i -> slot_ok (pWrk s) k' r i) ->
  (forall c a idx, calls !! c = Some a -> elem_offset a <= idx < elem_offset a + range_count a ->
    stored k' c a idx -> stored (pc s r) c a idx) ->
  inv (goto r k' s).
Proof.
  intros Hi Hr Es Ea Eg Hk Hse Hac Hsl Hst.
  eapply (inv_move s _ r k'); try done; cbn; unfold upd.
  - intros i Hii Hne. rewrite Es by done. lia.
  - intros i Hii Hne. rewrite Ea by done. lia.
  - intros p Hp. rewrite (v_gen s Hi p Hp). case_if; [|done]. assert (p = r) as -> by lia. lia.
  - intros p i Hp Hii Hne. pose proof (v_flag s Hi p i Hp Hii Hne). case_if; [|done]. assert (p = r) as -> by lia. by rewrite Es by done.
  - intros p i Hp Hii Hne. pose proof (v_ack s Hi p i Hp Hii Hne). case_if; [|done]. assert (p = r) as -> by lia. by rewrite Ea by done.
  - intros p i Hp Hii Hne. pose proof (v_slot s Hi p i Hp Hii Hne). case_if; [|done]. assert (p = r) as -> by lia. by apply Hsl.
  - intros p c a idx Hp Hc Hx Hst'. apply (v_dest s Hi p c a idx Hp Hc Hx). case_if_in Hst'; [|done].
    assert (p = r) as -> by lia. eauto.
Qed.

Lemma base_S c a : calls !! c = Some a -> base (S c) = base c + num_chunks a.
Proof.
  intros Hc. unfold base. rewrite (take_S_r _ _ _ Hc), foldr_app. cbn.
  assert (H : forall l n, foldr (fun a n => num_chunks a + n) n l = foldr (fun a n => num_chunks a + n) 0 l + n).
  { induction l as [|b l IH]; intros n; cbn; [lia|]. rewrite IH. lia. }
  rewrite H. lia.
Qed.

Lemma call_range c a : calls !! c = Some a -> 0 <= range_count a.
Proof. exact (proj1 (Forall_lookup _ _) calls_ok c a). Qed.

Lemma num_chunks_nonneg c a : calls !! c = Some a -> 0 <= num_chunks a.
Proof.
  intros Hc%call_range. unfold num_chunks. apply Z.div_pos; lia.
Qed.

Lemma base_nonneg c : 0 <= base c.
Proof.
  unfold base. assert (Hl : Forall (fun a => 0 <= num_chunks a) (take c calls)).
  { apply Forall_take, Forall_lookup. intros i a Hi. by eapply num_chunks_nonneg. }
  induction Hl; cbn; lia.
Qed.

(** A flag that is raised for chunk number [m]. *)
Lemma flag_is_eq v m m' : 0 <= m -> flag_is v m' -> 0 <= m' -> v = g0 + m + 1 -> m' = m + 1.
Proof. unfold flag_is. intros. case_if_in H0; lia. Qed.

(** The end of one chunk is the start of the next call or chunk. *)
Lemma chunk_end a j idx :
  elem_offset a <= idx < elem_offset a + range_count a -> j = num_chunks a -> idx < chunk_offset a j.
Proof.
  intros Hx ->. unfold chunk_offset, num_chunks.
  pose proof (Z.div_mod (range_count a + chunk_size - 1) chunk_size ltac:(lia)).
  pose proof (Z.mod_pos_bound (range_count a + chunk_size - 1) chunk_size chunk_pos). nia.
Qed.

(** The slots of two peers at a third are apart. *)
Lemma slots_apart p q i x y j a :
  p <> q -> p <> i -> q <> i -> 0 <= x < chunk_count a j -> 0 <= y < chunk_size ->
  scratch_slot p i * chunk_size + x <> scratch_slot q i * chunk_size + y.
Proof.
  unfold scratch_slot, chunk_count. intros Hpq Hpi Hqi Hx Hy.
  assert (scratch_slot p i <> scratch_slot q i) by (unfold scratch_slot; repeat case_if; lia).
  unfold scratch_slot in *. revert H. generalize (p - (if i <? p then 1 else 0)) (q - (if i <? q then 1 else 0)).
  intros u v Huv He. assert (u < v \/ v < u) as [|] by lia; nia.
Qed.

(** *** Entering a call *)
Lemma inv_enter s r c a :
  inv s -> is_pe r -> pc s r = Out c -> calls !! c = Some a ->
  let g := pSync s r (2 * pe_size) + num_chunks a in
  inv (goto r (if 0 <? num_chunks a then At c 0 (g - num_chunks a + 1) (Sending (fun _ => ToPut)) else Out (S c))
        (put_flag r (2 * pe_size) g s)).
Proof.
  intros Hi Hr Hpc Hc g. pose proof (v_gen s Hi r Hr) as Hg. rewrite Hpc in Hg. cbn in Hg.
  pose proof (base_S c a Hc) as HbS. pose proof (num_chunks_nonneg c a Hc) as Hn.
  set (k' := if 0 <? num_chunks a then _ else _).
  assert (Hk : round k' = base c /\ (forall i, sent k' i = base c) /\ (forall i, acked k' i = base c) /\
    reserved k' = base (S c) /\ pc_ok k').
  { unfold k', sent, acked. case_if; cbn.
    - split; [lia|]. split; [intros; lia|]. split; [intros; lia|]. split; [done|]. split; [exists a; split; [done|lia]|]. split; [lia|done].
    - split; [lia|]. split; [intros; lia|]. split; [intros; lia|]. split; [done|]. by apply lookup_lt_Some in Hc. }
  destruct Hk as (Hrd & Hs & Ha & Hrs & Hok).
  assert (Hold : (forall i, sent (pc s r) i = base c) /\ forall i, acked (pc s r) i = base c).
  { rewrite Hpc. unfold sent, acked. split; intros i; cbn; lia. }
  eapply (inv_move s _ r k'); try done; cbn [goto put_flag pc pWrk pSync dest]; unfold upd.
  - intros i _ _. rewrite (proj1 Hold), Hs. lia.
  - intros i _ _. rewrite (proj2 Hold), Ha. lia.
  - intros p Hp. rewrite write_flag. case_if.
    + case_if; [|lia]. rewrite Hrs. unfold g. lia.
    + case_if; [lia|]. by apply (v_gen s Hi).
  - intros p i Hp Hii Hne. unfold is_pe in *. rewrite write_flag. case_if; [lia|]. pose proof (v_flag s Hi p i Hp Hii Hne) as Hf.
    case_if; [|done]. assert (p = r) as -> by lia. by rewrite Hs, <- (proj1 Hold i).
  - intros p i Hp Hii Hne. unfold is_pe in *. rewrite write_flag. case_if; [lia|]. pose proof (v_ack s Hi p i Hp Hii Hne) as Hf.
    case_if; [|done]. assert (p = r) as -> by lia. by rewrite Ha, <- (proj2 Hold i).
  - intros i Hii Hne. unfold k'. by case_if.
  - intros i Hii Hne. destruct (v_acks s Hi r i Hr Hii Hne) as [H1 _]. rewrite Hpc in H1. cbn in H1.
    split; [lia|]. unfold k'. by case_if.
  - intros p i Hp Hii Hne. pose proof (v_slot s Hi p i Hp Hii Hne). case_if; [|done]. unfold k'. by case_if.
  - intros p c' a' idx Hp Hc' Hx Hst. apply (v_dest s Hi p c' a' idx Hp Hc' Hx). case_if_in Hst; [|done].
    assert (p = r) as -> by lia. rewrite Hpc. cbn. unfold k' in Hst. case_if_in Hst; cbn in Hst.
    + destruct Hst as [|[-> Hst]]; [done|]. unfold chunk_offset in Hst. simplify_eq. lia.
    + destruct (decide (c' = c)) as [->|]; [|lia]. simplify_eq. unfold num_chunks in *.
      assert (1 <= (range_count a + chunk_size - 1) / chunk_size) by (apply Z.div_le_lower_bound; lia). lia.
Qed.

(** *** Phase 1 *)

Lemma write_slot (w : Z -> Z -> T) r i a j g p i' x a' j' :
  p <> i' -> r <> i -> 0 <= x < chunk_count a' j' -> (i' = i -> p <> r) ->
  write w i (scratch_slot r i * chunk_size) (chunk_count a j) g i' (scratch_slot p i' * chunk_size + x) =
    w i' (scratch_slot p i' * chunk_size + x).
Proof.
  intros Hp Hr Hx Hne. unfold write. case_if; [|done]. assert (i' = i) as -> by lia. unfold overwrite. case_if; [|done].
  exfalso. set (y := scratch_slot p i * chunk_size + x - scratch_slot r i * chunk_size) in *.
  apply (slots_apart p r i x y j' a'); [by apply Hne|done..| |lia]. unfold chunk_count in *. lia.
Qed.

Lemma write_own_slot (w : Z -> Z -> T) r i a j g x :
  0 <= x < chunk_count a j ->
  write w i (scratch_slot r i * chunk_size) (chunk_count a j) g i (scratch_slot r i * chunk_size + x) = g x.
Proof.
  intros Hx. unfold write, overwrite. rewrite Z.eqb_refl. case_if; [f_equal; lia|exfalso; lia].
Qed.

Lemma inv_put s r i c j first f q g a :
  inv s -> is_pe r -> is_pe i -> r <> i -> pc s r = At c j first (Sending f) -> calls !! c = Some a ->
  f i <> Sent -> q <> Sent ->
  (q = ToFlag -> forall x, g x = source a r (i * nreduce a + chunk_offset a j + x)) ->
  inv (goto r (At c j first (Sending (upd f i q))) (put_slot r i (chunk_count a j) g s)).
Proof.
  intros Hi Hr Hii Hne Hpc Hc Hf Hq Hg. set (k' := At c j first (Sending (upd f i q))).
  pose proof (v_pc s Hi r Hr) as Hok. rewrite Hpc in Hok.
  assert (Hs : forall i', sent k' i' = sent (pc s r) i').
  { intros i'. rewrite Hpc. unfold k', sent, upd. cbn. destruct (Z.eqb_spec i' i) as [->|]; [|done].
    destruct q; try done; destruct (f i); done. }
  assert (Ha : forall i', acked k' i' = acked (pc s r) i') by (intros i'; by rewrite Hpc).
  eapply (inv_move s _ r k'); try done; cbn [goto put_slot pc pWrk pSync dest].
  - intros i' _ _. rewrite Hs. lia.
  - intros i' _ _. rewrite Ha. lia.
  - intros p Hp. rewrite (v_gen s Hi p Hp). unfold upd. case_if; [|done]. assert (p = r) as -> by lia. by rewrite Hpc.
  - intros p i' Hp Hi' Hne'. pose proof (v_flag s Hi p i' Hp Hi' Hne'). unfold upd. case_if; [|done].
    assert (p = r) as -> by lia. by rewrite Hs.
  - intros p i' Hp Hi' Hne'. pose proof (v_ack s Hi p i' Hp Hi' Hne'). unfold upd. case_if; [|done].
    assert (p = r) as -> by lia. by rewrite Ha.
  - intros i' Hi' Hne'. pose proof (v_acks s Hi r i' Hr Hi' Hne') as H. by rewrite Hpc in H.
  - intros p i' Hp Hi' Hne'. pose proof (v_slot s Hi p i' Hp Hi' Hne') as Hsl. unfold upd at 1. case_if.
    + assert (p = r) as -> by lia. unfold k', slot_ok, filled, upd. intros Hfl a' x Hc' Hx. simplify_eq.
      destruct (Z.eqb_spec i' i) as [->|Hni].
      * rewrite write_own_slot by done. apply Hg. by destruct q.
      * rewrite (write_slot _ _ _ _ _ _ _ _ _ a j) by (done || lia). rewrite Hpc in Hsl. apply Hsl; done.
    + destruct (pc s p) as [|c' j' fl' ph']; [done|]. intros Hfl a' x Hc' Hx. specialize (Hsl Hfl a' x Hc' Hx).
      rewrite (write_slot _ _ _ _ _ _ _ _ _ a' j') by (done || lia). done.
  - intros p c' a' idx Hp Hc' Hx Hst. apply (v_dest s Hi p c' a' idx Hp Hc' Hx). unfold upd in Hst.
    case_if_in Hst; [|done]. assert (p = r) as -> by lia. by rewrite Hpc.
Qed.

Lemma inv_flag s r i c j first f :
  inv s -> is_pe r -> is_pe i -> r <> i -> pc s r = At c j first (Sending f) -> f i = ToFlag ->
  inv (goto r (At c j first (Sending (upd f i Sent))) (put_flag i r (first + j) s)).
Proof.
  intros Hi Hr Hii Hne Hpc Hf. set (k' := At c j first (Sending (upd f i Sent))).
  pose proof (v_pc s Hi r Hr) as Hok. rewrite Hpc in Hok. pose proof Hok as ((a & Hc & Hj) & Hfirst & _).
  pose proof (base_nonneg c) as Hb.
  assert (Hsi : sent k' i = base c + j + 1) by (unfold k', sent, upd; cbn; rewrite Z.eqb_refl; lia).
  assert (Hs : forall i', i' <> i -> sent k' i' = sent (pc s r) i').
  { intros i' Hni. rewrite Hpc. unfold k', sent, upd. cbn. by rewrite (proj2 (Z.eqb_neq i' i) Hni). }
  assert (Ha : forall i', acked k' i' = acked (pc s r) i') by (intros i'; by rewrite Hpc).
  unfold is_pe in *.
  eapply (inv_move s _ r k'); try done; cbn [goto put_flag pc pWrk pSync dest].
  - intros i' _ _. destruct (decide (i' = i)) as [->|Hni]; [|rewrite Hs by done; lia].
    rewrite Hsi, Hpc. unfold sent. cbn. rewrite Hf. lia.
  - intros i' _ _. rewrite Ha. lia.
  - intros p Hp. rewrite write_flag. case_if; [lia|]. rewrite (v_gen s Hi p Hp). unfold upd. case_if; [|done].
    assert (p = r) as -> by lia. by rewrite Hpc.
  - intros p i' Hp Hi' Hne'. rewrite write_flag. pose proof (v_flag s Hi p i' Hp Hi' Hne') as Hfl. unfold upd.
    destruct ((i' =? i) && (p =? r)) eqn:E.
    + rewrite (proj2 (Z.eqb_eq p r)) by lia. assert (i' = i) as -> by lia. rewrite Hsi. unfold flag_is. case_if; lia.
    + case_if; [|done]. assert (p = r) as -> by lia. rewrite Hs by lia. done.
  - intros p i' Hp Hi' Hne'. unfold is_pe in *. rewrite write_flag. case_if; [lia|]. pose proof (v_ack s Hi p i' Hp Hi' Hne'). unfold upd. case_if; [|done].
    assert (p = r) as -> by lia. by rewrite Ha.
  - intros i' Hi' Hne'. pose proof (v_acks s Hi r i' Hr Hi' Hne') as H. by rewrite Hpc in H.
  - intros p i' Hp Hi' Hne'. pose proof (v_slot s Hi p i' Hp Hi' Hne') as Hsl. unfold upd at 1. case_if; [|done].
    assert (p = r) as -> by lia. rewrite Hpc in Hsl. unfold k', slot_ok, filled, upd in *.
    destruct (Z.eqb_spec i' i) as [->|]; [|done]. rewrite Hf in Hsl. done.
  - intros p c' a' idx Hp Hc' Hx Hst. apply (v_dest s Hi p c' a' idx Hp Hc' Hx). unfold upd in Hst.
    case_if_in Hst; [|done]. assert (p = r) as -> by lia. by rewrite Hpc.
Qed.

(** *** Phase 3 *)

Lemma base_mono c c' a : calls !! c = Some a -> (c < c')%nat -> (c' <= length calls)%nat -> base c + num_chunks a <= base c'.
Proof.
  intros Hc. induction c' as [|c' IH]; intros Hlt Hle; [lia|].
  destruct (lookup_lt_is_Some_2 calls c') as [a' Ha']; [lia|]. rewrite (base_S _ _ Ha').
  pose proof (num_chunks_nonneg _ _ Ha'). destruct (decide (c = c')) as [->|]; [simplify_eq; lia|].
  specialize (IH ltac:(lia) ltac:(lia)). lia.
Qed.

(** The number of a chunk tells its call and its index. *)
Lemma round_inj c j f ph c' j' f' ph' :
  pc_ok (At c j f ph) -> pc_ok (At c' j' f' ph') -> base c + j = base c' + j' -> c = c' /\ j = j'.
Proof.
  intros ((a & Hc & Hj) & _) ((a' & Hc' & Hj') & _) He.
  apply lookup_lt_Some in Hc as Hl. apply lookup_lt_Some in Hc' as Hl'.
  destruct (decide (c = c')) as [->|Hne]; [lia|]. exfalso. assert (c < c' \/ c' < c)%nat as [Hlt|Hlt] by lia.
  - pose proof (base_mono c c' a Hc Hlt ltac:(lia)). lia.
  - pose proof (base_mono c' c a' Hc' Hlt ltac:(lia)). lia.
Qed.

Lemma sent_bound k i : sent k i <= round k + 1.
Proof. unfold sent. destruct k as [|c j f []]; try lia. destruct (f0 i); lia. Qed.

(** When a PE combines a chunk, every peer has filled its slot for that chunk. *)
Lemma peer_filled s r i c j first a :
  inv s -> is_pe r -> is_pe i -> r <> i -> pc s r = At c j first Computing -> calls !! c = Some a ->
  forall x, 0 <= x < chunk_count a j ->
    pWrk s r (scratch_slot i r * chunk_size + x) = source a i (r * nreduce a + chunk_offset a j + x).
Proof.
  intros Hi Hr Hii Hne Hpc Hc x Hx.
  pose proof (v_seen s Hi r i Hr Hii Hne) as Hse. rewrite Hpc in Hse. cbn in Hse.
  destruct (v_acks s Hi i r Hii Hr ltac:(done)) as [Hac _]. rewrite Hpc in Hac. unfold acked in Hac. cbn in Hac.
  pose proof (sent_bound (pc s i) r) as Hb. pose proof (v_slot s Hi i r Hii Hr ltac:(done)) as Hsl.
  pose proof (v_pc s Hi i Hii) as Hoki. pose proof (v_pc s Hi r Hr) as Hokr. rewrite Hpc in Hokr.
  destruct (pc s i) as [ci|ci ji fi phi] eqn:Epc; unfold sent in Hse, Hb; cbn [round] in *; [lia|].
  destruct (round_inj _ _ _ _ _ _ _ _ Hoki Hokr) as [-> ->]; [destruct phi as [f| | | |]; try lia; destruct (f r); lia|].
  apply Hsl; [|done|done]. destruct phi as [f| | | |]; try done. cbn. destruct (f r); try done; lia.
Qed.

Lemma combine_result s r c j first a x :
  inv s -> is_pe r -> pc s r = At c j first Computing -> calls !! c = Some a -> 0 <= x < chunk_count a j ->
  combine a r j (pWrk s r) x = result a r (chunk_offset a j + x).
Proof.
  intros Hi Hr Hpc Hc Hx. unfold combine, result, peers. rewrite Z.add_assoc.
  assert (Hall : Forall (fun i => is_pe i) (seqZ 0 pe_size)).
  { apply Forall_forall. intros i Hin%elem_of_seqZ. unfold is_pe. lia. }
  generalize (source a r (r * nreduce a + chunk_offset a j + x)). induction Hall as [|i l Hii Hl IH]; intros acc; [done|].
  cbn [foldl]. destruct (Z.eqb_spec i r) as [->|Hne]; [apply IH|].
  rewrite (peer_filled s r i c j first a) by done. apply IH.
Qed.

Lemma inv_compute s r c j first a :
  inv s -> is_pe r -> pc s r = At c j first Computing -> calls !! c = Some a ->
  inv (goto r (At c j first (Acking 0))
        (mkState (fun c' => if decide (c' = c) then write (dest s c) r (chunk_offset a j) (chunk_count a j)
                                                     (combine a r j (pWrk s r)) else dest s c')
           (pWrk s) (pSync s) (pc s))).
Proof.
  intros Hi Hr Hpc Hc. set (k' := At c j first (Acking 0)).
  pose proof (v_pc s Hi r Hr) as Hok. rewrite Hpc in Hok. destruct Hok as ((a0 & Hc0 & Hj) & Hfirst & _). simplify_eq.
  assert (Hs : forall i, sent k' i = sent (pc s r) i) by (intros i; by rewrite Hpc).
  assert (Ha : forall i, is_pe i -> acked k' i = acked (pc s r) i).
  { intros i Hii. rewrite Hpc. unfold k', acked, is_pe in *. cbn. rewrite (proj2 (Z.ltb_ge i 0)); lia. }
  eapply (inv_move s _ r k'); try done; cbn [goto pc pWrk pSync dest].
  - intros i _ _. rewrite Hs. lia.
  - intros i _ _. rewrite Hpc. unfold k', acked. cbn. case_if; lia.
  - split; [by exists a|]. split; [done|lia].
  - intros p Hp. rewrite (v_gen s Hi p Hp). unfold upd. case_if; [|done]. assert (p = r) as -> by lia. by rewrite Hpc.
  - intros p i Hp Hii Hne. pose proof (v_flag s Hi p i Hp Hii Hne). unfold upd. case_if; [|done].
    assert (p = r) as -> by lia. by rewrite Hs.
  - intros p i Hp Hii Hne. pose proof (v_ack s Hi p i Hp Hii Hne). unfold upd. case_if; [|done].
    assert (p = r) as -> by lia. by rewrite Ha.
  - intros i Hii Hne. pose proof (v_seen s Hi r i Hr Hii Hne) as H. by rewrite Hpc in H.
  - intros i Hii Hne. pose proof (v_acks s Hi r i Hr Hii Hne) as [H _]. rewrite Hpc in H. by split.
  - intros p i Hp Hii Hne. pose proof (v_slot s Hi p i Hp Hii Hne) as H. unfold upd. case_if; [|done].
    assert (p = r) as -> by lia. by rewrite Hpc in H.
  - intros p c' a' idx Hp Hc' Hx Hst. unfold upd in Hst.
    pose proof (v_dest s Hi p c' a' idx Hp Hc' Hx) as Hd. case_decide as Hcc; [subst c'; simplify_eq|].
    2:{ case_if_in Hst; [|by apply Hd]. assert (p = r) as -> by lia. apply Hd. rewrite Hpc. cbn in *. naive_solver. }
    unfold write. destruct (Z.eqb_spec p r) as [->|Hpr].
    2:{ by apply Hd. }
    cbn in Hst. unfold overwrite. case_if.
    + rewrite (combine_result s r c j (g0 + base c + 1) a) by (done || lia). f_equal. lia.
    + apply Hd. rewrite Hpc. cbn. right. split; [done|]. rewrite Z.add_0_r. unfold chunk_count, chunk_offset in *.
      destruct Hst as [|[_ Hst]]; [lia|]. lia.
Qed.

(** *** Phase 4 *)

Lemma inv_ack s r k c j first :
  inv s -> is_pe r -> is_pe k -> r <> k -> pc s r = At c j first (Acking k) ->
  inv (goto r (At c j first (Acking (k + 1))) (put_flag k (pe_size + r) (first + j) s)).
Proof.
  intros Hi Hr Hk Hne Hpc. set (k' := At c j first (Acking (k + 1))).
  pose proof (v_pc s Hi r Hr) as Hok. rewrite Hpc in Hok. destruct Hok as (Hj & Hfirst & Hq). pose proof Hj as (a & Hc & Hja).
  pose proof (base_nonneg c) as Hb.
  assert (Hs : forall i, sent k' i = sent (pc s r) i) by (intros i; by rewrite Hpc).
  assert (Hak : acked k' k = base c + j + 1) by (unfold k', acked; cbn; case_if; lia).
  assert (Ha : forall i, i <> k -> acked k' i = acked (pc s r) i).
  { intros i Hni. rewrite Hpc. unfold k', acked. cbn. repeat case_if; lia. }
  unfold is_pe in *.
  eapply (inv_move s _ r k'); try done; cbn [goto put_flag pc pWrk pSync dest].
  - intros i _ _. rewrite Hs. lia.
  - intros i _ _. rewrite Hpc. unfold k', acked. cbn. repeat case_if; lia.
  - split; [done|]. split; [done|lia].
  - intros p Hp. rewrite write_flag. case_if; [lia|]. rewrite (v_gen s Hi p Hp). unfold upd. case_if; [|done].
    assert (p = r) as -> by lia. by rewrite Hpc.
  - intros p i Hp Hii Hne'. unfold is_pe in *. rewrite write_flag. case_if; [lia|]. pose proof (v_flag s Hi p i Hp Hii Hne'). unfold upd. case_if; [|done].
    assert (p = r) as -> by lia. by rewrite Hs.
  - intros p i Hp Hii Hne'. rewrite write_flag. pose proof (v_ack s Hi p i Hp Hii Hne') as Hfl. unfold upd.
    destruct ((i =? k) && (pe_size + p =? pe_size + r)) eqn:E.
    + rewrite (proj2 (Z.eqb_eq p r)) by lia. assert (i = k) as -> by lia. rewrite Hak. unfold flag_is. case_if; lia.
    + case_if; [|done]. assert (p = r) as -> by lia. rewrite Ha by lia. done.
  - intros i Hii Hne'. pose proof (v_seen s Hi r i Hr Hii Hne') as H. by rewrite Hpc in H.
  - intros i Hii Hne'. pose proof (v_acks s Hi r i Hr Hii Hne') as [H _]. rewrite Hpc in H. by split.
  - intros p i Hp Hii Hne'. pose proof (v_slot s Hi p i Hp Hii Hne') as H. unfold upd. case_if; [|done].
    assert (p = r) as -> by lia. by rewrite Hpc in H.
  - intros p c' a' idx Hp Hc' Hx Hst. apply (v_dest s Hi p c' a' idx Hp Hc' Hx). unfold upd in Hst.
    case_if_in Hst; [|done]. assert (p = r) as -> by lia. by rewrite Hpc.
Qed.

(** *** Steps that touch no memory *)

(** A step within one chunk. *)
Lemma inv_stay s r c j first ph ph' :
  inv s -> is_pe r -> pc s r = At c j first ph ->
  (forall i, is_pe i -> i <> r -> sent (At c j first ph') i = sent (At c j first ph) i) ->
  (forall i, is_pe i -> i <> r -> acked (At c j first ph') i = acked (At c j first ph) i) ->
  combined ph' = combined ph -> match ph' with Acking q | AckWaiting q => 0 <= q <= pe_size | _ => True end ->
  (forall i, is_pe i -> i <> r -> filled (At c j first ph') i = true -> filled (At c j first ph) i = true) ->
  (forall i, is_pe i -> r <> i -> seen_ok (At c j first ph) i (sent (pc s i) r) ->
    seen_ok (At c j first ph') i (sent (pc s i) r)) ->
  (forall i, is_pe i -> r <> i -> acks_ok (At c j first ph) i (acked (pc s i) r) ->
    acks_ok (At c j first ph') i (acked (pc s i) r)) ->
  inv (goto r (At c j first ph') s).
Proof.
  intros Hi Hr Hpc Hs Ha Hco Hq Hfl Hse Hac. pose proof (v_pc s Hi r Hr) as Hok. rewrite Hpc in Hok.
  destruct Hok as (Hj & Hfirst & _). apply inv_quiet; rewrite ?Hpc; try done.
  - intros i Hii Hne. apply Hse; [done|done|]. rewrite <- Hpc. by apply (v_seen s Hi).
  - intros i Hii Hne. apply Hac; [done|done|]. rewrite <- Hpc. by apply (v_acks s Hi).
  - intros i Hii Hne. pose proof (v_slot s Hi r i Hr Hii Hne) as H. rewrite Hpc in H. intros Hx. by apply H, Hfl.
  - intros c' a' idx _ _. cbn. by rewrite Hco.
Qed.

(** The end of a chunk. *)
Lemma inv_next s r c j first a :
  inv s -> is_pe r -> pc s r = At c j first (AckWaiting pe_size) -> calls !! c = Some a ->
  inv (goto r (if j + 1 <? num_chunks a then At c (j + 1) first (Sending (fun _ => ToPut)) else Out (S c)) s).
Proof.
  intros Hi Hr Hpc Hc. pose proof (v_pc s Hi r Hr) as Hok. rewrite Hpc in Hok.
  destruct Hok as ((a0 & Hc0 & Hj) & Hfirst & _). simplify_eq. pose proof (base_S c a Hc) as HbS.
  set (k' := if j + 1 <? num_chunks a then _ else _).
  assert (Hk : round k' = base c + j + 1 /\ (forall i, sent k' i = round k') /\ (forall i, acked k' i = round k') /\
    reserved k' = base (S c) /\ pc_ok k').
  { unfold k', sent, acked. case_if; cbn.
    - split; [lia|]. split; [intros; lia|]. split; [intros; lia|]. split; [done|]. split; [exists a; split; [done|lia]|done].
    - split; [lia|]. split; [intros; lia|]. split; [intros; lia|]. split; [done|]. by apply lookup_lt_Some in Hc. }
  destruct Hk as (Hrd & Hs & Ha & Hrs & Hok).
  apply inv_quiet; rewrite ?Hpc; try done.
  - intros i _ _. rewrite Hs, Hrd. unfold sent. cbn. lia.
  - intros i _ _. rewrite Ha, Hrd. unfold acked. cbn. lia.
  - intros i Hii Hne. unfold k'. by case_if.
  - intros i Hii Hne. destruct (v_acks s Hi r i Hr Hii Hne) as [_ H]. rewrite Hpc in H. cbn in H. unfold is_pe in *.
    specialize (H ltac:(lia)). split; [lia|]. unfold k'. by case_if.
  - intros i Hii Hne. unfold k'. by case_if.
  - intros c' a' idx Hc' Hx. unfold k'. case_if; cbn; rewrite ?Z.add_0_r; [done|]. intros Hlt.
    destruct (decide (c' = c)) as [->|]; [|lia]. right. split; [done|]. simplify_eq. apply chunk_end; [done|lia].
Qed.

(** *** Every step *)

Lemma in_range_spec a j : in_range a j = (j <? num_chunks a).
Proof.
  unfold in_range, num_chunks, chunk_offset.
  pose proof (Z.div_mod (range_count a + chunk_size - 1) chunk_size ltac:(lia)).
  pose proof (Z.mod_pos_bound (range_count a + chunk_size - 1) chunk_size chunk_pos).
  apply eq_iff_eq_true. rewrite !Z.ltb_lt. split; intros; nia.
Qed.

Lemma is_peer_spec r i : is_peer r i = true <-> is_pe i /\ r <> i.
Proof. unfold is_peer, is_pe. lia. Qed.

Lemma peers_all (P : Z -> bool) r :
  forallb (fun i => (i =? r) || P i) peers = true <-> forall i, is_pe i -> r <> i -> P i = true.
Proof.
  rewrite forallb_forall. unfold peers, is_pe. split.
  - intros H i Hi Hne. specialize (H i). rewrite <- list_elem_of_In, elem_of_seqZ in H. specialize (H ltac:(lia)). lia.
  - intros H i. rewrite <- list_elem_of_In, elem_of_seqZ. intros Hi. specialize (H i ltac:(lia)).
    destruct (Z.eqb_spec i r); [done|]. cbn. by apply H.
Qed.

Lemma exec_send_inv junk a r i c j first f s s' :
  inv s -> is_pe r -> pc s r = At c j first (Sending f) -> calls !! c = Some a ->
  exec_send junk a r i c j first f s = Some s' -> inv s'.
Proof.
  intros Hi Hr Hpc Hc. unfold exec_send. destruct (all_sent r f) eqn:Eall.
  - intros [= <-]. pose proof (proj1 (peers_all _ r) Eall) as Hall. cbn beta in Hall. eapply inv_stay; try done.
    + intros i' Hi' Hne. specialize (Hall i' Hi' ltac:(done)). unfold sent. cbn. destruct (f i'); done || lia.
    + intros i' Hi' Hne _. specialize (Hall i' Hi' ltac:(done)). cbn in *. by destruct (f i').
  - destruct (is_peer r i) eqn:Ep; [|done]. apply is_peer_spec in Ep as [Hii Hne].
    destruct (f i) eqn:Ef; intros [= <-].
    + eapply inv_put; (done || by rewrite Ef).
    + eapply inv_put; (done || by rewrite Ef).
    + by apply inv_flag.
Qed.

Lemma sent_nonneg k i : pc_ok k -> 0 <= sent k i.
Proof.
  unfold sent. destruct k as [c|c j f ph]; cbn.
  - pose proof (base_nonneg c). lia.
  - intros ((a & _ & Hj) & _). pose proof (base_nonneg c). destruct ph as [g| | | |]; try lia. destruct (g i); lia.
Qed.

Lemma acked_nonneg k i : pc_ok k -> 0 <= acked k i.
Proof.
  unfold acked. destruct k as [c|c j f ph]; cbn.
  - pose proof (base_nonneg c). lia.
  - intros ((a & _ & Hj) & _). pose proof (base_nonneg c). destruct ph as [g| | | |]; try lia. case_if; lia.
Qed.

(** What a flag that has the awaited value tells. *)
Lemma flag_seen s r i c j first ph :
  inv s -> is_pe r -> is_pe i -> r <> i -> pc s r = At c j first ph -> pSync s r i = first + j ->
  sent (pc s i) r = base c + j + 1.
Proof.
  intros Hi Hr Hii Hne Hpc Hf. pose proof (v_pc s Hi r Hr) as Hok. rewrite Hpc in Hok.
  destruct Hok as ((a & _ & Hj) & Hfirst & _). pose proof (base_nonneg c).
  apply (flag_is_eq (pSync s r i)); [lia|by apply (v_flag s Hi)|by apply sent_nonneg, (v_pc s Hi)|lia].
Qed.

Lemma flag_acked s r i c j first ph :
  inv s -> is_pe r -> is_pe i -> r <> i -> pc s r = At c j first ph -> pSync s r (pe_size + i) = first + j ->
  acked (pc s i) r = base c + j + 1.
Proof.
  intros Hi Hr Hii Hne Hpc Hf. pose proof (v_pc s Hi r Hr) as Hok. rewrite Hpc in Hok.
  destruct Hok as ((a & _ & Hj) & Hfirst & _). pose proof (base_nonneg c).
  apply (flag_is_eq (pSync s r (pe_size + i))); [lia|by apply (v_ack s Hi)|by apply acked_nonneg, (v_pc s Hi)|lia].
Qed.

Lemma exec_wait_inv r i c j first seen s :
  inv s -> is_pe r -> is_pe i -> r <> i -> pc s r = At c j first (Waiting seen) -> pSync s r i = first + j ->
  inv (goto r (At c j first (Waiting (upd seen i true))) s).
Proof.
  intros Hi Hr Hii Hne Hpc Hf. eapply inv_stay; try done. intros i' Hi' Hne' Hse. cbn in *. unfold upd.
  destruct (Z.eqb_spec i' i) as [->|]; [|done]. intros _. rewrite (flag_seen s r i c j first _ Hi Hr Hii Hne Hpc Hf). lia.
Qed.

Lemma exec_ack_wait_inv r k c j first s :
  inv s -> is_pe r -> is_pe k -> pc s r = At c j first (AckWaiting k) ->
  (k =? r) || (pSync s r (pe_size + k) =? first + j) = true ->
  inv (goto r (At c j first (AckWaiting (k + 1))) s).
Proof.
  intros Hi Hr Hk Hpc Hf. unfold is_pe in Hk. eapply inv_stay; try done; [lia|].
  intros i' Hi' Hne' [Hac Hq]. split; [done|]. intros Hlt. destruct (decide (i' = k)) as [->|]; [|apply Hq; lia].
  cbn. rewrite (flag_acked s r k c j first _ Hi Hr Hi' Hne' Hpc ltac:(lia)). lia.
Qed.

Lemma rs_exec_inv junk r i s s' : inv s -> is_pe r -> exec junk r i s = Some s' -> inv s'.
Proof.
  intros Hi Hr. unfold exec. pose proof (v_pc s Hi r Hr) as Hok. destruct (pc s r) as [c|c j first ph] eqn:Hpc.
  - destruct (calls !! c) as [a|] eqn:Hc; [|done]. intros [= <-]. rewrite in_range_spec. by apply inv_enter.
  - destruct (calls !! c) as [a|] eqn:Hc; [|done]. destruct Hok as (_ & _ & Hq). destruct ph as [f|seen| |k|k].
    + by apply exec_send_inv.
    + destruct (all_seen r seen) eqn:Eall.
      { intros [= <-]. pose proof (proj1 (peers_all _ r) Eall) as Hall. eapply inv_stay; try done.
        intros i' Hi' Hne Hse. by apply Hse, Hall. }
      case_if; [|done]. apply andb_true_iff in E as [[Ep _]%andb_true_iff Ef%Z.eqb_eq].
      apply is_peer_spec in Ep as [Hii Hne]. intros [= <-]. by apply exec_wait_inv.
    + intros [= <-]. by apply inv_compute.
    + case_if; intros [= <-].
      * destruct (Z.eqb_spec k r) as [->|Hne]; [|apply inv_ack; [done..|unfold is_pe; lia|done|done]].
        eapply inv_stay; try done; [|lia]. intros i' Hi' Hne. unfold acked. cbn [round]. repeat case_if; lia.
      * eapply inv_stay; try done; [|lia|]. { intros i' Hi' Hne. unfold acked, is_pe in *. cbn [round]. case_if; lia. }
        intros i' Hi' Hne [Hac _]. split; [done|]. unfold is_pe in *. intros. lia.
    + case_if.
      * case_if; [|done]. intros [= <-]. apply exec_ack_wait_inv; try done. unfold is_pe; lia.
      * intros [= <-]. rewrite in_range_spec. apply inv_next; try done. rewrite Hpc. f_equal. f_equal. lia.
Qed.

Lemma rs_initial_inv s : initial g0 s -> inv s.
Proof.
  intros H. assert (Hpc : forall p, is_pe p -> pc s p = Out 0) by (intros p Hp; apply (H p Hp)).
  split; intros r; intros.
  - rewrite Hpc by done. cbn. lia.
  - rewrite Hpc by done. destruct (H r ltac:(done)) as (_ & -> & _). cbn [reserved]. change (base 0) with 0. lia.
  - rewrite (Hpc r) by done. destruct (H i ltac:(done)) as (_ & _ & Hle). unfold is_pe in *. apply Hle. lia.
  - rewrite (Hpc r) by done. destruct (H i ltac:(done)) as (_ & _ & Hle). unfold is_pe in *. apply Hle. lia.
  - by rewrite (Hpc r) by done.
  - rewrite (Hpc r), (Hpc i) by done. done.
  - by rewrite (Hpc r) by done.
  - rewrite (Hpc r) in H3 by done. cbn in H3. lia.
Qed.

Lemma rs_reachable_inv s s' : initial g0 s -> rtc step s s' -> inv s'.
Proof.
  intros H0 Hrun. refine (rtc_invariant step inv _ _ _ Hrun (rs_initial_inv s H0)).
  intros x y Hx [junk p i y' Hp He]. by eapply rs_exec_inv.
Qed.

(** ** Progress *)

Definition finished (s : state) : Prop := forall p, is_pe p -> pc s p = Out (length calls).

Lemma round_bound c j first ph : pc_ok (At c j first ph) -> base c + j < base (length calls).
Proof.
  intros ((a & Hc & Hj) & _). apply lookup_lt_Some in Hc as Hl.
  pose proof (base_mono c (length calls) a Hc Hl ltac:(lia)). lia.
Qed.

Lemma peers_some (P : Z -> bool) r :
  forallb (fun i => (i =? r) || P i) peers = false -> exists i, is_peer r i = true /\ P i = false.
Proof.
  intros (i & Hi%elem_of_seqZ & Hp)%forallb_false. exists i.
  apply orb_false_iff in Hp as [Hne Hp]. split; [|done]. unfold is_peer. lia.
Qed.

Lemma send_moves junk a r c j first f s : exists i s', exec_send junk a r i c j first f s = Some s'.
Proof.
  unfold exec_send. destruct (all_sent r f) eqn:Eall; [exists 0; by eexists|].
  destruct (peers_some _ _ Eall) as (i & Hp & Hf). exists i. rewrite Hp. destruct (f i); first [done|by eexists].
Qed.

(** A PE that cannot move has finished or waits for a flag. *)
Lemma move_or_wait s r junk :
  inv s -> is_pe r -> pc s r <> Out (length calls) ->
  (exists i s', exec junk r i s = Some s') \/
  exists c j first i, is_pe i /\ r <> i /\
    ((exists seen, pc s r = At c j first (Waiting seen)) /\ pSync s r i <> first + j \/
     pc s r = At c j first (AckWaiting i) /\ pSync s r (pe_size + i) <> first + j).
Proof.
  intros Hi Hr Hnf. pose proof (v_pc s Hi r Hr) as Hok. unfold exec. destruct (pc s r) as [c|c j first ph] eqn:Hpc.
  - cbn in Hok. destruct (lookup_lt_is_Some_2 calls c) as [a Hc].
    { destruct (decide (c = length calls)) as [->|]; [done|lia]. }
    rewrite Hc. left. exists 0. by eexists.
  - destruct Hok as ((a & Hc & _) & _ & Hq). rewrite Hc. destruct ph as [f|seen| |k|k].
    + left. apply send_moves.
    + destruct (all_seen r seen) eqn:Eall; [left; exists 0; by eexists|].
      destruct (peers_some _ _ Eall) as (i & Hp & Hs). pose proof (proj1 (is_peer_spec r i) Hp) as [Hii Hne].
      destruct (Z.eqb_spec (pSync s r i) (first + j)) as [He|He].
      * left. exists i. rewrite Hp, Hs, He, Z.eqb_refl. by eexists.
      * right. exists c, j, first, i. eauto 10.
    + left. exists 0. by eexists.
    + left. exists 0. case_if; by eexists.
    + case_if; [|left; exists 0; by eexists]. case_if; [left; exists 0; by eexists|].
      right. exists c, j, first, k. apply orb_false_iff in E0 as [Hne%Z.eqb_neq Hf%Z.eqb_neq].
      unfold is_pe. split; [lia|]. split; [lia|]. by right.
Qed.

(** The peer whose flag a PE waits for is behind it. *)
Definition behind (k : counter) : Z := 2 * round k + match k with At _ _ _ (AckWaiting _) => 1 | _ => 0 end.

Lemma wait_behind s r c j first seen i :
  inv s -> is_pe r -> is_pe i -> r <> i -> pc s r = At c j first (Waiting seen) -> pSync s r i <> first + j ->
  pc s i <> Out (length calls) /\
  (round (pc s i) < round (pc s r) \/ forall junk, exists i' s', exec junk i i' s = Some s').
Proof.
  intros Hi Hr Hii Hne Hpc Hf. pose proof (v_pc s Hi r Hr) as Hok. rewrite Hpc in Hok. pose proof (round_bound _ _ _ _ Hok) as Hb.
  destruct Hok as (_ & Hfirst & _). destruct (v_acks s Hi i r Hii Hr ltac:(done)) as [Hac _].
  rewrite Hpc in Hac. unfold acked in Hac. cbn in Hac. pose proof (base_nonneg c).
  pose proof (v_flag s Hi i r Hii Hr ltac:(done)) as Hfl. pose proof (v_pc s Hi i Hii) as Hoki.
  assert (Hnf : pc s i <> Out (length calls)) by (intros E; rewrite E in Hac; cbn in Hac; lia).
  split; [done|]. rewrite Hpc. cbn. destruct (decide (round (pc s i) = base c + j)) as [He|]; [|left; lia]. right.
  intros junk. destruct (move_or_wait s i junk Hi Hii Hnf) as [?|(c' & j' & f' & i' & _ & _ & Hw)]; [done|exfalso].
  assert (Hs : sent (pc s i) r = base c + j + 1).
  { destruct Hw as [[[g E] _]|[E _]]; rewrite E in He |- *; unfold sent; cbn in *; lia. }
  rewrite Hs in Hfl. unfold flag_is in Hfl. pose proof (v_pc s Hi r Hr) as Hok'. rewrite Hpc in Hok'.
  destruct Hok' as ((a & _ & Hj) & _). case_if_in Hfl; lia.
Qed.

Lemma ack_behind s r c j first k :
  inv s -> is_pe r -> is_pe k -> r <> k -> pc s r = At c j first (AckWaiting k) -> pSync s r (pe_size + k) <> first + j ->
  pc s k <> Out (length calls) /\ behind (pc s k) < behind (pc s r).
Proof.
  intros Hi Hr Hk Hne Hpc Hf. pose proof (v_pc s Hi r Hr) as Hok. rewrite Hpc in Hok. pose proof (round_bound _ _ _ _ Hok) as Hb.
  destruct Hok as ((a & _ & Hj) & Hfirst & _). destruct (v_acks s Hi r k Hr Hk ltac:(done)) as [Hac _].
  rewrite Hpc in Hac. cbn in Hac. pose proof (base_nonneg c).
  pose proof (v_ack s Hi k r Hk Hr ltac:(done)) as Hfl.
  pose proof (v_seen s Hi k r Hk Hr ltac:(done)) as Hse. pose proof (sent_bound (pc s r) k) as Hsb.
  destruct (v_acks s Hi k r Hk Hr ltac:(done)) as [Hac2 _]. rewrite Hpc in Hac2 at 1. unfold acked in Hac2. cbn in Hac2.
  assert (Ha : acked (pc s k) r = base c + j).
  { rewrite Hpc in Hsb. cbn in Hsb. assert (acked (pc s k) r <= base c + j + 1).
    { unfold acked. destruct (pc s k) as [|c' j' f' []]; cbn in *; rewrite ?Hpc in Hse; try lia; case_if; lia. }
    unfold flag_is in Hfl. case_if_in Hfl; lia. }
  split.
  - intros E. rewrite E in Ha. unfold acked in Ha. cbn in Ha. lia.
  - rewrite Hpc. unfold behind. cbn. unfold acked in Ha. destruct (pc s k) as [|c' j' f' []]; cbn in *; try lia.
    case_if_in Ha; lia.
Qed.

Lemma some_moves s junk : inv s -> forall r, is_pe r -> pc s r <> Out (length calls) ->
  exists p i s', is_pe p /\ exec junk p i s = Some s'.
Proof.
  intros Hi r. remember (Z.to_nat (behind (pc s r))) as n eqn:En. revert r En.
  induction (lt_wf n) as [n _ IH]. intros r -> Hr Hnf.
  assert (Hb : forall p, is_pe p -> 0 <= behind (pc s p)).
  { intros p Hp. pose proof (v_pc s Hi p Hp) as Hok. unfold behind. destruct (pc s p) as [c|c j f ph]; cbn in *.
    - pose proof (base_nonneg c). lia.
    - destruct Hok as ((a & _ & Hj) & _). pose proof (base_nonneg c). destruct ph; lia. }
  destruct (move_or_wait s r junk Hi Hr Hnf) as [(i & s' & He)|(c & j & f & i & Hii & Hne & Hw)]; [by exists r, i, s'|].
  destruct Hw as [[[seen Hpc] Hf]|[Hpc Hf]].
  - destruct (wait_behind s r c j f seen i Hi Hr Hii Hne Hpc Hf) as [Hnfi [Hlt|Hm]].
    + apply (IH (Z.to_nat (behind (pc s i)))) with (r := i); try done.
      pose proof (Hb i Hii). rewrite Hpc in *. unfold behind in *. cbn in *. destruct (pc s i) as [|? ? ? []]; cbn in *; lia.
    + destruct (Hm junk) as (i' & s' & He). by exists i, i', s'.
  - destruct (ack_behind s r c j f i Hi Hr Hii Hne Hpc Hf) as [Hnfi Hlt].
    apply (IH (Z.to_nat (behind (pc s i)))) with (r := i); try done. pose proof (Hb i Hii). lia.
Qed.

(** ** Length of a run *)

Definition send_left (q : send_phase) : Z := match q with ToPut => 3 | Putting => 2 | ToFlag => 1 | Sent => 0 end.

(** Steps left in a chunk. *)
Definition phase_left (ph : phase) : Z :=
  match ph with
  | Sending f => zsum (fun i => send_left (f i)) peers + 3 * pe_size + 5
  | Waiting seen => zsum (fun i => if seen i then 0 else 1) peers + 2 * pe_size + 4
  | Computing => 2 * pe_size + 3
  | Acking q => pe_size - q + pe_size + 2
  | AckWaiting q => pe_size - q + 1
  end.

(** Steps of one chunk. *)
Definition chunk_steps : Z := 6 * pe_size + 5.

Definition call_steps (l : list args) : Z := foldr (fun a n => 1 + num_chunks a * chunk_steps + n) 0 l.

Definition steps_left (k : counter) : Z :=
  match k with
  | Out c => call_steps (drop c calls)
  | At c j _ ph =>
      match calls !! c with Some a => (num_chunks a - j - 1) * chunk_steps | None => 0 end +
      phase_left ph + call_steps (drop (S c) calls)
  end.

Lemma peers_count (v : Z) : zsum (fun _ => v) peers = v * pe_size.
Proof.
  rewrite zsum_const. unfold peers. rewrite length_seqZ. lia.
Qed.

Lemma peers_upd {A} (w : A -> Z) f i q : is_pe i ->
  zsum (fun i' => w (upd f i q i')) peers = zsum (fun i' => w (f i')) peers + (w q - w (f i)).
Proof.
  intros Hi. rewrite (zsum_change _ (fun i' => w (f i')) _ i).
  - by rewrite upd_eq.
  - apply NoDup_seqZ.
  - apply elem_of_seqZ. unfold is_pe in Hi. lia.
  - intros x _ Hne. by rewrite upd_ne.
Qed.

Lemma drop_call c a : calls !! c = Some a ->
  call_steps (drop c calls) = 1 + num_chunks a * chunk_steps + call_steps (drop (S c) calls).
Proof. intros Hc. by rewrite (drop_S _ _ _ Hc). Qed.

Lemma send_left_pos junk a r i c j first f s s' :
  pc s r = At c j first (Sending f) -> calls !! c = Some a -> exec_send junk a r i c j first f s = Some s' ->
  exists k', pc s' = upd (pc s) r k' /\ steps_left k' < steps_left (pc s r).
Proof.
  intros Hpc Hc. unfold exec_send. case_if.
  - intros [= <-]. eexists. split; [done|]. rewrite Hpc. cbn. rewrite Hc, peers_count.
    assert (0 <= zsum (fun i => send_left (f i)) peers); [|lia]. apply zsum_nonneg. intros x _. by destruct (f x).
  - destruct (is_peer r i) eqn:Ep; [|done]. apply is_peer_spec in Ep as [Hii _].
    destruct (f i) eqn:Ef; intros [= <-]; (eexists; split; [done|]; rewrite Hpc; cbn; rewrite Hc, (peers_upd send_left), Ef by done; cbn; lia).
Qed.

Lemma exec_left junk r i s s' : inv s -> is_pe r -> exec junk r i s = Some s' ->
  exists k', pc s' = upd (pc s) r k' /\ steps_left k' < steps_left (pc s r).
Proof.
  intros Hi Hr. unfold exec. pose proof (v_pc s Hi r Hr) as Hok. destruct (pc s r) as [c|c j first ph] eqn:Hpc.
  - destruct (calls !! c) as [a|] eqn:Hc; [|done]. intros [= <-]. eexists. split; [done|]. rewrite in_range_spec.
    cbn [steps_left]. rewrite (drop_call c a Hc). pose proof (num_chunks_nonneg c a Hc). case_if; cbn [steps_left phase_left].
    + rewrite Hc. cbn [send_left]. rewrite peers_count. unfold chunk_steps. lia.
    + unfold chunk_steps. nia.
  - destruct (calls !! c) as [a|] eqn:Hc; [|done]. destruct Hok as ((a0 & Hc0 & Hj) & _ & Hq).
    rewrite Hc in Hc0. injection Hc0 as <-. destruct ph as [f|seen| |k|k].
    + intros He. destruct (send_left_pos _ _ _ _ _ _ _ _ _ _ Hpc Hc He) as (k' & Hk & Hl). exists k'. by rewrite Hpc in Hl.
    + case_if.
      { intros [= <-]. eexists. split; [done|]. cbn. rewrite Hc.
        assert (0 <= zsum (fun i => if seen i then 0 else 1) peers); [|lia]. apply zsum_nonneg. intros x _. by destruct (seen x). }
      case_if; [|done]. apply andb_true_iff in E0 as [[[Hii _]%is_peer_spec Hs%negb_true_iff]%andb_true_iff _].
      intros [= <-]. eexists. split; [done|]. cbn. rewrite Hc, (peers_upd (fun b : bool => if b then 0 else 1)), Hs by done. lia.
    + intros [= <-]. eexists. split; [done|]. cbn. rewrite Hc. lia.
    + case_if; intros [= <-]; eexists; (split; [by case_if || done|]); cbn; rewrite Hc; lia.
    + case_if; [case_if; [|done]|]; intros [= <-]; eexists; (split; [done|]); [cbn; rewrite Hc; lia|].
      rewrite in_range_spec. case_if; cbn [steps_left phase_left]; rewrite Hc.
      * cbn [send_left]. rewrite peers_count. unfold chunk_steps. lia.
      * assert (num_chunks a - j - 1 = 0) as -> by lia. lia.
Qed.

Definition run_left (s : state) : Z := zsum (fun p => steps_left (pc s p)) peers.

Lemma call_steps_nonneg c : 0 <= call_steps (drop c calls).
Proof.
  unfold call_steps, chunk_steps. assert (Hl : Forall (fun a => 0 <= num_chunks a) (drop c calls)).
  { apply Forall_drop, Forall_lookup. intros i a Hi. by eapply num_chunks_nonneg. }
  induction Hl; cbn; nia.
Qed.

Lemma run_left_nonneg s : inv s -> 0 <= run_left s.
Proof.
  intros Hi. apply zsum_nonneg. intros p Hp%elem_of_seqZ. pose proof (v_pc s Hi p ltac:(unfold is_pe; lia)) as Hok.
  unfold steps_left. destruct (pc s p) as [c|c j f ph]; [apply call_steps_nonneg|].
  destruct Hok as ((a & Hc & Hj) & _ & Hq). rewrite Hc. pose proof (call_steps_nonneg (S c)).
  assert (0 <= phase_left ph); [|unfold chunk_steps; nia]. destruct ph as [g|g| |q|q]; cbn; try lia.
  - assert (0 <= zsum (fun i => send_left (g i)) peers); [|lia]. apply zsum_nonneg. intros x _. by destruct (g x).
  - assert (0 <= zsum (fun i => if g i then 0 else 1) peers); [|lia]. apply zsum_nonneg. intros x _. by destruct (g x).
Qed.

Lemma run_left_step s s' : inv s -> step s s' -> run_left s' < run_left s.
Proof.
  intros Hi [junk p i s1 Hp He]. destruct (exec_left junk p i s s1 Hi Hp He) as (k' & Hk & Hlt).
  unfold run_left. rewrite Hk. rewrite (zsum_change _ (fun p => steps_left (pc s p)) _ p).
  - rewrite upd_eq. lia.
  - apply NoDup_seqZ.
  - apply elem_of_seqZ. unfold is_pe in Hp. lia.
  - intros x _ Hne. by rewrite upd_ne.
Qed.

Lemma run_length n s s' : inv s -> nsteps step n s s' -> Z.of_nat n + run_left s' <= run_left s.
Proof.
  intros Hi Hn. induction Hn as [s|n s s1 s' Hs Hn IH]; [lia|].
  pose proof (run_left_step _ _ Hi Hs). destruct Hs as [junk p i s1 Hp He].
  specialize (IH ltac:(by eapply rs_exec_inv)). lia.
Qed.

(** C6: whatever the order in which the PEs of a team and their waves run, once a
    PE has returned from a call of [reduce_scatter_wg_das] its destination holds
    the reduction of its block over all PEs, combined in the order of the ranks,
    for every call of any sequence of calls, with any numbers of chunks. *)
Theorem rs_correct s s' r c c' a idx :
  initial g0 s -> rtc step s s' -> is_pe r -> pc s' r = Out c -> (c' < c)%nat -> calls !! c' = Some a ->
  elem_offset a <= idx < elem_offset a + range_count a -> dest s' c' r idx = result a r idx.
Proof using pe_size_pos chunk_pos calls_ok.
  intros H0 Hrun Hr Hpc Hlt Hc Hx. pose proof (rs_reachable_inv s s' H0 Hrun) as Hi.
  apply (v_dest s' Hi r c' a idx Hr Hc Hx). by rewrite Hpc.
Qed.

Lemma finished_or s : finished s \/ exists p, is_pe p /\ pc s p <> Out (length calls).
Proof.
  set (fin := fun p => match pc s p with Out c => (c =? length calls)%nat | _ => false end).
  destruct (forallb fin peers) eqn:E.
  - left. intros p Hp. rewrite forallb_forall in E. specialize (E p). unfold fin, peers in E.
    rewrite <- list_elem_of_In, elem_of_seqZ in E. unfold is_pe in Hp. specialize (E ltac:(lia)).
    destruct (pc s p); [|done]. f_equal. by apply Nat.eqb_eq.
  - right. apply forallb_false in E as (p & Hp%elem_of_seqZ & Hf). exists p. split; [unfold is_pe; lia|].
    unfold fin in Hf. intros Heq. rewrite Heq, Nat.eqb_refl in Hf. done.
Qed.

(** The PEs cannot deadlock in [reduce_scatter_wg_das]: at every point of
    every run some PE can move unless all have returned from all calls, and no run
    is longer than [pe_size * call_steps calls] steps. *)
Theorem rs_finishes s n s' (junk : Z -> T) :
  initial g0 s -> nsteps step n s s' ->
  Z.of_nat n <= pe_size * call_steps calls /\
  (finished s' \/ exists p i s'', is_pe p /\ exec junk p i s' = Some s'').
Proof using pe_size_pos chunk_pos calls_ok.
  intros H0 Hn. pose proof (rs_initial_inv s H0) as Hi0.
  assert (Hi : inv s') by (by eapply rs_reachable_inv, rtc_nsteps_2). split.
  - pose proof (run_length n s s' Hi0 Hn). pose proof (run_left_nonneg s' Hi).
    enough (run_left s = pe_size * call_steps calls) by lia. unfold run_left.
    rewrite (zsum_ext _ (fun _ => call_steps calls)), peers_count; [lia|].
    intros p Hp%elem_of_seqZ. destruct (H0 p ltac:(unfold is_pe; lia)) as [-> _]. done.
  - destruct (finished_or s') as [?|(p & Hp & Hnf)]; [by left|right]. by apply (some_moves s' junk Hi p).
Qed.

End reduce_scatter.

(** ** A concrete run *)

Section example.
Context (pe_size chunk_size : Z) (calls : list (args (T := Z))).

(** The first step some PE can make. *)
Definition first_move (s : state (T := Z)) : option state :=
  foldr (fun pi acc => match exec Z.add pe_size chunk_size calls (fun _ => -1) (fst pi) (snd pi) s with
                       | Some s' => Some s' | None => acc end)
    None (p ← seqZ 0 pe_size; i ← seqZ 0 pe_size; [(p, i)]).

Fixpoint drive (n : nat) (s : state) : state :=
  match n with
  | O => s
  | S n => match first_move s with Some s' => drive n s' | None => s end
  end.

Lemma first_move_step s s' : first_move s = Some s' -> step Z.add pe_size chunk_size calls s s'.
Proof.
  unfold first_move. set (l := p ← seqZ 0 pe_size; _).
  assert (Hl : Forall (fun pi => 0 <= fst pi < pe_size) l).
  { apply Forall_forall. intros [p i] Hin. unfold l in Hin. apply list_elem_of_bind in Hin as (p' & Hin & Hp).
    apply list_elem_of_bind in Hin as (i' & Hin & _). apply list_elem_of_singleton in Hin as [= -> ->].
    apply elem_of_seqZ in Hp. cbn. lia. }
  induction Hl as [|[p i] l Hp Hl IH]; [done|]. cbn. destruct (exec _ _ _ _ _ _ _ _) eqn:E; [|done].
  intros [= <-]. by econstructor.
Qed.

Lemma drive_rtc n s : rtc (step Z.add pe_size chunk_size calls) s (drive n s).
Proof.
  revert s. induction n as [|n IH]; intros s; [done|]. cbn. destruct (first_move s) eqn:E; [|done].
  eapply rtc_l; [by apply first_move_step|]. apply IH.
Qed.

End example.

(** Three PEs, scratch slots of two elements, a call of three elements per PE and a
    call on the elements from 1 of it. *)
Definition example_source (p i : Z) : Z := 100 * p + i.

Definition example_calls : list args :=
  [mkArgs 3 0 (-1) example_source; mkArgs 3 1 2 (fun p i => 7 * example_source p i)].

Definition example_start : state := mkState (fun _ _ _ => 0) (fun _ _ => 0) (fun _ _ => 0) (fun _ => Out 0).

Lemma example_initial : initial 3 0 example_start.
Proof. intros p _. split; [done|]. split; [done|]. intros. cbn. lia. Qed.

Lemma example_calls_ok : Forall (fun a => 0 <= range_count a) example_calls.
Proof. repeat constructor; cbn; lia. Qed.

Lemma rs_correct_witness :
  dest (drive 3 2 example_calls 400 example_start) 0 2 1 = example_source 0 7 + example_source 1 7 + example_source 2 7.
Proof.
  rewrite (rs_correct Z.add 3 2 example_calls ltac:(lia) ltac:(lia) example_calls_ok 0 example_start _ 2 2 0
    (mkArgs 3 0 (-1) example_source) 1 example_initial (drive_rtc 3 2 example_calls 400 example_start));
    [reflexivity|unfold is_pe; lia|vm_compute; reflexivity|lia|reflexivity|cbn; lia].
Defined.

Lemma rs_finishes_witness :
  exists n, Z.of_nat n <= 3 * call_steps 3 2 example_calls /\
    finished 3 example_calls (drive 3 2 example_calls 400 example_start).
Proof.
  destruct (proj1 (rtc_nsteps _ _) (drive_rtc 3 2 example_calls 400 example_start)) as [n Hn]. exists n.
  destruct (rs_finishes Z.add 3 2 example_calls ltac:(lia) ltac:(lia) example_calls_ok 0 example_start n _ (fun _ => -1)
    example_initial Hn) as [Hle _]. split; [exact Hle|].
  intros p Hp. assert (p = 0 \/ p = 1 \/ p = 2) as [->|[->| ->]] by (unfold is_pe in Hp; lia); vm_compute; reflexivity.
Defined.
