(* ===== verification/Direct.v ===== *)
(** * Direct all-reduce and reduce-scatter with barriers

    [internal_direct_allreduce_wg] and [internal_direct_allreduce_wave] of the two
    contexts (src/ipc/context_ipc_tmpl_device.hpp,
    src/gda/context_gda_tmpl_device.hpp), each call followed by the barrier of
    [reduce_wg], and [IPCContext::reduce_scatter_wg], whose chunks follow the same
    protocol, as run by the PEs of a team for any sequence of calls, interleaved in
    any order.  A PE copies its own elements, puts those of each peer into its slot
    there and raises a flag, waits for the flag of each peer in turn and combines
    its slot, clears the flags and enters the barrier.

    In the all-reduce, slots and flags are indexed by the number of a PE in the
    world, whereas the loop that clears the flags ends at a bound that differs
    between the variants: the size of the team in the work-group variant of the IPC
    context, the number of all PEs in the others.  The protocol is correct when the
    bound is above the index of every PE of the team, and not otherwise.  In the
    reduce-scatter the index is the rank in the team.

    PEs are named by their rank in the team.  A put takes two steps, between which
    the slot has arbitrary contents.  The barrier is the one that
    [Barrier.sync_is_a_barrier] shows to be implemented: no PE leaves it before all
    have entered.

    The lanes of a wavefront run in lockstep; several wavefronts are ordered only
    by the barriers of their work-group.  The put of the IPC context ends with one.
    That of the GDA context has none after the copy to a PE that is mapped over
    IPC, so that in a work-group of several wavefronts thread zero may raise the
    flag while the others still copy ([exec_early]); they end their copies
    ([exec_land]) before the barrier of the work-group after the loop of puts. *)

From Stdlib Require Import ZArith Lia.
From stdpp Require Import base option numbers list relations.
From S2P Require Import Prelude Loops.

Section direct.
Context {T : Type}.
(** [OpWrap<Op>::Calc] on one element: the new value of the accumulator. *)
Context (Calc : T -> T -> T).
Context (PE_start stride PE_size : Z).
(** The bound of the loop that clears the flags. *)
Context (reset_bound : Z).

(** One call: the elements each PE sends to each peer (sender, receiver, index),
    and the distance of two slots of the scratch array. *)
Record args := mkArgs { nelems : Z; slot : Z; src : Z -> Z -> Z -> T }.

Context (calls : list args).

(** The context, the threads of the work-group, and the pairs of PEs (by rank)
    between which a put of the GDA context is a copy over IPC. *)
Context (gda : bool) (wg_size : Z) (ipc : Z -> Z -> bool).

(** ** State *)

Inductive phase :=
  | Copy
  | Put (i : Z)
  | PutEnd (i : Z)
  | Flag (i : Z)
  | Wait (i : Z)
  | Reduce (i : Z)
  | Reset (i : Z)
  | InBarrier.

Inductive counter :=
  | Out (c : nat)
  | At (c : nat) (ph : phase).

(** [flight]: the peers whose flag is raised and whose put is not complete. *)
Record state := mkState {
  dst : nat -> Z -> Z -> T;
  pWrk : Z -> Z -> T;
  pSync : Z -> Z -> Z;
  pc : Z -> counter;
  flight : Z -> Z -> bool
}.

(** ** One step *)

Definition pe_of (r : Z) : Z := PE_start + r * stride.

Definition ranks : list Z := seqZ 0 PE_size.

Definition goto (me : Z) (k : counter) (s : state) : state :=
  mkState (dst s) (pWrk s) (pSync s) (upd (pc s) me k) (flight s).

Definition put_src (a : args) (me i : Z) (f : Z -> T) (s : state) : state :=
  mkState (dst s) (write (pWrk s) i (pe_of me * slot a) (nelems a) f) (pSync s) (pc s) (flight s).

Definition put_flag (i k v : Z) (s : state) : state :=
  mkState (dst s) (pWrk s) (write (pSync s) i k 1 (fun _ => v)) (pc s) (flight s).

Definition set_dst (c : nat) (a : args) (me : Z) (f : Z -> T) (s : state) : state :=
  mkState (fun c' => if decide (c' = c) then write (dst s c) me 0 (nelems a) f else dst s c')
    (pWrk s) (pSync s) (pc s) (flight s).

Definition set_flight (me i : Z) (b : bool) (s : state) : state :=
  mkState (dst s) (pWrk s) (pSync s) (pc s) (upd (flight s) me (upd (flight s me) i b)).

(** The PE has entered the barrier of call [c]. *)
Definition arrived (c : nat) (k : counter) : bool :=
  match k with
  | Out c' => (c <? c')%nat
  | At c' ph => (c <? c')%nat || (c =? c')%nat && match ph with InBarrier => true | _ => false end
  end.

(** One step of PE [me]; [None] while it is blocked or has made all its calls. *)
Definition exec (junk : Z -> T) (me : Z) (s : state) : option state :=
  match pc s me with
  | Out c => match calls !! c with None => None | Some _ => Some (goto me (At c Copy) s) end
  | At c ph =>
      match calls !! c with
      | None => None
      | Some a =>
          match ph with
          | Copy => Some (goto me (At c (Put 0)) (set_dst c a me (src a me me) s))
          | Put i =>
              if i <? PE_size then
                if i =? me then Some (goto me (At c (Put (i + 1))) s)
                else Some (goto me (At c (PutEnd i)) (put_src a me i junk s))
              else if existsb (flight s me) ranks then None
              else Some (goto me (At c (Wait 0)) s)
          | PutEnd i => Some (goto me (At c (Flag i)) (put_src a me i (src a me i) s))
          | Flag i => Some (goto me (At c (Put (i + 1))) (put_flag i (pe_of me) 1 s))
          | Wait i =>
              if i <? PE_size then
                if i =? me then Some (goto me (At c (Wait (i + 1))) s)
                else if pSync s me (pe_of i) =? 1 then Some (goto me (At c (Reduce i)) s) else None
              else Some (goto me (At c (Reset 0)) s)
          | Reduce i =>
              Some (goto me (At c (Wait (i + 1)))
                (set_dst c a me (fun x => Calc (pWrk s me (pe_of i * slot a + x)) (dst s c me x)) s))
          | Reset i =>
              if i <? reset_bound then Some (goto me (At c (Reset (i + 1))) (put_flag me i 0 s))
              else Some (goto me (At c InBarrier) s)
          | InBarrier =>
              if forallb (fun p => arrived c (pc s p)) ranks then Some (goto me (Out (S c)) s) else None
          end
      end
  end.

(** No barrier of the work-group orders the put to [i] and its flag. *)
Definition unjoined (me i : Z) : bool := gda && (64 <? wg_size) && ipc me i.

(** Thread zero raises the flag of [i] while other wavefronts are in the put. *)
Definition exec_early (me : Z) (s : state) : option state :=
  match pc s me with
  | At c (PutEnd i) =>
      if unjoined me i
      then Some (goto me (At c (Put (i + 1))) (put_flag i (pe_of me) 1 (set_flight me i true s)))
      else None
  | _ => None
  end.

(** The other wavefronts end the put to [i]. *)
Definition exec_land (me i : Z) (s : state) : option state :=
  match pc s me with
  | At c _ =>
      a ← calls !! c;
      if flight s me i then Some (set_flight me i false (put_src a me i (src a me i) s)) else None
  | _ => None
  end.

Definition is_pe (p : Z) : Prop := 0 <= p < PE_size.

Inductive step (s : state) : state -> Prop :=
  | step_pe junk p s' : is_pe p -> exec junk p s = Some s' -> step s s'
  | step_early p s' : is_pe p -> exec_early p s = Some s' -> step s s'
  | step_land p i s' : is_pe p -> is_pe i -> exec_land p i s = Some s' -> step s s'.

(** Before the first call: all flags are clear and no put is in flight. *)
Definition initial (s : state) : Prop :=
  forall p, is_pe p -> pc s p = Out 0 /\ (forall i, pSync s p i = 0) /\ forall i, flight s p i = false.

(** Element [x] of the result at PE [me], combined in the order of the ranks. *)
Definition partial (a : args) (me n x : Z) : T :=
  foldl (fun acc i => if i =? me then acc else Calc (src a i me x) acc) (src a me me x) (seqZ 0 n).

Definition result (a : args) (me x : Z) : T := partial a me PE_size x.

(** ** Progress of a PE *)

Definition round (k : counter) : Z := match k with Out c | At c _ => Z.of_nat c end.

(** Flags the PE has raised at peer [i]. *)
Definition sent (k : counter) (i : Z) : Z :=
  round k + match k with
            | Out _ | At _ Copy => 0
            | At _ (Put j) | At _ (PutEnd j) | At _ (Flag j) => if i <? j then 1 else 0
            | At _ _ => 1
            end.

(** Times it has cleared its flag [x]. *)
Definition cleared (k : counter) (x : Z) : Z :=
  round k + match k with At _ (Reset j) => if x <? j then 1 else 0 | At _ InBarrier => 1 | _ => 0 end.

(** Its slot at peer [i] holds the source of the current call. *)
Definition filled (ph : phase) (i : Z) : bool :=
  match ph with
  | Copy => false
  | Put j | PutEnd j => i <? j
  | Flag j => i <=? j
  | _ => true
  end.

(** ** Invariant *)

Hypothesis PE_size_pos : 0 < PE_size.
Hypothesis stride_pos : 0 < stride.
Hypothesis team_cleared : forall r, is_pe r -> 0 <= pe_of r < reset_bound.

(** A barrier of the work-group, or one wavefront, orders each put and its flag. *)
Hypothesis joined : gda = false \/ wg_size <= 64 \/ (forall p i, ipc p i = false).

Hypothesis calls_fit : Forall (fun a => nelems a <= slot a) calls.

Lemma call_fits c a : calls !! c = Some a -> nelems a <= slot a.
Proof. exact (proj1 (Forall_lookup _ _) calls_fit c a). Qed.

Definition pc_ok (me : Z) (k : counter) : Prop :=
  match k with
  | Out c => (c <= length calls)%nat
  | At c ph =>
      is_Some (calls !! c) /\
      match ph with
      | Put i | Wait i => 0 <= i <= PE_size
      | PutEnd i | Flag i | Reduce i => is_pe i /\ i <> me
      | Reset i => 0 <= i <= reset_bound
      | _ => True
      end
  end.

(** What a PE with counter [k] knows of the flags that peer [r] has raised at it. *)
Definition seen_ok (k : counter) (r n : Z) : Prop :=
  round k <= n /\
  match k with
  | At _ (Wait j) => r < j -> round k + 1 <= n
  | At _ (Reduce j) => r <= j -> round k + 1 <= n
  | At _ (Reset _) | At _ InBarrier => round k + 1 <= n
  | _ => True
  end.

Definition slot_ok (w : Z -> Z -> T) (k kq : counter) (r q : Z) : Prop :=
  match k with
  | Out _ => True
  | At c ph => filled ph q = true -> arrived c kq = false ->
      forall a x, calls !! c = Some a -> 0 <= x < nelems a -> w q (pe_of r * slot a + x) = src a r q x
  end.

(** What the destination of call [c] holds. *)
Definition dst_ok (d : nat -> Z -> Z -> T) (k : counter) (me : Z) (c : nat) (a : args) (x : Z) : Prop :=
  match k with
  | Out c' => (c < c')%nat -> d c me x = result a me x
  | At c' ph =>
      ((c < c')%nat -> d c me x = result a me x) /\
      (c = c' -> match ph with
                 | Copy => True
                 | Put _ | PutEnd _ | Flag _ => d c me x = src a me me x
                 | Wait i | Reduce i => d c me x = partial a me i x
                 | Reset _ | InBarrier => d c me x = result a me x
                 end)
  end.

Record inv (s : state) : Prop := {
  v_pc : forall r, is_pe r -> pc_ok r (pc s r);
  v_flag : forall r q, is_pe r -> is_pe q -> r <> q ->
    pSync s q (pe_of r) = sent (pc s r) q - cleared (pc s q) (pe_of r);
  v_seen : forall r q, is_pe r -> is_pe q -> r <> q -> seen_ok (pc s q) r (sent (pc s r) q);
  v_barrier : forall r q c, is_pe r -> is_pe q -> (Z.of_nat c < round (pc s r)) -> arrived c (pc s q) = true;
  v_slot : forall r q, is_pe r -> is_pe q -> r <> q -> slot_ok (pWrk s) (pc s r) (pc s q) r q;
  v_dst : forall r c a x, is_pe r -> calls !! c = Some a -> 0 <= x < nelems a -> dst_ok (dst s) (pc s r) r c a x;
  v_flight : forall r i, is_pe r -> flight s r i = false
}.

Lemma direct_move s s' r k' :
  inv s -> is_pe r -> pc s' = upd (pc s) r k' -> pc_ok r k' ->
  (forall i, is_pe i -> i <> r -> sent (pc s r) i <= sent k' i) ->
  (forall c, arrived c (pc s r) = true -> arrived c k' = true) ->
  (forall p q, is_pe p -> is_pe q -> p <> q -> pSync s' q (pe_of p) = sent (pc s' p) q - cleared (pc s' q) (pe_of p)) ->
  (forall p, is_pe p -> p <> r -> seen_ok k' p (sent (pc s p) r)) ->
  (forall q c, is_pe q -> Z.of_nat c < round k' -> arrived c (upd (pc s) r k' q) = true) ->
  (forall p q, is_pe p -> is_pe q -> p <> q -> slot_ok (pWrk s') (pc s' p) (pc s' q) p q) ->
  (forall p c a x, is_pe p -> calls !! c = Some a -> 0 <= x < nelems a -> dst_ok (dst s') (pc s' p) p c a x) ->
  flight s' = flight s ->
  inv s'.
Proof.
  intros Hi Hr Hpc Hok Hsent Harr Hf Hse Hb Hsl Hd Hfl. split; try done; rewrite ?Hpc.
  - intros p Hp. unfold upd. case_if; [|by apply Hi]. by assert (p = r) as -> by lia.
  - intros p q Hp Hq Hne. unfold upd. destruct (Z.eqb_spec q r) as [->|Hqr].
    + rewrite (proj2 (Z.eqb_neq p r)) by done. by apply Hse.
    + pose proof (v_seen s Hi p q Hp Hq Hne) as [H1 H2]. case_if; [|by split].
      assert (p = r) as -> by lia. specialize (Hsent q Hq Hqr). split; [lia|].
      destruct (pc s q) as [|c []]; try done; cbn in *; lia || (intros Hx; specialize (H2 Hx); lia).
  - intros p q c Hp Hq Hlt. unfold upd in Hlt. case_if_in Hlt; [by apply Hb|]. unfold upd.
    pose proof (v_barrier s Hi p q c Hp Hq Hlt). case_if; [|done]. assert (q = r) as -> by lia. by apply Harr.
  - rewrite Hfl. by apply Hi.
Qed.

Lemma direct_unjoined p i : unjoined p i = false.
Proof.
  unfold unjoined. destruct joined as [->|[H|H]]; [done| |by rewrite H, andb_false_r].
  rewrite (proj2 (Z.ltb_ge _ _)) by done. by destruct gda.
Qed.

Lemma flight_none s r : inv s -> is_pe r -> existsb (flight s r) ranks = false.
Proof.
  intros Hi Hr. generalize ranks. intros l. induction l as [|i l IH]; [done|]. cbn [existsb]. by rewrite (v_flight s Hi).
Qed.

(** Every step is one of [exec]. *)
Lemma joined_step s s' : inv s -> step s s' -> exists junk p, is_pe p /\ exec junk p s = Some s'.
Proof.
  intros Hi [junk p x Hp He|p x Hp He|p i x Hp Hii He]; [by exists junk, p|exfalso..].
  - unfold exec_early in He. destruct (pc s p) as [|c []]; try done. by rewrite direct_unjoined in He.
  - unfold exec_land in He. destruct (pc s p) as [|c ph]; [done|].
    apply bind_Some in He as (a & _ & He). by rewrite (v_flight s Hi) in He.
Qed.

(** The slots when the step writes none. *)
Lemma slots_kept s r k' :
  inv s -> is_pe r -> (forall c, arrived c (pc s r) = true -> arrived c k' = true) ->
  (forall q, is_pe q -> q <> r -> slot_ok (pWrk s) k' (pc s q) r q) ->
  forall p q, is_pe p -> is_pe q -> p <> q -> slot_ok (pWrk s) (upd (pc s) r k' p) (upd (pc s) r k' q) p q.
Proof.
  intros Hi Hr Harr Hsl p q Hp Hq Hne. unfold upd. destruct (Z.eqb_spec p r) as [->|Hpr].
  - rewrite (proj2 (Z.eqb_neq q r)) by lia. apply Hsl; [done|lia].
  - pose proof (v_slot s Hi p q Hp Hq Hne) as H. destruct (Z.eqb_spec q r) as [->|]; [|done].
    destruct (pc s p) as [|c ph]; [done|]. intros Hf Ha. apply H; [done|].
    destruct (arrived c (pc s r)) eqn:E; [|done]. by rewrite (Harr c E) in Ha.
Qed.

(** The flags when the step writes none. *)
Lemma flags_kept s r k' :
  inv s -> is_pe r -> (forall i, is_pe i -> i <> r -> sent k' i = sent (pc s r) i) ->
  (forall p, is_pe p -> p <> r -> cleared k' (pe_of p) = cleared (pc s r) (pe_of p)) ->
  forall p q, is_pe p -> is_pe q -> p <> q ->
    pSync s q (pe_of p) = sent (upd (pc s) r k' p) q - cleared (upd (pc s) r k' q) (pe_of p).
Proof.
  intros Hi Hr Hs Hc p q Hp Hq Hne. rewrite (v_flag s Hi p q Hp Hq Hne). unfold upd.
  destruct (Z.eqb_spec p r) as [->|Hpr], (Z.eqb_spec q r) as [->|Hqr]; try done.
  - by rewrite Hs.
  - by rewrite Hc.
Qed.

(** A step that touches no memory. *)
Lemma direct_quiet s r k' :
  inv s -> is_pe r -> pc_ok r k' ->
  (forall i, is_pe i -> i <> r -> sent k' i = sent (pc s r) i) ->
  (forall p, is_pe p -> p <> r -> cleared k' (pe_of p) = cleared (pc s r) (pe_of p)) ->
  (forall c, arrived c (pc s r) = true -> arrived c k' = true) ->
  (forall p, is_pe p -> p <> r -> seen_ok k' p (sent (pc s p) r)) ->
  (forall q c, is_pe q -> Z.of_nat c < round k' -> arrived c (upd (pc s) r k' q) = true) ->
  (forall q, is_pe q -> q <> r -> slot_ok (pWrk s) k' (pc s q) r q) ->
  (forall c a x, calls !! c = Some a -> 0 <= x < nelems a -> dst_ok (dst s) (pc s r) r c a x -> dst_ok (dst s) k' r c a x) ->
  inv (goto r k' s).
Proof.
  intros Hi Hr Hok Hs Hc Harr Hse Hb Hsl Hd.
  eapply (direct_move s _ r k'); try done; cbn [goto pc pSync pWrk dst].
  - intros i Hii Hne. rewrite Hs by done. lia.
  - by apply flags_kept.
  - by apply slots_kept.
  - intros p c a x Hp Hca Hx. pose proof (v_dst s Hi p c a x Hp Hca Hx). unfold upd. case_if; [|done].
    assert (p = r) as -> by lia. by apply Hd.
Qed.

(** The barriers a PE has passed when it stays in its call. *)
Lemma barrier_kept s r k' :
  inv s -> is_pe r -> round k' = round (pc s r) -> (forall c, arrived c (pc s r) = true -> arrived c k' = true) ->
  forall q c, is_pe q -> Z.of_nat c < round k' -> arrived c (upd (pc s) r k' q) = true.
Proof.
  intros Hi Hr Hrd Harr q c Hq Hlt. rewrite Hrd in Hlt. pose proof (v_barrier s Hi r q c Hr Hq Hlt).
  unfold upd. case_if; [|done]. assert (q = r) as -> by lia. by apply Harr.
Qed.

(** A step within a call that touches no memory. *)
Lemma direct_stay s r c ph ph' :
  inv s -> is_pe r -> pc s r = At c ph -> pc_ok r (At c ph') -> ph <> InBarrier ->
  (forall i, is_pe i -> i <> r -> sent (At c ph') i = sent (At c ph) i) ->
  (forall p, is_pe p -> p <> r -> cleared (At c ph') (pe_of p) = cleared (At c ph) (pe_of p)) ->
  (forall q, is_pe q -> q <> r -> filled ph' q = true -> filled ph q = true) ->
  (forall p, is_pe p -> p <> r -> seen_ok (At c ph) p (sent (pc s p) r) -> seen_ok (At c ph') p (sent (pc s p) r)) ->
  (forall a x, calls !! c = Some a -> 0 <= x < nelems a -> dst_ok (dst s) (At c ph) r c a x -> dst_ok (dst s) (At c ph') r c a x) ->
  inv (goto r (At c ph') s).
Proof.
  intros Hi Hr Hpc Hok Hnb Hs Hc Hfl Hse Hd.
  assert (Harr : forall c', arrived c' (pc s r) = true -> arrived c' (At c ph') = true).
  { intros c'. rewrite Hpc. unfold arrived. intros [Hlt|[_ Hb]%andb_true_iff]%orb_true_iff; [by rewrite Hlt|by destruct ph]. }
  apply direct_quiet; try done; rewrite ?Hpc; try done.
  - intros p Hp Hne. apply Hse; [done..|]. rewrite <- Hpc. by apply (v_seen s Hi).
  - apply barrier_kept; [done|done|by rewrite Hpc|done].
  - intros q Hq Hne. pose proof (v_slot s Hi r q Hr Hq ltac:(lia)) as H. rewrite Hpc in H. intros Hf. apply H. by apply Hfl.
  - intros c' a x Hca Hx [H1 H2]. split; [done|]. intros ->. apply (Hd a x); try done.
Qed.

Lemma arrived_false c c' ph : arrived c' (At c ph) = false -> (c <= c')%nat.
Proof. unfold arrived. intros [H _]%orb_false_iff. apply Nat.ltb_ge in H. lia. Qed.

(** No PE is ahead of a PE that has not entered its barrier. *)
Lemma none_ahead s r c q : inv s -> is_pe r -> is_pe q -> arrived c (pc s r) = false -> round (pc s q) <= Z.of_nat c.
Proof.
  intros Hi Hr Hq Ha. destruct (Z.le_gt_cases (round (pc s q)) (Z.of_nat c)) as [|Hgt]; [done|].
  by rewrite (v_barrier s Hi q r c Hq Hr) in Ha by lia.
Qed.

Lemma arrived_cleared k c x : arrived c k = true -> Z.of_nat c + 1 <= cleared k x.
Proof.
  unfold arrived, cleared. destruct k as [c'|c' ph]; cbn.
  - intros H%Nat.ltb_lt. lia.
  - intros [H%Nat.ltb_lt|[->%Nat.eqb_eq Hb]%andb_true_iff]%orb_true_iff; destruct ph; try done; try case_if; lia.
Qed.

(** A PE has cleared its flags in all the calls that another has completed. *)
Lemma cleared_ge s r q x : inv s -> is_pe r -> is_pe q -> round (pc s r) <= cleared (pc s q) x.
Proof.
  intros Hi Hr Hq. assert (Hnat : exists c, round (pc s r) = Z.of_nat c) by (destruct (pc s r); by eexists).
  destruct Hnat as [[|c] Hc]; rewrite Hc.
  - unfold cleared. destruct (pc s q) as [|? []]; cbn; try case_if; lia.
  - pose proof (arrived_cleared (pc s q) c x (v_barrier s Hi r q c Hr Hq ltac:(lia))). lia.
Qed.

Lemma pe_of_inj r q : pe_of r = pe_of q -> r = q.
Proof. unfold pe_of. nia. Qed.

(** A step of call [c] that writes the destination. *)
Lemma direct_local s r c a ph ph' f :
  inv s -> is_pe r -> pc s r = At c ph -> calls !! c = Some a -> pc_ok r (At c ph') -> ph <> InBarrier ->
  (forall i, is_pe i -> i <> r -> sent (At c ph') i = sent (At c ph) i) ->
  (forall p, is_pe p -> p <> r -> cleared (At c ph') (pe_of p) = cleared (At c ph) (pe_of p)) ->
  (forall q, is_pe q -> q <> r -> filled ph' q = true -> filled ph q = true) ->
  (forall p, is_pe p -> p <> r -> seen_ok (At c ph) p (sent (pc s p) r) -> seen_ok (At c ph') p (sent (pc s p) r)) ->
  (forall x, 0 <= x < nelems a -> dst_ok (fun _ _ _ => f x) (At c ph') r c a x) ->
  inv (goto r (At c ph') (set_dst c a r f s)).
Proof.
  intros Hi Hr Hpc Hca Hok Hnb Hs Hc Hfl Hse Hd.
  assert (Harr : forall c', arrived c' (pc s r) = true -> arrived c' (At c ph') = true).
  { intros c'. rewrite Hpc. unfold arrived. intros [Hlt|[_ Hb]%andb_true_iff]%orb_true_iff; [by rewrite Hlt|by destruct ph]. }
  eapply (direct_move s _ r (At c ph')); try done; cbn [goto set_dst pc pSync pWrk dst].
  - intros i Hii Hne. rewrite Hpc, Hs by done. lia.
  - apply flags_kept; try done; by rewrite Hpc.
  - intros p Hp Hne. apply Hse; [done..|]. rewrite <- Hpc. by apply (v_seen s Hi).
  - apply barrier_kept; [done|done|by rewrite Hpc|done].
  - apply slots_kept; try done. intros q Hq Hne. pose proof (v_slot s Hi r q Hr Hq ltac:(lia)) as H. rewrite Hpc in H.
    intros Hf. apply H. by apply Hfl.
  - intros p c' a' x Hp Hca' Hx. pose proof (v_dst s Hi p c' a' x Hp Hca' Hx) as H. unfold upd.
    destruct (Z.eqb_spec p r) as [->|Hne].
    + rewrite Hpc in H. destruct H as [H1 H2]. split; intros Hcc.
      * rewrite decide_False by lia. by apply H1.
      * subst c'. simplify_eq. destruct (Hd x Hx) as [_ Hd2]. rewrite decide_True by done.
        unfold write, overwrite. rewrite Z.eqb_refl. case_if; [|exfalso; lia]. rewrite Z.sub_0_r. by apply Hd2.
    + assert (E : forall d : Z -> Z -> T, write d r 0 (nelems a) f p x = d p x).
      { intros d. unfold write. by rewrite (proj2 (Z.eqb_neq p r) Hne). }
      unfold dst_ok in *. case_decide; [subst c'; rewrite E|]; done.
Qed.

Lemma slot_apart r p m n x : p <> r -> 0 <= x < n -> n <= m ->
  (pe_of r * m <=? pe_of p * m + x) && (pe_of p * m + x <? pe_of r * m + n) = false.
Proof.
  intros Hne Hx Hm. assert (pe_of p <> pe_of r) by (intros E; by apply Hne, pe_of_inj).
  apply andb_false_iff. assert (pe_of p < pe_of r \/ pe_of r < pe_of p) as [|] by lia; [left|right]; nia.
Qed.

Lemma put_slots s r c a i ph ph' f :
  inv s -> is_pe r -> is_pe i -> i <> r -> pc s r = At c ph -> calls !! c = Some a -> arrived c (pc s r) = false ->
  (forall c', arrived c' (pc s r) = arrived c' (At c ph')) ->
  (ph = Put i /\ ph' = PutEnd i \/ ph = PutEnd i /\ ph' = Flag i /\ f = src a r i) ->
  forall p q, is_pe p -> is_pe q -> p <> q ->
    slot_ok (write (pWrk s) i (pe_of r * slot a) (nelems a) f)
      (upd (pc s) r (At c ph') p) (upd (pc s) r (At c ph') q) p q.
Proof.
  intros Hi Hr Hii Hne Hpc Hca Hnarr Harr Hph p q Hp Hq Hpq.
  pose proof (v_slot s Hi p q Hp Hq Hpq) as H. unfold write. unfold upd. destruct (Z.eqb_spec p r) as [->|Hpr].
  - rewrite (proj2 (Z.eqb_neq q r)) by lia. rewrite Hpc in H. intros Hfl Ha a' x Hca' Hx. simplify_eq.
    destruct (Z.eqb_spec q i) as [->|Hqi].
    + destruct Hph as [[_ ->]|(_ & -> & ->)]; [cbn in Hfl; lia|].
      unfold overwrite. case_if; [f_equal; lia|exfalso; lia].
    + apply H; try done. destruct Hph as [[-> ->]|(-> & -> & _)]; cbn in *; lia.
  - destruct (pc s p) as [|c' php] eqn:Hpp; [done|]. intros Hfl Ha a' x Hca' Hx.
    assert (Ha0 : arrived c' (pc s q) = false).
    { destruct (Z.eqb_spec q r) as [->|]; [by rewrite Harr|done]. }
    destruct (Z.eqb_spec q i) as [->|Hqi]; [|by apply H].
    pose proof (none_ahead s i c' r Hi Hii Hr Ha0) as Hle. pose proof (none_ahead s r c p Hi Hr Hp Hnarr) as Hle'.
    rewrite Hpc in Hle. rewrite Hpp in Hle'. cbn in Hle, Hle'. assert (c' = c) as -> by lia. simplify_eq.
    unfold overwrite. rewrite slot_apart by (done || by apply (call_fits c)). by apply H.
Qed.

(** A put into the slot of PE [r] at peer [i]. *)
Lemma direct_put s r c a i ph ph' f :
  inv s -> is_pe r -> is_pe i -> i <> r -> pc s r = At c ph -> calls !! c = Some a ->
  (ph = Put i /\ ph' = PutEnd i \/ ph = PutEnd i /\ ph' = Flag i /\ f = src a r i) ->
  inv (goto r (At c ph') (put_src a r i f s)).
Proof.
  intros Hi Hr Hii Hne Hpc Hca Hph.
  assert (Hnarr : arrived c (pc s r) = false).
  { rewrite Hpc. unfold arrived. rewrite Nat.ltb_irrefl. destruct Hph as [[-> _]|[-> _]]; by rewrite andb_false_r. }
  assert (Harr : forall c', arrived c' (pc s r) = arrived c' (At c ph')).
  { intros c'. rewrite Hpc. destruct Hph as [[-> ->]|(-> & -> & _)]; done. }
  assert (Hs : forall i', sent (At c ph') i' = sent (pc s r) i').
  { intros i'. rewrite Hpc. by destruct Hph as [[-> ->]|(-> & -> & _)]. }
  assert (Hc : forall x, cleared (At c ph') x = cleared (pc s r) x).
  { intros x. rewrite Hpc. by destruct Hph as [[-> ->]|(-> & -> & _)]. }
  eapply (direct_move s _ r (At c ph')); try done; cbn [goto put_src pc pSync pWrk dst].
  - split; [by eexists|]. by destruct Hph as [[-> ->]|(-> & -> & _)].
  - intros i' _ _. rewrite Hs. lia.
  - intros c'. by rewrite Harr.
  - apply flags_kept; done.
  - intros p Hp Hpr. pose proof (v_seen s Hi p r Hp Hr Hpr) as H. rewrite Hpc in H.
    by destruct Hph as [[-> ->]|(-> & -> & _)].
  - apply barrier_kept; [done|done|by rewrite Hpc|by intros c'; rewrite Harr].
  - apply (put_slots s r c a i ph ph' f); try done.
  - intros p c' a' x Hp Hca' Hx. pose proof (v_dst s Hi p c' a' x Hp Hca' Hx) as H. unfold upd.
    destruct (Z.eqb_spec p r) as [->|]; [|done]. rewrite Hpc in H. by destruct Hph as [[-> ->]|(-> & -> & _)].
Qed.

Lemma direct_sent_bound k i : sent k i <= round k + 1.
Proof. unfold sent. destruct k as [|c []]; try case_if; lia. Qed.

Lemma cleared_le k r n x : seen_ok k r n -> cleared k x <= n.
Proof. unfold seen_ok, cleared. destruct k as [|c []]; cbn; try case_if; lia. Qed.

Lemma direct_flag s r c i :
  inv s -> is_pe r -> pc s r = At c (Flag i) -> inv (goto r (At c (Put (i + 1))) (put_flag i (pe_of r) 1 s)).
Proof.
  intros Hi Hr Hpc. pose proof (v_pc s Hi r Hr) as Hok. rewrite Hpc in Hok. destruct Hok as (Hca & Hii & Hne).
  set (k' := At c (Put (i + 1))).
  assert (Hs : forall q, q <> i -> sent k' q = sent (pc s r) q).
  { intros q Hq. rewrite Hpc. unfold k', sent. cbn. repeat case_if; lia. }
  assert (Harr : forall c', arrived c' (pc s r) = true -> arrived c' k' = true) by (intros c'; by rewrite Hpc).
  eapply (direct_move s _ r k'); try done; cbn [goto put_flag pc pSync pWrk dst].
  - split; [done|]. unfold is_pe in *. lia.
  - intros q _ _. rewrite Hpc. unfold k', sent. cbn. repeat case_if; lia.
  - intros p q Hp Hq Hpq. rewrite write_flag. case_if.
    + apply andb_true_iff in E as [->%Z.eqb_eq ->%Z.eqb_eq%pe_of_inj]. unfold upd.
      rewrite Z.eqb_refl, (proj2 (Z.eqb_neq i r)) by done.
      pose proof (cleared_ge s r i (pe_of r) Hi Hr Hii) as H1. pose proof (v_seen s Hi r i Hr Hii ltac:(done)) as H2.
      apply (cleared_le _ _ _ (pe_of r)) in H2. rewrite Hpc in H1, H2. unfold k', sent in *. cbn in *. case_if; case_if_in H2; lia.
    + rewrite (v_flag s Hi p q Hp Hq Hpq). unfold upd. destruct (Z.eqb_spec p r) as [->|Hpr], (Z.eqb_spec q r) as [->|Hqr]; try done.
      * rewrite Hs; [done|]. intros ->. by rewrite !Z.eqb_refl in E.
      * by rewrite Hpc.
  - intros p Hp Hpr. pose proof (v_seen s Hi p r Hp Hr Hpr) as H. by rewrite Hpc in H.
  - apply barrier_kept; [done|done|by rewrite Hpc|done].
  - apply slots_kept; try done. intros q Hq Hqr. pose proof (v_slot s Hi r q Hr Hq ltac:(lia)) as H. rewrite Hpc in H.
    intros Hf. apply H. cbn in *. lia.
  - intros p c' a x Hp Hca' Hx. pose proof (v_dst s Hi p c' a x Hp Hca' Hx) as H. unfold upd.
    destruct (Z.eqb_spec p r) as [->|]; [|done]. by rewrite Hpc in H.
Qed.

Lemma direct_reset s r c j :
  inv s -> is_pe r -> pc s r = At c (Reset j) -> j < reset_bound -> inv (goto r (At c (Reset (j + 1))) (put_flag r j 0 s)).
Proof.
  intros Hi Hr Hpc Hj. pose proof (v_pc s Hi r Hr) as Hok. rewrite Hpc in Hok. destruct Hok as (Hca & Hj').
  set (k' := At c (Reset (j + 1))).
  assert (Harr : forall c', arrived c' (pc s r) = true -> arrived c' k' = true) by (intros c'; by rewrite Hpc).
  eapply (direct_move s _ r k'); try done; cbn [goto put_flag pc pSync pWrk dst].
  - split; [done|]. lia.
  - intros q _ _. by rewrite Hpc.
  - intros p q Hp Hq Hpq. rewrite write_flag. unfold upd. case_if.
    + apply andb_true_iff in E as [->%Z.eqb_eq Ej%Z.eqb_eq]. rewrite Z.eqb_refl, (proj2 (Z.eqb_neq p r)) by done.
      pose proof (v_seen s Hi p r Hp Hr Hpq) as [_ H]. rewrite Hpc in H. cbn in H.
      assert (Hna : arrived c (pc s r) = false) by (rewrite Hpc; unfold arrived; rewrite Nat.ltb_irrefl; by rewrite andb_false_r).
      pose proof (none_ahead s r c p Hi Hr Hp Hna). pose proof (direct_sent_bound (pc s p) r).
      unfold k', cleared. cbn. case_if; lia.
    + rewrite (v_flag s Hi p q Hp Hq Hpq). destruct (Z.eqb_spec p r) as [->|Hpr], (Z.eqb_spec q r) as [->|Hqr]; try done.
      * by rewrite Hpc.
      * rewrite Hpc. unfold k', cleared. cbn. cbn in E. repeat case_if; lia.
  - intros p Hp Hpr. pose proof (v_seen s Hi p r Hp Hr Hpr) as H. by rewrite Hpc in H.
  - apply barrier_kept; [done|done|by rewrite Hpc|done].
  - apply slots_kept; try done. intros q Hq Hqr. pose proof (v_slot s Hi r q Hr Hq ltac:(lia)) as H. by rewrite Hpc in H.
  - intros p c' a x Hp Hca' Hx. pose proof (v_dst s Hi p c' a x Hp Hca' Hx) as H. unfold upd.
    destruct (Z.eqb_spec p r) as [->|]; [|done]. by rewrite Hpc in H.
Qed.

(** When a PE combines the slot of a peer, the peer has filled it for this call. *)
Lemma direct_peer_filled s r c i a x :
  inv s -> is_pe r -> pc s r = At c (Reduce i) -> calls !! c = Some a -> 0 <= x < nelems a ->
  pWrk s r (pe_of i * slot a + x) = src a i r x.
Proof.
  intros Hi Hr Hpc Hca Hx. pose proof (v_pc s Hi r Hr) as Hok. rewrite Hpc in Hok. destruct Hok as (_ & Hii & Hne).
  assert (Hna : arrived c (pc s r) = false) by (rewrite Hpc; unfold arrived; rewrite Nat.ltb_irrefl; by rewrite andb_false_r).
  pose proof (none_ahead s r c i Hi Hr Hii Hna) as Hle. pose proof (v_seen s Hi i r Hii Hr Hne) as [_ H].
  rewrite Hpc in H. cbn in H. specialize (H ltac:(lia)). pose proof (v_slot s Hi i r Hii Hr Hne) as Hsl.
  destruct (pc s i) as [ci|ci ph] eqn:Hpi; unfold sent in H; cbn in *; [lia|].
  assert (ci = c) as -> by (destruct ph; try case_if_in H; lia).
  apply Hsl; try done. destruct ph; try done; cbn in *; try case_if_in H; lia.
Qed.

Lemma partial_S a me i x : 0 <= i ->
  partial a me (i + 1) x = if i =? me then partial a me i x else Calc (src a i me x) (partial a me i x).
Proof.
  intros Hi. unfold partial. rewrite seqZ_app by lia. by rewrite foldl_app.
Qed.

Lemma direct_leave s r c :
  inv s -> is_pe r -> pc s r = At c InBarrier -> forallb (fun p => arrived c (pc s p)) ranks = true ->
  inv (goto r (Out (S c)) s).
Proof.
  intros Hi Hr Hpc Hall. rewrite forallb_forall in Hall.
  assert (Hb : forall p, is_pe p -> arrived c (pc s p) = true).
  { intros p Hp. apply Hall. rewrite <- list_elem_of_In. apply elem_of_seqZ. unfold is_pe in Hp. lia. }
  pose proof (v_pc s Hi r Hr) as Hok. rewrite Hpc in Hok. destruct Hok as [[a Hca] _]. apply lookup_lt_Some in Hca as Hlen.
  assert (Harr : forall c', arrived c' (pc s r) = true -> arrived c' (Out (S c)) = true).
  { intros c'. rewrite Hpc. unfold arrived. intros [H%Nat.ltb_lt|[->%Nat.eqb_eq _]%andb_true_iff]%orb_true_iff; apply Nat.ltb_lt; lia. }
  apply direct_quiet; try done; rewrite ?Hpc.
  - intros i _ _. unfold sent. cbn [round]. lia.
  - intros p _ _. unfold cleared. cbn [round]. lia.
  - intros p Hp Hne. pose proof (v_seen s Hi p r Hp Hr Hne) as [_ H]. rewrite Hpc in H. cbn in H. split; [cbn [round]; lia|done].
  - intros q c' Hq Hlt. cbn [round] in Hlt. destruct (decide (c' = c)) as [->|Hne].
    + pose proof (Hb q Hq). unfold upd. case_if; [|done]. assert (q = r) as -> by lia. by apply Harr.
    + pose proof (v_barrier s Hi r q c' Hr Hq) as H. rewrite Hpc in H. cbn [round] in H. specialize (H ltac:(lia)).
      unfold upd. case_if; [|done]. assert (q = r) as -> by lia. by apply Harr.
  - intros c' a' x Hca' Hx [H1 H2] Hlt. destruct (decide (c' = c)) as [->|]; [by apply H2|apply H1; lia].
Qed.

Lemma direct_enter s r c : inv s -> is_pe r -> pc s r = Out c -> is_Some (calls !! c) -> inv (goto r (At c Copy) s).
Proof.
  intros Hi Hr Hpc Hca.
  assert (Harr : forall c', arrived c' (pc s r) = true -> arrived c' (At c Copy) = true).
  { intros c'. rewrite Hpc. unfold arrived. intros ->. done. }
  apply direct_quiet; try done; rewrite ?Hpc; try done.
  - intros p Hp Hne. pose proof (v_seen s Hi p r Hp Hr Hne) as [H _]. rewrite Hpc in H. by split.
  - apply barrier_kept; [done|done|by rewrite Hpc|done].
Qed.

Lemma direct_wait s r c i :
  inv s -> is_pe r -> is_pe i -> i <> r -> pc s r = At c (Wait i) -> pSync s r (pe_of i) = 1 ->
  inv (goto r (At c (Reduce i)) s).
Proof.
  intros Hi Hr Hii Hne Hpc Hf. pose proof (v_pc s Hi r Hr) as Hok. rewrite Hpc in Hok. destruct Hok as [Hca _].
  eapply direct_stay; try done. intros p Hp Hpr [H1 H2]. split; [done|]. intros Hle. cbn in *.
  destruct (decide (p = i)) as [->|]; [|apply H2; lia].
  pose proof (v_flag s Hi i r Hii Hr Hne) as Hv. rewrite Hf, Hpc in Hv. unfold cleared in Hv. cbn in Hv. lia.
Qed.

Lemma direct_exec_inv junk r s s' : inv s -> is_pe r -> exec junk r s = Some s' -> inv s'.
Proof.
  intros Hi Hr. unfold exec. pose proof (v_pc s Hi r Hr) as Hok. destruct (pc s r) as [c|c ph] eqn:Hpc.
  - destruct (calls !! c) as [a|] eqn:Hca; [|done]. intros [= <-]. by apply direct_enter.
  - destruct (calls !! c) as [a|] eqn:Hca; [|done]. destruct Hok as [Hsome Hph].
    destruct ph as [|i|i|i|i|i|i|].
    + intros [= <-]. eapply direct_local; try done.
      * split; [done|]. lia.
      * intros i Hii _. unfold sent, is_pe in *. cbn [round]. case_if; lia.
      * intros q Hq _. unfold is_pe in *. cbn. lia.
      * intros x Hx. split; [lia|done].
    + rewrite flight_none by done. case_if; [case_if|]; intros [= <-].
      * assert (i = r) as -> by lia. eapply direct_stay; try done.
        -- split; [done|]. lia.
        -- intros j _ Hj. unfold sent. cbn [round]. repeat case_if; lia.
        -- intros q _ Hq. cbn. lia.
      * eapply direct_put; try done; [unfold is_pe; lia|lia|by left].
      * eapply direct_stay; try done.
        -- split; [done|]. lia.
        -- intros j Hj _. unfold sent, is_pe in *. cbn [round]. case_if; lia.
        -- intros q Hq _ _. unfold is_pe in *. cbn. lia.
        -- intros p Hp Hne [H _]. split; [done|]. unfold is_pe in *. lia.
    + intros [= <-]. destruct Hph. eapply direct_put; try done. right. done.
    + intros [= <-]. by apply direct_flag.
    + case_if; [case_if|].
      * intros [= <-]. assert (i = r) as -> by lia. eapply direct_stay; try done.
        -- split; [done|]. lia.
        -- intros p Hp Hne [H1 H2]. split; [done|]. intros Hlt. apply H2. lia.
        -- intros a' x Hca' Hx [H1 H2]. split; [done|]. intros _. rewrite partial_S, Z.eqb_refl by lia. by apply H2.
      * case_if; [|done]. intros [= <-]. apply (direct_wait s r c i); try done; unfold is_pe; lia.
      * intros [= <-]. assert (i = PE_size) as -> by lia. eapply direct_stay; try done.
        -- split; [done|]. pose proof (team_cleared r Hr). lia.
        -- intros p Hp _. unfold cleared. cbn [round]. case_if; [|lia]. pose proof (team_cleared p Hp). lia.
        -- intros p Hp Hne [H1 H2]. split; [done|]. apply H2. unfold is_pe in *. lia.
    + intros [= <-]. destruct Hph as [Hii Hne]. eapply direct_local; try done.
      * split; [done|]. unfold is_pe in *. lia.
      * intros p Hp Hpr [H1 H2]. split; [done|]. intros Hlt. apply H2. lia.
      * intros x Hx. split; [lia|]. intros _. unfold is_pe in Hii. rewrite partial_S by lia.
        rewrite (proj2 (Z.eqb_neq i r)), (direct_peer_filled s r c i a x) by done. f_equal.
        pose proof (v_dst s Hi r c a x Hr Hca Hx) as H. rewrite Hpc in H. by apply H.
    + case_if; intros [= <-]; [apply direct_reset; try done; lia|].
      eapply direct_stay; try done. intros p Hp _. pose proof (team_cleared p Hp). unfold cleared. cbn [round]. case_if; lia.
    + case_if; [|done]. intros [= <-]. by apply direct_leave.
Qed.

Lemma direct_initial_inv s : initial s -> inv s.
Proof.
  intros H. assert (Hpc : forall p, is_pe p -> pc s p = Out 0) by (intros p Hp; apply (H p Hp)).
  split; intros r; intros.
  - rewrite Hpc by done. cbn. lia.
  - rewrite !Hpc by done. destruct (H q ltac:(done)) as (_ & -> & _). done.
  - rewrite !Hpc by done. done.
  - rewrite (Hpc r) in * by done. cbn in *. lia.
  - by rewrite (Hpc r) by done.
  - rewrite (Hpc r) by done. cbn. lia.
  - by apply H.
Qed.

Lemma direct_reachable_inv s s' : initial s -> rtc step s s' -> inv s'.
Proof.
  intros H0 Hrun. refine (rtc_invariant step inv _ _ _ Hrun (direct_initial_inv s H0)).
  intros x y Hx Hs. destruct (joined_step x y Hx Hs) as (junk & p & Hp & He). by eapply direct_exec_inv.
Qed.

(** ** Progress *)

Definition finished (s : state) : Prop := forall p, is_pe p -> pc s p = Out (length calls).

(** A PE that cannot move has finished, waits for a flag or for the barrier. *)
Lemma direct_move_or_wait s r junk :
  inv s -> is_pe r -> pc s r <> Out (length calls) ->
  (exists s', exec junk r s = Some s') \/
  (exists c i, pc s r = At c (Wait i) /\ is_pe i /\ i <> r /\ pSync s r (pe_of i) <> 1) \/
  (exists c p, pc s r = At c InBarrier /\ is_pe p /\ arrived c (pc s p) = false).
Proof.
  intros Hi Hr Hnf. pose proof (v_pc s Hi r Hr) as Hok. unfold exec. destruct (pc s r) as [c|c ph] eqn:Hpc.
  - cbn in Hok. destruct (lookup_lt_is_Some_2 calls c) as [a Hc].
    { destruct (decide (c = length calls)) as [->|]; [done|lia]. }
    rewrite Hc. left. by eexists.
  - destruct Hok as ([a Hc] & Hph). rewrite Hc. destruct ph as [|i|i|i|i|i|i|]; try (left; by eexists).
    + left. rewrite flight_none by done. repeat case_if; by eexists.
    + case_if; [|left; by eexists]. case_if; [left; by eexists|]. case_if; [left; by eexists|].
      right. left. exists c, i. unfold is_pe. split; [done|]. lia.
    + left. case_if; by eexists.
    + case_if; [left; by eexists|]. right. right. apply forallb_false in E as (p & Hp%elem_of_seqZ & Ha).
      exists c, p. unfold is_pe. split; [done|]. split; [lia|done].
Qed.

(** A PE that is behind another one can leave its barrier. *)
Lemma late_moves s r p junk :
  inv s -> is_pe r -> is_pe p -> round (pc s p) < round (pc s r) -> exists s', exec junk p s = Some s'.
Proof.
  intros Hi Hr Hp Hlt. pose proof (v_pc s Hi p Hp) as Hok.
  assert (Harr : exists c, round (pc s p) = Z.of_nat c /\ arrived c (pc s p) = true).
  { assert (exists c, round (pc s p) = Z.of_nat c) as [c Hc] by (destruct (pc s p); by eexists).
    exists c. split; [done|]. by apply (v_barrier s Hi r p c Hr Hp); lia. }
  destruct Harr as (c & Hc & Ha). unfold exec. destruct (pc s p) as [c'|c' ph] eqn:Hpc; cbn in Hc.
  - assert (c' = c) as -> by lia. cbn [arrived] in Ha. by rewrite Nat.ltb_irrefl in Ha.
  - assert (c' = c) as -> by lia. cbn [arrived] in Ha. rewrite Nat.ltb_irrefl in Ha. destruct ph; try by rewrite andb_false_r in Ha.
    destruct Hok as [[a Hca] _]. rewrite Hca. rewrite (proj2 (forallb_forall _ _)); [by eexists|].
    intros q Hq. rewrite <- list_elem_of_In in Hq. apply elem_of_seqZ in Hq. apply (v_barrier s Hi r q c); [done|unfold is_pe; lia|cbn in Hlt; lia].
Qed.

Lemma wait_moves s r c i junk :
  inv s -> is_pe r -> is_pe i -> i <> r -> pc s r = At c (Wait i) -> pSync s r (pe_of i) <> 1 ->
  exists s', exec junk i s = Some s'.
Proof.
  intros Hi Hr Hii Hne Hpc Hf. destruct (Z.lt_ge_cases (round (pc s i)) (Z.of_nat c)) as [Hlt|Hge].
  { apply (late_moves s r i); try done. by rewrite Hpc. }
  assert (Hna : arrived c (pc s r) = false) by (rewrite Hpc; unfold arrived; rewrite Nat.ltb_irrefl; by rewrite andb_false_r).
  pose proof (none_ahead s r c i Hi Hr Hii Hna) as Hle. pose proof (v_flag s Hi i r Hii Hr Hne) as Hv.
  rewrite Hpc in Hv. unfold cleared in Hv. cbn in Hv. pose proof (v_pc s Hi r Hr) as Hok. rewrite Hpc in Hok.
  destruct Hok as [[a Hca] _]. apply lookup_lt_Some in Hca as Hlen.
  destruct (direct_move_or_wait s i junk Hi Hii) as [?|[(c' & j & E & _)|(c' & p & E & _)]]; try done.
  - intros E. rewrite E in Hle. cbn in Hle. lia.
  - rewrite E in Hge, Hle, Hv. unfold sent in Hv. cbn in *. lia.
  - rewrite E in Hge, Hle, Hv. unfold sent in Hv. cbn in *. lia.
Qed.

Lemma direct_some_moves s junk r : inv s -> is_pe r -> pc s r <> Out (length calls) ->
  exists p s', is_pe p /\ exec junk p s = Some s'.
Proof.
  intros Hi Hr Hnf.
  destruct (direct_move_or_wait s r junk Hi Hr Hnf) as [[s' He]|[(c & i & Hpc & Hii & Hne & Hf)|(c & p & Hpc & Hp & Ha)]].
  - by exists r, s'.
  - destruct (wait_moves s r c i junk) as [s' He]; try done. by exists i, s'.
  - destruct (Z.lt_ge_cases (round (pc s p)) (Z.of_nat c)) as [Hlt|Hge].
    { destruct (late_moves s r p junk) as [s' He]; try done; [by rewrite Hpc|]. by exists p, s'. }
    pose proof (none_ahead s p c p Hi Hp Hp Ha) as Hle. pose proof (v_pc s Hi r Hr) as Hok. rewrite Hpc in Hok.
    destruct Hok as [[a Hca] _]. apply lookup_lt_Some in Hca as Hlen.
    destruct (direct_move_or_wait s p junk Hi Hp) as [[s' He]|[(c' & i & E & Hii & Hne & Hf)|(c' & q & E & _)]].
    + intros E. rewrite E in Hle. cbn in Hle. lia.
    + by exists p, s'.
    + destruct (wait_moves s p c' i junk) as [s' He]; try done. by exists i, s'.
    + rewrite E in Hge, Hle, Ha. cbn [round arrived] in *. assert (c' = c) as -> by lia. by rewrite Nat.eqb_refl, orb_true_r in Ha.
Qed.

(** ** Length of a run *)

Definition direct_phase_left (ph : phase) : Z :=
  match ph with
  | Copy => 5 * PE_size + reset_bound + 5
  | Put i => 3 * (PE_size - i) + 2 * PE_size + reset_bound + 4
  | PutEnd i => 3 * (PE_size - i) + 2 * PE_size + reset_bound + 3
  | Flag i => 3 * (PE_size - i) + 2 * PE_size + reset_bound + 2
  | Wait i => 2 * (PE_size - i) + reset_bound + 3
  | Reduce i => 2 * (PE_size - i) + reset_bound + 2
  | Reset i => reset_bound - i + 2
  | InBarrier => 1
  end.

(** Steps of one call. *)
Definition direct_call_steps : Z := 5 * PE_size + reset_bound + 6.

Definition direct_steps_left (k : counter) : Z :=
  match k with
  | Out c => (Z.of_nat (length calls) - Z.of_nat c) * direct_call_steps
  | At c ph => (Z.of_nat (length calls) - Z.of_nat c - 1) * direct_call_steps + direct_phase_left ph
  end.

Lemma direct_exec_left junk r s s' : inv s -> is_pe r -> exec junk r s = Some s' ->
  exists k', pc s' = upd (pc s) r k' /\ direct_steps_left k' < direct_steps_left (pc s r).
Proof.
  intros Hi Hr. unfold exec. pose proof (v_pc s Hi r Hr) as Hok. destruct (pc s r) as [c|c ph] eqn:Hpc.
  - destruct (calls !! c); [|done]. intros [= <-]. eexists. split; [done|]. unfold direct_steps_left, direct_call_steps. cbn. lia.
  - destruct (calls !! c) as [a|]; [|done]. destruct Hok as [_ Hph]. unfold is_pe in *.
    destruct ph; repeat case_if; try done; intros [= <-]; eexists; (split; [done|]);
      unfold direct_steps_left, direct_phase_left, direct_call_steps; lia.
Qed.

Definition direct_run_left (s : state) : Z := zsum (fun p => direct_steps_left (pc s p)) ranks.

Lemma direct_run_left_nonneg s : inv s -> 0 <= direct_run_left s.
Proof.
  intros Hi. apply zsum_nonneg. intros p Hp%elem_of_seqZ. pose proof (v_pc s Hi p ltac:(unfold is_pe; lia)) as Hok.
  pose proof (team_cleared p ltac:(unfold is_pe; lia)) as Hrb.
  unfold direct_steps_left. destruct (pc s p) as [c|c ph]; cbn in Hok.
  - unfold direct_call_steps. nia.
  - destruct Hok as [[a Hca] Hph]. apply lookup_lt_Some in Hca. unfold is_pe in *.
    assert (0 <= direct_phase_left ph) by (destruct ph; cbn; lia). unfold direct_call_steps. nia.
Qed.

Lemma direct_run_length n s s' : inv s -> nsteps step n s s' -> Z.of_nat n + direct_run_left s' <= direct_run_left s.
Proof.
  intros Hi Hn. induction Hn as [s|n s s1 s' Hs Hn IH]; [lia|]. destruct (joined_step s s1 Hi Hs) as (junk & p & Hp & He).
  specialize (IH ltac:(by eapply direct_exec_inv)).
  destruct (direct_exec_left junk p s s1 Hi Hp He) as (k' & Hk & Hlt).
  enough (direct_run_left s1 < direct_run_left s) by lia. unfold direct_run_left. rewrite Hk.
  rewrite (zsum_change _ (fun p => direct_steps_left (pc s p)) _ p).
  - rewrite upd_eq. lia.
  - apply NoDup_seqZ.
  - apply elem_of_seqZ. unfold is_pe in Hp. lia.
  - intros x _ Hne. by rewrite upd_ne.
Qed.

Lemma reachable_dst s s' r c c' a x :
  initial s -> rtc step s s' -> is_pe r -> pc s' r = Out c -> (c' < c)%nat -> calls !! c' = Some a ->
  0 <= x < nelems a -> dst s' c' r x = result a r x.
Proof.
  intros H0 Hrun Hr Hpc Hlt Hc Hx. pose proof (direct_reachable_inv s s' H0 Hrun) as Hi.
  pose proof (v_dst s' Hi r c' a x Hr Hc Hx) as H. rewrite Hpc in H. by apply H.
Qed.

(** C7: with the flags of all PEs of the team below the bound of the clearing loop,
    and a put that is complete when thread zero raises its flag (the IPC context,
    or a work-group of one wavefront, or no peer that is mapped over IPC), whatever
    the order in which the PEs run, once a PE has left the barrier after a direct
    all-reduce its destination holds the reduction over all PEs, for every call of
    any sequence of calls.  Team sizes and indices are unbounded integers. *)
Theorem direct_correct s s' r c c' a x :
  initial s -> rtc step s s' -> is_pe r -> pc s' r = Out c -> (c' < c)%nat -> calls !! c' = Some a ->
  0 <= x < nelems a -> dst s' c' r x = result a r x.
Proof using PE_size_pos stride_pos team_cleared joined calls_fit. by apply reachable_dst. Qed.

Lemma direct_finished_or s : finished s \/ exists p, is_pe p /\ pc s p <> Out (length calls).
Proof.
  set (fin := fun p => match pc s p with Out c => (c =? length calls)%nat | _ => false end).
  destruct (forallb fin ranks) eqn:E.
  - left. intros p Hp. rewrite forallb_forall in E. specialize (E p). unfold fin, ranks in E.
    rewrite <- list_elem_of_In, elem_of_seqZ in E. unfold is_pe in Hp. specialize (E ltac:(lia)).
    destruct (pc s p); [|done]. f_equal. by apply Nat.eqb_eq.
  - right. apply forallb_false in E as (p & Hp%elem_of_seqZ & Hf). exists p. split; [unfold is_pe; lia|].
    unfold fin in Hf. intros Heq. rewrite Heq, Nat.eqb_refl in Hf. done.
Qed.

(** Under the same condition the PEs cannot deadlock: at every point of every
    run some PE can move unless all have returned from all calls, and no run is
    longer than a bound that is linear in the number of calls. *)
Theorem direct_finishes s n s' (junk : Z -> T) :
  initial s -> nsteps step n s s' ->
  Z.of_nat n <= PE_size * (Z.of_nat (length calls) * direct_call_steps) /\
  (finished s' \/ exists p s'', is_pe p /\ exec junk p s' = Some s'').
Proof using PE_size_pos stride_pos team_cleared joined calls_fit.
  intros H0 Hn. pose proof (direct_initial_inv s H0) as Hi0.
  assert (Hi : inv s') by (by eapply direct_reachable_inv, rtc_nsteps_2). split.
  - pose proof (direct_run_length n s s' Hi0 Hn). pose proof (direct_run_left_nonneg s' Hi).
    enough (direct_run_left s = PE_size * (Z.of_nat (length calls) * direct_call_steps)) by lia. unfold direct_run_left.
    rewrite (zsum_ext _ (fun _ => Z.of_nat (length calls) * direct_call_steps)), zsum_const.
    + unfold ranks. rewrite length_seqZ. lia.
    + intros p Hp%elem_of_seqZ. destruct (H0 p ltac:(unfold is_pe; lia)) as (-> & _). unfold direct_steps_left. lia.
  - destruct (direct_finished_or s') as [?|(p & Hp & Hnf)]; [by left|right]. by apply (direct_some_moves s' junk p).
Qed.

End direct.

(** ** The variants *)

(** The arguments of an all-reduce of [n] elements: a PE sends the same elements to
    all peers, and slots are as long as the message. *)
Definition allreduce_args {T} (n : Z) (source : Z -> Z -> T) : args := mkArgs n n (fun p _ => source p).

Section variants.
Context {T : Type} (Calc : T -> T -> T) (PE_start stride PE_size num_pes : Z) (calls : list (args (T := T))).

Definition ipc_direct_allreduce_wg := exec Calc PE_start stride PE_size PE_size calls.

Definition ipc_direct_allreduce_wave := exec Calc PE_start stride PE_size num_pes calls.

(** With more than one wavefront the steps [exec_early] and [exec_land] are added. *)
Definition gda_direct_allreduce_wg := exec Calc PE_start stride PE_size num_pes calls.

Definition gda_direct_allreduce_wave := exec Calc PE_start stride PE_size num_pes calls.

End variants.

(** ** Reduce-scatter with one barrier per chunk *)

Section chunks.
Context {T : Type} (Calc : T -> T -> T) (PE_size nreduce chunk_size wg_size : Z) (ipc : Z -> Z -> bool) (source : Z -> Z -> T).

(** The chunks of [reduce_scatter_wg]: PE [q] gets block [q] of every source. *)
Definition n_chunks : Z := (nreduce + chunk_size - 1) / chunk_size.

Definition scatter_chunk (c : Z) : args :=
  mkArgs (Z.min chunk_size (nreduce - c * chunk_size)) chunk_size
    (fun p q x => source p (q * nreduce + c * chunk_size + x)).

Definition scatter_chunks : list args := scatter_chunk <$> seqZ 0 n_chunks.

(** One step of [reduce_scatter_wg]: slots and flags are indexed by the rank. *)
Definition reduce_scatter_wg := exec Calc 0 1 PE_size PE_size scatter_chunks.

(** Element [idx] of block [me], combined in the order of the ranks. *)
Definition scatter_result (me idx : Z) : T :=
  foldl (fun acc i => if i =? me then acc else Calc (source i (me * nreduce + idx)) acc)
    (source me (me * nreduce + idx)) (seqZ 0 PE_size).

(** Once a PE has returned from [reduce_scatter_wg] every element of its
    destination is the reduction of its block over all PEs, whatever the order in
    which the PEs run; element [idx] is written in chunk [idx / chunk_size]. *)
Theorem reduce_scatter_wg_correct s s' r idx :
  0 < PE_size -> 0 < chunk_size -> initial PE_size s -> rtc (step Calc 0 1 PE_size PE_size scatter_chunks false wg_size ipc) s s' ->
  is_pe PE_size r -> pc s' r = Out (length scatter_chunks) -> 0 <= idx < nreduce ->
  dst s' (Z.to_nat (idx / chunk_size)) r (idx mod chunk_size) = scatter_result r idx.
Proof.
  intros HP Hch H0 Hrun Hr Hpc Hx.
  pose proof (Z.div_mod idx chunk_size ltac:(lia)) as Hdm. pose proof (Z.mod_pos_bound idx chunk_size Hch) as Hm.
  assert (Hq : 0 <= idx / chunk_size < n_chunks).
  { split; [apply Z.div_pos; lia|]. unfold n_chunks.
    assert (idx / chunk_size + 1 <= (nreduce + chunk_size - 1) / chunk_size); [|lia]. apply Z.div_le_lower_bound; nia. }
  assert (Hc : scatter_chunks !! Z.to_nat (idx / chunk_size) = Some (scatter_chunk (idx / chunk_size))).
  { unfold scatter_chunks. rewrite list_lookup_fmap, lookup_seqZ_lt by lia. cbn. do 2 f_equal. lia. }
  rewrite (reachable_dst Calc 0 1 PE_size PE_size scatter_chunks false wg_size ipc) with (s := s) (c := length scatter_chunks)
    (a := scatter_chunk (idx / chunk_size)); try done; try lia.
  - unfold result, partial, scatter_result. cbn.
    by replace (r * nreduce + idx / chunk_size * chunk_size + idx mod chunk_size) with (r * nreduce + idx) by nia.
  - intros q Hq'. unfold is_pe, pe_of in *. lia.
  - apply Forall_fmap, Forall_forall. intros c _. cbn. lia.
  - by eapply lookup_lt_Some.
  - cbn. nia.
Qed.

End chunks.

(** ** Concrete runs *)

(** Runs the PEs in the order of the schedule; a PE that cannot move is skipped. *)
Definition direct_drive (move : (Z -> Z) -> Z -> state (T := Z) -> option state) (schedule : list Z) (s : state) : state :=
  foldl (fun s p => default s (move (fun _ => -1) p s)) s schedule.

Lemma direct_drive_rtc PE_start stride PE_size reset_bound calls gda wg_size ipc schedule s :
  Forall (fun p => 0 <= p < PE_size) schedule ->
  rtc (step Z.add PE_start stride PE_size reset_bound calls gda wg_size ipc) s
    (direct_drive (exec Z.add PE_start stride PE_size reset_bound calls) schedule s).
Proof.
  intros Hs. revert s. induction Hs as [|p l Hp Hl IH]; intros s; [done|]. unfold direct_drive. cbn [foldl].
  destruct (exec _ _ _ _ _ _ _ p s) as [s'|] eqn:E; [|apply IH].
  eapply rtc_l; [by econstructor|]. apply IH.
Qed.

(** Two all-reduces of one element by two PEs. *)
Definition pair_calls : list args :=
  [allreduce_args 1 (fun p _ => 1 + p); allreduce_args 1 (fun p _ => 10 + 10 * p)].

Definition pair_start : state := mkState (fun _ _ _ => 0) (fun _ _ => 0) (fun _ _ => 0) (fun _ => Out 0) (fun _ _ => false).

(** Both make the first call; then the first PE runs as far as it can, then the second. *)
Definition pair_schedule : list Z :=
  replicate 9 0 ++ replicate 20 1 ++ replicate 40 0 ++ replicate 40 1 ++ concat (replicate 9 [0; 1]).

Lemma pair_schedule_ok : Forall (fun p => 0 <= p < 2) pair_schedule.
Proof. repeat constructor; lia. Qed.

Lemma pair_initial : initial 2 pair_start.
Proof. intros p _. by split. Qed.

(** The world has three PEs, the team those numbered 1 and 2. *)
Lemma pair_cleared r : is_pe 2 r -> 0 <= pe_of 1 1 r < 3.
Proof. unfold is_pe, pe_of. lia. Qed.

Lemma pair_fit : Forall (fun a => nelems a <= slot a) pair_calls.
Proof. repeat constructor; cbn; lia. Qed.

Lemma direct_correct_witness :
  dst (direct_drive (gda_direct_allreduce_wg Z.add 1 1 2 3 pair_calls) pair_schedule pair_start) 1 0 0 = 30.
Proof.
  transitivity (result Z.add 2 (allreduce_args 1 (fun p _ => 10 + 10 * p)) 0 0); [|reflexivity].
  apply (direct_correct Z.add 1 1 2 3 pair_calls true 64 (fun _ _ => true) ltac:(lia) ltac:(lia) pair_cleared
    (or_intror (or_introl (Z.le_refl 64))) pair_fit pair_start _ 0 2 1
    (allreduce_args 1 (fun p _ => 10 + 10 * p)) 0 pair_initial
    (direct_drive_rtc 1 1 2 3 pair_calls _ _ _ pair_schedule pair_start pair_schedule_ok));
    [unfold is_pe; lia|vm_compute; reflexivity|lia|reflexivity|cbn; lia].
Defined.

Lemma direct_finishes_witness :
  exists n, Z.of_nat n <= 2 * (2 * direct_call_steps 2 3) /\
    finished 2 pair_calls (direct_drive (gda_direct_allreduce_wg Z.add 1 1 2 3 pair_calls) pair_schedule pair_start).
Proof.
  destruct (proj1 (rtc_nsteps _ _) (direct_drive_rtc 1 1 2 3 pair_calls true 64 (fun _ _ => true) pair_schedule pair_start pair_schedule_ok)) as [n Hn].
  exists n. destruct (direct_finishes Z.add 1 1 2 3 pair_calls true 64 (fun _ _ => true) ltac:(lia) ltac:(lia) pair_cleared
    (or_intror (or_introl (Z.le_refl 64))) pair_fit pair_start n _ (fun _ => -1)
    pair_initial Hn) as [Hle _]. split; [exact Hle|].
  intros p Hp. assert (p = 0 \/ p = 1) as [->| ->] by (unfold is_pe in Hp; lia); vm_compute; reflexivity.
Defined.

(** The work-group variant of the IPC context clears only as many flags as the
    team has PEs, from index 0, although the flags are indexed by the number of a
    PE in the world: on the team of PEs 1 and 2 the flag of PE 2 stays raised, and
    in a second all-reduce PE 1 combines the element of the first one.  It gets
    12 instead of 30, where the variants that clear the flags of all PEs get 30. *)
Theorem direct_subteam_stale :
  let run move := direct_drive move pair_schedule pair_start in
  let ipc := run (ipc_direct_allreduce_wg Z.add 1 1 2 pair_calls) in
  let gda := run (gda_direct_allreduce_wg Z.add 1 1 2 3 pair_calls) in
  rtc (step Z.add 1 1 2 2 pair_calls false 1024 (fun _ _ => true)) pair_start ipc /\ finished 2 pair_calls ipc /\
  dst ipc 1 0 0 = 12 /\ result Z.add 2 (allreduce_args 1 (fun p _ => 10 + 10 * p)) 0 0 = 30 /\
  pSync ipc 0 (pe_of 1 1 1) = 1 /\ dst gda 1 0 0 = 30 /\ pSync gda 0 (pe_of 1 1 1) = 0.
Proof.
  cbv zeta. split; [exact (direct_drive_rtc 1 1 2 2 pair_calls _ _ _ pair_schedule pair_start pair_schedule_ok)|].
  split; [|vm_compute; repeat split].
  intros p Hp. assert (p = 0 \/ p = 1) as [->| ->] by (unfold is_pe in Hp; lia); vm_compute; reflexivity.
Qed.

(** Three elements per PE in chunks of two. *)
Definition scatter_example := scatter_chunks (T := Z) 3 2 (fun p i => 10 * p + i).

Lemma reduce_scatter_wg_correct_witness :
  dst (direct_drive (reduce_scatter_wg Z.add 2 3 2 (fun p i => 10 * p + i)) pair_schedule pair_start) 1 1 0 = 20.
Proof.
  transitivity (scatter_result Z.add 2 3 (fun p i => 10 * p + i) 1 2); [|reflexivity].
  apply (reduce_scatter_wg_correct Z.add 2 3 2 1024 (fun _ _ => true) (fun p i => 10 * p + i) pair_start _ 1 2 ltac:(lia) ltac:(lia) pair_initial
    (direct_drive_rtc 0 1 2 2 scatter_example _ _ _ pair_schedule pair_start pair_schedule_ok));
    [unfold is_pe; lia|vm_compute; reflexivity|lia].
Defined.

(** ** Work-groups of two wavefronts over IPC *)

(** Element [j] of a message of 256 elements of 8 bytes is moved by a thread of the
    second wavefront of 128 threads. *)
Definition second_half (j : Z) : bool :=
  existsb (fun t => existsb (fun '(b, n) => (b <=? 8 * j) && (8 * j <? b + n)) (memcpy_wg t 128 2048)) (seqZ 64 64).

Definition mapped_calls : list args := [allreduce_args 256 (fun p _ => 1 + p)].

(** The slot while only the first wavefront of PE [p] has made its moves. *)
Definition half_put (p : Z) (s : state (T := Z)) (j : Z) : Z :=
  if second_half j then pWrk s (1 - p) (p * 256 + j) else 1 + p.

(** A step of [exec], of thread zero ahead of its work-group, or of the others. *)
Inductive mapped_move := Go (p : Z) | Early (p : Z) | Land (p i : Z).

Definition mapped_step (m : mapped_move) (s : state (T := Z)) : option state :=
  match m with
  | Go p => exec Z.add 0 1 2 2 mapped_calls (half_put p s) p s
  | Early p => exec_early 0 1 true 128 (fun _ _ => true) p s
  | Land p i => exec_land 0 1 mapped_calls p i s
  end.

Definition mapped_drive (l : list mapped_move) (s : state (T := Z)) : option state :=
  foldl (fun o m => s ← o; mapped_step m s) (Some s) l.

Definition mapped_schedule : list mapped_move :=
  replicate 4 (Go 0) ++ [Early 0] ++ replicate 14 (Go 1) ++ [Land 0 1] ++ replicate 9 (Go 0) ++ [Go 1].

Definition mover (m : mapped_move) : Z := match m with Go p | Early p | Land p _ => p end.

Lemma mapped_drive_rtc l s s' :
  Forall (fun m => is_pe 2 (mover m) /\ match m with Land _ i => is_pe 2 i | _ => True end) l ->
  mapped_drive l s = Some s' -> rtc (step Z.add 0 1 2 2 mapped_calls true 128 (fun _ _ => true)) s s'.
Proof.
  intros Hl. unfold mapped_drive. revert s. induction Hl as [|m l [Hm Hi] Hl IH]; intros s; cbn [foldl].
  { intros [= ->]. constructor. }
  cbn [mbind option_bind]. destruct (mapped_step m s) as [s1|] eqn:E.
  - intros H. eapply rtc_l; [|by apply IH].
    destruct m; cbn [mover mapped_step] in *; [by eapply step_pe|by eapply step_early|by eapply (step_land _ _ _ _ _ _ _ _ _ s p i)].
  - intros H. exfalso. clear -H. induction l as [|m l IH]; [done|]. by apply IH.
Qed.

(** Two PEs of one node that all-reduce 256 elements of 8 bytes with the GDA
    context and work-groups of two wavefronts: thread zero of PE 0 raises its flag
    before the second wavefront has made its moves, PE 1 combines what its slot
    held before, and both return.  Element 128 of PE 1 is 2, its own, instead of 3. *)
Theorem gda_direct_race :
  exists s', rtc (step Z.add 0 1 2 2 mapped_calls true 128 (fun _ _ => true)) pair_start s' /\
    finished 2 mapped_calls s' /\ dst s' 0 1 128 = 2 /\
    result Z.add 2 (allreduce_args 256 (fun p _ => 1 + p)) 1 128 = 3.
Proof.
  assert (Hv : option_map (fun s => (pc s 0, pc s 1, dst s 0 1 128)) (mapped_drive mapped_schedule pair_start) =
    Some (Out 1, Out 1, 2)) by (vm_compute; reflexivity).
  destruct (mapped_drive mapped_schedule pair_start) as [s'|] eqn:He; [|discriminate].
  injection Hv as H0 H1 H2. exists s'. split; [|split; [|split; [exact H2|reflexivity]]].
  - apply (mapped_drive_rtc mapped_schedule); [|exact He]. repeat constructor; unfold is_pe; cbn; lia.
  - intros p Hp. unfold is_pe in Hp. assert (p = 0 \/ p = 1) as [->| ->] by lia; assumption.
Qed.
