(* ===== verification/ReduceDas.v ===== *)
(** * All-reduce: which protocol, and what they leave behind

    The choice of [reduce_wg] (src/ipc/context_ipc_tmpl_device.hpp) and [reduce_das]
    (src/ipc/context_ipc_tmpl_device_das.hpp) between the protocols of [Direct],
    [ReduceScatter] and [Ring], and how calls that take different protocols on the
    same team meet in the flags and the scratch array they share. *)

From Stdlib Require Import ZArith Lia.
From stdpp Require Import base option numbers list relations.
From S2P Require Import Prelude WrkSync Ring ReduceScatter Direct.

(** ** Scratch *)

(** Elements of the scratch array of a team, and those of one slot in
    [reduce_scatter_wg_das]. *)
Definition scratch_elems (sizeof_T : Z) : Z := WrkSync.ROCSHMEM_REDUCE_MIN_WRKDATA_SIZE * sizeof_double / sizeof_T.

Definition das_chunk_size (sizeof_T pe_size : Z) : Z := Z.max 1 (scratch_elems sizeof_T / Z.max 1 (pe_size - 1)).

(** The slots of a team of any size that has scratch elements for all its PEs fit. *)
Lemma das_slots_fit sizeof_T pe_size from to x :
  0 < sizeof_T -> pe_size - 1 <= scratch_elems sizeof_T -> 0 <= from < pe_size -> 0 <= to < pe_size -> from <> to ->
  0 <= x < das_chunk_size sizeof_T pe_size ->
  0 <= scratch_slot from to * das_chunk_size sizeof_T pe_size + x < scratch_elems sizeof_T.
Proof.
  intros HT Hle Hf Ht Hne Hx. assert (Hs : 0 <= scratch_slot from to <= pe_size - 2).
  { unfold scratch_slot. case_if; lia. }
  unfold das_chunk_size in *. rewrite Z.max_r with (n := 1) (m := pe_size - 1) in * by lia.
  assert (1 <= scratch_elems sizeof_T / (pe_size - 1)) by (apply Z.div_le_lower_bound; lia).
  rewrite Z.max_r in * by lia. pose proof (Z.mul_div_le (scratch_elems sizeof_T) (pe_size - 1) ltac:(lia)). nia.
Qed.

(** ** The choice of [reduce_wg] *)

Definition provided_pWrk (nreduce : Z) : Z := Z.max (Z.quot nreduce 2 + 1) WrkSync.ROCSHMEM_REDUCE_MIN_WRKDATA_SIZE.

Definition reduce_wg_direct (PE_size nreduce : Z) : bool :=
  (PE_size * nreduce <=? provided_pWrk nreduce) && (PE_size <=? WrkSync.ROCSHMEM_REDUCE_SYNC_SIZE).

(** [reduce_wg] takes the direct protocol when the slots of as many PEs as the
    team has fit into the scratch array, but a slot is indexed by the number of
    its PE in the world: on the team of the last two of eight PEs, a message of
    524288 elements of eight bytes from PE 7 is put beyond the scratch array of the
    team, into that of the team three slots further in the pool. *)
Theorem direct_slots_overrun (p : pools) (pool_index : Z) :
  let a := Direct.mkArgs (T := Z) 524288 524288 (fun _ _ _ => 0) in
  let put := area_start p pool_index Wrk + 8 * (pe_of 6 1 1 * slot a) in
  reduce_wg_direct 2 524288 = true /\
  area_start p pool_index Wrk + area_bytes Wrk <= put /\
  area_start p (pool_index + 3) Wrk <= put < area_start p (pool_index + 3) Wrk + area_bytes Wrk.
Proof.
  cbv zeta. split; [reflexivity|]. unfold area_start, area_bytes, pe_of, sizeof_double.
  change WrkSync.ROCSHMEM_REDUCE_MIN_WRKDATA_SIZE with 1048576. cbn [slot]. lia.
Qed.

(** ** A large all-reduce followed by a small one *)

(** Two PEs with elements of four bytes: the reduce-scatter of the large one. *)
Definition large_calls : list ReduceScatter.args :=
  [ReduceScatter.mkArgs 4097 0 (-1) (fun p i => 1000 * p + i)].

Definition large_end : ReduceScatter.state :=
  ReduceScatter.drive 2 (das_chunk_size 4 2) large_calls 60 ReduceScatter.example_start.

(** The small one starts with the flags and the scratch the large one leaves. *)
Definition small_start : Direct.state :=
  Direct.mkState (fun _ _ _ => 0) (ReduceScatter.pWrk large_end) (ReduceScatter.pSync large_end) (fun _ => Direct.Out 0)
    (fun _ _ => false).

Definition small_calls : list Direct.args := [allreduce_args 1 (fun p _ => 1 + p)].

Definition small_schedule : list Z := replicate 30 0 ++ replicate 30 1 ++ [0].

Lemma small_schedule_ok : Forall (fun p => 0 <= p < 2) small_schedule.
Proof. repeat constructor; lia. Qed.

(** [reduce_das] on a team that has made no reduction yet: an all-reduce of 8194
    elements takes the reduce-scatter, which leaves generation 1 in the flags of
    the peers; the direct protocol of the next, small all-reduce waits for flag 1
    and does not wait at all.  It combines an element of the first message that
    is still in the scratch array and returns 1002 instead of 3. *)
Theorem reduce_das_stale_flag :
  use_reduce_scatter_allgather 2 8194 = true /\ use_direct 2 1 = true /\
  rtc (ReduceScatter.step Z.add 2 (das_chunk_size 4 2) large_calls) ReduceScatter.example_start large_end /\
  ReduceScatter.finished 2 large_calls large_end /\
  ReduceScatter.pSync large_end 0 1 = 1 /\
  let s := direct_drive (ipc_direct_allreduce_wg Z.add 0 1 2 small_calls) small_schedule small_start in
  rtc (Direct.step Z.add 0 1 2 2 small_calls false 1024 (fun _ _ => true)) small_start s /\ Direct.finished 2 small_calls s /\
  Direct.dst s 0 0 0 = 1002 /\ Direct.result Z.add 2 (allreduce_args 1 (fun p _ => 1 + p)) 0 0 = 3.
Proof.
  split; [reflexivity|]. split; [reflexivity|]. split; [apply drive_rtc|].
  split; [|split; [vm_compute; reflexivity|split]].
  - intros p Hp. assert (p = 0 \/ p = 1) as [->| ->] by (unfold ReduceScatter.is_pe in Hp; lia); vm_compute; reflexivity.
  - apply direct_drive_rtc, small_schedule_ok.
  - split; [|split; [vm_compute; reflexivity|reflexivity]].
    intros p Hp. assert (p = 0 \/ p = 1) as [->| ->] by (unfold Direct.is_pe in Hp; lia); vm_compute; reflexivity.
Qed.
