(* ===== verification/FlagAlltoall.v ===== *)
(** * All-to-all with one flag per peer

    The all-to-all variants in which each thread serves some peers: it puts the
    block of a peer, adds one to a flag there, waits for the flag of the peer and
    clears it (src/ipc/context_ipc_tmpl_device.hpp,
    src/ipc/context_ipc_tmpl_device_das.hpp, src/ipc/context_ipc_device_coll.cpp,
    src/gda/context_gda_device_coll.cpp, src/gda/context_gda_tmpl_device.hpp).
    There is no barrier: two halves of the flag array are used in turn, by the
    parity of a sequence number of the team.  The variants over network cards post
    their puts and flags to queue pairs; here are the accesses that they and the
    cards make, and [GdaAlltoall] models the posting and derives correctness.

    A work-group is a list of stages that [__syncthreads] separates, a stage a list
    of threads, and a thread a list of accesses to memory, which are interleaved in
    any order with those of the other threads and PEs.  The correctness theorems
    are about any code with the order of accesses that [flag_code] states; the
    variants are shown to be such code.

    PEs are named by their rank in the team.  A put takes two accesses, between
    which the block has arbitrary contents.  The sequence number is an integer: its
    parity is that of the [uint64_t] of the source. *)

From Stdlib Require Import ZArith Lia.
From stdpp Require Import base option numbers list relations.
From S2P Require Import Prelude.

(** ** Accesses *)

(** [Put q] and [PutEnd q]: the block of peer [q] is put.  [Add q i]: one is added
    to flag [i] of peer [q].  [Signal q i v]: flag [i] of peer [q] is set.
    [Wait i v]: the own flag [i] is awaited to be [v].  [Store i v]: it is set.
    [Bump]: the sequence number is incremented.  [Copy q]: the block of peer [q]
    is copied from the staging buffer. *)
Inductive op :=
  | Put (q : Z)
  | PutEnd (q : Z)
  | Add (q i : Z)
  | Signal (q i v : Z)
  | Wait (i v : Z)
  | Store (i v : Z)
  | Bump
  | Copy (q : Z).

#[export] Instance op_eq_dec : EqDecision op.
Proof. solve_decision. Defined.

Inductive buffer := Dst (n : nat) | Tmp.

#[export] Instance buffer_eq_dec : EqDecision buffer.
Proof. solve_decision. Defined.

Section machine.
Context {T : Type}.

(** One call: the elements of a block and the range of it that the call sends, what
    each PE sends to each peer (sender, receiver, index), the distance of two slots
    of the staging buffer if blocks are put there, and the code of a PE for a value
    of its sequence number. *)
Record call := mkCall {
  nelems : Z;
  elem_offset : Z;
  elem_count : Z;
  source : Z -> Z -> Z -> T;
  staging : option Z;
  code : Z -> Z -> list (list (list op))
}.

Context (calls : list call).

Inductive counter :=
  | Out (n : nat)
  | In (n : nat) (threads : list (list op)) (stages : list (list (list op))).

Record state := mkState {
  mem : buffer -> Z -> Z -> T;
  pSync : Z -> Z -> Z;
  alltoall_sequence_number : Z -> Z;
  pc : Z -> counter
}.

(** ** One step *)

Definition goto (me : Z) (k : counter) (s : state) : state :=
  mkState (mem s) (pSync s) (alltoall_sequence_number s) (upd (pc s) me k).

Definition set_mem (b : buffer) (q lo len : Z) (f : Z -> T) (s : state) : state :=
  mkState (fun b' => if decide (b' = b) then write (mem s b) q lo len f else mem s b')
    (pSync s) (alltoall_sequence_number s) (pc s).

Definition set_flag (q i v : Z) (s : state) : state :=
  mkState (mem s) (write (pSync s) q i 1 (fun _ => v)) (alltoall_sequence_number s) (pc s).

Definition bump (me : Z) (s : state) : state :=
  mkState (mem s) (pSync s) (upd (alltoall_sequence_number s) me (alltoall_sequence_number s me + 1)) (pc s).

(** Where the block of PE [me] goes. *)
Definition put_block (c : call) (n : nat) (me q : Z) (f : Z -> T) (s : state) : state :=
  match staging c with
  | None => set_mem (Dst n) q (me * nelems c + elem_offset c) (elem_count c) f s
  | Some pitch => set_mem Tmp q (me * pitch) (elem_count c) f s
  end.

Definition exec_op (junk : Z -> T) (c : call) (n : nat) (me : Z) (o : op) (s : state) : option state :=
  match o with
  | Put q => Some (put_block c n me q junk s)
  | PutEnd q => Some (put_block c n me q (fun x => source c me q (elem_offset c + x)) s)
  | Add q i => Some (set_flag q i (pSync s q i + 1) s)
  | Signal q i v => Some (set_flag q i v s)
  | Wait i v => if pSync s me i =? v then Some s else None
  | Store i v => Some (set_flag me i v s)
  | Bump => Some (bump me s)
  | Copy q =>
      Some (set_mem (Dst n) me (q * nelems c + elem_offset c) (elem_count c)
        (fun x => mem s Tmp me (q * default (nelems c) (staging c) + x)) s)
  end.

Definition all_empty (l : list (list op)) : bool := forallb (fun r => match r with [] => true | _ => false end) l.

(** The next stage, or the return from the call. *)
Definition next_stage (n : nat) (stages : list (list (list op))) : counter :=
  match stages with [] => Out (S n) | th :: st => In n th st end.

(** One step of thread [t] of PE [me], or of the PE as a whole between stages. *)
Definition exec (junk : Z -> T) (me : Z) (t : nat) (s : state) : option state :=
  match pc s me with
  | Out n =>
      match calls !! n with
      | None => None
      | Some c => Some (goto me (next_stage n (code c (alltoall_sequence_number s me) me)) s)
      end
  | In n threads stages =>
      match calls !! n with
      | None => None
      | Some c =>
          if all_empty threads then Some (goto me (next_stage n stages) s)
          else match threads !! t with
               | Some (o :: r) =>
                   s' ← exec_op junk c n me o s; Some (goto me (In n (<[t := r]> threads) stages) s')
               | _ => None
               end
      end
  end.

Context (PE_size : Z).

Definition is_pe (p : Z) : Prop := 0 <= p < PE_size.

Inductive step (s : state) : state -> Prop :=
  | step_thread junk p t s' : is_pe p -> exec junk p t s = Some s' -> step s s'.

(** Before the first call all flags are clear. *)
Definition initial (s : state) : Prop :=
  forall p, is_pe p -> pc s p = Out 0 /\ alltoall_sequence_number s p = 0 /\ forall i, pSync s p i = 0.

Definition finished (s : state) : Prop := forall p, is_pe p -> pc s p = Out (length calls).

(** ** The order of accesses *)

(** Offset of the flags of a call. *)
Definition alltoall_pSync_offset (n : Z) : Z := n mod 2 * PE_size.

(** The access that has to come later. *)
Definition needs (off me : Z) (o : op) : option op :=
  match o with
  | Put q => Some (PutEnd q)
  | PutEnd q => Some (Add q (off + me))
  | Wait i _ => Some (Store i 0)
  | _ => None
  end.

(** Puts before their flag, waits before the clearing, no flag raised after a wait. *)
Fixpoint ordered (off me : Z) (r : list op) : Prop :=
  match r with
  | [] => True
  | o :: r' =>
      match needs off me o with Some o' => o' ∈ r' | None => True end /\
      match o with Wait _ _ => forall q i, Add q i ∉ r' | _ => True end /\
      ordered off me r'
  end.

Definition valid (off me : Z) (o : op) : Prop :=
  match o with
  | Put q | PutEnd q => is_pe q
  | Add q i => is_pe q /\ i = off + me
  | Wait i v => v = 1 /\ exists q, is_pe q /\ i = off + q
  | Store i v => v = 0 /\ exists q, is_pe q /\ i = off + q
  | Bump => True
  | _ => False
  end.

Record flag_threads (n me : Z) (l : list (list op)) : Prop := {
  ft_ordered : Forall (ordered (alltoall_pSync_offset n) me) l;
  ft_nodup : NoDup (concat l);
  ft_valid : Forall (valid (alltoall_pSync_offset n) me) (concat l)
}.

(** Code that serves every peer once, in one stage. *)
Definition flag_code (f : Z -> Z -> list (list (list op))) : Prop :=
  forall n me, 0 <= n -> is_pe me -> exists l, f n me = [l] /\ flag_threads n me l /\ Bump ∈ concat l /\
    forall q, is_pe q -> PutEnd q ∈ concat l /\ Add q (alltoall_pSync_offset n + me) ∈ concat l /\
      Wait (alltoall_pSync_offset n + q) 1 ∈ concat l /\ Store (alltoall_pSync_offset n + q) 0 ∈ concat l.

(** ** Progress of a PE *)

Definition rest (k : counter) : list op := match k with Out _ => [] | In _ l _ => concat l end.

Definition round (k : counter) : Z := match k with Out n | In n _ _ => Z.of_nat n end.

(** [1] once a PE in a call has made access [o]. *)
Definition made (k : counter) (o : op) : Z :=
  match k with Out _ => 0 | In _ l _ => if decide (o ∈ concat l) then 0 else 1 end.

(** Flags that PE [me] has raised at [q], and flags of [p] that a PE has cleared. *)
Definition sentn (k : counter) (me q : Z) : Z := round k + made k (Add q (alltoall_pSync_offset (round k) + me)).

Definition clearedn (k : counter) (p : Z) : Z := round k + made k (Store (alltoall_pSync_offset (round k) + p) 0).

(** Calls below [n] whose flags are in half [b]. *)
Definition half (b n : Z) : Z := (n + 1 - b) / 2.

(** ** Invariant *)

Hypothesis PE_size_pos : 0 < PE_size.
Definition call_fits (c : call) : Prop := 0 <= elem_offset c /\ elem_offset c + elem_count c <= nelems c.

Hypothesis calls_ok : Forall (fun c => flag_code (code c) /\ staging c = None /\ call_fits c) calls.

Definition pc_ok (me : Z) (k : counter) : Prop :=
  match k with
  | Out n => (n <= length calls)%nat
  | In n l stages => stages = [] /\ is_Some (calls !! n) /\ flag_threads (Z.of_nat n) me l
  end.

(** PE [me] has put its block of call [n] to [q]. *)
Definition has_put (k : counter) (n : nat) (q : Z) : Prop :=
  match k with
  | Out m => (n < m)%nat
  | In m l _ => (n < m)%nat \/ n = m /\ PutEnd q ∉ concat l
  end.

Record inv (s : state) : Prop := {
  v_pc : forall p, is_pe p -> pc_ok p (pc s p);
  v_seq : forall p, is_pe p -> alltoall_sequence_number s p = round (pc s p) + made (pc s p) Bump;
  v_flag : forall p q b, is_pe p -> is_pe q -> 0 <= b < 2 ->
    pSync s q (b * PE_size + p) = half b (sentn (pc s p) p q) - half b (clearedn (pc s q) p);
  v_seen : forall p q, is_pe p -> is_pe q ->
    round (pc s q) + made (pc s q) (Wait (alltoall_pSync_offset (round (pc s q)) + p) 1) <= sentn (pc s p) p q;
  v_data : forall p q n c x, is_pe p -> is_pe q -> calls !! n = Some c -> elem_offset c <= x < elem_offset c + elem_count c ->
    has_put (pc s p) n q -> mem s (Dst n) q (p * nelems c + x) = source c p q x
}.

(** ** Lists of threads *)

Lemma concat_pop (l : list (list op)) t o r :
  l !! t = Some (o :: r) -> concat l ≡ₚ o :: concat (<[t := r]> l).
Proof.
  intros Ht. rewrite <- (take_drop_middle l t (o :: r) Ht) at 1.
  assert (Hlt : (t < length l)%nat) by (by eapply lookup_lt_Some).
  rewrite insert_take_drop by done. rewrite !concat_app. cbn. symmetry. apply Permutation_middle.
Qed.

Lemma in_pop (l : list (list op)) t o r o' :
  l !! t = Some (o :: r) -> NoDup (concat l) -> o' ∈ concat (<[t := r]> l) <-> o' ∈ concat l /\ o' <> o.
Proof.
  intros Ht Hnd. pose proof (concat_pop l t o r Ht) as Hp. rewrite Hp in Hnd. apply NoDup_cons in Hnd as [Hn _].
  rewrite (elem_of_Permutation_proper o' _ _ Hp), elem_of_cons. split.
  - intros Hin. split; [by right|]. by intros ->.
  - intros [[->|Hin] Hne]; done.
Qed.

Lemma ordered_needs off me r o o' : ordered off me r -> o ∈ r -> needs off me o = Some o' -> o' ∈ r.
Proof.
  induction r as [|a r IH]; [by intros _ ?%elem_of_nil|]. intros (Hn & _ & Ho) [->|Hin]%elem_of_cons Hne.
  - rewrite Hne in Hn. by right.
  - right. by apply IH.
Qed.

Lemma threads_need off me l o o' :
  Forall (ordered off me) l -> o ∈ concat l -> needs off me o = Some o' -> o' ∈ concat l.
Proof.
  intros Hl Hin Hn. apply list_elem_of_In, in_concat in Hin as (r & Hr%list_elem_of_In & Ho%list_elem_of_In).
  rewrite Forall_forall in Hl. apply list_elem_of_In, in_concat. exists r. split; [by apply list_elem_of_In|].
  apply list_elem_of_In. eapply ordered_needs; [by apply Hl|done|done].
Qed.

Lemma pop_threads n me l t o r :
  flag_threads n me l -> l !! t = Some (o :: r) -> flag_threads n me (<[t := r]> l).
Proof.
  intros [Ho Hn Hv] Ht. pose proof (concat_pop l t o r Ht) as Hp. split.
  - apply Forall_insert; [done|]. by destruct (proj1 (Forall_lookup _ _) Ho t _ Ht) as (_ & _ & ?).
  - rewrite Hp in Hn. by apply NoDup_cons in Hn as [_ ?].
  - rewrite Hp in Hv. by apply Forall_cons in Hv as [_ ?].
Qed.

(** What has to come before an access has been made when a thread gets to it. *)
Lemma before_made n me l t o o' r :
  flag_threads n me l -> l !! t = Some (o' :: r) -> needs (alltoall_pSync_offset n) me o = Some o' -> o ∉ concat l.
Proof.
  intros Hf Ht Hn Hin. pose proof (pop_threads n me l t o' r Hf Ht) as Hf'.
  assert (Hne : o <> o') by (intros ->; by destruct o'; simplify_eq).
  assert (o' ∈ concat (<[t := r]> l)) as [_ Hbad]%(in_pop l t o' r o' Ht (ft_nodup _ _ _ Hf)); [|done].
  eapply threads_need; [apply (ft_ordered _ _ _ Hf')| |done].
  apply (in_pop l t o' r o Ht (ft_nodup _ _ _ Hf)). done.
Qed.

(** ** Consequences of the invariant *)

Lemma made_range k o : 0 <= made k o <= 1.
Proof. unfold made. destruct k; [lia|]. case_decide; lia. Qed.

Lemma made_pop n l t o r st o' : l !! t = Some (o :: r) -> NoDup (concat l) ->
  made (In n (<[t := r]> l) st) o' = if decide (o' = o) then 1 else made (In n l st) o'.
Proof.
  intros Ht Hnd. unfold made. pose proof (in_pop l t o r o' Ht Hnd) as Hin.
  repeat case_decide; try done; naive_solver.
Qed.

Lemma made_head n l t o r st : l !! t = Some (o :: r) -> made (In n l st) o = 0.
Proof.
  intros Ht. unfold made. rewrite decide_True; [done|]. rewrite (elem_of_Permutation_proper o _ _ (concat_pop l t o r Ht)). by left.
Qed.

(** A flag is raised at most two calls ahead of its clearing. *)
Lemma flag_window s p q : inv s -> is_pe p -> is_pe q ->
  clearedn (pc s q) p <= sentn (pc s p) p q <= clearedn (pc s q) p + 2.
Proof.
  intros Hi Hp Hq. pose proof (v_seen s Hi p q Hp Hq) as Hs. pose proof (v_seen s Hi q p Hq Hp) as Hs'. split.
  - etransitivity; [|exact Hs]. unfold clearedn. pose proof (v_pc s Hi q Hq) as Hok.
    destruct (pc s q) as [m|m l st]; cbn [made round] in *; [lia|]. destruct Hok as (_ & _ & Hf).
    destruct (decide (Store _ _ ∈ _)) as [|Hn]; [case_decide; lia|]. case_decide as Hw; [|lia].
    exfalso. apply Hn. eapply threads_need; [apply (ft_ordered _ _ _ Hf)|done|done].
  - unfold clearedn, sentn in *. pose proof (made_range (pc s q)) as H1. pose proof (made_range (pc s p)) as H2.
    pose proof (H1 (Store (alltoall_pSync_offset (round (pc s q)) + p) 0)).
    pose proof (H1 (Add p (alltoall_pSync_offset (round (pc s q)) + q))).
    pose proof (H2 (Add q (alltoall_pSync_offset (round (pc s p)) + p))).
    pose proof (H2 (Wait (alltoall_pSync_offset (round (pc s p)) + q) 1)). lia.
Qed.

Lemma half_window b m k : 0 <= b < 2 -> 0 <= m -> m <= k <= m + 2 ->
  half b k - half b m = if decide (b = m mod 2) then (if decide (k = m) then 0 else 1) else (if decide (k = m + 2) then 1 else 0).
Proof.
  intros Hb Hm Hk. unfold half. repeat case_decide; Z.to_euclidean_division_equations; lia.
Qed.

(** ** Steps *)

Lemma in_code s p n l st : inv s -> is_pe p -> pc s p = In n l st ->
  st = [] /\ is_Some (calls !! n) /\ flag_threads (Z.of_nat n) p l.
Proof. intros Hi Hp Hpc. pose proof (v_pc s Hi p Hp) as H. by rewrite Hpc in H. Qed.

(** A step that raises or clears no flag. *)
Lemma pop_quiet s s' p n l t o r :
  inv s -> is_pe p -> pc s p = In n l [] -> l !! t = Some (o :: r) ->
  pc s' = upd (pc s) p (In n (<[t := r]> l) []) -> pSync s' = pSync s ->
  (forall q i, o <> Add q i) -> (forall i v, o <> Store i v) ->
  (forall q, is_pe q -> alltoall_sequence_number s' q = round (pc s' q) + made (pc s' q) Bump) ->
  (forall q, is_pe q -> o = Wait (alltoall_pSync_offset (Z.of_nat n) + q) 1 -> Z.of_nat n + 1 <= sentn (pc s q) q p) ->
  (forall p' q m c x, is_pe p' -> is_pe q -> calls !! m = Some c -> elem_offset c <= x < elem_offset c + elem_count c ->
    has_put (pc s' p') m q -> mem s' (Dst m) q (p' * nelems c + x) = source c p' q x) ->
  inv s'.
Proof.
  intros Hi Hp Hpc Ht Hpc' Hsy Hna Hns Hseq Hw Hd. destruct (in_code s p n l [] Hi Hp Hpc) as (_ & Hca & Hf).
  pose proof (ft_nodup _ _ _ Hf) as Hnd. set (k' := In n (<[t := r]> l) []) in *.
  assert (Hsent : forall p' q, sentn (upd (pc s) p k' p') p' q = sentn (pc s p') p' q).
  { intros p' q. unfold upd. destruct (Z.eqb_spec p' p) as [->|]; [|done]. unfold k', sentn. rewrite Hpc. cbn [round].
    rewrite (made_pop n l t o r) by done. rewrite decide_False; [done|]. by intros E; eapply Hna. }
  assert (Hclr : forall q p', clearedn (upd (pc s) p k' q) p' = clearedn (pc s q) p').
  { intros q p'. unfold upd. destruct (Z.eqb_spec q p) as [->|]; [|done]. unfold k', clearedn. rewrite Hpc. cbn [round].
    rewrite (made_pop n l t o r) by done. rewrite decide_False; [done|]. by intros E; eapply Hns. }
  split; rewrite ?Hpc', ?Hsy.
  - intros q Hq. unfold upd. destruct (Z.eqb_spec q p) as [->|]; [|by apply Hi]. split; [done|]. split; [done|]. by eapply pop_threads.
  - rewrite <- Hpc'. exact Hseq.
  - intros p' q b Hp' Hq Hb. rewrite Hsent, Hclr. by apply Hi.
  - intros p' q Hp' Hq. rewrite Hsent. unfold upd. destruct (Z.eqb_spec q p) as [->|]; [|by apply Hi].
    pose proof (v_seen s Hi p' p Hp' Hp) as H. rewrite Hpc in H. unfold k'. cbn [round] in *.
    rewrite (made_pop n l t o r) by done. case_decide; [|done]. by apply Hw.
  - rewrite <- Hpc'. exact Hd.
Qed.

Lemma half_S b n : 0 <= b < 2 -> 0 <= n -> half b (n + 1) = half b n + if decide (b = n mod 2) then 1 else 0.
Proof. intros Hb Hn. unfold half. case_decide; Z.to_euclidean_division_equations; lia. Qed.

Lemma flag_index b n p q : 0 <= b < 2 -> is_pe p -> is_pe q ->
  b * PE_size + p = alltoall_pSync_offset n + q -> b = n mod 2 /\ p = q.
Proof.
  unfold is_pe, alltoall_pSync_offset. intros Hb Hp Hq He. pose proof (Z.mod_pos_bound n 2 ltac:(lia)).
  assert (b = n mod 2) by nia. split; [done|nia].
Qed.

Lemma sent_pop (kk : Z -> counter) p n l t o r p' q :
  kk p = In n l [] -> l !! t = Some (o :: r) -> NoDup (concat l) ->
  sentn (upd kk p (In n (<[t := r]> l) []) p') p' q =
  sentn (kk p') p' q + if decide (p' = p /\ o = Add q (alltoall_pSync_offset (Z.of_nat n) + p)) then 1 else 0.
Proof.
  intros Hpc Ht Hnd. unfold upd. destruct (Z.eqb_spec p' p) as [->|Hne]; [|rewrite decide_False by naive_solver; lia].
  unfold sentn. rewrite Hpc. cbn [round]. rewrite (made_pop n l t o r) by done. repeat case_decide; try naive_solver; try lia.
  subst o. rewrite (made_head n l t _ r [] Ht). lia.
Qed.

Lemma cleared_pop (kk : Z -> counter) p n l t o r q p' :
  kk p = In n l [] -> l !! t = Some (o :: r) -> NoDup (concat l) ->
  clearedn (upd kk p (In n (<[t := r]> l) []) q) p' =
  clearedn (kk q) p' + if decide (q = p /\ o = Store (alltoall_pSync_offset (Z.of_nat n) + p') 0) then 1 else 0.
Proof.
  intros Hpc Ht Hnd. unfold upd. destruct (Z.eqb_spec q p) as [->|Hne]; [|rewrite decide_False by naive_solver; lia].
  unfold clearedn. rewrite Hpc. cbn [round]. rewrite (made_pop n l t o r) by done. repeat case_decide; try naive_solver; try lia.
  subst o. rewrite (made_head n l t _ r [] Ht). lia.
Qed.

(** A step that writes a flag. *)
Lemma pop_flag s p n l t o r q i v :
  inv s -> is_pe p -> pc s p = In n l [] -> l !! t = Some (o :: r) ->
  o <> Bump -> (forall q, o <> PutEnd q) -> (forall i v, o <> Wait i v) ->
  let k' := In n (<[t := r]> l) [] in
  (forall p' q' b, is_pe p' -> is_pe q' -> 0 <= b < 2 ->
    write (pSync s) q i 1 (fun _ => v) q' (b * PE_size + p') =
    half b (sentn (upd (pc s) p k' p') p' q') - half b (clearedn (upd (pc s) p k' q') p')) ->
  inv (goto p k' (set_flag q i v s)).
Proof.
  intros Hi Hp Hpc Ht Hnb Hnp Hnw k' Hfl. destruct (in_code s p n l [] Hi Hp Hpc) as (_ & Hca & Hf).
  pose proof (ft_nodup _ _ _ Hf) as Hnd. split; cbn [goto set_flag pc pSync mem alltoall_sequence_number].
  - intros q' Hq'. unfold upd. destruct (Z.eqb_spec q' p) as [->|]; [|by apply Hi]. split; [done|]. split; [done|]. by eapply pop_threads.
  - intros q' Hq'. rewrite (v_seq s Hi q' Hq'). unfold upd. destruct (Z.eqb_spec q' p) as [->|]; [|done].
    rewrite Hpc. unfold k'. rewrite (made_pop n l t o r) by done. by rewrite decide_False.
  - exact Hfl.
  - intros p' q' Hp' Hq'. pose proof (v_seen s Hi p' q' Hp' Hq') as H. unfold k'. rewrite (sent_pop (pc s) p n l t o r p' q') by done.
    unfold upd. destruct (Z.eqb_spec q' p) as [->|]; [|case_decide; lia].
    rewrite Hpc in H. cbn [round] in *. rewrite (made_pop n l t o r) by done. rewrite decide_False by done. case_decide; lia.
  - intros p' q' m c x Hp' Hq' Hc Hx Hput. apply (v_data s Hi p' q' m c x Hp' Hq' Hc Hx). unfold upd in Hput.
    destruct (Z.eqb_spec p' p) as [->|]; [|done]. rewrite Hpc. cbn in *. destruct Hput as [|[-> Hn]]; [by left|right]. split; [done|].
    rewrite (in_pop l t o r) in Hn by done. intros Hin. apply Hn. split; [done|]. intros <-. by eapply Hnp.
Qed.

Lemma pop_add s p n l t q r :
  inv s -> is_pe p -> is_pe q -> pc s p = In n l [] ->
  let i := alltoall_pSync_offset (Z.of_nat n) + p in
  l !! t = Some (Add q i :: r) -> inv (goto p (In n (<[t := r]> l) []) (set_flag q i (pSync s q i + 1) s)).
Proof.
  intros Hi Hp Hq Hpc i Ht. apply (pop_flag s p n l t (Add q i) r); try done.
  destruct (in_code s p n l [] Hi Hp Hpc) as (_ & _ & Hf). pose proof (ft_nodup _ _ _ Hf) as Hnd.
  intros p' q' b Hp' Hq' Hb. rewrite write_flag.
  rewrite (sent_pop (pc s) p n l t (Add q i) r p' q') by done. rewrite (cleared_pop (pc s) p n l t (Add q i) r q' p') by done.
  rewrite (decide_False (P := q' = p /\ _)) by naive_solver. rewrite Z.add_0_r.
  assert (Hsn : sentn (pc s p) p q = Z.of_nat n).
  { unfold sentn. rewrite Hpc. cbn [round]. fold i. rewrite (made_head n l t _ r [] Ht). lia. }
  pose proof (v_flag s Hi p' q' b Hp' Hq' Hb) as Hv. case_if.
  - apply andb_true_iff in E as [->%Z.eqb_eq He%Z.eqb_eq]. destruct (flag_index b (Z.of_nat n) p' p Hb Hp' Hp He) as [Hbn ->].
    rewrite decide_True by done. rewrite <- He, Hv.
    rewrite Hsn, half_S by lia. rewrite decide_True by done. lia.
  - rewrite Hv. case_decide as Hd; [|by rewrite Z.add_0_r]. destruct Hd as [-> [= <-]].
    rewrite Hsn, half_S by lia. rewrite decide_False; [lia|]. intros ->. rewrite Z.eqb_refl in E. cbn in E. unfold i, alltoall_pSync_offset in E. lia.
Qed.

Lemma pop_store s p n l t j r :
  inv s -> is_pe p -> is_pe j -> pc s p = In n l [] ->
  let i := alltoall_pSync_offset (Z.of_nat n) + j in
  l !! t = Some (Store i 0 :: r) -> inv (goto p (In n (<[t := r]> l) []) (set_flag p i 0 s)).
Proof.
  intros Hi Hp Hj Hpc i Ht. apply (pop_flag s p n l t (Store i 0) r); try done.
  destruct (in_code s p n l [] Hi Hp Hpc) as (_ & _ & Hf). pose proof (ft_nodup _ _ _ Hf) as Hnd.
  assert (Hcl : clearedn (pc s p) j = Z.of_nat n).
  { unfold clearedn. rewrite Hpc. cbn [round]. fold i. rewrite (made_head n l t _ r [] Ht). lia. }
  assert (Hse : Z.of_nat n + 1 <= sentn (pc s j) j p).
  { pose proof (v_seen s Hi j p Hj Hp) as H. rewrite Hpc in H. cbn [round] in H. unfold made in H at 1.
    rewrite decide_False in H; [lia|]. by eapply (before_made (Z.of_nat n) p l t _ (Store i 0) r). }
  pose proof (flag_window s j p Hi Hj Hp) as Hw. rewrite Hcl in Hw.
  intros p' q' b Hp' Hq' Hb. rewrite write_flag.
  rewrite (sent_pop (pc s) p n l t (Store i 0) r p' q') by done. rewrite (cleared_pop (pc s) p n l t (Store i 0) r q' p') by done.
  rewrite (decide_False (P := p' = p /\ _)) by naive_solver. rewrite Z.add_0_r.
  pose proof (v_flag s Hi p' q' b Hp' Hq' Hb) as Hv. case_if.
  - apply andb_true_iff in E as [->%Z.eqb_eq He%Z.eqb_eq]. destruct (flag_index b (Z.of_nat n) p' j Hb Hp' Hj He) as [Hbn ->].
    rewrite decide_True by done. rewrite Hcl. pose proof (half_window b (Z.of_nat n) (sentn (pc s j) j p) Hb ltac:(lia) Hw) as Hh.
    rewrite half_S by lia. rewrite decide_True in Hh by done. rewrite decide_False in Hh by lia. rewrite decide_True by done. lia.
  - rewrite Hv. case_decide as Hd; [|by rewrite Z.add_0_r]. destruct Hd as [-> [= He]].
    assert (p' = j) as -> by (unfold i in He; lia). rewrite Hcl.
    rewrite half_S by lia. rewrite decide_False; [lia|]. intros ->. rewrite Z.eqb_refl in E. cbn in E. unfold i, alltoall_pSync_offset in E. lia.
Qed.

(** A step that only changes the counter of one PE and keeps what it has done. *)
Lemma flag_goto s p k' :
  inv s -> is_pe p -> pc_ok p k' ->
  round k' + made k' Bump = round (pc s p) + made (pc s p) Bump ->
  (forall q, is_pe q -> sentn k' p q = sentn (pc s p) p q) ->
  (forall q, is_pe q -> clearedn k' q = clearedn (pc s p) q) ->
  (forall q, is_pe q -> round k' + made k' (Wait (alltoall_pSync_offset (round k') + q) 1) <= sentn (pc s q) q p) ->
  (forall m q, is_pe q -> has_put k' m q -> has_put (pc s p) m q) ->
  inv (goto p k' s).
Proof.
  intros Hi Hp Hok Hsq Hsn Hcl Hw Hput. split; cbn [goto pc pSync mem alltoall_sequence_number].
  - intros q Hq. unfold upd. destruct (Z.eqb_spec q p) as [->|]; [done|by apply Hi].
  - intros q Hq. rewrite (v_seq s Hi q Hq). unfold upd. destruct (Z.eqb_spec q p) as [->|]; done.
  - intros p' q b Hp' Hq Hb. rewrite (v_flag s Hi p' q b Hp' Hq Hb). unfold upd.
    destruct (Z.eqb_spec p' p) as [->|], (Z.eqb_spec q p) as [->|]; rewrite ?Hsn, ?Hcl by done; done.
  - intros p' q Hp' Hq. pose proof (v_seen s Hi p' q Hp' Hq) as H. unfold upd.
    destruct (Z.eqb_spec p' p) as [->|], (Z.eqb_spec q p) as [->|]; rewrite ?Hsn by done; try done; by apply Hw.
  - intros p' q m c x Hp' Hq Hc Hx. pose proof (v_data s Hi p' q m c x Hp' Hq Hc Hx) as H. unfold upd.
    destruct (Z.eqb_spec p' p) as [->|]; [|done]. intros Hh. by apply H, Hput.
Qed.

Lemma call_ok n c : calls !! n = Some c -> flag_code (code c) /\ staging c = None /\ call_fits c.
Proof. exact (proj1 (Forall_lookup _ _) calls_ok n c). Qed.

Lemma flag_enter s p n c :
  inv s -> is_pe p -> pc s p = Out n -> calls !! n = Some c ->
  inv (goto p (next_stage n (code c (alltoall_sequence_number s p) p)) s).
Proof.
  intros Hi Hp Hpc Hc. destruct (call_ok n c Hc) as [Hcode _].
  pose proof (v_seq s Hi p Hp) as Hsq. rewrite Hpc in Hsq. cbn in Hsq. rewrite Z.add_0_r in Hsq. rewrite Hsq.
  destruct (Hcode (Z.of_nat n) p ltac:(lia) Hp) as (l & -> & Hf & Hbump & Hall). cbn [next_stage].
  assert (Hm : forall o, o ∈ concat l -> made (In n l []) o = 0) by (intros o Ho; cbn; by rewrite decide_True).
  apply flag_goto; try done; rewrite ?Hpc.
  - rewrite Hm by done. done.
  - intros q Hq. unfold sentn. cbn [round]. rewrite Hm; [done|]. by apply Hall.
  - intros q Hq. unfold clearedn. cbn [round]. rewrite Hm; [done|]. by apply Hall.
  - intros q Hq. cbn [round]. rewrite Hm by by apply Hall. pose proof (v_seen s Hi q p Hq Hp) as H. rewrite Hpc in H. cbn in H. lia.
  - intros m q Hq [|[-> Hn]]; [done|]. exfalso. apply Hn. by apply Hall.
Qed.

Lemma all_empty_concat l : all_empty l = true -> concat l = [].
Proof.
  unfold all_empty. rewrite forallb_forall. intros H. induction l as [|r l IH]; [done|]. cbn.
  pose proof (H r ltac:(by left)) as Hr. destruct r; [|done]. apply IH. intros x Hx. apply H. by right.
Qed.

Lemma flag_leave s p n l :
  inv s -> is_pe p -> pc s p = In n l [] -> concat l = [] -> inv (goto p (Out (S n)) s).
Proof.
  intros Hi Hp Hpc He. destruct (in_code s p n l [] Hi Hp Hpc) as (_ & [c Hc] & Hf).
  assert (Hm : forall o, made (pc s p) o = 1).
  { intros o. rewrite Hpc. cbn. rewrite He, decide_False; [done|]. by intros ?%elem_of_nil. }
  apply flag_goto; try done.
  - cbn. by apply lookup_lt_Some in Hc.
  - rewrite Hm, Hpc. cbn [round made]. lia.
  - intros q Hq. unfold sentn. rewrite Hm, Hpc. cbn [round made]. lia.
  - intros q Hq. unfold clearedn. rewrite Hm, Hpc. cbn [round made]. lia.
  - intros q Hq. pose proof (v_seen s Hi q p Hq Hp) as H. rewrite Hm, Hpc in H. cbn [round made] in *. lia.
  - intros m q Hq Hlt. rewrite Hpc. cbn in *. rewrite He. destruct (decide (m = n)) as [->|]; [right|left; lia].
    split; [done|]. by intros ?%elem_of_nil.
Qed.

Lemma block_apart p p' c x : p <> p' -> call_fits c -> elem_offset c <= x < elem_offset c + elem_count c ->
  (p * nelems c + elem_offset c <=? p' * nelems c + x) &&
  (p' * nelems c + x <? p * nelems c + elem_offset c + elem_count c) = false.
Proof. unfold call_fits. intros Hne Hc Hx. apply andb_false_iff. assert (p < p' \/ p' < p) as [|] by lia; [right|left]; nia. Qed.

Lemma pop_put s p n l t o q r c f :
  inv s -> is_pe p -> is_pe q -> pc s p = In n l [] -> l !! t = Some (o :: r) -> calls !! n = Some c ->
  (o = Put q \/ o = PutEnd q /\ f = fun x => source c p q (elem_offset c + x)) ->
  inv (goto p (In n (<[t := r]> l) []) (put_block c n p q f s)).
Proof.
  intros Hi Hp Hq Hpc Ht Hc Ho. destruct (in_code s p n l [] Hi Hp Hpc) as (_ & _ & Hf).
  pose proof (ft_nodup _ _ _ Hf) as Hnd. unfold put_block. destruct (call_ok n c Hc) as (_ & -> & Hfit).
  eapply (pop_quiet s _ p n l t o r Hi Hp Hpc Ht); try done; try (destruct Ho as [->|[-> _]]; done).
  - intros q' Hq'. cbn [goto set_mem pc alltoall_sequence_number]. rewrite (v_seq s Hi q' Hq'). unfold upd.
    destruct (Z.eqb_spec q' p) as [->|]; [|done]. rewrite Hpc, (made_pop n l t o r) by done.
    rewrite decide_False; [done|]. by destruct Ho as [->|[-> _]].
  - cbn [goto set_mem pc mem]. intros p' q' m c' x Hp' Hq' Hc' Hx Hput.
    pose proof (v_data s Hi p' q' m c' x Hp' Hq' Hc' Hx) as Hd. unfold upd in Hput.
    assert (Hold : p' <> p \/ q' <> q \/ m <> n -> has_put (pc s p') m q').
    { intros Hne. destruct (Z.eqb_spec p' p) as [->|]; [|done]. rewrite Hpc. cbn in *.
      destruct Hput as [|[-> Hn]]; [by left|right]. split; [done|]. rewrite (in_pop l t o r) in Hn by done.
      intros Hin. apply Hn. split; [done|]. intros <-. destruct Ho as [|[[= ->] _]]; [done|]. naive_solver. }
    case_decide as Hm; [injection Hm as ->; simplify_eq|apply Hd, Hold; naive_solver].
    unfold write. destruct (Z.eqb_spec q' q) as [->|Hqq]; [|apply Hd, Hold; naive_solver].
    unfold overwrite. destruct (decide (p' = p)) as [->|Hpp]; [|rewrite block_apart by done; apply Hd, Hold; by left].
    rewrite Z.eqb_refl in Hput. cbn in Hput. destruct Hput as [|[_ Hn]]; [lia|].
    destruct Ho as [->|[-> ->]]; [|case_if; [f_equal; lia|exfalso; lia]].
    exfalso. apply Hn. apply (in_pop l t (Put q) r (PutEnd q) Ht Hnd). split; [|done].
    apply (threads_need _ p l (Put q) _ (ft_ordered _ _ _ Hf)); [|done].
    rewrite (elem_of_Permutation_proper _ _ _ (concat_pop l t _ r Ht)). by left.
Qed.

Lemma pop_bump s p n l t r :
  inv s -> is_pe p -> pc s p = In n l [] -> l !! t = Some (Bump :: r) -> inv (goto p (In n (<[t := r]> l) []) (bump p s)).
Proof.
  intros Hi Hp Hpc Ht. destruct (in_code s p n l [] Hi Hp Hpc) as (_ & _ & Hf). pose proof (ft_nodup _ _ _ Hf) as Hnd.
  eapply (pop_quiet s _ p n l t Bump r Hi Hp Hpc Ht); try done; cbn [goto bump pc mem alltoall_sequence_number].
  - intros q Hq. pose proof (v_seq s Hi q Hq) as H. unfold upd. destruct (Z.eqb_spec q p) as [->|]; [|done].
    rewrite H, Hpc, (made_pop n l t Bump r), (made_head n l t Bump r [] Ht) by done. rewrite decide_True by done. cbn [round]. lia.
  - intros p' q m c x Hp' Hq Hc Hx Hput. apply (v_data s Hi p' q m c x Hp' Hq Hc Hx). unfold upd in Hput.
    destruct (Z.eqb_spec p' p) as [->|]; [|done]. rewrite Hpc. cbn in *. destruct Hput as [|[-> Hn]]; [by left|right].
    split; [done|]. rewrite (in_pop l t Bump r) in Hn by done. naive_solver.
Qed.

Lemma pop_wait s p n l t j r :
  inv s -> is_pe p -> is_pe j -> pc s p = In n l [] ->
  let i := alltoall_pSync_offset (Z.of_nat n) + j in
  l !! t = Some (Wait i 1 :: r) -> pSync s p i = 1 -> inv (goto p (In n (<[t := r]> l) []) s).
Proof.
  intros Hi Hp Hj Hpc i Ht Hfl. destruct (in_code s p n l [] Hi Hp Hpc) as (_ & _ & Hf). pose proof (ft_nodup _ _ _ Hf) as Hnd.
  assert (Hst : made (pc s p) (Store i 0) = 0).
  { rewrite Hpc. cbn. rewrite decide_True; [done|]. apply (threads_need _ p l (Wait i 1) _ (ft_ordered _ _ _ Hf)); [|reflexivity].
    rewrite (elem_of_Permutation_proper _ _ _ (concat_pop l t _ r Ht)). by left. }
  eapply (pop_quiet s _ p n l t (Wait i 1) r Hi Hp Hpc Ht); try done; cbn [goto pc mem alltoall_sequence_number].
  - intros q Hq. rewrite (v_seq s Hi q Hq). unfold upd. destruct (Z.eqb_spec q p) as [->|]; [|done].
    rewrite Hpc, (made_pop n l t (Wait i 1) r) by done. by rewrite decide_False.
  - intros q Hq [= He]. assert (q = j) as -> by (unfold i in He; lia).
    pose proof (v_flag s Hi j p (Z.of_nat n mod 2) Hj Hp (Z.mod_pos_bound _ 2 ltac:(lia))) as Hv.
    pose proof (flag_window s j p Hi Hj Hp) as Hw. unfold clearedn in Hv, Hw. rewrite Hpc in Hv, Hw. cbn [round] in Hv, Hw.
    fold i in Hv, Hw. rewrite Hpc in Hst. rewrite Hst, Z.add_0_r in Hv, Hw.
    rewrite half_window in Hv by (lia || apply Z.mod_pos_bound; lia). rewrite decide_True in Hv by done.
    change (Z.of_nat n mod 2 * PE_size + j) with i in Hv. case_decide; lia.
  - intros p' q m c x Hp' Hq Hc Hx Hput. apply (v_data s Hi p' q m c x Hp' Hq Hc Hx). unfold upd in Hput.
    destruct (Z.eqb_spec p' p) as [->|]; [|done]. rewrite Hpc. cbn in *. destruct Hput as [|[-> Hn]]; [by left|right].
    split; [done|]. rewrite (in_pop l t (Wait i 1) r) in Hn by done. naive_solver.
Qed.

Lemma flag_exec_inv junk p t s s' : inv s -> is_pe p -> exec junk p t s = Some s' -> inv s'.
Proof.
  intros Hi Hp. unfold exec. destruct (pc s p) as [n|n l st] eqn:Hpc.
  - destruct (calls !! n) as [c|] eqn:Hc; [|done]. intros [= <-]. by apply flag_enter.
  - destruct (in_code s p n l st Hi Hp Hpc) as (-> & _ & Hf). destruct (calls !! n) as [c|] eqn:Hc; [|done].
    destruct (all_empty l) eqn:He; [intros [= <-]; apply (flag_leave s p n l); try done; by apply all_empty_concat|].
    destruct (l !! t) as [[|o r]|] eqn:Ht; try done. destruct (exec_op junk c n p o s) as [s1|] eqn:Hx; [|done]. intros [= <-].
    assert (Hv : valid (alltoall_pSync_offset (Z.of_nat n)) p o).
    { pose proof (ft_valid _ _ _ Hf) as Hv. rewrite (concat_pop l t o r Ht) in Hv. by apply Forall_cons in Hv as [? _]. }
    destruct o; cbn in Hv, Hx; try done; simplify_eq.
    + by eapply pop_put; try done; left.
    + by eapply pop_put; try done; right.
    + destruct Hv as [Hq ->]. by apply pop_add.
    + destruct Hv as (-> & j & Hj & ->). case_if_in Hx; [|done]. injection Hx as <-. apply (pop_wait s p n l t j); try done. lia.
    + destruct Hv as (-> & j & Hj & ->). by apply (pop_store s p n l t j).
    + by apply pop_bump.
Qed.

Lemma flag_initial_inv s : initial s -> inv s.
Proof.
  intros H. assert (Hpc : forall p, is_pe p -> pc s p = Out 0) by (intros p Hp; apply (H p Hp)).
  split; intros p; intros.
  - rewrite Hpc by done. cbn. lia.
  - rewrite Hpc by done. destruct (H p ltac:(done)) as (_ & -> & _). done.
  - rewrite !Hpc by done. destruct (H q ltac:(done)) as (_ & _ & ->). unfold sentn, clearedn. cbn. lia.
  - rewrite !Hpc by done. done.
  - rewrite Hpc in * by done. cbn in *. lia.
Qed.

Lemma flag_reachable_inv s s' : initial s -> rtc step s s' -> inv s'.
Proof.
  intros H0 Hrun. refine (rtc_invariant step inv _ _ _ Hrun (flag_initial_inv s H0)).
  intros x y Hx [junk p t y' Hp He]. by eapply flag_exec_inv.
Qed.

(** The flag of a peer follows its block. *)
Lemma sent_has_put s p q n : inv s -> is_pe p -> is_pe q -> Z.of_nat n < sentn (pc s p) p q -> has_put (pc s p) n q.
Proof.
  intros Hi Hp Hq. pose proof (v_pc s Hi p Hp) as Hok. unfold sentn. destruct (pc s p) as [m|m l st]; cbn [round made has_put]; [lia|].
  destruct Hok as (_ & _ & Hf). case_decide as Ha; intros Hlt; [left; lia|].
  destruct (decide (n = m)) as [->|]; [right|left; lia]. split; [done|]. intros Hin. apply Ha.
  by apply (threads_need _ p l (PutEnd q) _ (ft_ordered _ _ _ Hf)).
Qed.

Lemma reachable_block s s' p q n m c x :
  initial s -> rtc step s s' -> is_pe p -> is_pe q -> pc s' q = Out n -> (m < n)%nat -> calls !! m = Some c ->
  elem_offset c <= x < elem_offset c + elem_count c -> mem s' (Dst m) q (p * nelems c + x) = source c p q x.
Proof.
  intros H0 Hrun Hp Hq Hpc Hlt Hc Hx. pose proof (flag_reachable_inv s s' H0 Hrun) as Hi.
  apply (v_data s' Hi p q m c x Hp Hq Hc Hx). apply sent_has_put; try done.
  pose proof (v_seen s' Hi p q Hp Hq) as H. rewrite Hpc in H. cbn [round made] in H. lia.
Qed.

(** ** Progress *)

(** The work left in a call, and that of all calls if none has more than [ops] accesses. *)
Definition flag_left (ops : Z) (k : counter) : Z :=
  match k with
  | Out n => (Z.of_nat (length calls) - Z.of_nat n) * (ops + 2)
  | In n l _ => (Z.of_nat (length calls) - Z.of_nat n - 1) * (ops + 2) + Z.of_nat (length (concat l)) + 1
  end.

(** A thread that has raised its flags is blocked only by a flag. *)
Lemma blocked_waits s p junk :
  inv s -> is_pe p -> pc s p <> Out (length calls) ->
  (exists t s', exec junk p t s = Some s') \/
  (exists n l j, pc s p = In n l [] /\ is_pe j /\ pSync s p (alltoall_pSync_offset (Z.of_nat n) + j) <> 1 /\
    made (pc s p) (Store (alltoall_pSync_offset (Z.of_nat n) + j) 0) = 0 /\
    forall q i, made (pc s p) (Add q i) = 1).
Proof.
  intros Hi Hp Hnf. pose proof (v_pc s Hi p Hp) as Hok. unfold exec. destruct (pc s p) as [n|n l st] eqn:Hpc.
  - left. exists 0%nat. cbn in Hok. destruct (lookup_lt_is_Some_2 calls n) as [c ->]; [|by eexists].
    destruct (decide (n = length calls)) as [->|]; [done|lia].
  - destruct Hok as (-> & [c Hc] & Hf). rewrite Hc. destruct (all_empty l) eqn:He; [left; exists 0%nat; by eexists|].
    apply forallb_false in He as (r0 & [t0 Ht0]%list_elem_of_lookup & Hne). destruct r0 as [|o0 r0]; [done|].
    set (stuck := fun r => match r with [] => true | o :: _ => match exec_op junk c n p o s with Some _ => false | None => true end end).
    destruct (forallb stuck l) eqn:Est.
    + right. rewrite forallb_forall in Est.
      assert (Hw : forall t o r, l !! t = Some (o :: r) -> exists j, is_pe j /\ o = Wait (alltoall_pSync_offset (Z.of_nat n) + j) 1 /\
        pSync s p (alltoall_pSync_offset (Z.of_nat n) + j) <> 1).
      { intros t o r Ht. pose proof (Est (o :: r)) as Hs. unfold stuck in Hs.
        specialize (Hs ltac:(apply list_elem_of_In; by eapply list_elem_of_lookup_2)).
        pose proof (ft_valid _ _ _ Hf) as Hv. rewrite (concat_pop l t o r Ht) in Hv. apply Forall_cons in Hv as [Hv _].
        destruct o; cbn in Hv, Hs; try done. destruct Hv as (-> & j & Hj & ->). exists j. split; [done|]. split; [done|]. case_if_in Hs; [done|lia]. }
      destruct (Hw t0 o0 r0 Ht0) as (j & Hj & -> & Hfl). exists n, l, j. split; [done|]. split; [done|]. split; [done|]. split.
      * cbn. rewrite decide_True; [done|]. apply (threads_need _ p l (Wait (alltoall_pSync_offset (Z.of_nat n) + j) 1) _ (ft_ordered _ _ _ Hf)); [|done].
        rewrite (elem_of_Permutation_proper _ _ _ (concat_pop l t0 _ r0 Ht0)). by left.
      * intros q i. cbn. rewrite decide_False; [done|]. intros Hin.
        apply list_elem_of_In, in_concat in Hin as (r & Hr%list_elem_of_In & Ho%list_elem_of_In).
        apply list_elem_of_lookup in Hr as [t Ht]. destruct r as [|o r]; [by apply elem_of_nil in Ho|].
        destruct (Hw t o r Ht) as (j' & _ & -> & _). apply elem_of_cons in Ho as [|Ho]; [done|].
        destruct (proj1 (Forall_lookup _ _) (ft_ordered _ _ _ Hf) t _ Ht) as (_ & Hna & _). by eapply Hna.
    + left. apply forallb_false in Est as (r & [t Ht]%list_elem_of_lookup & Hs). exists t. rewrite Ht. unfold stuck in Hs.
      destruct r as [|o r]; [done|]. destruct (exec_op junk c n p o s); [by eexists|done].
Qed.

Lemma flag_some_moves s junk : inv s -> forall p, is_pe p -> pc s p <> Out (length calls) ->
  exists q t s', is_pe q /\ exec junk q t s = Some s'.
Proof.
  intros Hi p. remember (Z.to_nat (round (pc s p))) as m eqn:Em. revert p Em.
  induction (lt_wf m) as [m _ IH]. intros p -> Hp Hnf.
  destruct (blocked_waits s p junk Hi Hp Hnf) as [(t & s' & He)|(n & l & j & Hpc & Hj & Hfl & Hst & _)]; [by exists p, t, s'|].
  assert (Hn : sentn (pc s j) j p = Z.of_nat n).
  { pose proof (v_flag s Hi j p (Z.of_nat n mod 2) Hj Hp (Z.mod_pos_bound _ 2 ltac:(lia))) as Hv.
    pose proof (flag_window s j p Hi Hj Hp) as Hw. unfold clearedn in Hv, Hw. rewrite Hpc in Hv, Hw, Hst. cbn [round] in Hv, Hw.
    rewrite Hst, Z.add_0_r in Hv, Hw. rewrite half_window in Hv by (lia || apply Z.mod_pos_bound; lia). rewrite decide_True in Hv by done.
    unfold alltoall_pSync_offset in Hfl. case_decide; [done|]. rewrite Hv in Hfl. done. }
  destruct (in_code s p n l [] Hi Hp Hpc) as (_ & [c Hc] & _). apply lookup_lt_Some in Hc as Hlen.
  assert (Hnfj : pc s j <> Out (length calls)).
  { intros E. rewrite E in Hn. unfold sentn in Hn. cbn in Hn. lia. }
  destruct (blocked_waits s j junk Hi Hj Hnfj) as [(t & s' & He)|(n' & l' & j' & Hpcj & _ & _ & _ & Hadd)]; [by exists j, t, s'|].
  apply (IH (Z.to_nat (round (pc s j)))) with (p := j); try done.
  unfold sentn in Hn. rewrite Hadd, Hpcj in Hn. rewrite Hpc, Hpcj. cbn [round] in *. lia.
Qed.

Lemma flag_exec_left ops junk p t s s' :
  (forall n c k q, calls !! n = Some c -> Z.of_nat (length (concat (concat (code c k q)))) <= ops) ->
  inv s -> is_pe p -> exec junk p t s = Some s' ->
  exists k', pc s' = upd (pc s) p k' /\ flag_left ops k' < flag_left ops (pc s p).
Proof.
  intros Hops Hi Hp. unfold exec. pose proof (v_seq s Hi p Hp) as Hsq. destruct (pc s p) as [n|n l st] eqn:Hpc.
  - destruct (calls !! n) as [c|] eqn:Hc; [|done]. intros [= <-]. eexists. split; [done|].
    destruct (call_ok n c Hc) as [Hcode _]. cbn in Hsq. rewrite Z.add_0_r in Hsq. rewrite Hsq.
    pose proof (Hops n c (Z.of_nat n) p Hc) as Hle.
    destruct (Hcode (Z.of_nat n) p ltac:(lia) Hp) as (l & E & _). rewrite E in Hle |- *. cbn in *. rewrite app_nil_r in Hle. lia.
  - destruct (in_code s p n l st Hi Hp Hpc) as (-> & _ & Hf). destruct (calls !! n) as [c|] eqn:Hc; [|done].
    destruct (all_empty l); [intros [= <-]; eexists; split; [done|]; cbn; lia|].
    destruct (l !! t) as [[|o r]|] eqn:Ht; try done. destruct (exec_op junk c n p o s) as [s1|] eqn:Hx; [|done]. intros [= <-].
    assert (Hpc1 : pc s1 = pc s).
    { destruct o; cbn in Hx; unfold put_block in Hx; try (destruct (staging c)); try case_if_in Hx; by simplify_eq. }
    eexists. cbn [goto pc]. rewrite Hpc1. split; [done|]. cbn. rewrite (Permutation_length (concat_pop l t o r Ht)). cbn. lia.
Qed.

Definition flag_run_left (ops : Z) (s : state) : Z := zsum (fun p => flag_left ops (pc s p)) (seqZ 0 PE_size).

Lemma flag_run_length ops n s s' :
  (forall n c k q, calls !! n = Some c -> Z.of_nat (length (concat (concat (code c k q)))) <= ops) ->
  inv s -> nsteps step n s s' -> Z.of_nat n + flag_run_left ops s' <= flag_run_left ops s.
Proof.
  intros Hops Hi Hn. induction Hn as [s|n s s1 s' Hs Hn IH]; [lia|]. destruct Hs as [junk p t s1 Hp He].
  specialize (IH ltac:(by eapply flag_exec_inv)).
  destruct (flag_exec_left ops junk p t s s1 Hops Hi Hp He) as (k' & Hk & Hlt).
  enough (flag_run_left ops s1 < flag_run_left ops s) by lia. unfold flag_run_left. rewrite Hk.
  rewrite (zsum_change _ (fun p => flag_left ops (pc s p)) _ p).
  - rewrite upd_eq. lia.
  - apply NoDup_seqZ.
  - apply elem_of_seqZ. unfold is_pe in Hp. lia.
  - intros x _ Hne. by rewrite upd_ne.
Qed.

Lemma flag_run_left_nonneg ops s : 0 <= ops -> inv s -> 0 <= flag_run_left ops s.
Proof.
  intros Hops Hi. apply zsum_nonneg. intros p Hp%elem_of_seqZ. pose proof (v_pc s Hi p ltac:(unfold is_pe; lia)) as Hok.
  unfold flag_left. destruct (pc s p) as [n|n l st]; cbn in Hok; [nia|]. destruct Hok as (_ & [c Hc] & _). apply lookup_lt_Some in Hc. nia.
Qed.

Lemma flag_finished_or s : finished s \/ exists p, is_pe p /\ pc s p <> Out (length calls).
Proof.
  set (fin := fun p => match pc s p with Out c => (c =? length calls)%nat | _ => false end).
  destruct (forallb fin (seqZ 0 PE_size)) eqn:E.
  - left. intros p Hp. rewrite forallb_forall in E. specialize (E p). unfold fin in E.
    rewrite <- list_elem_of_In, elem_of_seqZ in E. unfold is_pe in Hp. specialize (E ltac:(lia)).
    destruct (pc s p); [|done]. f_equal. by apply Nat.eqb_eq.
  - right. apply forallb_false in E as (p & Hp%elem_of_seqZ & Hf). exists p. split; [unfold is_pe; lia|].
    unfold fin in Hf. intros Heq. rewrite Heq, Nat.eqb_refl in Hf. done.
Qed.

Lemma flag_run_finishes s k s' (ops : Z) (junk : Z -> T) :
  0 <= ops -> (forall n c k q, calls !! n = Some c -> Z.of_nat (length (concat (concat (code c k q)))) <= ops) ->
  initial s -> nsteps step k s s' ->
  Z.of_nat k <= PE_size * (Z.of_nat (length calls) * (ops + 2)) /\
  (finished s' \/ exists p t s'', is_pe p /\ exec junk p t s' = Some s'').
Proof.
  intros Hops Hle H0 Hn. pose proof (flag_initial_inv s H0) as Hi0.
  assert (Hi : inv s') by (by eapply flag_reachable_inv, rtc_nsteps_2). split.
  - pose proof (flag_run_length ops k s s' Hle Hi0 Hn). pose proof (flag_run_left_nonneg ops s' Hops Hi).
    enough (flag_run_left ops s = PE_size * (Z.of_nat (length calls) * (ops + 2))) by lia. unfold flag_run_left.
    rewrite (zsum_ext _ (fun _ => Z.of_nat (length calls) * (ops + 2))), zsum_const.
    + rewrite length_seqZ. lia.
    + intros p Hp%elem_of_seqZ. destruct (H0 p ltac:(unfold is_pe; lia)) as [-> _]. cbn. lia.
  - destruct (flag_finished_or s') as [?|(p & Hp & Hnf)]; [by left|right]. by apply (flag_some_moves s' junk Hi p).
Qed.

End machine.

(** ** The code of the variants *)

Section threads.
Context (PE_size WF_SIZE block_size : Z).

Definition step_size : Z := Z.min block_size WF_SIZE.

(** The peers of the loop of thread [tid]. *)
Definition served (tid : Z) : list Z := filter (fun j => tid <= j /\ (j - tid) mod step_size = 0) (seqZ 0 PE_size).

Definition puts (l : list Z) : list op := l ≫= fun q => [Put q; PutEnd q].

Definition adds (i : Z) (l : list Z) : list op := (fun q => Add q i) <$> l.

Definition waits (off : Z) (l : list Z) : list op := l ≫= fun q => [Wait (off + q) 1; Store (off + q) 0].

Definition bump_if (tid : Z) : list op := if tid =? 0 then [Bump] else [].

(** A thread of the IPC variants: all puts, all flags, all waits. *)
Definition ipc_thread (off me tid : Z) : list op :=
  puts (served tid) ++ adds (off + me) (served tid) ++ waits off (served tid) ++ bump_if tid.

(** The accesses that a thread of the GDA variants makes or posts: put and flag of
    one peer after the other. *)
Definition gda_sends (i : Z) (l : list Z) : list op := l ≫= fun q => [Put q; PutEnd q; Add q i].

Definition gda_accesses (off me tid : Z) : list op :=
  gda_sends (off + me) (served tid) ++ waits off (served tid) ++ bump_if tid.

Definition alltoall_linear_thread_puts_wg (n me : Z) : list (list (list op)) :=
  [ipc_thread (alltoall_pSync_offset PE_size n) me <$> seqZ 0 block_size].

Definition gda_accesses_wg (n me : Z) : list (list (list op)) :=
  [gda_accesses (alltoall_pSync_offset PE_size n) me <$> seqZ 0 block_size].

(** *** Every peer is served once *)

Hypothesis block_pos : 0 < block_size.
Hypothesis WF_pos : 0 < WF_SIZE.

Lemma served_spec tid j : j ∈ served tid <-> 0 <= j < PE_size /\ tid <= j /\ (j - tid) mod step_size = 0.
Proof using. unfold served. rewrite list_elem_of_filter, elem_of_seqZ. lia. Qed.

Lemma served_nodup tid : NoDup (served tid).
Proof using. apply NoDup_filter, NoDup_seqZ. Qed.

Hypothesis one_wave : block_size <= WF_SIZE \/ PE_size <= WF_SIZE.

Lemma served_once tid tid' j :
  0 <= tid < block_size -> 0 <= tid' < block_size -> j ∈ served tid -> j ∈ served tid' -> tid = tid'.
Proof.
  intros Ht Ht' (Hj & Hle & Hm)%served_spec (_ & Hle' & Hm')%served_spec. unfold step_size in *.
  apply Z.mod_divide in Hm as [a Ha]; [|lia]. apply Z.mod_divide in Hm' as [b Hb]; [|lia].
  destruct one_wave; [rewrite Z.min_l in * by lia|].
  - assert (a = b) by nia. nia.
  - destruct (Z.le_ge_cases block_size WF_SIZE).
    + rewrite Z.min_l in * by lia. assert (a = b) by nia. nia.
    + rewrite Z.min_r in * by lia. assert (a = 0) by nia. assert (b = 0) by nia. nia.
Qed.

Lemma served_some j : 0 <= j < PE_size -> exists tid, 0 <= tid < block_size /\ j ∈ served tid.
Proof.
  intros Hj. exists (j mod step_size). assert (0 < step_size <= block_size) by (unfold step_size; lia).
  pose proof (Z.mod_pos_bound j step_size ltac:(lia)). split; [lia|]. apply served_spec. split; [done|].
  pose proof (Z.mod_le j step_size ltac:(lia) ltac:(lia)). split; [done|].
  rewrite Zminus_mod_idemp_r, Z.sub_diag. apply Zmod_0_l.
Qed.

(** *** Order *)

Lemma ordered_waits off me l tl :
  ordered off me tl -> (forall q i, Add q i ∉ tl) -> ordered off me (waits off l ++ tl) /\ forall q i, Add q i ∉ waits off l ++ tl.
Proof.
  intros Ho Hn. induction l as [|q l [IH1 IH2]]; [done|]. cbn. split.
  - split; [by left|]. split; [|done]. intros q' i [|]%elem_of_cons; [done|]. by eapply IH2.
  - intros q' i [|[|]%elem_of_cons]%elem_of_cons; [done|done|]. by eapply IH2.
Qed.

Lemma ordered_bump off me tid : ordered off me (bump_if tid) /\ forall q i, Add q i ∉ bump_if tid.
Proof.
  unfold bump_if. case_if; (split; [done|]); intros q i Hin; [by apply list_elem_of_singleton in Hin|by apply elem_of_nil in Hin].
Qed.

Lemma ordered_adds off me i l tl : ordered off me tl -> ordered off me (adds i l ++ tl).
Proof. intros Ho. by induction l. Qed.

Lemma ordered_puts off me l tl :
  ordered off me tl -> (forall q, q ∈ l -> Add q (off + me) ∈ tl) -> ordered off me (puts l ++ tl).
Proof.
  intros Ho. induction l as [|q l IH]; intros Ha; [done|]. cbn. split; [by left|]. split; [done|].
  split; [apply elem_of_app; right; apply Ha; by left|]. split; [done|]. apply IH. intros q' Hq'. apply Ha. by right.
Qed.

Lemma ordered_gda off me l tl : ordered off me tl -> ordered off me (gda_sends (off + me) l ++ tl).
Proof.
  intros Ho. induction l as [|q l IH]; [done|]. cbn. split; [by left|]. split; [done|]. split; [by left|]. done.
Qed.

Lemma ipc_thread_ordered off me tid : ordered off me (ipc_thread off me tid).
Proof.
  destruct (ordered_bump off me tid) as [Hb Hb']. destruct (ordered_waits off me (served tid) _ Hb Hb') as [Hw _].
  apply ordered_puts; [by apply ordered_adds|]. intros q Hq. apply elem_of_app. left.
  apply list_elem_of_fmap. by exists q.
Qed.

Lemma gda_accesses_ordered off me tid : ordered off me (gda_accesses off me tid).
Proof.
  destruct (ordered_bump off me tid) as [Hb Hb']. destruct (ordered_waits off me (served tid) _ Hb Hb') as [Hw _].
  by apply ordered_gda.
Qed.

(** *** Contents *)

(** The accesses of a thread. *)
Definition thread_has (off me tid : Z) (o : op) : Prop :=
  match o with
  | Put q | PutEnd q => q ∈ served tid
  | Add q i => q ∈ served tid /\ i = off + me
  | Wait i v => v = 1 /\ i - off ∈ served tid
  | Store i v => v = 0 /\ i - off ∈ served tid
  | Bump => tid = 0
  | _ => False
  end.

Lemma in_bump tid o : o ∈ bump_if tid <-> o = Bump /\ tid = 0.
Proof using. clear block_pos WF_pos one_wave.
  unfold bump_if. destruct (Z.eqb_spec tid 0); [rewrite list_elem_of_singleton; naive_solver|].
  rewrite elem_of_nil. naive_solver.
Qed.

Lemma in_puts l o : o ∈ puts l <-> match o with Put q | PutEnd q => q ∈ l | _ => False end.
Proof using. clear block_pos WF_pos one_wave.
  unfold puts. rewrite list_elem_of_bind. setoid_rewrite elem_of_cons. setoid_rewrite list_elem_of_singleton.
  destruct o; naive_solver.
Qed.

Lemma in_adds i l o : o ∈ adds i l <-> match o with Add q i' => q ∈ l /\ i' = i | _ => False end.
Proof using. clear block_pos WF_pos one_wave. unfold adds. rewrite list_elem_of_fmap. destruct o; naive_solver. Qed.

Lemma in_waits off l o :
  o ∈ waits off l <-> match o with Wait i v => v = 1 /\ i - off ∈ l | Store i v => v = 0 /\ i - off ∈ l | _ => False end.
Proof using. clear block_pos WF_pos one_wave.
  unfold waits. rewrite list_elem_of_bind. setoid_rewrite elem_of_cons. setoid_rewrite list_elem_of_singleton.
  assert (E : forall q, off + q - off = q) by lia. assert (E' : forall i, off + (i - off) = i) by lia.
  destruct o; try naive_solver.
  - split; [intros (q & [[= -> ->]|] & Hq); [by rewrite E|done]|]. intros [-> Hq]. exists (i - off). rewrite E'. auto.
  - split; [intros (q & [|[= -> ->]] & Hq); [done|by rewrite E]|]. intros [-> Hq]. exists (i - off). rewrite E'. auto.
Qed.

Lemma in_gda_sends i l o :
  o ∈ gda_sends i l <-> match o with Put q | PutEnd q => q ∈ l | Add q i' => q ∈ l /\ i' = i | _ => False end.
Proof using. clear block_pos WF_pos one_wave.
  unfold gda_sends. rewrite list_elem_of_bind. setoid_rewrite elem_of_cons. setoid_rewrite elem_of_cons.
  setoid_rewrite list_elem_of_singleton. destruct o; naive_solver.
Qed.

Lemma in_ipc_thread off me tid o : o ∈ ipc_thread off me tid <-> thread_has off me tid o.
Proof using. clear block_pos WF_pos one_wave.
  unfold ipc_thread. rewrite !elem_of_app, in_puts, in_adds, in_waits, in_bump. destruct o; cbn; naive_solver.
Qed.

Lemma in_gda_accesses off me tid o : o ∈ gda_accesses off me tid <-> thread_has off me tid o.
Proof using. clear block_pos WF_pos one_wave.
  unfold gda_accesses. rewrite !elem_of_app, in_gda_sends, in_waits, in_bump. destruct o; cbn; naive_solver.
Qed.

Lemma waits_bump_nodup off tid : NoDup (waits off (served tid) ++ bump_if tid).
Proof.
  apply NoDup_app. split; [|split].
  - apply NoDup_bind; [|intros; repeat constructor; set_solver|apply served_nodup].
    intros x y o _ _. rewrite !elem_of_cons, !elem_of_nil. intros [->|[->|]] [|[|]]; simplify_eq; lia || done.
  - intros o Ho%in_waits [-> _]%in_bump. done.
  - unfold bump_if. case_if; repeat constructor. by intros ?%elem_of_nil.
Qed.

Lemma ipc_thread_nodup off me tid : NoDup (ipc_thread off me tid).
Proof.
  unfold ipc_thread. apply NoDup_app. split; [|split; [|apply NoDup_app; split; [|split]]].
  - apply NoDup_bind; [|intros; repeat constructor; set_solver|apply served_nodup].
    intros x y o _ _. rewrite !elem_of_cons, !elem_of_nil. naive_solver.
  - intros o Ho%in_puts. rewrite !elem_of_app, in_adds, in_waits, in_bump. destruct o; naive_solver.
  - apply NoDup_fmap_2; [|apply served_nodup]. intros x y [= ->]. done.
  - intros o Ho%in_adds. rewrite !elem_of_app, in_waits, in_bump. destruct o; naive_solver.
  - apply waits_bump_nodup.
Qed.

Lemma gda_accesses_nodup off me tid : NoDup (gda_accesses off me tid).
Proof.
  unfold gda_accesses. apply NoDup_app. split; [|split].
  - apply NoDup_bind; [|intros; repeat constructor; set_solver|apply served_nodup].
    intros x y o _ _. rewrite !elem_of_cons, !elem_of_nil. naive_solver.
  - intros o Ho%in_gda_sends. rewrite !elem_of_app, in_waits, in_bump. destruct o; naive_solver.
  - apply waits_bump_nodup.
Qed.

Lemma concat_fmap {A B} (f : A -> list B) (l : list A) : concat (f <$> l) = l ≫= f.
Proof. induction l as [|x l IH]; [done|]. cbn. by rewrite IH. Qed.

(** Threads with these accesses, in this order, serve every peer once. *)
Lemma threads_flag_code (th : Z -> Z -> Z -> list op) :
  (forall off me tid, ordered off me (th off me tid)) -> (forall off me tid, NoDup (th off me tid)) ->
  (forall off me tid o, o ∈ th off me tid <-> thread_has off me tid o) ->
  flag_code PE_size (fun n me => [th (alltoall_pSync_offset PE_size n) me <$> seqZ 0 block_size]).
Proof using block_pos WF_pos one_wave.
  intros Hord Hnd Hin n me Hn Hme. set (off := alltoall_pSync_offset PE_size n). eexists. split; [reflexivity|].
  assert (Hall : forall o, o ∈ concat (th off me <$> seqZ 0 block_size) <->
    exists tid, 0 <= tid < block_size /\ thread_has off me tid o).
  { intros o. rewrite concat_fmap, list_elem_of_bind. split; intros (tid & H1 & H2).
    - exists tid. apply elem_of_seqZ in H2. split; [lia|by apply Hin].
    - exists tid. rewrite elem_of_seqZ. split; [by apply Hin|lia]. }
  split; [split|split].
  - apply Forall_fmap, Forall_forall. intros tid _. apply Hord.
  - rewrite concat_fmap. apply NoDup_bind; [|intros; apply Hnd|apply NoDup_seqZ].
    intros t t' o Ht%elem_of_seqZ Ht'%elem_of_seqZ Ho%Hin Ho'%Hin.
    destruct o; cbn in Ho, Ho'; try done; try lia; eapply served_once; (lia || apply Ho || apply Ho').
  - apply Forall_forall. intros o (tid & Ht & Ho)%Hall. destruct o; cbn in *; try done; unfold is_pe.
    + apply served_spec in Ho. lia.
    + apply served_spec in Ho. lia.
    + destruct Ho as [Ho%served_spec ->]. split; [lia|done].
    + destruct Ho as [-> Ho%served_spec]. split; [done|]. exists (i - off). lia.
    + destruct Ho as [-> Ho%served_spec]. split; [done|]. exists (i - off). lia.
  - apply Hall. exists 0. cbn. split; [lia|done].
  - intros q Hq. destruct (served_some q Hq) as (tid & Ht & Hs). assert (E : off + q - off = q) by lia.
    repeat split; apply Hall; exists tid; cbn; rewrite ?E; auto.
Qed.

Lemma thread_puts_flag_code : flag_code PE_size alltoall_linear_thread_puts_wg.
Proof using block_pos WF_pos one_wave.
  apply threads_flag_code; [apply ipc_thread_ordered|apply ipc_thread_nodup|apply in_ipc_thread].
Qed.

Lemma gda_accesses_flag_code : flag_code PE_size gda_accesses_wg.
Proof using block_pos WF_pos one_wave.
  apply threads_flag_code; [apply gda_accesses_ordered|apply gda_accesses_nodup|apply in_gda_accesses].
Qed.

End threads.

(** In the wave variants the threads are the lanes of one wave. *)
Definition alltoallmem_linear_thread_puts_wave (PE_size WF_SIZE block_size : Z) : Z -> Z -> list (list (list op)) :=
  alltoall_linear_thread_puts_wg PE_size WF_SIZE (Z.min block_size WF_SIZE).

(** The untyped and the ranged variants make the same accesses. *)
Definition alltoallmem_wg_linear_thread_puts := alltoall_linear_thread_puts_wg.

Definition alltoall_linear_thread_puts_das := alltoall_linear_thread_puts_wg.

Section variants.
Context {T : Type} (PE_size WF_SIZE block_size : Z).

(** A call of one of the variants of the IPC context. *)
Definition thread_puts_code (f : Z -> Z -> list (list (list op))) : Prop :=
  f = alltoall_linear_thread_puts_wg PE_size WF_SIZE block_size \/
  f = alltoallmem_wg_linear_thread_puts PE_size WF_SIZE block_size \/
  f = alltoall_linear_thread_puts_das PE_size WF_SIZE block_size \/
  f = alltoallmem_linear_thread_puts_wave PE_size WF_SIZE block_size.

Hypothesis PE_size_pos : 0 < PE_size.
Hypothesis block_pos : 0 < block_size.
Hypothesis WF_pos : 0 < WF_SIZE.
Hypothesis one_wave : block_size <= WF_SIZE \/ PE_size <= WF_SIZE.

Lemma thread_puts_ok f : thread_puts_code f -> flag_code PE_size f.
Proof using block_pos WF_pos one_wave.
  intros [->|[->|[->| ->]]].
  - by apply thread_puts_flag_code.
  - by apply thread_puts_flag_code.
  - by apply thread_puts_flag_code.
  - apply thread_puts_flag_code; lia.
Qed.

Context (calls : list (call (T := T))).
Hypothesis calls_code : Forall (fun c => thread_puts_code (code c) /\ staging c = None /\ call_fits c) calls.

Lemma thread_puts_calls : Forall (fun c => flag_code PE_size (code c) /\ staging c = None /\ call_fits c) calls.
Proof using block_pos WF_pos one_wave calls_code.
  eapply Forall_impl; [exact calls_code|]. intros c (Hc & Hs). split; [by apply thread_puts_ok|done].
Qed.

Lemma thread_length (th : Z -> Z -> Z -> list op) off me bs :
  (forall tid, Z.of_nat (length (th off me tid)) <= 5 * PE_size + 1) -> 0 <= bs ->
  Z.of_nat (length (concat (concat [th off me <$> seqZ 0 bs]))) <= bs * (5 * PE_size + 1).
Proof.
  intros Hle Hbs. cbn. rewrite app_nil_r.
  assert (H : forall l, Z.of_nat (length (concat (th off me <$> l))) <= Z.of_nat (length l) * (5 * PE_size + 1)).
  { induction l as [|x l IH]; [cbn; lia|]. rewrite fmap_cons. cbn [concat length]. rewrite length_app. specialize (Hle x). lia. }
  specialize (H (seqZ 0 bs)). rewrite length_seqZ in H. rewrite Z2Nat.id in H by lia. done.
Qed.

Lemma bind_length {A B} (f : A -> list B) k l : (forall x, length (f x) = k) -> length (l ≫= f) = (k * length l)%nat.
Proof. intros Hf. induction l as [|x l IH]; [cbn; lia|]. cbn. rewrite length_app, Hf, IH. lia. Qed.

Lemma served_length bs tid : Z.of_nat (length (served PE_size WF_SIZE bs tid)) <= PE_size.
Proof using PE_size_pos.
  unfold served. pose proof (length_filter (fun j => tid <= j /\ (j - tid) mod step_size WF_SIZE bs = 0) (seqZ 0 PE_size)) as H.
  rewrite length_seqZ in H. lia.
Qed.

Lemma ipc_thread_length bs off me tid : Z.of_nat (length (ipc_thread PE_size WF_SIZE bs off me tid)) <= 5 * PE_size + 1.
Proof using PE_size_pos.
  pose proof (served_length bs tid). unfold ipc_thread. rewrite !length_app. unfold puts, waits, adds.
  rewrite !(bind_length _ 2) by done. rewrite length_fmap. unfold bump_if. case_if; cbn; lia.
Qed.

Lemma thread_puts_length f n me : thread_puts_code f ->
  Z.of_nat (length (concat (concat (f n me)))) <= block_size * (5 * PE_size + 1).
Proof using PE_size_pos block_pos WF_pos.
  intros Hf. assert (Hi : forall bs, 0 <= bs <= block_size ->
    Z.of_nat (length (concat (concat (alltoall_linear_thread_puts_wg PE_size WF_SIZE bs n me)))) <= block_size * (5 * PE_size + 1)).
  { intros bs Hbs. etransitivity; [apply thread_length; [apply ipc_thread_length|lia]|nia]. }
  destruct Hf as [->|[->|[->| ->]]].
  - apply (Hi block_size). lia.
  - apply (Hi block_size). lia.
  - apply (Hi block_size). lia.
  - apply (Hi (Z.min block_size WF_SIZE)). lia.
Qed.

(** When the block or the team is no larger than a wave these calls cannot deadlock,
    and no run is longer than a bound that is linear in the number of calls. *)
Theorem thread_puts_finish s k s' (junk : Z -> T) :
  initial PE_size s -> nsteps (step calls PE_size) k s s' ->
  Z.of_nat k <= PE_size * (Z.of_nat (length calls) * (block_size * (5 * PE_size + 1) + 2)) /\
  (finished calls PE_size s' \/ exists p t s'', is_pe PE_size p /\ exec calls junk p t s' = Some s'').
Proof using PE_size_pos block_pos WF_pos one_wave calls_code.
  apply flag_run_finishes; [done|apply thread_puts_calls|nia|]. intros n c k' q Hc. apply thread_puts_length.
  by apply (proj1 (Forall_lookup _ _) calls_code n c).
Qed.

End variants.

(** ** Threads that serve the same peer *)

(** When both the block and the team are larger than a wave, the loops of
    threads 0 and [WF_SIZE] both serve rank [WF_SIZE]: it gets the block twice and
    its flag is incremented twice, whereas it is awaited to be one. *)
Theorem thread_puts_serve_twice PE_size WF_SIZE block_size off me :
  0 < WF_SIZE -> WF_SIZE < block_size -> WF_SIZE < PE_size ->
  Add WF_SIZE (off + me) ∈ ipc_thread PE_size WF_SIZE block_size off me 0 /\
  Add WF_SIZE (off + me) ∈ ipc_thread PE_size WF_SIZE block_size off me WF_SIZE.
Proof.
  intros HW Hb HP. rewrite !in_ipc_thread. cbn. rewrite !served_spec. unfold step_size. rewrite Z.min_r by lia.
  repeat split; try lia.
  - rewrite Z.sub_0_r. apply Z_mod_same_full.
  - rewrite Z.sub_diag. apply Zmod_0_l.
Qed.

Lemma thread_puts_serve_twice_witness :
  Add 64 (0 + 3) ∈ ipc_thread 72 64 256 0 3 0 /\ Add 64 (0 + 3) ∈ ipc_thread 72 64 256 0 3 64.
Proof. apply (thread_puts_serve_twice 72 64 256 0 3); lia. Defined.

(** ** Staging *)

Section staging.
Context (PE_size WF_SIZE block_size : Z).

Definition copy_thread (off me tid : Z) : list op :=
  gda_sends (off + me) (served PE_size WF_SIZE block_size tid) ++ waits off (served PE_size WF_SIZE block_size tid).

(** [alltoallv_copy]: puts into the staging buffer, a stage that copies out of it,
    and the increment of the sequence number.  The card makes each access when it is
    posted, which is one of the possible orders. *)
Definition alltoallv_copy (n me : Z) : list (list (list op)) :=
  [copy_thread (alltoall_pSync_offset PE_size n) me <$> seqZ 0 block_size; [Copy <$> seqZ 0 PE_size]; [[Bump]]].

End staging.

(** ** All-to-all that ends with a synchronisation *)

Section linear.
Context (PE_size : Z).

(** [internal_direct_barrier] by the first thread. *)
Definition sync_thread (me : Z) : list op :=
  if me =? 0 then (seqZ 1 (PE_size - 1) ≫= fun i => [Wait i 1; Store i 0]) ++ ((fun j => Signal j 0 1) <$> seqZ 1 (PE_size - 1))
  else [Signal 0 me 1; Wait 0 1; Store 0 0].

Definition alltoall_linear_wg (n me : Z) : list (list (list op)) :=
  [[puts (seqZ 0 PE_size)]; [sync_thread me]].

(** The choice of [alltoall_wg] without copy engines. *)
Definition alltoall_wg (WF_SIZE block_size sizeof_T nelems : Z) : Z -> Z -> list (list (list op)) :=
  if sizeof_T * nelems <? 512 then alltoall_linear_thread_puts_wg PE_size WF_SIZE block_size else alltoall_linear_wg.

End linear.

(** ** Concrete runs *)

Definition flag_drive (calls : list (call (T := Z))) (schedule : list (Z * nat)) (s : state) : state :=
  foldl (fun s pt => default s (exec calls (fun _ => -1) (fst pt) (snd pt) s)) s schedule.

Lemma flag_drive_rtc PE_size calls schedule s : Forall (fun pt => 0 <= fst pt < PE_size) schedule ->
  rtc (step calls PE_size) s (flag_drive calls schedule s).
Proof.
  intros Hs. revert s. induction Hs as [|pt l Hp Hl IH]; intros s; [done|]. unfold flag_drive. cbn [foldl].
  destruct (exec calls _ (fst pt) (snd pt) s) as [s'|] eqn:E; [|apply IH].
  eapply rtc_l; [by econstructor|]. apply IH.
Qed.

Definition flag_start : state (T := Z) :=
  mkState (fun _ _ _ => 0) (fun _ _ => 0) (fun _ => 0) (fun _ => Out 0).

Lemma flag_start_initial PE_size : initial PE_size flag_start.
Proof. intros p _. by split. Qed.

(** Two calls of two PEs with two threads each. *)
Definition twice (nelems : Z) (staging : option Z) (f : Z -> Z -> list (list (list op))) : list call :=
  [mkCall nelems 0 nelems (fun p q _ => 10 * p + q) staging f; mkCall nelems 0 nelems (fun p q _ => 100 + 10 * p + q) staging f].

Definition both_threads (p : Z) (k : nat) : list (Z * nat) := concat (replicate k [(p, 0%nat); (p, 1%nat)]).

Definition flag_schedule : list (Z * nat) :=
  both_threads 0 20 ++ both_threads 1 40 ++ both_threads 0 40 ++ both_threads 1 40.

Lemma flag_schedule_ok : Forall (fun pt => 0 <= fst pt < 2) flag_schedule.
Proof. repeat (constructor; [cbn; lia|]). constructor. Qed.

Definition puts_twice : list call := twice 3 None (alltoall_linear_thread_puts_wg 2 64 2).

Lemma puts_twice_ok :
  Forall (fun c => thread_puts_code 2 64 2 (code c) /\ staging c = None /\ call_fits c) puts_twice.
Proof.
  repeat constructor; cbn; try lia.
Qed.

Lemma thread_puts_finish_witness :
  exists k, Z.of_nat k <= 2 * (2 * (2 * (5 * 2 + 1) + 2)) /\
    finished puts_twice 2 (flag_drive puts_twice flag_schedule flag_start).
Proof.
  destruct (proj1 (rtc_nsteps _ _) (flag_drive_rtc 2 puts_twice flag_schedule flag_start flag_schedule_ok)) as [k Hk].
  exists k. destruct (thread_puts_finish 2 64 2 ltac:(lia) ltac:(lia) ltac:(lia) ltac:(lia) puts_twice puts_twice_ok flag_start k _
    (fun _ => -1) (flag_start_initial 2) Hk) as [Hle _]. split; [exact Hle|].
  intros p Hp. assert (p = 0 \/ p = 1) as [->| ->] by (unfold is_pe in Hp; lia); vm_compute; reflexivity.
Defined.

(** PE 1 stops before it copies out of the staging buffer, PE 0 goes on to the
    next call, then PE 1 continues. *)
Definition copy_twice : list call := twice 1 (Some 1) (alltoallv_copy 2 64 2).

Definition copy_schedule : list (Z * nat) :=
  both_threads 0 6 ++ (1, 0%nat) :: both_threads 1 5 ++ both_threads 0 20 ++ both_threads 1 4.

Lemma copy_schedule_ok : Forall (fun pt => 0 <= fst pt < 2) copy_schedule.
Proof. repeat (constructor; [cbn; lia|]). constructor. Qed.

(** The flags of [alltoallv_copy] have two halves but the staging buffer has
    not: a PE that has all flags of one call and a peer that already makes the
    next call are not kept apart, and the PE copies the elements of the next call
    out of the staging buffer.  It returns 101 where its peer sent 1. *)
Theorem alltoallv_copy_race :
  let s := flag_drive copy_twice copy_schedule flag_start in
  rtc (step copy_twice 2) flag_start s /\ pc s 1 = Out 1 /\
  mem s (Dst 0) 1 0 = 101 /\ exists c, copy_twice !! 0%nat = Some c /\ source c 0 1 0 = 1.
Proof.
  cbv zeta. split; [apply flag_drive_rtc, copy_schedule_ok|]. split; [vm_compute; reflexivity|].
  split; [vm_compute; reflexivity|]. eexists. split; reflexivity.
Qed.

(** A message of 4 bytes and one of 512 bytes per peer. *)
Definition mixed : list call :=
  [mkCall 1 0 1 (fun p q _ => 10 * p + q) None (alltoall_wg 2 64 2 4 1);
   mkCall 128 0 128 (fun p q _ => 10 * p + q) None (alltoall_wg 2 64 2 4 128)].

Definition mixed_schedule : list (Z * nat) := both_threads 0 4 ++ both_threads 1 20 ++ both_threads 0 20 ++ both_threads 1 20.

Lemma mixed_schedule_ok : Forall (fun pt => 0 <= fst pt < 2) mixed_schedule.
Proof. repeat (constructor; [cbn; lia|]). constructor. Qed.

(** [alltoall_wg] takes the variant with one flag per peer for small messages
    and the one that ends with a synchronisation for large ones, on the same flag
    array.  When a PE reaches the synchronisation of a large call before its peer
    has read its flag of the small call, the arrival overwrites that flag and is
    cleared with it: both PEs wait for ever. *)
Theorem alltoall_mixed_deadlock :
  let s := flag_drive mixed mixed_schedule flag_start in
  rtc (step mixed 2) flag_start s /\ (forall s', ~ step mixed 2 s s') /\ ~ finished mixed 2 s.
Proof.
  cbv zeta. set (s := flag_drive mixed mixed_schedule flag_start).
  assert (H0 : pc s 0 = In 1 [[Wait 1 1; Store 1 0; Signal 1 0 1]] []) by (vm_compute; reflexivity).
  assert (H1 : pc s 1 = In 1 [[Wait 0 1; Store 0 0]] []) by (vm_compute; reflexivity).
  assert (F0 : pSync s 0 1 = 0) by (vm_compute; reflexivity). assert (F1 : pSync s 1 0 = 0) by (vm_compute; reflexivity).
  assert (Hrun : rtc (step mixed 2) flag_start s) by (apply flag_drive_rtc, mixed_schedule_ok).
  clearbody s. split; [done|]. split.
  - intros s' [junk p t s'' Hp He]. assert (p = 0 \/ p = 1) as [->| ->] by (unfold is_pe in Hp; lia); unfold exec in He.
    + rewrite H0 in He. cbn in He. destruct t as [|[|t]]; cbn in He; try done. by rewrite F0 in He.
    + rewrite H1 in He. cbn in He. destruct t as [|[|t]]; cbn in He; try done. by rewrite F1 in He.
  - intros H. specialize (H 0 ltac:(unfold is_pe; lia)). by rewrite H0 in H.
Qed.
