(* ===== verification/GdaAlltoall.v ===== *)
(** * All-to-all through queue pairs

    The variants of [FlagAlltoall] over network cards
    ([alltoallmem_linear_thread_puts_wg] and [_wave] of
    src/gda/context_gda_device_coll.cpp): a thread posts the put of a block and the
    addition to the flag of the peer to the queue pair of that peer
    ([put_nbi_single], [atomic_add_single]), and waits for the queue pair
    ([quiet_single]) after it has seen the flag of the peer.

    A queue pair holds the requests that are posted and not executed.  The card
    executes those of one queue pair in order, at any time, also after the call has
    returned; a put that it executes then sends whatever the source holds by that
    time.  The machine is shown to be simulated by the one of [FlagAlltoall], in which
    the requests to each peer are a thread of their own, so that the theorem about any
    code with the right order of accesses applies.  Calls of the IPC variants, which
    post nothing, run on the same machine.  Ranks and indices are unbounded integers. *)

From Stdlib Require Import ZArith Lia.
From stdpp Require Import base option numbers list relations.
From S2P Require Import Prelude FlagAlltoall.

(** ** Operations *)

(** An access of the thread itself, a request to the queue pair of the peer it
    concerns, the wait for a queue pair. *)
Inductive cop := Do (o : op) | Post (o : op) | Quiet (q : Z).

Definition target (o : op) : Z :=
  match o with Put q | PutEnd q | Add q _ | Signal q _ _ | Copy q => q | _ => 0 end.

(** The accesses that a thread makes itself, those it posts to [q], and both. *)
Definition strip (r : list cop) : list op := r ≫= fun i => match i with Do o => [o] | _ => [] end.

Definition posts (q : Z) (r : list cop) : list op :=
  r ≫= fun i => match i with Post o => if target o =? q then [o] else [] | _ => [] end.

Definition flat (r : list cop) : list op := r ≫= fun i => match i with Do o | Post o => [o] | Quiet _ => [] end.

Section card.
Context {T : Type} (PE_size : Z).

(** The threads of a work-group and one more for each queue pair, which has the
    requests that are posted and those to come. *)
Definition abs_threads (w : Z -> list (nat * op)) (l : list (list cop)) : list (list op) :=
  (strip <$> l) ++ ((fun q => (snd <$> w q) ++ posts q (concat l)) <$> seqZ 0 PE_size).

Definition abs_code (f : Z -> Z -> list (list (list cop))) (n me : Z) : list (list (list op)) :=
  abs_threads (fun _ => []) <$> f n me.

(** One call, as in [FlagAlltoall]. *)
Record ccall := mkCCall {
  c_nelems : Z;
  c_elem_offset : Z;
  c_elem_count : Z;
  c_source : Z -> Z -> Z -> T;
  c_code : Z -> Z -> list (list (list cop))
}.

Definition with_source (src : Z -> Z -> Z -> T) (c : ccall) : call :=
  mkCall (c_nelems c) (c_elem_offset c) (c_elem_count c) src None (abs_code (c_code c)).

Definition accesses (c : ccall) : call := with_source (c_source c) c.

Context (calls : list ccall).

(** ** State *)

Inductive ccounter :=
  | COut (n : nat)
  | CIn (n : nat) (threads : list (list cop)) (stages : list (list (list cop))).

(** [wire p q]: the requests on the queue pair of PE [p] to [q], with their call. *)
Record cstate := mkCState {
  c_mem : buffer -> Z -> Z -> T;
  c_pSync : Z -> Z -> Z;
  c_seq : Z -> Z;
  c_pc : Z -> ccounter;
  wire : Z -> Z -> list (nat * op)
}.

(** The memory as the accesses see it, and after an access. *)
Definition memory (g : cstate) : state := mkState (c_mem g) (c_pSync g) (c_seq g) (fun _ => Out 0).

Definition set_memory (s : state) (g : cstate) : cstate :=
  mkCState (mem s) (pSync s) (alltoall_sequence_number s) (c_pc g) (wire g).

Definition cgoto (me : Z) (k : ccounter) (g : cstate) : cstate :=
  mkCState (c_mem g) (c_pSync g) (c_seq g) (upd (c_pc g) me k) (wire g).

Definition set_wire (me q : Z) (l : list (nat * op)) (g : cstate) : cstate :=
  mkCState (c_mem g) (c_pSync g) (c_seq g) (c_pc g) (upd (wire g) me (upd (wire g me) q l)).

Definition threads_done (l : list (list cop)) : bool := forallb (fun r => match r with [] => true | _ => false end) l.

Definition cnext (n : nat) (stages : list (list (list cop))) : ccounter :=
  match stages with [] => COut (S n) | th :: st => CIn n th st end.

(** ** One step *)

Definition exec_cop (junk : Z -> T) (c : ccall) (n : nat) (me : Z) (i : cop) (g : cstate) : option cstate :=
  match i with
  | Do o => s ← exec_op junk (accesses c) n me o (memory g); Some (set_memory s g)
  | Post o => Some (set_wire me (target o) (wire g me (target o) ++ [(n, o)]) g)
  | Quiet q => match wire g me q with [] => Some g | _ => None end
  end.

(** One step of thread [t] of PE [me], or of the PE as a whole between stages. *)
Definition cexec (junk : Z -> T) (me : Z) (t : nat) (g : cstate) : option cstate :=
  match c_pc g me with
  | COut n => c ← calls !! n; Some (cgoto me (cnext n (c_code c (c_seq g me) me)) g)
  | CIn n threads stages =>
      c ← calls !! n;
      if threads_done threads then Some (cgoto me (cnext n stages) g)
      else match threads !! t with
           | Some (i :: r) => g' ← exec_cop junk c n me i g; Some (cgoto me (CIn n (<[t := r]> threads) stages) g')
           | _ => None
           end
  end.

Definition in_call (n : nat) (k : ccounter) : bool := match k with COut _ => false | CIn m _ _ => (m =? n)%nat end.

(** The card executes the next request of PE [me] to [q].  Once the call has
    returned the source holds anything. *)
Definition card (junk : Z -> T) (me q : Z) (g : cstate) : option cstate :=
  match wire g me q with
  | [] => None
  | (n, o) :: rest =>
      c ← calls !! n;
      s ← exec_op junk (if in_call n (c_pc g me) then accesses c else with_source (fun _ _ => junk) c) n me o (memory g);
      Some (set_wire me q rest (set_memory s g))
  end.

Inductive cstep (g : cstate) : cstate -> Prop :=
  | cstep_thread junk p t g' : is_pe PE_size p -> cexec junk p t g = Some g' -> cstep g g'
  | cstep_card junk p q g' : is_pe PE_size p -> is_pe PE_size q -> card junk p q g = Some g' -> cstep g g'.

(** Before the first call all flags are clear and no request is posted. *)
Definition cinitial (g : cstate) : Prop :=
  forall p, is_pe PE_size p -> c_pc g p = COut 0 /\ c_seq g p = 0 /\ (forall i, c_pSync g p i = 0) /\ forall q, wire g p q = [].

(** ** Code that waits for what it posts *)

(** What a card can be asked for. *)
Definition request (o : op) : Prop :=
  is_pe PE_size (target o) /\ match o with Put _ | PutEnd _ | Add _ _ => True | _ => False end.

(** Requests are waited for, and none is posted after the wait for a flag. *)
Fixpoint quieted (r : list cop) : Prop :=
  match r with
  | [] => True
  | i :: r' => match i with Post o => request o /\ Quiet (target o) ∈ r' | Do (Wait _ _) => forall o, Post o ∉ r' | _ => True end /\ quieted r'
  end.

(** Only one thread posts to a queue pair. *)
Definition one_poster (l : list (list cop)) : Prop :=
  forall t t' r r' o o', l !! t = Some r -> l !! t' = Some r' -> Post o ∈ r -> Post o' ∈ r' -> target o = target o' -> t = t'.

Definition posting (l : list (list cop)) : Prop := Forall quieted l /\ one_poster l.

Hypothesis calls_post : Forall (fun c => forall n me, Forall posting (c_code c n me)) calls.

(** ** Simulation *)

Definition abs_pc (w : Z -> list (nat * op)) (k : ccounter) : counter :=
  match k with
  | COut n => Out n
  | CIn n l st => In n (abs_threads w l) (abs_threads (fun _ => []) <$> st)
  end.

(** What is on the wires of a PE: requests of the current call, which some thread
    still waits for. *)
Definition wires_ok (w : Z -> list (nat * op)) (k : ccounter) : Prop :=
  match k with
  | COut _ => forall q, w q = []
  | CIn n l st => posting l /\ Forall posting st /\
      forall q, Forall (fun x => x.1 = n /\ request x.2 /\ target x.2 = q) (w q) /\ (w q <> [] -> exists t r, l !! t = Some r /\ Quiet q ∈ r)
  end.

Record sim (g : cstate) (s : state) : Prop := {
  sim_mem : mem s = c_mem g;
  sim_flag : pSync s = c_pSync g;
  sim_seq : alltoall_sequence_number s = c_seq g;
  sim_pc : forall p, is_pe PE_size p -> pc s p = abs_pc (wire g p) (c_pc g p);
  sim_wires : forall p, is_pe PE_size p -> wires_ok (wire g p) (c_pc g p)
}.

(** *** Lists *)

Lemma posts_app q l k : posts q (l ++ k) = posts q l ++ posts q k.
Proof. apply bind_app. Qed.

Lemma posts_cons q i r : posts q (i :: r) = posts q [i] ++ posts q r.
Proof. exact (posts_app q [i] r). Qed.

Lemma strip_cons i r : strip (i :: r) = strip [i] ++ strip r.
Proof. apply (bind_app _ [i] r). Qed.

Lemma concat_insert (l : list (list cop)) t r r' : l !! t = Some r ->
  concat l = concat (take t l) ++ r ++ concat (drop (S t) l) /\
  concat (<[t := r']> l) = concat (take t l) ++ r' ++ concat (drop (S t) l).
Proof.
  intros Ht. split.
  - rewrite <- (take_drop_middle l t r Ht) at 1. by rewrite concat_app.
  - rewrite insert_take_drop by (by eapply lookup_lt_Some). by rewrite concat_app.
Qed.

Lemma no_posts q r : (forall o, Post o ∈ r -> target o <> q) -> posts q r = [].
Proof.
  induction r as [|i r IH]; [done|]. intros H. rewrite posts_cons, IH by (intros o Ho; apply H; by right). rewrite app_nil_r. destruct i as [o|o|q']; try done. cbn.
  rewrite (proj2 (Z.eqb_neq _ _)); [done|]. apply H. by left.
Qed.

(** Popping an operation other than a request to [q]. *)
Lemma posts_pop q l t i r : l !! t = Some (i :: r) -> posts q [i] = [] -> posts q (concat (<[t := r]> l)) = posts q (concat l).
Proof.
  intros Ht Hi. destruct (concat_insert l t _ r Ht) as [-> ->]. rewrite !posts_app, posts_cons.
  by rewrite Hi.
Qed.

(** Popping a request takes the first of those to come. *)
Lemma posts_pop_post l t o r : one_poster l -> l !! t = Some (Post o :: r) ->
  posts (target o) (concat l) = o :: posts (target o) (concat (<[t := r]> l)).
Proof.
  intros Hone Ht. destruct (concat_insert l t _ r Ht) as [-> ->]. rewrite !posts_app, (no_posts _ (concat (take t l))).
  - cbn. by rewrite Z.eqb_refl.
  - intros o' Hin E. apply list_elem_of_In, in_concat in Hin as (r' & Hr'%list_elem_of_In & Ho'%list_elem_of_In).
    apply list_elem_of_lookup in Hr' as [t' Ht']. assert (t' < t)%nat.
    { apply lookup_lt_Some in Ht'. rewrite length_take in Ht'. lia. }
    rewrite lookup_take_Some in Ht'. destruct Ht' as [Ht' _].
    assert (t' = t); [|lia]. eapply (Hone t' t); [done|done|done|by left|done].
Qed.

Lemma strip_insert (l : list (list cop)) t i r : l !! t = Some (i :: r) -> strip [i] = [] -> strip <$> <[t := r]> l = strip <$> l.
Proof.
  intros Ht Hi. rewrite list_fmap_insert. apply list_insert_id. rewrite list_lookup_fmap, Ht. cbn [fmap option_fmap option_map].
  by rewrite strip_cons, Hi.
Qed.

Lemma abs_threads_ext w w' l l' :
  strip <$> l = strip <$> l' -> (forall q, (snd <$> w q) ++ posts q (concat l) = (snd <$> w' q) ++ posts q (concat l')) ->
  abs_threads w l = abs_threads w' l'.
Proof. intros H1 H2. unfold abs_threads. rewrite H1. f_equal. apply list_fmap_ext. intros i q _. apply H2. Qed.

Lemma abs_next n st w : (forall q, w q = []) -> abs_pc w (cnext n st) = next_stage n (abs_threads (fun _ => []) <$> st).
Proof.
  intros Hw. destruct st as [|th st]; [done|]. cbn. f_equal. apply abs_threads_ext; [done|]. intros q. by rewrite Hw.
Qed.

Lemma quieted_pop (l : list (list cop)) t i r : posting l -> l !! t = Some (i :: r) ->
  posting (<[t := r]> l) /\ (forall o, i = Post o -> request o /\ Quiet (target o) ∈ r).
Proof.
  intros [Hq Hone] Ht. pose proof (proj1 (Forall_lookup _ _) Hq t _ Ht) as [Hi Hr]. split; [split|].
  - by apply Forall_insert.
  - assert (Hsub : forall t' r' o, <[t := r]> l !! t' = Some r' -> Post o ∈ r' -> exists r0, l !! t' = Some r0 /\ Post o ∈ r0).
    { intros t' r' o Ht' Ho. destruct (decide (t' = t)) as [->|Hne].
      - rewrite list_lookup_insert_eq in Ht' by (by eapply lookup_lt_Some). injection Ht' as <-. eexists. split; [done|]. by right.
      - rewrite list_lookup_insert_ne in Ht' by done. by exists r'. }
    intros t1 t2 r1 r2 o1 o2 H1 H2 Ho1 Ho2. destruct (Hsub _ _ _ H1 Ho1) as (r1' & ? & ?). destruct (Hsub _ _ _ H2 Ho2) as (r2' & ? & ?).
    by eapply (Hone t1 t2 r1' r2').
  - intros o ->. exact Hi.
Qed.

(** A wait that is not the popped operation is still there. *)
Lemma quiet_kept (l : list (list cop)) t i r q : l !! t = Some (i :: r) -> i <> Quiet q ->
  (exists t' r', l !! t' = Some r' /\ Quiet q ∈ r') -> exists t' r', <[t := r]> l !! t' = Some r' /\ Quiet q ∈ r'.
Proof.
  intros Ht Hi (t' & r' & Ht' & Hq). destruct (decide (t' = t)) as [->|Hne].
  - exists t, r. rewrite list_lookup_insert_eq by (by eapply lookup_lt_Some). split; [done|]. rewrite Ht in Ht'. injection Ht' as <-.
    apply elem_of_cons in Hq as [|]; [by subst|done].
  - exists t', r'. by rewrite list_lookup_insert_ne.
Qed.

Lemma all_empty_false (l : list (list op)) t o r : l !! t = Some (o :: r) -> all_empty l = false.
Proof.
  intros Ht. destruct (all_empty l) eqn:E; [|done]. unfold all_empty in E. rewrite forallb_forall in E.
  specialize (E (o :: r)). by rewrite E in * by (apply list_elem_of_In; by eapply list_elem_of_lookup_2).
Qed.

Lemma threads_done_nil (l : list (list cop)) t r : threads_done l = true -> l !! t = Some r -> r = [].
Proof.
  unfold threads_done. rewrite forallb_forall. intros H Ht. specialize (H r ltac:(apply list_elem_of_In; by eapply list_elem_of_lookup_2)).
  by destruct r.
Qed.

(** An access has the same effect on states with the same memory. *)
Lemma exec_op_memory junk (c : call (T := T)) n me o s s1 s2 :
  mem s2 = mem s -> pSync s2 = pSync s -> alltoall_sequence_number s2 = alltoall_sequence_number s ->
  exec_op junk c n me o s = Some s1 ->
  exists s3, exec_op junk c n me o s2 = Some s3 /\ mem s3 = mem s1 /\ pSync s3 = pSync s1 /\
    alltoall_sequence_number s3 = alltoall_sequence_number s1 /\ pc s3 = pc s2.
Proof.
  intros Hm Hf Hs. destruct o; cbn; unfold put_block, set_mem, set_flag, bump; rewrite ?Hm, ?Hf, ?Hs;
    try destruct (staging c); try (case_if; [|done]); intros [= <-]; (eexists; split; [reflexivity|]); cbn;
    rewrite ?Hm, ?Hf, ?Hs; done.
Qed.

(** *** Steps *)

Notation acalls := (accesses <$> calls).
Notation astep := (step acalls PE_size).

(** A step of PE [p] to counter [k]. *)
Record moved (g g' : cstate) (p : Z) (k : ccounter) : Prop := {
  mv_pc : forall p', c_pc g' p' = upd (c_pc g) p k p';
  mv_other : forall p', p' <> p -> wire g' p' = wire g p'
}.

(** An operation that the simulating machine does not make. *)
Lemma sim_silent g g' s p n l st t i r :
  sim g s -> is_pe PE_size p -> c_pc g p = CIn n l st -> l !! t = Some (i :: r) -> strip [i] = [] ->
  moved g g' p (CIn n (<[t := r]> l) st) ->
  c_mem g' = c_mem g -> c_pSync g' = c_pSync g -> c_seq g' = c_seq g ->
  (forall q, (snd <$> wire g' p q) ++ posts q (concat (<[t := r]> l)) = (snd <$> wire g p q) ++ posts q (concat l)) ->
  (forall q, Forall (fun x => x.1 = n /\ request x.2 /\ target x.2 = q) (wire g' p q) /\
     (wire g' p q <> [] -> exists t' r', <[t := r]> l !! t' = Some r' /\ Quiet q ∈ r')) ->
  sim g' s.
Proof.
  intros Hs Hp Hpc Ht Hi [Hk Ho] Hm Hf Hsq Hq Hw. split; rewrite ?Hm, ?Hf, ?Hsq; try apply Hs; intros p' Hp'; rewrite Hk; unfold upd;
    destruct (Z.eqb_spec p' p) as [->|Hne].
  - rewrite (sim_pc g s Hs p Hp), Hpc. cbn [abs_pc]. f_equal. apply abs_threads_ext; [by rewrite (strip_insert l t i r)|].
    intros q. by rewrite Hq.
  - rewrite Ho by done. by apply Hs.
  - pose proof (sim_wires g s Hs p Hp) as H. rewrite Hpc in H. destruct H as (Hpo & Hst & _).
    split; [by apply (quieted_pop l t i r)|]. done.
  - rewrite Ho by done. by apply Hs.
Qed.

(** An access of a thread, its own or one of a queue pair. *)
Lemma sim_access g g' s p n l st c t o r junk m k :
  sim g s -> is_pe PE_size p -> c_pc g p = CIn n l st -> calls !! n = Some c ->
  abs_threads (wire g p) l !! t = Some (o :: r) -> exec_op junk (accesses c) n p o (memory g) = Some m ->
  moved g g' p k -> c_mem g' = mem m -> c_pSync g' = pSync m -> c_seq g' = alltoall_sequence_number m ->
  abs_pc (wire g' p) k = In n (<[t := r]> (abs_threads (wire g p) l)) (abs_threads (fun _ => []) <$> st) -> wires_ok (wire g' p) k ->
  exists s', rtc astep s s' /\ sim g' s'.
Proof.
  intros Hs Hp Hpc Hc Ht He [Hk Ho] Hm Hf Hsq Ha Hw.
  destruct (exec_op_memory junk (accesses c) n p o (memory g) m s (sim_mem g s Hs) (sim_flag g s Hs) (sim_seq g s Hs) He)
    as (s1 & He1 & Hm1 & Hf1 & Hq1 & Hp1).
  exists (goto p (In n (<[t := r]> (abs_threads (wire g p) l)) (abs_threads (fun _ => []) <$> st)) s1). split.
  - apply rtc_once, (step_thread acalls PE_size s junk p t); [done|]. unfold exec. rewrite (sim_pc g s Hs p Hp), Hpc. cbn [abs_pc].
    rewrite list_lookup_fmap, Hc. cbn [fmap option_fmap option_map]. rewrite (all_empty_false _ t o r Ht), Ht. by rewrite He1.
  - split; cbn [goto mem pSync alltoall_sequence_number pc]; rewrite ?Hm, ?Hf, ?Hsq; try done; intros p' Hp'; rewrite Hk; unfold upd;
      destruct (Z.eqb_spec p' p) as [->|Hne]; try done; rewrite ?Hp1, Ho by done; by apply Hs.
Qed.

(** A PE enters a call or the next stage, or returns. *)
Lemma sim_goto g s p k t junk s' :
  sim g s -> is_pe PE_size p -> exec acalls junk p t s = Some s' -> s' = goto p (abs_pc (wire g p) k) s -> wires_ok (wire g p) k ->
  astep s s' /\ sim (cgoto p k g) s'.
Proof.
  intros Hs Hp He -> Hw. split; [by eapply step_thread|].
  split; cbn [goto mem pSync alltoall_sequence_number pc cgoto c_mem c_pSync c_seq c_pc wire]; try apply Hs;
    intros p' Hp'; unfold upd; destruct (Z.eqb_spec p' p) as [->|]; try done; by apply Hs.
Qed.

Lemma next_ok n st w : Forall posting st -> (forall q, w q = []) -> wires_ok w (cnext n st).
Proof.
  intros Hst Hw. destruct st as [|th st]; [done|]. apply Forall_cons in Hst as [H1 H2]. split; [done|]. split; [done|].
  intros q. by rewrite Hw.
Qed.

(** The threads after an access of thread [t]. *)
Lemma abs_pop w l t o r : l !! t = Some (Do o :: r) ->
  abs_threads w l !! t = Some (o :: strip r) /\ abs_threads w (<[t := r]> l) = <[t := strip r]> (abs_threads w l).
Proof.
  intros Ht. unfold abs_threads. assert (Hlt : (t < length (strip <$> l))%nat) by (rewrite length_fmap; by eapply lookup_lt_Some). split.
  - rewrite lookup_app_l by done. by rewrite list_lookup_fmap, Ht.
  - rewrite insert_app_l by done. rewrite list_fmap_insert. f_equal. apply list_fmap_ext. intros i q _.
    by rewrite (posts_pop q l t (Do o) r).
Qed.

Lemma sim_cop g s junk c n p i g1 l st t r :
  sim g s -> is_pe PE_size p -> c_pc g p = CIn n l st -> calls !! n = Some c -> l !! t = Some (i :: r) ->
  exec_cop junk c n p i g = Some g1 -> exists s', rtc astep s s' /\ sim (cgoto p (CIn n (<[t := r]> l) st) g1) s'.
Proof.
  intros Hs Hp Hpc Hc Ht Hx. pose proof (sim_wires g s Hs p Hp) as Hw. rewrite Hpc in Hw. destruct Hw as (Hpo & Hst & Hwr).
  destruct (quieted_pop l t i r Hpo Ht) as [Hpo' Hqd]. destruct i as [o|o|q]; cbn [exec_cop] in Hx.
  - apply bind_Some in Hx as (m & Hm & [= <-]). destruct (abs_pop (wire g p) l t o r Ht) as [Ha Hb].
    eapply (sim_access g _ s p n l st c t o (strip r) junk m); try done; [by rewrite <- Hb|]. split; [done|]. split; [done|].
    intros q. split; [apply Hwr|]. intros Hne. apply (quiet_kept l t (Do o) r); [done|done|]. by apply Hwr.
  - injection Hx as <-. exists s. split; [done|].
    eapply (sim_silent g _ s p n l st t (Post o) r); try done; cbn [cgoto set_wire wire].
    + split; cbn [cgoto set_wire c_pc wire]; [done|]. intros p' Hne. by rewrite upd_ne.
    + intros q. rewrite upd_eq. unfold upd at 1. destruct (Z.eqb_spec q (target o)) as [->|Hne].
      * rewrite (posts_pop_post l t o r) by (done || apply Hpo). rewrite fmap_app, <- app_assoc. done.
      * rewrite (posts_pop q l t (Post o) r); [done|done|]. cbn. by rewrite (proj2 (Z.eqb_neq _ _)) by done.
    + intros q. rewrite upd_eq. unfold upd. destruct (Z.eqb_spec q (target o)) as [->|Hne].
      * split; [apply Forall_app; split; [apply Hwr|constructor; [|done]; split; [done|]; split; [by apply Hqd|done]]|]. intros _. exists t, r.
        rewrite list_lookup_insert_eq by (by eapply lookup_lt_Some). split; [done|]. by apply Hqd.
      * split; [apply Hwr|]. intros Hn. apply (quiet_kept l t (Post o) r); [done|done|]. by apply Hwr.
  - destruct (wire g p q) eqn:Ew; [|done]. injection Hx as <-. exists s. split; [done|].
    eapply (sim_silent g _ s p n l st t (Quiet q) r); try done; cbn [cgoto wire].
    + intros q'. by rewrite (posts_pop q' l t (Quiet q) r).
    + intros q'. split; [apply Hwr|]. intros Hn. apply (quiet_kept l t (Quiet q) r); [done| |by apply Hwr]. congruence.
Qed.

Lemma sim_cexec g s g' junk p t : sim g s -> is_pe PE_size p -> cexec junk p t g = Some g' ->
  exists s', rtc astep s s' /\ sim g' s'.
Proof.
  intros Hs Hp. unfold cexec. pose proof (sim_wires g s Hs p Hp) as Hw. pose proof (sim_pc g s Hs p Hp) as Hpa.
  destruct (c_pc g p) as [n|n l st] eqn:Hpc.
  - intros (c & Hc & [= <-])%bind_Some. eexists. destruct (sim_goto g s p (cnext n (c_code c (c_seq g p) p)) 0 junk
      (goto p (abs_pc (wire g p) (cnext n (c_code c (c_seq g p) p))) s) Hs Hp) as [H1 H2]; [|done| |by split; [apply rtc_once|]].
    + unfold exec. rewrite Hpa. cbn [abs_pc]. rewrite list_lookup_fmap, Hc. cbn [fmap option_fmap option_map]. do 2 f_equal.
      rewrite (sim_seq g s Hs). by rewrite abs_next.
    + apply next_ok; [|done]. apply (proj1 (Forall_lookup _ _) calls_post n c Hc).
  - destruct Hw as (Hpo & Hst & Hwr). intros (c & Hc & H)%bind_Some. destruct (threads_done l) eqn:Hd.
    + injection H as <-. assert (Hnil : forall q, wire g p q = []).
      { intros q. destruct (wire g p q) eqn:E; [done|]. destruct (proj2 (Hwr q) ltac:(by rewrite E)) as (t' & r & Ht' & Hin).
        rewrite (threads_done_nil l t' r Hd Ht') in Hin. by apply elem_of_nil in Hin. }
      assert (Hcon : concat l = []).
      { clear -Hd. induction l as [|r l IH]; [done|]. cbn in *. destruct r; [by apply IH|done]. }
      eexists. destruct (sim_goto g s p (cnext n st) 0 junk (goto p (abs_pc (wire g p) (cnext n st)) s) Hs Hp) as [H1 H2];
        [|done|by apply next_ok|by split; [apply rtc_once|]].
      unfold exec. rewrite Hpa. cbn [abs_pc]. rewrite list_lookup_fmap, Hc. cbn [fmap option_fmap option_map].
      assert (all_empty (abs_threads (wire g p) l) = true) as ->; [|by rewrite abs_next].
      unfold all_empty. apply forallb_forall. intros r Hr%list_elem_of_In. unfold abs_threads in Hr.
      apply elem_of_app in Hr as [Hr|Hr]; apply list_elem_of_fmap in Hr as (x & -> & Hx).
      * apply list_elem_of_lookup in Hx as [t' Ht']. by rewrite (threads_done_nil l t' x Hd Ht').
      * by rewrite Hnil, Hcon.
    + destruct (l !! t) as [[|i r]|] eqn:Ht; try done. apply bind_Some in H as (g1 & Hx & [= <-]).
      by eapply sim_cop.
Qed.

(** The next request of a queue pair is an access of its thread. *)
Lemma abs_card w l q n o rest : is_pe PE_size q -> w q = (n, o) :: rest ->
  exists t r, abs_threads w l !! t = Some (o :: r) /\ abs_threads (upd w q rest) l = <[t := r]> (abs_threads w l).
Proof.
  intros Hq Hw. unfold is_pe in Hq. set (f := fun q => (snd <$> w q) ++ posts q (concat l)).
  assert (Hf : (f <$> seqZ 0 PE_size) !! Z.to_nat q = Some (f q)).
  { rewrite list_lookup_fmap, lookup_seqZ_lt by lia. cbn. do 2 f_equal. lia. }
  exists (length l + Z.to_nat q)%nat, ((snd <$> rest) ++ posts q (concat l)). unfold abs_threads. fold f. split.
  - rewrite <- (length_fmap strip l), lookup_app_r by lia. replace (_ - _)%nat with (Z.to_nat q) by lia. rewrite Hf. unfold f. by rewrite Hw.
  - rewrite <- (length_fmap strip l), insert_app_r. f_equal. apply list_eq. intros i. rewrite list_lookup_fmap.
    destruct (decide (i = Z.to_nat q)) as [->|Hne].
    + rewrite list_lookup_insert_eq by (by eapply lookup_lt_Some). rewrite lookup_seqZ_lt by lia. cbn.
      replace (0 + Z.of_nat (Z.to_nat q)) with q by lia. by rewrite upd_eq.
    + rewrite list_lookup_insert_ne, list_lookup_fmap by done. destruct (seqZ 0 PE_size !! i) as [q'|] eqn:E; [|done].
      apply lookup_seqZ in E as [-> Hlt]. cbn. by rewrite upd_ne by lia.
Qed.

Lemma sim_card g s g' junk p q : sim g s -> is_pe PE_size p -> is_pe PE_size q -> card junk p q g = Some g' ->
  exists s', rtc astep s s' /\ sim g' s'.
Proof.
  intros Hs Hp Hq. unfold card. destruct (wire g p q) as [|[n o] rest] eqn:Ew; [done|].
  pose proof (sim_wires g s Hs p Hp) as Hw. destruct (c_pc g p) as [m|m l st] eqn:Hpc; [by rewrite Hw in Ew|].
  destruct Hw as (Hpo & Hst & Hwr). destruct (Hwr q) as [Hn Hqt]. rewrite Ew in Hn. apply Forall_cons in Hn as [(E & _) Hn]. cbn in E. subst m.
  cbn [in_call]. rewrite Nat.eqb_refl. intros (c & Hc & (m & Hm & [= <-])%bind_Some)%bind_Some.
  destruct (abs_card (wire g p) l q n o rest Hq Ew) as (t & r & Ht & Hb).
  eapply (sim_access g _ s p n l st c t o r junk m (CIn n l st)); try done; cbn [set_wire set_memory wire c_pc].
  - split; cbn [set_wire set_memory wire c_pc].
    + intros p'. unfold upd. by destruct (Z.eqb_spec p' p) as [->|].
    + intros p' Hne. by rewrite upd_ne.
  - rewrite upd_eq. cbn [abs_pc]. by rewrite Hb.
  - rewrite upd_eq. split; [done|]. split; [done|]. intros q'. unfold upd. destruct (Z.eqb_spec q' q) as [->|]; [|apply Hwr].
    split; [done|]. intros _. apply Hqt. by rewrite Ew.
Qed.

Lemma card_sim_step g s g' : sim g s -> cstep g g' -> exists s', rtc astep s s' /\ sim g' s'.
Proof. intros Hs [junk p t g1 Hp He|junk p q g1 Hp Hq He]; [exact (sim_cexec g s g1 junk p t Hs Hp He)|exact (sim_card g s g1 junk p q Hs Hp Hq He)]. Qed.

Lemma sim_initial g : cinitial g -> exists s, initial PE_size s /\ sim g s.
Proof using.
  intros H0. exists (mkState (c_mem g) (c_pSync g) (c_seq g) (fun p => abs_pc (wire g p) (c_pc g p))). split.
  - intros p Hp. destruct (H0 p Hp) as (Hpc & Hsq & Hf & _). cbn. by rewrite Hpc.
  - split; try done. intros p Hp. destruct (H0 p Hp) as (Hpc & _ & _ & Hw). by rewrite Hpc.
Qed.

(** Every run of the machine is one of [FlagAlltoall]. *)
Lemma card_sim_run g g' : cinitial g -> rtc cstep g g' -> exists s s', initial PE_size s /\ rtc astep s s' /\ sim g' s'.
Proof.
  intros H0 Hrun. destruct (sim_initial g H0) as (s & Hs0 & Hs). exists s.
  assert (H : exists s', rtc astep s s' /\ sim g' s').
  { clear H0 Hs0. revert s Hs. induction Hrun as [g|g g1 g' H1 _ IH]; intros s Hs; [by exists s|].
    destruct (card_sim_step g s g1 Hs H1) as (s1 & Hr & Hs1). destruct (IH s1 Hs1) as (s' & Hr' & Hs'). exists s'. split; [by etrans|done]. }
  destruct H as (s' & Hr & Hs'). by exists s'.
Qed.

(** ** Progress *)

(** A queue pair with requests can always go on. *)
Lemma card_ready g s p q n l st c (junk : Z -> T) : sim g s -> is_pe PE_size p -> c_pc g p = CIn n l st -> calls !! n = Some c ->
  wire g p q <> [] -> exists g', cstep g g'.
Proof using.
  intros Hs Hp Hpc Hc Hne. pose proof (sim_wires g s Hs p Hp) as Hw. rewrite Hpc in Hw. destruct Hw as (_ & _ & Hw). destruct (Hw q) as [Hf _].
  destruct (wire g p q) as [|[m o] rest] eqn:E; [done|]. apply Forall_cons in Hf as [Hf _]. cbn in Hf.
  destruct Hf as (-> & [Ht Ho] & <-).
  assert (Hx : exists s1, exec_op junk (accesses c) n p o (memory g) = Some s1) by (destruct o; try done; by eexists). destruct Hx as [s1 Hx].
  eexists. apply (cstep_card _ junk p (target o) _ Hp Ht). unfold card. rewrite E, Hc. cbn. rewrite Hpc. cbn [in_call]. rewrite Nat.eqb_refl, Hx. reflexivity.
Qed.

(** When no thread can make a step and the queue pairs are empty, all threads wait for flags and have nothing to post. *)
Lemma stuck_waits junk c n p l g : posting l -> (forall q, wire g p q = []) ->
  (forall t i r, l !! t = Some (i :: r) -> exec_cop junk c n p i g = None) ->
  (forall t i r, l !! t = Some (i :: r) -> exists j v, i = Do (Wait j v) /\ c_pSync g p j <> v) /\ forall q, posts q (concat l) = [].
Proof using.
  intros [Hqt _] Hw Hst. assert (H : forall t i r, l !! t = Some (i :: r) -> exists j v, i = Do (Wait j v) /\ c_pSync g p j <> v).
  { intros t i r Ht. specialize (Hst t i r Ht). destruct i as [o|o|q]; cbn in Hst; [|done|by rewrite Hw in Hst].
    destruct o; cbn in Hst; try done. exists i, v. split; [done|]. case_if_in Hst; [done|lia]. }
  split; [done|]. intros q. apply no_posts. intros o Hin _. apply list_elem_of_In, in_concat in Hin as (r & Hr%list_elem_of_In & Ho%list_elem_of_In).
  apply list_elem_of_lookup in Hr as [t Ht]. destruct r as [|i r]; [by apply elem_of_nil in Ho|].
  destruct (H t i r Ht) as (j & v & -> & _). apply elem_of_cons in Ho as [|Ho]; [done|].
  destruct (proj1 (Forall_lookup _ _) Hqt t _ Ht) as [Hno _]. by apply (Hno o).
Qed.

(** ... so that the simulating machine is stuck as well. *)
Lemma stuck_abs junk (c : call (T := T)) n p l g s : threads_done l = false -> (forall q, wire g p q = []) -> (forall q, posts q (concat l) = []) ->
  (forall t i r, l !! t = Some (i :: r) -> exists j v, i = Do (Wait j v) /\ c_pSync g p j <> v) -> pSync s = c_pSync g ->
  all_empty (abs_threads (wire g p) l) = false /\
  forall t o r, abs_threads (wire g p) l !! t = Some (o :: r) -> exec_op junk c n p o s = None.
Proof using.
  intros Hd Hw Hq Hh Hf. assert (Hs : forall t i r, l !! t = Some (i :: r) -> exists j v, strip (i :: r) = Wait j v :: strip r /\ c_pSync g p j <> v).
  { intros t i r Ht. destruct (Hh t i r Ht) as (j & v & -> & Hv). by exists j, v. }
  split.
  - unfold threads_done in Hd. apply forallb_false in Hd as (r & [t Ht]%list_elem_of_lookup & Hr). destruct r as [|i r]; [done|].
    destruct (Hs t i r Ht) as (j & v & E & _). apply (all_empty_false _ t (Wait j v) (strip r)). unfold abs_threads.
    rewrite lookup_app_l by (rewrite length_fmap; by eapply lookup_lt_Some). by rewrite list_lookup_fmap, Ht, <- E.
  - intros t o r Ht. unfold abs_threads in Ht. apply lookup_app_Some in Ht as [Ht|[_ Ht]]; apply list_lookup_fmap_Some in Ht as (x & E & Hx).
    + destruct x as [|i x]; [done|]. destruct (Hs t i x Hx) as (j & v & E' & Hv). rewrite E' in E. injection E as -> _. cbn. rewrite Hf.
      by rewrite (proj2 (Z.eqb_neq _ _) Hv).
    + by rewrite Hw, Hq in E.
Qed.

(** Whenever the simulating machine can go on, so can this one. *)
Lemma posted_moves g s s' junk p t : sim g s -> is_pe PE_size p -> exec acalls junk p t s = Some s' -> exists g', cstep g g'.
Proof using.
  intros Hs Hp He. pose proof (sim_wires g s Hs p Hp) as Hw. unfold exec in He. rewrite (sim_pc g s Hs p Hp) in He.
  assert (Hstep : forall t', is_Some (cexec junk p t' g) -> exists g', cstep g g').
  { intros t' [g' Hg]. exists g'. by eapply cstep_thread. }
  destruct (c_pc g p) as [n|n l st] eqn:Hpc; cbn [abs_pc] in He; rewrite list_lookup_fmap in He;
    destruct (calls !! n) as [c|] eqn:Hc; try done; cbn [fmap option_fmap option_map] in He.
  { apply (Hstep 0%nat). unfold cexec. rewrite Hpc, Hc. by eexists. }
  destruct (threads_done l) eqn:Hd; [apply (Hstep 0%nat); unfold cexec; rewrite Hpc, Hc; cbn; rewrite Hd; by eexists|].
  destruct Hw as (Hpo & _ & Hw).
  destruct (forallb (fun q => match wire g p q with [] => true | _ => false end) (seqZ 0 PE_size)) eqn:Ew.
  2:{ apply forallb_false in Ew as (q & _ & Hq). apply (card_ready g s p q n l st c junk); try done. by destruct (wire g p q). }
  assert (Hnil : forall q, wire g p q = []).
  { intros q. destruct (wire g p q) as [|x w] eqn:E; [done|]. destruct (Hw q) as [Hf _]. rewrite E in Hf.
    apply Forall_cons in Hf as [(_ & [Ht _] & Hq) _]. rewrite Hq in Ht. rewrite forallb_forall in Ew. specialize (Ew q).
    rewrite E, <- list_elem_of_In, elem_of_seqZ in Ew. unfold is_pe in Ht. specialize (Ew ltac:(lia)). done. }
  set (stuck := fun r => match r with [] => true | i :: _ => match exec_cop junk c n p i g with Some _ => false | None => true end end).
  destruct (forallb stuck l) eqn:Est.
  - exfalso. rewrite forallb_forall in Est. destruct (stuck_waits junk c n p l g Hpo Hnil) as [Hh Hq].
    { intros t' i r Ht'. specialize (Est (i :: r) ltac:(apply list_elem_of_In; by eapply list_elem_of_lookup_2)). cbn in Est. by destruct exec_cop. }
    destruct (stuck_abs junk (accesses c) n p l g s Hd Hnil Hq Hh (sim_flag g s Hs)) as [Ha Hx]. rewrite Ha in He.
    destruct (abs_threads (wire g p) l !! t) as [[|o r]|] eqn:Ht; try done. by rewrite (Hx t o r Ht) in He.
  - apply forallb_false in Est as (r & [t' Ht']%list_elem_of_lookup & Hr). destruct r as [|i r]; [done|]. cbn in Hr.
    apply (Hstep t'). unfold cexec. rewrite Hpc, Hc. cbn. rewrite Hd, Ht'. destruct (exec_cop junk c n p i g); [by eexists|done].
Qed.

(** The work left: two for an operation, of which one is left when it is on a queue pair. *)
Definition pending (w : Z -> list (nat * op)) : Z := zsum (fun q => Z.of_nat (length (w q))) (seqZ 0 PE_size).

Definition stages_left (st : list (list (list cop))) : Z := 2 * Z.of_nat (length (concat (concat st))) + Z.of_nat (length st).

Definition cleft (ops : Z) (w : Z -> list (nat * op)) (k : ccounter) : Z :=
  match k with
  | COut n => Z.of_nat (length calls - n) * (ops + 1)
  | CIn n l st => Z.of_nat (length calls - S n) * (ops + 1) + stages_left (l :: st) + pending w
  end.

Lemma pending_nonneg w : 0 <= pending w.
Proof. apply zsum_nonneg. lia. Qed.

Lemma pending_upd w q l : is_pe PE_size q -> pending (upd w q l) = pending w + (Z.of_nat (length l) - Z.of_nat (length (w q))).
Proof.
  intros Hq. unfold pending. unfold is_pe in Hq. rewrite (zsum_change _ (fun q => Z.of_nat (length (w q))) _ q).
  - by rewrite upd_eq.
  - apply NoDup_seqZ.
  - apply elem_of_seqZ. lia.
  - intros x _ Hne. by rewrite upd_ne.
Qed.

Lemma stages_left_pop l st t i r : l !! t = Some (i :: r) -> stages_left (<[t := r]> l :: st) = stages_left (l :: st) - 2.
Proof.
  intros Ht. unfold stages_left. cbn [concat length]. rewrite !concat_app. destruct (concat_insert l t _ r Ht) as [-> ->].
  rewrite !length_app. cbn [length]. lia.
Qed.

Lemma next_left ops n st w :
  cleft ops w (cnext n st) <= Z.of_nat (length calls - S n) * (ops + 1) + stages_left st + pending w.
Proof. pose proof (pending_nonneg w). destruct st as [|th st]; cbn [cnext cleft]; [unfold stages_left; cbn [concat length]; lia|done]. Qed.

(** One step makes it smaller. *)
Lemma cleft_step ops g s g' :
  (forall n c k q, calls !! n = Some c -> stages_left (c_code c k q) <= ops) -> sim g s -> cstep g g' ->
  exists p, is_pe PE_size p /\ (forall p', p' <> p -> c_pc g' p' = c_pc g p' /\ wire g' p' = wire g p') /\
    cleft ops (wire g' p) (c_pc g' p) < cleft ops (wire g p) (c_pc g p).
Proof using.
  intros Hops Hs [junk p t g1 Hp He|junk p q g1 Hp Hq He]; exists p; (split; [done|]);
    pose proof (sim_wires g s Hs p Hp) as Hw; pose proof (pending_nonneg (wire g p)) as Hpn.
  - unfold cexec in He. destruct (c_pc g p) as [n|n l st] eqn:Hpc; apply bind_Some in He as (c & Hc & He); apply lookup_lt_Some in Hc as Hlen.
    + injection He as <-. cbn [cgoto c_pc wire]. rewrite upd_eq. split; [intros p' Hne; by rewrite upd_ne|].
      pose proof (next_left ops n (c_code c (c_seq g p) p) (wire g p)).
      assert (pending (wire g p) = 0) by (apply zsum_zero; intros q _; by rewrite Hw). pose proof (Hops n c (c_seq g p) p Hc). cbn [cleft].
      replace (Z.of_nat (length calls - n)) with (Z.of_nat (length calls - S n) + 1) by lia. lia.
    + destruct (threads_done l) eqn:Hd.
      * injection He as <-. cbn [cgoto c_pc wire]. rewrite upd_eq. split; [intros p' Hne; by rewrite upd_ne|].
        assert (stages_left st + 1 <= stages_left (l :: st)) by (unfold stages_left; cbn [concat length]; rewrite concat_app, length_app; lia).
        pose proof (next_left ops n st (wire g p)). cbn [cleft]. lia.
      * destruct (l !! t) as [[|i r]|] eqn:Ht; try done. apply bind_Some in He as (g2 & Hx & [= <-]). cbn [cgoto c_pc wire]. rewrite upd_eq.
        destruct i as [o|o|q]; cbn in Hx.
        -- apply bind_Some in Hx as (m & _ & [= <-]). cbn [set_memory wire c_pc]. split; [intros p' Hne; by rewrite upd_ne|].
           cbn [cleft]. rewrite (stages_left_pop l st t _ r Ht). lia.
        -- injection Hx as <-. cbn [set_wire wire c_pc]. split; [intros p' Hne; by rewrite !upd_ne|]. rewrite upd_eq.
           destruct Hw as [Hpo _]. destruct (quieted_pop l t _ r Hpo Ht) as [_ Hrq]. destruct (Hrq o eq_refl) as [[Ho _] _].
           cbn [cleft]. rewrite (stages_left_pop l st t _ r Ht), pending_upd by done. rewrite length_app. cbn. lia.
        -- destruct (wire g p q) eqn:Ew; [|done]. injection Hx as <-. split; [intros p' Hne; by rewrite upd_ne|].
           cbn [cleft]. rewrite (stages_left_pop l st t _ r Ht). lia.
  - unfold card in He. destruct (wire g p q) as [|[n o] rest] eqn:Ew; [done|]. apply bind_Some in He as (c & Hc & (m & _ & [= <-])%bind_Some).
    cbn [set_wire set_memory wire c_pc]. rewrite upd_eq. split; [intros p' Hne; by rewrite upd_ne|].
    destruct (c_pc g p) as [k|k l st] eqn:Hpc; [by rewrite Hw in Ew|]. cbn [cleft]. rewrite pending_upd by done. rewrite Ew. cbn [length]. lia.
Qed.

Definition crun_left (ops : Z) (g : cstate) : Z := zsum (fun p => cleft ops (wire g p) (c_pc g p)) (seqZ 0 PE_size).

Lemma crun_length ops k g s g' :
  (forall n c k q, calls !! n = Some c -> stages_left (c_code c k q) <= ops) -> sim g s -> nsteps cstep k g g' ->
  Z.of_nat k + crun_left ops g' <= crun_left ops g.
Proof.
  intros Hops Hs Hn. revert s Hs. induction Hn as [g|k g g1 g' H1 _ IH]; intros s Hs; [lia|].
  destruct (card_sim_step g s g1 Hs H1) as (s1 & _ & Hs1). specialize (IH s1 Hs1).
  destruct (cleft_step ops g s g1 Hops Hs H1) as (p & Hp & Ho & Hlt). enough (crun_left ops g1 < crun_left ops g) by lia. unfold crun_left.
  rewrite (zsum_change _ (fun p => cleft ops (wire g p) (c_pc g p)) _ p).
  - lia.
  - apply NoDup_seqZ.
  - apply elem_of_seqZ. unfold is_pe in Hp. lia.
  - intros x _ Hne. by destruct (Ho x Hne) as [-> ->].
Qed.

Lemma crun_left_nonneg ops g : 0 <= ops -> 0 <= crun_left ops g.
Proof.
  intros Ho. apply zsum_nonneg. intros p _. pose proof (pending_nonneg (wire g p)).
  destruct (c_pc g p); cbn [cleft]; unfold stages_left; nia.
Qed.

Lemma crun_bound ops k g g' :
  0 <= PE_size -> 0 <= ops -> (forall n c k q, calls !! n = Some c -> stages_left (c_code c k q) <= ops) -> cinitial g -> nsteps cstep k g g' ->
  Z.of_nat k <= PE_size * (Z.of_nat (length calls) * (ops + 1)).
Proof.
  intros HP Ho Hops H0 Hn. destruct (sim_initial g H0) as (s & _ & Hs). pose proof (crun_length ops k g s g' Hops Hs Hn) as H.
  pose proof (crun_left_nonneg ops g' Ho).
  enough (crun_left ops g = PE_size * (Z.of_nat (length calls) * (ops + 1))) by lia. unfold crun_left.
  rewrite (zsum_ext _ (fun _ => Z.of_nat (length calls) * (ops + 1))), zsum_const.
  - rewrite length_seqZ. lia.
  - intros p Hp%elem_of_seqZ. destruct (H0 p ltac:(unfold is_pe; lia)) as (-> & _). cbn [cleft]. by rewrite Nat.sub_0_r.
Qed.

End card.

(** ** Posted code and its accesses *)

(** A request is in the thread of its queue pair. *)
Lemma bind_once {A} (f : Z -> list A) qs t o : NoDup qs -> t ∈ qs ->
  (qs ≫= fun q => (if t =? q then [o] else []) ++ f q) ≡ₚ o :: (qs ≫= f).
Proof.
  induction qs as [|q qs IH]; intros Hnd Hin; [by apply elem_of_nil in Hin|]. apply NoDup_cons in Hnd as [Hq Hnd]. cbn.
  destruct (Z.eqb_spec t q) as [->|Hne].
  - cbn. do 2 f_equiv. assert (E : forall qs', q ∉ qs' -> (qs' ≫= fun q' => (if q =? q' then [o] else []) ++ f q') = qs' ≫= f); [|by rewrite E].
    clear. induction qs' as [|q' qs' IH]; [done|]. intros [Hne Hn]%not_elem_of_cons. cbn. rewrite (proj2 (Z.eqb_neq _ _) Hne), IH by done. done.
  - apply elem_of_cons in Hin as [|Hin]; [done|]. cbn. rewrite IH by done. by rewrite Permutation_middle.
Qed.

(** The accesses of the threads with those of the queue pairs. *)
Lemma flat_perm P r : (forall o, Post o ∈ r -> 0 <= target o < P) -> strip r ++ (seqZ 0 P ≫= fun q => posts q r) ≡ₚ flat r.
Proof.
  induction r as [|i r IH]; intros Ht.
  - cbn. by induction (seqZ 0 P).
  - specialize (IH (fun o Ho => Ht o ltac:(by right))). destruct i as [o|o|q]; cbn.
    + f_equiv. apply IH.
    + rewrite (bind_once (fun q => posts q r)); [|apply NoDup_seqZ|apply elem_of_seqZ; specialize (Ht o ltac:(by left)); lia].
      rewrite <- Permutation_middle. f_equiv. apply IH.
    + apply IH.
Qed.

Lemma strip_concat l : concat (strip <$> l) = strip (concat l).
Proof. induction l as [|r l IH]; [done|]. cbn. rewrite IH. symmetry. apply bind_app. Qed.

Lemma flat_concat l : concat (flat <$> l) = flat (concat l).
Proof. induction l as [|r l IH]; [done|]. cbn. rewrite IH. symmetry. apply bind_app. Qed.

Lemma abs_perm P l : (forall o, Post o ∈ concat l -> 0 <= target o < P) ->
  concat (abs_threads P (fun _ => []) l) ≡ₚ concat (flat <$> l).
Proof.
  intros Ht. unfold abs_threads. rewrite concat_app, strip_concat, flat_concat, concat_fmap. by apply flat_perm.
Qed.

Definition flat_code (f : Z -> Z -> list (list (list cop))) (n me : Z) : list (list (list op)) :=
  (fun l : list (list cop) => flat <$> l) <$> f n me.

(** Code whose accesses serve every peer once serves every peer once when posted. *)
Lemma abs_flag_code P (f : Z -> Z -> list (list (list cop))) h :
  flag_code P h -> (forall n me, flat_code f n me = h n me) ->
  (forall n me l, 0 <= n -> is_pe P me -> f n me = [l] ->
    Forall (ordered (alltoall_pSync_offset P n) me) (strip <$> l) /\
    (forall q, ordered (alltoall_pSync_offset P n) me (posts q (concat l))) /\
    forall o, Post o ∈ concat l -> 0 <= target o < P) ->
  flag_code P (abs_code P f).
Proof.
  intros Hf Eh Hl n me Hn Hme. destruct (Hf n me Hn Hme) as (l0 & E & [_ Hnd Hv] & Hb & Hall). rewrite <- Eh in E.
  unfold flat_code in E. destruct (f n me) as [|l [|]] eqn:El; [done| |done]. injection E as <-.
  destruct (Hl n me l Hn Hme El) as (Hs & Hq & Ht). pose proof (abs_perm P l Ht) as Hp.
  exists (abs_threads P (fun _ => []) l). split; [by unfold abs_code; rewrite El|]. split; [split|split].
  - apply Forall_app. split; [done|]. apply Forall_fmap, Forall_forall. intros q _. apply Hq.
  - by rewrite Hp.
  - by rewrite Hp.
  - by rewrite Hp.
  - intros q. rewrite !Hp. apply Hall.
Qed.

(** ** The variants *)

Section variants.
Context (PE_size WF_SIZE block_size : Z).

(** A thread that posts nothing. *)
Definition lift (f : Z -> Z -> list (list (list op))) (n me : Z) : list (list (list cop)) :=
  (fun l : list (list op) => (fun r : list op => Do <$> r) <$> l) <$> f n me.

Definition gda_posts (i : Z) (l : list Z) : list cop := l ≫= fun q => [Post (Put q); Post (PutEnd q); Post (Add q i)].

Definition gda_waits (off : Z) (l : list Z) : list cop := l ≫= fun q => [Do (Wait (off + q) 1); Quiet q; Do (Store (off + q) 0)].

Definition gda_thread (off me tid : Z) : list cop :=
  gda_posts (off + me) (served PE_size WF_SIZE block_size tid) ++ gda_waits off (served PE_size WF_SIZE block_size tid) ++
  (Do <$> bump_if tid).

Definition gda_alltoallmem_linear_thread_puts_wg (n me : Z) : list (list (list cop)) :=
  [gda_thread (alltoall_pSync_offset PE_size n) me <$> seqZ 0 block_size].

End variants.

(** The threads are the lanes of one wave. *)
Definition gda_alltoallmem_linear_thread_puts_wave (PE_size WF_SIZE block_size : Z) : Z -> Z -> list (list (list cop)) :=
  gda_alltoallmem_linear_thread_puts_wg PE_size WF_SIZE (Z.min block_size WF_SIZE).

(** *** The IPC variants *)

Lemma strip_lift (r : list op) : strip (Do <$> r) = r.
Proof. induction r as [|o r IH]; [done|]. cbn. f_equal. exact IH. Qed.

Lemma flat_lift (r : list op) : flat (Do <$> r) = r.
Proof. induction r as [|o r IH]; [done|]. cbn. f_equal. exact IH. Qed.

Lemma lift_no_post (l : list (list op)) o : Post o ∉ concat ((fun r : list op => Do <$> r) <$> l).
Proof.
  induction l as [|r l IH]; cbn; [by intros ?%elem_of_nil|]. rewrite elem_of_app. intros [H|H]; [|done].
  by apply list_elem_of_fmap in H as (? & ? & _).
Qed.

Lemma fmap_same {A} (f : A -> A) (l : list A) : (forall x, f x = x) -> f <$> l = l.
Proof. intros H. induction l as [|x l IH]; [done|]. cbn. by rewrite H, IH. Qed.

Lemma lift_flag_code P f : flag_code P f -> flag_code P (abs_code P (lift f)).
Proof.
  intros Hf. apply (abs_flag_code P (lift f) f); [done| |].
  - intros n me. unfold flat_code, lift. rewrite <- list_fmap_compose. apply fmap_same. intros l. unfold compose.
    rewrite <- list_fmap_compose. apply fmap_same, flat_lift.
  - intros n me l Hn Hme El. destruct (Hf n me Hn Hme) as (l0 & E & [Ho _ _] & _). unfold lift in El. rewrite E in El. injection El as <-.
    split; [|split].
    + rewrite <- list_fmap_compose, (fmap_same _ l0) by (apply strip_lift). done.
    + intros q. rewrite no_posts; [done|]. intros o H. by apply lift_no_post in H.
    + intros o H. by apply lift_no_post in H.
Qed.

Lemma quieted_lift P (r : list op) : quieted P (Do <$> r).
Proof.
  induction r as [|o r IH]; [done|]. cbn. split; [|done]. destruct o; try done. intros o (? & ? & _)%list_elem_of_fmap. done.
Qed.

Lemma lift_posting P f n me : Forall (posting P) (lift f n me).
Proof.
  apply Forall_fmap, Forall_forall. intros l _. split; [apply Forall_fmap, Forall_forall; intros r _; apply quieted_lift|].
  intros t t' r r' o o' Ht _ Hin. apply list_lookup_fmap_Some in Ht as (r0 & -> & _). by apply list_elem_of_fmap in Hin as (? & ? & _).
Qed.

(** *** The GDA variants *)

Section gda.
Context (PE_size WF_SIZE block_size : Z).

Lemma strip_app r r' : strip (r ++ r') = strip r ++ strip r'.
Proof. apply bind_app. Qed.

Lemma flat_app r r' : flat (r ++ r') = flat r ++ flat r'.
Proof. apply bind_app. Qed.

Lemma strip_posts i l : strip (gda_posts i l) = [].
Proof. by induction l. Qed.

Lemma strip_waits off l : strip (gda_waits off l) = waits off l.
Proof. induction l as [|q l IH]; [done|]. cbn. do 2 f_equal. exact IH. Qed.

Lemma flat_posts i l : flat (gda_posts i l) = gda_sends i l.
Proof. induction l as [|q l IH]; [done|]. cbn. do 3 f_equal. exact IH. Qed.

Lemma flat_waits off l : flat (gda_waits off l) = waits off l.
Proof. induction l as [|q l IH]; [done|]. cbn. do 2 f_equal. exact IH. Qed.

Lemma waits_no_post off l tid o : Post o ∉ gda_waits off l ++ (Do <$> bump_if tid).
Proof.
  rewrite elem_of_app. intros [(q & H & _)%list_elem_of_bind|(? & ? & _)%list_elem_of_fmap]; [|done].
  rewrite !elem_of_cons, elem_of_nil in H. naive_solver.
Qed.

Lemma in_posts i l o : Post o ∈ gda_posts i l -> target o ∈ l.
Proof.
  intros (q & H & Hq)%list_elem_of_bind. rewrite !elem_of_cons, elem_of_nil in H. naive_solver.
Qed.

Lemma in_thread off me tid o : Post o ∈ gda_thread PE_size WF_SIZE block_size off me tid -> target o ∈ served PE_size WF_SIZE block_size tid.
Proof. unfold gda_thread. rewrite elem_of_app. intros [H|H]; [by eapply in_posts|by apply waits_no_post in H]. Qed.

Lemma posts_ordered off me q l tl : ordered off me tl -> ordered off me (posts q (gda_posts (off + me) l) ++ tl).
Proof.
  intros Ho. induction l as [|q' l IH]; [done|]. unfold gda_posts. rewrite bind_cons, posts_app, <- app_assoc. cbn.
  destruct (Z.eqb_spec q' q) as [->|]; [|done]. cbn. repeat split; try done; by left.
Qed.

Lemma thread_posts off me tid q : posts q (gda_thread PE_size WF_SIZE block_size off me tid) =
  posts q (gda_posts (off + me) (served PE_size WF_SIZE block_size tid)).
Proof.
  unfold gda_thread. rewrite posts_app, (no_posts q (_ ++ _)); [apply app_nil_r|]. intros o H. by apply waits_no_post in H.
Qed.

Lemma gda_posts_ordered off me q l : ordered off me (posts q (concat (gda_thread PE_size WF_SIZE block_size off me <$> l))).
Proof.
  induction l as [|tid l IH]; [done|]. cbn [fmap list_fmap concat]. rewrite posts_app, thread_posts. by apply posts_ordered.
Qed.

Lemma gda_strip off me tid : strip (gda_thread PE_size WF_SIZE block_size off me tid) =
  waits off (served PE_size WF_SIZE block_size tid) ++ bump_if tid.
Proof. unfold gda_thread. by rewrite !strip_app, strip_posts, strip_waits, strip_lift. Qed.

Lemma gda_flat off me tid : flat (gda_thread PE_size WF_SIZE block_size off me tid) = gda_accesses PE_size WF_SIZE block_size off me tid.
Proof. unfold gda_thread. by rewrite !flat_app, flat_posts, flat_waits, flat_lift. Qed.

Lemma quieted_posts i l tl : (forall q, q ∈ l -> is_pe PE_size q /\ Quiet q ∈ tl) -> quieted PE_size tl ->
  quieted PE_size (gda_posts i l ++ tl).
Proof.
  intros Hq Ht. induction l as [|q l IH]; [done|]. destruct (Hq q ltac:(by left)) as [Hp _]. assert (Hin : Quiet q ∈ gda_posts i l ++ tl) by (apply elem_of_app; right; apply Hq; by left).
  cbn. assert (H : forall j, Quiet q ∈ j :: (gda_posts i l ++ tl)) by (intros j; by right).
  split; [by split; [|right]|]. split; [by split; [|right]|]. split; [done|]. apply IH. intros q' Hq'. apply Hq. by right.
Qed.

Lemma quieted_no_post r : (forall o, Post o ∉ r) -> quieted PE_size r.
Proof.
  induction r as [|i r IH]; [done|]. intros H. split; [|apply IH; intros o Ho; apply (H o); by right].
  destruct i as [o|o|]; [|exfalso; apply (H o); by left|done]. destruct o; try done. intros o Ho. apply (H o). by right.
Qed.

Lemma gda_quieted off me tid : quieted PE_size (gda_thread PE_size WF_SIZE block_size off me tid).
Proof.
  apply quieted_posts; [|apply quieted_no_post, waits_no_post].
  intros q Hq. split; [apply served_spec in Hq; apply Hq|]. apply elem_of_app. left. apply list_elem_of_bind. exists q. split; [|done]. right. by left.
Qed.

Hypothesis block_pos : 0 < block_size.
Hypothesis WF_pos : 0 < WF_SIZE.
Hypothesis one_wave : block_size <= WF_SIZE \/ PE_size <= WF_SIZE.

Lemma gda_posting n me : Forall (posting PE_size) (gda_alltoallmem_linear_thread_puts_wg PE_size WF_SIZE block_size n me).
Proof using All.
  apply Forall_singleton. split; [apply Forall_fmap, Forall_forall; intros tid _; apply gda_quieted|].
  intros t t' r r' o o' (a & -> & Ha)%list_lookup_fmap_Some (b & -> & Hb)%list_lookup_fmap_Some Ho%in_thread Ho'%in_thread E.
  rewrite E in Ho. apply lookup_seqZ in Ha as [-> Ha], Hb as [-> Hb].
  enough (0 + Z.of_nat t = 0 + Z.of_nat t') by lia.
  apply (served_once PE_size WF_SIZE block_size block_pos WF_pos one_wave _ _ (target o')); lia || done.
Qed.

Lemma gda_flag_code : flag_code PE_size (abs_code PE_size (gda_alltoallmem_linear_thread_puts_wg PE_size WF_SIZE block_size)).
Proof using All.
  apply (abs_flag_code PE_size _ (gda_accesses_wg PE_size WF_SIZE block_size)); [by apply gda_accesses_flag_code| |].
  - intros n me. unfold flat_code, gda_alltoallmem_linear_thread_puts_wg, gda_accesses_wg. cbn [fmap list_fmap]. f_equal.
    rewrite <- list_fmap_compose. apply list_fmap_ext. intros i tid _. apply gda_flat.
  - intros n me l Hn Hme [= <-]. split; [|split].
    + apply Forall_fmap, Forall_fmap, Forall_forall. intros tid _. unfold compose. rewrite gda_strip.
      destruct (ordered_bump (alltoall_pSync_offset PE_size n) me tid) as [Hb Hb']. by apply ordered_waits.
    + intros q. apply gda_posts_ordered.
    + intros o. rewrite concat_fmap, list_elem_of_bind. intros (tid & Ho%in_thread & _). apply served_spec in Ho. lia.
Qed.

End gda.

(** ** Correctness *)

Section correct.
Context {T : Type} (PE_size WF_SIZE block_size : Z).

(** A call of one of the variants, over shared memory or over network cards. *)
Definition posted_code (f : Z -> Z -> list (list (list cop))) : Prop :=
  (exists h, thread_puts_code PE_size WF_SIZE block_size h /\ f = lift h) \/
  f = gda_alltoallmem_linear_thread_puts_wg PE_size WF_SIZE block_size \/
  f = gda_alltoallmem_linear_thread_puts_wave PE_size WF_SIZE block_size.

Hypothesis block_pos : 0 < block_size.
Hypothesis WF_pos : 0 < WF_SIZE.
Hypothesis one_wave : block_size <= WF_SIZE \/ PE_size <= WF_SIZE.

Lemma posted_ok f : posted_code f -> flag_code PE_size (abs_code PE_size f) /\ forall n me, Forall (posting PE_size) (f n me).
Proof using All.
  intros [(h & Hh & ->)|[->| ->]].
  - split; [apply lift_flag_code; by apply (thread_puts_ok PE_size WF_SIZE block_size block_pos WF_pos one_wave)|]. intros n me. apply lift_posting.
  - split; [by apply gda_flag_code|]. intros n me. by apply gda_posting.
  - split; [apply gda_flag_code; lia|]. intros n me. apply gda_posting; lia.
Qed.

Lemma threads_length {A} (f : Z -> list A) bs b : 0 <= bs <= block_size -> 0 <= b -> (forall tid, Z.of_nat (length (f tid)) <= b) ->
  Z.of_nat (length (concat (f <$> seqZ 0 bs))) <= block_size * b.
Proof using block_pos.
  intros Hbs Hb Hf. enough (H : forall l, Z.of_nat (length (concat (f <$> l))) <= Z.of_nat (length l) * b).
  { specialize (H (seqZ 0 bs)). rewrite length_seqZ, Z2Nat.id in H by lia. nia. }
  induction l as [|tid l IH]; [cbn; lia|]. cbn [fmap list_fmap concat length]. rewrite length_app. specialize (Hf tid). lia.
Qed.

Lemma gda_thread_length bs off me tid : 0 < PE_size -> Z.of_nat (length (gda_thread PE_size WF_SIZE bs off me tid)) <= 6 * PE_size + 1.
Proof using.
  intros HP. pose proof (served_length PE_size WF_SIZE HP bs tid). unfold gda_thread. rewrite !length_app. unfold gda_posts, gda_waits.
  rewrite !(bind_length _ 3) by done. rewrite length_fmap. unfold bump_if. case_if; cbn; lia.
Qed.

Lemma lift_length f n me : length (concat (concat (lift f n me))) = length (concat (concat (f n me))) /\ length (lift f n me) = length (f n me).
Proof using.
  unfold lift. split; [|apply length_fmap]. induction (f n me) as [|l st IH]; [done|]. cbn. rewrite !concat_app, !length_app, IH. f_equal.
  clear. induction l as [|r l IH]; [done|]. cbn. by rewrite !length_app, length_fmap, IH.
Qed.

Lemma posted_length f n me : 0 < PE_size -> posted_code f -> stages_left (f n me) <= 2 * (block_size * (6 * PE_size + 1)) + 1.
Proof using block_pos WF_pos.
  intros HP. assert (Hg : forall bs, 0 <= bs <= block_size ->
    stages_left (gda_alltoallmem_linear_thread_puts_wg PE_size WF_SIZE bs n me) <= 2 * (block_size * (6 * PE_size + 1)) + 1).
  { intros bs Hbs. unfold stages_left, gda_alltoallmem_linear_thread_puts_wg. cbn [concat length]. rewrite app_nil_r.
    pose proof (threads_length (gda_thread PE_size WF_SIZE bs (alltoall_pSync_offset PE_size n) me) bs (6 * PE_size + 1) Hbs ltac:(lia)
      (fun tid => gda_thread_length bs _ me tid HP)). lia. }
  intros [(h & Hh & ->)|[->| ->]]; [|apply Hg; lia|apply Hg; lia]. unfold stages_left. destruct (lift_length h n me) as [-> ->].
  pose proof (thread_puts_length PE_size WF_SIZE block_size HP block_pos WF_pos h n me Hh).
  assert (length (h n me) = 1%nat) as -> by (by destruct Hh as [->|[->|[->| ->]]]). nia.
Qed.

(** C11: the all-to-all variants in which each thread serves some peers, over shared
    memory ([alltoall_linear_thread_puts_wg] and its untyped, wave and ranged forms)
    and over network cards (the work-group and the wave form), in any sequence of
    calls of them by all PEs of a team: when the block or the team is no larger than
    a wave, a PE that has returned from a call has the block of every peer in its
    destination, and none of the requests it has posted is outstanding, so that it
    may reuse its source.  On the cards the put and the flag of a peer are requests
    that are executed in order at any later time, reading a source that may have
    changed once the call has returned: this is excluded by the [quiet_single] of each
    peer before its flag is cleared. *)
Theorem thread_puts_correct (calls : list (ccall (T := T))) g g' p q n m c x :
  0 < PE_size ->
  Forall (fun c => posted_code (c_code c) /\ 0 <= c_elem_offset c /\ c_elem_offset c + c_elem_count c <= c_nelems c) calls ->
  cinitial PE_size g -> rtc (cstep PE_size calls) g g' -> is_pe PE_size p -> is_pe PE_size q ->
  c_pc g' q = COut n -> (m < n)%nat -> calls !! m = Some c ->
  c_elem_offset c <= x < c_elem_offset c + c_elem_count c ->
  c_mem g' (Dst m) q (p * c_nelems c + x) = c_source c p q x /\ wire g' q p = [].
Proof using block_pos WF_pos one_wave.
  intros HP Hok H0 Hrun Hp Hq Hpc Hlt Hc Hx.
  destruct (card_sim_run PE_size calls) with (g := g) (g' := g') as (s & s' & Hs0 & Hr & Hs); [|done|done|].
  { eapply Forall_impl; [exact Hok|]. intros c' [Hf _]. by apply posted_ok. }
  pose proof (sim_wires _ _ _ Hs q Hq) as Hw. pose proof (sim_pc _ _ _ Hs q Hq) as Hpa. rewrite Hpc in Hw, Hpa. split; [|apply Hw].
  rewrite <- (sim_mem _ _ _ Hs).
  apply (reachable_block (accesses PE_size <$> calls) PE_size HP) with (s := s) (n := n) (c := accesses PE_size c); try done.
  - apply Forall_fmap. eapply Forall_impl; [exact Hok|]. intros c' (Hf & Hb). split; [by apply posted_ok|]. by split.
  - by rewrite list_lookup_fmap, Hc.
Qed.

(** The same calls cannot deadlock, and no run, with the steps of the cards, is longer
    than a bound that is linear in the number of calls. *)
Theorem posted_finish (calls : list (ccall (T := T))) g k g' :
  0 < PE_size ->
  Forall (fun c => posted_code (c_code c) /\ 0 <= c_elem_offset c /\ c_elem_offset c + c_elem_count c <= c_nelems c) calls ->
  cinitial PE_size g -> nsteps (cstep PE_size calls) k g g' ->
  Z.of_nat k <= PE_size * (Z.of_nat (length calls) * (2 * (block_size * (6 * PE_size + 1)) + 2)) /\
  ((forall p, is_pe PE_size p -> c_pc g' p = COut (length calls)) \/ exists g'', cstep PE_size calls g' g'').
Proof using block_pos WF_pos one_wave.
  intros HP Hok H0 Hn. assert (Hpost : Forall (fun c => forall n me, Forall (posting PE_size) (c_code c n me)) calls).
  { eapply Forall_impl; [exact Hok|]. intros c' [Hf _]. by apply posted_ok. }
  assert (Hcalls : Forall (fun c => flag_code PE_size (code c) /\ staging c = None /\ call_fits c) (accesses PE_size <$> calls)).
  { apply Forall_fmap. eapply Forall_impl; [exact Hok|]. intros c' (Hf & Hb). split; [by apply posted_ok|]. by split. }
  split.
  - apply (crun_bound PE_size calls Hpost (2 * (block_size * (6 * PE_size + 1)) + 1) k g g') in Hn; try done; try nia.
    intros n c k' q Hc. apply posted_length; [done|]. apply (proj1 (Forall_lookup _ _) Hok n c Hc).
  - destruct (card_sim_run PE_size calls Hpost g g' H0) as (s & s' & Hs0 & Hr & Hs); [apply rtc_nsteps; by exists k|].
    pose proof (flag_reachable_inv (accesses PE_size <$> calls) PE_size HP Hcalls s s' Hs0 Hr) as Hi.
    destruct (flag_finished_or (accesses PE_size <$> calls) PE_size s') as [Hf|(p & Hp & Hnf)].
    + left. intros p Hp. specialize (Hf p Hp). rewrite (sim_pc _ _ _ Hs p Hp), length_fmap in Hf. destruct (c_pc g' p); [|done].
      cbn in Hf. by injection Hf as ->.
    + right. destruct (flag_some_moves (accesses PE_size <$> calls) PE_size s' (fun x => c_mem g' Tmp 0 x) Hi p Hp Hnf) as (q & t & s'' & Hq & He).
      exact (posted_moves PE_size calls g' s' s'' _ q t Hs Hq He).
Qed.

End correct.

(** ** Concrete runs *)

(** A step of thread [t] of PE [p], or of its card to [q]. *)
Inductive cchoice := Thread (p : Z) (t : nat) | Card (p q : Z).

Definition cdrive_step (calls : list (ccall (T := Z))) (PE_size : Z) (g : cstate) (x : cchoice) : cstate :=
  default g match x with
            | Thread p t => cexec PE_size calls (fun _ => -1) p t g
            | Card p q => card PE_size calls (fun _ => -1) p q g
            end.

Definition cdrive (calls : list (ccall (T := Z))) (PE_size : Z) (schedule : list cchoice) (g : cstate) : cstate :=
  foldl (cdrive_step calls PE_size) g schedule.

Definition choice_ok (PE_size : Z) (x : cchoice) : Prop :=
  match x with Thread p _ => is_pe PE_size p | Card p q => is_pe PE_size p /\ is_pe PE_size q end.

Lemma cdrive_rtc PE_size calls schedule g : Forall (choice_ok PE_size) schedule -> rtc (cstep PE_size calls) g (cdrive calls PE_size schedule g).
Proof.
  intros Hs. revert g. induction Hs as [|x l Hx Hl IH]; intros g; [done|]. unfold cdrive. cbn [foldl]. unfold cdrive_step at 2.
  destruct x as [p t|p q]; cbn [choice_ok] in Hx.
  - destruct (cexec PE_size calls _ p t g) eqn:E; [|apply IH]. eapply rtc_l; [exact (cstep_thread _ _ _ _ p t _ Hx E)|]. apply IH.
  - destruct Hx as [Hp Hq]. destruct (card PE_size calls _ p q g) eqn:E; [|apply IH]. eapply rtc_l; [exact (cstep_card _ _ _ _ p q _ Hp Hq E)|]. apply IH.
Qed.

Definition cstart : cstate (T := Z) := mkCState (fun _ _ _ => 0) (fun _ _ => 0) (fun _ => 0) (fun _ => COut 0) (fun _ _ => []).

(** Two PEs with two threads each: a call over network cards, one over shared memory, and one over cards by a wave. *)
Definition three_calls : list ccall :=
  [mkCCall 3 0 3 (fun p q _ => 10 * p + q) (gda_alltoallmem_linear_thread_puts_wg 2 64 2);
   mkCCall 3 1 2 (fun p q x => 100 + 10 * p + q) (lift (alltoall_linear_thread_puts_das 2 64 2));
   mkCCall 3 0 3 (fun p q x => 1000 + 10 * p + q) (gda_alltoallmem_linear_thread_puts_wave 2 64 2)].

(** PE 0 posts and waits, its card is slower than that of PE 1. *)
Definition three_schedule : list cchoice :=
  let both p k := concat (replicate k [Thread p 0%nat; Thread p 1%nat]) in
  let cards p k := concat (replicate k [Card p 0; Card p 1]) in
  both 0 8%nat ++ both 1 8%nat ++ cards 1 3%nat ++ both 0 4%nat ++ cards 0 2%nat ++ both 1 4%nat ++ cards 0 1%nat ++
  both 0 20%nat ++ both 1 20%nat ++ both 0 20%nat ++ both 1 20%nat ++ cards 0 3%nat ++ cards 1 3%nat ++ both 0 20%nat ++ both 1 20%nat.

Lemma three_ok :
  Forall (fun c => posted_code 2 64 2 (c_code c) /\ 0 <= c_elem_offset c /\ c_elem_offset c + c_elem_count c <= c_nelems c) three_calls.
Proof.
  repeat (apply Forall_cons; split; [split; [|cbn; lia]|]); [| | |done].
  - right. by left.
  - left. eexists. split; [|reflexivity]. right. right. by left.
  - right. by right.
Qed.

Lemma three_schedule_ok : Forall (choice_ok 2) three_schedule.
Proof. repeat (constructor; [cbn; unfold is_pe; lia|]). constructor. Qed.

Lemma thread_puts_correct_witness :
  c_pc (cdrive three_calls 2 three_schedule cstart) 1 = COut 3 /\
  c_mem (cdrive three_calls 2 three_schedule cstart) (Dst 2) 1 (0 * 3 + 2) = 1001 /\
  wire (cdrive three_calls 2 three_schedule cstart) 1 0 = [].
Proof.
  split; [vm_compute; reflexivity|].
  apply (thread_puts_correct 2 64 2 ltac:(lia) ltac:(lia) ltac:(lia) three_calls cstart _ 0 1 3 2
    (mkCCall 3 0 3 (fun p q x => 1000 + 10 * p + q) (gda_alltoallmem_linear_thread_puts_wave 2 64 2)) 2 ltac:(lia) three_ok).
  - intros p _. by repeat split.
  - apply cdrive_rtc, three_schedule_ok.
  - unfold is_pe. lia.
  - unfold is_pe. lia.
  - vm_compute. reflexivity.
  - lia.
  - reflexivity.
  - cbn. lia.
Defined.

Lemma posted_finish_witness :
  exists k, Z.of_nat k <= 2 * (3 * (2 * (2 * (6 * 2 + 1)) + 2)) /\
    forall p, is_pe 2 p -> c_pc (cdrive three_calls 2 three_schedule cstart) p = COut 3.
Proof.
  destruct (proj1 (rtc_nsteps _ _) (cdrive_rtc 2 three_calls three_schedule cstart three_schedule_ok)) as [k Hk]. exists k.
  destruct (posted_finish 2 64 2 ltac:(lia) ltac:(lia) ltac:(lia) three_calls cstart k _ ltac:(lia) three_ok
    ltac:(intros p _; by repeat split) Hk) as [Hle _]. split; [exact Hle|].
  intros p Hp. assert (p = 0 \/ p = 1) as [->| ->] by (unfold is_pe in Hp; lia); vm_compute; reflexivity.
Defined.
