(* ===== verification/ChainBroadcast.v ===== *)
(** * Chain broadcast

    [IPCContext::internal_chain_broadcast] and the choice of
    [internal_broadcastmem_wg_das] (src/ipc/context_ipc_device_coll_das.cpp), as run
    by the PEs of a team for any sequence of calls, interleaved in any order.  The
    message goes in chunks along a chain that starts at the root; a PE waits for a
    chunk, puts it to the next PE of the chain and raises the flag there to the
    number of chunks sent.  After all chunks the team synchronises, and then each
    PE clears its flag.

    PEs are named by their rank in the team.  A put takes two steps, between which
    the target has arbitrary contents.  The synchronisation is the one that
    [Barrier.sync_is_a_barrier] shows to be implemented. *)

From Stdlib Require Import ZArith Lia.
From stdpp Require Import base option numbers list relations.
From S2P Require Import Prelude.

Section chain.
Context {T : Type}.
Context (pe_size CHUNK_NELEMS : Z).

Record args := mkArgs { nelems : Z; root_rank : Z; src : Z -> T }.

Context (calls : list args).

(** ** Geometry *)

Definition virtual_rank (a : args) (p : Z) : Z := let v := p - root_rank a in if v <? 0 then v + pe_size else v.

Definition next_rank (a : args) (p : Z) : option Z :=
  if virtual_rank a p <? pe_size - 1 then
    let r := virtual_rank a p + 1 + root_rank a in Some (if pe_size <=? r then r - pe_size else r)
  else None.

Definition num_chunks (a : args) : Z := (nelems a + CHUNK_NELEMS - 1) / CHUNK_NELEMS.

Definition chunk_offset (chunk : Z) : Z := chunk * CHUNK_NELEMS.

Definition chunk_count (a : args) (chunk : Z) : Z := Z.min CHUNK_NELEMS (nelems a - chunk_offset chunk).

(** ** State *)

Inductive phase :=
  | Fetch
  | Wait (chunk : Z)
  | Put (chunk : Z)
  | PutEnd (chunk : Z)
  | Signal (chunk : Z)
  | InBarrier
  | Clear.

Inductive counter :=
  | Out (n : nat)
  | At (n : nat) (ph : phase).

Record state := mkState {
  dst : nat -> Z -> Z -> T;
  p_sync : Z -> Z;
  pc : Z -> counter
}.

(** ** One step *)

Definition goto (me : Z) (k : counter) (s : state) : state := mkState (dst s) (p_sync s) (upd (pc s) me k).

Definition set_dst (n : nat) (q lo len : Z) (f : Z -> T) (s : state) : state :=
  mkState (fun n' => if decide (n' = n) then write (dst s n) q lo len f else dst s n') (p_sync s) (pc s).

Definition set_flag (q v : Z) (s : state) : state := mkState (dst s) (upd (p_sync s) q v) (pc s).

(** The head of the loop over the chunks. *)
Definition loop (a : args) (chunk : Z) : phase := if chunk <? num_chunks a then Wait chunk else InBarrier.

(** The PE has entered the synchronisation of call [n]. *)
Definition arrived (n : nat) (k : counter) : bool :=
  match k with
  | Out m => (n <? m)%nat
  | At m ph => (n <? m)%nat || (n =? m)%nat && match ph with InBarrier | Clear => true | _ => false end
  end.

Definition exec (junk : Z -> T) (me : Z) (s : state) : option state :=
  match pc s me with
  | Out n => match calls !! n with None => None | Some _ => Some (goto me (At n Fetch) s) end
  | At n ph =>
      match calls !! n with
      | None => None
      | Some a =>
          let is_root := virtual_rank a me =? 0 in
          match ph with
          | Fetch =>
              Some (goto me (At n (loop a 0)) (if is_root then set_dst n me 0 (nelems a) (src a) s else s))
          | Wait c =>
              if is_root || (c + 1 <=? p_sync s me) then
                Some (goto me (At n (match next_rank a me with Some _ => Put c | None => loop a (c + 1) end)) s)
              else None
          | Put c =>
              q ← next_rank a me; Some (goto me (At n (PutEnd c)) (set_dst n q (chunk_offset c) (chunk_count a c) junk s))
          | PutEnd c =>
              q ← next_rank a me;
              Some (goto me (At n (Signal c)) (set_dst n q (chunk_offset c) (chunk_count a c)
                (fun x => if is_root then src a (chunk_offset c + x) else dst s n me (chunk_offset c + x)) s))
          | Signal c => q ← next_rank a me; Some (goto me (At n (loop a (c + 1))) (set_flag q (c + 1) s))
          | InBarrier =>
              if forallb (fun p => arrived n (pc s p)) (seqZ 0 pe_size) then Some (goto me (At n Clear) s) else None
          | Clear => Some (goto me (Out (S n)) (set_flag me 0 s))
          end
      end
  end.

Definition is_pe (p : Z) : Prop := 0 <= p < pe_size.

Inductive step (s : state) : state -> Prop :=
  | step_pe junk p s' : is_pe p -> exec junk p s = Some s' -> step s s'.

Definition initial (s : state) : Prop := forall p, is_pe p -> pc s p = Out 0 /\ p_sync s p = 0.

Definition finished (s : state) : Prop := forall p, is_pe p -> pc s p = Out (length calls).

(** ** Progress of a PE in a call *)

Definition chunks_done (k : counter) (n : nat) (all : Z) (f : phase -> Z) : Z :=
  match k with
  | Out m => if (n <? m)%nat then all else 0
  | At m ph => if (n <? m)%nat then all else if (n =? m)%nat then f ph else 0
  end.

(** Chunks received, put to the next PE, and signalled. *)
Definition received (a : args) (k : counter) (n : nat) : Z :=
  chunks_done k n (num_chunks a) (fun ph => match ph with
    | Fetch => 0 | Wait c => c | Put c | PutEnd c | Signal c => c + 1 | _ => num_chunks a end).

Definition forwarded (a : args) (k : counter) (n : nat) : Z :=
  chunks_done k n (num_chunks a) (fun ph => match ph with
    | Fetch => 0 | Wait c | Put c | PutEnd c => c | Signal c => c + 1 | _ => num_chunks a end).

Definition signalled (a : args) (k : counter) (n : nat) : Z :=
  chunks_done k n (num_chunks a) (fun ph => match ph with
    | Fetch => 0 | Wait c | Put c | PutEnd c | Signal c => c | _ => num_chunks a end).

Definition fetched (k : counter) (n : nat) : bool :=
  match k with
  | Out m => (n <? m)%nat
  | At m ph => (n <? m)%nat || (n =? m)%nat && match ph with Fetch => false | _ => true end
  end.

(** The PE has left the synchronisation of call [n]. *)
Definition passed (n : nat) (k : counter) : bool :=
  match k with
  | Out m => (n <? m)%nat
  | At m ph => (n <? m)%nat || (n =? m)%nat && match ph with Clear => true | _ => false end
  end.

(** The call whose flags the PE will read or reads, [None] between the
    synchronisation and the clearing. *)
Definition reading (k : counter) : option nat :=
  match k with Out n => Some n | At _ InBarrier | At _ Clear => None | At n _ => Some n end.

(** ** Invariant *)

Hypothesis chunk_pos : 0 < CHUNK_NELEMS.
Hypothesis calls_ok : Forall (fun a => 0 <= nelems a /\ 0 <= root_rank a < pe_size) calls.

Definition pc_ok (me : Z) (k : counter) : Prop :=
  match k with
  | Out n => (n <= length calls)%nat
  | At n ph => exists a, calls !! n = Some a /\
      match ph with
      | Wait c => 0 <= c < num_chunks a
      | Put c | PutEnd c | Signal c => 0 <= c < num_chunks a /\ is_Some (next_rank a me)
      | _ => True
      end
  end.

Record inv (s : state) : Prop := {
  v_pc : forall p, is_pe p -> pc_ok p (pc s p);
  v_barrier : forall p q n, is_pe p -> is_pe q -> passed n (pc s p) = true -> arrived n (pc s q) = true;
  v_flag : forall u d n a, is_pe u -> is_pe d -> calls !! n = Some a -> next_rank a u = Some d ->
    reading (pc s d) = Some n -> p_sync s d <= signalled a (pc s u) n;
  v_received : forall u d n a, is_pe u -> is_pe d -> calls !! n = Some a -> next_rank a u = Some d ->
    received a (pc s d) n <= signalled a (pc s u) n;
  v_data : forall u d n a x, is_pe u -> is_pe d -> calls !! n = Some a -> next_rank a u = Some d ->
    0 <= x < nelems a -> x < forwarded a (pc s u) n * CHUNK_NELEMS -> dst s n d x = src a x;
  v_root : forall p n a x, is_pe p -> calls !! n = Some a -> virtual_rank a p = 0 -> 0 <= x < nelems a ->
    fetched (pc s p) n = true -> dst s n p x = src a x
}.

(** ** Geometry lemmas *)

Lemma chain_call_ok n a : calls !! n = Some a -> 0 <= nelems a /\ 0 <= root_rank a < pe_size.
Proof. exact (proj1 (Forall_lookup _ _) calls_ok n a). Qed.

Lemma next_virtual a u d : 0 <= root_rank a < pe_size -> is_pe u -> next_rank a u = Some d ->
  is_pe d /\ virtual_rank a d = virtual_rank a u + 1.
Proof.
  intros Hr Hu. unfold next_rank. destruct (virtual_rank a u <? pe_size - 1) eqn:E; [|done]. intros [= <-].
  unfold virtual_rank, is_pe in *. destruct (u - root_rank a <? 0) eqn:Eu; repeat case_if; lia.
Qed.

Lemma virtual_inj a p q : 0 <= root_rank a < pe_size -> is_pe p -> is_pe q -> virtual_rank a p = virtual_rank a q -> p = q.
Proof.
  unfold virtual_rank, is_pe. intros Hr Hp Hq. destruct (p - root_rank a <? 0) eqn:Ep, (q - root_rank a <? 0) eqn:Eq; lia.
Qed.

Lemma next_inj a u u' d : 0 <= root_rank a < pe_size -> is_pe u -> is_pe u' ->
  next_rank a u = Some d -> next_rank a u' = Some d -> u = u'.
Proof.
  intros Hr Hu Hu' H H'. destruct (next_virtual a u d Hr Hu H) as [Hd E]. destruct (next_virtual a u' d Hr Hu' H') as [_ E'].
  apply (virtual_inj a); try done. lia.
Qed.

(** Every PE but the root has a predecessor in the chain. *)
Lemma pred_exists a d : 0 <= root_rank a < pe_size -> is_pe d -> virtual_rank a d <> 0 ->
  exists u, is_pe u /\ next_rank a u = Some d.
Proof.
  unfold next_rank, virtual_rank, is_pe. intros Hr Hd Hv. exists (if d - 1 <? 0 then d - 1 + pe_size else d - 1).
  destruct (d - 1 <? 0) eqn:Ed; (split; [lia|]).
  all: destruct (d - root_rank a <? 0) eqn:Er; repeat case_if; try lia; f_equal; lia.
Qed.

Lemma num_chunks_cover a x : 0 <= x < nelems a -> x < num_chunks a * CHUNK_NELEMS.
Proof.
  intros Hx. unfold num_chunks.
  pose proof (Z.div_mod (nelems a + CHUNK_NELEMS - 1) CHUNK_NELEMS ltac:(lia)).
  pose proof (Z.mod_pos_bound (nelems a + CHUNK_NELEMS - 1) CHUNK_NELEMS chunk_pos). nia.
Qed.

Lemma next_ne a u d : 0 <= root_rank a < pe_size -> is_pe u -> next_rank a u = Some d -> u <> d.
Proof. intros Hr Hu H E. destruct (next_virtual a u d Hr Hu H) as [_ Hv]. rewrite E in Hv. lia. Qed.

(** A step of PE [r]. *)
Lemma chain_move s s' r k' :
  inv s -> is_pe r -> pc s' = upd (pc s) r k' -> pc_ok r k' ->
  (forall n, arrived n (pc s r) = true -> arrived n k' = true) ->
  (forall n q, is_pe q -> passed n k' = true -> arrived n (upd (pc s) r k' q) = true) ->
  (forall n a, calls !! n = Some a -> signalled a (pc s r) n <= signalled a k' n) ->
  (forall u d n a, is_pe u -> is_pe d -> calls !! n = Some a -> next_rank a u = Some d ->
    reading (pc s' d) = Some n -> p_sync s' d <= signalled a (pc s' u) n) ->
  (forall u n a, is_pe u -> calls !! n = Some a -> next_rank a u = Some r -> received a k' n <= signalled a (pc s u) n) ->
  (forall u d n a x, is_pe u -> is_pe d -> calls !! n = Some a -> next_rank a u = Some d ->
    0 <= x < nelems a -> x < forwarded a (pc s' u) n * CHUNK_NELEMS -> dst s' n d x = src a x) ->
  (forall p n a x, is_pe p -> calls !! n = Some a -> virtual_rank a p = 0 -> 0 <= x < nelems a ->
    fetched (pc s' p) n = true -> dst s' n p x = src a x) ->
  inv s'.
Proof.
  intros Hi Hr Hpc Hok Harr Hbar Hsig Hfl Hrc Hd Hrt. split; try done; rewrite Hpc.
  - intros p Hp. unfold upd. case_if; [|by apply Hi]. by assert (p = r) as -> by lia.
  - intros p q n Hp Hq. unfold upd. destruct (Z.eqb_spec p r) as [->|]; [by apply (Hbar n q)|].
    intros Hps. pose proof (v_barrier s Hi p q n Hp Hq Hps). case_if; [|done]. assert (q = r) as -> by lia. by apply Harr.
  - intros u d n a Hu Hdd Hc Hn. pose proof (next_ne a u d (proj2 (chain_call_ok n a Hc)) Hu Hn) as Hne. unfold upd.
    destruct (Z.eqb_spec d r) as [->|], (Z.eqb_spec u r) as [->|]; try done.
    + by apply Hrc.
    + etransitivity; [by apply (v_received s Hi r d n a)|by apply Hsig].
    + by apply (v_received s Hi u d n a).
Qed.

(** A step that touches no memory. *)
Lemma chain_quiet s r k' :
  inv s -> is_pe r -> pc_ok r k' ->
  (forall n, arrived n (pc s r) = true -> arrived n k' = true) ->
  (forall n q, is_pe q -> passed n k' = true -> arrived n (upd (pc s) r k' q) = true) ->
  (forall n a, calls !! n = Some a -> signalled a (pc s r) n <= signalled a k' n) ->
  (forall n, reading k' = Some n -> reading (pc s r) = Some n) ->
  (forall u n a, is_pe u -> calls !! n = Some a -> next_rank a u = Some r -> received a k' n <= signalled a (pc s u) n) ->
  (forall n a d, calls !! n = Some a -> next_rank a r = Some d -> forwarded a k' n <= forwarded a (pc s r) n) ->
  (forall n a, calls !! n = Some a -> virtual_rank a r = 0 -> fetched k' n = true -> fetched (pc s r) n = true) ->
  inv (goto r k' s).
Proof.
  intros Hi Hr Hok Harr Hbar Hsig Hrd Hrc Hfw Hft. eapply (chain_move s _ r k'); try done; cbn [goto pc p_sync dst].
  - intros u d n a Hu Hd Hc Hn. pose proof (next_ne a u d (proj2 (chain_call_ok n a Hc)) Hu Hn) as Hne. unfold upd.
    intros Hrdd. assert (Hle : p_sync s d <= signalled a (pc s u) n).
    { apply (v_flag s Hi u d n a); try done. destruct (Z.eqb_spec d r) as [->|]; [by apply Hrd|done]. }
    destruct (Z.eqb_spec u r) as [->|]; [|done]. etransitivity; [exact Hle|by apply Hsig].
  - intros u d n a x Hu Hd Hc Hn Hx Hlt. apply (v_data s Hi u d n a x); try done. unfold upd in Hlt.
    destruct (Z.eqb_spec u r) as [->|]; [|done]. pose proof (Hfw n a d Hc Hn). nia.
  - intros p n a x Hp Hc Hv Hx Hf. apply (v_root s Hi p n a x); try done. unfold upd in Hf.
    destruct (Z.eqb_spec p r) as [->|]; [|done]. by apply (Hft n a).
Qed.

(** The barriers that stay passed. *)
Lemma passed_kept s r k' :
  inv s -> is_pe r -> (forall n, arrived n (pc s r) = true -> arrived n k' = true) ->
  (forall n, passed n k' = true -> passed n (pc s r) = true) ->
  forall n q, is_pe q -> passed n k' = true -> arrived n (upd (pc s) r k' q) = true.
Proof.
  intros Hi Hr Harr Hps n q Hq Hp. pose proof (v_barrier s Hi r q n Hr Hq (Hps n Hp)). unfold upd.
  case_if; [|done]. assert (q = r) as -> by lia. by apply Harr.
Qed.

(** Progress in one call does not change that in the others. *)
Lemma done_other n m ph ph' all f : n <> m -> chunks_done (At m ph) n all f = chunks_done (At m ph') n all f.
Proof. intros Hne. unfold chunks_done. rewrite (proj2 (Nat.eqb_neq n m) Hne). done. Qed.

Lemma done_same n ph all f : chunks_done (At n ph) n all f = f ph.
Proof. unfold chunks_done. by rewrite Nat.ltb_irrefl, Nat.eqb_refl. Qed.

(** A step within a call from a phase before the synchronisation. *)
Lemma chain_phase s s' r n a ph ph' :
  inv s -> is_pe r -> pc s r = At n ph -> pc s' = upd (pc s) r (At n ph') -> calls !! n = Some a -> pc_ok r (At n ph') ->
  ph <> InBarrier -> ph <> Clear -> ph' <> Clear ->
  signalled a (At n ph) n <= signalled a (At n ph') n ->
  (forall u d m b, is_pe u -> is_pe d -> calls !! m = Some b -> next_rank b u = Some d ->
    reading (pc s' d) = Some m -> p_sync s' d <= signalled b (pc s' u) m) ->
  (forall u, is_pe u -> next_rank a u = Some r -> received a (At n ph') n <= signalled a (pc s u) n) ->
  (forall u d m b x, is_pe u -> is_pe d -> calls !! m = Some b -> next_rank b u = Some d ->
    0 <= x < nelems b -> x < forwarded b (pc s' u) m * CHUNK_NELEMS -> dst s' m d x = src b x) ->
  (forall p m b x, is_pe p -> calls !! m = Some b -> virtual_rank b p = 0 -> 0 <= x < nelems b ->
    fetched (pc s' p) m = true -> dst s' m p x = src b x) ->
  inv s'.
Proof.
  intros Hi Hr Hpc Hpc' Hc Hok Hnb Hnc Hnc' Hsig Hfl Hrc Hd Hrt.
  assert (Harr : forall m, arrived m (pc s r) = true -> arrived m (At n ph') = true).
  { intros m. rewrite Hpc. unfold arrived. intros [->|[_ Hx]%andb_true_iff]%orb_true_iff; [done|by destruct ph]. }
  eapply (chain_move s s' r (At n ph')); try done.
  - apply passed_kept; try done. intros m. rewrite Hpc. unfold passed.
    intros [->|[_ Hx]%andb_true_iff]%orb_true_iff; [done|by destruct ph'].
  - intros m b Hm. rewrite Hpc. destruct (decide (m = n)) as [->|Hne]; [by simplify_eq|].
    unfold signalled. by rewrite (done_other m n ph ph' _ _ Hne).
  - intros u m b Hu Hm Hn. destruct (decide (m = n)) as [->|Hne]; [simplify_eq; by apply Hrc|].
    unfold received. rewrite (done_other m n ph' ph _ _ Hne). rewrite <- Hpc. by apply (v_received s Hi u r m b).
Qed.

(** The flags when a step within a call writes none. *)
Lemma chain_flags_kept s r n a ph ph' :
  inv s -> is_pe r -> pc s r = At n ph -> calls !! n = Some a -> ph <> InBarrier -> ph <> Clear ->
  signalled a (At n ph) n <= signalled a (At n ph') n ->
  forall u d m b, is_pe u -> is_pe d -> calls !! m = Some b -> next_rank b u = Some d ->
    reading (upd (pc s) r (At n ph') d) = Some m -> p_sync s d <= signalled b (upd (pc s) r (At n ph') u) m.
Proof.
  intros Hi Hr Hpc Hc Hnb Hnc Hsig u d m b Hu Hd Hm Hn Hrd. unfold upd in *.
  assert (Hle : p_sync s d <= signalled b (pc s u) m).
  { apply (v_flag s Hi u d m b); try done. destruct (Z.eqb_spec d r) as [->|]; [|done]. rewrite Hpc. by destruct ph, ph'. }
  destruct (Z.eqb_spec u r) as [->|]; [|done]. rewrite Hpc in Hle. destruct (decide (m = n)) as [->|Hne]; [simplify_eq; lia|].
  unfold signalled in *. by rewrite (done_other m n ph' ph _ _ Hne).
Qed.

(** What has been forwarded when a step within a call writes no destination. *)
Lemma data_kept s r n a ph ph' :
  inv s -> is_pe r -> pc s r = At n ph -> calls !! n = Some a ->
  (forall d, next_rank a r = Some d -> forwarded a (At n ph') n <= forwarded a (At n ph) n) ->
  forall u d m b x, is_pe u -> is_pe d -> calls !! m = Some b -> next_rank b u = Some d ->
    0 <= x < nelems b -> x < forwarded b (upd (pc s) r (At n ph') u) m * CHUNK_NELEMS -> dst s m d x = src b x.
Proof.
  intros Hi Hr Hpc Hc Hfw u d m b x Hu Hd Hm Hn Hx Hlt. apply (v_data s Hi u d m b x); try done. unfold upd in Hlt.
  destruct (Z.eqb_spec u r) as [->|]; [|done]. rewrite Hpc. destruct (decide (m = n)) as [->|Hne].
  - simplify_eq. specialize (Hfw d Hn). nia.
  - unfold forwarded in *. by rewrite (done_other m n ph ph' _ _ Hne).
Qed.

Lemma root_kept s r n a ph ph' :
  inv s -> is_pe r -> pc s r = At n ph -> calls !! n = Some a -> (virtual_rank a r = 0 -> ph <> Fetch) ->
  forall p m b x, is_pe p -> calls !! m = Some b -> virtual_rank b p = 0 -> 0 <= x < nelems b ->
    fetched (upd (pc s) r (At n ph') p) m = true -> dst s m p x = src b x.
Proof.
  intros Hi Hr Hpc Hc Hnf p m b x Hp Hm Hv Hx Hf. apply (v_root s Hi p m b x); try done. unfold upd in Hf.
  destruct (Z.eqb_spec p r) as [->|]; [|done]. rewrite Hpc. unfold fetched in *.
  apply orb_true_iff in Hf as [->|[->%Nat.eqb_eq _]%andb_true_iff]; [done|]. simplify_eq. rewrite Nat.eqb_refl.
  apply orb_true_iff. right. specialize (Hnf Hv). by destruct ph.
Qed.

Lemma chain_stay s r n a ph ph' :
  inv s -> is_pe r -> pc s r = At n ph -> calls !! n = Some a -> pc_ok r (At n ph') ->
  ph <> InBarrier -> ph <> Clear -> ph' <> Clear -> (virtual_rank a r = 0 -> ph <> Fetch) ->
  signalled a (At n ph) n <= signalled a (At n ph') n ->
  (forall d, next_rank a r = Some d -> forwarded a (At n ph') n <= forwarded a (At n ph) n) ->
  (forall u, is_pe u -> next_rank a u = Some r -> received a (At n ph') n <= signalled a (pc s u) n) ->
  inv (goto r (At n ph') s).
Proof.
  intros Hi Hr Hpc Hc Hok H1 H2 H3 Hnf Hsig Hfw Hrc.
  eapply (chain_phase s _ r n a ph ph'); try done; cbn [goto pc p_sync dst].
  - by eapply chain_flags_kept.
  - by eapply data_kept.
  - by eapply root_kept.
Qed.

Lemma loop_ok r n a c : calls !! n = Some a -> 0 <= c -> pc_ok r (At n (loop a c)).
Proof. intros Hc H0. unfold loop. exists a. split; [done|]. case_if; [lia|done]. Qed.

(** The counters at the head of the loop. *)
Lemma loop_counts n a c : 0 <= c <= num_chunks a ->
  received a (At n (loop a c)) n = c /\ forwarded a (At n (loop a c)) n = c /\ signalled a (At n (loop a c)) n = c.
Proof.
  intros Hc. unfold received, forwarded, signalled. rewrite !done_same. unfold loop. case_if; repeat split; lia.
Qed.

Lemma chain_chunks_nonneg n a : calls !! n = Some a -> 0 <= num_chunks a.
Proof. intros Hc%chain_call_ok. unfold num_chunks. apply Z.div_pos; lia. Qed.

Lemma counts_order n a p k : pc_ok p k -> calls !! n = Some a ->
  0 <= signalled a k n <= forwarded a k n.
Proof.
  intros Hok Hn. pose proof (chain_chunks_nonneg n a Hn). unfold signalled, forwarded, chunks_done. destruct k as [c|c ph].
  - case_if; lia.
  - destruct (n <? c)%nat; [lia|]. destruct (n =? c)%nat eqn:E; [|lia]. apply Nat.eqb_eq in E as ->.
    destruct Hok as (b & Hb & Hph). simplify_eq. destruct ph; lia.
Qed.

Lemma signalled_nonneg s u n a : inv s -> is_pe u -> calls !! n = Some a -> 0 <= signalled a (pc s u) n <= forwarded a (pc s u) n.
Proof. intros Hi Hu Hc. apply (counts_order n a u); [by apply (v_pc s Hi)|done]. Qed.

(** The counters agree on entering and on leaving a call. *)
Lemma out_fetch n m all f : f Fetch = 0 -> chunks_done (At n Fetch) m all f = chunks_done (Out n) m all f.
Proof. intros Hf. unfold chunks_done. rewrite Hf. by destruct (m <? n)%nat, (m =? n)%nat. Qed.

Lemma clear_out n m all f : f Clear = all -> chunks_done (Out (S n)) m all f = chunks_done (At n Clear) m all f.
Proof.
  intros Hf. unfold chunks_done. rewrite Hf. destruct (m <? n)%nat eqn:E1; destruct (m =? n)%nat eqn:E2;
    destruct (m <? S n)%nat eqn:E3; try done; exfalso; lia.
Qed.

Lemma chain_enter s r n : inv s -> is_pe r -> pc s r = Out n -> is_Some (calls !! n) -> inv (goto r (At n Fetch) s).
Proof.
  intros Hi Hr Hpc [a Hc].
  assert (Harr : forall m, arrived m (pc s r) = true -> arrived m (At n Fetch) = true).
  { intros m. rewrite Hpc. unfold arrived. by intros ->. }
  apply chain_quiet; try done; rewrite ?Hpc; try done.
  - by exists a.
  - apply passed_kept; try done. intros m. rewrite Hpc. unfold passed. rewrite andb_false_r, orb_false_r. done.
  - intros m b Hm. unfold signalled. by rewrite out_fetch.
  - intros u m b Hu Hm Hn. unfold received. rewrite out_fetch by done. pose proof (v_received s Hi u r m b Hu Hr Hm Hn) as H.
    by rewrite Hpc in H.
  - intros m b d Hm Hn. unfold forwarded. by rewrite out_fetch.
  - intros m b Hm Hv. unfold fetched. rewrite andb_false_r, orb_false_r. done.
Qed.

Lemma chain_sync s r n :
  inv s -> is_pe r -> pc s r = At n InBarrier -> forallb (fun p => arrived n (pc s p)) (seqZ 0 pe_size) = true ->
  inv (goto r (At n Clear) s).
Proof.
  intros Hi Hr Hpc Hall. rewrite forallb_forall in Hall.
  assert (Hb : forall p, is_pe p -> arrived n (pc s p) = true).
  { intros p Hp. apply Hall. rewrite <- list_elem_of_In. apply elem_of_seqZ. unfold is_pe in Hp. lia. }
  pose proof (v_pc s Hi r Hr) as Hok. rewrite Hpc in Hok. destruct Hok as (a & Hc & _).
  assert (Hdone : forall m all (f : phase -> Z), f InBarrier = f Clear ->
    chunks_done (At n Clear) m all f = chunks_done (At n InBarrier) m all f).
  { intros m all f Hf. unfold chunks_done. by rewrite Hf. }
  apply chain_quiet; try done; rewrite ?Hpc; try done.
  - by exists a.
  - intros m q Hq Hp. unfold passed in Hp. apply orb_true_iff in Hp as [Hlt|[->%Nat.eqb_eq _]%andb_true_iff].
    + pose proof (v_barrier s Hi r q m Hr Hq) as H. rewrite Hpc in H. unfold passed in H. rewrite Hlt in H. specialize (H eq_refl).
      unfold upd. destruct (Z.eqb_spec q r) as [->|]; [|done]. rewrite Hpc in H. done.
    + pose proof (Hb q Hq) as H. unfold upd. destruct (Z.eqb_spec q r) as [->|]; [|done]. rewrite Hpc in H. done.
  - intros u m b Hu Hm Hn. unfold received. rewrite Hdone by done. pose proof (v_received s Hi u r m b Hu Hr Hm Hn) as H.
    by rewrite Hpc in H.
Qed.

Lemma chain_clear s r n : inv s -> is_pe r -> pc s r = At n Clear -> inv (goto r (Out (S n)) (set_flag r 0 s)).
Proof.
  intros Hi Hr Hpc. pose proof (v_pc s Hi r Hr) as Hok. rewrite Hpc in Hok. destruct Hok as (a & Hc & _).
  assert (Hps : forall m, passed m (Out (S n)) = passed m (At n Clear)).
  { intros m. unfold passed. rewrite andb_true_r. destruct (m <? n)%nat eqn:E1, (m =? n)%nat eqn:E2, (m <? S n)%nat eqn:E3; try done; exfalso; lia. }
  assert (Harr : forall m, arrived m (pc s r) = true -> arrived m (Out (S n)) = true).
  { intros m. rewrite Hpc. change (arrived m (At n Clear)) with (passed m (At n Clear)). change (arrived m (Out (S n))) with (passed m (Out (S n))).
    by rewrite Hps. }
  eapply (chain_move s _ r (Out (S n))); try done; cbn [goto set_flag pc p_sync dst].
  - cbn. by apply lookup_lt_Some in Hc.
  - apply passed_kept; try done. intros m. by rewrite Hpc, Hps.
  - intros m b Hm. rewrite Hpc. unfold signalled. by rewrite clear_out.
  - intros u d m b Hu Hd Hm Hn Hrd. pose proof (signalled_nonneg s u m b Hi Hu Hm).
    assert (Hsg : signalled b (upd (pc s) r (Out (S n)) u) m = signalled b (pc s u) m).
    { unfold upd. destruct (Z.eqb_spec u r) as [->|]; [|done]. rewrite Hpc. unfold signalled. by rewrite clear_out. }
    rewrite Hsg. unfold upd in *. destruct (Z.eqb_spec d r) as [->|]; [lia|]. by apply (v_flag s Hi u d m b).
  - intros u m b Hu Hm Hn. unfold received. rewrite clear_out by done. pose proof (v_received s Hi u r m b Hu Hr Hm Hn) as H.
    by rewrite Hpc in H.
  - intros u d m b x Hu Hd Hm Hn Hx Hlt. apply (v_data s Hi u d m b x); try done. unfold upd in Hlt.
    destruct (Z.eqb_spec u r) as [->|]; [|done]. rewrite Hpc. unfold forwarded in *. by rewrite clear_out in Hlt.
  - intros p m b x Hp Hm Hv Hx Hf. apply (v_root s Hi p m b x); try done. unfold upd in Hf.
    destruct (Z.eqb_spec p r) as [->|]; [|done]. rewrite Hpc. change (fetched (At n Clear) m) with (passed m (At n Clear)).
    change (fetched (Out (S n)) m) with (passed m (Out (S n))) in Hf. by rewrite <- Hps.
Qed.

Lemma chain_fetch s r n a :
  inv s -> is_pe r -> pc s r = At n Fetch -> calls !! n = Some a ->
  inv (goto r (At n (loop a 0)) (if virtual_rank a r =? 0 then set_dst n r 0 (nelems a) (src a) s else s)).
Proof.
  intros Hi Hr Hpc Hc. pose proof (chain_chunks_nonneg n a Hc) as Hnc. destruct (loop_counts n a 0 ltac:(lia)) as (Er & Ef & Es).
  assert (Hsig : signalled a (At n Fetch) n <= signalled a (At n (loop a 0)) n) by (rewrite Es; unfold signalled; rewrite done_same; lia).
  assert (Hrc : forall u, is_pe u -> next_rank a u = Some r -> received a (At n (loop a 0)) n <= signalled a (pc s u) n).
  { intros u Hu _. rewrite Er. by apply signalled_nonneg. }
  assert (Hfw : forall d, next_rank a r = Some d -> forwarded a (At n (loop a 0)) n <= forwarded a (At n Fetch) n).
  { intros d _. rewrite Ef. unfold forwarded. rewrite done_same. lia. }
  assert (Hl : loop a 0 <> Clear) by (unfold loop; by case_if).
  destruct (Z.eqb_spec (virtual_rank a r) 0) as [Hv|Hv]; [|by eapply chain_stay; (done || by apply loop_ok)].
  eapply (chain_phase s _ r n a Fetch (loop a 0)); try done; [by apply loop_ok|..]; cbn [goto set_dst pc p_sync dst].
  - by eapply chain_flags_kept.
  - intros u d m b x Hu Hd Hm Hn Hx Hlt. pose proof (data_kept s r n a Fetch (loop a 0) Hi Hr Hpc Hc Hfw u d m b x Hu Hd Hm Hn Hx Hlt) as H.
    case_decide; [|done]. subst m. simplify_eq. unfold write. destruct (Z.eqb_spec d r) as [->|]; [|done]. exfalso.
    destruct (next_virtual a u r (proj2 (chain_call_ok n a Hc)) Hu Hn) as [_ E].
    unfold virtual_rank, is_pe in *. pose proof (proj2 (chain_call_ok n a Hc)). destruct (u - root_rank a <? 0) eqn:?; lia.
  - intros p m b x Hp Hm Hvp Hx Hf. unfold upd in Hf. pose proof (v_root s Hi p m b x Hp Hm Hvp Hx) as H.
    destruct (Z.eqb_spec p r) as [->|Hpr].
    + rewrite Hpc in H. case_decide as Hmn.
      * subst m. simplify_eq. unfold write, overwrite. rewrite Z.eqb_refl. case_if; [f_equal; lia|exfalso; lia].
      * apply H. unfold fetched in *. rewrite (proj2 (Nat.eqb_neq m n) Hmn) in *. done.
    + case_decide; [subst m; unfold write; rewrite (proj2 (Z.eqb_neq p r) Hpr)|]; by apply H.
Qed.

Lemma chain_wait s r n a c :
  inv s -> is_pe r -> pc s r = At n (Wait c) -> calls !! n = Some a ->
  (virtual_rank a r =? 0) || (c + 1 <=? p_sync s r) = true ->
  inv (goto r (At n (match next_rank a r with Some _ => Put c | None => loop a (c + 1) end)) s).
Proof.
  intros Hi Hr Hpc Hc Hg. pose proof (v_pc s Hi r Hr) as Hok. rewrite Hpc in Hok. destruct Hok as (a0 & Hc0 & Hcc). simplify_eq.
  destruct (loop_counts n a (c + 1) ltac:(lia)) as (Er & Ef & Es).
  assert (Hrc : forall u, is_pe u -> next_rank a u = Some r -> c + 1 <= signalled a (pc s u) n).
  { intros u Hu Hn. destruct (next_virtual a u r (proj2 (chain_call_ok n a Hc)) Hu Hn) as [_ E].
    assert (virtual_rank a r <> 0).
    { unfold virtual_rank, is_pe in *. pose proof (proj2 (chain_call_ok n a Hc)). destruct (u - root_rank a <? 0) eqn:?; lia. }
    pose proof (v_flag s Hi u r n a Hu Hr Hc Hn) as Hf. rewrite Hpc in Hf. specialize (Hf eq_refl). lia. }
  destruct (next_rank a r) as [q|] eqn:Hn.
  - eapply chain_stay; try done.
    + exists a. split; [done|]. split; [done|]. by rewrite Hn.
    + intros u Hu Hnu. unfold received. rewrite done_same. by apply Hrc.
  - eapply chain_stay; try done.
    + apply loop_ok; [done|lia].
    + unfold loop. by case_if.
    + rewrite Es. unfold signalled. rewrite done_same. lia.
    + intros d Hd. by rewrite Hn in Hd.
    + intros u Hu Hnu. rewrite Er. by apply Hrc.
Qed.

(** A put to the next PE of the chain. *)
Lemma chain_put s r n a q c ph ph' f :
  inv s -> is_pe r -> pc s r = At n ph -> calls !! n = Some a -> next_rank a r = Some q -> 0 <= c < num_chunks a ->
  (ph = Put c /\ ph' = PutEnd c \/
   ph = PutEnd c /\ ph' = Signal c /\ forall x, 0 <= x < chunk_count a c -> f x = src a (chunk_offset c + x)) ->
  inv (goto r (At n ph') (set_dst n q (chunk_offset c) (chunk_count a c) f s)).
Proof.
  intros Hi Hr Hpc Hc Hn Hcc Hph. pose proof (proj2 (chain_call_ok n a Hc)) as Hroot.
  destruct (next_virtual a r q Hroot Hr Hn) as [Hq Hvq].
  assert (Hsig : signalled a (At n ph) n <= signalled a (At n ph') n).
  { unfold signalled. rewrite !done_same. destruct Hph as [[-> ->]|(-> & -> & _)]; lia. }
  eapply (chain_phase s _ r n a ph ph'); try done; cbn [goto set_dst pc p_sync dst].
  - exists a. split; [done|]. by destruct Hph as [[-> ->]|(-> & -> & _)].
  - by destruct Hph as [[-> ->]|(-> & -> & _)].
  - by destruct Hph as [[-> ->]|(-> & -> & _)].
  - by destruct Hph as [[-> ->]|(-> & -> & _)].
  - eapply chain_flags_kept; try done; by destruct Hph as [[-> ->]|(-> & -> & _)].
  - intros u Hu Hnu. pose proof (v_received s Hi u r n a Hu Hr Hc Hnu) as H. rewrite Hpc in H. unfold received in *.
    rewrite !done_same in *. by destruct Hph as [[-> ->]|(-> & -> & _)].
  - intros u d m b x Hu Hd Hm Hnu Hx Hlt. unfold upd in Hlt. pose proof (v_data s Hi u d m b x Hu Hd Hm Hnu Hx) as H.
    case_decide as Hmn.
    2:{ apply H. destruct (Z.eqb_spec u r) as [->|]; [|done]. rewrite Hpc. unfold forwarded in *. by rewrite (done_other m n ph ph' _ _ Hmn). }
    subst m. simplify_eq. unfold write. destruct (Z.eqb_spec d q) as [->|Hdq].
    + assert (u = r) as -> by (by eapply (next_inj a u r q)). rewrite Z.eqb_refl in Hlt. rewrite Hpc in H.
      unfold forwarded in *. rewrite !done_same in *. unfold overwrite, chunk_offset, chunk_count in *.
      destruct Hph as [[-> ->]|(-> & -> & Hf)]; (case_if; [|apply H; try lia]).
      * exfalso. lia.
      * rewrite Hf by lia. f_equal. lia.
      * unfold chunk_offset in E. nia.
    + apply H. destruct (Z.eqb_spec u r) as [->|]; [|done]. by rewrite Hn in Hnu; simplify_eq.
  - intros p m b x Hp Hm Hv Hx Hf. unfold upd in Hf. pose proof (v_root s Hi p m b x Hp Hm Hv Hx) as H.
    assert (Hft : fetched (pc s p) m = true).
    { destruct (Z.eqb_spec p r) as [->|]; [|done]. rewrite Hpc. unfold fetched in *. by destruct Hph as [[-> ->]|(-> & -> & _)]. }
    case_decide; [|by apply H]. subst m. simplify_eq. unfold write. destruct (Z.eqb_spec p q) as [->|]; [|by apply H]. exfalso.
    unfold virtual_rank, is_pe in *. destruct (r - root_rank a <? 0) eqn:?; lia.
Qed.

(** A PE before the synchronisation of call [n] sees every other PE, when it reads a
    flag, read it for call [n]. *)
Lemma chain_same_call s r q n m ph :
  inv s -> is_pe r -> is_pe q -> pc s r = At n ph -> ph <> InBarrier -> ph <> Clear -> reading (pc s q) = Some m -> m = n.
Proof.
  intros Hi Hr Hq Hpc Hnb Hnc Hrd. destruct (Nat.lt_trichotomy m n) as [Hlt|[?|Hlt]]; [exfalso|done|exfalso].
  - pose proof (v_barrier s Hi r q m Hr Hq) as H. rewrite Hpc in H. unfold passed in H. rewrite (proj2 (Nat.ltb_lt m n) Hlt) in H.
    specialize (H eq_refl). unfold arrived in H. destruct (pc s q) as [k|k ph']; cbn in Hrd.
    + simplify_eq. apply Nat.ltb_lt in H. lia.
    + assert (k = m) as -> by (by destruct ph'; simplify_eq). rewrite Nat.ltb_irrefl, Nat.eqb_refl in H. by destruct ph'.
  - pose proof (v_barrier s Hi q r n Hq Hr) as H. rewrite Hpc in H. unfold arrived in H. rewrite Nat.ltb_irrefl, Nat.eqb_refl in H.
    assert (Hp : passed n (pc s q) = true).
    { unfold passed. destruct (pc s q) as [k|k ph']; cbn in Hrd; [simplify_eq; by apply Nat.ltb_lt|].
      assert (k = m) as -> by (by destruct ph'; simplify_eq). by rewrite (proj2 (Nat.ltb_lt n m) Hlt). }
    specialize (H Hp). by destruct ph.
Qed.

Lemma chain_signal s r n a q c :
  inv s -> is_pe r -> pc s r = At n (Signal c) -> calls !! n = Some a -> next_rank a r = Some q ->
  inv (goto r (At n (loop a (c + 1))) (set_flag q (c + 1) s)).
Proof.
  intros Hi Hr Hpc Hc Hn. pose proof (proj2 (chain_call_ok n a Hc)) as Hroot.
  pose proof (v_pc s Hi r Hr) as Hok. rewrite Hpc in Hok. destruct Hok as (a0 & Hc0 & Hcc & _). simplify_eq.
  destruct (loop_counts n a (c + 1) ltac:(lia)) as (Er & Ef & Es).
  destruct (next_virtual a r q Hroot Hr Hn) as [Hq _]. pose proof (next_ne a r q Hroot Hr Hn) as Hne.
  assert (Hsig : signalled a (At n (Signal c)) n <= signalled a (At n (loop a (c + 1))) n).
  { rewrite Es. unfold signalled. rewrite done_same. lia. }
  eapply (chain_phase s _ r n a (Signal c) (loop a (c + 1))); try done; cbn [goto set_flag pc p_sync dst].
  - apply loop_ok; [done|lia].
  - unfold loop. by case_if.
  - intros u d m b Hu Hd Hm Hnu Hrd.
    pose proof (chain_flags_kept s r n a (Signal c) (loop a (c + 1)) Hi Hr Hpc Hc ltac:(done) ltac:(done) Hsig u d m b Hu Hd Hm Hnu Hrd) as H.
    unfold upd at 1. destruct (Z.eqb_spec d q) as [->|]; [|done]. unfold upd in Hrd.
    rewrite (proj2 (Z.eqb_neq q r)) in Hrd by lia.
    assert (m = n) as -> by (by eapply (chain_same_call s r q n m (Signal c))). simplify_eq.
    assert (u = r) as -> by (by eapply (next_inj a u r q)). rewrite upd_eq, Es. lia.
  - intros u Hu Hnu. pose proof (v_received s Hi u r n a Hu Hr Hc Hnu) as H. rewrite Hpc in H. rewrite Er.
    unfold received in H. by rewrite done_same in H.
  - eapply data_kept; try done. intros d _. rewrite Ef. unfold forwarded. by rewrite done_same.
  - by eapply root_kept.
Qed.

(** What a PE forwards is the root's message. *)
Lemma chain_forward s r n a c :
  inv s -> is_pe r -> pc s r = At n (PutEnd c) -> calls !! n = Some a -> 0 <= c ->
  forall x, 0 <= x < chunk_count a c ->
    (if virtual_rank a r =? 0 then src a (chunk_offset c + x) else dst s n r (chunk_offset c + x)) = src a (chunk_offset c + x).
Proof.
  intros Hi Hr Hpc Hc Hc0 x Hx. destruct (Z.eqb_spec (virtual_rank a r) 0) as [|Hv]; [done|].
  destruct (pred_exists a r (proj2 (chain_call_ok n a Hc)) Hr Hv) as (u & Hu & Hn).
  pose proof (v_received s Hi u r n a Hu Hr Hc Hn) as H. rewrite Hpc in H. unfold received in H. rewrite done_same in H.
  pose proof (signalled_nonneg s u n a Hi Hu Hc). unfold chunk_count, chunk_offset in *.
  apply (v_data s Hi u r n a); try done; nia.
Qed.

Lemma chain_exec_inv junk s r s' : inv s -> is_pe r -> exec junk r s = Some s' -> inv s'.
Proof.
  intros Hi Hr. pose proof (v_pc s Hi r Hr) as Hok. unfold exec. destruct (pc s r) as [n|n ph] eqn:Hpc.
  - destruct (calls !! n) as [a|] eqn:Hc; [|done]. intros [= <-]. by apply chain_enter.
  - destruct Hok as (a & Hc & Hph). rewrite Hc. destruct ph as [|c|c|c|c| |].
    + intros [= <-]. by apply chain_fetch.
    + destruct (_ || _) eqn:Hg; [|done]. intros [= <-]. by apply chain_wait.
    + destruct (next_rank a r) as [q|] eqn:Hn; [|done]. intros [= <-].
      eapply (chain_put s r n a q c (Put c)); try done; [lia|by left].
    + destruct (next_rank a r) as [q|] eqn:Hn; [|done]. intros [= <-].
      eapply (chain_put s r n a q c (PutEnd c)); try done; [lia|right]. repeat split. apply chain_forward; try done. lia.
    + destruct (next_rank a r) as [q|] eqn:Hn; [|done]. intros [= <-]. by apply chain_signal.
    + destruct (forallb _ _) eqn:Hall; [|done]. intros [= <-]. by apply chain_sync.
    + intros [= <-]. by apply chain_clear.
Qed.

Lemma chain_initial_inv s : initial s -> inv s.
Proof.
  intros H. assert (Hpc : forall p, is_pe p -> pc s p = Out 0) by (intros p Hp; by apply H).
  split.
  - intros p Hp. rewrite Hpc by done. cbn. lia.
  - intros p q n Hp Hq. rewrite !Hpc by done. done.
  - intros u d n a Hu Hd Hc Hn Hrd. rewrite Hpc by done. rewrite (proj2 (H d Hd)). done.
  - intros u d n a Hu Hd Hc Hn. rewrite !Hpc by done. done.
  - intros u d n a x Hu Hd Hc Hn Hx. rewrite Hpc by done. cbn. lia.
  - intros p n a x Hp Hc Hv Hx. rewrite Hpc by done. done.
Qed.

Lemma chain_reachable_inv s0 s : initial s0 -> rtc step s0 s -> inv s.
Proof.
  intros H0 Hs. refine (rtc_invariant step inv _ _ _ Hs (chain_initial_inv _ H0)).
  intros x y Hx [junk p y' Hp He]. by eapply chain_exec_inv.
Qed.

(** C12: Whatever the interleaving of the PEs, and for any sequence of chain
    broadcasts with any roots, sizes and number of chunks, a PE that has returned
    from a call holds the root's message in its destination, element by element;
    that the chunk flag is shared by all calls never makes a PE forward or return a
    chunk that has not arrived. *)
Theorem chain_correct s0 s p n a x :
  initial s0 -> rtc step s0 s -> is_pe p -> calls !! n = Some a -> passed n (pc s p) = true -> 0 <= x < nelems a ->
  dst s n p x = src a x.
Proof.
  intros H0 Hs Hp Hc Hpa Hx. pose proof (chain_reachable_inv s0 s H0 Hs) as Hi.
  destruct (decide (virtual_rank a p = 0)) as [Hv|Hv].
  - apply (v_root s Hi); try done. unfold fetched, passed in *. destruct (pc s p) as [m|m ph]; [done|].
    apply orb_true_iff in Hpa as [->|[-> Hph]%andb_true_iff]; [done|]. apply orb_true_iff. right. by destruct ph.
  - destruct (pred_exists a p (proj2 (chain_call_ok n a Hc)) Hp Hv) as (u & Hu & Hn).
    apply (v_data s Hi u p n a); try done. pose proof (v_barrier s Hi p u n Hp Hu Hpa) as Harr.
    assert (forwarded a (pc s u) n = num_chunks a) as ->; [|by apply num_chunks_cover].
    unfold forwarded, chunks_done, arrived in *. destruct (pc s u) as [m|m ph]; [by rewrite Harr|].
    apply orb_true_iff in Harr as [->|[-> Hph]%andb_true_iff]; [done|]. case_if; [done|]. by destruct ph.
Qed.

End chain.

(** ** A single call returns *)

Section single_call.
Context {T : Type} (pe_size CHUNK_NELEMS : Z) (a : args (T := T)).
Hypothesis chunk_pos : 0 < CHUNK_NELEMS.
Hypothesis call_fits : 0 <= nelems a /\ 0 <= root_rank a < pe_size.

Local Notation exec := (exec pe_size CHUNK_NELEMS [a]).
Local Notation step := (step pe_size CHUNK_NELEMS [a]).
Local Notation inv := (inv pe_size CHUNK_NELEMS [a]).
Local Notation is_pe := (is_pe pe_size).
Local Notation next_rank := (next_rank pe_size a).
Local Notation num_chunks := (num_chunks CHUNK_NELEMS a).
Local Notation signalled := (signalled CHUNK_NELEMS a).
Local Notation loop := (loop CHUNK_NELEMS a).

Lemma single_ok : Forall (fun a => 0 <= nelems a /\ 0 <= root_rank a < pe_size) [a].
Proof. by apply Forall_singleton. Qed.

(** Until a PE clears its flag, the flag counts the signals of its predecessor. *)
Definition flags_exact (s : state (T := T)) : Prop :=
  forall u d, is_pe u -> is_pe d -> next_rank u = Some d -> reading (pc s d) = Some 0%nat -> p_sync s d = signalled (pc s u) 0.

Lemma single_pc n a' : [a] !! n = Some a' -> n = 0%nat /\ a' = a.
Proof. destruct n as [|[|n]]; cbn; intros H; by simplify_eq. Qed.

(** A step that writes no flag. *)
Lemma single_quiet s s' r k' :
  flags_exact s -> pc s' = upd (pc s) r k' -> p_sync s' = p_sync s ->
  (forall d, next_rank r = Some d -> signalled k' 0 = signalled (pc s r) 0) ->
  (reading k' = Some 0%nat -> reading (pc s r) = Some 0%nat) -> flags_exact s'.
Proof.
  intros Hf Hpc Hp Hs Hrd u d Hu Hd Hn. rewrite Hpc, Hp. unfold upd. intros H.
  assert (p_sync s d = signalled (pc s u) 0) as ->.
  { apply Hf; try done. destruct (Z.eqb_spec d r) as [->|]; [by apply Hrd|done]. }
  destruct (Z.eqb_spec u r) as [->|]; [|done]. symmetry. by eapply Hs.
Qed.

Lemma single_signal s r q c :
  flags_exact s -> is_pe r -> next_rank r = Some q -> 0 <= c < num_chunks ->
  pc s r = At 0 (Signal c) -> flags_exact (goto r (At 0 (loop (c + 1))) (set_flag q (c + 1) s)).
Proof.
  intros Hf Hr Hn Hc Hpc u d Hu Hd Hnu. cbn [goto set_flag pc p_sync]. intros Hrd.
  destruct (loop_counts CHUNK_NELEMS 0 a (c + 1) ltac:(lia)) as (_ & _ & Es).
  destruct (Z.eqb_spec d q) as [->|Hdq].
  - assert (u = r) as -> by (by eapply (next_inj pe_size a u r q); try apply call_fits). by rewrite !upd_eq, Es.
  - rewrite (upd_ne _ q d) by done. assert (u <> r) by (intros ->; simplify_eq). rewrite upd_ne by done. apply Hf; try done.
    unfold upd in Hrd. destruct (Z.eqb_spec d r) as [->|]; [by rewrite Hpc|done].
Qed.

Lemma single_exec_exact junk s r s' : inv s -> flags_exact s -> is_pe r -> exec junk r s = Some s' -> flags_exact s'.
Proof.
  intros Hi Hf Hr. pose proof (v_pc _ _ _ s Hi r Hr) as Hok. unfold ChainBroadcast.exec. destruct (pc s r) as [n|n ph] eqn:Hpc.
  { destruct ([a] !! n) as [a'|] eqn:Hc; [|done]. apply single_pc in Hc as [-> ->]. intros [= <-].
    eapply single_quiet; rewrite ?Hpc; done. }
  destruct Hok as (a' & Hc & Hph). rewrite Hc. apply single_pc in Hc as [-> ->].
  pose proof (chain_chunks_nonneg pe_size CHUNK_NELEMS [a] chunk_pos single_ok 0 a eq_refl).
  destruct ph as [|c|c|c|c| |].
  - intros [= <-]. destruct (loop_counts CHUNK_NELEMS 0 a 0 ltac:(lia)) as (_ & _ & Es).
    eapply (single_quiet s _ r (At 0 (loop 0))); rewrite ?Hpc; try done; by case_if.
  - destruct (_ || _); [|done]. intros [= <-]. eapply single_quiet; rewrite ?Hpc; try done. by intros d ->.
  - destruct (ChainBroadcast.next_rank _ a r) as [q|] eqn:Hn; [|done]. intros [= <-]. by eapply (single_quiet s _ r (At 0 (PutEnd c))); rewrite ?Hpc.
  - destruct (ChainBroadcast.next_rank _ a r) as [q|] eqn:Hn; [|done]. intros [= <-]. by eapply (single_quiet s _ r (At 0 (Signal c))); rewrite ?Hpc.
  - destruct (ChainBroadcast.next_rank _ a r) as [q|] eqn:Hn; [|done]. intros [= <-]. apply single_signal; try done. apply Hph.
  - destruct (forallb _ _); [|done]. intros [= <-]. eapply single_quiet; rewrite ?Hpc; done.
  - intros [= <-] u d Hu Hd Hn. cbn [goto set_flag pc p_sync]. intros Hrd. unfold upd in Hrd.
    destruct (Z.eqb_spec d r) as [->|]; [done|]. rewrite (upd_ne _ r d) by done. rewrite (Hf u d) by done.
    unfold upd. destruct (Z.eqb_spec u r) as [->|]; [|done]. by rewrite Hpc.
Qed.

Lemma single_reachable s0 s : initial pe_size s0 -> rtc step s0 s -> inv s /\ flags_exact s.
Proof.
  intros H0 Hs. refine (rtc_invariant step (fun s => inv s /\ flags_exact s) _ _ _ Hs _).
  - intros x y [Hi Hf] [junk p y' Hp He]. split; [|by eapply single_exec_exact].
    by eapply (chain_exec_inv pe_size CHUNK_NELEMS [a] chunk_pos single_ok).
  - split; [by apply chain_initial_inv|]. intros u d Hu Hd _ _. destruct (H0 u Hu) as [-> _]. by destruct (H0 d Hd) as [_ ->].
Qed.

(** *** Some PE can move *)

(** A PE that has not entered the synchronisation moves, once its predecessor has. *)
Lemma single_before junk s r :
  inv s -> flags_exact s -> is_pe r -> arrived 0 (pc s r) = false ->
  (forall u, is_pe u -> next_rank u = Some r -> arrived 0 (pc s u) = true) ->
  exists s', exec junk r s = Some s'.
Proof.
  intros Hi Hf Hr Har Hpred. pose proof (v_pc _ _ _ s Hi r Hr) as Hok. unfold ChainBroadcast.exec.
  destruct (pc s r) as [n|n ph] eqn:Hpc.
  { destruct n; [|done]. by eexists. }
  destruct Hok as (a' & Hc & Hph). rewrite Hc. apply single_pc in Hc as [-> ->].
  destruct ph as [|c|c|c|c| |]; try done; try (destruct Hph as (_ & q & ->)); try by eexists.
  destruct (Z.eqb_spec (virtual_rank pe_size a r) 0) as [|Hv]; [by eexists|].
  destruct (pred_exists pe_size a r (proj2 call_fits) Hr Hv) as (u & Hu & Hn).
  assert (p_sync s r = num_chunks) as ->.
  { rewrite (Hf u r) by (done || by rewrite Hpc). specialize (Hpred u Hu Hn). unfold arrived in Hpred.
    unfold ChainBroadcast.signalled, chunks_done. destruct (pc s u) as [m|m ph]; [by rewrite Hpred|].
    apply orb_true_iff in Hpred as [->|[-> Hp]%andb_true_iff]; [done|]. case_if; [done|]. by destruct ph. }
  rewrite (proj2 (Z.leb_le _ _)) by lia. by eexists.
Qed.

(** Of the PEs that have not entered the synchronisation one is first in the chain. *)
Lemma first_before (s : state (T := T)) r :
  is_pe r -> arrived 0 (pc s r) = false ->
  exists d, is_pe d /\ arrived 0 (pc s d) = false /\ forall u, is_pe u -> next_rank u = Some d -> arrived 0 (pc s u) = true.
Proof.
  intros Hr. remember (Z.to_nat (virtual_rank pe_size a r)) as k eqn:Hk. revert r Hr Hk.
  induction k as [k IH] using lt_wf_ind. intros r Hr Hk Har.
  destruct (decide (virtual_rank pe_size a r = 0)) as [Hv|Hv].
  - exists r. repeat split; try apply Hr; try done. intros u Hu Hn. exfalso.
    destruct (next_virtual pe_size a u r (proj2 call_fits) Hu Hn) as [_ E]. unfold virtual_rank, is_pe in *.
    destruct (u - root_rank a <? 0) eqn:?; lia.
  - destruct (pred_exists pe_size a r (proj2 call_fits) Hr Hv) as (u & Hu & Hn).
    destruct (next_virtual pe_size a u r (proj2 call_fits) Hu Hn) as [_ E].
    destruct (arrived 0 (pc s u)) eqn:Hau.
    + exists r. repeat split; try apply Hr; try done. intros u' Hu' Hn'.
      by rewrite (next_inj pe_size a u' u r (proj2 call_fits) Hu' Hu Hn' Hn).
    + apply (IH (Z.to_nat (virtual_rank pe_size a u))) with (r := u); try done.
      assert (0 <= virtual_rank pe_size a u) by (unfold virtual_rank, is_pe in *; destruct (u - root_rank a <? 0) eqn:?; lia). lia.
Qed.

(** Once every PE has entered the synchronisation, all leave it and return. *)
Lemma single_after junk s r :
  inv s -> is_pe r -> (forall p, is_pe p -> arrived 0 (pc s p) = true) -> pc s r <> Out 1 -> exists s', exec junk r s = Some s'.
Proof.
  intros Hi Hr Hall Hne. pose proof (v_pc _ _ _ s Hi r Hr) as Hok. pose proof (Hall r Hr) as Har. unfold ChainBroadcast.exec.
  destruct (pc s r) as [n|n ph] eqn:Hpc.
  { cbn in Hok, Har. destruct n as [|[|n]]; [done|done|lia]. }
  destruct Hok as (a' & Hc & Hph). rewrite Hc. apply single_pc in Hc as [-> ->]. destruct ph; try done; [|by eexists].
  destruct (forallb _ _) eqn:E; [by eexists|]. apply forallb_false in E as (p & Hp%elem_of_seqZ & Hf).
  rewrite Hall in Hf; [done|unfold ChainBroadcast.is_pe; lia].
Qed.

Lemma single_moves junk s : inv s -> flags_exact s -> finished pe_size [a] s \/ exists p s', is_pe p /\ exec junk p s = Some s'.
Proof.
  intros Hi Hf. destruct (forallb (fun p => arrived 0 (pc s p)) (seqZ 0 pe_size)) eqn:E.
  - rewrite forallb_forall in E. assert (Hall : forall p, is_pe p -> arrived 0 (pc s p) = true).
    { intros p Hp. apply E. rewrite <- list_elem_of_In. apply elem_of_seqZ. unfold ChainBroadcast.is_pe in Hp. lia. }
    destruct (forallb (fun p => match pc s p with Out 1 => true | _ => false end) (seqZ 0 pe_size)) eqn:E'.
    + left. rewrite forallb_forall in E'. intros p Hp. specialize (E' p). rewrite <- list_elem_of_In, elem_of_seqZ in E'.
      unfold ChainBroadcast.is_pe in Hp. specialize (E' ltac:(lia)). by destruct (pc s p) as [[|[|n]]|].
    + right. apply forallb_false in E' as (p & Hp%elem_of_seqZ & Hn). exists p.
      assert (is_pe p) by (unfold ChainBroadcast.is_pe; lia).
      destruct (single_after junk s p) as [s' Hs']; try done; [|by exists s']. intros H1. by rewrite H1 in Hn.
  - right. apply forallb_false in E as (p & Hp%elem_of_seqZ & Hn).
    destruct (first_before s p ltac:(unfold ChainBroadcast.is_pe; lia) Hn) as (d & Hd & Hnd & Hpred).
    destruct (single_before junk s d Hi Hf Hd Hnd Hpred) as [s' Hs']. by exists d, s'.
Qed.

(** *** Number of steps *)

Definition chain_phase_left (ph : phase) : Z :=
  match ph with
  | Fetch => 3 + 4 * num_chunks
  | Wait c => 2 + 4 * (num_chunks - c)
  | Put c => 1 + 4 * (num_chunks - c)
  | PutEnd c => 4 * (num_chunks - c)
  | Signal c => 4 * (num_chunks - c) - 1
  | InBarrier => 2
  | Clear => 1
  end.

Definition chain_steps_left (k : counter) : Z :=
  match k with Out 0 => 4 + 4 * num_chunks | Out (S _) => 0 | At _ ph => chain_phase_left ph end.

Lemma loop_left c : 0 <= c <= num_chunks -> chain_phase_left (loop c) = 2 + 4 * (num_chunks - c).
Proof. intros Hc. unfold ChainBroadcast.loop. case_if; cbn [chain_phase_left]; lia. Qed.

Lemma chain_exec_left junk s r s' :
  inv s -> is_pe r -> exec junk r s = Some s' ->
  exists k', pc s' = upd (pc s) r k' /\ chain_steps_left k' < chain_steps_left (pc s r).
Proof.
  intros Hi Hr. pose proof (v_pc _ _ _ s Hi r Hr) as Hok. unfold ChainBroadcast.exec. destruct (pc s r) as [n|n ph] eqn:Hpc.
  { destruct ([a] !! n) as [a'|] eqn:Hc; [|done]. apply single_pc in Hc as [-> ->]. intros [= <-].
    eexists. split; [done|]. cbn [chain_steps_left chain_phase_left]. lia. }
  destruct Hok as (a' & Hc & Hph). rewrite Hc. apply single_pc in Hc as [-> ->].
  pose proof (chain_chunks_nonneg pe_size CHUNK_NELEMS [a] chunk_pos single_ok 0 a eq_refl).
  destruct ph as [|c|c|c|c| |]; [|destruct (_ || _); [|done]; destruct (ChainBroadcast.next_rank _ a r)|
    destruct Hph as (? & q & ->).. | destruct (forallb _ _); [|done]|].
  all: intros [= <-]; eexists; split; [cbn [goto set_dst set_flag pc]; try reflexivity; by case_if|].
  all: cbn [chain_steps_left]; rewrite ?loop_left by lia; cbn [chain_phase_left]; lia.
Qed.

Definition chain_run_left (s : state (T := T)) : Z := zsum (fun p => chain_steps_left (pc s p)) (seqZ 0 pe_size).

Lemma chain_run_length n s s' : inv s -> nsteps step n s s' -> Z.of_nat n + chain_run_left s' <= chain_run_left s.
Proof.
  intros Hi Hn. induction Hn as [s|n s s1 s' Hs Hn IH]; [lia|]. destruct Hs as [junk p s1 Hp He].
  specialize (IH ltac:(by eapply (chain_exec_inv pe_size CHUNK_NELEMS [a] chunk_pos single_ok))).
  destruct (chain_exec_left junk s p s1 Hi Hp He) as (k' & Hk & Hlt).
  enough (chain_run_left s1 < chain_run_left s) by lia. unfold chain_run_left. rewrite Hk.
  rewrite (zsum_change _ (fun p => chain_steps_left (pc s p)) _ p).
  - rewrite upd_eq. lia.
  - apply NoDup_seqZ.
  - apply elem_of_seqZ. unfold ChainBroadcast.is_pe in Hp. lia.
  - intros x _ Hne. by rewrite upd_ne.
Qed.

Lemma chain_run_left_nonneg s : inv s -> 0 <= chain_run_left s.
Proof.
  intros Hi. apply zsum_nonneg. intros p Hp%elem_of_seqZ.
  pose proof (v_pc _ _ _ s Hi p ltac:(unfold ChainBroadcast.is_pe; lia)) as Hok.
  pose proof (chain_chunks_nonneg pe_size CHUNK_NELEMS [a] chunk_pos single_ok 0 a eq_refl).
  destruct (pc s p) as [[|n]|n ph]; cbn [chain_steps_left]; [lia|done|].
  destruct Hok as (a' & Hc & Hph). apply single_pc in Hc as [-> ->]. destruct ph; cbn [chain_phase_left]; lia.
Qed.

(** A single chain broadcast on cleared flags returns on every PE, whatever the
    interleaving: as long as some PE has not returned some PE can move, and no run
    is longer than four steps per PE and chunk, plus four per PE. *)
Theorem chain_finishes s0 n s junk :
  initial pe_size s0 -> nsteps step n s0 s ->
  Z.of_nat n <= pe_size * (4 + 4 * num_chunks) /\ (finished pe_size [a] s \/ exists p s', is_pe p /\ exec junk p s = Some s').
Proof using chunk_pos call_fits.
  intros H0 Hn. destruct (single_reachable s0 s H0) as [Hi Hf]; [by eapply rtc_nsteps_2|]. split.
  - pose proof (chain_run_length n s0 s (chain_initial_inv _ _ _ s0 H0) Hn). pose proof (chain_run_left_nonneg s Hi).
    enough (chain_run_left s0 = pe_size * (4 + 4 * num_chunks)) by lia. unfold chain_run_left.
    rewrite (zsum_ext _ (fun _ => 4 + 4 * num_chunks)), zsum_const; [rewrite length_seqZ; lia|].
    intros p Hp%elem_of_seqZ. by destruct (H0 p ltac:(unfold ChainBroadcast.is_pe; lia)) as [-> _].
  - by apply single_moves.
Qed.

End single_call.

(** ** The choice and concrete runs *)

(** [internal_broadcastmem_wg_das] takes the chain. *)
Definition takes_chain (pe_size nelems : Z) : bool :=
  let DIRECT_MAX_BYTES := 8 * 1024 in negb ((pe_size <=? 2) || (nelems <=? DIRECT_MAX_BYTES)).

Definition ROCSHMEM_CHUNK_BYTES : Z := 262144.

(** Runs the PEs in the order of the schedule; a PE that cannot move is skipped. *)
Definition chain_drive (pe_size CHUNK_NELEMS : Z) (calls : list (args (T := Z))) (schedule : list Z) (s : state) : state :=
  foldl (fun s p => default s (exec pe_size CHUNK_NELEMS calls (fun _ => -1) p s)) s schedule.

Lemma chain_drive_rtc pe_size CHUNK_NELEMS calls schedule s :
  Forall (fun p => 0 <= p < pe_size) schedule ->
  rtc (step pe_size CHUNK_NELEMS calls) s (chain_drive pe_size CHUNK_NELEMS calls schedule s).
Proof.
  intros Hs. revert s. induction Hs as [|p l Hp Hl IH]; intros s; [done|]. unfold chain_drive. cbn [foldl].
  destruct (exec _ _ _ _ p s) as [s'|] eqn:E; [|apply IH]. eapply rtc_l; [by econstructor|]. apply IH.
Qed.

Definition chain_start : state := mkState (fun _ _ _ => 0) (fun _ => 0) (fun _ => Out 0).

Lemma chain_start_initial pe_size : initial pe_size chain_start.
Proof. intros p _. by split. Qed.

(** Two messages of 300000 and 10000 bytes from roots 1 and 0. *)
Definition chain_calls : list args := [mkArgs 300000 1 (fun x => x mod 256); mkArgs 10000 0 (fun x => x mod 7)].

Definition chain_schedule : list Z := concat (replicate 40 [0; 1; 2]).

Lemma chain_schedule_ok : Forall (fun p => 0 <= p < 3) chain_schedule.
Proof. repeat (constructor; [lia|]). constructor. Qed.

Lemma chain_calls_ok : Forall (fun a => 0 <= nelems a /\ 0 <= root_rank a < 3) chain_calls.
Proof. repeat constructor; cbn; lia. Qed.

Lemma chain_correct_witness :
  dst (chain_drive 3 ROCSHMEM_CHUNK_BYTES chain_calls chain_schedule chain_start) 0 0 299999 = 299999 mod 256.
Proof.
  apply (chain_correct 3 ROCSHMEM_CHUNK_BYTES chain_calls ltac:(done) chain_calls_ok chain_start _ 0 0
    (mkArgs 300000 1 (fun x => x mod 256)) 299999 (chain_start_initial 3)
    (chain_drive_rtc _ _ _ chain_schedule chain_start chain_schedule_ok)); done.
Defined.

Lemma chain_finishes_witness :
  exists n, Z.of_nat n <= 48 /\
    finished 3 [mkArgs 300000 1 (fun x => x)]
      (chain_drive 3 ROCSHMEM_CHUNK_BYTES [mkArgs 300000 1 (fun x => x)] chain_schedule chain_start).
Proof.
  destruct (proj1 (rtc_nsteps _ _) (chain_drive_rtc 3 ROCSHMEM_CHUNK_BYTES [mkArgs 300000 1 (fun x => x)] chain_schedule
    chain_start chain_schedule_ok)) as [n Hn].
  exists n. destruct (chain_finishes 3 ROCSHMEM_CHUNK_BYTES (mkArgs 300000 1 (fun x => x)) ltac:(done) ltac:(done) chain_start n _
    (fun _ => -1) (chain_start_initial 3) Hn) as [Hle _].
  split; [etransitivity; [exact Hle|]; vm_compute; discriminate|].
  intros p Hp. assert (p = 0 \/ p = 1 \/ p = 2) as [->|[->| ->]] by (unfold is_pe in Hp; lia); vm_compute; reflexivity.
Defined.

(** Two broadcasts of one chunk each from PE 0. *)
Definition chain_pair : list args := [mkArgs 10000 0 (fun x => x); mkArgs 10000 0 (fun x => x + 1)].

(** All arrive at the synchronisation of the first call.  PE 1 leaves it but does not
    clear its flag before PE 0 has made the second call up to its synchronisation. *)
Definition chain_pair_schedule : list Z :=
  replicate 6 0 ++ replicate 6 1 ++ replicate 3 2 ++ [1] ++ replicate 8 0 ++ replicate 9 1 ++ replicate 9 2.

Lemma chain_pair_schedule_ok : Forall (fun p => 0 <= p < 3) chain_pair_schedule.
Proof. repeat (constructor; [lia|]). constructor. Qed.

(** Two chain broadcasts in a row can deadlock.  A PE clears its flag after the
    synchronisation, when the root may already have signalled the first chunk of the
    next call; the signal is lost, and from then on no PE can move although none
    has returned from the second call.  Three PEs and messages of one chunk suffice,
    for which [internal_broadcastmem_wg_das] takes the chain. *)
Theorem chain_broadcast_deadlock :
  let s := chain_drive 3 ROCSHMEM_CHUNK_BYTES chain_pair chain_pair_schedule chain_start in
  Forall (fun a => takes_chain 3 (nelems a) = true) chain_pair /\ initial 3 chain_start /\
  rtc (step 3 ROCSHMEM_CHUNK_BYTES chain_pair) chain_start s /\
  (forall s', ~ step 3 ROCSHMEM_CHUNK_BYTES chain_pair s s') /\ forall p, is_pe 3 p -> exists ph, pc s p = At 1 ph.
Proof.
  cbv zeta. set (s := chain_drive _ _ _ _ _).
  assert (H0 : pc s 0 = At 1 InBarrier) by (vm_compute; reflexivity).
  assert (H1 : pc s 1 = At 1 (Wait 0)) by (vm_compute; reflexivity).
  assert (H2 : pc s 2 = At 1 (Wait 0)) by (vm_compute; reflexivity).
  assert (F1 : p_sync s 1 = 0) by (vm_compute; reflexivity). assert (F2 : p_sync s 2 = 0) by (vm_compute; reflexivity).
  assert (Hrun : rtc (step 3 ROCSHMEM_CHUNK_BYTES chain_pair) chain_start s) by (apply chain_drive_rtc, chain_pair_schedule_ok).
  clearbody s. assert (Hpe : forall p, is_pe 3 p -> p = 0 \/ p = 1 \/ p = 2) by (unfold is_pe; lia).
  split; [repeat constructor|]. split; [apply chain_start_initial|]. split; [done|]. split.
  - intros s' [junk p s'' Hp He]. destruct (Hpe p Hp) as [->|[->| ->]]; unfold exec in He.
    + rewrite H0 in He. cbn [lookup list_lookup chain_pair] in He. destruct (forallb _ _) eqn:E; [|done].
      rewrite forallb_forall in E. specialize (E 1). rewrite <- list_elem_of_In, elem_of_seqZ, H1 in E. by specialize (E ltac:(lia)).
    + rewrite H1 in He. cbn in He. by rewrite F1 in He.
    + rewrite H2 in He. cbn in He. by rewrite F2 in He.
  - intros p Hp. destruct (Hpe p Hp) as [->|[->| ->]]; by eexists.
Qed.
