(* ===== verification/Staged.v ===== *)
(** * Programs in stages

    Many collectives have the same shape: between two synchronisations of the team
    every participant starts transfers and local computations and waits for them,
    and what one stage writes the next one reads.  This file has the machine on
    which such programs run, in any interleaving, with transfers that complete out
    of order and leave their target with arbitrary contents meanwhile; and the
    theorem that a program without races has one result, that of running the
    stages one after the other.

    A participant is a PE or a wave of one.  [Post] starts an operation on a queue
    pair, [Quiet] waits for those started on it; a blocking operation is a [Post]
    followed by a [Quiet]. *)

From Stdlib Require Import ZArith Lia.
From stdpp Require Import base option numbers list relations.
From S2P Require Import Prelude.

Open Scope Z_scope.

Section staged.
Context {loc T : Type}.

(** ** Programs *)

Record action := mkAction {
  writes : loc -> bool;
  reads : loc -> bool;
  value : (loc -> T) -> loc -> T
}.

Inductive op :=
  | Post (qp : Z) (a : action)
  | Quiet (qp : Z).

Definition perform (a : action) (m : loc -> T) : loc -> T := fun l => if writes a l then value a m l else m l.

Context (agents : Z) (program : Z -> list (list op)).

Definition stage (p : Z) (k : nat) : list op := default [] (program p !! k).

(** ** The machine *)

Inductive counter :=
  | Run (k i : nat)
  | Bar (k : nat).

(** A started operation; once its transfer is under way, the values it will store. *)
Record flying := mkFlying { f_pos : nat; f_qp : Z; f_act : action; f_latch : option (loc -> T) }.

Record state := mkState { mem : loc -> T; pc : Z -> counter; flight : Z -> list flying }.

Definition goto (p : Z) (c : counter) (s : state) : state := mkState (mem s) (upd (pc s) p c) (flight s).

Definition set_flight (p : Z) (fl : list flying) (s : state) : state := mkState (mem s) (pc s) (upd (flight s) p fl).

Definition store (a : action) (v : loc -> T) (s : state) : state :=
  mkState (fun l => if writes a l then v l else mem s l) (pc s) (flight s).

Definition arrived (k : nat) (c : counter) : bool :=
  match c with Run m _ => (k <? m)%nat | Bar m => (k <=? m)%nat end.

Definition exec (me : Z) (s : state) : option state :=
  match pc s me with
  | Run k i =>
      ops ← program me !! k;
      match ops !! i with
      | None => Some (goto me (Bar k) s)
      | Some (Post qp a) => Some (goto me (Run k (S i)) (set_flight me (flight s me ++ [mkFlying i qp a None]) s))
      | Some (Quiet qp) =>
          if forallb (fun f => negb (f_qp f =? qp)) (flight s me) then Some (goto me (Run k (S i)) s) else None
      end
  | Bar k => if forallb (fun p => arrived k (pc s p)) (seqZ 0 agents) then Some (goto me (Run (S k) 0) s) else None
  end.

(** The [j]-th operation in flight begins, or ends. *)
Definition transfer (junk : loc -> T) (me : Z) (j : nat) (s : state) : option state :=
  f ← flight s me !! j;
  match f_latch f with
  | None =>
      Some (set_flight me (<[j := mkFlying (f_pos f) (f_qp f) (f_act f) (Some (value (f_act f) (mem s)))]> (flight s me))
        (store (f_act f) junk s))
  | Some v => Some (set_flight me (delete j (flight s me)) (store (f_act f) v s))
  end.

Definition is_agent (p : Z) : Prop := 0 <= p < agents.

Inductive step (s : state) : state -> Prop :=
  | step_exec p s' : is_agent p -> exec p s = Some s' -> step s s'
  | step_transfer junk p j s' : is_agent p -> transfer junk p j s = Some s' -> step s s'.

Definition initial (m : loc -> T) (s : state) : Prop :=
  mem s = m /\ forall p, is_agent p -> pc s p = Run 0 0 /\ flight s p = [].

(** ** One stage after the other *)

Definition apply (m : loc -> T) (o : op) : loc -> T := match o with Post _ a => perform a m | Quiet _ => m end.

Definition run (ops : list op) (m : loc -> T) : loc -> T := foldl apply m ops.

Definition op_writes (l : loc) (o : op) : bool := match o with Post _ a => writes a l | Quiet _ => false end.

(** The participant that writes a location in a stage. *)
Definition owner (k : nat) (l : loc) : option Z := List.find (fun q => existsb (op_writes l) (stage q k)) (seqZ 0 agents).

Fixpoint after (m : loc -> T) (k : nat) : loc -> T :=
  match k with
  | O => m
  | S k => fun l => match owner k l with Some q => run (stage q k) (after m k) l | None => after m k l end
  end.

(** ** Freedom from races *)

Definition no_clash (a b : action) : Prop :=
  forall l, (writes a l = true -> writes b l = false /\ reads b l = false) /\ (reads a l = true -> writes b l = false).

Definition local (a : action) : Prop :=
  forall m m', (forall l, reads a l = true -> m l = m' l) -> forall l, writes a l = true -> value a m l = value a m' l.

Record race_free (stages : nat) : Prop := {
  rf_stages : forall p, is_agent p -> length (program p) = stages;
  rf_local : forall p k i qp a, is_agent p -> stage p k !! i = Some (Post qp a) -> local a;
  rf_cross : forall p q k i j qp a qp' b, is_agent p -> is_agent q -> p <> q ->
    stage p k !! i = Some (Post qp a) -> stage q k !! j = Some (Post qp' b) -> no_clash a b;
  rf_own : forall p k i j qp a qp' b, is_agent p -> (i < j)%nat ->
    stage p k !! i = Some (Post qp a) -> stage p k !! j = Some (Post qp' b) ->
    no_clash a b \/ exists h, (i < h < j)%nat /\ stage p k !! h = Some (Quiet qp);
  rf_quiet : forall p k i qp a, is_agent p -> stage p k !! i = Some (Post qp a) ->
    exists h, (i < h)%nat /\ stage p k !! h = Some (Quiet qp)
}.

Context (stages : nat) (m0 : loc -> T).
Hypothesis free : race_free stages.

Lemma no_clash_sym a b : no_clash a b -> no_clash b a.
Proof. intros H l. destruct (H l) as [Hw Hr]. destruct (writes a l), (reads a l), (writes b l), (reads b l); naive_solver. Qed.

(** ** Sequential runs *)

Lemma run_unwritten ops m l : existsb (op_writes l) ops = false -> run ops m l = m l.
Proof.
  unfold run. revert m. induction ops as [|o ops IH]; intros m H; [done|]. cbn in H |- *. apply orb_false_iff in H as [Ho H].
  rewrite IH by done. destruct o as [qp a|qp]; cbn in *; [unfold perform; by rewrite Ho|done].
Qed.

Lemma writes_take l i ops : existsb (op_writes l) ops = false -> existsb (op_writes l) (take i ops) = false.
Proof. intros H. rewrite <- (take_drop i ops), existsb_app in H. by apply orb_false_iff in H as [? _]. Qed.

Lemma run_snoc ops i o m : ops !! i = Some o -> run (take (S i) ops) m = apply (run (take i ops) m) o.
Proof. intros H. unfold run. by rewrite (take_S_r _ _ _ H), foldl_app. Qed.

Lemma writes_lookup l ops : existsb (op_writes l) ops = true -> exists i qp a, ops !! i = Some (Post qp a) /\ writes a l = true.
Proof.
  intros (o & Hin & Ho)%existsb_exists. rewrite <- list_elem_of_In in Hin. apply list_elem_of_lookup in Hin as [i Hi].
  destruct o as [qp a|qp]; [|done]. by exists i, qp, a.
Qed.

(** A participant that touches a location is the only one that may write it. *)
Lemma others_silent p q k i qp a l :
  is_agent p -> is_agent q -> q <> p -> stage p k !! i = Some (Post qp a) -> writes a l || reads a l = true ->
  existsb (op_writes l) (stage q k) = false.
Proof.
  intros Hp Hq Hne Hi Hl. apply not_true_is_false. intros (j & qp' & b & Hj & Hb)%writes_lookup.
  destruct (rf_cross _ free p q k i j qp a qp' b Hp Hq ltac:(done) Hi Hj l) as [Hw Hr].
  apply orb_true_iff in Hl as [Hl|Hl]; [destruct (Hw Hl)|specialize (Hr Hl)]; congruence.
Qed.

Lemma owner_agent k l q : owner k l = Some q -> is_agent q /\ existsb (op_writes l) (stage q k) = true.
Proof.
  intros [Hin Hw]%find_some. rewrite <- list_elem_of_In in Hin. apply elem_of_seqZ in Hin. split; [unfold is_agent; lia|done].
Qed.

Lemma owner_none k l q : owner k l = None -> is_agent q -> existsb (op_writes l) (stage q k) = false.
Proof.
  intros H Hq. apply (find_none _ _ H q). rewrite <- list_elem_of_In. apply elem_of_seqZ. unfold is_agent in Hq. lia.
Qed.

(** ** Invariant *)

Definition progress (k : nat) (p : Z) (c : counter) : nat :=
  match c with
  | Run m i => if (m =? k)%nat then i else 0
  | Bar m => if (m =? k)%nat then length (stage p k) else 0
  end.

Definition partial (s : state) (k : nat) (p : Z) : loc -> T := run (take (progress k p (pc s p)) (stage p k)) (after m0 k).

Definition current (s : state) (k : nat) (l : loc) : T :=
  match owner k l with Some q => partial s k q l | None => after m0 k l end.

Record fly_ok (s : state) (k : nat) (p : Z) (f : flying) : Prop := {
  fly_post : stage p k !! f_pos f = Some (Post (f_qp f) (f_act f));
  fly_past : (f_pos f < progress k p (pc s p))%nat;
  fly_open : forall h, (f_pos f < h < progress k p (pc s p))%nat -> stage p k !! h <> Some (Quiet (f_qp f));
  fly_value : match f_latch f with
              | Some v => forall l, writes (f_act f) l = true -> partial s k p l = v l
              | None => exists m, (forall l, writes (f_act f) l = true -> partial s k p l = value (f_act f) m l) /\
                          forall l, reads (f_act f) l = true -> mem s l = m l
              end
}.

Record inv (k : nat) (s : state) : Prop := {
  g_k : (k <= stages)%nat;
  g_pc : forall p, is_agent p ->
    match pc s p with
    | Run m i => m = k /\ (i <= length (stage p k))%nat
    | Bar m => (m < stages)%nat /\ (m = k \/ S m = k) /\ flight s p = []
    end;
  g_nodup : forall p, is_agent p -> NoDup (f_pos <$> flight s p);
  g_fly : forall p f, is_agent p -> f ∈ flight s p -> fly_ok s k p f;
  g_mem : forall l, (exists p f, is_agent p /\ f ∈ flight s p /\ writes (f_act f) l = true) \/ mem s l = current s k l
}.

Lemma current_own s k p i qp a l :
  is_agent p -> stage p k !! i = Some (Post qp a) -> writes a l || reads a l = true -> current s k l = partial s k p l.
Proof.
  intros Hp Hi Hl. unfold current. destruct (owner k l) as [q|] eqn:Ho.
  - apply owner_agent in Ho as [Hq Hw]. destruct (decide (q = p)) as [->|Hne]; [done|].
    by rewrite (others_silent p q k i qp a l) in Hw.
  - unfold partial. rewrite run_unwritten; [done|]. apply writes_take. by apply (owner_none k l).
Qed.

Lemma current_ext s s' k l : (forall p, is_agent p -> partial s k p l = partial s' k p l) -> current s k l = current s' k l.
Proof. intros H. unfold current. destruct (owner k l) as [q|] eqn:Ho; [|done]. apply owner_agent in Ho as [Hq _]. by apply H. Qed.

(** Two operations in flight do not clash. *)
Lemma fly_apart s k p q i j f g :
  inv k s -> is_agent p -> is_agent q -> flight s p !! i = Some f -> flight s q !! j = Some g -> (p <> q \/ i <> j) ->
  no_clash (f_act f) (f_act g).
Proof.
  intros Hi Hp Hq Hf Hg Hne.
  pose proof (g_fly k s Hi p f Hp ltac:(by eapply list_elem_of_lookup_2)) as Ff.
  pose proof (g_fly k s Hi q g Hq ltac:(by eapply list_elem_of_lookup_2)) as Fg.
  destruct (decide (p = q)) as [->|Hpq]; [|exact (rf_cross _ free p q k _ _ _ _ _ _ Hp Hq Hpq (fly_post _ _ _ _ Ff) (fly_post _ _ _ _ Fg))].
  destruct Hne as [?|Hij]; [done|].
  assert (Hpos : f_pos f <> f_pos g).
  { intros E. apply Hij. apply (proj1 (NoDup_alt _) (g_nodup k s Hi q Hq) i j (f_pos f)); rewrite list_lookup_fmap;
      [by rewrite Hf|by rewrite Hg, E]. }
  destruct (Nat.lt_total (f_pos f) (f_pos g)) as [Hlt|[?|Hlt]]; [|done|].
  - destruct (rf_own _ free q k _ _ _ _ _ _ Hq Hlt (fly_post _ _ _ _ Ff) (fly_post _ _ _ _ Fg)) as [?|(h & Hh & HQ)]; [done|].
    exfalso. apply (fly_open _ _ _ _ Ff h); [|done]. pose proof (fly_past _ _ _ _ Fg). lia.
  - destruct (rf_own _ free q k _ _ _ _ _ _ Hq Hlt (fly_post _ _ _ _ Fg) (fly_post _ _ _ _ Ff)) as [?|(h & Hh & HQ)];
      [by apply no_clash_sym|].
    exfalso. apply (fly_open _ _ _ _ Fg h); [|done]. pose proof (fly_past _ _ _ _ Ff). lia.
Qed.

(** A transfer by [p] of the operation at position [j] changes memory only where that
    operation writes, and does not touch what the others in flight read. *)
Lemma fly_kept s s' k p q j i f g :
  inv k s -> is_agent p -> is_agent q -> flight s p !! j = Some f -> flight s q !! i = Some g -> (p <> q \/ j <> i) ->
  pc s' = pc s -> (forall l, writes (f_act f) l = false -> mem s' l = mem s l) -> fly_ok s' k q g.
Proof.
  intros Hi Hp Hq Hf Hg Hne Hpc Hm.
  destruct (g_fly k s Hi q g Hq ltac:(by eapply list_elem_of_lookup_2)) as [H1 H2 H3 H4]. split; rewrite ?Hpc; try done.
  unfold partial in *. rewrite Hpc. destruct (f_latch g) as [v|]; [done|]. destruct H4 as (m & Hw & Hr). exists m. split; [done|].
  intros l Hl. rewrite Hm; [by apply Hr|]. pose proof (fly_apart s k p q j i f g Hi Hp Hq Hf Hg Hne l) as [Hc _].
  destruct (writes (f_act f) l); [|done]. destruct (Hc eq_refl) as [_ E]. congruence.
Qed.

Lemma begin_inv s k p j f junk :
  inv k s -> is_agent p -> flight s p !! j = Some f -> f_latch f = None ->
  inv k (set_flight p (<[j := mkFlying (f_pos f) (f_qp f) (f_act f) (Some (value (f_act f) (mem s)))]> (flight s p))
    (store (f_act f) junk s)).
Proof.
  intros Hi Hp Hf Hl. set (f' := mkFlying _ _ _ _). set (s' := set_flight _ _ _).
  pose proof (lookup_lt_Some _ _ _ Hf) as Hlen.
  assert (Hpc : pc s' = pc s) by done.
  assert (Hm : forall l, writes (f_act f) l = false -> mem s' l = mem s l).
  { intros l E. unfold s', set_flight, store. cbn. by rewrite E. }
  assert (Hfl : forall q, flight s' q = if q =? p then <[j := f']> (flight s p) else flight s q) by done.
  split; try apply Hi.
  - intros q Hq. rewrite Hpc, Hfl. pose proof (g_pc k s Hi q Hq) as H. destruct (pc s q) as [|m]; [done|].
    destruct H as (? & ? & E). repeat split; try done. destruct (Z.eqb_spec q p) as [->|]; [|done]. by rewrite E in Hf.
  - intros q Hq. rewrite Hfl. pose proof (g_nodup k s Hi q Hq) as H. destruct (Z.eqb_spec q p) as [->|]; [|done].
    rewrite list_fmap_insert. rewrite list_insert_id; [done|]. by rewrite list_lookup_fmap, Hf.
  - intros q g Hq Hg. rewrite Hfl in Hg. apply list_elem_of_lookup in Hg as [i Hg].
    destruct (Z.eqb_spec q p) as [->|Hqp]; [|by eapply (fly_kept s s' k p q j i f g); auto].
    destruct (decide (i = j)) as [->|Hij].
    + rewrite list_lookup_insert_eq in Hg by done. injection Hg as <-.
      destruct (g_fly k s Hi p f Hp ltac:(by eapply list_elem_of_lookup_2)) as [H1 H2 H3 H4].
      split; cbn [f_pos f_qp f_act f_latch f']; rewrite ?Hpc; try done. rewrite Hl in H4. destruct H4 as (m & Hw & Hr).
      intros l E. unfold partial in *. rewrite Hpc. rewrite (Hw l E). symmetry. by apply (rf_local _ free p k _ _ _ Hp H1).
    + rewrite list_lookup_insert_ne in Hg by done. eapply (fly_kept s s' k p p j i f g); auto.
  - intros l. destruct (writes (f_act f) l) eqn:E.
    + left. exists p, f'. split; [done|]. split; [|done]. rewrite Hfl, Z.eqb_refl. eapply list_elem_of_lookup_2.
      by apply list_lookup_insert_eq.
    + destruct (g_mem k s Hi l) as [(q & g & Hq & Hg & Hw)|E'].
      * left. exists q, g. repeat split; try apply Hq; try done. rewrite Hfl. destruct (Z.eqb_spec q p) as [->|]; [|done].
        apply list_elem_of_lookup in Hg as [i Hg]. apply (list_elem_of_lookup_2 _ i). rewrite list_lookup_insert_ne; [done|].
        intros ->. congruence.
      * right. rewrite Hm by done. rewrite E'. by apply current_ext.
Qed.

Lemma end_inv s k p j f v :
  inv k s -> is_agent p -> flight s p !! j = Some f -> f_latch f = Some v ->
  inv k (set_flight p (delete j (flight s p)) (store (f_act f) v s)).
Proof.
  intros Hi Hp Hf Hl. set (s' := set_flight _ _ _).
  assert (Hpc : pc s' = pc s) by done.
  assert (Hm : forall l, writes (f_act f) l = false -> mem s' l = mem s l).
  { intros l E. unfold s', set_flight, store. cbn. by rewrite E. }
  assert (Hfl : forall q, flight s' q = if q =? p then delete j (flight s p) else flight s q) by done.
  assert (Hsub : forall q i g, flight s' q !! i = Some g -> exists i', flight s q !! i' = Some g /\ (p <> q \/ j <> i')).
  { intros q i g. rewrite Hfl. destruct (Z.eqb_spec q p) as [->|]; [|intros H; exists i; auto].
    destruct (decide (i < j)%nat); [rewrite list_lookup_delete_lt by done|rewrite list_lookup_delete_ge by lia];
      intros H; eexists; (split; [done|]); right; lia. }
  split; try apply Hi.
  - intros q Hq. rewrite Hpc, Hfl. pose proof (g_pc k s Hi q Hq) as H. destruct (pc s q) as [|m]; [done|].
    destruct H as (? & ? & E). repeat split; try done. destruct (Z.eqb_spec q p) as [->|]; [|done]. by rewrite E in Hf.
  - intros q Hq. rewrite Hfl. pose proof (g_nodup k s Hi q Hq) as H. destruct (Z.eqb_spec q p) as [->|]; [|done].
    rewrite list_fmap_delete. refine (sublist_NoDup _ _ H (sublist_delete _ _)).
  - intros q g Hq [i Hg]%list_elem_of_lookup. destruct (Hsub q i g Hg) as (i' & Hg' & Hne).
    by eapply (fly_kept s s' k p q j i' f g).
  - intros l. destruct (writes (f_act f) l) eqn:E.
    + right. destruct (g_fly k s Hi p f Hp ltac:(by eapply list_elem_of_lookup_2)) as [H1 H2 H3 H4]. rewrite Hl in H4.
      rewrite (current_own s' k p _ _ _ l Hp H1) by (by rewrite E). unfold partial in *. rewrite Hpc, (H4 l E).
      unfold s', set_flight, store. cbn. by rewrite E.
    + destruct (g_mem k s Hi l) as [(q & g & Hq & Hg & Hw)|E'].
      * left. exists q, g. repeat split; try apply Hq; try done. rewrite Hfl. destruct (Z.eqb_spec q p) as [->|]; [|done].
        apply list_elem_of_lookup in Hg as [i Hg]. assert (i <> j) by (intros ->; congruence).
        destruct (decide (i < j)%nat).
        -- apply (list_elem_of_lookup_2 _ i). by rewrite list_lookup_delete_lt.
        -- apply (list_elem_of_lookup_2 _ (pred i)). rewrite list_lookup_delete_ge by lia. by replace (S (pred i)) with i by lia.
      * right. rewrite Hm by done. rewrite E'. by apply current_ext.
Qed.

(** Progress of [p] alone. *)
Lemma progress_other k p q c (s : state) : q <> p -> progress k q (upd (pc s) p c q) = progress k q (pc s q).
Proof. intros Hne. by rewrite upd_ne. Qed.

Lemma partial_other s s' k p q c : q <> p -> pc s' = upd (pc s) p c -> partial s' k q = partial s k q.
Proof. intros Hne Hpc. unfold partial. by rewrite Hpc, upd_ne. Qed.

Lemma fly_other s s' k p q c f :
  q <> p -> pc s' = upd (pc s) p c -> mem s' = mem s -> fly_ok s k q f -> fly_ok s' k q f.
Proof.
  intros Hne Hpc Hm [H1 H2 H3 H4]. split; try done; rewrite ?Hpc, ?upd_ne by done; try done.
  rewrite (partial_other s s' k p q c Hne Hpc), Hm. done.
Qed.

(** A step of [p] that leaves what it has computed as it is. *)
Lemma still_inv s k p c :
  inv k s -> is_agent p -> partial (goto p c s) k p = partial s k p ->
  match c with
  | Run m i => m = k /\ (i <= length (stage p k))%nat
  | Bar m => (m < stages)%nat /\ (m = k \/ S m = k) /\ flight s p = []
  end ->
  (forall f, f ∈ flight s p -> (f_pos f < progress k p c)%nat /\
    forall h, (f_pos f < h < progress k p c)%nat -> stage p k !! h <> Some (Quiet (f_qp f))) ->
  inv k (goto p c s).
Proof.
  intros Hi Hp Hpart Hc Hfl. split; try apply Hi.
  - intros q Hq. cbn. unfold upd. destruct (Z.eqb_spec q p) as [->|]; [done|]. by apply Hi.
  - intros q f Hq Hf. destruct (decide (q = p)) as [->|Hne].
    + destruct (g_fly k s Hi p f Hp Hf) as [H1 H2 H3 H4]. destruct (Hfl f Hf) as [H5 H6].
      split; try done; rewrite ?Hpart; try done; cbn; by rewrite upd_eq.
    + eapply (fly_other s _ k p q c); try done. by apply Hi.
  - intros l. destruct (g_mem k s Hi l) as [?|E]; [by left|right]. cbn. rewrite E. apply current_ext. intros q Hq.
    destruct (decide (q = p)) as [->|Hne]; [by rewrite Hpart|by rewrite (partial_other s (goto p c s) k p q c)].
Qed.

Lemma arrive_inv s k p i :
  inv k s -> is_agent p -> pc s p = Run k i -> (k < stages)%nat -> stage p k !! i = None -> inv k (goto p (Bar k) s).
Proof.
  intros Hi Hp Hpc Hk Hnone. pose proof (g_pc k s Hi p Hp) as Hok. rewrite Hpc in Hok. destruct Hok as [_ Hle].
  apply lookup_ge_None in Hnone. assert (i = length (stage p k)) as -> by lia.
  assert (Hempty : flight s p = []).
  { destruct (flight s p) as [|f fl] eqn:E; [done|exfalso].
    destruct (g_fly k s Hi p f Hp ltac:(rewrite E; by left)) as [H1 H2 H3 _]. rewrite Hpc in H2, H3. cbn in H2, H3.
    rewrite Nat.eqb_refl in *. destruct (rf_quiet _ free p k _ _ _ Hp H1) as (h & Hlt & HQ).
    apply (H3 h); [|done]. pose proof (lookup_lt_Some _ _ _ HQ). lia. }
  apply still_inv; try done.
  - unfold partial. cbn. rewrite upd_eq, Hpc. cbn. by rewrite Nat.eqb_refl.
  - split; [done|]. split; [by left|done].
  - rewrite Hempty. by intros f ?%elem_of_nil.
Qed.

Lemma wait_inv s k p i qp :
  inv k s -> is_agent p -> pc s p = Run k i -> stage p k !! i = Some (Quiet qp) ->
  forallb (fun f => negb (f_qp f =? qp)) (flight s p) = true -> inv k (goto p (Run k (S i)) s).
Proof.
  intros Hi Hp Hpc Hop Hall. rewrite forallb_forall in Hall. apply still_inv; try done.
  - unfold partial. cbn [goto pc]. rewrite upd_eq, Hpc. cbn [progress]. rewrite Nat.eqb_refl. by rewrite (run_snoc _ _ _ _ Hop).
  - split; [done|]. by apply lookup_lt_Some in Hop.
  - intros f Hf. destruct (g_fly k s Hi p f Hp Hf) as [H1 H2 H3 _]. rewrite Hpc in H2, H3. cbn in *.
    rewrite Nat.eqb_refl in *. split; [lia|]. intros h Hh. destruct (decide (h = i)) as [->|]; [|apply H3; lia].
    rewrite Hop. intros [= ->]. specialize (Hall f). rewrite <- list_elem_of_In, Z.eqb_refl in Hall. by specialize (Hall Hf).
Qed.

Lemma pass_inv s k p : inv k s -> is_agent p -> pc s p = Bar k -> (forall q, is_agent q -> arrived k (pc s q) = true) ->
  inv (S k) (goto p (Run (S k) 0) s).
Proof.
  intros Hi Hp Hpc Hall.
  assert (Hbar : forall q, is_agent q -> pc s q = Bar k /\ flight s q = []).
  { intros q Hq. pose proof (g_pc k s Hi q Hq) as H. specialize (Hall q Hq). destruct (pc s q) as [m i|m]; cbn in Hall.
    - apply Nat.ltb_lt in Hall. lia.
    - apply Nat.leb_le in Hall. destruct H as (? & [->|?] & ?); [done|lia]. }
  pose proof (g_pc k s Hi p Hp) as Hk. rewrite Hpc in Hk. destruct Hk as [Hk _].
  assert (Hpart : forall q l, is_agent q -> partial (goto p (Run (S k) 0) s) (S k) q l = after m0 (S k) l).
  { intros q l Hq. unfold partial. cbn [goto pc]. unfold upd. destruct (Z.eqb_spec q p) as [->|].
    - cbn [progress]. by rewrite Nat.eqb_refl.
    - destruct (Hbar q Hq) as [-> _]. cbn [progress]. rewrite (proj2 (Nat.eqb_neq k (S k))) by lia. done. }
  assert (Hmem : forall l, mem s l = after m0 (S k) l).
  { intros l. destruct (g_mem k s Hi l) as [(q & f & Hq & Hf & _)|E].
    - destruct (Hbar q Hq) as [_ E]. rewrite E in Hf. by apply elem_of_nil in Hf.
    - rewrite E. cbn [after]. unfold current. destruct (owner k l) as [q|] eqn:Ho; [|done]. apply owner_agent in Ho as [Hq _].
      unfold partial. destruct (Hbar q Hq) as [-> _]. cbn. by rewrite Nat.eqb_refl, take_ge. }
  split.
  - lia.
  - intros q Hq. cbn. unfold upd. destruct (Z.eqb_spec q p) as [->|]; [split; [done|lia]|].
    destruct (Hbar q Hq) as [-> Hf]. split; [done|]. split; [by right|done].
  - apply Hi.
  - intros q f Hq Hf. cbn in Hf. destruct (Hbar q Hq) as [_ E]. rewrite E in Hf. by apply elem_of_nil in Hf.
  - intros l. right. cbn [goto mem]. rewrite Hmem. unfold current. destruct (owner (S k) l) as [q|] eqn:Ho; [|done].
    apply owner_agent in Ho as [Hq _]. by rewrite Hpart.
Qed.

Lemma post_inv s k p i qp a :
  inv k s -> is_agent p -> pc s p = Run k i -> stage p k !! i = Some (Post qp a) ->
  inv k (goto p (Run k (S i)) (set_flight p (flight s p ++ [mkFlying i qp a None]) s)).
Proof.
  intros Hi Hp Hpc Hop. set (f' := mkFlying i qp a None). set (s' := goto _ _ _).
  assert (Hpc' : pc s' = upd (pc s) p (Run k (S i))) by done.
  assert (Hfl : forall q, flight s' q = if q =? p then flight s p ++ [f'] else flight s q) by done.
  assert (Hprog : progress k p (pc s p) = i) by (rewrite Hpc; cbn; by rewrite Nat.eqb_refl).
  assert (Hprog' : progress k p (pc s' p) = S i) by (rewrite Hpc', upd_eq; cbn; by rewrite Nat.eqb_refl).
  assert (Hpart : partial s' k p = perform a (partial s k p)).
  { unfold partial. by rewrite Hprog, Hprog', (run_snoc _ _ _ _ Hop). }
  assert (Hapart : forall f, f ∈ flight s p -> no_clash (f_act f) a /\ (f_pos f < i)%nat).
  { intros f Hf. destruct (g_fly k s Hi p f Hp Hf) as [H1 H2 H3 _]. rewrite Hprog in *. split; [|done].
    destruct (rf_own _ free p k _ _ _ _ _ _ Hp H2 H1 Hop) as [?|(h & Hh & HQ)]; [done|]. by destruct (H3 h Hh). }
  assert (Hread : forall l, writes a l || reads a l = true -> forall q f, is_agent q -> f ∈ flight s q -> writes (f_act f) l = false).
  { intros l Hl q f Hq Hf. apply not_true_is_false. intros Hw. destruct (decide (q = p)) as [->|Hne].
    - destruct (Hapart f Hf) as [H _]. destruct (H l) as [H1 _]. destruct (H1 Hw) as [E1 E2]. by rewrite E1, E2 in Hl.
    - pose proof (fly_post _ _ _ _ (g_fly k s Hi q f Hq Hf)) as Hpost.
      destruct (rf_cross _ free q p k _ _ _ _ _ _ Hq Hp Hne Hpost Hop l) as [H1 _].
      destruct (H1 Hw) as [E1 E2]. by rewrite E1, E2 in Hl. }
  split; try apply Hi.
  - intros q Hq. rewrite Hpc', Hfl. unfold upd. destruct (Z.eqb_spec q p) as [->|]; [|by apply Hi]. split; [done|].
    by apply lookup_lt_Some in Hop.
  - intros q Hq. rewrite Hfl. pose proof (g_nodup k s Hi q Hq) as H. destruct (Z.eqb_spec q p) as [->|]; [|done].
    rewrite fmap_app. apply NoDup_app. split; [done|]. split; [|apply NoDup_singleton].
    intros x (f & -> & Hf)%list_elem_of_fmap Hx. apply list_elem_of_singleton in Hx. cbn in Hx. destruct (Hapart f Hf). lia.
  - intros q f Hq Hf. rewrite Hfl in Hf. destruct (Z.eqb_spec q p) as [->|Hne].
    2:{ eapply (fly_other s s' k p q); try done. by apply Hi. }
    apply elem_of_app in Hf as [Hf| ->%list_elem_of_singleton].
    + destruct (g_fly k s Hi p f Hp Hf) as [H1 H2 H3 H4]. destruct (Hapart f Hf) as [Hc _].
      split; try done; rewrite ?Hprog'; rewrite Hprog in *.
      * lia.
      * intros h Hh. destruct (decide (h = i)) as [->|]; [by rewrite Hop|apply H3; lia].
      * assert (Hk : forall l, writes (f_act f) l = true -> partial s' k p l = partial s k p l).
        { intros l Hl. rewrite Hpart. unfold perform. destruct (Hc l) as [Hcl _]. by destruct (Hcl Hl) as [-> _]. }
        destruct (f_latch f) as [v|]; [intros l Hl; rewrite Hk by done; by apply H4|].
        destruct H4 as (m & Hw & Hr). exists m. split; [|done]. intros l Hl. rewrite Hk by done. by apply Hw.
    + split; cbn [f_pos f_qp f_act f_latch f']; rewrite ?Hprog'; [done|lia|lia|]. exists (partial s k p). split.
      * intros l Hl. rewrite Hpart. unfold perform. by rewrite Hl.
      * intros l Hl. destruct (g_mem k s Hi l) as [(q & f & Hq' & Hf & Hw)|E].
        -- by rewrite (Hread l ltac:(by rewrite Hl, orb_true_r) q f Hq' Hf) in Hw.
        -- cbn. rewrite E. apply (current_own s k p i qp a); [done|done|by rewrite Hl, orb_true_r].
  - intros l. destruct (writes a l) eqn:E.
    + left. exists p, f'. split; [done|]. split; [|done]. rewrite Hfl, Z.eqb_refl. apply elem_of_app. right. by apply list_elem_of_singleton.
    + destruct (g_mem k s Hi l) as [(q & g & Hq & Hg & Hw)|E'].
      * left. exists q, g. repeat split; try apply Hq; try done. rewrite Hfl. destruct (Z.eqb_spec q p) as [->|]; [|done].
        apply elem_of_app. by left.
      * right. cbn. rewrite E'. apply current_ext. intros q Hq. destruct (decide (q = p)) as [->|Hne].
        -- rewrite Hpart. unfold perform. by rewrite E.
        -- by rewrite (partial_other s s' k p q (Run k (S i))).
Qed.

Lemma exec_inv s k p s' : inv k s -> is_agent p -> exec p s = Some s' -> exists k', inv k' s'.
Proof.
  intros Hi Hp. pose proof (g_pc k s Hi p Hp) as Hok. unfold exec. destruct (pc s p) as [m i|m] eqn:Hpc.
  - destruct Hok as [-> Hle]. destruct (program p !! k) as [ops|] eqn:Hops; [|done]. cbn.
    assert (Hst : stage p k = ops) by (unfold stage; by rewrite Hops).
    assert (Hk : (k < stages)%nat) by (rewrite <- (rf_stages _ free p Hp); by eapply lookup_lt_Some).
    rewrite <- Hst. destruct (stage p k !! i) as [[qp a|qp]|] eqn:Hop.
    + intros [= <-]. exists k. by apply post_inv.
    + destruct (forallb _ _) eqn:Hall; [|done]. intros [= <-]. exists k. by eapply wait_inv.
    + intros [= <-]. exists k. by eapply arrive_inv.
  - destruct (forallb _ _) eqn:Hall; [|done]. intros [= <-]. rewrite forallb_forall in Hall.
    assert (Harr : forall q, is_agent q -> arrived m (pc s q) = true).
    { intros q Hq. apply Hall. rewrite <- list_elem_of_In. apply elem_of_seqZ. unfold is_agent in Hq. lia. }
    destruct Hok as (Hm & [->|<-] & Hfl); [exists (S k); by apply pass_inv|]. exists (S m). apply still_inv; try done.
    + unfold partial. cbn [goto pc]. rewrite upd_eq, Hpc. cbn [progress]. rewrite Nat.eqb_refl, (proj2 (Nat.eqb_neq m (S m))) by lia. done.
    + split; [done|lia].
    + rewrite Hfl. by intros f ?%elem_of_nil.
Qed.

Lemma staged_inv s s' : initial m0 s -> rtc step s s' -> exists k, inv k s'.
Proof.
  intros [Hm H0] Hs. refine (rtc_invariant step (fun s => exists k, inv k s) _ _ _ Hs _).
  - intros x y [k Hi] [p y' Hp He|junk p j y' Hp He]; [by eapply exec_inv|]. exists k. unfold transfer in He.
    destruct (flight x p !! j) as [f|] eqn:Hf; [|done]. cbn in He. destruct (f_latch f) as [v|] eqn:Hl; injection He as <-.
    + by apply end_inv.
    + by apply begin_inv.
  - exists 0%nat. split.
    + lia.
    + intros p Hp. destruct (H0 p Hp) as [-> _]. split; [done|lia].
    + intros p Hp. destruct (H0 p Hp) as [_ ->]. constructor.
    + intros p f Hp. destruct (H0 p Hp) as [_ ->]. by intros ?%elem_of_nil.
    + intros l. right. rewrite Hm. unfold current. destruct (owner 0 l) as [q|] eqn:Ho; [|done]. apply owner_agent in Ho as [Hq _].
      unfold partial. destruct (H0 q Hq) as [-> _]. done.
Qed.

(** A participant past the last stage sees the result of running the stages one after
    the other. *)
Lemma staged_result s s' p l : initial m0 s -> rtc step s s' -> is_agent p -> pc s' p = Run stages 0 -> mem s' l = after m0 stages l.
Proof.
  intros H0 Hs Hp Hpc. destruct (staged_inv s s' H0 Hs) as [k Hi]. pose proof (g_pc k s' Hi p Hp) as Hk. rewrite Hpc in Hk.
  destruct Hk as [<- _]. assert (Hend : forall q, is_agent q -> stage q stages = []).
  { intros q Hq. unfold stage. rewrite lookup_ge_None_2; [done|]. by rewrite (rf_stages _ free q Hq). }
  destruct (g_mem _ s' Hi l) as [(q & f & Hq & Hf & _)|E].
  - pose proof (fly_post _ _ _ _ (g_fly _ s' Hi q f Hq Hf)) as H. by rewrite (Hend q Hq) in H.
  - rewrite E. unfold current. destruct (owner stages l) as [q|] eqn:Ho; [|done]. apply owner_agent in Ho as [Hq Hw].
    by rewrite (Hend q Hq) in Hw.
Qed.

(** ** Every run ends *)

Definition finished (s : state) : Prop := forall p, is_agent p -> pc s p = Run stages 0 /\ flight s p = [].

Lemma forall_agents (b : Z -> bool) : (forall p, is_agent p -> b p = true) \/ exists p, is_agent p /\ b p = false.
Proof.
  destruct (forallb b (seqZ 0 agents)) eqn:E.
  - left. rewrite forallb_forall in E. intros p Hp. apply E. rewrite <- list_elem_of_In. apply elem_of_seqZ.
    unfold is_agent in Hp. lia.
  - right. apply forallb_false in E as (p & Hp%elem_of_seqZ & Hf). exists p. split; [unfold is_agent; lia|done].
Qed.

Lemma transfer_moves junk s p : flight s p <> [] -> exists s', transfer junk p 0 s = Some s'.
Proof. intros H. unfold transfer. destruct (flight s p) as [|f fl]; [done|]. cbn. destruct (f_latch f); by eexists. Qed.

Lemma run_moves s k p i : is_agent p -> pc s p = Run k i -> (k < stages)%nat -> flight s p = [] -> exists s', exec p s = Some s'.
Proof.
  intros Hp Hpc Hk Hfl. unfold exec. rewrite Hpc. destruct (program p !! k) as [ops|] eqn:E.
  - cbn. destruct (ops !! i) as [[]|]; rewrite ?Hfl; by eexists.
  - apply lookup_ge_None in E. rewrite (rf_stages _ free p Hp) in E. lia.
Qed.

Lemma bar_moves s k p : pc s p = Bar k -> (forall q, is_agent q -> arrived k (pc s q) = true) -> exists s', exec p s = Some s'.
Proof.
  intros Hpc Hall. unfold exec. rewrite Hpc. destruct (forallb _ _) eqn:E; [by eexists|].
  apply forallb_false in E as (q & Hq%elem_of_seqZ & Hf). rewrite Hall in Hf; [done|unfold is_agent; lia].
Qed.

Lemma staged_moves (junk : loc -> T) s k : inv k s -> finished s \/ exists s', step s s'.
Proof.
  intros Hi. assert (Hexec : forall p, is_agent p -> (exists s', exec p s = Some s') -> exists s', step s s').
  { intros p Hp [s' Hs']. exists s'. by econstructor. }
  destruct (forall_agents (fun p => match flight s p with [] => true | _ => false end)) as [Hfl|(p & Hp & Hf)].
  2:{ right. destruct (transfer_moves junk s p) as [s' Hs']; [intros E; by rewrite E in Hf|]. exists s'.
      by eapply step_transfer. }
  assert (Hempty : forall p, is_agent p -> flight s p = []) by (intros p Hp; specialize (Hfl p Hp); by destruct (flight s p)).
  destruct (forall_agents (fun p => match pc s p with Run _ _ => false | _ => true end)) as [Hbar|(p & Hp & Hf)].
  - destruct (forall_agents (fun p => match pc s p with Bar m => (k <=? m)%nat | _ => false end)) as [Hall|(p & Hp & Hf)].
    + destruct (decide (0 < agents)) as [Hn|Hn]; [|left; intros p Hp; unfold is_agent in Hp; lia]. right.
      assert (H0 : is_agent 0) by (unfold is_agent; lia). apply (Hexec 0 H0). pose proof (g_pc k s Hi 0 H0) as Hk.
      pose proof (Hall 0 H0) as Hb. destruct (pc s 0) as [|m] eqn:Hpc; [done|]. apply Nat.leb_le in Hb.
      destruct Hk as (_ & [->|?] & _); [|lia]. apply (bar_moves s k 0 Hpc). intros q Hq. specialize (Hall q Hq).
      by destruct (pc s q).
    + right. apply (Hexec p Hp). pose proof (g_pc k s Hi p Hp) as Hk. specialize (Hbar p Hp).
      destruct (pc s p) as [|m] eqn:Hpc; [done|]. apply Nat.leb_gt in Hf. destruct Hk as (_ & [->|<-] & _); [lia|].
      apply (bar_moves s m p Hpc). intros q Hq. pose proof (g_pc _ s Hi q Hq) as H. destruct (pc s q) as [m' i'|m']; cbn.
      * apply Nat.ltb_lt. lia.
      * apply Nat.leb_le. lia.
  - destruct (pc s p) as [m i|] eqn:Hpc; [|done]. pose proof (g_pc k s Hi p Hp) as Hk. rewrite Hpc in Hk. destruct Hk as [-> Hle].
    destruct (decide (k < stages)%nat) as [Hlt|Hge]; [right; apply (Hexec p Hp); by eapply run_moves; eauto|].
    pose proof (g_k k s Hi) as Hks. assert (k = stages) as -> by lia.
    destruct (forall_agents (fun q => match pc s q with Run _ _ => true | _ => false end)) as [Hall|(q & Hq & Hfq)].
    + left. intros q Hq. split; [|by apply Hempty]. pose proof (g_pc _ s Hi q Hq) as H. specialize (Hall q Hq).
      destruct (pc s q) as [m' i'|]; [|done]. destruct H as [-> Hi']. unfold stage in Hi'.
      rewrite lookup_ge_None_2 in Hi' by (by rewrite (rf_stages _ free q Hq)). cbn in Hi'. f_equal. lia.
    + right. apply (Hexec q Hq). pose proof (g_pc _ s Hi q Hq) as H. destruct (pc s q) as [|m'] eqn:Hpq; [done|].
      destruct H as (Hm' & [->|E] & _); [lia|]. apply (bar_moves s m' q Hpq). intros q' Hq'.
      pose proof (g_pc _ s Hi q' Hq') as Hk'. destruct (pc s q') as [m'' i''|m'']; cbn; [apply Nat.ltb_lt|apply Nat.leb_le]; lia.
Qed.

(** Steps a participant has left. *)
Definition stage_cost (ops : list op) (rest : Z) : Z := 3 * Z.of_nat (length ops) + 2 + rest.

Definition cost (prog : list (list op)) : Z := foldr stage_cost 0 prog.

Definition flying_cost (fl : list flying) : Z := foldr (fun f => Z.add (if f_latch f then 1 else 2)) 0 fl.

Definition steps_left (p : Z) (s : state) : Z :=
  match pc s p with
  | Run k i => cost (drop k (program p)) - 3 * Z.of_nat i
  | Bar k => 1 + cost (drop (S k) (program p))
  end + flying_cost (flight s p).

Definition run_left (s : state) : Z := zsum (fun p => steps_left p s) (seqZ 0 agents).

Lemma cost_nonneg prog : 0 <= cost prog.
Proof. induction prog as [|ops prog IH]; [done|]. change (0 <= stage_cost ops (cost prog)). unfold stage_cost. lia. Qed.

Lemma cost_drop p k ops : program p !! k = Some ops ->
  cost (drop k (program p)) = 3 * Z.of_nat (length ops) + 2 + cost (drop (S k) (program p)).
Proof. intros H. by rewrite (drop_S _ _ _ H). Qed.

Lemma flying_cons f fl : flying_cost (f :: fl) = (if f_latch f then 1 else 2) + flying_cost fl.
Proof. done. Qed.

Lemma flying_nonneg fl : 0 <= flying_cost fl.
Proof. induction fl as [|f fl IH]; [done|]. rewrite flying_cons. destruct (f_latch f); lia. Qed.

Lemma flying_snoc fl f : flying_cost (fl ++ [f]) = flying_cost fl + (if f_latch f then 1 else 2).
Proof. induction fl as [|g fl IH]; cbn [app]; rewrite !flying_cons, ?IH; unfold flying_cost; cbn; lia. Qed.

Lemma flying_split fl j f : fl !! j = Some f -> flying_cost fl = flying_cost (delete j fl) + (if f_latch f then 1 else 2).
Proof.
  revert j. induction fl as [|g fl IH]; intros [|j] H; [done|done| |].
  - injection H as ->. change (delete 0%nat (f :: fl)) with fl. rewrite flying_cons. lia.
  - change (delete (S j) (g :: fl)) with (g :: delete j fl). rewrite !flying_cons, (IH j H). lia.
Qed.

Lemma staged_left_nonneg k s p : inv k s -> is_agent p -> 0 <= steps_left p s.
Proof.
  intros Hi Hp. unfold steps_left. pose proof (flying_nonneg (flight s p)). pose proof (g_pc k s Hi p Hp) as Hok.
  destruct (pc s p) as [m i|m]; [|pose proof (cost_nonneg (drop (S m) (program p))); lia].
  destruct Hok as [-> Hle]. unfold stage in Hle. destruct (program p !! k) as [ops|] eqn:E; cbn in Hle.
  - rewrite (cost_drop p k ops E). pose proof (cost_nonneg (drop (S k) (program p))). lia.
  - pose proof (cost_nonneg (drop k (program p))). lia.
Qed.

(** Every step takes one of the steps left away from its participant. *)
Lemma staged_exec_left k s p s' : inv k s -> is_agent p -> exec p s = Some s' ->
  steps_left p s' < steps_left p s /\ forall q, q <> p -> steps_left q s' = steps_left q s.
Proof.
  intros Hi Hp. pose proof (g_pc k s Hi p Hp) as Hok. unfold exec. destruct (pc s p) as [m i|m] eqn:Hpc.
  - destruct Hok as [-> Hle]. destruct (program p !! k) as [ops|] eqn:Hops; [|done]. cbn.
    unfold stage in Hle. rewrite Hops in Hle. cbn in Hle.
    destruct (ops !! i) as [[qp a|qp]|] eqn:Hop; [|destruct (forallb _ _); [|done]|];
      intros [= <-]; unfold steps_left; (split; [|intros q Hq; cbn; by rewrite !upd_ne]); rewrite Hpc;
      cbn [goto set_flight pc flight]; rewrite ?upd_eq.
    + rewrite flying_snoc. cbn [f_latch]. lia.
    + lia.
    + rewrite (cost_drop p k ops Hops). apply lookup_ge_None in Hop. lia.
  - destruct (forallb _ _); [|done]. intros [= <-]. unfold steps_left. split; [|intros q Hq; cbn; by rewrite !upd_ne].
    rewrite Hpc. cbn [goto pc flight]. rewrite upd_eq. lia.
Qed.

Lemma transfer_left junk s p j s' : transfer junk p j s = Some s' ->
  steps_left p s' < steps_left p s /\ forall q, q <> p -> steps_left q s' = steps_left q s.
Proof.
  unfold transfer. destruct (flight s p !! j) as [f|] eqn:Hf; [|done]. cbn. pose proof (flying_split _ _ _ Hf) as Hs.
  destruct (f_latch f) as [v|] eqn:Hl; intros [= <-]; unfold steps_left; (split; [|intros q Hq; cbn; by rewrite ?upd_ne]);
    cbn [set_flight store pc flight]; rewrite upd_eq; [lia|].
  pose proof (lookup_lt_Some _ _ _ Hf) as Hlt. set (f' := mkFlying _ _ _ _).
  rewrite (flying_split _ j f') by (by apply list_lookup_insert_eq). cbn [f_latch f'].
  assert (delete j (<[j:=f']> (flight s p)) = delete j (flight s p)) as ->; [|lia].
  by rewrite !delete_take_drop, take_insert_ge, drop_insert_lt by lia.
Qed.

Lemma step_left k s s' : inv k s -> step s s' -> run_left s' < run_left s.
Proof.
  intros Hi Hs. assert (exists p, is_agent p /\ steps_left p s' < steps_left p s /\ forall q, q <> p -> steps_left q s' = steps_left q s)
    as (p & Hp & Hlt & Hq).
  { destruct Hs as [p s' Hp He|junk p j s' Hp He]; exists p; (split; [done|]); [by eapply staged_exec_left|by eapply transfer_left]. }
  unfold run_left. rewrite (zsum_change _ (fun p => steps_left p s) _ p); [lia|apply NoDup_seqZ| |].
  - apply elem_of_seqZ. unfold is_agent in Hp. lia.
  - intros q _ Hne. by apply Hq.
Qed.

(** No run of a race-free program is longer than three steps per operation and two per
    stage and participant, and a participant can move until all have finished. *)
Lemma staged_ends s n s' (junk : loc -> T) : initial m0 s -> nsteps step n s s' ->
  Z.of_nat n <= zsum (fun p => cost (program p)) (seqZ 0 agents) /\ (finished s' \/ exists s'', step s' s'').
Proof.
  intros H0 Hn. split.
  - assert (Hlen : forall s, (exists s0, initial m0 s0 /\ rtc step s0 s) -> nsteps step n s s' -> Z.of_nat n + run_left s' <= run_left s).
    { clear Hn s H0. induction n as [|n IH]; intros s (s0 & H0 & Hr) Hn; inversion Hn as [|? ? s1 ? Hs Hn']; subst; [lia|].
      destruct (staged_inv s0 s H0 Hr) as [k Hi]. pose proof (step_left k s s1 Hi Hs).
      specialize (IH s1 ltac:(exists s0; split; [done|]; by eapply rtc_r) Hn'). lia. }
    specialize (Hlen s ltac:(by exists s) Hn). destruct (staged_inv s s' H0) as [k Hi]; [by eapply rtc_nsteps_2|].
    assert (0 <= run_left s').
    { apply zsum_nonneg. intros p Hp%elem_of_seqZ. apply (staged_left_nonneg k); [done|unfold is_agent; lia]. }
    enough (run_left s = zsum (fun p => cost (program p)) (seqZ 0 agents)) by lia. apply zsum_ext. intros p Hp%elem_of_seqZ.
    unfold steps_left. destruct (proj2 H0 p ltac:(unfold is_agent; lia)) as [-> ->]. rewrite drop_0. change (flying_cost []) with 0. lia.
  - destruct (staged_inv s s' H0) as [k Hi]; [by eapply rtc_nsteps_2|]. by apply (staged_moves junk s' k).
Qed.

End staged.
