(* ===== verification/Transfers.v ===== *)
(** * Transfers between symmetric buffers

    Locations of the symmetric heap, the operations that stages are made of (copies
    of ranges and element-wise computations), and stages given as batches: the
    operations of a batch are started together and then waited for.  The lemmas
    reduce freedom from races and the result of a stage to the operations. *)

From Stdlib Require Import ZArith Lia.
From stdpp Require Import base option numbers list relations.
From S2P Require Import Prelude Staged.

Open Scope Z_scope.

(** ** Locations *)

(** The buffers of a collective: its arguments and the work area of the team. *)
Inductive buffer := Source | Dest | Work.

#[export] Instance buffer_eq_dec : EqDecision buffer.
Proof. solve_decision. Defined.

Definition loc : Type := Z * buffer * Z.

(** Elements [lo] to [lo + len - 1] of a buffer of PE [p]. *)
Definition in_range (p : Z) (b : buffer) (lo len : Z) (l : loc) : bool :=
  let '(q, c, x) := l in (q =? p) && bool_decide (c = b) && (lo <=? x) && (x <? lo + len).

Lemma in_range_true p b lo len q c x : in_range p b lo len (q, c, x) = true <-> q = p /\ c = b /\ lo <= x < lo + len.
Proof.
  unfold in_range. rewrite !andb_true_iff, bool_decide_eq_true, Z.eqb_eq, Z.leb_le, Z.ltb_lt. naive_solver lia.
Qed.

Lemma in_range_false p b lo len q c x : in_range p b lo len (q, c, x) = false <-> ~ (q = p /\ c = b /\ lo <= x < lo + len).
Proof. rewrite <- in_range_true. by rewrite not_true_iff_false. Qed.

Section transfers.
Context {T : Type}.
Notation action := (action (loc := loc) (T := T)).
Notation op := (op (loc := loc) (T := T)).

(** A put, a get or a copy of [len] elements. *)
Definition copy (from : Z) (fb : buffer) (foff : Z) (to : Z) (tb : buffer) (toff len : Z) : action :=
  mkAction (in_range to tb toff len) (in_range from fb foff len) (fun m '(_, _, x) => m (from, fb, foff + (x - toff))).

Lemma copy_local from fb foff to tb toff len : local (copy from fb foff to tb toff len).
Proof.
  intros m m' H [[q c] x] Hw. cbn in *. apply in_range_true in Hw as (-> & -> & Hx). apply H. apply in_range_true. repeat split; lia.
Qed.

(** Ranges that do not overlap. *)
Definition apart (p : Z) (b : buffer) (lo len : Z) (p' : Z) (b' : buffer) (lo' len' : Z) : Prop :=
  p <> p' \/ b <> b' \/ lo + len <= lo' \/ lo' + len' <= lo.

Lemma range_apart p b lo len p' b' lo' len' l :
  apart p b lo len p' b' lo' len' -> in_range p b lo len l = true -> in_range p' b' lo' len' l = false.
Proof.
  destruct l as [[q c] x]. intros H (-> & -> & Hx)%in_range_true. apply in_range_false. intros (-> & -> & Hx').
  destruct H as [?|[?|?]]; [done|done|lia].
Qed.

Lemma copy_apart from fb foff to tb toff len from' fb' foff' to' tb' toff' len' :
  apart to tb toff len to' tb' toff' len' -> apart to tb toff len from' fb' foff' len' ->
  apart from fb foff len to' tb' toff' len' ->
  no_clash (copy from fb foff to tb toff len) (copy from' fb' foff' to' tb' toff' len').
Proof. intros H1 H2 H3 l. cbn [writes reads copy]. split; [split|]; eauto using range_apart. Qed.

Lemma no_clash_intro (a b : action) :
  (forall l, writes a l = true -> writes b l = true -> False) -> (forall l, writes a l = true -> reads b l = true -> False) ->
  (forall l, reads a l = true -> writes b l = true -> False) -> no_clash a b.
Proof.
  intros H1 H2 H3 l. specialize (H1 l). specialize (H2 l). specialize (H3 l).
  destruct (writes a l), (reads a l), (writes b l), (reads b l); naive_solver.
Qed.

(** ** Stages as batches *)

Definition batch (acts : list action) : list op := (Post (-1) <$> acts) ++ [Quiet (-1)].

Definition batches (bs : list (list action)) : list op := bs ≫= batch.

(** Operations that are waited for one by one. *)
Definition blocking (acts : list action) : list (list action) := (fun a => [a]) <$> acts.

Lemma concat_blocking acts : concat (blocking acts) = acts.
Proof. unfold blocking. induction acts as [|a acts IH]; cbn; [done|by f_equal]. Qed.

Lemma ops_run_app ops ops' (m : loc -> T) : run (ops ++ ops') m = run ops' (run ops m).
Proof. unfold run. by rewrite foldl_app. Qed.

Lemma run_batch acts m : run (batch acts) m = foldl (fun m a => perform a m) m acts.
Proof.
  unfold batch. rewrite ops_run_app. unfold run. cbn. revert m. induction acts as [|a acts IH]; intros m; [done|]. cbn. apply IH.
Qed.

Lemma run_batches bs m : run (batches bs) m = foldl (fun m a => perform a m) m (concat bs).
Proof.
  unfold batches. revert m. induction bs as [|b bs IH]; intros m; [done|].
  change (run (batch b ++ (bs ≫= batch)) m = foldl (fun m a => perform a m) m (b ++ concat bs)).
  by rewrite ops_run_app, run_batch, IH, foldl_app.
Qed.

Lemma post_in_batches bs i qp a : batches bs !! i = Some (Post qp a) -> a ∈ concat bs.
Proof.
  intros H%list_elem_of_lookup_2. unfold batches in H. apply list_elem_of_bind in H as (b & Ha & Hb).
  apply list_elem_of_In, in_concat. exists b. rewrite <- !list_elem_of_In. split; [done|].
  unfold batch in Ha. apply elem_of_app in Ha as [(a' & E & Ha')%list_elem_of_fmap|Ha]; [by injection E as _ ->|].
  by apply list_elem_of_singleton in Ha.
Qed.

Lemma writes_batches bs l : existsb (op_writes l) (batches bs) = existsb (fun a => writes a l) (concat bs).
Proof.
  unfold batches. induction bs as [|b bs IH]; [done|].
  change (existsb (op_writes l) (batch b ++ (bs ≫= batch)) = existsb (fun a => writes a l) (b ++ concat bs)).
  rewrite !existsb_app. f_equal; [|done].
  unfold batch. rewrite existsb_app. cbn. rewrite orb_false_r. induction b as [|a b IHb]; [done|]. cbn. by rewrite IHb.
Qed.

Lemma batch_post b j qp a : batch b !! j = Some (Post qp a) -> qp = -1 /\ b !! j = Some a /\ (j < length b)%nat.
Proof.
  unfold batch. destruct (decide (j < length b)%nat) as [Hlt|Hge].
  - rewrite lookup_app_l by (by rewrite length_fmap). rewrite list_lookup_fmap. destruct (b !! j); [|done].
    intros [= <- <-]. done.
  - rewrite lookup_app_r by (rewrite length_fmap; lia). rewrite length_fmap. by destruct (j - length b)%nat as [|[]].
Qed.

Lemma batch_end b : batch b !! length b = Some (Quiet (-1)).
Proof. unfold batch. rewrite lookup_app_r by (by rewrite length_fmap). by rewrite length_fmap, Nat.sub_diag. Qed.

(** Within a batch the operations do not clash; between batches there is a wait. *)
Definition batches_apart (bs : list (list action)) : Prop :=
  Forall (fun b => forall i j a a', (i < j)%nat -> b !! i = Some a -> b !! j = Some a' -> no_clash a a') bs.

Lemma blocking_apart l : batches_apart (blocking l).
Proof.
  unfold batches_apart, blocking. apply Forall_fmap, Forall_forall. intros a _ [|i] [|j] b b' Hij Hi Hj; try lia; by cbn in *.
Qed.

Lemma batches_own bs i j qp a qp' a' :
  batches_apart bs -> (i < j)%nat -> batches bs !! i = Some (Post qp a) -> batches bs !! j = Some (Post qp' a') ->
  no_clash a a' \/ exists h, (i < h < j)%nat /\ batches bs !! h = Some (Quiet qp).
Proof.
  unfold batches, batches_apart. intros Hb Hij. revert i j Hij. induction Hb as [|b bs Hb Hbs IH]; intros i j Hij Hi Hj; [done|].
  change ((b :: bs) ≫= batch) with (batch b ++ (bs ≫= batch)) in *. assert (Hlen : length (batch b) = S (length b)) by (unfold batch; rewrite length_app, length_fmap; cbn; lia).
  destruct (decide (i < length (batch b))%nat) as [Hli|Hli].
  - rewrite lookup_app_l in Hi by done. destruct (batch_post _ _ _ _ Hi) as (-> & Hi' & Hlt).
    destruct (decide (j < length (batch b))%nat) as [Hlj|Hlj].
    + rewrite lookup_app_l in Hj by done. destruct (batch_post _ _ _ _ Hj) as (-> & Hj' & _). left. exact (Hb i j _ _ Hij Hi' Hj').
    + right. exists (length b). split; [lia|]. rewrite lookup_app_l by lia. apply batch_end.
  - rewrite lookup_app_r in Hi, Hj by lia. destruct (IH (i - length (batch b))%nat (j - length (batch b))%nat) as [?|(h & Hh & HQ)];
      try done; [lia|by left|]. right. exists (length (batch b) + h)%nat. split; [lia|].
    rewrite lookup_app_r by lia. by replace (length (batch b) + h - length (batch b))%nat with h by lia.
Qed.

Lemma batches_quiet bs i qp a : batches bs !! i = Some (Post qp a) -> exists h, (i < h)%nat /\ batches bs !! h = Some (Quiet qp).
Proof.
  unfold batches. revert i. induction bs as [|b bs IH]; intros i Hi; [done|].
  change ((b :: bs) ≫= batch) with (batch b ++ (bs ≫= batch)) in *.
  assert (Hlen : length (batch b) = S (length b)) by (unfold batch; rewrite length_app, length_fmap; cbn; lia).
  destruct (decide (i < length (batch b))%nat) as [Hli|Hli].
  - rewrite lookup_app_l in Hi by done. destruct (batch_post _ _ _ _ Hi) as (-> & _ & Hlt). exists (length b). split; [done|].
    rewrite lookup_app_l by lia. apply batch_end.
  - rewrite lookup_app_r in Hi by lia. destruct (IH _ Hi) as (h & Hh & HQ). exists (length (batch b) + h)%nat. split; [lia|].
    rewrite lookup_app_r by lia. by replace (length (batch b) + h - length (batch b))%nat with h by lia.
Qed.

(** ** Results of operations *)

Definition performs (acts : list action) (m : loc -> T) : loc -> T := foldl (fun m a => perform a m) m acts.

Lemma performs_kept acts m l : (forall a, a ∈ acts -> writes a l = false) -> performs acts m l = m l.
Proof.
  unfold performs. revert m. induction acts as [|a acts IH]; intros m H; [done|]. cbn. rewrite IH.
  - unfold perform. by rewrite (H a) by left.
  - intros b Hb. apply H. by right.
Qed.

Lemma performs_app acts acts' m : performs (acts ++ acts') m = performs acts' (performs acts m).
Proof. unfold performs. by rewrite foldl_app. Qed.

(** An operation that clashes with none of the others stores what it would alone. *)
Lemma performs_alone acts i a m l :
  acts !! i = Some a -> local a -> writes a l = true ->
  (forall j b, acts !! j = Some b -> j <> i -> no_clash b a) -> performs acts m l = value a m l.
Proof.
  intros Hi Ha Hw Hc. rewrite <- (take_drop_middle acts i a Hi). rewrite performs_app.
  pose proof (lookup_lt_Some _ _ _ Hi) as Hlen.
  change (performs (drop (S i) acts) (perform a (performs (take i acts) m)) l = value a m l). rewrite performs_kept.
  - unfold perform. rewrite Hw. apply Ha; [|done]. intros l' Hl'. apply performs_kept.
    intros b Hb. apply list_elem_of_lookup in Hb as [j Hj]. apply lookup_take_Some in Hj as [Hj Hlt].
    destruct (Hc j b Hj ltac:(lia) l') as [H _]. destruct (writes b l'); [|done]. destruct (H eq_refl). congruence.
  - intros b Hb. apply list_elem_of_lookup in Hb as [j Hj]. rewrite lookup_drop in Hj.
    destruct (Hc _ b Hj ltac:(lia) l) as [H _]. destruct (writes b l); [|done]. destruct (H eq_refl). congruence.
Qed.

(** Where all operations that write a location agree, and read only what none of them
    writes, their order does not matter. *)
Lemma performs_agree (keep : loc -> bool) acts m l v :
  (forall b l', b ∈ acts -> writes b l' = true -> keep l' = false) ->
  (forall b m', b ∈ acts -> writes b l = true -> (forall l', keep l' = true -> m' l' = m l') -> value b m' l = v) ->
  (exists a, a ∈ acts /\ writes a l = true) -> performs acts m l = v.
Proof.
  intros Hkeep Hval Hex.
  assert (Hgen : forall m', (forall l', keep l' = true -> m' l' = m l') ->
    (performs acts m' l = v \/ performs acts m' l = m' l /\ forall a, a ∈ acts -> writes a l = false)).
  { clear Hex. induction acts as [|a acts IH]; intros m' Hm'; [right; split; [done|by intros a ?%elem_of_nil]|]. cbn.
    assert (Hm'' : forall l', keep l' = true -> perform a m' l' = m l').
    { intros l' Hl'. unfold perform. destruct (writes a l') eqn:E; [|by apply Hm']. rewrite (Hkeep a l') in Hl'; [done|by left|done]. }
    destruct (IH ltac:(intros b l' Hb; apply Hkeep; by right) ltac:(intros b m1 Hb; apply Hval; by right) (perform a m') Hm'')
      as [H|[H Hn]]; [by left|].
    change (performs acts (perform a m') l = v \/ performs acts (perform a m') l = m' l /\ forall a0, a0 ∈ a :: acts -> writes a0 l = false).
    rewrite H. unfold perform at 1 2. destruct (writes a l) eqn:E.
    - left. apply Hval; [by left|done|done].
    - right. split; [done|]. intros b [->|Hb]%elem_of_cons; [done|by apply Hn]. }
  destruct Hex as (a & Ha & Hw). destruct (Hgen m ltac:(done)) as [?|[_ Hn]]; [done|]. rewrite (Hn a Ha) in Hw. done.
Qed.

(** ** Programs of batches *)

Context (agents : Z) (A : Z -> list (list (list action))).

Definition program (p : Z) : list (list op) := batches <$> A p.

Definition acts (p : Z) (k : nat) : list action := concat (default [] (A p !! k)).

Record well_staged (stages : nat) : Prop := {
  ws_stages : forall p, is_agent agents p -> length (A p) = stages;
  ws_local : forall p k a, is_agent agents p -> a ∈ acts p k -> local a;
  ws_cross : forall p q k a b, is_agent agents p -> is_agent agents q -> p <> q -> a ∈ acts p k -> b ∈ acts q k -> no_clash a b;
  ws_own : forall p k, is_agent agents p -> batches_apart (default [] (A p !! k))
}.

Lemma stage_batches p k : stage program p k = batches (default [] (A p !! k)).
Proof. unfold stage, program. rewrite list_lookup_fmap. by destruct (A p !! k). Qed.

Context (stages : nat) (m0 : loc -> T).
Hypothesis staged : well_staged stages.

Lemma well_staged_free : race_free agents program stages.
Proof.
  split.
  - intros p Hp. unfold program. rewrite length_fmap. by apply (ws_stages _ staged).
  - intros p k i qp a Hp Hi. rewrite stage_batches in Hi. apply (ws_local _ staged p k); [done|by eapply post_in_batches].
  - intros p q k i j qp a qp' b Hp Hq Hne Hi Hj. rewrite stage_batches in Hi, Hj.
    apply (ws_cross _ staged p q k); try done; by eapply post_in_batches.
  - intros p k i j qp a qp' b Hp Hij Hi Hj. rewrite stage_batches in *. eapply batches_own; try done. by apply (ws_own _ staged).
  - intros p k i qp a Hp Hi. rewrite stage_batches in *. by eapply batches_quiet.
Qed.

Notation after := (after agents program m0).

(** What a stage does not write stays. *)
Lemma after_kept k l : (forall q a, is_agent agents q -> a ∈ acts q k -> writes a l = false) -> after (S k) l = after k l.
Proof.
  intros H. cbn [Staged.after]. destruct (owner agents program k l) as [q|] eqn:Ho; [|done].
  apply owner_agent in Ho as [Hq Hw]. rewrite stage_batches, writes_batches in Hw. apply existsb_exists in Hw as (a & Ha & Hw).
  rewrite (H q a) in Hw; [done|done|by apply list_elem_of_In].
Qed.

(** What a participant writes is the result of its own operations. *)
Lemma after_own k p a l : is_agent agents p -> a ∈ acts p k -> writes a l = true -> after (S k) l = performs (acts p k) (after k) l.
Proof.
  intros Hp Ha Hw. cbn [Staged.after]. destruct (owner agents program k l) as [q|] eqn:Ho.
  - apply owner_agent in Ho as [Hq Hwq]. rewrite stage_batches, writes_batches in Hwq. apply existsb_exists in Hwq as (b & Hb & Hwb).
    destruct (decide (q = p)) as [->|Hne]; [by rewrite stage_batches, run_batches|].
    destruct (ws_cross _ staged p q k a b Hp Hq ltac:(done) Ha ltac:(by apply list_elem_of_In) l) as [H _].
    destruct (H Hw). congruence.
  - pose proof (owner_none _ _ _ _ p Ho Hp) as Hn. rewrite stage_batches, writes_batches in Hn.
    assert (existsb (fun a => writes a l) (acts p k) = true) as E; [|unfold acts in E; congruence].
    apply existsb_exists. exists a. split; [by apply list_elem_of_In|done].
Qed.

(** Where no other participant writes. *)
Lemma after_mine k p l : is_agent agents p -> (forall q a, is_agent agents q -> q <> p -> a ∈ acts q k -> writes a l = false) ->
  after (S k) l = performs (acts p k) (after k) l.
Proof.
  intros Hp H. destruct (existsb (fun a => writes a l) (acts p k)) eqn:E.
  - apply existsb_exists in E as (a & Ha & Hw). apply (after_own k p a); [done|by apply list_elem_of_In|done].
  - assert (Hn : forall a, a ∈ acts p k -> writes a l = false).
    { intros a Ha. apply not_true_is_false. intros Hw. assert (existsb (fun a => writes a l) (acts p k) = true) as E'; [|congruence].
      apply existsb_exists. exists a. split; [by apply list_elem_of_In|done]. }
    rewrite performs_kept by done. apply after_kept. intros q a Hq Ha. destruct (decide (q = p)) as [->|]; [by apply Hn|by eapply H].
Qed.

Lemma after_alone k p i a l :
  is_agent agents p -> acts p k !! i = Some a -> writes a l = true ->
  (forall j b, acts p k !! j = Some b -> j <> i -> no_clash b a) -> after (S k) l = value a (after k) l.
Proof.
  intros Hp Hi Hw Hc. rewrite (after_own k p a l Hp) by (done || by eapply list_elem_of_lookup_2).
  apply (performs_alone _ i); try done. apply (ws_local _ staged p k); [done|by eapply list_elem_of_lookup_2].
Qed.

(** Locations that no operation writes. *)
Lemma after_frame k l : (forall q j a, is_agent agents q -> a ∈ acts q j -> writes a l = false) -> after k l = m0 l.
Proof.
  intros H. induction k as [|k IH]; [done|]. rewrite after_kept; [done|]. intros q a Hq Ha. by eapply H.
Qed.

End transfers.

(** ** Programs one after the other *)

Section sequence.
Context {T : Type} (agents : Z).
Notation action := (action (loc := loc) (T := T)).

Lemma performs_ext (l : list action) m m' : (forall a, a ∈ l -> local a) -> (forall x, m x = m' x) ->
  forall x, performs l m x = performs l m' x.
Proof.
  revert m m'. induction l as [|a l IH]; intros m m' Hl Hm x; [apply Hm|]. cbn. apply IH; [intros b Hb; apply Hl; by right|].
  intros y. unfold perform. destruct (writes a y) eqn:E; [|done]. apply (Hl a ltac:(by left)); [|done]. auto.
Qed.

(** The result of a stage depends on the operations of that stage and on the memory
    before it. *)
Lemma after_step (A B : Z -> list (list (list action))) stagesA stagesB (m m' : loc -> T) k j :
  well_staged agents A stagesA -> well_staged agents B stagesB ->
  (forall p, is_agent agents p -> acts A p k = acts B p j) ->
  (forall l, after agents (program A) m k l = after agents (program B) m' j l) ->
  forall l, after agents (program A) m (S k) l = after agents (program B) m' (S j) l.
Proof.
  intros HA HB Hacts Hm l.
  destruct (forall_agents agents (fun p => negb (existsb (fun a => writes a l) (acts A p k)))) as [Hn|(p & Hp & Hw)].
  - assert (H : forall q a, is_agent agents q -> a ∈ acts A q k -> writes a l = false).
    { intros q a Hq Ha. apply not_true_is_false. intros Hw. specialize (Hn q Hq). apply negb_true_iff in Hn.
      assert (existsb (fun a => writes a l) (acts A q k) = true) as E; [|congruence].
      apply existsb_exists. exists a. split; [by apply list_elem_of_In|done]. }
    rewrite !after_kept; [done| |done]. intros q a Hq Ha. apply (H q a Hq). by rewrite Hacts.
  - apply negb_false_iff, existsb_exists in Hw as (a & Ha & Hw). rewrite <- list_elem_of_In in Ha.
    rewrite (after_own agents A stagesA m HA k p a l Hp Ha Hw).
    rewrite (after_own agents B stagesB m' HB j p a l Hp) by (done || by rewrite <- Hacts).
    rewrite <- Hacts by done. apply performs_ext; [|done]. intros b Hb. by apply (ws_local _ _ _ HA p k).
Qed.

Lemma well_staged_ext (A B : Z -> list (list (list action))) n :
  (forall p, is_agent agents p -> A p = B p) -> well_staged agents A n -> well_staged agents B n.
Proof.
  intros H HA. assert (Ha : forall p k, is_agent agents p -> acts B p k = acts A p k) by (intros p k Hp; unfold acts; by rewrite H).
  split.
  - intros p Hp. rewrite <- H by done. by apply HA.
  - intros p k a Hp. rewrite Ha by done. by apply HA.
  - intros p q k a b Hp Hq Hne. rewrite !Ha by done. by apply HA.
  - intros p k Hp. rewrite <- H by done. by apply HA.
Qed.

Lemma after_ext (A B : Z -> list (list (list action))) n (m : loc -> T) k l :
  (forall p, is_agent agents p -> A p = B p) -> well_staged agents A n ->
  after agents (program A) m k l = after agents (program B) m k l.
Proof.
  intros H HA. revert l. induction k as [|k IH]; [done|]. apply (after_step A B n n); try done.
  - by eapply well_staged_ext.
  - intros p Hp. unfold acts. by rewrite H.
Qed.

Definition seq (A B : Z -> list (list (list action))) (p : Z) : list (list (list action)) := A p ++ B p.

Context (A B : Z -> list (list (list action))) (n m : nat) (HA : well_staged agents A n) (HB : well_staged agents B m).

Lemma acts_seq_l p k : is_agent agents p -> (k < n)%nat -> acts (seq A B) p k = acts A p k.
Proof. intros Hp Hk. unfold acts, seq. rewrite lookup_app_l; [done|]. by rewrite (ws_stages _ _ _ HA p Hp). Qed.

Lemma acts_seq_r p k : is_agent agents p -> acts (seq A B) p (n + k) = acts B p k.
Proof.
  intros Hp. unfold acts, seq. rewrite lookup_app_r by (rewrite (ws_stages _ _ _ HA p Hp); lia).
  rewrite (ws_stages _ _ _ HA p Hp). by replace (n + k - n)%nat with k by lia.
Qed.

Lemma acts_seq_cases k : (forall p, is_agent agents p -> acts (seq A B) p k = acts A p k) \/
  exists j, forall p, is_agent agents p -> acts (seq A B) p k = acts B p j.
Proof.
  destruct (decide (k < n)%nat) as [Hlt|Hge].
  - left. intros p Hp. by apply acts_seq_l.
  - right. exists (k - n)%nat. intros p Hp. rewrite <- acts_seq_r by done. f_equal. lia.
Qed.

Lemma seq_staged : well_staged agents (seq A B) (n + m).
Proof.
  split.
  - intros p Hp. unfold seq. by rewrite length_app, (ws_stages _ _ _ HA p Hp), (ws_stages _ _ _ HB p Hp).
  - intros p k a Hp. destruct (acts_seq_cases k) as [H|[j H]]; rewrite H by done; [by apply HA|by apply HB].
  - intros p q k a b Hp Hq Hne. destruct (acts_seq_cases k) as [H|[j H]]; rewrite !H by done; [by apply HA|by apply HB].
  - intros p k Hp. unfold seq. destruct (decide (k < n)%nat).
    + rewrite lookup_app_l by (by rewrite (ws_stages _ _ _ HA p Hp)). by apply HA.
    + rewrite lookup_app_r by (rewrite (ws_stages _ _ _ HA p Hp); lia). by apply HB.
Qed.

Lemma after_seq_l m0 k l : (k <= n)%nat -> after agents (program (seq A B)) m0 k l = after agents (program A) m0 k l.
Proof.
  revert l. induction k as [|k IH]; intros l Hk; [done|]. eapply after_step; [apply seq_staged|apply HA| |].
  - intros p Hp. apply acts_seq_l; [done|lia].
  - intros l'. apply IH. lia.
Qed.

(** The second program starts in the memory that the first leaves. *)
Lemma after_seq m0 l :
  after agents (program (seq A B)) m0 (n + m) l = after agents (program B) (after agents (program A) m0 n) m l.
Proof.
  assert (H : forall k l, after agents (program (seq A B)) m0 (n + k) l = after agents (program B) (after agents (program A) m0 n) k l).
  { intros k. induction k as [|k IH]; intros l'; [rewrite Nat.add_0_r; by apply after_seq_l|].
    replace (n + S k)%nat with (S (n + k)) by lia. eapply after_step; [apply seq_staged|apply HB| |done].
    intros p Hp. by apply acts_seq_r. }
  apply H.
Qed.

End sequence.

(** ** Concrete runs *)

Section drive.
Context {L T : Type} (agents : Z) (program : Z -> list (list (op (loc := L) (T := T)))) (junk : L -> T).

(** A participant executes an operation, or the [j]-th transfer of its own moves on;
    what cannot move is skipped. *)
Definition staged_drive (schedule : list (Z * option nat)) (s : state) : state :=
  foldl (fun s '(p, t) => default s (match t with None => exec agents program p s | Some j => transfer junk p j s end)) s schedule.

Lemma staged_drive_rtc schedule s : Forall (fun pt => is_agent agents (fst pt)) schedule ->
  rtc (step agents program) s (staged_drive schedule s).
Proof.
  intros Hs. revert s. induction Hs as [|[p t] l Hp Hl IH]; intros s; [done|]. unfold staged_drive. cbn [foldl].
  destruct t as [j|]; [destruct (transfer junk p j s) as [s'|] eqn:E|destruct (exec agents program p s) as [s'|] eqn:E];
    try apply IH; (eapply rtc_l; [|apply IH]); [by eapply step_transfer|by eapply step_exec].
Qed.

(** Every participant in turn runs an operation and both halves of a transfer. *)
Fixpoint round_robin (n : nat) : list (Z * option nat) :=
  match n with
  | O => []
  | S n => (seqZ 0 agents ≫= fun p => [(p, None); (p, Some 0%nat); (p, Some 0%nat)]) ++ round_robin n
  end.

Lemma round_robin_ok n : Forall (fun pt => is_agent agents (fst pt)) (round_robin n).
Proof.
  induction n as [|n IH]; [constructor|]. cbn. apply Forall_app. split; [|done]. apply Forall_forall. intros [p t] H.
  apply list_elem_of_bind in H as (q & H & Hq). apply elem_of_seqZ in Hq. unfold is_agent. cbn.
  rewrite !elem_of_cons, elem_of_nil in H. destruct H as [[= -> _]|[[= -> _]|[[= -> _]|[]]]]; lia.
Qed.

End drive.
