(* ===== verification/Broadcast.v ===== *)
(** * Broadcasts and the collectives built from them

    The broadcasts of the IPC context ([internal_broadcastmem_wg/wave],
    src/ipc/context_ipc_device_coll.cpp and context_ipc_tmpl_device.hpp), those of the
    GPU-direct-access context (src/gda/context_gda_device_coll.cpp), its
    hierarchical ones ([internal_broadcastmem_wg_das], [internal_proxy_broadcast],
    src/gda/context_gda_device_coll_das.cpp) and the collect operation made of them
    ([fcollect_linear_das], src/gda/context_gda_tmpl_device_das.hpp), as programs in
    stages ([Staged]).  Buffers are counted in bytes; PEs are named by their rank in
    the team.

    In the collect and the all-to-all, element indices and transfer lengths are kept
    at the width of [int] and [int32_t] ([s32]), and the theorems assume that they
    fit.  The size of a broadcast is the [int] argument of the function and its
    pieces are smaller; offsets in bytes, PE numbers and loop counters are unbounded
    integers.  A stage ends with the synchronisation of the work-group and the team,
    which begins with a barrier of the work-group, so that the wavefronts of a
    work-group need not be told apart. *)

From Stdlib Require Import ZArith Lia.
From stdpp Require Import base option numbers list relations.
From S2P Require Import Prelude Staged Transfers.

Open Scope Z_scope.

Definition ceil_div (a b : Z) : Z := (a + b - 1) / b.

(** What a PE knows of the world and of the PEs it shares memory with; PEs are numbered
    in the world. *)
Record env := mkEnv {
  num_pes : Z;
  ipc_available : Z -> Z -> bool;
  ipc_shm_size : Z -> Z;
  ipc_stride : Z -> Z;
  ipc_first_pe : Z -> Z;
  num_qps_per_pe : Z;
  active_wgs : Z;   (* work-groups in the first dimension of the grid *)
  wg_count : Z      (* work-groups in the grid *)
}.

Record team := mkTeam { pe_start : Z; stride : Z; pe_size : Z }.

Definition pe_of (t : team) (r : Z) : Z := pe_start t + r * stride t.

(** A broadcast of [nbytes] bytes from the buffer of rank [root]. *)
Record bcast := mkBcast { nbytes : Z; src_off : Z; dst_off : Z; root : Z }.

Section broadcast.
Context {T : Type}.
Notation action := (action (loc := loc) (T := T)).
Notation op := (op (loc := loc) (T := T)).

Context (e : env) (t : team).

(** From the source of the root to the destination of [r]. *)
Definition from_root (b : bcast) (r : Z) : action :=
  copy (root b) Source (src_off b) r Dest (dst_off b) (nbytes b).

(** [length] bytes at [begin] from the destination of [q] to that of [r]. *)
Definition from_dest (b : bcast) (begin length q r : Z) : action :=
  copy q Dest (dst_off b + begin) r Dest (dst_off b + begin) length.

(** ** IPC context *)

Definition ipc_put_broadcast (b : bcast) (r : Z) : list (list action) :=
  if r =? root b then blocking (from_root b <$> seqZ 0 (pe_size t)) else [].

Definition ipc_get_broadcast (b : bcast) (r : Z) : list (list action) := blocking [from_root b r].

Definition ipc_broadcastmem (b : bcast) (r : Z) : list (list (list action)) :=
  [if num_pes e <? 4 then ipc_put_broadcast b r else ipc_get_broadcast b r].

(** ** GPU-direct-access context *)

(** A put that is not waited for is complete at once only to a PE with shared memory. *)
Definition putmem_nbi (me peer : Z) (a : action) : list op :=
  if ipc_available e (pe_of t me) (pe_of t peer) then batch [a] else [Post peer a].

Definition gda_put_broadcast (b : bcast) (r : Z) : list op :=
  if r =? root b then
    (seqZ 0 (pe_size t) ≫= fun i => if i =? r then [] else putmem_nbi r i (from_root b i)) ++ batch [from_root b r]
  else [].

Definition gda_get_broadcast (b : bcast) (r : Z) : list (list action) := blocking [from_root b r].

Definition gda_broadcastmem (b : bcast) (r : Z) : list (list op) :=
  [if num_pes e <? 4 then gda_put_broadcast b r else batches (gda_get_broadcast b r)].

(** *** Striped over the queue pairs *)

Definition MIN_BYTES_PER_RAIL : Z := 64 * 1024.

Definition rails (n : Z) : Z :=
  let desired := ceil_div n MIN_BYTES_PER_RAIL in
  let desired := if desired =? 0 then 1 else desired in
  let desired := Z.min desired (num_qps_per_pe e) in
  let rails := ceil_div desired (active_wgs e) in
  let rails := if rails =? 0 then 1 else rails in
  Z.min rails (num_qps_per_pe e).

(** The pieces of [n] bytes in steps of [chunk], up to the first that would be empty. *)
Fixpoint pieces (n chunk : Z) (slots : list Z) : list (Z * Z) :=
  match slots with
  | [] => []
  | slot :: slots =>
      let begin := slot * chunk in
      if n <=? begin then [] else (begin, Z.min chunk (n - begin)) :: pieces n chunk slots
  end.

Definition gda_get_broadcast_das (b : bcast) (r : Z) : list (list action) :=
  if r =? root b then blocking [from_root b r]
  else if ipc_available e (pe_of t r) (pe_of t (root b)) then blocking [from_root b r]
  else
    [(fun '(begin, length) => copy (root b) Source (src_off b + begin) r Dest (dst_off b + begin) length) <$>
       pieces (nbytes b) (ceil_div (nbytes b) (rails (nbytes b))) (seqZ 0 (rails (nbytes b)))].

(** *** One leader per node *)

Definition node_leader (r : Z) : Z :=
  default r (List.find (fun q => (q =? r) || ipc_available e (pe_of t r) (pe_of t q)) (seqZ 0 (pe_size t))).

Definition leader_broadcast (b : bcast) (r : Z) : list (list (list action)) :=
  [if r =? root b then blocking [from_root b r]
   else if r =? node_leader r then gda_get_broadcast_das b r else [];
   if negb (r =? node_leader r) && negb (r =? root b) then blocking [from_dest b 0 (nbytes b) (node_leader r) r] else []].

(** *** Several proxies per node *)

Definition MIN_BYTES_PER_PROXY : Z := 64 * 1024.

Definition kHierarchicalMinBytes : Z := 256 * 1024.

Definition use_proxy_bcast (b : bcast) (r : Z) : bool :=
  let local_shm_size := ipc_shm_size e (pe_of t r) in
  (kHierarchicalMinBytes <=? nbytes b) && (stride t =? 1) && (1 <? local_shm_size) && (ipc_stride e (pe_of t r) =? 1) &&
  (pe_start t mod local_shm_size =? 0) && (pe_size t mod local_shm_size =? 0) && (local_shm_size <? pe_size t).

Definition proxies (b : bcast) (r : Z) : Z :=
  Z.min (ipc_shm_size e (pe_of t r)) (ceil_div (nbytes b) MIN_BYTES_PER_PROXY).

Definition proxy_chunk (b : bcast) (r : Z) : Z := ceil_div (nbytes b) (proxies b r).

Definition local_slot (r : Z) : Z := pe_of t r - ipc_first_pe e (pe_of t r).

(** The first PE of the root's node, in the world. *)
Definition root_node_first (b : bcast) (r : Z) : Z :=
  let local_shm_size := ipc_shm_size e (pe_of t r) in pe_start t + root b / local_shm_size * local_shm_size.

Definition on_root_node (b : bcast) (r : Z) : bool := ipc_first_pe e (pe_of t r) =? root_node_first b r.

Definition rank_of (pe : Z) : Z := pe - pe_start t.

(** The piece of the slot of [r], if there is one. *)
Definition own_piece (b : bcast) (r : Z) (f : Z -> Z -> action) : list (list action) :=
  blocking ((fun '(begin, length) => f begin length) <$> pieces (nbytes b) (proxy_chunk b r) [local_slot r]).

(** The pieces of the other slots. *)
Fixpoint assemble (b : bcast) (r : Z) (slots : list Z) : list action :=
  match slots with
  | [] => []
  | slot :: slots =>
      if slot =? local_slot r then assemble b r slots
      else
        let begin := slot * proxy_chunk b r in
        if nbytes b <=? begin then []
        else from_dest b begin (Z.min (proxy_chunk b r) (nbytes b - begin)) (rank_of (ipc_first_pe e (pe_of t r) + slot)) r
             :: assemble b r slots
  end.

Definition proxy_broadcast (b : bcast) (r : Z) : list (list (list action)) :=
  [if r =? root b then blocking [from_root b r]
   else if on_root_node b r && (local_slot r <? proxies b r) then
     own_piece b r (fun begin length => copy (root b) Source (src_off b + begin) r Dest (dst_off b + begin) length)
   else [];
   if negb (on_root_node b r) && (local_slot r <? proxies b r) then
     own_piece b r (fun begin length => from_dest b begin length (rank_of (root_node_first b r + local_slot r)) r)
   else [];
   blocking (assemble b r (seqZ 0 (proxies b r)))].

(** With four PEs or more. *)
Definition hierarchical_broadcast (b : bcast) (r : Z) : list (list (list action)) :=
  if use_proxy_bcast b r then proxy_broadcast b r else leader_broadcast b r.

Definition broadcastmem_wg_das (b : bcast) : Z -> list (list op) :=
  if num_pes e <? 4 then fun r => [gda_put_broadcast b r] else program (hierarchical_broadcast b).

End broadcast.

(** ** Pieces *)

Lemma ceil_div_cover n k : 0 <= n -> 0 < k -> n <= k * ceil_div n k.
Proof. intros Hn Hk. unfold ceil_div. pose proof (Z.div_mod (n + k - 1) k). pose proof (Z.mod_pos_bound (n + k - 1) k). lia. Qed.

Lemma ceil_div_pos n k : 0 < n -> 0 < k -> 0 < ceil_div n k.
Proof. intros Hn Hk. unfold ceil_div. apply Z.div_str_pos. lia. Qed.

Lemma pieces_lookup n chunk a k i begin len : 0 < chunk ->
  pieces n chunk (seqZ a k) !! i = Some (begin, len) <->
  Z.of_nat i < k /\ begin = (a + Z.of_nat i) * chunk /\ begin < n /\ len = Z.min chunk (n - begin).
Proof.
  intros Hc. destruct (decide (0 <= k)) as [Hk|Hk].
  2:{ rewrite seqZ_nil by lia. split; [done|lia]. }
  revert a i. pattern k. apply natlike_ind; [| |done]; clear k Hk.
  - intros a i. rewrite seqZ_nil by lia. split; [done|lia].
  - intros k Hk IH a i. rewrite seqZ_cons by lia. cbn [pieces]. destruct (n <=? a * chunk) eqn:E.
    + split; [done|]. intros (_ & -> & Hlt & _). nia.
    + destruct i as [|i].
      * cbn. split; [intros [= <- <-]; repeat split; lia|]. intros (_ & -> & _ & ->). do 2 f_equal; lia.
      * cbn. rewrite Z.pred_succ, IH. replace (Z.succ a + Z.of_nat i) with (a + Z.of_nat (S i)) by lia. split; intros; repeat split; lia.
Qed.

(** Every byte is in a piece. *)
Lemma pieces_cover n chunk k x : 0 < chunk -> n <= k * chunk -> 0 <= x < n ->
  exists i begin len, pieces n chunk (seqZ 0 k) !! i = Some (begin, len) /\ begin <= x < begin + len.
Proof.
  intros Hc Hn Hx. exists (Z.to_nat (x / chunk)), (x / chunk * chunk), (Z.min chunk (n - x / chunk * chunk)).
  pose proof (Z.div_mod x chunk). pose proof (Z.mod_pos_bound x chunk Hc). pose proof (Z.div_pos x chunk).
  split; [|nia]. apply pieces_lookup; [done|]. rewrite Z2Nat.id by lia. repeat split; nia.
Qed.

(** What the stages have in common: every operation of PE [r] stores into a range of the
    destination of [r] that lies in the range of the broadcast. *)
Definition inward {T} (b : bcast) (r : Z) (a : action (loc := loc) (T := T)) : Prop :=
  exists from fb foff begin len, a = copy from fb foff r Dest (dst_off b + begin) len /\ 0 <= begin /\ begin + len <= nbytes b.

Lemma inward_local {T} b r (a : action (T := T)) : inward b r a -> local a.
Proof. intros (? & ? & ? & ? & ? & -> & _). apply copy_local. Qed.

Lemma inward_frame {T} b r (a : action (T := T)) p c x :
  inward b r a -> (c <> Dest \/ x < dst_off b \/ dst_off b + nbytes b <= x) -> writes a (p, c, x) = false.
Proof.
  intros (? & ? & ? & ? & ? & -> & ? & ?) Hout. cbn [writes copy]. apply in_range_false. intros (-> & -> & ?).
  destruct Hout as [?|?]; [done|lia].
Qed.

(** Operations of different PEs that read source buffers only. *)
Lemma source_apart {T} from foff r toff len from' foff' r' toff' len' : r <> r' ->
  no_clash (copy (T := T) from Source foff r Dest toff len) (copy from' Source foff' r' Dest toff' len').
Proof. intros Hne. apply copy_apart; [by left|by right; left|by right; left]. Qed.

(** ** Fetching from the root *)

Section fetch.
Context {T : Type} (e : env) (t : team) (b : bcast).
Hypothesis qps_pos : 0 < num_qps_per_pe e.
Hypothesis wgs_pos : 0 < active_wgs e.
Hypothesis size_nonneg : 0 <= nbytes b.

Definition piece_from_root (r begin len : Z) : action (T := T) :=
  copy (root b) Source (src_off b + begin) r Dest (dst_off b + begin) len.

Lemma from_root_piece r : from_root b r = piece_from_root r 0 (nbytes b).
Proof. unfold from_root, piece_from_root. by rewrite !Z.add_0_r. Qed.

(** The operations fetch every byte of the message, each once. *)
Record fetches (r : Z) (l : list (action (T := T))) : Prop := {
  fetch_piece : forall a, a ∈ l -> exists begin len, a = piece_from_root r begin len /\ 0 <= begin /\ begin + len <= nbytes b;
  fetch_once : forall i j a a', i <> j -> l !! i = Some a -> l !! j = Some a' -> no_clash a a';
  fetch_all : forall x, 0 <= x < nbytes b ->
    exists i begin len, l !! i = Some (piece_from_root r begin len) /\ begin <= x < begin + len
}.

Lemma pieces_apart r begin len begin' len' : begin + len <= begin' \/ begin' + len' <= begin ->
  no_clash (piece_from_root r begin len) (piece_from_root r begin' len').
Proof. intros H. apply copy_apart; [do 2 right; lia|by right; left|by right; left]. Qed.

Lemma whole_fetches r : fetches r [from_root b r].
Proof.
  rewrite from_root_piece. split.
  - intros a ->%list_elem_of_singleton. exists 0, (nbytes b). repeat split; lia.
  - intros [|i] [|j] a a' Hne Hi Hj; try done; by rewrite ?lookup_nil in *.
  - intros x Hx. exists 0%nat, 0, (nbytes b). split; [done|lia].
Qed.

Lemma rails_pos n : 0 <= n -> 0 < rails e n.
Proof.
  intros Hn. unfold rails. set (d := if ceil_div n MIN_BYTES_PER_RAIL =? 0 then 1 else ceil_div n MIN_BYTES_PER_RAIL).
  assert (0 < d).
  { assert (0 <= ceil_div n MIN_BYTES_PER_RAIL) by (apply Z.div_pos; unfold MIN_BYTES_PER_RAIL; lia). unfold d. case_if; lia. }
  pose proof (ceil_div_pos (Z.min d (num_qps_per_pe e)) (active_wgs e) ltac:(lia) wgs_pos). case_if; lia.
Qed.

Lemma striped_fetches r k : 0 < k -> 0 < nbytes b ->
  fetches r ((fun '(begin, length) => piece_from_root r begin length) <$> pieces (nbytes b) (ceil_div (nbytes b) k) (seqZ 0 k)).
Proof.
  intros Hk Hn. pose proof (ceil_div_pos (nbytes b) k Hn Hk) as Hc. pose proof (ceil_div_cover (nbytes b) k size_nonneg Hk) as Hcov.
  set (ps := pieces _ _ _).
  assert (Hps : forall i a, ((fun '(begin, length) => piece_from_root r begin length) <$> ps) !! i = Some a ->
    exists begin len, a = piece_from_root r begin len /\ begin = Z.of_nat i * ceil_div (nbytes b) k /\ begin < nbytes b /\
      len = Z.min (ceil_div (nbytes b) k) (nbytes b - begin)).
  { intros i a. rewrite list_lookup_fmap. destruct (ps !! i) as [[begin len]|] eqn:E; [|done]. intros [= <-].
    apply pieces_lookup in E as (_ & E1 & E2 & E3); [|done]. exists begin, len. repeat split; lia. }
  split.
  - intros a Ha. apply list_elem_of_lookup in Ha as [i Ha]. destruct (Hps i a Ha) as (begin & len & -> & ? & ? & ?).
    exists begin, len. repeat split; nia.
  - intros i j a a' Hne Hi Hj. destruct (Hps i a Hi) as (begin & len & -> & ? & ? & ?).
    destruct (Hps j a' Hj) as (begin' & len' & -> & ? & ? & ?). apply pieces_apart. nia.
  - intros x Hx. destruct (pieces_cover (nbytes b) (ceil_div (nbytes b) k) k x Hc Hcov Hx) as (i & begin & len & Hi & Hin).
    exists i, begin, len. split; [|done]. rewrite list_lookup_fmap. unfold ps. by rewrite Hi.
Qed.

Lemma gda_get_fetches r : fetches r (concat (gda_get_broadcast_das e t b r)).
Proof.
  unfold gda_get_broadcast_das. case_if; [rewrite concat_blocking; apply whole_fetches|].
  case_if; [rewrite concat_blocking; apply whole_fetches|]. cbn [concat]. rewrite app_nil_r.
  destruct (decide (nbytes b = 0)) as [Hz|Hz].
  - assert (pieces (nbytes b) (ceil_div (nbytes b) (rails e (nbytes b))) (seqZ 0 (rails e (nbytes b))) = []) as ->.
    { rewrite seqZ_cons by (apply rails_pos; lia). cbn [pieces]. case_if; [done|]. lia. }
    split; [by intros a ?%elem_of_nil|by intros i j a a' _ Hi; cbn in Hi; rewrite lookup_nil in Hi|lia].
  - apply striped_fetches; [by apply rails_pos|lia].
Qed.

Lemma gda_get_batches r : batches_apart (T := T) (gda_get_broadcast_das e t b r).
Proof.
  pose proof (gda_get_fetches r) as H. unfold gda_get_broadcast_das in *.
  case_if; [apply blocking_apart|]. case_if; [apply blocking_apart|]. cbn [concat] in H. rewrite app_nil_r in H. constructor; [|constructor].
  intros i j a a' Hij. apply (fetch_once r _ H). lia.
Qed.

(** A stage of such operations brings the message of the root. *)
Lemma after_fetch agents A stages m r k x :
  well_staged agents A stages -> is_agent agents r -> fetches r (acts A r k) -> 0 <= x < nbytes b ->
  after agents (program A) m (S k) (r, Dest, dst_off b + x) = after agents (program A) m k (root b, Source, src_off b + x).
Proof.
  intros HA Hr Hf Hx. destruct (fetch_all r _ Hf x Hx) as (i & begin & len & Hi & Hin).
  rewrite (after_alone agents A stages m HA k r i _ _ Hr Hi).
  - cbn. do 2 f_equal. lia.
  - cbn [writes piece_from_root copy]. apply in_range_true. repeat split; lia.
  - intros j a Hj Hne. by apply (fetch_once r _ Hf j i).
Qed.

End fetch.

(** ** One leader per node *)

Section leader.
Context {T : Type} (e : env) (t : team) (b : bcast).
Hypothesis qps_pos : 0 < num_qps_per_pe e.
Hypothesis wgs_pos : 0 < active_wgs e.
Hypothesis size_nonneg : 0 <= nbytes b.
Hypothesis root_ok : 0 <= root b < pe_size t.
Hypothesis ipc_trans : forall p q r, is_agent (pe_size t) p -> is_agent (pe_size t) q -> is_agent (pe_size t) r ->
  ipc_available e (pe_of t p) (pe_of t q) = true -> ipc_available e (pe_of t q) (pe_of t r) = true ->
  ipc_available e (pe_of t p) (pe_of t r) = true.

Lemma find_seqZ f n l : List.find f (seqZ 0 n) = Some l -> 0 <= l < n /\ f l = true /\ forall q, 0 <= q < l -> f q = false.
Proof.
  assert (H : forall k a, 0 <= k -> List.find f (seqZ a k) = Some l -> a <= l < a + k /\ f l = true /\ forall q, a <= q < l -> f q = false).
  { intros k a Hk. revert a. pattern k. apply natlike_ind; [| |done]; clear k Hk.
    - intros a. by rewrite seqZ_nil.
    - intros k Hk IH a. rewrite seqZ_cons by lia. cbn [List.find]. destruct (f a) eqn:E.
      + intros [= <-]. repeat split; try done; lia.
      + rewrite Z.pred_succ. intros (H1 & H2 & H3)%IH. repeat split; try done; try lia. intros q Hq.
        destruct (decide (q = a)) as [->|]; [done|apply H3; lia]. }
  intros Hf. destruct (decide (0 <= n)) as [Hn|Hn]; [by apply (H n 0)|]. by rewrite seqZ_nil in Hf by lia.
Qed.

Lemma node_leader_spec r : is_agent (pe_size t) r ->
  is_agent (pe_size t) (node_leader e t r) /\
  (node_leader e t r = r \/ ipc_available e (pe_of t r) (pe_of t (node_leader e t r)) = true) /\
  forall q, is_agent (pe_size t) q -> q = r \/ ipc_available e (pe_of t r) (pe_of t q) = true -> node_leader e t r <= q.
Proof.
  intros Hr. unfold node_leader. destruct (List.find _ _) as [l|] eqn:E; cbn.
  - apply find_seqZ in E as (Hl & Hf & Hmin). split; [done|]. split; [apply orb_true_iff in Hf as [?|?]; [left; lia|by right]|].
    intros q Hq Hc. destruct (Z.lt_ge_cases q l) as [Hlt|]; [|done]. unfold is_agent in Hq. specialize (Hmin q ltac:(lia)).
    apply orb_false_iff in Hmin as [H1 H2]. destruct Hc; [lia|congruence].
  - pose proof (find_none _ _ E r) as H. cbn in H. rewrite Z.eqb_refl in H. exfalso. discriminate H.
    rewrite <- list_elem_of_In. apply elem_of_seqZ. unfold is_agent in Hr. lia.
Qed.

(** The leader of a node is its own leader. *)
Lemma node_leader_idem r : is_agent (pe_size t) r -> node_leader e t (node_leader e t r) = node_leader e t r.
Proof.
  intros Hr. destruct (node_leader_spec r Hr) as (Hl & Hc & Hmin). set (l := node_leader e t r) in *.
  destruct (node_leader_spec l Hl) as (Hl' & Hc' & Hmin'). set (l' := node_leader e t l) in *.
  pose proof (Hmin' l Hl (or_introl eq_refl)). destruct Hc' as [->|Hc']; [done|].
  assert (l <= l'); [|lia]. apply Hmin; [done|]. right. destruct Hc as [E|Hc]; [by rewrite E in Hc'|]. by apply (ipc_trans r l l').
Qed.

Notation A := (leader_broadcast (T := T) e t b).

Lemma leader_acts_0 r : acts A r 0 = concat (if r =? root b then blocking [from_root b r]
   else if r =? node_leader e t r then gda_get_broadcast_das e t b r else []).
Proof. done. Qed.

Lemma leader_acts_1 r : acts A r 1 = if negb (r =? node_leader e t r) && negb (r =? root b)
  then [from_dest b 0 (nbytes b) (node_leader e t r) r] else [].
Proof. unfold acts. cbn. by case_if. Qed.

Lemma leader_acts_end r k : acts A r (S (S k)) = [].
Proof. done. Qed.

Lemma leader_stage_0 r : acts A r 0 = [] /\ r <> root b /\ r <> node_leader e t r \/ fetches b r (acts A r 0).
Proof.
  rewrite leader_acts_0. case_if; [right; rewrite concat_blocking; by apply whole_fetches|].
  case_if; [right; by apply gda_get_fetches|left]. split; [done|lia].
Qed.

Lemma leader_inward r k a : a ∈ acts A r k -> inward b r a.
Proof.
  destruct k as [|[|k]].
  - destruct (leader_stage_0 r) as [[-> _]|Hf]; [by intros ?%elem_of_nil|]. intros Ha.
    destruct (fetch_piece b r _ Hf a Ha) as (begin & len & -> & ? & ?). by exists (root b), Source, (src_off b + begin), begin, len.
  - rewrite leader_acts_1. case_if; [|by intros ?%elem_of_nil]. intros ->%list_elem_of_singleton.
    exists (node_leader e t r), Dest, (dst_off b + 0), 0, (nbytes b). split; [done|lia].
  - by intros ?%elem_of_nil.
Qed.

Lemma leader_staged : well_staged (pe_size t) A 2.
Proof.
  split.
  - done.
  - intros p k a _ Ha. by eapply inward_local, leader_inward.
  - intros p q k a a' Hp Hq Hne Ha Ha'. destruct k as [|[|k]].
    + destruct (leader_stage_0 p) as [[Hn _]|Hf]; [rewrite Hn in Ha; by apply elem_of_nil in Ha|].
      destruct (leader_stage_0 q) as [[Hn' _]|Hf']; [rewrite Hn' in Ha'; by apply elem_of_nil in Ha'|].
      destruct (fetch_piece b p _ Hf a Ha) as (begin & len & -> & _). destruct (fetch_piece b q _ Hf' a' Ha') as (begin' & len' & -> & _).
      by apply source_apart.
    + rewrite leader_acts_1 in Ha, Ha'. destruct (negb (p =? _) && _) eqn:Ep; [|by apply elem_of_nil in Ha].
      destruct (negb (q =? _) && _) eqn:Eq; [|by apply elem_of_nil in Ha']. apply list_elem_of_singleton in Ha as ->, Ha' as ->.
      pose proof (node_leader_idem p Hp). pose proof (node_leader_idem q Hq).
      apply copy_apart; [by left| |]; left; intros E; rewrite <- E in *; lia.
    + by apply elem_of_nil in Ha.
  - intros p k Hp. destruct k as [|[|k]]; cbn -[blocking].
    + case_if; [apply blocking_apart|]. case_if; [by apply gda_get_batches|constructor].
    + case_if; [apply blocking_apart|constructor].
    + constructor.
Qed.

Lemma leader_result m r x : is_agent (pe_size t) r -> 0 <= x < nbytes b ->
  after (pe_size t) (program A) m 2 (r, Dest, dst_off b + x) = m (root b, Source, src_off b + x).
Proof.
  intros Hr Hx. assert (H1 : forall q, is_agent (pe_size t) q -> q = root b \/ q = node_leader e t q ->
    after (pe_size t) (program A) m 1 (q, Dest, dst_off b + x) = m (root b, Source, src_off b + x)).
  { intros q Hq Hc. destruct (leader_stage_0 q) as [(_ & ? & ?)|Hf]; [naive_solver|].
    by apply (after_fetch b (pe_size t) A 2 m q 0 x leader_staged). }
  destruct (negb (r =? node_leader e t r) && negb (r =? root b)) eqn:Er.
  - rewrite (after_alone (pe_size t) A 2 m leader_staged 1 r 0 (from_dest b 0 (nbytes b) (node_leader e t r) r)).
    + cbn. replace (dst_off b + 0 + (dst_off b + x - (dst_off b + 0))) with (dst_off b + x) by lia. apply H1.
      * by apply node_leader_spec.
      * right. by rewrite node_leader_idem.
    + done.
    + by rewrite leader_acts_1, Er.
    + cbn [writes from_dest copy]. apply in_range_true. repeat split; lia.
    + rewrite leader_acts_1, Er. by intros [|j] c Hj Hne.
  - rewrite after_kept; [apply H1; [done|lia]|]. intros q a Hq Ha. rewrite leader_acts_1 in Ha.
    destruct (negb (q =? _) && _) eqn:Eq; [|by apply elem_of_nil in Ha]. apply list_elem_of_singleton in Ha as ->.
    cbn [writes from_dest copy]. apply in_range_false. intros (-> & _ & _). congruence.
Qed.

End leader.

(** ** Several proxies per node *)

Section proxy.
Context {T : Type} (e : env) (t : team) (b : bcast) (L : Z).
Hypothesis root_ok : 0 <= root b < pe_size t.
Hypothesis size_pos : 0 < nbytes b.
Hypothesis L_pos : 0 < L.
Hypothesis stride_one : stride t = 1.
Hypothesis start_aligned : pe_start t mod L = 0.
Hypothesis whole_nodes : pe_size t mod L = 0.
Hypothesis node_size : forall r, is_agent (pe_size t) r -> ipc_shm_size e (pe_of t r) = L.
Hypothesis node_first : forall r, is_agent (pe_size t) r -> ipc_first_pe e (pe_of t r) = pe_of t r / L * L.

Definition P : Z := Z.min L (ceil_div (nbytes b) MIN_BYTES_PER_PROXY).
Definition C : Z := ceil_div (nbytes b) P.
Definition slot_len (s : Z) : Z := Z.min C (nbytes b - s * C).

Lemma P_pos : 0 < P.
Proof. unfold P. pose proof (ceil_div_pos (nbytes b) MIN_BYTES_PER_PROXY size_pos ltac:(unfold MIN_BYTES_PER_PROXY; lia)). lia. Qed.

Lemma C_pos : 0 < C.
Proof. apply ceil_div_pos; [done|apply P_pos]. Qed.

Lemma proxies_eq r : is_agent (pe_size t) r -> proxies e t b r = P.
Proof. intros Hr. unfold proxies. by rewrite node_size. Qed.

Lemma proxy_chunk_eq r : is_agent (pe_size t) r -> proxy_chunk e t b r = C.
Proof. intros Hr. unfold proxy_chunk. by rewrite proxies_eq. Qed.

Lemma node_first_eq r : is_agent (pe_size t) r -> ipc_first_pe e (pe_of t r) = pe_start t + r / L * L.
Proof.
  intros Hr. rewrite node_first by done. unfold pe_of. rewrite stride_one, Z.mul_1_r.
  pose proof (Z.div_mod (pe_start t) L ltac:(lia)). rewrite start_aligned in *.
  replace (pe_start t + r) with (r + pe_start t / L * L) by lia. rewrite Z.div_add by lia. lia.
Qed.

Lemma local_slot_eq r : is_agent (pe_size t) r -> local_slot e t r = r mod L.
Proof.
  intros Hr. unfold local_slot. rewrite node_first_eq by done. unfold pe_of. rewrite stride_one.
  pose proof (Z.div_mod r L). lia.
Qed.

Lemma on_root_node_eq r : is_agent (pe_size t) r -> on_root_node e t b r = (r / L =? root b / L).
Proof.
  intros Hr. unfold on_root_node, root_node_first. rewrite node_first_eq, node_size by done. apply eq_true_iff_eq.
  rewrite !Z.eqb_eq. nia.
Qed.

(** The PE of slot [s] on the node of [r]. *)
Definition slot_pe (r s : Z) : Z := r / L * L + s.

Lemma slot_pe_ok r s : is_agent (pe_size t) r -> 0 <= s < L ->
  is_agent (pe_size t) (slot_pe r s) /\ slot_pe r s / L = r / L /\ slot_pe r s mod L = s.
Proof.
  intros Hr Hs. unfold slot_pe, is_agent in *.
  assert (E1 : (r / L * L + s) / L = r / L) by (rewrite Z.div_add_l, (Z.div_small s) by lia; lia).
  assert (E2 : (r / L * L + s) mod L = s) by (rewrite Z.add_comm, Z.mod_add, Z.mod_small by lia; done).
  repeat split; try done.
  - pose proof (Z.div_pos r L). nia.
  - pose proof (Z.div_mod (pe_size t) L ltac:(lia)) as Hn. rewrite whole_nodes in Hn.
    assert (r / L < pe_size t / L) by (apply Z.div_lt_upper_bound; lia). nia.
Qed.

Lemma own_piece_acts r f : is_agent (pe_size t) r ->
  concat (own_piece (T := T) e t b r f) = if nbytes b <=? r mod L * C then [] else [f (r mod L * C) (slot_len (r mod L))].
Proof.
  intros Hr. unfold own_piece. rewrite concat_blocking, local_slot_eq, proxy_chunk_eq by done. cbn [pieces]. by case_if.
Qed.

(** The pieces of the other slots, with the slots that have none left out. *)
Definition others (r : Z) : list Z := filter (fun s => s <> r mod L /\ s * C < nbytes b) (seqZ 0 P).

Lemma assemble_eq r : is_agent (pe_size t) r ->
  assemble (T := T) e t b r (seqZ 0 P) = (fun s => from_dest b (s * C) (slot_len s) (slot_pe r s) r) <$> others r.
Proof.
  intros Hr. pose proof C_pos. pose proof P_pos. unfold others.
  assert (Hgen : forall k a, 0 <= k -> assemble e t b r (seqZ a k) =
    (fun s => from_dest (T := T) b (s * C) (slot_len s) (slot_pe r s) r) <$> filter (fun s => s <> r mod L /\ s * C < nbytes b) (seqZ a k)).
  { intros k a Hk. revert a. pattern k. apply natlike_ind; [| |done]; clear k Hk.
    - intros a. by rewrite seqZ_nil.
    - intros k Hk IH a. rewrite seqZ_cons, Z.pred_succ by lia. cbn [assemble].
      rewrite local_slot_eq, proxy_chunk_eq, node_first_eq by done. destruct (Z.eqb_spec a (r mod L)) as [->|Hne].
      + rewrite filter_cons_False by naive_solver. apply IH.
      + case_if.
        * rewrite filter_cons_False by lia.
          assert (filter (fun s => s <> r mod L /\ s * C < nbytes b) (seqZ (Z.succ a) k) = []) as ->; [|done].
          apply elem_of_nil_inv. intros s [[_ Hlt] Hs%elem_of_seqZ]%list_elem_of_filter. nia.
        * rewrite filter_cons_True by (split; [done|lia]). rewrite fmap_cons, IH. f_equal.
          unfold rank_of, slot_pe, slot_len. by replace (pe_start t + r / L * L + a - pe_start t) with (r / L * L + a) by lia. }
  apply Hgen. lia.
Qed.

Lemma others_spec r s : s ∈ others r <-> 0 <= s < P /\ s <> r mod L /\ s * C < nbytes b.
Proof. unfold others. rewrite list_elem_of_filter, elem_of_seqZ. naive_solver lia. Qed.

Notation A := (proxy_broadcast (T := T) e t b).

Lemma proxy_acts_0 r : is_agent (pe_size t) r -> acts A r 0 =
  if r =? root b then [from_root b r]
  else if (r / L =? root b / L) && (r mod L <? P) then
    if nbytes b <=? r mod L * C then [] else [piece_from_root b r (r mod L * C) (slot_len (r mod L))]
  else [].
Proof.
  intros Hr. unfold acts, proxy_broadcast. cbn -[own_piece]. rewrite on_root_node_eq, local_slot_eq, proxies_eq by done.
  case_if; [done|]. case_if; [|done]. by rewrite own_piece_acts.
Qed.

Lemma proxy_acts_1 r : is_agent (pe_size t) r -> acts A r 1 =
  if negb (r / L =? root b / L) && (r mod L <? P) then
    if nbytes b <=? r mod L * C then []
    else [from_dest b (r mod L * C) (slot_len (r mod L)) (slot_pe (root b) (r mod L)) r]
  else [].
Proof.
  intros Hr. unfold acts, proxy_broadcast. cbn -[own_piece]. rewrite on_root_node_eq, local_slot_eq, proxies_eq by done.
  case_if; [|done]. rewrite own_piece_acts by done. case_if; [done|]. do 2 f_equal.
  unfold rank_of, root_node_first, slot_pe. rewrite node_size by done. lia.
Qed.

Lemma proxy_acts_2 r : is_agent (pe_size t) r ->
  acts A r 2 = (fun s => from_dest b (s * C) (slot_len s) (slot_pe r s) r) <$> others r.
Proof.
  intros Hr. unfold acts, proxy_broadcast. cbn -[blocking]. by rewrite concat_blocking, proxies_eq, assemble_eq.
Qed.

(** Pieces of different slots. *)
Lemma slot_pieces_apart s s' : 0 <= s -> 0 <= s' -> s <> s' -> s * C + slot_len s <= s' * C \/ s' * C + slot_len s' <= s * C.
Proof. intros H H' Hne. pose proof C_pos. unfold slot_len. nia. Qed.

Lemma slot_range r : 0 <= r mod L < L.
Proof. by apply Z.mod_pos_bound. Qed.

(** Every byte belongs to the piece of a slot. *)
Lemma byte_slot x : 0 <= x < nbytes b -> 0 <= x / C < P /\ x / C * C <= x < x / C * C + slot_len (x / C).
Proof.
  intros Hx. pose proof C_pos. pose proof P_pos. pose proof (ceil_div_cover (nbytes b) P ltac:(lia) ltac:(done)) as Hcov.
  fold C in Hcov. pose proof (Z.div_mod x C ltac:(lia)). pose proof (Z.mod_pos_bound x C ltac:(done)).
  pose proof (Z.div_pos x C ltac:(lia) ltac:(lia)). unfold slot_len. split; [split; [done|]|nia].
  apply Z.div_lt_upper_bound; lia.
Qed.

Lemma proxy_inward r k a : is_agent (pe_size t) r -> a ∈ acts A r k -> inward b r a.
Proof.
  intros Hr. pose proof C_pos. pose proof (slot_range r).
  destruct k as [|[|[|k]]]; [rewrite proxy_acts_0 by done|rewrite proxy_acts_1 by done|rewrite proxy_acts_2 by done|].
  - case_if; [|case_if; [case_if|]]; try by intros ?%elem_of_nil.
    + intros ->%list_elem_of_singleton. exists (root b), Source, (src_off b), 0, (nbytes b). unfold from_root.
      rewrite Z.add_0_r. split; [done|lia].
    + intros ->%list_elem_of_singleton. eexists _, _, _, _, _. split; [done|]. unfold slot_len. nia.
  - case_if; [case_if|]; try by intros ?%elem_of_nil. intros ->%list_elem_of_singleton. eexists _, _, _, _, _.
    split; [done|]. unfold slot_len. nia.
  - intros (s & -> & Hs%others_spec)%list_elem_of_fmap. eexists _, _, _, _, _. split; [done|]. unfold slot_len. nia.
  - by intros ?%elem_of_nil.
Qed.

Lemma proxy_cross_2 p q s s' : is_agent (pe_size t) p -> is_agent (pe_size t) q -> p <> q -> s ∈ others p -> s' ∈ others q ->
  no_clash (T := T) (from_dest b (s * C) (slot_len s) (slot_pe p s) p) (from_dest b (s' * C) (slot_len s') (slot_pe q s') q).
Proof.
  intros Hp Hq Hne Hs%others_spec Hs'%others_spec. assert (HP : P <= L) by (unfold P; lia).
  destruct (slot_pe_ok p s Hp ltac:(lia)) as (_ & _ & Em). destruct (slot_pe_ok q s' Hq ltac:(lia)) as (_ & _ & Em').
  apply copy_apart; [by left| |].
  - destruct (decide (p = slot_pe q s')) as [E|]; [|by left]. do 2 right.
    destruct (slot_pieces_apart s s'); [lia|lia|rewrite E, Em' in Hs; naive_solver|lia|lia].
  - destruct (decide (slot_pe p s = q)) as [E|]; [|by left]. do 2 right.
    destruct (slot_pieces_apart s s'); [lia|lia|rewrite <- E, Em in Hs'; naive_solver|lia|lia].
Qed.

Lemma proxy_staged : well_staged (pe_size t) A 3.
Proof.
  split.
  - done.
  - intros p k a Hp Ha. by eapply inward_local, proxy_inward.
  - intros p q k a a' Hp Hq Hne. destruct k as [|[|[|k]]];
      [rewrite !proxy_acts_0 by done|rewrite !proxy_acts_1 by done|rewrite !proxy_acts_2 by done|].
    + intros Ha Ha'. assert (Hfrom : forall r c, c ∈ (if r =? root b then [from_root b r]
        else if (r / L =? root b / L) && (r mod L <? P) then
          if nbytes b <=? r mod L * C then [] else [piece_from_root b r (r mod L * C) (slot_len (r mod L))]
        else []) -> exists begin len, c = piece_from_root (T := T) b r begin len).
      { intros r c. rewrite from_root_piece. repeat case_if; try (by intros ?%elem_of_nil); intros ->%list_elem_of_singleton; eauto. }
      destruct (Hfrom p a Ha) as (begin & len & ->). destruct (Hfrom q a' Ha') as (begin' & len' & ->). by apply source_apart.
    + destruct (negb (p / L =? _) && _) eqn:Ep; [|by intros ?%elem_of_nil]. case_if; [by intros ?%elem_of_nil|].
      intros ->%list_elem_of_singleton. destruct (negb (q / L =? _) && _) eqn:Eq; [|by intros ?%elem_of_nil].
      case_if; [by intros ?%elem_of_nil|]. intros ->%list_elem_of_singleton.
      destruct (slot_pe_ok (root b) (p mod L) root_ok (slot_range p)) as (_ & Ed & _).
      destruct (slot_pe_ok (root b) (q mod L) root_ok (slot_range q)) as (_ & Ed' & _).
      apply copy_apart; [by left| |]; left; intros Heq; [rewrite <- Heq in Ed'|rewrite Heq in Ed]; lia.
    + intros (s & -> & Hs)%list_elem_of_fmap (s' & -> & Hs')%list_elem_of_fmap. by apply proxy_cross_2.
    + by intros ?%elem_of_nil.
  - intros p k Hp. destruct k as [|[|[|k]]]; cbn -[blocking].
    + case_if; [apply blocking_apart|]. case_if; [apply blocking_apart|constructor].
    + case_if; [apply blocking_apart|constructor].
    + apply blocking_apart.
    + constructor.
Qed.

Context (m : loc -> T).
Notation mem k := (after (pe_size t) (program A) m k).
Notation message x := (m (root b, Source, src_off b + x)).

(** After the first stage the root has the message, and the proxies of its node have
    their pieces. *)
Lemma proxy_after_1 q x : is_agent (pe_size t) q -> 0 <= x < nbytes b ->
  q = root b \/ q / L = root b / L /\ q mod L < P /\ q mod L * C <= x < q mod L * C + slot_len (q mod L) ->
  mem 1 (q, Dest, dst_off b + x) = message x.
Proof.
  intros Hq Hx Hc. pose proof (proxy_acts_0 q Hq) as Hacts. pose proof C_pos. pose proof (slot_range q).
  destruct (Z.eqb_spec q (root b)) as [->|Hne].
  - rewrite (after_alone (pe_size t) A 3 m proxy_staged 0 (root b) 0 (from_root b (root b))); [|done|by rewrite Hacts| |].
    + cbn. do 2 f_equal. lia.
    + cbn [writes from_root copy]. apply in_range_true. repeat split; lia.
    + rewrite Hacts. by intros [|j] c Hj Hn.
  - destruct Hc as [?|(Hd & Hs & Hin)]; [done|]. rewrite (proj2 (Z.eqb_eq _ _) Hd), (proj2 (Z.ltb_lt _ _) Hs) in Hacts. cbn [andb] in Hacts.
    rewrite (proj2 (Z.leb_gt _ _)) in Hacts by lia.
    rewrite (after_alone (pe_size t) A 3 m proxy_staged 0 q 0 (piece_from_root b q (q mod L * C) (slot_len (q mod L)))); [|done|by rewrite Hacts| |].
    + cbn. do 2 f_equal. lia.
    + cbn [writes piece_from_root copy]. apply in_range_true. repeat split; lia.
    + rewrite Hacts. by intros [|j] c Hj Hn.
Qed.

(** After the second stage every node has its proxies' pieces. *)
Lemma proxy_after_2 q x : is_agent (pe_size t) q -> 0 <= x < nbytes b ->
  q mod L < P -> q mod L * C <= x < q mod L * C + slot_len (q mod L) -> mem 2 (q, Dest, dst_off b + x) = message x.
Proof.
  intros Hq Hx Hs Hin. pose proof C_pos. pose proof (slot_range q).
  destruct (Z.eqb_spec (q / L) (root b / L)) as [Hd|Hd].
  - rewrite after_kept; [by apply proxy_after_1; auto|]. intros p a Hp. rewrite proxy_acts_1 by done.
    destruct (negb (p / L =? _) && _) eqn:Ep; [|by intros ?%elem_of_nil]. case_if; [by intros ?%elem_of_nil|].
    intros ->%list_elem_of_singleton. cbn [writes from_dest copy]. apply in_range_false. intros (-> & _ & _). lia.
  - pose proof (proxy_acts_1 q Hq) as Hacts. rewrite (proj2 (Z.eqb_neq _ _) Hd), (proj2 (Z.ltb_lt _ _) Hs) in Hacts. cbn [andb negb] in Hacts.
    rewrite (proj2 (Z.leb_gt _ _)) in Hacts by lia.
    rewrite (after_alone (pe_size t) A 3 m proxy_staged 1 q 0 _ _ Hq ltac:(by rewrite Hacts)).
    + cbn. destruct (slot_pe_ok (root b) (q mod L) root_ok (slot_range q)) as (Hp & Ed & Em).
      replace (dst_off b + q mod L * C + (dst_off b + x - (dst_off b + q mod L * C))) with (dst_off b + x) by lia.
      apply proxy_after_1; [done|done|]. right. by rewrite Ed, Em.
    + cbn [writes from_dest copy]. apply in_range_true. repeat split; lia.
    + rewrite Hacts. by intros [|j] c Hj Hn.
Qed.

Lemma proxy_result r x : is_agent (pe_size t) r -> 0 <= x < nbytes b -> mem 3 (r, Dest, dst_off b + x) = message x.
Proof.
  intros Hr Hx. destruct (byte_slot x Hx) as [Hs Hin]. set (s := x / C) in *. pose proof (slot_range r). pose proof C_pos.
  assert (HP : P <= L) by (unfold P; lia). destruct (decide (s = r mod L)) as [E|Hne].
  - rewrite after_kept; [apply proxy_after_2; try done; rewrite <- E; lia|]. intros p a Hp. rewrite proxy_acts_2 by done.
    intros (s' & -> & Hs'%others_spec)%list_elem_of_fmap. cbn [writes from_dest copy]. apply in_range_false. intros (-> & _ & Hr').
    destruct (slot_pieces_apart s s'); [lia|lia|naive_solver|lia|lia].
  - assert (Hso : s ∈ others r) by (apply others_spec; unfold slot_len in Hin; lia).
    apply list_elem_of_lookup in Hso as [i Hi].
    rewrite (after_alone (pe_size t) A 3 m proxy_staged 2 r i (from_dest b (s * C) (slot_len s) (slot_pe r s) r) _ Hr).
    + cbn. destruct (slot_pe_ok r s Hr ltac:(lia)) as (Hp & Ed & Em).
      replace (dst_off b + s * C + (dst_off b + x - (dst_off b + s * C))) with (dst_off b + x) by lia.
      apply proxy_after_2; rewrite ?Em; try done; lia.
    + by rewrite proxy_acts_2, list_lookup_fmap, Hi.
    + cbn [writes from_dest copy]. apply in_range_true. repeat split; lia.
    + intros j c Hj Hji. rewrite proxy_acts_2, list_lookup_fmap in Hj by done. destruct (others r !! j) as [s'|] eqn:Ej; [|done].
      injection Hj as <-. assert (s' <> s).
      { intros ->. apply Hji. eapply NoDup_lookup; [|exact Ej|exact Hi]. unfold others. apply NoDup_filter, NoDup_seqZ. }
      apply list_elem_of_lookup_2, others_spec in Ej. destruct (slot_pe_ok r s Hr ltac:(lia)) as (_ & _ & Em).
      destruct (slot_pe_ok r s' Hr ltac:(lia)) as (_ & _ & Em').
      apply copy_apart; [do 2 right; destruct (slot_pieces_apart s' s); lia|left; intros E; rewrite <- E in Em; lia|].
      left. intros E. rewrite E in Em'. lia.
Qed.

End proxy.

(** ** Broadcasts of a team of uniform nodes *)

(** The nodes of a team: all have [L] PEs; where their PEs are consecutive, a node
    starts at a multiple of [L]; shared memory is transitive. *)
Record nodes (e : env) (t : team) (L st : Z) : Prop := {
  n_qps : 0 < num_qps_per_pe e;
  n_wgs : 0 < active_wgs e;
  n_size : forall r, is_agent (pe_size t) r -> ipc_shm_size e (pe_of t r) = L;
  n_stride : forall r, is_agent (pe_size t) r -> ipc_stride e (pe_of t r) = st;
  n_first : forall r, is_agent (pe_size t) r -> st = 1 -> 0 < L -> ipc_first_pe e (pe_of t r) = pe_of t r / L * L;
  n_trans : forall p q r, is_agent (pe_size t) p -> is_agent (pe_size t) q -> is_agent (pe_size t) r ->
    ipc_available e (pe_of t p) (pe_of t q) = true -> ipc_available e (pe_of t q) (pe_of t r) = true ->
    ipc_available e (pe_of t p) (pe_of t r) = true
}.

Definition bcast_ok (t : team) (b : bcast) : Prop := 0 <= root b < pe_size t /\ 0 <= nbytes b.

Section hierarchical.
Context {T : Type} (e : env) (t : team) (L st : Z).
Hypothesis nodes_ok : nodes e t L st.

Notation H b := (hierarchical_broadcast (T := T) e t b).

(** The number of synchronisations of a broadcast. *)
Definition syncs (b : bcast) : nat := if use_proxy_bcast e t b 0 then 3 else 2.

Lemma use_proxy_same b r r' : is_agent (pe_size t) r -> is_agent (pe_size t) r' -> use_proxy_bcast e t b r = use_proxy_bcast e t b r'.
Proof.
  intros Hr Hr'. unfold use_proxy_bcast. by rewrite !(n_size _ _ _ _ nodes_ok), !(n_stride _ _ _ _ nodes_ok).
Qed.

Lemma hierarchical_cases b : bcast_ok t b ->
  (syncs b = 3%nat /\ (forall r, is_agent (pe_size t) r -> proxy_broadcast e t b r = H b r) /\
   0 < nbytes b /\ 0 < L /\ stride t = 1 /\ pe_start t mod L = 0 /\ pe_size t mod L = 0 /\
   forall r, is_agent (pe_size t) r -> ipc_first_pe e (pe_of t r) = pe_of t r / L * L) \/
  (syncs b = 2%nat /\ forall r, is_agent (pe_size t) r -> leader_broadcast e t b r = H b r).
Proof.
  intros [Hroot _]. assert (H0 : is_agent (pe_size t) 0) by (unfold is_agent; lia). unfold syncs.
  destruct (use_proxy_bcast e t b 0) eqn:E.
  - left. split; [done|]. split; [intros r Hr; unfold hierarchical_broadcast; by rewrite (use_proxy_same b r 0), E|].
    unfold use_proxy_bcast in E. rewrite (n_size _ _ _ _ nodes_ok), (n_stride _ _ _ _ nodes_ok) in E by done.
    rewrite !andb_true_iff in E. unfold kHierarchicalMinBytes in E. repeat split; try lia. intros r Hr.
    apply (n_first _ _ _ _ nodes_ok); [done|lia|lia].
  - right. split; [done|]. intros r Hr. unfold hierarchical_broadcast. by rewrite (use_proxy_same b r 0), E.
Qed.

Lemma hierarchical_staged b : bcast_ok t b -> well_staged (pe_size t) (H b) (syncs b).
Proof.
  intros Hb. destruct (hierarchical_cases b Hb) as [(-> & HA & Hn & HL & Hs & Hps & Hpn & Hf)|[-> HA]].
  - eapply well_staged_ext; [exact HA|]. apply (proxy_staged e t b L); try done; [apply Hb|apply nodes_ok].
  - eapply well_staged_ext; [exact HA|]. apply leader_staged; try apply nodes_ok; apply Hb.
Qed.

Lemma hierarchical_inward b r k a : bcast_ok t b -> is_agent (pe_size t) r -> a ∈ acts (H b) r k -> inward b r a.
Proof.
  intros Hb Hr. destruct (hierarchical_cases b Hb) as [(_ & HA & Hn & HL & Hs & Hps & Hpn & Hf)|[_ HA]]; unfold acts; rewrite <- HA by done.
  - apply (proxy_inward e t b L); try done; try apply Hb. apply nodes_ok.
  - apply leader_inward; try apply nodes_ok; apply Hb.
Qed.

Lemma hierarchical_frame b m p c x k : bcast_ok t b -> (c <> Dest \/ x < dst_off b \/ dst_off b + nbytes b <= x) ->
  after (pe_size t) (program (H b)) m k (p, c, x) = m (p, c, x).
Proof.
  intros Hb Hout. apply after_frame. intros q j a Hq Ha. by eapply inward_frame, Hout; apply hierarchical_inward in Ha.
Qed.

Lemma hierarchical_result b m r x : bcast_ok t b -> is_agent (pe_size t) r -> 0 <= x < nbytes b ->
  after (pe_size t) (program (H b)) m (syncs b) (r, Dest, dst_off b + x) = m (root b, Source, src_off b + x).
Proof.
  intros Hb Hr Hx. destruct (hierarchical_cases b Hb) as [(-> & HA & Hn & HL & Hs & Hps & Hpn & Hf)|[-> HA]].
  - rewrite <- (after_ext _ _ _ 3 m 3 _ HA).
    + apply (proxy_result e t b L); try done; try apply Hb. apply nodes_ok.
    + apply (proxy_staged e t b L); try done; [apply Hb|apply nodes_ok].
  - rewrite <- (after_ext _ _ _ 2 m 2 _ HA).
    + apply leader_result; try done; try apply nodes_ok; apply Hb.
    + apply leader_staged; try apply nodes_ok; apply Hb.
Qed.

(** *** Several broadcasts *)

Fixpoint broadcasts (bs : list bcast) (r : Z) : list (list (list (action (T := T)))) :=
  match bs with [] => [] | b :: bs => seq (H b) (broadcasts bs) r end.

Fixpoint all_syncs (bs : list bcast) : nat := match bs with [] => 0 | b :: bs => syncs b + all_syncs bs end.

Definition dest_apart (b b' : bcast) : Prop := dst_off b + nbytes b <= dst_off b' \/ dst_off b' + nbytes b' <= dst_off b.

Lemma broadcasts_staged bs : Forall (bcast_ok t) bs -> well_staged (pe_size t) (broadcasts bs) (all_syncs bs).
Proof.
  intros Hbs. induction Hbs as [|b bs Hb Hbs IH].
  - split; [done|by intros p k a _ ?%elem_of_nil|by intros p q k a a' _ _ _ ?%elem_of_nil|constructor].
  - cbn [all_syncs]. apply (seq_staged (pe_size t) (H b) (broadcasts bs)); [by apply hierarchical_staged|done].
Qed.

Lemma broadcasts_frame bs m p c x : Forall (bcast_ok t) bs ->
  c <> Dest \/ Forall (fun b => x < dst_off b \/ dst_off b + nbytes b <= x) bs ->
  after (pe_size t) (program (broadcasts bs)) m (all_syncs bs) (p, c, x) = m (p, c, x).
Proof.
  intros Hbs. revert m. induction Hbs as [|b bs Hb Hbs IH]; intros m Hout; [done|]. cbn [all_syncs].
  rewrite (after_seq (pe_size t) (H b) (broadcasts bs)) by (by apply hierarchical_staged || apply broadcasts_staged).
  rewrite IH by (destruct Hout as [?|[_ ?]%Forall_cons]; auto). apply hierarchical_frame; [done|].
  destruct Hout as [?|[? _]%Forall_cons]; auto.
Qed.

Lemma broadcasts_result bs m b r x : Forall (bcast_ok t) bs -> ForallOrdPairs dest_apart bs -> b ∈ bs ->
  is_agent (pe_size t) r -> 0 <= x < nbytes b ->
  after (pe_size t) (program (broadcasts bs)) m (all_syncs bs) (r, Dest, dst_off b + x) = m (root b, Source, src_off b + x).
Proof.
  intros Hbs Hap Hin Hr Hx. revert m Hap Hin. induction Hbs as [|b' bs Hb' Hbs IH]; intros m Hap Hin; [by apply elem_of_nil in Hin|].
  inversion Hap as [|? ? Hf Hap']; subst. cbn [all_syncs].
  rewrite (after_seq (pe_size t) (H b') (broadcasts bs)) by (by apply hierarchical_staged || apply broadcasts_staged).
  apply elem_of_cons in Hin as [->|Hin].
  - rewrite broadcasts_frame; [by apply hierarchical_result|done|]. right. eapply Forall_impl; [exact Hf|]. intros c Hc.
    unfold dest_apart in Hc. lia.
  - rewrite IH by done. apply hierarchical_frame; [done|by left].
Qed.

End hierarchical.

(** ** Collect and all-to-all in chunks *)

Record CollectiveChunkPolicy := mkPolicy { max_bytes : Z; concurrent_bytes : Z }.

Definition kAlltoallChunks : CollectiveChunkPolicy := mkPolicy (16 * 1024) (256 * 1024).
Definition kFcollectChunks : CollectiveChunkPolicy := mkPolicy (16 * 1024) (128 * 1024).
Definition kReduceScatterChunks : CollectiveChunkPolicy := mkPolicy (64 * 1024) 0.

Definition collective_chunk_elems (sz wgs capacity : Z) (policy : CollectiveChunkPolicy) (inter_node : bool) : Z :=
  if concurrent_bytes policy =? 0 then Z.min capacity (Z.max 1 (max_bytes policy / sz))
  else if (wgs <=? 1) || negb inter_node then capacity
  else Z.min capacity (Z.max 1 (Z.min (max_bytes policy) (concurrent_bytes policy / wgs) / sz)).

(** Start and length of the rounds of a loop that handles [chunk] of [count] elements
    at a time. *)
Definition rounds (count chunk : Z) : list (Z * Z) := pieces count chunk (seqZ 0 (ceil_div count chunk)).

Section chunked.
Context {T : Type} (e : env) (t : team).
Notation action := (action (loc := loc) (T := T)).

(** The arguments of a collective: the size of an element in bytes, the number of
    elements per PE, and the range of them that the work-group handles. *)
Context (sz nelems elem_offset count_arg : Z).

Definition elem_count : Z := if count_arg <? 0 then nelems else count_arg.

(** One broadcast per rank; its size is passed as an [int]. *)
Definition collect_bcast (rank : Z) : bcast :=
  mkBcast (s32 (elem_count * sz)) (elem_offset * sz) (s32 (rank * nelems) * sz + elem_offset * sz) rank.

(** The length of a put of [count] elements: [put_nbi] of the queue pair takes it as
    [int32_t], and the copies of a wavefront count in [int]. *)
Definition put_length (count : Z) : Z := s32 (count * sz).

(** The index of an element of a block; the product and the sum are [int]. *)
Definition block_index (block offset : Z) : Z := s32 (block * nelems + offset).

(** A put of [count] elements from [offset] on to the block of [me] at PE [rank]. *)
Definition fcollect_put (me offset count rank : Z) : action :=
  copy me Source (offset * sz) rank Dest (block_index me offset * sz) (put_length count).

Definition fcollect_linear (me : Z) : list (list action) :=
  let chunk_elems := collective_chunk_elems sz (wg_count e) elem_count kFcollectChunks (ipc_shm_size e (pe_of t me) <? pe_size t) in
  (fun '(processed, count) => fcollect_put me (elem_offset + processed) count <$> seqZ 0 (pe_size t)) <$> rounds elem_count chunk_elems.

Definition use_broadcasts : bool := (4 <=? pe_size t) && (kHierarchicalMinBytes <=? elem_count * sz).

Definition fcollect_linear_das (me : Z) : list (list (list action)) :=
  if use_broadcasts then broadcasts e t (collect_bcast <$> seqZ 0 (pe_size t)) me else [fcollect_linear me].

(** [wf_count] waves per PE; participant [me] is wave [me mod wf_count] of PE
    [me / wf_count]. *)
Context (wf_count : Z).

Definition alltoall_put (me offset count j : Z) : action :=
  copy me Source (block_index j offset * sz) j Dest (block_index me offset * sz) (put_length count).

Definition alltoall_linear_wg_das (me : Z) : list (list (list action)) :=
  let pe := me / wf_count in
  let wf_id := me mod wf_count in
  let chunk_elems := collective_chunk_elems sz (wg_count e) elem_count kAlltoallChunks (ipc_shm_size e (pe_of t pe) <? pe_size t) in
  [if 0 <? elem_count then
     (fun '(processed, count) =>
        alltoall_put pe (elem_offset + processed) count <$> filter (fun j => j mod wf_count = wf_id) (seqZ 0 (pe_size t))) <$>
     rounds elem_count chunk_elems
   else []].

Hypothesis sz_pos : 0 < sz.
Hypothesis range_ok : 0 <= elem_offset /\ elem_offset + elem_count <= nelems /\ 0 <= elem_count.

Hypothesis ints_ok : pe_size t * nelems < 2 ^ 31 /\ elem_count * sz < 2 ^ 31.

(** Indices and lengths that fit. *)
Lemma block_index_eq block offset : is_agent (pe_size t) block -> 0 <= offset <= nelems -> block_index block offset = block * nelems + offset.
Proof using range_ok ints_ok. unfold is_agent, block_index. intros Hb Ho. apply s32_small. nia. Qed.

Lemma put_length_eq count : 0 <= count <= elem_count -> put_length count = count * sz.
Proof using sz_pos ints_ok. unfold put_length. intros Hc. apply s32_small. nia. Qed.

Lemma collect_bcast_eq rank : is_agent (pe_size t) rank ->
  collect_bcast rank = mkBcast (elem_count * sz) (elem_offset * sz) ((rank * nelems + elem_offset) * sz) rank.
Proof using sz_pos range_ok ints_ok.
  intros Hr. unfold collect_bcast. fold (put_length elem_count). rewrite put_length_eq by lia.
  pose proof (block_index_eq rank 0 Hr ltac:(lia)) as Hi. unfold block_index in Hi. rewrite Z.add_0_r in Hi. rewrite Hi. f_equal. lia.
Qed.

Lemma fcollect_put_eq me offset count rank : is_agent (pe_size t) me -> 0 <= offset <= nelems -> 0 <= count <= elem_count ->
  fcollect_put me offset count rank = copy me Source (offset * sz) rank Dest ((me * nelems + offset) * sz) (count * sz).
Proof using sz_pos range_ok ints_ok. intros. unfold fcollect_put. by rewrite block_index_eq, put_length_eq. Qed.

Lemma alltoall_put_eq me offset count j : is_agent (pe_size t) me -> is_agent (pe_size t) j -> 0 <= offset <= nelems -> 0 <= count <= elem_count ->
  alltoall_put me offset count j = copy me Source ((j * nelems + offset) * sz) j Dest ((me * nelems + offset) * sz) (count * sz).
Proof using sz_pos range_ok ints_ok. intros. unfold alltoall_put. by rewrite !block_index_eq, put_length_eq. Qed.

(** The blocks of different PEs do not overlap. *)
Lemma blocks_apart p q off count off' count' : p <> q ->
  0 <= off -> off + count <= nelems -> 0 <= off' -> off' + count' <= nelems ->
  (p * nelems + off) * sz + count * sz <= (q * nelems + off') * sz \/
  (q * nelems + off') * sz + count' * sz <= (p * nelems + off) * sz.
Proof using sz_pos range_ok.
  intros Hne H1 H2 H3 H4. rewrite <- !Z.mul_add_distr_r. destruct (Z.lt_total p q) as [Hlt|[?|Hlt]]; [left|done|right];
    apply Z.mul_le_mono_nonneg_r; try lia; nia.
Qed.

Lemma chunk_elems_pos capacity policy inter : 0 < capacity -> 0 < collective_chunk_elems sz (wg_count e) capacity policy inter.
Proof using. intros Hc. unfold collective_chunk_elems. repeat case_if; lia. Qed.

Lemma rounds_spec n chunk processed count : 0 < chunk ->
  (processed, count) ∈ rounds n chunk -> 0 <= processed /\ 0 < count /\ processed + count <= n.
Proof using.
  intros Hc Hin. apply list_elem_of_lookup in Hin as [i Hi]. unfold rounds in Hi. apply pieces_lookup in Hi as (_ & -> & ? & ->); [|done].
  nia.
Qed.

Lemma rounds_nil n chunk : n <= 0 -> rounds n chunk = [].
Proof using.
  intros Hn. unfold rounds. destruct (decide (0 < ceil_div n chunk)) as [Hc|Hc]; [|by rewrite seqZ_nil by lia].
  rewrite seqZ_cons by done. cbn [pieces]. by rewrite (proj2 (Z.leb_le _ _)) by lia.
Qed.

Lemma rounds_cover n chunk x : 0 < chunk -> 0 <= x < n ->
  exists processed count, (processed, count) ∈ rounds n chunk /\ processed <= x < processed + count.
Proof using.
  intros Hc Hx. pose proof (ceil_div_cover n chunk ltac:(lia) Hc).
  destruct (pieces_cover n chunk (ceil_div n chunk) x Hc ltac:(lia) Hx) as (i & processed & count & Hi & Hin).
  exists processed, count. split; [by eapply list_elem_of_lookup_2|done].
Qed.

(** *** Collect *)

Lemma fcollect_acts me a : is_agent (pe_size t) me -> a ∈ concat (fcollect_linear me) -> exists processed count rank,
  a = copy me Source ((elem_offset + processed) * sz) rank Dest ((me * nelems + (elem_offset + processed)) * sz) (count * sz) /\ 0 <= processed /\ processed + count <= elem_count /\ 0 < count /\
  is_agent (pe_size t) rank.
Proof using sz_pos range_ok ints_ok.
  intros Hme (l & Hl%list_elem_of_In & Ha%list_elem_of_In)%list_elem_of_In%in_concat.
  unfold fcollect_linear in Hl. apply list_elem_of_fmap in Hl as ([processed count] & -> & Hr).
  apply list_elem_of_fmap in Ha as (rank & -> & Hrank%elem_of_seqZ). exists processed, count, rank.
  destruct (decide (0 < elem_count)) as [Hpos|Hz].
  - apply rounds_spec in Hr; [|by apply chunk_elems_pos]. rewrite fcollect_put_eq by (done || lia). repeat split; unfold is_agent; lia.
  - rewrite rounds_nil in Hr by lia. by apply elem_of_nil in Hr.
Qed.

Lemma fcollect_linear_staged : well_staged (pe_size t) (fun me => [fcollect_linear me]) 1.
Proof using sz_pos range_ok ints_ok.
  assert (Hin : forall p k a, a ∈ acts (fun me => [fcollect_linear me]) p k -> a ∈ concat (fcollect_linear p)).
  { intros p [|k] a Ha; [done|by apply elem_of_nil in Ha]. }
  split.
  - done.
  - intros p k a Hp (processed & count & rank & -> & _)%Hin%(fcollect_acts _ _ Hp). apply copy_local.
  - intros p q k a a' Hp Hq Hne (f & c & r & -> & Hf)%Hin%(fcollect_acts _ _ Hp) (f' & c' & r' & -> & Hf')%Hin%(fcollect_acts _ _ Hq).
    apply copy_apart; [|by right; left|by right; left]. do 2 right. apply blocks_apart; try done; lia.
  - intros p [|k] Hp; cbn -[fcollect_linear]; [|constructor]. unfold fcollect_linear. apply Forall_fmap, Forall_forall.
    intros [processed count] _ i j a a' Hij Hi Hj. rewrite list_lookup_fmap in Hi, Hj.
    destruct (seqZ 0 (pe_size t) !! i) as [r|] eqn:Er; [|done]. destruct (seqZ 0 (pe_size t) !! j) as [r'|] eqn:Er'; [|done].
    injection Hi as <-. injection Hj as <-. apply lookup_seqZ in Er as [-> _], Er' as [-> _].
    apply copy_apart; [by left; lia|by right; left|by right; left].
Qed.

(** Byte [x] of the range lies in the element [x / sz]. *)
Lemma fcollect_linear_result m me r x : is_agent (pe_size t) me -> is_agent (pe_size t) r -> 0 <= x < elem_count * sz ->
  after (pe_size t) (program (fun me => [fcollect_linear me])) m 1 (r, Dest, (me * nelems + elem_offset) * sz + x) =
  m (me, Source, elem_offset * sz + x).
Proof using sz_pos range_ok ints_ok.
  intros Hme Hr Hx. assert (Hel : 0 <= x / sz < elem_count) by (split; [apply Z.div_pos|apply Z.div_lt_upper_bound]; lia).
  pose proof (Z.div_mod x sz ltac:(lia)). pose proof (Z.mod_pos_bound x sz sz_pos).
  destruct (rounds_cover elem_count _ (x / sz) (chunk_elems_pos elem_count kFcollectChunks
    (ipc_shm_size e (pe_of t me) <? pe_size t) ltac:(lia)) Hel) as (processed & count & Hround & Hin).
  set (a := fcollect_put me (elem_offset + processed) count r).
  assert (Ha : a ∈ concat (fcollect_linear me)).
  { apply list_elem_of_In, in_concat. exists (fcollect_put me (elem_offset + processed) count <$> seqZ 0 (pe_size t)).
    rewrite <- !list_elem_of_In. split.
    - unfold fcollect_linear. apply list_elem_of_fmap. by exists (processed, count).
    - apply list_elem_of_fmap. exists r. split; [done|]. apply elem_of_seqZ. unfold is_agent in Hr. lia. }
  assert (Hw : writes a (r, Dest, (me * nelems + elem_offset) * sz + x) = true).
  { apply rounds_spec in Hround; [|apply chunk_elems_pos; lia]. unfold a. rewrite fcollect_put_eq by (done || lia). cbn [writes copy]. apply in_range_true. repeat split; nia. }
  rewrite (after_own (pe_size t) _ 1 m fcollect_linear_staged 0 me a _ Hme Ha Hw).
  apply (performs_agree (fun l => bool_decide (l.1.2 = Source))); [| |by exists a].
  - intros c [[q d] y] (f & n & rank & -> & _)%(fcollect_acts _ _ Hme) (_ & -> & _)%in_range_true. done.
  - intros c m' (f & n & rank & -> & _)%(fcollect_acts _ _ Hme) (_ & _ & Hy)%in_range_true Hm'. cbn. rewrite Hm' by done. cbn. f_equal. f_equal. nia.
Qed.

Context (L st : Z).

Lemma collect_bcasts_ok : Forall (bcast_ok t) (collect_bcast <$> seqZ 0 (pe_size t)).
Proof using sz_pos range_ok ints_ok.
  apply Forall_fmap, Forall_forall. intros rank Hr%elem_of_seqZ.
  unfold compose. rewrite collect_bcast_eq by (unfold is_agent; lia). split; cbn; [lia|nia].
Qed.

Lemma collect_bcasts_apart : ForallOrdPairs dest_apart (collect_bcast <$> seqZ 0 (pe_size t)).
Proof using sz_pos range_ok ints_ok.
  assert (Hgen : forall l, NoDup l -> Forall (is_agent (pe_size t)) l -> ForallOrdPairs dest_apart (collect_bcast <$> l)).
  { intros l Hl. induction Hl as [|r l Hr Hl IH]; [constructor|]. intros [Hra Hla]%Forall_cons. cbn. constructor; [|by apply IH].
    apply Forall_fmap, Forall_forall. intros r' Hr'. rewrite Forall_forall in Hla. unfold compose. rewrite !collect_bcast_eq by auto.
    unfold dest_apart. cbn. apply blocks_apart; try lia. intros ->. done. }
  apply Hgen; [apply NoDup_seqZ|]. apply Forall_forall. intros r Hr%elem_of_seqZ. unfold is_agent. lia.
Qed.

Definition fcollect_syncs : nat :=
  if use_broadcasts then all_syncs e t (collect_bcast <$> seqZ 0 (pe_size t)) else 1.

Lemma fcollect_staged : nodes e t L st -> well_staged (pe_size t) fcollect_linear_das fcollect_syncs.
Proof using sz_pos range_ok ints_ok.
  intros Hn. unfold fcollect_linear_das, fcollect_syncs. destruct use_broadcasts; [|apply fcollect_linear_staged].
  apply (broadcasts_staged e t L st Hn), collect_bcasts_ok.
Qed.

Lemma fcollect_result m me r x : nodes e t L st -> is_agent (pe_size t) me -> is_agent (pe_size t) r -> 0 <= x < elem_count * sz ->
  after (pe_size t) (program fcollect_linear_das) m fcollect_syncs
    (r, Dest, (me * nelems + elem_offset) * sz + x) = m (me, Source, elem_offset * sz + x).
Proof using sz_pos range_ok ints_ok.
  intros Hn Hme Hr Hx. unfold fcollect_linear_das, fcollect_syncs. destruct use_broadcasts; [|by apply fcollect_linear_result].
  pose proof (collect_bcast_eq me Hme) as Hb.
  pose proof (broadcasts_result e t L st Hn (collect_bcast <$> seqZ 0 (pe_size t)) m (collect_bcast me) r x) as Hres.
  rewrite Hb in Hres at 2 3 4 5. apply Hres; try done.
  - apply collect_bcasts_ok.
  - apply collect_bcasts_apart.
  - apply list_elem_of_fmap_2, elem_of_seqZ. unfold is_agent in Hme. lia.
Qed.

(** *** All-to-all *)

Hypothesis waves_pos : 0 < wf_count.

Notation waves := (pe_size t * wf_count).
Notation A := alltoall_linear_wg_das.

Lemma wave_pe me : is_agent waves me -> is_agent (pe_size t) (me / wf_count).
Proof using waves_pos. unfold is_agent. intros Hme. split; [apply Z.div_pos|apply Z.div_lt_upper_bound]; lia. Qed.

Lemma alltoall_acts me k a : is_agent waves me -> a ∈ acts A me k -> exists processed count j,
  a = copy (me / wf_count) Source ((j * nelems + (elem_offset + processed)) * sz) j Dest
    ((me / wf_count * nelems + (elem_offset + processed)) * sz) (count * sz) /\ 0 <= processed /\ processed + count <= elem_count /\ 0 < count /\
  is_agent (pe_size t) j /\ j mod wf_count = me mod wf_count.
Proof using sz_pos range_ok ints_ok waves_pos.
  intros Hme%wave_pe. destruct k as [|k]; [|by intros ?%elem_of_nil]. unfold acts, alltoall_linear_wg_das. cbn -[rounds].
  case_if; [|by intros ?%elem_of_nil]. intros (l & Hl%list_elem_of_In & Ha%list_elem_of_In)%list_elem_of_In%in_concat.
  apply list_elem_of_fmap in Hl as ([processed count] & -> & Hr).
  apply list_elem_of_fmap in Ha as (j & -> & Hj). apply list_elem_of_filter in Hj as [Hm Hj%elem_of_seqZ].
  exists processed, count, j. apply rounds_spec in Hr; [|apply chunk_elems_pos; lia].
  rewrite alltoall_put_eq by (unfold is_agent in *; done || lia). repeat split; unfold is_agent; lia.
Qed.

Lemma alltoall_staged : well_staged waves A 1.
Proof using sz_pos range_ok ints_ok waves_pos.
  split.
  - done.
  - intros p k a Hp (processed & count & j & -> & _)%(alltoall_acts _ _ _ Hp). apply copy_local.
  - intros p q k a a' Hp Hq Hne (f & c & j & -> & H1 & H2 & H3 & H4 & H5)%(alltoall_acts _ _ _ Hp)
      (f' & c' & j' & -> & H1' & H2' & H3' & H4' & H5')%(alltoall_acts _ _ _ Hq).
    apply copy_apart; [|by right; left|by right; left].
    destruct (decide (j = j')) as [->|]; [|by left]. do 2 right. apply blocks_apart; try lia. intros E. apply Hne.
    rewrite (Z.div_mod p wf_count), (Z.div_mod q wf_count) by lia. congruence.
  - intros p [|k] Hp; cbn -[rounds]; [|constructor]. case_if; [|constructor]. apply Forall_fmap, Forall_forall.
    intros [processed count] _ i j a a' Hij Hi Hj. rewrite list_lookup_fmap in Hi, Hj.
    set (js := filter _ _) in *. destruct (js !! i) as [r|] eqn:Er; [|done]. destruct (js !! j) as [r'|] eqn:Er'; [|done].
    injection Hi as <-. injection Hj as <-. apply copy_apart; [left|by right; left|by right; left]. intros ->.
    assert (i = j); [|lia]. eapply NoDup_lookup; [|exact Er|exact Er']. apply NoDup_filter, NoDup_seqZ.
Qed.

Lemma alltoall_result m i j x : is_agent (pe_size t) i -> is_agent (pe_size t) j -> 0 <= x < elem_count * sz ->
  after waves (program A) m 1 (j, Dest, (i * nelems + elem_offset) * sz + x) = m (i, Source, (j * nelems + elem_offset) * sz + x).
Proof using sz_pos range_ok ints_ok waves_pos.
  intros Hi Hj Hx. assert (Hel : 0 <= x / sz < elem_count) by (split; [apply Z.div_pos|apply Z.div_lt_upper_bound]; lia).
  pose proof (Z.div_mod x sz ltac:(lia)). pose proof (Z.mod_pos_bound x sz sz_pos).
  pose proof (Z.mod_pos_bound j wf_count waves_pos) as Hw0. set (me := i * wf_count + j mod wf_count).
  assert (Hpe : me / wf_count = i) by (unfold me; rewrite Z.div_add_l, Z.div_small by lia; lia).
  assert (Hwf : me mod wf_count = j mod wf_count) by (unfold me; rewrite Z.add_comm, Z.mod_add, Z.mod_mod by lia; done).
  assert (Hme : is_agent waves me) by (unfold is_agent in *; nia).
  destruct (rounds_cover elem_count _ (x / sz) (chunk_elems_pos elem_count kAlltoallChunks
    (ipc_shm_size e (pe_of t i) <? pe_size t) ltac:(lia)) Hel) as (processed & count & Hround & Hin).
  set (a := alltoall_put i (elem_offset + processed) count j).
  assert (Ha : a ∈ acts A me 0).
  { unfold acts, alltoall_linear_wg_das. cbn -[rounds]. rewrite (proj2 (Z.ltb_lt _ _)) by lia. rewrite Hpe, Hwf.
    apply list_elem_of_In, in_concat.
    exists (alltoall_put i (elem_offset + processed) count <$> filter (fun q => q mod wf_count = j mod wf_count) (seqZ 0 (pe_size t))).
    rewrite <- !list_elem_of_In. split.
    - apply list_elem_of_fmap. by exists (processed, count).
    - apply list_elem_of_fmap. exists j. split; [done|]. apply list_elem_of_filter. split; [done|]. apply elem_of_seqZ.
      unfold is_agent in Hj. lia. }
  assert (Hw : writes a (j, Dest, (i * nelems + elem_offset) * sz + x) = true).
  { apply rounds_spec in Hround; [|apply chunk_elems_pos; lia]. unfold a. rewrite alltoall_put_eq by (done || lia). cbn [writes copy]. apply in_range_true. repeat split; nia. }
  rewrite (after_own waves _ 1 m alltoall_staged 0 me a _ Hme Ha Hw).
  apply (performs_agree (fun l => bool_decide (l.1.2 = Source))); [| |by exists a].
  - intros c [[q d] y] (f & n & rank & -> & _)%(alltoall_acts _ _ _ Hme) (_ & -> & _)%in_range_true. done.
  - intros c m' (f & n & rank & -> & _)%(alltoall_acts _ _ _ Hme) (<- & _ & Hy)%in_range_true Hm'. cbn. rewrite Hm' by done. cbn.
    rewrite Hpe. f_equal. f_equal. nia.
Qed.

End chunked.

(** ** Broadcasts in one stage *)

Section direct.
Context {T : Type} (e : env) (t : team) (b : bcast).
Hypothesis b_ok : bcast_ok t b.

Lemma ipc_acts r k a : a ∈ acts (ipc_broadcastmem (T := T) e t b) r k -> exists q, a = from_root b q.
Proof.
  destruct k as [|k]; [|by intros ?%elem_of_nil]. unfold acts, ipc_broadcastmem, ipc_put_broadcast, ipc_get_broadcast.
  cbn -[blocking]. case_if; [|rewrite concat_blocking; intros ->%list_elem_of_singleton; by exists r].
  case_if; [|by intros ?%elem_of_nil]. rewrite concat_blocking. intros (q & -> & _)%list_elem_of_fmap. by exists q.
Qed.

Lemma ipc_staged : well_staged (pe_size t) (ipc_broadcastmem (T := T) e t b) 1.
Proof.
  split.
  - done.
  - intros p k a Hp Ha. apply ipc_acts in Ha as [q ->]. apply copy_local.
  - intros p q k a a' Hp Hq Hne Ha Ha'. destruct k as [|k]; [|by apply elem_of_nil in Ha].
    unfold acts, ipc_broadcastmem, ipc_put_broadcast, ipc_get_broadcast in Ha, Ha'. cbn -[blocking] in Ha, Ha'.
    destruct (num_pes e <? 4).
    + destruct (Z.eqb_spec p (root b)) as [->|]; [|by apply elem_of_nil in Ha].
      rewrite (proj2 (Z.eqb_neq q (root b))) in Ha' by done. by apply elem_of_nil in Ha'.
    + rewrite concat_blocking in Ha, Ha'. apply list_elem_of_singleton in Ha as ->, Ha' as ->. by apply source_apart.
  - intros p k Hp. destruct k as [|k]; cbn -[blocking]; [|constructor]. case_if; [|apply blocking_apart].
    unfold ipc_put_broadcast. case_if; [apply blocking_apart|constructor].
Qed.

Lemma ipc_result m r x : is_agent (pe_size t) r -> 0 <= x < nbytes b ->
  after (pe_size t) (program (ipc_broadcastmem e t b)) m 1 (r, Dest, dst_off b + x) = (m (root b, Source, src_off b + x) : T).
Proof.
  intros Hr Hx. assert (Hw : writes (from_root (T := T) b r) (r, Dest, dst_off b + x) = true).
  { cbn [writes from_root copy]. apply in_range_true. repeat split; lia. }
  assert (exists p, is_agent (pe_size t) p /\ from_root b r ∈ acts (ipc_broadcastmem (T := T) e t b) p 0) as (p & Hp & Ha).
  { unfold acts, ipc_broadcastmem, ipc_put_broadcast, ipc_get_broadcast. cbn -[blocking]. destruct (num_pes e <? 4).
    - exists (root b). split; [apply b_ok|]. rewrite Z.eqb_refl, concat_blocking. apply list_elem_of_fmap_2, elem_of_seqZ.
      unfold is_agent in Hr. lia.
    - exists r. split; [done|]. rewrite concat_blocking. by apply list_elem_of_singleton. }
  rewrite (after_own (pe_size t) _ 1 m ipc_staged 0 p _ _ Hp Ha Hw).
  apply (performs_agree (fun l => bool_decide (l.1.2 = Source))); [| |by exists (from_root b r)].
  - intros c [[q d] y] Hc. apply ipc_acts in Hc as [q' ->]. by intros (_ & -> & _)%in_range_true.
  - intros c m' Hc. apply ipc_acts in Hc as [q' ->]. intros _ Hm'. cbn. rewrite Hm' by done. do 2 f_equal. lia.
Qed.

End direct.

(** ** Runs *)

(** C4: With at least four PEs in the world, in a team of uniform nodes (all nodes have
    the same number of PEs, a node of consecutive PEs starts at a multiple of it, and
    sharing memory over IPC is transitive), with the source in place before any PE
    starts, whatever the interleaving of the PEs and the order in which transfers
    complete, once a PE has returned from the hierarchical broadcast every PE of the
    team holds the message of the root: with one leader per node and with several
    proxies per node, for any root and size. *)
Theorem gda_broadcast_correct {T} e t L st b (m : loc -> T) s s' p r x :
  nodes e t L st -> bcast_ok t b -> 4 <= num_pes e ->
  initial (pe_size t) m s -> rtc (step (pe_size t) (broadcastmem_wg_das e t b)) s s' ->
  is_agent (pe_size t) p -> pc s' p = Run (syncs e t b) 0 -> is_agent (pe_size t) r -> 0 <= x < nbytes b ->
  mem s' (r, Dest, dst_off b + x) = m (root b, Source, src_off b + x).
Proof.
  intros Hn Hb H4 H0 Hs Hp Hpc Hr Hx. unfold broadcastmem_wg_das in Hs. rewrite (proj2 (Z.ltb_ge _ _) H4) in Hs.
  rewrite <- (hierarchical_result e t L st Hn b m r x Hb Hr Hx).
  eapply (staged_result _ _ (syncs e t b)); [|exact H0|exact Hs|exact Hp|exact Hpc].
  apply well_staged_free. by apply (hierarchical_staged e t L st).
Qed.

(** A PE that has returned from the broadcast of the IPC context, by puts of the root or
    by gets from it, finds the message of the root at every PE, provided that the
    source was in place when the broadcast began. *)
Theorem ipc_broadcast_correct {T} e t b (m : loc -> T) s s' p r x :
  bcast_ok t b -> initial (pe_size t) m s -> rtc (step (pe_size t) (program (ipc_broadcastmem e t b))) s s' ->
  is_agent (pe_size t) p -> pc s' p = Run 1 0 -> is_agent (pe_size t) r -> 0 <= x < nbytes b ->
  mem s' (r, Dest, dst_off b + x) = m (root b, Source, src_off b + x).
Proof.
  intros Hb H0 Hs Hp Hpc Hr Hx. rewrite <- (ipc_result e t b Hb m r x Hr Hx).
  eapply (staged_result _ _ 1); [|exact H0|exact Hs|exact Hp|exact Hpc]. apply well_staged_free, ipc_staged.
Qed.

(** C13: In a team of uniform nodes (as for the broadcast), with the sources in place
    before any PE starts, indices below 2^31 and blocks of less than 2^31 bytes, the
    collect operation of the GPU-direct-access context returns with the block of every
    PE at every PE: as one hierarchical broadcast per PE for large blocks, and as puts
    in chunks otherwise, whatever the interleaving. *)
Theorem gda_fcollect_correct {T} e t L st sz nelems elem_offset count_arg (m : loc -> T) s s' p me r x :
  let A := fcollect_linear_das e t sz nelems elem_offset count_arg in
  let count := elem_count nelems count_arg in
  nodes e t L st -> 0 < sz -> 0 <= elem_offset /\ elem_offset + count <= nelems /\ 0 <= count ->
  pe_size t * nelems < 2 ^ 31 /\ count * sz < 2 ^ 31 ->
  initial (pe_size t) m s -> rtc (step (pe_size t) (program A)) s s' ->
  is_agent (pe_size t) p -> pc s' p = Run (fcollect_syncs e t sz nelems elem_offset count_arg) 0 ->
  is_agent (pe_size t) me -> is_agent (pe_size t) r -> 0 <= x < count * sz ->
  mem s' (r, Dest, (me * nelems + elem_offset) * sz + x) = m (me, Source, elem_offset * sz + x).
Proof.
  intros A count Hn Hsz Hc Hint H0 Hs Hp Hpc Hme Hr Hx.
  rewrite <- (fcollect_result e t sz nelems elem_offset count_arg Hsz Hc Hint L st m me r x Hn Hme Hr Hx).
  eapply (staged_result _ _ (fcollect_syncs e t sz nelems elem_offset count_arg)); [|exact H0|exact Hs|exact Hp|exact Hpc].
  apply well_staged_free. by apply (fcollect_staged e t sz nelems elem_offset count_arg Hsz Hc Hint L st).
Qed.

(** The collect operation ends on every PE: a run has at most three steps per transfer
    and two per synchronisation, and some PE or transfer can move until all have
    returned. *)
Theorem gda_fcollect_finishes {T} e t L st sz nelems elem_offset count_arg (m : loc -> T) s n s' (junk : loc -> T) :
  let A := fcollect_linear_das e t sz nelems elem_offset count_arg in
  let count := elem_count nelems count_arg in
  nodes e t L st -> 0 < sz -> 0 <= elem_offset /\ elem_offset + count <= nelems /\ 0 <= count ->
  pe_size t * nelems < 2 ^ 31 /\ count * sz < 2 ^ 31 ->
  initial (pe_size t) m s -> nsteps (step (pe_size t) (program A)) n s s' ->
  Z.of_nat n <= zsum (fun p => cost (program A p)) (seqZ 0 (pe_size t)) /\
  (finished (pe_size t) (fcollect_syncs e t sz nelems elem_offset count_arg) s' \/ exists s'', step (pe_size t) (program A) s' s'').
Proof.
  intros A count Hn Hsz Hc Hint H0 Hs. eapply staged_ends; [|exact junk|exact H0|exact Hs]. apply well_staged_free.
  by apply (fcollect_staged e t sz nelems elem_offset count_arg Hsz Hc Hint L st).
Qed.

(** C14: The chunked all-to-all of the GPU-direct-access context, run by any number of
    waves per PE, with the sources in place before any PE starts, indices below 2^31
    and less than 2^31 bytes per peer, returns with the block that PE [i] has for PE
    [j] in place [i] at PE [j], for the range of elements it is given. *)
Theorem gda_alltoall_correct {T} e t sz nelems elem_offset count_arg wf_count (m : loc -> T) s s' p i j x :
  let A := alltoall_linear_wg_das e t sz nelems elem_offset count_arg wf_count in
  let count := elem_count nelems count_arg in
  0 < sz -> 0 <= elem_offset /\ elem_offset + count <= nelems /\ 0 <= count ->
  pe_size t * nelems < 2 ^ 31 /\ count * sz < 2 ^ 31 -> 0 < wf_count ->
  initial (pe_size t * wf_count) m s -> rtc (step (pe_size t * wf_count) (program A)) s s' ->
  is_agent (pe_size t * wf_count) p -> pc s' p = Run 1 0 ->
  is_agent (pe_size t) i -> is_agent (pe_size t) j -> 0 <= x < count * sz ->
  mem s' (j, Dest, (i * nelems + elem_offset) * sz + x) = m (i, Source, (j * nelems + elem_offset) * sz + x).
Proof.
  intros A count Hsz Hc Hint Hw H0 Hs Hp Hpc Hi Hj Hx.
  rewrite <- (alltoall_result e t sz nelems elem_offset count_arg wf_count Hsz Hc Hint Hw m i j x Hi Hj Hx).
  eapply (staged_result _ _ 1); [|exact H0|exact Hs|exact Hp|exact Hpc].
  apply well_staged_free. by apply (alltoall_staged e t sz nelems elem_offset count_arg wf_count Hsz Hc Hint Hw).
Qed.

(** Blocks of 2 GiB: the broadcasts that make the collect of 2^29 elements of four
    bytes are given a negative size, and a put of the all-to-all that is not divided
    into chunks a negative length. *)
Theorem collect_size_overflows e rank :
  use_broadcasts (mkTeam 0 1 4) 4 (2 ^ 29) (-1) = true /\
  nbytes (collect_bcast 4 (2 ^ 29) 0 (-1) rank) = - 2 ^ 31 /\
  (wg_count e <= 1 ->
   put_length 4 (collective_chunk_elems 4 (wg_count e) (elem_count (2 ^ 29) (-1)) kAlltoallChunks true) = - 2 ^ 31).
Proof.
  split; [reflexivity|]. split; [reflexivity|]. intros H. unfold collective_chunk_elems.
  cbn [concurrent_bytes kAlltoallChunks]. by rewrite (proj2 (Z.leb_le _ _) H).
Qed.

(** ** Concrete runs *)

(** Two nodes of two PEs. *)
Definition two_nodes : env :=
  mkEnv 4 (fun p q => p / 2 =? q / 2) (fun _ => 2) (fun _ => 1) (fun p => p / 2 * 2) 2 1 1.

Definition four_pes : team := mkTeam 0 1 4.

Lemma two_nodes_ok : nodes two_nodes four_pes 2 1.
Proof. split; cbn; try done; intros; lia. Qed.

Definition start {T} (m : loc -> T) : state := mkState m (fun _ => Run 0 0) (fun _ => []).

Lemma start_initial {T} n (m : loc -> T) : initial n m (start m).
Proof. done. Qed.

(** The source of a PE holds its number, every other buffer zeros. *)
Definition numbered : loc -> Z := fun '(p, b, x) => match b with Source => 100 + p | _ => 0 end.

(** A message of 300000 bytes from PE 3, through two proxies per node. *)
Definition large : bcast := mkBcast 300000 0 0 3.

Lemma gda_broadcast_correct_witness :
  mem (staged_drive 4 (broadcastmem_wg_das two_nodes four_pes large) (fun _ => -1) (round_robin 4 30) (start numbered)) (0, Dest, 0 + 250000) = 103.
Proof.
  apply (gda_broadcast_correct two_nodes four_pes 2 1 large numbered (start numbered) _ 0 0 250000 two_nodes_ok); try done.
  - apply (staged_drive_rtc 4 (broadcastmem_wg_das two_nodes four_pes large)), round_robin_ok.
Defined.

Lemma ipc_broadcast_correct_witness :
  mem (staged_drive 4 (program (ipc_broadcastmem two_nodes four_pes large)) (fun _ => -1) (round_robin 4 10) (start numbered)) (2, Dest, 0 + 9) = 103.
Proof.
  apply (ipc_broadcast_correct two_nodes four_pes large numbered (start numbered) _ 0 2 9); try done.
  - apply (staged_drive_rtc 4 (program (ipc_broadcastmem two_nodes four_pes large))), round_robin_ok.
Defined.

(** Blocks of 70000 elements of 4 bytes. *)
Lemma gda_fcollect_correct_witness :
  mem (staged_drive 4 (program (fcollect_linear_das two_nodes four_pes 4 70000 0 (-1))) (fun _ => -1) (round_robin 4 90) (start numbered))
    (0, Dest, (2 * 70000 + 0) * 4 + 250000) = 102.
Proof.
  apply (gda_fcollect_correct two_nodes four_pes 2 1 4 70000 0 (-1) numbered (start numbered) _ 0 2 0 250000 two_nodes_ok); try done.
  - apply (staged_drive_rtc 4 (program (fcollect_linear_das two_nodes four_pes 4 70000 0 (-1)))), round_robin_ok.
Defined.

Lemma gda_fcollect_finishes_witness :
  exists n, Z.of_nat n <= 156 /\
    finished 4 1 (staged_drive 4 (program (fcollect_linear_das two_nodes four_pes 4 10 0 (-1))) (fun _ => -1) (round_robin 4 20) (start numbered)).
Proof.
  destruct (proj1 (rtc_nsteps _ _) (staged_drive_rtc 4 (program (fcollect_linear_das two_nodes four_pes 4 10 0 (-1))) (fun _ => -1)
    (round_robin 4 20) (start numbered) (round_robin_ok 4 20))) as [n Hn].
  exists n. destruct (gda_fcollect_finishes two_nodes four_pes 2 1 4 10 0 (-1) numbered (start numbered) n _ (fun _ => -1) two_nodes_ok
    ltac:(lia) ltac:(cbn; lia) ltac:(done) (start_initial 4 numbered) Hn) as [Hle _].
  split; [etransitivity; [exact Hle|]; vm_compute; discriminate|].
  intros p Hp. assert (p = 0 \/ p = 1 \/ p = 2 \/ p = 3) as [->|[->|[->| ->]]] by (unfold is_agent in Hp; lia); vm_compute; done.
Defined.

Lemma gda_alltoall_correct_witness :
  mem (staged_drive 8 (program (alltoall_linear_wg_das two_nodes four_pes 4 10 2 5 2)) (fun _ => -1) (round_robin 8 20) (start numbered))
    (1, Dest, (3 * 10 + 2) * 4 + 7) = 103.
Proof.
  apply (gda_alltoall_correct two_nodes four_pes 4 10 2 5 2 numbered (start numbered) _ 0 3 1 7); try done.
  - apply (staged_drive_rtc 8 (program (alltoall_linear_wg_das two_nodes four_pes 4 10 2 5 2))), round_robin_ok.
Defined.

(** Three PEs that share no memory. *)
Definition three_apart : env := mkEnv 3 (fun p q => p =? q) (fun _ => 1) (fun _ => 1) (fun p => p) 1 1 1.

Definition three_pes : team := mkTeam 0 1 3.

Definition small : bcast := mkBcast 8 0 0 1.

(** PE 1 starts its puts and enters the synchronisation; the put to PE 0 arrives. *)
Definition early_schedule : list (Z * option nat) :=
  replicate 3 (1, None) ++ [(1, Some 2%nat); (1, Some 2%nat)] ++ replicate 2 (1, None) ++
  [(1, Some 0%nat); (1, Some 0%nat); (0, None); (2, None); (2, None)].

(** The put broadcast of the GPU-direct-access context, used for fewer than four PEs,
    starts its puts without waiting for them before the final synchronisation, which
    only orders the PEs: with three PEs and a root that is not the first, a PE can
    return while its put is still under way and find its destination as it was. *)
Theorem gda_put_broadcast_returns_early :
  let s := staged_drive 3 (broadcastmem_wg_das three_apart three_pes small) (fun _ => -1) early_schedule (start numbered) in
  rtc (step 3 (broadcastmem_wg_das three_apart three_pes small)) (start numbered) s /\
  pc s 2 = Run 1 0 /\ mem s (0, Dest, 0) = numbered (1, Source, 0) /\ mem s (2, Dest, 0) = numbered (2, Dest, 0) /\
  numbered (2, Dest, 0) <> numbered (1, Source, 0).
Proof.
  cbv zeta. split; [apply staged_drive_rtc; repeat (constructor; [unfold is_agent; cbn; lia|]); constructor|].
  repeat split; vm_compute; try reflexivity. discriminate.
Qed.

(** The application at PE [r] stores its message before it calls the broadcast. *)
Definition produce (r n : Z) (v : Z -> Z) : action := mkAction (in_range r Source 0 n) (fun _ => false) (fun _ '(_, _, x) => v x).

Definition produce_and_broadcast (b : bcast) (v : Z -> Z) (r : Z) : list (list op) :=
  match batches <$> ipc_broadcastmem two_nodes four_pes b r with
  | ops :: rest => ((if r =? root b then batch [produce r (nbytes b) v] else []) ++ ops) :: rest
  | [] => []
  end.

Definition reader_first : list (Z * option nat) :=
  [(0, None); (0, Some 0%nat); (0, Some 0%nat)] ++ round_robin 4 10.

(** With four PEs or more the broadcast of the IPC context, like that of the
    GPU-direct-access context, has every PE read the source of the root without
    waiting for the root to have called it: a PE can return with what the source
    held before the root stored its message there. *)
Theorem get_broadcast_reads_early :
  let P := produce_and_broadcast small (fun _ => 7) in
  let s := staged_drive 4 P (fun _ => -1) reader_first (start numbered) in
  rtc (step 4 P) (start numbered) s /\ (forall p, is_agent 4 p -> pc s p = Run 1 0) /\
  mem s (1, Source, 0) = 7 /\ mem s (2, Dest, 0) = 7 /\ mem s (0, Dest, 0) = numbered (1, Source, 0).
Proof.
  cbv zeta. split.
  - apply staged_drive_rtc. unfold reader_first. apply Forall_app. split; [|apply round_robin_ok].
    repeat (constructor; [unfold is_agent; cbn; lia|]). constructor.
  - split; [|repeat split; vm_compute; reflexivity]. intros p Hp.
    assert (p = 0 \/ p = 1 \/ p = 2 \/ p = 3) as [->|[->|[->| ->]]] by (unfold is_agent in Hp; lia); vm_compute; reflexivity.
Qed.
