(* ===== verification/GdaReduce.v ===== *)
(** * Hierarchical all-reduce

    [GDAContext::internal_proxy_allreduce] with [internal_fused_ipc_reduce] and the
    condition of [reduce_das] under which it is used
    (src/gda/context_gda_tmpl_device_das.hpp), as a program in stages ([Staged]).
    Proxies reduce one segment each over the PEs of their node, those of the first
    node combine the segments of all nodes, the proxies of the other nodes fetch the
    result, and every PE assembles the segments of its node.  Buffers are counted in
    elements, and counts and indices are unbounded integers.

    The lanes of a wavefront run in lockstep; several wavefronts of the work-group
    are ordered only by its barriers.  A stage begins and ends with one, but there
    is none between the get of a tile, which thread zero makes, and the reduction of
    the tile: the other wavefronts reduce their elements while the get is in flight. *)

From Stdlib Require Import ZArith Lia.
From stdpp Require Import base option numbers list relations.
From S2P Require Import Prelude Staged Transfers Broadcast.

Open Scope Z_scope.

Section proxy_allreduce.
Context {T : Type} (Calc : T -> T -> T).
Notation action := (action (loc := loc) (T := T)).

(** The team, what a PE knows of its node, and its index among the PEs of the node. *)
Context (e : env) (t : team) (shm_rank : Z -> Z).

(** Size of an element in bytes, number of elements, elements of the work area. *)
Context (sz nelems tile_elems : Z).

(** Threads of the work-group. *)
Context (wg_size : Z).

Definition PROXY_ALLREDUCE_MIN_BYTES : Z := 256 * 1024.

Definition use_proxy_allreduce (r : Z) : bool :=
  let local_size := ipc_shm_size e (pe_of t r) in
  (PROXY_ALLREDUCE_MIN_BYTES <=? nelems * sz) && (stride t =? 1) && (1 <? local_size) && (ipc_stride e (pe_of t r) =? 1) &&
  (pe_start t mod local_size =? 0) && (pe_size t mod local_size =? 0) && (local_size <? pe_size t).

Definition local_size (r : Z) : Z := ipc_shm_size e (pe_of t r).
Definition slot_of (r : Z) : Z := shm_rank (pe_of t r).
Definition node_count (r : Z) : Z := pe_size t / local_size r.
Definition first_node (r : Z) : bool := ipc_first_pe e (pe_of t r) =? pe_start t.
Definition ar_proxies (r : Z) : Z := Z.min (local_size r) (ceil_div (nelems * sz) MIN_BYTES_PER_PROXY).
Definition ar_chunk (r : Z) : Z := ceil_div nelems (ar_proxies r).

Definition seg_begin (r slot : Z) : Z := slot * ar_chunk r.
Definition seg_count (r slot : Z) : Z := Z.min (ar_chunk r) (nelems - seg_begin r slot).

(** The rank of slot [slot] on the node of [r]. *)
Definition local_peer (r slot : Z) : Z := rank_of t (ipc_first_pe e (pe_of t r) + slot).

(** Element-wise reduction over the source buffers of the node, own element first. *)
Definition fused_ipc_reduce (r begin count : Z) : action :=
  mkAction (in_range r Dest begin count)
    (fun l => existsb (fun slot => in_range (local_peer r slot) Source begin count l) (seqZ 0 (local_size r)) || in_range r Source begin count l)
    (fun m '(_, _, x) =>
       foldl (fun acc slot => if slot =? slot_of r then acc else Calc (m (local_peer r slot, Source, x)) acc)
         (m (r, Source, x)) (seqZ 0 (local_size r))).

(** [gda_compute_reduce] of the work area into the destination, by the threads
    whose elements are [share]. *)
Definition reduce_work (share : Z -> bool) (r lo n : Z) : action :=
  mkAction (fun '(q, c, x) => in_range r Dest lo n (q, c, x) && share (x - lo))
    (fun '(q, c, x) => in_range r Dest lo n (q, c, x) && share (x - lo) || in_range r Work 0 n (q, c, x) && share x)
    (fun m '(_, _, x) => Calc (m (r, Work, x - lo)) (m (r, Dest, x))).

(** The elements of the threads of the first wavefront. *)
Definition first_wave (i : Z) : bool := i mod wg_size <? 64.

(** A tile of the segment of the proxy [q] of another node: thread zero gets it and
    its wavefront then reduces its elements; other wavefronts reduce theirs at once. *)
Definition combine_tile (r q begin : Z) (tile : Z * Z) : list (list action) :=
  let '(offset, n) := tile in
  [copy q Dest (begin + offset) r Work 0 n ::
     (if 64 <? wg_size then [reduce_work (fun i => negb (first_wave i)) r (begin + offset) n] else []);
   [reduce_work first_wave r (begin + offset) n]].

Definition combine_node (r q begin count : Z) : list (list action) := rounds count tile_elems ≫= combine_tile r q begin.

Definition combine_nodes (r begin count : Z) : list (list action) :=
  seqZ 1 (node_count r - 1) ≫= fun node => combine_node r (node * local_size r + slot_of r) begin count.

Definition seg_copy (r slot q : Z) : action :=
  copy q Dest (seg_begin r slot) r Dest (seg_begin r slot) (seg_count r slot).

Definition internal_proxy_allreduce (r : Z) : list (list (list action)) :=
  let slot := slot_of r in
  let proxy := slot <? ar_proxies r in
  [if proxy then blocking [fused_ipc_reduce r (seg_begin r slot) (seg_count r slot)] else [];
   if first_node r && proxy then combine_nodes r (seg_begin r slot) (seg_count r slot) else [];
   if negb (first_node r) && proxy then blocking [seg_copy r slot slot] else [];
   blocking ((fun s => seg_copy r s (local_peer r s)) <$> filter (fun s => s <> slot) (seqZ 0 (ar_proxies r)))].

(** ** Operations of a tile, in a work-group of one wavefront *)

Definition single_wave : Prop := 0 < wg_size <= 64.

Hypothesis one_wave : single_wave.

Lemma first_wave_all i : first_wave i = true.
Proof using one_wave. unfold first_wave, single_wave in *. pose proof (Z.mod_pos_bound i wg_size). lia. Qed.

Lemma one_wave_tile r q begin offset n :
  combine_tile r q begin (offset, n) = [[copy q Dest (begin + offset) r Work 0 n]; [reduce_work first_wave r (begin + offset) n]].
Proof using one_wave. unfold combine_tile, single_wave in *. by rewrite (proj2 (Z.ltb_ge _ _)) by lia. Qed.

Lemma reduce_writes r lo n l : writes (reduce_work first_wave r lo n) l = in_range r Dest lo n l.
Proof using one_wave. destruct l as [[q c] x]. cbn -[in_range]. by rewrite first_wave_all, andb_true_r. Qed.

Lemma reduce_reads r lo n l : reads (reduce_work first_wave r lo n) l = in_range r Dest lo n l || in_range r Work 0 n l.
Proof using one_wave. destruct l as [[q c] x]. cbn -[in_range]. by rewrite !first_wave_all, !andb_true_r. Qed.

Lemma reduce_work_local r lo n : local (reduce_work first_wave r lo n).
Proof using one_wave.
  intros m m' H [[q c] x] Hw. rewrite reduce_writes in Hw. apply in_range_true in Hw as (-> & -> & Hx). cbn [value reduce_work].
  rewrite (H (r, Dest, x)), (H (r, Work, x - lo)); [done| |]; rewrite reduce_reads; apply orb_true_iff; [right|left];
    apply in_range_true; repeat split; lia.
Qed.

Lemma tile_other r q begin tile m p c x : (c = Source \/ p <> r) ->
  performs (concat (combine_tile r q begin tile)) m (p, c, x) = m (p, c, x).
Proof using one_wave.
  intros Hne. apply performs_kept. intros a Ha. destruct tile as [offset n]. rewrite one_wave_tile in Ha. cbn [concat app] in Ha.
  rewrite !elem_of_cons, elem_of_nil in Ha.
  destruct Ha as [->|[->|[]]]; rewrite ?reduce_writes; cbn [writes copy]; apply in_range_false;
    intros (Hp & Hc & _); destruct Hne; congruence.
Qed.

Lemma tile_result r q begin offset n m y : q <> r ->
  performs (concat (combine_tile r q begin (offset, n))) m (r, Dest, begin + y) =
  if (offset <=? y) && (y <? offset + n) then Calc (m (q, Dest, begin + y)) (m (r, Dest, begin + y)) else m (r, Dest, begin + y).
Proof using one_wave.
  intros Hne. rewrite one_wave_tile. unfold performs. cbn [concat app foldl]. unfold perform at 1. rewrite reduce_writes.
  assert (Hcopy : forall x, perform (copy q Dest (begin + offset) r Work 0 n) m (r, Dest, x) = m (r, Dest, x)).
  { intros x. unfold perform. cbn [writes copy]. destruct (in_range r Work 0 n (r, Dest, x)) eqn:E; [|done].
    by apply in_range_true in E as (_ & ? & _). }
  destruct ((offset <=? y) && (y <? offset + n)) eqn:E.
  - rewrite (proj2 (in_range_true r Dest (begin + offset) n r Dest (begin + y))) by (repeat split; lia). cbn [value reduce_work].
    rewrite Hcopy. f_equal. unfold perform. cbn [writes copy].
    rewrite (proj2 (in_range_true r Work 0 n r Work (begin + y - (begin + offset)))) by (repeat split; lia). cbn. do 2 f_equal. lia.
  - rewrite (proj2 (in_range_false r Dest (begin + offset) n r Dest (begin + y))) by lia. apply Hcopy.
Qed.

(** ** Combining a segment *)

Hypothesis tile_pos : 0 < tile_elems.

(** The operations of a list of tiles or nodes, one after the other. *)
Lemma performs_batches {A} (f : A -> list (list action)) x l m :
  performs (concat ((x :: l) ≫= f)) m = performs (concat (l ≫= f)) (performs (concat (f x)) m).
Proof using. change ((x :: l) ≫= f) with (f x ++ (l ≫= f)). by rewrite concat_app, performs_app. Qed.

Lemma node_other r q begin count m p c x : (c = Source \/ p <> r) ->
  performs (concat (combine_node r q begin count)) m (p, c, x) = m (p, c, x).
Proof using one_wave.
  intros Hne. unfold combine_node. generalize (rounds count tile_elems) as l. intros l. revert m.
  induction l as [|tile l IH]; intros m; [done|]. rewrite performs_batches, IH. by apply tile_other.
Qed.

(** All tiles of a segment together combine every element of it once. *)
Lemma node_result r q begin count m y : q <> r -> 0 <= y < count ->
  performs (concat (combine_node r q begin count)) m (r, Dest, begin + y) = Calc (m (q, Dest, begin + y)) (m (r, Dest, begin + y)).
Proof using one_wave tile_pos.
  intros Hne Hy. unfold combine_node, rounds.
  assert (Hgen : forall k a m, 0 <= k -> 0 <= a ->
    performs (concat (pieces count tile_elems (seqZ a k) ≫= combine_tile r q begin)) m (r, Dest, begin + y) =
    if (a * tile_elems <=? y) && (y <? (a + k) * tile_elems)
    then Calc (m (q, Dest, begin + y)) (m (r, Dest, begin + y)) else m (r, Dest, begin + y)).
  { intros k a m' Hk. revert a m'. pattern k. apply natlike_ind; [| |done]; clear k Hk.
    - intros a m' Ha. rewrite seqZ_nil by lia. case_if; [nia|done].
    - intros k Hk IH a m' Ha. rewrite seqZ_cons, Z.pred_succ by lia. cbn [pieces].
      destruct (count <=? a * tile_elems) eqn:Ec; [rewrite (proj2 (Z.leb_gt _ y)) by lia; done|].
      rewrite performs_batches, IH by lia. rewrite !tile_result by done. rewrite !tile_other by auto.
      repeat case_if; try done; exfalso; nia. }
  pose proof (ceil_div_cover count tile_elems ltac:(lia) tile_pos). pose proof (ceil_div_pos count tile_elems ltac:(lia) tile_pos).
  rewrite Hgen by lia. case_if; [done|]. nia.
Qed.

(** ** Teams of whole nodes *)

Context (L : Z).
Hypothesis L_pos : 0 < L.
Hypothesis stride_one : stride t = 1.
Hypothesis start_aligned : pe_start t mod L = 0.
Hypothesis whole_nodes : pe_size t mod L = 0.
Hypothesis node_size : forall r, is_agent (pe_size t) r -> ipc_shm_size e (pe_of t r) = L.
Hypothesis node_first : forall r, is_agent (pe_size t) r -> ipc_first_pe e (pe_of t r) = pe_of t r / L * L.
Hypothesis slots : forall r, is_agent (pe_size t) r -> shm_rank (pe_of t r) = pe_of t r - ipc_first_pe e (pe_of t r).
Hypothesis sz_pos : 0 < sz.
Hypothesis nelems_pos : 0 < nelems.

Definition NP : Z := Z.min L (ceil_div (nelems * sz) MIN_BYTES_PER_PROXY).
Definition CH : Z := ceil_div nelems NP.
Definition seg_len (s : Z) : Z := Z.min CH (nelems - s * CH).

Lemma NP_pos : 0 < NP.
Proof using L_pos sz_pos nelems_pos.
  unfold NP. pose proof (ceil_div_pos (nelems * sz) MIN_BYTES_PER_PROXY ltac:(nia) ltac:(unfold MIN_BYTES_PER_PROXY; lia)). lia.
Qed.

Lemma CH_pos : 0 < CH.
Proof using L_pos sz_pos nelems_pos. apply ceil_div_pos; [done|apply NP_pos]. Qed.

Lemma ar_proxies_eq r : is_agent (pe_size t) r -> ar_proxies r = NP.
Proof using node_size. intros Hr. unfold ar_proxies, local_size. by rewrite node_size. Qed.

Lemma seg_eq r s : is_agent (pe_size t) r -> seg_begin r s = s * CH /\ seg_count r s = seg_len s.
Proof using node_size. intros Hr. unfold seg_count, seg_begin, ar_chunk. by rewrite ar_proxies_eq. Qed.

Lemma slot_of_eq r : is_agent (pe_size t) r -> slot_of r = r mod L.
Proof using L_pos stride_one start_aligned node_first slots.
  intros Hr. unfold slot_of. rewrite slots by done. by apply (local_slot_eq e t L).
Qed.

Lemma first_node_eq r : is_agent (pe_size t) r -> first_node r = (r / L =? 0).
Proof using L_pos stride_one start_aligned node_first.
  intros Hr. unfold first_node. rewrite (node_first_eq e t L) by done. apply eq_true_iff_eq. rewrite !Z.eqb_eq.
  unfold is_agent in Hr. pose proof (Z.div_pos r L). nia.
Qed.

Lemma local_peer_eq r s : is_agent (pe_size t) r -> local_peer r s = slot_pe L r s.
Proof using L_pos stride_one start_aligned node_first.
  intros Hr. unfold local_peer, rank_of, slot_pe. rewrite (node_first_eq e t L) by done. lia.
Qed.

Notation A := internal_proxy_allreduce.

(** The element-wise operations in terms of the layout. *)
Definition node_reduce (r s : Z) : action := fused_ipc_reduce r (s * CH) (seg_len s).

Definition ar_others (r : Z) : list Z := filter (fun s => s <> r mod L) (seqZ 0 NP).

Lemma ar_acts_0 r : is_agent (pe_size t) r -> acts A r 0 = if r mod L <? NP then [node_reduce r (r mod L)] else [].
Proof using L_pos stride_one start_aligned node_first slots node_size.
  intros Hr. unfold acts, internal_proxy_allreduce. cbn -[blocking]. rewrite slot_of_eq, ar_proxies_eq by done.
  destruct (seg_eq r (r mod L) Hr) as [-> ->]. by case_if.
Qed.

Lemma ar_acts_1 r : is_agent (pe_size t) r ->
  acts A r 1 = if (r / L =? 0) && (r mod L <? NP) then concat (combine_nodes r (r mod L * CH) (seg_len (r mod L))) else [].
Proof using L_pos stride_one start_aligned node_first slots node_size.
  intros Hr. unfold acts, internal_proxy_allreduce. cbn -[blocking]. rewrite slot_of_eq, ar_proxies_eq, first_node_eq by done.
  destruct (seg_eq r (r mod L) Hr) as [-> ->]. by case_if.
Qed.

Lemma seg_copy_eq r s q : is_agent (pe_size t) r -> seg_copy r s q = copy q Dest (s * CH) r Dest (s * CH) (seg_len s).
Proof using node_size. intros Hr. unfold seg_copy. by destruct (seg_eq r s Hr) as [-> ->]. Qed.

Lemma ar_acts_2 r : is_agent (pe_size t) r -> acts A r 2 =
  if negb (r / L =? 0) && (r mod L <? NP) then [copy (r mod L) Dest (r mod L * CH) r Dest (r mod L * CH) (seg_len (r mod L))] else [].
Proof using L_pos stride_one start_aligned node_first slots node_size.
  intros Hr. unfold acts, internal_proxy_allreduce. cbn -[blocking]. rewrite slot_of_eq, ar_proxies_eq, first_node_eq by done.
  rewrite seg_copy_eq by done. by case_if.
Qed.

Lemma ar_acts_3 r : is_agent (pe_size t) r ->
  acts A r 3 = (fun s => copy (slot_pe L r s) Dest (s * CH) r Dest (s * CH) (seg_len s)) <$> ar_others r.
Proof using L_pos stride_one start_aligned node_first slots node_size.
  intros Hr. unfold acts, internal_proxy_allreduce. cbn -[blocking]. rewrite concat_blocking, slot_of_eq, ar_proxies_eq by done.
  apply list_fmap_ext. intros i s _. by rewrite seg_copy_eq, local_peer_eq.
Qed.

Lemma ar_others_spec r s : s ∈ ar_others r <-> 0 <= s < NP /\ s <> r mod L.
Proof using. unfold ar_others. rewrite list_elem_of_filter, elem_of_seqZ. split; intros; lia. Qed.

Lemma ar_slot r : 0 <= r mod L < L.
Proof using L_pos. by apply Z.mod_pos_bound. Qed.

Lemma combine_elem r begin count a : a ∈ concat (combine_nodes r begin count) -> exists node offset n, 1 <= node /\
  (a = copy (node * local_size r + slot_of r) Dest (begin + offset) r Work 0 n \/ a = reduce_work first_wave r (begin + offset) n).
Proof using one_wave.
  intros (b & Hb & Ha)%list_elem_of_In%in_concat. apply list_elem_of_In in Hb, Ha.
  apply list_elem_of_bind in Hb as (node & Hb & Hnode%elem_of_seqZ). apply list_elem_of_bind in Hb as ([offset n] & Hb & _).
  rewrite one_wave_tile, !elem_of_cons, elem_of_nil in Hb. exists node, offset, n. split; [lia|].
  destruct Hb as [->|[->|[]]]; apply list_elem_of_singleton in Ha; auto.
Qed.

Lemma combine_apart r begin count : batches_apart (combine_nodes r begin count).
Proof using one_wave.
  apply Forall_forall. intros b (node & Hb & _)%list_elem_of_bind. apply list_elem_of_bind in Hb as ([offset n] & Hb & _).
  rewrite one_wave_tile, !elem_of_cons, elem_of_nil in Hb.
  destruct Hb as [->|[->|[]]]; intros [|i] [|j] c c' Hij Hi Hj; try lia; by cbn in *.
Qed.

(** What the operations of a stage write and read. *)
Lemma combine_foot r s a q c x : is_agent (pe_size t) r -> r / L = 0 -> s = r mod L ->
  a ∈ concat (combine_nodes r (s * CH) (seg_len s)) ->
  (writes a (q, c, x) = true -> q = r /\ c <> Source) /\ (reads a (q, c, x) = true -> q = r \/ q / L <> 0).
Proof using L_pos stride_one start_aligned node_first slots node_size one_wave.
  intros Hr H0 -> (node & offset & n & Hnode & Ha)%combine_elem. pose proof (ar_slot r).
  unfold local_size in Ha. rewrite node_size, slot_of_eq in Ha by done.
  destruct Ha as [->| ->]; rewrite ?reduce_writes, ?reduce_reads; cbn [writes reads copy]; rewrite ?orb_true_iff, !in_range_true.
  - split; [by intros (-> & -> & _)|]. intros (-> & _). right. rewrite Z.div_add_l, (Z.div_small (r mod L)) by lia. lia.
  - split; [by intros (-> & -> & _)|]. intros [(-> & _)|(-> & _)]; by left.
Qed.

Lemma fused_reads r begin count q c x : reads (fused_ipc_reduce r begin count) (q, c, x) = true -> c = Source.
Proof using.
  cbn -[in_range]. intros [(s & _ & (_ & -> & _)%in_range_true)%existsb_exists|(_ & -> & _)%in_range_true]%orb_true_iff; done.
Qed.

Lemma fused_local r begin count : local (fused_ipc_reduce r begin count).
Proof using.
  intros m m' H [[q c] x] (-> & -> & Hx)%in_range_true. cbn [value fused_ipc_reduce].
  assert (Hl : forall l acc acc', (forall s, s ∈ l -> s ∈ seqZ 0 (local_size r)) -> acc = acc' ->
    foldl (fun acc slot => if slot =? slot_of r then acc else Calc (m (local_peer r slot, Source, x)) acc) acc l =
    foldl (fun acc slot => if slot =? slot_of r then acc else Calc (m' (local_peer r slot, Source, x)) acc) acc' l).
  { intros l. induction l as [|s l IH]; intros acc acc' Hin ->; [done|]. cbn. apply IH; [intros s' Hs'; apply Hin; by right|].
    case_if; [done|]. rewrite H; [done|]. cbn -[in_range]. apply orb_true_iff. left. apply existsb_exists. exists s.
    split; [apply list_elem_of_In, Hin; by left|]. apply in_range_true. repeat split; lia. }
  apply Hl; [done|]. apply H. cbn -[in_range]. apply orb_true_iff. right. apply in_range_true. repeat split; lia.
Qed.

(** Segments of different slots. *)
Lemma segs_apart s s' : 0 <= s -> 0 <= s' -> s <> s' -> s * CH + seg_len s <= s' * CH \/ s' * CH + seg_len s' <= s * CH.
Proof using L_pos sz_pos nelems_pos. intros H H' Hne. pose proof CH_pos. unfold seg_len. nia. Qed.

Lemma ar_local r k a : is_agent (pe_size t) r -> a ∈ acts A r k -> local a.
Proof using L_pos stride_one start_aligned node_first slots node_size one_wave.
  intros Hr. destruct k as [|[|[|[|k]]]]; [rewrite ar_acts_0 by done|rewrite ar_acts_1 by done|rewrite ar_acts_2 by done|
    rewrite ar_acts_3 by done|by intros ?%elem_of_nil].
  - case_if; [|by intros ?%elem_of_nil]. intros ->%list_elem_of_singleton. apply fused_local.
  - case_if; [|by intros ?%elem_of_nil]. intros (node & offset & n & _ & [->| ->])%combine_elem; [apply copy_local|apply reduce_work_local].
  - case_if; [|by intros ?%elem_of_nil]. intros ->%list_elem_of_singleton. apply copy_local.
  - intros (s & -> & _)%list_elem_of_fmap. apply copy_local.
Qed.

Lemma ar_cross_3 p q s s' : is_agent (pe_size t) p -> is_agent (pe_size t) q -> p <> q -> s ∈ ar_others p -> s' ∈ ar_others q ->
  no_clash (T := T) (copy (slot_pe L p s) Dest (s * CH) p Dest (s * CH) (seg_len s))
    (copy (slot_pe L q s') Dest (s' * CH) q Dest (s' * CH) (seg_len s')).
Proof using L_pos whole_nodes sz_pos nelems_pos.
  intros Hp Hq Hne Hs%ar_others_spec Hs'%ar_others_spec. assert (HP : NP <= L) by (unfold NP; lia).
  destruct (slot_pe_ok t L L_pos whole_nodes p s Hp ltac:(lia)) as (_ & _ & Em).
  destruct (slot_pe_ok t L L_pos whole_nodes q s' Hq ltac:(lia)) as (_ & _ & Em').
  apply copy_apart; [by left| |].
  - destruct (decide (p = slot_pe L q s')) as [E|]; [|by left]. do 2 right. destruct (segs_apart s s'); try lia.
    rewrite E, Em' in Hs. lia.
  - destruct (decide (slot_pe L p s = q)) as [E|]; [|by left]. do 2 right. destruct (segs_apart s s'); try lia.
    rewrite <- E, Em in Hs'. lia.
Qed.

Lemma ar_staged : well_staged (pe_size t) A 4.
Proof using L_pos stride_one start_aligned node_first slots node_size one_wave whole_nodes sz_pos nelems_pos.
  split.
  - done.
  - intros p k a Hp. by apply ar_local.
  - intros p q k a a' Hp Hq Hne. destruct k as [|[|[|[|k]]]]; [rewrite !ar_acts_0 by done|rewrite !ar_acts_1 by done|
      rewrite !ar_acts_2 by done|rewrite !ar_acts_3 by done|by intros ?%elem_of_nil].
    + case_if; [|by intros ?%elem_of_nil]. intros ->%list_elem_of_singleton. case_if; [|by intros ?%elem_of_nil].
      intros ->%list_elem_of_singleton. apply no_clash_intro; intros [[r c] x].
      * intros (-> & _)%in_range_true (? & _)%in_range_true. congruence.
      * intros (_ & -> & _)%in_range_true Hrd%fused_reads. congruence.
      * intros Hrd%fused_reads (_ & -> & _)%in_range_true. congruence.
    + destruct ((p / L =? 0) && _) eqn:Ep; [|by intros ?%elem_of_nil]. intros Ha.
      destruct ((q / L =? 0) && _) eqn:Eq; [|by intros ?%elem_of_nil]. intros Ha'. apply no_clash_intro; intros [[r c] x];
        destruct (combine_foot p (p mod L) a r c x Hp ltac:(lia) eq_refl Ha) as [Hw Hrd];
        destruct (combine_foot q (q mod L) a' r c x Hq ltac:(lia) eq_refl Ha') as [Hw' Hrd'].
      * intros [-> _]%Hw [? _]%Hw'. congruence.
      * intros [-> _]%Hw [?|?]%Hrd'; [congruence|lia].
      * intros [->|?]%Hrd [? _]%Hw'; [congruence|]. subst r. lia.
    + destruct (negb (p / L =? 0) && _) eqn:Ep; [|by intros ?%elem_of_nil]. intros ->%list_elem_of_singleton.
      destruct (negb (q / L =? 0) && _) eqn:Eq; [|by intros ?%elem_of_nil]. intros ->%list_elem_of_singleton.
      pose proof (ar_slot p). pose proof (ar_slot q).
      apply copy_apart; [by left| |]; left; intros E; [rewrite E, Z.div_small in Ep|rewrite <- E, Z.div_small in Eq]; lia.
    + intros (s & -> & Hs)%list_elem_of_fmap (s' & -> & Hs')%list_elem_of_fmap. by apply ar_cross_3.
  - intros p k Hp. destruct k as [|[|[|[|k]]]]; cbn -[blocking].
    + case_if; [apply blocking_apart|constructor].
    + case_if; [apply combine_apart|constructor].
    + case_if; [apply blocking_apart|constructor].
    + apply blocking_apart.
    + constructor.
Qed.

(** ** Result *)

Context (m : loc -> T).
Notation mem k := (after (pe_size t) (program A) m k).

(** The reduction over node [v], starting with the element of slot [s]. *)
Definition node_part (v s x : Z) : T :=
  foldl (fun acc slot => if slot =? s then acc else Calc (m (v * L + slot, Source, x)) acc) (m (v * L + s, Source, x)) (seqZ 0 L).

Definition all_nodes : list Z := seqZ 1 (pe_size t / L - 1).

(** The reduction over all nodes of an element in the segment of slot [s]. *)
Definition total (s x : Z) : T := foldl (fun acc v => Calc (node_part v s x) acc) (node_part 0 s x) all_nodes.

Definition in_seg (s x : Z) : Prop := s * CH <= x < s * CH + seg_len s.

Lemma ar_after_0 q x : is_agent (pe_size t) q -> q mod L < NP -> in_seg (q mod L) x ->
  mem 1 (q, Dest, x) = node_part (q / L) (q mod L) x.
Proof using L_pos stride_one start_aligned node_first slots node_size one_wave whole_nodes sz_pos nelems_pos.
  intros Hq Hs Hx. pose proof (ar_acts_0 q Hq) as Hacts. rewrite (proj2 (Z.ltb_lt _ _) Hs) in Hacts. unfold in_seg in Hx.
  rewrite (after_alone (pe_size t) A 4 m ar_staged 0 q 0 (node_reduce q (q mod L)) _ Hq ltac:(by rewrite Hacts)).
  - cbn [value node_reduce fused_ipc_reduce after]. unfold node_part. rewrite slot_of_eq by done. unfold local_size. rewrite node_size by done.
    replace (q / L * L + q mod L) with q by (pose proof (Z.div_mod q L); lia).
    assert (Hl : forall l acc, foldl (fun acc slot => if slot =? q mod L then acc else Calc (m (local_peer q slot, Source, x)) acc) acc l =
      foldl (fun acc slot => if slot =? q mod L then acc else Calc (m (q / L * L + slot, Source, x)) acc) acc l); [|apply Hl].
    intros l. induction l as [|s l IH]; intros acc; [done|]. cbn. rewrite local_peer_eq by done. apply IH.
  - cbn [writes node_reduce fused_ipc_reduce]. apply in_range_true. repeat split; lia.
  - rewrite Hacts. by intros [|j] c Hj Hne.
Qed.

(** Combining the nodes one after the other. *)
Lemma combine_nodes_result r s m' y : is_agent (pe_size t) r -> r / L = 0 -> s = r mod L -> 0 <= y < seg_len s ->
  performs (concat (combine_nodes r (s * CH) (seg_len s))) m' (r, Dest, s * CH + y) =
  foldl (fun acc v => Calc (m' (v * L + s, Dest, s * CH + y)) acc) (m' (r, Dest, s * CH + y)) all_nodes.
Proof using L_pos stride_one start_aligned node_first slots node_size one_wave tile_pos.
  intros Hr H0 -> Hy. unfold combine_nodes, node_count, local_size, all_nodes. rewrite node_size, slot_of_eq by done.
  pose proof (ar_slot r) as Hs.
  assert (Hgen : forall l m', (forall v, v ∈ l -> 1 <= v) ->
    performs (concat (l ≫= fun node => combine_node r (node * L + r mod L) (r mod L * CH) (seg_len (r mod L)))) m' (r, Dest, r mod L * CH + y) =
    foldl (fun acc v => Calc (m' (v * L + r mod L, Dest, r mod L * CH + y)) acc) (m' (r, Dest, r mod L * CH + y)) l).
  2:{ apply Hgen. intros v Hv%elem_of_seqZ. lia. }
  assert (Hne : forall v, 1 <= v -> v * L + r mod L <> r).
  { intros v Hv E. assert (r / L = v) by (rewrite <- E; rewrite Z.div_add_l, (Z.div_small (r mod L)) by lia; lia). lia. }
  intros l. induction l as [|v l IH]; intros m1 Hl; [done|].
  rewrite performs_batches, IH by (intros v' Hv'; apply Hl; by right).
  rewrite node_result by (done || apply Hne, Hl; by left). cbn [foldl].
  assert (Hl' : forall l acc, (forall v', v' ∈ l -> 1 <= v') ->
    foldl (fun acc v' => Calc (performs (concat (combine_node r (v * L + r mod L) (r mod L * CH) (seg_len (r mod L)))) m1
      (v' * L + r mod L, Dest, r mod L * CH + y)) acc) acc l =
    foldl (fun acc v' => Calc (m1 (v' * L + r mod L, Dest, r mod L * CH + y)) acc) acc l).
  { intros l'. induction l' as [|v' l' IH']; intros acc Hin; [done|]. cbn [foldl].
    rewrite node_other by (right; apply Hne, Hin; by left). apply IH'. intros v'' Hv''. apply Hin. by right. }
  apply Hl'. intros v' Hv'. apply Hl. by right.
Qed.

Lemma ar_after_1 q x : is_agent (pe_size t) q -> q mod L < NP -> in_seg (q mod L) x ->
  mem 2 (q, Dest, x) = if q / L =? 0 then total (q mod L) x else node_part (q / L) (q mod L) x.
Proof using L_pos stride_one start_aligned node_first slots node_size one_wave whole_nodes sz_pos nelems_pos tile_pos.
  intros Hq Hs Hx. pose proof (ar_slot q) as Hsl.
  rewrite (after_mine (pe_size t) A 4 m ar_staged 1 q (q, Dest, x) Hq).
  2:{ intros p a Hp Hne. rewrite ar_acts_1 by done. destruct ((p / L =? 0) && _) eqn:Ep; [|by intros ?%elem_of_nil]. intros Ha.
      apply not_true_is_false. destruct (combine_foot p (p mod L) a q Dest x Hp ltac:(lia) eq_refl Ha) as [Hw _].
      intros [E _]%Hw. congruence. }
  rewrite ar_acts_1 by done. destruct (Z.eqb_spec (q / L) 0) as [H0|H0]; [|by rewrite <- ar_after_0].
  rewrite (proj2 (Z.ltb_lt _ _) Hs). cbn [andb]. unfold in_seg in Hx.
  replace x with (q mod L * CH + (x - q mod L * CH)) by lia. rewrite combine_nodes_result by (done || lia). unfold total.
  replace (q mod L * CH + (x - q mod L * CH)) with x by lia. rewrite ar_after_0, H0 by done.
  assert (Hl : forall l acc, (forall v, v ∈ l -> v ∈ all_nodes) ->
    foldl (fun acc v => Calc (mem 1 (v * L + q mod L, Dest, x)) acc) acc l = foldl (fun acc v => Calc (node_part v (q mod L) x) acc) acc l);
    [|by apply Hl].
  intros l. induction l as [|v l IH]; intros acc Hin; [done|]. cbn [foldl]. rewrite IH by (intros v' Hv'; apply Hin; by right).
  assert (v ∈ all_nodes) as Hv%elem_of_seqZ by (apply Hin; by left).
  assert (Ed : (v * L + q mod L) / L = v) by (rewrite Z.div_add_l, (Z.div_small (q mod L)) by lia; lia).
  assert (Em : (v * L + q mod L) mod L = q mod L) by (rewrite Z.add_comm, Z.mod_add, Z.mod_mod by lia; done).
  rewrite ar_after_0; rewrite ?Em, ?Ed; try done. unfold is_agent.
  pose proof (Z.div_mod (pe_size t) L ltac:(lia)) as Hn. rewrite whole_nodes in Hn. nia.
Qed.

Lemma ar_after_2 q x : is_agent (pe_size t) q -> q mod L < NP -> in_seg (q mod L) x -> mem 3 (q, Dest, x) = total (q mod L) x.
Proof using L_pos stride_one start_aligned node_first slots node_size one_wave whole_nodes sz_pos nelems_pos tile_pos.
  intros Hq Hs Hx. pose proof (ar_slot q) as Hsl. pose proof (ar_acts_2 q Hq) as Hacts.
  destruct (Z.eqb_spec (q / L) 0) as [H0|H0]; cbn [negb andb] in Hacts.
  - rewrite after_kept; [by rewrite ar_after_1, H0|]. intros p a Hp. rewrite ar_acts_2 by done.
    destruct (negb (p / L =? 0) && _) eqn:Ep; [|by intros ?%elem_of_nil]. intros ->%list_elem_of_singleton.
    cbn [writes copy]. apply in_range_false. intros (-> & _ & _). lia.
  - rewrite (proj2 (Z.ltb_lt _ _) Hs) in Hacts. unfold in_seg in Hx.
    rewrite (after_alone (pe_size t) A 4 m ar_staged 2 q 0 _ _ Hq ltac:(by rewrite Hacts)).
    + cbn [value copy]. replace (q mod L * CH + (x - q mod L * CH)) with x by lia.
      assert (Em : (q mod L) mod L = q mod L) by (apply Z.mod_small; lia).
      rewrite ar_after_1; rewrite ?Em; try done; [by rewrite (Z.div_small (q mod L)) by lia|].
      unfold is_agent in *. pose proof (Z.div_mod q L). pose proof (Z.div_pos q L). nia.
    + cbn [writes copy]. apply in_range_true. repeat split; lia.
    + rewrite Hacts. by intros [|j] c Hj Hne.
Qed.

Lemma elem_seg x : 0 <= x < nelems -> 0 <= x / CH < NP /\ in_seg (x / CH) x.
Proof using L_pos sz_pos nelems_pos.
  intros Hx. pose proof CH_pos. pose proof NP_pos. pose proof (ceil_div_cover nelems NP ltac:(lia) ltac:(done)) as Hcov.
  fold CH in Hcov. pose proof (Z.div_mod x CH ltac:(lia)). pose proof (Z.mod_pos_bound x CH ltac:(done)).
  pose proof (Z.div_pos x CH ltac:(lia) ltac:(lia)). unfold in_seg, seg_len. split; [split; [done|]|nia].
  apply Z.div_lt_upper_bound; lia.
Qed.

(** Every PE ends with the reduction of every element. *)
Lemma ar_result r x : is_agent (pe_size t) r -> 0 <= x < nelems -> mem 4 (r, Dest, x) = total (x / CH) x.
Proof using L_pos stride_one start_aligned node_first slots node_size one_wave whole_nodes sz_pos nelems_pos tile_pos.
  intros Hr Hx. destruct (elem_seg x Hx) as [Hs Hin]. set (s := x / CH) in *. pose proof (ar_slot r). pose proof CH_pos.
  assert (HP : NP <= L) by (unfold NP; lia). destruct (decide (s = r mod L)) as [E|Hne].
  - rewrite after_kept; [rewrite E in *; apply ar_after_2; try done; lia|]. intros p a Hp. rewrite ar_acts_3 by done.
    intros (s' & -> & Hs'%ar_others_spec)%list_elem_of_fmap. cbn [writes copy]. apply in_range_false. intros (-> & _ & Hr').
    unfold in_seg in Hin. destruct (segs_apart s s'); lia.
  - assert (Hso : s ∈ ar_others r) by (apply ar_others_spec; lia). apply list_elem_of_lookup in Hso as [i Hi]. unfold in_seg in Hin.
    rewrite (after_alone (pe_size t) A 4 m ar_staged 3 r i (copy (slot_pe L r s) Dest (s * CH) r Dest (s * CH) (seg_len s)) _ Hr).
    + cbn [value copy]. destruct (slot_pe_ok t L L_pos whole_nodes r s Hr ltac:(lia)) as (Hp & Ed & Em).
      replace (s * CH + (x - s * CH)) with x by lia. pose proof (ar_after_2 (slot_pe L r s) x Hp) as H2.
      rewrite Em in H2. apply H2; [lia|done].
    + by rewrite ar_acts_3, list_lookup_fmap, Hi.
    + cbn [writes copy]. apply in_range_true. repeat split; lia.
    + intros j c Hj Hji. rewrite ar_acts_3, list_lookup_fmap in Hj by done. destruct (ar_others r !! j) as [s'|] eqn:Ej; [|done].
      injection Hj as <-. assert (s' <> s).
      { intros ->. apply Hji. eapply NoDup_lookup; [|exact Ej|exact Hi]. unfold ar_others. apply NoDup_filter, NoDup_seqZ. }
      apply list_elem_of_lookup_2, ar_others_spec in Ej.
      destruct (slot_pe_ok t L L_pos whole_nodes r s Hr ltac:(lia)) as (_ & _ & Em).
      destruct (slot_pe_ok t L L_pos whole_nodes r s' Hr ltac:(lia)) as (_ & _ & Em').
      apply copy_apart; [do 2 right; destruct (segs_apart s' s); lia|left; intros E; rewrite <- E in Em; lia|].
      left. intros E. rewrite E in Em'. lia.
Qed.

(** No transfer is given a negative length as long as every PE of a node can have an
    element per slot. *)
Lemma seg_len_nonneg s : L * L <= nelems -> 0 <= s < NP -> 0 <= seg_len s.
Proof using L_pos sz_pos nelems_pos.
  intros Hfit Hs. pose proof CH_pos. pose proof NP_pos. assert (NP <= L) by (unfold NP; lia).
  assert (CH * NP < nelems + NP).
  { unfold CH, ceil_div. pose proof (Z.div_mod (nelems + NP - 1) NP ltac:(lia)). pose proof (Z.mod_pos_bound (nelems + NP - 1) NP ltac:(lia)). nia. }
  unfold seg_len. nia.
Qed.

(** ** Order of the operands *)

Hypothesis assoc : forall x y z, Calc x (Calc y z) = Calc (Calc x y) z.
Hypothesis comm : forall x y, Calc x y = Calc y x.

(** The reduction in order of rank. *)
Definition rank_reduction (x : Z) : option T := reduce_list Calc ((fun r => m (r, Source, x)) <$> seqZ 0 (pe_size t)).

Lemma foldl_skip (f : Z -> T) s l acc :
  foldl (fun acc i => if i =? s then acc else Calc (f i) acc) acc l = foldl Calc acc (f <$> filter (fun i => i <> s) l).
Proof using comm.
  revert acc. induction l as [|i l IH]; intros acc; [done|]. cbn [foldl]. rewrite IH. destruct (Z.eqb_spec i s) as [->|Hne].
  - by rewrite filter_cons_False by (intros H; done).
  - rewrite filter_cons_True by done. cbn. by rewrite (comm (f i) acc).
Qed.

(** The elements of a node, the one of slot [s] first. *)
Definition node_elems (v s x : Z) : list T :=
  m (v * L + s, Source, x) :: ((fun slot => m (v * L + slot, Source, x)) <$> filter (fun i => i <> s) (seqZ 0 L)).

Lemma node_part_reduce v s x : Some (node_part v s x) = reduce_list Calc (node_elems v s x).
Proof using comm. unfold node_part, node_elems. by rewrite (foldl_skip (fun slot => m (v * L + slot, Source, x))). Qed.

Lemma node_elems_perm v s x : 0 <= s < L -> node_elems v s x ≡ₚ (fun r => m (r, Source, x)) <$> seqZ (v * L) L.
Proof using.
  intros Hs. unfold node_elems. rewrite <- fmap_cons with (f := fun slot => m (v * L + slot, Source, x)) (x := s).
  assert (Hp : s :: filter (fun i => i <> s) (seqZ 0 L) ≡ₚ seqZ 0 L).
  { apply NoDup_Permutation; [constructor; [|apply NoDup_filter, NoDup_seqZ]|apply NoDup_seqZ|].
    - by intros [? _]%list_elem_of_filter.
    - intros i. rewrite elem_of_cons, list_elem_of_filter, elem_of_seqZ. destruct (decide (i = s)); lia. }
  rewrite (fmap_Permutation _ _ _ Hp). replace (seqZ (v * L) L) with (Z.add (v * L) <$> seqZ 0 L).
  - by rewrite <- list_fmap_compose.
  - unfold seqZ. rewrite <- list_fmap_compose. apply list_fmap_ext. intros i x' _. cbn. lia.
Qed.

Lemma reduce_app l l' : reduce_list Calc (l ++ l') =
  match reduce_list Calc l, reduce_list Calc l' with Some x, Some y => Some (Calc x y) | None, r => r | r, None => r end.
Proof using assoc.
  destruct l as [|x l]; [by destruct l'|]. cbn. rewrite foldl_app, (foldl_reduce Calc assoc _ l').
  by destruct (reduce_list Calc l').
Qed.

(** For an associative and commutative operation the result is the reduction over all
    PEs in order of rank. *)
Lemma total_reduction s x : 0 <= s < L -> 0 < pe_size t -> Some (total s x) = rank_reduction x.
Proof using assoc comm L_pos whole_nodes.
  intros Hs Hn. unfold total, rank_reduction, all_nodes.
  assert (HN : pe_size t = pe_size t / L * L) by (pose proof (Z.div_mod (pe_size t) L ltac:(lia)); lia).
  set (N := pe_size t / L) in *. assert (1 <= N) by nia. rewrite HN.
  assert (Hgen : forall k, 0 <= k -> Some (foldl (fun acc v => Calc (node_part v s x) acc) (node_part 0 s x) (seqZ 1 k)) =
    reduce_list Calc ((fun r => m (r, Source, x)) <$> seqZ 0 ((1 + k) * L))).
  2:{ rewrite Hgen by lia. by replace (1 + (N - 1)) with N by lia. }
  intros k Hk. pattern k. apply natlike_ind; [| |done]; clear k Hk.
  - rewrite (seqZ_nil 1 0) by lia. cbn [foldl]. rewrite node_part_reduce. rewrite (reduce_perm Calc assoc comm _ _ (node_elems_perm 0 s x Hs)).
    by rewrite Z.add_0_r, Z.mul_1_l, Z.mul_0_l.
  - intros k Hk IH. rewrite <- (Z.add_1_r k), seqZ_app, foldl_app by lia. replace ((1 + (k + 1)) * L) with ((1 + k) * L + L) by lia.
    rewrite seqZ_app, fmap_app, reduce_app, <- IH by nia. rewrite Z.add_0_l.
    rewrite <- (reduce_perm Calc assoc comm _ _ (node_elems_perm (1 + k) s x Hs)), <- node_part_reduce.
    rewrite (seqZ_cons (1 + k) 1), (seqZ_nil _ (Z.pred 1)) by lia. cbn [foldl]. by rewrite comm.
Qed.

End proxy_allreduce.

(** ** Runs *)


(** 32768 elements of 8 bytes on two nodes of two PEs. *)
Definition ar_example : Z -> list (list (list (action (T := Z)))) :=
  internal_proxy_allreduce Z.add two_nodes four_pes (fun p => p mod 2) 8 32768 4096 64.


(** PE 1 stores its contribution before it calls the all-reduce. *)
Definition produce_and_reduce (r : Z) : list (list op) :=
  match program (internal_proxy_allreduce Z.add two_nodes four_pes (fun p => p mod 2) 8 4 4096 64) r with
  | ops :: rest => ((if r =? 1 then batch [produce 1 4 (fun _ => 7)] else []) ++ ops) :: rest
  | [] => []
  end.

(** A proxy of the hierarchical all-reduce reads the sources of the PEs of its node
    before any synchronisation: when a PE of the node has yet to store its
    contribution and to make the call, the result of every PE contains what the
    source held before. *)
Theorem proxy_allreduce_reads_early :
  let s := staged_drive 4 produce_and_reduce (fun _ => -1) ([(0, None); (0, Some 0%nat); (0, Some 0%nat)] ++ round_robin 4 40) (start numbered) in
  rtc (step 4 produce_and_reduce) (start numbered) s /\ (forall p, is_agent 4 p -> pc s p = Run 4 0) /\
  mem s (1, Source, 0) = 7 /\ mem s (3, Dest, 0) = 100 + 101 + 102 + 103.
Proof.
  cbv zeta. split.
  - apply staged_drive_rtc. apply Forall_app. split; [|apply round_robin_ok].
    repeat (constructor; [unfold is_agent; cbn; lia|]). constructor.
  - split; [|repeat split; vm_compute; reflexivity]. intros p Hp.
    assert (p = 0 \/ p = 1 \/ p = 2 \/ p = 3) as [->|[->|[->| ->]]] by (unfold is_agent in Hp; lia); vm_compute; reflexivity.
Qed.

(** The same message with work-groups of two wavefronts and the work area of the
    code, 1048576 elements. *)
Definition ar_two_waves : Z -> list (list (list (action (T := Z)))) :=
  internal_proxy_allreduce Z.add two_nodes four_pes (fun p => p mod 2) 8 32768 1048576 128.

(** After the first stage the second wavefront of PE 0 reduces before the get. *)
Definition two_waves_schedule : list (Z * option nat) :=
  round_robin 4 4 ++ [(0, None); (0, None); (0, Some 1%nat); (0, Some 1%nat)] ++ round_robin 4 60.

(** With work-groups of more than one wavefront the hierarchical all-reduce can
    give a wrong result: the second wavefront of the proxy on the first node reduces
    the work area before thread zero has fetched the partial of the other node, and
    every PE ends with the reduction over the first node alone. *)
Theorem proxy_allreduce_race :
  let s := staged_drive 4 (program ar_two_waves) (fun _ => -1) two_waves_schedule (start numbered) in
  use_proxy_allreduce two_nodes four_pes 8 32768 0 = true /\
  rtc (step 4 (program ar_two_waves)) (start numbered) s /\ (forall p, is_agent 4 p -> pc s p = Run 4 0) /\
  mem s (3, Dest, 0) = 100 + 101 + 102 + 103 /\ mem s (3, Dest, 64) = 100 + 101.
Proof.
  cbv zeta. split; [reflexivity|]. split.
  - apply staged_drive_rtc. unfold two_waves_schedule. rewrite !Forall_app. split; [apply round_robin_ok|].
    split; [|apply round_robin_ok]. repeat (constructor; [unfold is_agent; cbn; lia|]). constructor.
  - split; [|split; vm_compute; reflexivity]. intros p Hp.
    assert (p = 0 \/ p = 1 \/ p = 2 \/ p = 3) as [->|[->|[->| ->]]] by (unfold is_agent in Hp; lia); vm_compute; reflexivity.
Qed.
