(* ===== verification/Tile.v ===== *)
(** * Tiles

    Model of the tile operations between two PEs: the description and
    classification of a tile ([src/tile_layout.hpp]), the copy of a tile over mapped
    memory by a lane, a wavefront or a work-group ([src/tile_memcpy_device.hpp]),
    and the division of a tile into work requests for a network card with the
    waits that follow ([src/gda/context_gda_tmpl_device.hpp]).  An operation is the
    list of the transfers that each worker makes, and all of them are compared with
    one transfer per element of the tile.

    Addresses and sizes are [size_t]s.  Sums and products of [size_t]s are taken
    modulo [2^64] once, at the end of an expression, which gives the same value as
    after each operation.  The length of a work request is an [int32_t]. *)

From Stdlib Require Import ZArith Lia.
From stdpp Require Import base option numbers list.
From S2P Require Import Prelude Loops.

Open Scope Z_scope.

(** ** Description of a tile *)

Inductive TileLayout := Contiguous | RowContig | ColContig | Strided.

Inductive TileScope := Lane | Wave | Wg.

Record TileView := mkView {
  src_base : Z; dst_base : Z;
  ext0 : Z; ext1 : Z;
  src_s0 : Z; src_s1 : Z;
  dst_s0 : Z; dst_s1 : Z;
  element_size : Z;
  ndim : Z
}.

Definition tile_classify_2d (src_stride0 src_stride1 dst_stride0 dst_stride1 extent1 : Z) : TileLayout :=
  let row_contig := (src_stride1 =? 1) && (dst_stride1 =? 1) in
  let col_contig := (src_stride0 =? 1) && (dst_stride0 =? 1) in
  if row_contig && (src_stride0 =? extent1) && (dst_stride0 =? extent1) then Contiguous
  else if row_contig then RowContig
  else if col_contig then ColContig
  else Strided.

Definition tile_classify (v : TileView) : TileLayout :=
  if ndim v =? 2 then tile_classify_2d (src_s0 v) (src_s1 v) (dst_s0 v) (dst_s1 v) (ext1 v)
  else if (ndim v =? 1) && (src_s0 v =? 1) && (dst_s0 v =? 1) then Contiguous
  else Strided.

(** The arguments of the operations on tiles. *)
Record tile_args := mkTile {
  dst_strides : Z -> Z; src_strides : Z -> Z;
  start_coord : Z -> Z; boundary : Z -> Z;
  rank : Z; elem_size : Z
}.

Definition tile_make_view (dst_data src_data : Z) (a : tile_args) (apply_start_to_dst : bool) : TileView :=
  let es := elem_size a in
  if rank a =? 2 then
    let src_off := (start_coord a 0 * src_strides a 0 + start_coord a 1 * src_strides a 1) * es in
    let dst_off := (start_coord a 0 * dst_strides a 0 + start_coord a 1 * dst_strides a 1) * es in
    mkView (if apply_start_to_dst then src_data else u64 (src_data + src_off))
      (if apply_start_to_dst then u64 (dst_data + dst_off) else dst_data)
      (u64 (boundary a 0 - start_coord a 0)) (u64 (boundary a 1 - start_coord a 1))
      (src_strides a 0) (src_strides a 1) (dst_strides a 0) (dst_strides a 1) es 2
  else if rank a =? 1 then
    mkView (if apply_start_to_dst then src_data else u64 (src_data + start_coord a 0 * src_strides a 0 * es))
      (if apply_start_to_dst then u64 (dst_data + start_coord a 0 * dst_strides a 0 * es) else dst_data)
      (u64 (boundary a 0 - start_coord a 0)) 0
      (src_strides a 0) 0 (dst_strides a 0) 0 es 1
  else mkView src_data dst_data 0 0 0 0 0 0 es (rank a).

(** ** Transfers *)

(** Destination, source and number of bytes. *)
Definition xfer : Type := Z * Z * Z.

Definition WF_SIZE : Z := 64.

(** The moves of one [memcpy_lane]. *)
Definition lane_copy (dst src size : Z) : list xfer :=
  (fun '(o, n) => (u64 (dst + o), u64 (src + o), n)) <$> memcpy_lane size.

(** The moves of one lane of [memcpy_wave], of which [active] take part. *)
Definition wave_copy (flat_id active dst src size : Z) : list xfer :=
  (fun '(o, n) => (u64 (dst + o), u64 (src + o), n)) <$> memcpy_wave flat_id active size.

Section on_node.

(** The thread, the size of its block and the number of active lanes of its wave. *)
Context (flat_id block_size active : Z).

Definition tile_scope_workers (scope : TileScope) : Z * Z :=
  match scope with
  | Lane => (0, 1)
  | Wave => (Z.rem flat_id WF_SIZE, WF_SIZE)
  | Wg => (flat_id, block_size)
  end.

Definition tile_memcpy_contig (scope : TileScope) (dst src bytes worker_id : Z) : list xfer :=
  match scope with
  | Wave => wave_copy flat_id active dst src bytes
  | Wg => if worker_id =? 0 then lane_copy dst src bytes else []
  | Lane => lane_copy dst src bytes
  end.

(** The copy of the tile of a view; [idx], [i] and [j] of the last loop are [int]s. *)
Definition tile_copy (scope : TileScope) (v : TileView) : list xfer :=
  let '(worker_id, worker_count) := tile_scope_workers scope in
  let es := element_size v in
  let dst off := u64 (dst_base v + off * es) in
  let src off := u64 (src_base v + off * es) in
  if ndim v =? 2 then
    match tile_classify v with
    | Contiguous => tile_memcpy_contig scope (dst_base v) (src_base v) (u64 (ext0 v * ext1 v * es)) worker_id
    | RowContig =>
        strided worker_id worker_count (ext0 v) ≫= fun i =>
          lane_copy (dst (i * dst_s0 v)) (src (i * src_s0 v)) (u64 (ext1 v * es))
    | ColContig =>
        strided worker_id worker_count (ext1 v) ≫= fun j =>
          lane_copy (dst (j * dst_s1 v)) (src (j * src_s1 v)) (u64 (ext0 v * es))
    | Strided =>
        let total_elements := s32 (ext0 v * ext1 v) in
        strided worker_id worker_count total_elements ≫= fun idx =>
          let i := s32 (idx / ext1 v) in
          let j := s32 (idx mod ext1 v) in
          lane_copy (dst (i * dst_s0 v + j * dst_s1 v)) (src (i * src_s0 v + j * src_s1 v)) es
    end
  else if ndim v =? 1 then
    match tile_classify v with
    | Contiguous => tile_memcpy_contig scope (dst_base v) (src_base v) (u64 (ext0 v * es)) worker_id
    | _ =>
        strided worker_id worker_count (ext0 v) ≫= fun i =>
          lane_copy (dst (i * dst_s0 v)) (src (i * src_s0 v)) es
    end
  else [].

(** A put applies the start to the destination, a get to the source. *)
Definition tile_memcpy_rma (is_put : bool) (scope : TileScope) (dst_data src_data : Z) (a : tile_args) : list xfer :=
  tile_copy scope (tile_make_view dst_data src_data a is_put).

End on_node.

(** ** Work requests for a network card *)

Section requests.

Context (worker_id worker_count : Z).

Definition gda_tile_use_multi_wqe (num_chunks : Z) : bool := (1 <? worker_count) && (worker_count <=? num_chunks).

Definition kMinSlice : Z := 64.

Definition tile_contig_slices_nbi (dst src bytes : Z) : list xfer :=
  if (worker_count =? 1) || (bytes <? u64 (kMinSlice * worker_count)) then
    if (worker_id =? 0) && negb (bytes =? 0) then [(dst, src, bytes)] else []
  else
    let chunk := bytes / worker_count in
    let start := u64 (worker_id * chunk) in
    let len := if worker_id =? worker_count - 1 then u64 (bytes - start) else chunk in
    if negb (len =? 0) then [(u64 (dst + start), u64 (src + start), len)] else [].

End requests.

Definition tile_rows_nbi (worker_id worker_count dst_base src_base dst_row_stride_bytes src_row_stride_bytes num_rows
    row_bytes : Z) : list xfer :=
  (fun i => (u64 (dst_base + i * dst_row_stride_bytes), u64 (src_base + i * src_row_stride_bytes), row_bytes)) <$>
    strided worker_id worker_count num_rows.

Definition tile_cols_nbi (worker_id worker_count dst_base src_base dst_col_stride_bytes src_col_stride_bytes num_cols
    col_bytes : Z) : list xfer :=
  (fun j => (u64 (dst_base + j * dst_col_stride_bytes), u64 (src_base + j * src_col_stride_bytes), col_bytes)) <$>
    strided worker_id worker_count num_cols.

Definition tile_strided_2d_nbi (worker_id worker_count : Z) (v : TileView) : list xfer :=
  (fun idx =>
     let i := idx / ext1 v in
     let j := idx mod ext1 v in
     (u64 (dst_base v + (i * dst_s0 v + j * dst_s1 v) * element_size v),
      u64 (src_base v + (i * src_s0 v + j * src_s1 v) * element_size v), element_size v)) <$>
    strided worker_id worker_count (u64 (ext0 v * ext1 v)).

(** [tile_put_gda_workers] and [tile_get_gda_workers] up to the wait: with fewer
    chunks than workers the leader posts all of them. *)
Definition tile_gda_workers (worker_id worker_count : Z) (v : TileView) : list xfer :=
  let es := element_size v in
  let multi := gda_tile_use_multi_wqe worker_count in
  if ndim v =? 2 then
    match tile_classify v with
    | Contiguous => tile_contig_slices_nbi worker_id worker_count (dst_base v) (src_base v) (u64 (ext0 v * ext1 v * es))
    | RowContig =>
        let row_bytes := u64 (ext1 v * es) in
        if multi (ext0 v) then
          tile_rows_nbi worker_id worker_count (dst_base v) (src_base v) (u64 (dst_s0 v * es)) (u64 (src_s0 v * es))
            (ext0 v) row_bytes
        else if worker_id =? 0 then
          (fun i => (u64 (dst_base v + i * dst_s0 v * es), u64 (src_base v + i * src_s0 v * es), row_bytes)) <$>
            strided 0 1 (ext0 v)
        else []
    | ColContig =>
        let col_bytes := u64 (ext0 v * es) in
        if multi (ext1 v) then
          tile_cols_nbi worker_id worker_count (dst_base v) (src_base v) (u64 (dst_s1 v * es)) (u64 (src_s1 v * es))
            (ext1 v) col_bytes
        else if worker_id =? 0 then
          (fun j => (u64 (dst_base v + j * dst_s1 v * es), u64 (src_base v + j * src_s1 v * es), col_bytes)) <$>
            strided 0 1 (ext1 v)
        else []
    | Strided =>
        if multi (u64 (ext0 v * ext1 v)) then tile_strided_2d_nbi worker_id worker_count v
        else if worker_id =? 0 then tile_strided_2d_nbi 0 1 v
        else []
    end
  else if ndim v =? 1 then
    if (src_s0 v =? 1) && (dst_s0 v =? 1) then
      tile_contig_slices_nbi worker_id worker_count (dst_base v) (src_base v) (u64 (ext0 v * es))
    else if multi (ext0 v) then
      tile_rows_nbi worker_id worker_count (dst_base v) (src_base v) (u64 (dst_s0 v * es)) (u64 (src_s0 v * es))
        (ext0 v) es
    else if worker_id =? 0 then
      tile_rows_nbi 0 1 (dst_base v) (src_base v) (u64 (dst_s0 v * es)) (u64 (src_s0 v * es)) (ext0 v) es
    else []
  else [].

(** [put_nbi] and [get_nbi] of the queue pair post the length as an [int32_t]. *)
Definition posted (l : list xfer) : list xfer := (fun '(d, s, n) => (d, s, s32 n)) <$> l.

Definition tile_put_gda_workers (worker_id worker_count dst_data src_data : Z) (a : tile_args) : list xfer :=
  posted (tile_gda_workers worker_id worker_count (tile_make_view dst_data src_data a true)).

Definition tile_get_gda_workers (worker_id worker_count dst_data src_data : Z) (a : tile_args) : list xfer :=
  posted (tile_gda_workers worker_id worker_count (tile_make_view dst_data src_data a false)).

(** What a single thread asks for. *)
Definition tile_nbi (v : TileView) : list xfer :=
  let es := element_size v in
  let dst off := u64 (dst_base v + off * es) in
  let src off := u64 (src_base v + off * es) in
  if ndim v =? 2 then
    match tile_classify v with
    | Contiguous => [(dst_base v, src_base v, u64 (ext0 v * ext1 v * es))]
    | RowContig => (fun i => (dst (i * dst_s0 v), src (i * src_s0 v), u64 (ext1 v * es))) <$> strided 0 1 (ext0 v)
    | ColContig => (fun j => (dst (j * dst_s1 v), src (j * src_s1 v), u64 (ext0 v * es))) <$> strided 0 1 (ext1 v)
    | Strided =>
        strided 0 1 (ext0 v) ≫= fun i =>
          (fun j => (dst (i * dst_s0 v + j * dst_s1 v), src (i * src_s0 v + j * src_s1 v), es)) <$> strided 0 1 (ext1 v)
    end
  else if ndim v =? 1 then
    match tile_classify v with
    | Contiguous => [(dst_base v, src_base v, u64 (ext0 v * es))]
    | _ => (fun i => (dst (i * dst_s0 v), src (i * src_s0 v), es)) <$> strided 0 1 (ext0 v)
    end
  else [].

Definition tile_put (dst_data src_data : Z) (a : tile_args) : list xfer := posted (tile_nbi (tile_make_view dst_data src_data a true)).

Definition tile_get (dst_data src_data : Z) (a : tile_args) : list xfer := posted (tile_nbi (tile_make_view dst_data src_data a false)).

(** ** Queue pairs of the workers *)

Section queue_pairs.

(** Queue pairs per PE, PEs, and the counter of the PE that [get_qp_index] advances. *)
Context (num_qps_per_pe num_pes qp_counter : Z).

Definition get_qp_index (pe : Z) : Z := qp_counter mod num_qps_per_pe * num_pes + pe.

Definition next_qp_counter : Z := u32 (qp_counter + 1).

(** Up to a wave of workers use the queue pair that the first of them draws. *)
Definition tile_qp_index_for_worker (pe worker_id worker_count : Z) : Z :=
  if worker_count <=? WF_SIZE then get_qp_index pe
  else (worker_id / WF_SIZE) mod num_qps_per_pe * num_pes + pe.

(** The queue pairs that a worker waits for, after a barrier of the workers. *)
Definition tile_quiet_gda_workers (pe worker_id worker_count wave_qp_index : Z) : list Z :=
  if negb (worker_id =? 0) then []
  else if worker_count <=? WF_SIZE then [wave_qp_index]
  else (fun i => i * num_pes + pe) <$> seqZ 0 num_qps_per_pe.

End queue_pairs.

(** ** One transfer per element *)

Definition elem_off (s0 s1 es i j : Z) : Z := (i * s0 + j * s1) * es.

Definition tile_reference (v : TileView) : list xfer :=
  let es := element_size v in
  let at_ i j := (dst_base v + elem_off (dst_s0 v) (dst_s1 v) es i j, src_base v + elem_off (src_s0 v) (src_s1 v) es i j, es) in
  if ndim v =? 2 then seqZ 0 (ext0 v) ≫= fun i => at_ i <$> seqZ 0 (ext1 v)
  else if ndim v =? 1 then (fun i => at_ i 0) <$> seqZ 0 (ext0 v)
  else [].

(** The pairs of destination and source bytes of a transfer. *)
Definition xfer_bytes (x : xfer) : list (Z * Z) :=
  let '(d, s, n) := x in (fun k => (d + k, s + k)) <$> seqZ 0 n.

Definition bytes (l : list xfer) : list (Z * Z) := l ≫= xfer_bytes.

(** Copies of single bytes, one after the other. *)
Definition copy_bytes (m : Z -> Z) (l : list (Z * Z)) : Z -> Z := foldl (fun m p => upd m p.1 (m p.2)) m l.

(** ** Bytes of transfers *)

Lemma eq_perm {A} (l l' : list A) : l = l' -> l ≡ₚ l'.
Proof. by intros ->. Qed.

Lemma bind_perm {A B} (f : A -> list B) l l' : l ≡ₚ l' -> l ≫= f ≡ₚ l' ≫= f.
Proof.
  induction 1 as [|x l l' _ IH|x y l|l l' l'' _ IH1 _ IH2]; [done| | |by rewrite IH1].
  - by rewrite !bind_cons, IH.
  - rewrite !bind_cons, !app_assoc. f_equiv. apply Permutation_app_comm.
Qed.

Lemma bind_assoc {A B C} (f : A -> list B) (g : B -> list C) l : (l ≫= f) ≫= g = l ≫= (fun x => f x ≫= g).
Proof. induction l as [|x l IH]; [done|]. by rewrite !bind_cons, bind_app, IH. Qed.

Lemma bind_fmap {A B C} (f : A -> B) (g : B -> list C) l : (f <$> l) ≫= g = l ≫= (fun x => g (f x)).
Proof. induction l as [|x l IH]; [done|]. by rewrite fmap_cons, !bind_cons, IH. Qed.

Lemma bind_nil {A B} (l : list A) : l ≫= (fun _ => @nil B) = [].
Proof. by induction l. Qed.

(** Two nested loops may be exchanged. *)
Lemma bind_swap {A B C} (f : A -> B -> list C) (l : list A) (k : list B) :
  l ≫= (fun x => k ≫= f x) ≡ₚ k ≫= (fun y => l ≫= (fun x => f x y)).
Proof.
  induction l as [|x l IH]; [symmetry; change (k ≫= (fun _ => @nil C) ≡ₚ []); by rewrite bind_nil|]. rewrite bind_cons, IH.
  rewrite <- (bind_app_perm (f x) (fun y => l ≫= (fun x => f x y)) k). done.
Qed.

Lemma bytes_bind {A} (f : A -> list xfer) l : bytes (l ≫= f) = l ≫= (fun x => bytes (f x)).
Proof. apply bind_assoc. Qed.

Lemma bytes_fmap {A} (f : A -> xfer) l : bytes (f <$> l) = l ≫= (fun x => xfer_bytes (f x)).
Proof. apply bind_fmap. Qed.

Lemma xfer_bytes_app d s a b : 0 <= a -> 0 <= b ->
  xfer_bytes (d, s, a + b) = xfer_bytes (d, s, a) ++ xfer_bytes (d + a, s + a, b).
Proof.
  intros Ha Hb. unfold xfer_bytes. rewrite seqZ_app, fmap_app by done. f_equal.
  replace (0 + a) with (a + 0) by lia. rewrite <- (fmap_add_seqZ a 0 b), <- list_fmap_compose.
  apply list_fmap_ext. intros _ k _. cbn. f_equal; lia.
Qed.

(** A transfer is the transfers of its elements. *)
Lemma xfer_bytes_split d s m es : 0 <= m -> 0 <= es ->
  xfer_bytes (d, s, m * es) = seqZ 0 m ≫= fun j => xfer_bytes (d + j * es, s + j * es, es).
Proof.
  intros Hm Hes. pattern m. apply natlike_ind; [| |done]; [done|]. clear m Hm. intros m Hm IH.
  replace (Z.succ m * es) with (m * es + es) by lia. rewrite xfer_bytes_app, IH by lia.
  unfold Z.succ. rewrite (seqZ_app 0 m 1), bind_app by lia. f_equal.
  rewrite (seqZ_cons (0 + m)) by lia. rewrite bind_cons, seqZ_nil by done. cbn [mbind list_bind]. by rewrite app_nil_r.
Qed.

(** A loop over the flat index of a matrix. *)
Lemma bind_flat {A} (f : Z -> Z -> list A) m n : 0 <= m -> 0 <= n ->
  seqZ 0 (m * n) ≫= (fun x => f (x / n) (x mod n)) = seqZ 0 m ≫= fun i => seqZ 0 n ≫= f i.
Proof.
  intros Hm Hn. pattern m. apply natlike_ind; [| |done]; [done|]. clear m Hm. intros m Hm IH.
  replace (Z.succ m * n) with (m * n + n) by lia. unfold Z.succ.
  rewrite (seqZ_app 0 m 1), seqZ_app, !bind_app, IH by lia. f_equal.
  rewrite (seqZ_cons (0 + m)) by lia. rewrite bind_cons, (seqZ_nil (Z.succ _)) by done. cbn [mbind list_bind]. rewrite app_nil_r.
  replace (0 + m * n) with (m * n + 0) by lia. rewrite <- (fmap_add_seqZ (m * n) 0 n), bind_fmap.
  apply bind_ext_elem. intros j Hj%elem_of_seqZ.
  rewrite Z.div_add_l, Z.div_small, (Z.add_comm (m * n)), Z_mod_plus_full, Z.mod_small by lia. f_equal; lia.
Qed.

(** The shares of the workers are the whole loop. *)
Lemma share_bind {A} (g : Z -> list A) n c : 0 < n ->
  seqZ 0 n ≫= (fun t => strided t n c ≫= g) ≡ₚ seqZ 0 c ≫= g.
Proof. intros Hn. rewrite <- bind_assoc. apply bind_perm, strided_partition, Hn. Qed.

(** Only the first worker does something. *)
Lemma leader_bind {A} (l : list A) n : 0 < n -> seqZ 0 n ≫= (fun t => if t =? 0 then l else []) = l.
Proof.
  intros Hn. rewrite seqZ_cons by done. rewrite bind_cons, Z.eqb_refl.
  rewrite (bind_ext_elem _ (fun _ => [])), bind_nil; [apply app_nil_r|].
  intros t Ht%elem_of_seqZ. by rewrite (proj2 (Z.eqb_neq t 0)) by lia.
Qed.

Lemma strided_loop_all k a : strided_loop k a 1 (a + Z.of_nat k) = seqZ a (Z.of_nat k).
Proof.
  revert a. induction k as [|k IH]; intros a; [done|]. cbn [strided_loop].
  rewrite (proj2 (Z.ltb_lt _ _)), (seqZ_cons a) by lia. f_equal.
  replace (a + Z.of_nat (S k)) with (a + 1 + Z.of_nat k) by lia. rewrite IH. f_equal; lia.
Qed.

Lemma strided_all n : strided 0 1 n = seqZ 0 n.
Proof.
  unfold strided. rewrite Z.sub_0_r. destruct (Z.le_gt_cases n 0) as [Hn|Hn].
  - rewrite seqZ_nil by done. by replace (Z.to_nat n) with O by lia.
  - replace n with (0 + Z.of_nat (Z.to_nat n)) at 2 by lia. rewrite strided_loop_all. f_equal. lia.
Qed.

(** ** Copies and requests in the address space *)

(** A transfer of no bytes may be anywhere. *)
Definition in_space (d s n : Z) : Prop :=
  0 <= n < 2 ^ 64 /\ (0 < n -> 0 <= d /\ d + n <= 2 ^ 64 /\ 0 <= s /\ s + n <= 2 ^ 64).

Lemma tiles_bytes d s l a b : 0 <= d + a -> 0 <= s + a -> d + b <= 2 ^ 64 -> s + b <= 2 ^ 64 -> tiles a l b ->
  bytes ((fun '(o, n) => (u64 (d + o), u64 (s + o), n)) <$> l) = xfer_bytes (d + a, s + a, b - a).
Proof.
  intros Ha1 Ha2 Hb1 Hb2 Ht. induction Ht as [a|a n l b Hn Ht IH].
  - by rewrite Z.sub_diag.
  - apply tiles_le in Ht as Hle. rewrite fmap_cons. unfold bytes in *. rewrite bind_cons, IH by lia.
    replace (b - a) with (n + (b - (a + n))) by lia. rewrite xfer_bytes_app by lia. unwrap.
    by rewrite !(Z.add_assoc _ a n).
Qed.

Lemma memcpy_lane_tiles n : 0 <= n < 2 ^ 64 -> tiles 0 (memcpy_lane n) n.
Proof.
  intros Hn. pose proof (lane_passes_tile widths 0 n widths_pos ltac:(lia) ltac:(lia) ltac:(lia)) as Ht.
  by rewrite rest_widths, Z.sub_0_r in Ht.
Qed.

Lemma lane_copy_bytes d s n : in_space d s n -> bytes (lane_copy (u64 d) (u64 s) n) = xfer_bytes (d, s, n).
Proof.
  intros [Hn Hr]. destruct (Z.eq_dec n 0) as [->|Hn0]; [done|]. destruct Hr as (H1 & H2 & H3 & H4); [lia|].
  unwrap. unfold lane_copy. rewrite (tiles_bytes _ _ _ 0 n) by (done || lia || apply memcpy_lane_tiles; done).
  by rewrite !Z.add_0_r, Z.sub_0_r.
Qed.

(** A wave of 64 lanes. *)
Lemma wave_copy_bytes d s n w : in_space d s n -> n < 2 ^ 31 -> 0 <= w ->
  bytes (seqZ (WF_SIZE * w) WF_SIZE ≫= fun t => wave_copy t WF_SIZE (u64 d) (u64 s) n) ≡ₚ xfer_bytes (d, s, n).
Proof.
  intros [Hn Hr] Hlt Hw.
  assert (Hl : seqZ (WF_SIZE * w) WF_SIZE ≫= (fun t => memcpy_wave t WF_SIZE n) ≡ₚ rows widths 0 n).
  { rewrite <- (wg_rows widths WF_SIZE 0 n) by (done || apply widths_pos || lia).
    replace (WF_SIZE * w) with (WF_SIZE * w + 0) by lia. rewrite <- (fmap_add_seqZ (WF_SIZE * w) 0), bind_fmap.
    apply eq_perm, bind_ext_elem. intros t Ht%elem_of_seqZ. unfold memcpy_wave.
    assert (Z.rem (WF_SIZE * w + t) 64 = t) as ->; [|done]. unfold WF_SIZE in *.
    rewrite Z.rem_mod_nonneg, Z.add_comm, Z.mul_comm, Z_mod_plus_full, Z.mod_small by lia. done. }
  unfold wave_copy, bytes. rewrite <- fmap_bind, (bind_perm _ _ _ (fmap_Permutation _ _ _ Hl)).
  destruct (Z.eq_dec n 0) as [->|Hn0]; [done|]. destruct Hr as (H1 & H2 & H3 & H4); [lia|]. unwrap.
  pose proof (rows_tile widths 0 n widths_pos ltac:(lia)) as Ht. rewrite rest_widths, Z.sub_0_r in Ht.
  apply eq_perm. pose proof (tiles_bytes d s _ 0 n ltac:(lia) ltac:(lia) H2 H4 Ht) as Hb.
  by rewrite !Z.add_0_r, Z.sub_0_r in Hb.
Qed.

Lemma xfer_space d s n : in_space d s n -> xfer_bytes (u64 d, u64 s, n) = xfer_bytes (d, s, n).
Proof.
  intros [Hn Hr]. destruct (Z.eq_dec n 0) as [->|Hn0]; [done|]. destruct Hr as (H1 & H2 & H3 & H4); [lia|]. by unwrap.
Qed.

(** The slices of the workers are the whole range. *)
Lemma contig_slices_bytes d s n c : in_space d s n -> 0 < c < 2 ^ 31 -> 
  bytes (seqZ 0 c ≫= fun t => tile_contig_slices_nbi t c (u64 d) (u64 s) n) = xfer_bytes (d, s, n).
Proof.
  intros [Hn Hr] Hc. destruct (Z.eq_dec n 0) as [->|Hn0].
  { rewrite bytes_bind, (bind_ext_elem _ (fun _ => [])), bind_nil; [done|]. intros t _.
    unfold tile_contig_slices_nbi, kMinSlice. unwrap. rewrite (proj2 (Z.ltb_lt _ _)), orb_true_r by lia.
    by rewrite andb_false_r. }
  destruct Hr as (H1 & H2 & H3 & H4); [lia|]. unwrap. unfold tile_contig_slices_nbi, kMinSlice. unwrap.
  rewrite (proj2 (Z.eqb_neq n 0)) by done. cbn [negb]. destruct ((c =? 1) || (n <? 64 * c)) eqn:Ec.
  - rewrite (bind_ext_elem _ (fun t => if t =? 0 then [(d, s, n)] else [])) by (intros; by rewrite andb_true_r).
    rewrite leader_bind by lia. unfold bytes. rewrite bind_cons. apply app_nil_r.
  - pose proof (Z.div_mod n c ltac:(lia)) as Hdm. pose proof (Z.mod_pos_bound n c ltac:(lia)) as Hmb.
    set (q := n / c) in *. assert (Hq : 64 <= q) by (apply Z.div_le_lower_bound; lia).
    assert (Hlast : 0 < n - (c - 1) * q) by lia.
    replace n with ((c - 1) * q + (n - (c - 1) * q)) at 1 by lia.
    rewrite xfer_bytes_app, xfer_bytes_split by nia.
    replace c with (c - 1 + 1) at 1 by lia. rewrite seqZ_app, bind_app by lia. unfold bytes. rewrite bind_app. f_equal.
    + fold (bytes (seqZ 0 (c - 1) ≫= fun t => 
        if negb ((if t =? c - 1 then u64 (n - u64 (t * q)) else q) =? 0)
        then [(u64 (d + u64 (t * q)), u64 (s + u64 (t * q)), if t =? c - 1 then u64 (n - u64 (t * q)) else q)] else [])).
      rewrite bytes_bind. apply bind_ext_elem. intros t Ht%elem_of_seqZ.
      assert (0 <= t * q <= (c - 1) * q) by nia. unwrap.
      rewrite (proj2 (Z.eqb_neq t (c - 1))), (proj2 (Z.eqb_neq q 0)) by lia. apply app_nil_r.
    + rewrite (seqZ_cons (0 + _)) by lia. rewrite bind_cons, (seqZ_nil (Z.succ _)) by done.
      cbn [mbind list_bind]. rewrite app_nil_r, Z.add_0_l, Z.eqb_refl.
      assert (0 <= (c - 1) * q <= n) by nia. unwrap.
      rewrite (proj2 (Z.eqb_neq (n - _) 0)) by lia. apply app_nil_r.
Qed.

(** ** Views *)

(** Elements in the second dimension. *)
Definition width (v : TileView) : Z := if ndim v =? 2 then ext1 v else 1.

Definition d_at (v : TileView) (i j : Z) : Z := dst_base v + elem_off (dst_s0 v) (dst_s1 v) (element_size v) i j.

Definition s_at (v : TileView) (i j : Z) : Z := src_base v + elem_off (src_s0 v) (src_s1 v) (element_size v) i j.

(** Every element of the tile lies in the address space, on both sides. *)
Record view_ok (v : TileView) : Prop := {
  ok_ndim : ndim v = 1 \/ ndim v = 2;
  ok_ext : 0 <= ext0 v /\ 0 <= ext1 v;
  ok_elem : 0 < element_size v;
  ok_base : 0 <= dst_base v < 2 ^ 64 /\ 0 <= src_base v < 2 ^ 64;
  ok_at : forall i j, 0 <= i < ext0 v -> 0 <= j < width v ->
    0 <= d_at v i j /\ d_at v i j + element_size v < 2 ^ 64 /\ 0 <= s_at v i j /\ s_at v i j + element_size v < 2 ^ 64
}.

Definition elem (v : TileView) (i j : Z) : list (Z * Z) := xfer_bytes (d_at v i j, s_at v i j, element_size v).

Lemma bind_one {A} (f : Z -> list A) : seqZ 0 1 ≫= f = f 0.
Proof. change (seqZ 0 1) with [0]. rewrite bind_cons. apply app_nil_r. Qed.

Lemma reference_bytes v : ndim v = 1 \/ ndim v = 2 ->
  bytes (tile_reference v) = seqZ 0 (ext0 v) ≫= fun i => seqZ 0 (width v) ≫= elem v i.
Proof.
  unfold tile_reference, width. intros [E|E]; rewrite E; cbn -[seqZ bytes].
  - rewrite bytes_fmap. apply bind_ext_elem. intros i _. by rewrite bind_one.
  - rewrite bytes_bind. apply bind_ext_elem. intros i _. apply bytes_fmap.
Qed.

Section cases.

Context (v : TileView) (Hok : view_ok v).

(** A row whose elements are adjacent. *)
Lemma row_bytes i : 0 <= i < ext0 v -> dst_s1 v = 1 -> src_s1 v = 1 ->
  in_space (dst_base v + i * dst_s0 v * element_size v) (src_base v + i * src_s0 v * element_size v)
    (width v * element_size v) /\
  xfer_bytes (dst_base v + i * dst_s0 v * element_size v, src_base v + i * src_s0 v * element_size v,
    width v * element_size v) = seqZ 0 (width v) ≫= elem v i.
Proof using Hok.
  destruct Hok as [Hd [He0 He1] Hes _ Hat]. intros Hi H1 H2.
  assert (Hw : 0 <= width v) by (unfold width; case_if; lia).
  split; [|rewrite xfer_bytes_split by lia; apply bind_ext_elem; intros j _; unfold elem, d_at, s_at, elem_off;
    rewrite H1, H2; do 3 f_equal; lia].
  destruct (Z.eq_dec (width v) 0) as [->|Hw0]; [split; lia|].
  pose proof (Hat i 0 Hi ltac:(lia)) as Ha. pose proof (Hat i (width v - 1) Hi ltac:(lia)) as Hb.
  unfold d_at, s_at, elem_off in Ha, Hb. rewrite H1, H2 in Ha, Hb.
  assert (0 < width v * element_size v) by (apply Z.mul_pos_pos; lia). split; lia.
Qed.

Lemma col_bytes j : 0 <= j < width v -> dst_s0 v = 1 -> src_s0 v = 1 ->
  in_space (dst_base v + j * dst_s1 v * element_size v) (src_base v + j * src_s1 v * element_size v)
    (ext0 v * element_size v) /\
  xfer_bytes (dst_base v + j * dst_s1 v * element_size v, src_base v + j * src_s1 v * element_size v,
    ext0 v * element_size v) = seqZ 0 (ext0 v) ≫= fun i => elem v i j.
Proof using Hok.
  destruct Hok as [Hd [He0 He1] Hes _ Hat]. intros Hj H1 H2.
  split; [|rewrite xfer_bytes_split by lia; apply bind_ext_elem; intros i _; unfold elem, d_at, s_at, elem_off;
    rewrite H1, H2; do 3 f_equal; lia].
  destruct (Z.eq_dec (ext0 v) 0) as [->|He]; [split; lia|].
  pose proof (Hat 0 j ltac:(lia) Hj) as Ha. pose proof (Hat (ext0 v - 1) j ltac:(lia) Hj) as Hb.
  unfold d_at, s_at, elem_off in Ha, Hb. rewrite H1, H2 in Ha, Hb.
  assert (0 < ext0 v * element_size v) by (apply Z.mul_pos_pos; lia). split; lia.
Qed.

(** A tile without gaps. *)
Lemma contig_bytes : dst_s1 v = 1 \/ width v = 1 -> src_s1 v = 1 \/ width v = 1 -> dst_s0 v = width v -> src_s0 v = width v ->
  in_space (dst_base v) (src_base v) (ext0 v * width v * element_size v) /\
  xfer_bytes (dst_base v, src_base v, ext0 v * width v * element_size v) =
    seqZ 0 (ext0 v) ≫= fun i => seqZ 0 (width v) ≫= elem v i.
Proof using Hok.
  destruct Hok as [Hd [He0 He1] Hes _ Hat]. intros H1 H2 H3 H4.
  assert (Hw : 0 <= width v) by (unfold width; case_if; lia).
  assert (Hoff : forall i j, 0 <= i < ext0 v -> 0 <= j < width v ->
    d_at v i j = dst_base v + i * (width v * element_size v) + j * element_size v /\
    s_at v i j = src_base v + i * (width v * element_size v) + j * element_size v).
  { intros i j Hi Hj. unfold d_at, s_at, elem_off. rewrite H3, H4.
    destruct H1 as [->|H1], H2 as [->|H2]; split; try lia;
      assert (j = 0) as -> by lia; lia. }
  split.
  - destruct (Z.eq_dec (ext0 v) 0) as [->|He]; [split; lia|].
    destruct (Z.eq_dec (width v) 0) as [->|Hw0]; [rewrite Z.mul_0_r; split; lia|].
    pose proof (Hat 0 0 ltac:(lia) ltac:(lia)) as Ha. pose proof (Hat (ext0 v - 1) (width v - 1) ltac:(lia) ltac:(lia)) as Hb.
    destruct (Hoff 0 0) as [E1 E2]; [lia..|]. destruct (Hoff (ext0 v - 1) (width v - 1)) as [E3 E4]; [lia..|].
    assert (0 < ext0 v * width v * element_size v) by (repeat apply Z.mul_pos_pos; lia). split; lia.
  - replace (ext0 v * width v * element_size v) with (ext0 v * (width v * element_size v)) by lia.
    rewrite xfer_bytes_split by (apply Z.mul_nonneg_nonneg || idtac; lia). apply bind_ext_elem. intros i Hi%elem_of_seqZ.
    rewrite xfer_bytes_split by lia. apply bind_ext_elem. intros j Hj%elem_of_seqZ. unfold elem.
    destruct (Hoff i j) as [-> ->]; [lia..|done].
Qed.

Lemma elem_space i j : 0 <= i < ext0 v -> 0 <= j < width v -> in_space (d_at v i j) (s_at v i j) (element_size v).
Proof using Hok.
  intros Hi Hj. pose proof (ok_at v Hok i j Hi Hj). pose proof (ok_elem v Hok). split; lia.
Qed.

End cases.

(** ** Copies over mapped memory *)

(** The threads that make a copy together: one thread, a full wave or a block. *)
Definition crew (scope : TileScope) (who block_size : Z) : list Z :=
  match scope with
  | Lane => [who]
  | Wave => seqZ (WF_SIZE * who) WF_SIZE
  | Wg => seqZ 0 block_size
  end.

Definition crew_size (scope : TileScope) (block_size : Z) : Z :=
  match scope with Lane => 1 | Wave => WF_SIZE | Wg => block_size end.

(** Where the code counts in [int]s. *)
Definition int_sized (scope : TileScope) (block_size : Z) (v : TileView) : Prop :=
  match tile_classify v with
  | Contiguous => scope = Wave -> ext0 v * width v * element_size v < 2 ^ 31
  | Strided => ndim v = 2 -> ext0 v * ext1 v + crew_size scope block_size < 2 ^ 31
  | _ => True
  end.

Lemma wave_worker w t : 0 <= w -> 0 <= t < WF_SIZE -> Z.rem (WF_SIZE * w + t) WF_SIZE = t.
Proof.
  unfold WF_SIZE. intros Hw Ht.
  rewrite Z.rem_mod_nonneg, Z.add_comm, Z.mul_comm, Z_mod_plus_full, Z.mod_small by lia. done.
Qed.

Lemma crew_workers {A} (f : Z -> Z -> list A) scope who block_size : 0 <= who ->
  crew scope who block_size ≫= (fun t => f (tile_scope_workers t block_size scope).1 (tile_scope_workers t block_size scope).2) =
  seqZ 0 (crew_size scope block_size) ≫= fun w => f w (crew_size scope block_size).
Proof.
  intros Hw. destruct scope; cbn [crew crew_size tile_scope_workers fst snd].
  - rewrite bind_one, bind_cons. apply app_nil_r.
  - replace (WF_SIZE * who) with (WF_SIZE * who + 0) by lia. rewrite <- (fmap_add_seqZ (WF_SIZE * who) 0), bind_fmap.
    apply bind_ext_elem. intros t Ht%elem_of_seqZ. by rewrite wave_worker by lia.
  - done.
Qed.

Lemma crew_loop scope who block_size n (g : Z -> list xfer) (h : Z -> list (Z * Z)) :
  0 <= who -> 0 < block_size -> (forall i, 0 <= i < n -> bytes (g i) = h i) ->
  bytes (crew scope who block_size ≫= fun t =>
    strided (tile_scope_workers t block_size scope).1 (tile_scope_workers t block_size scope).2 n ≫= g) ≡ₚ
  seqZ 0 n ≫= h.
Proof.
  intros Hw Hb Hg. rewrite (crew_workers (fun w c => strided w c n ≫= g)) by done.
  rewrite <- (bind_ext_elem (fun i => bytes (g i)) h (seqZ 0 n)) by (intros i Hi%elem_of_seqZ; apply Hg; lia).
  etrans; [|apply (share_bind _ (crew_size scope block_size)); destruct scope; cbn; unfold WF_SIZE; lia].
  rewrite bytes_bind. apply eq_perm, bind_ext_elem. intros t _. apply bytes_bind.
Qed.

(** The threads of any scope copy one range together. *)
Lemma crew_contig scope who block_size d s n : in_space d s n -> (scope = Wave -> n < 2 ^ 31) ->
  0 <= who -> 0 < block_size ->
  bytes (crew scope who block_size ≫= fun t =>
    tile_memcpy_contig t WF_SIZE scope (u64 d) (u64 s) n (tile_scope_workers t block_size scope).1) ≡ₚ
  xfer_bytes (d, s, n).
Proof.
  intros Hs Hn Hw Hb. destruct scope; cbn [crew tile_memcpy_contig tile_scope_workers fst].
  - rewrite bind_cons. cbn [mbind list_bind]. rewrite app_nil_r. by rewrite lane_copy_bytes.
  - apply wave_copy_bytes; auto.
  - rewrite (leader_bind (lane_copy (u64 d) (u64 s) n)) by done. by rewrite lane_copy_bytes.
Qed.

Lemma classify_contiguous v : ndim v = 1 \/ ndim v = 2 -> tile_classify v = Contiguous ->
  (dst_s1 v = 1 \/ width v = 1) /\ (src_s1 v = 1 \/ width v = 1) /\ dst_s0 v = width v /\ src_s0 v = width v.
Proof.
  unfold tile_classify, tile_classify_2d, width. intros [E|E]; rewrite E; cbn; case_ifs; intros; try done; lia.
Qed.

Lemma classify_2d_rows v : ndim v = 2 -> tile_classify v = RowContig -> dst_s1 v = 1 /\ src_s1 v = 1.
Proof. unfold tile_classify, tile_classify_2d. intros ->. cbn. case_ifs; intros; try done; lia. Qed.

Lemma classify_2d_cols v : ndim v = 2 -> tile_classify v = ColContig -> dst_s0 v = 1 /\ src_s0 v = 1.
Proof. unfold tile_classify, tile_classify_2d. intros ->. cbn. case_ifs; intros; try done; lia. Qed.

Lemma classify_1d v : ndim v = 1 -> tile_classify v <> RowContig /\ tile_classify v <> ColContig.
Proof. unfold tile_classify. intros ->. cbn. case_if; done. Qed.

Section on_node_copy.

Context (v : TileView) (Hok : view_ok v) (scope : TileScope) (who block_size : Z) (Hw : 0 <= who) (Hb : 0 < block_size).

Notation all_copies := (crew scope who block_size ≫= fun t => tile_copy t block_size WF_SIZE scope v).

Lemma copy_contiguous : tile_classify v = Contiguous -> int_sized scope block_size v ->
  bytes all_copies ≡ₚ seqZ 0 (ext0 v) ≫= fun i => seqZ 0 (width v) ≫= elem v i.
Proof using Hok Hw Hb.
  intros Hc Hi. unfold int_sized in Hi. rewrite Hc in Hi. destruct (ok_base v Hok) as [Hb1 Hb2].
  destruct (classify_contiguous v (ok_ndim v Hok) Hc) as (H1 & H2 & H3 & H4).
  destruct (contig_bytes v Hok H1 H2 H3 H4) as [Hsp <-].
  rewrite <- (crew_contig scope who block_size) by done. apply eq_perm. f_equal. apply bind_ext_elem. intros t _.
  unfold tile_copy. rewrite Hc. destruct (tile_scope_workers t block_size scope) as [w c]. cbn [fst].
  rewrite (wrap_small 64 (dst_base v)), (wrap_small 64 (src_base v)) by done.
  rewrite <- (wrap_small 64 (ext0 v * width v * element_size v)) by apply Hsp.
  unfold width. destruct (ok_ndim v Hok) as [->| ->]; [|done]. cbn. by rewrite Z.mul_1_r.
Qed.

Lemma copy_rows : ndim v = 2 -> tile_classify v = RowContig ->
  bytes all_copies ≡ₚ seqZ 0 (ext0 v) ≫= fun i => seqZ 0 (width v) ≫= elem v i.
Proof using Hok Hw Hb.
  intros Hd Hc. destruct (classify_2d_rows v Hd Hc) as [H1 H2].
  rewrite <- (crew_loop scope who block_size (ext0 v) (fun i =>
    lane_copy (u64 (dst_base v + i * dst_s0 v * element_size v)) (u64 (src_base v + i * src_s0 v * element_size v))
      (u64 (ext1 v * element_size v)))); [|done|done|].
  - apply eq_perm. f_equal. apply bind_ext_elem. intros t _. unfold tile_copy. rewrite Hd, Hc.
    by destruct (tile_scope_workers t block_size scope).
  - intros i Hi. destruct (row_bytes v Hok i Hi H1 H2) as [Hsp <-]. unfold width in *. rewrite Hd in *. cbn in *.
    rewrite (wrap_small 64 (ext1 v * element_size v)) by apply Hsp. by apply lane_copy_bytes.
Qed.

Lemma copy_cols : ndim v = 2 -> tile_classify v = ColContig ->
  bytes all_copies ≡ₚ seqZ 0 (ext0 v) ≫= fun i => seqZ 0 (width v) ≫= elem v i.
Proof using Hok Hw Hb.
  intros Hd Hc. destruct (classify_2d_cols v Hd Hc) as [H1 H2].
  rewrite bind_swap. assert (Hwd : width v = ext1 v) by (unfold width; by rewrite Hd). rewrite Hwd.
  rewrite <- (crew_loop scope who block_size (ext1 v) (fun j =>
    lane_copy (u64 (dst_base v + j * dst_s1 v * element_size v)) (u64 (src_base v + j * src_s1 v * element_size v))
      (u64 (ext0 v * element_size v)))); [|done|done|].
  - apply eq_perm. f_equal. apply bind_ext_elem. intros t _. unfold tile_copy. rewrite Hd, Hc.
    by destruct (tile_scope_workers t block_size scope).
  - intros j Hj. destruct (col_bytes v Hok j ltac:(lia) H1 H2) as [Hsp <-].
    rewrite (wrap_small 64 (ext0 v * element_size v)) by apply Hsp. by apply lane_copy_bytes.
Qed.

Lemma copy_strided : ndim v = 2 -> tile_classify v = Strided -> int_sized scope block_size v ->
  bytes all_copies ≡ₚ seqZ 0 (ext0 v) ≫= fun i => seqZ 0 (width v) ≫= elem v i.
Proof using Hok Hw Hb.
  intros Hd Hc Hi. unfold int_sized in Hi. rewrite Hc in Hi. specialize (Hi Hd).
  assert (Hwd : width v = ext1 v) by (unfold width; by rewrite Hd). rewrite Hwd.
  destruct (ok_ext v Hok) as [He0 He1]. assert (Hn : 0 <= ext0 v * ext1 v) by lia.
  assert (Hcs : 0 < crew_size scope block_size) by (destruct scope; cbn; unfold WF_SIZE; lia).
  rewrite <- (bind_flat (elem v) (ext0 v) (ext1 v)) by done.
  rewrite <- (crew_loop scope who block_size (ext0 v * ext1 v) (fun idx =>
    lane_copy (u64 (d_at v (s32 (idx / ext1 v)) (s32 (idx mod ext1 v)))) (u64 (s_at v (s32 (idx / ext1 v)) (s32 (idx mod ext1 v))))
      (element_size v))); [|done|done|].
  - apply eq_perm. f_equal. apply bind_ext_elem. intros t _. unfold tile_copy. rewrite Hd, Hc.
    rewrite (s32_small (ext0 v * ext1 v)) by lia. by destruct (tile_scope_workers t block_size scope).
  - intros x Hx. assert (0 < ext1 v) by nia. pose proof (Z.mod_pos_bound x (ext1 v) ltac:(lia)).
    assert (0 <= x / ext1 v < ext0 v) by (split; [apply Z.div_pos; lia|apply Z.div_lt_upper_bound; lia]).
    assert (x / ext1 v <= x) by (apply Z.div_le_upper_bound; nia). assert (x mod ext1 v <= x) by (apply Z.mod_le; lia).
    rewrite !s32_small by lia. apply lane_copy_bytes, elem_space; [done|lia|lia].
Qed.

Lemma copy_line : ndim v = 1 -> tile_classify v = Strided ->
  bytes all_copies ≡ₚ seqZ 0 (ext0 v) ≫= fun i => seqZ 0 (width v) ≫= elem v i.
Proof using Hok Hw Hb.
  intros Hd Hc. assert (Hwd : width v = 1) by (unfold width; by rewrite Hd). rewrite Hwd.
  rewrite <- (crew_loop scope who block_size (ext0 v) (fun i =>
    lane_copy (u64 (dst_base v + i * dst_s0 v * element_size v)) (u64 (src_base v + i * src_s0 v * element_size v))
      (element_size v))); [|done|done|].
  - apply eq_perm. f_equal. apply bind_ext_elem. intros t _. unfold tile_copy. rewrite Hd, Hc.
    by destruct (tile_scope_workers t block_size scope).
  - intros i Hi. rewrite bind_one. unfold elem. pose proof (elem_space v Hok i 0 Hi ltac:(lia)) as Hsp.
    unfold d_at, s_at, elem_off in *. rewrite !Z.mul_0_l, !Z.add_0_r in *. by apply lane_copy_bytes.
Qed.

(** The transfers of the threads of a crew and one transfer per element move the
    same bytes. *)
Lemma tile_copy_bytes : int_sized scope block_size v -> bytes all_copies ≡ₚ bytes (tile_reference v).
Proof using Hok Hw Hb.
  intros Hi. rewrite (reference_bytes v (ok_ndim v Hok)).
  destruct (tile_classify v) eqn:Hc; [by apply copy_contiguous| | |].
  all: destruct (ok_ndim v Hok) as [Hd|Hd]; [destruct (classify_1d v Hd) as [H1 H2]|].
  all: try congruence; auto using copy_rows, copy_cols, copy_strided, copy_line.
Qed.

End on_node_copy.

(** ** Requests *)

Lemma u64_mul_r b i x : u64 (b + i * u64 x) = u64 (b + i * x).
Proof. unfold wrap. rewrite <- Zplus_mod_idemp_r, Zmult_mod_idemp_r. apply Zplus_mod_idemp_r. Qed.

(** Requests of a loop, spread over the workers or posted by the first one. *)
Lemma worker_loop c n (f f' : Z -> xfer) (h : Z -> list (Z * Z)) : 0 < c ->
  (forall i, 0 <= i < n -> xfer_bytes (f i) = h i /\ xfer_bytes (f' i) = h i) ->
  bytes (seqZ 0 c ≫= fun t => if gda_tile_use_multi_wqe c n then f <$> strided t c n
                              else if t =? 0 then f' <$> strided 0 1 n else []) ≡ₚ seqZ 0 n ≫= h.
Proof.
  intros Hc Hf. destruct (gda_tile_use_multi_wqe c n).
  - rewrite <- (bind_ext_elem (fun i => xfer_bytes (f i)) h (seqZ 0 n)) by (intros i Hi%elem_of_seqZ; apply Hf; lia).
    etrans; [|by apply (share_bind _ c)]. rewrite bytes_bind. apply eq_perm, bind_ext_elem. intros t _. apply bytes_fmap.
  - rewrite leader_bind, strided_all, bytes_fmap by done. apply eq_perm, bind_ext_elem.
    intros i Hi%elem_of_seqZ. apply Hf. lia.
Qed.

Section requests_of_tile.

Context (v : TileView) (Hok : view_ok v) (c : Z) (Hc : 0 < c < 2 ^ 31) (Hn : ext0 v * ext1 v < 2 ^ 64).

Notation all_requests := (seqZ 0 c ≫= fun t => tile_gda_workers t c v).

Notation all_elems := (seqZ 0 (ext0 v) ≫= fun i => seqZ 0 (width v) ≫= elem v i).

Lemma requests_contiguous n : n = ext0 v * width v * element_size v -> tile_classify v = Contiguous ->
  bytes (seqZ 0 c ≫= fun t => tile_contig_slices_nbi t c (dst_base v) (src_base v) (u64 n)) ≡ₚ all_elems.
Proof using Hok Hc.
  intros -> Hcl. destruct (ok_base v Hok) as [Hb1 Hb2].
  destruct (classify_contiguous v (ok_ndim v Hok) Hcl) as (H1 & H2 & H3 & H4).
  destruct (contig_bytes v Hok H1 H2 H3 H4) as [Hsp <-].
  rewrite (wrap_small 64 (ext0 v * _ * _)) by apply Hsp.
  rewrite <- (wrap_small 64 (dst_base v)), <- (wrap_small 64 (src_base v)) by done.
  rewrite contig_slices_bytes by done. by rewrite !wrap_small.
Qed.

Lemma requests_rows : ndim v = 2 -> tile_classify v = RowContig -> bytes all_requests ≡ₚ all_elems.
Proof using Hok Hc.
  intros Hd Hcl. destruct (classify_2d_rows v Hd Hcl) as [H1 H2].
  unfold tile_gda_workers. rewrite Hd, Hcl. cbn [Z.eqb Pos.eqb]. apply worker_loop; [lia|]. intros i Hi.
  destruct (row_bytes v Hok i Hi H1 H2) as [Hsp <-]. unfold width in *. rewrite Hd in *. cbn [Z.eqb Pos.eqb] in Hsp |- *.
  rewrite (wrap_small 64 (ext1 v * element_size v)) by apply Hsp. rewrite !u64_mul_r, !Z.mul_assoc.
  by rewrite xfer_space.
Qed.

Lemma requests_cols : ndim v = 2 -> tile_classify v = ColContig -> bytes all_requests ≡ₚ all_elems.
Proof using Hok Hc.
  intros Hd Hcl. destruct (classify_2d_cols v Hd Hcl) as [H1 H2].
  rewrite bind_swap. assert (Hwd : width v = ext1 v) by (unfold width; by rewrite Hd). rewrite Hwd.
  unfold tile_gda_workers. rewrite Hd, Hcl. cbn [Z.eqb Pos.eqb]. apply worker_loop; [lia|]. intros j Hj.
  destruct (col_bytes v Hok j ltac:(lia) H1 H2) as [Hsp <-].
  rewrite (wrap_small 64 (ext0 v * element_size v)) by apply Hsp. rewrite !u64_mul_r, !Z.mul_assoc.
  by rewrite xfer_space.
Qed.

Lemma requests_strided : ndim v = 2 -> tile_classify v = Strided -> bytes all_requests ≡ₚ all_elems.
Proof using Hok Hc Hn.
  intros Hd Hcl. assert (Hwd : width v = ext1 v) by (unfold width; by rewrite Hd). rewrite Hwd.
  destruct (ok_ext v Hok) as [He0 He1]. rewrite <- (bind_flat (elem v) (ext0 v) (ext1 v)) by done.
  unfold tile_gda_workers, tile_strided_2d_nbi. rewrite Hd, Hcl, (wrap_small 64 (ext0 v * ext1 v)) by lia.
  cbn [Z.eqb Pos.eqb]. apply worker_loop; [lia|]. intros x Hx.
  assert (0 < ext1 v) by nia. pose proof (Z.mod_pos_bound x (ext1 v) ltac:(lia)).
  assert (0 <= x / ext1 v < ext0 v) by (split; [apply Z.div_pos; lia|apply Z.div_lt_upper_bound; lia]).
  pose proof (elem_space v Hok (x / ext1 v) (x mod ext1 v) ltac:(lia) ltac:(lia)) as Hsp.
  split; apply (xfer_space _ _ _ Hsp).
Qed.

Lemma requests_line : ndim v = 1 -> tile_classify v = Strided -> bytes all_requests ≡ₚ all_elems.
Proof using Hok Hc.
  intros Hd Hcl. assert (Hwd : width v = 1) by (unfold width; by rewrite Hd). rewrite Hwd.
  unfold tile_gda_workers. unfold tile_classify in Hcl. rewrite Hd in Hcl |- *. cbn [Z.eqb Pos.eqb andb] in Hcl |- *.
  destruct ((src_s0 v =? 1) && (dst_s0 v =? 1)); [done|]. apply worker_loop; [lia|]. intros i Hi.
  rewrite bind_one. pose proof (elem_space v Hok i 0 Hi ltac:(lia)) as Hsp.
  unfold elem, d_at, s_at, elem_off in *. rewrite !Z.mul_0_l, !Z.add_0_r, <- !Z.mul_assoc in *.
  rewrite !u64_mul_r. by rewrite xfer_space.
Qed.

Lemma tile_gda_workers_bytes : bytes all_requests ≡ₚ bytes (tile_reference v).
Proof using Hok Hc Hn.
  rewrite (reference_bytes v (ok_ndim v Hok)). destruct (tile_classify v) eqn:Hcl.
  - unfold tile_gda_workers. pose proof Hcl as Hcl'. unfold tile_classify in Hcl'.
    destruct (ok_ndim v Hok) as [Hd|Hd]; rewrite Hd in Hcl' |- *; cbn [Z.eqb Pos.eqb andb] in Hcl' |- *.
    + destruct ((src_s0 v =? 1) && (dst_s0 v =? 1)); [|done]. apply requests_contiguous; [|done].
      unfold width. rewrite Hd. cbn. lia.
    + rewrite Hcl. apply requests_contiguous; [|done]. unfold width. by rewrite Hd.
  - destruct (ok_ndim v Hok) as [Hd|Hd]; [destruct (classify_1d v Hd); congruence|by apply requests_rows].
  - destruct (ok_ndim v Hok) as [Hd|Hd]; [destruct (classify_1d v Hd); congruence|by apply requests_cols].
  - destruct (ok_ndim v Hok) as [Hd|Hd]; [by apply requests_line|by apply requests_strided].
Qed.

End requests_of_tile.

(** A single thread posts the same bytes. *)
Lemma tile_nbi_bytes v : view_ok v -> bytes (tile_nbi v) ≡ₚ bytes (tile_reference v).
Proof.
  intros Hok. rewrite (reference_bytes v (ok_ndim v Hok)). pose proof (ok_base v Hok) as [Hb1 Hb2].
  assert (Hone : forall n, tile_classify v = Contiguous -> n = ext0 v * width v * element_size v ->
    bytes [(dst_base v, src_base v, u64 n)] = seqZ 0 (ext0 v) ≫= fun i => seqZ 0 (width v) ≫= elem v i).
  { intros n Hc ->. destruct (classify_contiguous v (ok_ndim v Hok) Hc) as (H1 & H2 & H3 & H4).
    destruct (contig_bytes v Hok H1 H2 H3 H4) as [Hsp <-]. rewrite wrap_small by apply Hsp. apply app_nil_r. }
  unfold tile_nbi. destruct (ok_ndim v Hok) as [Hd|Hd]; rewrite Hd; cbn [Z.eqb Pos.eqb].
  - assert (Hwd : width v = 1) by (unfold width; by rewrite Hd).
    destruct (classify_1d v Hd). destruct (tile_classify v) eqn:Hc; [apply eq_perm, Hone; [done|lia]|done|done|].
    rewrite strided_all, bytes_fmap, Hwd. apply eq_perm, bind_ext_elem. intros i Hi%elem_of_seqZ. rewrite bind_one.
    pose proof (elem_space v Hok i 0 ltac:(lia) ltac:(lia)) as Hsp. unfold elem, d_at, s_at, elem_off in *.
    rewrite !Z.mul_0_l, !Z.add_0_r in *. by apply xfer_space.
  - assert (Hwd : width v = ext1 v) by (unfold width; by rewrite Hd).
    destruct (tile_classify v) eqn:Hc; [apply eq_perm, Hone; [done|lia]| | |]; rewrite !strided_all, Hwd.
    + destruct (classify_2d_rows v Hd Hc). rewrite bytes_fmap. apply eq_perm, bind_ext_elem. intros i Hi%elem_of_seqZ.
      rewrite <- Hwd. destruct (row_bytes v Hok i) as [Hsp <-]; [lia|done..|].
      rewrite (wrap_small 64 (width v * _)) by apply Hsp. by apply xfer_space.
    + destruct (classify_2d_cols v Hd Hc). rewrite bind_swap, bytes_fmap. apply eq_perm, bind_ext_elem.
      intros j Hj%elem_of_seqZ. destruct (col_bytes v Hok j) as [Hsp <-]; [lia|done..|].
      rewrite (wrap_small 64 (ext0 v * _)) by apply Hsp. by apply xfer_space.
    + rewrite bytes_bind. apply eq_perm, bind_ext_elem. intros i Hi%elem_of_seqZ. rewrite bytes_fmap.
      apply bind_ext_elem. intros j Hj%elem_of_seqZ. apply (xfer_space _ _ _ (elem_space v Hok i j ltac:(lia) ltac:(lia))).
Qed.

(** ** Lengths of the requests *)

(** The longest run of bytes that one request covers is below 2 GiB. *)
Definition run_bytes (v : TileView) : Z :=
  match tile_classify v with
  | Contiguous => ext0 v * width v * element_size v
  | RowContig => ext1 v * element_size v
  | ColContig => ext0 v * element_size v
  | Strided => element_size v
  end.

Lemma posted_small l : (forall x, x ∈ l -> 0 <= x.2 < 2 ^ 31) -> posted l = l.
Proof.
  intros H. unfold posted. induction l as [|[[d s] n] l IH]; [done|]. cbn. rewrite IH by (intros x Hx; apply H; by right).
  rewrite s32_small; [done|]. specialize (H (d, s, n) ltac:(by left)). cbn in H. lia.
Qed.

Lemma slices_small w c d s n x : 0 <= w < c -> 0 <= n < 2 ^ 31 -> x ∈ tile_contig_slices_nbi w c d s n -> 0 <= x.2 < 2 ^ 31.
Proof.
  intros Hw Hn. unfold tile_contig_slices_nbi.
  assert (Hq : 0 <= n / c /\ c * (n / c) <= n) by (split; [apply Z.div_pos; lia|apply Z.mul_div_le; lia]).
  assert (0 <= w * (n / c) <= n) by nia. repeat case_if; rewrite ?list_elem_of_singleton; try (intros ?%elem_of_nil; done);
    intros ->; cbn [snd]; unwrap; nia.
Qed.

Lemma map_small {A} (f : A -> xfer) (l : list A) n (x : xfer) : (forall i, (f i).2 = n) -> 0 <= n < 2 ^ 31 -> x ∈ f <$> l -> 0 <= x.2 < 2 ^ 31.
Proof. intros Hf Hn (i & -> & _)%list_elem_of_fmap. by rewrite Hf. Qed.

Lemma run_small v : view_ok v -> run_bytes v < 2 ^ 31 -> 0 <= run_bytes v.
Proof.
  intros Hok Hr. destruct (ok_ext v Hok). pose proof (ok_elem v Hok). unfold run_bytes, width in *. destruct (tile_classify v); repeat case_if; nia.
Qed.

Lemma workers_small w c v x : view_ok v -> run_bytes v < 2 ^ 31 -> 0 <= w < c -> x ∈ tile_gda_workers w c v -> 0 <= x.2 < 2 ^ 31.
Proof.
  intros Hok Hr Hw. pose proof (run_small v Hok Hr) as H0. unfold tile_gda_workers, tile_rows_nbi, tile_cols_nbi, tile_strided_2d_nbi.
  pose proof (ok_elem v Hok). unfold run_bytes, width in *. destruct (ok_ndim v Hok) as [Hd|Hd]; rewrite Hd in *; cbn [Z.eqb Pos.eqb] in *.
  - unfold tile_classify in Hr, H0. rewrite Hd in *. cbn [Z.eqb Pos.eqb andb] in *.
    destruct ((src_s0 v =? 1) && (dst_s0 v =? 1)); [apply slices_small; [done|unwrap; lia]|].
    repeat case_if; try (intros ?%elem_of_nil; done); (eapply map_small; [intros ?; cbn [snd]; reflexivity|lia]).
  - destruct (tile_classify v); unwrap; repeat case_if; try (intros ?%elem_of_nil; done);
      try (eapply map_small; [intros ?; cbn [snd]; reflexivity|lia]). by apply slices_small.
Qed.

Lemma nbi_small v x : view_ok v -> run_bytes v < 2 ^ 31 -> x ∈ tile_nbi v -> 0 <= x.2 < 2 ^ 31.
Proof.
  intros Hok Hr. pose proof (run_small v Hok Hr) as H0. pose proof (ok_elem v Hok). unfold tile_nbi, run_bytes, width in *.
  destruct (ok_ndim v Hok) as [Hd|Hd]; rewrite Hd in *; cbn [Z.eqb Pos.eqb] in *;
    [destruct (classify_1d v Hd)|]; destruct (tile_classify v); try done; unwrap; rewrite ?list_elem_of_singleton;
    try (intros ->; cbn; lia); try (eapply map_small; [intros ?; cbn [snd]; reflexivity|lia]).
  intros (i & Hx & _)%list_elem_of_bind. revert Hx. eapply map_small; [intros ?; cbn [snd]; reflexivity|lia].
Qed.

(** Requests of runs below 2 GiB are posted with their length. *)
Lemma workers_posted v c : view_ok v -> run_bytes v < 2 ^ 31 ->
  (seqZ 0 c ≫= fun w => posted (tile_gda_workers w c v)) = seqZ 0 c ≫= fun w => tile_gda_workers w c v.
Proof.
  intros Hok Hr. apply bind_ext_elem. intros w Hw%elem_of_seqZ. apply posted_small. intros x Hx.
  by apply (workers_small w c v x Hok Hr ltac:(lia)).
Qed.

Lemma nbi_posted v : view_ok v -> run_bytes v < 2 ^ 31 -> posted (tile_nbi v) = tile_nbi v.
Proof. intros Hok Hr. apply posted_small. intros x Hx. by apply (nbi_small v). Qed.

(** ** Memory *)

(** No byte of the destination belongs to two elements. *)
Definition distinct (v : TileView) : Prop :=
  forall i j k i' j' k', 0 <= i < ext0 v -> 0 <= i' < ext0 v -> 0 <= j < width v -> 0 <= j' < width v ->
    0 <= k < element_size v -> 0 <= k' < element_size v -> d_at v i j + k = d_at v i' j' + k' -> i = i' /\ j = j' /\ k = k'.

(** And none is both read and written. *)
Record separate (v : TileView) : Prop := {
  sep_inj : distinct v;
  sep_apart : forall i j k i' j' k', 0 <= i < ext0 v -> 0 <= i' < ext0 v -> 0 <= j < width v -> 0 <= j' < width v ->
    0 <= k < element_size v -> 0 <= k' < element_size v -> d_at v i j + k <> s_at v i' j' + k'
}.

(** Byte copies without overlap may be made in any order. *)
Lemma copy_bytes_spec m l : NoDup l.*1 -> (forall p q, p ∈ l -> q ∈ l -> p.1 <> q.2) ->
  (forall p, p ∈ l -> copy_bytes m l p.1 = m p.2) /\ (forall x, x ∉ l.*1 -> copy_bytes m l x = m x).
Proof.
  unfold copy_bytes. induction l as [|p l IH] using rev_ind; [by split; [intros p ?%elem_of_nil|]|].
  rewrite fmap_app. intros (Hnd & Hdis & _)%NoDup_app Hap.
  destruct IH as [IH1 IH2]; [done|intros a b Ha Hb; apply Hap; apply elem_of_app; by left|].
  assert (Hp : p ∈ l ++ [p]) by (apply elem_of_app; right; by left).
  rewrite foldl_app. cbn [foldl]. split.
  - intros q [Hq|Hq]%elem_of_app.
    + rewrite upd_ne; [by apply IH1|]. intros He. apply (Hdis q.1); [by apply list_elem_of_fmap_2|].
      rewrite He. by left.
    + apply list_elem_of_singleton in Hq as ->. rewrite upd_eq. apply IH2. intros (q & He & Hq)%list_elem_of_fmap_1.
      apply (Hap q p); [apply elem_of_app; by left|done|done].
  - intros x Hx. rewrite elem_of_app in Hx. rewrite upd_ne; [apply IH2; tauto|]. intros ->. apply Hx. right. by left.
Qed.

Lemma elem_of_elems v p : p ∈ (seqZ 0 (ext0 v) ≫= fun i => seqZ 0 (width v) ≫= elem v i) <->
  exists i j k, 0 <= i < ext0 v /\ 0 <= j < width v /\ 0 <= k < element_size v /\ p = (d_at v i j + k, s_at v i j + k).
Proof.
  rewrite list_elem_of_bind. split.
  - intros (i & Hp & Hi%elem_of_seqZ). apply list_elem_of_bind in Hp as (j & Hp & Hj%elem_of_seqZ).
    apply list_elem_of_fmap_1 in Hp as (k & -> & Hk%elem_of_seqZ). exists i, j, k. repeat split; lia.
  - intros (i & j & k & Hi & Hj & Hk & ->). exists i. split; [|apply elem_of_seqZ; lia].
    apply list_elem_of_bind. exists j. split; [|apply elem_of_seqZ; lia].
    apply (list_elem_of_fmap_2 (fun k => (d_at v i j + k, s_at v i j + k))), elem_of_seqZ. lia.
Qed.

Lemma elems_nodup v : distinct v ->
  NoDup (fst <$> (seqZ 0 (ext0 v) ≫= fun i => seqZ 0 (width v) ≫= elem v i)).
Proof.
  intros Hinj. rewrite fmap_bind.
  assert (Hrow : forall i, fst <$> (seqZ 0 (width v) ≫= elem v i) =
    seqZ 0 (width v) ≫= fun j => (fun k => d_at v i j + k) <$> seqZ 0 (element_size v)).
  { intros i. rewrite fmap_bind. apply bind_ext_elem. intros j _. unfold elem, xfer_bytes. by rewrite <- list_fmap_compose. }
  rewrite (bind_ext_elem _ _ _ (fun i _ => Hrow i)).
  apply NoDup_bind; [| |apply NoDup_seqZ].
  - intros i i' x Hi Hi' Hx Hx'. apply elem_of_seqZ in Hi, Hi'. apply list_elem_of_bind in Hx as (j & Hx & Hj%elem_of_seqZ).
    apply list_elem_of_bind in Hx' as (j' & Hx' & Hj'%elem_of_seqZ).
    apply list_elem_of_fmap_1 in Hx as (k & -> & Hk%elem_of_seqZ).
    apply list_elem_of_fmap_1 in Hx' as (k' & He & Hk'%elem_of_seqZ). by apply (Hinj i j k i' j' k'); try lia.
  - intros i Hi%elem_of_seqZ. apply NoDup_bind; [| |apply NoDup_seqZ].
    + intros j j' x Hj Hj' Hx Hx'. apply elem_of_seqZ in Hj, Hj'.
      apply list_elem_of_fmap_1 in Hx as (k & -> & Hk%elem_of_seqZ).
      apply list_elem_of_fmap_1 in Hx' as (k' & He & Hk'%elem_of_seqZ). by apply (Hinj i j k i j' k'); try lia.
    + intros j Hj. apply NoDup_fmap_2; [intros k k' He; lia|apply NoDup_seqZ].
Qed.

(** What a tile operation does to memory. *)
Definition copied (v : TileView) (m m' : Z -> Z) : Prop :=
  (forall i j k, 0 <= i < ext0 v -> 0 <= j < width v -> 0 <= k < element_size v ->
     m' (d_at v i j + k) = m (s_at v i j + k)) /\
  (forall x, (forall i j k, 0 <= i < ext0 v -> 0 <= j < width v -> 0 <= k < element_size v -> x <> d_at v i j + k) ->
     m' x = m x).

Lemma reference_copied v m l : ndim v = 1 \/ ndim v = 2 -> separate v -> l ≡ₚ bytes (tile_reference v) ->
  copied v m (copy_bytes m l).
Proof.
  intros Hd Hsep Hl. rewrite (reference_bytes v Hd) in Hl.
  destruct (copy_bytes_spec m l) as [H1 H2].
  - rewrite Hl. apply elems_nodup, Hsep.
  - intros p q. rewrite Hl, !elem_of_elems. intros (i & j & k & ? & ? & ? & ->) (i' & j' & k' & ? & ? & ? & ->).
    by apply (sep_apart v Hsep).
  - split.
    + intros i j k Hi Hj Hk. apply (H1 (d_at v i j + k, s_at v i j + k)). rewrite Hl. apply elem_of_elems. eauto 10.
    + intros x Hx. apply H2. intros (p & -> & Hp)%list_elem_of_fmap_1. rewrite Hl in Hp.
      apply elem_of_elems in Hp as (i & j & k & Hi & Hj & Hk & ->). by apply (Hx i j k).
Qed.

(** Where the elements of a two-dimensional tile are: the start moves the
    destination of a put and the source of a get, and only these. *)
Lemma view_at dst_data src_data a is_put i j : rank a = 2 ->
  let v := tile_make_view dst_data src_data a is_put in
  let at_start s := ((start_coord a 0 + i) * s 0 + (start_coord a 1 + j) * s 1) * elem_size a in
  let at_origin s := (i * s 0 + j * s 1) * elem_size a in
  u64 (d_at v i j) = u64 (dst_data + (if is_put then at_start else at_origin) (dst_strides a)) /\
  u64 (s_at v i j) = u64 (src_data + (if is_put then at_origin else at_start) (src_strides a)).
Proof.
  intros Hr. unfold tile_make_view. rewrite Hr. cbn zeta. cbn [Z.eqb Pos.eqb].
  unfold d_at, s_at, elem_off. cbn. destruct is_put; rewrite ?wrap_add_l; split; f_equal; lia.
Qed.

(** ** Properties *)

(** C9: Whatever layout the classification finds, and whether one thread, a wave whose
    64 lanes are all active, or a block does the work, the bytes that the moves of the
    threads transfer for a tile, in any order, are a permutation of the bytes that one
    copy per element in row-major order transfers.  This holds for tiles in the
    address space whose counts fit where the code keeps them in an [int]: a
    contiguous tile copied by a wave has less than 2 GiB, a strided one of two
    dimensions fewer than [2^31] elements.  If moreover no two destination elements
    overlap and none overlaps a source, then after the moves, made in any order, every
    element of the tile is in place and no other byte has changed. *)
Theorem tile_memcpy_rma_exact is_put scope who block_size dst_data src_data a (l : list (Z * Z))
    (Hok : view_ok (tile_make_view dst_data src_data a is_put))
    (Hint : int_sized scope block_size (tile_make_view dst_data src_data a is_put))
    (Hw : 0 <= who) (Hb : 0 < block_size)
    (Hl : l ≡ₚ bytes (crew scope who block_size ≫= fun t =>
            tile_memcpy_rma t block_size WF_SIZE is_put scope dst_data src_data a)) :
  l ≡ₚ bytes (tile_reference (tile_make_view dst_data src_data a is_put)) /\
  (separate (tile_make_view dst_data src_data a is_put) ->
   forall m, copied (tile_make_view dst_data src_data a is_put) m (copy_bytes m l)).
Proof.
  unfold tile_memcpy_rma in Hl. rewrite (tile_copy_bytes _ Hok scope who block_size Hw Hb Hint) in Hl.
  split; [done|]. intros Hs m. apply reference_copied; [apply ok_ndim, Hok|done|done].
Qed.

(** C8: The requests that the workers post to the card for a tile, and those of a
    single thread, with their lengths as [int32_t], transfer a permutation of the bytes
    that one request per element transfers, for every layout and number of workers, as
    long as a contiguous run of the tile (the tile, a row, a column or an element) has
    less than 2 GiB.  If moreover no two destination elements overlap and none overlaps
    a source, they put every element of the tile in place and change nothing else. *)
Theorem tile_gda_exact (is_put : bool) worker_count dst_data src_data a (l : list (Z * Z))
    (Hok : view_ok (tile_make_view dst_data src_data a is_put))
    (Hc : 0 < worker_count < 2 ^ 31)
    (Hn : ext0 (tile_make_view dst_data src_data a is_put) * ext1 (tile_make_view dst_data src_data a is_put) < 2 ^ 64)
    (Hrun : run_bytes (tile_make_view dst_data src_data a is_put) < 2 ^ 31)
    (Hl : l ≡ₚ bytes (seqZ 0 worker_count ≫= fun w =>
              if is_put then tile_put_gda_workers w worker_count dst_data src_data a
              else tile_get_gda_workers w worker_count dst_data src_data a) \/
          l ≡ₚ bytes (if is_put then tile_put dst_data src_data a else tile_get dst_data src_data a)) :
  l ≡ₚ bytes (tile_reference (tile_make_view dst_data src_data a is_put)) /\
  (separate (tile_make_view dst_data src_data a is_put) ->
   forall m, copied (tile_make_view dst_data src_data a is_put) m (copy_bytes m l)).
Proof.
  assert (Hr : l ≡ₚ bytes (tile_reference (tile_make_view dst_data src_data a is_put))).
  { destruct Hl as [-> | ->].
    - rewrite <- (tile_gda_workers_bytes _ Hok worker_count Hc Hn), <- (workers_posted _ worker_count Hok Hrun). by destruct is_put.
    - rewrite <- (tile_nbi_bytes _ Hok), <- (nbi_posted _ Hok Hrun). by destruct is_put. }
  split; [done|]. intros Hs m. apply reference_copied; [apply ok_ndim, Hok|done|done].
Qed.

(** Every queue pair on which a worker posts is one that the first worker waits
    for after the barrier, and belongs to the target. *)
Theorem tile_workers_quiet num_qps num_pes qp_counter pe worker_id worker_count
    (Hq : 0 < num_qps) (Hp : 0 <= pe < num_pes) (Hw : 0 <= worker_id < worker_count) :
  let qp := tile_qp_index_for_worker num_qps num_pes qp_counter pe in
  qp worker_id worker_count ∈ tile_quiet_gda_workers num_qps num_pes pe 0 worker_count (qp 0 worker_count) /\
  qp worker_id worker_count mod num_pes = pe.
Proof.
  cbn zeta. unfold tile_qp_index_for_worker, tile_quiet_gda_workers. cbn [Z.eqb negb].
  assert (Hmod : forall x, (x * num_pes + pe) mod num_pes = pe).
  { intros x. rewrite Z.add_comm, Z_mod_plus_full. by apply Z.mod_small. }
  destruct (worker_count <=? WF_SIZE); (split; [|apply Hmod]); [by left|].
  apply (list_elem_of_fmap_2 (fun i => i * num_pes + pe)), elem_of_seqZ.
  pose proof (Z.mod_pos_bound (worker_id / WF_SIZE) num_qps Hq). lia.
Qed.

(** ** Examples *)

(** A tile of two rows and three columns, of four bytes each, at row 1 and column 2. *)
Definition small_tile (dst_row src_row : Z) : tile_args :=
  mkTile (fun d => if d =? 0 then dst_row else 1) (fun d => if d =? 0 then src_row else 1)
    (fun d => if d =? 0 then 1 else 2) (fun d => if d =? 0 then 3 else 5) 2 4.

Lemma small_tile_view : tile_make_view 4096 8192 (small_tile 10 5) true = mkView 8192 4144 2 3 5 1 10 1 4 2.
Proof. done. Qed.

Lemma small_tile_ok : view_ok (tile_make_view 4096 8192 (small_tile 10 5) true).
Proof. rewrite small_tile_view. split; [by right|done|done|done|]. unfold d_at, s_at, elem_off, width. cbn. lia. Qed.

Lemma small_tile_separate : separate (tile_make_view 4096 8192 (small_tile 10 5) true).
Proof. rewrite small_tile_view. split; unfold distinct, d_at, s_at, elem_off, width; cbn; lia. Qed.

Lemma tile_memcpy_rma_exact_witness :
  copy_bytes (fun x => x mod 100)
    (bytes (crew Wg 0 4 ≫= fun t => tile_memcpy_rma t 4 WF_SIZE true Wg 4096 8192 (small_tile 10 5))) 4145 = 93.
Proof.
  destruct (tile_memcpy_rma_exact true Wg 0 4 4096 8192 (small_tile 10 5) _ small_tile_ok I ltac:(lia) ltac:(lia)
    (Permutation_refl _)) as [_ H].
  exact (proj1 (H small_tile_separate (fun x => x mod 100)) 0 0 1 ltac:(rewrite small_tile_view; cbn; lia)
    ltac:(rewrite small_tile_view; cbn; lia) ltac:(rewrite small_tile_view; cbn; lia)).
Defined.

Lemma tile_gda_exact_witness :
  copy_bytes (fun x => x mod 100) (bytes (tile_put 4096 8192 (small_tile 10 5))) 4145 = 93.
Proof.
  destruct (tile_gda_exact true 4 4096 8192 (small_tile 10 5) _ small_tile_ok ltac:(lia) ltac:(rewrite small_tile_view; cbn; lia)
    ltac:(rewrite small_tile_view; reflexivity) (or_intror (Permutation_refl _))) as [_ H].
  exact (proj1 (H small_tile_separate (fun x => x mod 100)) 0 0 1 ltac:(rewrite small_tile_view; cbn; lia)
    ltac:(rewrite small_tile_view; cbn; lia) ltac:(rewrite small_tile_view; cbn; lia)).
Defined.

Lemma tile_workers_quiet_witness :
  tile_qp_index_for_worker 4 3 7 2 130 256 ∈ tile_quiet_gda_workers 4 3 2 0 256 11.
Proof. exact (proj1 (tile_workers_quiet 4 3 7 2 130 256 ltac:(lia) ltac:(lia) ltac:(lia))). Defined.

(** A tile of [n] columns with gaps between the elements of a row. *)
Definition gapped_tile (rows n : Z) : tile_args :=
  mkTile (fun d => if d =? 0 then 4 * n else 2) (fun d => if d =? 0 then 4 * n else 2) (fun _ => 0)
    (fun d => if d =? 0 then rows else n) 2 1.

(** The copy of a strided tile counts its elements in an [int]: with [2^31]
    elements the loop is not entered and nothing is copied, although the tile is
    in the address space. *)
Theorem tile_strided_count_overflows :
  view_ok (tile_make_view 0 (2 ^ 62) (gapped_tile (2 ^ 16) (2 ^ 15)) true) /\
  (crew Wg 0 256 ≫= fun t => tile_memcpy_rma t 256 WF_SIZE true Wg 0 (2 ^ 62) (gapped_tile (2 ^ 16) (2 ^ 15))) = [].
Proof.
  split; [|by vm_compute].
  change (tile_make_view _ _ _ _) with (mkView (2 ^ 62) 0 (2 ^ 16) (2 ^ 15) (2 ^ 17) 2 (2 ^ 17) 2 1 2).
  split; [by right|done|done|done|]. unfold d_at, s_at, elem_off, width. cbn. lia.
Qed.

(** The length of a request is an [int32_t]: a contiguous tile of 2 GiB is posted by a
    single thread as one request of negative length. *)
Theorem tile_request_overflows :
  let a := mkTile (fun _ => 1) (fun _ => 1) (fun _ => 0) (fun _ => 2 ^ 28) 1 8 in
  view_ok (tile_make_view 0 (2 ^ 62) a true) /\ tile_put 0 (2 ^ 62) a = [(0, 2 ^ 62, - 2 ^ 31)].
Proof.
  cbv zeta. split; [|by vm_compute]. change (tile_make_view _ _ _ _) with (mkView (2 ^ 62) 0 (2 ^ 28) 0 1 0 1 0 8 1).
  split; [by left|done|done|done|]. unfold d_at, s_at, elem_off, width. cbn. lia.
Qed.

(** A wave counts 64 workers although fewer lanes are active: a block of 32
    threads copies rows 0 to 31 of 64 and leaves out the others. *)
Theorem tile_wave_partial :
  let a := mkTile (fun d => if d =? 0 then 16 else 1) (fun d => if d =? 0 then 16 else 1) (fun _ => 0)
             (fun d => if d =? 0 then 64 else 4) 2 8 in
  (seqZ 0 32 ≫= fun t => (fun x => x.1.1) <$> tile_memcpy_rma t 32 32 true Wave 0 65536 a) =
  seqZ 0 32 ≫= fun row => [row * 128; row * 128 + 16].
Proof. by vm_compute. Qed.
