(* ===== verification/TileColl.v ===== *)
(** * Collectives of tiles

    Model of [tile_allgather] and [tile_broadcast] with their wave and work-group
    forms ([src/ipc/context_ipc_tmpl_device.hpp],
    [src/gda/context_gda_tmpl_device.hpp]): a PE gets the tiles of the others one
    after the other, each get with its own wait, and then synchronises.  The class
    [TileGet] states what the collectives rely on, that a get moves the bytes of the
    tile's elements; the copies of [Tile] are its instances.  PEs are named by their
    rank and addresses are relative to the tensors, which are symmetric objects.  All
    peers are taken to be reachable: an address that cannot be translated makes the
    code return an error before the synchronisation. *)

From Stdlib Require Import ZArith Lia.
From stdpp Require Import base option numbers list relations.
From S2P Require Import Prelude Loops Staged Transfers Tile.

Open Scope Z_scope.

(** ** Gets of tiles *)

(** The pairs of destination and source bytes of a get to a given place. *)
Class TileGet (a : tile_args) (get : Z -> list (Z * Z)) : Prop :=
  get_exact dst : view_ok (tile_make_view dst 0 a false) ->
    get dst ≡ₚ bytes (tile_reference (tile_make_view dst 0 a false)).

(** Over mapped memory, by a lane, a wave or a block. *)
Definition ipc_tile_get (scope : TileScope) (who block_size : Z) (a : tile_args) (dst : Z) : list (Z * Z) :=
  bytes (crew scope who block_size ≫= fun t => tile_memcpy_rma t block_size WF_SIZE false scope dst 0 a).

(** Over the network, by a crew of workers or a single thread. *)
Definition gda_tile_get (worker_count : Z) (a : tile_args) (dst : Z) : list (Z * Z) :=
  bytes (seqZ 0 worker_count ≫= fun w => tile_get_gda_workers w worker_count dst 0 a).

Definition gda_tile_get_single (a : tile_args) (dst : Z) : list (Z * Z) := bytes (tile_get dst 0 a).

#[export] Instance ipc_tile_get_exact scope who block_size a :
  0 <= who -> 0 < block_size -> (forall dst, int_sized scope block_size (tile_make_view dst 0 a false)) ->
  TileGet a (ipc_tile_get scope who block_size a).
Proof. intros Hw Hb Hi dst Hok. by apply tile_copy_bytes. Qed.

#[export] Instance gda_tile_get_exact worker_count a :
  0 < worker_count < 2 ^ 31 ->
  (forall dst, ext0 (tile_make_view dst 0 a false) * ext1 (tile_make_view dst 0 a false) < 2 ^ 64) ->
  (forall dst, run_bytes (tile_make_view dst 0 a false) < 2 ^ 31) ->
  TileGet a (gda_tile_get worker_count a).
Proof.
  intros Hc He Hr dst Hok. unfold gda_tile_get, tile_get_gda_workers. rewrite workers_posted by done. by apply tile_gda_workers_bytes.
Qed.

#[export] Instance gda_tile_get_single_exact a :
  (forall dst, run_bytes (tile_make_view dst 0 a false) < 2 ^ 31) -> TileGet a (gda_tile_get_single a).
Proof. intros Hr dst Hok. unfold gda_tile_get_single, tile_get. rewrite nbi_posted by done. by apply tile_nbi_bytes. Qed.

(** ** Collectives *)

Section collectives.

Context {T : Type} (team_size : Z) (a : tile_args) (get : Z -> list (Z * Z)).
Notation action := (action (loc := loc) (T := T)).

(** PE [me] gets the pairs from PE [pe]. *)
Definition tile_action (me pe : Z) (pairs : list (Z * Z)) : action :=
  mkAction
    (fun '(q, b, x) => (q =? me) && bool_decide (b = Dest) && existsb (fun p => p.1 =? x) pairs)
    (fun '(q, b, x) => (q =? pe) && bool_decide (b = Source) && existsb (fun p => p.2 =? x) pairs)
    (fun m '(q, b, x) => match List.find (fun p => p.1 =? x) pairs with Some p => m (pe, Source, p.2) | None => m (q, b, x) end).

(** Where the tile of a rank goes. *)
Definition stack_offset (src_pe_in_team : Z) : Z :=
  let tile_extent_dim0 := u64 (boundary a 0 - start_coord a 0) in
  u64 (src_pe_in_team * tile_extent_dim0 * dst_strides a 0 * elem_size a).

Definition tile_allgather (me : Z) : list (list (list action)) :=
  [blocking ((fun r => tile_action me r (get (stack_offset r))) <$> seqZ 0 team_size)].

(** The destination of the root is left alone. *)
Definition tile_broadcast (root me : Z) : list (list (list action)) :=
  [if me =? root then [] else blocking [tile_action me root (get 0)]].

(** ** Proofs *)

Lemma tile_action_local me pe pairs : local (tile_action me pe pairs).
Proof.
  intros m m' H [[q b] x] Hw. cbn in Hw |- *. apply andb_prop in Hw as [_ (p & Hp & Hx)%existsb_exists].
  destruct (List.find (fun p => p.1 =? x) pairs) as [p'|] eqn:E.
  - apply List.find_some in E as [Hp' _]. apply H. cbn. rewrite Z.eqb_refl, bool_decide_true by done. cbn.
    apply existsb_exists. exists p'. split; [done|apply Z.eqb_refl].
  - apply (List.find_none _ _ E) in Hp. cbn in Hp. congruence.
Qed.

(** Writes go to the destination of the PE itself, reads come from a source. *)
Lemma tile_action_writes me pe pairs q b x : writes (tile_action me pe pairs) (q, b, x) = true <->
  q = me /\ b = Dest /\ x ∈ pairs.*1.
Proof.
  cbn. rewrite !andb_true_iff, Z.eqb_eq, bool_decide_eq_true, existsb_exists, list_elem_of_fmap. split.
  - intros [[-> ->] (p & Hp & Hx)]. split; [done|]. split; [done|]. exists p. rewrite list_elem_of_In. split; [lia|done].
  - intros (-> & -> & p & -> & Hp). split; [done|]. exists p. rewrite list_elem_of_In in Hp. split; [done|apply Z.eqb_refl].
Qed.

Lemma tile_action_reads me pe pairs q b x : reads (tile_action me pe pairs) (q, b, x) = true -> b = Source.
Proof. cbn. rewrite !andb_true_iff, bool_decide_eq_true. tauto. Qed.

Lemma tile_actions_apart me pe pairs me' pe' pairs' : me <> me' \/ (forall x, x ∈ pairs.*1 -> x ∉ pairs'.*1) ->
  no_clash (tile_action me pe pairs) (tile_action me' pe' pairs').
Proof.
  intros H. apply no_clash_intro; intros [[q b] x].
  - rewrite !tile_action_writes. intros (-> & -> & Hx) (E & _ & Hx'). destruct H as [H|H]; [done|by apply (H x)].
  - rewrite tile_action_writes. intros (_ & -> & _) Hr%tile_action_reads. done.
  - rewrite tile_action_writes. intros ->%tile_action_reads (_ & E & _). done.
Qed.

Lemma tile_action_value me pe pairs m d s : NoDup pairs.*1 -> (d, s) ∈ pairs ->
  value (tile_action me pe pairs) m (me, Dest, d) = m (pe, Source, s).
Proof.
  intros Hnd Hp. cbn. assert (E : List.find (fun p => p.1 =? d) pairs = Some (d, s)); [|by rewrite E].
  induction pairs as [|[d' s'] l IH]; [by apply elem_of_nil in Hp|]. rewrite fmap_cons in Hnd. apply NoDup_cons in Hnd as [Hni Hnd].
  cbn. destruct (Z.eqb_spec d' d) as [->|Hne].
  - apply elem_of_cons in Hp as [[= ->]|Hp]; [done|]. destruct Hni. apply list_elem_of_fmap. by exists (d, s).
  - apply elem_of_cons in Hp as [[= -> ->]|Hp]; [done|]. by apply IH.
Qed.

Notation view dst := (tile_make_view dst 0 a false).

Context `{Hget : !TileGet a get}.

Lemma get_elem dst d s : view_ok (view dst) -> (d, s) ∈ get dst <->
  exists i j k, 0 <= i < ext0 (view dst) /\ 0 <= j < width (view dst) /\ 0 <= k < element_size (view dst) /\
    (d, s) = (d_at (view dst) i j + k, s_at (view dst) i j + k).
Proof using Hget.
  intros Hok. rewrite (get_exact (TileGet := Hget) dst Hok), (reference_bytes _ (ok_ndim _ Hok)). apply elem_of_elems.
Qed.

Lemma get_nodup dst : view_ok (view dst) -> distinct (view dst) -> NoDup (get dst).*1.
Proof using Hget.
  intros Hok Hd. rewrite (get_exact (TileGet := Hget) dst Hok), (reference_bytes _ (ok_ndim _ Hok)). by apply elems_nodup.
Qed.

(** Only the base of the destination depends on where the tile goes. *)
Lemma view_fields d : ext0 (view d) = ext0 (view 0) /\ ext1 (view d) = ext1 (view 0) /\
  width (view d) = width (view 0) /\ element_size (view d) = element_size (view 0) /\
  ndim (view d) = ndim (view 0) /\ dst_base (view d) = d /\ src_base (view d) = src_base (view 0) /\
  (forall i j, d_at (view d) i j = d + d_at (view 0) i j) /\
  (forall i j, s_at (view d) i j = s_at (view 0) i j).
Proof using. unfold tile_make_view. destruct (rank a =? 2); [done|]. by destruct (rank a =? 1). Qed.

(** The tensor of the stacked tiles: its rows are those of the tile of rank 0, then those of
    rank 1 and so on.  It lies in the address space, and no byte belongs to two elements. *)
Record stack_ok : Prop := {
  stack_tile : view_ok (view 0);
  stack_fits : forall x j, 0 <= x < team_size * ext0 (view 0) -> 0 <= j < width (view 0) ->
    0 <= d_at (view 0) x j /\ d_at (view 0) x j + element_size (view 0) < 2 ^ 64;
  stack_distinct : forall x j k x' j' k',
    0 <= x < team_size * ext0 (view 0) -> 0 <= x' < team_size * ext0 (view 0) ->
    0 <= j < width (view 0) -> 0 <= j' < width (view 0) ->
    0 <= k < element_size (view 0) -> 0 <= k' < element_size (view 0) ->
    d_at (view 0) x j + k = d_at (view 0) x' j' + k' -> x = x' /\ j = j' /\ k = k'
}.

Lemma stack_row r i : 0 <= r < team_size -> 0 <= i < ext0 (view 0) ->
  0 <= r * ext0 (view 0) + i < team_size * ext0 (view 0).
Proof using. intros Hr Hi. nia. Qed.

Lemma d_at_shift x i j : d_at (view 0) (x + i) j = d_at (view 0) x 0 + d_at (view 0) i j.
Proof using.
  unfold d_at, elem_off. destruct (view_fields 0) as (_ & _ & _ & _ & _ & -> & _). lia.
Qed.

(** The place of a row of the tile of rank [r], if the tile has any elements. *)
Lemma stack_at r i j : stack_ok -> 0 <= r < team_size -> 0 <= i < ext0 (view 0) -> 0 <= j < width (view 0) ->
  d_at (view (stack_offset r)) i j = d_at (view 0) (r * ext0 (view 0) + i) j.
Proof using.
  intros Hst Hr Hi Hj. destruct (view_fields (stack_offset r)) as (_ & _ & _ & _ & _ & _ & _ & -> & _).
  rewrite d_at_shift. f_equal.
  pose proof (stack_row r 0 Hr ltac:(lia)) as Hrow. rewrite Z.add_0_r in Hrow.
  pose proof (stack_fits Hst (r * ext0 (view 0)) 0 Hrow ltac:(lia)) as [Hlo Hhi].
  pose proof (ok_elem _ (stack_tile Hst)) as He. destruct (ok_ndim _ (stack_tile Hst)) as [Hd|Hd].
  all: unfold stack_offset, d_at, elem_off, tile_make_view in *.
  all: destruct (rank a =? 2); [|destruct (rank a =? 1)]; cbn [ext0 dst_base dst_s0 dst_s1 element_size ndim] in *; try lia.
  all: rewrite wrap_small; lia.
Qed.

Lemma stack_view r : stack_ok -> 0 <= r < team_size -> view_ok (view (stack_offset r)).
Proof using.
  intros Hst Hr. pose proof (stack_tile Hst) as [Hn He Hs Hb Ha].
  destruct (view_fields (stack_offset r)) as (E0 & E1 & E2 & E3 & E4 & E5 & E6 & _ & E8).
  split; rewrite ?E0, ?E1, ?E3, ?E4, ?E5, ?E6; try done.
  - split; [|apply Hb]. unfold stack_offset. apply wrap_range. lia.
  - rewrite E2. intros i j Hi Hj. rewrite stack_at, E8 by done.
    destruct (stack_fits Hst _ j (stack_row r i Hr Hi) Hj). destruct (Ha i j Hi Hj) as (_ & _ & ? & ?). done.
Qed.

Lemma stack_view_distinct r : stack_ok -> 0 <= r < team_size -> distinct (view (stack_offset r)).
Proof using.
  intros Hst Hr i j k i' j' k'. destruct (view_fields (stack_offset r)) as (-> & _ & -> & -> & _).
  intros Hi Hi' Hj Hj' Hk Hk'. rewrite !stack_at by done. intros E.
  apply (stack_distinct Hst) in E as (? & ? & ?); try done; [lia|by apply stack_row|by apply stack_row].
Qed.

(** The tiles of two ranks do not overlap. *)
Lemma gets_apart r r' x : stack_ok -> 0 <= r < team_size -> 0 <= r' < team_size -> r <> r' ->
  x ∈ (get (stack_offset r)).*1 -> x ∉ (get (stack_offset r')).*1.
Proof using Hget.
  intros Hst Hr Hr' Hne ([d s] & -> & Hx)%list_elem_of_fmap_1 ([d' s'] & E & Hx')%list_elem_of_fmap_1.
  cbn in E. subst d'.
  apply get_elem in Hx as (i & j & k & Hi & Hj & Hk & [= E _]); [|by apply stack_view].
  apply get_elem in Hx' as (i' & j' & k' & Hi' & Hj' & Hk' & [= E' _]); [|by apply stack_view].
  destruct (view_fields (stack_offset r)) as (F0 & _ & F2 & F3 & _), (view_fields (stack_offset r')) as (G0 & _ & G2 & G3 & _).
  rewrite F0 in Hi. rewrite F2 in Hj. rewrite F3 in Hk. rewrite G0 in Hi'. rewrite G2 in Hj'. rewrite G3 in Hk'.
  rewrite stack_at in E, E' by done. rewrite E in E'.
  apply (stack_distinct Hst) in E' as (Hrow & _); try done; [nia|by apply stack_row|by apply stack_row].
Qed.

Lemma allgather_acts me : acts tile_allgather me 0 = (fun r => tile_action me r (get (stack_offset r))) <$> seqZ 0 team_size.
Proof using. unfold acts. cbn [tile_allgather lookup list_lookup from_option id]. apply concat_blocking. Qed.

Lemma allgather_staged : well_staged team_size tile_allgather 1.
Proof using.
  split.
  - done.
  - intros p [|k] x Hp Hx; [|by apply elem_of_nil in Hx]. rewrite allgather_acts in Hx.
    apply list_elem_of_fmap_1 in Hx as (r & -> & _). apply tile_action_local.
  - intros p q [|k] x y Hp Hq Hne Hx Hy; [|by apply elem_of_nil in Hx]. rewrite allgather_acts in Hx, Hy.
    apply list_elem_of_fmap_1 in Hx as (r & -> & _). apply list_elem_of_fmap_1 in Hy as (r' & -> & _).
    apply tile_actions_apart. by left.
  - intros p [|k] Hp; [apply blocking_apart|constructor].
Qed.

Lemma allgather_result m0 me r i j k : stack_ok -> is_agent team_size me -> is_agent team_size r ->
  0 <= i < ext0 (view 0) -> 0 <= j < width (view 0) -> 0 <= k < element_size (view 0) ->
  after team_size (program tile_allgather) m0 1 (me, Dest, d_at (view 0) (r * ext0 (view 0) + i) j + k)
  = m0 (r, Source, s_at (view 0) i j + k).
Proof using Hget.
  intros Hst Hme Hr Hi Hj Hk. unfold is_agent in Hr.
  destruct (view_fields (stack_offset r)) as (F0 & _ & F2 & F3 & _ & _ & _ & _ & F8).
  assert (Hin : (d_at (view 0) (r * ext0 (view 0) + i) j + k, s_at (view 0) i j + k) ∈ get (stack_offset r)).
  { apply get_elem; [by apply stack_view|]. exists i, j, k. rewrite F0, F2, F3, F8, stack_at by done. done. }
  assert (Hlook : forall n b, acts tile_allgather me 0 !! n = Some b ->
    b = tile_action me (Z.of_nat n) (get (stack_offset (Z.of_nat n))) /\ Z.of_nat n < team_size).
  { intros n b. rewrite allgather_acts, list_lookup_fmap. destruct (seqZ 0 team_size !! n) as [x|] eqn:E; [|done].
    intros [= <-]. apply lookup_seqZ in E as [-> ?]. by rewrite Z.add_0_l. }
  rewrite (after_alone team_size tile_allgather 1 m0 allgather_staged 0 me (Z.to_nat r) (tile_action me r (get (stack_offset r)))).
  - by apply tile_action_value; [apply get_nodup; [apply stack_view|apply stack_view_distinct]|].
  - done.
  - rewrite allgather_acts, list_lookup_fmap, lookup_seqZ_lt by lia. cbn. by rewrite Z2Nat.id by lia.
  - apply tile_action_writes. split; [done|]. split; [done|]. apply list_elem_of_fmap. eexists. split; [|exact Hin]. done.
  - intros n b Hb Hne. destruct (Hlook n b Hb) as [-> Hn]. apply tile_actions_apart. right. intros x Hx.
    by apply (gets_apart (Z.of_nat n)); [done|lia|lia|lia|].
Qed.

Lemma broadcast_staged root : well_staged team_size (tile_broadcast root) 1.
Proof using.
  assert (Hacts : forall me x, x ∈ acts (tile_broadcast root) me 0 -> x = tile_action me root (get 0)).
  { intros me x. unfold acts. cbn [tile_broadcast lookup list_lookup from_option id]. case_if; [by intros ?%elem_of_nil|].
    rewrite concat_blocking. by intros ->%list_elem_of_singleton. }
  split.
  - done.
  - intros p [|k] x Hp Hx; [|by apply elem_of_nil in Hx]. rewrite (Hacts p x Hx). apply tile_action_local.
  - intros p q [|k] x y Hp Hq Hne Hx Hy; [|by apply elem_of_nil in Hx]. rewrite (Hacts p x Hx), (Hacts q y Hy).
    apply tile_actions_apart. by left.
  - intros p [|k] Hp; [|constructor].
    change (batches_apart (if p =? root then [] else blocking [tile_action p root (get 0)])).
    destruct (p =? root); [constructor|apply blocking_apart].
Qed.

Lemma broadcast_result m0 root me i j k : view_ok (view 0) -> distinct (view 0) -> is_agent team_size me -> me <> root ->
  0 <= i < ext0 (view 0) -> 0 <= j < width (view 0) -> 0 <= k < element_size (view 0) ->
  after team_size (program (tile_broadcast root)) m0 1 (me, Dest, d_at (view 0) i j + k) = m0 (root, Source, s_at (view 0) i j + k).
Proof using Hget.
  intros Hv Hd Hme Hne Hi Hj Hk.
  assert (Hin : (d_at (view 0) i j + k, s_at (view 0) i j + k) ∈ get 0).
  { apply get_elem; [done|]. exists i, j, k. done. }
  assert (Hacts : acts (tile_broadcast root) me 0 = [tile_action me root (get 0)]).
  { unfold acts. cbn [tile_broadcast lookup list_lookup from_option id]. by rewrite (proj2 (Z.eqb_neq _ _) Hne), concat_blocking. }
  rewrite (after_alone team_size (tile_broadcast root) 1 m0 (broadcast_staged root) 0 me 0 (tile_action me root (get 0))).
  - by apply tile_action_value; [apply get_nodup|].
  - done.
  - by rewrite Hacts.
  - apply tile_action_writes. split; [done|]. split; [done|]. apply list_elem_of_fmap. eexists. split; [|exact Hin]. done.
  - intros [|n] b Hb Hn; [done|]. by rewrite Hacts in Hb.
Qed.

End collectives.

(** ** Properties *)

(** C15: Once a PE has returned from the gathering of tiles, every PE has the tiles of
    all PEs stacked along the first dimension of its destination: row [i] of the tile of
    rank [r] is row [r * ext0 + i], whatever the layout, the kind of get and the
    interleaving. *)
Theorem tile_allgather_correct {T} team_size a get `{!TileGet a get} (m : loc -> T) s s' p me r i j k :
  let A := tile_allgather team_size a get in
  let v := tile_make_view 0 0 a false in
  stack_ok team_size a -> initial team_size m s -> rtc (step team_size (program A)) s s' ->
  is_agent team_size p -> pc s' p = Run 1 0 -> is_agent team_size me -> is_agent team_size r ->
  0 <= i < ext0 v -> 0 <= j < width v -> 0 <= k < element_size v ->
  mem s' (me, Dest, d_at v (r * ext0 v + i) j + k) = m (r, Source, s_at v i j + k).
Proof.
  intros A v Hst H0 Hs Hp Hpc Hme Hr Hi Hj Hk. unfold v.
  rewrite <- (allgather_result team_size a get m me r i j k Hst Hme Hr Hi Hj Hk).
  eapply (staged_result _ _ 1); [|exact H0|exact Hs|exact Hp|exact Hpc]. apply well_staged_free, allgather_staged.
Qed.

(** Once a PE has returned from the broadcast of a tile, every PE but the root has
    the tile of the root in its destination. *)
Theorem tile_broadcast_correct {T} team_size a get `{!TileGet a get} (m : loc -> T) s s' p root me i j k :
  let A := tile_broadcast get root in
  let v := tile_make_view 0 0 a false in
  view_ok v -> distinct v -> initial team_size m s -> rtc (step team_size (program A)) s s' ->
  is_agent team_size p -> pc s' p = Run 1 0 -> is_agent team_size me -> me <> root ->
  0 <= i < ext0 v -> 0 <= j < width v -> 0 <= k < element_size v ->
  mem s' (me, Dest, d_at v i j + k) = m (root, Source, s_at v i j + k).
Proof.
  intros A v Hv Hd H0 Hs Hp Hpc Hme Hne Hi Hj Hk. unfold v.
  rewrite <- (broadcast_result team_size a get m root me i j k Hv Hd Hme Hne Hi Hj Hk).
  eapply (staged_result _ _ 1); [|exact H0|exact Hs|exact Hp|exact Hpc]. apply well_staged_free, broadcast_staged.
Qed.

(** ** Examples *)

Definition stacked_tile : tile_args := small_tile 5 5.

Definition get_by_block : Z -> list (Z * Z) := ipc_tile_get Wg 0 4 stacked_tile.

Lemma stacked_view d : tile_make_view d 0 stacked_tile false = mkView 28 d 2 3 5 1 5 1 4 2.
Proof. done. Qed.

#[export] Instance get_by_block_exact : TileGet stacked_tile get_by_block.
Proof. apply ipc_tile_get_exact; [done|done|]. intros d. by rewrite stacked_view. Qed.

Lemma stacked_ok : stack_ok 3 stacked_tile.
Proof.
  split; rewrite stacked_view.
  - split; [by right|done|done|cbn; lia|]. unfold d_at, s_at, elem_off, width. cbn. lia.
  - unfold d_at, elem_off, width. cbn. lia.
  - unfold d_at, elem_off, width. cbn. lia.
Qed.

(** A byte of a source holds the number of its PE and its place. *)
Definition stamped : loc -> Z := fun '(p, b, x) => match b with Source => 1000 * p + x | _ => -1 end.

Definition tile_start : state := mkState stamped (fun _ => Run 0 0) (fun _ => []).

Definition gathered : state :=
  staged_drive 3 (program (tile_allgather 3 stacked_tile get_by_block)) (fun _ => -7) (round_robin 3 20) tile_start.

Lemma gathered_returned : pc gathered 1 = Run 1 0.
Proof. by vm_compute. Qed.

Lemma tile_allgather_correct_witness : mem gathered (0, Dest, 109) = 2000 + 57.
Proof.
  exact (tile_allgather_correct 3 stacked_tile get_by_block stamped tile_start gathered 1 0 2 1 2 1 stacked_ok
    ltac:(done) (staged_drive_rtc 3 _ _ _ _ (round_robin_ok 3 20)) ltac:(done) gathered_returned ltac:(done) ltac:(done)
    ltac:(done) ltac:(done) ltac:(done)).
Defined.

(** PE 2 stores its tile before it calls the operation. *)
Definition produce_and_gather (r : Z) : list (list op) :=
  match program (tile_allgather 3 stacked_tile get_by_block) r with
  | ops :: rest =>
      ((if r =? 2 then batch [mkAction (in_range 2 Source 0 100) (fun _ => false) (fun _ '(_, _, x) => 5000 + x)] else []) ++ ops)
      :: rest
  | [] => []
  end.

(** The gets of PE 0 come before the first step of PE 2. *)
Definition gather_first : list (Z * option nat) :=
  concat (replicate 3 [(0, None); (0, Some 0%nat); (0, Some 0%nat); (0, None)]) ++ round_robin 3 20.

(** The gathering of tiles reads the tiles of the other PEs without waiting for them
    to have called it: a PE can return with what the source of another PE held
    before that PE stored its tile. *)
Theorem tile_allgather_reads_early :
  let s := staged_drive 3 produce_and_gather (fun _ => -7) gather_first tile_start in
  rtc (step 3 produce_and_gather) tile_start s /\ (forall p, is_agent 3 p -> pc s p = Run 1 0) /\
  mem s (2, Source, 57) = 5057 /\ mem s (1, Dest, 109) = 5057 /\ mem s (0, Dest, 109) = 2057.
Proof.
  cbv zeta. split; [apply staged_drive_rtc|].
  - apply Forall_app. split; [|apply round_robin_ok]. apply Forall_concat, Forall_replicate. repeat (constructor; [done|]). constructor.
  - split; [|by vm_compute]. intros p Hp. assert (p = 0 \/ p = 1 \/ p = 2) as [->|[->| ->]] by (unfold is_agent in Hp; lia); by vm_compute.
Qed.
