(* ===== verification/TileReduce.v ===== *)
(** * Reductions of tiles

    Model of [tile_reduce_typed] with its wave and work-group forms
    ([src/ipc/context_ipc_tmpl_device.hpp], [src/gda/context_gda_tmpl_device.hpp]):
    every PE sends its part of a segment of the tile to a slot of the root's work
    array and raises a flag there, the root waits for the flags, combines the slots
    and writes the destination, and all synchronise before the next segment.  Any
    number of calls, with any roots, follow one another.  A segment is sent in two
    steps between which the slot holds arbitrary values; the root combines element
    by element.  The lanes of a PE share these loops ([Loops.strided_partition]) and
    meet at barriers between them, so a PE is one thread here.  Elements are counted
    and offsets taken modulo [2^64]; the flag, a [long] that counts segments, is
    not. *)

From Stdlib Require Import ZArith Lia.
From stdpp Require Import base option numbers list relations.
From S2P Require Import Prelude.

Open Scope Z_scope.

(** ** Coordinates *)

(** One dimension: strides in elements, start and boundary of the tile. *)
Record dim := mkDim { src_stride : Z; dst_stride : Z; start : Z; bound : Z }.

Definition extent (d : dim) : Z := u64 (bound d - start d).

Definition SIZE_MAX : Z := 2 ^ 64 - 1.

(** The loop over the dimensions, from the first. *)
Fixpoint num_elements_loop (ds : list dim) (total : Z) : Z :=
  match ds with
  | [] => total
  | d :: ds =>
      if bound d <? start d then 0
      else if negb (extent d =? 0) && (SIZE_MAX / extent d <? total) then 0
      else num_elements_loop ds (u64 (total * extent d))
  end.

Definition tile_num_elements (ds : list dim) : Z := num_elements_loop ds 1.

(** The loop from the last dimension: [rds] are the dimensions in reverse. *)
Fixpoint offset_loop (stride : dim -> Z) (rds : list dim) (flat_idx offset : Z) : Z :=
  match rds with
  | [] => offset
  | d :: rds =>
      let coord := flat_idx mod extent d in
      offset_loop stride rds (flat_idx / extent d) (u64 (offset + (start d + coord) * stride d))
  end.

Definition tile_src_offset (ds : list dim) (flat_idx : Z) : Z := offset_loop src_stride (rev ds) flat_idx 0.

Definition tile_dst_offset (ds : list dim) (flat_idx : Z) : Z := offset_loop dst_stride (rev ds) flat_idx 0.

Fixpoint contiguous_loop (rds : list dim) (expected_stride : Z) : bool :=
  match rds with
  | [] => true
  | d :: rds => (src_stride d =? expected_stride) && contiguous_loop rds (u64 (expected_stride * extent d))
  end.

Definition tile_is_contiguous (ds : list dim) : bool := contiguous_loop (rev ds) 1.

(** ** Calls *)

Definition ROCSHMEM_REDUCE_MIN_WRKDATA_SIZE : Z := 1048576.

Definition ROCSHMEM_REDUCE_SYNC_SIZE : Z := 256.

Section reduce.

Context {T : Type} (Calc : T -> T -> T) (num_pes : Z) (gda : bool).

(** The arguments, and the source tensors of the PEs by offset. *)
Record call := mkCall { root : Z; dims : list dim; sizeof_T : Z; src : Z -> Z -> T }.

Definition segment_capacity (c : call) : Z := ROCSHMEM_REDUCE_MIN_WRKDATA_SIZE * 8 / sizeof_T c / num_pes.

(** One turn of the loop over the segments of the [i]-th call, or the end of it. *)
Inductive round := Seg (i : nat) (c : call) (g : Z) | Fin (i : nat) (c : call).

Definition segment_start (c : call) (g : Z) : Z := g * segment_capacity c.

Definition segment_elems (c : call) (g : Z) : Z :=
  Z.min (segment_capacity c) (tile_num_elements (dims c) - segment_start c g).

(** Segments of the loop [segment_start < tile_elements]. *)
Definition segments (c : call) : Z := (tile_num_elements (dims c) + segment_capacity c - 1) / segment_capacity c.

(** The checks, all of which come before any communication and have the same
    outcome on every PE; [None] is an error. *)
Definition tile_reduce_typed (i : nat) (c : call) : option (list round) :=
  if tile_num_elements (dims c) =? 0 then None
  else if segment_capacity c =? 0 then None
  else if ROCSHMEM_REDUCE_SYNC_SIZE <? num_pes then None
  else if (root c <? 0) || (num_pes <=? root c) || (Z.of_nat (length (dims c)) <=? 0) then None
  else Some ((Seg i c <$> seqZ 0 (segments c)) ++ [Fin i c]).

(** The element that PE [r] sends for place [e] of a segment. *)
Definition sent_value (c : call) (r g e : Z) : T :=
  if tile_is_contiguous (dims c) then src c r (u64 (tile_src_offset (dims c) (segment_start c g) + e))
  else src c r (tile_src_offset (dims c) (u64 (segment_start c g + e))).

(** ** Execution *)

Inductive phase :=
  | Pack            (* network card, strided source: into the own slot *)
  | Begin           (* the transfer to the root's slot starts *)
  | End_            (* and ends *)
  | Flag
  | Await (i : Z)   (* root: wait for the flag of PE i *)
  | Combine (e : Z) (* root: combine place e *)
  | Reset (i : Z)   (* root: clear the flag of PE i *)
  | Idle.           (* all calls made *)

Inductive counter := At (k : nat) (ph : phase) | Bar (k : nat).

Record state := mkState {
  pWrk : Z -> Z -> T; pSync : Z -> Z -> Z;
  dst : nat -> Z -> T;    (* the destination of each call, by offset *)
  pc : Z -> counter
}.

Context (rounds : list round).

Definition goto (me : Z) (c : counter) (s : state) : state := mkState (pWrk s) (pSync s) (dst s) (upd (pc s) me c).

Definition set_wrk (p lo len : Z) (f : Z -> T) (s : state) : state :=
  mkState (write (pWrk s) p lo len f) (pSync s) (dst s) (pc s).

Definition set_sync (p i v : Z) (s : state) : state :=
  mkState (pWrk s) (upd (pSync s) p (upd (pSync s p) i v)) (dst s) (pc s).

Definition set_dst (i : nat) (off : Z) (v : T) (s : state) : state :=
  mkState (pWrk s) (pSync s) (fun j => if decide (j = i) then upd (dst s i) off v else dst s j) (pc s).

Definition packs (c : call) (me : Z) : bool := gda && negb (tile_is_contiguous (dims c)) && negb (me =? root c).

(** The beginning of round [k]. *)
Definition enter (k : nat) (me : Z) : counter :=
  match rounds !! k with
  | None => At k Idle
  | Some (Seg _ c _) => At k (if packs c me then Pack else Begin)
  | Some (Fin _ c) => if me =? root c then At k (Reset 0) else Bar k
  end.

Definition arrived (k : nat) (c : counter) : bool :=
  match c with Bar j => (k <=? j)%nat | At j _ => (k <? j)%nat end.

Definition slot (c : call) (r : Z) : Z := r * segment_capacity c.

(** The value of place [e] from the slots of the root. *)
Definition combined (c : call) (wrk : Z -> T) (e : Z) : T :=
  foldl (fun reduced r => Calc reduced (wrk (slot c r + e))) (wrk e) (seqZ 1 (num_pes - 1)).

Definition exec (junk : Z -> T) (me : Z) (s : state) : option state :=
  match pc s me with
  | Bar k => if forallb (fun q => arrived k (pc s q)) (seqZ 0 num_pes) then Some (goto me (enter (S k) me) s) else None
  | At k ph =>
      match rounds !! k with
      | None => None
      | Some (Seg i c g) =>
          let flag_val := g + 1 in
          match ph with
          | Pack => Some (goto me (At k Begin) (set_wrk me (slot c me) (segment_elems c g) (sent_value c me g) s))
          | Begin => Some (goto me (At k End_) (set_wrk (root c) (slot c me) (segment_elems c g) junk s))
          | End_ =>
              let value e := if packs c me then pWrk s me (slot c me + e) else sent_value c me g e in
              Some (goto me (At k Flag) (set_wrk (root c) (slot c me) (segment_elems c g) value s))
          | Flag =>
              Some (goto me (if me =? root c then At k (Await 0) else Bar k) (set_sync (root c) me flag_val s))
          | Await j =>
              if j <? num_pes then
                if pSync s me j =? flag_val then Some (goto me (At k (Await (j + 1))) s) else None
              else Some (goto me (At k (Combine 0)) s)
          | Combine e =>
              if e <? segment_elems c g then
                Some (goto me (At k (Combine (e + 1)))
                  (set_dst i (tile_dst_offset (dims c) (u64 (segment_start c g + e))) (combined c (pWrk s me) e) s))
              else Some (goto me (Bar k) s)
          | _ => None
          end
      | Some (Fin i c) =>
          match ph with
          | Reset j =>
              if j <? num_pes then Some (goto me (At k (Reset (j + 1))) (set_sync me j 0 s))
              else Some (goto me (Bar k) s)
          | _ => None
          end
      end
  end.

Definition is_pe (p : Z) : Prop := 0 <= p < num_pes.

Inductive step (s : state) : state -> Prop :=
  | step_exec junk me s' : is_pe me -> exec junk me s = Some s' -> step s s'.

Definition initial (s : state) : Prop :=
  (forall p, pc s p = enter 0 p) /\ (forall p i, pSync s p i = 0).

(** All calls made. *)
Definition returned (c : counter) : bool := match c with At _ Idle => true | _ => false end.

Definition finished (s : state) : Prop := forall p, is_pe p -> returned (pc s p) = true.

(** All the rounds of a sequence of calls; a call that fails makes none. *)
Fixpoint rounds_from (i : nat) (cs : list call) : list round :=
  match cs with [] => [] | c :: cs => default [] (tile_reduce_typed i c) ++ rounds_from (S i) cs end.

Definition all_rounds (cs : list call) : list round := rounds_from 0 cs.

End reduce.

(** ** Offsets *)

(** The number of elements as a product. *)
Definition box (ds : list dim) : Z := foldr (fun d n => extent d * n) 1 ds.

Lemma extent_nonneg d : 0 <= extent d.
Proof. unfold extent. pose proof (wrap_range 64 (bound d - start d)). lia. Qed.

Lemma box_nonneg ds : 0 <= box ds.
Proof. induction ds as [|d ds IH]; [done|]. apply Z.mul_nonneg_nonneg; [apply extent_nonneg|exact IH]. Qed.

Lemma box_cons d ds : box (d :: ds) = extent d * box ds.
Proof. done. Qed.

Lemma extent_pos d n x : 0 <= x < extent d * n -> 0 < extent d.
Proof. intros H. pose proof (extent_nonneg d). destruct (Z.eq_dec (extent d) 0) as [E|]; [rewrite E in H|]; lia. Qed.

Lemma num_elements_loop_spec ds total : 0 <= total -> num_elements_loop ds total <> 0 ->
  num_elements_loop ds total = total * box ds /\ total * box ds < 2 ^ 64 \/ 2 ^ 64 <= total /\ ds = [].
Proof.
  revert total. induction ds as [|d ds IH]; intros total Ht; cbn [num_elements_loop box foldr].
  - intros _. rewrite Z.mul_1_r. destruct (Z.lt_ge_cases total (2 ^ 64)); [by left|by right].
  - destruct (bound d <? start d); [done|]. pose proof (extent_nonneg d) as He.
    destruct (negb (extent d =? 0) && (SIZE_MAX / extent d <? total)) eqn:E; [done|]. intros Hn. left.
    assert (Hlt : 0 <= total * extent d < 2 ^ 64).
    { destruct (Z.eq_dec (extent d) 0) as [->|Hne]; [lia|]. rewrite (proj2 (Z.eqb_neq _ _) Hne) in E. cbn in E.
      apply Z.ltb_ge in E. pose proof (Z.mul_div_le SIZE_MAX (extent d) ltac:(lia)). unfold SIZE_MAX in *. nia. }
    rewrite (wrap_small 64) in * by done. destruct (IH _ (proj1 Hlt) Hn) as [[-> Hb]|[? _]]; [|lia].
    fold (box ds). rewrite Z.mul_assoc. done.
Qed.

(** When it is not zero, the count is the product of the extents, and fits. *)
Lemma num_elements_spec ds : tile_num_elements ds <> 0 -> tile_num_elements ds = box ds /\ 0 < box ds < 2 ^ 64.
Proof.
  intros Hn. destruct (num_elements_loop_spec ds 1 ltac:(lia) Hn) as [[He Hb]|[? _]]; [|lia].
  unfold tile_num_elements in *. rewrite Z.mul_1_l in *. pose proof (box_nonneg ds). split; [done|lia].
Qed.

(** Coordinates relative to the start, last dimension first, of a flat index. *)
Fixpoint offset_at (stride : dim -> Z) (rds : list dim) (cs : list Z) : Z :=
  match rds, cs with
  | d :: rds, c :: cs => (start d + c) * stride d + offset_at stride rds cs
  | _, _ => 0
  end.

Fixpoint flat (rds : list dim) (cs : list Z) : Z :=
  match rds, cs with
  | d :: rds, c :: cs => c + extent d * flat rds cs
  | _, _ => 0
  end.

Definition inside (rds : list dim) (cs : list Z) : Prop := Forall2 (fun d c => 0 <= c < extent d) rds cs.

Lemma flat_range rds cs : inside rds cs -> 0 <= flat rds cs < box rds.
Proof.
  induction 1 as [|d c rds cs Hc _ IH]; [cbn; lia|]. rewrite box_cons. cbn. nia.
Qed.

(** A flat index visits the element at its coordinates. *)
Lemma offset_loop_flat stride rds cs off : inside rds cs ->
  u64 (offset_loop stride rds (flat rds cs) off) = u64 (off + offset_at stride rds cs).
Proof.
  intros H. revert off. induction H as [|d c rds cs Hc _ IH]; intros off; cbn; [by rewrite Z.add_0_r|].
  rewrite (Z.mul_comm (extent d)), Z_mod_plus_full, Z.div_add, (Z.mod_small c), (Z.div_small c) by lia.
  rewrite Z.add_0_l, IH, wrap_add_l. f_equal. lia.
Qed.

Lemma box_app ds ds' : box (ds ++ ds') = box ds * box ds'.
Proof. unfold box. induction ds as [|d ds IH]; cbn [foldr app]; [lia|]. rewrite IH. lia. Qed.

Lemma box_rev ds : box (rev ds) = box ds.
Proof. induction ds as [|d ds IH]; cbn [rev]; [done|]. rewrite box_app, IH, !box_cons. cbn. lia. Qed.

(** Every flat index of the tile has coordinates. *)
Lemma flat_surj rds x : 0 <= x < box rds -> exists cs, inside rds cs /\ flat rds cs = x.
Proof.
  revert x. induction rds as [|d rds IH]; intros x Hx.
  - exists []. split; [constructor|]. cbn in *. lia.
  - rewrite box_cons in Hx. pose proof (extent_pos _ _ _ Hx) as He.
    destruct (IH (x / extent d)) as (cs & Hcs & Hf).
    { split; [apply Z.div_pos; lia|]. apply Z.div_lt_upper_bound; lia. }
    exists (x mod extent d :: cs). split; [constructor; [by apply Z.mod_pos_bound|done]|]. cbn. rewrite Hf.
    pose proof (Z.div_mod x (extent d)). lia.
Qed.

Lemma flat_inj rds cs cs' : inside rds cs -> inside rds cs' -> flat rds cs = flat rds cs' -> cs = cs'.
Proof.
  intros H. revert cs'. induction H as [|d c rds cs Hc _ IH]; intros cs' H'; inversion H' as [|? c' ? cs2 Hc' Hcs2]; subst; [done|].
  cbn. intros He.
  assert (c = c' /\ flat rds cs = flat rds cs2) as [-> Hf]; [|by rewrite (IH cs2)].
  destruct (Z.div_mod_unique (extent d) (flat rds cs) (flat rds cs2) c c'); [lia..|done].
Qed.

(** The offset moves by one per element in a contiguous tile. *)
Lemma contiguous_offset rds x off e : contiguous_loop rds (u64 e) = true -> 0 <= x < box rds ->
  u64 (offset_loop src_stride rds x off) = u64 (off + offset_at src_stride rds (replicate (length rds) 0) + e * x).
Proof.
  revert x off e. induction rds as [|d rds IH]; intros x off e; [|rewrite box_cons]; cbn.
  - intros _ Hx. assert (x = 0) as -> by (cbn in Hx; lia). f_equal. lia.
  - intros [He Hc]%andb_prop Hx. apply Z.eqb_eq in He. pose proof (extent_pos _ _ _ Hx).
    rewrite (IH _ _ (e * extent d)).
    + pose proof (Z.div_mod x (extent d) ltac:(lia)) as Hdm. rewrite He.
      set (q := x / extent d) in *. set (r := x mod extent d) in *. rewrite Hdm.
      unfold wrap. set (M := 2 ^ 64).
      replace ((off + (start d + r) * (e mod M)) mod M + offset_at src_stride rds (replicate (length rds) 0) + e * extent d * q)
        with ((off + (start d + r) * (e mod M)) mod M + (offset_at src_stride rds (replicate (length rds) 0) + e * extent d * q)) by lia.
      rewrite Zplus_mod_idemp_l.
      rewrite <- (Zplus_mod_idemp_l (off + (start d + r) * (e mod M))), <- (Zplus_mod_idemp_r ((start d + r) * (e mod M)) off),
        Zmult_mod_idemp_r, Zplus_mod_idemp_r, Zplus_mod_idemp_l.
      symmetry. 
      replace (off + ((start d + 0) * (e mod M) + offset_at src_stride rds (replicate (length rds) 0)) + e * (extent d * q + r))
        with ((start d * (e mod M)) + (off + offset_at src_stride rds (replicate (length rds) 0) + e * (extent d * q + r))) by lia.
      rewrite <- Zplus_mod_idemp_l, Zmult_mod_idemp_r, Zplus_mod_idemp_l. f_equal. lia.
    + rewrite <- Hc. f_equal. unfold wrap. by rewrite Zmult_mod_idemp_l.
    + split; [apply Z.div_pos; lia|apply Z.div_lt_upper_bound; lia].
Qed.

Lemma offset_range stride rds x off : 0 <= off < 2 ^ 64 -> 0 <= offset_loop stride rds x off < 2 ^ 64.
Proof. revert x off. induction rds as [|d rds IH]; intros x off H; cbn; [done|]. apply IH, wrap_range. lia. Qed.

Lemma contiguous_src ds x e : tile_is_contiguous ds = true -> 0 <= x -> 0 <= e -> x + e < box ds ->
  u64 (tile_src_offset ds x + e) = tile_src_offset ds (x + e).
Proof.
  intros Hc Hx He Hlt. unfold tile_is_contiguous, tile_src_offset in *. rewrite <- box_rev in Hlt.
  rewrite <- (wrap_small 64 (offset_loop src_stride (rev ds) (x + e) 0)) by (apply offset_range; lia).
  rewrite (contiguous_offset (rev ds) (x + e) 0 1), <- wrap_add_l, (contiguous_offset (rev ds) x 0 1), wrap_add_l by (done || lia).
  f_equal. lia.
Qed.

(** ** Invariant *)

Section proofs.

Context {T : Type} (Calc : T -> T -> T) (num_pes : Z) (gda : bool) (Hn : 0 < num_pes).

Notation call := (call (T := T)).
Notation round := (round (T := T)).
Notation is_pe := (is_pe num_pes).
Notation capacity := (segment_capacity num_pes).
Notation elems := (segment_elems num_pes).
Notation first := (segment_start num_pes).
Notation segments := (segments num_pes).

Record call_ok (c : call) : Prop := {
  ok_root : is_pe (root c);
  ok_cap : 0 < capacity c;
  ok_elems : tile_num_elements (dims c) <> 0
}.

Definition tile_value (c : call) (r x : Z) : T := src c r (tile_src_offset (dims c) x).

(** Element [x] of the tile, combined in the order of the ranks. *)
Definition result (c : call) (x : Z) : T :=
  foldl (fun reduced r => Calc reduced (tile_value c r x)) (tile_value c 0 x) (seqZ 1 (num_pes - 1)).

Lemma segment_range c g : call_ok c -> 0 <= g < segments c ->
  0 <= first c g /\ 0 < elems c g <= capacity c /\ first c g + elems c g <= box (dims c) < 2 ^ 64.
Proof using.
  intros [_ Hc He] Hg. destruct (num_elements_spec _ He) as [HN Hb]. unfold elems, first, segments in *. rewrite HN in *.
  set (C := capacity c) in *. set (N := box (dims c)) in *.
  assert (g * C < N).
  { pose proof (Z.mul_div_le (N + C - 1) C Hc). nia. }
  assert (0 <= g * C) by nia. lia.
Qed.

Lemma sent_value_spec c r g e : call_ok c -> 0 <= g < segments c -> 0 <= e < elems c g ->
  sent_value num_pes c r g e = tile_value c r (first c g + e).
Proof using.
  intros Hok Hg He. pose proof (segment_range c g Hok Hg). unfold sent_value, tile_value.
  destruct (tile_is_contiguous (dims c)) eqn:Hc; [by rewrite contiguous_src by (done || lia)|].
  by rewrite (wrap_small 64) by lia.
Qed.

(** *** Rounds *)

Definition before (r : round) (q : Z) : Z :=
  match r with
  | Seg _ c g => if q =? root c then g else 0
  | Fin _ c => if q =? root c then segments c else 0
  end.

Definition after (r : round) (q : Z) : Z :=
  match r with Seg _ c g => if q =? root c then g + 1 else 0 | Fin _ _ => 0 end.

Definition round_ok (r : round) : Prop :=
  match r with Seg _ c g => call_ok c /\ 0 <= g < segments c | Fin _ c => call_ok c end.

Context (rounds : list round).

Record chained : Prop := {
  chain_ok : forall k r, rounds !! k = Some r -> round_ok r;
  chain_first : forall r q, rounds !! 0%nat = Some r -> before r q = 0;
  chain_next : forall k r r' q, rounds !! k = Some r -> rounds !! S k = Some r' -> before r' q = after r q;
  chain_last : forall k r q, rounds !! k = Some r -> rounds !! S k = None -> after r q = 0;
  (** The places of a call's destination are distinct. *)
  chain_out : forall k k' i c c' g g' e e', rounds !! k = Some (Seg i c g) -> rounds !! k' = Some (Seg i c' g') ->
    0 <= e < elems c g -> 0 <= e' < elems c' g' ->
    tile_dst_offset (dims c) (first c g + e) = tile_dst_offset (dims c') (first c' g' + e') ->
    c = c' /\ first c g + e = first c' g' + e'
}.

Context (Hch : chained).

Notation state := (state (T := T)).
Notation exec := (exec Calc num_pes gda rounds).
Notation step := (step Calc num_pes gda rounds).
Notation enter := (enter gda rounds).

Definition flagged (k : nat) (c : counter) : bool :=
  match c with At _ (Await _) | At _ (Combine _) => true | At _ _ => false | Bar j => (j =? k)%nat end.

Definition has_sent (k : nat) (c : counter) : bool :=
  match c with At _ (Flag | Await _ | Combine _) => true | At _ _ => false | Bar j => (j =? k)%nat end.

(** Places that the root has combined. *)
Definition combined_to (k : nat) (n : Z) (c : counter) : Z :=
  match c with At _ (Combine e) => e | At _ _ => 0 | Bar j => if (j =? k)%nat then n else 0 end.

Definition cleared_to (k : nat) (c : counter) : Z :=
  match c with At _ (Reset j) => j | At _ _ => 0 | Bar j => if (j =? k)%nat then num_pes else 0 end.

(** Still at the barrier before round [k]. *)
Definition waiting (k : nat) (c : counter) : Prop := match k with O => False | S j => c = Bar j end.

Definition in_round (k : nat) (p : Z) (c : counter) : Prop :=
  match c, rounds !! k with
  | At j ph, None => j = k /\ ph = Idle
  | At j ph, Some (Seg _ c g) => j = k /\
      match ph with
      | Pack => packs gda c p = true
      | Begin | End_ | Flag => True
      | Await i => p = root c /\ 0 <= i <= num_pes
      | Combine e => p = root c /\ 0 <= e <= elems c g
      | Reset _ | Idle => False
      end
  | At j ph, Some (Fin _ c) => j = k /\ match ph with Reset i => p = root c /\ 0 <= i <= num_pes | _ => False end
  | Bar j, Some _ => j = k
  | Bar _, None => False
  end.

(** The destination: complete for earlier rounds, untouched elsewhere. *)
Definition dst_ok (dst0 : nat -> Z -> T) (k : nat) (n : Z) (d : nat -> Z -> T) : Prop :=
  (forall j i c g e, rounds !! j = Some (Seg i c g) -> 0 <= e < elems c g -> (j < k)%nat \/ (j = k /\ e < n) ->
     d i (tile_dst_offset (dims c) (first c g + e)) = result c (first c g + e)) /\
  (forall i off, (forall j c g e, rounds !! j = Some (Seg i c g) -> 0 <= e < elems c g ->
     off <> tile_dst_offset (dims c) (first c g + e)) -> d i off = dst0 i off).

Record seg_inv (dst0 : nat -> Z -> T) (k i : nat) (c : call) (g : Z) (s : state) : Prop := {
  seg_sync : forall q p, is_pe q -> is_pe p ->
    pSync s q p = if q =? root c then (if flagged k (pc s p) then g + 1 else g) else 0;
  seg_sent : forall p e, is_pe p -> has_sent k (pc s p) = true -> 0 <= e < elems c g ->
    pWrk s (root c) (slot num_pes c p + e) = tile_value c p (first c g + e);
  seg_packed : forall p e, is_pe p -> packs gda c p = true -> pc s p = At k Begin \/ pc s p = At k End_ ->
    0 <= e < elems c g -> pWrk s p (slot num_pes c p + e) = tile_value c p (first c g + e);
  seg_await : forall j p, pc s (root c) = At k (Await j) -> 0 <= p < j -> flagged k (pc s p) = true;
  seg_all : forall e p, pc s (root c) = At k (Combine e) -> is_pe p -> flagged k (pc s p) = true;
  seg_dst : dst_ok dst0 k (combined_to k (elems c g) (pc s (root c))) (dst s)
}.

Record fin_inv (dst0 : nat -> Z -> T) (k : nat) (c : call) (s : state) : Prop := {
  fin_sync : forall q p, is_pe q -> is_pe p ->
    pSync s q p = if q =? root c then (if p <? cleared_to k (pc s (root c)) then 0 else segments c) else 0;
  fin_dst : dst_ok dst0 k 0 (dst s)
}.

Record inv (dst0 : nat -> Z -> T) (k : nat) (s : state) : Prop := {
  inv_pos : forall p, is_pe p -> waiting k (pc s p) \/ in_round k p (pc s p);
  inv_round : match rounds !! k with
    | Some (Seg i c g) => seg_inv dst0 k i c g s
    | Some (Fin _ c) => fin_inv dst0 k c s
    | None => (forall q p, is_pe q -> is_pe p -> pSync s q p = 0) /\ dst_ok dst0 k 0 (dst s)
    end
}.

(** *** Steps within a round *)

Lemma at_eq p c (s : state) : pc (goto p c s) p = c.
Proof using. apply upd_eq. Qed.

Lemma at_ne p q c (s : state) : q <> p -> pc (goto p c s) q = pc s q.
Proof using. apply upd_ne. Qed.

Lemma pos_goto k p c (s s1 : state) : pc s1 = pc s -> (forall q, is_pe q -> waiting k (pc s q) \/ in_round k q (pc s q)) ->
  in_round k p c -> forall q, is_pe q -> waiting k (pc (goto p c s1) q) \/ in_round k q (pc (goto p c s1) q).
Proof using.
  intros He H Hc q Hq. destruct (Z.eq_dec q p) as [->|Hne]; [rewrite at_eq; by right|].
  rewrite at_ne, He by done. by apply H.
Qed.

Lemma slot_inj (c : call) p p' e e' : 0 <= e < capacity c -> 0 <= e' < capacity c ->
  slot num_pes c p + e = slot num_pes c p' + e' -> p = p' /\ e = e'.
Proof using. unfold slot. intros He He' H. assert (p = p') by nia. subst. lia. Qed.

Lemma write_in {A} (m : Z -> Z -> A) q lo len f e : 0 <= e < len -> write m q lo len f q (lo + e) = f e.
Proof using.
  intros He. unfold write, overwrite. rewrite Z.eqb_refl.
  replace ((lo <=? lo + e) && (lo + e <? lo + len)) with true by lia. f_equal. lia.
Qed.

Lemma write_out {A} (m : Z -> Z -> A) q lo len f q' x : q' <> q \/ ~ (lo <= x < lo + len) ->
  write m q lo len f q' x = m q' x.
Proof using.
  intros H. unfold write, overwrite. destruct (Z.eqb_spec q' q) as [->|]; [|done].
  by replace ((lo <=? x) && (x <? lo + len)) with false by lia.
Qed.

(** A slot other than the one being written. *)
Lemma reduce_write_slot {A} (m : Z -> Z -> A) q (c : call) g f p p' e : call_ok c -> 0 <= g < segments c -> p' <> p -> 0 <= e < elems c g ->
  write m q (slot num_pes c p) (elems c g) f q (slot num_pes c p' + e) = m q (slot num_pes c p' + e).
Proof using.
  intros Hok Hg Hne He. destruct (segment_range c g Hok Hg) as (_ & Hr & _). apply write_out. right. intros Hx.
  apply Hne. apply (slot_inj c p' p e (slot num_pes c p' + e - slot num_pes c p)); lia.
Qed.

Section segment.

Context (dst0 : nat -> Z -> T) (k i : nat) (c : call) (g : Z) (Hk : rounds !! k = Some (Seg i c g)).

Lemma seg_ok : call_ok c /\ 0 <= g < segments c.
Proof using Hch Hk. apply (chain_ok Hch k _ Hk). Qed.

Lemma pack_step p s : is_pe p -> seg_inv dst0 k i c g s -> pc s p = At k Pack -> packs gda c p = true ->
  seg_inv dst0 k i c g (goto p (At k Begin) (set_wrk p (slot num_pes c p) (elems c g) (sent_value num_pes c p g) s)).
Proof using Hch Hk.
  intros Hp [I1 I2 I3 I4 I5 I6] Hpc Hpk. destruct seg_ok as [Hok Hg].
  assert (Hroot : root c <> p) by (unfold packs in Hpk; intros <-; by rewrite Z.eqb_refl, andb_false_r in Hpk).
  assert (Hfl : forall q, flagged k (pc (goto p (At k Begin) (set_wrk p (slot num_pes c p) (elems c g) (sent_value num_pes c p g) s)) q) =
    flagged k (pc s q)).
  { intros q. destruct (Z.eq_dec q p) as [->|]; [by rewrite at_eq, Hpc|by rewrite at_ne]. }
  split.
  - intros q p' Hq Hp'. rewrite Hfl. by apply I1.
  - intros p' e Hp' Hs He. destruct (Z.eq_dec p' p) as [->|]; [by rewrite at_eq in Hs|]. rewrite at_ne in Hs by done.
    cbn. rewrite write_out by (by left). by apply I2.
  - intros p' e Hp' Hpk' Hpc' He. cbn. destruct (Z.eq_dec p' p) as [->|].
    + rewrite write_in by done. by apply sent_value_spec.
    + rewrite at_ne in Hpc' by done. rewrite write_out by (by left). by apply I3.
  - intros j p' Hr Hj. rewrite at_ne in Hr by done. rewrite Hfl. by apply (I4 j).
  - intros e p' Hr Hp'. rewrite at_ne in Hr by done. rewrite Hfl. by apply (I5 e).
  - rewrite at_ne by done. exact I6.
Qed.

(** A step of a PE that has not raised its flag, which writes its slot of the
    root's array. *)
Lemma send_step p s ph ph' f : is_pe p -> seg_inv dst0 k i c g s -> pc s p = At k ph ->
  (ph = Begin /\ ph' = End_) \/
  (ph = End_ /\ ph' = Flag /\ forall e, 0 <= e < elems c g -> f e = tile_value c p (first c g + e)) ->
  seg_inv dst0 k i c g (goto p (At k ph') (set_wrk (root c) (slot num_pes c p) (elems c g) f s)).
Proof using Hch Hk.
  intros Hp [I1 I2 I3 I4 I5 I6] Hpc Hph. destruct seg_ok as [Hok Hg].
  set (s' := goto _ _ _).
  assert (Hfl : forall q, flagged k (pc s' q) = flagged k (pc s q)).
  { intros q. destruct (Z.eq_dec q p) as [->|]; [|by unfold s'; rewrite at_ne].
    unfold s'. rewrite at_eq, Hpc. by destruct Hph as [[-> ->]|(-> & -> & _)]. }
  assert (Hroot : pc s' (root c) = pc s (root c) \/ (pc s (root c) = At k ph /\ pc s' (root c) = At k ph')).
  { destruct (Z.eq_dec (root c) p) as [->|]; [right; by unfold s'; rewrite at_eq|left; by unfold s'; rewrite at_ne]. }
  split.
  - intros q p' Hq Hp'. rewrite Hfl. by apply I1.
  - intros p' e Hp' Hs He. destruct (Z.eq_dec p' p) as [->|].
    + destruct Hph as [[-> ->]|(-> & -> & Hf)]; unfold s' in Hs; rewrite at_eq in Hs; [done|].
      cbn. rewrite write_in by done. by apply Hf.
    + unfold s' in Hs. rewrite at_ne in Hs by done. cbn. rewrite reduce_write_slot by done. by apply I2.
  - intros p' e Hp' Hpk Hpc' He. cbn.
    assert (p' <> root c) by (unfold packs in Hpk; intros ->; by rewrite Z.eqb_refl, andb_false_r in Hpk).
    rewrite write_out by (by left). destruct (Z.eq_dec p' p) as [->|].
    + apply I3; [done|done| |done]. destruct Hph as [[-> ->]|(-> & -> & _)]; [by left|by right].
    + unfold s' in Hpc'. rewrite at_ne in Hpc' by done. by apply I3.
  - intros j p' Hr Hj. rewrite Hfl. destruct Hroot as [He|[_ He]]; rewrite He in Hr; [by apply (I4 j)|].
    destruct Hph as [[-> ->]|(-> & -> & _)]; done.
  - intros e p' Hr Hp'. rewrite Hfl. destruct Hroot as [He|[_ He]]; rewrite He in Hr; [by apply (I5 e)|].
    destruct Hph as [[-> ->]|(-> & -> & _)]; done.
  - assert (Hc : combined_to k (elems c g) (pc s' (root c)) = combined_to k (elems c g) (pc s (root c))).
    { destruct Hroot as [->|[-> ->]]; [done|]. by destruct Hph as [[-> ->]|(-> & -> & _)]. }
    rewrite Hc. exact I6.
Qed.

Lemma flag_step p s c' : is_pe p -> seg_inv dst0 k i c g s -> pc s p = At k Flag ->
  c' = (if p =? root c then At k (Await 0) else Bar k) ->
  seg_inv dst0 k i c g (goto p c' (set_sync (root c) p (g + 1) s)).
Proof using Hch Hk.
  intros Hp [I1 I2 I3 I4 I5 I6] Hpc Hdef. destruct seg_ok as [Hok Hg].
  assert (Hc' : flagged k c' = true /\ has_sent k c' = true) by (rewrite Hdef; destruct (p =? root c); cbn; by rewrite ?Nat.eqb_refl).
  set (s' := goto _ _ _).
  assert (Hmono : forall q, flagged k (pc s q) = true -> flagged k (pc s' q) = true).
  { intros q Hq. unfold s'. destruct (Z.eq_dec q p) as [->|]; [rewrite at_eq; apply Hc'|by rewrite at_ne]. }
  split.
  - intros q p' Hq Hp'. change (pSync s' q p') with (upd (pSync s) (root c) (upd (pSync s (root c)) p (g + 1)) q p').
    destruct (Z.eq_dec p' p) as [->|Hne].
    + unfold s'. rewrite at_eq. destruct Hc' as [-> _]. destruct (Z.eqb_spec q (root c)) as [->|Hq'].
      * by rewrite upd_eq, upd_eq.
      * rewrite upd_ne by done. rewrite I1 by done. by rewrite (proj2 (Z.eqb_neq _ _) Hq').
    + unfold s'. rewrite at_ne by done. cbn [pc set_sync]. rewrite <- I1 by done. destruct (Z.eq_dec q (root c)) as [->|].
      * by rewrite upd_eq, upd_ne.
      * by rewrite upd_ne.
  - intros p' e Hp' Hs He. cbn. apply I2; [done| |done]. destruct (Z.eq_dec p' p) as [->|]; [by rewrite Hpc|].
    unfold s' in Hs. by rewrite at_ne in Hs.
  - intros p' e Hp' Hpk Hpc' He. cbn. apply I3; [done|done| |done].
    destruct (Z.eq_dec p' p) as [->|]; [|unfold s' in Hpc'; by rewrite at_ne in Hpc'].
    unfold s' in Hpc'. rewrite at_eq in Hpc'. rewrite Hdef in Hpc'. exfalso. destruct (p =? root c), Hpc'; done.
  - intros j p' Hr Hj. destruct (Z.eq_dec (root c) p) as [E|].
    + subst p. unfold s' in Hr. rewrite at_eq, Hdef, Z.eqb_refl in Hr. injection Hr as <-. lia.
    + unfold s' in Hr. rewrite at_ne in Hr by done. by apply Hmono, (I4 j).
  - intros e p' Hr Hp'. destruct (Z.eq_dec (root c) p) as [E|].
    + subst p. unfold s' in Hr. by rewrite at_eq, Hdef, Z.eqb_refl in Hr.
    + unfold s' in Hr. rewrite at_ne in Hr by done. by apply Hmono, (I5 e).
  - assert (Hc : combined_to k (elems c g) (pc s' (root c)) = combined_to k (elems c g) (pc s (root c))).
    { destruct (Z.eq_dec (root c) p) as [E|]; [|unfold s'; by rewrite at_ne].
      unfold s'. rewrite E, at_eq, Hpc, Hdef, E, Z.eqb_refl. done. }
    rewrite Hc. exact I6.
Qed.

(** The root moves on after raising its own flag. *)
Lemma root_step s c' d : let c0 := pc s (root c) in seg_inv dst0 k i c g s ->
  flagged k c0 = true -> has_sent k c0 = true -> flagged k c' = true -> has_sent k c' = true ->
  (forall j p, c' = At k (Await j) -> 0 <= p < j -> flagged k (pc s p) = true) ->
  (forall e p, c' = At k (Combine e) -> is_pe p -> flagged k (pc s p) = true) ->
  dst_ok dst0 k (combined_to k (elems c g) c') d ->
  seg_inv dst0 k i c g (goto (root c) c' (mkState (pWrk s) (pSync s) d (pc s))).
Proof using.
  cbn zeta. intros [I1 I2 I3 I4 I5 I6] Hf0 Hs0 Hf Hs Ha Hc Hd. set (s' := goto _ _ _).
  assert (Hfl : forall q, flagged k (pc s' q) = flagged k (pc s q)).
  { intros q. unfold s'. destruct (Z.eq_dec q (root c)) as [->|]; [by rewrite at_eq, Hf0|by rewrite at_ne]. }
  split.
  - intros q p Hq Hp. rewrite Hfl. by apply I1.
  - intros p e Hp Hse He. apply I2; [done| |done]. unfold s' in Hse.
    destruct (Z.eq_dec p (root c)) as [->|]; [done|by rewrite at_ne in Hse].
  - intros p e Hp Hpk Hpc He.
    assert (p <> root c) by (unfold packs in Hpk; intros ->; by rewrite Z.eqb_refl, andb_false_r in Hpk).
    unfold s' in Hpc. rewrite at_ne in Hpc by done. by apply I3.
  - intros j p Hr Hj. rewrite Hfl. unfold s' in Hr. rewrite at_eq in Hr. by apply (Ha j).
  - intros e p Hr Hp. rewrite Hfl. unfold s' in Hr. rewrite at_eq in Hr. by apply (Hc e).
  - unfold s'. by rewrite at_eq.
Qed.

(** The slots of the root hold the elements of all PEs. *)
Lemma combined_result s e : (forall p, is_pe p -> flagged k (pc s p) = true) -> seg_inv dst0 k i c g s -> 0 <= e < elems c g ->
  combined Calc num_pes c (pWrk s (root c)) e = result c (first c g + e).
Proof using Hn.
  intros Hall [_ I2 _ _ _ _] He.
  assert (Hs : forall p, is_pe p -> pWrk s (root c) (slot num_pes c p + e) = tile_value c p (first c g + e)).
  { intros p Hp. apply I2; [done| |done]. specialize (Hall p Hp). destruct (pc s p) as [j []|]; done. }
  unfold combined, result. pose proof (Hs 0 ltac:(unfold TileReduce.is_pe; lia)) as H0. unfold slot in H0 at 1.
  rewrite Z.mul_0_l, Z.add_0_l in H0. rewrite H0. generalize (tile_value c 0 (first c g + e)) as v.
  assert (Hl : forall p, p ∈ seqZ 1 (num_pes - 1) -> is_pe p) by (intros p Hp%elem_of_seqZ; unfold TileReduce.is_pe; lia).
  revert Hl. induction (seqZ 1 (num_pes - 1)) as [|p l IH]; intros Hl v; [done|]. cbn [foldl].
  rewrite (Hs p) by (apply Hl; by left). apply IH. intros q Hq. apply Hl. by right.
Qed.

Lemma combine_dst d e : dst_ok dst0 k e d -> 0 <= e < elems c g ->
  dst_ok dst0 k (e + 1) (fun j => if decide (j = i) then upd (d i) (tile_dst_offset (dims c) (first c g + e)) (result c (first c g + e)) else d j).
Proof using Hch Hk.
  intros [D1 D2] He. split.
  - intros j i' c' g' e' Hj He' Hd. destruct (decide (i' = i)) as [->|]; [|apply (D1 j); [done|done|]].
    + destruct (Z.eq_dec (tile_dst_offset (dims c') (first c' g' + e')) (tile_dst_offset (dims c) (first c g + e))) as [E|E].
      * destruct (chain_out Hch j k i c' c g' g e' e Hj Hk He' He E) as [-> Hx]. by rewrite E, Hx, upd_eq.
      * rewrite upd_ne by done. apply (D1 j); [done|done|]. destruct Hd as [?|[-> Hd]]; [by left|right].
        split; [done|]. rewrite Hk in Hj. injection Hj as <- <-. destruct (Z.eq_dec e' e) as [->|]; [done|lia].
    + destruct Hd as [?|[-> Hd]]; [by left|]. rewrite Hk in Hj. congruence.
  - intros i' off Hoff. destruct (decide (i' = i)) as [->|]; [|by apply D2].
    rewrite upd_ne; [by apply D2|]. by apply (Hoff k c g e).
Qed.

End segment.

(** *** The end of a call *)

Lemma reduce_reset_step dst0 k i c p j s : rounds !! k = Some (Fin i c) -> fin_inv dst0 k c s -> p = root c -> pc s p = At k (Reset j) ->
  0 <= j <= num_pes ->
  if j <? num_pes then fin_inv dst0 k c (goto p (At k (Reset (j + 1))) (set_sync p j 0 s))
  else fin_inv dst0 k c (goto p (Bar k) s).
Proof using.
  intros Hk [F1 F2] -> Hpc Hj. destruct (Z.ltb_spec j num_pes) as [Hlt|Hge].
  - split; [|done]. intros q p Hq Hp. rewrite at_eq. cbn [cleared_to]. specialize (F1 q p Hq Hp).
    rewrite Hpc in F1. cbn [cleared_to] in F1.
    change (pSync (goto _ _ _) q p) with (upd (pSync s) (root c) (upd (pSync s (root c)) j 0) q p).
    destruct (Z.eqb_spec q (root c)) as [->|]; [|rewrite upd_ne by done; exact F1].
    rewrite upd_eq. destruct (Z.eq_dec p j) as [->|].
    + rewrite upd_eq. by rewrite (proj2 (Z.ltb_lt j (j + 1))) by lia.
    + rewrite upd_ne by done. rewrite F1. case_ifs; lia.
  - split; [|done]. intros q p Hq Hp. rewrite at_eq. cbn [cleared_to]. rewrite Nat.eqb_refl.
    change (pSync (goto _ _ s) q p) with (pSync s q p). rewrite (F1 q p Hq Hp), Hpc. cbn [cleared_to].
    unfold TileReduce.is_pe in *. case_ifs; lia.
Qed.

(** *** From one round to the next *)

Lemma next_dst dst0 k n d : dst_ok dst0 k n d -> (forall i c g, rounds !! k = Some (Seg i c g) -> n = elems c g) ->
  dst_ok dst0 (S k) 0 d.
Proof using.
  intros [D1 D2] Hn'. split; [|done]. intros j i c g e Hj He [Hlt|[_ ?]]; [|lia]. apply (D1 j); [done|done|].
  destruct (decide (j = k)) as [->|]; [right|left; lia]. split; [done|]. rewrite (Hn' i c g Hj). lia.
Qed.

Lemma turn dst0 k s : inv dst0 k s -> (forall q, is_pe q -> pc s q = Bar k) -> inv dst0 (S k) s.
Proof using Hch Hn.
  intros [Hpos Hr] Hbar. split; [intros p Hp; left; by rewrite Hbar|].
  assert (H0 : is_pe 0) by (unfold TileReduce.is_pe; lia).
  destruct (rounds !! k) as [r|] eqn:Hk; [|exfalso; destruct (Hpos 0 H0) as [Hw|Hw]; rewrite Hbar in Hw by done].
  2:{ destruct k; [done|]. cbn in Hw. injection Hw as ?. lia. }
  2:{ cbn in Hw. by rewrite Hk in Hw. }
  pose proof (chain_ok Hch k r Hk) as Hrok.
  assert (Hsync : forall q p, is_pe q -> is_pe p -> pSync s q p = after r q).
  { intros q p Hq Hp. destruct r as [i c g|i c].
    - rewrite (seg_sync _ _ _ _ _ _ Hr q p Hq Hp), Hbar by done. cbn. by rewrite Nat.eqb_refl.
    - rewrite (fin_sync _ _ _ _ Hr q p Hq Hp), Hbar by (apply Hrok). cbn. rewrite Nat.eqb_refl.
      unfold TileReduce.is_pe in Hp. rewrite (proj2 (Z.ltb_lt p num_pes)) by lia. by destruct (q =? root c). }
  assert (Hd : dst_ok dst0 (S k) 0 (dst s)).
  { destruct r as [i c g|i c].
    - apply (next_dst dst0 k (elems c g)); [|intros; congruence].
      pose proof (seg_dst _ _ _ _ _ _ Hr) as Hd. rewrite Hbar in Hd by apply Hrok. cbn in Hd. by rewrite Nat.eqb_refl in Hd.
    - apply (next_dst dst0 k 0); [apply Hr|intros; congruence]. }
  assert (Hlt : (k =? S k)%nat = false) by (apply Nat.eqb_neq; lia).
  destruct (rounds !! S k) as [r'|] eqn:Hk'.
  - pose proof (chain_ok Hch _ _ Hk') as Hrok'.
    assert (Hb : forall q p, is_pe q -> is_pe p -> pSync s q p = before r' q).
    { intros q p Hq Hp. rewrite (Hsync q p Hq Hp). symmetry. by apply (chain_next Hch k). }
    destruct r' as [i c g|i c].
    + assert (Hroot : is_pe (root c)) by apply Hrok'. split.
      * intros q p Hq Hp. rewrite (Hb q p Hq Hp), Hbar by done. cbn. by rewrite Hlt.
      * intros p e Hp. rewrite Hbar by done. cbn. by rewrite Hlt.
      * intros p e Hp _ [Hpc|Hpc]; by rewrite Hbar in Hpc.
      * intros j p Hpc. by rewrite Hbar in Hpc.
      * intros e p Hpc. by rewrite Hbar in Hpc.
      * rewrite Hbar by done. cbn. by rewrite Hlt.
    + assert (Hroot : is_pe (root c)) by apply Hrok'. split; [|done].
      intros q p Hq Hp. rewrite (Hb q p Hq Hp), (Hbar (root c) Hroot). cbn. rewrite Hlt.
      unfold TileReduce.is_pe in Hp. by rewrite (proj2 (Z.ltb_ge p 0)) by lia.
  - split; [|done]. intros q p Hq Hp. rewrite (Hsync q p Hq Hp). by apply (chain_last Hch k).
Qed.

(** A PE that enters a round has done nothing in it. *)
Lemma enter_fresh k p i c g : rounds !! k = Some (Seg i c g) ->
  flagged k (enter k p) = false /\ has_sent k (enter k p) = false /\ combined_to k (elems c g) (enter k p) = 0 /\
  (forall ph, enter k p = At k ph -> ph = Pack \/ ph = Begin /\ packs gda c p = false).
Proof using.
  intros Hk. unfold TileReduce.enter. rewrite Hk. destruct (packs gda c p) eqn:E; (split_and!; [done..|]); intros ph [= <-]; auto.
Qed.

Lemma enter_round k p : in_round k p (enter k p).
Proof using Hn.
  unfold TileReduce.enter, in_round. destruct (rounds !! k) as [[i c g|i c]|]; [|case_if|done].
  - split; [done|]. by destruct (packs gda c p) eqn:E.
  - split; [done|]. lia.
  - done.
Qed.

Lemma enter_step dst0 k p s : inv dst0 (S k) s -> is_pe p -> pc s p = Bar k -> inv dst0 (S k) (goto p (enter (S k) p) s).
Proof using Hch Hn.
  intros [Hpos Hr] Hp Hpc. assert (Hlt : (k =? S k)%nat = false) by (apply Nat.eqb_neq; lia).
  split; [apply (pos_goto (S k) p _ s s); [done|done|apply enter_round]|].
  destruct (rounds !! S k) as [[i c g|i c]|] eqn:Hk; [| |exact Hr].
  - destruct (enter_fresh (S k) p i c g Hk) as (Ef & Es & Ec & Eph). destruct Hr as [I1 I2 I3 I4 I5 I6].
    set (s' := goto _ _ _).
    assert (Hfl : forall q, flagged (S k) (pc s' q) = flagged (S k) (pc s q)).
    { intros q. unfold s'. destruct (Z.eq_dec q p) as [->|]; [|by rewrite at_ne]. rewrite at_eq, Ef, Hpc. cbn. by rewrite Hlt. }
    split.
    + intros q p' Hq Hp'. rewrite Hfl. by apply I1.
    + intros p' e Hp' Hs He. unfold s' in Hs. destruct (Z.eq_dec p' p) as [->|]; [by rewrite at_eq, Es in Hs|].
      rewrite at_ne in Hs by done. by apply I2.
    + intros p' e Hp' Hpk Hpc' He. unfold s' in Hpc'. destruct (Z.eq_dec p' p) as [->|]; [|rewrite at_ne in Hpc' by done; by apply I3].
      rewrite at_eq in Hpc'. exfalso. destruct Hpc' as [E|E]; destruct (Eph _ E) as [?|[? ?]]; congruence.
    + intros j p' Hpc' Hj. unfold s' in Hpc'. destruct (Z.eq_dec (root c) p) as [E|]; [|rewrite at_ne in Hpc' by done; rewrite Hfl; by apply (I4 j)].
      rewrite E, at_eq in Hpc'. destruct (Eph _ Hpc') as [?|[? ?]]; congruence.
    + intros e p' Hpc' Hp'. unfold s' in Hpc'. destruct (Z.eq_dec (root c) p) as [E|]; [|rewrite at_ne in Hpc' by done; rewrite Hfl; by apply (I5 e)].
      rewrite E, at_eq in Hpc'. destruct (Eph _ Hpc') as [?|[? ?]]; congruence.
    + unfold s'. destruct (Z.eq_dec (root c) p) as [E|]; [|by rewrite at_ne].
      rewrite E, at_eq, Ec. rewrite E, Hpc in I6. cbn in I6. by rewrite Hlt in I6.
  - destruct Hr as [F1 F2]. split; [|exact F2]. intros q p' Hq Hp'.
    assert (Hc : cleared_to (S k) (pc (goto p (enter (S k) p) s) (root c)) = cleared_to (S k) (pc s (root c))).
    { destruct (Z.eq_dec (root c) p) as [E|]; [|by rewrite at_ne]. rewrite E, at_eq, Hpc.
      unfold TileReduce.enter. rewrite Hk, E, Z.eqb_refl. cbn. by rewrite Hlt. }
    rewrite Hc. by apply F1.
Qed.

Lemma reduce_initial_inv s : initial gda rounds s -> inv (dst s) 0 s.
Proof using Hch Hn.
  intros [Hpc Hs]. split; [intros p Hp; right; rewrite Hpc; apply enter_round|].
  assert (Hd : dst_ok (dst s) 0 0 (dst s)) by (split; [intros j i c g e _ He [?|[_ ?]]; lia|done]).
  destruct (rounds !! 0%nat) as [r|] eqn:Hk; [|done]. pose proof (fun q => chain_first Hch r q Hk) as Hb.
  destruct r as [i c g|i c].
  - split.
    + intros q p Hq Hp. destruct (enter_fresh 0 p i c g Hk) as (Ef & _). rewrite Hpc, Ef, Hs.
      specialize (Hb q). cbn in Hb. by destruct (q =? root c).
    + intros p e Hp. destruct (enter_fresh 0 p i c g Hk) as (_ & Es & _). by rewrite Hpc, Es.
    + intros p e Hp Hpk Hpc' He. destruct (enter_fresh 0 p i c g Hk) as (_ & _ & _ & Eph). rewrite Hpc in Hpc'. exfalso.
      destruct Hpc' as [E|E]; destruct (Eph _ E) as [?|[? ?]]; congruence.
    + intros j p Hpc' Hj. destruct (enter_fresh 0 (root c) i c g Hk) as (_ & _ & _ & Eph). rewrite Hpc in Hpc'.
      destruct (Eph _ Hpc') as [?|[? ?]]; congruence.
    + intros e p Hpc' Hp. destruct (enter_fresh 0 (root c) i c g Hk) as (_ & _ & _ & Eph). rewrite Hpc in Hpc'.
      destruct (Eph _ Hpc') as [?|[? ?]]; congruence.
    + destruct (enter_fresh 0 (root c) i c g Hk) as (_ & _ & Ec & _). by rewrite Hpc, Ec.
  - split; [|done]. intros q p Hq Hp. rewrite Hs, Hpc. unfold TileReduce.enter. rewrite Hk, Z.eqb_refl. cbn.
    unfold TileReduce.is_pe in Hp. rewrite (proj2 (Z.ltb_ge p 0)) by lia. specialize (Hb q). cbn in Hb. by destruct (q =? root c).
Qed.

Lemma all_at_bar dst0 k s : inv dst0 k s -> forallb (fun q => arrived k (pc s q)) (seqZ 0 num_pes) = true ->
  forall q, is_pe q -> pc s q = Bar k.
Proof using.
  intros [Hpos _] Hall q Hq. rewrite forallb_forall in Hall. specialize (Hall q).
  rewrite <- list_elem_of_In, elem_of_seqZ in Hall. specialize (Hall ltac:(unfold TileReduce.is_pe in Hq; lia)).
  destruct (Hpos q Hq) as [Hw|Hw].
  - destruct k; [done|]. cbn in Hw. rewrite Hw in Hall. cbn [arrived] in Hall. apply Nat.leb_le in Hall. lia.
  - destruct (pc s q) as [j ph|j].
    + assert (j = k) as -> by (cbn in Hw; by destruct (rounds !! k) as [[]|], Hw). cbn [arrived] in Hall. apply Nat.ltb_lt in Hall. lia.
    + cbn in Hw. destruct (rounds !! k) as [[]|]; [by subst|by subst|done].
Qed.

Lemma seg_exec dst0 k i c g p s s' junk ph : rounds !! k = Some (Seg i c g) -> inv dst0 k s -> is_pe p ->
  pc s p = At k ph -> exec junk p s = Some s' -> inv dst0 k s'.
Proof using Hch Hn.
  intros Hk Hinv Hp Hpc He. destruct Hinv as [Hpos Hr]. rewrite Hk in Hr.
  assert (Hin : in_round k p (At k ph)).
  { destruct (Hpos p Hp) as [Hw|Hw]; rewrite Hpc in Hw; [by destruct k|done]. }
  destruct (seg_ok k i c g Hk) as [Hok Hg].
  unfold TileReduce.exec in He. rewrite Hpc, Hk in He. cbn in Hin. rewrite Hk in Hin. destruct Hin as [_ Hph].
  assert (Hpos' : forall c' s1, pc s1 = pc s -> in_round k p c' -> seg_inv dst0 k i c g (goto p c' s1) -> inv dst0 k (goto p c' s1)).
  { intros c' s1 E Hc Hs. split; [by apply (pos_goto k p c' s s1)|]. by rewrite Hk. }
  destruct ph as [| | | |j|e|j|]; try done; cbn in He.
  - injection He as <-. apply Hpos'; [done|cbn; by rewrite Hk|]. by apply pack_step.
  - injection He as <-. apply Hpos'; [done|cbn; by rewrite Hk|]. apply send_step with (ph := Begin); auto.
  - injection He as <-. apply Hpos'; [done|cbn; by rewrite Hk|]. apply send_step with (ph := End_); [done..|].
    right. split; [done|]. split; [done|]. intros e He. destruct (packs gda c p) eqn:Hpk; [|by apply sent_value_spec].
    apply (seg_packed _ _ _ _ _ _ Hr p e Hp Hpk); [by right|done].
  - injection He as <-. apply Hpos'; [done| |by apply (flag_step dst0 k i c g Hk)].
    case_if; cbn; rewrite Hk; [split; [done|]|done]. unfold TileReduce.is_pe in *. lia.
  - destruct Hph as [-> Hj]. destruct (Z.ltb_spec j num_pes) as [Hlt|Hge].
    + destruct (Z.eqb_spec (pSync s (root c) j) (g + 1)) as [Ef|]; [|done]. injection He as <-.
      apply Hpos'; [done|cbn; rewrite Hk; split; [done|]; split; [done|lia]|].
      assert (Hjf : flagged k (pc s j) = true).
      { rewrite (seg_sync _ _ _ _ _ _ Hr (root c) j Hp), Z.eqb_refl in Ef by (unfold TileReduce.is_pe; lia).
        destruct (flagged k (pc s j)); [done|lia]. }
      replace s with (mkState (pWrk s) (pSync s) (dst s) (pc s)) by (by destruct s).
      apply root_step; try (by rewrite Hpc); try done.
      * intros j' p [= <-] Hp'. destruct (Z.eq_dec p j) as [->|]; [done|]. apply (seg_await _ _ _ _ _ _ Hr j p Hpc). lia.
      * pose proof (seg_dst _ _ _ _ _ _ Hr) as Hd. by rewrite Hpc in Hd.
    + injection He as <-. apply Hpos'; [done| |].
      * cbn. rewrite Hk. destruct (segment_range c g Hok Hg). split; [done|]. split; [done|lia].
      * replace s with (mkState (pWrk s) (pSync s) (dst s) (pc s)) by (by destruct s).
        apply root_step; try (by rewrite Hpc); try done.
        -- intros e p _ Hp'. apply (seg_await _ _ _ _ _ _ Hr j p Hpc). unfold TileReduce.is_pe in Hp'. lia.
        -- pose proof (seg_dst _ _ _ _ _ _ Hr) as Hd. by rewrite Hpc in Hd.
  - destruct Hph as [-> Hj]. pose proof (seg_all _ _ _ _ _ _ Hr e) as Hall. pose proof (seg_dst _ _ _ _ _ _ Hr) as Hd.
    rewrite Hpc in Hd. cbn in Hd. destruct (Z.ltb_spec e (elems c g)) as [Hlt|Hge]; injection He as <-.
    + apply Hpos'; [done|cbn; rewrite Hk; split; [done|]; split; [done|lia]|].
      destruct (segment_range c g Hok Hg) as (? & ? & ?). rewrite (wrap_small 64) by lia.
      rewrite (combined_result dst0 k i c g s e (fun p Hp' => Hall p Hpc Hp') Hr) by lia.
      apply root_step; try (by rewrite Hpc); try done.
      * intros e' p [= <-] Hp'. by apply Hall.
      * apply (combine_dst dst0 k i c g Hk); [done|lia].
    + apply Hpos'; [done|cbn; by rewrite Hk|].
      replace s with (mkState (pWrk s) (pSync s) (dst s) (pc s)) by (by destruct s).
      apply root_step; try (by rewrite Hpc); try done; cbn; rewrite ?Nat.eqb_refl; try done.
      assert (e = elems c g) as <- by lia. exact Hd.
Qed.

Lemma reduce_exec_inv dst0 k p s s' junk : inv dst0 k s -> is_pe p -> exec junk p s = Some s' ->
  exists k', inv dst0 k' s'.
Proof using Hch Hn.
  intros Hinv Hp He. destruct (pc s p) as [j ph|j] eqn:Hpc.
  - pose proof Hinv as [Hpos Hr]. destruct (Hpos p Hp) as [Hw|Hw]; rewrite Hpc in Hw; [by destruct k|].
    cbn in Hw. destruct (rounds !! k) as [[i c g|i c]|] eqn:Hk.
    + destruct Hw as [-> _]. exists k. by eapply seg_exec.
    + destruct Hw as [-> Hw]. destruct ph as [| | | | | |j|]; try done. destruct Hw as [Hroot Hj].
      pose proof (reduce_reset_step dst0 k i c p j s Hk Hr Hroot Hpc Hj) as Hf. exists k.
      unfold TileReduce.exec in He. rewrite Hpc, Hk in He. destruct (Z.ltb_spec j num_pes); injection He as <-.
      * split; [|by rewrite Hk]. apply (pos_goto k p _ s); [done|done|]. cbn. rewrite Hk. split; [done|]. split; [done|lia].
      * split; [|by rewrite Hk]. apply (pos_goto k p _ s s); [done|done|]. cbn. by rewrite Hk.
    + destruct Hw as [-> ->]. unfold TileReduce.exec in He. by rewrite Hpc, Hk in He.
  - unfold TileReduce.exec in He. rewrite Hpc in He. destruct (forallb _ _) eqn:Hall; [|done]. injection He as <-.
    pose proof Hinv as [Hpos Hr]. exists (S j). destruct (Hpos p Hp) as [Hw|Hw]; rewrite Hpc in Hw.
    + destruct k as [|k]; [done|]. cbn in Hw. injection Hw as ->. by apply enter_step.
    + assert (j = k) as -> by (cbn in Hw; by destruct (rounds !! k) as [[]|]).
      apply enter_step; [|done|done]. apply turn; [done|]. by apply (all_at_bar dst0).
Qed.

Lemma reduce_inv s s' : initial gda rounds s -> rtc step s s' -> exists k, inv (dst s) k s'.
Proof using Hch Hn.
  intros Hi Hr. apply (rtc_invariant step (fun s' => exists k, inv (dst s) k s')) with (x := s); [|done|].
  - intros x y [k Hk] [junk p s2 Hp He]. by eapply reduce_exec_inv.
  - exists O. by apply reduce_initial_inv.
Qed.

(** *** Progress *)

Lemma reduce_waiting_moves dst0 k s p junk : inv dst0 k s -> waiting k (pc s p) -> exists s', exec junk p s = Some s'.
Proof using.
  intros [Hpos _] Hw. destruct k as [|k]; [done|]. cbn in Hw. unfold TileReduce.exec. rewrite Hw.
  assert (Hall : forallb (fun q => arrived k (pc s q)) (seqZ 0 num_pes) = true); [|rewrite Hall; eauto].
  apply forallb_forall. intros q Hq%list_elem_of_In%elem_of_seqZ. destruct (Hpos q) as [Hq'|Hq'].
  - unfold TileReduce.is_pe. lia.
  - cbn in Hq'. rewrite Hq'. cbn [arrived]. apply Nat.leb_refl.
  - destruct (pc s q) as [j ph|j]; cbn in Hq'; cbn [arrived].
    + assert (j = S k) as -> by (by destruct (rounds !! S k) as [[]|], Hq'). apply Nat.ltb_lt. lia.
    + assert (j = S k) as -> by (by destruct (rounds !! S k) as [[]|]). apply Nat.leb_le. lia.
Qed.

Lemma at_moves dst0 k s p ph junk r : rounds !! k = Some r -> inv dst0 k s -> is_pe p -> pc s p = At k ph ->
  (exists s', exec junk p s = Some s') \/
  exists j, is_pe j /\ flagged k (pc s j) = false /\ exists i c g, r = Seg i c g.
Proof using.
  intros Hk [Hpos Hr] Hp Hpc. destruct (Hpos p Hp) as [Hw|Hw]; rewrite Hpc in Hw; [by destruct k|].
  cbn in Hw. rewrite Hk in Hw, Hr. unfold TileReduce.exec. rewrite Hpc, Hk. destruct r as [i c g|i c].
  - destruct Hw as [_ Hw]. destruct ph as [| | | |j|e|j|]; try done; eauto; [|destruct (e <? elems c g); eauto].
    destruct (Z.ltb_spec j num_pes) as [Hj|]; [|eauto]. destruct (Z.eqb_spec (pSync s p j) (g + 1)) as [|Hf]; [eauto|].
    right. destruct Hw as [-> Hj']. assert (Hpj : is_pe j) by (unfold TileReduce.is_pe; lia). exists j. split; [done|].
    split; [|eauto]. rewrite (seg_sync _ _ _ _ _ _ Hr (root c) j Hp Hpj), Z.eqb_refl in Hf. by destruct (flagged k (pc s j)).
  - destruct Hw as [_ Hw]. destruct ph as [| | | | | |j|]; try done. destruct (j <? num_pes); eauto.
Qed.

Lemma reduce_moves dst0 k s : inv dst0 k s -> finished num_pes s \/ exists s', step s s'.
Proof using Hn.
  intros Hinv. set (junk := pWrk s 0).
  assert (Hstep : forall p, is_pe p -> (exists s', exec junk p s = Some s') -> exists s', step s s').
  { intros p Hp [s' He]. exists s'. by econstructor. }
  assert (Hwait : forall p, is_pe p -> waiting k (pc s p) -> exists s', step s s').
  { intros p Hp Hw. apply (Hstep p Hp). by eapply reduce_waiting_moves. }
  destruct (forallb (fun q => returned (pc s q)) (seqZ 0 num_pes)) eqn:Hret.
  { left. intros p Hp. rewrite forallb_forall in Hret. apply Hret, list_elem_of_In, elem_of_seqZ.
    unfold TileReduce.is_pe in Hp. lia. }
  right. destruct (rounds !! k) as [r|] eqn:Hk.
  - destruct (forallb (fun q => arrived k (pc s q)) (seqZ 0 num_pes)) eqn:Hall.
    { apply (Hstep 0); [unfold TileReduce.is_pe; lia|]. unfold TileReduce.exec.
      rewrite (all_at_bar dst0 k s Hinv Hall 0), Hall by (unfold TileReduce.is_pe; lia). eauto. }
    apply forallb_false in Hall as (q & Hq%elem_of_seqZ & Harr). assert (Hpq : is_pe q) by (unfold TileReduce.is_pe; lia).
    destruct (inv_pos _ _ _ Hinv q Hpq) as [Hw|Hw]; [by apply (Hwait q)|].
    destruct (pc s q) as [j ph|j] eqn:Hpc; cbn in Hw; rewrite Hk in Hw.
    2:{ assert (j = k) as -> by (by destruct r). cbn [arrived] in Harr. by rewrite Nat.leb_refl in Harr. }
    assert (j = k) as -> by (by destruct r, Hw).
    destruct (at_moves dst0 k s q ph junk r Hk Hinv Hpq Hpc) as [?|(j & Hj & Hf & i & c & g & ->)]; [by apply (Hstep q)|].
    destruct (inv_pos _ _ _ Hinv j Hj) as [Hw'|Hw']; [by apply (Hwait j)|]. apply (Hstep j Hj). unfold TileReduce.exec.
    destruct (pc s j) as [j' ph'|j'] eqn:Hpc'; cbn in Hw'; rewrite Hk in Hw'; [|subst; cbn in Hf; by rewrite Nat.eqb_refl in Hf].
    destruct Hw' as [-> Hw']. rewrite Hk. destruct ph' as [| | | |?|?|?|]; try done; eauto.
  - apply forallb_false in Hret as (q & Hq%elem_of_seqZ & Hr). assert (Hpq : is_pe q) by (unfold TileReduce.is_pe; lia).
    destruct (inv_pos _ _ _ Hinv q Hpq) as [Hw|Hw]; [by apply (Hwait q)|].
    destruct (pc s q) as [j ph|j]; cbn in Hw; rewrite Hk in Hw; [|done]. by destruct Hw as [-> ->].
Qed.

Definition round_cost (r : round) : Z :=
  match r with Seg _ c g => num_pes + elems c g + 8 | Fin _ _ => num_pes + 3 end.

Definition later (k : nat) : Z := foldr (fun r n => round_cost r + n) 0 (drop k rounds).

(** Steps left to a PE. *)
Definition steps_left (c : counter) : Z :=
  match c with
  | Bar k => 1 + later (S k)
  | At k ph =>
      later (S k) +
      match rounds !! k, ph with
      | Some (Seg _ c g), Pack => num_pes + elems c g + 7
      | Some (Seg _ c g), Begin => num_pes + elems c g + 6
      | Some (Seg _ c g), End_ => num_pes + elems c g + 5
      | Some (Seg _ c g), Flag => num_pes + elems c g + 4
      | Some (Seg _ c g), Await i => num_pes - i + elems c g + 3
      | Some (Seg _ c g), Combine e => elems c g - e + 2
      | Some (Fin _ _), Reset i => num_pes - i + 2
      | _, _ => 0
      end
  end.

Definition run_left (s : state) : Z := zsum (fun p => steps_left (pc s p)) (seqZ 0 num_pes).

Lemma later_step k r : rounds !! k = Some r -> later k = round_cost r + later (S k).
Proof using. intros H. unfold later. by rewrite (drop_S _ _ _ H). Qed.

Lemma later_nonneg k : 0 <= later k.
Proof using Hch Hn.
  unfold later. assert (H : Forall round_ok (drop k rounds)).
  { apply Forall_forall. intros r Hr. apply (list_elem_of_lookup_1) in Hr as [j Hj]. rewrite lookup_drop in Hj.
    by apply (chain_ok Hch (k + j)). }
  induction H as [|r l Hr _ IH]; cbn; [done|]. assert (0 <= round_cost r); [|lia].
  destruct r as [i c g|i c]; cbn; [|lia]. destruct Hr as [Hok Hg]. destruct (segment_range c g Hok Hg). lia.
Qed.

Lemma left_nonneg dst0 k s p : inv dst0 k s -> is_pe p -> 0 <= steps_left (pc s p).
Proof using Hch Hn.
  intros Hinv Hp. unfold steps_left. destruct (pc s p) as [j ph|j] eqn:Hpc; pose proof (later_nonneg (S j)); [|lia].
  destruct (inv_pos _ _ _ Hinv p Hp) as [Hw|Hw]; rewrite Hpc in Hw; [by destruct k|]. cbn in Hw.
  destruct (rounds !! k) as [[i c g|i c]|] eqn:Hk; destruct Hw as [-> Hw]; rewrite Hk.
  - destruct (seg_ok k i c g Hk) as [Hok Hg]. destruct (segment_range c g Hok Hg) as (_ & He & _). destruct ph; lia.
  - destruct ph; lia.
  - destruct ph; lia.
Qed.

Lemma reduce_exec_left dst0 k s p s' junk : inv dst0 k s -> is_pe p -> exec junk p s = Some s' ->
  steps_left (pc s' p) < steps_left (pc s p) /\ forall q, q <> p -> pc s' q = pc s q.
Proof using Hch Hn.
  intros Hinv Hp He. unfold TileReduce.exec in He. destruct (pc s p) as [j ph|j] eqn:Hpc.
  - destruct (inv_pos _ _ _ Hinv p Hp) as [Hw|Hw]; rewrite Hpc in Hw; [by destruct k|]. cbn in Hw.
    assert (Hj : j = k) by (by destruct (rounds !! k) as [[]|], Hw).
    subst j. destruct (rounds !! k) as [[i c g|i c]|] eqn:Hk; [| |done].
    + destruct (seg_ok k i c g Hk) as [Hok Hg]. destruct (segment_range c g Hok Hg) as (_ & Hel & _).
      assert (Hgo : forall c' (s1 : state), pc s1 = pc s -> steps_left c' < steps_left (At k ph) ->
        steps_left (pc (goto p c' s1) p) < steps_left (At k ph) /\ forall q, q <> p -> pc (goto p c' s1) q = pc s q).
      { intros c' s1 E H. rewrite at_eq. split; [done|]. intros q Hq. by rewrite at_ne, E. }
      destruct Hw as [_ Hw].
      destruct ph as [| | | |i'|e|i'|]; try done; cbn in He; case_ifs_in He; try done; injection He as <-; apply Hgo; try done;
        try (destruct (p =? root c)); cbn; rewrite ?Hk; lia.
    + destruct Hw as [_ Hw]. destruct ph as [| | | | | |i'|]; try done. case_ifs_in He; injection He as <-.
      all: split; [rewrite at_eq; cbn; rewrite ?Hk; lia|intros q Hq; by rewrite at_ne].
  - destruct (forallb _ _); [|done]. injection He as <-. split; [|intros q Hq; by rewrite at_ne]. rewrite at_eq.
    pose proof (later_nonneg (S (S j))). unfold TileReduce.enter.
    destruct (rounds !! S j) as [r|] eqn:Hk; cbn; [rewrite (later_step (S j) r Hk)|rewrite Hk].
    + destruct r as [i c g|i c]; [|destruct (p =? root c)]; cbn; rewrite ?Hk; cbn; [destruct (packs gda c p); lia|lia|lia].
    + unfold later at 1. rewrite drop_ge by (apply lookup_ge_None in Hk; lia). cbn. pose proof (later_nonneg (S j)). lia.
Qed.

Lemma reduce_run_left_step dst0 k s s' : inv dst0 k s -> step s s' -> run_left s' < run_left s.
Proof using Hch Hn.
  intros Hinv [junk p s2 Hp He]. destruct (reduce_exec_left _ _ _ _ _ _ Hinv Hp He) as [Hlt Hne]. unfold run_left.
  rewrite (zsum_change (fun q => steps_left (pc s2 q)) (fun q => steps_left (pc s q)) _ p); [lia|apply NoDup_seqZ| |].
  - apply elem_of_seqZ. unfold TileReduce.is_pe in Hp. lia.
  - intros q _ Hq. by rewrite Hne.
Qed.

Lemma reduce_ends n s s' : initial gda rounds s -> nsteps step n s s' ->
  Z.of_nat n <= run_left s /\ (finished num_pes s' \/ exists s2, step s' s2).
Proof using Hch Hn.
  intros Hi Hs. assert (Hr : rtc step s s') by (by eapply rtc_nsteps_2).
  destruct (reduce_inv s s' Hi Hr) as [k Hk]. split; [|by eapply reduce_moves].
  enough (Z.of_nat n + run_left s' <= run_left s) as He.
  { assert (0 <= run_left s'); [|lia]. apply zsum_nonneg. intros p Hp%elem_of_seqZ. eapply left_nonneg; [exact Hk|].
    unfold TileReduce.is_pe. lia. }
  clear Hk Hr. assert (Hinv : exists k, inv (dst s) k s) by (exists O; by apply reduce_initial_inv). revert Hinv. clear Hi.
  generalize (dst s) as d. induction Hs as [|n x y z Hxy _ IH]; intros d [j Hj]; [lia|].
  pose proof (reduce_run_left_step _ _ _ _ Hj Hxy). assert (Hy : exists k, inv d k y).
  { destruct Hxy as [junk p s2 Hp He]. by eapply reduce_exec_inv. }
  specialize (IH d Hy). lia.
Qed.

(** A PE that has returned from all calls. *)
Lemma reduce_done s s' p : initial gda rounds s -> rtc step s s' -> is_pe p -> returned (pc s' p) = true ->
  (forall q r, is_pe q -> is_pe r -> pSync s' q r = 0) /\
  (forall j i c g e, rounds !! j = Some (Seg i c g) -> 0 <= e < elems c g ->
     dst s' i (tile_dst_offset (dims c) (first c g + e)) = result c (first c g + e)) /\
  (forall i off, (forall j c g e, rounds !! j = Some (Seg i c g) -> 0 <= e < elems c g ->
     off <> tile_dst_offset (dims c) (first c g + e)) -> dst s' i off = dst s i off).
Proof using Hch Hn.
  intros Hi Hr Hp Hret. destruct (reduce_inv s s' Hi Hr) as [k [Hpos Hk]].
  destruct (pc s' p) as [j []|] eqn:Hpc; try done. destruct (Hpos p Hp) as [Hw|Hw]; rewrite Hpc in Hw; [by destruct k|].
  cbn in Hw. destruct (rounds !! k) as [[]|] eqn:E; [by destruct Hw|by destruct Hw|]. destruct Hk as [Hs [D1 D2]].
  split; [done|]. split; [|done]. intros j' i c g e Hj He. apply (D1 j'); [done|done|]. left.
  apply lookup_lt_Some in Hj. apply lookup_ge_None in E. lia.
Qed.

End proofs.

(** ** The rounds of calls *)

Section rounds_of_calls.

Context {T : Type} (num_pes : Z) (Hn : 0 < num_pes).

Notation call := (call (T := T)).
Notation round := (round (T := T)).

(** The flags at the start of a list of rounds. *)
Fixpoint chain (v : Z -> Z) (l : list round) : Prop :=
  match l with
  | [] => forall q, v q = 0
  | r :: l => round_ok num_pes r /\ (forall q, before num_pes r q = v q) /\ chain (after r) l
  end.

Lemma chain_lookup l : forall v, chain v l ->
  (forall k r, l !! k = Some r -> round_ok num_pes r) /\
  (forall r q, l !! 0%nat = Some r -> before num_pes r q = v q) /\
  (forall k r r' q, l !! k = Some r -> l !! S k = Some r' -> before num_pes r' q = after r q) /\
  (forall k r q, l !! k = Some r -> l !! S k = None -> after r q = 0).
Proof using.
  induction l as [|r l IH]; intros v; [done|]. intros (Hok & Hb & Hc). destruct (IH _ Hc) as (I1 & I2 & I3 & I4).
  split_and!.
  - intros [|k] r' Hk; [by injection Hk as <-|by apply (I1 k)].
  - intros r' q [= <-]. apply Hb.
  - intros [|k] r1 r2 q H1 H2; [injection H1 as <-; by apply I2|by apply (I3 k)].
  - intros [|k] r1 q H1 H2; [injection H1 as <-; destruct l; [by apply Hc|done]|by apply (I4 k)].
Qed.

Lemma segments_pos (c : call) : call_ok num_pes c -> 0 < segments num_pes c.
Proof using.
  intros [_ Hc He]. destruct (num_elements_spec _ He) as [HN Hb]. unfold segments. rewrite HN. apply Z.div_str_pos. lia.
Qed.

Lemma chain_block i (c : call) g l : call_ok num_pes c -> 0 <= g <= segments num_pes c -> chain (fun _ => 0) l ->
  chain (fun q => if q =? root c then g else 0) ((Seg i c <$> seqZ g (segments num_pes c - g)) ++ Fin i c :: l).
Proof using.
  intros Hok Hg Hl. remember (segments num_pes c - g) as m eqn:Em. assert (Hm : 0 <= m) by lia. revert g Hg Em.
  pattern m. apply natlike_ind; [| |done]; clear m Hm.
  - intros g Hg Em. rewrite seqZ_nil by done. cbn [fmap list_fmap app chain]. split; [done|]. split; [|done].
    intros q. cbn [before]. by replace (segments num_pes c) with g by lia.
  - intros m Hm IH g Hg Em. rewrite seqZ_cons by lia. rewrite fmap_cons. cbn [app chain]. split; [split; [done|lia]|]. split; [done|].
    rewrite Z.pred_succ. apply (IH (Z.succ g)); lia.
Qed.

(** The type has a size, and no two elements of the tile share a destination. *)
Definition args_ok (c : call) : Prop :=
  0 < sizeof_T c /\
  forall xs ys, inside (dims c) xs -> inside (dims c) ys ->
    u64 (offset_at dst_stride (dims c) xs) = u64 (offset_at dst_stride (dims c) ys) -> xs = ys.

Lemma typed_ok i (c : call) l : 0 < sizeof_T c -> tile_reduce_typed num_pes i c = Some l ->
  call_ok num_pes c /\ l = (Seg i c <$> seqZ 0 (segments num_pes c)) ++ [Fin i c].
Proof using Hn.
  intros Hs. unfold tile_reduce_typed. case_if; [done|]. case_if; [done|]. case_if; [done|]. case_if; [done|]. intros [= <-].
  split; [|done]. apply Z.eqb_neq in E, E0. split; [unfold is_pe; lia| |done].
  assert (0 <= segment_capacity num_pes c); [|lia]. unfold segment_capacity. apply Z.div_pos; [|done].
  apply Z.div_pos; [done|done].
Qed.

Lemma rounds_chain i (cs : list call) : Forall args_ok cs -> chain (fun _ => 0) (rounds_from num_pes i cs).
Proof using Hn.
  intros H. revert i. induction H as [|c cs [Hs _] _ IH]; intros i; [done|]. cbn [rounds_from].
  destruct (tile_reduce_typed num_pes i c) as [l|] eqn:E; [|apply IH].
  destruct (typed_ok i c l Hs E) as [Hok ->]. cbn [from_option id]. rewrite <- app_assoc.
  pose proof (chain_block i c 0 _ Hok ltac:(pose proof (segments_pos c Hok); lia) (IH (S i))) as Hc.
  rewrite Z.sub_0_r in Hc. revert Hc. cbn [app].
  generalize ((Seg i c <$> seqZ 0 (segments num_pes c)) ++ Fin i c :: rounds_from num_pes (S i) cs).
  intros [|r l'] Hc; [by intros q|]. destruct Hc as (H1 & H2 & H3). cbn [chain]. split; [done|]. split; [|done].
  intros q. rewrite H2. by destruct (q =? root c).
Qed.

Lemma rounds_elem i (cs : list call) k j c g : Forall args_ok cs -> rounds_from num_pes i cs !! k = Some (Seg j c g) ->
  (i <= j)%nat /\ cs !! (j - i)%nat = Some c /\ 0 <= g < segments num_pes c /\ call_ok num_pes c.
Proof using Hn.
  intros H Hk. apply list_elem_of_lookup_2 in Hk. revert i Hk. induction H as [|c' cs [Hs _] _ IH]; intros i Hk.
  - by apply elem_of_nil in Hk.
  - cbn [rounds_from] in Hk. apply elem_of_app in Hk as [Hk|Hk].
    + destruct (tile_reduce_typed num_pes i c') as [l|] eqn:E; [|by apply elem_of_nil in Hk].
      destruct (typed_ok i c' l Hs E) as [Hok ->]. cbn [from_option id] in Hk. apply elem_of_app in Hk as [Hk|Hk].
      * apply list_elem_of_fmap_1 in Hk as (g' & [= -> -> ->] & Hg%elem_of_seqZ). rewrite Nat.sub_diag. split_and!; [done|done|lia|lia|done].
      * by apply list_elem_of_singleton in Hk.
    + destruct (IH (S i) Hk) as (Hle & Hl & Hg). split; [lia|]. replace (j - i)%nat with (S (j - S i)) by lia. done.
Qed.

Lemma rounds_has i (cs : list call) j c g : Forall args_ok cs -> cs !! j = Some c ->
  tile_reduce_typed num_pes (i + j) c <> None -> 0 <= g < segments num_pes c ->
  exists k, rounds_from num_pes i cs !! k = Some (Seg (i + j) c g).
Proof using Hn.
  intros H. revert i j. induction H as [|c' cs [Hs _] _ IH]; intros i j Hj Ht Hg; [done|]. cbn [rounds_from].
  destruct j as [|j].
  - injection Hj as ->. rewrite Nat.add_0_r in *. destruct (tile_reduce_typed num_pes i c) as [l|] eqn:E; [|done].
    destruct (typed_ok i c l Hs E) as [_ ->]. cbn [from_option id]. apply list_elem_of_lookup_1.
    apply elem_of_app. left. apply elem_of_app. left. apply list_elem_of_fmap_2, elem_of_seqZ. lia.
  - destruct (IH (S i) j Hj) as [k Hk]; [by replace (S i + j)%nat with (i + S j)%nat by lia|done|].
    replace (S i + j)%nat with (i + S j)%nat in Hk by lia. exists (length (default [] (tile_reduce_typed num_pes i c')) + k)%nat.
    rewrite lookup_app_r by lia. by replace (_ + k - _)%nat with k by lia.
Qed.

End rounds_of_calls.

(** ** Coordinates in the order of the dimensions *)

Lemma inside_length ds xs : inside ds xs -> length ds = length xs.
Proof. apply Forall2_length. Qed.

Lemma inside_rev ds xs : inside ds xs -> inside (rev ds) (rev xs).
Proof.
  induction 1 as [|d x ds xs Hx _ IH]; [constructor|]. cbn [rev]. apply Forall2_app; [done|]. constructor; [done|constructor].
Qed.

Lemma offset_at_app stride ds ds' xs xs' : length ds = length xs ->
  offset_at stride (ds ++ ds') (xs ++ xs') = offset_at stride ds xs + offset_at stride ds' xs'.
Proof.
  revert xs. induction ds as [|d ds IH]; intros [|x xs] Hl; cbn in *; try lia. rewrite IH by lia. lia.
Qed.

Lemma offset_at_rev stride ds xs : length ds = length xs -> offset_at stride (rev ds) (rev xs) = offset_at stride ds xs.
Proof.
  revert xs. induction ds as [|d ds IH]; intros [|x xs] Hl; cbn [rev] in *; try done. injection Hl as Hl.
  rewrite offset_at_app by (by rewrite !length_rev). rewrite IH by done. cbn. lia.
Qed.

(** The row-major index of coordinates. *)
Definition row_major (ds : list dim) (xs : list Z) : Z := flat (rev ds) (rev xs).

Lemma row_major_range ds xs : inside ds xs -> 0 <= row_major ds xs < box ds.
Proof. intros H. rewrite <- (box_rev ds). by apply flat_range, inside_rev. Qed.

Lemma row_major_offset stride ds xs : inside ds xs ->
  offset_loop stride (rev ds) (row_major ds xs) 0 = u64 (offset_at stride ds xs).
Proof.
  intros H. rewrite <- (wrap_small 64 (offset_loop _ _ _ _)) by (apply offset_range; lia).
  unfold row_major. rewrite offset_loop_flat by (by apply inside_rev). rewrite Z.add_0_l.
  by rewrite offset_at_rev by (by apply inside_length).
Qed.

Lemma row_major_surj ds x : 0 <= x < box ds -> exists xs, inside ds xs /\ row_major ds xs = x.
Proof.
  intros Hx. rewrite <- (box_rev ds) in Hx. destruct (flat_surj _ _ Hx) as (xs & Hin & Hf). exists (rev xs).
  split; [|unfold row_major; by rewrite rev_involutive]. rewrite <- (rev_involutive ds). by apply inside_rev.
Qed.

Section theorems.

Context {T : Type} (Calc : T -> T -> T) (num_pes : Z) (gda : bool) (Hn : 0 < num_pes).

Notation call := (call (T := T)).

Lemma rounds_chained (cs : list call) : Forall args_ok cs -> chained num_pes (all_rounds num_pes cs).
Proof using Hn.
  intros H. destruct (chain_lookup num_pes _ _ (rounds_chain num_pes Hn 0 cs H)) as (H1 & H2 & H3 & H4).
  split; [exact H1|exact H2|exact H3|exact H4|].
  intros k k' i c c' g g' e e' Hk Hk' He He' Ho.
  destruct (rounds_elem num_pes Hn 0 cs k i c g H Hk) as (_ & Hc & Hg & Hok).
  destruct (rounds_elem num_pes Hn 0 cs k' i c' g' H Hk') as (_ & Hc' & Hg' & Hok').
  rewrite Hc in Hc'. injection Hc' as <-. split; [done|].
  pose proof (segment_range num_pes c g Hok Hg). pose proof (segment_range num_pes c g' Hok' Hg').
  destruct (row_major_surj (dims c) (segment_start num_pes c g + e)) as (xs & Hx & Ex); [lia|].
  destruct (row_major_surj (dims c) (segment_start num_pes c g' + e')) as (ys & Hy & Ey); [lia|].
  rewrite <- Ex, <- Ey in Ho |- *. unfold tile_dst_offset in Ho. rewrite !row_major_offset in Ho by done.
  rewrite Forall_forall in H. destruct (H c) as [_ Hinj]; [by eapply list_elem_of_lookup_2|]. by rewrite (Hinj xs ys).
Qed.

(** Every element of the tile is in a segment. *)
Lemma segment_cover (c : call) x : call_ok num_pes c -> 0 <= x < box (dims c) ->
  exists g e, 0 <= g < segments num_pes c /\ 0 <= e < segment_elems num_pes c g /\ x = segment_start num_pes c g + e.
Proof using.
  intros [_ Hc He] Hx. destruct (num_elements_spec _ He) as [HN Hb]. set (C := segment_capacity num_pes c) in *.
  pose proof (Z.div_mod x C ltac:(lia)) as Hdm. pose proof (Z.mod_pos_bound x C Hc) as Hm.
  exists (x / C), (x mod C). unfold segments, segment_elems, segment_start. fold C. rewrite HN.
  split; [split; [apply Z.div_pos; lia|apply Z.div_lt_upper_bound; [done|]]|lia].
  pose proof (Z.mod_pos_bound (box (dims c) + C - 1) C Hc). pose proof (Z.div_mod (box (dims c) + C - 1) C ltac:(lia)). nia.
Qed.

End theorems.

(** ** Properties *)

(** C3: Once a PE has returned from a sequence of tile reductions, with any
    roots and tiles and under every interleaving, each call that passed its checks
    has left at every coordinate of its destination tile the elements of all PEs at
    that coordinate, combined in the order of the ranks, and nothing else of the
    destination has changed; all flags are zero again. *)
Theorem tile_reduce_correct {T} (Calc : T -> T -> T) num_pes gda (cs : list call) s s' p i c
    (Hn : 0 < num_pes) (Hcs : Forall args_ok cs) (Hi : initial gda (all_rounds num_pes cs) s)
    (Hr : rtc (step Calc num_pes gda (all_rounds num_pes cs)) s s')
    (Hp : is_pe num_pes p) (Hret : returned (pc s' p) = true)
    (Hc : cs !! i = Some c) (Hok : tile_reduce_typed num_pes i c <> None) :
  let element r xs := src c r (u64 (offset_at src_stride (dims c) xs)) in
  (forall xs, inside (dims c) xs ->
     dst s' i (u64 (offset_at dst_stride (dims c) xs)) =
     foldl (fun reduced r => Calc reduced (element r xs)) (element 0 xs) (seqZ 1 (num_pes - 1))) /\
  (forall off, (forall xs, inside (dims c) xs -> off <> u64 (offset_at dst_stride (dims c) xs)) -> dst s' i off = dst s i off) /\
  (forall q r, is_pe num_pes q -> is_pe num_pes r -> pSync s' q r = 0).
Proof.
  cbn zeta. pose proof (rounds_chained num_pes Hn cs Hcs) as Hch.
  destruct (reduce_done Calc num_pes gda Hn _ Hch s s' p Hi Hr Hp Hret) as (Hs & Hd & Hf).
  assert (Hcok : call_ok num_pes c).
  { destruct (tile_reduce_typed num_pes i c) as [l|] eqn:E; [|done]. rewrite Forall_forall in Hcs.
    destruct (Hcs c) as [Hsz _]; [by eapply list_elem_of_lookup_2|]. apply (typed_ok num_pes Hn i c l Hsz E). }
  split; [|split; [|exact Hs]].
  - intros xs Hx. destruct (segment_cover num_pes c (row_major (dims c) xs) Hcok) as (g & e & Hg & He & Ex);
      [by apply row_major_range|].
    destruct (rounds_has num_pes Hn 0 cs i c g Hcs Hc Hok Hg) as [k Hk].
    pose proof (Hd k i c g e Hk He) as Hv. rewrite <- Ex in Hv. unfold tile_dst_offset in Hv.
    rewrite row_major_offset in Hv by done. rewrite Hv. unfold result, tile_value, tile_src_offset.
    by rewrite row_major_offset.
  - intros off Hoff. apply Hf. intros k c' g e Hk He ->. destruct (rounds_elem num_pes Hn 0 cs k i c' g Hcs Hk) as (_ & Hc' & Hg & _).
    rewrite Nat.sub_0_r, Hc in Hc'. injection Hc' as <-. pose proof (segment_range num_pes c g Hcok Hg).
    destruct (row_major_surj (dims c) (segment_start num_pes c g + e)) as (xs & Hx & Ex); [lia|].
    apply (Hoff xs Hx). rewrite <- Ex. by apply row_major_offset.
Qed.

(** C34: A sequence of tile reductions ends: the number of steps is bounded, and as
    long as some PE has not returned from all calls there is a step. *)
Theorem tile_reduce_ends {T} (Calc : T -> T -> T) num_pes gda (cs : list call) n s s'
    (Hn : 0 < num_pes) (Hcs : Forall args_ok cs) (Hi : initial gda (all_rounds num_pes cs) s)
    (Hr : nsteps (step Calc num_pes gda (all_rounds num_pes cs)) n s s') :
  Z.of_nat n <= run_left num_pes (all_rounds num_pes cs) s /\
  (finished num_pes s' \/ exists s2, step Calc num_pes gda (all_rounds num_pes cs) s' s2).
Proof. apply reduce_ends; [done|by apply rounds_chained|done|done]. Qed.

(** ** Examples *)

(** Steps of the scheduled PEs; a PE that is blocked stays where it is. *)
Definition reduce_drive {T} (Calc : T -> T -> T) (num_pes : Z) (gda : bool) (rounds : list (round (T := T))) (junk : Z -> T)
    (schedule : list Z) (s : state) : state :=
  foldl (fun s p => default s (exec Calc num_pes gda rounds junk p s)) s schedule.

Lemma reduce_drive_rtc {T} (Calc : T -> T -> T) num_pes gda rounds junk schedule s :
  Forall (is_pe num_pes) schedule ->
  rtc (step Calc num_pes gda rounds) s (reduce_drive Calc num_pes gda rounds junk schedule s).
Proof.
  intros H. revert s. induction H as [|p l Hp _ IH]; intros s; [constructor|]. unfold reduce_drive in *. cbn [foldl].
  destruct (exec Calc num_pes gda rounds junk p s) as [s1|] eqn:E; cbn [from_option id]; [|apply IH].
  eapply rtc_l; [by econstructor|apply IH].
Qed.

(** Tiles of two rows and three columns at row 1 and column 2: the second call
    has slots of two elements, so that it takes three segments. *)
Definition demo_dims (src_row : Z) : list dim := [mkDim src_row 8 1 3; mkDim 1 2 2 5].

Definition demo_calls : list (call (T := Z)) :=
  [mkCall 0 (demo_dims 3) 8 (fun r off => 100 * r + off); mkCall 1 (demo_dims 7) 2097152 (fun r off => 1000 * r + off)].

Definition demo_start : state (T := Z) :=
  mkState (fun _ _ => 0) (fun _ _ => 0) (fun _ _ => -1) (fun p => enter true (all_rounds 2 demo_calls) 0 p).

Definition demo_schedule : list Z := concat (replicate 60 [1; 0]).

Lemma demo_args : Forall args_ok demo_calls.
Proof.
  repeat constructor; intros xs ys Hx Hy.
  all: inversion Hx as [|? x ? xs' Hx0 Hx1]; inversion Hx1 as [|? x' ? xs2 Hx2 Hx3]; inversion Hx3; subst.
  all: inversion Hy as [|? y ? ys' Hy0 Hy1]; inversion Hy1 as [|? y' ? ys2 Hy2 Hy3]; inversion Hy3; subst.
  all: change (0 <= x < 2) in Hx0; change (0 <= x' < 3) in Hx2; change (0 <= y < 2) in Hy0; change (0 <= y' < 3) in Hy2.
  all: cbn; unwrap; intros He; assert (x = y /\ x' = y') as [-> ->] by lia; done.
Qed.

Lemma demo_schedule_pes : Forall (is_pe 2) demo_schedule.
Proof. apply Forall_concat, Forall_replicate. repeat (apply Forall_cons; split); [done|done|constructor]. Qed.

Lemma demo_returned :
  returned (pc (reduce_drive Z.add 2 true (all_rounds 2 demo_calls) (fun _ => 77) demo_schedule demo_start) 0) = true.
Proof. by vm_compute. Qed.

Lemma tile_reduce_correct_witness :
  dst (reduce_drive Z.add 2 true (all_rounds 2 demo_calls) (fun _ => 77) demo_schedule demo_start) 1%nat 24 = 1036.
Proof.
  assert (Hin : inside (demo_dims 7) [1; 2]) by (constructor; [done|constructor; [done|constructor]]).
  exact (proj1 (tile_reduce_correct Z.add 2 true demo_calls demo_start _ 0 1 _ ltac:(lia) demo_args
    (conj (fun _ => eq_refl) (fun _ _ => eq_refl)) (reduce_drive_rtc _ _ _ _ _ _ _ demo_schedule_pes)
    (conj (Z.le_refl 0) eq_refl) demo_returned eq_refl ltac:(by vm_compute)) [1; 2] Hin).
Defined.

Lemma tile_reduce_ends_witness :
  finished 2 demo_start \/ exists s2, step Z.add 2 true (all_rounds 2 demo_calls) demo_start s2.
Proof.
  exact (proj2 (tile_reduce_ends Z.add 2 true demo_calls 0 demo_start demo_start ltac:(lia) demo_args
    (conj (fun _ => eq_refl) (fun _ _ => eq_refl)) (nsteps_O _ _))).
Defined.
