(* ===== verification/Bytes.v ===== *)
(** * Integers in memory

    Bytes of the integers that the device writes into queue entries, and the
    value of a field as a big-endian device reads it.  The GPU is little-endian. *)

From Stdlib Require Import ZArith Lia.
From stdpp Require Import base numbers list.
From S2P Require Import Prelude Bits.

Open Scope Z_scope.

(** The bytes of an [n]-byte integer stored by a little-endian machine. *)
Fixpoint le (n : nat) (x : Z) : list Z :=
  match n with
  | O => []
  | S n' => Z.land x 255 :: le n' (Z.shiftr x 8)
  end.

(** The value of bytes read in big-endian, respectively little-endian order. *)
Definition be_value (l : list Z) : Z := fold_left (fun a b => 256 * a + b) l 0.

Definition le_value (l : list Z) : Z := foldr (fun b a => b + 256 * a) 0 l.

(** [len] bytes at offset [off]. *)
Definition slice (off len : nat) (l : list Z) : list Z := take len (drop off l).

(** [endian::to_be] on the GPU. *)
Abbreviation be32 := (to_be Little 4).
Abbreviation be64 := (to_be Little 8).

(** ** Lemmas *)

Lemma le_length n x : length (le n x) = n.
Proof. revert x. induction n as [|n IH]; intros x; simpl; [done|]. by rewrite IH. Qed.

Lemma le_lookup n x j : (j < n)%nat -> le n x !! j = Some (Z.land (Z.shiftr x (8 * Z.of_nat j)) 255).
Proof.
  revert x j. induction n as [|n IH]; intros x j Hj; [lia|]. destruct j as [|j]; simpl.
  - by rewrite Z.shiftr_0_r.
  - rewrite IH by lia. rewrite Z.shiftr_shiftr by lia. do 3 f_equal. lia.
Qed.

Lemma le_le_value n x : le_value (le n x) = x mod 2 ^ (8 * Z.of_nat n).
Proof.
  revert x. induction n as [|n IH]; intros x; [by rewrite Z.mod_1_r|]. cbn [le le_value foldr].
  fold (le_value (le n (Z.shiftr x 8))). rewrite IH. change 255 with (Z.ones 8).
  rewrite Z.land_ones, Z.shiftr_div_pow2 by lia. change (2 ^ 8) with 256.
  replace (8 * Z.of_nat (S n)) with (8 + 8 * Z.of_nat n) by lia. rewrite Z.pow_add_r by lia.
  change (2 ^ 8) with 256. rewrite Z.rem_mul_r by lia. lia.
Qed.

Lemma be_value_reverse l : be_value (reverse l) = le_value l.
Proof.
  induction l as [|b l IH]; [done|]. rewrite reverse_cons. unfold be_value in *. rewrite fold_left_app, IH. simpl. lia.
Qed.

(** A value converted to big-endian order is stored most significant byte first. *)
Lemma le_byteswap n x : le n (byteswap n x) = reverse (le n x).
Proof.
  apply list_eq_same_length with n; [by rewrite length_reverse, le_length|by rewrite le_length|].
  intros i a b Hi Ha Hb. rewrite le_lookup in Ha by done.
  rewrite reverse_lookup in Hb by (by rewrite le_length). rewrite le_length, le_lookup in Hb by lia.
  injection Ha as <-. injection Hb as <-. apply Z.bits_inj'. intros k Hk.
  rewrite !Z.land_spec, !Z.shiftr_spec by lia. change 255 with (Z.ones 8).
  rewrite Z.testbit_ones_nonneg by lia. destruct (Z.ltb_spec k 8); [|by rewrite !andb_false_r].
  rewrite byteswap_spec by lia. rewrite (proj2 (Z.ltb_lt _ _)) by lia. rewrite !andb_true_r. f_equal.
  rewrite <- (Z.div_unique (k + 8 * Z.of_nat i) 8 (Z.of_nat i) k) by lia.
  rewrite <- (Z.mod_unique (k + 8 * Z.of_nat i) 8 (Z.of_nat i) k) by lia. lia.
Qed.

Lemma to_be_little n x : to_be Little n x = byteswap n x.
Proof. reflexivity. Qed.

Lemma be_value_to_be n x : 0 <= x < 2 ^ (8 * Z.of_nat n) -> be_value (le n (to_be Little n x)) = x.
Proof.
  intros Hx. rewrite to_be_little, le_byteswap, be_value_reverse, le_le_value. by apply Z.mod_small.
Qed.

Lemma slice_app_here off len l1 l2 : length l1 = off -> (len <= length l2)%nat ->
  slice off len (l1 ++ l2) = take len l2.
Proof. intros <- _. unfold slice. by rewrite drop_app_length. Qed.

Lemma lor_shiftl a n b : 0 <= n -> 0 <= b < 2 ^ n -> Z.lor (Z.shiftl a n) b = a * 2 ^ n + b.
Proof.
  intros Hn Hb. assert (Hl : Z.land (Z.shiftl a n) b = 0).
  { apply Z.bits_inj'. intros i Hi. rewrite Z.land_spec, Z.shiftl_spec, Z.bits_0 by done.
    destruct (Z.lt_ge_cases i n); [by rewrite Z.testbit_neg_r by lia|].
    destruct (Z.eq_dec b 0) as [->|]; [by rewrite Z.bits_0, andb_false_r|].
    rewrite (Z.bits_above_log2 b); [by rewrite andb_false_r|lia|].
    apply Z.log2_lt_pow2; [lia|]. eapply Z.lt_le_trans; [apply Hb|]. apply Z.pow_le_mono_r; lia. }
  rewrite <- Z.lxor_lor, <- Z.add_nocarry_lxor by done. by rewrite Z.shiftl_mul_pow2.
Qed.

(** A field that lies inside a big-endian integer. *)
Lemma be_value_inside a n b x : be_value (slice a n (reverse (le (b + n + a) x))) =
  x / 2 ^ (8 * Z.of_nat b) mod 2 ^ (8 * Z.of_nat n).
Proof.
  assert (Hsplit : forall n m x, le (n + m) x = le n x ++ le m (x / 2 ^ (8 * Z.of_nat n))).
  { clear. induction n as [|n IH]; intros m x; [by rewrite Z.div_1_r|]. cbn [le plus app]. rewrite IH. do 3 f_equal.
    rewrite Z.shiftr_div_pow2, Z.div_div by lia. f_equal. rewrite <- Z.pow_add_r by lia. f_equal. lia. }
  rewrite !Hsplit, !reverse_app. unfold slice.
  rewrite drop_app_length' by (by rewrite length_reverse, le_length).
  rewrite take_app_length' by (by rewrite length_reverse, le_length).
  by rewrite be_value_reverse, le_le_value.
Qed.
