(* ===== verification/Mlx5Wqe.v ===== *)
(** * Work queue entries of the mlx5 provider

    Model of the entry constructors of [src/gda/mlx5/provider_gda_mlx5.hpp]
    ([gda_mlx5_wqe] and its segments) as the 64 bytes they put into the send
    queue.  Addresses and keys are machine integers; [mem] gives the bytes of the
    local memory at the time an inline entry is built, and [unused] the 16 bytes
    of the entry that the pointer form leaves uninitialised. *)

From Stdlib Require Import ZArith Lia.
From stdpp Require Import base numbers list.
From S2P Require Import Prelude Bits Bytes.

Open Scope Z_scope.

Definition MLX5_OPCODE_RDMA_WRITE : Z := 8.
Definition MLX5_WQE_CTRL_CQ_UPDATE : Z := Z.shiftl 2 2.
Definition MLX5_WQE_CTRL_FENCE : Z := Z.shiftl 4 5.
Definition MLX5_INLINE_SEG : Z := 2147483648.

(** ** Segments *)

Definition gda_mlx5_wqe_ctrl (wqe_idx opcode qpn ds fm_ce_se : Z) : list Z :=
  le 4 (be32 (Z.lor (Z.shiftl wqe_idx 8) opcode)) ++
  le 4 (be32 (Z.lor (u32 (Z.shiftl qpn 8)) (Z.land ds 63))) ++
  le 1 0 ++ le 2 0 ++ le 1 fm_ce_se ++ le 4 0.

Definition gda_mlx5_wqe_raddr (raddr rkey : Z) : list Z :=
  le 8 (be64 raddr) ++ le 4 rkey ++ le 4 0.

Definition gda_mlx5_wqe_data (addr lkey byte_count : Z) : list Z :=
  le 4 (be32 (Z.land byte_count (u32 (Z.lnot MLX5_INLINE_SEG)))) ++ le 4 lkey ++ le 8 (be64 addr).

Definition gda_mlx5_wqe_atomic (swap_add compare : Z) : list Z :=
  le 8 (be64 swap_add) ++ le 8 (be64 compare).

(** The array [data] has 28 bytes, zero beyond those copied. *)
Definition inline_bytes (mem : Z -> Z) (addr byte_count : Z) : list Z :=
  (fun i => if i <? byte_count then u8 (mem (addr + i)) else 0) <$> seqZ 0 28.

Definition gda_mlx5_wqe_inline_data (mem : Z -> Z) (addr byte_count : Z) : list Z :=
  le 4 (be32 (Z.lor (Z.land byte_count 1023) MLX5_INLINE_SEG)) ++ inline_bytes mem addr byte_count.

Definition rma_ds : Z := 3.
Definition inline_ds (byte_count : Z) : Z := if byte_count <=? 12 then 3 else 4.
Definition amo_ds : Z := 4.

Definition can_inline (opcode byte_count inline_threshold : Z) : bool :=
  (opcode =? MLX5_OPCODE_RDMA_WRITE) && (byte_count <=? inline_threshold).

(** ** Entries *)

(** [gda_mlx5_wqe_init_inline_rma] *)
Definition gda_mlx5_wqe_rma (mem : Z -> Z) (unused : list Z)
    (wqe_idx opcode qpn fm_ce_se raddr rkey laddr lkey byte_count : Z) (send_inline : bool) : list Z :=
  if send_inline then
    gda_mlx5_wqe_ctrl wqe_idx opcode qpn (inline_ds byte_count) fm_ce_se ++
    gda_mlx5_wqe_raddr raddr rkey ++ gda_mlx5_wqe_inline_data mem laddr byte_count
  else
    gda_mlx5_wqe_ctrl wqe_idx opcode qpn rma_ds fm_ce_se ++
    gda_mlx5_wqe_raddr raddr rkey ++ gda_mlx5_wqe_data laddr lkey byte_count ++ unused.

Definition gda_mlx5_wqe_amo
    (wqe_idx opcode qpn fm_ce_se raddr rkey swap_add compare laddr lkey : Z) : list Z :=
  gda_mlx5_wqe_ctrl wqe_idx opcode qpn amo_ds fm_ce_se ++
  gda_mlx5_wqe_raddr raddr rkey ++
  gda_mlx5_wqe_atomic swap_add compare ++ gda_mlx5_wqe_data laddr lkey 8.

(** The doorbell register takes the first 8 bytes of the entry. *)
Definition gda_mlx5_db_register (wqe : list Z) : list Z := take 8 wqe.

(** ** What the device reads *)

(** A big-endian field of an entry. *)
Definition field (off len : nat) (wqe : list Z) : Z := be_value (slice off len wqe).

(** The device reports the completion of an entry in the completion queue when
    the [ce] bits ask for it. *)
Definition reports (wqe : list Z) : bool := Z.land (field 11 1 wqe) 12 =? 8.

(** The fields inside the two words of a control segment. *)
Lemma ctrl_fields wqe_idx opcode qpn ds fm_ce_se rest :
  0 <= wqe_idx < 2 ^ 16 -> 0 <= opcode < 2 ^ 8 -> 0 <= qpn < 2 ^ 24 -> 0 <= ds < 64 -> 0 <= fm_ce_se < 2 ^ 8 ->
  let w := gda_mlx5_wqe_ctrl wqe_idx opcode qpn ds fm_ce_se ++ rest in
  field 0 1 w = 0 /\ field 1 2 w = wqe_idx /\ field 3 1 w = opcode /\
  field 4 3 w = qpn /\ field 7 1 w = ds /\ field 11 1 w = fm_ce_se.
Proof.
  intros Hi Ho Hq Hd Hf w. subst w. unfold gda_mlx5_wqe_ctrl, field.
  rewrite !to_be_little, !le_byteswap. change 63 with (Z.ones 6).
  rewrite (Z.land_ones ds 6), (Z.mod_small ds) by lia.
  rewrite wrap_small by (rewrite Z.shiftl_mul_pow2 by lia; lia). rewrite !lor_shiftl by lia.
  set (x := wqe_idx * 2 ^ 8 + opcode). set (y := qpn * 2 ^ 8 + ds).
  pose proof (be_value_inside 0 1 3 x) as H1. pose proof (be_value_inside 1 2 1 x) as H2.
  pose proof (be_value_inside 3 1 0 x) as H3. pose proof (be_value_inside 0 3 1 y) as H4.
  pose proof (be_value_inside 3 1 0 y) as H5. simpl plus in *.
  assert (x / 2 ^ 8 = wqe_idx) by (symmetry; apply (Z.div_unique x (2 ^ 8) wqe_idx opcode); lia).
  assert (y / 2 ^ 8 = qpn) by (symmetry; apply (Z.div_unique y (2 ^ 8) qpn ds); lia).
  split_and!.
  - transitivity (be_value (slice 0 1 (reverse (le 4 x)))); [reflexivity|]. rewrite H1.
    rewrite Z.div_small by (subst x; lia). reflexivity.
  - transitivity (be_value (slice 1 2 (reverse (le 4 x)))); [reflexivity|]. rewrite H2.
    change (8 * Z.of_nat 1) with 8. rewrite H. apply Z.mod_small. lia.
  - transitivity (be_value (slice 3 1 (reverse (le 4 x)))); [reflexivity|]. rewrite H3.
    change (8 * Z.of_nat 0) with 0. rewrite Z.div_1_r. symmetry. apply (Z.mod_unique x _ wqe_idx opcode); [simpl; lia|].
    subst x. reflexivity || lia.
  - transitivity (be_value (slice 0 3 (reverse (le 4 y)))); [reflexivity|]. rewrite H4.
    change (8 * Z.of_nat 1) with 8. rewrite H0. apply Z.mod_small. lia.
  - transitivity (be_value (slice 3 1 (reverse (le 4 y)))); [reflexivity|]. rewrite H5.
    change (8 * Z.of_nat 0) with 0. rewrite Z.div_1_r. symmetry. apply (Z.mod_unique y _ qpn ds); [simpl; lia|].
    subst y. lia.
  - transitivity (be_value (le 1 fm_ce_se)); [reflexivity|]. cbn [le be_value fold_left].
    change 255 with (Z.ones 8). rewrite Z.land_ones, Z.mod_small by lia. lia.
Qed.

(** Fields beyond a prefix. *)
Lemma field_skip pre n rest off len off' : length pre = n -> off' = (n + off)%nat ->
  field off' len (pre ++ rest) = field off len rest.
Proof.
  intros <- ->. unfold field, slice. f_equal. rewrite <- drop_drop. by rewrite drop_app_length.
Qed.

Lemma ctrl_length wqe_idx opcode qpn ds fm_ce_se : length (gda_mlx5_wqe_ctrl wqe_idx opcode qpn ds fm_ce_se) = 16%nat.
Proof. reflexivity. Qed.

Lemma raddr_length raddr rkey : length (gda_mlx5_wqe_raddr raddr rkey) = 16%nat.
Proof. reflexivity. Qed.

Lemma atomic_length swap_add compare : length (gda_mlx5_wqe_atomic swap_add compare) = 16%nat.
Proof. reflexivity. Qed.

Lemma data_length laddr lkey byte_count : length (gda_mlx5_wqe_data laddr lkey byte_count) = 16%nat.
Proof. reflexivity. Qed.

Lemma byteswap_field rkey : 0 <= rkey < 2 ^ 32 -> be_value (le 4 (byteswap 4 rkey)) = rkey.
Proof. intros H. apply (be_value_to_be 4). done. Qed.

Lemma raddr_fields raddr rkey rest : 0 <= raddr < 2 ^ 64 -> 0 <= rkey < 2 ^ 32 ->
  let w := gda_mlx5_wqe_raddr raddr (byteswap 4 rkey) ++ rest in
  field 0 8 w = raddr /\ field 8 4 w = rkey.
Proof.
  intros Ha Hk w. split; [|by apply byteswap_field].
  transitivity (be_value (le 8 (be64 raddr))); [reflexivity|by apply be_value_to_be].
Qed.

Lemma data_fields laddr lkey byte_count rest : 0 <= laddr < 2 ^ 64 -> 0 <= lkey < 2 ^ 32 -> 0 <= byte_count < 2 ^ 31 ->
  let w := gda_mlx5_wqe_data laddr (byteswap 4 lkey) byte_count ++ rest in
  field 0 4 w = byte_count /\ field 4 4 w = lkey /\ field 8 8 w = laddr.
Proof.
  intros Ha Hk Hb w. split_and!.
  - transitivity (be_value (le 4 (be32 (Z.land byte_count (u32 (Z.lnot MLX5_INLINE_SEG)))))); [reflexivity|].
    replace (u32 (Z.lnot MLX5_INLINE_SEG)) with (Z.ones 31) by reflexivity.
    rewrite Z.land_ones, (Z.mod_small byte_count) by lia. apply be_value_to_be. simpl. lia.
  - by apply byteswap_field.
  - transitivity (be_value (le 8 (be64 laddr))); [reflexivity|by apply be_value_to_be].
Qed.

Lemma inline_fields mem laddr byte_count : 0 <= byte_count <= 28 ->
  let w := gda_mlx5_wqe_inline_data mem laddr byte_count in
  length w = 32%nat /\ field 0 4 w = MLX5_INLINE_SEG + byte_count /\
  slice 4 (Z.to_nat byte_count) w = (fun i => u8 (mem (laddr + i))) <$> seqZ 0 byte_count.
Proof.
  intros Hb w. split_and!; [reflexivity| |].
  - transitivity (be_value (le 4 (be32 (Z.lor (Z.land byte_count 1023) MLX5_INLINE_SEG)))); [reflexivity|].
    change 1023 with (Z.ones 10). rewrite Z.land_ones, Z.mod_small, Z.lor_comm by lia.
    change MLX5_INLINE_SEG with (Z.shiftl 1 31). rewrite lor_shiftl by lia.
    rewrite be_value_to_be; [reflexivity|]. change (8 * Z.of_nat 4) with 32. lia.
  - subst w. unfold gda_mlx5_wqe_inline_data, inline_bytes. unfold slice. rewrite drop_app_length' by done.
    rewrite <- fmap_take. replace (seqZ 0 28) with (seqZ 0 byte_count ++ seqZ byte_count (28 - byte_count)).
    + rewrite take_app_length' by (rewrite length_seqZ; done). apply list_fmap_ext. intros i x Hx%lookup_seqZ.
      by rewrite (proj2 (Z.ltb_lt _ _)) by lia.
    + pose proof (seqZ_app 0 byte_count (28 - byte_count) ltac:(lia) ltac:(lia)) as Ha.
      replace (byte_count + (28 - byte_count)) with 28 in Ha by lia. symmetry. exact Ha.
Qed.

(** What an entry has before its last 32 bytes. *)
Lemma prefix_fields wqe_idx opcode qpn ds fm_ce_se raddr rkey d :
  0 <= wqe_idx < 2 ^ 16 -> 0 <= opcode < 2 ^ 8 -> 0 <= qpn < 2 ^ 24 -> 0 <= ds < 64 -> 0 <= fm_ce_se < 2 ^ 8 ->
  0 <= raddr < 2 ^ 64 -> 0 <= rkey < 2 ^ 32 ->
  let w := gda_mlx5_wqe_ctrl wqe_idx opcode qpn ds fm_ce_se ++ gda_mlx5_wqe_raddr raddr (byteswap 4 rkey) ++ d in
  (field 0 1 w = 0 /\ field 1 2 w = wqe_idx /\ field 3 1 w = opcode /\ field 4 3 w = qpn /\ field 7 1 w = ds /\
   field 11 1 w = fm_ce_se /\ field 16 8 w = raddr /\ field 24 4 w = rkey) /\
  (forall off len off', off' = (32 + off)%nat -> field off' len w = field off len d) /\
  (forall off len off', off' = (32 + off)%nat -> slice off' len w = slice off len d).
Proof.
  intros Hi Ho Hq Hd Hf Hr Hk w. subst w.
  set (c := gda_mlx5_wqe_ctrl wqe_idx opcode qpn ds fm_ce_se).
  set (r := gda_mlx5_wqe_raddr raddr (byteswap 4 rkey)).
  destruct (ctrl_fields wqe_idx opcode qpn ds fm_ce_se (r ++ d)) as (C0 & C1 & C2 & C3 & C4 & C5); try done.
  destruct (raddr_fields raddr rkey d Hr Hk) as (R0 & R1).
  pose proof (ctrl_length wqe_idx opcode qpn ds fm_ce_se) as Hc. pose proof (raddr_length raddr (byteswap 4 rkey)) as Hrl.
  fold c in C0, C1, C2, C3, C4, C5, Hc. fold r in R0, R1, Hrl. clearbody c r. split_and!; try assumption.
  - rewrite (field_skip c 16 _ 0); [exact R0|done|done].
  - rewrite (field_skip c 16 _ 8); [exact R1|done|done].
  - intros off len off' ->. rewrite (field_skip c 16 _ (16 + off)), (field_skip r 16 _ off); done.
  - intros off len off' ->. unfold slice. rewrite app_assoc, <- drop_drop. f_equal. f_equal.
    apply drop_app_length'. by rewrite length_app, Hc, Hrl.
Qed.

(** ** Properties *)

(** C37: the device finds every field of an RMA entry where its layout has it: the
    entry is 64 bytes, its control words carry index, opcode, queue pair number
    and size, its address segment the remote address and key, and its data the
    local address, key and length, or the bytes themselves, which then lie within
    the declared size of the entry. *)
Theorem mlx5_rma_layout mem unused wqe_idx opcode qpn fm_ce_se raddr rkey laddr lkey byte_count
    inline_threshold
    (Hu : length unused = 16%nat)
    (Hi : 0 <= wqe_idx < 2 ^ 16) (Ho : 0 <= opcode < 2 ^ 8) (Hq : 0 <= qpn < 2 ^ 24)
    (Hf : 0 <= fm_ce_se < 2 ^ 8) (Hr : 0 <= raddr < 2 ^ 64) (Hrk : 0 <= rkey < 2 ^ 32)
    (Hl : 0 <= laddr < 2 ^ 64) (Hlk : 0 <= lkey < 2 ^ 32) (Hb : 0 <= byte_count < 2 ^ 31)
    (Ht : inline_threshold <= 28) :
  let inl := can_inline opcode byte_count inline_threshold in
  let w := gda_mlx5_wqe_rma mem unused wqe_idx opcode qpn fm_ce_se raddr (byteswap 4 rkey)
             laddr (byteswap 4 lkey) byte_count inl in
  length w = 64%nat /\ field 0 1 w = 0 /\ field 1 2 w = wqe_idx /\ field 3 1 w = opcode /\
  field 4 3 w = qpn /\ field 11 1 w = fm_ce_se /\ field 16 8 w = raddr /\ field 24 4 w = rkey /\
  if inl then
    field 32 4 w = MLX5_INLINE_SEG + byte_count /\
    slice 36 (Z.to_nat byte_count) w = ((fun i => u8 (mem (laddr + i))) <$> seqZ 0 byte_count) /\
    36 + byte_count <= 16 * field 7 1 w
  else
    field 32 4 w = byte_count /\ field 36 4 w = lkey /\ field 40 8 w = laddr /\ field 7 1 w = 3.
Proof.
  intros inl w. subst w. unfold gda_mlx5_wqe_rma. destruct inl eqn:Hinl.
  - assert (Hbc : 0 <= byte_count <= 28) by (subst inl; unfold can_inline in Hinl; lia).
    assert (Hds : 0 <= inline_ds byte_count < 64) by (unfold inline_ds; case_if; lia).
    destruct (inline_fields mem laddr byte_count Hbc) as (Hlen & H1 & H2).
    set (d := gda_mlx5_wqe_inline_data mem laddr byte_count) in *. clearbody d.
    destruct (prefix_fields wqe_idx opcode qpn (inline_ds byte_count) fm_ce_se raddr rkey d) as (Hp & Hd & Hs); try done.
    destruct Hp as (C0 & C1 & C2 & C3 & C4 & C5 & C6 & C7). rewrite C4, (Hd 0%nat 4%nat 32%nat eq_refl), (Hs 4%nat _ 36%nat eq_refl), H1.
    split_and!; try assumption; [by rewrite !length_app, Hlen|reflexivity|]. unfold inline_ds. case_if; lia.
  - destruct (data_fields laddr lkey byte_count unused Hl Hlk Hb) as (D0 & D1 & D2).
    set (d := gda_mlx5_wqe_data laddr (byteswap 4 lkey) byte_count ++ unused) in *.
    assert (Hlen : length d = 32%nat) by (subst d; by rewrite length_app, Hu). clearbody d.
    destruct (prefix_fields wqe_idx opcode qpn rma_ds fm_ce_se raddr rkey d) as (Hp & Hd & _); try done.
    destruct Hp as (C0 & C1 & C2 & C3 & C4 & C5 & C6 & C7).
    rewrite (Hd 0%nat 4%nat 32%nat eq_refl), (Hd 4%nat 4%nat 36%nat eq_refl), (Hd 8%nat 8%nat 40%nat eq_refl).
    split_and!; try assumption. by rewrite !length_app, Hlen.
Qed.

Lemma mlx5_rma_layout_witness :
  let w := gda_mlx5_wqe_rma (fun a => a) (repeat 0 16) 65535 8 4660 8 1000000 (byteswap 4 77) 500 (byteswap 4 99) 20 true in
  field 1 2 w = 65535 /\ slice 36 20 w = ((fun i => u8 (500 + i)) <$> seqZ 0 20) /\ 36 + 20 <= 16 * field 7 1 w.
Proof.
  pose proof (mlx5_rma_layout (fun a => a) (repeat 0 16) 65535 8 4660 8 1000000 77 500 99 20 28
    eq_refl ltac:(lia) ltac:(lia) ltac:(lia) ltac:(lia) ltac:(lia) ltac:(lia) ltac:(lia) ltac:(lia) ltac:(lia) ltac:(lia))
    as (_ & _ & H1 & _ & _ & _ & _ & _ & _ & H2 & H3).
  exact (conj H1 (conj H2 H3)).
Defined.

(** The same for an atomic entry, with the operands and the place where the
    old value goes. *)
Theorem mlx5_amo_layout wqe_idx opcode qpn fm_ce_se raddr rkey swap_add compare laddr lkey
    (Hi : 0 <= wqe_idx < 2 ^ 16) (Ho : 0 <= opcode < 2 ^ 8) (Hq : 0 <= qpn < 2 ^ 24)
    (Hf : 0 <= fm_ce_se < 2 ^ 8) (Hr : 0 <= raddr < 2 ^ 64) (Hrk : 0 <= rkey < 2 ^ 32)
    (Hs : 0 <= swap_add < 2 ^ 64) (Hc : 0 <= compare < 2 ^ 64)
    (Hl : 0 <= laddr < 2 ^ 64) (Hlk : 0 <= lkey < 2 ^ 32) :
  let w := gda_mlx5_wqe_amo wqe_idx opcode qpn fm_ce_se raddr (byteswap 4 rkey) swap_add compare
             laddr (byteswap 4 lkey) in
  length w = 64%nat /\ field 1 2 w = wqe_idx /\ field 3 1 w = opcode /\ field 4 3 w = qpn /\
  field 7 1 w = 4 /\ field 11 1 w = fm_ce_se /\ field 16 8 w = raddr /\ field 24 4 w = rkey /\
  field 32 8 w = swap_add /\ field 40 8 w = compare /\
  field 48 4 w = 8 /\ field 52 4 w = lkey /\ field 56 8 w = laddr.
Proof.
  intros w. subst w. unfold gda_mlx5_wqe_amo.
  destruct (data_fields laddr lkey 8 [] Hl Hlk ltac:(lia)) as (D0 & D1 & D2). rewrite app_nil_r in *.
  set (a := gda_mlx5_wqe_atomic swap_add compare). set (d := gda_mlx5_wqe_data laddr (byteswap 4 lkey) 8) in *.
  assert (A0 : field 0 8 (a ++ d) = swap_add).
  { transitivity (be_value (le 8 (be64 swap_add))); [reflexivity|by apply be_value_to_be]. }
  assert (A1 : field 8 8 (a ++ d) = compare).
  { transitivity (be_value (le 8 (be64 compare))); [reflexivity|by apply be_value_to_be]. }
  assert (Ha : length a = 16%nat) by reflexivity. assert (Hd : length d = 16%nat) by reflexivity. clearbody a d.
  destruct (prefix_fields wqe_idx opcode qpn amo_ds fm_ce_se raddr rkey (a ++ d)) as (Hp & Hf' & _); try done.
  destruct Hp as (C0 & C1 & C2 & C3 & C4 & C5 & C6 & C7).
  rewrite (Hf' 0%nat 8%nat 32%nat eq_refl), (Hf' 8%nat 8%nat 40%nat eq_refl), (Hf' 16%nat 4%nat 48%nat eq_refl),
    (Hf' 20%nat 4%nat 52%nat eq_refl), (Hf' 24%nat 8%nat 56%nat eq_refl).
  rewrite (field_skip a 16 d 0 4 16), (field_skip a 16 d 4 4 20), (field_skip a 16 d 8 8 24) by done.
  split_and!; try assumption. by rewrite !length_app, Ha, Hd.
Qed.
