(* ===== verification/Mlx5.v ===== *)
(** * Send queue of the mlx5 provider

    Model of [src/gda/mlx5/queue_pair_mlx5.cpp] and
    [src/gda/mlx5/queue_pair_mlx5_multiqp.cpp]: wavefronts post work queue entries
    to one send queue under its lock, ring the doorbell, and poll the single
    collapsed completion entry that the device overwrites.  Wavefronts and the
    device interleave in any order; a step is one access to shared memory.  The
    counters that the device and the poll loop compare have 16 bits.

    The device is described by what its documentation promises: it executes the
    entries in order as far as the doorbell record says, and after an entry that
    asks for it writes the index of that entry to the completion entry.  [post]
    counts all entries ever posted and does not reach [2^64]. *)

From Stdlib Require Import ZArith Lia.
From stdpp Require Import base option numbers list relations.
From S2P Require Import Prelude Bits Bytes Mlx5Wqe.

Open Scope Z_scope.

Definition MLX5_CQE_INVALID : Z := 15.
Definition FETCHING_ATOMIC_CNT : Z := 1024.

(** One lane's request. *)
Inductive request :=
  | Rma (opcode raddr rkey laddr lkey length : Z)
  | Amo (opcode raddr rkey atomic_data atomic_cmp : Z) (fence : bool).

(** What the lanes of a wavefront that use this queue pair post together, lane by
    lane; [dp] is the variant of [queue_pair_mlx5_multiqp.cpp]. *)
Record op := Op { reqs : list request; ring_db : bool; fetching : bool; dp : bool }.

Inductive counter :=
  | Idle
  | Locking (o : op)                 (* acquire_lock *)
  | PostLoad (o : op)                (* mlx5_poll_cq_until: load the post counter *)
  | PostPoll (o : op) (sq_post : Z)  (* mlx5_poll_cq_until: the loop *)
  | Filling (o : op) (lane : nat)    (* copy to SQ *)
  | Publish (o : op)                 (* increment the counters *)
  | DbRec (o : op)                   (* mlx5_ring_doorbell: doorbell record *)
  | DbReg (o : op)                   (* mlx5_ring_doorbell: doorbell register *)
  | Unlock (o : op)                  (* release_lock *)
  | QuietLoad                        (* mlx5_quiet *)
  | QuietPoll (sq_post : Z).

Record state := mkState {
  post : Z;
  lock : Z;
  buf : Z -> list Z;
  dbrec : Z;
  dbreg : list Z;
  cqe : Z;                     (* the last four bytes of the completion entry *)
  fetching_atomic_idx : Z;
  pc : Z -> counter;
  completed : Z;               (* entries executed by the device *)
  trace : list (list Z);       (* the entries it has executed *)
  rung : Z;                    (* entries announced by the doorbell record *)
  log : list (list Z)          (* the entries posted *)
}.

Section queue.
Context (qp_num inline_threshold depth : Z).
Context (nonfetching_atomic nonfetching_atomic_lkey fetching_atomic fetching_atomic_lkey : Z).
Context (mem : Z -> Z) (unused : list Z).

Definition depth_mask : Z := u16 (depth - 1).
Definition mlx5_wqe_idx (sq_post lane_id : Z) : Z := u16 (sq_post + lane_id).
Definition mlx5_sq_idx (wqe_idx : Z) : Z := Z.land wqe_idx depth_mask.

(** The entry of one lane. *)
Definition entry (o : op) (sq_post atomic_idx : Z) (lane : nat) (r : request) : list Z :=
  let wqe_idx := mlx5_wqe_idx sq_post (Z.of_nat lane) in
  match r with
  | Rma opcode raddr rkey laddr lkey length =>
      let send_inline := negb (dp o) && can_inline opcode (u32 length) inline_threshold in
      gda_mlx5_wqe_rma mem unused wqe_idx opcode qp_num (if dp o then 0 else MLX5_WQE_CTRL_CQ_UPDATE)
        raddr (byteswap 4 rkey) laddr (byteswap 4 lkey) (u32 length) send_inline
  | Amo opcode raddr rkey atomic_data atomic_cmp fence =>
      let fm_ce_se := if dp o then 0 else if fence
        then Z.lor MLX5_WQE_CTRL_CQ_UPDATE MLX5_WQE_CTRL_FENCE else MLX5_WQE_CTRL_CQ_UPDATE in
      let '(laddr, lkey) := if fetching o && negb (dp o)
        then (fetching_atomic + 8 * (u32 (atomic_idx + Z.of_nat lane) mod FETCHING_ATOMIC_CNT), fetching_atomic_lkey)
        else (nonfetching_atomic, nonfetching_atomic_lkey) in
      gda_mlx5_wqe_amo wqe_idx opcode qp_num fm_ce_se raddr (byteswap 4 rkey)
        (u64 atomic_data) (u64 atomic_cmp) laddr (byteswap 4 lkey)
  end.

Definition entries (o : op) (sq_post atomic_idx : Z) : list (list Z) :=
  imap (entry o sq_post atomic_idx) (reqs o).

Definition lanes (o : op) : Z := Z.of_nat (length (reqs o)).

(** One turn of the loop of [mlx5_poll_cq_until] on the completion word; false is
    another turn. *)
Definition poll (sq_post requested_available_slots wqecnt_sig_op_own : Z) : bool :=
  let be_wqe_counter := u16 wqecnt_sig_op_own in
  let opcode := u8 (Z.shiftr wqecnt_sig_op_own 28) in
  let sq_head := from_be Little 2 be_wqe_counter in
  let sq_tail := u16 sq_post in
  if opcode =? MLX5_CQE_INVALID then false
  else
    let posted := sq_tail in
    let completed := u16 (sq_head + 1) in
    let consumed_slots := u16 (posted - completed) in
    let available_slots := u16 (depth - consumed_slots) in
    (consumed_slots >? depth) || (available_slots >=? requested_available_slots).

Definition goto (p : Z) (c : counter) (s : state) : state :=
  mkState (post s) (lock s) (buf s) (dbrec s) (dbreg s) (cqe s) (fetching_atomic_idx s) (upd (pc s) p c)
    (completed s) (trace s) (rung s) (log s).

Definition set_lock (x : Z) (s : state) : state :=
  mkState (post s) x (buf s) (dbrec s) (dbreg s) (cqe s) (fetching_atomic_idx s) (pc s)
    (completed s) (trace s) (rung s) (log s).

(** [mlx5_sq.buf[sq_idx] = wqe] *)
Definition copy_to_sq (sq_idx : Z) (wqe : list Z) (s : state) : state :=
  mkState (post s) (lock s) (upd (buf s) sq_idx wqe) (dbrec s) (dbreg s) (cqe s) (fetching_atomic_idx s) (pc s)
    (completed s) (trace s) (rung s) (log s).

Definition publish (o : op) (s : state) : state :=
  mkState (post s + lanes o) (lock s) (buf s) (dbrec s) (dbreg s) (cqe s)
    (if fetching o && negb (dp o) then u32 (fetching_atomic_idx s + lanes o) else fetching_atomic_idx s) (pc s)
    (completed s) (trace s) (rung s) (log s ++ entries o (post s) (fetching_atomic_idx s)).

Definition store_dbrec (s : state) : state :=
  mkState (post s) (lock s) (buf s) (be32 (u16 (post s))) (dbreg s) (cqe s) (fetching_atomic_idx s) (pc s)
    (completed s) (trace s) (post s) (log s).

Definition store_dbreg (wqe : list Z) (s : state) : state :=
  mkState (post s) (lock s) (buf s) (dbrec s) (gda_mlx5_db_register wqe) (cqe s) (fetching_atomic_idx s) (pc s)
    (completed s) (trace s) (rung s) (log s).

(** One step of a wavefront; [None] while it spins or has nothing to do. *)
Definition exec (p : Z) (s : state) : option state :=
  match pc s p with
  | Idle => None
  | Locking o =>
      if lock s =? 0 then Some (goto p (if dp o then Filling o 0 else PostLoad o) (set_lock 1 s)) else None
  | PostLoad o =>
      Some (goto p (if post s + lanes o <=? depth then Filling o 0 else PostPoll o (post s)) s)
  | PostPoll o sq_post => if poll sq_post (lanes o) (cqe s) then Some (goto p (Filling o 0) s) else None
  | Filling o lane =>
      match reqs o !! lane with
      | Some r =>
          let sq_idx := mlx5_sq_idx (mlx5_wqe_idx (post s) (Z.of_nat lane)) in
          Some (goto p (if Nat.ltb (S lane) (length (reqs o)) then Filling o (S lane) else Publish o)
                 (copy_to_sq sq_idx (entry o (post s) (fetching_atomic_idx s) lane r) s))
      | None => None
      end
  | Publish o => Some (goto p (if ring_db o then DbRec o else Unlock o) (publish o s))
  | DbRec o => Some (goto p (DbReg o) (store_dbrec s))
  | DbReg o => Some (goto p (Unlock o) (store_dbreg (buf s (mlx5_sq_idx (mlx5_wqe_idx (post s) (-1)))) s))
  | Unlock o => Some (goto p (if fetching o && negb (dp o) then QuietLoad else Idle) (set_lock 0 s))
  | QuietLoad => Some (goto p (if post s + depth <=? depth then Idle else QuietPoll (post s)) s)
  | QuietPoll sq_post => if poll sq_post depth (cqe s) then Some (goto p Idle s) else None
  end.

(** The completion word for entry [k]; [x] is the signature and the owner nibble,
    the opcode is [MLX5_CQE_REQ = 0]. *)
Definition cqe_word (x k : Z) : Z := to_be Little 2 (u16 k) + 2 ^ 16 * x.

(** The device executes its next entry. *)
Definition nic (x : Z) (s : state) : option state :=
  if from_be Little 4 (dbrec s) =? u16 (completed s) then None
  else
    let wqe := buf s (mlx5_sq_idx (u16 (completed s))) in
    Some (mkState (post s) (lock s) (buf s) (dbrec s) (dbreg s)
            (if reports wqe then cqe_word x (completed s) else cqe s) (fetching_atomic_idx s) (pc s)
            (completed s + 1) (trace s ++ [wqe]) (rung s) (log s)).

(** Wavefronts start operations allowed by [ok] or [mlx5_quiet], and the device works. *)
Inductive step (ok : op -> Prop) (s : state) : state -> Prop :=
  | step_post p o : pc s p = Idle -> ok o -> step ok s (goto p (Locking o) s)
  | step_quiet p : pc s p = Idle -> step ok s (goto p QuietLoad s)
  | step_exec p s' : exec p s = Some s' -> step ok s s'
  | step_nic x s' : 0 <= x < 2 ^ 12 -> nic x s = Some s' -> step ok s s'.

(** The completion entry is filled with [0xF1]; everything else is zero. *)
Definition start : state :=
  mkState 0 0 (fun _ => []) 0 [] 4059165169 0 (fun _ => Idle) 0 [] 0 [].

(** ** Index arithmetic *)

(** The depth is a power of two that fits the 16-bit index. *)
Context (d : Z) (Hd : 0 <= d <= 15) (Hdepth : depth = 2 ^ d).

Lemma depth_range : 1 <= depth <= 32768.
Proof.
  rewrite Hdepth. split; [apply Z.lt_pred_le, Z.pow_pos_nonneg; lia|].
  change 32768 with (2 ^ 15). apply Z.pow_le_mono_r; lia.
Qed.

Lemma depth_divides : (depth | 2 ^ 16).
Proof. rewrite Hdepth. exists (2 ^ (16 - d)). rewrite <- Z.pow_add_r by lia. f_equal. lia. Qed.

Lemma slot_mod k : mlx5_sq_idx (u16 k) = k mod depth.
Proof.
  pose proof depth_range as Hr. unfold mlx5_sq_idx, depth_mask. rewrite (wrap_small 16 (depth - 1)) by lia.
  replace (depth - 1) with (Z.ones d) by (rewrite Z.ones_equiv, Hdepth; lia).
  rewrite Z.land_ones by lia. rewrite <- Hdepth. apply wrap_mod_divide; [lia|apply depth_divides].
Qed.

Lemma slot_distinct k k' : k < k' < k + depth -> k mod depth <> k' mod depth.
Proof.
  intros Hk He. pose proof depth_range. assert (Hm : (k' - k) mod depth = 0).
  { rewrite Zminus_mod, He, Z.sub_diag. apply Z.mod_0_l. lia. }
  rewrite Z.mod_small in Hm by lia. lia.
Qed.

(** ** The completion entry *)

Lemma byteswap_range n x : 0 <= byteswap n x < 2 ^ (8 * Z.of_nat n).
Proof.
  revert x. induction n as [|n IH]; intros x; [simpl; lia|]. cbn [byteswap].
  specialize (IH (Z.shiftr x 8)). change 255 with (Z.ones 8). rewrite Z.land_ones by lia.
  rewrite lor_shiftl by lia. pose proof (Z.mod_pos_bound x (2 ^ 8)) as Hm.
  replace (8 * Z.of_nat (S n)) with (8 + 8 * Z.of_nat n) by lia. rewrite Z.pow_add_r by lia. nia.
Qed.

(** What the completion word says after [c] completions. *)
Definition cqe_ok (c w : Z) : Prop :=
  (c = 0 /\ w = 4059165169) \/ (1 <= c /\ exists x, 0 <= x < 2 ^ 12 /\ w = cqe_word x (c - 1)).

Lemma poll_unfold c w sq_post requested : cqe_ok c w ->
  poll sq_post requested w =
  negb (c =? 0) && ((u16 (sq_post - c) >? depth) || (u16 (depth - u16 (sq_post - c)) >=? requested)).
Proof.
  intros [[-> ->]|(Hc & x & Hx & ->)]; [reflexivity|].
  unfold poll, cqe_word. rewrite to_be_little. pose proof (byteswap_range 2 (u16 (c - 1))) as Hb.
  change (2 ^ (8 * Z.of_nat 2)) with (2 ^ 16) in Hb. set (b := byteswap 2 (u16 (c - 1))) in *.
  assert (Hu : u16 (b + 2 ^ 16 * x) = b).
  { unfold wrap. rewrite Z.mul_comm, Z.mod_add by lia. apply Z.mod_small. lia. }
  assert (Hop : u8 (Z.shiftr (b + 2 ^ 16 * x) 28) = 0).
  { rewrite Z.shiftr_div_pow2, Z.div_small by lia. reflexivity. }
  rewrite Hu, Hop. simpl (0 =? MLX5_CQE_INVALID). cbv iota. rewrite (proj2 (Z.eqb_neq c 0)) by lia.
  assert (Hh : from_be Little 2 b = u16 (c - 1)).
  { subst b. apply byteswap_twice. apply wrap_range. lia. }
  rewrite Hh, wrap_add_l. replace (c - 1 + 1) with c by lia. by rewrite wrap_sub_l, wrap_sub_r.
Qed.

(** The poll loop ends only when there is room, respectively when everything in
    the snapshot is complete. *)
Lemma poll_sound c w sq_post requested : cqe_ok c w -> sq_post - c <= depth -> requested <= depth ->
  poll sq_post requested w = true -> sq_post + requested - c <= depth.
Proof.
  intros Hw Hle Hr Hp. rewrite (poll_unfold c) in Hp by done. pose proof depth_range.
  destruct (Z.le_gt_cases sq_post c) as [|Hgt]; [lia|].
  rewrite (wrap_small 16 (sq_post - c)) in Hp by lia. rewrite wrap_small in Hp by lia. lia.
Qed.

Lemma poll_complete c w sq_post requested : cqe_ok c w -> 1 <= c -> 0 <= requested <= depth ->
  (c <= sq_post /\ sq_post + requested - c <= depth) \/ 0 <= c - sq_post < 2 ^ 16 - depth ->
  poll sq_post requested w = true.
Proof.
  intros Hw Hc Hr Hroom. rewrite (poll_unfold c) by done. pose proof depth_range.
  rewrite (proj2 (Z.eqb_neq c 0)) by lia. destruct (Z.le_gt_cases c sq_post) as [Hle|Hgt].
  - rewrite (wrap_small 16 (sq_post - c)) by lia. rewrite wrap_small by lia. simpl. lia.
  - assert (Hu : u16 (sq_post - c) = sq_post - c + 2 ^ 16).
    { symmetry. apply (Z.mod_unique _ _ (-1)); lia. }
    rewrite Hu. simpl. lia.
Qed.

Lemma cqe_word_ok c x : 0 <= c -> 0 <= x < 2 ^ 12 -> cqe_ok (c + 1) (cqe_word x c).
Proof. intros Hc Hx. right. split; [lia|]. exists x. split; [done|]. f_equal. lia. Qed.

(** ** Invariant *)

Definition normal (o : op) : Prop := dp o = false /\ 1 <= lanes o <= 64.

Definition locked (c : counter) : bool :=
  match c with Idle | Locking _ | QuietLoad | QuietPoll _ => false | _ => true end.

(** The first [n] entries of [o] are in their slots. *)
Definition filled (s : state) (o : op) (n : nat) : Prop :=
  forall j r, (j < n)%nat -> reqs o !! j = Some r ->
    buf s ((post s + Z.of_nat j) mod depth) = entry o (post s) (fetching_atomic_idx s) j r.

Definition pc_ok (s : state) (c : counter) : Prop :=
  match c with
  | Idle | QuietLoad => True
  | Locking o | PostLoad o | DbRec o | DbReg o | Unlock o => normal o
  | PostPoll o sq_post => normal o /\ sq_post = post s /\ depth < sq_post + lanes o
  | Filling o lane =>
      normal o /\ Z.of_nat lane < lanes o /\ post s + lanes o - completed s <= depth /\ filled s o lane
  | Publish o => normal o /\ post s + lanes o - completed s <= depth /\ filled s o (length (reqs o))
  | QuietPoll sq_post => 0 < sq_post <= post s
  end.

Record inv (s : state) : Prop := {
  inv_lock : lock s = 0 \/ (lock s = 1 /\ exists p, locked (pc s p) = true);
  inv_free : lock s = 0 -> forall p, locked (pc s p) = false;
  inv_one : forall p q, locked (pc s p) = true -> locked (pc s q) = true -> p = q;
  inv_count : 0 <= completed s <= rung s /\ rung s <= post s /\ post s - completed s <= depth;
  inv_log : Z.of_nat (length (log s)) = post s;
  inv_reports : forall w, w ∈ log s -> reports w = true;
  inv_trace : trace s = take (Z.to_nat (completed s)) (log s);
  inv_buf : forall k, completed s <= k < post s -> log s !! Z.to_nat k = Some (buf s (k mod depth));
  inv_dbrec : dbrec s = be32 (u16 (rung s));
  inv_cqe : cqe_ok (completed s) (cqe s);
  inv_pc : forall p, pc_ok s (pc s p)
}.

(** Every entry of a normal operation asks for a completion. *)
Lemma ctrl_fm wqe_idx opcode qpn ds fm_ce_se rest :
  field 11 1 (gda_mlx5_wqe_ctrl wqe_idx opcode qpn ds fm_ce_se ++ rest) = Z.land fm_ce_se 255.
Proof. reflexivity. Qed.

Lemma entry_reports o sq_post idx lane r : dp o = false -> reports (entry o sq_post idx lane r) = true.
Proof.
  intros Hdp. unfold reports, entry. rewrite Hdp. destruct r.
  - unfold gda_mlx5_wqe_rma. destruct (_ && _); rewrite ctrl_fm; reflexivity.
  - destruct (_ && _), fence; unfold gda_mlx5_wqe_amo; rewrite ctrl_fm; reflexivity.
Qed.

Lemma entries_length o sq_post idx : length (entries o sq_post idx) = length (reqs o).
Proof. apply length_imap. Qed.

(** Steps that leave the queue alone. *)
Lemma goto_inv p c s : inv s -> pc_ok s c -> locked c = locked (pc s p) -> inv (goto p c s).
Proof.
  intros [I1 I2 I3 I4 I5 I6 I7 I8 I9 I10 I11] Hc Hl.
  assert (Hsame : forall q, locked (upd (pc s) p c q) = locked (pc s q)).
  { intros q. destruct (Z.eq_dec q p) as [->|]; [by rewrite upd_eq|by rewrite upd_ne]. }
  split; simpl; try done.
  - destruct I1 as [?|[? [q Hq]]]; [by left|right; split; [done|]]. exists q. by rewrite Hsame.
  - intros H q. rewrite Hsame. by apply I2.
  - intros q r. rewrite !Hsame. apply I3.
  - intros q. destruct (Z.eq_dec q p) as [->|]; [by rewrite upd_eq|rewrite upd_ne by done; apply I11].
Qed.

Lemma lock_inv p c s : inv s -> lock s = 0 -> locked c = true -> pc_ok s c -> inv (goto p c (set_lock 1 s)).
Proof.
  intros [I1 I2 I3 I4 I5 I6 I7 I8 I9 I10 I11] Hl Hc Hok. split; simpl; try done.
  - right. split; [done|]. exists p. by rewrite upd_eq.
  - intros q r Hq Hr. destruct (Z.eq_dec q p) as [->|]; [|rewrite upd_ne, I2 in Hq by done; done].
    destruct (Z.eq_dec r p) as [->|]; [done|rewrite upd_ne, I2 in Hr by done; done].
  - intros q. destruct (Z.eq_dec q p) as [->|]; [by rewrite upd_eq|rewrite upd_ne by done; apply I11].
Qed.

Lemma unlock_inv p c s : inv s -> locked (pc s p) = true -> locked c = false -> pc_ok s c ->
  inv (goto p c (set_lock 0 s)).
Proof.
  intros [I1 I2 I3 I4 I5 I6 I7 I8 I9 I10 I11] Hl Hc Hok. split; simpl; try done.
  - by left.
  - intros _ q. destruct (Z.eq_dec q p) as [->|Hne]; [by rewrite upd_eq|rewrite upd_ne by done].
    destruct (locked (pc s q)) eqn:Hq; [|done]. by destruct (Hne (I3 q p Hq Hl)).
  - intros q r Hq Hr. destruct (Z.eq_dec q p) as [->|Hne]; [by rewrite upd_eq, Hc in Hq|].
    rewrite upd_ne in Hq by done. by destruct (Hne (I3 q p Hq Hl)).
  - intros q. destruct (Z.eq_dec q p) as [->|]; [by rewrite upd_eq|rewrite upd_ne by done; apply I11].
Qed.

(** The counter of a wavefront that does not hold the lock depends on [post] only. *)
Lemma pc_ok_outside s s' c : locked c = false -> post s <= post s' -> pc_ok s c -> pc_ok s' c.
Proof. destruct c; simpl; try done; lia. Qed.

(** Steps of the lock holder that keep the lock. *)
Lemma holder_pc p c s s' : inv s -> locked (pc s p) = true -> post s <= post s' -> pc_ok s' c ->
  forall q, pc_ok s' (upd (pc s) p c q).
Proof.
  intros Hinv Hl Hp Hc q. destruct (Z.eq_dec q p) as [->|Hne]; [by rewrite upd_eq|rewrite upd_ne by done].
  apply (pc_ok_outside s); [|done|apply (inv_pc s Hinv)].
  destruct (locked (pc s q)) eqn:Hq; [|done]. by destruct (Hne (inv_one s Hinv q p Hq Hl)).
Qed.

Lemma holder_locks p c s : inv s -> locked (pc s p) = true -> locked c = true ->
  (lock s = 1 /\ exists q, locked (upd (pc s) p c q) = true) /\
  (forall q r, locked (upd (pc s) p c q) = true -> locked (upd (pc s) p c r) = true -> q = r).
Proof.
  intros Hinv Hl Hc. destruct (inv_lock s Hinv) as [H0|[H1 _]]; [by rewrite (inv_free s Hinv H0 p) in Hl|].
  split; [split; [done|]; exists p; by rewrite upd_eq|].
  assert (Hq : forall q, locked (upd (pc s) p c q) = true -> q = p).
  { intros q Hq. destruct (Z.eq_dec q p) as [|Hne]; [done|]. rewrite upd_ne in Hq by done.
    by apply (inv_one s Hinv). }
  intros q r H2 H3. by rewrite (Hq q H2), (Hq r H3).
Qed.

Lemma fill_inv p o lane r s : inv s -> pc s p = Filling o lane -> reqs o !! lane = Some r ->
  inv (goto p (if Nat.ltb (S lane) (length (reqs o)) then Filling o (S lane) else Publish o)
    (copy_to_sq (mlx5_sq_idx (mlx5_wqe_idx (post s) (Z.of_nat lane)))
       (entry o (post s) (fetching_atomic_idx s) lane r) s)).
Proof.
  intros Hinv Hpc Hr. pose proof (inv_pc s Hinv p) as Hok. rewrite Hpc in Hok.
  destruct Hok as (Hn & Hlt & Hroom & Hfill). pose proof (inv_count s Hinv) as Hcount.
  unfold mlx5_wqe_idx. rewrite slot_mod. set (c := if Nat.ltb _ _ then _ else _).
  assert (Hl : locked (pc s p) = true) by (by rewrite Hpc).
  assert (Hc : locked c = true) by (subst c; by case_match).
  destruct (holder_locks p c s Hinv Hl Hc) as [Hlock Hone].
  set (s' := copy_to_sq _ _ s).
  assert (Hf : filled s' o (S lane)).
  { intros j r' Hj Hr'. simpl. destruct (decide (j = lane)) as [->|Hne].
    - rewrite upd_eq. congruence.
    - rewrite upd_ne; [apply Hfill; [lia|done]|]. apply slot_distinct. lia. }
  assert (Hpc' : pc_ok s' c).
  { unfold c. destruct (Nat.ltb_spec (S lane) (length (reqs o))) as [Hlen|Hlen].
    - split_and!; [done|unfold lanes; lia|done|done].
    - split_and!; [done|done|]. intros j r' Hj. apply Hf. lia. }
  pose proof (holder_pc p c s s' Hinv Hl ltac:(simpl; lia) Hpc') as Hall.
  destruct Hinv as [I1 I2 I3 I4 I5 I6 I7 I8 I9 I10 I11].
  split; simpl; try assumption; [by right|intros H; lia|].
  intros k Hk. rewrite upd_ne; [by apply I8|]. apply not_eq_sym. intros He.
  apply (slot_distinct k (post s + Z.of_nat lane)); [lia|by symmetry].
Qed.

Lemma publish_inv p o s : inv s -> pc s p = Publish o ->
  inv (goto p (if ring_db o then DbRec o else Unlock o) (publish o s)).
Proof.
  intros Hinv Hpc. pose proof (inv_pc s Hinv p) as Hok. rewrite Hpc in Hok. destruct Hok as (Hn & Hroom & Hfill).
  set (c := if ring_db o then _ else _). assert (Hl : locked (pc s p) = true) by (by rewrite Hpc).
  assert (Hc : locked c = true) by (subst c; by case_match).
  destruct (holder_locks p c s Hinv Hl Hc) as [Hlock Hone].
  assert (Hpc' : pc_ok (publish o s) c) by (unfold c; by case_match).
  destruct Hn as [Hdp Hlanes].
  pose proof (holder_pc p c s (publish o s) Hinv Hl ltac:(simpl; lia) Hpc') as Hall.
  destruct Hinv as [I1 I2 I3 I4 I5 I6 I7 I8 I9 I10 I11].
  split; simpl; try assumption; [by right|lia|lia|..].
  - rewrite length_app, entries_length. unfold lanes. lia.
  - intros w [Hw|Hw]%elem_of_app; [by apply I6|].
    apply elem_of_lookup_imap in Hw as (j & r & -> & _). by apply entry_reports.
  - rewrite take_app_le by lia. done.
  - intros k Hk. destruct (Z.lt_ge_cases k (post s)) as [Hlt|Hge].
    + rewrite lookup_app_l by lia. apply I8. lia.
    + rewrite lookup_app_r by lia. unfold entries. rewrite list_lookup_imap.
      destruct (lookup_lt_is_Some_2 (reqs o) (Z.to_nat k - length (log s))%nat) as [r Hr]; [unfold lanes in Hk; lia|].
      rewrite Hr. simpl. f_equal. rewrite <- (Hfill _ r) by (done || (unfold lanes in Hk; lia)). f_equal. f_equal. lia.
Qed.

Lemma dbrec_inv p o s : inv s -> pc s p = DbRec o -> inv (goto p (DbReg o) (store_dbrec s)).
Proof.
  intros Hinv Hpc. pose proof (inv_pc s Hinv p) as Hok. rewrite Hpc in Hok.
  assert (Hl : locked (pc s p) = true) by (by rewrite Hpc).
  destruct (holder_locks p (DbReg o) s Hinv Hl eq_refl) as [Hlock Hone].
  pose proof (holder_pc p (DbReg o) s (store_dbrec s) Hinv Hl ltac:(simpl; lia) Hok) as Hall.
  destruct Hinv as [I1 I2 I3 I4 I5 I6 I7 I8 I9 I10 I11].
  split; simpl; try assumption; [by right|intros H; lia|lia|done].
Qed.

Lemma dbreg_inv p o w s : inv s -> pc s p = DbReg o -> inv (goto p (Unlock o) (store_dbreg w s)).
Proof.
  intros Hinv Hpc. pose proof (inv_pc s Hinv p) as Hok. rewrite Hpc in Hok.
  assert (Hl : locked (pc s p) = true) by (by rewrite Hpc).
  destruct (holder_locks p (Unlock o) s Hinv Hl eq_refl) as [Hlock Hone].
  pose proof (holder_pc p (Unlock o) s (store_dbreg w s) Hinv Hl ltac:(simpl; lia) Hok) as Hall.
  destruct Hinv as [I1 I2 I3 I4 I5 I6 I7 I8 I9 I10 I11].
  split; simpl; try assumption; [by right|intros H; lia].
Qed.

Context (Hdeep : 64 <= depth).

Lemma mlx5_exec_inv p s s' : inv s -> exec p s = Some s' -> inv s'.
Proof.
  intros Hinv He. pose proof (inv_pc s Hinv p) as Hok. pose proof (inv_count s Hinv) as Hc.
  unfold exec in He. destruct (pc s p) as [|o|o|o P|o lane|o|o|o|o| |P] eqn:Hpc; simpl in Hok; try done.
  - destruct (Z.eqb_spec (lock s) 0); [|done]. injection He as <-. rewrite (proj1 Hok).
    by apply lock_inv.
  - injection He as <-. apply goto_inv; [done| |by rewrite Hpc; case_match].
    destruct (Z.leb_spec (post s + lanes o) depth) as [Hle|Hgt].
    + destruct Hok as [? ?]. split_and!; [done|simpl; lia|lia|]. intros j r Hj. lia.
    + split_and!; [done|done|lia].
  - destruct (poll P (lanes o) (cqe s)) eqn:Hp; [|done]. injection He as <-. destruct Hok as ([? ?] & -> & _).
    apply goto_inv; [done| |by rewrite Hpc]. split_and!; [done|simpl; lia| |intros j r Hj; lia].
    apply (poll_sound (completed s) (cqe s)); [apply Hinv|lia|lia|done].
  - destruct (reqs o !! lane) as [r|] eqn:Hr; [|done]. injection He as <-. by apply fill_inv.
  - injection He as <-. by apply publish_inv.
  - injection He as <-. by apply dbrec_inv.
  - injection He as <-. by apply dbreg_inv.
  - injection He as <-. apply unlock_inv; [done|by rewrite Hpc|by case_match|by case_match].
  - injection He as <-. apply goto_inv; [done| |by rewrite Hpc; case_match].
    destruct (Z.leb_spec (post s + depth) depth); [done|]. simpl. lia.
  - destruct (poll P depth (cqe s)); [|done]. injection He as <-. apply goto_inv; [done|done|by rewrite Hpc].
Qed.

(** The doorbell record tells the device how far it may go. *)
Lemma dbrec_value s : inv s -> from_be Little 4 (dbrec s) = u16 (rung s).
Proof.
  intros Hinv. rewrite (inv_dbrec s Hinv), to_be_little. apply byteswap_twice.
  pose proof (wrap_range 16 (rung s)). simpl. lia.
Qed.

Lemma rung_all s : inv s -> u16 (rung s) = u16 (completed s) -> rung s = completed s.
Proof.
  intros Hinv He. pose proof (inv_count s Hinv). pose proof depth_range.
  apply (wrap_inj_window 16); [lia|lia|done].
Qed.

Lemma nic_inv x s s' : 0 <= x < 2 ^ 12 -> inv s -> nic x s = Some s' -> inv s'.
Proof.
  intros Hx Hinv Hn. unfold nic in Hn. rewrite (dbrec_value s Hinv), slot_mod in Hn.
  destruct (Z.eqb_spec (u16 (rung s)) (u16 (completed s))) as [|Hne]; [done|]. injection Hn as <-.
  pose proof (inv_count s Hinv) as Hc. assert (Hlt : completed s < rung s).
  { destruct (Z.eq_dec (rung s) (completed s)) as [He|]; [by rewrite He in Hne|lia]. }
  pose proof (inv_buf s Hinv (completed s) ltac:(lia)) as Hw.
  set (w := buf s (completed s mod depth)) in *.
  rewrite (inv_reports s Hinv w) by (by eapply list_elem_of_lookup_2).
  destruct Hinv as [I1 I2 I3 I4 I5 I6 I7 I8 I9 I10 I11].
  split; simpl; try assumption; [lia| | | |].
  - rewrite Z2Nat.inj_add, Nat.add_1_r by lia. rewrite (take_S_r _ _ w), I7; done.
  - intros k Hk. apply I8. lia.
  - apply cqe_word_ok; [lia|done].
  - intros p. specialize (I11 p). revert I11. unfold pc_ok, filled. simpl. destruct (pc s p); try done; intuition lia.
Qed.

Lemma mlx5_step_inv s s' : inv s -> step normal s s' -> inv s'.
Proof.
  intros Hinv [p o Hpc Ho|p Hpc|p s1 He|x s1 Hx Hn].
  - apply goto_inv; [done|done|by rewrite Hpc].
  - apply goto_inv; [done|done|by rewrite Hpc].
  - by eapply mlx5_exec_inv.
  - by eapply nic_inv.
Qed.

Lemma start_inv : inv start.
Proof.
  pose proof depth_range.
  split; simpl; try done; [by left|lia|by intros w ?%elem_of_nil|intros k Hk; lia|by left].
Qed.

Lemma mlx5_reachable_inv s : rtc (step normal) start s -> inv s.
Proof. intros Hr. eapply (rtc_invariant (step normal) inv); [apply mlx5_step_inv|exact Hr|apply start_inv]. Qed.

(** Blocked wavefronts when the device has nothing left to do. *)
Lemma blocked_poll s p : inv s -> completed s = post s -> exec p s = None ->
  pc s p = Idle \/ (exists o, pc s p = Locking o /\ lock s <> 0) \/
  exists P, pc s p = QuietPoll P /\ 2 ^ 16 - depth <= completed s - P.
Proof.
  intros Hinv Hc He. pose proof (inv_pc s Hinv p) as Hok. unfold exec in He.
  destruct (pc s p) as [|o|o|o P|o lane|o|o|o|o| |P]; simpl in Hok; try done; [by left| | | |].
  - right. left. exists o. split; [done|]. by destruct (Z.eqb_spec (lock s) 0).
  - exfalso. destruct Hok as ([_ Hn] & -> & Hgt). rewrite (poll_complete (completed s)) in He; [done|apply Hinv|lia..].
  - exfalso. destruct Hok as (_ & Hlt & _). unfold lanes in Hlt.
    destruct (lookup_lt_is_Some_2 (reqs o) lane) as [r Hr]; [lia|]. by rewrite Hr in He.
  - right. right. exists P. split; [done|]. destruct (Z.le_gt_cases (2 ^ 16 - depth) (completed s - P)) as [|Hlt]; [done|].
    exfalso. rewrite (poll_complete (completed s)) in He; [done|apply Hinv|lia..].
Qed.

Lemma idle_device s x : inv s -> rung s = post s -> nic x s = None -> completed s = post s.
Proof.
  intros Hinv Hr Hn. unfold nic in Hn. rewrite (dbrec_value s Hinv) in Hn.
  destruct (Z.eqb_spec (u16 (rung s)) (u16 (completed s))) as [He|]; [|done].
  rewrite <- Hr. symmetry. by apply rung_all.
Qed.
End queue.

(** ** Properties *)

Section properties.
Context (qp_num inline_threshold d : Z).
Context (nonfetching_atomic nonfetching_atomic_lkey fetching_atomic fetching_atomic_lkey : Z).
Context (mem : Z -> Z) (unused : list Z).

Abbreviation depth := (2 ^ d).
Abbreviation qstep := (step qp_num inline_threshold depth nonfetching_atomic nonfetching_atomic_lkey
  fetching_atomic fetching_atomic_lkey mem unused).
Abbreviation qexec := (exec qp_num inline_threshold depth nonfetching_atomic nonfetching_atomic_lkey
  fetching_atomic fetching_atomic_lkey mem unused).

(** C17: the send queue is a FIFO under the operations that wait for room, that is all
    but the [dp] ones: for a depth of 2^6 to 2^15 entries and operations of 1 to 64
    lanes, whatever wavefronts post, poll and quiet in whatever order, the device
    executes exactly the entries posted, in the order in which they were posted,
    although both sides compare 16-bit counters; at most [depth] entries are in
    flight, and no slot is reused before the device is done with it.  The [dp]
    operations are excluded since they do not wait for room ([mlx5_dp_unsignalled]). *)
Theorem mlx5_queue_is_fifo s (Hd : 6 <= d <= 15) (Hr : rtc (qstep normal) start s) :
  trace s = take (Z.to_nat (completed s)) (log s) /\
  0 <= completed s <= post s /\ Z.of_nat (length (log s)) = post s /\ post s - completed s <= depth /\
  (forall k, completed s <= k < post s -> log s !! Z.to_nat k = Some (buf s (mlx5_sq_idx depth (u16 k)))).
Proof.
  assert (Hdeep : 64 <= depth) by (change 64 with (2 ^ 6); apply Z.pow_le_mono_r; lia).
  pose proof (mlx5_reachable_inv qp_num inline_threshold depth nonfetching_atomic nonfetching_atomic_lkey
    fetching_atomic fetching_atomic_lkey mem unused d ltac:(lia) eq_refl Hdeep s Hr) as [I1 I2 I3 I4 I5 I6 I7 I8 I9 I10 I11].
  split_and!; try done; try lia. intros k Hk. rewrite (slot_mod depth d) by (done || lia). by apply I8.
Qed.

(** A wavefront that returns from [mlx5_quiet] does so only when the device has
    executed every entry that had been posted when it began. *)
Theorem mlx5_quiet_waits s s' p (Hd : 6 <= d <= 15) (Hr : rtc (qstep normal) start s)
    (He : qexec p s = Some s') (Hret : pc s' p = Idle) :
  (forall sq_post, pc s p = QuietPoll sq_post -> sq_post <= completed s) /\
  (pc s p = QuietLoad -> completed s = post s).
Proof.
  assert (Hdeep : 64 <= depth) by (change 64 with (2 ^ 6); apply Z.pow_le_mono_r; lia).
  pose proof (mlx5_reachable_inv qp_num inline_threshold depth nonfetching_atomic nonfetching_atomic_lkey
    fetching_atomic fetching_atomic_lkey mem unused d ltac:(lia) eq_refl Hdeep s Hr) as Hinv.
  destruct (inv_count _ _ _ _ _ _ _ _ _ _ Hinv) as (H1 & H2 & H3). split.
  - intros P Hpc. unfold exec in He. rewrite Hpc in He. destruct (poll depth P depth (cqe s)) eqn:Hp; [|done].
    pose proof (inv_pc _ _ _ _ _ _ _ _ _ _ Hinv p) as Hok. rewrite Hpc in Hok. simpl in Hok.
    pose proof (poll_sound depth d ltac:(lia) eq_refl (completed s) (cqe s) P depth
      (inv_cqe _ _ _ _ _ _ _ _ _ _ Hinv) ltac:(lia) ltac:(lia) Hp). lia.
  - intros Hpc. unfold exec in He. rewrite Hpc in He. injection He as <-. simpl in Hret. rewrite upd_eq in Hret.
    destruct (Z.leb_spec (post s + depth) depth); [lia|done].
Qed.

(** C36: posting does not deadlock under the operations that wait for room, in queues
    of 2^6 to 2^15 entries: when every entry posted has been announced by a doorbell,
    the device has nothing left to do and no wavefront can move, then all wavefronts
    are idle, except for one whose [mlx5_quiet] was overtaken by at least
    [2^16 - depth] entries between two looks at the completion entry.  Entries that
    are posted without a doorbell ([ring_db] false) and not announced by a later
    operation are outside the claim, as are those of the [dp] operations: a
    [mlx5_quiet] waits for the former as long as no doorbell is rung, and for the
    latter without end ([mlx5_dp_unsignalled]). *)
Theorem mlx5_progress s (Hd : 6 <= d <= 15) (Hr : rtc (qstep normal) start s) (Hrung : rung s = post s)
    (Hdev : nic depth 0 s = None) (Hstuck : forall p, qexec p s = None) p :
  pc s p = Idle \/ exists sq_post, pc s p = QuietPoll sq_post /\ 2 ^ 16 - depth <= completed s - sq_post.
Proof.
  assert (Hdeep : 64 <= depth) by (change 64 with (2 ^ 6); apply Z.pow_le_mono_r; lia).
  pose proof (mlx5_reachable_inv qp_num inline_threshold depth nonfetching_atomic nonfetching_atomic_lkey
    fetching_atomic fetching_atomic_lkey mem unused d ltac:(lia) eq_refl Hdeep s Hr) as Hinv.
  assert (Hc : completed s = post s).
  { by apply (idle_device qp_num inline_threshold depth nonfetching_atomic nonfetching_atomic_lkey
      fetching_atomic fetching_atomic_lkey mem unused d ltac:(lia) eq_refl s 0). }
  pose proof (fun q => blocked_poll qp_num inline_threshold depth nonfetching_atomic nonfetching_atomic_lkey
    fetching_atomic fetching_atomic_lkey mem unused d ltac:(lia) eq_refl Hdeep s q Hinv Hc (Hstuck q)) as Hb.
  destruct (Hb p) as [|[(o & Hpc & Hlock)|]]; [by left| |by right]. exfalso.
  destruct (inv_lock _ _ _ _ _ _ _ _ _ _ Hinv) as [|(_ & q & Hq)]; [done|].
  destruct (Hb q) as [H0|[(o' & H0 & _)|(P & H0 & _)]]; by rewrite H0 in Hq.
Qed.
End properties.

(** ** Schedules *)

Inductive event := Post (p : Z) (o : op) | Quiet (p : Z) | Run (p : Z) | Device.

(** A queue of 64 entries. *)
Abbreviation demo_exec := (exec 7 28 64 4096 1 8192 2 (fun a => a) (repeat 0 16)).
Abbreviation demo_step := (step 7 28 64 4096 1 8192 2 (fun a => a) (repeat 0 16)).

Definition act (e : event) (s : state) : option state :=
  match e with
  | Post p o => match pc s p with Idle => Some (goto p (Locking o) s) | _ => None end
  | Quiet p => match pc s p with Idle => Some (goto p QuietLoad s) | _ => None end
  | Run p => demo_exec p s
  | Device => nic 64 0 s
  end.

Fixpoint run (es : list event) (s : state) : option state :=
  match es with
  | [] => Some s
  | e :: es' => s' ← act e s; run es' s'
  end.

Definition allowed (ok : op -> Prop) (e : event) : Prop := match e with Post _ o => ok o | _ => True end.

Lemma act_steps ok e s s' : allowed ok e -> act e s = Some s' -> demo_step ok s s'.
Proof.
  destruct e as [p o|p|p|]; simpl; intros Ho H.
  - destruct (pc s p) eqn:Hpc; try done. injection H as <-. by apply step_post.
  - destruct (pc s p) eqn:Hpc; try done. injection H as <-. by apply step_quiet.
  - by eapply step_exec.
  - by eapply (step_nic _ _ _ _ _ _ _ _ _ _ s 0).
Qed.

Lemma run_steps ok es s s' : Forall (allowed ok) es -> run es s = Some s' -> rtc (demo_step ok) s s'.
Proof.
  intros Hall. revert s. induction Hall as [|e es He _ IH]; intros s H; [injection H as <-; constructor|].
  simpl in H. destruct (act e s) as [s1|] eqn:Ha; [|done]. eapply rtc_l; [by apply (act_steps ok e)|by apply IH].
Qed.

Lemma run_reaches ok es : Forall (allowed ok) es -> bool_decide (is_Some (run es start)) = true ->
  rtc (demo_step ok) start (default start (run es start)).
Proof. intros Hall [s Hs]%bool_decide_eq_true. rewrite Hs. by apply (run_steps ok es). Qed.

Definition actor (e : event) : option Z := match e with Post p _ | Quiet p | Run p => Some p | Device => None end.

Lemma run_other q es s s' : Forall (fun e => actor e <> Some q) es -> run es s = Some s' -> pc s' q = pc s q.
Proof.
  intros Hall. revert s. induction Hall as [|e es He _ IH]; intros s H; [by injection H as <-|].
  simpl in H. destruct (act e s) as [s1|] eqn:Ha; [|done]. rewrite (IH _ H). clear H IH.
  destruct e as [p o|p|p|]; simpl in *.
  - destruct (pc s p); try done. injection Ha as <-. simpl. apply upd_ne. congruence.
  - destruct (pc s p); try done. injection Ha as <-. simpl. apply upd_ne. congruence.
  - unfold exec in Ha. destruct (pc s p); try done; repeat case_match; try done; injection Ha as <-; simpl;
      apply upd_ne; congruence.
  - unfold nic in Ha. case_match; [done|]. by injection Ha as <-.
Qed.

Definition demo_put : op := Op [Rma 8 65536 5 4096 6 100; Rma 8 131072 5 4096 6 8] true false false.
Definition demo_dp : op := Op [Rma 8 65536 5 4096 6 100] true false true.

(** Two lanes put, the device executes the first entry, another wavefront waits
    for both. *)
Definition demo_events : list event := Post 0 demo_put :: repeat (Run 0) 8 ++ [Device; Quiet 1; Run 1].

Lemma demo_events_ok : Forall (allowed normal) demo_events.
Proof. repeat constructor; simpl; done. Qed.

Lemma demo_reached : rtc (demo_step normal) start (default start (run demo_events start)).
Proof. apply run_reaches; [apply demo_events_ok|]. vm_compute. reflexivity. Qed.

Lemma mlx5_queue_is_fifo_witness :
  let s := default start (run demo_events start) in
  trace s = take 1 (log s) /\ log s !! 1%nat = Some (buf s (mlx5_sq_idx 64 (u16 1))).
Proof.
  pose proof (mlx5_queue_is_fifo 7 28 6 4096 1 8192 2 (fun a => a) (repeat 0 16)
    (default start (run demo_events start)) ltac:(lia) demo_reached) as (H1 & _ & _ & _ & H2).
  split; [exact H1|]. apply (H2 1). vm_compute. split; congruence.
Defined.

Definition demo_waited : list event := demo_events ++ [Device].

Lemma mlx5_quiet_waits_witness :
  let s := default start (run demo_waited start) in 2 <= completed s.
Proof.
  set (s := default start (run demo_waited start)).
  assert (Hr : rtc (demo_step normal) start s).
  { apply run_reaches; [apply Forall_app; split; [apply demo_events_ok|by repeat constructor]|].
    vm_compute. reflexivity. }
  assert (Hpc : pc s 1 = QuietPoll 2) by (vm_compute; reflexivity).
  assert (Hp : poll 64 2 64 (cqe s) = true) by (vm_compute; reflexivity).
  assert (He : demo_exec 1 s = Some (goto 1 Idle s)) by (unfold exec; rewrite Hpc, Hp; reflexivity).
  apply (proj1 (mlx5_quiet_waits 7 28 6 4096 1 8192 2 (fun a => a) (repeat 0 16) s (goto 1 Idle s) 1
    ltac:(lia) Hr He (upd_eq _ _ _)) 2). exact Hpc.
Defined.

Definition demo_quieted : list event := demo_waited ++ [Run 1].

Lemma mlx5_progress_witness :
  let s := default start (run demo_quieted start) in
  pc s 1 = Idle \/ exists P, pc s 1 = QuietPoll P /\ 2 ^ 16 - 2 ^ 6 <= completed s - P.
Proof.
  set (s := default start (run demo_quieted start)).
  assert (Hr : rtc (demo_step normal) start s).
  { apply run_reaches; [|vm_compute; reflexivity].
    repeat apply Forall_app_2; [apply demo_events_ok|by repeat constructor..]. }
  apply (mlx5_progress 7 28 6 4096 1 8192 2 (fun a => a) (repeat 0 16) s ltac:(lia) Hr).
  - vm_compute. reflexivity.
  - unfold nic. assert (Hn : (from_be Little 4 (dbrec s) =? u16 (completed s)) = true) by (vm_compute; reflexivity).
    by rewrite Hn.
  - intros p. assert (Hp : pc s p = Idle); [|unfold exec; by rewrite Hp].
    destruct (Z.eq_dec p 0) as [->|H0]; [vm_compute; reflexivity|].
    destruct (Z.eq_dec p 1) as [->|H1]; [vm_compute; reflexivity|].
    subst s. destruct (run demo_quieted start) as [s|] eqn:Hs; [|done].
    apply (run_other p demo_quieted start s); [|done]. repeat (constructor; [simpl; congruence|]). constructor.
Defined.

(** ** The variant of [queue_pair_mlx5_multiqp.cpp] *)

Definition direct_post (o : op) : Prop := dp o = true /\ lanes o = 1.

Definition demo_hang : list event := Post 0 demo_dp :: repeat (Run 0) 6 ++ [Device; Quiet 0; Run 0].

Definition demo_overrun : list event :=
  concat (repeat (Post 0 demo_dp :: repeat (Run 0) 6) 65).

Lemma demo_overrun_ok : Forall (allowed direct_post) demo_overrun.
Proof. repeat constructor. Qed.

(** Entries posted by the [dp] functions ask for no completion, and the
    functions do not wait for room.  So [mlx5_quiet_dp_single_lane] after one put
    spins although the device has executed it, with nothing left that could
    happen; and after [depth + 1] puts an entry that the device has not executed
    has been overwritten. *)
Theorem mlx5_dp_unsignalled :
  (exists s, rtc (demo_step direct_post) start s /\ post s = 1 /\ completed s = 1 /\
     pc s 0 = QuietPoll 1 /\ (forall p, demo_exec p s = None) /\ (forall x, nic 64 x s = None)) /\
  (exists s, rtc (demo_step direct_post) start s /\ completed s = 0 /\ rung s = 65 /\
     option_map (field 1 2) (log s !! 0%nat) = Some 0 /\ field 1 2 (buf s (mlx5_sq_idx 64 (u16 0))) = 64).
Proof.
  split.
  - exists (default start (run demo_hang start)). set (s := default start (run demo_hang start)).
    assert (Hpc : pc s 0 = QuietPoll 1) by (vm_compute; reflexivity).
    assert (Hp : poll 64 1 64 (cqe s) = false) by (vm_compute; reflexivity).
    assert (Hn : (from_be Little 4 (dbrec s) =? u16 (completed s)) = true) by (vm_compute; reflexivity).
    split_and!; [|vm_compute; reflexivity|vm_compute; reflexivity|exact Hpc| |].
    + apply run_reaches; [repeat constructor|vm_compute; reflexivity].
    + intros p. unfold exec. destruct (Z.eq_dec p 0) as [->|Hne]; [by rewrite Hpc, Hp|].
      assert (Hi : pc s p = Idle); [|by rewrite Hi].
      subst s. destruct (run demo_hang start) as [s|] eqn:Hs; [|done].
      apply (run_other p demo_hang start s); [|done]. repeat (constructor; [simpl; congruence|]). constructor.
    + intros x. unfold nic. by rewrite Hn.
  - exists (default start (run demo_overrun start)).
    split_and!; [apply run_reaches; [apply demo_overrun_ok|]|..]; vm_compute; reflexivity.
Qed.
