(* ===== verification/QpKeys.v ===== *)
(** * Memory keys of a queue pair

    Model of the address and key resolution of [QueuePair] ([get_raddr_info],
    [get_lkey], [src/gda/queue_pair.hpp]), of its table of registered user buffers
    ([buffer_register], [buffer_unregister], [buffer_unregister_all],
    [src/gda/queue_pair.cpp]) and of the functions of the same names of
    [GDABackend] ([src/gda/backend_gda.cpp]), which keep the pointer cache
    ([Regions]) and all queue pairs in step.  The key of a new memory region is
    chosen by the verbs library and is an argument. *)

From Stdlib Require Import ZArith Lia.
From stdpp Require Import base option numbers list relations.
From S2P Require Import Prelude Slots Regions SymmTable.

Open Scope Z_scope.

(** ** Resolution on the device *)

Definition is_ptr_in_range (ptr_a len_a ptr_b : Z) : bool :=
  if (len_a =? 0) || (ptr_b <? ptr_a) then false else u64 (ptr_b - ptr_a) <? len_a.

Record QpSymmEntry := mkEntry {
  e_local_base : Z;
  e_remote_base : Z;
  e_length : Z;
  e_rkey : Z;
  e_lkey : Z
}.

Record user_buf_info_t := mkInfo { i_addr : Z; i_length : Z; i_lkey : Z }.

Record QueuePair := mkQp {
  base_heap : Z;
  base_heap_size : Z;
  remote_heap_base : Z;
  rkey : Z;
  lkey : Z;
  user_buffer_mrs : list (Z * Z);         (* address to memory region, named by its key *)
  user_buf_info : list user_buf_info_t    (* [num_user_buffers] slots *)
}.

(** The loop over the entries of the queue pair's slice. *)
Fixpoint find_entry (addr : Z) (l : list QpSymmEntry) : option QpSymmEntry :=
  match l with
  | [] => None
  | e :: l' => if is_ptr_in_range (e_local_base e) (e_length e) addr then Some e else find_entry addr l'
  end.

Fixpoint find_info (addr : Z) (l : list user_buf_info_t) : option user_buf_info_t :=
  match l with
  | [] => None
  | u :: l' => if is_ptr_in_range (i_addr u) (i_length u) addr then Some u else find_info addr l'
  end.

(** Remote address and key; [(0, 0)] when the address is in no symmetric memory. *)
Definition get_raddr_info (q : QueuePair) (symm : list QpSymmEntry) (addr : Z) : Z * Z :=
  if is_ptr_in_range (base_heap q) (base_heap_size q) addr
  then (u64 (remote_heap_base q + u64 (addr - base_heap q)), rkey q)
  else
    match find_entry addr symm with
    | Some e => (u64 (e_remote_base e + u64 (addr - e_local_base e)), e_rkey e)
    | None => (0, 0)
    end.

(** [None] is the abort with "Valid lkey buffer not found". *)
Definition get_lkey (q : QueuePair) (symm : list QpSymmEntry) (addr : Z) : option Z :=
  if is_ptr_in_range (base_heap q) (base_heap_size q) addr then Some (lkey q)
  else
    match find_info addr (user_buf_info q) with
    | Some u => Some (i_lkey u)
    | None => e_lkey <$> find_entry addr symm
    end.

(** ** The table of user buffers *)

Definition set_users (mrs : list (Z * Z)) (info : list user_buf_info_t) (q : QueuePair) : QueuePair :=
  mkQp (base_heap q) (base_heap_size q) (remote_heap_base q) (rkey q) (lkey q) mrs info.

Definition zero_info : user_buf_info_t := mkInfo 0 0 0.

(** The first slot whose address is zero takes the buffer. *)
Fixpoint fill_slot (u : user_buf_info_t) (l : list user_buf_info_t) : list user_buf_info_t :=
  match l with
  | [] => []
  | v :: l' => if i_addr v =? 0 then u :: l' else v :: fill_slot u l'
  end.

(** The first slot that contains the address is cleared. *)
Fixpoint clear_slot (addr : Z) (l : list user_buf_info_t) : list user_buf_info_t :=
  match l with
  | [] => []
  | v :: l' =>
      if is_ptr_in_range (i_addr v) (i_length v) addr then zero_info :: l' else v :: clear_slot addr l'
  end.

Definition qp_buffer_register (addr length new_lkey : Z) (q : QueuePair) : Z * QueuePair :=
  if (List.length (user_buf_info q) <=? List.length (user_buffer_mrs q))%nat then (ROCSHMEM_ERROR, q)
  else
    (ROCSHMEM_SUCCESS,
     set_users ((addr, new_lkey) :: erase addr (user_buffer_mrs q))
       (fill_slot (mkInfo addr length new_lkey) (user_buf_info q)) q).

(** [None]: [user_buffer_mrs[addr]] is a null pointer, which is handed to
    [ibv_dereg_mr]. *)
Definition qp_buffer_unregister (addr : Z) (q : QueuePair) : option QueuePair :=
  match assoc addr (user_buffer_mrs q) with
  | None => None
  | Some _ => Some (set_users (erase addr (user_buffer_mrs q)) (clear_slot addr (user_buf_info q)) q)
  end.

Definition qp_buffer_unregister_all (q : QueuePair) : QueuePair :=
  set_users [] ((fun _ => zero_info) <$> user_buf_info q) q.

(** ** [GDABackend] *)

Record state := mkState { cache : regions; qps : list QueuePair }.

(** The loop over the queue pairs, with the new key of each; true if all succeeded. *)
Fixpoint register_qps (addr length : Z) (keys : list Z) (l : list QueuePair) : bool * list QueuePair :=
  match l with
  | [] => (true, [])
  | q :: l' =>
      let '(st, q') := qp_buffer_register addr length (List.hd 0 keys) q in
      let '(ok, l'') := register_qps addr length (List.tl keys) l' in
      ((st =? ROCSHMEM_SUCCESS) && ok, q' :: l'')
  end.

Definition gda_buffer_register (addr length : Z) (keys : list Z) (s : state) : Z * state :=
  let '(err, m) := buffer_register addr length (cache s) in
  if negb (err =? ROCSHMEM_SUCCESS) then (ROCSHMEM_ERROR, s)
  else
    let '(ok, l) := register_qps addr length keys (qps s) in
    if negb ok then (ROCSHMEM_ERROR, mkState (snd (buffer_unregister addr m)) l)
    else (ROCSHMEM_SUCCESS, mkState m l).

Fixpoint unregister_qps (addr : Z) (l : list QueuePair) : option (list QueuePair) :=
  match l with
  | [] => Some []
  | q :: l' => q' ← qp_buffer_unregister addr q; l'' ← unregister_qps addr l'; Some (q' :: l'')
  end.

Definition gda_buffer_unregister (addr : Z) (s : state) : option (Z * state) :=
  let '(err, m) := buffer_unregister addr (cache s) in
  if negb (err =? ROCSHMEM_SUCCESS) then Some (ROCSHMEM_ERROR, mkState m (qps s))
  else l ← unregister_qps addr (qps s); Some (ROCSHMEM_SUCCESS, mkState m l).

Definition gda_buffer_unregister_all (s : state) : state :=
  mkState (buffer_unregister_all (cache s)) (qp_buffer_unregister_all <$> qps s).

(** ** Histories *)

Inductive op :=
  | Register (addr length : Z) (keys : list Z)
  | Unregister (addr : Z)
  | UnregisterAll.

Definition op_wf (o : op) : Prop :=
  match o with
  | Register a l _ => 0 <= a /\ 0 <= l
  | Unregister a => 0 <= a
  | UnregisterAll => True
  end.

Definition exec (o : op) (s : state) : option (Z * state) :=
  match o with
  | Register a l keys => Some (gda_buffer_register a l keys s)
  | Unregister a => gda_buffer_unregister a s
  | UnregisterAll => Some (ROCSHMEM_SUCCESS, gda_buffer_unregister_all s)
  end.

(** Calls that return; a call that hands a null pointer to the verbs library has no step. *)
Definition step (s s' : state) : Prop :=
  exists o status, op_wf o /\ exec o s = Some (status, s').

(** Queue pairs as their constructor leaves them. *)
Definition fresh (num_user_buffers : nat) (q : QueuePair) : Prop :=
  user_buffer_mrs q = [] /\ user_buf_info q = replicate num_user_buffers zero_info.

Definition reachable (num_user_buffers : nat) (s : state) : Prop :=
  exists l, Forall (fresh num_user_buffers) l /\ rtc step (mkState [] l) s.

(** ** Address ranges *)

Lemma is_ptr_in_range_spec a len x :
  0 <= a -> 0 <= x < 2 ^ 64 -> is_ptr_in_range a len x = true <-> contains (a, len) x.
Proof.
  intros Ha Hx. unfold is_ptr_in_range, contains. simpl.
  destruct (Z.eqb_spec len 0); simpl; [split; [done|lia]|].
  destruct (Z.ltb_spec x a); [split; [done|lia]|].
  rewrite wrap_small by lia. rewrite Z.ltb_lt. lia.
Qed.

Lemma contains_unique m r1 r2 x :
  regions_ok m -> r1 ∈ m -> r2 ∈ m -> contains r1 x -> contains r2 x -> r1 = r2.
Proof.
  induction m as [|r m IH]; [by intros _ ?%elem_of_nil|].
  intros (Hr & Hm & Hb)%regions_ok_cons [->|H1]%elem_of_cons [->|H2]%elem_of_cons C1 C2;
    [done| | |by apply IH].
  - specialize (Hb _ H2). unfold contains, before_region in *. lia.
  - specialize (Hb _ H1). unfold contains, before_region in *. lia.
Qed.

(** ** Slots *)

Definition used (l : list user_buf_info_t) : list user_buf_info_t := filter (fun u => i_addr u <> 0) l.

Definition slots_ok (l : list user_buf_info_t) : Prop :=
  Forall (fun u => 0 <= i_addr u /\ (i_addr u = 0 -> u = zero_info)) l.

Lemma length_fill_slot u l : length (fill_slot u l) = length l.
Proof. induction l as [|v l IH]; simpl; [done|]. destruct (i_addr v =? 0); simpl; lia. Qed.

Lemma length_clear_slot x l : length (clear_slot x l) = length l.
Proof. induction l as [|v l IH]; simpl; [done|]. destruct (is_ptr_in_range _ _ x); simpl; lia. Qed.

Lemma fill_slot_ok u l : 0 < i_addr u -> slots_ok l -> slots_ok (fill_slot u l).
Proof.
  intros Hu. induction 1 as [|v l Hv Hl IH]; simpl; [constructor|].
  destruct (Z.eqb_spec (i_addr v) 0); constructor; try done. split; lia.
Qed.

Lemma clear_slot_ok x l : slots_ok l -> slots_ok (clear_slot x l).
Proof.
  induction 1 as [|v l Hv Hl IH]; simpl; [constructor|].
  destruct (is_ptr_in_range _ _ x); constructor; done.
Qed.

Lemma fill_slot_used u l :
  i_addr u <> 0 -> (length (used l) < length l)%nat -> used (fill_slot u l) ≡ₚ u :: used l.
Proof.
  intros Hu. unfold used. induction l as [|v l IH]; simpl; [lia|]. rewrite filter_cons.
  destruct (Z.eqb_spec (i_addr v) 0) as [Hv|Hv].
  - rewrite decide_False by (intros H; done). intros _. by rewrite filter_cons_True by done.
  - rewrite decide_True by done. simpl. intros H. rewrite filter_cons_True by done.
    rewrite IH by lia. apply Permutation_swap.
Qed.

Lemma clear_slot_used x l u :
  find_info x l = Some u -> i_addr u <> 0 -> used l ≡ₚ u :: used (clear_slot x l).
Proof.
  unfold used. induction l as [|v l IH]; simpl; [done|].
  destruct (is_ptr_in_range _ _ x); intros Hf Hu.
  - injection Hf as ->. rewrite filter_cons_True by done. by rewrite filter_cons_False by (intros H; done).
  - rewrite !filter_cons. destruct (decide (i_addr v <> 0)).
    + rewrite (IH Hf Hu) at 1. apply Permutation_swap.
    + by apply IH.
Qed.

Lemma find_info_Some x l u :
  find_info x l = Some u -> u ∈ l /\ is_ptr_in_range (i_addr u) (i_length u) x = true.
Proof.
  induction l as [|v l IH]; simpl; [done|].
  destruct (is_ptr_in_range (i_addr v) (i_length v) x) eqn:Hv.
  - intros [= ->]. split; [by left|done].
  - intros H. destruct (IH H). split; [by right|done].
Qed.

Lemma find_info_None x l :
  find_info x l = None -> forall u, u ∈ l -> is_ptr_in_range (i_addr u) (i_length u) x = false.
Proof.
  induction l as [|v l IH]; simpl; [by intros _ u ?%elem_of_nil|].
  destruct (is_ptr_in_range (i_addr v) (i_length v) x) eqn:Hv; [done|].
  intros H u [->|Hu]%elem_of_cons; [done|by apply IH].
Qed.

(** ** Invariant: every queue pair knows the buffers of the pointer cache *)

Abbreviation info_range := (fun u : user_buf_info_t => (i_addr u, i_length u)).
Abbreviation info_mr := (fun u : user_buf_info_t => (i_addr u, i_lkey u)).

Record qp_ok (n : nat) (m : regions) (q : QueuePair) : Prop := {
  qo_length : length (user_buf_info q) = n;
  qo_slots : slots_ok (user_buf_info q);
  qo_mrs : user_buffer_mrs q ≡ₚ info_mr <$> used (user_buf_info q);
  qo_ranges : m ≡ₚ info_range <$> used (user_buf_info q)
}.

Definition inv (n : nat) (s : state) : Prop :=
  regions_ok (cache s) /\ Forall (qp_ok n (cache s)) (qps s).

Lemma qp_ok_perm n m m' q : m ≡ₚ m' -> qp_ok n m q -> qp_ok n m' q.
Proof. intros Hp [H1 H2 H3 H4]. split; try done. by rewrite <- Hp. Qed.

Lemma qp_ok_used n m q u : qp_ok n m q -> u ∈ used (user_buf_info q) -> info_range u ∈ m.
Proof. intros [_ _ _ H] Hu. rewrite H. apply list_elem_of_fmap. by exists u. Qed.

Lemma qp_ok_region n m q r :
  qp_ok n m q -> r ∈ m -> exists u, u ∈ used (user_buf_info q) /\ r = info_range u.
Proof. intros [_ _ _ H] Hr. rewrite H in Hr. apply list_elem_of_fmap in Hr as (u & ? & ?). by exists u. Qed.

Lemma in_range_used n m q u x :
  qp_ok n m q -> u ∈ user_buf_info q -> is_ptr_in_range (i_addr u) (i_length u) x = true ->
  u ∈ used (user_buf_info q).
Proof.
  intros [_ H _ _] Hu Hx. apply list_elem_of_filter. split; [|done].
  unfold slots_ok in H. rewrite Forall_forall in H. destruct (H u Hu) as [_ Hz]. intros He.
  rewrite (Hz He) in Hx. done.
Qed.

Lemma qp_lengths n m q :
  qp_ok n m q -> length (used (user_buf_info q)) = length m /\ length (user_buffer_mrs q) = length m.
Proof.
  intros [_ _ H3 H4]. apply Permutation_length in H3, H4. rewrite !length_fmap in *. lia.
Qed.

(** The slot that answers for an address is the one of the region that contains it. *)
Lemma find_info_spec n m q x :
  regions_ok m -> qp_ok n m q -> 0 <= x < 2 ^ 64 ->
  match find_info x (user_buf_info q) with
  | Some u => u ∈ used (user_buf_info q) /\ contains (info_range u) x
  | None => forall r, r ∈ m -> ~ contains r x
  end.
Proof.
  intros Hm Hq Hx. destruct (find_info x (user_buf_info q)) as [u|] eqn:Hf.
  - destruct (find_info_Some _ _ _ Hf) as [Hu Hin]. split; [by eapply in_range_used|].
    apply is_ptr_in_range_spec; [|done|done]. destruct Hq as [_ H _ _].
    unfold slots_ok in H. rewrite Forall_forall in H. by apply H.
  - intros r Hr Hc. destruct (qp_ok_region _ _ _ _ Hq Hr) as (u & Hu & ->).
    apply list_elem_of_filter in Hu as [Hnz Hu].
    assert (0 <= i_addr u).
    { destruct Hq as [_ H _ _]. unfold slots_ok in H. rewrite Forall_forall in H. by apply H. }
    pose proof (find_info_None _ _ Hf u Hu) as Hno.
    apply (is_ptr_in_range_spec _ _ _ H Hx) in Hc. congruence.
Qed.

Lemma qp_ok_keys n m q : qp_ok n m q -> (user_buffer_mrs q).*1 ≡ₚ m.*1.
Proof. intros [_ _ H3 H4]. rewrite H3, H4, <- !list_fmap_compose. done. Qed.

Lemma qp_register_spec n m q addr len key :
  qp_ok n m q -> 0 < addr -> addr ∉ m.*1 ->
  let '(st, q') := qp_buffer_register addr len key q in
  if (length m <? n)%nat then st = ROCSHMEM_SUCCESS /\ qp_ok n ((addr, len) :: m) q'
  else st = ROCSHMEM_ERROR /\ q' = q.
Proof.
  intros Hq Ha Hnew. unfold qp_buffer_register. destruct (qp_lengths _ _ _ Hq) as [Hu ->].
  rewrite (qo_length _ _ _ Hq). destruct (Nat.leb_spec n (length m)), (Nat.ltb_spec (length m) n);
    try lia; [done|].
  split; [done|]. pose proof (qp_ok_keys _ _ _ Hq) as Hk. destruct Hq as [H1 H2 H3 H4].
  assert (Hf : used (fill_slot (mkInfo addr len key) (user_buf_info q)) ≡ₚ
    mkInfo addr len key :: used (user_buf_info q)) by (apply fill_slot_used; simpl; lia).
  split; simpl.
  - by rewrite length_fill_slot.
  - by apply fill_slot_ok.
  - rewrite Hf, erase_absent by (by rewrite Hk). simpl. by rewrite H3.
  - rewrite Hf. simpl. by rewrite H4.
Qed.

Lemma contains_start r : region_ok r -> contains r (fst r).
Proof. intros (? & ? & ?). unfold contains. lia. Qed.

(** Deregistration at the start of a region. *)
Lemma qp_unregister_start n m q r m' :
  regions_ok m -> qp_ok n m q -> m ≡ₚ r :: m' ->
  exists q', qp_buffer_unregister (fst r) q = Some q' /\ qp_ok n m' q'.
Proof.
  intros Hm Hq Hp. assert (Hr : r ∈ m) by (rewrite Hp; by left).
  pose proof (proj1 Hm) as HF. rewrite Forall_forall in HF. pose proof (HF r Hr) as Hrok.
  pose proof (contains_start r Hrok) as Hc.
  assert (Hx : 0 <= fst r < 2 ^ 64) by (destruct Hrok as (? & ? & ?); unfold UINTPTR_MAX in *; lia).
  pose proof (find_info_spec n m q (fst r) Hm Hq Hx) as Hf.
  destruct (find_info (fst r) (user_buf_info q)) as [u|] eqn:Hfu; [|by destruct (Hf r Hr)].
  destruct Hf as [Hu Hcu].
  assert (He : info_range u = r) by (eapply contains_unique; eauto using qp_ok_used). subst r. simpl in *.
  assert (Hnd : NoDup (user_buffer_mrs q).*1).
  { rewrite (qp_ok_keys _ _ _ Hq). by apply regions_ok_nodup. }
  assert (Hin : info_mr u ∈ user_buffer_mrs q).
  { rewrite (qo_mrs _ _ _ Hq). apply list_elem_of_fmap. by exists u. }
  pose proof (assoc_Some _ _ _ Hnd Hin) as Has. unfold qp_buffer_unregister. rewrite Has.
  eexists. split; [done|]. destruct Hq as [H1 H2 H3 H4].
  pose proof (clear_slot_used _ _ _ Hfu ltac:(destruct Hrok; simpl in *; lia)) as Hcl. split; simpl.
  - by rewrite length_clear_slot.
  - by apply clear_slot_ok.
  - apply (Permutation_cons_inv (a := info_mr u)). rewrite <- (assoc_perm _ _ _ Has), H3.
    by rewrite Hcl.
  - apply (Permutation_cons_inv (a := info_range u)). rewrite <- Hp, H4. by rewrite Hcl.
Qed.

(** Inside a region, past its start, there is no memory region to deregister. *)
Lemma qp_unregister_interior n m q r x :
  regions_ok m -> qp_ok n m q -> r ∈ m -> contains r x -> x <> fst r -> qp_buffer_unregister x q = None.
Proof.
  intros Hm Hq Hr Hc Hne. unfold qp_buffer_unregister.
  enough (assoc x (user_buffer_mrs q) = None) as -> by done.
  apply assoc_None. rewrite (qp_ok_keys _ _ _ Hq). intros ([x' len] & He & Hin)%list_elem_of_fmap.
  simpl in He. subst x'. pose proof (proj1 Hm) as HF. rewrite Forall_forall in HF.
  assert (He : r = (x, len)); [|by subst].
  eapply contains_unique; [done..|]. exact (contains_start (x, len) (HF _ Hin)).
Qed.

(** ** The backend *)

Lemma register_qps_spec n m addr len keys l :
  Forall (qp_ok n m) l -> 0 < addr -> addr ∉ m.*1 ->
  let '(ok, l') := register_qps addr len keys l in
  if (length m <? n)%nat then ok = true /\ Forall (qp_ok n ((addr, len) :: m)) l'
  else ok = bool_decide (l = []) /\ l' = l.
Proof.
  intros Hl Ha Hnew. revert keys. induction Hl as [|q l Hq Hl IH]; intros keys.
  { simpl. by destruct (length m <? n)%nat. }
  cbn [register_qps]. pose proof (qp_register_spec n m q addr len (List.hd 0 keys) Hq Ha Hnew) as H.
  destruct (qp_buffer_register addr len (List.hd 0 keys) q) as [st q'].
  specialize (IH (List.tl keys)). destruct (register_qps addr len (List.tl keys) l) as [ok l'].
  destruct (length m <? n)%nat.
  - destruct H as [-> Hq'], IH as [-> Hl']. split; [done|]. by constructor.
  - destruct H as [-> ->], IH as [_ ->]. split; [by rewrite bool_decide_eq_false_2|done].
Qed.

Lemma unregister_qps_spec n m r m' l :
  regions_ok m -> Forall (qp_ok n m) l -> m ≡ₚ r :: m' ->
  exists l', unregister_qps (fst r) l = Some l' /\ Forall (qp_ok n m') l'.
Proof.
  intros Hm Hl Hp. induction Hl as [|q l Hq Hl (l' & He & Hl')]; [by exists []|]. simpl.
  destruct (qp_unregister_start n m q r m' Hm Hq Hp) as (q' & -> & Hq'). simpl. rewrite He. simpl.
  exists (q' :: l'). split; [done|]. by constructor.
Qed.

Lemma new_region_not_start m addr len :
  regions_ok m -> valid_range addr len -> (forall r, r ∈ m -> ~ overlaps r addr len) -> addr ∉ m.*1.
Proof.
  intros Hm (Ha & Hl & _) Hno ([a l] & -> & Hin)%list_elem_of_fmap. apply (Hno _ Hin).
  pose proof (proj1 Hm) as HF. rewrite Forall_forall in HF. destruct (HF _ Hin) as (? & ? & ?).
  unfold overlaps. simpl in *. lia.
Qed.

Lemma unregister_start m m' addr len :
  regions_ok m' -> m' ≡ₚ (addr, len) :: m ->
  let '(st, m'') := buffer_unregister addr m' in
  st = ROCSHMEM_SUCCESS /\ m'' ≡ₚ m /\ regions_ok m''.
Proof.
  intros Hm Hp. assert (Hin : (addr, len) ∈ m') by (rewrite Hp; by left).
  pose proof (proj1 Hm) as HF. rewrite Forall_forall in HF. pose proof (HF _ Hin) as Hr.
  pose proof (contains_start _ Hr) as Hc. destruct Hr as (Ha & _). simpl in Ha, Hc.
  pose proof (unregister_spec addr m' Hm ltac:(lia)) as H.
  destruct (buffer_unregister addr m') as [st m'']. destruct H as [(-> & (r & Hr & Hp') & Hok)|(_ & _ & Hno)].
  - split_and!; try done. assert (r = (addr, len)) as ->.
    { apply (contains_unique m' _ _ addr Hm); [rewrite Hp'; by left|done..]. }
    apply (Permutation_cons_inv (a := (addr, len))). by rewrite <- Hp'.
  - by destruct (Hno _ Hin).
Qed.

Lemma gda_register_spec n s addr len keys :
  inv n s -> 0 <= addr -> 0 <= len ->
  let '(st, s') := gda_buffer_register addr len keys s in
  inv n s' /\
  ((st = ROCSHMEM_SUCCESS /\ valid_range addr len /\ (forall r, r ∈ cache s -> ~ overlaps r addr len) /\
      ((length (cache s) < n)%nat \/ qps s = []) /\ cache s' ≡ₚ (addr, len) :: cache s /\
      qps s' = snd (register_qps addr len keys (qps s))) \/
   (st = ROCSHMEM_ERROR /\ cache s' ≡ₚ cache s /\ qps s' = qps s /\
      (~ valid_range addr len \/ (exists r, r ∈ cache s /\ overlaps r addr len) \/
       (n <= length (cache s))%nat))).
Proof.
  intros [Hc Hl] Ha Hn. unfold gda_buffer_register.
  pose proof (register_spec addr len (cache s) Hc Ha Hn) as H.
  destruct (buffer_register addr len (cache s)) as [err m].
  destruct H as [(-> & Hv & Hno & Hp & Hok)|(-> & -> & Hwhy)]; [|simpl; split; [done|right; split_and!; try done; tauto]].
  simpl negb. cbn iota. pose proof (new_region_not_start _ _ _ Hc Hv Hno) as Hnew.
  pose proof (register_qps_spec n (cache s) addr len keys (qps s) Hl (proj1 Hv) Hnew) as H.
  destruct (register_qps addr len keys (qps s)) as [ok l].
  destruct (Nat.ltb_spec (length (cache s)) n).
  - destruct H as [-> Hl']. simpl. split.
    + split; [done|]. simpl. eapply Forall_impl; [done|]. intros q. by apply qp_ok_perm.
    + left. split_and!; auto.
  - destruct H as [-> ->]. destruct (bool_decide_reflect (qps s = [])) as [He|]; simpl.
    + rewrite He. split; [by split|]. left. split_and!; auto.
    + pose proof (unregister_start _ _ _ _ Hok Hp) as Hu. destruct (buffer_unregister addr m) as [? m''].
      destruct Hu as (_ & Hp'' & Hok''). split; [split; [done|]|right; split_and!; auto].
      eapply Forall_impl; [done|]. intros q. by apply qp_ok_perm.
Qed.

Lemma gda_unregister_spec n s x :
  inv n s -> 0 <= x ->
  match gda_buffer_unregister x s with
  | Some (st, s') => inv n s' /\
      ((st = ROCSHMEM_SUCCESS /\ exists r, contains r x /\ cache s ≡ₚ r :: cache s' /\
          (x = fst r \/ qps s = [])) \/
       (st = ROCSHMEM_ERROR /\ s' = s /\ forall r, r ∈ cache s -> ~ contains r x))
  | None => qps s <> [] /\ exists r, r ∈ cache s /\ fst r < x < fst r + snd r
  end.
Proof.
  intros [Hc Hl] Hx. unfold gda_buffer_unregister.
  pose proof (unregister_spec x (cache s) Hc Hx) as H.
  destruct (buffer_unregister x (cache s)) as [err m].
  destruct H as [(-> & (r & Hr & Hp) & Hok)|(-> & -> & Hno)]; simpl;
    [|by destruct s; split; [split|right]].
  assert (Hin : r ∈ cache s) by (rewrite Hp; by left).
  destruct (decide (x = fst r)) as [->|Hne].
  - destruct (unregister_qps_spec n (cache s) r m (qps s) Hc Hl Hp) as (l' & -> & Hl'). simpl.
    split; [by split|]. left. split; [done|]. exists r. auto.
  - destruct (qps s) as [|q l] eqn:Hq; simpl.
    + split; [by split|]. left. split; [done|]. exists r. auto.
    + apply Forall_cons in Hl as [Hq1 _]. rewrite (qp_unregister_interior _ _ _ _ _ Hc Hq1 Hin Hr Hne).
      simpl. split; [done|]. exists r. split; [done|]. unfold contains in Hr. lia.
Qed.

Lemma fresh_ok n q : fresh n q -> qp_ok n [] q.
Proof.
  intros [Hm Hi]. assert (Hu : used (user_buf_info q) = []).
  { rewrite Hi. unfold used. clear. induction n as [|n IH]; [done|].
    rewrite replicate_S, filter_cons_False; [done|]. intros H. by apply H. }
  split; rewrite ?Hu, ?Hm; try done; rewrite Hi.
  - apply length_replicate.
  - unfold slots_ok. apply Forall_replicate. done.
Qed.

Lemma unregister_all_ok n m q : qp_ok n m q -> qp_ok n [] (qp_buffer_unregister_all q).
Proof.
  intros [H1 _ _ _]. apply fresh_ok. split; [done|]. simpl. rewrite <- H1. clear H1.
  induction (user_buf_info q) as [|u l IH]; [done|]. simpl. by f_equal.
Qed.

Lemma keys_reachable_inv n s : reachable n s -> inv n s.
Proof.
  intros (l & Hl & Hr). eapply (rtc_invariant step (inv n)); [|exact Hr|].
  - clear. intros s s' Hinv (o & st & Ho & He). destruct o as [a len keys|a|]; simpl in *.
    + pose proof (gda_register_spec n s a len keys Hinv (proj1 Ho) (proj2 Ho)) as H.
      injection He as He. rewrite He in H. by destruct H.
    + pose proof (gda_unregister_spec n s a Hinv Ho) as H. rewrite He in H. by destruct H.
    + injection He as <- <-. split; [apply regions_ok_nil|]. simpl. apply Forall_fmap.
      eapply Forall_impl; [exact (proj2 Hinv)|]. intros q. apply unregister_all_ok.
  - split; [apply regions_ok_nil|]. simpl. eapply Forall_impl; [done|]. apply fresh_ok.
Qed.

(** ** Keys of user buffers *)

Definition in_heap (q : QueuePair) (x : Z) : Prop :=
  is_ptr_in_range (base_heap q) (base_heap_size q) x = true.

Lemma lkey_of_buffer n s q symm x r key :
  inv n s -> q ∈ qps s -> 0 <= x < 2 ^ 64 -> ~ in_heap q x ->
  r ∈ cache s -> contains r x -> (fst r, key) ∈ user_buffer_mrs q -> get_lkey q symm x = Some key.
Proof.
  intros [Hc Hl] Hq Hx Hheap Hr Hin Hkey. rewrite Forall_forall in Hl. specialize (Hl q Hq).
  unfold get_lkey. unfold in_heap in Hheap. apply not_true_is_false in Hheap. rewrite Hheap.
  pose proof (find_info_spec n (cache s) q x Hc Hl Hx) as Hf.
  destruct (find_info x (user_buf_info q)) as [u|]; [|by destruct (Hf r Hr)].
  destruct Hf as [Hu Hcu].
  assert (He : info_range u = r) by (eapply contains_unique; eauto using qp_ok_used). subst r.
  assert (Hnd : NoDup (user_buffer_mrs q).*1).
  { rewrite (qp_ok_keys _ _ _ Hl). by apply regions_ok_nodup. }
  assert (Hm : info_mr u ∈ user_buffer_mrs q).
  { rewrite (qo_mrs _ _ _ Hl). apply list_elem_of_fmap. by exists u. }
  pose proof (assoc_Some _ _ _ Hnd Hm) as H1. pose proof (assoc_Some _ _ _ Hnd Hkey) as H2.
  simpl in H1, H2. congruence.
Qed.

Lemma register_qps_lookup addr len keys l i q :
  fst (register_qps addr len keys l) = true ->
  snd (register_qps addr len keys l) !! i = Some q ->
  (addr, nth i keys 0) ∈ user_buffer_mrs q.
Proof.
  revert keys i. induction l as [|p l IH]; intros keys i; [done|]. cbn [register_qps].
  specialize (IH (List.tl keys)).
  destruct (qp_buffer_register addr len (List.hd 0 keys) p) as [st p'] eqn:Hp.
  destruct (register_qps addr len (List.tl keys) l) as [ok l']. simpl.
  intros [Hst Hok]%andb_true_iff. destruct i as [|i]; simpl.
  - intros [= <-]. unfold qp_buffer_register in Hp.
    destruct (Nat.leb (length (user_buf_info p)) (length (user_buffer_mrs p))); injection Hp as <- <-; [done|].
    simpl. destruct keys; by left.
  - intros Hi. specialize (IH i Hok Hi). by destruct keys, i.
Qed.

(** A buffer is registered exactly when its range is valid, it overlaps no
    registered buffer and every queue pair has a slot left; from then on every queue
    pair resolves each address of the buffer outside its heap to the key it got for
    the buffer.  A call that fails leaves the pointer cache and the queue pairs as
    they were. *)
Theorem gda_buffer_register_exact (n : nat) (s : state) (addr len : Z) (keys : list Z) :
  reachable n s -> qps s <> [] -> 0 <= addr -> 0 <= len ->
  let '(status, s') := gda_buffer_register addr len keys s in
  (status = ROCSHMEM_SUCCESS <->
     valid_range addr len /\ (forall r, r ∈ cache s -> ~ overlaps r addr len) /\
     (length (cache s) < n)%nat) /\
  (status = ROCSHMEM_SUCCESS -> cache s' ≡ₚ (addr, len) :: cache s /\
     forall i q symm x, qps s' !! i = Some q -> addr <= x < addr + len -> ~ in_heap q x ->
       get_lkey q symm x = Some (nth i keys 0)) /\
  (status <> ROCSHMEM_SUCCESS -> cache s' ≡ₚ cache s /\ qps s' = qps s).
Proof.
  intros Hr Hne Ha Hl. pose proof (gda_register_spec n s addr len keys (keys_reachable_inv n s Hr) Ha Hl) as H.
  destruct (gda_buffer_register addr len keys s) as [st s'] eqn:Hreg.
  destruct H as [Hinv [(-> & Hv & Hno & Hlt & Hp & Hq)|(-> & Hp & Hq & Hwhy)]].
  - destruct Hlt as [Hlt|?]; [|done]. split_and!; [done| |done]. intros _. split; [done|].
    intros i q symm x Hi Hx Hheap.
    assert (Hx64 : 0 <= x < 2 ^ 64) by (destruct Hv as (? & ? & ?); unfold UINTPTR_MAX in *; lia).
    apply (lkey_of_buffer n s' q symm x (addr, len)); try done.
    + by eapply list_elem_of_lookup_2.
    + rewrite Hp. by left.
    + apply (register_qps_lookup addr len keys (qps s)); [|by rewrite <- Hq].
      unfold gda_buffer_register in Hreg. destruct (buffer_register addr len (cache s)) as [e m].
      destruct (negb (e =? ROCSHMEM_SUCCESS)); [done|].
      destruct (register_qps addr len keys (qps s)) as [[] l]; done.
  - split_and!; [|done|done]. split; [done|]. intros (Hv & Hno & Hlt).
    destruct Hwhy as [?|[(r & Hin & Ho)|?]]; [done| |lia]. by destruct (Hno r Hin).
Qed.

(** In every reachable state each queue pair resolves an address outside the
    heap through the buffers of the pointer cache: an address of a registered buffer
    to the key of that buffer's memory region, any other address to the entry of
    the symmetric table, if one contains it. *)
Theorem qp_lkey_exact (n : nat) (s : state) (q : QueuePair) (symm : list QpSymmEntry) (x : Z) :
  reachable n s -> q ∈ qps s -> 0 <= x < 2 ^ 64 -> ~ in_heap q x ->
  (forall r, r ∈ cache s -> contains r x ->
     exists key, assoc (fst r) (user_buffer_mrs q) = Some key /\ get_lkey q symm x = Some key) /\
  ((forall r, r ∈ cache s -> ~ contains r x) -> get_lkey q symm x = e_lkey <$> find_entry x symm).
Proof.
  intros Hr Hq Hx Hheap. pose proof (keys_reachable_inv n s Hr) as Hinv.
  pose proof Hinv as [Hc Hl]. rewrite Forall_forall in Hl. specialize (Hl q Hq). split.
  - intros r Hin Hcx. destruct (assoc (fst r) (user_buffer_mrs q)) as [key|] eqn:Ha.
    + exists key. split; [done|]. eapply lkey_of_buffer; eauto.
      rewrite (assoc_perm _ _ _ Ha). by left.
    + apply assoc_None in Ha. rewrite (qp_ok_keys _ _ _ Hl) in Ha. destruct Ha.
      apply list_elem_of_fmap. by exists r.
  - intros Hno. unfold get_lkey. unfold in_heap in Hheap. apply not_true_is_false in Hheap. rewrite Hheap.
    pose proof (find_info_spec n (cache s) q x Hc Hl Hx) as Hf.
    destruct (find_info x (user_buf_info q)) as [u|]; [|done].
    destruct Hf as [Hu Hcu]. destruct (Hno (info_range u)); [|done]. by eapply qp_ok_used.
Qed.

(** [buffer_unregister] hands a null memory region to the verbs library exactly
    when the address lies inside a registered buffer but is not its start: the pointer
    cache accepts the address, the queue pairs look it up by value. *)
Theorem gda_unregister_null_mr (n : nat) (s : state) (x : Z) :
  reachable n s -> qps s <> [] -> 0 <= x ->
  (gda_buffer_unregister x s = None <-> exists r, r ∈ cache s /\ fst r < x < fst r + snd r).
Proof.
  intros Hr Hne Hx. pose proof (keys_reachable_inv n s Hr) as Hinv.
  pose proof (gda_unregister_spec n s x Hinv Hx) as H.
  destruct (gda_buffer_unregister x s) as [[st s']|]; [|naive_solver]. split; [done|].
  intros (r & Hin & Hrx). assert (Hcx : contains r x) by (unfold contains; lia).
  destruct H as [_ [(_ & r' & Hc' & Hp & Hfst)|(_ & _ & Hno)]]; [|by destruct (Hno r Hin)].
  destruct Hfst as [->|?]; [|done].
  assert (r' = r) as ->; [|lia].
  eapply contains_unique; [exact (proj1 Hinv)| |done|done|done]. rewrite Hp. by left.
Qed.

(** ** Witnesses *)

Definition demo_qp : QueuePair := mkQp 1000 100 5000 7 8 [] (replicate 2 zero_info).

Definition demo : state := snd (gda_buffer_register 4096 64 [11; 12] (mkState [] [demo_qp; demo_qp])).

Lemma demo_keys_reachable : reachable 2 demo.
Proof.
  exists [demo_qp; demo_qp]. split; [by repeat constructor|]. apply rtc_once.
  exists (Register 4096 64 [11; 12]), ROCSHMEM_SUCCESS. split; [simpl; lia|reflexivity].
Qed.

Lemma gda_buffer_register_exact_witness :
  let '(status, s') := gda_buffer_register 8192 64 [21; 22] demo in
  cache s' ≡ₚ [(8192, 64); (4096, 64)].
Proof.
  pose proof (gda_buffer_register_exact 2 demo 8192 64 [21; 22] demo_keys_reachable ltac:(done)
    ltac:(lia) ltac:(lia)) as (_ & H & _).
  apply H. reflexivity.
Defined.

Definition demo_qp1 : QueuePair := List.hd demo_qp (qps demo).

Lemma demo_qp1_in : demo_qp1 ∈ qps demo.
Proof. apply list_elem_of_lookup. exists 0%nat. vm_compute. reflexivity. Qed.

Lemma qp_lkey_exact_witness : get_lkey demo_qp1 [] 4100 = Some 11.
Proof.
  pose proof (qp_lkey_exact 2 demo demo_qp1 [] 4100 demo_keys_reachable
    demo_qp1_in ltac:(lia) ltac:(done)) as [H _].
  destruct (H (4096, 64)) as (key & Hk & Hg); [by left|unfold contains; simpl; lia|].
  rewrite Hg. exact (eq_sym Hk).
Defined.

Lemma gda_unregister_null_mr_witness : gda_buffer_unregister 4100 demo = None.
Proof.
  apply (gda_unregister_null_mr 2 demo 4100 demo_keys_reachable ltac:(done) ltac:(lia)).
  exists (4096, 64). split; [by left|simpl; lia].
Defined.
