(* ===== verification/GdaSymm.v ===== *)
(** * Registered symmetric buffers over the network cards

    Model of [GDABackend::buffer_register_symmetric], [buffer_unregister_symmetric],
    [gda_nic_unregister], [release_symm_record_nic_resources] and
    [symmetric_buffer_unregister_all] ([src/gda/backend_gda.cpp]).  A registration
    combines the host-side bookkeeping and the IPC table of [SymmTable] with one memory
    region per network card and one entry per (PE, card) in a flat device table, in
    which each queue pair owns the slice of its PE and card and resolves addresses
    with [get_raddr_info] of [QpKeys].  Answers of the drivers and of the other PEs
    are arguments. *)

From Stdlib Require Import ZArith Lia.
From stdpp Require Import base option numbers list relations.
From S2P Require Import Prelude Slots Regions SymmTable QpKeys.

Open Scope Z_scope.

(** ** Data *)

(** A memory region: its identity and keys. *)
Record mr_t := mkMr { mr_id : Z; mr_rkey : Z; mr_lkey : Z }.

Record GdaSymmRecord := mkGdaRecord {
  rec_slot : nat;
  mrs : list mr_t;
  mr_fds : list (option Z);             (* [None] is -1 *)
  gen_handle : option Z                 (* [None] when [has_gen_handle] is false *)
}.

#[export] Instance gda_record_slotted : Slotted GdaSymmRecord := {
  rslot := rec_slot;
  with_slot i r := mkGdaRecord i (mrs r) (mr_fds r) (gen_handle r);
  rslot_with_slot _ _ := eq_refl
}.

Record gda_state := mkGda {
  host : SymmTable.state;
  symm_count : nat;
  symm_entries : list QpSymmEntry;
  gda_symm_records_ : list (Z * GdaSymmRecord);
  live_mrs : list Z;
  live_fds : list Z;
  live_handles : list Z
}.

(** Answers of the calls outside during one registration, per card: the exported
    descriptor and the new memory region; from the other PEs: their success, alias
    bases and remote keys. *)
Record nic_env := mkNicEnv {
  henv : env;
  is_dmabuf_supported : bool;
  retained : option Z;
  nic_answers : list (option Z * option mr_t);
  other_reg_mr : list bool;
  gathered_bases : list Z;
  gathered_rkeys : list Z
}.

Definition zero_entry : QpSymmEntry := mkEntry 0 0 0 0 0.

Definition set_host (h : SymmTable.state) (s : gda_state) : gda_state :=
  mkGda h (symm_count s) (symm_entries s) (gda_symm_records_ s) (live_mrs s) (live_fds s) (live_handles s).

Definition set_live (m f h : list Z) (s : gda_state) : gda_state :=
  mkGda (host s) (symm_count s) (symm_entries s) (gda_symm_records_ s) m f h.

(** ** Driver resources *)

Definition hold_handle (h : option Z) (s : gda_state) : gda_state :=
  set_live (live_mrs s) (live_fds s) (option_list h ++ live_handles s) s.

(** [register_symm_buffer_mr]: the region and the descriptor returned in [out_fd]. *)
Definition register_symm_buffer_mr (use_dmabuf : bool) (answer : option Z * option mr_t) (s : gda_state)
  : option (mr_t * option Z) * gda_state :=
  if use_dmabuf then
    match answer.1 with
    | None => (None, s)
    | Some fd =>
        let s1 := set_live (live_mrs s) (fd :: live_fds s) (live_handles s) s in
        match answer.2 with
        | None => (None, set_live (live_mrs s1) (remove_one fd (live_fds s1)) (live_handles s1) s1)
        | Some m => (Some (m, Some fd), set_live (mr_id m :: live_mrs s1) (live_fds s1) (live_handles s1) s1)
        end
    end
  else
    match answer.2 with
    | None => (None, s)
    | Some m => (Some (m, None), set_live (mr_id m :: live_mrs s) (live_fds s) (live_handles s) s)
    end.

(** The loop over the cards, left at the first failure: the regions so far and [reg_mr_ok]. *)
Fixpoint register_mrs (use_dmabuf : bool) (l : list (option Z * option mr_t)) (s : gda_state)
  : list (mr_t * option Z) * bool * gda_state :=
  match l with
  | [] => ([], true, s)
  | a :: l' =>
      let '(r, s1) := register_symm_buffer_mr use_dmabuf a s in
      match r with
      | None => ([], false, s1)
      | Some m =>
          let '(ms, ok, s2) := register_mrs use_dmabuf l' s1 in
          (m :: ms, ok, s2)
      end
  end.

(** Deregistering regions, closing their descriptors and releasing the handle; the
    loop appears at each unwinding and in [release_symm_record_nic_resources]. *)
Definition release_nic (ms : list (mr_t * option Z)) (h : option Z) (s : gda_state) : gda_state :=
  set_live (fold_left (fun l m => remove_one (mr_id m.1) l) ms (live_mrs s))
    (fold_left (fun l fd => remove_one fd l) (ms ≫= fun m => option_list m.2) (live_fds s))
    (match h with Some x => remove_one x (live_handles s) | None => live_handles s end) s.

Definition release_symm_record_nic_resources (r : GdaSymmRecord) (s : gda_state) : gda_state :=
  release_nic (zip (mrs r) (mr_fds r)) (gen_handle r) s.

Section Gda.

Variables (num_pes num_nics max_symm_regions my_pe shm_rank : nat) (ipc : bool).

Definition symm_capacity : nat := if (max_symm_regions <=? 0)%nat then 1%nat else max_symm_regions.

(** ** The flat table *)

Definition idx (pe n slot : nat) : nat := (pe * num_nics + n) * symm_capacity + slot.

(** The two nested loops over PEs and cards. *)
Definition pairs : list (nat * nat) :=
  pe ← seq 0 num_pes; n ← seq 0 num_nics; [(pe, n)].

Definition set_slot (slot : nat) (f : list QpSymmEntry -> nat -> nat -> QpSymmEntry)
    (t : list QpSymmEntry) : list QpSymmEntry :=
  fold_left (fun t p => <[idx p.1 p.2 slot := f t p.1 p.2]> t) pairs t.

(** What the queue pair for this PE and card sees. *)
Definition slice (s : gda_state) (pe n : nat) : list QpSymmEntry :=
  take (symm_count s) (drop (idx pe n 0) (symm_entries s)).

(** The freshly allocated table ([setup_gpu_qps]). *)
Definition gda_init : gda_state :=
  mkGda (alloc_ipc_symm_table max_symm_regions) 0
    (replicate (num_pes * num_nics * symm_capacity) zero_entry) [] [] [] [].

(** ** Unregistration *)

Definition gda_nic_unregister (key : Z) (s : gda_state) : Z * gda_state :=
  match assoc key (gda_symm_records_ s) with
  | None => (ROCSHMEM_ERROR, s)
  | Some r =>
      let slot := rec_slot r in
      let move := negb (slot =? symm_count s - 1)%nat && (1 <=? symm_count s)%nat in
      let last := (symm_count s - 1)%nat in
      let entries :=
        if move then set_slot slot (fun t pe n => nth (idx pe n last) t zero_entry) (symm_entries s)
        else symm_entries s in
      let records := if move then renumber last slot (gda_symm_records_ s) else gda_symm_records_ s in
      let s1 := mkGda (host s) last entries records (live_mrs s) (live_fds s) (live_handles s) in
      let s2 := release_symm_record_nic_resources r s1 in
      (ROCSHMEM_SUCCESS,
       mkGda (host s2) (symm_count s2) (symm_entries s2) (erase key (gda_symm_records_ s2))
         (live_mrs s2) (live_fds s2) (live_handles s2))
  end.

(** The IPC exposure, if the buffer has one. *)
Definition drop_ipc (key : Z) (h : SymmTable.state) : SymmTable.state :=
  if ipc && bool_decide (is_Some (assoc key (ipc_symm_records_ h)))
  then snd (unregister_ipc_symm_region key h) else h.

Definition gda_unregister_symmetric (addr : Z) (s : gda_state) : Z * gda_state :=
  if addr =? 0 then (ROCSHMEM_ERROR, s)
  else
    let s1 := set_host (drop_ipc addr (host s)) s in
    let '(status, s2) := gda_nic_unregister addr s1 in
    if negb (status =? ROCSHMEM_SUCCESS) then (ROCSHMEM_ERROR, s2)
    else let '(st, h) := base_unregister addr (host s2) in (st, set_host h s2).

(** One iteration of the loop over the records. *)
Definition unregister_one (s : gda_state) (kr : Z * GdaSymmRecord) : gda_state :=
  let s := set_host (drop_ipc kr.1 (host s)) s in
  let s := release_symm_record_nic_resources kr.2 s in
  set_host (snd (base_unregister kr.1 (host s))) s.

Definition symmetric_buffer_unregister_all (s : gda_state) : gda_state :=
  if bool_decide (gda_symm_records_ s = []) then s
  else
    let s1 := mkGda (host s) 0 (symm_entries s) (gda_symm_records_ s) (live_mrs s) (live_fds s) (live_handles s) in
    let s2 := fold_left unregister_one (gda_symm_records_ s) s1 in
    mkGda (host s2) (symm_count s2) (symm_entries s2) [] (live_mrs s2) (live_fds s2) (live_handles s2).

(** ** Registration *)

(** [symm_allgather]: the other PEs' parts around this PE's own. *)
Definition gather (width : nat) (own others : list Z) : list Z :=
  take (my_pe * width) others ++ own ++ drop ((my_pe + 1) * width) others.

Definition new_entry (key length : Z) (bases rkeys lkeys : list Z) (pe n : nat) : QpSymmEntry :=
  mkEntry key (nth pe bases 0) length (nth (pe * num_nics + n) rkeys 0) (nth n lkeys 0).

(** The steps from the registered regions on: publication and IPC exposure. *)
Definition publish (addr key length : Z) (ms : list (mr_t * option Z)) (h : option Z) (e : nic_env)
    (s : gda_state) : option Z * gda_state :=
  let bases := gather 1 [key] (gathered_bases e) in
  let rkeys := gather num_nics ((fun m => mr_rkey m.1) <$> ms) (gathered_rkeys e) in
  let lkeys := (fun m => mr_lkey m.1) <$> ms in
  let slot := symm_count s in
  if (symm_capacity <=? slot)%nat then
    let s1 := release_nic ms h s in
    (None, set_host (snd (base_unregister key (host s1))) s1)
  else
    let entries := set_slot slot (fun _ => new_entry key length bases rkeys lkeys) (symm_entries s) in
    let r := mkGdaRecord slot (fst <$> ms) (snd <$> ms) h in
    let s1 := mkGda (host s) (S slot) entries ((key, r) :: gda_symm_records_ s)
                (live_mrs s) (live_fds s) (live_handles s) in
    if ipc then
      let '(status, hs) := register_ipc_symm_region key addr length shm_rank (henv e) (host s1) in
      let s2 := set_host hs s1 in
      if negb (status =? ROCSHMEM_SUCCESS) then
        let s3 := snd (gda_nic_unregister key s2) in
        (None, set_host (snd (base_unregister key (host s3))) s3)
      else (Some key, s2)
    else (Some key, s1).

Definition gda_register_symmetric (addr length : Z) (e : nic_env) (s : gda_state) : option Z * gda_state :=
  if negb (symm_lengths_match length (other_lengths (henv e))) then (None, s)
  else
    let '(r, hs) := base_register max_symm_regions addr length (henv e) (host s) in
    let s1 := set_host hs s in
    let register_ok := match r with Some _ => true | None => false end in
    let alias := default 0 r in
    if negb (all_pes_succeeded register_ok (other_registered (henv e))) then
      (None, if register_ok then set_host (snd (base_unregister alias hs)) s1 else s1)
    else
      let gen := if is_dmabuf_supported e then retained e else None in
      let use_dmabuf := bool_decide (is_Some gen) in
      let s2 := hold_handle gen s1 in
      let '(ms, reg_mr_ok, s3) := register_mrs use_dmabuf (nic_answers e) s2 in
      if negb (all_pes_succeeded reg_mr_ok (other_reg_mr e)) then
        let s4 := release_nic ms gen s3 in
        (None, set_host (snd (base_unregister alias (host s4))) s4)
      else publish addr alias length ms gen e s3.

(** ** The flat table: positions *)

Lemma pair_position a b c d n : (b < n -> d < n -> a * n + b = c * n + d -> a = c /\ b = d)%nat.
Proof.
  intros Hb Hd He. assert (a = c) as ->; [|lia].
  destruct (Nat.lt_trichotomy a c) as [H|[H|H]]; [|done|].
  - assert (a * n + n <= c * n)%nat by nia. lia.
  - assert (c * n + n <= a * n)%nat by nia. lia.
Qed.

Lemma idx_inj pe n i pe' n' i' :
  (n < num_nics -> n' < num_nics -> i < symm_capacity -> i' < symm_capacity ->
   idx pe n i = idx pe' n' i' -> pe = pe' /\ n = n' /\ i = i')%nat.
Proof.
  unfold idx. intros Hn Hn' Hi Hi' He. apply pair_position in He as [He ->]; [|done|done].
  apply pair_position in He as [-> ->]; done.
Qed.

Lemma idx_bound pe n i :
  (pe < num_pes -> n < num_nics -> i < symm_capacity -> idx pe n i < num_pes * num_nics * symm_capacity)%nat.
Proof.
  unfold idx. intros Hpe Hn Hi. assert (pe * num_nics + n < num_pes * num_nics)%nat by nia. nia.
Qed.

Lemma elem_of_pairs pe n : (pe, n) ∈ pairs <-> (pe < num_pes /\ n < num_nics)%nat.
Proof.
  unfold pairs. rewrite list_elem_of_bind. setoid_rewrite list_elem_of_bind.
  setoid_rewrite list_elem_of_singleton. setoid_rewrite elem_of_seq. split.
  - intros (pe' & (n' & [= -> ->] & ?) & ?). lia.
  - intros []. exists pe. split; [exists n|]; split; auto with lia.
Qed.

(** Two tables that differ at most in one slot of each slice. *)
Definition agree_off (slot : nat) (t t' : list QpSymmEntry) : Prop :=
  length t = length t' /\
  forall pe n i, (pe < num_pes -> n < num_nics -> i < symm_capacity -> i <> slot ->
    t !! idx pe n i = t' !! idx pe n i)%nat.

Lemma set_slot_lookup slot f t pe n i :
  (slot < symm_capacity)%nat -> length t = (num_pes * num_nics * symm_capacity)%nat ->
  (forall t' p m, agree_off slot t' t -> (p < num_pes)%nat -> (m < num_nics)%nat -> f t' p m = f t p m) ->
  (pe < num_pes)%nat -> (n < num_nics)%nat -> (i < symm_capacity)%nat ->
  set_slot slot f t !! idx pe n i = if decide (i = slot) then Some (f t pe n) else t !! idx pe n i.
Proof.
  intros Hslot Hlen Hf Hpe Hn Hi. unfold set_slot.
  assert (Hps : forall p, p ∈ pairs -> (p.1 < num_pes /\ p.2 < num_nics)%nat).
  { intros [p m]. by rewrite elem_of_pairs. }
  assert (Hgen : forall ps t1, (forall p, p ∈ ps -> (p.1 < num_pes /\ p.2 < num_nics)%nat) ->
    agree_off slot t1 t ->
    fold_left (fun t p => <[idx p.1 p.2 slot := f t p.1 p.2]> t) ps t1 !! idx pe n i =
    if decide (i = slot /\ (pe, n) ∈ ps) then Some (f t pe n) else t1 !! idx pe n i).
  { intros ps. induction ps as [|[p m] ps IH]; intros t1 Hin Hag; simpl.
    { rewrite decide_False; [done|]. intros [_ ?%elem_of_nil]. done. }
    destruct (Hin (p, m) ltac:(by left)) as [Hp Hm]. simpl in Hp, Hm. rewrite IH.
    - destruct (decide (i = slot /\ (pe, n) ∈ ps)) as [[-> Hr]|Hno].
      + rewrite decide_True; [done|]. split; [done|by right].
      + destruct (decide (i = slot /\ (pe, n) ∈ (p, m) :: ps)) as [[-> Hr]|Hno'].
        * apply elem_of_cons in Hr as [[= -> ->]|Hr]; [|by destruct Hno].
          rewrite list_lookup_insert_eq; [by rewrite Hf|]. rewrite (proj1 Hag), Hlen. by apply idx_bound.
        * rewrite list_lookup_insert_ne; [done|]. intros He.
          apply idx_inj in He as (-> & -> & ->); try done. apply Hno'. split; [done|by left].
    - intros q Hq. apply Hin. by right.
    - destruct Hag as [Hl Hag]. split; [by rewrite length_insert|]. intros p' m' i' Hp' Hm' Hi' Hne.
      rewrite list_lookup_insert_ne; [by apply Hag|]. intros He.
      apply idx_inj in He as (-> & -> & ->); done. }
  rewrite Hgen by done. assert (Hin : (pe, n) ∈ pairs) by (by apply elem_of_pairs).
  destruct (decide (i = slot)) as [->|]; [by rewrite decide_True|by rewrite decide_False by naive_solver].
Qed.

Lemma length_set_slot slot f t : length (set_slot slot f t) = length t.
Proof.
  unfold set_slot. generalize pairs. intros ps. revert t.
  induction ps as [|p ps IH]; intros t; simpl; [done|]. by rewrite IH, length_insert.
Qed.

(** ** Rows: the registrations behind the table *)

Record row := mkRow {
  row_key : Z;
  row_length : Z;
  row_bases : list Z;
  row_rkeys : list Z;
  row_lkeys : list Z
}.

Definition entry_of (r : row) : nat -> nat -> QpSymmEntry :=
  new_entry (row_key r) (row_length r) (row_bases r) (row_rkeys r) (row_lkeys r).

Definition row_range (r : row) : Z * Z := (row_key r, row_length r).

Definition table_of (rows : list row) (t : list QpSymmEntry) : Prop :=
  length t = (num_pes * num_nics * symm_capacity)%nat /\
  forall pe n i r, (pe < num_pes)%nat -> (n < num_nics)%nat -> rows !! i = Some r ->
    t !! idx pe n i = Some (entry_of r pe n).

Lemma table_of_push rows t r :
  table_of rows t -> (length rows < symm_capacity)%nat ->
  table_of (rows ++ [r]) (set_slot (length rows) (fun _ => entry_of r) t).
Proof.
  intros [Hlen Ht] Hlt. split; [by rewrite length_set_slot|]. intros pe n i r' Hpe Hn Hi.
  pose proof (lookup_lt_Some _ _ _ Hi) as Hil. rewrite length_app in Hil. simpl in Hil.
  rewrite set_slot_lookup by (done || lia). destruct (decide (i = length rows)) as [->|Hne].
  - rewrite lookup_app_r, Nat.sub_diag in Hi by lia. by injection Hi as ->.
  - rewrite lookup_app_l in Hi by lia. by apply Ht.
Qed.

Lemma table_of_swap rows t slot :
  table_of rows t -> (length rows <= symm_capacity)%nat -> (slot < length rows)%nat ->
  let last := (length rows - 1)%nat in
  table_of (swap_remove slot rows)
    (if (slot =? last)%nat then t
     else set_slot slot (fun t pe n => nth (idx pe n last) t zero_entry) t).
Proof.
  intros [Hlen Ht] Hle Hs last. split; [case_match; by rewrite ?length_set_slot|].
  intros pe n i r Hpe Hn Hi. pose proof (lookup_lt_Some _ _ _ Hi) as Hil.
  rewrite length_swap_remove in Hil. unfold swap_remove in Hi. fold last in Hi, Hil.
  destruct (lookup_lt_is_Some_2 rows last ltac:(lia)) as [m Hm]. rewrite Hm in Hi.
  rewrite lookup_take_lt in Hi by done.
  destruct (Nat.eqb_spec slot last) as [->|Hne]; [by apply Ht|].
  rewrite set_slot_lookup; try done; try lia.
  - destruct (decide (i = slot)) as [->|].
    + rewrite list_lookup_insert_eq in Hi by done. injection Hi as <-.
      f_equal. apply nth_lookup_Some. by apply Ht.
    + rewrite list_lookup_insert_ne in Hi by done. by apply Ht.
  - intros t' p k [_ Hag] Hp Hk. rewrite !nth_lookup. f_equal. apply Hag; [done|done|lia|done].
Qed.

Lemma slice_rows rows s pe n :
  table_of rows (symm_entries s) -> length rows = symm_count s -> (length rows <= symm_capacity)%nat ->
  (pe < num_pes)%nat -> (n < num_nics)%nat ->
  slice s pe n = (fun r => entry_of r pe n) <$> rows.
Proof.
  intros [Hlen Ht] Hc Hle Hpe Hn. apply list_eq. intros i. unfold slice.
  rewrite list_lookup_fmap. destruct (decide (i < symm_count s)%nat) as [Hi|Hi].
  - rewrite lookup_take_lt, lookup_drop by done.
    replace (idx pe n 0 + i)%nat with (idx pe n i) by (unfold idx; lia).
    destruct (lookup_lt_is_Some_2 rows i ltac:(lia)) as [r Hr]. rewrite Hr. by apply Ht.
  - rewrite lookup_take_ge by lia. by rewrite (lookup_ge_None_2 rows) by lia.
Qed.

(** ** Driver resources *)

Abbreviation ids := (fmap (fun m : mr_t * option Z => mr_id m.1)).
Abbreviation fds := (mbind (fun m : mr_t * option Z => option_list m.2)).

Definition rec_regions (r : GdaSymmRecord) : list (mr_t * option Z) := zip (mrs r) (mr_fds r).

Definition rec_mrs (kr : Z * GdaSymmRecord) : list Z := ids (rec_regions kr.2).
Definition rec_fds (kr : Z * GdaSymmRecord) : list Z := fds (rec_regions kr.2).
Definition rec_handles (kr : Z * GdaSymmRecord) : list Z := option_list (gen_handle kr.2).

(** The card side of the state: the table holds [rows], each record names its row,
    and the live driver resources are those of the records and the ones of a
    registration under way. *)
Record nic_inv (rows : list row) (xm xf xh : list Z) (s : gda_state) : Prop := {
  ni_count : length rows = symm_count s;
  ni_cap : (length rows <= symm_capacity)%nat;
  ni_table : table_of rows (symm_entries s);
  ni_fit : slots_fit (fun k _ r => row_key r = k) rows (gda_symm_records_ s);
  ni_keys : (gda_symm_records_ s).*1 ≡ₚ row_key <$> rows;
  ni_mrs : live_mrs s ≡ₚ xm ++ (gda_symm_records_ s ≫= rec_mrs);
  ni_fds : live_fds s ≡ₚ xf ++ (gda_symm_records_ s ≫= rec_fds);
  ni_handles : live_handles s ≡ₚ xh ++ (gda_symm_records_ s ≫= rec_handles)
}.

Lemma nic_inv_live rows xm xf xh ym yf yh s m f h :
  nic_inv rows xm xf xh s ->
  (forall l, live_mrs s ≡ₚ xm ++ l -> m ≡ₚ ym ++ l) ->
  (forall l, live_fds s ≡ₚ xf ++ l -> f ≡ₚ yf ++ l) ->
  (forall l, live_handles s ≡ₚ xh ++ l -> h ≡ₚ yh ++ l) ->
  nic_inv rows ym yf yh (set_live m f h s).
Proof. intros [] Hm Hf Hh. split; simpl; auto. Qed.

Lemma nic_inv_host rows xm xf xh h s : nic_inv rows xm xf xh s -> nic_inv rows xm xf xh (set_host h s).
Proof. by intros []. Qed.

Lemma nic_inv_hold rows h s :
  nic_inv rows [] [] [] s -> nic_inv rows [] [] (option_list h) (hold_handle h s).
Proof. intros Hs. apply (nic_inv_live _ _ _ _ _ _ _ _ _ _ _ Hs); simpl; intros l Hl; by rewrite Hl. Qed.

Lemma register_symm_buffer_mr_spec rows xm xf xh b a s :
  nic_inv rows xm xf xh s ->
  let '(r, s') := register_symm_buffer_mr b a s in
  host s' = host s /\ gda_symm_records_ s' = gda_symm_records_ s /\
  match r with
  | None => nic_inv rows xm xf xh s'
  | Some m => nic_inv rows (mr_id m.1 :: xm) (option_list m.2 ++ xf) xh s' /\ a.2 = Some m.1
  end.
Proof.
  intros Hs. unfold register_symm_buffer_mr. destruct a as [[fd|] [m|]], b; simpl; try done;
    rewrite ?Z.eqb_refl; split_and!; try done;
    apply (nic_inv_live _ _ _ _ _ _ _ _ _ _ _ Hs); simpl; intros l Hl; by rewrite Hl.
Qed.

Lemma register_mrs_spec rows xm xf xh b l s :
  nic_inv rows xm xf xh s ->
  let '(ms, ok, s') := register_mrs b l s in
  host s' = host s /\ gda_symm_records_ s' = gda_symm_records_ s /\
  nic_inv rows (ids ms ++ xm) (fds ms ++ xf) xh s' /\
  (ok = true -> snd <$> l = (fun m => Some m.1) <$> ms).
Proof.
  revert xm xf s. induction l as [|a l IH]; intros xm xf s Hs; [done|]. cbn [register_mrs].
  pose proof (register_symm_buffer_mr_spec _ _ _ _ b a s Hs) as H1.
  destruct (register_symm_buffer_mr b a s) as [[m|] s1]; destruct H1 as (Hh & Hr & H1); [|by split_and!].
  destruct H1 as [H1 Ha]. specialize (IH _ _ _ H1).
  destruct (register_mrs b l s1) as [[ms ok] s2]. destruct IH as (Hh2 & Hr2 & H2 & Hok).
  split_and!; [congruence|congruence| |intros ->; rewrite !fmap_cons, Ha; f_equal; by apply Hok].
  destruct H2. split; try done; simpl.
  - rewrite ni_mrs0. by rewrite <- Permutation_middle.
  - rewrite ni_fds0. simpl. rewrite <- (Permutation_app_swap_app (option_list m.2)). by rewrite <- !app_assoc.
Qed.

Lemma remove_fold_ids (ms : list (mr_t * option Z)) l :
  fold_left (fun l m => remove_one (mr_id m.1) l) ms l = fold_left (fun l b => remove_one b l) (ids ms) l.
Proof. revert l. induction ms as [|m ms IH]; intros l; simpl; [done|]. apply IH. Qed.

Lemma nic_inv_release rows ms h s xm xf xh :
  nic_inv rows (ids ms ++ xm) (fds ms ++ xf) (option_list h ++ xh) s ->
  nic_inv rows xm xf xh (release_nic ms h s).
Proof.
  intros Hs. unfold release_nic. apply (nic_inv_live _ _ _ _ _ _ _ _ _ _ _ Hs); simpl; intros l Hl.
  - rewrite remove_fold_ids. apply remove_all_perm. by rewrite app_assoc.
  - apply remove_all_perm. by rewrite app_assoc.
  - destruct h as [x|]; simpl in *; [|done]. apply (Permutation_cons_inv (a := x)).
    rewrite <- remove_one_perm; [done|]. rewrite Hl. by left.
Qed.

(** ** Publishing and removing a row *)

Lemma zip_fst_snd {A B} (l : list (A * B)) : zip (fst <$> l) (snd <$> l) = l.
Proof. induction l as [|[a b] l IH]; [done|]. cbn. by f_equal. Qed.

Lemma nic_inv_push rows ms h s r key :
  nic_inv rows (ids ms) (fds ms) (option_list h) s -> row_key r = key ->
  (length rows < symm_capacity)%nat ->
  nic_inv (rows ++ [r]) [] [] []
    (mkGda (host s) (S (symm_count s)) (set_slot (symm_count s) (fun _ => entry_of r) (symm_entries s))
       ((key, mkGdaRecord (symm_count s) (fst <$> ms) (snd <$> ms) h) :: gda_symm_records_ s)
       (live_mrs s) (live_fds s) (live_handles s)).
Proof.
  intros [] Hk Hlt. rewrite <- ni_count0. split; simpl; rewrite ?length_app; simpl; try lia.
  - by apply table_of_push.
  - by apply slots_fit_push.
  - rewrite fmap_app, ni_keys0. simpl. rewrite Hk. apply Permutation_cons_append.
  - rewrite ni_mrs0. unfold rec_mrs at 2, rec_regions. simpl. by rewrite zip_fst_snd.
  - rewrite ni_fds0. unfold rec_fds at 2, rec_regions. simpl. by rewrite zip_fst_snd.
  - done.
Qed.

Lemma nic_unregister_spec rows key s :
  nic_inv rows [] [] [] s ->
  let '(st, s') := gda_nic_unregister key s in
  (st = ROCSHMEM_SUCCESS /\ host s' = host s /\
     exists i r g, rows !! i = Some r /\ row_key r = key /\ nic_inv (swap_remove i rows) [] [] [] s' /\
       assoc key (gda_symm_records_ s) = Some g /\ rslot g = i /\
       gda_symm_records_ s' = moved_record (length rows - 1) i <$> erase key (gda_symm_records_ s)) \/
  (st = ROCSHMEM_ERROR /\ s' = s /\ key ∉ row_key <$> rows).
Proof.
  intros Hinv. pose proof Hinv as []. unfold gda_nic_unregister.
  destruct (assoc key (gda_symm_records_ s)) as [g|] eqn:Ha.
  2:{ right. split_and!; [done|done|]. rewrite <- ni_keys0. by apply assoc_None. }
  left. split; [done|]. split; [done|]. pose proof (assoc_perm _ _ _ Ha) as Hperm.
  set (rest := erase key (gda_symm_records_ s)) in *.
  destruct (proj2 ni_fit0 key g) as (r & Hr & Hk); [rewrite Hperm; by left|].
  exists (rslot g), r, g. pose proof (lookup_lt_Some _ _ _ Hr) as Hlt.
  pose proof (renumber_erase key g (length rows - 1) _ _ (proj1 ni_fit0) Hperm eq_refl) as Hrecs.
  pose proof (slots_fit_remove _ _ _ key g rest ni_fit0 Hperm (fun _ _ _ _ H => H)) as Hfit.
  pose proof (table_of_swap rows (symm_entries s) (rslot g) ni_table0 ni_cap0 Hlt) as Htab.
  pose proof (swap_remove_split _ _ _ Hr) as Hsplit.
  change (rslot g) with (rec_slot g) in *. rewrite ni_count0 in *.
  destruct (Nat.leb_spec 1 (symm_count s)); [|lia]. rewrite andb_true_r, !if_negb.
  split_and!; try done. unfold release_symm_record_nic_resources, release_nic. simpl.
  assert (Hmv : forall {B} (f : Z * GdaSymmRecord -> list B), (forall k r i, f (k, with_slot i r) = f (k, r)) ->
    gda_symm_records_ s ≫= f ≡ₚ f (key, g) ++
      ((moved_record (symm_count s - 1) (rec_slot g) <$> rest) ≫= f)).
  { intros B f Hf. rewrite bind_moved by done. by rewrite Hperm. }
  split; simpl; rewrite ?length_swap_remove, ?Hrecs; try done; try lia.
  - rewrite fmap_moved by done. apply (Permutation_cons_inv (a := key)).
    change (key :: rest.*1) with (((key, g) :: rest).*1). rewrite <- Hperm, ni_keys0, <- Hk at 1.
    exact (fmap_Permutation _ _ _ Hsplit).
  - rewrite remove_fold_ids. apply remove_all_perm. rewrite ni_mrs0. exact (Hmv _ rec_mrs (fun _ _ _ => eq_refl)).
  - apply remove_all_perm. rewrite ni_fds0. exact (Hmv _ rec_fds (fun _ _ _ => eq_refl)).
  - pose proof (Hmv _ rec_handles (fun _ _ _ => eq_refl)) as Hh. rewrite <- ni_handles0 in Hh.
    unfold rec_handles at 1 in Hh. simpl in Hh. destruct (gen_handle g) as [x|]; simpl in Hh; [|done].
    apply (Permutation_cons_inv (a := x)). rewrite <- remove_one_perm; [done|]. rewrite Hh. by left.
Qed.

(** ** The host side *)

(** [rs] are the registered ranges, [x] those of a registration under way; with IPC
    each registered range also has a region in the IPC table. *)
Definition host_part (rs x : list (Z * Z)) (h : SymmTable.state) : Prop :=
  table_inv h /\
  if ipc then host_inv x h /\ range_of <$> live h ≡ₚ rs else host_inv (x ++ rs) h /\ live h = [].

Lemma host_inv_perm x y h : x ≡ₚ y -> host_inv x h -> host_inv y h.
Proof. intros Hp []. split; try done. by rewrite <- Hp. Qed.

Lemma host_part_perm rs rs' x h : rs ≡ₚ rs' -> host_part rs x h -> host_part rs' x h.
Proof.
  intros Hp [Ht H]. split; [done|]. destruct ipc; destruct H as [H Hl].
  - split; [done|]. by rewrite Hl.
  - split; [|done]. eapply host_inv_perm; [|done]. by rewrite Hp.
Qed.

Lemma host_part_aliases rs x h : host_part rs x h -> aliases h ≡ₚ x ++ rs /\ apart (x ++ rs).
Proof.
  intros [_ H]. assert (Hp : aliases h ≡ₚ x ++ rs).
  { destruct ipc; destruct H as [[_ J _ _ _] Hl]; rewrite J, Hl; [done|]. simpl. by rewrite app_nil_r. }
  split; [done|]. apply (apart_perm _ _ Hp). destruct ipc; apply (hi_apart _ _ (proj1 H)).
Qed.

Lemma host_part_base_register rs addr len e h :
  host_part rs [] h -> env_ok addr len e h ->
  let '(r, h') := base_register max_symm_regions addr len e h in
  match r with
  | None => h' = h
  | Some a => new_alias e = Some a /\ host_part rs [(a, len)] h' /\ same_ipc h h' /\
      aliases h' = (a, len) :: aliases h
  end.
Proof.
  intros [Ht H] He. unfold host_part.
  assert (Hx : exists x, host_inv x h /\ (if ipc then x = [] else x = rs)).
  { destruct ipc; destruct H as [H _]; eexists; split; eauto. }
  destruct Hx as (x & Hx & Hxe). pose proof (base_register_inv max_symm_regions addr len e h x Hx He) as Hb.
  destruct (base_register max_symm_regions addr len e h) as [[a|] h']; [|done].
  destruct Hb as (Ha & Hh' & Hipc & Hal). split_and!; try done.
  { by apply (same_ipc_table _ _ Hipc). }
  destruct ipc; subst x; destruct H as [_ Hl]; rewrite (same_ipc_live _ _ Hipc); done.
Qed.

Lemma host_part_base_unregister rs a len h :
  host_part rs [(a, len)] h ->
  let '(st, h') := base_unregister a h in
  st = ROCSHMEM_SUCCESS /\ host_part rs [] h' /\ same_ipc h h' /\ aliases h ≡ₚ (a, len) :: aliases h'.
Proof.
  intros [Ht H]. unfold host_part. simpl in H.
  assert (Hx : exists x, host_inv ((a, len) :: x) h /\ (if ipc then x = [] else x = rs)).
  { destruct ipc; destruct H as [H _]; eexists; split; eauto. }
  destruct Hx as (x & Hx & Hxe). pose proof (base_unregister_inv a len h x Hx) as Hb.
  destruct (base_unregister a h) as [st h']. destruct Hb as (-> & Hh' & Hipc & Hal). split_and!; try done.
  { by apply (same_ipc_table _ _ Hipc). }
  destruct ipc; subst x; destruct H as [_ Hl]; rewrite (same_ipc_live _ _ Hipc); done.
Qed.

Lemma host_part_ipc_keys rs x h :
  host_part rs x h -> ipc = true ->
  NoDup (ipc_symm_records_ h).*1 /\ (ipc_symm_records_ h).*1 ≡ₚ rs.*1.
Proof.
  intros Hp Hipc. pose proof (proj2 (host_part_aliases _ _ _ Hp)) as Hap.
  destruct Hp as [Ht H]. rewrite Hipc in H. destruct H as [_ Hl].
  assert (He : (ipc_symm_records_ h).*1 ≡ₚ rs.*1).
  { rewrite (ti_keys _ Ht), <- Hl, <- list_fmap_compose. done. }
  split; [|done]. rewrite He. apply apart_nodup in Hap. rewrite fmap_app in Hap.
  by apply NoDup_app in Hap as (_ & _ & ?).
Qed.

(** Without an IPC record nothing is dropped; with one, its range is unexposed. *)
Lemma drop_ipc_spec rs x a h :
  host_part rs x h ->
  (a ∉ rs.*1 -> drop_ipc a h = h) /\
  forall len rs', rs ≡ₚ (a, len) :: rs' -> x = [] -> host_part rs' [(a, len)] (drop_ipc a h).
Proof.
  intros Hp. unfold drop_ipc. destruct (decide (ipc = true)) as [Hi|Hi].
  2:{ apply not_true_is_false in Hi. rewrite Hi. split; [done|]. intros len rs' Hrs ->.
      destruct Hp as [Ht H]. split; [done|]. rewrite Hi in *. destruct H as [H Hl]. split; [|done].
      eapply host_inv_perm; [exact Hrs|done]. }
  destruct (host_part_ipc_keys _ _ _ Hp Hi) as [Hnd Hk]. rewrite Hi. simpl. split.
  - intros Ha. rewrite <- Hk in Ha. apply assoc_None in Ha. rewrite Ha. done.
  - intros len rs' Hrs ->. pose proof (unregister_ipc_spec a h (proj1 Hp) Hnd) as Hu.
    assert (Hs : is_Some (assoc a (ipc_symm_records_ h))).
    { destruct (assoc a (ipc_symm_records_ h)) eqn:Has; [by eexists|]. apply assoc_None in Has.
      destruct Has. rewrite Hk, Hrs. by left. }
    rewrite bool_decide_eq_true_2 by done.
    pose proof (proj2 (host_part_aliases _ _ _ Hp)) as Hap. simpl in Hap.
    destruct Hp as [Ht H]. rewrite Hi in H. destruct H as [Hh Hl].
    destruct (unregister_ipc_symm_region a h) as [st h']. simpl. split; [|rewrite Hi].
    + destruct Hu as [(_ & Hu & _)|(_ & -> & _)]; done.
    + destruct Hu as [(_ & _ & E1 & E2 & E3 & reg & Hb & Hlive)|(_ & _ & Hno)].
      * assert (Hreg : range_of reg = (a, len) /\ range_of <$> live h' ≡ₚ rs').
        { assert (Hp2 : range_of reg :: (range_of <$> live h') ≡ₚ (a, len) :: rs').
          { rewrite <- Hrs, <- Hl, Hlive. done. }
          assert (He : range_of reg = (a, len)).
          { apply (apart_perm _ _ Hrs), apart_nodup in Hap. simpl in Hap. apply NoDup_cons in Hap as [Hn _].
            assert (Hin : range_of reg ∈ (a, len) :: rs') by (rewrite <- Hp2; by left).
            apply elem_of_cons in Hin as [|Hin]; [done|]. destruct Hn. apply list_elem_of_fmap.
            exists (range_of reg). by rewrite <- Hb. }
          split; [done|]. rewrite He in Hp2. by apply Permutation_cons_inv in Hp2. }
        destruct Hreg as [He Hrs']. split; [|done]. destruct Hh as [J1 J2 J3 J4 J5].
        split; rewrite ?E1, ?E2, ?E3; try done. rewrite J2, Hlive. simpl. by rewrite He.
      * destruct Hno. rewrite <- (ti_keys _ Ht), Hk, Hrs. by left.
Qed.

(** ** The whole state *)

Definition ginv (rows : list row) (s : gda_state) : Prop :=
  nic_inv rows [] [] [] s /\ host_part (row_range <$> rows) [] (host s).

(** A call that changed nothing that is held. *)
Definition nothing_held (s s' : gda_state) : Prop :=
  same_held (host s) (host s') /\ live_mrs s' ≡ₚ live_mrs s /\ live_fds s' ≡ₚ live_fds s /\
  live_handles s' ≡ₚ live_handles s.

Lemma nothing_held_intro rows s s' :
  nic_inv rows [] [] [] s -> nic_inv rows [] [] [] s' -> gda_symm_records_ s' = gda_symm_records_ s ->
  same_held (host s) (host s') -> nothing_held s s'.
Proof.
  intros [] [] Hr Hh. simpl in *. split_and!; [done|..].
  - by rewrite ni_mrs1, ni_mrs0, Hr.
  - by rewrite ni_fds1, ni_fds0, Hr.
  - by rewrite ni_handles1, ni_handles0, Hr.
Qed.

Definition added_row (key len : Z) (ms : list (mr_t * option Z)) (e : nic_env) : row :=
  mkRow key len (gather 1 [key] (gathered_bases e))
    (gather num_nics ((fun m => mr_rkey m.1) <$> ms) (gathered_rkeys e)) ((fun m => mr_lkey m.1) <$> ms).

(** The host state [h0] before a registration whose alias [(a, len)] is mapped in [h]. *)
Definition mapped (a len : Z) (h0 h : SymmTable.state) : Prop :=
  live h = live h0 /\ aliases h ≡ₚ (a, len) :: aliases h0 /\ open_handles h ≡ₚ open_handles h0 /\
  exported h ≡ₚ exported h0.

(** Undoing the host-side registration at the end of a failed call. *)
Lemma undo_spec rows a len h0 s :
  nic_inv rows [] [] [] s -> host_part (row_range <$> rows) [(a, len)] (host s) -> mapped a len h0 (host s) ->
  let s' := set_host (snd (base_unregister a (host s))) s in
  ginv rows s' /\ same_held h0 (host s').
Proof.
  intros Hn Hp (M1 & M2 & M3 & M4). pose proof (host_part_base_unregister _ _ _ _ Hp) as Hu. simpl.
  destruct (base_unregister a (host s)) as [st h']. simpl. destruct Hu as (_ & Hp' & Hipc & Hal).
  split; [split; [by apply nic_inv_host|done]|]. pose proof (same_ipc_live _ _ Hipc) as Hl.
  destruct Hipc as (_ & _ & _ & F4 & F5). split_and!.
  - by rewrite Hl.
  - apply (Permutation_cons_inv (a := (a, len))). by rewrite <- Hal.
  - by rewrite F4.
  - by rewrite F5.
Qed.

Lemma mapped_resources a len h0 h h' : mapped a len h0 h -> same_resources h h' -> mapped a len h0 h'.
Proof.
  intros (M1 & M2 & M3 & M4) (Hs & Hh & Hx). unfold mapped. rewrite Hh, Hx. rewrite Hs.
  by split_and!.
Qed.

Lemma host_part_resources rs x h h' : host_part rs x h -> same_resources h h' -> host_part rs x h'.
Proof.
  intros [Ht H] Hres. split; [by eapply table_inv_resources|].
  assert (Hl : live h' = live h) by (destruct Hres as (-> & _); done).
  destruct ipc; rewrite Hl; split; try apply H; eapply host_inv_resources; [done|apply H|done|apply H].
Qed.

(** Registering over IPC the buffer whose row is published. *)
Lemma host_part_ipc rs a addr len e h :
  host_part rs [(a, len)] h -> ipc = true ->
  let '(st, h') := register_ipc_symm_region a addr len shm_rank e h in
  (st = ROCSHMEM_SUCCESS /\ host_part (rs ++ [(a, len)]) [] h') \/
  (st = ROCSHMEM_ERROR /\ same_resources h h').
Proof.
  intros [Ht H] Hi. unfold host_part. rewrite Hi in *. destruct H as [Hh Hl].
  pose proof (register_ipc_spec a addr len shm_rank e h Ht Hh) as Hr.
  destruct (register_ipc_symm_region a addr len shm_rank e h) as [st h'].
  destruct Hr as [(-> & [Ht' Hh'] & _ & reg & (Ha & Hlen & _) & Hlive)|?]; [left|by right].
  split_and!; try done. rewrite Hlive, fmap_app, Hl. unfold range_of at 1. simpl. by rewrite Ha, Hlen.
Qed.

Lemma swap_remove_last {A} (l : list A) a : swap_remove (length l) (l ++ [a]) = l.
Proof.
  unfold swap_remove. rewrite length_app. simpl. replace (length l + 1 - 1)%nat with (length l) by lia.
  rewrite Nat.eqb_refl. by rewrite take_app_length.
Qed.

Lemma publish_spec rows a addr len ms h e h0 s :
  nic_inv rows (ids ms) (fds ms) (option_list h) s ->
  host_part (row_range <$> rows) [(a, len)] (host s) -> mapped a len h0 (host s) ->
  let '(r, s') := publish addr a len ms h e s in
  match r with
  | Some a' => a' = a /\ ginv (rows ++ [added_row a len ms e]) s'
  | None => ginv rows s' /\ same_held h0 (host s') /\ gda_symm_records_ s' = gda_symm_records_ s
  end.
Proof.
  intros Hn Hp Hm. unfold publish. rewrite <- (ni_count _ _ _ _ _ Hn).
  destruct (Nat.leb_spec symm_capacity (length rows)) as [Hc|Hc].
  { assert (Hrel : nic_inv rows [] [] [] (release_nic ms h s)).
    { apply nic_inv_release. by rewrite !app_nil_r. }
    destruct (undo_spec rows a len h0 (release_nic ms h s) Hrel Hp Hm). by split_and!. }
  pose proof (nic_inv_push rows ms h s (added_row a len ms e) a Hn eq_refl Hc) as Hpush.
  rewrite <- (ni_count _ _ _ _ _ Hn) in Hpush.
  change (fun _ : list QpSymmEntry => new_entry a len (gather 1 [a] (gathered_bases e))
    (gather num_nics ((fun m => mr_rkey m.1) <$> ms) (gathered_rkeys e)) ((fun m => mr_lkey m.1) <$> ms))
    with (fun _ : list QpSymmEntry => entry_of (added_row a len ms e)).
  set (s1 := mkGda _ _ _ _ _ _ _) in *. destruct (decide (ipc = true)) as [Hi|Hi].
  2:{ apply not_true_is_false in Hi. rewrite Hi. split; [done|]. split; [done|]. rewrite fmap_app.
      destruct Hp as [Ht H]. unfold host_part. rewrite Hi in *. split; [done|]. destruct H as [H Hl].
      split; [|done]. eapply host_inv_perm; [|done]. simpl. apply Permutation_cons_append. }
  rewrite Hi. change (host s1) with (host s).
  pose proof (host_part_ipc _ a addr len (henv e) (host s) Hp Hi) as Hr.
  destruct (register_ipc_symm_region a addr len shm_rank (henv e) (host s)) as [st hs].
  destruct Hr as [(-> & Hp')|(-> & Hres)]; simpl negb; cbn iota.
  { split; [done|]. split; [by apply nic_inv_host|]. by rewrite fmap_app. }
  pose proof (nic_unregister_spec _ a (set_host hs s1) (nic_inv_host _ _ _ _ hs _ Hpush)) as Hu.
  destruct (gda_nic_unregister a (set_host hs s1)) as [st s3]. simpl snd.
  destruct Hu as [(_ & Hh3 & i & r & g & Hi3 & Hk & Hn3 & Hg & Hgi & Hrec)|(_ & _ & Hno)].
  - simpl in Hg, Hrec. rewrite Z.eqb_refl in Hg, Hrec. injection Hg as <-. simpl in Hgi. subst i.
    rewrite swap_remove_last in Hn3. rewrite moved_record_id in Hrec.
    + pose proof (undo_spec rows a len h0 s3 Hn3) as Hundo. rewrite Hh3 in Hundo. simpl in Hundo.
      rewrite Hh3. destruct Hundo as [? ?].
      * by eapply host_part_resources.
      * by eapply mapped_resources.
      * by split_and!.
    + rewrite length_app. simpl. rewrite list_elem_of_fmap. intros ([k g] & He & Hin).
      destruct (proj2 (ni_fit _ _ _ _ _ Hn) _ _ Hin) as (? & Hl & _). apply lookup_lt_Some in Hl.
      simpl in He, Hl. lia.
  - destruct Hno. rewrite fmap_app. apply elem_of_app. right. by left.
Qed.

Lemma gda_register_symmetric_spec rows addr len e s :
  ginv rows s -> env_ok addr len (henv e) (host s) ->
  let '(r, s') := gda_register_symmetric addr len e s in
  match r with
  | Some a => new_alias (henv e) = Some a /\
      exists ms, snd <$> nic_answers e = (fun m => Some m.1) <$> ms /\ ginv (rows ++ [added_row a len ms e]) s'
  | None => ginv rows s' /\ nothing_held s s'
  end.
Proof.
  intros [Hn Hp] He. unfold gda_register_symmetric.
  destruct (symm_lengths_match _ _); [|by split; [split|eapply nothing_held_intro]]. simpl negb. cbn iota.
  pose proof (host_part_base_register _ addr len (henv e) (host s) Hp He) as Hb.
  destruct (base_register max_symm_regions addr len (henv e) (host s)) as [[a|] hs].
  2:{ subst hs. simpl. assert (Hs : set_host (host s) s = s) by (by destruct s). rewrite Hs.
      split; [by split|by eapply nothing_held_intro]. }
  destruct Hb as (Ha & Hp1 & Hipc & Hal). change (default 0 (Some a)) with a.
  assert (Hmap : mapped a len (host s) hs).
  { pose proof (same_ipc_live _ _ Hipc). destruct Hipc as (_ & _ & _ & F4 & F5).
    split_and!; [done|by rewrite Hal|by rewrite F4|by rewrite F5]. }
  assert (Hn1 : nic_inv rows [] [] [] (set_host hs s)) by (by apply nic_inv_host).
  destruct (all_pes_succeeded true (other_registered (henv e))); simpl negb; cbn iota.
  2:{ destruct (undo_spec rows a len (host s) (set_host hs s) Hn1 Hp1 Hmap) as [[Hg1 Hg2] Hh].
      split; [by split|]. by eapply nothing_held_intro. }
  set (gen := if is_dmabuf_supported e then retained e else None).
  pose proof (nic_inv_hold rows gen _ Hn1) as Hn2.
  pose proof (register_mrs_spec rows [] [] _ (bool_decide (is_Some gen)) (nic_answers e) _ Hn2) as H3.
  destruct (register_mrs _ _ _) as [[ms ok] s3]. destruct H3 as (Hh3 & Hr3 & Hn3 & Hok).
  rewrite !app_nil_r in Hn3. simpl in Hh3, Hr3. rewrite <- Hh3 in Hp1, Hmap.
  destruct (all_pes_succeeded ok (other_reg_mr e)) eqn:Hall; simpl negb; cbn iota.
  - pose proof (publish_spec rows a addr len ms gen e (host s) s3 Hn3 Hp1 Hmap) as Hpub.
    destruct (publish addr a len ms gen e s3) as [[a'|] s'].
    + destruct Hpub as [-> Hg]. split; [done|]. exists ms. split; [|done]. apply Hok.
      unfold all_pes_succeeded, all_pes_agree in Hall. by apply andb_true_iff in Hall as [? _].
    + destruct Hpub as (Hg & Hh & Hr). split; [done|].
      eapply nothing_held_intro; [exact Hn|apply Hg|congruence|done].
  - assert (Hrel : nic_inv rows [] [] [] (release_nic ms gen s3)).
    { apply nic_inv_release. by rewrite !app_nil_r. }
    destruct (undo_spec rows a len (host s) (release_nic ms gen s3) Hrel Hp1 Hmap) as [[Hg1 Hg2] Hh].
    split; [by split|]. by eapply nothing_held_intro.
Qed.

Lemma gda_unregister_symmetric_spec rows a s :
  ginv rows s ->
  let '(st, s') := gda_unregister_symmetric a s in
  (st = ROCSHMEM_SUCCESS /\ exists i r, rows !! i = Some r /\ row_key r = a /\ ginv (swap_remove i rows) s') \/
  (st = ROCSHMEM_ERROR /\ s' = s /\ a ∉ row_key <$> rows).
Proof.
  intros [Hn Hp]. unfold gda_unregister_symmetric.
  assert (Hkeys : row_key <$> rows = (row_range <$> rows).*1) by (by rewrite <- list_fmap_compose).
  destruct (Z.eqb_spec a 0) as [->|Hnz].
  { right. split_and!; [done|done|]. intros (r & He & Hin)%list_elem_of_fmap.
    pose proof (proj2 (host_part_aliases _ _ _ Hp)) as Hap. simpl in Hap.
    destruct (apart_range _ (row_range r) Hap) as (Hpos & _); [|simpl in Hpos; lia].
    apply list_elem_of_fmap. by exists r. }
  pose proof (nic_unregister_spec rows a (set_host (drop_ipc a (host s)) s) (nic_inv_host _ _ _ _ _ _ Hn)) as Hu.
  destruct (drop_ipc_spec _ _ a _ Hp) as [Hsame Hdrop].
  destruct (gda_nic_unregister a (set_host (drop_ipc a (host s)) s)) as [st s2].
  destruct Hu as [(-> & Hh & i & r & g & Hi & Hk & Hn2 & _)|(-> & -> & Hno)]; simpl negb; cbn iota.
  - assert (Hrs : row_range <$> rows ≡ₚ (a, row_length r) :: (row_range <$> swap_remove i rows)).
    { rewrite (swap_remove_split _ _ _ Hi) at 1. simpl. unfold row_range at 1. by rewrite Hk. }
    specialize (Hdrop _ _ Hrs eq_refl). simpl in Hh. rewrite <- Hh in Hdrop.
    pose proof (host_part_base_unregister _ _ _ _ Hdrop) as Hb.
    destruct (base_unregister a (host s2)) as [st h']. destruct Hb as (-> & Hp' & _).
    left. split; [done|]. exists i, r. split_and!; try done. split; [by apply nic_inv_host|done].
  - right. rewrite Hkeys in Hno |- *. rewrite (Hsame Hno). destruct s. by split_and!.
Qed.

Lemma ginv_init : ginv [] gda_init.
Proof.
  split; [split|]; simpl; try done; try lia.
  - split; [by rewrite length_replicate|]. intros pe n i r _ _ Hi. by rewrite lookup_nil in Hi.
  - split; [constructor|]. by intros k r ?%elem_of_nil.
  - destruct (inv_init max_symm_regions) as [Ht Hh]. split; [done|]. destruct ipc; done.
Qed.

(** ** Releasing everything *)

(** The host side and the driver resources of the records still to go. *)
Definition leftover (rs : list (Z * Z)) (recs : list (Z * GdaSymmRecord)) (s : gda_state) : Prop :=
  host_part rs [] (host s) /\ rs.*1 = recs.*1 /\ live_mrs s ≡ₚ recs ≫= rec_mrs /\
  live_fds s ≡ₚ recs ≫= rec_fds /\ live_handles s ≡ₚ recs ≫= rec_handles.

Lemma leftover_step a len rs kr recs s :
  leftover ((a, len) :: rs) (kr :: recs) s -> leftover rs recs (unregister_one s kr).
Proof.
  intros (Hp & Hk & Hm & Hf & Hh). simpl in Hk. injection Hk as Hk Hks. subst a.
  pose proof (proj2 (drop_ipc_spec _ _ kr.1 _ Hp) len rs ltac:(done) eq_refl) as Hd.
  pose proof (host_part_base_unregister _ _ _ _ Hd) as Hb. unfold unregister_one. simpl.
  destruct (base_unregister kr.1 (drop_ipc kr.1 (host s))) as [st h']. simpl. destruct Hb as (_ & Hp' & _).
  unfold leftover. split_and!; try done; simpl.
  - rewrite remove_fold_ids. by apply remove_all_perm.
  - by apply remove_all_perm.
  - cbn in Hh. unfold rec_handles at 1 in Hh. destruct (gen_handle kr.2) as [x|]; [|done]. simpl in Hh.
    apply (Permutation_cons_inv (a := x)). rewrite <- remove_one_perm; [done|]. rewrite Hh. by left.
Qed.

Lemma leftover_all rs recs s : leftover rs recs s -> leftover [] [] (fold_left unregister_one recs s).
Proof.
  revert rs s. induction recs as [|kr recs IH]; intros [|[a len] rs] s H; simpl; try done.
  - by destruct H as (_ & ? & _).
  - by destruct H as (_ & ? & _).
  - eapply IH, leftover_step, H.
Qed.

Lemma unregister_fold_table recs s :
  symm_count (fold_left unregister_one recs s) = symm_count s /\
  symm_entries (fold_left unregister_one recs s) = symm_entries s.
Proof.
  revert s. induction recs as [|kr recs IH]; intros s; simpl; [done|].
  destruct (IH (unregister_one s kr)) as [-> ->]. done.
Qed.

(** The ranges of the rows in the order of the records. *)
Lemma leftover_start rows s : ginv rows s -> exists rs, leftover rs (gda_symm_records_ s) s.
Proof.
  intros [[] Hp]. simpl in *.
  destruct (Permutation_map_inv fst (row_range <$> rows) (l1 := (gda_symm_records_ s).*1)) as (rs & Hrs & Hperm).
  { rewrite ni_keys0. change (map fst (row_range <$> rows)) with ((row_range <$> rows).*1).
    by rewrite <- list_fmap_compose. }
  exists rs. split; [|by split_and!]. by eapply host_part_perm.
Qed.

Lemma unregister_all_spec rows s :
  ginv rows s -> ginv [] (symmetric_buffer_unregister_all s).
Proof.
  intros Hg. unfold symmetric_buffer_unregister_all. case_bool_decide as Hr.
  { destruct rows as [|r rows]; [done|]. pose proof (ni_keys _ _ _ _ _ (proj1 Hg)) as Hk.
    rewrite Hr in Hk. by apply Permutation_nil_l in Hk. }
  set (s1 := mkGda (host s) 0 (symm_entries s) (gda_symm_records_ s) (live_mrs s) (live_fds s) (live_handles s)).
  destruct (leftover_start _ _ Hg) as (rs & Hl).
  assert (Hl1 : leftover rs (gda_symm_records_ s) s1) by exact Hl.
  apply leftover_all in Hl1. destruct (unregister_fold_table (gda_symm_records_ s) s1) as [Hc Ht].
  destruct Hl1 as (Hp & _ & Hm & Hf & Hh). split; [|done].
  split; simpl; try done; rewrite ?Hc, ?Ht; try done; try lia.
  - split; [apply (ni_table _ _ _ _ _ (proj1 Hg))|]. intros pe n i r _ _ Hi. by rewrite lookup_nil in Hi.
  - split; [constructor|]. by intros k r ?%elem_of_nil.
Qed.

(** ** Histories *)

Inductive gda_step (s : gda_state) : gda_state -> Prop :=
  | gda_step_register addr len e : env_ok addr len (henv e) (host s) ->
      gda_step s (snd (gda_register_symmetric addr len e s))
  | gda_step_unregister addr : gda_step s (snd (gda_unregister_symmetric addr s))
  | gda_step_all : gda_step s (symmetric_buffer_unregister_all s).

Definition gda_reachable (s : gda_state) : Prop := rtc gda_step gda_init s.

Lemma gda_reachable_inv s : gda_reachable s -> exists rows, ginv rows s.
Proof.
  intros Hr. eapply (rtc_invariant gda_step (fun s => exists rows, ginv rows s)); [|exact Hr|].
  - clear. intros s s' [rows Hg] [addr len e He|addr|].
    + pose proof (gda_register_symmetric_spec rows addr len e s Hg He) as H.
      destruct (gda_register_symmetric addr len e s) as [[a|] s1]; simpl.
      * destruct H as (_ & ms & _ & H). by eexists.
      * exists rows. apply H.
    + pose proof (gda_unregister_symmetric_spec rows addr s Hg) as H.
      destruct (gda_unregister_symmetric addr s) as [st s1]; simpl.
      destruct H as [(_ & i & r & _ & _ & H)|(_ & -> & _)]; by eexists.
    + exists []. by eapply unregister_all_spec.
  - exists []. apply ginv_init.
Qed.

(** ** Resolution *)

Lemma find_entry_spec rows pe n x :
  apart (row_range <$> rows) -> 0 <= x < 2 ^ 64 ->
  (forall r, r ∈ rows -> contains (row_range r) x ->
     find_entry x ((fun r => entry_of r pe n) <$> rows) = Some (entry_of r pe n)) /\
  ((forall r, r ∈ rows -> ~ contains (row_range r) x) ->
     find_entry x ((fun r => entry_of r pe n) <$> rows) = None).
Proof.
  intros Hap Hx. induction rows as [|r0 rows IH].
  { split; [|done]. by intros r ?%elem_of_nil. }
  cbn in Hap |- *. apply apart_inv in Hap as (Hok & HF & Hap). destruct (IH Hap) as [IH1 IH2].
  pose proof (is_ptr_in_range_spec (row_key r0) (row_length r0) x ltac:(destruct Hok; simpl in *; lia) Hx) as Hin.
  destruct (is_ptr_in_range (row_key r0) (row_length r0) x); split.
  - intros r [->|Hr]%elem_of_cons Hc; [done|]. rewrite Forall_forall in HF.
    specialize (HF (row_range r) ltac:(apply list_elem_of_fmap; by exists r)).
    assert (Hc0 : contains (row_range r0) x) by (by apply Hin).
    unfold ranges_apart, contains, row_range in *. simpl in *. lia.
  - intros Hno. destruct (Hno r0); [by left|by apply Hin].
  - intros r [->|Hr]%elem_of_cons Hc; [|by apply IH1]. by apply Hin in Hc.
  - intros Hno. apply IH2. intros r Hr. apply Hno. by right.
Qed.

Lemma ginv_apart rows s : ginv rows s -> apart (row_range <$> rows).
Proof. intros [_ Hp]. apply (host_part_aliases _ _ _ Hp). Qed.

Lemma ginv_slice rows s pe n :
  ginv rows s -> (pe < num_pes)%nat -> (n < num_nics)%nat ->
  slice s pe n = (fun r => entry_of r pe n) <$> rows.
Proof. intros [[] _] Hpe Hn. by apply slice_rows. Qed.

(** Two states whose rows agree on the ranges that contain an address resolve it alike. *)
Lemma resolve_same rows rows' s s' q pe n x :
  ginv rows s -> ginv rows' s' -> (pe < num_pes)%nat -> (n < num_nics)%nat -> 0 <= x < 2 ^ 64 ->
  (forall r, contains (row_range r) x -> r ∈ rows <-> r ∈ rows') ->
  get_raddr_info q (slice s' pe n) x = get_raddr_info q (slice s pe n) x.
Proof.
  intros Hg Hg' Hpe Hn Hx Hsame. unfold get_raddr_info.
  rewrite (ginv_slice _ _ _ _ Hg Hpe Hn), (ginv_slice _ _ _ _ Hg' Hpe Hn).
  destruct (find_entry_spec rows pe n x (ginv_apart _ _ Hg) Hx) as [H1 H2].
  destruct (find_entry_spec rows' pe n x (ginv_apart _ _ Hg') Hx) as [H1' H2'].
  destruct (decide (Exists (fun r => contains (row_range r) x) rows)) as [Hex|Hno].
  { apply list.Exists_exists in Hex as (r & Hr & Hc). rewrite (H1 r Hr Hc), (H1' r); [done|by apply Hsame|done]. }
  assert (Hall : forall r, r ∈ rows -> ~ contains (row_range r) x).
  { intros r Hr Hc. apply Hno. apply list.Exists_exists. by exists r. }
  rewrite H2 by done. rewrite H2'; [done|]. intros r Hr Hc. apply (Hall r); [by apply Hsame|done].
Qed.

Lemma gather_nth w own others p j :
  length own = w -> length others = (num_pes * w)%nat -> (my_pe < num_pes)%nat -> (p < num_pes)%nat ->
  (j < w)%nat ->
  nth (p * w + j) (gather w own others) 0 = if (p =? my_pe)%nat then nth j own 0 else nth (p * w + j) others 0.
Proof.
  intros Hown Hoth Hmy Hp Hj. unfold gather.
  assert (Hle : ((my_pe + 1) * w <= num_pes * w)%nat) by nia.
  assert (Htake : length (take (my_pe * w) others) = (my_pe * w)%nat) by (rewrite length_take; lia).
  destruct (Nat.eqb_spec p my_pe) as [->|Hne]; rewrite !nth_lookup; f_equal.
  - rewrite lookup_app_r by lia. rewrite Htake, lookup_app_l by lia. f_equal. lia.
  - destruct (decide (p < my_pe)%nat).
    + assert (p * w + j < my_pe * w)%nat by nia. rewrite lookup_app_l, lookup_take_lt by lia. done.
    + assert ((my_pe + 1) * w <= p * w)%nat by nia.
      rewrite lookup_app_r, Htake by lia. rewrite lookup_app_r, Hown, lookup_drop by lia. f_equal. lia.
Qed.

(** What the driver and the other PEs hand back has the expected sizes. *)
Record nic_env_ok (e : nic_env) : Prop := {
  ne_answers : length (nic_answers e) = num_nics;
  ne_bases : length (gathered_bases e) = num_pes;
  ne_rkeys : length (gathered_rkeys e) = (num_pes * num_nics)%nat
}.

(** The entry of the queue pair for PE [pe] and card [n] after a registration. *)
Lemma added_row_entry a len ms e pe n :
  nic_env_ok e -> snd <$> nic_answers e = (fun m => Some m.1) <$> ms ->
  (my_pe < num_pes)%nat -> (pe < num_pes)%nat -> (n < num_nics)%nat ->
  exists m, snd <$> nic_answers e !! n = Some (Some m) /\
    entry_of (added_row a len ms e) pe n =
    mkEntry a (if (pe =? my_pe)%nat then a else nth pe (gathered_bases e) 0) len
      (if (pe =? my_pe)%nat then mr_rkey m else nth (pe * num_nics + n) (gathered_rkeys e) 0) (mr_lkey m).
Proof.
  intros [E1 E2 E3] Hms Hmy Hpe Hn.
  assert (Hlen : length ms = num_nics) by (apply (f_equal length) in Hms; rewrite !length_fmap in Hms; lia).
  destruct (lookup_lt_is_Some_2 ms n ltac:(lia)) as [[m fd] Hm]. exists m. split.
  { rewrite <- list_lookup_fmap, Hms, list_lookup_fmap, Hm. done. }
  unfold entry_of, new_entry. cbn [row_key row_length row_bases row_rkeys row_lkeys added_row]. f_equal.
  - pose proof (gather_nth 1 [a] (gathered_bases e) pe 0) as Hg. rewrite !Nat.mul_1_r, !Nat.add_0_r in Hg.
    rewrite Hg by (simpl; lia). done.
  - rewrite gather_nth by (rewrite ?length_fmap; lia). destruct (pe =? my_pe)%nat; [|done].
    rewrite nth_lookup, list_lookup_fmap, Hm. done.
  - rewrite nth_lookup, list_lookup_fmap, Hm. done.
Qed.

(** C25: after any history, a successful registration makes each queue pair resolve
    the addresses of the new alias, and only those, to the peer's base and the keys of
    its card; every other address resolves as before.  A call that fails on any PE
    leaves every resolution and every resource held (aliases, handles, memory regions,
    descriptors) as it was. *)
Theorem gda_symm_register_translation (s : gda_state) (addr len : Z) (e : nic_env) :
  gda_reachable s -> env_ok addr len (henv e) (host s) -> nic_env_ok e -> (my_pe < num_pes)%nat ->
  let '(r, s') := gda_register_symmetric addr len e s in
  (r = None -> nothing_held s s') /\
  forall q pe n x, (pe < num_pes)%nat -> (n < num_nics)%nat -> 0 <= x < 2 ^ 64 -> ~ in_heap q x ->
    match r with
    | Some a => new_alias (henv e) = Some a /\
        if decide (a <= x < a + len) then
          exists m, snd <$> nic_answers e !! n = Some (Some m) /\
            get_raddr_info q (slice s' pe n) x =
            (u64 ((if (pe =? my_pe)%nat then a else nth pe (gathered_bases e) 0) + (x - a)),
             if (pe =? my_pe)%nat then mr_rkey m else nth (pe * num_nics + n) (gathered_rkeys e) 0) /\
            e_lkey <$> find_entry x (slice s' pe n) = Some (mr_lkey m)
        else get_raddr_info q (slice s' pe n) x = get_raddr_info q (slice s pe n) x
    | None => get_raddr_info q (slice s' pe n) x = get_raddr_info q (slice s pe n) x
    end.
Proof.
  intros Hr He Hne Hmy. destruct (gda_reachable_inv _ Hr) as [rows Hg].
  pose proof (gda_register_symmetric_spec rows addr len e s Hg He) as H.
  destruct (gda_register_symmetric addr len e s) as [[a|] s'].
  2:{ destruct H as [Hg' Hh]. split; [done|]. intros q pe n x Hpe Hn Hx _. by apply (resolve_same rows rows). }
  split; [done|]. intros q pe n x Hpe Hn Hx Hheap. destruct H as (Ha & ms & Hms & Hg'). split; [done|].
  destruct (decide (a <= x < a + len)) as [Hin|Hout].
  - destruct (added_row_entry a len ms e pe n Hne Hms Hmy Hpe Hn) as (m & Hm & Hent). exists m. split; [done|].
    destruct (find_entry_spec _ pe n x (ginv_apart _ _ Hg') Hx) as [Hf _].
    specialize (Hf (added_row a len ms e)). rewrite Hent in Hf.
    rewrite (ginv_slice _ _ _ _ Hg' Hpe Hn), Hf; [|apply elem_of_app; right; by left|done].
    split; [|done]. unfold get_raddr_info, in_heap in *. apply not_true_is_false in Hheap. rewrite Hheap.
    rewrite Hf; [|apply elem_of_app; right; by left|done]. cbn [e_remote_base e_local_base e_rkey].
    by rewrite wrap_add_r.
  - apply (resolve_same rows (rows ++ [added_row a len ms e])); try done. intros r Hc.
    rewrite elem_of_app, list_elem_of_singleton. split; [by left|]. intros [?| ->]; [done|]. by destruct Hout.
Qed.

(** Unregistration succeeds exactly for the aliases registered; it removes the
    resolution of that buffer's addresses for every queue pair and leaves the others
    as they were, although the last entry of every slice moves.  A call with any other
    address changes nothing. *)
Theorem gda_symm_unregister_translation (s : gda_state) (a : Z) :
  gda_reachable s ->
  let '(st, s') := gda_unregister_symmetric a s in
  (st = ROCSHMEM_SUCCESS <-> a ∈ (gda_symm_records_ s).*1) /\
  (st <> ROCSHMEM_SUCCESS -> s' = s) /\
  (st = ROCSHMEM_SUCCESS -> exists len, (a, len) ∈ aliases (host s) /\
     forall q pe n x, (pe < num_pes)%nat -> (n < num_nics)%nat -> 0 <= x < 2 ^ 64 -> ~ in_heap q x ->
       get_raddr_info q (slice s' pe n) x =
       if decide (a <= x < a + len) then (0, 0) else get_raddr_info q (slice s pe n) x).
Proof.
  intros Hr. destruct (gda_reachable_inv _ Hr) as [rows Hg].
  pose proof (gda_unregister_symmetric_spec rows a s Hg) as H.
  destruct (gda_unregister_symmetric a s) as [st s']. rewrite (ni_keys _ _ _ _ _ (proj1 Hg)).
  destruct H as [(-> & i & r & Hi & Hk & Hg')|(-> & -> & Hno)]; [|by split_and!].
  split_and!; [|done|intros _].
  { split; [|done]. intros _. apply list_elem_of_fmap. exists r. split; [done|]. by eapply list_elem_of_lookup_2. }
  exists (row_length r). pose proof (swap_remove_split _ _ _ Hi) as Hsplit. split.
  { rewrite (proj1 (host_part_aliases _ _ _ (proj2 Hg))). apply list_elem_of_fmap. exists r.
    split; [unfold row_range; by rewrite Hk|]. by eapply list_elem_of_lookup_2. }
  intros q pe n x Hpe Hn Hx Hheap. pose proof (ginv_apart _ _ Hg) as Hap.
  rewrite Hsplit in Hap. apply apart_inv in Hap as (_ & HF & Hap). rewrite Forall_forall in HF.
  destruct (decide (a <= x < a + row_length r)) as [Hin|Hout].
  - unfold get_raddr_info, in_heap in *. apply not_true_is_false in Hheap. rewrite Hheap.
    rewrite (ginv_slice _ _ _ _ Hg' Hpe Hn). destruct (find_entry_spec _ pe n x Hap Hx) as [_ Hf].
    rewrite Hf; [done|]. intros r' Hr' Hc.
    specialize (HF (row_range r') ltac:(apply list_elem_of_fmap; by exists r')).
    unfold ranges_apart, contains, row_range in *. simpl in *. lia.
  - apply (resolve_same rows (swap_remove i rows)); try done. intros r' Hc.
    rewrite (elem_of_Permutation_proper r' _ _ Hsplit), elem_of_cons.
    split; [intros [->|?]; [|done]|by right]. destruct Hout. subst a. exact Hc.
Qed.

(** With no row left nothing is held. *)
Lemma ginv_nil s :
  ginv [] s ->
  live_mrs s = [] /\ live_fds s = [] /\ live_handles s = [] /\ aliases (host s) = [] /\
  open_handles (host s) = [] /\ exported (host s) = [] /\ symm_count s = 0%nat.
Proof.
  intros [[C _ _ _ K M F H] Hp]. simpl in *.
  pose proof (proj1 (host_part_aliases _ _ _ Hp)) as Hal. simpl in Hal.
  assert (Hrec : gda_symm_records_ s = []).
  { apply Permutation_nil_r in K. by apply fmap_nil_inv in K. }
  rewrite Hrec in M, F, H. apply Permutation_nil_r in M, F, H, Hal.
  assert (Hlive : live (host s) = []).
  { destruct Hp as [_ Hp]. destruct ipc; destruct Hp as [_ Hl]; [|done].
    apply Permutation_nil_r in Hl. by apply fmap_nil_inv in Hl. }
  destruct Hp as [[_ _ I3 I4 I5] _]. rewrite Hlive in I3. apply Permutation_nil_r in I3.
  apply fmap_nil_inv in I3. rewrite I3 in I4, I5. apply Permutation_nil_r in I4, I5. by split_and!.
Qed.

(** After any history the memory regions, descriptors and retained handles that are
    live are exactly those of the registered buffers, whose aliases are the live
    mappings and whose number is the published count; [symmetric_buffer_unregister_all]
    releases all of them, the peer mappings and exports of IPC included. *)
Theorem gda_symm_resources (s : gda_state) :
  gda_reachable s ->
  live_mrs s ≡ₚ gda_symm_records_ s ≫= rec_mrs /\ live_fds s ≡ₚ gda_symm_records_ s ≫= rec_fds /\
  live_handles s ≡ₚ gda_symm_records_ s ≫= rec_handles /\
  (gda_symm_records_ s).*1 ≡ₚ (aliases (host s)).*1 /\ length (gda_symm_records_ s) = symm_count s /\
  let s' := symmetric_buffer_unregister_all s in
  live_mrs s' = [] /\ live_fds s' = [] /\ live_handles s' = [] /\ aliases (host s') = [] /\
  open_handles (host s') = [] /\ exported (host s') = [] /\ symm_count s' = 0%nat.
Proof.
  intros Hr. destruct (gda_reachable_inv _ Hr) as [rows Hg].
  pose proof (ginv_nil _ (unregister_all_spec _ _ Hg)) as Hg'. destruct Hg as [[] Hp]. simpl in *.
  pose proof (proj1 (host_part_aliases _ _ _ Hp)) as Hal.
  split; [done|]. split; [done|]. split; [done|]. split; [|split; [|done]].
  - rewrite ni_keys0, Hal. simpl. by rewrite <- list_fmap_compose.
  - apply Permutation_length in ni_keys0. rewrite !length_fmap in ni_keys0. lia.
Qed.

End Gda.

(** ** Witnesses: two PEs with two cards each *)

Definition demo_answer (i : Z) : option Z * option mr_t := (Some (30 + i), Some (mkMr i (100 + i) (200 + i))).

Definition demo_env (a : Z) : nic_env :=
  mkNicEnv (mkEnv [64] true (Some a) [true] true [true] [None; Some 9000] [true]) true (Some 77)
    [demo_answer 1; demo_answer 2] [true] [0; 70000] [0; 0; 501; 502].

(** Aliases are fresh ranges of addresses. *)
Lemma demo_gda_env_ok a s :
  range_ok (a, 64) -> Forall (ranges_apart (a, 64)) (aliases s) -> env_ok 4096 64 (henv (demo_env a)) s.
Proof. intros Hr Hf. split; [lia|]. by intros a' [= <-]. Qed.

Lemma demo_nic_env_ok a : nic_env_ok 2 2 (demo_env a).
Proof. by split. Qed.

Abbreviation demo_gda := (snd (gda_register_symmetric 2 2 4 0 0 true 4096 64 (demo_env 8192) (gda_init 2 2 4))).

Lemma demo_gda_reachable : gda_reachable 2 2 4 0 0 true demo_gda.
Proof.
  apply rtc_once. constructor. apply demo_gda_env_ok; [|constructor]. unfold range_ok. simpl. lia.
Qed.

Definition demo_gda_qp : QueuePair := mkQp 100 10 0 1 2 [] [].

Lemma gda_symm_register_translation_witness :
  let '(r, s') := gda_register_symmetric 2 2 4 0 0 true 4096 64 (demo_env 8192) (gda_init 2 2 4) in
  r = Some 8192 /\ get_raddr_info demo_gda_qp (slice 2 4 s' 1 1) 8200 = (70008, 502).
Proof.
  pose proof (gda_symm_register_translation 2 2 4 0 0 true (gda_init 2 2 4) 4096 64 (demo_env 8192)
    (rtc_refl _ _) (demo_gda_env_ok 8192 (host (gda_init 2 2 4)) ltac:(unfold range_ok; simpl; lia) ltac:(constructor))
    (demo_nic_env_ok 8192) ltac:(lia)) as H.
  assert (Hr : fst (gda_register_symmetric 2 2 4 0 0 true 4096 64 (demo_env 8192) (gda_init 2 2 4)) = Some 8192)
    by (vm_compute; reflexivity).
  destruct (gda_register_symmetric 2 2 4 0 0 true 4096 64 (demo_env 8192) (gda_init 2 2 4)) as [r s'].
  simpl in Hr. subst r. destruct H as [_ H]. split; [reflexivity|].
  destruct (H demo_gda_qp 1%nat 1%nat 8200 ltac:(lia) ltac:(lia) ltac:(lia) ltac:(vm_compute; discriminate)) as [_ Hx].
  rewrite decide_True in Hx by lia. destruct Hx as (m & _ & Hx & _). rewrite Hx. vm_compute. reflexivity.
Defined.

Lemma gda_symm_unregister_translation_witness :
  let '(st, s') := gda_unregister_symmetric 2 2 4 true 8192 demo_gda in
  st = ROCSHMEM_SUCCESS /\ get_raddr_info demo_gda_qp (slice 2 4 s' 1 1) 8200 = (0, 0).
Proof.
  pose proof (gda_symm_unregister_translation 2 2 4 0 0 true demo_gda 8192 demo_gda_reachable) as H.
  assert (Hal : aliases (host demo_gda) = [(8192, 64)]) by (vm_compute; reflexivity).
  assert (Hst : fst (gda_unregister_symmetric 2 2 4 true 8192 demo_gda) = ROCSHMEM_SUCCESS)
    by (vm_compute; reflexivity).
  destruct (gda_unregister_symmetric 2 2 4 true 8192 demo_gda) as [st s']. simpl in Hst. subst st.
  destruct H as (_ & _ & H). destruct (H eq_refl) as (len & Hin & Hx). split; [reflexivity|].
  rewrite Hal in Hin. apply list_elem_of_singleton in Hin. injection Hin as ->.
  rewrite Hx; [|lia|lia|lia|vm_compute; discriminate]. by rewrite decide_True by lia.
Defined.

Lemma gda_symm_resources_witness :
  live_mrs demo_gda = [2; 1] /\ live_mrs (symmetric_buffer_unregister_all true demo_gda) = [].
Proof.
  pose proof (gda_symm_resources 2 2 4 0 0 true demo_gda demo_gda_reachable) as (_ & _ & _ & _ & _ & H & _).
  split; [vm_compute; reflexivity|exact H].
Defined.
