(* ===== verification/Network.v ===== *)
(** * Processes that exchange messages

    Processes run straight-line programs of sends, receives and local copies over
    reliable first-in first-out channels, one for each sender, receiver and socket.
    A send hands the message over and then waits until the buffers of the connection
    hold what the receiver has not read ([Socket::send] of src/bootstrap/socket.cpp
    returns when all bytes are accepted); [room] is the number of whole messages that
    these buffers hold.  The steps of two processes commute, so a program either completes under every
    schedule, with the same result, or under none; the theorems of [Bootstrap] build
    on this. *)

From Stdlib Require Import Lia.
From stdpp Require Import base option numbers list gmap.
From S2P Require Import Prelude.

Open Scope nat_scope.

(** A buffer and a slice of it. *)
Definition loc : Type := nat * nat.

(** The ring socket, or the socket of a tag. *)
Definition sock : Type := option nat.

Inductive action :=
  | Send (l : loc) (to : nat) (s : sock)
  | Flush (to : nat) (s : sock)
  | Recv (l : loc) (from : nat) (s : sock)
  | Copy (dst src : loc)
  | Zero (l : loc).

(** [Socket::send]. *)
Definition send (l : loc) (to : nat) (s : sock) : list action := [Send l to s; Flush to s].

Section Network.

Context {D : Type} (zero : D) (room : nat).

Record net := mkNet {
  progs : gmap nat (list action);
  mem : gmap (nat * loc) D;
  chans : gmap (nat * nat * sock) (list D)
}.

(** The messages in flight from [a] to [b] on socket [s]. *)
Definition chan (n : net) (a b : nat) (s : sock) : list D := default [] (chans n !! (a, b, s)).

Definition set_chan (a b : nat) (s : sock) (q : list D) (n : net) : net :=
  mkNet (progs n) (mem n) (<[(a, b, s) := q]> (chans n)).

Definition set_mem (r : nat) (l : loc) (x : D) (n : net) : net :=
  mkNet (progs n) (<[(r, l) := x]> (mem n)) (chans n).

Definition set_prog (r : nat) (p : list action) (n : net) : net :=
  mkNet (<[r := p]> (progs n)) (mem n) (chans n).

(** The effect of one action of process [r]; [None] when it has to wait. *)
Definition act (r : nat) (a : action) (n : net) : option net :=
  match a with
  | Send l to s => x ← mem n !! (r, l); Some (set_chan r to s (chan n r to s ++ [x]) n)
  | Flush to s => if length (chan n r to s) <=? room then Some n else None
  | Recv l from s =>
      match chan n from r s with
      | [] => None
      | x :: q => Some (set_mem r l x (set_chan from r s q n))
      end
  | Copy dst src => x ← mem n !! (r, src); Some (set_mem r dst x n)
  | Zero l => Some (set_mem r l zero n)
  end.

Definition exec (r : nat) (n : net) : option net :=
  match progs n !! r with
  | Some (a :: rest) => set_prog r rest <$> act r a n
  | _ => None
  end.

(** Executing the processes in the order of a schedule. *)
Fixpoint run (rs : list nat) (n : net) : option net :=
  match rs with
  | [] => Some n
  | r :: rs' => n1 ← exec r n; run rs' n1
  end.

Definition finished (n : net) : Prop := forall r p, progs n !! r = Some p -> p = [].

(** ** Frame properties *)

Lemma chan_set_chan_eq a b s q n : chan (set_chan a b s q n) a b s = q.
Proof. unfold chan. simpl. by rewrite lookup_insert_eq. Qed.

Lemma chan_set_chan_ne a b s q n a' b' s' :
  (a', b', s') <> (a, b, s) -> chan (set_chan a b s q n) a' b' s' = chan n a' b' s'.
Proof. intros H. unfold chan. simpl. by rewrite lookup_insert_ne by congruence. Qed.

Lemma act_progs r a n n' : act r a n = Some n' -> progs n' = progs n.
Proof.
  destruct a; simpl.
  - destruct (mem n !! _); [|done]. by intros [= <-].
  - case_match; [|done]. by intros [= <-].
  - destruct (chan n _ _ _); [done|]. by intros [= <-].
  - destruct (mem n !! _); [|done]. by intros [= <-].
  - by intros [= <-].
Qed.

Lemma act_set_prog r r' p a n : act r a (set_prog r' p n) = set_prog r' p <$> act r a n.
Proof.
  destruct a; simpl; [by destruct (mem n !! _)| | |by destruct (mem n !! _)|done]; unfold chan; simpl; [by case_match|].
  by destruct (default [] _).
Qed.

(** What an action of process [r] leaves alone. *)
Lemma act_mem_other r a n n' r' l : act r a n = Some n' -> r' <> r -> mem n' !! (r', l) = mem n !! (r', l).
Proof.
  intros H Hne. destruct a; simpl in H.
  - destruct (mem n !! _); [|done]. by injection H as <-.
  - case_match; [|done]. by injection H as <-.
  - destruct (chan n _ _ _); [done|]. injection H as <-. simpl. by rewrite lookup_insert_ne by congruence.
  - destruct (mem n !! _); [|done]. injection H as <-. simpl. by rewrite lookup_insert_ne by congruence.
  - injection H as <-. simpl. by rewrite lookup_insert_ne by congruence.
Qed.

(** ** Steps of different processes commute *)

Lemma net_eq n n' : progs n = progs n' -> mem n = mem n' -> chans n = chans n' -> n = n'.
Proof. destruct n, n'. simpl. congruence. Qed.

Ltac commute_net :=
  simpl; f_equal; apply net_eq; simpl; try done; apply insert_insert_ne; congruence.

(** Local actions commute with everything of another process. *)
Lemma set_mem_act r l x r' a n n' :
  r' <> r -> act r' a n = Some n' -> act r' a (set_mem r l x n) = Some (set_mem r l x n').
Proof.
  intros Hne H. destruct a; simpl in *.
  - rewrite lookup_insert_ne by congruence. destruct (mem n !! _); [|done]. by injection H as <-.
  - change (chan (set_mem r l x n) ?a ?b ?t) with (chan n a b t). case_match; [|done]. by injection H as <-.
  - unfold chan in *. simpl. destruct (default [] _); [done|]. injection H as <-. commute_net.
  - rewrite lookup_insert_ne by congruence. destruct (mem n !! _); [|done]. injection H as <-. commute_net.
  - injection H as <-. commute_net.
Qed.

(** A change at one end of a channel commutes with an action of another process that
    does not touch the channel. *)
Definition touches (r : nat) (a : action) (k : nat * nat * sock) : Prop :=
  match a with
  | Send _ to s | Flush to s => k = (r, to, s)
  | Recv _ from s => k = (from, r, s)
  | _ => False
  end.

Lemma set_chan_act x y s q r a n n' :
  ~ touches r a (x, y, s) -> act r a n = Some n' -> act r a (set_chan x y s q n) = Some (set_chan x y s q n').
Proof.
  intros Hno H. destruct a; simpl in *.
  - destruct (mem n !! _); [|done]. injection H as <-. simpl. rewrite chan_set_chan_ne by congruence. commute_net.
  - rewrite chan_set_chan_ne by congruence. case_match; [|done]. by injection H as <-.
  - rewrite chan_set_chan_ne by congruence. destruct (chan n _ _ _); [done|]. injection H as <-. commute_net.
  - destruct (mem n !! _); [|done]. by injection H as <-.
  - by injection H as <-.
Qed.

Lemma act_chan_other r a n n' x y s :
  ~ touches r a (x, y, s) -> act r a n = Some n' -> chan n' x y s = chan n x y s.
Proof.
  intros Hno H. destruct a; simpl in *.
  - destruct (mem n !! _); [|done]. injection H as <-. by apply chan_set_chan_ne.
  - case_match; [|done]. by injection H as <-.
  - destruct (chan n _ _ _); [done|]. injection H as <-. by apply chan_set_chan_ne.
  - destruct (mem n !! _); [|done]. by injection H as <-.
  - by injection H as <-.
Qed.

#[local] Instance touches_dec r a k : Decision (touches r a k).
Proof. destruct a; simpl; apply _. Defined.

(** A send and the receive at the other end of its channel. *)
Lemma send_recv_diamond a b s l l' n n1 n2 :
  a <> b -> act a (Send l b s) n = Some n1 -> act b (Recv l' a s) n = Some n2 ->
  exists n3, act b (Recv l' a s) n1 = Some n3 /\ act a (Send l b s) n2 = Some n3.
Proof.
  intros Hne H1 H2. simpl in *. destruct (mem n !! (a, l)) as [x|] eqn:Hx; [|done]. injection H1 as <-.
  destruct (chan n a b s) as [|y q] eqn:Hq; [done|]. injection H2 as <-. simpl.
  rewrite chan_set_chan_eq. simpl. rewrite lookup_insert_ne by congruence. rewrite Hx. simpl.
  unfold set_mem at 3. unfold chan. simpl. rewrite lookup_insert_eq. simpl.
  eexists. split; [done|]. f_equal. apply net_eq; simpl; try done. by rewrite !insert_insert_eq.
Qed.

(** A receive makes room. *)
Lemma flush_recv a b s l n n1 n2 :
  act a (Flush b s) n = Some n1 -> act b (Recv l a s) n = Some n2 -> n1 = n /\ act a (Flush b s) n2 = Some n2.
Proof.
  simpl. case_match eqn:E; [|done]. intros [= <-]. destruct (chan n a b s) as [|y q] eqn:Hq; [done|]. intros [= <-]. split; [done|].
  change (chan (set_mem b l y ?m) ?x ?z ?t) with (chan m x z t). rewrite chan_set_chan_eq.
  apply Nat.leb_le in E. cbn [length] in E. by rewrite (proj2 (Nat.leb_le _ _)) by lia.
Qed.

Lemma act_diamond r r' a a' n n1 n2 :
  r <> r' -> act r a n = Some n1 -> act r' a' n = Some n2 ->
  exists n3, act r' a' n1 = Some n3 /\ act r a n2 = Some n3.
Proof.
  intros Hne H1 H2. destruct a as [l to s|to s|l from s|dst src|l].
  - destruct (decide (touches r' a' (r, to, s))) as [Ht|Ht].
    + destruct a' as [| |l' from' s'| |]; simpl in Ht; try done; [congruence|congruence|].
      injection Ht as <- -> <-. by eapply send_recv_diamond.
    + pose proof (act_chan_other _ _ _ _ _ _ _ Ht H2) as Hc. pose proof (act_mem_other _ _ _ _ r l H2 Hne) as Hm.
      simpl in H1 |- *. rewrite Hm. destruct (mem n !! (r, l)) as [x|]; [|done]. injection H1 as <-. simpl.
      rewrite Hc. eexists. split; [by apply set_chan_act|done].
  - destruct (decide (touches r' a' (r, to, s))) as [Ht|Ht].
    + destruct a' as [| |l' from' s'| |]; simpl in Ht; try done; [congruence|congruence|].
      injection Ht as <- -> <-. destruct (flush_recv _ _ _ _ _ _ _ H1 H2) as [-> ?]. by exists n2.
    + pose proof (act_chan_other _ _ _ _ _ _ _ Ht H2) as Hc. simpl in H1 |- *. rewrite Hc. case_match; [|done]. injection H1 as <-. by exists n2.
  - destruct (decide (touches r' a' (from, r, s))) as [Ht|Ht].
    + destruct a' as [l' to' s'|to' s'| | |]; simpl in Ht; try done; [| |congruence].
      2:{ injection Ht as -> <- <-. destruct (flush_recv _ _ _ _ _ _ _ H2 H1) as [-> ?]. by exists n1. }
      injection Ht as -> <- <-. destruct (send_recv_diamond r' r s l' l n n2 n1) as (n3 & ? & ?); eauto.
    + pose proof (act_chan_other _ _ _ _ _ _ _ Ht H2) as Hc. simpl in H1 |- *. rewrite Hc.
      destruct (chan n from r s) as [|x q]; [done|]. injection H1 as <-.
      eexists. split; [|done]. apply set_mem_act; [done|]. by apply set_chan_act.
  - pose proof (act_mem_other _ _ _ _ r src H2 Hne) as Hm. simpl in H1 |- *. rewrite Hm.
    destruct (mem n !! (r, src)) as [x|]; [|done]. injection H1 as <-. simpl.
    eexists. split; [|done]. by apply set_mem_act.
  - simpl in H1 |- *. injection H1 as <-. eexists. split; [|done]. by apply set_mem_act.
Qed.

Lemma exec_Some r n n' :
  exec r n = Some n' <->
  exists a rest n1, progs n !! r = Some (a :: rest) /\ act r a n = Some n1 /\ n' = set_prog r rest n1.
Proof.
  unfold exec. destruct (progs n !! r) as [[|a rest]|]; split.
  1,5: done. 1,4: naive_solver.
  - destruct (act r a n) as [n1|] eqn:Ha; [|done]. simpl. intros [= <-]. naive_solver.
  - intros (? & ? & n1 & [= <- <-] & -> & ->). done.
Qed.

Lemma exec_diamond r r' n n1 n2 :
  r <> r' -> exec r n = Some n1 -> exec r' n = Some n2 ->
  exists n3, exec r' n1 = Some n3 /\ exec r n2 = Some n3.
Proof.
  rewrite !exec_Some. intros Hne (a & rest & m1 & Hp & Ha & ->) (a' & rest' & m2 & Hp' & Ha' & ->).
  destruct (act_diamond _ _ _ _ _ _ _ Hne Ha Ha') as (m3 & H1 & H2).
  pose proof (act_progs _ _ _ _ Ha) as E1. pose proof (act_progs _ _ _ _ Ha') as E2.
  exists (set_prog r' rest' (set_prog r rest m3)). rewrite !exec_Some. split.
  - exists a', rest', (set_prog r rest m3). simpl. rewrite lookup_insert_ne, E1 by done.
    by rewrite act_set_prog, H1.
  - exists a, rest, (set_prog r' rest' m3). simpl. rewrite lookup_insert_ne, E2 by done.
    rewrite act_set_prog, H2. split_and!; try done. apply net_eq; simpl; try done.
    apply insert_insert_ne. done.
Qed.

(** ** One complete execution determines them all *)

Lemma run_app rs rs' n : run (rs ++ rs') n = run rs n ≫= run rs'.
Proof. revert n. induction rs as [|r rs IH]; intros n; simpl; [done|]. destruct (exec r n); simpl; auto. Qed.

Lemma run_reorder rs n f r n1 :
  run rs n = Some f -> finished f -> exec r n = Some n1 ->
  exists rs', run rs' n1 = Some f /\ length rs = S (length rs').
Proof.
  revert n n1. induction rs as [|r0 rs IH]; intros n n1 Hrun Hf Hr; simpl in Hrun.
  - injection Hrun as ->. apply exec_Some in Hr as (a & rest & ? & Hp & _). by apply Hf in Hp.
  - destruct (exec r0 n) as [n0|] eqn:H0; [|done]. simpl in Hrun.
    destruct (decide (r0 = r)) as [->|Hne].
    + assert (n0 = n1) as -> by congruence. by exists rs.
    + destruct (exec_diamond r0 r n n0 n1 Hne H0 Hr) as (n3 & H3 & H3').
      destruct (IH n0 n3 Hrun Hf H3) as (rs' & Hrs' & Hlen). exists (r0 :: rs'). simpl. rewrite H3'. simpl.
      split; [done|lia].
Qed.

(** If some schedule completes all programs, then every schedule can be continued to
    the same final state, in the same total number of steps. *)
Lemma run_confluent rs n f rs1 n1 :
  run rs n = Some f -> finished f -> run rs1 n = Some n1 ->
  exists rs2, run rs2 n1 = Some f /\ length rs = (length rs1 + length rs2)%nat.
Proof.
  revert rs n. induction rs1 as [|r rs1 IH]; intros rs n Hrun Hf H1; simpl in H1.
  - injection H1 as <-. by exists rs.
  - destruct (exec r n) as [n0|] eqn:Hr; [|done]. simpl in H1.
    destruct (run_reorder rs n f r n0 Hrun Hf Hr) as (rs' & Hrs' & Hlen).
    destruct (IH rs' n0 Hrs' Hf H1) as (rs2 & H2 & Hlen2). exists rs2. simpl. split; [done|lia].
Qed.

(** ** Messages are neither lost nor invented *)

Fixpoint sends (b : nat) (s : sock) (p : list action) : nat :=
  match p with
  | [] => 0
  | Send _ to s' :: p' => (if decide ((to, s') = (b, s)) then 1 else 0) + sends b s p'
  | _ :: p' => sends b s p'
  end.

Fixpoint recvs (a : nat) (s : sock) (p : list action) : nat :=
  match p with
  | [] => 0
  | Recv _ from s' :: p' => (if decide ((from, s') = (a, s)) then 1 else 0) + recvs a s p'
  | _ :: p' => recvs a s p'
  end.

Definition prog (n : net) (r : nat) : list action := default [] (progs n !! r).

Lemma prog_set_prog r p n r' : prog (set_prog r p n) r' = if decide (r' = r) then p else prog n r'.
Proof.
  unfold prog. simpl. destruct (decide (r' = r)) as [->|]; [by rewrite lookup_insert_eq|].
  by rewrite lookup_insert_ne by done.
Qed.

(** What process [a] still has to send, what is in flight and what process [b] still
    has to receive change together. *)
Lemma exec_balance a b s r n n' :
  exec r n = Some n' ->
  length (chan n' a b s) + sends b s (prog n' a) + recvs a s (prog n b) =
  length (chan n a b s) + sends b s (prog n a) + recvs a s (prog n' b).
Proof.
  intros (x & rest & m & Hp & Ha & ->)%exec_Some.
  assert (Hr : prog n r = x :: rest) by (unfold prog; by rewrite Hp).
  assert (Hm : forall r', prog m r' = prog n r') by (intros r'; unfold prog; by rewrite (act_progs _ _ _ _ Ha)).
  rewrite !prog_set_prog, !Hm. change (chan (set_prog r rest m) a b s) with (chan m a b s).
  destruct (decide (touches r x (a, b, s))) as [Ht|Ht].
  - destruct x as [l to s'|to s'|l from s'| |]; simpl in Ht; try done; simpl in Ha.
    + injection Ht as -> -> ->. destruct (mem n !! _); [|done]. injection Ha as <-.
      rewrite chan_set_chan_eq, length_app, Hr. rewrite (decide_True _ _ (eq_refl r)). simpl.
      destruct (decide ((to, s') = (to, s'))); [|done].
      destruct (decide (to = r)) as [->|]; [|lia]. rewrite Hr. simpl. lia.
    + injection Ht as -> -> ->. case_match; [|done]. injection Ha as <-. rewrite (decide_True _ _ (eq_refl r)), Hr. simpl.
      destruct (decide (to = r)) as [->|]; [|lia]. rewrite Hr. simpl. lia.
    + injection Ht as -> -> ->. destruct (chan n from r s') as [|y q] eqn:Hq; [done|]. injection Ha as <-.
      unfold set_mem, chan. simpl. rewrite lookup_insert_eq. simpl. rewrite Hr.
      rewrite (decide_True _ _ (eq_refl r)). simpl. destruct (decide ((from, s') = (from, s'))); [|done].
      destruct (decide (from = r)) as [->|]; [|lia]. rewrite Hr. simpl. lia.
  - rewrite (act_chan_other _ _ _ _ _ _ _ Ht Ha).
    assert (Hs : a = r -> sends b s (x :: rest) = sends b s rest).
    { intros ->. destruct x; try done. simpl. rewrite decide_False; [done|]. simpl in Ht. congruence. }
    assert (Hv : b = r -> recvs a s (x :: rest) = recvs a s rest).
    { intros ->. destruct x; try done. simpl. rewrite decide_False; [done|]. simpl in Ht. congruence. }
    destruct (decide (a = r)) as [->|], (decide (b = r)) as [->|];
      rewrite ?Hr, ?Hs, ?Hv by done; lia.
Qed.

Lemma run_balance a b s rs n n' :
  run rs n = Some n' ->
  length (chan n' a b s) + sends b s (prog n' a) + recvs a s (prog n b) =
  length (chan n a b s) + sends b s (prog n a) + recvs a s (prog n' b).
Proof.
  revert n. induction rs as [|r rs IH]; intros n; simpl; [intros [= <-]; lia|].
  destruct (exec r n) as [n1|] eqn:Hr; [|done]. simpl. intros Hrun. specialize (IH n1 Hrun).
  pose proof (exec_balance a b s r n n1 Hr). lia.
Qed.

(** Programs only shrink. *)
Lemma run_suffix rs n n' r : run rs n = Some n' -> prog n' r `suffix_of` prog n r.
Proof.
  revert n. induction rs as [|r0 rs IH]; intros n; simpl; [by intros [= <-]|].
  destruct (exec r0 n) as [n1|] eqn:Hr; [|done]. simpl. intros Hrun. etrans; [by apply IH|].
  apply exec_Some in Hr as (x & rest & m & Hp & Ha & ->). rewrite prog_set_prog.
  unfold prog. rewrite (act_progs _ _ _ _ Ha). destruct (decide (r = r0)) as [->|]; [|done].
  rewrite Hp. simpl. by exists [x].
Qed.

End Network.
