(* ===== verification/Bootstrap.v ===== *)
(** * Bootstrap collectives

    Model of the host-side collectives of [src/bootstrap/bootstrap.cpp]: the ring
    [TcpBootstrap::allGather] and [barrier], [groupAllGather] (for a list of ranks and
    for a strided team), [groupAlltoall] and [groupBarrier], each as the program of
    sends and receives that one rank runs over the channels of [Network], where a send
    blocks until its message is in the buffers of the connection; the exchange
    of addresses through the root that builds the ring; the discovery of the ranks of
    a node and of a pod.  A rank that is not a member of the group is an error
    ([None]), which the code turns into an abort. *)

From Stdlib Require Import ZArith Lia.
From stdpp Require Import base option numbers list gmap.
From S2P Require Import Prelude Network.

Open Scope nat_scope.

(** ** Programs *)

(** Buffers: the caller's, the temporary one of a call, [barrierArr_]. *)
Abbreviation data := 0.
Abbreviation tmp := 1.
Abbreviation barrierArr := 2.

(** The loop that looks for this rank in the list. *)
Fixpoint index_of (rank : nat) (ranks : list nat) : option nat :=
  match ranks with
  | [] => None
  | r :: ranks' => if rank =? r then Some 0 else S <$> index_of rank ranks'
  end.

(** The rounds of a ring at position [pos] of [n]; [to] and [from] are the neighbours. *)
Definition ring_rounds (b pos n to from : nat) (tag : nat -> sock) : list action :=
  i ← seq 0 (n - 1);
  send (b, (pos + n - i) mod n) to (tag i) ++ [Recv (b, (pos + n - i - 1) mod n) from (tag i)].

Definition groupAllGather (rank : nat) (ranks : list nat) : option (list action) :=
  rank_pos ← index_of rank ranks;
  let nRanks := length ranks in
  let sendto := (rank_pos + 1 + nRanks) mod nRanks in
  let recvfrom := (rank_pos + nRanks - 1) mod nRanks in
  Some (ring_rounds data rank_pos nRanks (nth sendto ranks 0) (nth recvfrom ranks 0) Some).

(** The variant for a strided team, in the arithmetic of [int]. *)
Definition groupAllGather_strided (rank rank_start rank_stride rank_count : Z) : option (list action) :=
  (let rank_pos := if 0 <? rank_stride then Z.quot (rank - rank_start) rank_stride else -1 in
  if (rank_count <=? 0) || (rank_pos <? 0) || (rank_count <=? rank_pos) ||
     negb (rank_start + rank_pos * rank_stride =? rank)
  then None
  else
    let sendto := (rank_pos + 1) mod rank_count in
    let recvfrom := (rank_pos - 1 + rank_count) mod rank_count in
    Some (i ← seq 0 (Z.to_nat (rank_count - 1));
      send (data, Z.to_nat ((rank_pos - Z.of_nat i + rank_count) mod rank_count))
         (Z.to_nat (rank_start + sendto * rank_stride)) (Some i) ++
      [Recv (data, Z.to_nat ((rank_pos - Z.of_nat i - 1 + rank_count) mod rank_count))
         (Z.to_nat (rank_start + recvfrom * rank_stride)) (Some i)]))%Z.

(** [TcpBootstrap::Impl::allGather] over the ring sockets, on any buffer. *)
Definition allGather (b rank nRanks : nat) : list action :=
  ring_rounds b rank nRanks ((rank + 1) mod nRanks) ((rank + nRanks - 1) mod nRanks) (fun _ => None).

Definition barrier (rank nRanks : nat) : list action := allGather barrierArr rank nRanks.

Definition groupAlltoall (rank : nat) (ranks : list nat) : option (list action) :=
  rank_pos ← index_of rank ranks;
  let num_pes := length ranks in
  Some
    ((i ← seq 0 num_pes; [Zero (tmp, i)]) ++
     (step ← seq 1 (num_pes - 1);
        let sendto := (rank_pos + step) mod num_pes in
        let recvfrom := (rank_pos + num_pes - step) mod num_pes in
        send (data, sendto) (nth sendto ranks 0) (Some step) ++
        [Recv (tmp, recvfrom) (nth recvfrom ranks 0) (Some step)]) ++
     (step ← seq 0 num_pes; if step =? rank_pos then [] else [Copy (data, step) (tmp, step)])).

(** [dummy] is the temporary buffer. *)
Definition groupBarrier (rank : nat) (ranks : list nat) : list action :=
  [Zero (tmp, 0)] ++
  (r ← ranks; if r =? rank then [] else send (tmp, 0) r (Some 0)) ++
  (r ← ranks; if r =? rank then [] else [Recv (tmp, 0) r (Some 0)]).

(** ** Views of a group

    The state of the members of a group, by position: programs, buffers, messages. *)

Section Group.

Context {D : Type} (zero : D) (room : nat) (ranks : list nat) (Hnd : NoDup ranks).

Abbreviation n := (length ranks).
Abbreviation net := (@net D).

(** The rank at a position. *)
Definition rk (p : nat) : nat := nth p ranks 0.

Definition wf (l : loc) : Prop := l.1 < 3 /\ l.2 < n.

Definition view (s : net) (P : nat -> list action) (M : nat -> loc -> D) (C : nat -> nat -> sock -> list D) : Prop :=
  (forall p, p < n -> progs s !! rk p = Some (P p)) /\
  (forall p l, p < n -> wf l -> mem s !! (rk p, l) = Some (M p l)) /\
  (forall p q t, p < n -> q < n -> chan s (rk p) (rk q) t = C p q t).

Definition quiet (p q : nat) (t : sock) : list D := [].

Definition at_ (P : nat -> list action) (M : nat -> loc -> D) (s : net) : Prop := view s P M quiet.

Definition reach (s s' : net) : Prop := exists rs, run zero room rs s = Some s'.

Lemma reach_refl s : reach s s.
Proof. by exists []. Qed.

Lemma reach_trans s1 s2 s3 : reach s1 s2 -> reach s2 s3 -> reach s1 s3.
Proof. intros [rs H] [rs' H']. exists (rs ++ rs'). by rewrite run_app, H. Qed.

Lemma reach_step r s s1 s2 : exec zero room r s = Some s1 -> reach s1 s2 -> reach s s2.
Proof. intros H [rs H']. exists (r :: rs). simpl. by rewrite H. Qed.

Lemma view_ext s P P' M M' C C' :
  view s P M C -> (forall p, p < n -> P' p = P p) -> (forall p l, p < n -> wf l -> M' p l = M p l) ->
  (forall p q t, p < n -> q < n -> C' p q t = C p q t) -> view s P' M' C'.
Proof.
  intros (H1 & H2 & H3) HP HM HC. split_and!; intros.
  - by rewrite HP, H1.
  - by rewrite HM, H2.
  - by rewrite HC, H3.
Qed.

Lemma rk_lookup p : p < n -> ranks !! p = Some (rk p).
Proof. intros Hp. unfold rk. destruct (lookup_lt_is_Some_2 ranks p Hp) as [r Hr]. by rewrite (nth_lookup_Some _ _ _ _ Hr). Qed.

Lemma rk_inj p q : p < n -> q < n -> rk p = rk q -> p = q.
Proof using Hnd.
  intros Hp Hq He. apply (NoDup_lookup ranks p q (rk p)); [done|by apply rk_lookup|].
  rewrite He. by apply rk_lookup.
Qed.

(** Updates of views. *)
Definition updP (P : nat -> list action) (p : nat) (x : list action) : nat -> list action :=
  fun p' => if decide (p' = p) then x else P p'.

Definition updM (M : nat -> loc -> D) (p : nat) (l : loc) (x : D) : nat -> loc -> D :=
  fun p' l' => if decide (p' = p /\ l' = l) then x else M p' l'.

Definition updC (C : nat -> nat -> sock -> list D) (p q : nat) (t : sock) (x : list D)
  : nat -> nat -> sock -> list D :=
  fun p' q' t' => if decide (p' = p /\ q' = q /\ t' = t) then x else C p' q' t'.

Lemma view_act s P M C p a rest s1 M' C' :
  view s P M C -> p < n -> P p = a :: rest -> act zero room (rk p) a s = Some s1 ->
  (forall p' l, p' < n -> wf l -> mem s1 !! (rk p', l) = Some (M' p' l)) ->
  (forall p' q t, p' < n -> q < n -> chan s1 (rk p') (rk q) t = C' p' q t) ->
  exists s', exec zero room (rk p) s = Some s' /\ view s' (updP P p rest) M' C'.
Proof using Hnd.
  intros (H1 & H2 & H3) Hp HP Ha HM HC. exists (set_prog (rk p) rest s1). split.
  - apply exec_Some. exists a, rest, s1. by rewrite H1, HP.
  - split_and!; [|done|done]. intros p' Hp'. unfold updP. simpl. destruct (decide (p' = p)) as [->|Hne].
    + by rewrite lookup_insert_eq.
    + rewrite lookup_insert_ne by (intros He; apply Hne; by apply rk_inj).
      rewrite (act_progs _ _ _ _ _ _ Ha). by apply H1.
Qed.

Lemma view_send s P M C p q l t rest :
  view s P M C -> p < n -> q < n -> wf l -> P p = Send l (rk q) t :: rest ->
  exists s', exec zero room (rk p) s = Some s' /\ view s' (updP P p rest) M (updC C p q t (C p q t ++ [M p l])).
Proof using Hnd.
  intros Hv Hp Hq Hl HP. pose proof Hv as (H1 & H2 & H3).
  assert (Ha : act zero room (rk p) (Send l (rk q) t) s =
    Some (set_chan (rk p) (rk q) t (chan s (rk p) (rk q) t ++ [M p l]) s)) by (simpl; by rewrite H2 by done).
  apply (view_act _ _ _ _ _ _ _ _ _ _ Hv Hp HP Ha); [by apply H2|].
  intros p' q' t' Hp' Hq'. unfold updC. destruct (decide (p' = p /\ q' = q /\ t' = t)) as [(-> & -> & ->)|Hne].
  - by rewrite chan_set_chan_eq, H3.
  - rewrite chan_set_chan_ne; [by apply H3|]. intros [= E1 E2 ->]. apply Hne. split_and!; by try apply rk_inj.
Qed.

Lemma view_flush s P M C p q t rest :
  view s P M C -> p < n -> q < n -> P p = Flush (rk q) t :: rest -> length (C p q t) <= room ->
  exists s', exec zero room (rk p) s = Some s' /\ view s' (updP P p rest) M C.
Proof using Hnd.
  intros Hv Hp Hq HP Hle. pose proof Hv as (H1 & H2 & H3).
  assert (Ha : act zero room (rk p) (Flush (rk q) t) s = Some s) by (simpl; rewrite H3 by done; by rewrite (proj2 (Nat.leb_le _ _))).
  by apply (view_act _ _ _ _ _ _ _ _ _ _ Hv Hp HP Ha).
Qed.

Lemma view_recv s P M C p q l t rest x c :
  view s P M C -> p < n -> q < n -> wf l -> P p = Recv l (rk q) t :: rest -> C q p t = x :: c ->
  exists s', exec zero room (rk p) s = Some s' /\ view s' (updP P p rest) (updM M p l x) (updC C q p t c).
Proof using Hnd.
  intros Hv Hp Hq Hl HP Hc. pose proof Hv as (H1 & H2 & H3).
  assert (Ha : act zero room (rk p) (Recv l (rk q) t) s = Some (set_mem (rk p) l x (set_chan (rk q) (rk p) t c s)))
    by (simpl; by rewrite H3, Hc by done).
  apply (view_act _ _ _ _ _ _ _ _ _ _ Hv Hp HP Ha).
  - intros p' l' Hp' Hl'. unfold updM. simpl. destruct (decide (p' = p /\ l' = l)) as [[-> ->]|Hne].
    + by rewrite lookup_insert_eq.
    + rewrite lookup_insert_ne; [by apply H2|]. intros [= E ->]. apply Hne. split; [|done]. by apply rk_inj.
  - intros p' q' t' Hp' Hq'. change (chan (set_mem (rk p) l x ?m) ?a ?b ?t) with (chan m a b t). unfold updC.
    destruct (decide (p' = q /\ q' = p /\ t' = t)) as [(-> & -> & ->)|Hne].
    + by rewrite chan_set_chan_eq.
    + rewrite chan_set_chan_ne; [by apply H3|]. intros [= E1 E2 ->]. apply Hne. split_and!; by try apply rk_inj.
Qed.

(** What a local action writes. *)
Definition eval (a : action) (m : loc -> D) : loc -> D :=
  match a with
  | Copy dst src => fun l => if decide (l = dst) then m src else m l
  | Zero dst => fun l => if decide (l = dst) then zero else m l
  | _ => m
  end.

Definition local (a : action) : Prop :=
  match a with Copy dst src => wf dst /\ wf src | Zero l => wf l | _ => False end.

Lemma view_local s P M C p a rest :
  view s P M C -> p < n -> local a -> P p = a :: rest ->
  exists s', exec zero room (rk p) s = Some s' /\
    view s' (updP P p rest) (fun p' => if decide (p' = p) then eval a (M p) else M p') C.
Proof using Hnd.
  intros Hv Hp Ha HP. pose proof Hv as (H1 & H2 & H3).
  assert (Hw : forall dst x, view s P M C -> forall p' l, p' < n -> wf l ->
    mem (set_mem (rk p) dst x s) !! (rk p', l) =
    Some (if decide (p' = p) then (if decide (l = dst) then x else M p l) else M p' l)).
  { intros dst x _ p' l Hp' Hl. simpl. destruct (decide (p' = p)) as [->|Hne].
    - destruct (decide (l = dst)) as [->|]; [by rewrite lookup_insert_eq|].
      rewrite lookup_insert_ne by congruence. by apply H2.
    - rewrite lookup_insert_ne; [by apply H2|]. intros [= E _]. apply Hne. by apply rk_inj. }
  destruct a as [| | |dst src|dst]; try done.
  - destruct Ha as [Hd Hs].
    assert (Ha : act zero room (rk p) (Copy dst src) s = Some (set_mem (rk p) dst (M p src) s))
      by (simpl; by rewrite H2 by done).
    apply (view_act _ _ _ _ _ _ _ _ _ _ Hv Hp HP Ha); [|done].
    intros p' l Hp' Hl. rewrite Hw by done. by case_decide.
  - apply (view_act _ _ _ _ _ _ _ _ _ _ Hv Hp HP (eq_refl _)); [|done]. intros p' l Hp' Hl. rewrite Hw by done. by case_decide.
Qed.

(** ** Phases: every member in turn *)

Lemma each k0 (I : nat -> net -> Prop) s :
  I 0 s -> (forall k s, k < k0 -> I k s -> exists s', reach s s' /\ I (S k) s') ->
  exists s', reach s s' /\ I k0 s'.
Proof.
  intros H0 Hstep. assert (Hk : forall k, k <= k0 -> exists s', reach s s' /\ I k s'); [|by apply Hk].
  induction k as [|k IH]; intros Hle; [exists s; split; [apply reach_refl|done]|].
  destruct IH as (s1 & Hr & HI); [lia|]. destruct (Hstep k s1) as (s2 & Hr2 & HI2); [lia|done|].
  exists s2. split; [by eapply reach_trans|done].
Qed.

(** The buffers of a connection hold a message. *)
Definition message_fits : Prop := 1 <= room.

Hypothesis Hroom : message_fits.

(** A send on an empty channel returns. *)
Lemma send_one s P M C p q l t rest :
  view s P M C -> p < n -> q < n -> wf l -> C p q t = [] -> P p = send l (rk q) t ++ rest ->
  exists s', reach s s' /\ view s' (updP P p rest) M (updC C p q t [M p l]).
Proof using Hnd Hroom.
  intros Hv Hp Hq Hl HC HP. destruct (view_send s P M C p q l t (Flush (rk q) t :: rest) Hv Hp Hq Hl HP) as (s1 & He1 & H1).
  destruct (view_flush s1 _ _ _ p q t rest H1 Hp Hq) as (s2 & He2 & H2).
  - unfold updP. by rewrite decide_True.
  - unfold updC. rewrite decide_True by done. rewrite HC. simpl. exact Hroom.
  - exists s2. split; [by eapply reach_step; [|eapply reach_step; [|apply reach_refl]]|]. eapply view_ext; [exact H2|..].
    + intros p' _. unfold updP. by case_decide.
    + done.
    + intros p' q' t' _ _. unfold updC. case_decide; [by rewrite HC|done].
Qed.

(** Case analysis on the tests of two views; a refuted test contradicts what is known. *)
Ltac contra :=
  exfalso; destruct_and?; subst;
  match goal with H : ~ (_ /\ _) |- _ => apply H; clear H; split_and!; solve [done | lia | congruence] end.

Ltac view_cases :=
  unfold updP, updM, updC; repeat case_decide; destruct_and?; subst; try done; try lia; try contra.

(** One round in which every member sends one message along a permutation [f] of the
    positions and receives the one sent to it; [g] is the inverse of [f]. *)
Lemma exchange s P M f g ls lr t rest :
  at_ P M s -> (forall p, p < n -> f p < n /\ g p < n /\ f (g p) = p /\ g (f p) = p /\ wf (ls p) /\ wf (lr p)) ->
  (forall p, p < n -> P p = send (ls p) (rk (f p)) t ++ Recv (lr p) (rk (g p)) t :: rest p) ->
  exists s', reach s s' /\
    at_ rest (fun p l => if decide (l = lr p) then M (g p) (ls (g p)) else M p l) s'.
Proof using Hnd Hroom.
  intros Hv Hfg HP.
  set (sent k s := view s (fun p => if decide (p < k) then Recv (lr p) (rk (g p)) t :: rest p else P p) M
    (fun p q t' => if decide (p < k /\ q = f p /\ t' = t) then [M p (ls p)] else [])).
  set (got k s := view s (fun p => if decide (p < k) then rest p else Recv (lr p) (rk (g p)) t :: rest p)
    (fun p l => if decide (p < k /\ l = lr p) then M (g p) (ls (g p)) else M p l)
    (fun p q t' => if decide (q = f p /\ t' = t /\ k <= q) then [M p (ls p)] else [])).
  destruct (each n sent s) as (s1 & Hr1 & H1).
  { eapply view_ext; [exact Hv|..]; intros; view_cases. }
  { intros k s0 Hk H0. destruct (Hfg k Hk) as (Hf & _ & _ & _ & Hls & _).
    destruct (send_one s0 _ _ _ k (f k) (ls k) t (Recv (lr k) (rk (g k)) t :: rest k) H0 Hk Hf Hls) as (s' & Hr & Hs').
    { by rewrite decide_False by lia. }
    { rewrite decide_False by lia. by apply HP. }
    exists s'. split; [done|].
    eapply view_ext; [exact Hs'|intros p ?|done|intros p q t' ? ?]; destruct (decide (p = k)); view_cases. }
  destruct (each n got s1) as (s2 & Hr2 & H2).
  { eapply view_ext; [exact H1|..]; intros; view_cases. }
  { intros k s0 Hk H0. destruct (Hfg k Hk) as (_ & Hg & Hfg1 & _ & _ & Hlr).
    destruct (view_recv s0 _ _ _ k (g k) (lr k) t (rest k) (M (g k) (ls (g k))) [] H0 Hk Hg Hlr) as (s' & He & Hs').
    { by rewrite decide_False by lia. }
    { rewrite decide_True by (split_and!; [done|done|lia]). done. }
    exists s'. split; [eapply reach_step; [exact He|apply reach_refl]|].
    eapply view_ext; [exact Hs'|intros p ?|intros p l ? ?|intros p q t' Hp Hq].
    - destruct (decide (p = k)); view_cases.
    - destruct (decide (p = k)); view_cases.
    - destruct (Hfg p Hp) as (_ & _ & _ & Hgf & _). destruct (decide (q = k)); view_cases. }
  exists s2. split; [by eapply reach_trans|]. eapply view_ext; [exact H2|..]; intros; view_cases.
Qed.

(** ** Local phases *)

Definition evals (l : list action) (m : loc -> D) : loc -> D := fold_left (fun m a => eval a m) l m.

Lemma locals_one s P M C p acts rest :
  view s P M C -> p < n -> Forall local acts -> P p = acts ++ rest ->
  exists s', reach s s' /\
    view s' (updP P p rest) (fun p' => if decide (p' = p) then evals acts (M p) else M p') C.
Proof using Hnd.
  intros Hv Hp Hl. revert s P M Hv. induction Hl as [|a acts Ha Hl IH]; intros s P M Hv HP; simpl in HP.
  { exists s. split; [apply reach_refl|]. eapply view_ext; [exact Hv|..]; intros; view_cases. }
  destruct (view_local s P M C p a (acts ++ rest) Hv Hp Ha HP) as (s1 & He & H1).
  destruct (IH s1 _ _ H1) as (s2 & Hr & H2); [unfold updP; by rewrite decide_True|].
  exists s2. split; [by eapply reach_step|]. eapply view_ext; [exact H2|..]; intros; view_cases.
Qed.

Lemma locals s P M C acts rest :
  view s P M C -> (forall p, p < n -> Forall local (acts p) /\ P p = acts p ++ rest p) ->
  exists s', reach s s' /\ view s' rest (fun p => evals (acts p) (M p)) C.
Proof using Hnd.
  intros Hv HP.
  destruct (each n (fun k s => view s (fun p => if decide (p < k) then rest p else P p)
    (fun p => if decide (p < k) then evals (acts p) (M p) else M p) C) s) as (s' & Hr & H').
  { eapply view_ext; [exact Hv|..]; intros; view_cases. }
  { intros k s0 Hk H0. destruct (HP k Hk) as [Hloc Heq].
    destruct (locals_one s0 _ _ _ k (acts k) (rest k) H0 Hk Hloc) as (s' & Hr & Hs').
    { by rewrite decide_False by lia. }
    exists s'. split; [done|]. eapply view_ext; [exact Hs'|intros p ?|intros p l ? ?|done];
      destruct (decide (p = k)); view_cases. }
  exists s'. split; [done|]. eapply view_ext; [exact H'|..]; intros; view_cases.
Qed.

(** ** Rounds of a ring *)

Lemma mod_below x : x < 2 * n -> x mod n = if decide (x < n) then x else x - n.
Proof.
  intros Hx. case_decide; [by apply Nat.mod_small|]. symmetry. apply (Nat.mod_unique x n 1); lia.
Qed.

(** Innermost reductions first. *)
Ltac mods :=
  repeat match goal with
  | |- context [Nat.modulo ?x (length ranks)] =>
      lazymatch x with
      | context [Nat.modulo _ _] => fail
      | _ => rewrite (mod_below x) by lia; destruct (decide (x < length ranks))
      end
  end; try lia.

(** What a gathering collective leaves in buffer [b]. *)
Definition gathered (b : nat) (M : nat -> loc -> D) (p : nat) (l : loc) : D :=
  if decide (l.1 = b) then M l.2 l else M p l.

Lemma seq_cons i k : 0 < k -> seq i k = i :: seq (S i) (k - 1).
Proof. intros Hk. destruct k as [|k]; [lia|]. simpl. by rewrite Nat.sub_0_r. Qed.

Lemma ring_reach b tag s P M rest :
  at_ P M s -> b < 3 ->
  (forall p, p < n -> P p = ring_rounds b p n (rk ((p + 1) mod n)) (rk ((p + n - 1) mod n)) tag ++ rest p) ->
  exists s', reach s s' /\ at_ rest (gathered b M) s'.
Proof using Hnd Hroom.
  intros Hv Hb HP.
  set (after i s := at_ (fun p => (j ← seq i (n - 1 - i);
      send (b, (p + n - j) mod n) (rk ((p + 1) mod n)) (tag j) ++
      [Recv (b, (p + n - j - 1) mod n) (rk ((p + n - 1) mod n)) (tag j)]) ++ rest p)
    (fun p l => if decide (l.1 = b /\ (p + n - l.2) mod n <= i) then M l.2 l else M p l) s).
  destruct (each (n - 1) after s) as (s' & Hr & H').
  - eapply view_ext; [exact Hv|..]; [| |done].
    + intros p Hp. rewrite HP by done. unfold ring_rounds. by rewrite Nat.sub_0_r.
    + intros p l Hp [_ Hl]. case_decide as Hc; [|done]. destruct Hc as [_ Hc]. assert (He : l.2 = p); [|by rewrite He].
      revert Hc. mods.
  - intros i s0 Hi H0. edestruct (exchange s0 _ _ (fun p => (p + 1) mod n) (fun p => (p + n - 1) mod n)
      (fun p => (b, (p + n - i) mod n)) (fun p => (b, (p + n - i - 1) mod n)) (tag i)
      (fun p => (j ← seq (S i) (n - 1 - S i);
      send (b, (p + n - j) mod n) (rk ((p + 1) mod n)) (tag j) ++
      [Recv (b, (p + n - j - 1) mod n) (rk ((p + n - 1) mod n)) (tag j)]) ++ rest p) H0) as (s1 & Hr1 & H1).
    + intros p Hp. unfold wf. simpl. split_and!; mods.
    + intros p Hp. rewrite seq_cons by lia. by replace (n - 1 - S i) with (n - 1 - i - 1) by lia.
    + exists s1. split; [done|]. eapply view_ext; [exact H1|done| |done].
      intros p l Hp [_ Hl]. simpl. destruct l as [b' j]. simpl in *.
      destruct (decide (b' = b)) as [->|Hb']; [|repeat case_decide; destruct_and?; simplify_eq; done].
      destruct (decide ((b, j) = (b, (p + n - i - 1) mod n))) as [He|He].
      * assert (Hj : j = (p + n - i - 1) mod n) by congruence.
        assert (F1 : (p + n - j) mod n <= S i) by (subst j; mods).
        assert (F2 : ((p + n - 1) mod n + n - i) mod n = j) by (subst j; mods).
        assert (F3 : ((p + n - 1) mod n + n - j) mod n <= i) by (subst j; mods).
        rewrite F2. by rewrite !decide_True.
      * assert (Hj : (p + n - j) mod n <> S i).
        { intros Hj. apply He. f_equal. revert Hj. mods. }
        repeat case_decide; destruct_and?; try done; contra.
  - exists s'. split; [done|]. eapply view_ext; [exact H'|..]; [| |done].
    + intros p Hp. by rewrite Nat.sub_diag.
    + intros p l Hp [_ Hl]. unfold gathered. assert (Hoff : (p + n - l.2) mod n <= n - 1).
      { pose proof (Nat.mod_upper_bound (p + n - l.2) n). lia. }
      destruct (decide (l.1 = b)); [by rewrite decide_True|]. by rewrite decide_False by (by intros []).
Qed.

(** ** All-to-all *)

Lemma evals_app l l' m : evals (l ++ l') m = evals l' (evals l m).
Proof. apply fold_left_app. Qed.

Lemma evals_zero k m l :
  evals (i ← seq 0 k; [Zero (tmp, i)]) m l = if decide (l.1 = tmp /\ l.2 < k) then zero else m l.
Proof.
  induction k as [|k IH]; [by rewrite decide_False by lia|]. rewrite seq_S, bind_app, evals_app. simpl.
  destruct l as [b j]. destruct (decide ((b, j) = (tmp, k))) as [[= -> ->]|He].
  - by rewrite !decide_True by (simpl; done || lia).
  - rewrite decide_False by done. rewrite IH. simpl. destruct (decide (j = k)); repeat case_decide; destruct_and?; subst; done || contra.
Qed.

Lemma evals_copy pos k m l :
  evals (step ← seq 0 k; if step =? pos then [] else [Copy (data, step) (tmp, step)]) m l =
  if decide (l.1 = data /\ l.2 < k /\ l.2 <> pos) then m (tmp, l.2) else m l.
Proof.
  revert l. induction k as [|k IH]; intros l; [by rewrite decide_False by lia|].
  rewrite seq_S, bind_app, evals_app. simpl. destruct l as [b j].
  destruct (Nat.eqb_spec k pos) as [->|Hk]; simpl.
  - rewrite IH. simpl. destruct (decide (j = pos)); repeat case_decide; destruct_and?; subst; done || contra.
  - destruct (decide ((b, j) = (data, k))) as [[= -> ->]|He].
    + rewrite decide_True by done. rewrite IH, decide_False by (simpl; lia).
      by rewrite decide_True by (simpl; lia).
    + rewrite decide_False by done. rewrite IH. simpl. destruct (decide (j = k)); repeat case_decide; destruct_and?; subst; done || contra.
Qed.

(** What the exchange leaves: slice [q] of the caller's buffer comes from member [q]. *)
Definition exchanged (M : nat -> loc -> D) (p : nat) (l : loc) : D :=
  if decide (l.1 = data) then (if decide (l.2 = p) then M p l else M l.2 (data, p))
  else if decide (l.1 = tmp) then (if decide (l.2 = p) then zero else M l.2 (data, p))
  else M p l.

(** The three parts of the program at a position. *)
Definition zeros : list action := i ← seq 0 n; [Zero (tmp, i)].

Definition rounds (p : nat) : list action :=
  step ← seq 1 (n - 1);
  send (data, (p + step) mod n) (rk ((p + step) mod n)) (Some step) ++
  [Recv (tmp, (p + n - step) mod n) (rk ((p + n - step) mod n)) (Some step)].

Definition copies (p : nat) : list action :=
  step ← seq 0 n; if step =? p then [] else [Copy (data, step) (tmp, step)].

Lemma alltoall_rounds s P M rest :
  at_ P M s ->
  (forall p, p < n -> P p = rounds p ++ rest p) ->
  exists s', reach s s' /\
    at_ rest (fun p l => if decide (l.1 = tmp /\ l.2 <> p) then M l.2 (data, p) else M p l) s'.
Proof using Hnd Hroom.
  intros Hv HP.
  set (after i s := at_ (fun p => (step ← seq (S i) (n - 1 - i);
     send (data, (p + step) mod n) (rk ((p + step) mod n)) (Some step) ++
     [Recv (tmp, (p + n - step) mod n) (rk ((p + n - step) mod n)) (Some step)]) ++ rest p)
    (fun p l => if decide (l.1 = tmp /\ l.2 <> p /\ (p + n - l.2) mod n <= i) then M l.2 (data, p) else M p l) s).
  destruct (each (n - 1) after s) as (s' & Hr & H').
  - eapply view_ext; [exact Hv|..]; [| |done].
    + intros p Hp. rewrite HP by done. by rewrite Nat.sub_0_r.
    + intros p l Hp [_ Hl]. rewrite decide_False; [done|]. intros (_ & Hne & Hc). revert Hc. mods.
  - intros i s0 Hi H0. edestruct (exchange s0 _ _ (fun p => (p + S i) mod n) (fun p => (p + n - S i) mod n)
      (fun p => (data, (p + S i) mod n)) (fun p => (tmp, (p + n - S i) mod n)) (Some (S i))
      (fun p => (step ← seq (S (S i)) (n - 1 - S i);
     send (data, (p + step) mod n) (rk ((p + step) mod n)) (Some step) ++
     [Recv (tmp, (p + n - step) mod n) (rk ((p + n - step) mod n)) (Some step)]) ++ rest p) H0) as (s1 & Hr1 & H1).
    + intros p Hp. unfold wf. simpl. split_and!; mods.
    + intros p Hp. rewrite seq_cons by lia. by replace (n - 1 - S i) with (n - 1 - i - 1) by lia.
    + exists s1. split; [done|]. eapply view_ext; [exact H1|done| |done].
      intros p [b j] Hp [_ Hl]. simpl in *.
      destruct (decide ((b, j) = (tmp, (p + n - S i) mod n))) as [He|He].
      * injection He as -> Hj.
        assert (F1 : (p + n - j) mod n <= S i) by (subst j; mods).
        assert (F2 : ((p + n - S i) mod n + S i) mod n = p) by mods.
        assert (F3 : j <> p) by (subst j; mods).
        rewrite F2, <- Hj. rewrite decide_True by done. by rewrite decide_True.
      * assert (Hj : b = tmp -> (p + n - j) mod n <> S i).
        { intros -> Hj. apply He. f_equal. revert Hj. mods. }
        repeat case_decide; destruct_and?; try done; exfalso; [|contra].
        specialize (Hj ltac:(done)). contra.
  - exists s'. split; [done|]. eapply view_ext; [exact H'|..]; [| |done].
    + intros p Hp. by rewrite Nat.sub_diag.
    + intros p l Hp [_ Hl]. assert (Hoff : (p + n - l.2) mod n <= n - 1).
      { pose proof (Nat.mod_upper_bound (p + n - l.2) n). lia. }
      repeat case_decide; destruct_and?; try done; contra.
Qed.

Lemma alltoall_reach s P M rest :
  at_ P M s -> (forall p, p < n -> P p = zeros ++ rounds p ++ copies p ++ rest p) ->
  exists s', reach s s' /\ at_ rest (exchanged M) s'.
Proof using Hnd Hroom.
  intros Hv HP.
  destruct (locals s P M quiet (fun _ => zeros) (fun p => rounds p ++ copies p ++ rest p) Hv) as (s1 & Hr1 & H1).
  { intros p Hp. split; [|exact (HP p Hp)]. apply Forall_forall. intros a Ha.
    apply list_elem_of_bind in Ha as (i & Ha & Hi). apply list_elem_of_singleton in Ha as ->.
    apply elem_of_seq in Hi. unfold local, wf. simpl. lia. }
  destruct (alltoall_rounds s1 _ _ (fun p => copies p ++ rest p) H1) as (s2 & Hr2 & H2); [done|].
  destruct (locals s2 _ _ quiet copies rest H2) as (s3 & Hr3 & H3).
  { intros p Hp. split; [|done]. apply Forall_forall. intros a Ha.
    apply list_elem_of_bind in Ha as (i & Ha & Hi). apply elem_of_seq in Hi.
    destruct (i =? p); [by apply elem_of_nil in Ha|]. apply list_elem_of_singleton in Ha as ->.
    unfold local, wf. simpl. lia. }
  exists s3. split; [by eapply reach_trans; [|eapply reach_trans]|].
  eapply view_ext; [exact H3|done| |done]. intros p [b j] Hp [_ Hl]. simpl in *. unfold copies, zeros. rewrite evals_copy. simpl.
  rewrite !evals_zero. unfold exchanged. simpl.
  repeat case_decide; destruct_and?; subst; try done; try lia; contra.
Qed.

(** ** Barrier *)

Definition to_others (p : nat) (qs : list nat) : list action :=
  q ← qs; if q =? p then [] else send (tmp, 0) (rk q) (Some 0).

Definition from_others (p : nat) (qs : list nat) : list action :=
  q ← qs; if q =? p then [] else [Recv (tmp, 0) (rk q) (Some 0)].

Lemma sends_one s P M C p qs rest :
  view s P M C -> p < n -> NoDup qs -> Forall (fun q => q < n) qs -> P p = to_others p qs ++ rest ->
  (forall q, q ∈ qs -> q <> p -> C p q (Some 0) = []) ->
  exists s', reach s s' /\ view s' (updP P p rest) M
    (fun p' q t => if decide (p' = p /\ q ∈ qs /\ q <> p /\ t = Some 0) then [M p (tmp, 0)] else C p' q t).
Proof using Hnd Hroom.
  intros Hv Hp. revert s P C Hv. induction qs as [|q qs IH]; intros s P C Hv Hnq HF HP HC.
  { exists s. split; [apply reach_refl|]. eapply view_ext; [exact Hv|intros; view_cases|done|].
    intros p' q t' _ _. rewrite decide_False; [done|]. intros (_ & Hin & _). by apply elem_of_nil in Hin. }
  apply NoDup_cons in Hnq as [Hq Hnq]. apply Forall_cons in HF as [Hqn HF]. cbn in HP.
  destruct (Nat.eqb_spec q p) as [->|Hne]; simpl in HP.
  - destruct (IH s P C Hv Hnq HF HP) as (s1 & Hr & H1); [intros; apply HC; set_solver|]. exists s1. split; [done|].
    eapply view_ext; [exact H1|done|done|]. intros p' q t' _ _.
    repeat case_decide; destruct_and?; try done; exfalso; set_solver.
  - destruct (send_one s P M C p q (tmp, 0) (Some 0) (to_others p qs ++ rest) Hv Hp Hqn ltac:(unfold wf; simpl; lia)
      (HC q ltac:(set_solver) Hne) HP) as (s1 & Hr1 & H1).
    destruct (IH s1 _ _ H1 Hnq HF) as (s2 & Hr & H2); [unfold updP; by rewrite decide_True| |].
    { intros q' Hq' Hne'. unfold updC. rewrite decide_False; [apply HC; set_solver|]. intros (_ & -> & _). done. }
    exists s2. split; [by eapply reach_trans|]. eapply view_ext; [exact H2|..].
    + intros; view_cases.
    + done.
    + intros p' q' t' _ _. unfold updC. repeat case_decide; destruct_and?; subst; try done; exfalso; set_solver.
Qed.

Lemma recvs_one s P M C p qs rest x :
  view s P M C -> p < n -> NoDup qs -> Forall (fun q => q < n) qs -> P p = from_others p qs ++ rest ->
  M p (tmp, 0) = x -> (forall q, q ∈ qs -> q <> p -> C q p (Some 0) = [x]) ->
  exists s', reach s s' /\ view s' (updP P p rest) M
    (fun q p' t => if decide (p' = p /\ q ∈ qs /\ q <> p /\ t = Some 0) then [] else C q p' t).
Proof using Hnd Hroom.
  intros Hv Hp. revert s P C Hv. induction qs as [|q qs IH]; intros s P C Hv Hnq HF HP Hx HC.
  { exists s. split; [apply reach_refl|]. eapply view_ext; [exact Hv|intros; view_cases|done|].
    intros p' q t' _ _. rewrite decide_False; [done|]. intros (_ & Hin & _). by apply elem_of_nil in Hin. }
  apply NoDup_cons in Hnq as [Hq Hnq]. apply Forall_cons in HF as [Hqn HF]. cbn in HP.
  destruct (Nat.eqb_spec q p) as [->|Hne]; simpl in HP.
  - destruct (IH s P C Hv Hnq HF HP Hx) as (s1 & Hr & H1); [intros; apply HC; set_solver|].
    exists s1. split; [done|]. eapply view_ext; [exact H1|done|done|]. intros p' q t' _ _.
    repeat case_decide; destruct_and?; try done; exfalso; set_solver.
  - destruct (view_recv s P M C p q (tmp, 0) (Some 0) _ x [] Hv Hp Hqn ltac:(unfold wf; simpl; lia) HP)
      as (s1 & He & H1); [apply HC; set_solver|].
    assert (H1' : view s1 (updP P p (from_others p qs ++ rest)) M (updC C q p (Some 0) [])).
    { eapply view_ext; [exact H1|done| |done]. intros p' l _ _. view_cases. }
    destruct (IH s1 _ _ H1' Hnq HF) as (s2 & Hr & H2).
    + unfold updP; by rewrite decide_True.
    + done.
    + intros q' Hq' Hne'. unfold updC. rewrite decide_False; [apply HC; set_solver|]. intros (-> & _). done.
    + exists s2. split; [by eapply reach_step|]. eapply view_ext; [exact H2|..].
      * intros; view_cases.
      * done.
      * intros p' q' t' _ _. unfold updC. repeat case_decide; destruct_and?; subst; try done; exfalso; set_solver.
Qed.

Definition met (M : nat -> loc -> D) (p : nat) (l : loc) : D := if decide (l = (tmp, 0)) then zero else M p l.

Lemma barrier_reach s P M rest :
  at_ P M s ->
  (forall p, p < n -> P p = [Zero (tmp, 0)] ++ to_others p (seq 0 n) ++ from_others p (seq 0 n) ++ rest p) ->
  exists s', reach s s' /\ at_ rest (met M) s'.
Proof using Hnd Hroom.
  intros Hv HP.
  destruct (locals s P M quiet (fun _ => [Zero (tmp, 0)])
    (fun p => to_others p (seq 0 n) ++ from_others p (seq 0 n) ++ rest p) Hv) as (s1 & Hr1 & H1).
  { intros p Hp. split; [|by apply HP]. constructor; [|constructor]. unfold local, wf. simpl. lia. }
  assert (H1' : at_ (fun p => to_others p (seq 0 n) ++ from_others p (seq 0 n) ++ rest p) (met M) s1) by exact H1.
  clear H1. assert (Hall : Forall (fun q => q < n) (seq 0 n)).
  { apply Forall_forall. intros q Hq. apply elem_of_seq in Hq. lia. }
  assert (Hin : forall q, q < n -> q ∈ seq 0 n) by (intros q Hq; apply elem_of_seq; lia).
  set (sent k s := view s (fun p => if decide (p < k) then from_others p (seq 0 n) ++ rest p
      else to_others p (seq 0 n) ++ from_others p (seq 0 n) ++ rest p) (met M)
    (fun p q t => if decide (p < k /\ q <> p /\ t = Some 0) then [zero] else [])).
  set (got k s := view s (fun p => if decide (p < k) then rest p else from_others p (seq 0 n) ++ rest p) (met M)
    (fun p q t => if decide (k <= q /\ q <> p /\ t = Some 0) then [zero] else [])).
  destruct (each n sent s1) as (s2 & Hr2 & H2).
  { eapply view_ext; [exact H1'|..]; intros; view_cases. }
  { intros k s0 Hk H0. destruct (sends_one s0 _ _ _ k (seq 0 n) (from_others k (seq 0 n) ++ rest k) H0 Hk (NoDup_seq _ _) Hall)
      as (s' & Hr & Hs'); [by rewrite decide_False by lia|intros q _ _; by rewrite decide_False by lia|].
    exists s'. split; [done|]. eapply view_ext; [exact Hs'|intros p Hp|done|intros p q t' Hp Hq].
    - destruct (decide (p = k)); view_cases.
    - specialize (Hin q Hq). unfold met. destruct (decide (p = k)); view_cases. }
  destruct (each n got s2) as (s3 & Hr3 & H3).
  { eapply view_ext; [exact H2|..]; intros; view_cases. }
  { intros k s0 Hk H0. destruct (recvs_one s0 _ _ _ k (seq 0 n) (rest k) zero H0 Hk (NoDup_seq _ _) Hall)
      as (s' & Hr & Hs').
    - by rewrite decide_False by lia.
    - done.
    - intros q Hq Hne. apply elem_of_seq in Hq. by rewrite decide_True by (split_and!; [lia|done|done]).
    - exists s'. split; [done|]. eapply view_ext; [exact Hs'|intros p Hp|done|intros p q t' Hp Hq].
      + destruct (decide (p = k)); view_cases.
      + specialize (Hin p Hp). destruct (decide (q = k)); view_cases. }
  exists s3. split; [by eapply reach_trans; [|eapply reach_trans]|].
  eapply view_ext; [exact H3|..]; intros; view_cases.
Qed.

(** ** Calls of one group *)

Inductive call :=
  | CallAllGather                  (* [groupAllGather] *)
  | CallAlltoall                   (* [groupAlltoall] *)
  | CallBarrier                    (* [groupBarrier] *)
  | CallRing (b : nat).            (* [allGather] on buffer [b]; [barrier] on [barrierArr] *)

(** The ring sockets connect all ranks of the job in order. *)
Definition call_ok (c : call) : Prop :=
  match c with CallRing b => b < 3 /\ ranks = seq 0 n | _ => True end.

(** The program of the member at position [p]. *)
Definition call_prog (c : call) (p : nat) : list action :=
  match c with
  | CallAllGather => default [] (groupAllGather (rk p) ranks)
  | CallAlltoall => default [] (groupAlltoall (rk p) ranks)
  | CallBarrier => groupBarrier (rk p) ranks
  | CallRing b => allGather b (rk p) n
  end.

Definition call_result (c : call) (M : nat -> loc -> D) : nat -> loc -> D :=
  match c with
  | CallAllGather => gathered data M
  | CallAlltoall => exchanged M
  | CallBarrier => met M
  | CallRing b => gathered b M
  end.

Lemma index_of_lookup l p r : NoDup l -> l !! p = Some r -> index_of r l = Some p.
Proof.
  intros Hl. revert p. induction Hl as [|x l Hx Hl IH]; intros p Hp; [by rewrite lookup_nil in Hp|]. simpl.
  destruct p as [|p]; simpl in Hp; [injection Hp as ->; by rewrite Nat.eqb_refl|].
  destruct (Nat.eqb_spec r x) as [->|]; [|by rewrite (IH p Hp)]. destruct Hx. by eapply list_elem_of_lookup_2.
Qed.

Lemma index_of_rk p : p < n -> index_of (rk p) ranks = Some p.
Proof using Hnd. intros Hp. apply index_of_lookup; [done|]. by apply rk_lookup. Qed.

Lemma ranks_rk : ranks = rk <$> seq 0 n.
Proof.
  apply list_eq. intros i. rewrite list_lookup_fmap. destruct (decide (i < n)) as [Hi|Hi].
  - rewrite lookup_seq_lt by done. by apply rk_lookup.
  - rewrite !lookup_ge_None_2; [done|rewrite length_seq; lia|lia].
Qed.

Lemma rk_eqb p q : p < n -> q < n -> (rk q =? rk p) = (q =? p).
Proof using Hnd.
  intros Hp Hq. destruct (Nat.eqb_spec q p) as [->|Hne]; [apply Nat.eqb_refl|].
  apply Nat.eqb_neq. intros He. apply Hne. by apply rk_inj.
Qed.

Lemma bind_fmap_ranks (f g : nat -> list action) :
  (forall q, q < n -> f (rk q) = g q) -> ranks ≫= f = seq 0 n ≫= g.
Proof.
  intros Hfg. rewrite ranks_rk at 1. assert (Hall : Forall (fun q => q < n) (seq 0 n)).
  { apply Forall_forall. intros q Hq. apply elem_of_seq in Hq. lia. }
  induction Hall as [|q l Hq _ IH]; [done|]. cbn. by rewrite Hfg, IH.
Qed.

Lemma call_reach c s P M rest :
  call_ok c -> at_ P M s -> (forall p, p < n -> P p = call_prog c p ++ rest p) ->
  exists s', reach s s' /\ at_ rest (call_result c M) s'.
Proof using Hnd Hroom.
  intros Hok Hv HP. destruct c as [| | |b]; simpl in *.
  - apply (ring_reach data Some s P M rest Hv ltac:(lia)). intros p Hp. rewrite HP by done.
    unfold groupAllGather. rewrite index_of_rk by done. simpl.
    replace ((p + 1 + n) mod n) with ((p + 1) mod n); [done|].
    rewrite <- (Nat.Div0.mod_add (p + 1) 1 n), Nat.mul_1_l. done.
  - apply (alltoall_reach s P M rest Hv). intros p Hp. rewrite HP by done.
    unfold groupAlltoall. rewrite index_of_rk by done. simpl. by rewrite <- !app_assoc.
  - apply (barrier_reach s P M rest Hv). intros p Hp. rewrite HP by done. unfold groupBarrier.
    rewrite <- !app_assoc. do 2 f_equal; [|f_equal].
    + apply bind_fmap_ranks. intros q Hq. by rewrite rk_eqb.
    + apply bind_fmap_ranks. intros q Hq. by rewrite rk_eqb.
  - destruct Hok as [Hb Hseq]. apply (ring_reach b (fun _ => None) s P M rest Hv Hb). intros p Hp.
    rewrite HP by done. unfold allGather.
    assert (Hrk : forall q, q < n -> rk q = q).
    { intros q Hq. pose proof (f_equal (fun l => l !! q) Hseq) as Hl. simpl in Hl.
      rewrite rk_lookup, lookup_seq_lt in Hl by done. by injection Hl. }
    assert (Hn : n <> 0) by lia.
    rewrite (Hrk p), !Hrk by (done || by apply Nat.mod_upper_bound). done.
Qed.

(** The programs and the result of a sequence of calls. *)
Definition calls_prog (cs : list call) (p : nat) : list action := c ← cs; call_prog c p.

Definition calls_result (cs : list call) (M : nat -> loc -> D) : nat -> loc -> D :=
  fold_left (fun M c => call_result c M) cs M.

Lemma calls_reach cs s P M :
  Forall call_ok cs -> at_ P M s -> (forall p, p < n -> P p = calls_prog cs p) ->
  exists s', reach s s' /\ at_ (fun _ => []) (calls_result cs M) s'.
Proof using Hnd Hroom.
  intros Hok. revert s P M. induction Hok as [|c cs Hc Hcs IH]; intros s P M Hv HP.
  - exists s. split; [apply reach_refl|].
    eapply view_ext; [exact Hv|intros p Hp; by rewrite HP|done|done].
  - destruct (call_reach c s P M (calls_prog cs) Hc Hv) as (s1 & Hr1 & H1); [done|].
    destruct (IH s1 _ _ H1) as (s2 & Hr2 & H2); [done|]. exists s2. split; [by eapply reach_trans|done].
Qed.

(** ** Every schedule *)

Lemma run_no_prog rs s s' r : run zero room rs s = Some s' -> progs s !! r = None -> progs s' !! r = None.
Proof.
  revert s. induction rs as [|r0 rs IH]; intros s; simpl; [by intros [= <-]|].
  destruct (exec zero room r0 s) as [s1|] eqn:He; [|done]. simpl. intros Hr Hn. apply (IH s1 Hr).
  apply exec_Some in He as (a & rest & m & Hp & Ha & ->). simpl.
  rewrite lookup_insert_ne by congruence. by rewrite (act_progs _ _ _ _ _ _ Ha).
Qed.

(** C27: when the buffers of a connection hold at least one message, for any sequence
    of collectives that the members of a group call in the same order, and any
    interleaving of their steps, in which a send returns only once the buffers hold
    what the receiver has not read, no member is ever stuck before the end,
    the number of steps is bounded, and at the end each buffer holds exactly the result
    of the collectives: every slice gathered from its owner, every block exchanged with
    its peer; no message is left over. *)
Theorem bootstrap_collectives_correct (cs : list call) (M : nat -> loc -> D) (s : net) :
  Forall call_ok cs -> at_ (calls_prog cs) M s -> (forall r, r ∉ ranks -> progs s !! r = None) ->
  exists f total, at_ (fun _ => []) (calls_result cs M) f /\
    forall rs s1, run zero room rs s = Some s1 ->
      (exists rs2, run zero room rs2 s1 = Some f /\ length rs + length rs2 = total) /\
      ((forall r, exec zero room r s1 = None) -> s1 = f).
Proof using Hnd Hroom.
  intros Hok Hv Hother. destruct (calls_reach cs s (calls_prog cs) M Hok Hv) as (f & [rs0 Hr0] & Hf); [done|].
  assert (Hfin : finished f).
  { intros r p Hp. destruct (decide (r ∈ ranks)) as [Hin|Hin].
    - apply list_elem_of_lookup in Hin as [i Hi]. pose proof (lookup_lt_Some _ _ _ Hi) as Hlt.
      pose proof (proj1 Hf i Hlt) as Hpi. rewrite rk_lookup in Hi by done. injection Hi as <-. congruence.
    - pose proof (run_no_prog _ _ _ _ Hr0 (Hother r Hin)). congruence. }
  exists f, (length rs0). split; [done|]. intros rs s1 Hrs.
  destruct (run_confluent _ _ _ _ _ _ _ Hr0 Hfin Hrs) as (rs2 & H2 & Hlen). split; [exists rs2; split; [done|lia]|].
  intros Hstuck. destruct rs2 as [|r rs2]; simpl in H2; [congruence|]. by rewrite Hstuck in H2.
Qed.

(** ** Messages that do not fit *)

(** Before or in its first send, which the receiver has not taken. *)
Definition sending (s : net) (r : nat) : Prop :=
  (exists l to t rest, progs s !! r = Some (send l to t ++ rest)) \/
  (exists to t rest, progs s !! r = Some (Flush to t :: rest) /\ chan s r to t <> []).

Lemma sending_step s s1 r : room = 0 -> sending s r -> exec zero room r s = Some s1 ->
  sending s1 r /\ forall r', r' <> r -> sending s r' -> sending s1 r'.
Proof. clear Hroom.
  intros H0 Hs (a & rest & m & Hr & Ha & ->)%exec_Some. destruct Hs as [(l & to & t & rest' & Hq)|(to & t & rest' & Hq & Hc)];
    rewrite Hr in Hq; injection Hq as -> ->; simpl in Ha; [|rewrite H0 in Ha; by destruct (chan s r to t)].
  destruct (mem s !! (r, l)) as [x|]; [|done]. injection Ha as <-. split.
  - right. exists to, t, rest'. simpl. rewrite lookup_insert_eq. split; [done|].
    change (chan (set_prog ?r ?p ?m) ?a ?b ?t) with (chan m a b t). rewrite chan_set_chan_eq. by destruct (chan s r to t).
  - intros r' Hne [(l' & to' & t' & rest2 & Hq)|(to' & t' & rest2 & Hq & Hc)]; [left|right]; repeat eexists; simpl;
      rewrite ?lookup_insert_ne by done; [exact Hq|exact Hq|].
    change (chan (set_prog ?r ?p ?m) ?a ?b ?t) with (chan m a b t). by rewrite chan_set_chan_ne by congruence.
Qed.

(** Members that all begin with a send stay in it. *)
Lemma oversized_stuck s s1 rs : room = 0 ->
  (forall r, r ∈ ranks -> sending s r) -> (forall r, r ∉ ranks -> progs s !! r = None) -> run zero room rs s = Some s1 ->
  forall r, r ∈ ranks -> sending s1 r.
Proof. clear Hroom.
  intros H0. revert s. induction rs as [|r rs IH]; intros s Hs Ho Hrun; simpl in Hrun; [by injection Hrun as <-|].
  destruct (exec zero room r s) as [s2|] eqn:He; [|done]. simpl in Hrun.
  assert (Hin : r ∈ ranks).
  { destruct (decide (r ∈ ranks)) as [|Hn]; [done|]. apply exec_Some in He as (? & ? & ? & Hr & _). by rewrite Ho in Hr. }
  destruct (sending_step s s2 r H0 (Hs r Hin) He) as [H1 H2]. apply (IH s2); [|intros r' Hr'; by apply (run_no_prog [r] s), Ho; [simpl; rewrite He|]|done].
  intros r' Hr'. destruct (decide (r' = r)) as [->|]; auto.
Qed.

Lemma ring_rounds_send b p m to from tag : 2 <= m -> exists rest, ring_rounds b p m to from tag = send (b, (p + m - 0) mod m) to (tag 0) ++ rest.
Proof. intros Hm. unfold ring_rounds. rewrite seq_cons by lia. by eexists. Qed.

(** When the buffers of a connection do not hold a message, a ring of two or more
    members never gets past its first round: all wait for their sends, under every
    schedule. *)
Theorem bootstrap_ring_deadlock (c : call) (cs : list call) (M : nat -> loc -> D) (s s1 : net) (rs : list nat) (p : nat) :
  2 <= n -> room = 0 -> c = CallAllGather \/ (exists b, c = CallRing b) ->
  at_ (calls_prog (c :: cs)) M s -> (forall r, r ∉ ranks -> progs s !! r = None) -> run zero room rs s = Some s1 -> p < n ->
  progs s1 !! rk p <> Some [].
Proof using Hnd. clear Hroom.
  intros Hn H0 Hc (Hp & _) Ho Hrun Hpn. assert (Hin : rk p ∈ ranks) by (eapply list_elem_of_lookup_2, rk_lookup; done).
  destruct (oversized_stuck s s1 rs H0) with (r := rk p) as [(? & ? & ? & ? & ->)|(? & ? & ? & -> & _)]; try done.
  intros r [q Hq]%list_elem_of_lookup. pose proof (lookup_lt_Some _ _ _ Hq) as Hqn. rewrite rk_lookup in Hq by done. injection Hq as <-.
  assert (Hcq : exists b to from tag pos, call_prog c q = ring_rounds b pos n to from tag).
  { destruct Hc as [->|[b ->]]; simpl; [|by unfold allGather; repeat eexists]. unfold groupAllGather. rewrite index_of_rk by done. simpl. by repeat eexists. }
  destruct Hcq as (b & to & from & tag & pos & E). destruct (ring_rounds_send b pos n to from tag Hn) as (rest & E').
  left. rewrite Hp by done. unfold calls_prog. cbn [mbind list_bind]. rewrite E, E', <- app_assoc. by repeat eexists.
Qed.

(** ** Barriers separate *)

Lemma sends_app b t l l' : sends b t (l ++ l') = sends b t l + sends b t l'.
Proof. induction l as [|[] l IH]; simpl; lia. Qed.

Lemma recvs_app a t l l' : recvs a t (l ++ l') = recvs a t l + recvs a t l'.
Proof. induction l as [|[] l IH]; simpl; lia. Qed.

(** Each member sends one message to each other member and receives one. *)
Lemma barrier_counts a b :
  a ∈ ranks -> b ∈ ranks -> a <> b ->
  sends b (Some 0) (groupBarrier a ranks) = 1 /\ recvs a (Some 0) (groupBarrier b ranks) = 1.
Proof using Hnd. clear Hroom.
  intros Ha Hb Hne. unfold groupBarrier. rewrite !sends_app, !recvs_app. simpl.
  assert (H1 : forall l, NoDup l ->
    sends b (Some 0) (r ← l; if r =? a then [] else send (tmp, 0) r (Some 0)) = (if decide (b ∈ l) then 1 else 0) /\
    recvs a (Some 0) (r ← l; if r =? b then [] else [Recv (tmp, 0) r (Some 0)]) = (if decide (a ∈ l) then 1 else 0) /\
    sends b (Some 0) (r ← l; if r =? a then [] else [Recv (tmp, 0) r (Some 0)]) = 0 /\
    recvs a (Some 0) (r ← l; if r =? b then [] else send (tmp, 0) r (Some 0)) = 0).
  { induction 1 as [|x l Hx Hl (I1 & I2 & I3 & I4)].
    { rewrite !decide_False by apply not_elem_of_nil. done. }
    cbn. rewrite !sends_app, !recvs_app, I1, I2, I3, I4.
    split_and!; [| |by destruct (x =? a)|by destruct (x =? b)].
    - destruct (Nat.eqb_spec x a); simpl; repeat case_decide; simplify_eq; try lia; exfalso; set_solver.
    - destruct (Nat.eqb_spec x b); simpl; repeat case_decide; simplify_eq; try lia; exfalso; set_solver. }
  destruct (H1 ranks Hnd) as (-> & -> & -> & ->). by rewrite !decide_True.
Qed.

(** [groupBarrier] separates: when a member of the group has finished the call,
    every other member has entered it and sent its message, in any interleaving. *)
Theorem group_barrier_separates (s s1 : net) (rs : list nat) (a b : nat) :
  a ∈ ranks -> b ∈ ranks -> a <> b ->
  progs s !! a = Some (groupBarrier a ranks) -> progs s !! b = Some (groupBarrier b ranks) ->
  (forall x y t, chan s x y t = []) -> run zero room rs s = Some s1 -> progs s1 !! b = Some [] ->
  sends b (Some 0) (groupBarrier a ranks) = 1 /\ sends b (Some 0) (prog s1 a) = 0.
Proof using Hnd. clear Hroom.
  intros Ha Hb Hne Hpa Hpb Hc Hrun Hdone. destruct (barrier_counts a b Ha Hb Hne) as [Hs Hr]. split; [done|].
  pose proof (run_balance zero room a b (Some 0) rs s s1 Hrun) as H. unfold prog in *.
  rewrite Hc, Hpa, Hpb, Hdone in H.
  cbn [default length id] in H. rewrite Hs, Hr in H. simpl recvs in H. lia.
Qed.

End Group.

Lemma suffix_of_cons {A} (x : A) l l' : l `suffix_of` x :: l' -> l = x :: l' \/ l `suffix_of` l'.
Proof. destruct l as [|y l]; [right; apply suffix_nil|]. apply suffix_cons_inv. Qed.

Lemma rounds_total to from t (f g : nat -> loc) k m :
  sends to t (i ← seq k m; send (f i) to t ++ [Recv (g i) from t]) = m /\
  recvs from t (i ← seq k m; send (f i) to t ++ [Recv (g i) from t]) = m.
Proof.
  revert k. induction m as [|m IH]; intros k; [done|]. destruct (IH (S k)) as [Hs Hr]. cbn in Hs, Hr |- *.
  rewrite !decide_True by done. by rewrite Hs, Hr.
Qed.

(** The rounds that are left have as many receives as sends, or one more. *)
Lemma ring_left to from t (f g : nat -> loc) k m l :
  l `suffix_of` (i ← seq k m; send (f i) to t ++ [Recv (g i) from t]) ->
  sends to t l <= recvs from t l <= S (sends to t l).
Proof.
  revert k. induction m as [|m IH]; intros k Hl.
  { apply suffix_nil_inv in Hl as ->. simpl. lia. }
  destruct (rounds_total to from t f g (S k) m) as [Hs Hr]. cbn in Hs, Hr.
  cbn in Hl. apply suffix_of_cons in Hl as [->|Hl].
  - cbn. rewrite !decide_True by done. lia.
  - apply suffix_of_cons in Hl as [->|Hl]; [cbn; rewrite !decide_True by done; lia|].
    apply suffix_of_cons in Hl as [->|Hl]; [|by eapply IH]. cbn. rewrite !decide_True by done. lia.
Qed.

Lemma ring_total b p n to from t :
  sends to t (ring_rounds b p n to from (fun _ => t)) = n - 1 /\
  recvs from t (ring_rounds b p n to from (fun _ => t)) = n - 1.
Proof. apply (rounds_total to from t (fun i => (b, _)) (fun i => (b, _))). Qed.

Section Ring.

Context {D : Type} (zero : D) (room n : nat).

(** What rank [p] still has to send to the next rank, and to receive from the previous. *)
Definition to_send (s : @net D) (p : nat) : nat := sends ((p + 1) mod n) None (prog s p).
Definition to_recv (s : @net D) (p : nat) : nat := recvs ((p + n - 1) mod n) None (prog s p).

Lemma ring_next_prev p : p < n -> ((p + n - 1) mod n + 1) mod n = p.
Proof.
  intros Hp. destruct p as [|p].
  - rewrite (Nat.mod_small (0 + n - 1)) by lia. replace (0 + n - 1 + 1) with n by lia. apply Nat.Div0.mod_same.
  - replace (S p + n - 1) with (p + 1 * n) by lia. rewrite Nat.Div0.mod_add.
    rewrite (Nat.mod_small p) by lia. rewrite Nat.mod_small by lia. lia.
Qed.

Lemma ring_barrier_progress (b : nat) (s s1 : @net D) rs p :
  (forall p, p < n -> progs s !! p = Some (allGather b p n)) -> (forall x y t, chan s x y t = []) ->
  run zero room rs s = Some s1 -> p < n ->
  to_recv s1 p <= S (to_send s1 p) /\ to_send s1 ((p + n - 1) mod n) <= to_recv s1 p.
Proof.
  intros Hp Hc Hrun Hpn.
  assert (Hq : (p + n - 1) mod n < n) by (apply Nat.mod_upper_bound; lia). split.
  - pose proof (run_suffix zero room rs s s1 p Hrun) as Hs. unfold prog in Hs at 2. rewrite Hp in Hs by done.
    cbn [default id] in Hs. unfold allGather, ring_rounds in Hs.
    exact (proj2 (ring_left _ _ None (fun i => (b, (p + n - i) mod n)) (fun i => (b, (p + n - i - 1) mod n)) _ _ _ Hs)).
  - pose proof (run_balance zero room ((p + n - 1) mod n) p None rs s s1 Hrun) as H.
    unfold to_send, to_recv. rewrite (ring_next_prev p Hpn). rewrite Hc in H.
    unfold prog at 2 3 in H. rewrite !Hp in H by done. cbn [default length id] in H.
    destruct (ring_total b p n ((p + 1) mod n) ((p + n - 1) mod n) None) as [_ Hr].
    destruct (ring_total b ((p + n - 1) mod n) n p (((p + n - 1) mod n + n - 1) mod n) None) as [Ht _].
    unfold allGather in H. rewrite (ring_next_prev p Hpn), Hr, Ht in H. lia.
Qed.

Lemma ring_behind (b : nat) (s s1 : @net D) rs p j :
  (forall p, p < n -> progs s !! p = Some (allGather b p n)) -> (forall x y t, chan s x y t = []) ->
  run zero room rs s = Some s1 -> p < n -> progs s1 !! p = Some [] ->
  1 <= j < n -> to_send s1 ((p + n - j) mod n) <= j - 1.
Proof.
  intros Hp Hc Hrun Hpn Hdone [Hj Hjn]. induction j as [|j IH]; [lia|].
  destruct j as [|j].
  - pose proof (ring_barrier_progress b s s1 rs p Hp Hc Hrun Hpn) as [_ H].
    unfold to_recv, prog in H. rewrite Hdone in H. simpl in H. lia.
  - set (q := (p + n - S j) mod n). assert (Hq : q < n) by (apply Nat.mod_upper_bound; lia).
    pose proof (ring_barrier_progress b s s1 rs q Hp Hc Hrun Hq) as [H1 H2].
    replace ((p + n - S (S j)) mod n) with ((q + n - 1) mod n).
    + specialize (IH ltac:(lia) ltac:(lia)). fold q in IH. lia.
    + unfold q. replace ((p + n - S j) mod n + n - 1) with ((p + n - S j) mod n + (n - 1)) by lia.
      rewrite Nat.Div0.add_mod_idemp_l. replace (p + n - S j + (n - 1)) with (p + n - S (S j) + 1 * n) by lia.
      apply Nat.Div0.mod_add.
Qed.

(** [TcpBootstrap::barrier] separates: when one rank has returned from it, every
    other rank has entered it, in any interleaving of the ring's steps. *)
Theorem ring_barrier_separates (s s1 : @net D) (rs : list nat) (p q : nat) :
  (forall p, p < n -> progs s !! p = Some (barrier p n)) -> (forall x y t, chan s x y t = []) ->
  run zero room rs s = Some s1 -> p < n -> q < n -> p <> q -> progs s1 !! p = Some [] ->
  prog s1 q <> barrier q n.
Proof.
  intros Hp Hc Hrun Hpn Hqn Hne Hdone Hq.
  set (j := (p + n - q) mod n). assert (Hj : 1 <= j < n /\ (p + n - j) mod n = q).
  { unfold j. destruct (decide (p < q)).
    - rewrite (Nat.mod_small (p + n - q)) by lia. split; [lia|].
      replace (p + n - (p + n - q)) with q by lia. by apply Nat.mod_small.
    - replace (p + n - q) with (p - q + 1 * n) by lia. rewrite Nat.Div0.mod_add, (Nat.mod_small (p - q)) by lia.
      split; [lia|]. replace (p + n - (p - q)) with (q + 1 * n) by lia.
      rewrite Nat.Div0.mod_add. by apply Nat.mod_small. }
  destruct Hj as [Hj Hjq]. pose proof (ring_behind barrierArr s s1 rs p j Hp Hc Hrun Hpn Hdone Hj) as H.
  rewrite Hjq in H. unfold to_send in H. rewrite Hq in H. unfold barrier, allGather in H.
  destruct (ring_total barrierArr q n ((q + 1) mod n) ((q + n - 1) mod n) None) as [Ht _]. rewrite Ht in H. lia.
Qed.

End Ring.

(** ** Strided teams *)

Definition strided (start stride : Z) (count : nat) : list nat :=
  (fun i => Z.to_nat (start + Z.of_nat i * stride)) <$> seq 0 count.

Lemma strided_lookup start stride count i :
  i < count -> strided start stride count !! i = Some (Z.to_nat (start + Z.of_nat i * stride)).
Proof. intros Hi. unfold strided. rewrite list_lookup_fmap, lookup_seq_lt by done. done. Qed.

Lemma strided_nth start stride count i :
  i < count -> nth i (strided start stride count) 0 = Z.to_nat (start + Z.of_nat i * stride).
Proof. intros Hi. by apply nth_lookup_Some, strided_lookup. Qed.

Lemma strided_ranks_nodup start stride count : (0 <= start -> 0 < stride -> NoDup (strided start stride count))%Z.
Proof.
  intros Hs Ht. apply NoDup_fmap_2_strong; [|apply NoDup_seq]. intros i j _ _ He.
  apply Z2Nat.inj in He; nia.
Qed.

Lemma length_strided start stride count : length (strided start stride count) = count.
Proof. unfold strided. by rewrite length_fmap, length_seq. Qed.

(** The position computed by division is the index in the list. *)
Lemma strided_position start stride count rank :
  (0 <= start -> 0 < stride ->
   let pos := Z.quot (Z.of_nat rank - start) stride in
   if (Z.of_nat count <=? 0) || (pos <? 0) || (Z.of_nat count <=? pos) || negb (start + pos * stride =? Z.of_nat rank)
   then index_of rank (strided start stride count) = None
   else index_of rank (strided start stride count) = Some (Z.to_nat pos))%Z.
Proof.
  intros Hs Ht pos. case_if.
  - destruct (index_of rank (strided start stride count)) as [i|] eqn:Hi; [exfalso|done].
    assert (Hl : strided start stride count !! i = Some rank).
    { revert i Hi. generalize (strided start stride count). intros l. induction l as [|x l IH]; intros i Hi; [done|].
      simpl in Hi. destruct (Nat.eqb_spec rank x) as [->|]; [by injection Hi as <-|].
      destruct (index_of rank l) as [j|]; [|done]. injection Hi as <-. by apply IH. }
    pose proof (lookup_lt_Some _ _ _ Hl) as Hlt. rewrite length_strided in Hlt.
    rewrite strided_lookup in Hl by done. injection Hl as Hl.
    assert (Hpos : pos = Z.of_nat i).
    { unfold pos. replace (Z.of_nat rank - start)%Z with (Z.of_nat i * stride)%Z by nia. apply Z.quot_mul. lia. }
    nia.
  - rewrite !orb_false_iff, negb_false_iff in E. destruct E as [[[E1 E2] E3] E4].
    apply index_of_lookup; [by apply strided_ranks_nodup|]. rewrite strided_lookup by lia. f_equal. lia.
Qed.

(** For a strided team the variant that computes the position by division runs
    exactly the program of the variant that searches the list of ranks, and rejects
    exactly the ranks that are not in the team. *)
Theorem strided_all_gather_agrees (rank count : nat) (start stride : Z) :
  (0 <= start -> 0 < stride ->
   groupAllGather_strided (Z.of_nat rank) start stride (Z.of_nat count) =
   groupAllGather rank (strided start stride count))%Z.
Proof.
  intros Hs Ht. unfold groupAllGather_strided, groupAllGather.
  pose proof (strided_position start stride count rank Hs Ht) as Hpos.
  rewrite (proj2 (Z.ltb_lt 0 stride)) by done.
  set (pos := Z.quot (Z.of_nat rank - start) stride) in *. cbv zeta in Hpos.
  case_if; rewrite Hpos; [done|]. simpl.
  rewrite !orb_false_iff, negb_false_iff in E. destruct E as [[[E1 E2] E3] E4].
  set (p := Z.to_nat pos). assert (Hp : pos = Z.of_nat p) by lia. assert (Hpc : p < count) by lia.
  rewrite length_strided. unfold ring_rounds. f_equal.
  replace (Z.to_nat (Z.of_nat count - 1)) with (count - 1) by lia.
  assert (Hto : nth ((p + 1 + count) mod count) (strided start stride count) 0 =
    Z.to_nat (start + (pos + 1) mod Z.of_nat count * stride)).
  { rewrite strided_nth by (apply Nat.mod_upper_bound; lia). rewrite Nat2Z.inj_mod. do 3 f_equal.
    replace (Z.of_nat (p + 1 + count)) with (pos + 1 + 1 * Z.of_nat count)%Z by lia. apply Z_mod_plus_full. }
  assert (Hfrom : nth ((p + count - 1) mod count) (strided start stride count) 0 =
    Z.to_nat (start + (pos - 1 + Z.of_nat count) mod Z.of_nat count * stride)).
  { rewrite strided_nth by (apply Nat.mod_upper_bound; lia). rewrite Nat2Z.inj_mod. do 4 f_equal. lia. }
  rewrite Hto, Hfrom. clear Hto Hfrom. assert (Hall : Forall (fun i => i < count) (seq 0 (count - 1))).
  { apply Forall_forall. intros i Hi. apply elem_of_seq in Hi. lia. }
  induction Hall as [|i l Hi _ IH]; [done|]. cbn. rewrite IH. do 2 f_equal; [|f_equal]; f_equal; f_equal.
  - rewrite <- (Nat2Z.id ((p + count - i) mod count)), Nat2Z.inj_mod. do 2 f_equal. lia.
  - rewrite <- (Nat2Z.id ((p + count - i - 1) mod count)), Nat2Z.inj_mod. do 2 f_equal. lia.
Qed.

(** ** Groups of ranks that share a node or a pod *)

(** [physicalPodId] and [virtualPodId]. *)
Record PodIds := mkPod { physicalPodId : list Z; virtualPodId : Z }.

#[export] Instance PodIds_eq_dec : EqDecision PodIds.
Proof. solve_decision. Defined.

Definition zero_pod : PodIds := mkPod (replicate 16 0%Z) 0.

Definition IS_PODIDS_ZERO (x : PodIds) : bool := bool_decide (x = zero_pod).

(** The loop over all ranks that keeps those with the key of this rank. *)
Definition same_key {K} `{EqDecision K} (keys : list K) (mine : K) : list nat :=
  filter (fun i => keys !! i = Some mine) (seq 0 (length keys)).

Definition matchIpcCapableRanks (rank : Z) (allPodIds : list PodIds) : list nat :=
  if (rank <? 0)%Z || (Z.of_nat (length allPodIds) <=? rank)%Z then []
  else match allPodIds !! Z.to_nat rank with Some mine => same_key allPodIds mine | None => [] end.

(** [getNranksPerNode], which also fills [localRanks_]: the ranks with the address of this one. *)
Definition localRanks (rank : nat) (addresses : list Z) : list nat :=
  match addresses !! rank with Some mine => same_key addresses mine | None => [] end.

(** [detectIpcCapableRanks] up to the matching: what a rank contributes to the exchange. *)
Definition detect_prog (pods : list PodIds) (rank : nat) : list action :=
  match pods !! rank with
  | Some mine => if IS_PODIDS_ZERO mine then [] else allGather data rank (length pods)
  | None => []
  end.

Lemma elem_of_same_key {K} `{EqDecision K} (keys : list K) mine i :
  i ∈ same_key keys mine <-> keys !! i = Some mine.
Proof.
  unfold same_key. rewrite list_elem_of_filter, elem_of_seq. split; [by intros []|].
  intros Hi. pose proof (lookup_lt_Some _ _ _ Hi). split; [done|lia].
Qed.

(** The ranks of a pod agree on their group: each member is in its own group, a
    group has no rank twice, and all members of a group compute the same list, so that
    every one of them finds itself in the collective over the group. *)
Theorem pod_groups_consistent (pods : list PodIds) (r q : nat) :
  r < length pods -> q ∈ matchIpcCapableRanks (Z.of_nat r) pods ->
  matchIpcCapableRanks (Z.of_nat q) pods = matchIpcCapableRanks (Z.of_nat r) pods /\
  NoDup (matchIpcCapableRanks (Z.of_nat r) pods) /\
  is_Some (groupAllGather q (matchIpcCapableRanks (Z.of_nat r) pods)).
Proof.
  intros Hr. unfold matchIpcCapableRanks. rewrite Nat2Z.id.
  destruct (Z.ltb_spec (Z.of_nat r) 0); [lia|]. destruct (Z.leb_spec (Z.of_nat (length pods)) (Z.of_nat r)); [lia|].
  destruct (lookup_lt_is_Some_2 pods r Hr) as [k Hk]. rewrite Hk. simpl. intros Hq.
  pose proof Hq as Hq'. apply elem_of_same_key in Hq. pose proof (lookup_lt_Some _ _ _ Hq).
  assert (Hnd : NoDup (same_key pods k)) by (apply NoDup_filter, NoDup_seq).
  split_and!; [|done|].
  - rewrite Nat2Z.id. destruct (Z.ltb_spec (Z.of_nat q) 0); [lia|].
    destruct (Z.leb_spec (Z.of_nat (length pods)) (Z.of_nat q)); [lia|]. simpl. by rewrite Hq.
  - apply list_elem_of_lookup in Hq' as [i Hi]. unfold groupAllGather.
    rewrite (index_of_lookup _ i q Hnd Hi). by eexists.
Qed.

(** The pod detection is not collective: when it fails on one rank but succeeds on
    the next one in the ring, the next one never returns from the exchange of the pod
    ids, under any schedule. *)
Theorem pod_detection_hangs {D} (zero : D) (room : nat) (pods : list PodIds) (z : nat) (s s1 : @net D) (rs : list nat) (mine : PodIds) :
  2 <= length pods -> z < length pods ->
  pods !! z = Some zero_pod -> pods !! ((z + 1) mod length pods) = Some mine -> mine <> zero_pod ->
  (forall r, r < length pods -> progs s !! r = Some (detect_prog pods r)) -> (forall x y t, chan s x y t = []) ->
  run zero room rs s = Some s1 -> prog s1 ((z + 1) mod length pods) <> [].
Proof.
  intros Hn Hz Hpz Hpn Hne Hp Hc Hrun Hdone. set (n := length pods) in *. set (q := (z + 1) mod n) in *.
  assert (Hq : q < n) by (apply Nat.mod_upper_bound; lia).
  assert (Hprev : (q + n - 1) mod n = z).
  { unfold q. destruct (decide (z + 1 < n)).
    - rewrite (Nat.mod_small (z + 1)) by done. replace (z + 1 + n - 1) with (z + 1 * n) by lia.
      rewrite Nat.Div0.mod_add. by apply Nat.mod_small.
    - replace (z + 1) with n by lia. rewrite Nat.Div0.mod_same. simpl. rewrite Nat.mod_small by lia. lia. }
  pose proof (run_balance zero room z q None rs s s1 Hrun) as H. rewrite Hc, Hdone in H.
  unfold prog at 2 3 in H. rewrite !Hp in H by done. cbn [default length id] in H.
  unfold detect_prog in H. rewrite Hpz, Hpn in H. unfold IS_PODIDS_ZERO in H.
  rewrite (bool_decide_eq_true_2 (zero_pod = zero_pod)), (bool_decide_eq_false_2 (mine = zero_pod)) in H by done.
  unfold allGather in H. fold n in H. rewrite Hprev in H.
  destruct (ring_total data q n ((q + 1) mod n) z None) as [_ Hr]. rewrite Hr in H. simpl in H. lia.
Qed.

(** ** Building the ring *)

(** What a rank tells the root: its rank, the number of ranks, and the addresses on
    which the root and its ring neighbour can reach it; zero is an unused address. *)
Record ExtInfo := mkExt { ext_rank : nat; ext_nRanks : nat; extAddressListenRoot : Z; extAddressListen : Z }.

(** [getRemoteAddresses] on the two address arrays; [None] is an abort. *)
Definition getRemoteAddresses (nRanks : nat) (info : ExtInfo) (t : list Z * list Z) : option (list Z * list Z) :=
  let '(rankAddresses, rankAddressesRoot) := t in
  if negb (nRanks =? ext_nRanks info) then None
  else
    a ← rankAddressesRoot !! ext_rank info;
    if negb (a =? 0)%Z then None
    else Some (<[ext_rank info := extAddressListen info]> rankAddresses,
               <[ext_rank info := extAddressListenRoot info]> rankAddressesRoot).

Fixpoint collect (nRanks : nat) (infos : list ExtInfo) (t : list Z * list Z) : option (list Z * list Z) :=
  match infos with
  | [] => Some t
  | i :: infos' => t1 ← getRemoteAddresses nRanks i t; collect nRanks infos' t1
  end.

(** [bootstrapRoot] for the connections in the order of their arrival: to which address
    the root sends which address. *)
Definition bootstrapRoot (nRanks : nat) (infos : list ExtInfo) : option (list (Z * Z)) :=
  '(rankAddresses, rankAddressesRoot) ←
    collect nRanks infos (replicate nRanks 0%Z, replicate nRanks 0%Z);
  Some ((fun peer => (nth peer rankAddressesRoot 0%Z, nth ((peer + 1) mod nRanks) rankAddresses 0%Z)) <$> seq 0 nRanks).

Section Root.

Context (n : nat) (R A : nat -> Z).

Abbreviation info_of := (fun r => mkExt r n (R r) (A r)).

(** The arrays once the ranks [done] have checked in. *)
Definition checked_in (done : list nat) (f : nat -> Z) : list Z :=
  (fun r => if decide (r ∈ done) then f r else 0%Z) <$> seq 0 n.

Lemma checked_in_lookup l f r : r < n -> checked_in l f !! r = Some (if decide (r ∈ l) then f r else 0%Z).
Proof. intros Hr. unfold checked_in. by rewrite list_lookup_fmap, lookup_seq_lt. Qed.

Lemma checked_in_insert l f r : r < n -> <[r := f r]> (checked_in l f) = checked_in (r :: l) f.
Proof.
  intros Hr. apply list_eq. intros i. destruct (decide (i < n)) as [Hi|Hi].
  - rewrite checked_in_lookup by done. destruct (decide (i = r)) as [->|Hne].
    + rewrite list_lookup_insert_eq; [|unfold checked_in; by rewrite length_fmap, length_seq].
      by rewrite decide_True by left.
    + rewrite list_lookup_insert_ne, checked_in_lookup by done. repeat case_decide; try done; set_solver.
  - rewrite !lookup_ge_None_2; [done|..]; rewrite ?length_insert; unfold checked_in;
      rewrite length_fmap, length_seq; lia.
Qed.

Lemma collect_spec rs l :
  NoDup (l ++ rs) -> Forall (fun r => r < n) rs ->
  collect n (info_of <$> rs) (checked_in l A, checked_in l R) =
  Some (checked_in (reverse rs ++ l) A, checked_in (reverse rs ++ l) R).
Proof.
  revert l. induction rs as [|r rs IH]; intros l Hnd HF; [done|]. apply Forall_cons in HF as [Hr HF].
  rewrite reverse_cons, <- app_assoc. change ([r] ++ l) with (r :: l). rewrite fmap_cons.
  cbn [collect getRemoteAddresses ext_nRanks ext_rank]. rewrite Nat.eqb_refl. simpl. rewrite checked_in_lookup by done. simpl.
  rewrite decide_False by (apply NoDup_app in Hnd as (_ & Hd & _); intros Hin; apply (Hd _ Hin); by left).
  simpl. rewrite !checked_in_insert by done. apply IH; [by rewrite <- Permutation_middle in Hnd|done].
Qed.

(** Whatever the order in which the ranks connect to the root, each rank is sent the
    address of the next one, so that the connections form one ring. *)
Theorem bootstrap_root_builds_ring (infos : list ExtInfo) :
  infos ≡ₚ info_of <$> seq 0 n ->
  bootstrapRoot n infos = Some ((fun r => (R r, A ((r + 1) mod n))) <$> seq 0 n).
Proof.
  intros Hp. destruct (Permutation_map_inv _ _ Hp) as (rs & -> & Hrs).
  change (map (fun r => mkExt r n (R r) (A r)) rs) with (info_of <$> rs).
  assert (Hnd : NoDup ([] ++ rs)) by (simpl; rewrite <- Hrs; apply NoDup_seq).
  assert (HF : Forall (fun r => r < n) rs).
  { rewrite <- Hrs. apply Forall_forall. intros r Hr. apply elem_of_seq in Hr. lia. }
  unfold bootstrapRoot. assert (H0 : forall f, replicate n 0%Z = checked_in [] f).
  { intros f. apply list_eq. intros i. destruct (decide (i < n)) as [Hi|Hi].
    - rewrite checked_in_lookup, decide_False by (done || apply not_elem_of_nil). by apply lookup_replicate.
    - rewrite !lookup_ge_None_2; [done|..]; [unfold checked_in; rewrite length_fmap, length_seq|rewrite length_replicate]; lia. }
  rewrite (H0 A) at 1. rewrite (H0 R). rewrite collect_spec by done. simpl. f_equal.
  assert (Hin : forall r, r < n -> r ∈ reverse rs ++ []).
  { intros r Hr. rewrite app_nil_r, elem_of_reverse, <- Hrs. apply elem_of_seq. lia. }
  apply list_fmap_ext. intros i r Hi. apply lookup_seq in Hi as [-> Hi]. simpl.
  assert (Hm : (i + 1) mod n < n) by (apply Nat.mod_upper_bound; lia).
  f_equal; apply nth_lookup_Some; rewrite checked_in_lookup by lia; rewrite decide_True; auto.
Qed.

End Root.

(** ** Sockets of peers *)

(** Accepting the pending connections, in the order of the listen queue, until the one
    of the peer and tag comes; [None] when it has to wait.  Every accepted connection is
    kept in [peerRecvSockets_]. *)
Fixpoint accept_until (peer tag : nat) (pending : list (nat * nat * nat)) (socks : gmap (nat * nat) nat)
  : option (nat * list (nat * nat * nat) * gmap (nat * nat) nat) :=
  match pending with
  | [] => None
  | (recvPeer, recvTag, sock) :: pending' =>
      let socks' := <[(recvPeer, recvTag) := sock]> socks in
      if (recvPeer =? peer) && (recvTag =? tag) then Some (sock, pending', socks')
      else accept_until peer tag pending' socks'
  end.

Definition getPeerRecvSocket (peer tag : nat) (pending : list (nat * nat * nat)) (socks : gmap (nat * nat) nat)
  : option (nat * list (nat * nat * nat) * gmap (nat * nat) nat) :=
  match socks !! (peer, tag) with
  | Some sock => Some (sock, pending, socks)
  | None => accept_until peer tag pending socks
  end.

(** All connections made to this rank, accepted or not. *)
Definition connections (pending : list (nat * nat * nat)) (socks : gmap (nat * nat) nat) : gmap (nat * nat) nat :=
  list_to_map pending ∪ socks.

Lemma accept_until_spec peer tag pending socks sock :
  NoDup pending.*1 -> (forall k, k ∈ pending.*1 -> socks !! k = None) -> (peer, tag, sock) ∈ pending ->
  exists pending' socks', accept_until peer tag pending socks = Some (sock, pending', socks') /\
    connections pending' socks' = connections pending socks /\ socks' !! (peer, tag) = Some sock.
Proof.
  revert socks. induction pending as [|[[p t] x] pending IH]; intros socks Hnd Hnew Hin; [by apply elem_of_nil in Hin|].
  simpl in Hnd. apply NoDup_cons in Hnd as [Hp Hnd].
  assert (Hmove : connections pending (<[(p, t) := x]> socks) = connections ((p, t, x) :: pending) socks).
  { unfold connections. simpl. rewrite <- insert_union_l. apply map_eq. intros k.
    destruct (decide (k = (p, t))) as [->|Hk].
    - rewrite lookup_insert_eq, lookup_union_r, lookup_insert_eq; [done|].
      apply not_elem_of_list_to_map_1. done.
    - rewrite lookup_insert_ne by done. rewrite !lookup_union, lookup_insert_ne by done. done. }
  simpl. destruct (Nat.eqb_spec p peer) as [->|Hne]; [destruct (Nat.eqb_spec t tag) as [->|Hne]|]; simpl.
  - apply elem_of_cons in Hin as [[= <-]|Hin].
    + exists pending, (<[(peer, tag) := sock]> socks). split_and!; [done|done|by rewrite lookup_insert_eq].
    + destruct Hp. apply list_elem_of_fmap. by exists (peer, tag, sock).
  - apply elem_of_cons in Hin as [[=]|Hin]; [done|]. rewrite <- Hmove. apply IH; try done.
    intros k Hk. rewrite lookup_insert_ne by set_solver. apply Hnew. by right.
  - apply elem_of_cons in Hin as [[=]|Hin]; [done|]. rewrite <- Hmove. apply IH; try done.
    intros k Hk. rewrite lookup_insert_ne by set_solver. apply Hnew. by right.
Qed.

(** Whatever other connections arrive first, a receive finds the connection of its peer
    and tag, and no connection is lost. *)
Theorem peer_socket_found (peer tag sock : nat) (pending : list (nat * nat * nat)) (socks : gmap (nat * nat) nat) :
  NoDup pending.*1 -> (forall k, k ∈ pending.*1 -> socks !! k = None) ->
  connections pending socks !! (peer, tag) = Some sock ->
  exists pending' socks', getPeerRecvSocket peer tag pending socks = Some (sock, pending', socks') /\
    connections pending' socks' = connections pending socks /\ socks' !! (peer, tag) = Some sock.
Proof.
  intros Hnd Hnew Hc. unfold getPeerRecvSocket. unfold connections in Hc.
  destruct (socks !! (peer, tag)) as [x|] eqn:Hs.
  - assert (Hno : (list_to_map pending : gmap (nat * nat) nat) !! (peer, tag) = None).
    { apply not_elem_of_list_to_map_1. intros Hin. by rewrite (Hnew _ Hin) in Hs. }
    rewrite lookup_union_r, Hs in Hc by done. injection Hc as ->. by exists pending, socks.
  - rewrite lookup_union_l in Hc by done. apply accept_until_spec; [done|done|].
    by apply elem_of_list_to_map_2 in Hc.
Qed.

(** ** Witnesses *)

(** Two ranks, 4 and 7, with the slice [10 * rank + slice] everywhere. *)
Definition demo_ranks : list nat := [4; 7].

Definition demo_mem : gmap (nat * loc) Z :=
  list_to_map (r ← demo_ranks; b ← seq 0 3; j ← seq 0 2; [((r, (b, j)), Z.of_nat (10 * r + j))]).

Definition demo_M (p : nat) (l : loc) : Z := Z.of_nat (10 * rk demo_ranks p + l.2).

Definition demo_calls : list call := [CallAllGather; CallBarrier; CallAlltoall].

Definition demo_net (f : nat -> list action) : @net Z :=
  mkNet (list_to_map ((fun p => (rk demo_ranks p, f p)) <$> [0; 1])) demo_mem ∅.

Lemma demo_ranks_nodup : NoDup demo_ranks.
Proof. repeat constructor; set_solver. Qed.

Lemma demo_at f : at_ demo_ranks f demo_M (demo_net f).
Proof.
  split_and!.
  - intros p Hp. destruct p as [|[|p]]; [reflexivity|reflexivity|simpl in Hp; lia].
  - intros p [b j] Hp [Hb Hj]. simpl in Hp, Hb, Hj.
    destruct p as [|[|p]]; [| |lia]; destruct b as [|[|[|b]]]; try lia; destruct j as [|[|j]]; try lia; reflexivity.
  - intros p q t _ _. unfold chan. simpl. by rewrite lookup_empty.
Qed.

Lemma demo_others f r : r ∉ demo_ranks -> progs (demo_net f) !! r = None.
Proof. intros Hr. apply not_elem_of_list_to_map_1. intros H. apply Hr. exact H. Qed.

Lemma bootstrap_collectives_correct_witness :
  exists f total, at_ demo_ranks (fun _ => []) (calls_result 0%Z demo_calls demo_M) f /\
    exists rs2, run 0%Z 1 rs2 (demo_net (calls_prog demo_ranks demo_calls)) = Some f /\ length rs2 = total.
Proof.
  destruct (bootstrap_collectives_correct 0%Z 1 demo_ranks demo_ranks_nodup (le_n 1) demo_calls demo_M
    (demo_net (calls_prog demo_ranks demo_calls)) ltac:(by repeat constructor) (demo_at _) (demo_others _))
    as (f & total & Hf & H).
  exists f, total. split; [exact Hf|]. destruct (H [] _ eq_refl) as [(rs2 & Hr & Hl) _]. exists rs2. split; [exact Hr|exact Hl].
Defined.

Lemma bootstrap_ring_deadlock_witness :
  exists s1, run 0%Z 0 [4; 7] (demo_net (calls_prog demo_ranks demo_calls)) = Some s1 /\ progs s1 !! 4 <> Some [].
Proof.
  assert (Hr : exists s1, run 0%Z 0 [4; 7] (demo_net (calls_prog demo_ranks demo_calls)) = Some s1) by (eexists; reflexivity).
  destruct Hr as (s1 & Hr). exists s1. split; [exact Hr|].
  apply (bootstrap_ring_deadlock 0%Z 0 demo_ranks demo_ranks_nodup CallAllGather [CallBarrier; CallAlltoall] demo_M
    (demo_net (calls_prog demo_ranks demo_calls)) s1 [4; 7] 0);
    [simpl; lia|done|by left|apply demo_at|apply demo_others|exact Hr|simpl; lia].
Defined.

(** A schedule that completes the two ranks. *)
Definition demo_schedule (k : nat) : list nat := _ ← seq 0 k; demo_ranks.

Definition demo_barrier : @net Z := demo_net (fun p => groupBarrier (rk demo_ranks p) demo_ranks).

Lemma group_barrier_separates_witness :
  exists s1, run 0%Z 1 (demo_schedule 4) demo_barrier = Some s1 /\ sends 7 (Some 0) (prog s1 4) = 0.
Proof.
  assert (Hr : exists s1, run 0%Z 1 (demo_schedule 4) demo_barrier = Some s1 /\ progs s1 !! 7 = Some []).
  { eexists. split; [reflexivity|reflexivity]. }
  destruct Hr as (s1 & Hr & Hd). exists s1. split; [exact Hr|].
  apply (group_barrier_separates 0%Z 1 demo_ranks demo_ranks_nodup demo_barrier s1 (demo_schedule 4) 4 7);
    [set_solver|set_solver|done|reflexivity|reflexivity| |exact Hr|exact Hd].
  intros x y t. unfold chan. simpl. by rewrite lookup_empty.
Defined.

Definition demo_ring (f : nat -> list action) : @net Z :=
  mkNet (list_to_map ((fun p => (p, f p)) <$> [0; 1]))
    (list_to_map (r ← seq 0 2; j ← seq 0 2; [((r, (barrierArr, j)), 0%Z); ((r, (data, j)), 0%Z)])) ∅.

Lemma demo_ring_chan f x y t : chan (demo_ring f) x y t = [].
Proof. unfold chan. simpl. by rewrite lookup_empty. Qed.

Lemma ring_barrier_separates_witness :
  exists s1, run 0%Z 1 [0; 1; 0; 0] (demo_ring (fun p => barrier p 2)) = Some s1 /\ prog s1 1 <> barrier 1 2.
Proof.
  assert (Hr : exists s1, run 0%Z 1 [0; 1; 0; 0] (demo_ring (fun p => barrier p 2)) = Some s1 /\ progs s1 !! 0 = Some []).
  { eexists. split; [reflexivity|reflexivity]. }
  destruct Hr as (s1 & Hr & Hd). exists s1. split; [exact Hr|].
  apply (ring_barrier_separates 0%Z 1 2 (demo_ring (fun p => barrier p 2)) s1 [0; 1; 0; 0] 0 1);
    [|apply demo_ring_chan|exact Hr|lia|lia|lia|exact Hd].
  intros [|[|p]] Hp; [reflexivity|reflexivity|lia].
Defined.

Lemma strided_all_gather_agrees_witness :
  groupAllGather_strided 5 1 2 4 = groupAllGather 5 [1; 3; 5; 7].
Proof. exact (strided_all_gather_agrees 5 4 1 2 ltac:(lia) ltac:(lia)). Defined.

Definition demo_pods : list PodIds := [zero_pod; mkPod (replicate 16 1%Z) 3; mkPod (replicate 16 1%Z) 3].

Lemma pod_groups_consistent_witness : is_Some (groupAllGather 2 (matchIpcCapableRanks 1 demo_pods)).
Proof.
  apply (pod_groups_consistent demo_pods 1 2); [simpl; lia|].
  vm_compute. right. left.
Defined.

Definition demo_pair : list PodIds := [zero_pod; mkPod (replicate 16 1%Z) 3].

Lemma pod_detection_hangs_witness :
  exists s1, run 0%Z 1 [1] (demo_ring (detect_prog demo_pair)) = Some s1 /\ prog s1 1 <> [].
Proof.
  assert (Hr : exists s1, run 0%Z 1 [1] (demo_ring (detect_prog demo_pair)) = Some s1).
  { eexists. reflexivity. }
  destruct Hr as (s1 & Hr). exists s1. split; [exact Hr|].
  apply (pod_detection_hangs 0%Z 1 demo_pair 0 (demo_ring (detect_prog demo_pair)) s1 [1] (mkPod (replicate 16 1%Z) 3));
    [simpl; lia|simpl; lia|reflexivity|reflexivity|discriminate| |apply demo_ring_chan|exact Hr].
  intros [|[|p]] Hp; [reflexivity|reflexivity|simpl in Hp; lia].
Defined.

Lemma bootstrap_root_builds_ring_witness :
  bootstrapRoot 3 [mkExt 2 3 102 202; mkExt 0 3 100 200; mkExt 1 3 101 201] =
  Some [(100, 201); (101, 202); (102, 200)]%Z.
Proof.
  apply (bootstrap_root_builds_ring 3 (fun r => 100 + Z.of_nat r)%Z (fun r => 200 + Z.of_nat r)%Z
    [mkExt 2 3 102 202; mkExt 0 3 100 200; mkExt 1 3 101 201]).
  cbn. rewrite (Permutation_cons_append [_; _] (mkExt 2 3 102 202)). reflexivity.
Defined.
