(* ===== verification/IpcPeers.v ===== *)
(** * Which PEs can be reached over IPC

    Model of [IpcOnImpl::ipcDetectPattern] and of the three device variants of
    [isIpcAvailable] ([src/ipc_policy.hpp]): a table of the PEs that share memory is
    recognised as consecutive or strided, and the lookup of a PE then needs no scan.
    Ranks are 32-bit integers. *)

From Stdlib Require Import ZArith Lia.
From stdpp Require Import base option numbers list.
From S2P Require Import Prelude.

Open Scope Z_scope.

(** [ipc_first_pe] and [ipc_stride]; a stride of zero means no pattern. *)
Record pattern := mkPattern { ipc_first_pe : Z; ipc_stride : Z }.

(** The loop that compares the ranks with the progression, from index [i] on. *)
Fixpoint fits (first stride i : Z) (ranks : list Z) : bool :=
  match ranks with
  | [] => true
  | r :: ranks' => if negb (r =? s32 (first + s32 (stride * i))) then false else fits first stride (i + 1) ranks'
  end.

(** [old] is the pattern before the call. *)
Definition ipcDetectPattern (ranks : list Z) (old : pattern) : pattern :=
  match ranks with
  | [] => mkPattern (ipc_first_pe old) 0
  | r0 :: rest =>
      let stride := match rest with [] => 1 | r1 :: _ => s32 (r1 - r0) end in
      if stride <=? 0 then mkPattern r0 0
      else if fits r0 stride 0 ranks then mkPattern r0 stride else mkPattern r0 0
  end.

(** The linear scan: the host version and the irregular device version. *)
Fixpoint isIpcAvailable_irregular (target i : Z) (ranks : list Z) : option Z :=
  match ranks with
  | [] => None
  | r :: ranks' => if r =? target then Some i else isIpcAvailable_irregular target (i + 1) ranks'
  end.

Definition isIpcAvailable_strided (offset stride shm_size : Z) : option Z :=
  let idx := Z.quot (s32 offset) stride in
  if (u32 idx <? u32 shm_size) && (offset =? u32 (idx * stride)) then Some idx else None.

Definition isIpcAvailable (p : pattern) (ranks : list Z) (target_pe : Z) : option Z :=
  let shm_size := Z.of_nat (length ranks) in
  if shm_size =? 0 then None
  else
    let offset := u32 (target_pe - ipc_first_pe p) in
    if ipc_stride p =? 1 then if offset <? u32 shm_size then Some (s32 offset) else None
    else if ipc_stride p >? 1 then isIpcAvailable_strided offset (ipc_stride p) shm_size
    else isIpcAvailable_irregular target_pe 0 ranks.

(** ** A progression that fits is exact *)

Definition rank_ok (r : Z) : Prop := 0 <= r < 2 ^ 31.

Lemma s32_range x : - 2 ^ 31 <= s32 x < 2 ^ 31.
Proof. unfold signed. pose proof (wrap_range 32 x). change (32 - 1) with 31. case_if; lia. Qed.

(** Wrap-around yields a negative number, which is no rank. *)
Lemma s32_next x : 2 ^ 31 <= x < 2 ^ 32 -> s32 x < 0.
Proof. intros Hx. unfold signed. rewrite wrap_small by lia. change (32 - 1) with 31. case_if; lia. Qed.

Lemma s32_add_r x y : s32 (x + s32 y) = s32 (x + y).
Proof.
  unfold signed at 1 3. assert (He : u32 (x + s32 y) = u32 (x + y)); [|by rewrite He].
  unfold signed. case_if; [apply wrap_add_r|]. unfold wrap.
  rewrite Z.add_sub_assoc, Zminus_mod, Z_mod_same_full, Z.sub_0_r, Zmod_mod. apply Zplus_mod_idemp_r.
Qed.

Lemma fits_spec first stride i ranks :
  rank_ok first -> 0 < stride < 2 ^ 31 -> 0 <= i -> (i = 0 \/ rank_ok (first + stride * (i - 1))) ->
  Forall rank_ok ranks -> fits first stride i ranks = true ->
  forall j r, ranks !! j = Some r -> r = first + stride * (i + Z.of_nat j).
Proof.
  intros Hf Hs. revert i. induction ranks as [|r0 ranks IH]; intros i Hi Hprev HF Hfit j r Hj; [done|].
  apply Forall_cons in HF as [Hr0 HF]. simpl in Hfit.
  destruct (Z.eqb_spec r0 (s32 (first + s32 (stride * i)))) as [He|]; [simpl in Hfit|done].
  rewrite s32_add_r in He.
  assert (Hr : r0 = first + stride * i).
  { unfold rank_ok in *. destruct (Z.lt_ge_cases (first + stride * i) (2 ^ 31)) as [Hlt|Hge].
    - rewrite s32_small in He by nia. done.
    - destruct Hprev as [->|Hprev]; [lia|]. rewrite Z.mul_sub_distr_l in Hprev.
      pose proof (s32_next (first + stride * i) ltac:(lia)). lia. }
  destruct j as [|j]; simpl in Hj.
  - injection Hj as <-. rewrite Hr. f_equal. f_equal. lia.
  - assert (Hnext : i + 1 = 0 \/ rank_ok (first + stride * (i + 1 - 1))).
    { right. replace (i + 1 - 1) with i by lia. by rewrite <- Hr. }
    rewrite (IH (i + 1) ltac:(lia) Hnext HF Hfit j r Hj). f_equal. f_equal. lia.
Qed.

Definition progression (first stride : Z) (ranks : list Z) : Prop :=
  forall j r, ranks !! j = Some r -> r = first + stride * Z.of_nat j.

Lemma detect_spec ranks old :
  Forall rank_ok ranks -> let p := ipcDetectPattern ranks old in
  0 <= ipc_stride p /\ (0 < ipc_stride p -> ipc_stride p < 2 ^ 31 /\ progression (ipc_first_pe p) (ipc_stride p) ranks).
Proof.
  intros HF. unfold ipcDetectPattern. destruct ranks as [|r0 rest]; simpl; [lia|].
  pose proof HF as [Hr0 _]%Forall_cons.
  set (stride := match rest with [] => 1 | r1 :: _ => s32 (r1 - r0) end).
  assert (Hs : stride < 2 ^ 31) by (unfold stride; destruct rest; [lia|apply s32_range]).
  destruct (Z.leb_spec stride 0); simpl; [lia|].
  destruct (fits r0 stride 0 (r0 :: rest)) eqn:Hfit; simpl in *; rewrite Hfit; simpl; [|lia].
  split; [lia|]. intros _. split; [done|]. intros j r Hj.
  exact (fits_spec r0 stride 0 (r0 :: rest) Hr0 ltac:(lia) ltac:(lia) (or_introl eq_refl) HF Hfit j r Hj).
Qed.

(** ** The scan of a progression *)

Lemma scan_spec target i ranks :
  (forall j r, ranks !! j = Some r -> r = target -> (forall k, (k < j)%nat -> ranks !! k <> Some target) ->
     isIpcAvailable_irregular target i ranks = Some (i + Z.of_nat j)) /\
  (target ∉ ranks -> isIpcAvailable_irregular target i ranks = None).
Proof.
  revert i. induction ranks as [|r0 ranks IH]; intros i; simpl.
  { split; [|done]. intros j r Hj. by rewrite lookup_nil in Hj. }
  destruct (IH (i + 1)) as [IH1 IH2]. destruct (Z.eqb_spec r0 target) as [->|Hne]; split.
  - intros [|j] r Hj -> Hmin; [f_equal; lia|]. by destruct (Hmin 0%nat ltac:(lia)).
  - intros Hno. destruct Hno. by left.
  - intros [|j] r Hj -> Hmin; simpl in Hj; [congruence|].
    rewrite (IH1 j target Hj eq_refl); [f_equal; lia|]. intros k Hk. apply (Hmin (S k)). lia.
  - intros Hno. apply IH2. intros Hin; apply Hno; by right.
Qed.

Lemma scan_progression first stride ranks target :
  0 < stride -> progression first stride ranks ->
  (forall j, (j < length ranks)%nat -> target = first + stride * Z.of_nat j ->
     isIpcAvailable_irregular target 0 ranks = Some (Z.of_nat j)) /\
  ((forall j, (j < length ranks)%nat -> target <> first + stride * Z.of_nat j) ->
     isIpcAvailable_irregular target 0 ranks = None).
Proof.
  intros Hs Hp. destruct (scan_spec target 0 ranks) as [H1 H2]. split.
  - intros j Hj Ht. destruct (lookup_lt_is_Some_2 ranks j Hj) as [r Hr].
    rewrite (H1 j r Hr); [done|by rewrite (Hp j r Hr)|]. intros k Hk Hkt. apply Hp in Hkt. nia.
  - intros Hno. apply H2. intros [j Hj]%list_elem_of_lookup. apply (Hno j); [by eapply lookup_lt_Some|by apply Hp].
Qed.

(** ** The device lookup is the scan *)

(** A difference of two ranks as an unsigned number. *)
Lemma offset_cases d :
  - 2 ^ 31 < d < 2 ^ 31 ->
  (0 <= d /\ u32 d = d /\ s32 (u32 d) = d) \/ (d < 0 /\ u32 d = d + 2 ^ 32 /\ s32 (u32 d) = d).
Proof.
  intros Hd. destruct (Z.lt_ge_cases d 0) as [Hneg|Hpos]; [right|left].
  - assert (Hu : u32 d = d + 2 ^ 32) by (unfold wrap; symmetry; apply (Z.mod_unique _ _ (-1)); lia).
    split_and!; [done|done|]. rewrite Hu. unfold signed. rewrite wrap_small by lia.
    change (32 - 1) with 31. case_if; lia.
  - rewrite wrap_small by lia. split_and!; [done|done|]. apply s32_small. lia.
Qed.

(** The division finds the index in the progression, if there is one. *)
Lemma strided_spec d stride n :
  - 2 ^ 31 < d < 2 ^ 31 -> 1 < stride < 2 ^ 31 -> 0 < n < 2 ^ 31 ->
  (forall j, 0 <= j < n -> d = stride * j -> isIpcAvailable_strided (u32 d) stride n = Some j) /\
  ((forall j, 0 <= j < n -> d <> stride * j) -> isIpcAvailable_strided (u32 d) stride n = None).
Proof.
  intros Hd Hs Hn. unfold isIpcAvailable_strided. rewrite (wrap_small 32 n) by lia.
  destruct (offset_cases d Hd) as [(Hpos & Hu & Hsd)|(Hneg & Hu & Hsd)]; rewrite Hsd, Hu.
  - pose proof (Z.quot_pos d stride Hpos ltac:(lia)) as Hq0. pose proof (Z.mul_quot_le d stride Hpos ltac:(lia)) as Hq.
    set (q := Z.quot d stride) in *. assert (q <= d) by nia. rewrite (wrap_small 32 q), (wrap_small 32 (q * stride)) by nia.
    split.
    + intros j Hj ->. assert (Hqj : q = j) by (unfold q; rewrite Z.mul_comm; apply Z.quot_mul; lia).
      rewrite Hqj. destruct (Z.ltb_spec j n); [|lia]. destruct (Z.eqb_spec (stride * j) (j * stride)); [done|lia].
    + intros Hno. destruct (Z.ltb_spec q n); [|done]. destruct (Z.eqb_spec d (q * stride)) as [He|]; [|done].
      destruct (Hno q); lia.
  - split; [intros j Hj ->; nia|]. intros _. set (q := Z.quot d stride).
    assert (Hq : - 2 ^ 31 < q <= 0).
    { unfold q. replace d with (- (- d)) by lia. rewrite Z.quot_opp_l by lia.
      pose proof (Z.quot_pos (- d) stride ltac:(lia) ltac:(lia)).
      pose proof (Z.mul_quot_le (- d) stride ltac:(lia) ltac:(lia)). nia. }
    destruct (offset_cases q ltac:(lia)) as [(Hq0 & -> & _)|(Hq0 & -> & _)].
    + assert (q = 0) as -> by lia. destruct (Z.eqb_spec (d + 2 ^ 32) (u32 (0 * stride))) as [He|]; [|by rewrite andb_false_r].
      exfalso. change (0 * stride) with 0 in He. change (u32 0) with 0 in He. lia.
    + destruct (Z.ltb_spec (q + 2 ^ 32) n); [lia|done].
Qed.

(** For any table of ranks, the pattern that [ipcDetectPattern] finds makes the
    device lookup, with its range check on wrapped unsigned offsets and its division,
    return exactly what a scan of the table returns, for every PE number. *)
Theorem ipc_lookup_is_scan (ranks : list Z) (old : pattern) (target_pe : Z) :
  Forall rank_ok ranks -> Z.of_nat (length ranks) < 2 ^ 31 -> rank_ok target_pe ->
  isIpcAvailable (ipcDetectPattern ranks old) ranks target_pe = isIpcAvailable_irregular target_pe 0 ranks.
Proof.
  intros HF Hlen Ht. pose proof (detect_spec ranks old HF) as [Hs0 Hs]. cbv zeta in Hs0, Hs.
  assert (Hfirst : ranks <> [] -> rank_ok (ipc_first_pe (ipcDetectPattern ranks old))).
  { destruct ranks as [|r0 rest]; [done|]. intros _. apply Forall_cons in HF as [Hr0 _].
    unfold ipcDetectPattern. by case_ifs. }
  set (p := ipcDetectPattern ranks old) in *. unfold isIpcAvailable.
  destruct (Z.eqb_spec (Z.of_nat (length ranks)) 0) as [He|Hne]; [by destruct ranks|].
  specialize (Hfirst ltac:(by destruct ranks)). unfold rank_ok in Hfirst, Ht.
  set (d := target_pe - ipc_first_pe p). assert (Hd : - 2 ^ 31 < d < 2 ^ 31) by (unfold d; lia).
  destruct (Z.eqb_spec (ipc_stride p) 1) as [H1|Hn1]; [|destruct (Z.gtb_spec (ipc_stride p) 1) as [H2|]; [|done]].
  - destruct (Hs ltac:(lia)) as [_ Hprog]. rewrite H1 in Hprog. rewrite (wrap_small 32 (Z.of_nat _)) by lia.
    destruct (scan_progression _ 1 ranks target_pe ltac:(lia) Hprog) as [Hin Hout].
    destruct (offset_cases d Hd) as [(Hpos & Hu & Hsd)|(Hneg & Hu & Hsd)]; rewrite Hsd, Hu.
    + destruct (Z.ltb_spec d (Z.of_nat (length ranks))).
      * rewrite (Hin (Z.to_nat d)); [f_equal; lia|lia|unfold d in *; lia].
      * rewrite Hout; [done|intros; unfold d in *; lia].
    + destruct (Z.ltb_spec (d + 2 ^ 32) (Z.of_nat (length ranks))); [lia|]. rewrite Hout; [done|intros; unfold d in *; lia].
  - destruct (Hs ltac:(lia)) as [Hlt Hprog].
    destruct (scan_progression (ipc_first_pe p) (ipc_stride p) ranks target_pe ltac:(lia) Hprog) as [Hin Hout].
    destruct (strided_spec d (ipc_stride p) (Z.of_nat (length ranks)) Hd ltac:(lia) ltac:(lia)) as [Sin Sout].
    destruct (decide (Exists (fun j => target_pe = ipc_first_pe p + ipc_stride p * Z.of_nat j) (seq 0 (length ranks)))) as [Hex|Hno].
    + apply list.Exists_exists in Hex as (j & Hj & Hjt). apply elem_of_seq in Hj.
      rewrite (Hin j ltac:(lia) Hjt). apply Sin; [lia|unfold d; lia].
    + assert (Hall : forall j, (j < length ranks)%nat -> target_pe <> ipc_first_pe p + ipc_stride p * Z.of_nat j).
      { intros j Hj Hjt. apply Hno, list.Exists_exists. exists j. split; [apply elem_of_seq; lia|done]. }
      rewrite Hout by done. apply Sout. intros j Hj Hjd. apply (Hall (Z.to_nat j)); [lia|].
      rewrite Z2Nat.id by lia. unfold d in Hjd. lia.
Qed.

Lemma ipc_lookup_is_scan_witness :
  isIpcAvailable (ipcDetectPattern [3; 7; 11] (mkPattern 0 0)) [3; 7; 11] 11 = Some 2.
Proof.
  rewrite (ipc_lookup_is_scan [3; 7; 11] (mkPattern 0 0) 11); [reflexivity| |simpl; lia|unfold rank_ok; lia].
  repeat constructor; unfold rank_ok; lia.
Defined.
