(* ===== verification/Coalesce.v ===== *)
(** * Wavefront coalescing

    The coalescing policy of the reverse-offload context
    ([src/src/wf_coal_policy.cpp] and [.hpp]): the lanes of one wavefront that
    put or get neighbouring pieces of the same arrays send one message for each
    run of lanes.  The lanes run in lockstep, so the wavefront is one function of
    what every active lane passes in; an inactive lane passes nothing, and what a
    shuffle returns from it is a variable, [junk].  The merged messages move the
    bytes of the messages that [WfCoalOff] sends, in the same order. *)

From stdpp Require Import base list option numbers sets.
From S2P Require Import Prelude Bits.

(** ** Data *)

(** The arguments of [coalesce]: addresses and sizes are 64-bit words. *)
Record msg := mkMsg { pe : Z; source : Z; dest : Z; size : Z }.

(** What the lanes of the wavefront call with; [None] for an inactive lane. *)
Definition wavefront := Z -> option msg.

Definition WF_SIZE : Z := 64.

Definition lanes : list Z := seqZ 0 WF_SIZE.

(** [__ballot]: the lanes for which the predicate holds, as bits of a 64-bit word. *)
Definition ballot (p : Z -> bool) : Z :=
  foldr (fun t acc => if p t then Z.setbit acc t else acc) 0 lanes.

(** [__ffsll]: one more than the position of the lowest set bit, 0 if there is none. *)
Definition ffsll (x : Z) : Z := if x =? 0 then 0 else 1 + ctz 64 x.

(** The shift instructions of the hardware use the low six bits of the count. *)
Definition shift_count (n : Z) : Z := Z.land n 63.

(** ** Operations *)

Section Coalesce.

(** What a 32-bit shuffle reads from an inactive lane. *)
Variable junk : Z -> Z.

Variable w : wavefront.

Definition active (t : Z) : bool := match w t with Some _ => true | None => false end.

(** [__shfl_up(v, 1)]: the value of the next lower lane, the lane's own in lane 0. *)
Definition shfl_up (v : msg -> Z) (t : Z) : Z :=
  let from := if t =? 0 then 0 else t - 1 in
  match w from with Some m => v m | None => junk from end.

Definition low_half (x : Z) : Z := u32 (Z.land x 0xFFFFFFFF).

Definition high_half (x : Z) : Z := u32 (Z.land (Z.shiftr x 32) 0xFFFFFFFF).

(** The 64-bit value of the lower neighbour, from two shuffles. *)
Definition lower64 (v : msg -> Z) (t : Z) : Z :=
  Z.lor (u64 (Z.shiftl (u32 (shfl_up (fun m => high_half (v m)) t)) 32))
    (u32 (shfl_up (fun m => low_half (v m)) t)).

Definition lower_src (t : Z) : Z := lower64 source t.

Definition lower_dst (t : Z) : Z := lower64 dest t.

Definition lower_pe (t : Z) : Z := shfl_up pe t.

Definition lower_size (t : Z) : Z := u32 (shfl_up (fun m => u32 (size m)) t).

Definition mask : Z := ballot active.

Definition coalescable (t : Z) : bool :=
  match w t with
  | None => false
  | Some m =>
      negb (Z.land mask (u64 (Z.shiftl 1 (shift_count (t - 1)))) =? 0) &&
      (lower_size t =? size m) &&
      (u64 (lower_src t + size m) =? source m) &&
      (u64 (lower_dst t + size m) =? dest m) &&
      (pe m =? lower_pe t) &&
      negb (t =? 0)
  end.

Definition coalMsgs (t : Z) : Z :=
  ffsll (complement 64 (Z.shiftr (ballot coalescable) (shift_count (t + 1)))).

(** The size that a sending lane is left with: [coal_size] is an [int]. *)
Definition coal_size (t : Z) (sz : Z) : Z :=
  let c := s32 sz in
  if coalMsgs t =? 0 then c else s32 (u64 (u64 c + u64 (sz * u32 (coalMsgs t - 1)))).

End Coalesce.

(** The policy: whether the lane must send a message, and the size of it. *)
Class WavefrontCoalescer := coalesce : (Z -> Z) -> wavefront -> Z -> msg -> bool * Z.

Definition WfCoalOn : WavefrontCoalescer := fun junk w t m =>
  if coalescable junk w t then (false, size m) else (true, u64 (coal_size junk w t (size m))).

Definition WfCoalOff : WavefrontCoalescer := fun _ _ _ m => (true, size m).

(** The lanes whose target cannot be reached by peer memory reach [coalesce]; the
    others have diverged. *)
Definition remote (isIpcAvailable : Z -> bool) (w : wavefront) : wavefront :=
  fun t => match w t with
           | Some m => if isIpcAvailable (pe m) then None else Some m
           | None => None
           end.

(** The queue elements that [putmem], [getmem] and their [_nbi] forms build, in the
    order of the lanes. *)
Definition messages {C : WavefrontCoalescer} (isIpcAvailable : Z -> bool) (junk : Z -> Z)
    (w : wavefront) : list msg :=
  let w' := remote isIpcAvailable w in
  omap (fun t => match w' t with
                 | None => None
                 | Some m =>
                     let '(must_send_message, nelems) := coalesce junk w' t m in
                     if must_send_message then Some (mkMsg (pe m) (source m) (dest m) nelems)
                     else None
                 end) lanes.

(** The bytes that a message moves: the PE, and the addresses on both sides. *)
Definition bytes (m : msg) : list (Z * Z * Z) :=
  (fun k => (pe m, dest m + k, source m + k)) <$> seqZ 0 (size m).

(** ** Masks *)

Lemma ballot_foldr (p : Z -> bool) (l : list Z) i :
  0 <= i -> Forall (fun t => 0 <= t) l ->
  Z.testbit (foldr (fun t acc => if p t then Z.setbit acc t else acc) 0 l) i
  = bool_decide (i ∈ l) && p i.
Proof.
  intros Hi. induction 1 as [|t l Ht _ IH]; [by rewrite Z.testbit_0_l|]. cbn [foldr].
  destruct (Z.eq_dec i t) as [->|Hne].
  - rewrite bool_decide_true by set_solver. cbn [andb]. destruct (p t) eqn:E.
    + by rewrite Z.setbit_eq.
    + rewrite IH. by rewrite andb_false_r.
  - replace (bool_decide (i ∈ t :: l)) with (bool_decide (i ∈ l))
      by (apply bool_decide_ext; set_solver).
    destruct (p t); [|done]. rewrite Z.setbit_neq by lia. done.
Qed.

(** Bit [i] of a ballot is the predicate of lane [i]. *)
Lemma ballot_spec p i : 0 <= i -> Z.testbit (ballot p) i = (i <? 64) && p i.
Proof.
  intros Hi. unfold ballot, lanes, WF_SIZE. rewrite ballot_foldr; [|done|].
  - f_equal. apply eq_true_iff_eq. rewrite bool_decide_eq_true, elem_of_seqZ. lia.
  - apply Forall_forall. intros t Ht%elem_of_seqZ. lia.
Qed.

Lemma ballot_nonneg p : 0 <= ballot p.
Proof.
  unfold ballot. assert (H : Forall (fun t => 0 <= t) lanes)
    by (apply Forall_forall; intros t Ht%elem_of_seqZ; lia).
  induction H as [|t l Ht _ IH]; cbn [foldr]; [done|].
  destruct (p t); [|done]. rewrite Z.setbit_spec', Z.lor_nonneg. split; [done|lia].
Qed.

(** A word whose bits from 64 on are clear is a 64-bit word. *)
Lemma bits_below_64 x : 0 <= x -> (forall i, 64 <= i -> Z.testbit x i = false) -> x < 2 ^ 64.
Proof.
  intros Hx H. destruct (Z.eq_dec x 0) as [->|]; [done|].
  apply Z.log2_lt_pow2; [lia|]. destruct (Z.lt_ge_cases (Z.log2 x) 64); [done|].
  pose proof (Z.bit_log2 x ltac:(lia)) as E. by rewrite H in E.
Qed.

Lemma land_bit_zero x k : 0 <= k < 64 ->
  negb (Z.land x (u64 (Z.shiftl 1 k)) =? 0) = Z.testbit x k.
Proof.
  intros Hk. rewrite Z.shiftl_1_l, wrap_small.
  2:{ split; [lia|]. apply Z.pow_lt_mono_r; lia. }
  destruct (Z.testbit x k) eqn:E.
  - apply negb_true_iff, Z.eqb_neq. intros H.
    assert (Hb : Z.testbit (Z.land x (2 ^ k)) k = true)
      by (rewrite Z.land_spec, E, Z.pow2_bits_true by lia; done).
    by rewrite H, Z.testbit_0_l in Hb.
  - apply negb_false_iff, Z.eqb_eq. apply Z.bits_inj'. intros i Hi.
    rewrite Z.land_spec, Z.testbit_0_l, Z.pow2_bits_eqb by lia.
    destruct (Z.eqb_spec k i) as [<-|]; [by rewrite E|by rewrite andb_false_r].
Qed.

(** The lowest clear bit, as [coalesce] finds it. *)
Lemma ffsll_complement y r :
  0 <= y -> 0 <= r < 64 -> Z.testbit y r = false ->
  (forall j, 0 <= j < r -> Z.testbit y j = true) ->
  ffsll (complement 64 y) = 1 + r.
Proof.
  intros Hy Hr Hc Hs. unfold ffsll, complement. change (Z.of_nat 64) with 64.
  assert (Hb : forall j, 0 <= j < 64 -> Z.testbit (u64 (Z.lnot y)) j = negb (Z.testbit y j)).
  { intros j Hj. unfold wrap. rewrite Z.mod_pow2_bits_low by lia. apply Z.lnot_spec. lia. }
  pose proof (wrap_range 64 (Z.lnot y) ltac:(lia)) as Hw.
  destruct (Z.eqb_spec (u64 (Z.lnot y)) 0) as [H0|H0].
  { specialize (Hb r Hr). by rewrite H0, Z.testbit_0_l, Hc in Hb. }
  destruct (ctz_spec 64 (u64 (Z.lnot y))) as (Hc1 & Hc2 & Hc3).
  { change (Z.of_nat 64) with 64. lia. }
  change (Z.of_nat 64) with 64 in Hc1. f_equal.
  destruct (Z.lt_trichotomy (ctz 64 (u64 (Z.lnot y))) r) as [Hlt|[Heq|Hgt]]; [|done|].
  - rewrite Hb, Hs in Hc2 by lia. done.
  - specialize (Hc3 r ltac:(lia)). by rewrite Hb, Hc in Hc3 by lia.
Qed.

(** ** Shuffled words *)

(** The two halves recombine. *)
Lemma halves x : 0 <= x < 2 ^ 64 ->
  Z.lor (u64 (Z.shiftl (u32 (high_half x)) 32)) (u32 (low_half x)) = x.
Proof.
  intros Hx. unfold high_half, low_half. rewrite !wrap_wrap.
  change 0xFFFFFFFF with (Z.ones 32). rewrite !Z.land_ones by lia.
  fold (u32 x) (u32 (Z.shiftr x 32)). rewrite !wrap_wrap.
  assert (Hh : 0 <= Z.shiftr x 32 < 2 ^ 32).
  { rewrite Z.shiftr_div_pow2 by lia. split; [apply Z.div_pos; lia|].
    apply Z.div_lt_upper_bound; lia. }
  rewrite (wrap_small 32 (Z.shiftr x 32)), wrap_small
    by (rewrite ?Z.shiftl_mul_pow2 by lia; lia).
  unfold wrap. rewrite <- Z.land_ones by lia. rewrite <- Z.ldiff_ones_r by lia.
  rewrite Z.lor_comm. apply Z.bits_inj'. intros i Hi.
  rewrite Z.lor_spec, Z.land_spec, Z.ldiff_spec.
  destruct (Z.testbit x i), (Z.testbit (Z.ones 32) i); done.
Qed.

(** ** Runs of lanes *)

(** A message whose two ranges lie inside the address space. *)
Definition fits (m : msg) : Prop :=
  0 <= size m < 2 ^ 32 /\ 0 <= source m /\ source m + size m < 2 ^ 64 /\
  0 <= dest m /\ dest m + size m < 2 ^ 64.

(** [m] continues [m0]: same target and size, and both ranges follow on. *)
Definition continues (m0 m : msg) : Prop :=
  pe m = pe m0 /\ size m = size m0 /\
  source m = source m0 + size m0 /\ dest m = dest m0 + size m0.

Section Runs.

Variable junk : Z -> Z.
Variable w : wavefront.

Hypothesis w_fits : forall t m, 0 <= t < 64 -> w t = Some m -> fits m.

Notation coalescable := (coalescable junk w).
Notation coalMsgs := (coalMsgs junk w).

Lemma coalescable_0 : coalescable 0 = false.
Proof. unfold Coalesce.coalescable. destruct (w 0); [|done]. apply andb_false_r. Qed.

Lemma lower64_active v t m0 :
  0 < t -> w (t - 1) = Some m0 -> 0 <= v m0 < 2 ^ 64 -> lower64 junk w v t = v m0.
Proof.
  intros Ht Hw Hv. unfold lower64, shfl_up.
  rewrite (proj2 (Z.eqb_neq t 0)), Hw by lia. by apply halves.
Qed.

(** A lane is coalesced exactly if it is not lane 0, the next lower lane is active and its
    own message continues the message of that lane. *)
Lemma coalescable_iff t : 0 <= t < 64 ->
  coalescable t = true <->
  0 < t /\ exists m0 m, w (t - 1) = Some m0 /\ w t = Some m /\ continues m0 m.
Proof using w_fits.
  intros Ht. destruct (Z.eq_dec t 0) as [->|Hne].
  { rewrite coalescable_0. split; [done|lia]. }
  unfold Coalesce.coalescable. destruct (w t) as [m|] eqn:Em.
  2:{ split; [done|]. intros (_ & ? & ? & _ & ? & _). done. }
  assert (Hsc : shift_count (t - 1) = t - 1).
  { unfold shift_count. change 63 with (Z.ones 6). rewrite Z.land_ones, Z.mod_small; lia. }
  rewrite Hsc, land_bit_zero by lia. unfold mask. rewrite ballot_spec by lia.
  rewrite (proj2 (Z.ltb_lt (t - 1) 64)) by lia. unfold active.
  destruct (w (t - 1)) as [m0|] eqn:E0.
  2:{ split; [done|]. intros (_ & ? & ? & ? & _). done. }
  destruct (w_fits t m Ht Em) as (?&?&?&?&?).
  destruct (w_fits (t - 1) m0 ltac:(lia) E0) as (?&?&?&?&?).
  unfold lower_src, lower_dst. rewrite !(lower64_active _ t m0) by (done || lia).
  unfold lower_size, lower_pe, shfl_up. rewrite (proj2 (Z.eqb_neq t 0)), E0 by lia.
  rewrite wrap_wrap, (wrap_small 32) by lia. cbn [andb negb].
  rewrite !andb_true_iff, !Z.eqb_eq. unfold continues. split.
  - intros ((((Hs & Hsrc) & Hdst) & Hpe) & _). rewrite <- Hs in Hsrc, Hdst.
    rewrite wrap_small in Hsrc, Hdst by lia. split; [lia|]. exists m0, m. repeat split; congruence.
  - intros (_ & ? & ? & [= <-] & [= <-] & Hp & Hs & Hsrc & Hdst).
    rewrite Hs. unwrap. repeat split; congruence.
Qed.

Lemma coalMsgs_run t r :
  0 <= t < 64 -> 0 <= r -> t + r < 64 ->
  (forall j, t < j <= t + r -> coalescable j = true) ->
  (t + r = 63 \/ coalescable (t + r + 1) = false) ->
  coalMsgs t = 1 + r.
Proof.
  intros Ht Hr Htr Hin Hout. unfold Coalesce.coalMsgs.
  assert (Hnn := ballot_nonneg coalescable).
  assert (Hsh : shift_count (t + 1) = if t =? 63 then 0 else t + 1).
  { unfold shift_count. change 63 with (Z.ones 6) at 1. rewrite Z.land_ones by lia.
    case_if; [by replace t with 63 by lia|]. rewrite Z.mod_small; lia. }
  rewrite Hsh. destruct (Z.eqb_spec t 63) as [->|Hne].
  - replace r with 0 by lia. apply ffsll_complement; [by rewrite Z.shiftr_0_r|lia| |lia].
    rewrite Z.shiftr_0_r, ballot_spec, coalescable_0 by lia. done.
  - apply ffsll_complement; [by apply Z.shiftr_nonneg|lia| |].
    + rewrite Z.shiftr_spec, ballot_spec by lia. replace (r + (t + 1)) with (t + r + 1) by lia.
      destruct Hout as [->| ->]; [done|apply andb_false_r].
    + intros j Hj. rewrite Z.shiftr_spec, ballot_spec, Hin by lia.
      rewrite (proj2 (Z.ltb_lt _ _)) by lia. done.
Qed.

(** Every lane has a run above it, which [coalMsgs] measures. *)
Lemma run_exists n t : 0 <= t -> t + Z.of_nat n = 63 ->
  exists r, 0 <= r /\ t + r < 64 /\ (forall j, t < j <= t + r -> coalescable j = true) /\
    (t + r = 63 \/ coalescable (t + r + 1) = false).
Proof.
  revert t. induction n as [|n IH]; intros t Ht Hn.
  - exists 0. repeat split; try lia.
  - destruct (coalescable (t + 1)) eqn:E.
    + destruct (IH (t + 1)) as (r & Hr & Hlt & Hin & Hout); [lia|lia|].
      exists (r + 1). split_and!; [lia|lia| |].
      * intros j Hj. destruct (Z.eq_dec j (t + 1)) as [->|]; [done|]. apply Hin. lia.
      * by replace (t + (r + 1)) with (t + 1 + r) by lia.
    + exists 0. split_and!; [lia|lia|lia|]. right. by rewrite Z.add_0_r.
Qed.

Lemma coalMsgs_step t : 0 <= t < 64 ->
  coalMsgs t = if (t <? 63) && coalescable (t + 1) then 1 + coalMsgs (t + 1) else 1.
Proof.
  intros Ht. destruct (Z.ltb_spec t 63); cbn [andb].
  - destruct (coalescable (t + 1)) eqn:E.
    + destruct (run_exists (Z.to_nat (62 - t)) (t + 1)) as (r & Hr & Hlt & Hin & Hout); [lia..|].
      rewrite (coalMsgs_run (t + 1) r), (coalMsgs_run t (r + 1)); try lia; try done.
      * intros j Hj. destruct (Z.eq_dec j (t + 1)) as [->|]; [done|]. apply Hin. lia.
      * by replace (t + (r + 1)) with (t + 1 + r) by lia.
    + apply (coalMsgs_run t 0); try lia. right. by rewrite Z.add_0_r.
  - apply (coalMsgs_run t 0); lia.
Qed.

End Runs.

(** ** Merged messages *)

(** The message of [m] and of the [n - 1] messages that continue it. *)
Definition merged (m : msg) (n : Z) : msg := mkMsg (pe m) (source m) (dest m) (size m * n).

Lemma bytes_app p s d a b : 0 <= a -> 0 <= b ->
  bytes (mkMsg p s d (a + b)) = bytes (mkMsg p s d a) ++ bytes (mkMsg p (s + a) (d + a) b).
Proof.
  intros Ha Hb. unfold bytes. cbn [pe source dest size].
  rewrite (seqZ_app 0 a b), fmap_app by lia. f_equal.
  replace (0 + a) with (a + 0) by lia. rewrite <- (fmap_add_seqZ a 0 b), <- list_fmap_compose.
  apply list_fmap_ext. intros i k _. cbn [compose]. by rewrite !Z.add_assoc.
Qed.

Lemma bytes_merged_1 m : bytes (merged m 1) = bytes m.
Proof. unfold merged. rewrite Z.mul_1_r. by destruct m. Qed.

Lemma bytes_merged_cons m0 m n : 0 <= size m0 -> 0 <= n -> continues m0 m ->
  bytes (merged m0 (1 + n)) = bytes m0 ++ bytes (merged m n).
Proof.
  intros Hs Hn (Hp & Hsz & Hsrc & Hdst). unfold merged.
  replace (size m0 * (1 + n)) with (size m0 + size m0 * n) by lia.
  rewrite bytes_app by (try apply Z.mul_nonneg_nonneg; lia).
  rewrite Hp, Hsz, Hsrc, Hdst. by destruct m0.
Qed.

Section Equivalence.

Variable junk : Z -> Z.
Variable w : wavefront.

Hypothesis w_fits : forall t m, 0 <= t < 64 -> w t = Some m -> fits m.
Hypothesis w_int : forall t m, 0 <= t < 64 -> w t = Some m -> size m * coalMsgs junk w t < 2 ^ 31.

Lemma coalMsgs_pos t : 0 <= t < 64 -> 1 <= coalMsgs junk w t <= 64 - t.
Proof.
  intros Ht. destruct (run_exists junk w (Z.to_nat (63 - t)) t) as (r & ? & ? & Hin & Hout); [lia..|].
  rewrite (coalMsgs_run junk w t r); try done; lia.
Qed.

(** The size that a sending lane is left with covers its whole run. *)
Lemma coal_size_run t m : 0 <= t < 64 -> w t = Some m ->
  u64 (coal_size junk w t (size m)) = size m * coalMsgs junk w t.
Proof using w_fits w_int.
  intros Ht Hm. pose proof (coalMsgs_pos t Ht) as Hc. destruct (w_fits t m Ht Hm) as (Hs & _).
  specialize (w_int t m Ht Hm). unfold coal_size. set (c := coalMsgs junk w t) in *.
  assert (Hmul : size m * c = size m + size m * (c - 1)) by lia.
  assert (0 <= size m * (c - 1)) by (apply Z.mul_nonneg_nonneg; lia).
  rewrite (proj2 (Z.eqb_neq c 0)) by lia. rewrite (wrap_small 32) by lia.
  rewrite (s32_small (size m)) by lia. unwrap. rewrite s32_small by lia. unwrap. lia.
Qed.

(** The message that lane [t] sends. *)
Definition lane_message (t : Z) : option msg :=
  match w t with
  | Some m => if coalescable junk w t then None else Some (merged m (coalMsgs junk w t))
  | None => None
  end.

Lemma seqZ_from t : t < 64 -> seqZ t (64 - t) = t :: seqZ (t + 1) (64 - (t + 1)).
Proof.
  intros Ht. rewrite seqZ_cons by lia. unfold Z.succ. do 2 f_equal. lia.
Qed.

Lemma omap_bind_cons {A B D} (f : A -> option B) (g : B -> list D) x l :
  omap f (x :: l) ≫= g = from_option g [] (f x) ++ (omap f l ≫= g).
Proof. cbn. by destruct (f x). Qed.

(** The run that lane [t] starts is its own bytes and the run of lane [t + 1], if that
    lane is coalesced. *)
Lemma run_bytes t m : 0 <= t < 64 -> w t = Some m ->
  bytes (merged m (coalMsgs junk w t)) =
  bytes m ++ (if (t <? 63) && coalescable junk w (t + 1)
              then from_option (fun m' => bytes (merged m' (coalMsgs junk w (t + 1)))) [] (w (t + 1))
              else []).
Proof using w_fits.
  intros Ht Hm. rewrite coalMsgs_step by done. destruct (Z.ltb_spec t 63) as [Hlt|]; cbn [andb].
  2:{ by rewrite bytes_merged_1, app_nil_r. }
  destruct (coalescable junk w (t + 1)) eqn:E; [|by rewrite bytes_merged_1, app_nil_r].
  apply (coalescable_iff junk w w_fits) in E as (_ & m0 & m1 & H0 & H1 & Hc); [|lia].
  replace (t + 1 - 1) with t in H0 by lia. rewrite Hm in H0. injection H0 as <-.
  rewrite H1. cbn [from_option]. pose proof (coalMsgs_pos (t + 1) ltac:(lia)).
  apply bytes_merged_cons; [apply (w_fits t m Ht Hm)|lia|done].
Qed.

(** From the top lane down: what the lanes from [t] on ask for is what they send, after the
    rest of the run that lane [t] is inside of. *)
Lemma asked_sent n t l : 0 <= t -> t + Z.of_nat n = 64 -> l = seqZ t (64 - t) ->
  omap w l ≫= bytes =
  (if (t <? 64) && coalescable junk w t
   then from_option (fun m => bytes (merged m (coalMsgs junk w t))) [] (w t) else [])
  ++ (omap lane_message l ≫= bytes).
Proof using w_fits.
  revert t l. induction n as [|n IH]; intros t l Ht Hn ->.
  { replace t with 64 by lia. reflexivity. }
  rewrite (seqZ_from t), !omap_bind_cons by lia. rewrite (IH (t + 1)) by (lia || reflexivity).
  generalize (omap lane_message (seqZ (t + 1) (64 - (t + 1))) ≫= bytes). intros rest.
  unfold lane_message. replace (t + 1 <? 64) with (t <? 63) by lia.
  rewrite (proj2 (Z.ltb_lt t 64)) by lia. cbn [andb].
  destruct (w t) as [m|] eqn:Em; cbn [from_option].
  - destruct (coalescable junk w t) eqn:E; cbn [from_option app];
      rewrite run_bytes by (done || lia); by rewrite <- app_assoc.
  - destruct (coalescable junk w t) eqn:E; cbn [from_option app].
    + unfold coalescable in E. by rewrite Em in E.
    + destruct (_ && _) eqn:E1; [|done]. apply andb_true_iff in E1 as [? E1].
      apply (coalescable_iff junk w w_fits) in E1 as (_ & m0 & m1 & H0 & _); [|lia].
      replace (t + 1 - 1) with t in H0 by lia. congruence.
Qed.

Lemma all_asked_sent : omap w lanes ≫= bytes = omap lane_message lanes ≫= bytes.
Proof using w_fits.
  rewrite (asked_sent 64 0 lanes) by (lia || reflexivity).
  by rewrite coalescable_0, andb_false_r, app_nil_l.
Qed.

End Equivalence.

Lemma omap_ext_in {A B} (f g : A -> option B) (l : list A) :
  (forall x, x ∈ l -> f x = g x) -> omap f l = omap g l.
Proof.
  intros H. induction l as [|x l IH]; [done|]. cbn. rewrite H by left.
  rewrite IH; [done|]. intros y Hy. apply H. by right.
Qed.

(** The messages of the two policies. *)
Lemma messages_on ipc junk w :
  (forall t m, 0 <= t < 64 -> remote ipc w t = Some m -> fits m) ->
  (forall t m, 0 <= t < 64 -> remote ipc w t = Some m ->
     size m * coalMsgs junk (remote ipc w) t < 2 ^ 31) ->
  @messages WfCoalOn ipc junk w = omap (lane_message junk (remote ipc w)) lanes.
Proof.
  intros Hf Hi. unfold messages. apply omap_ext_in. intros t Ht%elem_of_seqZ.
  unfold lane_message. destruct (remote ipc w t) as [m|] eqn:E; [|done].
  unfold coalesce, WfCoalOn. destruct (coalescable junk (remote ipc w) t); [done|].
  unfold merged. rewrite (coal_size_run junk _ Hf Hi t m); [done| |done].
  unfold WF_SIZE in Ht. lia.
Qed.

Lemma messages_off ipc junk w : @messages WfCoalOff ipc junk w = omap (remote ipc w) lanes.
Proof.
  unfold messages. apply omap_ext_in. intros t _.
  destruct (remote ipc w t) as [m|]; [|done]. by destruct m.
Qed.

(** C10: coalescing changes how many messages a wavefront sends and nothing of what they
    move.  Whatever the active lanes are, whatever a shuffle reads from an inactive lane and
    whichever lanes diverge to the peer-memory path, the messages built with [WfCoalOn]
    move the bytes that the messages built with [WfCoalOff] move, in the same order, as
    long as the ranges lie inside the address space and no merged message reaches 2 GiB. *)
Theorem coalesce_exact ipc junk w
  (Hf : forall t m, 0 <= t < 64 -> remote ipc w t = Some m -> fits m)
  (Hi : forall t m, 0 <= t < 64 -> remote ipc w t = Some m ->
     size m * coalMsgs junk (remote ipc w) t < 2 ^ 31) :
  @messages WfCoalOn ipc junk w ≫= bytes = @messages WfCoalOff ipc junk w ≫= bytes.
Proof.
  rewrite messages_on, messages_off by done. symmetry. apply (all_asked_sent junk _ Hf).
Qed.

(** Lanes 0 to 8 are neighbours, lane 9 goes elsewhere, lanes 10 to 63 are neighbours but
    for lane 20, which is inactive. *)
Definition example_wave : wavefront := fun t =>
  if t =? 20 then None
  else if t =? 9 then Some (mkMsg 2 5000 7000 8)
  else Some (mkMsg 1 (1000 + 8 * t) (3000 + 8 * t) 8).

Lemma coalesce_exact_witness :
  @messages WfCoalOn (fun _ => false) (fun _ => 77) example_wave
  = [mkMsg 1 1000 3000 72; mkMsg 2 5000 7000 8; mkMsg 1 1080 3080 80; mkMsg 1 1168 3168 344] /\
  @messages WfCoalOn (fun _ => false) (fun _ => 77) example_wave ≫= bytes
  = @messages WfCoalOff (fun _ => false) (fun _ => 77) example_wave ≫= bytes.
Proof.
  assert (Hm : forall t m, remote (fun _ => false) example_wave t = Some m ->
    size m = 8 /\ (source m = 5000 /\ dest m = 7000 \/
                   source m = 1000 + 8 * t /\ dest m = 3000 + 8 * t)).
  { intros t m. unfold remote, example_wave.
    destruct (t =? 20); [done|]. destruct (t =? 9); intros [= <-]; cbn; lia. }
  split; [by vm_compute|]. apply coalesce_exact.
  - intros t m Ht H%Hm. unfold fits. lia.
  - intros t m Ht H%Hm. pose proof (coalMsgs_pos (fun _ => 77)
      (remote (fun _ => false) example_wave) t Ht) as Hc. destruct H as [-> _]. lia.
Defined.

(** A single lane that puts 4 GiB sends a message of no bytes, and one that puts 2 GiB a
    message of 2^64 - 2^31: the merged size is an [int]. *)
Lemma coalesce_drops_4gib :
  let one n : wavefront := fun t => if t =? 0 then Some (mkMsg 1 0 0 n) else None in
  @messages WfCoalOn (fun _ => false) (fun _ => 0) (one (2 ^ 32)) = [mkMsg 1 0 0 0] /\
  @messages WfCoalOn (fun _ => false) (fun _ => 0) (one (2 ^ 31)) = [mkMsg 1 0 0 (2 ^ 64 - 2 ^ 31)].
Proof. by vm_compute. Qed.
