(* ===== verification/RoQueue.v ===== *)
(** * The reverse-offload command queue

    A context of the reverse-offload (RO) backend owns a ring of queue elements
    in host memory.  GPU threads post commands into it and the host worker
    thread takes them out and hands them to the MPI transport:
    [src/reverse_offload/queue_proxy.hpp], [block_handle.hpp], [queue.cpp] and
    the posting half of [context_ro_device.cpp].

    The model is a labelled machine.  A wavefront posts the calls of its active
    lanes together, as [next_write_slot_o_m_m] does: the lowest lane takes the
    lock of the handle, waits for space, reads and advances the write index and
    releases the lock; then every lane fills its own element, publishes it by
    setting [valid] and, for a blocking call, polls the status flag it finds in
    the element.  The host side is the three effects of [Queue::process]: hand
    over, clear [valid], advance the read index.  Every access to shared memory
    is a step of its own and accesses are sequentially consistent, which the
    [__threadfence] calls of the source are there to provide.  [posted] and
    [consumed] are histories that no step reads.

    The theorems: what the host hands over is exactly the sequence of calls in
    the order of their tickets, each element carrying what its poster wrote; the
    barrier of a team loses the team; a slot may be reused while its poster
    still polls through it; and the default context and context 0 post into one
    ring through two handles. *)

From stdpp Require Import base list numbers.
From S2P Require Import Prelude.

(** ** Commands *)

Inductive ro_net_cmds :=
| RO_NET_PUT | RO_NET_P | RO_NET_GET | RO_NET_PUT_NBI | RO_NET_GET_NBI
| RO_NET_AMO_FOP | RO_NET_AMO_FCAS | RO_NET_FENCE | RO_NET_QUIET | RO_NET_FINALIZE
| RO_NET_TEAM_REDUCE | RO_NET_SYNC | RO_NET_BARRIER | RO_NET_TEAM_BROADCAST
| RO_NET_ALLTOALL | RO_NET_FCOLLECT | RO_NET_TEAM_REDUCE_SCATTER.

Inductive ro_net_types :=
| RO_NET_FLOAT | RO_NET_CHAR | RO_NET_SIGNED_CHAR | RO_NET_UNSIGNED_CHAR
| RO_NET_DOUBLE | RO_NET_INT | RO_NET_LONG | RO_NET_UNSIGNED_LONG
| RO_NET_LONG_LONG | RO_NET_SHORT | RO_NET_LONG_DOUBLE.

Inductive ROCSHMEM_OP :=
| ROCSHMEM_SUM | ROCSHMEM_MAX | ROCSHMEM_MIN | ROCSHMEM_PROD
| ROCSHMEM_AND | ROCSHMEM_OR | ROCSHMEM_XOR | ROCSHMEM_REPLACE.

#[global] Instance ro_net_cmds_eq_dec : EqDecision ro_net_cmds.
Proof. solve_decision. Defined.

(** The fields of a queue element that some code reads or writes; the unions
    [ol1] and [ol2] are 64-bit patterns. *)
Record queue_element := mkElement {
  valid : bool;
  type : ro_net_cmds;
  PE : Z;
  src : Z;
  dst : Z;
  ro_net_win_id : Z;
  op : ROCSHMEM_OP;
  datatype : ro_net_types;
  PE_root : Z;
  status : Z;
  team_comm : Z;
  ol1 : Z;
  ol2 : Z
}.

(** [QueueProxy] clears the whole array of elements with [memset]. *)
Definition zero_element : queue_element :=
  mkElement false RO_NET_PUT 0 0 0 0 ROCSHMEM_SUM RO_NET_FLOAT 0 0 0 0 0.

Definition set_valid (b : bool) (e : queue_element) : queue_element :=
  mkElement b (type e) (PE e) (src e) (dst e) (ro_net_win_id e) (op e) (datatype e)
    (PE_root e) (status e) (team_comm e) (ol1 e) (ol2 e).

Definition set_op (o : ROCSHMEM_OP) (t : ro_net_types) (e : queue_element) : queue_element :=
  mkElement (valid e) (type e) (PE e) (src e) (dst e) (ro_net_win_id e) o t
    (PE_root e) (status e) (team_comm e) (ol1 e) (ol2 e).

Definition set_datatype (t : ro_net_types) (e : queue_element) : queue_element :=
  set_op (op e) t e.

Definition set_root (r : Z) (e : queue_element) : queue_element :=
  mkElement (valid e) (type e) (PE e) (src e) (dst e) (ro_net_win_id e) (op e) (datatype e)
    r (status e) (team_comm e) (ol1 e) (ol2 e).

Definition set_team_comm (c : Z) (e : queue_element) : queue_element :=
  mkElement (valid e) (type e) (PE e) (src e) (dst e) (ro_net_win_id e) (op e) (datatype e)
    (PE_root e) (status e) c (ol1 e) (ol2 e).

Definition set_ol2 (w : Z) (e : queue_element) : queue_element :=
  mkElement (valid e) (type e) (PE e) (src e) (dst e) (ro_net_win_id e) (op e) (datatype e)
    (PE_root e) (status e) (team_comm e) (ol1 e) w.

(** The arguments of [build_queue_element].  [c_value] is what [src] points to,
    read only for [RO_NET_P]; the arguments the function ignores are left out. *)
Record call := mkCall {
  c_type : ro_net_cmds;
  c_dst : Z;
  c_src : Z;
  c_value : Z;
  c_size : Z;
  c_pe : Z;
  c_root : Z;
  c_pWrk : Z;
  c_team_comm : Z;
  c_win_id : Z;
  c_blocking : bool;
  c_status : Z;
  c_op : ROCSHMEM_OP;
  c_datatype : ro_net_types
}.

(** [memcpy(&x, &v, n)] on a 64-bit little-endian [x]. *)
Definition store_low (x v n : Z) : Z := x - x mod 2 ^ (8 * n) + v mod 2 ^ (8 * n).

(** The stores of [build_queue_element] before the first fence; the fields it
    does not store keep what the previous user of the slot left. *)
Definition build_queue_element (c : call) (e : queue_element) : queue_element :=
  let e1 :=
    mkElement (valid e) (c_type c) (c_pe c)
      (if decide (c_type c = RO_NET_P) then store_low (src e) (c_value c) (c_size c) else c_src c)
      (c_dst c) (c_win_id c) (op e) (datatype e) (PE_root e)
      (if c_blocking c then c_status c else status e) (team_comm e) (c_size c) (ol2 e) in
  match c_type c with
  | RO_NET_AMO_FOP => set_op (c_op c) (c_datatype c) e1
  | RO_NET_AMO_FCAS => set_datatype (c_datatype c) (set_ol2 (c_pWrk c) e1)
  | RO_NET_TEAM_REDUCE | RO_NET_TEAM_REDUCE_SCATTER =>
      set_team_comm (c_team_comm c) (set_op (c_op c) (c_datatype c) e1)
  | RO_NET_TEAM_BROADCAST =>
      set_team_comm (c_team_comm c) (set_datatype (c_datatype c) (set_root (c_root c) e1))
  | RO_NET_ALLTOALL | RO_NET_FCOLLECT =>
      set_ol2 (c_pWrk c) (set_team_comm (c_team_comm c) (set_datatype (c_datatype c) e1))
  | RO_NET_SYNC => set_team_comm (c_team_comm c) e1
  | _ => e1
  end.

(** ** The calls of a context

    What each operation of [ROContext] posts when the target is not reachable by
    IPC.  [win] is the window of the context and [flag] what [get_status_flag]
    returned to the calling thread. *)

Section Calls.
Context (win flag : Z).

Definition rma_call (ty : ro_net_cmds) (blocking : bool) (st dest source nelems pe : Z) : call :=
  mkCall ty dest source 0 nelems pe 0 0 0 win blocking st ROCSHMEM_SUM RO_NET_INT.

Definition putmem (dest source nelems pe : Z) : call := rma_call RO_NET_PUT true flag dest source nelems pe.
Definition getmem (dest source nelems pe : Z) : call := rma_call RO_NET_GET true flag dest source nelems pe.
Definition putmem_nbi (dest source nelems pe : Z) : call :=
  rma_call RO_NET_PUT_NBI false 0 dest source nelems pe.
Definition getmem_nbi (dest source nelems pe : Z) : call :=
  rma_call RO_NET_GET_NBI false 0 dest source nelems pe.

Definition p (dest value sizeof pe : Z) : call :=
  mkCall RO_NET_P dest 0 value sizeof pe 0 0 0 win true flag ROCSHMEM_SUM RO_NET_INT.

Definition order_call (ty : ro_net_cmds) (comm : Z) : call :=
  mkCall ty 0 0 0 0 0 0 0 comm win true flag ROCSHMEM_SUM RO_NET_INT.

Definition fence : call := order_call RO_NET_FENCE 0.
Definition quiet : call := order_call RO_NET_QUIET 0.
Definition barrier_all : call := order_call RO_NET_BARRIER 0.
Definition barrier (comm : Z) : call := order_call RO_NET_BARRIER comm.
Definition sync_all : call := order_call RO_NET_SYNC 0.
Definition sync (comm : Z) : call := order_call RO_NET_SYNC comm.

(** [ret] is the buffer for the fetched value. *)
Definition amo_fop (o : ROCSHMEM_OP) (t : ro_net_types) (dest value ret pe : Z) : call :=
  mkCall RO_NET_AMO_FOP dest ret 0 (u64 value) pe 0 0 0 win true flag o t.

Definition amo_fetch_add := amo_fop ROCSHMEM_SUM.
Definition amo_swap := amo_fop ROCSHMEM_REPLACE.
Definition amo_fetch_and := amo_fop ROCSHMEM_AND.
Definition amo_fetch_or := amo_fop ROCSHMEM_OR.
Definition amo_fetch_xor := amo_fop ROCSHMEM_XOR.

Definition amo_fetch_cas (t : ro_net_types) (dest value cond ret pe : Z) : call :=
  mkCall RO_NET_AMO_FCAS dest ret 0 (u64 value) pe 0 (u64 cond) 0 win true flag ROCSHMEM_SUM t.

Definition team_call (ty : ro_net_cmds) (comm : Z) (o : ROCSHMEM_OP) (t : ro_net_types)
    (root pwrk dest source nelems : Z) : call :=
  mkCall ty dest source 0 (u64 nelems) 0 root pwrk comm win true flag o t.

Definition reduce_wg (comm : Z) (o : ROCSHMEM_OP) (t : ro_net_types) (dest source nreduce : Z) : call :=
  team_call RO_NET_TEAM_REDUCE comm o t 0 0 dest source nreduce.
Definition reduce_scatter_wg (comm : Z) (o : ROCSHMEM_OP) (t : ro_net_types) (dest source nreduce : Z)
    : call :=
  team_call RO_NET_TEAM_REDUCE_SCATTER comm o t 0 0 dest source nreduce.
Definition broadcast_wg (comm : Z) (t : ro_net_types) (dest source nelems root : Z) : call :=
  team_call RO_NET_TEAM_BROADCAST comm ROCSHMEM_SUM t root 0 dest source nelems.
Definition alltoall_wg (comm : Z) (t : ro_net_types) (dest source nelems ata_buffer : Z) : call :=
  team_call RO_NET_ALLTOALL comm ROCSHMEM_SUM t 0 ata_buffer dest source nelems.
Definition fcollect_wg (comm : Z) (t : ro_net_types) (dest source nelems ata_buffer : Z) : call :=
  team_call RO_NET_FCOLLECT comm ROCSHMEM_SUM t 0 ata_buffer dest source nelems.

End Calls.

(** The commands a thread posts without waiting for them. *)
Definition nonblocking (ty : ro_net_cmds) : bool :=
  match ty with RO_NET_PUT_NBI | RO_NET_GET_NBI => true | _ => false end.

Definition call_ok (c : call) : bool := Bool.eqb (c_blocking c) (negb (nonblocking (c_type c))).

(** ** The machine *)

Record BlockHandle := mkHandle { lock : bool; read_index : Z; write_index : Z }.

Inductive lane_pc := LFill | LPublish | LWait | LClear | LDone.

#[global] Instance lane_pc_eq_dec : EqDecision lane_pc.
Proof. solve_decision. Defined.

(** A wavefront in [build_queue_element].  [WLanes] with every lane at [LDone]
    is a wavefront outside of it. *)
Inductive wave :=
| WLock (cs : list call)
| WSpace (cs : list call)
| WAdd (slot : Z) (cs : list call)
| WUnlock (ticket : nat) (slot : Z) (cs : list call)
| WLanes (ticket : nat) (slot : Z) (ls : list (call * lane_pc)).

Inductive host_pc := HPoll | HInserted | HCleared.

Record ring := mkRing {
  queue : list queue_element;
  host_read_index : Z;
  host : host_pc;
  handles : Z -> BlockHandle;
  waves : Z -> wave;
  posted : list (call * bool);
  consumed : nat
}.

Inductive action :=
| ACall (w : Z) (cs : list (Z * call))
| ALock (w : Z) | ARefresh (w : Z) | ARead (w : Z) | AAdd (w : Z) | AUnlock (w : Z)
| AFill (w : Z) (i : nat) | APublish (w : Z) (i : nat) | APoll (w : Z) (i : nat) | AClear (w : Z) (i : nat)
| HInsert | HClear | HAdvance.

(** What a step does outside the ring: nothing, the hand-over of an element, a
    poll that read a set flag, a store of 0 to a flag. *)
Inductive label :=
| Tau
| Insert (t : nat) (e : queue_element)
| Seen (flag : Z)
| Reset (flag : Z).

Definition enough_space (queue_size : Z) (h : BlockHandle) (required : Z) : bool :=
  required <=? u64 (queue_size - u64 (write_index h - read_index h)).

Definition lane_done (l : call * lane_pc) : bool :=
  match l.2 with LDone => true | _ => false end.

Definition idle (x : wave) : bool :=
  match x with WLanes _ _ ls => forallb lane_done ls | _ => false end.

Definition set_wave (r : ring) (w : Z) (x : wave) : ring :=
  mkRing (queue r) (host_read_index r) (host r) (handles r) (upd (waves r) w x) (posted r) (consumed r).

Definition set_handle (r : ring) (h : Z) (x : BlockHandle) : ring :=
  mkRing (queue r) (host_read_index r) (host r) (upd (handles r) h x) (waves r) (posted r) (consumed r).

Definition set_queue (r : ring) (q : list queue_element) : ring :=
  mkRing q (host_read_index r) (host r) (handles r) (waves r) (posted r) (consumed r).

Definition set_posted (r : ring) (l : list (call * bool)) : ring :=
  mkRing (queue r) (host_read_index r) (host r) (handles r) (waves r) l (consumed r).

Definition set_host (r : ring) (x : host_pc) : ring :=
  mkRing (queue r) (host_read_index r) x (handles r) (waves r) (posted r) (consumed r).

Section Machine.
(** The size of the ring, the handle each wavefront posts through, the flags of
    the context, and the sizes of a wavefront and of a work-group. *)
Context (queue_size : Z) (handle_of : Z -> Z) (flags : Z) (WF_SIZE max_wg_size : Z).

(** [get_status_flag] in a context of its own: the flag of the calling thread. *)
Definition get_status_flag (thread_id : Z) : Z := flags + thread_id.

(** The threads of one call are distinct threads of the wavefront. *)
Definition callers_ok (w : Z) (cs : list (Z * call)) : bool :=
  bool_decide (NoDup cs.*1) &&
  forallb (fun '(tid, c) =>
    (tid / WF_SIZE =? w) && (0 <=? tid) && (tid <? max_wg_size) && call_ok c &&
    (negb (c_blocking c) || (c_status c =? get_status_flag tid))) cs &&
  (1 <=? Z.of_nat (length cs)).

(** [write_slot % handle->queue_size] of lane [i]. *)
Definition slot_of (slot : Z) (i : nat) : nat := Z.to_nat (u64 (slot + Z.of_nat i) mod queue_size).

Definition element (r : ring) (s : nat) : queue_element := nth s (queue r) zero_element.

Definition advance (r : ring) (w : Z) (tk : nat) (slot : Z) (ls : list (call * lane_pc)) (i : nat)
    (l : call * lane_pc) : ring :=
  set_wave r w (WLanes tk slot (<[i := l]> ls)).

(** The next step of lane [i] with call [c]. *)
Definition exec_lane (a : action) (r : ring) (w : Z) (tk : nat) (slot : Z)
    (ls : list (call * lane_pc)) (i : nat) (c : call) (pc : lane_pc) : option (ring * label) :=
  let s := slot_of slot i in
  let e := element r s in
  match a, pc with
  | AFill _ _, LFill =>
      Some (set_queue (advance r w tk slot ls i (c, LPublish)) (<[s := build_queue_element c e]> (queue r)), Tau)
  | APublish _ _, LPublish =>
      Some (set_posted
              (set_queue (advance r w tk slot ls i (c, if c_blocking c then LWait else LDone))
                 (<[s := set_valid true e]> (queue r)))
              (<[(tk + i)%nat := (c, true)]> (posted r)), Tau)
  | APoll _ _, LWait => Some (advance r w tk slot ls i (c, LClear), Seen (status e))
  | AClear _ _, LClear => Some (advance r w tk slot ls i (c, LDone), Reset (status e))
  | _, _ => None
  end.

(** The calls of a wavefront up to the release of the lock. *)
Definition exec_wave (a : action) (r : ring) (w : Z) : option (ring * label) :=
  let h := handles r (handle_of w) in
  let put x := set_handle r (handle_of w) x in
  match a, waves r w with
  | ACall _ cs, WLanes _ _ ls =>
      if idle (waves r w) && callers_ok w cs then Some (set_wave r w (WLock cs.*2), Tau) else None
  | ALock _, WLock cs =>
      if lock h then None
      else Some (set_wave (put (mkHandle true (read_index h) (write_index h))) w (WSpace cs), Tau)
  | ARefresh _, WSpace cs =>
      if enough_space queue_size h (Z.of_nat (length cs)) then None
      else Some (put (mkHandle (lock h) (host_read_index r) (write_index h)), Tau)
  | ARead _, WSpace cs =>
      if enough_space queue_size h (Z.of_nat (length cs))
      then Some (set_wave r w (WAdd (write_index h) cs), Tau) else None
  | AAdd _, WAdd slot cs =>
      Some (set_posted
              (set_wave (put (mkHandle (lock h) (read_index h) (u64 (write_index h + Z.of_nat (length cs))))) w
                 (WUnlock (length (posted r)) slot cs))
              (posted r ++ ((fun c => (c, false)) <$> cs)), Tau)
  | AUnlock _, WUnlock tk slot cs =>
      Some (set_wave (put (mkHandle false (read_index h) (write_index h))) w
              (WLanes tk slot ((fun c => (c, LFill)) <$> cs)), Tau)
  | _, _ => None
  end.

(** [Queue::process]. *)
Definition exec_host (a : action) (r : ring) : option (ring * label) :=
  let s := Z.to_nat (host_read_index r mod queue_size) in
  let e := element r s in
  match a, host r with
  | HInsert, HPoll => if valid e then Some (set_host r HInserted, Insert (consumed r) e) else None
  | HClear, HInserted => Some (set_host (set_queue r (<[s := set_valid false e]> (queue r))) HCleared, Tau)
  | HAdvance, HCleared =>
      Some (mkRing (queue r) (u64 (host_read_index r + 1)) HPoll (handles r) (waves r) (posted r)
              (S (consumed r)), Tau)
  | _, _ => None
  end.

Definition exec (a : action) (r : ring) : option (ring * label) :=
  match a with
  | ACall w _ | ALock w | ARefresh w | ARead w | AAdd w | AUnlock w => exec_wave a r w
  | AFill w i | APublish w i | APoll w i | AClear w i =>
      match waves r w with
      | WLanes tk slot ls =>
          match ls !! i with Some (c, pc) => exec_lane a r w tk slot ls i c pc | None => None end
      | _ => None
      end
  | HInsert | HClear | HAdvance => exec_host a r
  end.

Fixpoint run (l : list action) (r : ring) : option (ring * list label) :=
  match l with
  | [] => Some (r, [])
  | a :: l' =>
      match exec a r with
      | Some (r', x) => match run l' r' with Some (r'', xs) => Some (r'', x :: xs) | None => None end
      | None => None
      end
  end.

(** The constructors of [QueueProxy], [QueueDescProxy] and [BlockHandleProxy]. *)
Definition ring_init : ring :=
  mkRing (replicate (Z.to_nat queue_size) zero_element) 0 HPoll
    (fun _ => mkHandle false 0 0) (fun _ => WLanes 0 0 []) [] 0.

End Machine.

(** ** The invariant of a ring with one handle *)

(** What the host may read from the element of a published call. *)
Definition carries (c : call) (e : queue_element) : Prop :=
  exists e0, e = set_valid true (build_queue_element c e0).

Definition published (pc : lane_pc) : bool :=
  match pc with LFill | LPublish => false | _ => true end.

(** The wavefronts that hold the lock. *)
Definition holds (x : wave) : bool :=
  match x with WSpace _ | WAdd _ _ | WUnlock _ _ _ => true | _ => false end.

(** The tickets of a wavefront: the first one, its slot, and the lanes. *)
Definition tickets (x : wave) : nat * Z * list (call * lane_pc) :=
  match x with
  | WUnlock tk slot cs => (tk, slot, (fun c => (c, LFill)) <$> cs)
  | WLanes tk slot ls => (tk, slot, ls)
  | _ => (0%nat, 0, [])
  end.

Section Single.
Context (queue_size : Z) (handle_of : Z -> Z) (flags WF_SIZE max_wg_size h0 : Z).
Context (Hsize : 0 < queue_size < 2 ^ 64) (Hdiv : (queue_size | 2 ^ 64)).
Context (Hone : forall w, handle_of w = h0).

Local Abbreviation n_slots := (Z.to_nat queue_size).
Local Abbreviation step := (exec queue_size handle_of flags WF_SIZE max_wg_size).

(** Whether ticket [t] is there for the host to read. *)
Definition ready (r : ring) (t : nat) : option call :=
  match posted r !! t, host r with
  | Some (c, true), HCleared => if decide (t = consumed r) then None else Some c
  | Some (c, true), _ => Some c
  | _, _ => None
  end.

(** The element in the hands of the host, between the hand-over and the advance. *)
Definition taking (r : ring) : nat := match host r with HPoll => 0 | _ => 1 end.

(** The indices and the elements. *)
Record memory_ok (r : ring) : Prop := {
  i_len : length (queue r) = n_slots;
  i_host : host_read_index r = u64 (Z.of_nat (consumed r));
  i_write : write_index (handles r h0) = u64 (Z.of_nat (length (posted r)));
  i_read : exists C : nat, read_index (handles r h0) = u64 (Z.of_nat C) /\
             (C <= consumed r <= length (posted r))%nat /\ (length (posted r) <= C + n_slots)%nat;
  i_taken : forall t, (t < consumed r + taking r)%nat -> exists c, posted r !! t = Some (c, true);
  i_slots : forall t, (consumed r <= t < consumed r + n_slots)%nat ->
             exists e, queue r !! (t mod n_slots)%nat = Some e /\
               match ready r t with Some c => carries c e | None => valid e = false end
}.

(** The lock of the handle. *)
Record locking_ok (h : BlockHandle) (ws : Z -> wave) : Prop := {
  i_lock : forall w, holds (ws w) = true -> lock h = true;
  i_excl : forall w w', holds (ws w) = true -> holds (ws w') = true -> w = w';
  i_add : forall w slot cs, ws w = WAdd slot cs ->
             slot = write_index h /\ enough_space queue_size h (Z.of_nat (length cs)) = true
}.

(** The tickets of the wavefronts. *)
Record lanes_ok (q : list queue_element) (ps : list (call * bool)) (ws : Z -> wave) : Prop := {
  i_lanes : forall w tk slot ls i c pc, tickets (ws w) = (tk, slot, ls) -> ls !! i = Some (c, pc) ->
             slot = u64 (Z.of_nat tk) /\ ps !! (tk + i)%nat = Some (c, published pc) /\
             (pc = LPublish -> exists e0, q !! ((tk + i) mod n_slots)%nat = Some (build_queue_element c e0));
  i_apart : forall w w' tk slot ls tk' slot' ls' i j, w <> w' ->
             tickets (ws w) = (tk, slot, ls) -> tickets (ws w') = (tk', slot', ls') ->
             (i < length ls)%nat -> (j < length ls')%nat -> (tk + i)%nat <> (tk' + j)%nat
}.

Record inv (r : ring) : Prop := {
  i_memory : memory_ok r;
  i_locking : locking_ok (handles r h0) (waves r);
  i_tickets : lanes_ok (queue r) (posted r) (waves r)
}.

Lemma slot_ticket tk i :
  slot_of queue_size (u64 (Z.of_nat tk)) i = ((tk + i) mod n_slots)%nat.
Proof using Hsize Hdiv.
  unfold slot_of. rewrite wrap_add_l, wrap_mod_divide by (done || lia).
  rewrite <- Nat2Z.inj_add, <- (Z2Nat.id queue_size) at 1 by lia.
  by rewrite <- Nat2Z.inj_mod, Nat2Z.id.
Qed.

Lemma host_slot r :
  host_read_index r = u64 (Z.of_nat (consumed r)) ->
  Z.to_nat (host_read_index r mod queue_size) = (consumed r mod n_slots)%nat.
Proof using Hsize Hdiv.
  intros ->. rewrite wrap_mod_divide by (done || lia).
  rewrite <- (Z2Nat.id queue_size) at 1 by lia. by rewrite <- Nat2Z.inj_mod, Nat2Z.id.
Qed.

Lemma window_slots a t u :
  (a <= t < a + n_slots)%nat -> (a <= u < a + n_slots)%nat -> (t mod n_slots = u mod n_slots)%nat -> t = u.
Proof using Hsize.
  intros Ht Hu He.
  pose proof (Nat.div_mod_eq t n_slots). pose proof (Nat.div_mod_eq u n_slots).
  assert ((t / n_slots)%nat = (u / n_slots)%nat \/ (t / n_slots < u / n_slots)%nat \/ (u / n_slots < t / n_slots)%nat)
    as [E|[E|E]] by lia; nia.
Qed.

Lemma slot_bound t : (t mod n_slots < n_slots)%nat.
Proof using Hsize. apply Nat.mod_upper_bound. lia. Qed.

Lemma element_lookup r s e : queue r !! s = Some e -> element r s = e.
Proof. apply nth_lookup_Some. Qed.

(** With space for [n] more elements the write index stays within one turn of
    the cached read index. *)
Lemma space_bound r n (C : nat) :
  write_index (handles r h0) = u64 (Z.of_nat (length (posted r))) ->
  read_index (handles r h0) = u64 (Z.of_nat C) ->
  (C <= length (posted r) <= C + n_slots)%nat ->
  enough_space queue_size (handles r h0) (Z.of_nat n) = true <-> (length (posted r) + n <= C + n_slots)%nat.
Proof using Hsize Hdiv.
  intros Hw Hr HC. unfold enough_space. rewrite Hw, Hr.
  set (W := Z.of_nat (length (posted r))) in *.
  assert (E : u64 (u64 W - u64 (Z.of_nat C)) = W - Z.of_nat C).
  { rewrite wrap_sub_l, wrap_sub_r, wrap_small; lia. }
  rewrite E, wrap_small by lia. lia.
Qed.

(** Case analysis on the wavefront that moved. *)
Ltac wave_cases w :=
  repeat match goal with
  | H : context [upd _ w _ ?w'] |- _ => unfold upd in H; destruct (Z.eqb_spec w' w); subst
  end.

Lemma lanes_ok_same q ps ws w x :
  lanes_ok q ps ws -> tickets x = tickets (ws w) \/ tickets x = (0%nat, 0, []) ->
  lanes_ok q ps (upd ws w x).
Proof using.
  intros [Hl Ha] Hx. constructor.
  - intros w' tk slot ls i c pc Ht Hi. wave_cases w; [|eauto].
    destruct Hx as [Hx|Hx]; rewrite Hx in Ht; [eauto|]. by injection Ht as <- <- <-.
  - intros w1 w2 tk1 slot1 ls1 tk2 slot2 ls2 i j Hne H1 H2 Hi Hj. wave_cases w; try done; [..|by eauto].
    all: destruct Hx as [Hx|Hx]; rewrite Hx in *; [by eauto|]; simplify_eq; simpl in *; lia.
Qed.

Lemma locking_ok_out h ws w x :
  locking_ok h ws -> holds x = false -> locking_ok h (upd ws w x).
Proof using.
  intros [Hl He Ha] Hx. constructor.
  - intros w' H. wave_cases w; [congruence|eauto].
  - intros w1 w2 H1 H2. wave_cases w; try congruence. eauto.
  - intros w' slot cs H. wave_cases w; [by rewrite ?H in Hx|eauto].
Qed.

(** The holder moves on, possibly changing the handle; no one else has a claim
    on it. *)
Lemma locking_ok_holder h h' ws w x :
  locking_ok h ws -> (forall w', w' <> w -> holds (ws w') = false) ->
  (holds x = true -> lock h' = true) ->
  (forall slot cs, x = WAdd slot cs ->
     slot = write_index h' /\ enough_space queue_size h' (Z.of_nat (length cs)) = true) ->
  locking_ok h' (upd ws w x).
Proof using.
  intros _ Hf Hl Ha. constructor.
  - intros w' H. wave_cases w; [eauto|]. rewrite Hf in H; done.
  - intros w1 w2 H1 H2. wave_cases w; try done; rewrite ?Hf in *; done.
  - intros w' slot cs H. wave_cases w; [eauto|]. specialize (Hf w'). rewrite H in Hf. by discriminate Hf.
Qed.

Lemma others_out h ws w : locking_ok h ws -> holds (ws w) = true -> forall w', w' <> w -> holds (ws w') = false.
Proof using.
  intros [_ He _] Hw w' Hne. destruct (holds (ws w')) eqn:E; [|done]. by destruct Hne; apply He.
Qed.


(** The lanes after lane [i] of [w] moved to [pc'], when the elements and the
    histories of the other unpublished tickets stay. *)
Lemma lanes_ok_move q ps q' ps' ws w tk slot ls i c pc pc' :
  lanes_ok q ps ws -> ws w = WLanes tk slot ls -> ls !! i = Some (c, pc) ->
  ps' !! (tk + i)%nat = Some (c, published pc') ->
  (pc' = LPublish -> exists e0, q' !! ((tk + i) mod n_slots)%nat = Some (build_queue_element c e0)) ->
  (forall t, t <> (tk + i)%nat -> ps' !! t = ps !! t) ->
  (forall t c', t <> (tk + i)%nat -> ps !! t = Some (c', false) ->
     q' !! (t mod n_slots)%nat = q !! (t mod n_slots)%nat) ->
  lanes_ok q' ps' (upd ws w (WLanes tk slot (<[i := (c, pc')]> ls))).
Proof using.
  intros [Hl Ha] Hw Hi Hp Hb Hps Hq.
  assert (Hlen : (i < length ls)%nat) by by apply lookup_lt_Some in Hi.
  assert (Htk : tickets (ws w) = (tk, slot, ls)) by by rewrite Hw.
  assert (Hother : forall t c' pc1, t <> (tk + i)%nat -> ps !! t = Some (c', published pc1) ->
    (pc1 = LPublish -> exists e0, q !! (t mod n_slots)%nat = Some (build_queue_element c' e0)) ->
    ps' !! t = Some (c', published pc1) /\
    (pc1 = LPublish -> exists e0, q' !! (t mod n_slots)%nat = Some (build_queue_element c' e0))).
  { intros t c' pc1 Ht Hpt Hbt. rewrite Hps by done. split; [done|]. intros ->. rewrite (Hq t c') by done. auto. }
  constructor.
  - intros w' tk' slot' ls' j c' pc1 Ht Hj. wave_cases w.
    + simplify_eq/=. destruct (Hl _ _ _ _ _ _ _ Htk Hi) as [Hs _]. split; [done|].
      destruct (decide (j = i)) as [->|Hji].
      { rewrite list_lookup_insert_eq in Hj by done. by simplify_eq. }
      rewrite list_lookup_insert_ne in Hj by done.
      destruct (Hl _ _ _ _ _ _ _ Htk Hj) as (_ & Hpj & Hbj). apply Hother; [lia|done..].
    + destruct (Hl _ _ _ _ _ _ _ Ht Hj) as (Hs & Hpj & Hbj). split; [done|]. apply Hother; try done.
      apply lookup_lt_Some in Hj. intros E. by apply (Ha w w' tk slot ls tk' slot' ls' i j).
  - intros w1 w2 tk1 slot1 ls1 tk2 slot2 ls2 i1 j1 Hne H1 H2 Hi1 Hj1.
    wave_cases w; try done; simplify_eq/=; rewrite ?length_insert in *; eauto.
Qed.

Lemma unready_window r t c :
  memory_ok r -> posted r !! t = Some (c, false) ->
  (consumed r + taking r <= t < consumed r + n_slots)%nat /\ (t < length (posted r))%nat.
Proof using Hsize.
  intros [] Ht. pose proof (lookup_lt_Some _ _ _ Ht).
  destruct i_read0 as (C & _ & HC & HC'). split; [|done]. split; [|lia].
  destruct (decide (t < consumed r + taking r)%nat) as [E|]; [|lia].
  destruct (i_taken0 t E) as [c' Hc]. congruence.
Qed.

Lemma slots_other r t u e :
  memory_ok r -> (consumed r <= t < consumed r + n_slots)%nat ->
  (consumed r <= u < consumed r + n_slots)%nat -> t <> u ->
  <[(t mod n_slots)%nat := e]> (queue r) !! (u mod n_slots)%nat = queue r !! (u mod n_slots)%nat.
Proof using Hsize.
  intros Hm Ht Hu Hne. apply list_lookup_insert_ne. intros E. by apply Hne, (window_slots (consumed r)).
Qed.

Lemma ready_unready r t c : posted r !! t = Some (c, false) -> ready r t = None.
Proof using. unfold ready. by intros ->. Qed.

Lemma ro_fill_inv r w tk slot ls i c :
  inv r -> waves r w = WLanes tk slot ls -> ls !! i = Some (c, LFill) ->
  inv (set_queue (advance r w tk slot ls i (c, LPublish))
         (<[slot_of queue_size slot i := build_queue_element c (element r (slot_of queue_size slot i))]> (queue r))).
Proof using Hsize Hdiv.
  intros [Hm Hk Hl] Hw Hi.
  destruct (i_lanes _ _ _ Hl w tk slot ls i c LFill) as (-> & Hp & _); [by rewrite Hw|done|].
  destruct (unready_window r _ c Hm Hp) as [Hwin Hlen].
  rewrite slot_ticket. set (t := (tk + i)%nat) in *.
  destruct (i_slots r Hm t) as (e & He & Hv); [lia|].
  rewrite (ready_unready r t c Hp) in Hv. rewrite (element_lookup r _ e He).
  pose proof (slot_bound t). pose proof (i_len r Hm).
  constructor; simpl.
  - destruct Hm. constructor; simpl; try done; [by rewrite length_insert|].
    intros u Hu. change (ready _ u) with (ready r u).
    destruct (decide (t = u)) as [<-|Hne].
    + eexists. split; [apply list_lookup_insert_eq; lia|]. rewrite (ready_unready r t c Hp).
      unfold build_queue_element. by destruct (c_type c).
    + rewrite (slots_other r) by (done || lia). auto.
  - by apply locking_ok_out.
  - apply (lanes_ok_move (queue r) (posted r) _ _ (waves r) w tk _ ls i c LFill); try done.
    + intros _. exists e. apply list_lookup_insert_eq. lia.
    + intros u c' Hne Hu. destruct (unready_window r u c' Hm Hu). apply slots_other; (done || lia).
Qed.


Lemma ro_publish_inv r w tk slot ls i c :
  inv r -> waves r w = WLanes tk slot ls -> ls !! i = Some (c, LPublish) ->
  inv (set_posted
         (set_queue (advance r w tk slot ls i (c, if c_blocking c then LWait else LDone))
            (<[slot_of queue_size slot i := set_valid true (element r (slot_of queue_size slot i))]> (queue r)))
         (<[(tk + i)%nat := (c, true)]> (posted r))).
Proof using Hsize Hdiv.
  intros [Hm Hk Hl] Hw Hi.
  destruct (i_lanes _ _ _ Hl w tk slot ls i c LPublish) as (-> & Hp & Hb); [by rewrite Hw|done|].
  destruct (Hb eq_refl) as [e0 He]. clear Hb.
  destruct (unready_window r _ c Hm Hp) as [Hwin Hlen].
  rewrite slot_ticket. set (t := (tk + i)%nat) in *.
  rewrite (element_lookup r _ _ He).
  pose proof (slot_bound t). pose proof (i_len r Hm).
  constructor; simpl.
  - destruct Hm. constructor; simpl; rewrite ?length_insert; try done.
    + intros u Hu. destruct (decide (u = t)) as [->|Hne]; [exists c; apply list_lookup_insert_eq; lia|].
      rewrite list_lookup_insert_ne by done. auto.
    + intros u Hu. unfold ready; simpl. destruct (decide (u = t)) as [->|Hne].
      * eexists. split; [apply list_lookup_insert_eq; lia|]. rewrite list_lookup_insert_eq by lia.
        unfold taking in Hwin. destruct (host r); try (by exists e0). rewrite decide_False by lia. by exists e0.
      * rewrite (slots_other r) by (done || lia). rewrite list_lookup_insert_ne by done. by apply i_slots0.
  - apply locking_ok_out; [done|]. done.
  - apply (lanes_ok_move (queue r) (posted r) _ _ (waves r) w tk _ ls i c LPublish); try done.
    + rewrite list_lookup_insert_eq by done. by destruct (c_blocking c).
    + by destruct (c_blocking c).
    + intros u Hne. by rewrite list_lookup_insert_ne.
    + intros u c' Hne Hu. destruct (unready_window r u c' Hm Hu). apply slots_other; (done || lia).
Qed.

Lemma poll_inv r w tk slot ls i c pc pc' :
  inv r -> waves r w = WLanes tk slot ls -> ls !! i = Some (c, pc) ->
  published pc = true -> published pc' = true -> inv (advance r w tk slot ls i (c, pc')).
Proof using.
  intros [Hm Hk Hl] Hw Hi Hpc Hpc'.
  destruct (i_lanes _ _ _ Hl w tk slot ls i c pc) as (_ & Hp & _); [by rewrite Hw|done|].
  constructor; simpl.
  - destruct Hm. by constructor.
  - by apply locking_ok_out.
  - apply (lanes_ok_move (queue r) (posted r) _ _ (waves r) w tk _ ls i c pc); try done.
    + by rewrite Hpc', Hp, Hpc.
    + by intros ->.
Qed.

Lemma exec_lane_inv a r w tk slot ls i c pc r' x :
  inv r -> waves r w = WLanes tk slot ls -> ls !! i = Some (c, pc) ->
  exec_lane queue_size a r w tk slot ls i c pc = Some (r', x) -> inv r'.
Proof using Hsize Hdiv.
  intros Hv Hw Hi He. unfold exec_lane in He.
  destruct a, pc; simplify_eq; [by apply ro_fill_inv|by apply ro_publish_inv|by eapply poll_inv..].
Qed.


(** New tickets for the holder. *)
Lemma add_inv r w slot cs :
  inv r -> waves r w = WAdd slot cs ->
  inv (set_posted
         (set_wave (set_handle r h0 (mkHandle (lock (handles r h0)) (read_index (handles r h0))
                      (u64 (write_index (handles r h0) + Z.of_nat (length cs))))) w
            (WUnlock (length (posted r)) slot cs))
         (posted r ++ ((fun c => (c, false)) <$> cs))).
Proof using Hsize Hdiv.
  intros [Hm Hk Hl] Hw.
  destruct (i_add _ _ Hk _ _ _ Hw) as [-> Hsp]. rewrite (i_write r Hm).
  pose proof (i_lock _ _ Hk w) as Hlk. rewrite Hw in Hlk.
  assert (Hf := others_out _ _ w Hk). rewrite Hw in Hf.
  constructor; simpl; rewrite ?upd_eq; simpl.
  - destruct Hm. destruct i_read0 as (C & HC & Hle & Hle').
    apply (space_bound r _ C) in Hsp; [|done..|lia].
    constructor; simpl; rewrite ?upd_eq, ?length_app, ?length_fmap; simpl; try done.
    + by rewrite wrap_add_l, Nat2Z.inj_add.
    + exists C. split; [done|]. lia.
    + intros t Ht. destruct (i_taken0 t Ht) as [c Hc]. exists c. by apply lookup_app_l_Some.
    + intros t Ht. destruct (i_slots0 t Ht) as (e & He & Hv). exists e. split; [done|].
      unfold ready in *; simpl. destruct (posted r !! t) as [[c b]|] eqn:E.
      * by rewrite (lookup_app_l_Some _ _ _ _ E).
      * apply lookup_ge_None in E. rewrite lookup_app_r, list_lookup_fmap by done.
        by destruct (cs !! _).
  - apply (locking_ok_holder (handles r h0)); [done|by apply Hf|auto|done].
  - destruct Hl as [Hl Ha].
    assert (Hold : forall w' tk slot ls i, tickets (waves r w') = (tk, slot, ls) -> (i < length ls)%nat ->
      (tk + i < length (posted r))%nat).
    { intros w' tk slot ls i Ht Hi. apply lookup_lt_is_Some in Hi as [[c pc] Hi].
      destruct (Hl _ _ _ _ _ _ _ Ht Hi) as (_ & Hp & _). by apply lookup_lt_Some in Hp. }
    constructor.
    + intros w' tk slot ls i c pc Ht Hi. wave_cases w.
      * simplify_eq/=. rewrite list_lookup_fmap in Hi. destruct (cs !! i) as [c'|] eqn:Ei; simplify_eq/=.
        split; [done|]. split; [|done].
        rewrite lookup_app_r by lia. rewrite list_lookup_fmap, Nat.add_sub_swap, Nat.sub_diag by lia. simpl. by rewrite Ei.
      * destruct (Hl _ _ _ _ _ _ _ Ht Hi) as (Hs & Hp & Hb). split; [done|]. split; [|done].
        by apply lookup_app_l_Some.
    + intros w1 w2 tk1 slot1 ls1 tk2 slot2 ls2 i j Hne H1 H2 Hi Hj. wave_cases w; try done; [..|by eauto].
      * injection H2 as <- <- <-. pose proof (Hold _ _ _ _ _ H1 Hi). lia.
      * injection H1 as <- <- <-. pose proof (Hold _ _ _ _ _ H2 Hj). lia.
Qed.

Lemma memory_ok_handle r h ws :
  memory_ok r -> read_index h = read_index (handles r h0) -> write_index h = write_index (handles r h0) ->
  memory_ok (mkRing (queue r) (host_read_index r) (host r) (upd (handles r) h0 h) ws (posted r) (consumed r)).
Proof using. intros [] Hr Hw. constructor; simpl; rewrite ?upd_eq, ?Hr, ?Hw; done. Qed.

Lemma memory_ok_waves r ws :
  memory_ok r ->
  memory_ok (mkRing (queue r) (host_read_index r) (host r) (handles r) ws (posted r) (consumed r)).
Proof using. by intros []; constructor. Qed.

Lemma exec_wave_inv a r w r' x :
  inv r -> exec_wave queue_size handle_of flags WF_SIZE max_wg_size a r w = Some (r', x) -> inv r' /\ x = Tau.
Proof using Hsize Hdiv Hone.
  intros Hv He. unfold exec_wave in He. rewrite !Hone in He.
  destruct a, (waves r w) as [cs'|cs'|slot cs'|tk slot cs'|tk slot ls] eqn:Hw; simplify_eq;
    try case_if_in He; simplify_eq; (split; [|done]); pose proof Hv as [Hm Hk Hl].
  - constructor; [by apply memory_ok_waves|by apply locking_ok_out|by apply lanes_ok_same; [|right]].
  - assert (Hf : forall w', holds (waves r w') = false).
    { intros w'. destruct (holds _) eqn:E'; [|done]. pose proof (i_lock _ _ Hk _ E'). congruence. }
    constructor; simpl; rewrite ?upd_eq.
    + by apply (memory_ok_handle r).
    + by apply (locking_ok_holder (handles r h0)).
    + by apply lanes_ok_same; [|right].
  - assert (Hf := others_out _ _ w Hk). rewrite Hw in Hf.
    constructor; simpl; rewrite ?upd_eq.
    + destruct Hm. constructor; simpl; rewrite ?upd_eq; simpl; try done.
      exists (consumed r). destruct i_read0 as (C & HC & Hle & Hle'). split; [done|]. lia.
    + constructor.
      * intros w' H. exact (i_lock _ _ Hk w' H).
      * exact (i_excl _ _ Hk).
      * intros w' slot cs H. destruct (decide (w' = w)) as [->|Hne]; [congruence|].
        specialize (Hf eq_refl w' Hne). rewrite H in Hf. discriminate.
    + done.
  - assert (Hf := others_out _ _ w Hk). pose proof (i_lock _ _ Hk w) as Hlk. rewrite Hw in Hf, Hlk.
    constructor; [by apply memory_ok_waves| |by apply lanes_ok_same; [|right]]. simpl.
    apply (locking_ok_holder (handles r h0)); [done|by apply Hf|by auto|]. intros slot cs [= <- <-]. done.
  - by apply add_inv.
  - assert (Hf := others_out _ _ w Hk). rewrite Hw in Hf.
    constructor; simpl; rewrite ?upd_eq.
    + by apply (memory_ok_handle r).
    + apply (locking_ok_holder (handles r h0)); [done|by apply Hf|done..].
    + apply lanes_ok_same; [done|left]. by rewrite Hw.
Qed.


(** The element under the read index and what the invariant says of it. *)
Lemma head_element r :
  inv r -> exists e, element r (Z.to_nat (host_read_index r mod queue_size)) = e /\
    queue r !! (consumed r mod n_slots)%nat = Some e /\
    Z.to_nat (host_read_index r mod queue_size) = (consumed r mod n_slots)%nat /\
    match ready r (consumed r) with Some c => carries c e | None => valid e = false end.
Proof using Hsize Hdiv.
  intros [Hm _ _]. destruct (i_slots r Hm (consumed r)) as (e & He & Hv); [lia|].
  exists e. rewrite (host_slot r (i_host r Hm)). split; [by apply element_lookup|]. done.
Qed.

Lemma clear_inv r :
  inv r -> host r = HInserted ->
  let s := Z.to_nat (host_read_index r mod queue_size) in
  inv (set_host (set_queue r (<[s := set_valid false (element r s)]> (queue r))) HCleared).
Proof using Hsize Hdiv.
  intros Hv Hh s. destruct (head_element r Hv) as (e & He & Hq & Hs & Hr).
  subst s. rewrite He, Hs. destruct Hv as [Hm Hk Hl].
  pose proof (slot_bound (consumed r)). pose proof (i_len r Hm).
  constructor; simpl; [|done|].
  - pose proof Hm as []. constructor; simpl; rewrite ?length_insert; try done.
    + intros t Ht. apply i_taken0. unfold taking in *. rewrite Hh. done.
    + intros t Ht. unfold ready; simpl. destruct (decide (t = consumed r)) as [->|Hne].
      * eexists. split; [apply list_lookup_insert_eq; lia|].
        by destruct (posted r !! consumed r) as [[? []]|].
      * rewrite (slots_other r) by (done || lia). destruct (i_slots0 t Ht) as (e' & He' & Hv').
        exists e'. split; [done|]. unfold ready in Hv'. rewrite Hh in Hv'.
        by destruct (posted r !! t) as [[? []]|].
  - destruct Hl as [Hl Ha]. constructor; [|done].
    intros w tk slot ls i c pc Ht Hi. destruct (Hl _ _ _ _ _ _ _ Ht Hi) as (Hsl & Hp & Hb).
    split; [done|]. split; [done|]. intros ->. destruct (unready_window r _ _ Hm Hp) as [Hwin _].
    unfold taking in Hwin. rewrite Hh in Hwin. rewrite (slots_other r) by (done || lia). by apply Hb.
Qed.

Lemma advance_inv r :
  inv r -> host r = HCleared ->
  inv (mkRing (queue r) (u64 (host_read_index r + 1)) HPoll (handles r) (waves r) (posted r) (S (consumed r))).
Proof using Hsize Hdiv.
  intros [Hm Hk Hl] Hh. constructor; [|done..].
  pose proof Hm as []. destruct i_read0 as (C & HC & Hle & Hle').
  assert (Hnext : (consumed r < length (posted r))%nat).
  { destruct (i_taken0 (consumed r)) as [c Hc]; [unfold taking; rewrite Hh; lia|].
    by apply lookup_lt_Some in Hc. }
  constructor; simpl; try done.
  - rewrite i_host0, wrap_add_l. f_equal. lia.
  - exists C. split; [done|]. lia.
  - intros t Ht. apply i_taken0. unfold taking in *. rewrite Hh. simpl in Ht. lia.
  - intros t Ht. destruct (decide (t = consumed r + n_slots)%nat) as [->|Hne].
    + destruct (i_slots0 (consumed r)) as (e & He & Hv); [lia|]. exists e.
      replace ((consumed r + n_slots) mod n_slots)%nat with (consumed r mod n_slots)%nat
        by (rewrite <- (Nat.Div0.add_mod_idemp_r _ n_slots), Nat.Div0.mod_same, Nat.add_0_r; done).
      split; [done|]. unfold ready; simpl. rewrite lookup_ge_None_2 by lia.
      unfold ready in Hv. rewrite Hh in Hv. destruct (posted r !! consumed r) as [[? []]|]; try done.
      by rewrite decide_True in Hv.
    + destruct (i_slots0 t) as (e & He & Hv); [lia|]. exists e. split; [done|].
      unfold ready in *; simpl. rewrite Hh in Hv.
      destruct (posted r !! t) as [[? []]|]; try done. by rewrite decide_False in Hv by lia.
Qed.

(** What a label of a step says of the ring. *)
Definition label_ok (r r' : ring) (x : label) : Prop :=
  match x with
  | Insert t e =>
      t = consumed r /\ taking r = 0%nat /\ taking r' = 1%nat /\ consumed r' = consumed r /\
      exists c, posted r !! t = Some (c, true) /\ carries c e
  | _ => (consumed r' + taking r')%nat = (consumed r + taking r)%nat
  end.

Lemma exec_host_inv a r r' x :
  inv r -> exec_host queue_size a r = Some (r', x) -> inv r' /\ label_ok r r' x.
Proof using Hsize Hdiv.
  intros Hv He. unfold exec_host in He. destruct a, (host r) eqn:Hh; simplify_eq.
  - destruct (head_element r Hv) as (e & Ee & Hq & Hs & Hr). rewrite Ee in He.
    destruct (valid e) eqn:Ev; [|done]. simplify_eq. unfold ready in Hr. rewrite Hh in Hr.
    destruct (posted r !! consumed r) as [[c []]|] eqn:Ep; try congruence.
    split; [|unfold label_ok, taking; rewrite Hh; simpl; eauto 10].
    destruct Hv as [Hm Hk Hl]. constructor; simpl; [|done..].
    destruct Hm. constructor; simpl; try done.
    + intros t Ht. destruct (decide (t = consumed r)) as [->|]; [eauto|].
      apply i_taken0. unfold taking in *. rewrite Hh. simpl in Ht. lia.
    + intros t Ht. destruct (i_slots0 t Ht) as (e' & He' & Hv'). exists e'. split; [done|].
      unfold ready in *; simpl. by rewrite Hh in Hv'.
  - split; [by apply clear_inv|]. unfold label_ok, taking. simpl. by rewrite Hh.
  - split; [by apply advance_inv|]. unfold label_ok, taking. simpl. rewrite Hh. lia.
Qed.


Lemma exec_lane_label a r w tk slot ls i c pc r' x :
  exec_lane queue_size a r w tk slot ls i c pc = Some (r', x) -> label_ok r r' x.
Proof using. unfold exec_lane. intros He. by destruct a, pc; simplify_eq. Qed.

Lemma ro_exec_inv a r r' x : inv r -> step a r = Some (r', x) -> inv r' /\ label_ok r r' x.
Proof using Hsize Hdiv Hone.
  intros Hv He.
  assert (Hwave : forall w, exec_wave queue_size handle_of flags WF_SIZE max_wg_size a r w = Some (r', x) ->
    inv r' /\ label_ok r r' x).
  { intros w Hw. destruct (exec_wave_inv a r w r' x Hv Hw) as [Hv' ->]. split; [done|].
    unfold exec_wave in Hw. by destruct a, (waves r w); simplify_eq; try case_if_in Hw; simplify_eq. }
  destruct a; cbn [exec] in He; try (by eapply Hwave); try (by eapply exec_host_inv).
  all: destruct (waves r w) as [| | | |tk slot ls] eqn:Hw; try done.
  all: destruct (ls !! i) as [[c pc]|] eqn:Hi; try done.
  all: split; [by eapply exec_lane_inv|by eapply exec_lane_label].
Qed.

(** The wavefront steps only add tickets. *)
Lemma exec_wave_posted a r w r' x t y :
  exec_wave queue_size handle_of flags WF_SIZE max_wg_size a r w = Some (r', x) -> posted r !! t = Some y ->
  posted r' !! t = Some y.
Proof using.
  unfold exec_wave. intros He Ht. destruct a, (waves r w); simplify_eq; try case_if_in He; simplify_eq; try done.
  simpl. by apply lookup_app_l_Some.
Qed.

Lemma exec_host_posted a r r' x :
  exec_host queue_size a r = Some (r', x) -> posted r' = posted r.
Proof using. unfold exec_host. intros He. destruct a, (host r); simplify_eq; try case_if_in He; by simplify_eq. Qed.

(** Published tickets stay. *)
Lemma exec_posted a r r' x t c :
  inv r -> step a r = Some (r', x) -> posted r !! t = Some (c, true) -> posted r' !! t = Some (c, true).
Proof using.
  intros [_ _ Hl] He Ht. destruct a; cbn [exec] in He;
    try (by eapply exec_wave_posted); try (by rewrite (exec_host_posted _ _ _ _ He)).
  all: destruct (waves r w) as [| | | |tk slot ls] eqn:Hw; try done.
  all: destruct (ls !! i) as [[c' pc]|] eqn:Hi; try done.
  all: unfold exec_lane in He; destruct pc; simplify_eq; try done.
  destruct (i_lanes _ _ _ Hl w tk slot ls i c' LPublish) as (_ & Hp & _); [by rewrite Hw|done|].
  simpl. destruct (decide (t = (tk + i)%nat)) as [->|Hne]; [by rewrite Hp in Ht|].
  by rewrite list_lookup_insert_ne.
Qed.

(** The elements handed over in a run. *)
Definition handed (xs : list label) : list (nat * queue_element) :=
  omap (fun x => match x with Insert t e => Some (t, e) | _ => None end) xs.

Definition handed_ok (r : ring) (from : nat) (l : list (nat * queue_element)) : Prop :=
  forall k t e, l !! k = Some (t, e) ->
    t = (from + k)%nat /\ exists c, posted r !! t = Some (c, true) /\ carries c e.

Lemma ro_run_inv l r r' xs :
  inv r -> run queue_size handle_of flags WF_SIZE max_wg_size l r = Some (r', xs) ->
  inv r' /\ (forall t c, posted r !! t = Some (c, true) -> posted r' !! t = Some (c, true)) /\
  handed_ok r' (consumed r + taking r) (handed xs) /\
  (consumed r' + taking r' = consumed r + taking r + length (handed xs))%nat.
Proof using Hsize Hdiv Hone.
  revert r xs. induction l as [|a l IH]; intros r xs Hv; simpl.
  { intros [= <- <-]. split; [done|]. split; [done|]. split; [done|]. simpl. lia. }
  destruct (step a r) as [[r1 x]|] eqn:He; [|done].
  destruct (run _ _ _ _ _ l r1) as [[r2 ys]|] eqn:Hr; [|done]. intros [= <- <-].
  destruct (ro_exec_inv a r r1 x Hv He) as [Hv1 Hx].
  destruct (IH r1 ys Hv1 Hr) as (Hv2 & Hp & Hh & Hlen).
  split; [done|]. split; [intros t c Ht; apply Hp; exact (exec_posted a r r1 x t c Hv He Ht)|].
  destruct x as [|t0 e| |]; simpl in Hx; try (rewrite <- Hx; by split).
  destruct Hx as (-> & Ht0 & Ht1 & Hc & c & Hpc & Hca).
  rewrite Ht1, Hc in *. rewrite Ht0, Nat.add_0_r. cbn [handed omap list_omap] in *. fold (handed ys). split.
  - intros [|k] t' e' Hk; simpl in Hk.
    + injection Hk as <- <-. split; [lia|]. exists c. split; [|done]. apply Hp. exact (exec_posted a r r1 _ _ c Hv He Hpc).
    + destruct (Hh k t' e' Hk) as [-> H]. split; [lia|done].
  - simpl. lia.
Qed.


Lemma ring_init_inv : inv (ring_init queue_size).
Proof using Hsize.
  constructor.
  - constructor; simpl; try done.
    + apply length_replicate.
    + exists 0%nat. split; [done|]. lia.
    + unfold taking. simpl. lia.
    + intros t Ht. exists zero_element. split; [|done].
      apply lookup_replicate_2, slot_bound.
  - by constructor.
  - constructor; simpl.
    + intros w tk slot ls i c pc [= <- <- <-] Hi. done.
    + intros w w' tk slot ls tk' slot' ls' i j _ [= <- <- <-] _ Hi. simpl in Hi. lia.
Qed.

(** C18: The command queue of a context is a lossless FIFO.  In every run of the
    wavefronts of a context and the host worker, whatever the interleaving, the
    elements handed to the transport are those of tickets 0, 1, 2, ... in this
    order, each once, and each carries exactly the call posted under its ticket;
    no more than [queue_size] tickets are ever in flight, so no element is
    overwritten before it is handed over; and the host takes the next element
    exactly when its poster has published it. *)
Theorem ro_queue_fifo l r xs :
  run queue_size handle_of flags WF_SIZE max_wg_size l (ring_init queue_size) = Some (r, xs) ->
  (forall k t e, handed xs !! k = Some (t, e) ->
     t = k /\ exists c, posted r !! k = Some (c, true) /\ carries c e) /\
  length (handed xs) = (consumed r + taking r)%nat /\
  (length (posted r) <= consumed r + n_slots)%nat /\
  (host r = HPoll ->
     (exists r' x, exec_host queue_size HInsert r = Some (r', x)) <->
     exists c, posted r !! consumed r = Some (c, true)).
Proof using Hsize Hdiv Hone.
  intros Hr. destruct (ro_run_inv l _ r xs ring_init_inv Hr) as (Hv & _ & Hh & Hlen).
  change (consumed (ring_init queue_size) + taking (ring_init queue_size))%nat with 0%nat in *.
  split; [|split; [done|split]].
  - intros k t e Hk. destruct (Hh k t e Hk) as [-> H]. done.
  - destruct (i_read r (i_memory r Hv)) as (C & _ & ? & ?). lia.
  - intros Hp. destruct (head_element r Hv) as (e & He & _ & _ & Hready).
    unfold exec_host. rewrite He, Hp. unfold ready in Hready. rewrite Hp in Hready. split.
    + intros (r' & x & Hx). destruct (valid e) eqn:Ev; [|done].
      destruct (posted r !! consumed r) as [[c []]|] eqn:Ep; try congruence. eauto.
    + intros (c & Hc). rewrite Hc in Hready. destruct Hready as [e0 ->]. simpl. eauto.
Qed.

End Single.

(** A wavefront of one thread makes one call from start to the publication. *)
Definition post_one (w tid : Z) (c : call) : list action :=
  [ACall w [(tid, c)]; ALock w; ARead w; AAdd w; AUnlock w; AFill w 0; APublish w 0].

Definition host_takes : list action := [HInsert; HClear; HAdvance].

Definition fifo_demo : list action :=
  post_one 0 3 (putmem_nbi 0 64 8 16 1) ++ host_takes ++
  [ACall 1 [(64, getmem 0 1064 16 32 8 2); (70, getmem 0 1070 24 40 8 2)]; ALock 1; ARefresh 1; ARead 1; AAdd 1; AUnlock 1;
   AFill 1 1; APublish 1 1; AFill 1 0] ++ [APublish 1 0] ++ host_takes ++ [HInsert].

Lemma ro_queue_fifo_witness :
  exists r xs, run 2 (fun _ => 7) 1000 64 1024 fifo_demo (ring_init 2) = Some (r, xs) /\
    length (handed xs) = 3%nat /\
    (forall k t e, handed xs !! k = Some (t, e) ->
       t = k /\ exists c, posted r !! k = Some (c, true) /\ carries c e).
Proof.
  destruct (run 2 (fun _ => 7) 1000 64 1024 fifo_demo (ring_init 2)) as [[r xs]|] eqn:E.
  - exists r, xs. split; [done|].
    destruct (ro_queue_fifo 2 (fun _ => 7) 1000 64 1024 7 ltac:(lia) ltac:(exists (2 ^ 63); reflexivity)
                ltac:(done) fifo_demo r xs E) as (Hh & Hlen & _ & _).
    split; [|exact Hh]. revert E. vm_compute. intros [= <- <-]. reflexivity.
  - exfalso. revert E. vm_compute. discriminate.
Defined.

(** ** Two handles on one ring

    [DefaultBlockHandleProxy] and [BlockHandleProxy] build the handle of the
    default context and that of context 0 from the same descriptor and the same
    elements: two handles, each with its own lock and write index, on ring 0.
    Wavefront 0 posts through the default context, wavefront 1 through
    context 0. *)

Definition default_then_context0 : list action :=
  post_one 0 0 (putmem_nbi 0 4096 8192 64 1) ++ host_takes ++
  post_one 1 64 (getmem 0 64 4096 8192 64 1).

(** The default context and the first created context post into one ring
    through two handles.  With the ring size of the library, after one
    non-blocking put of the default context has been handed over, a blocking get
    of context 0 is published in element 0 while the host polls element 1: the
    host has no step, so the get is never handed over and its thread waits for
    ever. *)
Theorem ro_default_context_starves_context0 :
  exists r xs,
    run 512 (fun w => w) 0 64 1024 default_then_context0 (ring_init 512) = Some (r, xs) /\
    waves r 1 = WLanes 1 0 [(getmem 0 64 4096 8192 64 1, LWait)] /\
    handed xs = [(0%nat, set_valid true (build_queue_element (putmem_nbi 0 4096 8192 64 1) zero_element))] /\
    forall a, exec_host 512 a r = None.
Proof.
  eexists _, _. split; [vm_compute; reflexivity|].
  split; [reflexivity|]. split; [reflexivity|]. by intros [].
Qed.
