(* ===== verification/MpiTransport.v ===== *)
(** * The MPI transport of the reverse-offload backend

    The host side of the reverse-offload backend: a progress thread takes the
    queue elements handed over by the command queues, makes the MPI calls they
    ask for, tests the requests in flight and sets the status flag of the posting
    thread when its operation is complete: [src/reverse_offload/mpi_transport.cpp]
    and [mpi_transport.hpp].

    MPI itself is not modelled: the calls made are recorded in order, with a
    fresh handle for every request; which requests MPI has completed is a set
    that the environment grows; [MPI_Testsome] may report any completed requests
    among those it was given; ranks, sizes and rank translation are functions of
    the communicator.  A failed assertion, an invalid packet and
    [LOG_ERROR_EXIT] are [None].

    [tag], [issued], [inserted] and [submitted] are histories that no operation
    of the source reads: an element is tagged with the number of elements its
    queue had handed over before it. *)

From stdpp Require Import base list numbers gmap sorting.
From S2P Require Import Prelude RoQueue.

(** ** MPI calls *)

Inductive MPI_Op :=
| MPI_SUM | MPI_MAX | MPI_MIN | MPI_PROD | MPI_BAND | MPI_BOR | MPI_BXOR | MPI_REPLACE.

Inductive MPI_Datatype :=
| MPI_FLOAT | MPI_DOUBLE | MPI_INT | MPI_LONG | MPI_UNSIGNED_LONG | MPI_LONG_LONG | MPI_SHORT
| MPI_LONG_DOUBLE | MPI_CHAR | MPI_SIGNED_CHAR | MPI_UNSIGNED_CHAR.

Definition get_mpi_op (o : ROCSHMEM_OP) : MPI_Op :=
  match o with
  | ROCSHMEM_SUM => MPI_SUM
  | ROCSHMEM_MAX => MPI_MAX
  | ROCSHMEM_MIN => MPI_MIN
  | ROCSHMEM_PROD => MPI_PROD
  | ROCSHMEM_AND => MPI_BAND
  | ROCSHMEM_OR => MPI_BOR
  | ROCSHMEM_XOR => MPI_BXOR
  | ROCSHMEM_REPLACE => MPI_REPLACE
  end.

Definition convertType (t : ro_net_types) : MPI_Datatype :=
  match t with
  | RO_NET_FLOAT => MPI_FLOAT
  | RO_NET_DOUBLE => MPI_DOUBLE
  | RO_NET_INT => MPI_INT
  | RO_NET_LONG => MPI_LONG
  | RO_NET_UNSIGNED_LONG => MPI_UNSIGNED_LONG
  | RO_NET_LONG_LONG => MPI_LONG_LONG
  | RO_NET_SHORT => MPI_SHORT
  | RO_NET_LONG_DOUBLE => MPI_LONG_DOUBLE
  | RO_NET_CHAR => MPI_CHAR
  | RO_NET_SIGNED_CHAR => MPI_SIGNED_CHAR
  | RO_NET_UNSIGNED_CHAR => MPI_UNSIGNED_CHAR
  end.

(** Where an origin buffer is: at an address, or in a buffer of the transport
    that holds a value. *)
Inductive origin := at_address (a : Z) | holding (v : Z).

Inductive mpi_call :=
| Rput (source : origin) (size : Z) (t : MPI_Datatype) (pe disp win : Z) (req : nat)
| Rget (dest size : Z) (t : MPI_Datatype) (pe disp win : Z) (req : nat)
| Win_flush_all (win : Z)
| Win_flush_local (pe win : Z)
| Fetch_and_op (value result : Z) (t : MPI_Datatype) (pe disp : Z) (o : MPI_Op) (win : Z)
| Compare_and_swap (value cond result : Z) (t : MPI_Datatype) (pe disp win : Z)
| Ibarrier (comm : Z) (req : nat)
| Iallreduce (in_place : bool) (source dest count : Z) (t : MPI_Datatype) (o : MPI_Op) (comm : Z) (req : nat)
| Ireduce_scatter_block (source dest count : Z) (t : MPI_Datatype) (o : MPI_Op) (comm : Z) (req : nat).

(** ** State *)

(** [Request] with its [RequestProperties]; [src] and [inline_data] keep their
    defaults, since only the constructor with three arguments is used. *)
Record request := mkRequest {
  handle : nat;
  r_status : Z;
  contextId : Z;
  blocking : bool;
  r_tag : nat
}.

Record transport := mkTransport {
  q : list (Z * nat * queue_element);
  requests : list request;
  waiting_quiet : Z -> list (nat * Z);
  outstanding : Z -> Z;
  next_request : nat;
  calls : list mpi_call;
  notified : list (Z * nat * Z);
  issued : list (Z * nat * nat);
  inserted : Z -> nat;
  submitted : list (Z * nat * queue_element)
}.

(** [initTransport]. *)
Definition initTransport : transport :=
  mkTransport [] [] (fun _ => []) (fun _ => 0) 0 [] [] [] (fun _ => 0%nat) [].

Definition insertRequest (e : queue_element) (queue_id : Z) (s : transport) : transport :=
  mkTransport (q s ++ [(queue_id, inserted s queue_id, e)]) (requests s) (waiting_quiet s)
    (outstanding s) (next_request s) (calls s) (notified s) (issued s)
    (upd (inserted s) queue_id (S (inserted s queue_id))) (submitted s).

(** One MPI call without a request. *)
Definition make (m : mpi_call) (s : transport) : transport :=
  mkTransport (q s) (requests s) (waiting_quiet s) (outstanding s) (next_request s) (calls s ++ [m])
    (notified s) (issued s) (inserted s) (submitted s).

(** [Queue::notify]: the store of 1 to the flag at [st]. *)
Definition notify (ctx : Z) (tag : nat) (st : Z) (s : transport) : transport :=
  mkTransport (q s) (requests s) (waiting_quiet s) (outstanding s) (next_request s) (calls s)
    (notified s ++ [(ctx, tag, st)]) (issued s) (inserted s) (submitted s).

(** An MPI call with a fresh request, [requests.push_back] and
    [outstanding[contextId]++]. *)
Definition start (m : nat -> mpi_call) (st ctx : Z) (blk : bool) (tag : nat) (s : transport) : transport :=
  mkTransport (q s) (requests s ++ [mkRequest (next_request s) st ctx blk tag]) (waiting_quiet s)
    (upd (outstanding s) ctx (outstanding s ctx + 1)) (S (next_request s))
    (calls s ++ [m (next_request s)]) (notified s) (issued s ++ [(ctx, tag, next_request s)])
    (inserted s) (submitted s).

Definition set_waiting (ctx : Z) (l : list (nat * Z)) (s : transport) : transport :=
  mkTransport (q s) (requests s) (upd (waiting_quiet s) ctx l) (outstanding s) (next_request s) (calls s)
    (notified s) (issued s) (inserted s) (submitted s).

Definition set_outstanding (ctx : Z) (n : Z) (s : transport) : transport :=
  mkTransport (q s) (requests s) (waiting_quiet s) (upd (outstanding s) ctx n) (next_request s) (calls s)
    (notified s) (issued s) (inserted s) (submitted s).

Definition set_requests (l : list request) (s : transport) : transport :=
  mkTransport (q s) l (waiting_quiet s) (outstanding s) (next_request s) (calls s)
    (notified s) (issued s) (inserted s) (submitted s).

Definition quiet (ctx st : Z) (tag : nat) (s : transport) : transport :=
  if outstanding s ctx =? 0 then notify ctx tag st s
  else set_waiting ctx (waiting_quiet s ctx ++ [(tag, st)]) s.

Definition barrier (ctx st : Z) (blk : bool) (team : Z) (do_quiet : bool) (tag : nat) (s : transport) : transport :=
  if do_quiet then quiet ctx st tag (start (Ibarrier team) 0 ctx false tag s)
  else start (Ibarrier team) st ctx blk tag s.

Section Operations.
(** The communicator of the transport, the window every context uses a copy of,
    and MPI's answers about communicators and types. *)
Context (ro_net_comm_world win_start win_end : Z).
Context (comm_rank comm_size : Z -> Z) (world_rank : Z -> Z -> Z) (type_size : MPI_Datatype -> Z).

(** [WindowInfoMPI::get_offset] with its assertions. *)
Definition get_offset (p : Z) : option Z :=
  if (win_start <=? p) && (p <? win_end) then Some (p - win_start) else None.

(** [if (dst == src)] selects [MPI_IN_PLACE]. *)
Definition team_reduction (dst src size ctx team : Z) (o : ROCSHMEM_OP) (t : ro_net_types)
    (st : Z) (tag : nat) (s : transport) : transport :=
  start (Iallreduce (dst =? src) src dst size (convertType t) (get_mpi_op o) team) st ctx true tag s.

Definition team_reduce_scatter (dst src nreduce ctx team : Z) (o : ROCSHMEM_OP) (t : ro_net_types)
    (st : Z) (tag : nat) (s : transport) : transport :=
  start (Ireduce_scatter_block src dst nreduce (convertType t) (get_mpi_op o) team) st ctx true tag s.

Definition team_broadcast (dst src size win_id ctx team root : Z) (t : ro_net_types) (st : Z) (tag : nat)
    (s : transport) : option transport :=
  disp ← get_offset src;
  let s1 := start (Rget dst size (convertType t) (world_rank team root) disp win_id) 0 ctx false tag s in
  let s2 := make (Win_flush_all win_id) s1 in
  let s3 := barrier ctx 0 false team false tag s2 in
  Some (quiet ctx st tag s3).

(** One turn of the loops of [alltoall] and [fcollect]: the put of [size]
    elements at [from] to offset [to] of [dst] on member [target]. *)
Definition block_put (from size : Z) (t : MPI_Datatype) (team target to win_id ctx : Z) (tag : nat)
    (s : transport) : option transport :=
  disp ← get_offset to;
  Some (start (Rput (at_address from) size t (world_rank team target) disp win_id) 0 ctx false tag s).

Fixpoint block_puts (puts : list (Z * Z * Z)) (size : Z) (t : MPI_Datatype) (team win_id ctx : Z) (tag : nat)
    (s : transport) : option transport :=
  match puts with
  | [] => Some s
  | (target, from, to) :: l =>
      s1 ← block_put from size t team target to win_id ctx tag s;
      block_puts l size t team win_id ctx tag s1
  end.

(** The targets, sources and destinations of the puts; the offsets are [int]. *)
Definition alltoall_puts (dst src size team : Z) (t : MPI_Datatype) : list (Z * Z * Z) :=
  (fun i : nat =>
     let target := (comm_rank team + Z.of_nat i) mod comm_size team in
     (target, src + s32 (target * type_size t * size), dst + s32 (comm_rank team * type_size t * size)))
  <$> seq 0 (Z.to_nat (comm_size team)).

Definition fcollect_puts (dst src size team : Z) (t : MPI_Datatype) : list (Z * Z * Z) :=
  (fun i : nat =>
     let target := (comm_rank team + Z.of_nat i) mod comm_size team in
     (target, src, dst + s32 (comm_rank team * type_size t * size)))
  <$> seq 0 (Z.to_nat (comm_size team)).

Definition alltoall (dst src size win_id ctx team : Z) (t : ro_net_types) (st : Z) (tag : nat)
    (s : transport) : option transport :=
  if dst =? src then None
  else
    s1 ← block_puts (alltoall_puts dst src size team (convertType t)) size (convertType t) team win_id ctx tag s;
    Some (quiet ctx st tag (make (Win_flush_all win_id) s1)).

Definition fcollect (dst src size win_id ctx team : Z) (t : ro_net_types) (st : Z) (tag : nat)
    (s : transport) : option transport :=
  if dst =? src then None
  else
    s1 ← block_puts (fcollect_puts dst src size team (convertType t)) size (convertType t) team win_id ctx tag s;
    Some (quiet ctx st tag (make (Win_flush_all win_id) s1)).

(** The flush is made before the request is recorded; the two effects commute. *)
Definition putMem (dst : Z) (src : origin) (size pe win_id ctx st : Z) (blk : bool) (tag : nat) (s : transport) : option transport :=
  disp ← get_offset dst;
  Some (make (Win_flush_all win_id) (start (Rput src size MPI_CHAR pe disp win_id) st ctx blk tag s)).

Definition getMem (dst src size pe win_id ctx st : Z) (blk : bool) (tag : nat) (s : transport) : option transport :=
  disp ← get_offset src;
  Some (start (Rget dst size MPI_CHAR pe disp win_id) st ctx blk tag s).

Definition amoFOP (dst src val pe win_id ctx st : Z) (o : ROCSHMEM_OP) (t : ro_net_types) (tag : nat)
    (s : transport) : option transport :=
  disp ← get_offset dst;
  Some (notify ctx tag st (make (Win_flush_local pe win_id) (make (Fetch_and_op val src (convertType t) pe disp (get_mpi_op o) win_id) s))).

Definition amoFCAS (dst src val pe win_id ctx st cond : Z) (t : ro_net_types) (tag : nat)
    (s : transport) : option transport :=
  disp ← get_offset dst;
  Some (notify ctx tag st (make (Win_flush_local pe win_id) (make (Compare_and_swap val cond src (convertType t) pe disp win_id) s))).

(** The [size] parameters of the operations are [int]; [ol1.size] is a [size_t].
    For [RO_NET_P] the value is copied out of the element into a fresh buffer. *)
Definition dispatch (e : queue_element) (ctx : Z) (tag : nat) (s : transport)
    : option transport :=
  let team := if team_comm e =? 0 then ro_net_comm_world else team_comm e in
  let size := s32 (ol1 e) in
  let win := ro_net_win_id e in
  let st := status e in
  match type e with
  | RO_NET_PUT => putMem (dst e) (at_address (src e)) size (PE e) win ctx st true tag s
  | RO_NET_P => putMem (dst e) (holding (src e mod 2 ^ (8 * ol1 e))) size (PE e) win ctx st true tag s
  | RO_NET_GET => getMem (dst e) (src e) size (PE e) win ctx st true tag s
  | RO_NET_PUT_NBI => putMem (dst e) (at_address (src e)) size (PE e) win ctx st false tag s
  | RO_NET_GET_NBI => getMem (dst e) (src e) size (PE e) win ctx st false tag s
  | RO_NET_AMO_FOP => amoFOP (dst e) (src e) (ol1 e) (PE e) win ctx st (op e) (datatype e) tag s
  | RO_NET_AMO_FCAS => amoFCAS (dst e) (src e) (ol1 e) (PE e) win ctx st (ol2 e) (datatype e) tag s
  | RO_NET_TEAM_REDUCE_SCATTER =>
      Some (team_reduce_scatter (dst e) (src e) size ctx (team_comm e) (op e) (datatype e) st tag s)
  | RO_NET_TEAM_REDUCE =>
      Some (team_reduction (dst e) (src e) size ctx (team_comm e) (op e) (datatype e) st tag s)
  | RO_NET_TEAM_BROADCAST =>
      team_broadcast (dst e) (src e) size win ctx (team_comm e) (PE_root e) (datatype e) st tag s
  | RO_NET_ALLTOALL => alltoall (dst e) (src e) size win ctx (team_comm e) (datatype e) st tag s
  | RO_NET_FCOLLECT => fcollect (dst e) (src e) size win ctx (team_comm e) (datatype e) st tag s
  | RO_NET_BARRIER => Some (barrier ctx st true team true tag s)
  | RO_NET_SYNC => Some (barrier ctx st true team false tag s)
  | RO_NET_FENCE | RO_NET_QUIET | RO_NET_FINALIZE => Some (quiet ctx st tag s)
  end.

(** [submitRequestsToMPI]: the oldest element, if there is one. *)
Definition submitRequestsToMPI (s : transport) : option transport :=
  match q s with
  | [] => Some s
  | (ctx, tag, e) :: l =>
      dispatch e ctx tag
        (mkTransport l (requests s) (waiting_quiet s) (outstanding s) (next_request s) (calls s) (notified s)
           (issued s) (inserted s) (submitted s ++ [(ctx, tag, e)]))
  end.

(** The effects of [progress] for one completed request. *)
Definition complete_one (s : transport) (r : request) : transport :=
  let c := contextId r in
  let s1 := set_outstanding c (outstanding s c - 1) s in
  let s2 := if blocking r then notify c (r_tag r) (r_status r) s1 else s1 in
  if (outstanding s2 c =? 0) && negb (bool_decide (waiting_quiet s2 c = []))
  then set_waiting c [] (foldl (fun s' '(tag, st) => notify c tag st s') s2 (waiting_quiet s2 c))
  else s2.

(** [requests.erase] at the given indices, largest first. *)
Definition erase_all (indices : list nat) (l : list request) : list request :=
  foldl (fun l' i => delete i l') l (merge_sort (flip le) indices).

(** The number of requests [progress] passes to [MPI_Testsome]. *)
Definition incount (s : transport) : nat := Nat.min (length (requests s)) 128.

(** [progress] with the indices [MPI_Testsome] reported. *)
Definition progress (indices : list nat) (s : transport) : transport :=
  let done := omap (fun i => requests s !! i) indices in
  let s1 := foldl complete_one s done in
  set_requests (erase_all indices (requests s)) s1.

(** ** The transport and MPI *)

Inductive taction :=
| TInsert (e : queue_element) (ctx : Z)
| TSubmit
| TComplete (h : nat)
| TProgress (indices : list nat).

(** Distinct indices of completed requests among the first [incount]. *)
Definition testsome_ok (done : gset nat) (s : transport) (indices : list nat) : bool :=
  bool_decide (NoDup indices) &&
  forallb (fun i => bool_decide (i < incount s)%nat &&
    match requests s !! i with Some r => bool_decide (handle r ∈ done) | None => false end) indices.

Definition texec (a : taction) (x : transport * gset nat) : option (transport * gset nat) :=
  let '(s, done) := x in
  match a with
  | TInsert e ctx => Some (insertRequest e ctx s, done)
  | TSubmit => s' ← submitRequestsToMPI s; Some (s', done)
  | TComplete h => if bool_decide (h < next_request s)%nat then Some (s, {[h]} ∪ done) else None
  | TProgress indices => if testsome_ok done s indices then Some (progress indices s, done) else None
  end.

End Operations.

(** ** The invariant *)

(** The entries of context [c] in a history. *)
Definition in_ctx {A} (c : Z) (l : list (Z * nat * A)) : list (nat * A) :=
  omap (fun '(c', t, x) => if decide (c' = c) then Some (t, x) else None) l.

(** The flags that completed operations owe to blocked threads: those of the
    blocking requests of context [c]. *)
Definition blocked (c : Z) (rs : list request) : list (nat * Z) :=
  omap (fun r => if decide (contextId r = c) then if blocking r then Some (r_tag r, r_status r) else None
                 else None) rs.

Definition count_ctx (c : Z) (rs : list request) : nat :=
  length (filter (fun r => contextId r = c) rs).

(** The flags of the blocking elements of a history. *)
Definition owed (l : list (nat * queue_element)) : list (nat * Z) :=
  omap (fun '(t, e) => if nonblocking (type e) then None else Some (t, status e)) l.

(** The commands that complete only after every earlier command of the context. *)
Definition orders (ty : ro_net_cmds) : bool :=
  match ty with
  | RO_NET_FENCE | RO_NET_QUIET | RO_NET_FINALIZE | RO_NET_BARRIER | RO_NET_TEAM_BROADCAST
  | RO_NET_ALLTOALL | RO_NET_FCOLLECT => true
  | _ => false
  end.

(** A command with tag [t] depends on the requests issued under tag [t']. *)
Definition depends (ty : ro_net_cmds) (t t' : nat) : Prop :=
  t' = t \/ (orders ty = true /\ (t' <= t)%nat).

(** The requests in flight are [rs]; [cur] is the element being submitted, as
    long as its flag is not accounted for. *)
Record tinv (rs : list request) (cur : option (Z * nat * Z)) (s : transport) (done : gset nat) : Prop := {
  t_outstanding : forall c, outstanding s c = Z.of_nat (count_ctx c rs);
  t_waiting : forall c, waiting_quiet s c <> [] -> 0 < outstanding s c;
  t_nodup : NoDup (handle <$> rs);
  t_fresh : forall r, r ∈ rs -> (handle r < next_request s)%nat;
  t_done : forall h, h ∈ done -> (h < next_request s)%nat;
  t_issued : forall c t h, (c, t, h) ∈ issued s ->
    h ∈ done \/ exists r, r ∈ rs /\ handle r = h /\ contextId r = c;
  t_sound : forall c t st, (c, t, st) ∈ notified s -> exists e, (c, t, e) ∈ submitted s /\
    forall t' h, (c, t', h) ∈ issued s -> depends (type e) t t' -> h ∈ done;
  t_blocked : forall r, r ∈ rs -> blocking r = true ->
    exists e, (contextId r, r_tag r, e) ∈ submitted s /\ orders (type e) = false /\
    forall h, (contextId r, r_tag r, h) ∈ issued s -> h = handle r;
  t_once : forall c, in_ctx c (notified s) ++ blocked c rs ++ waiting_quiet s c ++
    (match cur with Some x => in_ctx c [x] | None => [] end) ≡ₚ owed (in_ctx c (submitted s));
  t_order : forall c, (in_ctx c (submitted s)).*1 ++ (in_ctx c (q s)).*1 = seq 0 (inserted s c);
  t_tags : forall c t h, (c, t, h) ∈ issued s -> t ∈ (in_ctx c (submitted s)).*1;
  t_wait_tags : forall c t st, (t, st) ∈ waiting_quiet s c -> exists e, (c, t, e) ∈ submitted s
}.

Lemma elem_of_in_ctx {A} c t (x : A) l : (t, x) ∈ in_ctx c l <-> (c, t, x) ∈ l.
Proof.
  unfold in_ctx. rewrite list_elem_of_omap. split.
  - intros ([[c' t'] x'] & Hin & He). case_decide; by simplify_eq.
  - intros H. exists (c, t, x). split; [done|]. by rewrite decide_True.
Qed.

Lemma in_ctx_app {A} c (l k : list (Z * nat * A)) : in_ctx c (l ++ k) = in_ctx c l ++ in_ctx c k.
Proof. apply omap_app. Qed.

Lemma in_ctx_one {A} c c' t (x : A) : in_ctx c [(c', t, x)] = if decide (c' = c) then [(t, x)] else [].
Proof. unfold in_ctx. simpl. by case_decide. Qed.

Lemma in_ctx_cons {A} c c' t (x : A) l :
  in_ctx c ((c', t, x) :: l) = (if decide (c' = c) then [(t, x)] else []) ++ in_ctx c l.
Proof. unfold in_ctx. simpl. by case_decide. Qed.

#[local] Instance count_ctx_proper c : Proper ((≡ₚ) ==> eq) (count_ctx c).
Proof. intros l k H. unfold count_ctx. by rewrite H. Qed.

#[local] Instance blocked_proper c : Proper ((≡ₚ) ==> (≡ₚ)) (blocked c).
Proof. intros l k H. unfold blocked. by rewrite H. Qed.

Lemma tinv_perm rs rs' cur s done : rs ≡ₚ rs' -> tinv rs cur s done -> tinv rs' cur s done.
Proof.
  intros Hp []. constructor; try done.
  - intros c. by rewrite <- Hp.
  - by rewrite <- Hp.
  - intros r Hr. apply t_fresh0. by rewrite Hp.
  - intros c t h Hi. destruct (t_issued0 c t h Hi) as [?|(r & Hr & ?)]; [by left|right]. exists r. by rewrite <- Hp.
  - intros r Hr. apply t_blocked0. by rewrite Hp.
  - intros c. by rewrite <- Hp.
Qed.

(** Several notifications at once. *)
Definition notify_all (c : Z) (l : list (nat * Z)) (s : transport) : transport :=
  mkTransport (q s) (requests s) (waiting_quiet s) (outstanding s) (next_request s) (calls s)
    (notified s ++ ((fun '(t, st) => (c, t, st)) <$> l)) (issued s) (inserted s) (submitted s).

Lemma foldl_notify c l s : foldl (fun s' '(t, st) => notify c t st s') s l = notify_all c l s.
Proof.
  revert s. induction l as [|[t st] l IH]; intros s; simpl.
  - destruct s. unfold notify_all. simpl. by rewrite app_nil_r.
  - rewrite IH. unfold notify_all, notify. simpl. by rewrite <- app_assoc.
Qed.

Lemma in_ctx_fmap c c' (l : list (nat * Z)) :
  in_ctx c ((fun '(t, st) => (c', t, st)) <$> l) = if decide (c' = c) then l else [].
Proof.
  induction l as [|[t st] l IH]; [by case_decide|].
  rewrite fmap_cons, in_ctx_cons, IH. by case_decide.
Qed.

Lemma count_ctx_cons c r rs :
  count_ctx c (r :: rs) = ((if decide (contextId r = c) then 1 else 0) + count_ctx c rs)%nat.
Proof. unfold count_ctx. rewrite filter_cons. by case_decide. Qed.

Lemma blocked_cons c r rs :
  blocked c (r :: rs) =
  (if decide (contextId r = c) then if blocking r then [(r_tag r, r_status r)] else [] else []) ++ blocked c rs.
Proof. unfold blocked. simpl. case_decide; [|done]. by destruct (blocking r). Qed.

Lemma count_ctx_zero c rs r : count_ctx c rs = 0%nat -> r ∈ rs -> contextId r <> c.
Proof.
  unfold count_ctx. intros H Hr Hc. apply length_zero_iff_nil in H.
  assert (Hf : r ∈ filter (fun r0 => contextId r0 = c) rs) by by apply list_elem_of_filter.
  rewrite H in Hf. by apply not_elem_of_nil in Hf.
Qed.

(** The end of one request, before the quiets that wait for it are looked at. *)
Lemma finish_request r rs cur s done :
  tinv (r :: rs) cur s done -> handle r ∈ done ->
  let s1 := set_outstanding (contextId r) (outstanding s (contextId r) - 1) s in
  let s2 := if blocking r then notify (contextId r) (r_tag r) (r_status r) s1 else s1 in
  (forall c, outstanding s2 c = Z.of_nat (count_ctx c rs)) /\
  (forall c t h, (c, t, h) ∈ issued s2 -> h ∈ done \/ exists r0, r0 ∈ rs /\ handle r0 = h /\ contextId r0 = c) /\
  (forall c t st, (c, t, st) ∈ notified s2 -> exists e, (c, t, e) ∈ submitted s2 /\
     forall t' h, (c, t', h) ∈ issued s2 -> depends (type e) t t' -> h ∈ done) /\
  (forall c, in_ctx c (notified s2) ++ blocked c rs ++ waiting_quiet s2 c ++
     (match cur with Some x => in_ctx c [x] | None => [] end) ≡ₚ owed (in_ctx c (submitted s2))).
Proof.
  intros [] Hd s1 s2.
  assert (Hs2 : outstanding s2 = outstanding s1 /\ issued s2 = issued s /\ submitted s2 = submitted s /\
    waiting_quiet s2 = waiting_quiet s /\ notified s2 =
      notified s ++ (if blocking r then [(contextId r, r_tag r, r_status r)] else [])).
  { subst s2 s1. destruct (blocking r); simpl; by rewrite ?app_nil_r. }
  destruct Hs2 as (-> & -> & -> & -> & ->). subst s1 s2. simpl. split; [|split; [|split]].
  - intros c. unfold upd. pose proof (t_outstanding0 c) as Ho. pose proof (t_outstanding0 (contextId r)) as Hr.
    rewrite count_ctx_cons in Ho, Hr. rewrite decide_True in Hr by done.
    destruct (Z.eqb_spec c (contextId r)) as [->|Hne]; [lia|]. rewrite decide_False in Ho by done. lia.
  - intros c t h Hi. destruct (t_issued0 c t h Hi) as [?|(r0 & Hr0 & Hh & Hc)]; [by left|].
    apply elem_of_cons in Hr0 as [->|Hr0]; [left; by subst|right; eauto].
  - intros c t st Hn. apply elem_of_app in Hn as [Hn|Hn]; [by eapply t_sound0|].
    destruct (blocking r) eqn:Eb; [|by apply not_elem_of_nil in Hn].
    apply list_elem_of_singleton in Hn as [= -> -> ->].
    destruct (t_blocked0 r) as (e & He & Hord & Huniq); [left|done|].
    exists e. split; [done|]. intros t' h Hi [->|[Ho _]]; [|congruence]. by rewrite (Huniq h Hi).
  - intros c. rewrite <- (t_once0 c), in_ctx_app, blocked_cons, <- !app_assoc.
    apply Permutation_app_head. destruct (blocking r); [rewrite in_ctx_one|]; by case_decide.
Qed.

Lemma complete_one_inv r rs cur s done :
  tinv (r :: rs) cur s done -> handle r ∈ done -> tinv rs cur (complete_one s r) done.
Proof.
  intros Hv Hd. pose proof (finish_request r rs cur s done Hv Hd) as (Ho & Hi & Hs & Hp).
  unfold complete_one. set (c0 := contextId r) in *.
  set (s2 := if blocking r then _ else _) in *.
  assert (Hs2 : next_request s2 = next_request s /\ submitted s2 = submitted s /\ issued s2 = issued s /\
    waiting_quiet s2 = waiting_quiet s /\ q s2 = q s /\ inserted s2 = inserted s).
  { subst s2. by destruct (blocking r). }
  destruct Hs2 as (En & Esub & Eis & Ew & Eq & Ein). destruct Hv.
  apply NoDup_cons in t_nodup0 as [_ Hnd].
  assert (Hrest : forall s', next_request s' = next_request s -> submitted s' = submitted s -> issued s' = issued s ->
    q s' = q s -> inserted s' = inserted s ->
    NoDup (handle <$> rs) /\ (forall r0, r0 ∈ rs -> (handle r0 < next_request s')%nat) /\
    (forall h, h ∈ done -> (h < next_request s')%nat) /\
    (forall r0, r0 ∈ rs -> blocking r0 = true -> exists e, (contextId r0, r_tag r0, e) ∈ submitted s' /\
       orders (type e) = false /\ forall h, (contextId r0, r_tag r0, h) ∈ issued s' -> h = handle r0) /\
    (forall c, (in_ctx c (submitted s')).*1 ++ (in_ctx c (q s')).*1 = seq 0 (inserted s' c)) /\
    (forall c t h, (c, t, h) ∈ issued s' -> t ∈ (in_ctx c (submitted s')).*1)).
  { intros s' -> -> -> -> ->. split_and!; try done.
    - intros r0 Hr0. apply t_fresh0. by right.
    - intros r0 Hr0. apply t_blocked0. by right. }
  case_if.
  - apply andb_prop in E as [Ez _]. apply Z.eqb_eq in Ez.
    assert (Hz : count_ctx c0 rs = 0%nat) by (rewrite Ho in Ez; lia).
    rewrite foldl_notify. destruct (Hrest (set_waiting c0 [] (notify_all c0 (waiting_quiet s2 c0) s2)))
      as (? & ? & ? & ? & ? & ?); [done..|].
    constructor; simpl; try done.
    + intros c. unfold upd. destruct (Z.eqb_spec c c0) as [->|]; [done|]. rewrite Ew, Ho. intros Hw.
      apply t_waiting0 in Hw. rewrite t_outstanding0, count_ctx_cons, decide_False in Hw by done. lia.
    + intros c t st Hn. apply elem_of_app in Hn as [Hn|Hn]; [by eapply Hs|].
      apply list_elem_of_fmap in Hn as ([t1 st1] & [= -> -> ->] & Hw). rewrite Ew in Hw.
      destruct (t_wait_tags0 _ _ _ Hw) as [e He]. exists e. rewrite Esub. split; [done|].
      intros t' h Hh _. destruct (Hi _ _ _ Hh) as [?|(r0 & Hr0 & _ & Hc)]; [done|].
      by destruct (count_ctx_zero _ _ _ Hz Hr0).
    + intros c. rewrite <- (Hp c), in_ctx_app, in_ctx_fmap. unfold upd.
      destruct (Z.eqb_spec c c0) as [->|Hne].
      * rewrite decide_True, <- !app_assoc by done. apply Permutation_app_head. simpl.
        rewrite !app_assoc. apply Permutation_app_tail, Permutation_app_comm.
      * rewrite decide_False by done. by rewrite app_nil_r.
    + intros c t st Hw. unfold upd in Hw. destruct (Z.eqb_spec c c0); [by apply not_elem_of_nil in Hw|].
      rewrite Esub. rewrite Ew in Hw. eauto.
  - destruct (Hrest s2) as (? & ? & ? & ? & ? & ?); [done..|].
    constructor; try done.
    + intros c Hw. rewrite Ew in Hw. destruct (decide (c = c0)) as [->|Hne].
      * rewrite Ho. destruct (count_ctx c0 rs) eqn:Ec; [|lia]. rewrite Ho, Ec, Ew in E. simpl in E.
        by rewrite bool_decide_eq_false_2 in E.
      * apply t_waiting0 in Hw. rewrite t_outstanding0, count_ctx_cons, decide_False in Hw by done. rewrite Ho. lia.
    + intros c t st Hw. rewrite Esub. rewrite Ew in Hw. eauto.
Qed.

(** ** Erasing the completed requests *)

Lemma omap_agree {A B} (f g : A -> option B) (l : list A) : (forall x, x ∈ l -> f x = g x) -> omap f l = omap g l.
Proof.
  induction l as [|x l IH]; intros H; [done|]. cbn. rewrite (H x) by left.
  destruct (g x); [f_equal|]; apply IH; intros y Hy; apply H; by right.
Qed.

Lemma delete_descending {A} (l : list A) ix :
  StronglySorted (fun i j => (j < i)%nat) ix -> Forall (fun i => (i < length l)%nat) ix ->
  omap (fun i => l !! i) ix ++ foldl (fun l' i => delete i l') l ix ≡ₚ l.
Proof.
  revert l. induction ix as [|i ix IH]; intros l Hs Hl; simpl; [done|].
  apply StronglySorted_inv in Hs as [Hs Hi]. apply Forall_cons in Hl as [Hil Hl].
  destruct (lookup_lt_is_Some_2 l i Hil) as [x Hx]. rewrite Hx. simpl.
  transitivity (x :: delete i l); [constructor|symmetry; by apply delete_Permutation].
  etransitivity; [|apply (IH (delete i l)); [done|]].
  - apply Permutation_app_tail. apply reflexive_eq, omap_agree.
    intros j Hj. rewrite Forall_forall in Hi. by rewrite list_lookup_delete_lt by auto.
  - rewrite length_delete by done. apply Forall_forall. intros j Hj.
    rewrite Forall_forall in Hi. specialize (Hi j Hj). lia.
Qed.

Lemma sorted_strict ix :
  NoDup ix -> StronglySorted (flip le) ix -> StronglySorted (fun i j => (j < i)%nat) ix.
Proof.
  induction ix as [|i ix IH]; intros Hn Hs; [constructor|].
  apply NoDup_cons in Hn as [Hi Hn]. apply StronglySorted_inv in Hs as [Hs Hf]. constructor; [by apply IH|].
  rewrite Forall_forall in *. intros j Hj. specialize (Hf j Hj). unfold flip in Hf.
  destruct (decide (i = j)) as [->|]; [done|lia].
Qed.

(** What [progress] erases is what it reported, wherever it was in the vector. *)
Lemma erase_all_perm ix l :
  NoDup ix -> Forall (fun i => (i < length l)%nat) ix ->
  omap (fun i => l !! i) ix ++ erase_all ix l ≡ₚ l.
Proof.
  intros Hn Hl. unfold erase_all.
  pose proof (merge_sort_Permutation (flip le) ix) as Hp.
  rewrite <- Hp at 1. apply delete_descending.
  - apply sorted_strict; [by rewrite Hp|].
    apply StronglySorted_merge_sort. 2: intros i j; unfold flip; lia.
    intros i j k. unfold flip. lia.
  - by rewrite Hp.
Qed.

Lemma foldl_complete_inv ds rs cur s done :
  tinv (ds ++ rs) cur s done -> (forall r, r ∈ ds -> handle r ∈ done) ->
  tinv rs cur (foldl complete_one s ds) done.
Proof.
  revert s. induction ds as [|r ds IH]; intros s Hv Hd; simpl; [done|].
  apply IH; [|intros r' Hr'; apply Hd; by right].
  apply complete_one_inv; [done|]. apply Hd. by left.
Qed.

Lemma progress_inv ix cur s done :
  tinv (requests s) cur s done -> testsome_ok done s ix = true ->
  tinv (requests (progress ix s)) cur (progress ix s) done.
Proof.
  intros Hv Ht. unfold testsome_ok in Ht. apply andb_prop in Ht as [Hn Hf]. apply bool_decide_eq_true in Hn.
  rewrite forallb_forall in Hf. assert (Hf' : forall i, i ∈ ix -> (i < length (requests s))%nat /\
    forall r, requests s !! i = Some r -> handle r ∈ done).
  { intros i Hi. specialize (Hf i). rewrite <- list_elem_of_In in Hf. specialize (Hf Hi).
    apply andb_prop in Hf as [Hi1 Hi2]. apply bool_decide_eq_true in Hi1. unfold incount in Hi1.
    split; [lia|]. intros r Hr. rewrite Hr in Hi2. by apply bool_decide_eq_true in Hi2. }
  assert (Hp : omap (fun i => requests s !! i) ix ++ erase_all ix (requests s) ≡ₚ requests s).
  { apply erase_all_perm; [done|]. apply Forall_forall. intros i Hi. by apply Hf'. }
  apply (tinv_perm _ _ _ _ _ (symmetry Hp)) in Hv.
  apply foldl_complete_inv in Hv.
  - unfold progress. simpl. destruct Hv. by constructor.
  - intros r Hr. apply list_elem_of_omap in Hr as (i & Hi & Hr). by apply (Hf' i).
Qed.

(** ** Submitting an element *)

(** Element [e] is the last one submitted from queue [c], under tag [t], and its
    flag is not set. *)
Record current (rs : list request) (c : Z) (t : nat) (e : queue_element) (s : transport) : Prop := {
  cu_submitted : (c, t, e) ∈ submitted s;
  cu_last : forall t', t' ∈ (in_ctx c (submitted s)).*1 -> (t' <= t)%nat;
  cu_notified : forall st, (c, t, st) ∉ notified s;
  cu_blocked : forall r, r ∈ rs -> contextId r = c -> r_tag r = t -> blocking r = false
}.

Definition started (s : transport) (st c : Z) (blk : bool) (t : nat) : request :=
  mkRequest (next_request s) st c blk t.

Lemma elem_of_submitted {c : Z} {t : nat} {e : queue_element} {s} :
  (c, t, e) ∈ submitted s -> t ∈ (in_ctx c (submitted s)).*1.
Proof. intros H. apply list_elem_of_fmap. exists (t, e). split; [done|]. by apply elem_of_in_ctx. Qed.

Lemma count_ctx_snoc c rs r :
  count_ctx c (rs ++ [r]) = (count_ctx c rs + if decide (contextId r = c) then 1 else 0)%nat.
Proof. unfold count_ctx. rewrite filter_app, length_app, filter_cons. by case_decide. Qed.

Lemma blocked_snoc c rs r :
  blocked c (rs ++ [r]) = blocked c rs ++
    (if blocking r then if decide (contextId r = c) then [(r_tag r, r_status r)] else [] else []).
Proof. unfold blocked. rewrite omap_app. simpl. case_decide; by destruct (blocking r). Qed.

(** What a new request changes, whatever it is for. *)
Lemma transport_start_inv rs cur cur' c t e s done m st blk :
  tinv rs cur s done -> current rs c t e s ->
  (blk = true -> orders (type e) = false /\ forall h, (c, t, h) ∉ issued s) ->
  (forall c', (if blk then if decide (c = c') then [(t, st)] else [] else []) ++
     (match cur' with Some x => in_ctx c' [x] | None => [] end) =
     match cur with Some x => in_ctx c' [x] | None => [] end) ->
  tinv (rs ++ [started s st c blk t]) cur' (start m st c blk t s) done.
Proof.
  intros [] [] Hb Hcur. constructor; simpl; try done.
  - intros c'. rewrite count_ctx_snoc. simpl. unfold upd. destruct (Z.eqb_spec c' c) as [->|Hne].
    + rewrite decide_True by done. rewrite t_outstanding0. lia.
    + rewrite decide_False by done. rewrite t_outstanding0. lia.
  - intros c' Hw. unfold upd. destruct (Z.eqb_spec c' c) as [->|Hne]; [|by apply t_waiting0].
    rewrite t_outstanding0. lia.
  - rewrite fmap_app. apply NoDup_app. split; [done|]. split; [|apply NoDup_singleton].
    intros h Hh Hn. apply list_elem_of_singleton in Hn as ->. apply list_elem_of_fmap in Hh as (r & Hr & Hin).
    pose proof (t_fresh0 r Hin). simpl in *. lia.
  - intros r Hr. apply elem_of_app in Hr as [Hr|Hr]; [pose proof (t_fresh0 r Hr); lia|].
    apply list_elem_of_singleton in Hr as ->. simpl. lia.
  - intros h Hh. pose proof (t_done0 h Hh). lia.
  - intros c' t' h Hi. apply elem_of_app in Hi as [Hi|Hi].
    + destruct (t_issued0 _ _ _ Hi) as [?|(r & Hr & ?)]; [by left|right]. exists r. rewrite elem_of_app. auto.
    + apply list_elem_of_singleton in Hi as [= -> -> ->]. right. exists (started s st c blk t).
      rewrite elem_of_app, list_elem_of_singleton. auto.
  - intros c' t1 st1 Hn. destruct (t_sound0 _ _ _ Hn) as (e1 & He1 & Hd1). exists e1. split; [done|].
    intros t' h Hi Hdep. apply elem_of_app in Hi as [Hi|Hi]; [by eapply Hd1|].
    apply list_elem_of_singleton in Hi as [= -> -> ->].
    assert (t1 = t) as ->; [|by destruct (cu_notified0 st1)].
    pose proof (cu_last0 _ (elem_of_submitted He1)). destruct Hdep as [?|[_ ?]]; lia.
  - intros r Hr Hbl. apply elem_of_app in Hr as [Hr|Hr].
    + destruct (t_blocked0 r Hr Hbl) as (e1 & He1 & Ho1 & Hu1). exists e1. split; [done|]. split; [done|].
      intros h Hi. apply elem_of_app in Hi as [Hi|Hi]; [by apply Hu1|].
      apply list_elem_of_singleton in Hi as [= Hc Ht ->]. by rewrite (cu_blocked0 r Hr Hc Ht) in Hbl.
    + apply list_elem_of_singleton in Hr as ->. simpl in *. destruct (Hb Hbl) as [Ho Hno].
      exists e. split; [done|]. split; [done|]. intros h Hi. apply elem_of_app in Hi as [Hi|Hi].
      * by destruct (Hno h).
      * apply list_elem_of_singleton in Hi. congruence.
  - intros c'. rewrite <- (t_once0 c'), <- Hcur, blocked_snoc. simpl. solve_Permutation.
  - intros c' t' h Hi. apply elem_of_app in Hi as [Hi|Hi]; [by eapply t_tags0|].
    apply list_elem_of_singleton in Hi as [= -> -> ->]. by apply elem_of_submitted in cu_submitted0.
Qed.

Lemma start_current rs c t e s m st :
  current rs c t e s -> current (rs ++ [started s st c false t]) c t e (start m st c false t s).
Proof.
  intros []. constructor; simpl; try done.
  intros r Hr Hc Ht. apply elem_of_app in Hr as [Hr|Hr]; [by apply cu_blocked0|].
  by apply list_elem_of_singleton in Hr as ->.
Qed.

(** The flag of the current element is set. *)
Lemma notify_inv rs c t e s done st :
  tinv rs (Some (c, t, st)) s done -> current rs c t e s ->
  (forall t' h, (c, t', h) ∈ issued s -> depends (type e) t t' -> h ∈ done) ->
  tinv rs None (notify c t st s) done.
Proof.
  intros [] [] Hd. constructor; simpl; try done.
  - intros c' t1 st1 Hn. apply elem_of_app in Hn as [Hn|Hn]; [by eapply t_sound0|].
    apply list_elem_of_singleton in Hn as [= -> -> ->]. eauto.
  - intros c'. rewrite <- (t_once0 c'), in_ctx_app. solve_Permutation.
Qed.

(** The current element waits for all requests of its context. *)
Lemma quiet_inv rs c t e s done st :
  tinv rs (Some (c, t, st)) s done -> current rs c t e s ->
  tinv rs None (quiet c st t s) done.
Proof.
  intros Hv Hc. unfold quiet. case_if.
  - apply (notify_inv rs c t e); [done..|]. intros t' h Hi _.
    destruct (t_issued _ _ _ _ Hv _ _ _ Hi) as [?|(r & Hr & _ & Hrc)]; [done|].
    rewrite (t_outstanding _ _ _ _ Hv) in E. destruct (count_ctx_zero c rs r); [lia|done..].
  - destruct Hv. constructor; simpl; try done.
    + intros c'. unfold upd. destruct (Z.eqb_spec c' c) as [->|]; [|by apply t_waiting0]. intros _.
      pose proof (t_outstanding0 c). lia.
    + intros c'. rewrite <- (t_once0 c'), in_ctx_one. unfold upd.
      destruct (Z.eqb_spec c' c) as [->|Hne].
      * rewrite decide_True by done. solve_Permutation.
      * rewrite decide_False by done. solve_Permutation.
    + intros c' t' st' Hw. unfold upd in Hw. destruct (Z.eqb_spec c' c) as [->|]; [|by eapply t_wait_tags0].
      apply elem_of_app in Hw as [Hw|Hw]; [by eapply t_wait_tags0|].
      apply list_elem_of_singleton in Hw as [= -> ->]. exists e. apply Hc.
Qed.

Lemma make_inv rs cur s done m : tinv rs cur s done -> tinv rs cur (make m s) done.
Proof. intros []. by constructor. Qed.

Lemma make_current rs c t e s m : current rs c t e s -> current rs c t e (make m s).
Proof. intros []. by constructor. Qed.

(** A state in which element [e] is being submitted. *)
Definition submitting (cur : option (Z * nat * Z)) (c : Z) (t : nat) (e : queue_element) (s : transport)
    (done : gset nat) : Prop :=
  tinv (requests s) cur s done /\ current (requests s) c t e s.

Definition settled (s : transport) (done : gset nat) : Prop := tinv (requests s) None s done.

Section Submit.
Context (c : Z) (t : nat) (e : queue_element) (done : gset nat).

Lemma submitting_make cur s m : submitting cur c t e s done -> submitting cur c t e (make m s) done.
Proof. intros [Hv Hc]. split; [by apply make_inv|by apply make_current]. Qed.

Lemma submitting_start cur s m st :
  submitting cur c t e s done -> submitting cur c t e (start m st c false t s) done.
Proof.
  intros [Hv Hc]. split.
  - by apply (transport_start_inv _ cur cur c t e).
  - by apply start_current.
Qed.

Lemma settled_start s m st :
  submitting (Some (c, t, st)) c t e s done -> orders (type e) = false -> (forall h, (c, t, h) ∉ issued s) ->
  settled (start m st c true t s) done.
Proof.
  intros [Hv Hc] Ho Hn. apply (transport_start_inv _ (Some (c, t, st)) None c t e); [done..|].
  intros c'. rewrite in_ctx_one. case_decide; by rewrite ?app_nil_r.
Qed.

Lemma settled_make s m : settled s done -> settled (make m s) done.
Proof. apply make_inv. Qed.

Lemma settled_quiet s st : submitting (Some (c, t, st)) c t e s done -> settled (quiet c st t s) done.
Proof.
  intros [Hv Hc]. unfold settled. replace (requests (quiet c st t s)) with (requests s).
  - by eapply quiet_inv.
  - unfold quiet. by case_if.
Qed.

Lemma settled_notify s st :
  submitting (Some (c, t, st)) c t e s done -> orders (type e) = false -> (forall h, (c, t, h) ∉ issued s) ->
  settled (notify c t st s) done.
Proof.
  intros [Hv Hc] Ho Hn. apply (notify_inv (requests s) c t e); [done..|].
  intros t' h Hi [->|[Ho' _]]; [by destruct (Hn h)|congruence].
Qed.

Context (ro_net_comm_world win_start win_end : Z).
Context (comm_rank comm_size : Z -> Z) (world_rank : Z -> Z -> Z) (type_size : MPI_Datatype -> Z).

Lemma submitting_puts cur puts size ty team win s s' :
  submitting cur c t e s done ->
  block_puts win_start win_end world_rank puts size ty team win c t s = Some s' ->
  submitting cur c t e s' done.
Proof.
  revert s. induction puts as [|[[target from] to] l IH]; intros s Hs H; simpl in H; [by simplify_eq|].
  unfold block_put in H. destruct (get_offset win_start win_end to) as [disp|]; simpl in H; [|done].
  eapply IH; [|done]. by apply submitting_start.
Qed.

Lemma dispatch_settled s s' :
  submitting (if nonblocking (type e) then None else Some (c, t, status e)) c t e s done ->
  (forall h, (c, t, h) ∉ issued s) ->
  dispatch ro_net_comm_world win_start win_end comm_rank comm_size world_rank type_size e c t s = Some s' ->
  settled s' done.
Proof.
  intros Hs Hn H. unfold dispatch in H.
  destruct (type e) eqn:Ety; simpl in Hs;
    unfold putMem, getMem, amoFOP, amoFCAS, team_broadcast, alltoall, fcollect, team_reduction,
      team_reduce_scatter, barrier in H;
    try case_if_in H; try done;
    try (destruct (get_offset win_start win_end _) as [disp|]; simpl in H; [|done]);
    try (destruct (block_puts _ _ _ _ _ _ _ _ _ _ _) as [s1|] eqn:Hp; simpl in H; [|done];
         apply (submitting_puts _ _ _ _ _ _ _ _ Hs) in Hp);
    simplify_eq;
    repeat first [apply settled_make | apply settled_quiet];
    try (apply settled_start; [done|by rewrite Ety|done]);
    try (apply settled_notify; [by do 2 apply submitting_make|by rewrite Ety|done]);
    try (by repeat first [apply submitting_make | apply submitting_start]);
    try (by apply (submitting_start None)).
Qed.
End Submit.

Lemma seq_split_last l t k n : l ++ t :: k = seq 0 n -> t = length l /\ forall t', t' ∈ l -> (t' < t)%nat.
Proof.
  intros H. assert (Hl : forall i x, l !! i = Some x -> x = i).
  { intros i x Hi. assert (H1 : (l ++ t :: k) !! i = Some x) by by apply lookup_app_l_Some.
    rewrite H in H1. apply lookup_seq in H1. lia. }
  assert (Ht : (l ++ t :: k) !! length l = Some t) by by apply list_lookup_middle.
  rewrite H in Ht. apply lookup_seq in Ht as [-> _]. split; [lia|].
  intros t' Ht'. apply list_elem_of_lookup in Ht' as [i Hi]. rewrite (Hl i t' Hi).
  apply lookup_lt_Some in Hi. lia.
Qed.

Lemma owed_app l k : owed (l ++ k) = owed l ++ owed k.
Proof. apply omap_app. Qed.

(** The oldest element of the queue becomes the one being submitted. *)
Lemma pop_submitting c t e l s done :
  settled s done -> q s = (c, t, e) :: l ->
  let s0 := mkTransport l (requests s) (waiting_quiet s) (outstanding s) (next_request s) (calls s) (notified s)
              (issued s) (inserted s) (submitted s ++ [(c, t, e)]) in
  submitting (if nonblocking (type e) then None else Some (c, t, status e)) c t e s0 done /\
  forall h, (c, t, h) ∉ issued s0.
Proof.
  intros Hv Hq s0. destruct Hv.
  pose proof (t_order0 c) as Ho. rewrite Hq, in_ctx_cons, decide_True in Ho by done. simpl in Ho.
  apply seq_split_last in Ho as [Ht Hlt].
  assert (Hnew : forall t' e', (c, t', e') ∈ submitted s -> (t' < t)%nat).
  { intros t' e' He'. apply Hlt. by apply elem_of_submitted in He'. }
  split; [|intros h Hh; apply t_tags0, Hlt in Hh; lia]. split.
  - constructor; simpl; try done.
    + intros c' t' st Hn. destruct (t_sound0 _ _ _ Hn) as (e' & He' & Hd). exists e'. rewrite elem_of_app. auto.
    + intros r Hr Hb. destruct (t_blocked0 r Hr Hb) as (e' & He' & Hd). exists e'. rewrite elem_of_app. auto.
    + intros c'. rewrite in_ctx_app, in_ctx_one, owed_app, <- (t_once0 c').
      destruct (nonblocking (type e)) eqn:En; try rewrite in_ctx_one; case_decide; simpl; rewrite ?En;
        solve_Permutation.
    + intros c'. rewrite <- (t_order0 c'), Hq, in_ctx_app, (in_ctx_cons c' c t e l), in_ctx_one, !fmap_app, <- app_assoc. done.
    + intros c' t' h Hi. rewrite in_ctx_app, fmap_app, elem_of_app. left. by eapply t_tags0.
    + intros c' t' st Hw. destruct (t_wait_tags0 _ _ _ Hw) as [e' He']. exists e'. rewrite elem_of_app. auto.
  - constructor; simpl.
    + rewrite elem_of_app, list_elem_of_singleton. auto.
    + intros t'. rewrite in_ctx_app, in_ctx_one, decide_True, fmap_app, elem_of_app by done. simpl.
      intros [H|H]; [apply Hlt in H; lia|]. apply list_elem_of_singleton in H. lia.
    + intros st Hn. destruct (t_sound0 _ _ _ Hn) as (e' & He' & _). apply Hnew in He'. lia.
    + intros r Hr <- <-. destruct (blocking r) eqn:Eb; [|done].
      destruct (t_blocked0 r Hr Eb) as (e' & He' & _). apply Hnew in He'. lia.
Qed.

Lemma elem_of_owed l t st :
  (t, st) ∈ owed l <-> exists e, (t, e) ∈ l /\ nonblocking (type e) = false /\ status e = st.
Proof.
  unfold owed. rewrite list_elem_of_omap. split.
  - intros ([t' e] & Hin & He). destruct (nonblocking (type e)) eqn:E; simplify_eq. eauto.
  - intros (e & Hin & Hb & <-). exists (t, e). by rewrite Hb.
Qed.

Lemma owed_nodup l : NoDup l.*1 -> NoDup (owed l).*1.
Proof.
  induction l as [|[t e] l IH]; simpl; [done|]. intros H. apply NoDup_cons in H as [Ht Hl].
  destruct (nonblocking (type e)); [by apply IH|]. simpl. apply NoDup_cons. split; [|by apply IH].
  intros Hin. apply Ht. apply list_elem_of_fmap in Hin as ([t' st] & -> & Hin).
  apply elem_of_owed in Hin as (e' & He' & _). apply list_elem_of_fmap. by exists (t', e').
Qed.

Lemma nodup_fst_inj {A} (l : list (nat * A)) t x y : NoDup l.*1 -> (t, x) ∈ l -> (t, y) ∈ l -> x = y.
Proof.
  induction l as [|[t' z] l IH]; simpl; intros Hn Hx Hy; [by apply not_elem_of_nil in Hx|].
  apply NoDup_cons in Hn as [Ht Hn].
  assert (Hno : forall w, (t', w) ∉ l) by (intros w Hw; apply Ht, list_elem_of_fmap; by exists (t', w)).
  apply elem_of_cons in Hx as [Hx|Hx], Hy as [Hy|Hy]; simplify_eq; try done.
  - by destruct (Hno y).
  - by destruct (Hno x).
  - by apply IH.
Qed.

Section Reachable.
Context (ro_net_comm_world win_start win_end : Z).
Context (comm_rank comm_size : Z -> Z) (world_rank : Z -> Z -> Z) (type_size : MPI_Datatype -> Z).

Local Abbreviation step_of :=
  (texec ro_net_comm_world win_start win_end comm_rank comm_size world_rank type_size).

Definition tstep (x y : transport * gset nat) : Prop := exists a, step_of a x = Some y.

Lemma submit_settled s s' done :
  settled s done ->
  submitRequestsToMPI ro_net_comm_world win_start win_end comm_rank comm_size world_rank type_size s = Some s' ->
  settled s' done.
Proof.
  intros Hv H. unfold submitRequestsToMPI in H. destruct (q s) as [|[[c t] e] l] eqn:Hq; [by simplify_eq|].
  destruct (pop_submitting c t e l s done Hv Hq) as [Hs Hn].
  by eapply (dispatch_settled c t e done) in H.
Qed.

Lemma insert_settled s done e c : settled s done -> settled (insertRequest e c s) done.
Proof using.
  intros []. constructor; simpl; try done.
  intros c'. rewrite in_ctx_app, in_ctx_one, fmap_app, app_assoc, t_order0. unfold upd.
  destruct (Z.eqb_spec c' c) as [->|Hne].
  - rewrite decide_True by done. by rewrite seq_S.
  - rewrite decide_False by done. by rewrite app_nil_r.
Qed.

Lemma complete_settled s done h :
  settled s done -> (h < next_request s)%nat -> settled s ({[h]} ∪ done).
Proof using.
  intros [] Hh. constructor; try done.
  - intros h' Hh'. apply elem_of_union in Hh' as [Hh'|Hh']; [|by apply t_done0].
    by apply elem_of_singleton in Hh' as ->.
  - intros c t h' Hi. destruct (t_issued0 _ _ _ Hi); [left; by apply elem_of_union_r|by right].
  - intros c t st Hn. destruct (t_sound0 _ _ _ Hn) as (e & He & Hd). exists e. split; [done|].
    intros t' h' Hi Hdep. apply elem_of_union_r, (Hd t' h' Hi Hdep).
Qed.

Lemma texec_settled a s done s' done' :
  settled s done -> step_of a (s, done) = Some (s', done') -> settled s' done'.
Proof.
  intros Hv H. destruct a as [e c| |h|ix]; simpl in H.
  - simplify_eq. by apply insert_settled.
  - destruct (submitRequestsToMPI _ _ _ _ _ _ _ s) as [s1|] eqn:E; simpl in H; simplify_eq.
    by eapply submit_settled.
  - case_bool_decide; simplify_eq. by apply complete_settled.
  - case_if_in H; simplify_eq. by apply progress_inv.
Qed.

Lemma init_settled : settled initTransport ∅.
Proof using.
  constructor; simpl; try done; try (intros; by match goal with H : _ ∈ _ |- _ => inversion H end).
  apply NoDup_nil_2.
Qed.

Lemma tstep_reachable_settled s done : rtc tstep (initTransport, ∅) (s, done) -> settled s done.
Proof.
  intros H. change (settled (s, done).1 (s, done).2).
  apply (rtc_invariant tstep (fun x => settled x.1 x.2)) in H; [done| |apply init_settled].
  intros [s1 d1] [s2 d2] Hv [a Ha]. by eapply texec_settled.
Qed.


Lemma settled_facts s done c :
  settled s done ->
    outstanding s c = Z.of_nat (count_ctx c (requests s)) /\
    NoDup (in_ctx c (notified s)).*1 /\
    (forall t st, (c, t, st) ∈ notified s -> exists e, (c, t, e) ∈ submitted s /\
       nonblocking (type e) = false /\ status e = st /\
       forall t' h, (c, t', h) ∈ issued s -> depends (type e) t t' -> h ∈ done) /\
    (forall t e, (c, t, e) ∈ submitted s -> nonblocking (type e) = false ->
       (c, t, status e) ∈ notified s \/ 0 < outstanding s c).
Proof using.
  intros Hv.
  pose proof (t_once _ _ _ _ Hv c) as Hp. rewrite app_nil_r in Hp.
  assert (Hnd : NoDup (in_ctx c (submitted s)).*1).
  { pose proof (NoDup_seq 0 (inserted s c)) as Hq. rewrite <- (t_order _ _ _ _ Hv c) in Hq.
    by apply NoDup_app in Hq as [? _]. }
  split; [by apply Hv|]. split; [|split].
  - apply owed_nodup in Hnd. rewrite <- Hp, fmap_app in Hnd. by apply NoDup_app in Hnd as [? _].
  - intros t st Hn. destruct (t_sound _ _ _ _ Hv _ _ _ Hn) as (e & He & Hd). exists e. split; [done|].
    apply elem_of_in_ctx in Hn, He. assert (Ho : (t, st) ∈ owed (in_ctx c (submitted s))).
    { rewrite <- Hp, elem_of_app. by left. }
    apply elem_of_owed in Ho as (e' & He' & Hb & <-).
    assert (e' = e) as -> by exact (nodup_fst_inj _ _ _ _ Hnd He' He). done.
  - intros t e He Hb. apply elem_of_in_ctx in He.
    assert (Ho : (t, status e) ∈ owed (in_ctx c (submitted s))) by (apply elem_of_owed; eauto).
    rewrite <- Hp, !elem_of_app, elem_of_in_ctx in Ho. destruct Ho as [Ho|[Ho|Ho]]; [by left|right..].
    + rewrite (t_outstanding _ _ _ _ Hv). unfold blocked in Ho.
      apply list_elem_of_omap in Ho as (r & Hr & Hrb). destruct (count_ctx c (requests s)) eqn:Ec; [|lia].
      pose proof (count_ctx_zero c _ r Ec Hr). by case_decide.
    + apply (t_waiting _ _ _ _ Hv). intros E. rewrite E in Ho. by apply not_elem_of_nil in Ho.
Qed.


(** C28: The transport sets a status flag exactly when the operation behind it is
    complete.  In every reachable state and for every context: the counter of
    outstanding requests is the number of requests in flight; no flag is set
    twice for one element; a flag is set only for a submitted blocking element,
    with the flag that element names, and only after MPI has completed the
    requests made for it and, for quiet, fence, barrier, broadcast, alltoall and
    fcollect, every request made for the earlier elements of the context; and the
    flag of a submitted blocking element is set unless a request of its context
    is still in flight, so no completion is lost. *)
Theorem ro_notified_when_complete s done :
  rtc tstep (initTransport, ∅) (s, done) ->
  forall c,
    outstanding s c = Z.of_nat (count_ctx c (requests s)) /\
    NoDup (in_ctx c (notified s)).*1 /\
    (forall t st, (c, t, st) ∈ notified s -> exists e, (c, t, e) ∈ submitted s /\
       nonblocking (type e) = false /\ status e = st /\
       forall t' h, (c, t', h) ∈ issued s -> depends (type e) t t' -> h ∈ done) /\
    (forall t e, (c, t, e) ∈ submitted s -> nonblocking (type e) = false ->
       (c, t, status e) ∈ notified s \/ 0 < outstanding s c).
Proof. intros H c. by apply settled_facts, tstep_reachable_settled. Qed.

(** What no operation of the progress thread changes: the queue, the element
    histories, and the flags already set. *)
Definition grows (s s' : transport) : Prop :=
  (exists l, notified s' = notified s ++ l) /\ submitted s' = submitted s /\ q s' = q s /\ inserted s' = inserted s.

Lemma transport_grows_refl s : grows s s.
Proof using. split; [exists []; by rewrite app_nil_r|done]. Qed.

Lemma grows_trans s s' s'' : grows s s' -> grows s' s'' -> grows s s''.
Proof using.
  intros ([l Hl] & H1 & H2 & H3) ([k Hk] & K1 & K2 & K3). split; [|by rewrite K1, K2, K3]. exists (l ++ k).
  by rewrite Hk, Hl, app_assoc.
Qed.

Lemma grows_make m s : grows s (make m s).
Proof using. split; [exists []; by rewrite app_nil_r|done]. Qed.

Lemma grows_start m st c blk t s : grows s (start m st c blk t s).
Proof using. split; [exists []; by rewrite app_nil_r|done]. Qed.

Lemma grows_notify c t st s : grows s (notify c t st s).
Proof using. split; [by eexists|done]. Qed.

Lemma grows_quiet c st t s : grows s (quiet c st t s).
Proof using. unfold quiet. case_if; [apply grows_notify|]. split; [exists []; by rewrite app_nil_r|done]. Qed.

Lemma grows_puts puts size ty team win c t s s' :
  block_puts win_start win_end world_rank puts size ty team win c t s = Some s' -> grows s s'.
Proof.
  revert s. induction puts as [|[[target from] to] l IH]; intros s H; simpl in H.
  - simplify_eq. apply transport_grows_refl.
  - unfold block_put in H. destruct (get_offset win_start win_end to) as [disp|]; simpl in H; [|done].
    eapply grows_trans; [apply grows_start|by eapply IH].
Qed.

Lemma grows_dispatch e c t s s' :
  dispatch ro_net_comm_world win_start win_end comm_rank comm_size world_rank type_size e c t s = Some s' ->
  grows s s'.
Proof.
  intros H. unfold dispatch in H.
  destruct (type e);
    unfold putMem, getMem, amoFOP, amoFCAS, team_broadcast, alltoall, fcollect, team_reduction,
      team_reduce_scatter, barrier in H;
    try case_if_in H; try done;
    try (destruct (get_offset win_start win_end _) as [disp|]; simpl in H; [|done]);
    try (destruct (block_puts _ _ _ _ _ _ _ _ _ _ _) as [s1|] eqn:Hp; simpl in H; [|done];
         apply grows_puts in Hp; eapply grows_trans; [exact Hp|]);
    simplify_eq;
    repeat first [apply transport_grows_refl | eapply grows_trans; [|apply grows_quiet] | eapply grows_trans; [|apply grows_notify]
                 |eapply grows_trans; [|apply grows_make] | eapply grows_trans; [|apply grows_start]].
Qed.

Lemma grows_complete s r : grows s (complete_one s r).
Proof using.
  unfold complete_one. set (s1 := if blocking r then _ else _).
  assert (H : grows s s1).
  { subst s1. destruct (blocking r); (split; [|done]); [by eexists|]. exists []. by rewrite app_nil_r. }
  case_if; [|done]. rewrite foldl_notify. eapply grows_trans; [exact H|]. split; [by eexists|done].
Qed.

Lemma grows_progress ix s : grows s (progress ix s).
Proof using.
  unfold progress. assert (H : forall ds s1, grows s1 (foldl complete_one s1 ds)).
  { induction ds as [|r ds IH]; intros s1; simpl; [apply transport_grows_refl|].
    eapply grows_trans; [apply grows_complete|apply IH]. }
  destruct (H (omap (fun i => requests s !! i) ix) s) as (? & ? & ? & ?). done.
Qed.

(** Submitting moves the oldest element from the queue to the history. *)
Lemma grows_submit s s' :
  submitRequestsToMPI ro_net_comm_world win_start win_end comm_rank comm_size world_rank type_size s = Some s' ->
  (exists l, notified s' = notified s ++ l) /\ submitted s' ++ q s' = submitted s ++ q s /\ inserted s' = inserted s.
Proof.
  unfold submitRequestsToMPI. destruct (q s) as [|[[c t] e] l] eqn:Hq; intros H.
  - simplify_eq. rewrite Hq. split; [exists []; by rewrite app_nil_r|done].
  - apply grows_dispatch in H as (Hn & -> & -> & ->). simpl in *. split; [done|]. split; [|done].
    by rewrite <- app_assoc.
Qed.

(** ** Draining *)

(** [k] rounds of the progress loop in which [MPI_Testsome] reports every request
    it was given. *)
Fixpoint drain (k : nat) (s : transport) : transport :=
  match k with O => s | S k' => drain k' (progress (seq 0 (incount s)) s) end.

Lemma foldl_complete_submitted ds s :
  submitted (foldl complete_one s ds) = submitted s /\ next_request (foldl complete_one s ds) = next_request s.
Proof.
  revert s. induction ds as [|r ds IH]; intros s; simpl; [done|]. destruct (IH (complete_one s r)) as [-> ->].
  unfold complete_one. destruct (blocking r); case_if; rewrite ?foldl_notify; done.
Qed.

Lemma omap_total {A B} (f : A -> option B) (l : list A) :
  Forall (fun x => is_Some (f x)) l -> length (omap f l) = length l.
Proof. induction 1 as [|x l [y Hy] _ IH]; [done|]. cbn. rewrite Hy. cbn. by f_equal. Qed.

Lemma progress_all_length s :
  length (requests (progress (seq 0 (incount s)) s)) = (length (requests s) - 128)%nat.
Proof.
  unfold progress. simpl. assert (Hl : Forall (fun i => (i < length (requests s))%nat) (seq 0 (incount s))).
  { apply Forall_forall. intros i Hi. apply elem_of_seq in Hi. unfold incount in Hi. lia. }
  pose proof (Permutation_length (erase_all_perm (seq 0 (incount s)) (requests s) (NoDup_seq _ _) Hl)) as Hp.
  rewrite length_app, omap_total, length_seq in Hp.
  - unfold incount in *. lia.
  - eapply Forall_impl; [done|]. intros i Hi. by apply lookup_lt_is_Some.
Qed.

Lemma drain_steps k s done :
  settled s done -> (forall h, (h < next_request s)%nat -> h ∈ done) ->
  rtc tstep (s, done) (drain k s, done) /\ submitted (drain k s) = submitted s /\
  length (requests (drain k s)) = (length (requests s) - 128 * k)%nat.
Proof.
  revert s. induction k as [|k IH]; intros s Hv Hd; cbn [drain].
  { split; [done|]. split; [done|]. lia. }
  assert (Ht : testsome_ok done s (seq 0 (incount s)) = true).
  { unfold testsome_ok. rewrite bool_decide_eq_true_2 by apply NoDup_seq. simpl.
    apply forallb_forall. intros i Hi. apply list_elem_of_In, elem_of_seq in Hi.
    rewrite bool_decide_eq_true_2 by lia. simpl.
    destruct (lookup_lt_is_Some_2 (requests s) i) as [r Hr]; [unfold incount in Hi; lia|]. rewrite Hr.
    apply bool_decide_eq_true_2, Hd, Hv. by apply list_elem_of_lookup_2 in Hr. }
  set (s1 := progress (seq 0 (incount s)) s).
  assert (Hs1 : submitted s1 = submitted s /\ next_request s1 = next_request s).
  { unfold s1, progress. simpl. apply foldl_complete_submitted. }
  destruct Hs1 as [Hsub Hnext].
  assert (Hv1 : settled s1 done) by by apply progress_inv.
  destruct (IH s1 Hv1) as (Hr & -> & ->); [by rewrite Hnext|]. split; [|split; [done|]].
  - eapply rtc_l; [|exact Hr]. exists (TProgress (seq 0 (incount s))). simpl. by rewrite Ht.
  - unfold s1. rewrite progress_all_length. lia.
Qed.

(** The progress loop terminates every wait.  Once MPI has completed the
    requests made so far, one round of [progress] for every 128 requests in
    flight, each reporting what it tested, empties the request vector, empties
    the waiting quiets of every context and leaves the flag of every submitted
    blocking element set. *)
Theorem ro_transport_drains s done :
  rtc tstep (initTransport, ∅) (s, done) ->
  (forall h, (h < next_request s)%nat -> h ∈ done) ->
  exists s', s' = drain ((length (requests s) + 127) / 128) s /\
    rtc tstep (s, done) (s', done) /\ requests s' = [] /\
    forall c, outstanding s' c = 0 /\ waiting_quiet s' c = [] /\
      forall t e, (c, t, e) ∈ submitted s -> nonblocking (type e) = false -> (c, t, status e) ∈ notified s'.
Proof.
  intros Hr Hd. pose proof (tstep_reachable_settled s done Hr) as Hv.
  set (k := ((length (requests s) + 127) / 128)%nat). exists (drain k s). split; [done|].
  destruct (drain_steps k s done Hv Hd) as (Hsteps & Hsub & Hlen).
  assert (Hk : (length (requests s) <= 128 * k)%nat).
  { unfold k. pose proof (Nat.div_mod_eq (length (requests s) + 127) 128).
    pose proof (Nat.mod_upper_bound (length (requests s) + 127) 128). lia. }
  assert (Hnil : requests (drain k s) = []) by (apply length_zero_iff_nil; lia).
  split; [done|]. split; [done|]. intros c.
  assert (Hv' : settled (drain k s) done).
  { apply tstep_reachable_settled. by etransitivity. }
  assert (Ho : outstanding (drain k s) c = 0).
  { rewrite (t_outstanding _ _ _ _ Hv'), Hnil. done. }
  assert (Hw : waiting_quiet (drain k s) c = []).
  { destruct (waiting_quiet (drain k s) c) eqn:E; [done|]. pose proof (t_waiting _ _ _ _ Hv' c). rewrite E, Ho in *.
    assert (0 < 0) by auto. lia. }
  split; [done|]. split; [done|]. intros t e He Hb.
  apply elem_of_in_ctx. assert (Hp := t_once _ _ _ _ Hv' c). rewrite Hw, Hnil, !app_nil_r in Hp. rewrite Hp, Hsub.
  apply elem_of_owed. exists e. split; [by apply elem_of_in_ctx|done].
Qed.


(** ** From the posted call to the MPI call *)

Local Abbreviation dispatch_of :=
  (dispatch ro_net_comm_world win_start win_end comm_rank comm_size world_rank type_size).

(** An element with every field taken from the call. *)
Definition element_of_call (c : call) (st : Z) : queue_element :=
  mkElement true (c_type c) (c_pe c)
    (if decide (c_type c = RO_NET_P) then c_value c mod 2 ^ (8 * c_size c) else c_src c)
    (c_dst c) (c_win_id c) (c_op c) (c_datatype c) (c_root c) st (c_team_comm c) (c_size c) (c_pWrk c).

Lemma store_low_read x v n : store_low x v n mod 2 ^ (8 * n) = v mod 2 ^ (8 * n).
Proof.
  unfold store_low. set (m := 2 ^ (8 * n)).
  rewrite <- Z.add_sub_swap, Zminus_mod_idemp_r, Z.add_sub_swap, Z.sub_diag, Z.add_0_l. apply Zmod_mod.
Qed.

(** The element tells the transport exactly what the thread asked for.
    Whatever a previous use of the slot left in it, dispatching an element that
    carries a call is dispatching an element whose every field comes from the
    call (with the flag of the thread when the call is blocking), for every
    command except the barrier: no field the transport reads for that command is
    stale, and the value of a [p] survives the copy into and out of the element. *)
Theorem ro_dispatch_faithful c e ctx tag s :
  carries c e -> c_type c <> RO_NET_BARRIER ->
  dispatch_of e ctx tag s = dispatch_of (element_of_call c (status e)) ctx tag s /\
  (c_blocking c = true -> status e = c_status c).
Proof.
  intros [e0 ->] Hb. unfold dispatch, build_queue_element, element_of_call.
  destruct (c_type c) eqn:Ety; simpl; rewrite ?Ety; simpl; (split; [|by intros ->]); try done.
  by rewrite store_low_read, Zmod_mod.
Qed.

(** The barrier of a team forgets the team.  The element of a barrier does
    not get the communicator, so the transport makes the barrier on whatever
    communicator the previous use of the slot left there, and on the world
    communicator in a fresh slot, whatever team the caller named. *)
Theorem ro_team_barrier_forgets_team win flag comm e0 ctx tag s :
  dispatch_of (set_valid true (build_queue_element (RoQueue.barrier win flag comm) e0)) ctx tag s =
  Some (barrier ctx flag true (if team_comm e0 =? 0 then ro_net_comm_world else team_comm e0) true tag s).
Proof. reflexivity. Qed.

End Reachable.

(** ** Witnesses

    A transport of rank 1 in a world of four, with a window of 64 KiB. *)

Definition demo_texec :=
  texec 1 4096 69632 (fun _ => 1) (fun _ => 4) (fun _ r => r)
    (fun t => match t with MPI_CHAR => 1 | _ => 8 end).

Fixpoint demo_run (l : list taction) (x : transport * gset nat) : option (transport * gset nat) :=
  match l with [] => Some x | a :: l' => y ← demo_texec a x; demo_run l' y end.

Definition demo_element (c : call) : queue_element := set_valid true (build_queue_element c zero_element).

(** A get and a quiet of context 0, an alltoall of context 2; the get completes. *)
Definition demo_actions : list taction :=
  [TInsert (demo_element (getmem_nbi 0 8192 4096 64 2)) 0;
   TInsert (demo_element (alltoall_wg 0 2001 1 RO_NET_LONG 8192 4096 16 0)) 2;
   TInsert (demo_element (RoQueue.quiet 0 1001)) 0;
   TSubmit; TSubmit; TSubmit; TComplete 0; TComplete 3; TProgress [3; 0]%nat].

Lemma demo_run_steps l x y :
  demo_run l x = Some y ->
  rtc (tstep 1 4096 69632 (fun _ => 1) (fun _ => 4) (fun _ r => r)
         (fun t => match t with MPI_CHAR => 1 | _ => 8 end)) x (y.1, y.2).
Proof.
  rewrite <- surjective_pairing. revert x. induction l as [|a l IH]; intros x H; simpl in H; [by simplify_eq|].
  destruct (demo_texec a x) as [z|] eqn:E; simpl in H; [|done]. eapply rtc_l; [by exists a|auto].
Qed.

Definition demo_state : transport * gset nat :=
  match demo_run demo_actions (initTransport, ∅) with Some y => y | None => (initTransport, ∅) end.

Lemma demo_state_reached : demo_run demo_actions (initTransport, ∅) = Some demo_state.
Proof. vm_compute. reflexivity. Qed.

(** In this state the quiet of context 0 has been answered, the alltoall has
    not. *)
Lemma ro_notified_when_complete_witness :
  notified demo_state.1 = [(0, 1%nat, 1001)] /\
  (forall h, (0, 0%nat, h) ∈ issued demo_state.1 -> h ∈ demo_state.2) /\
  outstanding demo_state.1 2 = 3.
Proof.
  assert (Hn : notified demo_state.1 = [(0, 1%nat, 1001)]) by (vm_compute; reflexivity).
  split; [exact Hn|]. split; [|vm_compute; reflexivity].
  destruct (ro_notified_when_complete 1 4096 69632 (fun _ => 1) (fun _ => 4) (fun _ r => r)
    (fun t => match t with MPI_CHAR => 1 | _ => 8 end) demo_state.1 demo_state.2
    (demo_run_steps _ _ _ demo_state_reached) 0) as (_ & _ & Hs & _).
  destruct (Hs 1%nat 1001) as (e & He & Hb & Hst & Hd).
  { rewrite Hn. left. }
  intros h Hh. apply (Hd 0%nat h Hh). right. split; [|lia].
  revert He. vm_compute. intros He.
  repeat (apply elem_of_cons in He as [He|He]; [try discriminate He; injection He as ->; reflexivity|]).
  by apply not_elem_of_nil in He.
Defined.

Definition demo_done : transport * gset nat :=
  match demo_run (demo_actions ++ [TComplete 1; TComplete 2; TComplete 4]%nat) (initTransport, ∅) with
  | Some y => y | None => (initTransport, ∅)
  end.

Lemma demo_done_reached :
  demo_run (demo_actions ++ [TComplete 1; TComplete 2; TComplete 4]%nat) (initTransport, ∅) = Some demo_done.
Proof. vm_compute. reflexivity. Qed.

Lemma ro_transport_drains_witness :
  length (requests demo_done.1) = 3%nat /\ requests (drain 1 demo_done.1) = [].
Proof.
  split; [vm_compute; reflexivity|].
  destruct (ro_transport_drains 1 4096 69632 (fun _ => 1) (fun _ => 4) (fun _ r => r)
    (fun t => match t with MPI_CHAR => 1 | _ => 8 end) demo_done.1 demo_done.2
    (demo_run_steps _ _ _ demo_done_reached)) as (s' & Hs' & _ & Hr & _).
  - change (next_request demo_done.1) with 5%nat. intros h Hh.
    destruct h as [|[|[|[|[|h]]]]]; try (vm_compute; reflexivity). lia.
  - rewrite Hs' in Hr. exact Hr.
Defined.

Definition demo_p : call := p 0 1003 5000 258 2 3.

Lemma ro_dispatch_faithful_witness :
  dispatch 1 4096 69632 (fun _ => 1) (fun _ => 4) (fun _ r => r) (fun _ => 8) (demo_element demo_p) 0 0 initTransport =
  dispatch 1 4096 69632 (fun _ => 1) (fun _ => 4) (fun _ r => r) (fun _ => 8) (element_of_call demo_p 1003) 0 0
    initTransport.
Proof.
  apply (ro_dispatch_faithful 1 4096 69632 (fun _ => 1) (fun _ => 4) (fun _ r => r) (fun _ => 8) demo_p
           (demo_element demo_p) 0 0 initTransport); [by exists zero_element|discriminate].
Defined.
