(* ===== verification/RoSystem.v ===== *)
(** * The reverse-offload backend end to end

    The command rings of all contexts ([RoQueue]), the transport
    ([MpiTransport]) and the status flags the two share, as one machine: a ring
    hands its elements to the transport, the transport sets the flags, and the
    blocked lanes of the rings read and clear them.  Every context has one
    handle; its flags are those [BlockHandleProxy] gives it.

    The theorems are about the blocking calls of GPU threads.  A lane polls the
    flag through its queue element, so it reads its own flag only as long as the
    slot is not reused; the runs in which that holds are the calm ones.  In calm
    runs a blocking call returns only after its operation is complete, and the
    system never deadlocks.  A run that is not calm shows what goes wrong
    otherwise. *)

From stdpp Require Import base list numbers gmap.
From S2P Require Import Prelude RoQueue MpiTransport.

(** ** Lanes of a ring *)

(** Lane [j] of wavefront [w] is at [pc] with call [c] and ticket [t]. *)
Definition lane_at (r : ring) (w : Z) (j t : nat) (c : call) (pc : lane_pc) : Prop :=
  exists tk slot ls, waves r w = WLanes tk slot ls /\ ls !! j = Some (c, pc) /\ t = (tk + j)%nat.

Definition in_wait (pc : lane_pc) : bool := match pc with LWait | LClear => true | _ => false end.

(** Some lane waits for ticket [t]. *)
Definition awaiting (r : ring) (t : nat) (c : call) : Prop :=
  exists w j pc, lane_at r w j t c pc /\ in_wait pc = true.

(** The moves of a lane. *)
Inductive lane_move (c : call) : lane_pc -> lane_pc -> Prop :=
| move_fill : lane_move c LFill LPublish
| move_publish : lane_move c LPublish (if c_blocking c then LWait else LDone)
| move_poll : lane_move c LWait LClear
| move_clear : lane_move c LClear LDone.

Definition calls_of (x : wave) : list call :=
  match x with
  | WLock cs | WSpace cs | WAdd _ cs | WUnlock _ _ cs => cs
  | WLanes _ _ ls => ls.*1
  end.

(** Wavefront [w] has still to publish ticket [t]. *)
Definition owned_by (r : ring) (w : Z) (t : nat) (c : call) : Prop :=
  exists tk slot ls j pc, tickets (waves r w) = (tk, slot, ls) /\ ls !! j = Some (c, pc) /\
    t = (tk + j)%nat /\ published pc = false.

Section Ring.
Context (queue_size flags WF_SIZE max_wg_size : Z).
Context (Hsize : 0 < queue_size < 2 ^ 64) (Hdiv : (queue_size | 2 ^ 64)).

Local Abbreviation n_slots := (Z.to_nat queue_size).
Local Abbreviation step := (exec queue_size (fun _ => 0) flags WF_SIZE max_wg_size).
Local Abbreviation ring_inv := (inv queue_size 0).

(** What one step does to the lanes. *)
Inductive effect (r r' : ring) : label -> Prop :=
| effect_wave w :
    (forall w', w' <> w -> waves r' w' = waves r w') ->
    (forall j t c pc, lane_at r w j t c pc -> pc = LDone) ->
    (forall j t c pc, lane_at r' w j t c pc -> pc = LFill) ->
    (calls_of (waves r' w) = calls_of (waves r w) \/
     exists cs, callers_ok flags WF_SIZE max_wg_size w cs = true /\ calls_of (waves r' w) = cs.*2) ->
    queue r' = queue r -> consumed r' = consumed r -> host r' = host r ->
    (posted r' = posted r \/ posted r' = posted r ++ ((fun c => (c, false)) <$> calls_of (waves r w))) ->
    (forall t c, owned_by r w t c -> owned_by r' w t c) ->
    (forall t c, posted r' !! t = Some (c, false) -> posted r !! t = Some (c, false) \/ owned_by r' w t c) ->
    effect r r' Tau
| effect_lane w tk slot ls j c pc pc' x :
    waves r w = WLanes tk slot ls -> ls !! j = Some (c, pc) -> lane_move c pc pc' ->
    waves r' = upd (waves r) w (WLanes tk slot (<[j := (c, pc')]> ls)) ->
    consumed r' = consumed r -> host r' = host r ->
    (forall t, t <> (tk + j)%nat -> posted r' !! t = posted r !! t) ->
    posted r' !! (tk + j)%nat = Some (c, published pc') -> length (posted r') = length (posted r) ->
    (pc <> LFill -> forall s e, queue r !! s = Some e -> exists e', queue r' !! s = Some e' /\ status e' = status e) ->
    (forall s, s <> ((tk + j) mod n_slots)%nat -> queue r' !! s = queue r !! s) ->
    x = match pc with
        | LWait => Seen (status (element r ((tk + j) mod n_slots)))
        | LClear => Reset (status (element r ((tk + j) mod n_slots)))
        | _ => Tau
        end ->
    effect r r' x
| effect_host x :
    waves r' = waves r -> posted r' = posted r ->
    (forall s e, queue r !! s = Some e -> exists e', queue r' !! s = Some e' /\ status e' = status e) ->
    match x with Insert t e => True | _ => x = Tau end -> effect r r' x.

(** A store that keeps the status. *)
Lemma insert_status r s1 e1 s e :
  status e1 = status (element r s1) -> queue r !! s = Some e ->
  exists e', <[s1 := e1]> (queue r) !! s = Some e' /\ status e' = status e.
Proof using.
  intros He Hs. destruct (decide (s1 = s)) as [->|Hne].
  - exists e1. rewrite list_lookup_insert_eq by by apply lookup_lt_Some in Hs. split; [done|].
    by rewrite He, (element_lookup r s e Hs).
  - rewrite list_lookup_insert_ne by done. eauto.
Qed.

Lemma lane_effect a r w tk slot ls j c pc r' x :
  ring_inv r -> waves r w = WLanes tk slot ls -> ls !! j = Some (c, pc) ->
  exec_lane queue_size a r w tk slot ls j c pc = Some (r', x) -> effect r r' x.
Proof using Hsize Hdiv.
  intros [Hm Hk Hl] Hw Hj He.
  destruct (i_lanes _ _ _ _ Hl w tk slot ls j c pc) as (-> & Hp & _); [by rewrite Hw|done|].
  pose proof (lookup_lt_Some _ _ _ Hp) as Hlen.
  unfold exec_lane in He. rewrite slot_ticket in He by done.
  destruct a, pc; simplify_eq; simpl in Hp.
  all: eapply (effect_lane r _ w tk _ ls j c); [exact Hw|exact Hj|constructor| | | | | | | | |]; simpl;
    rewrite ?length_insert; try done.
  all: try (intros s Hs; by rewrite list_lookup_insert_ne).
  all: try (by intros _ s e' He'; eauto).
  - rewrite list_lookup_insert_eq by done. by destruct (c_blocking c).
  - intros _ s e He. eapply insert_status; [|done]. done.
Qed.


Lemma idle_lanes r w j t c pc : idle (waves r w) = true -> lane_at r w j t c pc -> pc = LDone.
Proof using.
  intros Hi (tk & slot & ls & Hw & Hj & _). rewrite Hw in Hi. simpl in Hi. rewrite forallb_forall in Hi.
  specialize (Hi (c, pc)). rewrite <- list_elem_of_In in Hi. apply list_elem_of_lookup_2 in Hj.
  specialize (Hi Hj). unfold lane_done in Hi. simpl in Hi. by destruct pc.
Qed.

Lemma wave_effect a r w r' x :
  exec_wave queue_size (fun _ => 0) flags WF_SIZE max_wg_size a r w = Some (r', x) -> effect r r' x.
Proof using.
  intros He. unfold exec_wave in He.
  assert (Hother : forall y w', w' <> w -> upd (waves r) w y w' = waves r w') by (intros; by apply upd_ne).
  destruct a, (waves r w) as [cs'|cs'|slot cs'|tk slot cs'|tk slot ls] eqn:Hw; simplify_eq;
    try case_if_in He; simplify_eq.
  all: apply (effect_wave r _ w); simpl; try done; try (by auto); unfold lane_at, owned_by; simpl; rewrite ?upd_eq, ?Hw.
  all: try (by intros j t c pc (tk' & slot' & ls' & ? & ?)).
  all: try (by left); try (by right).
  all: try (by intros t c (tk' & slot' & ls' & j & pc & [= <- <- <-] & Hj & _)).
  - intros j t c pc Hl. apply andb_prop in E as [Hi _]. rewrite <- Hw in Hi.
    apply (idle_lanes r w j t c pc Hi). unfold lane_at. by rewrite Hw.
  - apply andb_prop in E as [_ Hc]. right. eauto.
  - intros t c (tk' & slot' & ls' & j & pc & [= <- <- <-] & Hj & _ & Hpc). exfalso.
    apply andb_prop in E as [Hi _]. rewrite <- Hw in Hi.
    assert (pc = LDone) as ->; [|done]. apply (idle_lanes r w j (tk + j)%nat c pc Hi). unfold lane_at. rewrite Hw. eauto 6.
  - intros t c Ht. apply lookup_app_Some in Ht as [Ht|[Hge Ht]]; [by left|right].
    rewrite list_lookup_fmap in Ht. destruct (cs' !! _) as [c'|] eqn:Ec; simplify_eq/=.
    eexists _, _, _, (t - length (posted r))%nat, LFill. split; [done|].
    rewrite list_lookup_fmap, Ec. split; [done|]. split; [lia|done].
  - intros j t c pc (tk' & slot' & ls' & [= <- <- <-] & Hj & _). rewrite list_lookup_fmap in Hj.
    by destruct (cs' !! j); simplify_eq/=.
  - left. simpl. rewrite <- list_fmap_compose. by apply list_fmap_id.
  - done.
Qed.

Lemma host_effect a r r' x : exec_host queue_size a r = Some (r', x) -> effect r r' x.
Proof using.
  intros He. unfold exec_host in He. destruct a, (host r); simplify_eq; try case_if_in He; simplify_eq;
    apply effect_host; simpl; try done; try (by intros s e' He'; eauto).
  intros s e He. by eapply insert_status.
Qed.

Lemma exec_effect a r r' x : ring_inv r -> step a r = Some (r', x) -> effect r r' x.
Proof using Hsize Hdiv.
  intros Hv He. destruct a; cbn [exec] in He; try (by eapply wave_effect); try (by eapply host_effect).
  all: destruct (waves r w) as [| | | |tk slot ls] eqn:Hw; try done.
  all: destruct (ls !! i) as [[c pc]|] eqn:Hi; try done.
  all: by eapply lane_effect.
Qed.


(** ** The threads behind the calls *)

(** The flag of a blocking call is that of a thread of the wavefront. *)
Definition thread_flag (w st : Z) : Prop :=
  (st - flags) / WF_SIZE = w /\ 0 <= st - flags < max_wg_size.

Record callers_inv (r : ring) : Prop := {
  k_calls : forall w c, c ∈ calls_of (waves r w) ->
    call_ok c = true /\ (c_blocking c = true -> thread_flag w (c_status c));
  k_distinct : forall w j j' c c', calls_of (waves r w) !! j = Some c -> calls_of (waves r w) !! j' = Some c' ->
    c_blocking c = true -> c_blocking c' = true -> c_status c = c_status c' -> j = j';
  k_posted : forall t c b, posted r !! t = Some (c, b) -> call_ok c = true;
  k_owner : forall t c, posted r !! t = Some (c, false) -> exists w, owned_by r w t c;
  k_width : 0 < WF_SIZE -> forall w, Z.of_nat (length (calls_of (waves r w))) <= WF_SIZE
}.

Lemma callers_ok_width w cs :
  0 < WF_SIZE -> callers_ok flags WF_SIZE max_wg_size w cs = true -> Z.of_nat (length cs) <= WF_SIZE.
Proof using.
  intros Hwf. unfold callers_ok. intros H. apply andb_prop in H as [H _]. apply andb_prop in H as [Hn Hf].
  apply bool_decide_eq_true in Hn. rewrite forallb_forall in Hf.
  assert (Hsub : cs.*1 ⊆ seqZ (w * WF_SIZE) WF_SIZE).
  { intros tid Hin. apply list_elem_of_fmap in Hin as ([tid' c] & -> & Hin). simpl.
    specialize (Hf (tid', c)). rewrite <- list_elem_of_In in Hf. specialize (Hf Hin). simpl in Hf.
    apply elem_of_seqZ. rewrite !andb_true_iff in Hf. destruct Hf as [[[[Hw _] _] _] _]. apply Z.eqb_eq in Hw.
    pose proof (Z.div_mod tid' WF_SIZE). pose proof (Z.mod_pos_bound tid' WF_SIZE Hwf). nia. }
  pose proof (submseteq_length _ _ (NoDup_submseteq _ _ Hn (fun y Hy => Hsub y Hy))) as Hlen.
  rewrite length_fmap, length_seqZ in Hlen. lia.
Qed.

Lemma callers_ok_calls w cs :
  callers_ok flags WF_SIZE max_wg_size w cs = true ->
  (forall c, c ∈ cs.*2 -> call_ok c = true /\ (c_blocking c = true -> thread_flag w (c_status c))) /\
  (forall j j' c c', cs.*2 !! j = Some c -> cs.*2 !! j' = Some c' ->
     c_blocking c = true -> c_blocking c' = true -> c_status c = c_status c' -> j = j').
Proof using.
  unfold callers_ok. intros H. apply andb_prop in H as [H _]. apply andb_prop in H as [Hn Hf].
  apply bool_decide_eq_true in Hn. rewrite forallb_forall in Hf.
  assert (Hc : forall tid c, (tid, c) ∈ cs -> tid / WF_SIZE = w /\ 0 <= tid < max_wg_size /\ call_ok c = true /\
    (c_blocking c = true -> c_status c = flags + tid)).
  { intros tid c Hin. specialize (Hf (tid, c)). rewrite <- list_elem_of_In in Hf. specialize (Hf Hin).
    simpl in Hf. unfold get_status_flag in Hf. destruct (call_ok c), (c_blocking c); simpl in *; lia. }
  split.
  - intros c Hin. apply list_elem_of_fmap in Hin as ([tid c'] & -> & Hin). destruct (Hc _ _ Hin) as (Hw & Hr & Ho & Hs).
    split; [done|]. intros Hb. specialize (Hs Hb). simpl in *. unfold thread_flag. rewrite Hs.
    replace (flags + tid - flags) with tid by lia. done.
  - intros j j' c c' Hj Hj' Hb Hb' He. rewrite list_lookup_fmap in Hj, Hj'.
    destruct (cs !! j) as [[tid c1]|] eqn:Ej; simplify_eq/=. destruct (cs !! j') as [[tid' c2]|] eqn:Ej'; simplify_eq/=.
    destruct (Hc _ _ (list_elem_of_lookup_2 _ _ _ Ej)) as (_ & _ & _ & Hs).
    destruct (Hc _ _ (list_elem_of_lookup_2 _ _ _ Ej')) as (_ & _ & _ & Hs').
    specialize (Hs Hb). specialize (Hs' Hb'). assert (tid = tid') as -> by lia.
    apply (NoDup_lookup cs.*1 j j' tid'); [done| |]; rewrite list_lookup_fmap, ?Ej, ?Ej'; done.
Qed.

Lemma calls_of_move tk slot ls j c pc pc' :
  ls !! j = Some (c, pc) -> calls_of (WLanes tk slot (<[j := (c, pc')]> ls)) = calls_of (WLanes tk slot ls).
Proof using.
  intros Hj. simpl. rewrite list_fmap_insert. simpl. apply list_insert_id. by rewrite list_lookup_fmap, Hj.
Qed.


Lemma owned_by_other r r' w t c : waves r' w = waves r w -> owned_by r w t c -> owned_by r' w t c.
Proof using. unfold owned_by. by intros ->. Qed.

Lemma owned_by_move r r' w tk slot ls j c pc pc' w' t c' :
  waves r w = WLanes tk slot ls -> waves r' = upd (waves r) w (WLanes tk slot (<[j := (c, pc')]> ls)) ->
  ls !! j = Some (c, pc) -> t <> (tk + j)%nat -> owned_by r w' t c' -> owned_by r' w' t c'.
Proof using.
  intros Hw Hw' Hj Ht Ho. destruct (decide (w' = w)) as [->|Hne].
  - destruct Ho as (tk' & slot' & ls' & j' & pc1 & Htk & Hj' & -> & Hpc). rewrite Hw in Htk. simplify_eq/=.
    eexists _, _, _, j', pc1. rewrite Hw', upd_eq. split; [done|].
    rewrite list_lookup_insert_ne by (intros ->; lia). done.
  - eapply owned_by_other; [|done]. by rewrite Hw', upd_ne.
Qed.

Lemma callers_step r r' x :
  callers_inv r -> effect r r' x -> callers_inv r'.
Proof using.
  intros [Hk Hd Hp Ho Hwd] He. destruct He as
    [w Hother _ _ Hcalls _ _ _ Hps Hown Hnew
    |w tk slot ls j c pc pc' x Hw Hj _ Hw' _ _ Hpo Hpt _ _ _ _
    |x Hws Hps _ _].
  - assert (Hcases : (calls_of (waves r' w) = calls_of (waves r w)) \/
      (forall c, c ∈ calls_of (waves r' w) -> call_ok c = true /\ (c_blocking c = true -> thread_flag w (c_status c))) /\
      (forall j j' c c', calls_of (waves r' w) !! j = Some c -> calls_of (waves r' w) !! j' = Some c' ->
         c_blocking c = true -> c_blocking c' = true -> c_status c = c_status c' -> j = j')).
    { destruct Hcalls as [?|(cs & Hcs & ->)]; [by left|right]. by apply callers_ok_calls. }
    constructor.
    + intros w' c Hc. destruct (decide (w' = w)) as [->|Hne]; [|rewrite Hother in Hc by done; by apply Hk].
      destruct Hcases as [E|[H _]]; [rewrite E in Hc; by apply Hk|by apply H].
    + intros w' j j' c c' Hc Hc'. destruct (decide (w' = w)) as [->|Hne].
      * destruct Hcases as [E|[_ H]]; [rewrite E in Hc, Hc'; exact (Hd w j j' c c' Hc Hc')|exact (H j j' c c' Hc Hc')].
      * rewrite Hother in Hc, Hc' by done. exact (Hd w' j j' c c' Hc Hc').
    + intros t c b Ht. destruct Hps as [E|E]; rewrite E in Ht; [by eapply Hp|].
      apply lookup_app_Some in Ht as [Ht|[_ Ht]]; [by eapply Hp|].
      rewrite list_lookup_fmap in Ht. destruct (calls_of (waves r w) !! _) as [c1|] eqn:Ec; simplify_eq/=.
      apply (Hk w). by apply list_elem_of_lookup_2 in Ec.
    + intros t c Ht. destruct (Hnew t c Ht) as [Ht'|?]; [|by exists w]. destruct (Ho t c Ht') as [w' Hw'].
      exists w'. destruct (decide (w' = w)) as [->|Hne]; [by apply Hown|].
      eapply owned_by_other; [|done]. by apply Hother.
    + intros Hwf w'. destruct (decide (w' = w)) as [->|Hne]; [|rewrite Hother by done; by apply Hwd].
      destruct Hcalls as [->|(cs & Hcs & ->)]; [by apply Hwd|].
      rewrite length_fmap. by eapply callers_ok_width.
  - assert (Hcalls : forall w', calls_of (waves r' w') = calls_of (waves r w')).
    { intros w'. rewrite Hw'. destruct (decide (w' = w)) as [->|Hne]; [|by rewrite upd_ne].
      rewrite upd_eq, Hw. by eapply calls_of_move. }
    constructor.
    + intros w' c'. rewrite Hcalls. apply Hk.
    + intros w' i i' c1 c2. rewrite Hcalls. apply Hd.
    + intros t c' b Ht. destruct (decide (t = tk + j)%nat) as [->|Hne].
      * rewrite Hpt in Ht. simplify_eq. apply (Hk w). rewrite Hw. simpl. apply list_elem_of_fmap.
        exists (c', pc). split; [done|]. by apply list_elem_of_lookup_2 in Hj.
      * rewrite Hpo in Ht by done. by eapply Hp.
    + intros t c' Ht. destruct (decide (t = tk + j)%nat) as [->|Hne].
      * rewrite Hpt in Ht. simplify_eq. exists w. eexists _, _, _, j, pc'. rewrite Hw', upd_eq.
        split; [done|]. rewrite list_lookup_insert_eq by by apply lookup_lt_Some in Hj. done.
      * rewrite Hpo in Ht by done. destruct (Ho t c' Ht) as [w' Hw1]. exists w'. by eapply owned_by_move.
    + intros Hwf w'. rewrite Hcalls. by apply Hwd.
  - unfold owned_by in *. constructor; rewrite ?Hws, ?Hps; try done.
    intros t c Ht. unfold owned_by. rewrite Hws. auto.
Qed.

Lemma init_callers : callers_inv (ring_init queue_size).
Proof using.
  constructor; simpl; try done.
  - intros w c Hc. by apply not_elem_of_nil in Hc.
  - intros Hwf w. lia.
Qed.

(** Two waiting lanes of a ring with one flag are one lane. *)
Lemma flag_owner r w j t c pc w' j' t' c' pc' :
  callers_inv r -> lane_at r w j t c pc -> lane_at r w' j' t' c' pc' ->
  c_blocking c = true -> c_blocking c' = true -> c_status c = c_status c' -> w = w' /\ j = j' /\ t = t' /\ c = c' /\ pc = pc'.
Proof using.
  intros Hk (tk & slot & ls & Hw & Hj & ->) (tk' & slot' & ls' & Hw' & Hj' & ->) Hb Hb' He.
  assert (Hin : calls_of (waves r w) !! j = Some c) by by rewrite Hw; simpl; rewrite list_lookup_fmap, Hj.
  assert (Hin' : calls_of (waves r w') !! j' = Some c') by by rewrite Hw'; simpl; rewrite list_lookup_fmap, Hj'.
  assert (w = w') as <-.
  { destruct (k_calls r Hk w c) as [_ H]; [by eapply list_elem_of_lookup_2|].
    destruct (k_calls r Hk w' c') as [_ H']; [by eapply list_elem_of_lookup_2|].
    destruct (H Hb) as [<- _], (H' Hb') as [<- _]. by rewrite He. }
  assert (j = j') as <- by exact (k_distinct r Hk w j j' c c' Hin Hin' Hb Hb' He).
  rewrite Hw in Hw'. by simplify_eq.
Qed.


(** ** Reading the flag through the element *)

(** The slot of a waiting lane has not been taken again. *)
Definition calm (r : ring) : Prop :=
  forall t c, awaiting r t c -> (length (posted r) <= t + n_slots)%nat.

Definition kept (r : ring) : Prop :=
  forall t c, awaiting r t c -> c_blocking c = true /\
    exists e, queue r !! (t mod n_slots)%nat = Some e /\ status e = c_status c.

Lemma lane_move_other r r' w tk slot ls j c pc pc' w1 j1 t1 c1 pc1 :
  waves r w = WLanes tk slot ls -> ls !! j = Some (c, pc) ->
  waves r' = upd (waves r) w (WLanes tk slot (<[j := (c, pc')]> ls)) ->
  lane_at r' w1 j1 t1 c1 pc1 ->
  (w1 = w /\ j1 = j /\ t1 = (tk + j)%nat /\ c1 = c /\ pc1 = pc') \/
  (lane_at r w1 j1 t1 c1 pc1 /\ (w1 <> w \/ j1 <> j)).
Proof using.
  intros Hw Hj Hw' (tk1 & slot1 & ls1 & H1 & Hj1 & ->). rewrite Hw' in H1.
  destruct (decide (w1 = w)) as [->|Hne].
  - rewrite upd_eq in H1. simplify_eq. destruct (decide (j1 = j)) as [->|Hnj].
    + rewrite list_lookup_insert_eq in Hj1 by by apply lookup_lt_Some in Hj. left. by simplify_eq.
    + rewrite list_lookup_insert_ne in Hj1 by done. right. split; [|by right]. by exists tk1, slot1, ls.
  - rewrite upd_ne in H1 by done. right. split; [|by left]. by exists tk1, slot1, ls1.
Qed.

Lemma lane_move_keeps r r' w tk slot ls j c pc pc' w1 j1 t1 c1 pc1 :
  waves r w = WLanes tk slot ls -> ls !! j = Some (c, pc) ->
  waves r' = upd (waves r) w (WLanes tk slot (<[j := (c, pc')]> ls)) ->
  lane_at r w1 j1 t1 c1 pc1 -> w1 <> w \/ j1 <> j -> lane_at r' w1 j1 t1 c1 pc1.
Proof using.
  intros Hw Hj Hw' (tk1 & slot1 & ls1 & H1 & Hj1 & ->) Hne. unfold lane_at. rewrite Hw'.
  destruct (decide (w1 = w)) as [->|Hnw].
  - rewrite Hw in H1. simplify_eq. rewrite upd_eq. eexists _, _, _. split; [done|].
    rewrite list_lookup_insert_ne by (intros ->; by destruct Hne). done.
  - rewrite upd_ne by done. by exists tk1, slot1, ls1.
Qed.

Lemma lane_ticket r w j t c pc :
  ring_inv r -> lane_at r w j t c pc -> posted r !! t = Some (c, published pc).
Proof using.
  intros [_ _ Hl] (tk & slot & ls & Hw & Hj & ->).
  by destruct (i_lanes _ _ _ _ Hl w tk slot ls j c pc) as (_ & Hp & _); [rewrite Hw|..].
Qed.

Lemma ticket_owner r w j w' j' t c pc c' pc' :
  ring_inv r -> lane_at r w j t c pc -> lane_at r w' j' t c' pc' -> w = w' /\ j = j'.
Proof using.
  intros [_ _ Hl] (tk & slot & ls & Hw & Hj & ->) (tk' & slot' & ls' & Hw' & Hj' & Ht).
  destruct (decide (w = w')) as [<-|Hne].
  - rewrite Hw in Hw'. simplify_eq. split; [done|]. clear -Ht. lia.
  - apply lookup_lt_Some in Hj, Hj'.
    destruct (i_apart _ _ _ _ Hl w w' tk slot ls tk' slot' ls' j j'); try done; by rewrite ?Hw, ?Hw'.
Qed.

Lemma slots_differ t u : t <> u -> (t < u + n_slots)%nat -> (u < t + n_slots)%nat -> (t mod n_slots <> u mod n_slots)%nat.
Proof using Hsize.
  intros Hne H1 H2 He. apply Hne. apply (window_slots queue_size Hsize (Nat.min t u)); lia.
Qed.

Lemma kept_step r r' x :
  ring_inv r -> kept r -> effect r r' x -> calm r' -> kept r'.
Proof using Hsize.
  intros Hv Hkept He Hcalm t c1 Haw. destruct Haw as (w1 & j1 & pc1 & Hl1 & Hpc1).
  destruct He as
    [w Hother _ Hfill _ Hq _ _ _ _ _
    |w tk slot ls j c pc pc' x Hw Hj Hmove Hw' _ _ _ _ Hlen Hst Hq _
    |x Hws _ Hst _].
  - destruct (decide (w1 = w)) as [->|Hne]; [by rewrite (Hfill _ _ _ _ Hl1) in Hpc1|].
    rewrite Hq. apply Hkept. exists w1, j1, pc1. split; [|done]. unfold lane_at in *. by rewrite Hother in Hl1.
  - pose proof (Hcalm t c1 (ex_intro _ w1 (ex_intro _ j1 (ex_intro _ pc1 (conj Hl1 Hpc1))))) as Hwin.
    assert (Hold : awaiting r t c1 -> pc <> LFill \/ (t mod n_slots)%nat <> ((tk + j) mod n_slots)%nat ->
      c_blocking c1 = true /\ exists e, queue r' !! (t mod n_slots)%nat = Some e /\ status e = c_status c1).
    { intros Haw Hcase. destruct (Hkept t c1 Haw) as (Hb & e & He & Hs). split; [done|].
      destruct Hcase as [Hnf|Hns]; [|rewrite Hq by done; eauto].
      destruct (Hst Hnf _ _ He) as (e' & He' & Hs'). exists e'. split; [done|]. congruence. }
    destruct (lane_move_other r r' w tk slot ls j c pc pc' _ _ _ _ _ Hw Hj Hw' Hl1)
      as [(-> & -> & -> & -> & ->)|[Hl Hne]].
    + assert (Hlane : lane_at r w j (tk + j) c pc) by by exists tk, slot, ls.
      inversion Hmove as [E1 E2|E1 E2|E1 E2|E1 E2]; subst pc pc'; try done.
      * destruct (c_blocking c) eqn:Eb; [|done]. split; [done|].
        destruct Hv as [_ _ Hlo]. destruct (i_lanes _ _ _ _ Hlo w tk slot ls j c LPublish) as (_ & _ & Hb);
          [by rewrite Hw|done|]. destruct (Hb eq_refl) as [e0 He0].
        destruct (Hst ltac:(done) _ _ He0) as (e' & He' & Hs'). exists e'. split; [done|]. rewrite Hs'.
        unfold build_queue_element. rewrite Eb. by destruct (c_type c).
      * apply Hold; [|by left]. exists w, j, LWait. done.
    + apply Hold; [by exists w1, j1, pc1|]. destruct (decide (pc = LFill)) as [->|]; [right|by left].
      assert (Hlane : lane_at r w j (tk + j) c LFill) by by exists tk, slot, ls.
      pose proof (lane_ticket _ _ _ _ _ _ Hv Hlane) as Hpu. pose proof (lane_ticket _ _ _ _ _ _ Hv Hl) as Hpt.
      destruct (unready_window queue_size 0 Hsize r _ _ (i_memory _ _ _ Hv) Hpu) as [Hu Hu'].
      apply lookup_lt_Some in Hpt.
      destruct (i_read _ _ r (i_memory _ _ _ Hv)) as (C & _ & HC & HC').
      apply slots_differ; [|lia..]. intros ->.
      destruct (ticket_owner r w1 j1 w j _ _ _ _ _ Hv Hl Hlane). by destruct Hne.
  - destruct (Hkept t c1) as (Hb & e & He & Hs).
    { exists w1, j1, pc1. split; [|done]. unfold lane_at in *. by rewrite Hws in Hl1. }
    split; [done|]. destruct (Hst _ _ He) as (e' & He' & Hs'). exists e'. split; [done|]. congruence.
Qed.


(** ** What a step means for the waiting lanes *)

Inductive lane_event (r r' : ring) : label -> Prop :=
| event_none l :
    match l with Tau | Insert _ _ => True | _ => False end ->
    (forall w j t c pc, in_wait pc = true -> lane_at r' w j t c pc <-> lane_at r w j t c pc) ->
    lane_event r r' l
| event_publish w j t c :
    lane_at r w j t c LPublish -> c_blocking c = true -> lane_at r' w j t c LWait ->
    (forall w1 j1 t1 c1 pc1, in_wait pc1 = true -> lane_at r' w1 j1 t1 c1 pc1 <->
       lane_at r w1 j1 t1 c1 pc1 \/ (w1 = w /\ j1 = j /\ t1 = t /\ c1 = c /\ pc1 = LWait)) ->
    lane_event r r' Tau
| event_seen w j t c :
    lane_at r w j t c LWait ->
    (forall w1 j1 t1 c1 pc1, in_wait pc1 = true -> lane_at r' w1 j1 t1 c1 pc1 <->
       (lane_at r w1 j1 t1 c1 pc1 /\ (w1 <> w \/ j1 <> j)) \/
       (w1 = w /\ j1 = j /\ t1 = t /\ c1 = c /\ pc1 = LClear)) ->
    lane_event r r' (Seen (c_status c))
| event_reset w j t c :
    lane_at r w j t c LClear ->
    (forall w1 j1 t1 c1 pc1, in_wait pc1 = true -> lane_at r' w1 j1 t1 c1 pc1 <->
       lane_at r w1 j1 t1 c1 pc1 /\ (w1 <> w \/ j1 <> j)) ->
    lane_event r r' (Reset (c_status c)).

(** The lane at [w], [j] is at one place. *)
Lemma lane_at_fun r w j t c pc t' c' pc' :
  lane_at r w j t c pc -> lane_at r w j t' c' pc' -> t = t' /\ c = c' /\ pc = pc'.
Proof using.
  intros (tk & slot & ls & Hw & Hj & ->) (tk' & slot' & ls' & Hw' & Hj' & ->). rewrite Hw in Hw'. by simplify_eq.
Qed.

Lemma kept_status r w j t c pc :
  kept r -> lane_at r w j t c pc -> in_wait pc = true -> status (element r (t mod n_slots)%nat) = c_status c.
Proof using.
  intros Hk Hl Hp. destruct (Hk t c) as (_ & e & He & Hs); [by exists w, j, pc|].
  by rewrite (element_lookup r _ e He).
Qed.

Lemma effect_event r r' l : kept r -> effect r r' l -> lane_event r r' l.
Proof using Hsize.
  intros Hk He. destruct He as
    [w Hother Hdone Hfill _ _ _ _ _ _ _
    |w tk slot ls j c pc pc' x Hw Hj Hmove Hw' _ _ _ _ _ _ _ ->
    |x Hws _ _ Hx].
  - apply event_none; [done|]. intros w1 j1 t c pc Hp.
    destruct (decide (w1 = w)) as [->|Hne]; [|unfold lane_at; by rewrite Hother].
    split; intros Hl; [apply Hfill in Hl|apply Hdone in Hl]; by subst.
  - assert (Hlane : lane_at r w j (tk + j) c pc) by by exists tk, slot, ls.
    assert (Hiff : forall w1 j1 t1 c1 pc1, lane_at r' w1 j1 t1 c1 pc1 <->
      (w1 = w /\ j1 = j /\ t1 = (tk + j)%nat /\ c1 = c /\ pc1 = pc') \/
      (lane_at r w1 j1 t1 c1 pc1 /\ (w1 <> w \/ j1 <> j))).
    { intros. split; [by eapply lane_move_other|].
      intros [(-> & -> & -> & -> & ->)|[Hl Hne]]; [|by eapply lane_move_keeps].
      eexists _, _, _. rewrite Hw', upd_eq. split; [done|].
      rewrite list_lookup_insert_eq by by apply lookup_lt_Some in Hj. done. }
    assert (Hsame : forall w1 j1 t1 c1 pc1, pc <> pc1 -> lane_at r w1 j1 t1 c1 pc1 -> w1 <> w \/ j1 <> j).
    { intros w1 j1 t1 c1 pc1 Hpc Hl. destruct (decide (w1 = w)) as [->|]; [|by left].
      destruct (decide (j1 = j)) as [->|]; [|by right]. by destruct (lane_at_fun _ _ _ _ _ _ _ _ _ Hlane Hl) as (_ & _ & ?). }
    inversion Hmove as [E1 E2|E1 E2|E1 E2|E1 E2]; subst pc pc'.
    + apply event_none; [done|]. intros w1 j1 t1 c1 pc1 Hp. rewrite Hiff. split.
      * by intros [(_ & _ & _ & _ & ->)|[? _]].
      * intros Hl. right. split; [done|]. eapply Hsame; [|done]. by intros <-.
    + destruct (c_blocking c) eqn:Eb.
      * apply (event_publish r r' w j (tk + j) c); [done..|apply Hiff; by left|].
        intros w1 j1 t1 c1 pc1 Hp. rewrite Hiff. split; [naive_solver|]. intros [Hl|?]; [|by left].
        right. split; [done|]. eapply Hsame; [|done]. by intros <-.
      * apply event_none; [done|]. intros w1 j1 t1 c1 pc1 Hp. rewrite Hiff. split.
        -- by intros [(_ & _ & _ & _ & ->)|[? _]].
        -- intros Hl. right. split; [done|]. eapply Hsame; [|done]. by intros <-.
    + rewrite (kept_status r w j _ c LWait) by done. apply (event_seen r r' w j (tk + j) c); [done|].
      intros w1 j1 t1 c1 pc1 _. rewrite Hiff. tauto.
    + rewrite (kept_status r w j _ c LClear) by done. apply (event_reset r r' w j (tk + j) c); [done|].
      intros w1 j1 t1 c1 pc1 Hp. rewrite Hiff. split; [|by right]. by intros [(_ & _ & _ & _ & ->)|?].
  - destruct x; try discriminate; apply event_none; try done; intros; unfold lane_at; by rewrite Hws.
Qed.


(** A ticket is published by a step only for a lane that then waits, if its call
    is blocking. *)
Lemma effect_published r r' l t c :
  ring_inv r -> effect r r' l -> posted r' !! t = Some (c, true) -> c_blocking c = true ->
  posted r !! t = Some (c, true) \/ awaiting r' t c.
Proof using.
  intros Hv He Ht Hb. destruct He as
    [w _ _ _ _ _ _ _ Hps _ _
    |w tk slot ls j c0 pc pc' x Hw Hj Hmove Hw' _ _ Hpo Hpt _ _ _ _
    |x _ Hps _ _].
  - left. destruct Hps as [E|E]; rewrite E in Ht; [done|]. apply lookup_app_Some in Ht as [Ht|[_ Ht]]; [done|].
    rewrite list_lookup_fmap in Ht. by destruct (calls_of _ !! _).
  - destruct (decide (t = tk + j)%nat) as [->|Hne]; [|left; by rewrite <- Hpo].
    rewrite Hpt in Ht. simplify_eq. assert (Hlane : lane_at r w j (tk + j) c pc) by by exists tk, slot, ls.
    inversion Hmove as [E1 E2|E1 E2|E1 E2|E1 E2]; subst pc pc'; try done.
    + right. rewrite Hb in Hw'. exists w, j, LWait. split; [|done]. eexists _, _, _. rewrite Hw', upd_eq.
      split; [done|]. by rewrite list_lookup_insert_eq by by apply lookup_lt_Some in Hj.
    + left. exact (lane_ticket r w j _ c LWait Hv Hlane).
    + left. exact (lane_ticket r w j _ c LClear Hv Hlane).
  - left. by rewrite <- Hps.
Qed.


(** ** Enabled steps of a ring *)

(** The lock is held by a wavefront. *)
Definition held (r : ring) : Prop := lock (handles r 0) = true -> exists w, holds (waves r w) = true.

Lemma held_step a r r' l : held r -> step a r = Some (r', l) -> held r'.
Proof using.
  intros Hh He.
  assert (Hother : forall w y, holds (waves r w) = false ->
    lock (handles r 0) = true -> exists w', holds (upd (waves r) w y w') = true).
  { intros w y Hw Hl. destruct (Hh Hl) as [w' Hw']. exists w'. rewrite upd_ne; [done|]. intros ->. congruence. }
  unfold held. destruct a; cbn [exec] in He; unfold exec_wave, exec_host in He.
  1-6: destruct (waves r w) as [cs'|cs'|slot cs'|tk slot cs'|tk slot ls] eqn:Hw; simplify_eq;
    try case_if_in He; simplify_eq; simpl; rewrite ?upd_eq; simpl; try done.
  all: try (intros Hl; apply Hother; [by rewrite Hw|done]).
  all: try (intros _; exists w; by rewrite ?upd_eq, ?Hw).
  1-4: destruct (waves r w) as [cs'|cs'|slot cs'|tk slot cs'|tk slot ls] eqn:Hw; try done;
    destruct (ls !! i) as [[c pc]|]; try done; unfold exec_lane in He; destruct pc; simplify_eq; simpl;
    intros Hl; apply Hother; [by rewrite Hw|done].
  all: destruct (host r); simplify_eq; try case_if_in He; by simplify_eq.
Qed.

(** A step of the ring that is neither a new call nor a refresh that learns
    nothing, and that does not depend on a flag. *)
Definition useful_ring (r : ring) (a : action) : Prop :=
  match a with
  | ACall _ _ | APoll _ _ => False
  | ARefresh _ => read_index (handles r 0) <> host_read_index r
  | _ => True
  end.

Definition ring_moves (r : ring) : Prop := exists a y, useful_ring r a /\ step a r = Some y.

Lemma lane_moves r w j t c pc :
  lane_at r w j t c pc -> pc = LFill \/ pc = LPublish \/ pc = LClear -> ring_moves r.
Proof using.
  intros (tk & slot & ls & Hw & Hj & _) [-> | [-> | ->] ];
    [exists (AFill w j)|exists (APublish w j)|exists (AClear w j)]; eexists; (split; [done|]);
    cbn [exec]; by rewrite Hw, Hj.
Qed.

Lemma owner_moves r w t c : owned_by r w t c -> ring_moves r.
Proof using.
  intros (tk & slot & ls & j & pc & Ht & Hj & -> & Hpc). destruct (waves r w) as [| | |tk' slot' cs|tk' slot' ls'] eqn:Hw;
    simplify_eq/=.
  - exists (AUnlock w). eexists. split; [done|]. cbn [exec]. unfold exec_wave. by rewrite Hw.
  - eapply (lane_moves r w j); [by exists tk, slot, ls|]. destruct pc; auto; done.
Qed.

(** A ticket that is not handed over yet does not stay that way. *)
Lemma ticket_moves r t :
  ring_inv r -> callers_inv r -> (t < length (posted r))%nat -> (consumed r + taking r <= t)%nat -> ring_moves r.
Proof using Hsize Hdiv.
  intros Hv Hk Ht Hc. unfold taking in Hc. destruct (host r) eqn:Hh.
  - destruct (lookup_lt_is_Some_2 (posted r) (consumed r)) as [[c b] Hb]; [lia|]. destruct b.
    + destruct (head_element queue_size 0 Hsize Hdiv r Hv) as (e & He & _ & _ & Hready).
      unfold ready in Hready. rewrite Hb, Hh in Hready. destruct Hready as [e0 ->].
      exists HInsert. eexists. split; [done|]. cbn [exec]. unfold exec_host. rewrite Hh, He. reflexivity.
    + destruct (k_owner r Hk _ _ Hb) as [w Hw]. by eapply owner_moves.
  - exists HClear. eexists. split; [done|]. cbn [exec]. unfold exec_host. by rewrite Hh.
  - exists HAdvance. eexists. split; [done|]. cbn [exec]. unfold exec_host. by rewrite Hh.
Qed.

Lemma taking_moves r : taking r = 1%nat -> ring_moves r.
Proof using.
  unfold taking. destruct (host r) eqn:Hh; intros H; [done| |].
  - exists HClear. eexists. split; [done|]. cbn [exec]. unfold exec_host. by rewrite Hh.
  - exists HAdvance. eexists. split; [done|]. cbn [exec]. unfold exec_host. by rewrite Hh.
Qed.

(** The holder of the lock gets on. *)
Lemma holder_moves r w :
  0 < WF_SIZE <= queue_size -> ring_inv r -> callers_inv r -> holds (waves r w) = true -> ring_moves r.
Proof using Hsize Hdiv.
  intros Hwf Hv Hk Hh. destruct (waves r w) as [cs|cs|slot cs|tk slot cs|tk slot ls] eqn:Hw; try done.
  - destruct (enough_space queue_size (handles r 0) (Z.of_nat (length cs))) eqn:Es.
    { exists (ARead w). eexists. split; [done|]. cbn [exec]. unfold exec_wave. by rewrite Hw, Es. }
    destruct (Z.eq_dec (read_index (handles r 0)) (host_read_index r)) as [E|E].
    + pose proof (i_memory _ _ _ Hv) as Hm. pose proof (i_host _ _ _ Hm) as Hhost.
      destruct (i_read _ _ _ Hm) as (C & HC & Hle & Hle').
      assert (C = consumed r) as ->.
      { rewrite HC, Hhost in E. apply wrap_inj_window in E; lia. }
      assert (Hwidth : Z.of_nat (length cs) <= WF_SIZE).
      { pose proof (k_width r Hk ltac:(lia) w) as H. by rewrite Hw in H. }
      assert (Hfull : ~ (length (posted r) + length cs <= consumed r + n_slots)%nat).
      { intros H. apply (space_bound queue_size 0 Hsize Hdiv r (length cs) (consumed r)) in H;
          [congruence|apply Hm|done|lia]. }
      destruct (Nat.eq_dec (taking r) 1%nat) as [Ht|Ht]; [by apply taking_moves|].
      apply (ticket_moves r (consumed r)); [done..|lia|]. unfold taking in *. destruct (host r); lia.
    + exists (ARefresh w). eexists. split; [done|]. cbn [exec]. unfold exec_wave. by rewrite Hw, Es.
  - exists (AAdd w). eexists. split; [done|]. cbn [exec]. unfold exec_wave. by rewrite Hw.
  - exists (AUnlock w). eexists. split; [done|]. cbn [exec]. unfold exec_wave. by rewrite Hw.
Qed.

(** A wavefront inside [build_queue_element] gets on, unless it waits for flags. *)
Lemma wave_moves r w :
  0 < WF_SIZE <= queue_size -> ring_inv r -> callers_inv r -> held r -> idle (waves r w) = false ->
  ring_moves r \/ exists j t c, lane_at r w j t c LWait.
Proof using Hsize Hdiv.
  intros Hwf Hv Hk Hheld Hi. destruct (holds (waves r w)) eqn:Eh; [left; by eapply holder_moves|].
  destruct (waves r w) as [cs|cs|slot cs|tk slot cs|tk slot ls] eqn:Hw; try done.
  - left. destruct (lock (handles r 0)) eqn:El.
    + destruct (Hheld El) as [w' Hw']. by eapply holder_moves.
    + exists (ALock w). eexists. split; [done|]. cbn [exec]. unfold exec_wave. by rewrite Hw, El.
  - simpl in Hi. assert (Hex : exists j c pc, ls !! j = Some (c, pc) /\ pc <> LDone).
    { clear -Hi. induction ls as [|[c pc] ls IH]; [done|]. simpl in Hi. apply andb_false_iff in Hi as [Hi|Hi].
      - exists 0%nat, c, pc. split; [done|]. by intros ->.
      - destruct (IH Hi) as (j & c' & pc' & H). by exists (S j), c', pc'. }
    destruct Hex as (j & c & pc & Hj & Hpc). assert (Hl : lane_at r w j (tk + j) c pc) by by exists tk, slot, ls.
    destruct pc; try done; try (left; eapply lane_moves; by eauto). right. eauto.
Qed.


Lemma seen_is_poll a r r' f : step a r = Some (r', Seen f) -> exists w j, a = APoll w j.
Proof using.
  intros He. destruct a; eauto; exfalso; cbn [exec] in He; unfold exec_wave, exec_host in He.
  1-6: destruct (waves r w); simplify_eq; try case_if_in He; simplify_eq.
  1-3: destruct (waves r w) as [| | | |tk slot ls]; try done; destruct (ls !! i) as [[c pc]|]; try done;
    unfold exec_lane in He; by destruct pc.
  all: destruct (host r); simplify_eq; case_if_in He; by simplify_eq.
Qed.

End Ring.

(** ** The system *)

Record system := mkSystem {
  rings : Z -> ring;
  tr : transport;
  done : gset nat;
  flag : Z -> bool
}.

Inductive saction :=
| SRing (i : Z) (a : action)
| SSubmit
| SComplete (h : nat)
| SProgress (indices : list nat).

(** The stores of [Queue::notify] for the new entries of the history. *)
Definition set_flags (l : list (Z * nat * Z)) (f : Z -> bool) : Z -> bool :=
  foldl (fun f' '(_, _, st) => upd f' st true) f l.

Definition news (s s' : transport) : list (Z * nat * Z) := drop (length (notified s)) (notified s').

Definition with_transport (x : system) (s : transport) : system :=
  mkSystem (rings x) s (done x) (set_flags (news (tr x) s) (flag x)).

Section System.
Context (queue_size status_ WF_SIZE max_wg_size : Z).
Context (ro_net_comm_world win_start win_end : Z).
Context (comm_rank comm_size : Z -> Z) (world_rank : Z -> Z -> Z) (type_size : MPI_Datatype -> Z).

(** [BlockHandleProxy] gives context [i] the flags from [status_ + i * offset] on,
    with the size of a work-group as the offset. *)
Definition flags_of (i : Z) : Z := status_ + i * max_wg_size.

Definition ring_exec (i : Z) : action -> ring -> option (ring * label) :=
  exec queue_size (fun _ => 0) (flags_of i) WF_SIZE max_wg_size.

Local Abbreviation submit :=
  (submitRequestsToMPI ro_net_comm_world win_start win_end comm_rank comm_size world_rank type_size).

Definition sexec (a : saction) (x : system) : option system :=
  match a with
  | SRing i a' =>
      match ring_exec i a' (rings x i) with
      | Some (r', l) =>
          let rs := upd (rings x) i r' in
          match l with
          | Tau => Some (mkSystem rs (tr x) (done x) (flag x))
          | Insert _ e => Some (mkSystem rs (insertRequest e i (tr x)) (done x) (flag x))
          | Seen f => if flag x f then Some (mkSystem rs (tr x) (done x) (flag x)) else None
          | Reset f => Some (mkSystem rs (tr x) (done x) (upd (flag x) f false))
          end
      | None => None
      end
  | SSubmit => s ← submit (tr x); Some (with_transport x s)
  | SComplete h =>
      if bool_decide (h < next_request (tr x))%nat
      then Some (mkSystem (rings x) (tr x) ({[h]} ∪ done x) (flag x)) else None
  | SProgress ix =>
      if testsome_ok (done x) (tr x) ix then Some (with_transport x (progress ix (tr x))) else None
  end.

Definition system_init : system :=
  mkSystem (fun _ => ring_init queue_size) initTransport ∅ (fun _ => false).

Definition all_calm (x : system) : Prop := forall i, calm queue_size (rings x i).

(** A step into a calm state. *)
Definition sstep (x y : system) : Prop := exists a, sexec a x = Some y /\ all_calm y.

Context (Hsize : 0 < queue_size < 2 ^ 64) (Hdiv : (queue_size | 2 ^ 64)).

Local Abbreviation n_slots := (Z.to_nat queue_size).

Record sinv (x : system) : Prop := {
  s_ring : forall i, inv queue_size 0 (rings x i);
  s_callers : forall i, callers_inv (flags_of i) WF_SIZE max_wg_size (rings x i);
  s_kept : forall i, kept queue_size (rings x i);
  s_tr : settled (tr x) (done x);
  s_count : forall i, inserted (tr x) i = (consumed (rings x i) + taking (rings x i))%nat;
  s_elems : forall i t e, (i, t, e) ∈ submitted (tr x) ++ q (tr x) ->
    exists c, posted (rings x i) !! t = Some (c, true) /\ carries c e;
  s_flag : forall f, flag x f = true -> exists i t c, awaiting (rings x i) t c /\ c_status c = f /\
    (i, t, f) ∈ notified (tr x);
  s_set : forall i w j t c, lane_at (rings x i) w j t c LWait -> (i, t, c_status c) ∈ notified (tr x) ->
    flag x (c_status c) = true;
  s_clear : forall i w j t c, lane_at (rings x i) w j t c LClear -> (i, t, c_status c) ∈ notified (tr x);
  s_returned : forall i t c, posted (rings x i) !! t = Some (c, true) -> c_blocking c = true ->
    awaiting (rings x i) t c \/ (i, t, c_status c) ∈ notified (tr x)
}.

Lemma set_flags_spec l f a :
  set_flags l f a = true <-> f a = true \/ exists i t, (i, t, a) ∈ l.
Proof using.
  revert f. induction l as [|[[i t] st] l IH]; intros f; simpl.
  - split; [by left|]. intros [?|(i & t & H)]; [done|]. by apply not_elem_of_nil in H.
  - unfold set_flags in *. simpl. rewrite IH. unfold upd. destruct (Z.eqb_spec a st) as [->|Hne].
    + split; [|by left]. intros _. right. exists i, t. left.
    + split; (intros [?|(i' & t' & H)]; [by left|right]).
      * exists i', t'. by right.
      * apply elem_of_cons in H as [H|H]; [congruence|eauto].
Qed.

(** The waiting lanes behind one flag are one lane of one ring. *)
Lemma flag_lane x i w j t c pc i' w' j' t' c' pc' :
  sinv x -> lane_at (rings x i) w j t c pc -> in_wait pc = true ->
  lane_at (rings x i') w' j' t' c' pc' -> in_wait pc' = true -> c_status c = c_status c' ->
  i = i' /\ w = w' /\ j = j' /\ t = t' /\ c = c'.
Proof using.
  intros Hx Hl Hp Hl' Hp' He.
  destruct (s_kept x Hx i t c) as [Hb _]; [by exists w, j, pc|].
  destruct (s_kept x Hx i' t' c') as [Hb' _]; [by exists w', j', pc'|].
  assert (i = i') as <-.
  { assert (Hth : forall k w1 j1 t1 c1 pc1, lane_at (rings x k) w1 j1 t1 c1 pc1 -> c_blocking c1 = true ->
      thread_flag (flags_of k) WF_SIZE max_wg_size w1 (c_status c1)).
    { intros k w1 j1 t1 c1 pc1 (tk & slot & ls & Hw & Hj & _) Hb1.
      apply (k_calls _ _ _ _ (s_callers x Hx k) w1 c1); [|done]. rewrite Hw. simpl.
      apply list_elem_of_fmap. exists (c1, pc1). split; [done|]. by apply list_elem_of_lookup_2 in Hj. }
    destruct (Hth _ _ _ _ _ _ Hl Hb) as [_ H1]. destruct (Hth _ _ _ _ _ _ Hl' Hb') as [_ H2].
    unfold flags_of in H1, H2. rewrite He in H1. nia. }
  destruct (flag_owner _ _ _ (rings x i) w j t c pc w' j' t' c' pc' (s_callers x Hx i) Hl Hl' Hb Hb' He)
    as (-> & -> & -> & -> & _). done.
Qed.


(** A call whose element was submitted is the one the element names. *)
Lemma submitted_call x i t e :
  sinv x -> (i, t, e) ∈ submitted (tr x) ++ q (tr x) ->
  exists c, posted (rings x i) !! t = Some (c, true) /\ type e = c_type c /\
    c_blocking c = negb (nonblocking (type e)) /\ (c_blocking c = true -> status e = c_status c).
Proof using.
  intros Hx He. destruct (s_elems x Hx i t e He) as (c & Hp & e0 & ->). exists c. split; [done|].
  pose proof (k_posted _ _ _ _ (s_callers x Hx i) t c true Hp) as Hok. unfold call_ok in Hok. apply eqb_prop in Hok.
  assert (Ht : type (set_valid true (build_queue_element c e0)) = c_type c)
    by (unfold build_queue_element; by destruct (c_type c)).
  rewrite Ht. split; [done|]. split; [done|]. intros Hb. unfold build_queue_element. rewrite Hb.
  by destruct (c_type c).
Qed.

Lemma transport_sinv x s :
  sinv x -> settled s (done x) -> (exists l, notified s = notified (tr x) ++ l) ->
  submitted s ++ q s = submitted (tr x) ++ q (tr x) -> inserted s = inserted (tr x) ->
  sinv (with_transport x s).
Proof using.
  intros Hx Hs [l Hl] Hsub Hins.
  assert (Hnews : news (tr x) s = l) by (unfold news; by rewrite Hl, drop_app_length).
  assert (Hnew : forall i t st, (i, t, st) ∈ l -> exists c, awaiting (rings x i) t c /\ c_status c = st).
  { intros i t st Hin. assert (Hn : (i, t, st) ∈ notified s) by (rewrite Hl, elem_of_app; by right).
    destruct (settled_facts s (done x) i Hs) as (_ & Hnd & Hfacts & _).
    destruct (Hfacts t st Hn) as (e & He & Hb & Hst & _).
    destruct (submitted_call x i t e Hx) as (c & Hp & Hty & Hcb & Hcs); [rewrite <- Hsub, elem_of_app; by left|].
    rewrite Hb in Hcb. exists c. split; [|by rewrite <- Hcs].
    destruct (s_returned x Hx i t c Hp Hcb) as [?|Hold]; [done|]. exfalso.
    rewrite Hl, in_ctx_app, fmap_app in Hnd. apply NoDup_app in Hnd as (_ & Hdis & _).
    apply (Hdis t); apply list_elem_of_fmap; eexists (t, _); (split; [done|]); by apply elem_of_in_ctx. }
  destruct Hx. unfold with_transport. rewrite Hnews. constructor; simpl; try done.
  - intros i. by rewrite Hins.
  - intros i t e. rewrite Hsub. apply s_elems0.
  - intros f Hf. apply set_flags_spec in Hf as [Hf|(i & t & Hin)].
    + destruct (s_flag0 f Hf) as (i & t & c & Ha & Hc & Hn). exists i, t, c.
      rewrite Hl, elem_of_app. auto.
    + destruct (Hnew i t f Hin) as (c & Ha & Hc). exists i, t, c. rewrite Hl, elem_of_app. auto.
  - intros i w j t c Hlane Hn. apply set_flags_spec. rewrite Hl, elem_of_app in Hn.
    destruct Hn as [Hn|Hn]; [left; by eapply s_set0|right; eauto].
  - intros i w j t c Hlane. rewrite Hl, elem_of_app. left. by eapply s_clear0.
  - intros i t c Hp Hb. destruct (s_returned0 i t c Hp Hb) as [?|?]; [by left|right].
    rewrite Hl, elem_of_app. by left.
Qed.

Lemma complete_sinv x h :
  sinv x -> (h < next_request (tr x))%nat -> sinv (mkSystem (rings x) (tr x) ({[h]} ∪ done x) (flag x)).
Proof using. intros [] Hh. constructor; try done. by apply complete_settled. Qed.


(** ** A step of a ring *)

Lemma not_submitted_yet x i t c : sinv x -> posted (rings x i) !! t = Some (c, false) -> forall st, (i, t, st) ∉ notified (tr x).
Proof using.
  intros Hx Hp st Hn. destruct (t_sound _ _ _ _ (s_tr x Hx) _ _ _ Hn) as (e & He & _).
  destruct (s_elems x Hx i t e) as (c' & Hc & _); [rewrite elem_of_app; by left|]. congruence.
Qed.

(** Lane [j] of wavefront [w] of ring [k]. *)
Definition slane (rs : Z -> ring) (k w : Z) (j t : nat) (c : call) (pc : lane_pc) : Prop :=
  lane_at (rs k) w j t c pc.

Lemma lane_cases (k i w1 w : Z) (j1 j : nat) :
  (k = i /\ w1 = w /\ j1 = j) \/ (k <> i \/ w1 <> w \/ j1 <> j).
Proof using.
  destruct (decide (k = i)), (decide (w1 = w)), (decide (j1 = j)); auto.
Qed.

(** What an event of ring [i] means for the lanes of the system. *)
Definition flags_ok (x : system) (rs : Z -> ring) (f' : Z -> bool) : Prop :=
  (forall f, f' f = true -> exists k w j t c pc, slane rs k w j t c pc /\ in_wait pc = true /\ c_status c = f /\
     (k, t, f) ∈ notified (tr x)) /\
  (forall k w j t c, slane rs k w j t c LWait -> (k, t, c_status c) ∈ notified (tr x) -> f' (c_status c) = true) /\
  (forall k w j t c, slane rs k w j t c LClear -> (k, t, c_status c) ∈ notified (tr x)).

Lemma slane_upd (rs : Z -> ring) i r' k w j t c pc :
  slane (upd rs i r') k w j t c pc <-> if k =? i then lane_at r' w j t c pc else slane rs k w j t c pc.
Proof using. unfold slane, upd. by destruct (k =? i). Qed.

Lemma flags_ok_same x rs' :
  sinv x ->
  (forall k w j t c pc, in_wait pc = true -> slane rs' k w j t c pc <-> slane (rings x) k w j t c pc) ->
  flags_ok x rs' (flag x).
Proof using.
  intros Hx Hiff. split; [|split].
  - intros f Hf. destruct (s_flag x Hx f Hf) as (k & t & c & (w & j & pc & Hl & Hp) & Hc & Hn).
    exists k, w, j, t, c, pc. by rewrite Hiff.
  - intros k w j t c Hl. rewrite Hiff in Hl by done. by eapply s_set.
  - intros k w j t c Hl. rewrite Hiff in Hl by done. by eapply s_clear.
Qed.

Lemma flags_ok_publish x rs' i w j t c :
  sinv x -> (forall st, (i, t, st) ∉ notified (tr x)) ->
  (forall k w1 j1 t1 c1 pc1, in_wait pc1 = true -> slane rs' k w1 j1 t1 c1 pc1 <->
     slane (rings x) k w1 j1 t1 c1 pc1 \/ (k = i /\ w1 = w /\ j1 = j /\ t1 = t /\ c1 = c /\ pc1 = LWait)) ->
  flags_ok x rs' (flag x).
Proof using.
  intros Hx Hno Hiff. split; [|split].
  - intros f Hf. destruct (s_flag x Hx f Hf) as (k & t1 & c1 & (w1 & j1 & pc1 & Hl & Hp) & Hc & Hn).
    exists k, w1, j1, t1, c1, pc1. rewrite Hiff by done. auto.
  - intros k w1 j1 t1 c1 Hl Hn. apply Hiff in Hl as [Hl|(-> & -> & -> & -> & -> & _)]; [|by destruct (Hno _ Hn)|done].
    by eapply s_set.
  - intros k w1 j1 t1 c1 Hl. apply Hiff in Hl as [Hl|(_ & _ & _ & _ & _ & ?)]; [|done..]. by eapply s_clear.
Qed.

Lemma flags_ok_seen x rs' i w j t c :
  sinv x -> slane (rings x) i w j t c LWait -> flag x (c_status c) = true ->
  (forall k w1 j1 t1 c1 pc1, in_wait pc1 = true -> slane rs' k w1 j1 t1 c1 pc1 <->
     (slane (rings x) k w1 j1 t1 c1 pc1 /\ (k <> i \/ w1 <> w \/ j1 <> j)) \/
     (k = i /\ w1 = w /\ j1 = j /\ t1 = t /\ c1 = c /\ pc1 = LClear)) ->
  flags_ok x rs' (flag x).
Proof using.
  intros Hx Hlane Hf0 Hiff. split; [|split].
  - intros f Hf. destruct (s_flag x Hx f Hf) as (k & t1 & c1 & (w1 & j1 & pc1 & Hl & Hp) & Hc & Hn).
    destruct (lane_cases k i w1 w j1 j) as [(-> & -> & ->)|Hne].
    + destruct (lane_at_fun _ _ _ _ _ _ _ _ _ Hlane Hl) as (<- & <- & _).
      exists i, w, j, t, c, LClear. rewrite Hiff by done. auto 10.
    + exists k, w1, j1, t1, c1, pc1. rewrite Hiff by done. auto 10.
  - intros k w1 j1 t1 c1 Hl Hn. apply Hiff in Hl as [[Hl _]|(_ & _ & _ & _ & _ & ?)]; [|done..]. by eapply s_set.
  - intros k w1 j1 t1 c1 Hl. apply Hiff in Hl as [[Hl _]|(-> & -> & -> & -> & -> & _)]; [by eapply s_clear| |done].
    destruct (s_flag x Hx _ Hf0) as (k & t1 & c1 & (w1 & j1 & pc1 & Hl & Hp) & Hc & Hn).
    by destruct (flag_lane x i w j t c LWait k w1 j1 t1 c1 pc1 Hx Hlane eq_refl Hl Hp (eq_sym Hc))
      as (-> & _ & _ & -> & ->).
Qed.

Lemma flags_ok_reset x rs' i w j t c :
  sinv x -> slane (rings x) i w j t c LClear ->
  (forall k w1 j1 t1 c1 pc1, in_wait pc1 = true -> slane rs' k w1 j1 t1 c1 pc1 <->
     slane (rings x) k w1 j1 t1 c1 pc1 /\ (k <> i \/ w1 <> w \/ j1 <> j)) ->
  flags_ok x rs' (upd (flag x) (c_status c) false).
Proof using.
  intros Hx Hlane Hiff. split; [|split].
  - intros f Hf. unfold upd in Hf. destruct (Z.eqb_spec f (c_status c)) as [|Hne]; [done|].
    destruct (s_flag x Hx f Hf) as (k & t1 & c1 & (w1 & j1 & pc1 & Hl & Hp) & Hc & Hn).
    exists k, w1, j1, t1, c1, pc1. rewrite Hiff by done. split; [|done]. split; [done|].
    destruct (lane_cases k i w1 w j1 j) as [(-> & -> & ->)|Hn1]; [|done].
    destruct (lane_at_fun _ _ _ _ _ _ _ _ _ Hlane Hl) as (_ & <- & _). congruence.
  - intros k w1 j1 t1 c1 Hl Hn. apply Hiff in Hl as [Hl Hne]; [|done].
    unfold upd. destruct (Z.eqb_spec (c_status c1) (c_status c)) as [He|]; [|by eapply s_set]. exfalso.
    destruct (flag_lane x k w1 j1 t1 c1 LWait i w j t c LClear Hx Hl eq_refl Hlane eq_refl He) as (-> & -> & -> & _).
    by destruct Hne as [?|[?|?]].
  - intros k w1 j1 t1 c1 Hl. apply Hiff in Hl as [Hl _]; [|done]. by eapply s_clear.
Qed.


Lemma event_flags x i r' l :
  sinv x -> inv queue_size 0 (rings x i) -> lane_event (rings x i) r' l ->
  (forall f, l = Seen f -> flag x f = true) ->
  flags_ok x (upd (rings x) i r') (match l with Reset f => upd (flag x) f false | _ => flag x end).
Proof using.
  intros Hx Hv Hev Hseen.
  destruct Hev as [l Hl Hiff|w j t c Hlane Hb Hlane' Hiff|w j t c Hlane Hiff|w j t c Hlane Hiff].
  - replace (match l with Reset f => _ | _ => _ end) with (flag x) by by destruct l.
    apply flags_ok_same; [done|]. intros k w j t c pc Hp. rewrite slane_upd.
    destruct (Z.eqb_spec k i) as [->|]; [by apply Hiff|done].
  - apply (flags_ok_publish x _ i w j t c); [done| |].
    + eapply not_submitted_yet; [done|]. exact (lane_ticket _ _ _ _ _ _ _ Hv Hlane).
    + intros k w1 j1 t1 c1 pc1 Hp. rewrite slane_upd. destruct (Z.eqb_spec k i) as [->|Hne].
      * rewrite Hiff by done. unfold slane. split.
        -- intros [H|H]; [by left|right; by split].
        -- intros [H|[_ H]]; [by left|by right].
      * split; [by left|]. intros [?|[? _]]; done.
  - apply (flags_ok_seen x _ i w j t c); [done..|by apply Hseen|].
    intros k w1 j1 t1 c1 pc1 Hp. rewrite slane_upd. destruct (Z.eqb_spec k i) as [->|Hne].
    + rewrite Hiff by done. unfold slane. split.
      * intros [[H Hn]|H]; [left; auto|right; by split].
      * intros [[H [Hn|Hn]]|[_ H]]; [done|left; auto|by right].
    + split; [left; auto|]. intros [[? _]|[? _]]; done.
  - apply (flags_ok_reset x _ i w j t c); [done..|].
    intros k w1 j1 t1 c1 pc1 Hp. rewrite slane_upd. destruct (Z.eqb_spec k i) as [->|Hne].
    + rewrite Hiff by done. unfold slane. split; intros [? Hn]; (split; [done|]); [auto|]. by destruct Hn.
    + split; [auto|]. by intros [? _].
Qed.

(** No waiting lane disappears before its flag was seen. *)
Lemma event_awaiting x i r' l t c :
  sinv x -> lane_event (rings x i) r' l -> awaiting (rings x i) t c ->
  awaiting r' t c \/ (i, t, c_status c) ∈ notified (tr x).
Proof using.
  intros Hx Hev (w1 & j1 & pc1 & Hl & Hp).
  destruct Hev as [l _ Hiff|w j t0 c0 _ _ _ Hiff|w j t0 c0 Hlane Hiff|w j t0 c0 Hlane Hiff].
  - left. exists w1, j1, pc1. by rewrite Hiff.
  - left. exists w1, j1, pc1. rewrite Hiff by done. auto.
  - left. destruct (lane_cases 0 0 w1 w j1 j) as [(_ & -> & ->)|Hne].
    + destruct (lane_at_fun _ _ _ _ _ _ _ _ _ Hlane Hl) as (<- & <- & _).
      exists w, j, LClear. rewrite Hiff by done. auto 10.
    + exists w1, j1, pc1. rewrite Hiff by done. split; [|done]. left. split; [done|]. by destruct Hne.
  - destruct (lane_cases 0 0 w1 w j1 j) as [(_ & -> & ->)|Hne].
    + right. destruct (lane_at_fun _ _ _ _ _ _ _ _ _ Hlane Hl) as (<- & <- & _). by eapply s_clear.
    + left. exists w1, j1, pc1. rewrite Hiff by done. split; [|done]. split; [done|]. by destruct Hne.
Qed.


Lemma ring_sinv x i a r' l :
  sinv x -> ring_exec i a (rings x i) = Some (r', l) -> calm queue_size r' ->
  (forall f, l = Seen f -> flag x f = true) ->
  sinv (mkSystem (upd (rings x) i r')
          (match l with Insert _ e => insertRequest e i (tr x) | _ => tr x end) (done x)
          (match l with Reset f => upd (flag x) f false | _ => flag x end)).
Proof using Hsize Hdiv.
  intros Hx He Hcalm Hseen.
  destruct (ro_exec_inv _ (fun _ => 0) _ _ _ 0 Hsize Hdiv ltac:(done) a (rings x i) r' l (s_ring x Hx i) He) as [Hv' Hlab].
  pose proof (exec_effect _ _ _ _ Hsize Hdiv a (rings x i) r' l (s_ring x Hx i) He) as Heff.
  pose proof (effect_event _ _ _ _ Hsize _ _ _ (s_kept x Hx i) Heff) as Hev.
  destruct (event_flags x i r' l Hx (s_ring x Hx i) Hev Hseen) as (Hf1 & Hf2 & Hf3).
  set (s := match l with Insert _ e => insertRequest e i (tr x) | _ => tr x end).
  assert (Hs : notified s = notified (tr x)) by by destruct l.
  assert (Hpost : forall t c, posted (rings x i) !! t = Some (c, true) -> posted r' !! t = Some (c, true)).
  { intros t c. by eapply exec_posted; [apply (s_ring x Hx)|]. }
  constructor; cbn [rings tr done flag]; fold s; rewrite ?Hs.
  - intros k. unfold upd. destruct (Z.eqb_spec k i); [done|apply Hx].
  - intros k. unfold upd. destruct (Z.eqb_spec k i) as [->|]; [|apply Hx].
    eapply callers_step; [apply Hx|done].
  - intros k. unfold upd. destruct (Z.eqb_spec k i) as [->|]; [|apply Hx].
    eapply kept_step; [done|apply Hx..|done|done].
  - subst s. destruct l; try apply Hx. apply insert_settled, Hx.
  - intros k. pose proof (s_count x Hx k) as Hc. subst s. unfold upd. destruct (Z.eqb_spec k i) as [->|Hne].
    + destruct l as [|t e| |]; simpl in Hlab; try lia. destruct Hlab as (-> & H0 & H1 & Hcon & _).
      simpl. rewrite upd_eq. lia.
    + destruct l; simpl; try done. by rewrite upd_ne.
  - intros k t e Hin.
    assert (Hcases : (k, t, e) ∈ submitted (tr x) ++ q (tr x) \/
      (k = i /\ exists c, posted (rings x i) !! t = Some (c, true) /\ carries c e)).
    { subst s. destruct l as [|t0 e0| |]; try (by left). simpl in *. rewrite app_assoc, elem_of_app in Hin.
      destruct Hin as [Hin|Hin]; [by left|right]. apply list_elem_of_singleton in Hin as [= -> -> ->].
      split; [done|]. destruct Hlab as (-> & H0 & _ & _ & c & Hc). rewrite (s_count x Hx), H0, Nat.add_0_r. eauto. }
    assert (Hold : exists c, posted (rings x k) !! t = Some (c, true) /\ carries c e).
    { destruct Hcases as [Hold|[-> ?]]; [by apply (s_elems x Hx)|done]. }
    destruct Hold as (c & Hc & Hca). exists c. split; [|done].
    unfold upd. destruct (Z.eqb_spec k i) as [->|]; auto.
  - intros f Hf. destruct (Hf1 f Hf) as (k & w & j & t & c & pc & Hl & Hp & Hc). exists k, t, c.
    split; [by exists w, j, pc|done].
  - exact Hf2.
  - exact Hf3.
  - intros k t c Hp Hb. unfold upd in *. destruct (Z.eqb_spec k i) as [->|]; [|by apply Hx].
    destruct (effect_published _ _ _ _ _ _ _ t c (s_ring x Hx i) Heff Hp Hb) as [Hp0|?]; [|by left].
    destruct (s_returned x Hx i t c Hp0 Hb) as [Haw|?]; [|by right]. by eapply event_awaiting.
Qed.

Lemma sexec_sinv x a y : sinv x -> sexec a x = Some y -> all_calm y -> sinv y.
Proof using Hsize Hdiv.
  intros Hx He Hcalm. destruct a as [i a| |h|ix]; simpl in He.
  - destruct (ring_exec i a (rings x i)) as [[r' l]|] eqn:E; [|done].
    assert (Hc : calm queue_size r').
    { specialize (Hcalm i). destruct l; try case_if_in He; simplify_eq; simpl in Hcalm; by rewrite upd_eq in Hcalm. }
    pose proof (ring_sinv x i a r' l Hx E Hc) as Hs.
    destruct l as [|t e|f|f]; [|..|]; try case_if_in He; simplify_eq; apply Hs; by intros f' [= <-].
  - destruct (submitRequestsToMPI _ _ _ _ _ _ _ (tr x)) as [s|] eqn:E; simpl in He; simplify_eq.
    destruct (grows_submit _ _ _ _ _ _ _ _ _ E) as (Hn & Hsub & Hins).
    apply transport_sinv; try done. eapply submit_settled; [apply Hx|done].
  - case_bool_decide; simplify_eq. by apply complete_sinv.
  - case_if_in He; simplify_eq. destruct (grows_progress ix (tr x)) as (Hn & Hsub & Hq & Hins).
    apply transport_sinv; try done; [|by rewrite Hsub, Hq]. apply progress_inv; [apply Hx|done].
Qed.


Lemma init_sinv : sinv system_init.
Proof using Hsize.
  assert (Hno : forall w j t c pc, ~ lane_at (ring_init queue_size) w j t c pc).
  { intros w j t c pc (tk & slot & ls & [= <- <- <-] & Hj & _). done. }
  constructor; simpl; try done.
  - intros i. by apply ring_init_inv.
  - intros i. apply init_callers.
  - intros i t c (w & j & pc & Hl & _). by destruct (Hno w j t c pc).
  - apply init_settled.
  - intros i t e He. by apply not_elem_of_nil in He.
  - intros i w j t c Hl. by destruct (Hno w j t c LWait).
  - intros i w j t c Hl. by destruct (Hno w j t c LClear).
Qed.

Lemma sstep_sinv x : rtc sstep system_init x -> sinv x.
Proof using Hsize Hdiv.
  intros H. apply (rtc_invariant sstep sinv) in H; [done| |apply init_sinv].
  intros x1 x2 Hx [a [Ha Hc]]. by eapply sexec_sinv.
Qed.

(** C16: A blocking call returns only when it is done.  In every calm run of the
    rings of all contexts, the host worker, the progress thread and MPI: once the
    thread of a published blocking call waits no more, the element of its call
    has been submitted unchanged, and MPI has completed every request made for it
    and, for quiet, fence, barrier, broadcast, alltoall and fcollect, every
    request made for the earlier calls of the context.  A status flag is set only
    while a thread waits for it, so no later call finds a stale flag. *)
Theorem ro_blocking_call_complete x :
  rtc sstep system_init x ->
  (forall i t c, posted (rings x i) !! t = Some (c, true) -> c_blocking c = true -> ~ awaiting (rings x i) t c ->
     exists e, (i, t, e) ∈ submitted (tr x) /\ carries c e /\
       forall t' h, (i, t', h) ∈ issued (tr x) -> depends (c_type c) t t' -> h ∈ done x) /\
  (forall f, flag x f = true -> exists i t c, awaiting (rings x i) t c /\ c_status c = f).
Proof using Hsize Hdiv.
  intros H. apply sstep_sinv in H as Hx. split.
  - intros i t c Hp Hb Hno. destruct (s_returned x Hx i t c Hp Hb) as [?|Hn]; [done|].
    destruct (t_sound _ _ _ _ (s_tr x Hx) _ _ _ Hn) as (e & He & Hd). exists e. split; [done|].
    assert (Hin : (i, t, e) ∈ submitted (tr x) ++ q (tr x)) by (rewrite elem_of_app; by left).
    destruct (submitted_call x i t e Hx Hin) as (c' & Hp' & Hty & _). assert (c' = c) as -> by congruence.
    destruct (s_elems x Hx i t e Hin) as (c' & Hp'' & Hca). assert (c' = c) as -> by congruence.
    split; [done|]. by rewrite <- Hty.
  - intros f Hf. destruct (s_flag x Hx f Hf) as (i & t & c & Ha & Hc & _). eauto.
Qed.


Lemma held_reachable x : rtc sstep system_init x -> forall i, held (rings x i).
Proof using.
  intros H. refine (rtc_invariant sstep (fun x => forall i, held (rings x i)) _ _ _ H _); [|by intros i].
  clear H x. intros x y Hx [a [Ha _]] k. destruct a as [i a| |h|ix]; simpl in Ha.
  - destruct (ring_exec i a (rings x i)) as [[r' l]|] eqn:E; [|done].
    assert (Hr : rings y = upd (rings x) i r') by (destruct l; try case_if_in Ha; by simplify_eq).
    rewrite Hr. unfold upd. destruct (Z.eqb_spec k i) as [->|]; [|apply Hx]. by eapply held_step.
  - destruct (submitRequestsToMPI _ _ _ _ _ _ _ (tr x)); simpl in Ha; simplify_eq. apply Hx.
  - case_bool_decide; simplify_eq. apply Hx.
  - case_if_in Ha; simplify_eq. apply Hx.
Qed.

(** Steps that bring the system forward: not a new call, not a refresh of the
    read index that learns nothing, not a round of the progress thread that does
    nothing, and not a completion by MPI. *)
Definition useful (x : system) (a : saction) : Prop :=
  match a with
  | SRing i (APoll _ _) => True
  | SRing i a' => useful_ring (rings x i) a'
  | SSubmit => q (tr x) <> []
  | SComplete _ => False
  | SProgress ix => ix <> []
  end.

Lemma ring_moves_system x i :
  ring_moves queue_size (flags_of i) WF_SIZE max_wg_size (rings x i) ->
  exists a y, useful x a /\ sexec a x = Some y.
Proof using.
  intros (a & [r' l] & Hu & He). exists (SRing i a).
  destruct l as [|t e|f|f].
  3:{ apply seen_is_poll in He as (w & j & ->). done. }
  all: eexists; (split; [by destruct a|]); simpl; unfold ring_exec; by rewrite He.
Qed.

(** A lane whose flag is not set waits for someone who can move. *)
Lemma waiting_moves x i w j t c :
  sinv x -> lane_at (rings x i) w j t c LWait ->
  (exists a y, useful x a /\ sexec a x = Some y) \/ submit (tr x) = None \/
  (exists h, (h < next_request (tr x))%nat /\ h ∉ done x).
Proof using Hsize Hdiv.
  intros Hx Hl. pose proof (lane_ticket _ _ _ _ _ _ _ (s_ring x Hx i) Hl) as Hp. simpl in Hp.
  destruct (s_kept x Hx i t c) as [Hb _]; [by exists w, j, LWait|].
  destruct (flag x (c_status c)) eqn:Ef.
  { left. exists (SRing i (APoll w j)). destruct Hl as (tk & slot & ls & Hw & Hj & ->).
    assert (Hlane : lane_at (rings x i) w j (tk + j) c LWait) by by exists tk, slot, ls.
    eexists. split; [done|]. simpl. unfold ring_exec. cbn [exec]. rewrite Hw, Hj. cbn [exec_lane].
    destruct (i_lanes _ _ _ _ (i_tickets _ _ _ (s_ring x Hx i)) w tk slot ls j c LWait) as (-> & _); [by rewrite Hw|done|].
    rewrite slot_ticket by done. rewrite (kept_status _ _ _ _ _ _ _ (s_kept x Hx i) Hlane eq_refl), Ef. reflexivity. }
  assert (Hn : (i, t, c_status c) ∉ notified (tr x)).
  { intros Hn. pose proof (s_set x Hx i w j t c Hl Hn). congruence. }
  destruct (decide (consumed (rings x i) + taking (rings x i) <= t)%nat) as [Hge|Hlt].
  { left. apply (ring_moves_system x i). eapply ticket_moves; [done..|apply Hx|apply Hx| |done].
    by apply lookup_lt_Some in Hp. }
  destruct (q (tr x)) as [|e l] eqn:Hq.
  - assert (Ht : t ∈ (in_ctx i (submitted (tr x))).*1).
    { pose proof (t_order _ _ _ _ (s_tr x Hx) i) as Ho. rewrite Hq, app_nil_r in Ho. rewrite Ho.
      apply elem_of_seq. rewrite (s_count x Hx). lia. }
    apply list_elem_of_fmap in Ht as ([t' e] & -> & Hin). apply elem_of_in_ctx in Hin. simpl in *.
    destruct (submitted_call x i t' e Hx) as (c' & Hp' & _ & Hcb & Hcs); [rewrite elem_of_app; by left|].
    assert (c' = c) as -> by congruence. rewrite Hb in Hcb.
    destruct (settled_facts (tr x) (done x) i (s_tr x Hx)) as (Hcount & _ & _ & Hlive).
    destruct (Hlive t' e Hin) as [Hn'|Ho]; [by destruct (nonblocking (type e))|by rewrite Hcs in Hn'|].
    destruct (requests (tr x)) as [|r0 rs] eqn:Er; [rewrite Hcount in Ho; by simpl in Ho|].
    destruct (decide (handle r0 ∈ done x)) as [Hd|Hd].
    + left. exists (SProgress [0%nat]). eexists. split; [done|]. simpl. unfold testsome_ok, incount. rewrite Er. simpl.
      rewrite (bool_decide_eq_true_2 (handle r0 ∈ done x)) by done. reflexivity.
    + right. right. exists (handle r0). split; [|done]. apply (t_fresh _ _ _ _ (s_tr x Hx)). rewrite Er. left.
  - destruct (submit (tr x)) as [s|] eqn:Es; [left|by right; left].
    exists SSubmit. eexists. split; [simpl; by rewrite Hq|]. simpl. by rewrite Es.
Qed.

(** C38: The reverse-offload backend does not deadlock.  In every state of a calm
    run in which some wavefront is inside a posting call, either a step is
    possible that brings the system forward (of a wavefront, the host worker or
    the progress thread), or the transport is about to abort on an invalid
    element, or MPI still has a request to complete: no wavefront waits for the
    lock, for space in the ring or for a status flag that nobody will provide. *)
Theorem ro_no_deadlock x i w :
  rtc sstep system_init x -> 0 < WF_SIZE <= queue_size -> idle (waves (rings x i) w) = false ->
  (exists a y, useful x a /\ sexec a x = Some y) \/ submit (tr x) = None \/
  (exists h, (h < next_request (tr x))%nat /\ h ∉ done x).
Proof using Hsize Hdiv.
  intros H Hwf Hi. apply sstep_sinv in H as Hx.
  destruct (wave_moves _ _ _ _ Hsize Hdiv (rings x i) w Hwf (s_ring x Hx i) (s_callers x Hx i)
              (held_reachable x H i) Hi) as [Hm|(j & t & c & Hl)].
  - left. by eapply ring_moves_system.
  - by eapply waiting_moves.
Qed.


Fixpoint srun (l : list saction) (x : system) : option system :=
  match l with [] => Some x | a :: l' => y ← sexec a x; srun l' y end.

End System.

(** ** Slot reuse

    The context of rank 1 in a world of four, with the ring size of the library:
    thread 0 of context 0 makes a blocking get that stays in flight; thread 64
    posts 511 puts that complete, then a blocking get, which takes the slot of
    the first one. *)

Section Demo.
Context (queue_size : Z).

Definition demo_exec : list saction -> system -> option system :=
  srun queue_size 1000 64 1024 1 4096 69632 (fun _ => 1) (fun _ => 4) (fun _ r => r) (fun _ => 1).

Definition demo_init : system := system_init queue_size.

Definition demo_step : system -> system -> Prop :=
  sstep queue_size 1000 64 1024 1 4096 69632 (fun _ => 1) (fun _ => 4) (fun _ r => r) (fun _ => 1).
End Demo.

Definition first_get : call := getmem 0 1000 8192 4096 8 2.
Definition second_get : call := getmem 0 1064 8200 4104 8 3.

(** One put of thread 64, from the call to the report of its completion. *)
Definition one_put (h : nat) : list saction :=
  (SRing 0 <$> post_one 1 64 (putmem_nbi 0 4112 8208 8 2) ++ host_takes) ++
  [SSubmit; SComplete h; SProgress [1%nat]].

Definition reuse_run : list saction :=
  (SRing 0 <$> post_one 0 0 first_get ++ host_takes) ++ [SSubmit] ++
  (seq 1 511 ≫= one_put) ++
  (SRing 0 <$> [ACall 1 [(64, second_get)]; ALock 1; ARefresh 1; ARead 1; AAdd 1; AUnlock 1; AFill 1 0; APublish 1 0]
     ++ host_takes) ++
  [SSubmit; SComplete 512; SProgress [1%nat]] ++
  (SRing 0 <$> [APoll 0 0; AClear 0 0]).

(** What the last state of the run shows. *)
Lemma reuse_facts :
  (fun x => (waves (rings x 0) 0, waves (rings x 0) 1, issued (tr x) !! 0%nat, notified (tr x) !! 0%nat,
     bool_decide (0%nat ∈ done x), flag x 1064)) <$> demo_exec 512 reuse_run (demo_init 512) =
  Some (WLanes 0 0 [(first_get, LDone)], WLanes 512 512 [(second_get, LWait)], Some (0, 0%nat, 0%nat),
        Some (0, 512%nat, 1064), false, false).
Proof. vm_compute. reflexivity. Qed.

(** C39: A thread polls the flag of whoever took its slot.  The wait of
    [build_queue_element] reads the flag through the queue element although the
    slot is free for the next user as soon as the host has taken the element.
    With the ring of 512 elements there is a run in which 511 more commands and a
    blocking get are posted while the get of thread 0 is in flight: thread 0 then
    returns on the completion of the other get, with its own request incomplete,
    and clears the other thread's flag, so that thread waits for a flag that has
    been set and will not be set again. *)
Theorem ro_slot_reuse_breaks_wait :
  exists x, demo_exec 512 reuse_run (demo_init 512) = Some x /\
    lane_at (rings x 0) 0 0 0 first_get LDone /\
    (0, 0%nat, 0%nat) ∈ issued (tr x) /\ 0%nat ∉ done x /\
    lane_at (rings x 0) 1 0 512 second_get LWait /\
    (0, 512%nat, 1064) ∈ notified (tr x) /\ flag x 1064 = false.
Proof.
  pose proof reuse_facts as Hf. destruct (demo_exec 512 reuse_run (demo_init 512)) as [x|]; [|done].
  simpl in Hf. injection Hf as H0 H1 Hi Hn Hd Hflag. exists x. split; [done|].
  split; [by exists 0%nat, 0, [(first_get, LDone)]|].
  split; [by apply list_elem_of_lookup_2 in Hi|].
  split; [by apply bool_decide_eq_false in Hd|].
  split; [by exists 512%nat, 512, [(second_get, LWait)]|].
  split; [by apply list_elem_of_lookup_2 in Hn|done].
Qed.

(** ** Witnesses *)

(** The blocking get of thread 0 in a ring of 64, to its return. *)
Definition get_run : list saction :=
  (SRing 0 <$> post_one 0 0 first_get ++ host_takes) ++
  [SSubmit; SComplete 0; SProgress [0%nat]] ++ (SRing 0 <$> [APoll 0 0; AClear 0 0]).

Lemma calm_short n r : (length (posted r) <= Z.to_nat n)%nat -> calm n r.
Proof. intros H t c _. lia. Qed.

(** A run that moves ring 0 only and posts at most 64 tickets in it. *)
Fixpoint short_run (l : list saction) (x : system) : option system :=
  match l with
  | [] => Some x
  | a :: l' =>
      y ← demo_exec 64 [a] x;
      if (match a with SRing i _ => i =? 0 | _ => true end) && bool_decide (length (posted (rings y 0)) <= 64)%nat
      then short_run l' y else None
  end.

Lemma short_run_steps l x y :
  (forall i, i <> 0 -> posted (rings x i) = []) -> short_run l x = Some y ->
  rtc (demo_step 64) x y.
Proof.
  revert x. induction l as [|a l IH]; intros x Hother H.
  { injection H as ->. apply rtc_refl. }
  cbn [short_run] in H. destruct (demo_exec 64 [a] x) as [z|] eqn:E; [|done]. simpl in H.
  case_if_in H; [|done]. apply andb_prop in E0 as [Ha Hlen]. apply bool_decide_eq_true in Hlen.
  unfold demo_exec in E. cbn [srun] in E. destruct (sexec _ _ _ _ _ _ _ _ _ _ _ a x) as [z'|] eqn:Es; simpl in E; [|done].
  injection E as ->.
  assert (Hz : forall i, i <> 0 -> posted (rings z i) = []).
  { intros i Hi. rewrite <- (Hother i Hi). f_equal. destruct a as [k a| | |]; simpl in Es.
    - apply Z.eqb_eq in Ha as ->. destruct (ring_exec _ _ _ _ _ _ _) as [[r' lb]|]; [|done].
      destruct lb; try case_if_in Es; simplify_eq; simpl; by rewrite upd_ne.
    - destruct (submitRequestsToMPI _ _ _ _ _ _ _ (tr x)); simpl in Es; by simplify_eq.
    - case_bool_decide; by simplify_eq.
    - case_if_in Es; by simplify_eq. }
  eapply rtc_l; [|by apply IH]. exists a. split; [exact Es|]. intros i. apply calm_short.
  destruct (decide (i = 0)) as [->|Hi]; [done|]. rewrite (Hz i Hi). simpl. lia.
Qed.

Definition get_state : system := default (demo_init 64) (short_run get_run (demo_init 64)).

Lemma get_state_reached : rtc (demo_step 64) (demo_init 64) get_state.
Proof.
  apply (short_run_steps get_run); [done|]. unfold get_state.
  assert (H : match short_run get_run (demo_init 64) with Some _ => true | None => false end = true)
    by (vm_compute; reflexivity).
  by destruct (short_run get_run (demo_init 64)).
Qed.

Lemma get_posted : posted (rings get_state 0) !! 0%nat = Some (first_get, true).
Proof. vm_compute. reflexivity. Qed.

Lemma get_waves w :
  waves (rings get_state 0) w = if w =? 0 then WLanes 0 0 [(first_get, LDone)] else WLanes 0 0 [].
Proof. vm_compute. by destruct w. Qed.

(** The get has returned, so its request is complete. *)
Lemma ro_blocking_call_complete_witness :
  exists e, (0, 0%nat, e) ∈ submitted (tr get_state) /\ carries first_get e /\
    forall h, (0, 0%nat, h) ∈ issued (tr get_state) -> h ∈ done get_state.
Proof.
  destruct (ro_blocking_call_complete 64 1000 64 1024 1 4096 69632 (fun _ => 1) (fun _ => 4) (fun _ r => r) (fun _ => 1)
    ltac:(lia) ltac:(exists (2 ^ 58); reflexivity) get_state get_state_reached) as [H _].
  destruct (H 0 0%nat first_get get_posted eq_refl) as (e & He & Hc & Hd).
  - intros (w & j & pc & (tk & slot & ls & Hw & Hj & _) & Hpc). rewrite get_waves in Hw.
    destruct (w =? 0); [|injection Hw as <- <- <-; discriminate Hj].
    injection Hw as <- <- <-. destruct j; [|discriminate Hj]. injection Hj as <-. discriminate Hpc.
  - exists e. split; [exact He|]. split; [exact Hc|]. intros h Hh. apply (Hd 0%nat h Hh). left. reflexivity.
Defined.

(** The same get after its publication: the host worker has a step. *)
Definition posted_state : system :=
  default (demo_init 64) (short_run (SRing 0 <$> post_one 0 0 first_get) (demo_init 64)).

Lemma posted_state_reached : rtc (demo_step 64) (demo_init 64) posted_state.
Proof.
  apply (short_run_steps (SRing 0 <$> post_one 0 0 first_get)); [done|]. unfold posted_state.
  assert (H : match short_run (SRing 0 <$> post_one 0 0 first_get) (demo_init 64) with Some _ => true | None => false end
    = true) by (vm_compute; reflexivity).
  by destruct (short_run _ _).
Qed.

Lemma ro_no_deadlock_witness :
  (exists a y, useful posted_state a /\ demo_exec 64 [a] posted_state = Some y).
Proof.
  destruct (ro_no_deadlock 64 1000 64 1024 1 4096 69632 (fun _ => 1) (fun _ => 4) (fun _ r => r) (fun _ => 1)
    ltac:(lia) ltac:(exists (2 ^ 58); reflexivity) posted_state 0 0 posted_state_reached ltac:(lia)
    ltac:(vm_compute; reflexivity)) as [(a & y & Hu & Ha)|[Hs|(h & Hh & _)]].
  - exists a, y. split; [exact Hu|]. unfold demo_exec. cbn [srun]. rewrite Ha. reflexivity.
  - exfalso. revert Hs. vm_compute. discriminate.
  - exfalso. revert Hh. change (next_request (tr posted_state)) with 0%nat. lia.
Defined.
