(* ===== verification/SdmaPkt.v ===== *)
(** * Packets of the copy engine

    The dwords that [CreateCopyPacket] and [CreateAtomicIncPacket]
    (src/sdma/anvil_device.hpp) build from the packet structures of
    src/sdma/sdma_pkt_struct.h, the NOP padding that [placePacket] writes before
    the end of the ring, and the reading of such a sequence of dwords as a list
    of commands.  A sequence of padded packets reads back as exactly the
    commands it was built from; the byte count of a copy is a 30-bit field that
    holds the size less one.

    The packets are those of devices before OSS7 ([SDMA_IS_OSS7] is 0). *)

From stdpp Require Import base numbers list.
From S2P Require Import Prelude.

(** ** Dwords of the packets *)

Definition SDMA_OP_NOP : Z := 0.
Definition SDMA_OP_COPY : Z := 1.
Definition SDMA_OP_FENCE : Z := 5.
Definition SDMA_OP_ATOMIC : Z := 10.
Definition SDMA_SUBOP_COPY_LINEAR : Z := 0.
Definition SDMA_ATOMIC_ADD64 : Z := 47.

(** The header bit-fields: [op] and [sub_op] are the two low bytes, the
    [operation] of an atomic packet the seven high bits. *)
Definition header (op sub_op operation : Z) : Z :=
  u8 op + Z.shiftl (u8 sub_op) 8 + Z.shiftl (wrap 7 operation) 25.

Definition addr_lo (a : Z) : Z := u32 a.
Definition addr_hi (a : Z) : Z := u32 (Z.shiftr a 32).

Definition CreateCopyPacket (srcBuf dstBuf packetSize : Z) : list Z :=
  [ header SDMA_OP_COPY SDMA_SUBOP_COPY_LINEAR 0;
    wrap 30 (u32 (packetSize - 1));
    0;
    addr_lo srcBuf; addr_hi srcBuf;
    addr_lo dstBuf; addr_hi dstBuf ].

Definition CreateAtomicIncPacket (addr : Z) : list Z :=
  [ header SDMA_OP_ATOMIC 0 SDMA_ATOMIC_ADD64;
    addr_lo addr; addr_hi addr;
    1; 0;
    0; 0;
    0 ].

Definition CreateFencePacket (address data : Z) : list Z :=
  [ header SDMA_OP_FENCE 0 0; addr_lo address; addr_hi address; u32 data ].

(** The dwords that pad [n] dwords before the end of the ring: the first one
    holds the number of dwords that follow it. *)
Definition nop_padding (n : nat) : list Z :=
  match n with
  | O => []
  | S m => Z.shiftl (Z.land (u32 (Z.of_nat n - 1)) 65535) 16 :: replicate m 0
  end.

(** ** Commands *)

(** What a packet asks of the engine. *)
Inductive command :=
| Copy (src dst bytes : Z)
| AtomicAdd (addr data : Z)
| Fence (addr data : Z).

#[export] Instance command_eq_dec : EqDecision command.
Proof. solve_decision. Defined.

Definition quad (lo hi : Z) : Z := lo + Z.shiftl hi 32.

(** The engine's reading of the ring, by the operation in the low byte of a
    header, with the packet structures of the header file. *)
Fixpoint decode (fuel : nat) (ds : list Z) : option (list command) :=
  match fuel, ds with
  | _, [] => Some []
  | O, _ => None
  | S fuel, h :: t =>
      let op := wrap 8 h in
      if op =? SDMA_OP_NOP then decode fuel (drop (Z.to_nat (wrap 16 (Z.shiftr h 16))) t)
      else if op =? SDMA_OP_COPY then
        match t with
        | count :: _ :: slo :: shi :: dlo :: dhi :: rest =>
            cons (Copy (quad slo shi) (quad dlo dhi) (wrap 30 count + 1)) <$> decode fuel rest
        | _ => None
        end
      else if op =? SDMA_OP_FENCE then
        match t with
        | lo :: hi :: data :: rest => cons (Fence (quad lo hi) data) <$> decode fuel rest
        | _ => None
        end
      else if (op =? SDMA_OP_ATOMIC) && (Z.shiftr h 25 =? SDMA_ATOMIC_ADD64) then
        match t with
        | lo :: hi :: slo :: shi :: _ :: _ :: _ :: rest =>
            cons (AtomicAdd (quad lo hi) (quad slo shi)) <$> decode fuel rest
        | _ => None
        end
      else None
  end.

(** What each packet constructor asks for, said without the dwords. *)
Inductive request :=
| ReqCopy (srcBuf dstBuf size : Z)
| ReqAtomicInc (addr : Z)
| ReqFence (addr data : Z).

Definition encode (r : request) : list Z :=
  match r with
  | ReqCopy s d n => CreateCopyPacket s d n
  | ReqAtomicInc a => CreateAtomicIncPacket a
  | ReqFence a v => CreateFencePacket a v
  end.

(** The bytes that the engine moves for a requested size. *)
Definition copied_bytes (size : Z) : Z := wrap 30 (size - 1) + 1.

Definition meaning (r : request) : command :=
  match r with
  | ReqCopy s d n => Copy (u64 s) (u64 d) (copied_bytes n)
  | ReqAtomicInc a => AtomicAdd (u64 a) 1
  | ReqFence a v => Fence (u64 a) (u32 v)
  end.

(** ** Reading back *)

Lemma quad_split a : quad (addr_lo a) (addr_hi a) = u64 a.
Proof.
  unfold quad, addr_lo, addr_hi, wrap. rewrite Z.shiftl_mul_pow2, Z.shiftr_div_pow2 by lia.
  change (2 ^ 64) with (2 ^ 32 * 2 ^ 32). rewrite Z.rem_mul_r by lia. lia.
Qed.

Lemma copied_count n : wrap 30 (wrap 30 (u32 (n - 1))) + 1 = copied_bytes n.
Proof.
  unfold copied_bytes. rewrite wrap_wrap. f_equal. unfold wrap at 1 3.
  apply wrap_mod_divide; [lia|]. exists 4. reflexivity.
Qed.

Lemma copied_bytes_exact n : 1 <= n <= 2 ^ 30 -> copied_bytes n = n.
Proof. intros. unfold copied_bytes. unwrap. lia. Qed.

(** A packet at the head of the dwords is read as its meaning. *)
Lemma decode_packet r fuel rest :
  decode (S fuel) (encode r ++ rest) = cons (meaning r) <$> decode fuel rest.
Proof.
  destruct r; cbn [encode CreateCopyPacket CreateAtomicIncPacket CreateFencePacket app decode].
  - change (wrap 8 (header SDMA_OP_COPY SDMA_SUBOP_COPY_LINEAR 0)) with 1. cbn -[wrap quad].
    rewrite !quad_split, copied_count. done.
  - change (wrap 8 (header SDMA_OP_ATOMIC 0 SDMA_ATOMIC_ADD64)) with 10.
    change (Z.shiftr (header SDMA_OP_ATOMIC 0 SDMA_ATOMIC_ADD64) 25) with 47.
    cbn -[wrap quad]. rewrite !quad_split. done.
  - change (wrap 8 (header SDMA_OP_FENCE 0 0)) with 5. cbn -[wrap quad]. rewrite !quad_split. done.
Qed.

Lemma decode_nop fuel n rest :
  (0 < n)%nat -> Z.of_nat n <= 2 ^ 16 ->
  decode (S fuel) (nop_padding n ++ rest) = decode fuel rest.
Proof.
  intros Hn Hm. destruct n as [|n]; [lia|]. cbn [nop_padding app decode].
  replace (u32 (Z.of_nat (S n) - 1)) with (Z.of_nat n) by (unwrap; lia).
  change 65535 with (Z.ones 16). rewrite Z.land_ones by lia. change (Z.of_nat n mod 2 ^ 16) with (u16 (Z.of_nat n)).
  unwrap. rewrite Z.shiftl_mul_pow2 by lia.
  replace (wrap 8 (Z.of_nat n * 2 ^ 16)) with 0.
  2:{ unfold wrap. change (2 ^ 16) with (2 ^ 8 * 2 ^ 8). rewrite Z.mul_assoc, Z_mod_mult. done. }
  cbn [Z.eqb SDMA_OP_NOP]. rewrite Z.shiftr_div_pow2, Z.div_mul by lia. unwrap.
  rewrite Nat2Z.id, drop_app_length' by (rewrite length_replicate; done). done.
Qed.

(** More fuel than needed changes nothing. *)
Lemma decode_fuel fuel k ds cs : decode fuel ds = Some cs -> decode (fuel + k) ds = Some cs.
Proof.
  revert ds cs. induction fuel as [|fuel IH]; intros ds cs; cbn [decode Nat.add].
  { destruct ds; [|done]. destruct k; done. }
  destruct ds as [|h t]; [done|]. case_if; [apply IH|].
  assert (Hm : forall c l cs', cons c <$> decode fuel l = Some cs' ->
    cons c <$> decode (fuel + k) l = Some cs').
  { intros c l cs' (x & Hx & ->)%fmap_Some. rewrite (IH _ _ Hx). done. }
  repeat case_if; repeat case_match; try done; apply Hm.
Qed.

Lemma length_nop_padding n : length (nop_padding n) = n.
Proof. destruct n; cbn [nop_padding length]; rewrite ?length_replicate; done. Qed.

(** A padded group of packets followed by what reads as [cs]. *)
Lemma decode_group n rs rest cs fuel :
  Z.of_nat n <= 2 ^ 16 -> decode fuel rest = Some cs ->
  decode (fuel + S (length rs)) (nop_padding n ++ concat (encode <$> rs) ++ rest) =
    Some ((meaning <$> rs) ++ cs).
Proof.
  intros Hn Hr.
  assert (Hp : decode (fuel + length rs) (concat (encode <$> rs) ++ rest) =
    Some ((meaning <$> rs) ++ cs)).
  { clear n Hn. induction rs as [|r rs IH]; cbn [length fmap list_fmap concat app].
    { rewrite Nat.add_0_r. done. }
    rewrite Nat.add_succ_r, <- app_assoc, decode_packet, IH. done. }
  destruct n as [|n].
  - cbn [nop_padding app]. rewrite <- Nat.add_1_r, Nat.add_assoc. apply decode_fuel, Hp.
  - rewrite Nat.add_succ_r, decode_nop by lia. done.
Qed.

(** The copy packet built for a size is read by the engine as a copy between
    the given addresses of exactly that many bytes if and only if the size is
    between 1 and 2^30: the count is a 30-bit field that holds the size less one,
    so a size of 0 asks for 2^30 bytes and a larger size is cut off. *)
Theorem sdma_copy_size src dst size :
  0 <= src < 2 ^ 64 -> 0 <= dst < 2 ^ 64 -> 0 <= size < 2 ^ 64 ->
  exists bytes, decode 1 (CreateCopyPacket src dst size) = Some [Copy src dst bytes] /\
    (bytes = size <-> 1 <= size <= 2 ^ 30).
Proof.
  intros Hs Hd Hn. exists (copied_bytes size). split.
  - pose proof (decode_packet (ReqCopy src dst size) 0 []) as Hp. rewrite app_nil_r in Hp. cbn [encode] in Hp.
    rewrite Hp. cbn [decode fmap option_fmap option_map meaning]. unwrap. done.
  - split; [|apply copied_bytes_exact]. unfold copied_bytes. pose proof (wrap_range 30 (size - 1)). lia.
Qed.

Lemma sdma_copy_size_witness :
  (exists bytes, decode 1 (CreateCopyPacket 4096 8192 (2 ^ 30 + 5)) = Some [Copy 4096 8192 bytes] /\
    (bytes = 2 ^ 30 + 5 <-> 1 <= 2 ^ 30 + 5 <= 2 ^ 30)) /\
  decode 1 (CreateCopyPacket 4096 8192 (2 ^ 30 + 5)) = Some [Copy 4096 8192 5].
Proof. split; [apply (sdma_copy_size 4096 8192 (2 ^ 30 + 5)); lia | reflexivity]. Defined.
