(* ===== verification/Sdma.v ===== *)
(** * The submission ring of a copy engine

    [SdmaQueueDeviceHandle] of src/sdma/anvil_device.hpp: device threads reserve
    space in a ring of dwords by compare-and-swap, pad with NOPs what is left
    before the end of the ring, write their packets, publish them in the order
    of their reservations and wait for the engine's read index.  Every load,
    store and compare-and-swap of a shared variable is one step; any number of
    threads interleave, and the engine moves its read index at any time to any
    index up to the published write index.

    The ghost [history] records the reservations in order.  [sdma_stream]
    below says that what the engine finds between its read index and the write
    index is the packets of the history, in order and complete; [sdma_drains]
    that the threads of every reachable state can all finish; and
    [sdma_quiet_ordered] and [sdma_quiet_returns_early] when [quietAll] waits for
    the caller's own packets and that it does not in general.  The variant for a
    single producer is in [SingleProducer]. *)

From stdpp Require Import base numbers list relations.
From S2P Require Import Prelude SdmaPkt.

Definition SDMA_QUEUE_SIZE : Z := 1024 * 1024.

(** ** The queue and its operations *)

Record handle := mk_handle {
  queueBuf : Z -> Z;
  rptr : Z;
  wptr : Z;
  doorbell : Z;
  cachedWptr : Z;
  committedWptr : Z;
  cachedHwReadIndex : Z;
  maxWritePtr : Z
}.

Definition WrapIntoRing (index : Z) : Z := index mod SDMA_QUEUE_SIZE.

(** The test of [CanWriteUpto], made on the cached read index before and after
    it is refreshed. *)
Definition can_write (cachedHw uptoIndex : Z) : bool := u64 (uptoIndex - cachedHw) <? SDMA_QUEUE_SIZE.

(** The bytes to pad in front of a group that does not fit before the end. *)
Definition pad_for (cur_index size_in_bytes : Z) : Z :=
  if SDMA_QUEUE_SIZE <? WrapIntoRing cur_index + size_in_bytes
  then SDMA_QUEUE_SIZE - WrapIntoRing cur_index else 0.

(** Consecutive dword stores from dword [ix] of the ring on. *)
Definition stores_at (ix : Z) (ds : list Z) : list (Z * Z) :=
  imap (fun i d => (ix + Z.of_nat i, d)) ds.

Definition placePacket (packet : list Z) (pendingWptr offset : Z) : list (Z * Z) * Z :=
  let numOffsetDwords := offset / 4 in
  let base_index_in_dwords := WrapIntoRing pendingWptr / 4 in
  let nops := stores_at base_index_in_dwords (nop_padding (Z.to_nat numOffsetDwords)) in
  let pendingWptr := u64 (pendingWptr + offset) in
  let base_index_in_dwords := WrapIntoRing pendingWptr / 4 in
  (nops ++ stores_at base_index_in_dwords packet, u64 (pendingWptr + 4 * Z.of_nat (length packet))).

(** The calls of the API on a queue. *)
Inductive call :=
| put (dst src size : Z)
| putSignal (dst src size signal : Z)
| putSignalCounter (dst src size signal counter : Z)
| putCounter (dst src size counter : Z)
| signal (sig : Z)
| signalCounter (sig counter : Z)
| flush (upToIndex : Z)
| quiet.

(** The packets of [put_signal_counter_impl] for its three flags. *)
Definition packets (PUT_EN SIGNAL_EN COUNTER_EN : bool) (dst src size sig counter : Z) : list request :=
  (if PUT_EN then [ReqCopy src dst size] else []) ++
  (if SIGNAL_EN then [ReqAtomicInc sig] else []) ++
  (if COUNTER_EN then [ReqAtomicInc counter] else []).

Definition call_packets (c : call) : list request :=
  match c with
  | put d s n => packets true false false d s n 0 0
  | putSignal d s n g => packets true true false d s n g 0
  | putSignalCounter d s n g k => packets true true true d s n g k
  | putCounter d s n k => packets true false true d s n 0 k
  | signal g => packets false true false 0 0 0 g 0
  | signalCounter g k => packets false true true 0 0 0 g k
  | flush _ | quiet => []
  end.

Definition group_dwords (rs : list request) : list Z := concat (encode <$> rs).

Definition space_required (rs : list request) : Z := 4 * Z.of_nat (length (group_dwords rs)).

(** The placing of the packets of a group: the first one takes the padding. *)
Fixpoint placePackets (rs : list request) (pendingWptr offset : Z) : list (Z * Z) * Z :=
  match rs with
  | [] => ([], pendingWptr)
  | r :: rs =>
      let '(st1, pendingWptr) := placePacket (encode r) pendingWptr offset in
      let '(st2, pendingWptr) := placePackets rs pendingWptr 0 in
      (st1 ++ st2, pendingWptr)
  end.

(** ** Threads *)

Inductive pc :=
| Idle
| Reserve (rs : list request)
| Upto (rs : list request) (cur offset : Z)
| Refresh (rs : list request) (cur offset : Z)
| StoreHw (rs : list request) (cur offset v : Z)
| Recheck (rs : list request) (cur offset : Z)
| Cas (rs : list request) (cur offset : Z)
| Place (base : Z) (stores : list (Z * Z)) (pending : Z)
| Submit (base pending : Z)
| SetWptr (base pending : Z)
| SetDoorbell (base pending : Z)
| SetCommitted (base pending : Z)
| SetMax (pending : Z)
| LoadMax
| Poll (target : Z).

(** One reservation: its base index, its padding and its packets. *)
Definition group : Type := Z * Z * list request.

Record system := mk_system {
  queue : handle;
  threads : list pc;
  history : list group;
  lastput : list Z       (* ghost: end of the last group each thread submitted *)
}.

Definition goto (s : system) (t : nat) (p : pc) : system :=
  mk_system (queue s) (<[t := p]> (threads s)) (history s) (lastput s).

Definition with_queue (s : system) (h : handle) : system :=
  mk_system h (threads s) (history s) (lastput s).

Definition set_cachedHw (h : handle) (v : Z) : handle :=
  mk_handle (queueBuf h) (rptr h) (wptr h) (doorbell h) (cachedWptr h) (committedWptr h) v (maxWritePtr h).
Definition set_wptr (h : handle) (v : Z) : handle :=
  mk_handle (queueBuf h) (rptr h) v (doorbell h) (cachedWptr h) (committedWptr h) (cachedHwReadIndex h) (maxWritePtr h).
Definition set_doorbell (h : handle) (v : Z) : handle :=
  mk_handle (queueBuf h) (rptr h) (wptr h) v (cachedWptr h) (committedWptr h) (cachedHwReadIndex h) (maxWritePtr h).
Definition set_cachedWptr (h : handle) (v : Z) : handle :=
  mk_handle (queueBuf h) (rptr h) (wptr h) (doorbell h) v (committedWptr h) (cachedHwReadIndex h) (maxWritePtr h).
Definition set_committed (h : handle) (v : Z) : handle :=
  mk_handle (queueBuf h) (rptr h) (wptr h) (doorbell h) (cachedWptr h) v (cachedHwReadIndex h) (maxWritePtr h).
Definition set_max (h : handle) (v : Z) : handle :=
  mk_handle (queueBuf h) (rptr h) (wptr h) (doorbell h) (cachedWptr h) (committedWptr h) (cachedHwReadIndex h) v.
Definition set_rptr (h : handle) (v : Z) : handle :=
  mk_handle (queueBuf h) v (wptr h) (doorbell h) (cachedWptr h) (committedWptr h) (cachedHwReadIndex h) (maxWritePtr h).
Definition set_dword (h : handle) (i d : Z) : handle :=
  mk_handle (upd (queueBuf h) i d) (rptr h) (wptr h) (doorbell h) (cachedWptr h) (committedWptr h)
    (cachedHwReadIndex h) (maxWritePtr h).

(** Where a thread starts a call. *)
Definition enter (c : call) : pc :=
  match c with
  | quiet => LoadMax
  | flush upto => Poll upto
  | _ => Reserve (call_packets c)
  end.

(** The next access of a thread of [ReserveQueueSpace] with [CanWriteUpto]. *)
Definition exec_reserve (s : system) (t : nat) (p : pc) : system :=
  let h := queue s in
  match p with
  | Reserve rs =>
      let cur := cachedWptr h in
      goto s t (Upto rs cur (pad_for cur (space_required rs)))
  | Upto rs cur off =>
      if can_write (cachedHwReadIndex h) (u64 (cur + space_required rs + off))
      then goto s t (Cas rs cur off) else goto s t (Refresh rs cur off)
  | Refresh rs cur off => goto s t (StoreHw rs cur off (rptr h))
  | StoreHw rs cur off v => goto (with_queue s (set_cachedHw h v)) t (Recheck rs cur off)
  | Recheck rs cur off =>
      if can_write (cachedHwReadIndex h) (u64 (cur + space_required rs + off))
      then goto s t (Cas rs cur off) else goto s t (Reserve rs)
  | Cas rs cur off =>
      if cachedWptr h =? cur then
        let '(st, pending) := placePackets rs cur off in
        mk_system (set_cachedWptr h (u64 (cur + space_required rs + off)))
          (<[t := Place cur st pending]> (threads s))
          (history s ++ [(cur, off, rs)]) (lastput s)
      else goto s t (Reserve rs)
  | _ => s
  end.

(** The next access of a thread of [placePacket], [submitPacket], [flushTo] and
    [quietAll]. *)
Definition exec_submit (s : system) (t : nat) (p : pc) : system :=
  let h := queue s in
  match p with
  | Place base [] pending => goto s t (Submit base pending)
  | Place base ((i, d) :: st) pending => goto (with_queue s (set_dword h i d)) t (Place base st pending)
  | Submit base pending =>
      if committedWptr h =? base then goto s t (SetWptr base pending) else s
  | SetWptr base pending => goto (with_queue s (set_wptr h pending)) t (SetDoorbell base pending)
  | SetDoorbell base pending => goto (with_queue s (set_doorbell h pending)) t (SetCommitted base pending)
  | SetCommitted base pending => goto (with_queue s (set_committed h pending)) t (SetMax pending)
  | SetMax pending =>
      mk_system (set_max h pending) (<[t := Idle]> (threads s)) (history s) (<[t := pending]> (lastput s))
  | LoadMax => goto s t (Poll (maxWritePtr h))
  | Poll target => if rptr h <? target then s else goto s t Idle
  | _ => s
  end.

Definition exec_thread (s : system) (t : nat) (p : pc) : system :=
  match p with
  | Reserve _ | Upto _ _ _ | Refresh _ _ _ | StoreHw _ _ _ _ | Recheck _ _ _ | Cas _ _ _ => exec_reserve s t p
  | _ => exec_submit s t p
  end.

Inductive label :=
| Call (t : nat) (c : call)
| Thread (t : nat)
| Engine (index : Z).

(** One step of a thread or of the engine; [None] when it is not possible. *)
Definition exec (s : system) (l : label) : option system :=
  match l with
  | Call t c => match threads s !! t with Some Idle => Some (goto s t (enter c)) | _ => None end
  | Thread t => match threads s !! t with
                | Some Idle | None => None
                | Some p => Some (exec_thread s t p)
                end
  | Engine index =>
      if (rptr (queue s) <=? index) && (index <=? wptr (queue s))
      then Some (with_queue s (set_rptr (queue s) index)) else None
  end.

Definition step (s s' : system) : Prop := exists l, exec s l = Some s'.

Fixpoint run (s : system) (ls : list label) : option system :=
  match ls with
  | [] => Some s
  | l :: ls => match exec s l with Some s' => run s' ls | None => None end
  end.

Definition handle_init : handle := mk_handle (fun _ => 0) 0 0 0 0 0 0 0.

Definition init (n : nat) : system := mk_system handle_init (replicate n Idle) [] (replicate n 0).

(** ** Placing in terms of the unwrapped dword index *)

Definition ring_dwords : Z := SDMA_QUEUE_SIZE / 4.

(** The stores of the dwords [ds] from the absolute dword index [ix] on. *)
Definition ring_stores (ix : Z) (ds : list Z) : list (Z * Z) :=
  imap (fun i d => ((ix + Z.of_nat i) mod ring_dwords, d)) ds.

Lemma length_ring_stores ix ds : length (ring_stores ix ds) = length ds.
Proof. unfold ring_stores. apply length_imap. Qed.

Lemma ring_stores_app ix a b :
  ring_stores ix (a ++ b) = ring_stores ix a ++ ring_stores (ix + Z.of_nat (length a)) b.
Proof.
  unfold ring_stores. rewrite imap_app. f_equal. apply imap_ext. intros i x _. cbn.
  do 2 f_equal. lia.
Qed.

Lemma ring_stores_cons ix d ds : ring_stores ix (d :: ds) = (ix mod ring_dwords, d) :: ring_stores (ix + 1) ds.
Proof.
  change (d :: ds) with ([d] ++ ds). rewrite ring_stores_app. cbn. rewrite Z.add_0_r. done.
Qed.

Lemma wrap_dword k : WrapIntoRing (4 * k) / 4 = k mod ring_dwords.
Proof.
  unfold WrapIntoRing. change SDMA_QUEUE_SIZE with (4 * ring_dwords).
  rewrite Z.mul_mod_distr_l by done. rewrite (Z.mul_comm 4), Z.div_mul by done. done.
Qed.

(** Stores that stay in front of the end of the ring need no further wrapping. *)
Lemma stores_at_ring k ds :
  WrapIntoRing (4 * k) + 4 * Z.of_nat (length ds) <= SDMA_QUEUE_SIZE ->
  stores_at (WrapIntoRing (4 * k) / 4) ds = ring_stores k ds.
Proof.
  intros Hfit. unfold stores_at, ring_stores. apply imap_ext. intros i d Hi%lookup_lt_Some. cbn.
  f_equal. rewrite wrap_dword. unfold WrapIntoRing in Hfit.
  change SDMA_QUEUE_SIZE with (4 * ring_dwords) in Hfit.
  assert (0 < ring_dwords) by reflexivity. generalize dependent ring_dwords. intros q Hfit Hq.
  rewrite Z.mul_mod_distr_l in Hfit by lia.
  rewrite <- (Zplus_mod_idemp_l k). symmetry. apply Z.mod_small.
  pose proof (Z.mod_pos_bound k q). lia.
Qed.

(** Packets without padding in front of the end of the ring. *)
Lemma placePackets_plain rs k :
  0 <= k -> WrapIntoRing (4 * k) + space_required rs <= SDMA_QUEUE_SIZE ->
  4 * k + space_required rs < 2 ^ 64 ->
  placePackets rs (4 * k) 0 = (ring_stores k (group_dwords rs), 4 * k + space_required rs).
Proof.
  revert k. induction rs as [|r rs IH]; intros k Hk Hfit Hb.
  { unfold space_required. cbn. f_equal; lia. }
  unfold space_required, group_dwords in *. cbn [fmap list_fmap concat] in *.
  rewrite length_app in *. set (n := length (encode r)) in *. set (m := length (concat (encode <$> rs))) in *.
  cbn [placePackets]. unfold placePacket. change (nop_padding (Z.to_nat (0 / 4))) with (@nil Z).
  change (stores_at _ []) with (@nil (Z * Z)). fold n.
  rewrite Z.add_0_r, (wrap_small 64 (4 * k)), wrap_small by lia. rewrite stores_at_ring by lia.
  replace (4 * k + 4 * Z.of_nat n) with (4 * (k + Z.of_nat n)) by lia.
  destruct (decide (rs = [])) as [->|Hne].
  { cbn in m |- *. rewrite !app_nil_r. f_equal. lia. }
  rewrite IH; [| lia | | lia].
  - rewrite ring_stores_app. f_equal. lia.
  - assert (Hm : (0 < m)%nat).
    { subst m. destruct rs as [|r' rs']; [done|]. destruct r'; cbn; lia. }
    replace (WrapIntoRing (4 * (k + Z.of_nat n))) with (WrapIntoRing (4 * k) + 4 * Z.of_nat n); [lia|].
    unfold WrapIntoRing in *. replace (4 * (k + Z.of_nat n)) with (4 * k + 4 * Z.of_nat n) by lia.
    rewrite <- (Zplus_mod_idemp_l (4 * k)), (Z.mod_small (_ + _)); [done|].
    pose proof (Z.mod_pos_bound (4 * k) SDMA_QUEUE_SIZE eq_refl). lia.
Qed.

(** The dwords of a group with its padding. *)
Definition padded (off : Z) (rs : list request) : list Z :=
  nop_padding (Z.to_nat (off / 4)) ++ group_dwords rs.

(** The groups of the API: at most a copy and two atomics. *)
Definition group_ok (rs : list request) : Prop := 0 < space_required rs <= 92.

Lemma group_ok_nonempty rs : group_ok rs -> rs <> [].
Proof. intros [H _] ->. by vm_compute in H. Qed.

Lemma call_packets_ok c : match c with quiet | flush _ => True | _ => group_ok (call_packets c) end.
Proof. destruct c; try done; unfold group_ok, space_required; cbn; lia. Qed.

(** The padding of a group is a multiple of the dword size, shorter than the
    group, and leads to the start of the ring. *)
Lemma pad_for_spec k rs :
  group_ok rs -> exists j, pad_for (4 * k) (space_required rs) = 4 * j /\ 0 <= 4 * j < space_required rs /\
    WrapIntoRing (4 * (k + j)) + space_required rs <= SDMA_QUEUE_SIZE /\
    (j = 0 \/ WrapIntoRing (4 * k) + 4 * j = SDMA_QUEUE_SIZE).
Proof.
  intros [Hn Hm]. unfold pad_for, WrapIntoRing. change SDMA_QUEUE_SIZE with (4 * ring_dwords).
  assert (Hq : ring_dwords = 262144) by done. case_if.
  - exists (ring_dwords - k mod ring_dwords). rewrite Z.mul_mod_distr_l in * by lia.
    pose proof (Z.mod_pos_bound k ring_dwords). split; [lia|]. split; [lia|]. split; [|lia].
    replace (k + (ring_dwords - k mod ring_dwords)) with ((1 + k / ring_dwords) * ring_dwords).
    2:{ pose proof (Z_div_mod_eq_full k ring_dwords). lia. }
    rewrite Z.mul_mod_distr_l, Z_mod_mult by lia. lia.
  - exists 0. rewrite Z.add_0_r. lia.
Qed.

Lemma placePackets_padded rs k off :
  group_ok rs -> 0 <= k -> off = pad_for (4 * k) (space_required rs) ->
  4 * k + space_required rs + off < 2 ^ 64 ->
  placePackets rs (4 * k) off = (ring_stores k (padded off rs), 4 * k + space_required rs + off).
Proof.
  intros Hok Hk -> Hb. destruct (pad_for_spec k rs Hok) as (j & Hp & Hj & Hfit & Hj0).
  rewrite Hp in *. destruct rs as [|r rs]; [by apply group_ok_nonempty in Hok|].
  pose proof (placePackets_plain (r :: rs) (k + j) ltac:(lia) Hfit ltac:(lia)) as Hpl.
  cbn [placePackets] in *. unfold placePacket in *.
  change (nop_padding (Z.to_nat (0 / 4))) with (@nil Z) in Hpl.
  change (stores_at (WrapIntoRing (4 * (k + j)) / 4) []) with (@nil (Z * Z)) in Hpl.
  rewrite Z.add_0_r in Hpl. replace (4 * k + 4 * j) with (4 * (k + j)) by lia.
  assert (Hj4 : 4 * j / 4 = j) by (rewrite Z.mul_comm, Z.div_mul; lia).
  destruct (placePackets rs _ 0) as [st2 p2] eqn:E. cbn [app] in Hpl. injection Hpl as Hst ->.
  rewrite <- app_assoc, Hst. unfold padded. rewrite Hj4, ring_stores_app, length_nop_padding.
  rewrite Z2Nat.id by lia. f_equal; [|lia]. f_equal. apply stores_at_ring.
  rewrite length_nop_padding. pose proof (Z.mod_pos_bound (4 * k) SDMA_QUEUE_SIZE ltac:(done)).
  unfold WrapIntoRing in *. destruct Hj0; [|lia]. subst j. cbn. lia.
Qed.

Lemma length_padded off rs : 0 <= off -> (4 | off) -> 4 * Z.of_nat (length (padded off rs)) = off + space_required rs.
Proof.
  intros H0 [j ->]. unfold padded, space_required. rewrite length_app, length_nop_padding, Z.div_mul; lia.
Qed.

(** ** The invariant *)

(** All dwords ever reserved, in the order of the reservations. *)
Definition stream (hs : list group) : list Z := concat ((fun g => padded g.1.2 g.2) <$> hs).

Definition group_at (g : group) (index : Z) : Prop :=
  g.1.1 = index /\ g.1.2 = pad_for index (space_required g.2) /\ group_ok g.2.

Definition history_ok (hs : list group) : Prop :=
  forall pre g post, hs = pre ++ g :: post -> group_at g (4 * Z.of_nat (length (stream pre))).

(** The bytes that a thread has reserved and not yet committed. *)
Definition claim (p : pc) : option (Z * Z) :=
  match p with
  | Place b _ e | Submit b e | SetWptr b e | SetDoorbell b e | SetCommitted b e => Some (b, e)
  | _ => None
  end.

(** A thread that has published its write index and not committed it. *)
Definition published (p : pc) : bool :=
  match p with SetDoorbell _ _ | SetCommitted _ _ => true | _ => false end.

(** The dwords that a thread has still to store. *)
Definition unwritten (p : pc) (i : Z) : Prop :=
  match p with
  | Place _ st e => e - 4 * Z.of_nat (length st) <= 4 * i < e
  | _ => False
  end.

(** A reservation attempt: the index it read and the padding it computed. *)
Definition attempt_ok (h : handle) (rs : list request) (cur off : Z) : Prop :=
  group_ok rs /\ (4 | cur) /\ 0 <= cur <= cachedWptr h /\ off = pad_for cur (space_required rs).

(** An index between two groups. *)
Definition boundary (hs : list group) (x : Z) : Prop :=
  exists pre post, hs = pre ++ post /\ x = 4 * Z.of_nat (length (stream pre)).

Definition claim_ok (h : handle) (hs : list group) (b e : Z) : Prop :=
  committedWptr h <= b < e /\ e <= cachedWptr h /\ boundary hs b /\ boundary hs e.

(** The stores still to be made are dwords of the stream. *)
Definition stores_ok (hs : list group) (b : Z) (st : list (Z * Z)) (e : Z) : Prop :=
  exists l1 ds l2, stream hs = l1 ++ ds ++ l2 /\ st = ring_stores (Z.of_nat (length l1)) ds /\
    e = 4 * Z.of_nat (length l1 + length ds) /\ b <= 4 * Z.of_nat (length l1).

Definition pc_ok (h : handle) (hs : list group) (p : pc) : Prop :=
  match p with
  | Idle | LoadMax | Poll _ => True
  | Reserve rs => group_ok rs
  | Upto rs cur off | Refresh rs cur off | Recheck rs cur off => attempt_ok h rs cur off
  | StoreHw rs cur off v => attempt_ok h rs cur off /\ 0 <= v <= rptr h
  | Cas rs cur off => attempt_ok h rs cur off /\ cur + space_required rs + off - rptr h < SDMA_QUEUE_SIZE
  | Place b st e => claim_ok h hs b e /\ stores_ok hs b st e
  | Submit b e => claim_ok h hs b e
  | SetWptr b e => claim_ok h hs b e /\ b = committedWptr h
  | SetDoorbell b e | SetCommitted b e => claim_ok h hs b e /\ b = committedWptr h /\ wptr h = e
  | SetMax e => e <= committedWptr h
  end.

Record inv (h : handle) (ts : list pc) (hs : list group) : Prop := {
  i_hist : history_ok hs;
  i_len : cachedWptr h = 4 * Z.of_nat (length (stream hs));
  i_order : 0 <= cachedHwReadIndex h <= rptr h /\ rptr h <= wptr h <= cachedWptr h /\
    0 <= committedWptr h <= wptr h /\ boundary hs (committedWptr h) /\ boundary hs (wptr h);
  i_max : maxWritePtr h <= committedWptr h;
  i_room : cachedWptr h - rptr h < SDMA_QUEUE_SIZE;
  i_local : forall t p, ts !! t = Some p -> pc_ok h hs p;
  i_disjoint : forall t1 t2 p1 p2 b1 e1 b2 e2, ts !! t1 = Some p1 -> ts !! t2 = Some p2 -> t1 <> t2 ->
    claim p1 = Some (b1, e1) -> claim p2 = Some (b2, e2) -> e1 <= b2 \/ e2 <= b1;
  i_cover : forall x, committedWptr h <= x < cachedWptr h ->
    exists t p b e, ts !! t = Some p /\ claim p = Some (b, e) /\ b <= x < e;
  i_wptr : wptr h = committedWptr h \/ exists t p, ts !! t = Some p /\ published p;
  i_content : forall i d, stream hs !! i = Some d -> rptr h < 4 * Z.of_nat i + 4 ->
    (forall t p, ts !! t = Some p -> ~ unwritten p (Z.of_nat i)) ->
    queueBuf h (Z.of_nat i mod ring_dwords) = d
}.

Definition sinv (s : system) : Prop := inv (queue s) (threads s) (history s).

Lemma claim_ok_of h hs p b e : pc_ok h hs p -> claim p = Some (b, e) -> claim_ok h hs b e.
Proof. destruct p; cbn; intros; simplify_eq; naive_solver. Qed.

(** A thread that has not published lies behind the write index. *)
Lemma wptr_before h ts hs t p b e :
  inv h ts hs -> ts !! t = Some p -> claim p = Some (b, e) -> published p = false -> wptr h <= b.
Proof.
  intros Hi Ht Hc Hp. pose proof (claim_ok_of _ _ _ _ _ (i_local _ _ _ Hi _ _ Ht) Hc) as (Hb & _).
  destruct (i_wptr _ _ _ Hi) as [->|(t' & p' & Ht' & Hp')]; [lia|].
  assert (t <> t') by (intros ->; rewrite Ht in Ht'; simplify_eq; by rewrite Hp in Hp').
  pose proof (i_local _ _ _ Hi _ _ Ht') as Hl. pose proof (i_disjoint _ _ _ Hi) as Hd.
  destruct p'; try done; cbn in Hl; destruct Hl as (Hok & Hb' & ->);
    specialize (Hd _ _ _ _ _ _ _ _ Ht Ht' ltac:(done) Hc eq_refl); destruct Hok; lia.
Qed.

(** What the engine reads. *)
Lemma inv_reads h ts hs i d :
  inv h ts hs -> stream hs !! i = Some d -> rptr h <= 4 * Z.of_nat i < wptr h ->
  queueBuf h (Z.of_nat i mod ring_dwords) = d.
Proof.
  intros Hi Hd Hr. eapply i_content; eauto; [lia|]. intros t p Ht Hu.
  destruct p as [| | | | | | | b st e | | | | | | |]; try done. cbn in Hu.
  pose proof (wptr_before _ _ _ _ _ _ _ Hi Ht eq_refl eq_refl).
  pose proof (i_local _ _ _ Hi _ _ Ht) as (_ & l1 & ds & l2 & _ & -> & -> & Hb).
  rewrite length_ring_stores in Hu. lia.
Qed.

(** ** Preservation *)

(** A step of one thread that leaves its claim alone and changes at most
    variables that the other threads' facts do not mention, given the content
    of the ring after it. *)
Lemma inv_frame h h' ts hs t p p' :
  inv h ts hs -> ts !! t = Some p -> claim p' = claim p -> published p' = published p -> pc_ok h hs p' ->
  rptr h' = rptr h -> wptr h' = wptr h -> cachedWptr h' = cachedWptr h ->
  committedWptr h' = committedWptr h -> 0 <= cachedHwReadIndex h' <= rptr h -> maxWritePtr h' <= committedWptr h ->
  (forall i d, stream hs !! i = Some d -> rptr h < 4 * Z.of_nat i + 4 ->
    (forall u q, ts !! u = Some q -> u <> t -> ~ unwritten q (Z.of_nat i)) -> ~ unwritten p' (Z.of_nat i) ->
    queueBuf h' (Z.of_nat i mod ring_dwords) = d) ->
  inv h' (<[t := p']> ts) hs.
Proof.
  intros Hi Ht Hc Hp Hok Er Ew Ec Em Hhw Hmx Hcont.
  assert (Hpc : forall q, pc_ok h hs q -> pc_ok h' hs q).
  { intros q. destruct q; cbn; unfold attempt_ok, claim_ok; rewrite ?Er, ?Ew, ?Ec, ?Em; done. }
  assert (Hold : forall u q, <[t := p']> ts !! u = Some q -> exists q0, ts !! u = Some q0 /\
    claim q = claim q0 /\ published q = published q0).
  { intros u q [(-> & -> & _)|[Hne Hq]]%list_lookup_insert_Some; [by exists p | by exists q]. }
  assert (Hins : <[t := p']> ts !! t = Some p') by (apply list_lookup_insert_eq; eapply lookup_lt_Some; eauto).
  assert (Hnew : forall u q, ts !! u = Some q -> exists q0, <[t := p']> ts !! u = Some q0 /\
    claim q0 = claim q /\ published q0 = published q).
  { intros u q Hq. destruct (decide (u = t)) as [->|Hne]; [exists p'; by simplify_eq|].
    exists q. rewrite list_lookup_insert_ne by done. done. }
  destruct Hi as [Hh Hl Ho Hmax Hr Hlo Hd Hcv Hw Hco]. split; rewrite ?Er, ?Ew, ?Ec, ?Em; try done.
  - tauto.
  - intros u q [(-> & -> & _)|[Hne Hq]]%list_lookup_insert_Some; eauto.
  - intros t1 t2 p1 p2 b1 e1 b2 e2 (q1 & H1 & -> & _)%Hold (q2 & H2 & -> & _)%Hold. eauto.
  - intros x (u & q & b & e & Hq & Hcl & Hx)%Hcv. destruct (Hnew _ _ Hq) as (q0 & ? & Eq & _).
    exists u, q0, b, e. rewrite Eq. done.
  - destruct Hw as [Hw|(u & q & Hq & Hpb)]; [by left|right]. destruct (Hnew _ _ Hq) as (q0 & ? & _ & Eq).
    exists u, q0. rewrite Eq. done.
  - intros i d Hd' Hi Hun. eapply Hcont; eauto. intros u q Hq Hne. apply (Hun u). by rewrite list_lookup_insert_ne.
Qed.

(** The same without a change of the ring. *)
Lemma inv_local h h' ts hs t p p' :
  inv h ts hs -> ts !! t = Some p -> claim p' = claim p -> published p' = published p ->
  (forall i, unwritten p i -> unwritten p' i) -> pc_ok h hs p' ->
  queueBuf h' = queueBuf h -> rptr h' = rptr h -> wptr h' = wptr h -> cachedWptr h' = cachedWptr h ->
  committedWptr h' = committedWptr h -> 0 <= cachedHwReadIndex h' <= rptr h -> maxWritePtr h' <= committedWptr h ->
  inv h' (<[t := p']> ts) hs.
Proof.
  intros Hi Ht Hc Hp Hu Hok Eb Er Ew Ec Em Hhw Hmx. eapply inv_frame; eauto.
  intros i d Hd Hri Hun Hn. rewrite Eb. eapply i_content; eauto. intros u q Hq.
  destruct (decide (u = t)) as [->|Hne]; [simplify_eq; naive_solver | eauto].
Qed.

Lemma stream_app hs g : stream (hs ++ [g]) = stream hs ++ padded g.1.2 g.2.
Proof. unfold stream. rewrite fmap_app, concat_app. cbn. rewrite app_nil_r. done. Qed.

Lemma boundary_app hs g x : boundary hs x -> boundary (hs ++ [g]) x.
Proof. intros (pre & post & -> & ->). exists pre, (post ++ [g]). rewrite app_assoc. done. Qed.

Lemma boundary_end hs : boundary hs (4 * Z.of_nat (length (stream hs))).
Proof. exists hs, []. rewrite app_nil_r. done. Qed.

Lemma history_ok_app hs g :
  history_ok hs -> group_at g (4 * Z.of_nat (length (stream hs))) -> history_ok (hs ++ [g]).
Proof.
  intros Hh Hg pre g' post Heq. destruct post as [|x post _] using rev_ind.
  - apply app_inj_tail in Heq as [-> ->]. done.
  - rewrite app_comm_cons, app_assoc in Heq. apply app_inj_tail in Heq as [-> _]. eauto.
Qed.

(** A longer stream and a larger reservation index keep the facts of a thread. *)
Lemma pc_ok_grow h hs g w p :
  cachedWptr h <= w -> pc_ok h hs p -> pc_ok (set_cachedWptr h w) (hs ++ [g]) p.
Proof.
  intros Hw. destruct p; cbn; unfold attempt_ok, claim_ok, stores_ok; cbn; rewrite ?stream_app;
    try (intuition (eauto using boundary_app; lia)).
  intros ((H1 & H2 & H3 & H4) & l1 & ds & l2 & -> & Hst). split; [intuition (eauto using boundary_app; lia)|].
  exists l1, ds, (l2 ++ padded g.1.2 g.2). rewrite <- !app_assoc. done.
Qed.

(** A thread without a claim appends a group to the stream. *)
Lemma inv_append h ts hs t p off rs w :
  inv h ts hs -> ts !! t = Some p -> claim p = None ->
  group_at (cachedWptr h, off, rs) (cachedWptr h) ->
  w = cachedWptr h + 4 * Z.of_nat (length (padded off rs)) -> cachedWptr h < w < rptr h + SDMA_QUEUE_SIZE ->
  inv (set_cachedWptr h w)
    (<[t := Place (cachedWptr h) (ring_stores (Z.of_nat (length (stream hs))) (padded off rs)) w]> ts)
    (hs ++ [(cachedWptr h, off, rs)]).
Proof.
  intros Hi Ht Hnc Hg Hw Hr. set (cur := cachedWptr h) in *. set (k := Z.of_nat (length (stream hs))).
  set (np := Place cur (ring_stores k (padded off rs)) w).
  assert (Hk : cur = 4 * k) by apply (i_len _ _ _ Hi).
  assert (Hins : <[t := np]> ts !! t = Some np) by (apply list_lookup_insert_eq; eapply lookup_lt_Some; eauto).
  assert (Hother : forall u q, ts !! u = Some q -> u <> t -> <[t := np]> ts !! u = Some q).
  { intros u q Hq Hu. rewrite list_lookup_insert_ne; done. }
  assert (Hcl : forall u q b e, ts !! u = Some q -> claim q = Some (b, e) -> e <= cur).
  { intros u q b e Hq Hc. apply (claim_ok_of _ _ _ _ _ (i_local _ _ _ Hi _ _ Hq) Hc). }
  assert (Hdiff : forall u q, ts !! u = Some q -> claim q <> None -> u <> t).
  { intros u q Hq Hc ->. rewrite Ht in Hq. by simplify_eq. }
  pose proof Hi as [Hh _ Hor Hmax Hrm Hlo Hd Hcv Hwp Hco].
  split; cbn [cachedWptr committedWptr rptr wptr queueBuf cachedHwReadIndex maxWritePtr set_cachedWptr]; try lia.
  - apply history_ok_app; [done|]. fold k. rewrite <- Hk. done.
  - rewrite stream_app, length_app. cbn. fold k. lia.
  - intuition (eauto using boundary_app; lia).
  - intros u q [(-> & <- & _)|[Hne Hq]]%list_lookup_insert_Some.
    + split; [repeat split; cbn; try lia|].
      * rewrite Hk. apply boundary_app, boundary_end.
      * replace w with (4 * Z.of_nat (length (stream (hs ++ [(cur, off, rs)])))); [apply boundary_end|].
        rewrite stream_app, length_app. cbn. lia.
      * exists (stream hs), (padded off rs), []. rewrite stream_app, app_nil_r. cbn. repeat split; lia.
    + apply pc_ok_grow; [lia | eauto].
  - intros t1 t2 p1 p2 b1 e1 b2 e2 H1 H2 Hne C1 C2.
    apply list_lookup_insert_Some in H1 as [(<- & <- & _)|[Hn1 H1]];
    apply list_lookup_insert_Some in H2 as [(<- & <- & _)|[Hn2 H2]]; try done; cbn in *; simplify_eq; eauto.
  - intros x Hx. destruct (decide (x < cur)) as [Hlt|Hge].
    + destruct (Hcv x ltac:(lia)) as (u & q & b & e' & Hq & Hc & Hx'). exists u, q, b, e'.
      split; [|done]. apply Hother; [done|]. eapply Hdiff; eauto. congruence.
    + exists t, np, cur, w. repeat split; done || lia.
  - destruct Hwp as [Hwp|(u & q & Hq & Hpb)]; [by left|right]. exists u, q. split; [|done].
    apply Hother; [done|]. eapply Hdiff; eauto. by destruct q.
  - intros i d Hd' Hri Hun.
    assert (Hik : (i < length (stream hs))%nat).
    { apply Nat.nle_gt. intros Hge. apply lookup_lt_Some in Hd' as Hlt'. rewrite stream_app, length_app in Hlt'.
      apply (Hun t np); [done|]. cbn in *. rewrite length_ring_stores. lia. }
    rewrite stream_app, lookup_app_l in Hd' by done. eapply Hco; eauto. intros u q Hq Hu.
    eapply (Hun u q), Hu. apply Hother; [done|]. eapply Hdiff; eauto. by destruct q.
Qed.

(** A successful compare-and-swap reserves the group at the end of the stream. *)
Lemma inv_cas h ts hs t rs off :
  let cur := cachedWptr h in let e := u64 (cur + space_required rs + off) in
  inv h ts hs -> ts !! t = Some (Cas rs cur off) -> cur < 2 ^ 63 ->
  exists st : list (Z * Z), placePackets rs cur off = (st, e) /\
    inv (set_cachedWptr h e) (<[t := Place cur st e]> ts) (hs ++ [(cur, off, rs)]).
Proof.
  intros cur e Hi Ht Hb. pose proof (i_local _ _ _ Hi _ _ Ht) as ((Hok & _ & Hc & Ho) & Hroom).
  pose proof (i_len _ _ _ Hi) as Hlen. set (k := Z.of_nat (length (stream hs))) in *. fold cur in Hlen.
  destruct (pad_for_spec k rs Hok) as (j & Hp & Hj & _). pose proof Hok as [Hs0 Hs1].
  assert (Ho' : off = 4 * j) by (rewrite Ho, Hlen; done).
  assert (He : e = cur + space_required rs + off) by (apply wrap_small; lia).
  assert (Hplen : 4 * Z.of_nat (length (padded off rs)) = off + space_required rs).
  { apply length_padded; [lia|]. exists j. lia. }
  exists (ring_stores k (padded off rs)). split.
  - rewrite He, Hlen. apply placePackets_padded; try done; try lia.
  - apply (inv_append _ _ _ _ _ _ _ _ Hi Ht); try done; fold cur; lia.
Qed.

(** Two live dwords of the stream share no cell of the ring. *)
Lemma live_cells h ts hs i j :
  inv h ts hs -> (i < length (stream hs))%nat -> (j < length (stream hs))%nat ->
  rptr h < 4 * Z.of_nat i + 4 -> rptr h < 4 * Z.of_nat j + 4 ->
  Z.of_nat i mod ring_dwords = Z.of_nat j mod ring_dwords -> i = j.
Proof.
  intros Hi Hil Hjl Hri Hrj Hm. pose proof (i_len _ _ _ Hi). pose proof (i_room _ _ _ Hi) as Hr.
  change SDMA_QUEUE_SIZE with (4 * 2 ^ 18) in Hr. change ring_dwords with (2 ^ 18) in Hm.
  apply (wrap_inj_window 18) in Hm; lia.
Qed.

(** A store of one dword of a claimed group. *)
Lemma inv_store h ts hs t b c d st e :
  inv h ts hs -> ts !! t = Some (Place b ((c, d) :: st) e) ->
  inv (set_dword h c d) (<[t := Place b st e]> ts) hs.
Proof.
  intros Hi Ht. pose proof (i_local _ _ _ Hi _ _ Ht) as (Hcl & l1 & ds & l2 & Hs & Hst & He & Hb).
  pose proof (wptr_before _ _ _ _ _ _ _ Hi Ht eq_refl eq_refl) as Hwb. pose proof (i_order _ _ _ Hi) as Ho.
  destruct ds as [|d' ds]; [done|]. rewrite ring_stores_cons in Hst. injection Hst as -> -> ->. cbn [app] in Hs.
  assert (Hk : stream hs !! length l1 = Some d') by (rewrite Hs, list_lookup_middle; done).
  eapply inv_frame; eauto; try done.
  - split; [done|]. exists (l1 ++ [d']), ds, l2. rewrite <- app_assoc, length_app. cbn in *.
    repeat split; try done; try lia. f_equal. lia.
  - cbn. lia.
  - apply Hi.
  - intros i d Hd Hri Hun Hn. cbn. unfold upd.
    apply lookup_lt_Some in Hk as Hkl. apply lookup_lt_Some in Hd as Hil. case_if.
    + assert (i = length l1) as ->; [|by simplify_eq]. apply (live_cells _ _ _ _ _ Hi); lia.
    + eapply i_content; eauto. intros u q Hq. destruct (decide (u = t)) as [->|Hne]; [|eauto].
      simplify_eq. cbn in *. rewrite length_ring_stores in *. intros Hu.
      assert (i = length l1) as -> by lia. lia.
Qed.

(** Threads with claims that start at the same index are the same thread. *)
Lemma claim_unique h ts hs t t' p p' b e e' :
  inv h ts hs -> ts !! t = Some p -> ts !! t' = Some p' -> claim p = Some (b, e) -> claim p' = Some (b, e') -> t = t'.
Proof.
  intros Hi Ht Ht' Hc Hc'. destruct (decide (t = t')) as [|Hne]; [done|].
  pose proof (claim_ok_of _ _ _ _ _ (i_local _ _ _ Hi _ _ Ht) Hc) as (? & _).
  pose proof (claim_ok_of _ _ _ _ _ (i_local _ _ _ Hi _ _ Ht') Hc') as (? & _).
  destruct (i_disjoint _ _ _ Hi _ _ _ _ _ _ _ _ Ht Ht' Hne Hc Hc'); lia.
Qed.

(** A published thread is the one with the oldest claim. *)
Lemma published_base h hs p : pc_ok h hs p -> published p = true -> exists e, claim p = Some (committedWptr h, e).
Proof. destruct p; try done; cbn; intros (_ & -> & _) _; eauto. Qed.

(** The oldest claim is published. *)
Lemma inv_wptr h ts hs t b e :
  inv h ts hs -> ts !! t = Some (SetWptr b e) -> inv (set_wptr h e) (<[t := SetDoorbell b e]> ts) hs.
Proof.
  intros Hi Ht. pose proof (i_local _ _ _ Hi _ _ Ht) as ((Hb & He & Hb4 & He4) & ->).
  pose proof (wptr_before _ _ _ _ _ _ _ Hi Ht eq_refl eq_refl) as Hwb.
  assert (Hins : forall q, <[t := q]> ts !! t = Some q).
  { intros q. apply list_lookup_insert_eq. eapply lookup_lt_Some; eauto. }
  assert (Hnp : forall u q, ts !! u = Some q -> u <> t -> published q = false).
  { intros u q Hq Hne. destruct (published q) eqn:E; [|done].
    destruct (published_base _ _ _ (i_local _ _ _ Hi _ _ Hq) E) as [e' Hc].
    destruct Hne. eapply claim_unique; eauto. }
  pose proof Hi as [Hh Hl Ho Hmax Hr Hlo Hd Hcv Hw Hco]. split; try done; cbn.
  - intuition lia.
  - intros u q [(-> & <- & _)|[Hne Hq]]%list_lookup_insert_Some; [done|].
    specialize (Hlo _ _ Hq). specialize (Hnp _ _ Hq ltac:(done)). by destruct q.
  - intros t1 t2 p1 p2 b1 e1 b2 e2 H1 H2 Hne C1 C2.
    apply list_lookup_insert_Some in H1 as [(<- & <- & _)|[Hn1 H1]];
    apply list_lookup_insert_Some in H2 as [(<- & <- & _)|[Hn2 H2]]; try done; cbn in *; eauto.
  - intros x (u & q & b & e' & Hq & Hc & Hx)%Hcv. destruct (decide (u = t)) as [->|Hne].
    + simplify_eq. cbn in Hc. simplify_eq. eexists t, _, _, _. rewrite Hins. done.
    + exists u, q, b, e'. rewrite list_lookup_insert_ne by done. done.
  - right. eexists t, _. rewrite Hins. done.
  - intros i d Hd' Hri Hun. eapply Hco; eauto. intros u q Hq. destruct (decide (u = t)) as [->|Hne].
    + simplify_eq. by intros [].
    + apply (Hun u). rewrite list_lookup_insert_ne by done. done.
Qed.

(** The oldest claim is committed. *)
Lemma inv_committed h ts hs t b e :
  inv h ts hs -> ts !! t = Some (SetCommitted b e) -> inv (set_committed h e) (<[t := SetMax e]> ts) hs.
Proof.
  intros Hi Ht. pose proof (i_local _ _ _ Hi _ _ Ht) as ((Hb & He & Hb4 & He4) & -> & Hwe).
  assert (Hother : forall u q, ts !! u = Some q -> u <> t -> forall b' e', claim q = Some (b', e') -> e <= b').
  { intros u q Hq Hne b' e' Hc. pose proof (claim_ok_of _ _ _ _ _ (i_local _ _ _ Hi _ _ Hq) Hc) as (? & _).
    destruct (i_disjoint _ _ _ Hi _ _ _ _ _ _ _ _ Hq Ht Hne Hc eq_refl); lia. }
  pose proof Hi as [Hh Hl Ho Hmax Hr Hlo Hd Hcv Hw Hco]. split; try done; cbn.
  - intuition lia.
  - lia.
  - intros u q [(-> & <- & _)|[Hne Hq]]%list_lookup_insert_Some; [cbn; lia|].
    specialize (Hlo _ _ Hq). specialize (Hother _ _ Hq ltac:(done)).
    destruct q; cbn in *; unfold claim_ok in *; cbn; try done;
      try (specialize (Hother _ _ eq_refl)); intuition lia.
  - intros t1 t2 p1 p2 b1 e1 b2 e2 H1 H2 Hne C1 C2.
    apply list_lookup_insert_Some in H1 as [(<- & <- & _)|[Hn1 H1]];
    apply list_lookup_insert_Some in H2 as [(<- & <- & _)|[Hn2 H2]]; try done; eauto.
  - intros x Hx. destruct (Hcv x ltac:(lia)) as (u & q & b & e' & Hq & Hc & Hx').
    exists u, q, b, e'. rewrite list_lookup_insert_ne; [done|]. intros ->. simplify_eq. cbn in Hc. simplify_eq. lia.
  - by left.
  - intros i d Hd' Hri Hun. eapply Hco; eauto. intros u q Hq. destruct (decide (u = t)) as [->|Hne].
    + simplify_eq. by intros [].
    + apply (Hun u). rewrite list_lookup_insert_ne by done. done.
Qed.

(** The engine reads on. *)
Lemma inv_engine h ts hs r : inv h ts hs -> rptr h <= r <= wptr h -> inv (set_rptr h r) ts hs.
Proof.
  intros [Hh Hl Ho Hmax Hr Hlo Hd Hcv Hw Hco] Hrr. split; try done; cbn.
  - intuition lia.
  - lia.
  - intros t p Ht. specialize (Hlo _ _ Ht). destruct p; cbn in *; unfold attempt_ok in *; cbn; intuition lia.
  - intros i d Hd' Hri. eapply Hco; eauto. lia.
Qed.

(** The test on the cached read index is sound: the index it admits is less
    than a ring ahead of the engine, also for a stale reservation index. *)
Lemma can_write_sound h rs cur off :
  attempt_ok h rs cur off -> cachedWptr h < 2 ^ 63 -> 0 <= cachedHwReadIndex h <= rptr h -> rptr h <= cachedWptr h ->
  can_write (cachedHwReadIndex h) (u64 (cur + space_required rs + off)) = true ->
  cur + space_required rs + off - rptr h < SDMA_QUEUE_SIZE.
Proof.
  unfold can_write. intros (Hok & [k Hk] & Hc & Ho) Hb Hhw Hr Hw%Z.ltb_lt.
  replace cur with (4 * k) in Ho by lia. destruct (pad_for_spec k rs Hok) as (j & Hp & Hj & _). destruct Hok as [Hs0 Hs1].
  rewrite Hp in Ho. rewrite (wrap_small 64 (cur + _ + _)) in Hw by lia.
  set (n := cur + space_required rs + off) in *. change SDMA_QUEUE_SIZE with 1048576 in *.
  destruct (decide (cachedHwReadIndex h <= n)).
  - rewrite wrap_small in Hw by lia. lia.
  - unfold wrap in Hw. rewrite <- (Z_mod_plus_full _ 1), Z.mod_small in Hw by lia. lia.
Qed.

Lemma attempt_fresh h ts hs rs : inv h ts hs -> group_ok rs -> attempt_ok h rs (cachedWptr h) (pad_for (cachedWptr h) (space_required rs)).
Proof.
  intros Hi Hok. pose proof (i_len _ _ _ Hi) as Hl. repeat split; try apply Hok; try lia.
  exists (Z.of_nat (length (stream hs))). lia.
Qed.

Lemma exec_reserve_inv s t p :
  sinv s -> threads s !! t = Some p -> cachedWptr (queue s) < 2 ^ 63 -> sinv (exec_reserve s t p).
Proof.
  intros Hi Ht Hb. pose proof (i_local _ _ _ Hi _ _ Ht) as Hp. pose proof (i_order _ _ _ Hi) as Ho.
  pose proof (i_max _ _ _ Hi) as Hmx.
  assert (Hlocal : forall p', claim p = None -> published p = false -> (forall i, ~ unwritten p i) ->
    claim p' = None -> published p' = false -> pc_ok (queue s) (history s) p' -> sinv (goto s t p')).
  { intros p' E1 E2 E3 E1' E2' Hok. eapply (inv_local _ _ _ _ _ _ _ Hi Ht); try done; try congruence; [|apply Ho].
    intros i Hu. by destruct (E3 i). }
  unfold exec_reserve. destruct p as [|rs|rs cur off|rs cur off|rs cur off v|rs cur off|rs cur off| | | | | | | |]; try done.
  - apply Hlocal; try done; try (by intros ? []). by apply (attempt_fresh _ _ _ _ Hi).
  - case_if; apply Hlocal; try done; try (by intros ? []). split; [done|]. eapply can_write_sound; eauto; lia.
  - apply Hlocal; try done; try (by intros ? []). split; [done|]. lia.
  - destruct Hp as [Hp Hv]. eapply inv_local; eauto; done.
  - case_if; apply Hlocal; try done; try (by intros ? []); [|apply Hp]. split; [done|]. eapply can_write_sound; eauto; lia.
  - case_if; [|apply Hlocal; try done; [by intros ? []|apply Hp]]. apply Z.eqb_eq in E as <-.
    destruct (inv_cas _ _ _ _ _ _ Hi Ht Hb) as (st & -> & Hn). exact Hn.
Qed.

Lemma exec_submit_inv s t p :
  sinv s -> threads s !! t = Some p -> sinv (exec_submit s t p).
Proof.
  intros Hi Ht. pose proof (i_local _ _ _ Hi _ _ Ht) as Hp. pose proof (i_order _ _ _ Hi) as Ho.
  pose proof (i_max _ _ _ Hi) as Hmx.
  unfold exec_submit. destruct p as [| | | | | | |b [|[c d] st] e|b e|b e|b e|b e|e| |target]; try done;
    cbn in Hp.
  - eapply inv_local; eauto; try done; cbn; [lia|tauto|lia].
  - by eapply inv_store.
  - case_if; [|done]. eapply inv_local; eauto; try done; cbn; [split; [done|]|]; lia.
  - by eapply inv_wptr.
  - eapply inv_local; eauto; try done; cbn; lia.
  - by eapply inv_committed.
  - eapply inv_local; eauto; try done; cbn; lia.
  - eapply inv_local; eauto; try done; cbn; lia.
  - case_if; [done|]. eapply inv_local; eauto; try done; cbn; lia.
Qed.

Lemma sdma_exec_inv s l s' : sinv s -> cachedWptr (queue s) < 2 ^ 63 -> exec s l = Some s' -> sinv s'.
Proof.
  intros Hi Hb. destruct l as [t c|t|r]; cbn.
  - destruct (threads s !! t) as [[]|] eqn:Ht; try done. intros [= <-].
    pose proof (call_packets_ok c). pose proof (i_order _ _ _ Hi). pose proof (i_max _ _ _ Hi).
    eapply inv_local; eauto; destruct c; try done; cbn; lia.
  - destruct (threads s !! t) as [p|] eqn:Ht; [|done]. intros Hs.
    assert (Hs' : s' = exec_thread s t p) by (destruct p; by simplify_eq). subst s'.
    unfold exec_thread. destruct p; eauto using exec_reserve_inv, exec_submit_inv.
  - case_if; [|done]. intros [= <-]. apply inv_engine; [done|lia].
Qed.

Lemma init_inv n : sinv (init n).
Proof.
  split; cbn; try lia; try done.
  - intros [|? ?] ? ? ?; done.
  - repeat split; try lia; by exists [], [].
  - intros t p [-> _]%lookup_replicate. done.
  - intros t1 t2 p1 p2 b1 e1 b2 e2 [-> _]%lookup_replicate. done.
Qed.

(** The history only grows. *)
Lemma exec_history s l s' : exec s l = Some s' -> exists hs, history s' = history s ++ hs.
Proof.
  intros H. assert (history s' = history s \/ exists g, history s' = history s ++ [g]) as [->|[g ->]];
    [|by exists []; rewrite app_nil_r | by exists [g]].
  destruct l as [t c|t|r]; cbn in H.
  - destruct (threads s !! t) as [[]|]; naive_solver.
  - destruct (threads s !! t) as [p|]; [|done]. destruct p as [| | | | | | |b [|[c d] st] e| | | | | | |];
      cbn in H; repeat case_if_in H; try destruct (placePackets _ _ _); simplify_eq; eauto.
  - case_if_in H; naive_solver.
Qed.

(** The bytes reserved so far. *)
Definition reserved (s : system) : Z := 4 * Z.of_nat (length (stream (history s))).

Lemma step_reserved s s' : step s s' -> reserved s <= reserved s'.
Proof.
  intros [l [hs Hh]%exec_history]. unfold reserved. rewrite Hh. unfold stream.
  rewrite fmap_app, concat_app, length_app. lia.
Qed.

Lemma rtc_reserved s s' : rtc step s s' -> reserved s <= reserved s'.
Proof. induction 1 as [|x y z Hxy _ IH]; [done|]. pose proof (step_reserved _ _ Hxy). lia. Qed.

(** No step creates or ends a thread. *)
Lemma step_threads s s' : step s s' -> length (threads s') = length (threads s).
Proof.
  intros [l H]. destruct l as [t c|t|r]; cbn in H.
  - destruct (threads s !! t) as [[]|]; try done. injection H as <-. apply length_insert.
  - destruct (threads s !! t) as [p|]; [|done]. destruct p as [| | | | | | |b [|[c d] st] e| | | | | | |];
      cbn in H; repeat case_if_in H; try destruct (placePackets _ _ _); simplify_eq; cbn; rewrite ?length_insert; done.
  - case_if_in H; naive_solver.
Qed.

Lemma rtc_inv s s' : sinv s -> rtc step s s' -> reserved s' < 2 ^ 63 -> sinv s'.
Proof.
  intros Hi Hr. refine (rtc_invariant step (fun s => reserved s < 2 ^ 63 -> sinv s) _ _ _ Hr _).
  - intros x y IH Hxy Hb. pose proof (step_reserved _ _ Hxy). destruct Hxy as [l Hl].
    specialize (IH ltac:(lia)). eapply sdma_exec_inv; eauto. rewrite (i_len _ _ _ IH). unfold reserved in *. lia.
  - done.
Qed.

(** Every reachable state in which fewer than [2^63] bytes have been reserved
    satisfies the invariant. *)
Lemma sdma_reachable_inv n s : rtc step (init n) s -> reserved s < 2 ^ 63 -> sinv s.
Proof. apply rtc_inv, init_inv. Qed.

(** ** What the engine executes *)

(** The commands of the groups, in order. *)
Definition commands (hs : list group) : list command := concat ((fun g : group => meaning <$> g.2) <$> hs).

Lemma history_groups hs : history_ok hs -> Forall (fun g => exists k, group_at g (4 * k)) hs.
Proof.
  intros Hh. apply Forall_forall. intros g (pre & post & ->)%list_elem_of_split.
  eexists. by apply (Hh pre g post).
Qed.

Lemma length_group rs : (4 * length rs <= length (group_dwords rs))%nat.
Proof.
  unfold group_dwords. induction rs as [|r rs IH]; [done|]. cbn [fmap list_fmap concat length].
  rewrite length_app. destruct r; cbn in *; lia.
Qed.

(** The stream reads as the commands of its groups. *)
Lemma decode_stream hs :
  history_ok hs -> decode (length (stream hs)) (stream hs) = Some (commands hs).
Proof.
  intros Hh%history_groups. induction Hh as [|[[b off] rs] hs [k Hg] Hh IH]; [done|].
  destruct Hg as (_ & Hoff & Hok). cbn in Hoff, Hok. destruct (pad_for_spec k rs Hok) as (j & Hp & Hj & _).
  pose proof (length_group rs). pose proof (group_ok_nonempty _ Hok). destruct Hok as [_ Hs1].
  unfold stream, commands. cbn [fmap list_fmap concat fst snd]. fold (stream hs) (commands hs).
  assert (Hj4 : off / 4 = j) by (rewrite Hoff, Hp, Z.mul_comm, Z.div_mul; lia).
  pose proof (decode_group (Z.to_nat (off / 4)) rs _ _ _ ltac:(lia) IH) as Hd.
  unfold padded. rewrite <- app_assoc, !length_app, length_nop_padding.
  assert (length rs <> 0%nat) by (by destruct rs).
  replace (_ + _)%nat with (length (stream hs) + S (length rs) +
    (Z.to_nat (off / 4) + length (group_dwords rs) - S (length rs)))%nat by lia.
  apply decode_fuel, Hd.
Qed.

Lemma history_ok_prefix pre post : history_ok (pre ++ post) -> history_ok pre.
Proof. intros H p g q ->. apply (H p g (q ++ post)). rewrite <- app_assoc. done. Qed.

Lemma sdma_run_rtc s ls s' : run s ls = Some s' -> rtc step s s'.
Proof.
  revert s. induction ls as [|l ls IH]; intros s; cbn; [intros [= ->]; constructor|].
  destruct (exec s l) eqn:E; [|done]. intros H. econstructor; [by exists l | by apply IH].
Qed.

(** C5: In every state that any number of threads reach through any
    interleaving of their loads, stores and compare-and-swaps with the engine
    (as long as fewer than 2^63 bytes have been submitted), the write index that
    the engine sees lies between two groups of packets; every dword between its
    read index and the write index is the dword of the submitted groups in the
    order of their reservations, so none is missing, partly written or
    overwritten; these dwords, padding included, decode to exactly the commands
    of the calls; and no group crosses the end of the ring. *)
Theorem sdma_stream n s :
  rtc step (init n) s -> reserved s < 2 ^ 63 ->
  exists pre post, history s = pre ++ post /\ wptr (queue s) = 4 * Z.of_nat (length (stream pre)) /\
    decode (length (stream pre)) (stream pre) = Some (commands pre) /\
    (forall i d, stream pre !! i = Some d -> rptr (queue s) <= 4 * Z.of_nat i ->
      queueBuf (queue s) (Z.of_nat i mod ring_dwords) = d) /\
    Forall (fun g => WrapIntoRing (g.1.1 + g.1.2) + space_required g.2 <= SDMA_QUEUE_SIZE) (history s) /\
    reserved s - rptr (queue s) < SDMA_QUEUE_SIZE.
Proof.
  intros Hr Hb. pose proof (sdma_reachable_inv _ _ Hr Hb) as Hi.
  destruct (i_order _ _ _ Hi) as (_ & _ & _ & _ & pre & post & Hh & Hw).
  exists pre, post. split; [done|]. split; [done|]. split; [|split; [|split]].
  - apply decode_stream. eapply history_ok_prefix. rewrite <- Hh. apply Hi.
  - intros i d Hd Hri. apply lookup_lt_Some in Hd as Hl. eapply inv_reads; eauto; [|lia].
    rewrite Hh. unfold stream. rewrite fmap_app, concat_app. by apply lookup_app_l_Some.
  - eapply Forall_impl; [apply history_groups, Hi|]. intros [[b off] rs] (k & -> & -> & Hok). cbn.
    destruct (pad_for_spec k rs Hok) as (j & -> & _ & Hfit & _).
    replace (4 * k + 4 * j) with (4 * (k + j)) by lia. done.
  - unfold reserved. rewrite <- (i_len _ _ _ Hi). apply Hi.
Qed.

(** Two threads submit a copy and a copy with a signal; the first to reserve is
    the last to write, and the second still waits to submit. *)
Definition sdma_demo_steps : list label :=
  [Call 0 (put 4096 8192 256); Call 1 (putSignal 65536 69632 1024 128)] ++
  [Thread 0; Thread 0; Thread 0] ++ replicate 20 (Thread 1) ++ replicate 13 (Thread 0) ++ [Engine 12].

Lemma sdma_demo_run : exists s, run (init 2) sdma_demo_steps = Some s /\ reserved s = 88 /\ rptr (queue s) = 12 /\
  threads s = [Idle; Submit 28 88].
Proof. eexists. split; [|repeat split]; [vm_compute; reflexivity | vm_compute; reflexivity..]. Qed.

Lemma sdma_stream_witness : exists s, rtc step (init 2) s /\ reserved s < 2 ^ 63 /\ rptr (queue s) = 12 /\
  exists pre post, history s = pre ++ post /\ wptr (queue s) = 4 * Z.of_nat (length (stream pre)) /\
    decode (length (stream pre)) (stream pre) = Some (commands pre) /\
    (forall i d, stream pre !! i = Some d -> rptr (queue s) <= 4 * Z.of_nat i ->
      queueBuf (queue s) (Z.of_nat i mod ring_dwords) = d) /\
    Forall (fun g => WrapIntoRing (g.1.1 + g.1.2) + space_required g.2 <= SDMA_QUEUE_SIZE) (history s) /\
    reserved s - rptr (queue s) < SDMA_QUEUE_SIZE.
Proof.
  destruct sdma_demo_run as (s & Hr & Hb & Hp & _). exists s. apply sdma_run_rtc in Hr.
  split; [done|]. split; [lia|]. split; [done|]. apply (sdma_stream 2 s); [done|lia].
Defined.

(** ** Every thread can finish *)

Lemma thread_step s t p : threads s !! t = Some p -> p <> Idle -> step s (exec_thread s t p).
Proof. intros Ht Hp. exists (Thread t). cbn. rewrite Ht. destruct p; done. Qed.

(** Thread [t] gets to [q] alone, without a reservation and without the engine. *)
Definition moves (s : system) (t : nat) (q : pc) (s' : system) : Prop :=
  rtc step s s' /\ threads s' = <[t := q]> (threads s) /\ history s' = history s /\
  rptr (queue s') = rptr (queue s) /\ cachedWptr (queue s') = cachedWptr (queue s).

Lemma moves_refl s t p : threads s !! t = Some p -> moves s t p s.
Proof. intros Ht. repeat split; try done. symmetry. by apply list_insert_id. Qed.

Lemma moves_lookup s t p q s' : threads s !! t = Some p -> moves s t q s' -> threads s' !! t = Some q.
Proof. intros Ht (_ & -> & _). apply list_lookup_insert_eq. eapply lookup_lt_Some; eauto. Qed.

Lemma moves_trans s t q s1 q' s2 : moves s t q s1 -> moves s1 t q' s2 -> moves s t q' s2.
Proof.
  intros (R1 & T1 & H1 & P1 & C1) (R2 & T2 & H2 & P2 & C2). split; [by etrans|].
  rewrite T2, T1, list_insert_insert_eq. repeat split; congruence.
Qed.

Lemma moves_one s t p q :
  threads s !! t = Some p -> p <> Idle -> threads (exec_thread s t p) = <[t := q]> (threads s) ->
  history (exec_thread s t p) = history s -> rptr (queue (exec_thread s t p)) = rptr (queue s) ->
  cachedWptr (queue (exec_thread s t p)) = cachedWptr (queue s) -> moves s t q (exec_thread s t p).
Proof. intros Ht Hp. repeat split; try done. by apply rtc_once, thread_step. Qed.

(** The stores of a group. *)
Lemma moves_place st s t b e :
  threads s !! t = Some (Place b st e) ->
  exists s', moves s t (Submit b e) s' /\ committedWptr (queue s') = committedWptr (queue s).
Proof.
  revert s. induction st as [|[c d] st IH]; intros s Ht.
  { eexists. split; [by apply (moves_one _ _ _ _ Ht)|]. done. }
  assert (Hm : moves s t (Place b st e) (exec_thread s t (Place b ((c, d) :: st) e))) by by apply (moves_one _ _ _ _ Ht).
  destruct (IH _ (moves_lookup _ _ _ _ _ Ht Hm)) as (s' & Hm' & Hc).
  exists s'. split; [by eapply moves_trans | done].
Qed.

(** The claim at the committed index gets to the store of that index. *)
Lemma moves_publish s t p e :
  threads s !! t = Some p -> claim p = Some (committedWptr (queue s), e) ->
  exists s', moves s t (SetCommitted (committedWptr (queue s)) e) s'.
Proof.
  set (b := committedWptr (queue s)).
  assert (G4 : forall s, threads s !! t = Some (SetDoorbell b e) -> exists s', moves s t (SetCommitted b e) s').
  { intros s0 H0. eexists. by apply (moves_one _ _ _ _ H0). }
  assert (G3 : forall s, threads s !! t = Some (SetWptr b e) -> exists s', moves s t (SetCommitted b e) s').
  { intros s0 H0. assert (Hm : moves s0 t (SetDoorbell b e) (exec_thread s0 t (SetWptr b e))) by by apply (moves_one _ _ _ _ H0).
    destruct (G4 _ (moves_lookup _ _ _ _ _ H0 Hm)) as [s' Hm']. eauto using moves_trans. }
  assert (G2 : forall s, threads s !! t = Some (Submit b e) -> committedWptr (queue s) = b ->
    exists s', moves s t (SetCommitted b e) s').
  { intros s0 H0 Hb. assert (Hm : moves s0 t (SetWptr b e) (exec_thread s0 t (Submit b e))).
    { apply (moves_one _ _ _ _ H0); try done; cbn; rewrite Hb, Z.eqb_refl; done. }
    destruct (G3 _ (moves_lookup _ _ _ _ _ H0 Hm)) as [s' Hm']. eauto using moves_trans. }
  intros Ht Hc. destruct p as [| | | | | | |b' st e'| | | | | | |]; try done; cbn in Hc; simplify_eq; eauto using moves_refl.
  destruct (moves_place _ _ _ _ _ Ht) as (s1 & Hm & Hcm).
  destruct (G2 _ (moves_lookup _ _ _ _ _ Ht Hm) Hcm) as [s' Hm']. eauto using moves_trans.
Qed.

Lemma moves_commit s t p e :
  threads s !! t = Some p -> claim p = Some (committedWptr (queue s), e) ->
  exists s', moves s t Idle s' /\ committedWptr (queue s') = e.
Proof.
  intros Ht Hc. destruct (moves_publish _ _ _ _ Ht Hc) as [s1 Hm]. set (b := committedWptr (queue s)) in *.
  pose proof (moves_lookup _ _ _ _ _ Ht Hm) as H1.
  assert (Hm1 : moves s1 t (SetMax e) (exec_thread s1 t (SetCommitted b e))) by by apply (moves_one _ _ _ _ H1).
  pose proof (moves_lookup _ _ _ _ _ H1 Hm1) as H2.
  assert (Hm2 : moves (exec_thread s1 t (SetCommitted b e)) t Idle (exec_thread (exec_thread s1 t (SetCommitted b e)) t (SetMax e)))
    by by apply (moves_one _ _ _ _ H2).
  eexists. split; [eapply moves_trans, moves_trans; [exact Hm | exact Hm1 | exact Hm2] | done].
Qed.

(** No thread holds a claim. *)
Definition unclaimed (s : system) : Prop := forall t p, threads s !! t = Some p -> claim p = None.

Lemma unclaimed_all s : sinv s -> committedWptr (queue s) = cachedWptr (queue s) -> unclaimed s.
Proof.
  intros Hi He t p Ht. destruct (claim p) as [[b e]|] eqn:Hc; [|done].
  pose proof (claim_ok_of _ _ _ _ _ (i_local _ _ _ Hi _ _ Ht) Hc) as (? & ? & _). lia.
Qed.

(** Threads keep their place or have come back to the caller. *)
Definition returned (s s' : system) : Prop :=
  length (threads s') = length (threads s) /\
  forall t p, threads s' !! t = Some p -> p = Idle \/ threads s !! t = Some p.

#[export] Instance returned_preorder : PreOrder returned.
Proof.
  split.
  - intros s. split; eauto.
  - intros s1 s2 s3 [L1 H1] [L2 H2]. split; [congruence|]. intros t p Ht.
    destruct (H2 _ _ Ht) as [->|H]; eauto.
Qed.

Lemma moves_returned s t s' : moves s t Idle s' -> returned s s'.
Proof.
  intros (_ & Hts & _). split; rewrite Hts; [apply length_insert|].
  intros u p [(-> & <- & _)|[_ Hu]]%list_lookup_insert_Some; eauto.
Qed.

(** All claims can be committed. *)
Lemma commit_all s :
  sinv s -> reserved s < 2 ^ 63 ->
  exists s', rtc step s s' /\ returned s s' /\ history s' = history s /\
    committedWptr (queue s') = cachedWptr (queue s').
Proof.
  remember (Z.to_nat (cachedWptr (queue s) - committedWptr (queue s))) as n eqn:Hn.
  revert s Hn. induction (lt_wf n) as [n _ IH]. intros s -> Hi Hb.
  pose proof (i_order _ _ _ Hi) as Ho.
  destruct (decide (committedWptr (queue s) = cachedWptr (queue s))) as [He|Hne]; [by exists s|].
  destruct (i_cover _ _ _ Hi (committedWptr (queue s)) ltac:(lia)) as (t & p & b & e & Ht & Hc & Hx).
  pose proof (claim_ok_of _ _ _ _ _ (i_local _ _ _ Hi _ _ Ht) Hc) as (Hbe & Hce & _).
  assert (b = committedWptr (queue s)) as -> by lia.
  destruct (moves_commit _ _ _ _ Ht Hc) as (s1 & Hm & Hcm). pose proof Hm as (Hr & _ & Hh & _ & Hcw).
  assert (Hres : reserved s1 = reserved s) by (unfold reserved; by rewrite Hh).
  destruct (IH (Z.to_nat (cachedWptr (queue s1) - committedWptr (queue s1))) ltac:(lia) s1 eq_refl)
    as (s' & Hr' & Hret & Hh' & He'); [by apply (rtc_inv s); [| |lia]|lia|].
  exists s'. split; [by etrans|]. split; [etrans; [by eapply moves_returned|done]|]. split; [congruence|done].
Qed.

(** No claim is open and the engine has read everything. *)
Definition settled (s : system) : Prop :=
  sinv s /\ committedWptr (queue s) = cachedWptr (queue s) /\ rptr (queue s) = cachedWptr (queue s).

Lemma settle s :
  sinv s -> reserved s < 2 ^ 63 ->
  exists s', rtc step s s' /\ returned s s' /\ history s' = history s /\ settled s'.
Proof.
  intros Hi Hb. destruct (commit_all _ Hi Hb) as (s1 & Hr & Hret & Hh & Hcm).
  assert (Hi1 : sinv s1) by (apply (rtc_inv s); [done..|unfold reserved in *; by rewrite Hh]).
  pose proof (i_order _ _ _ Hi1) as Ho.
  assert (Hst : step s1 (with_queue s1 (set_rptr (queue s1) (wptr (queue s1))))).
  { exists (Engine (wptr (queue s1))). cbn. rewrite (proj2 (Z.leb_le _ _)), Z.leb_refl by lia. done. }
  eexists. split; [by eapply rtc_r|]. split; [done|]. split; [done|]. split; [|cbn; lia].
  apply inv_engine; [done|lia].
Qed.

(** A thread in [ReserveQueueSpace]. *)
Definition attempting (p : pc) : option (list request) :=
  match p with
  | Reserve rs | Upto rs _ _ | Refresh rs _ _ | StoreHw rs _ _ _ | Recheck rs _ _ | Cas rs _ _ => Some rs
  | _ => None
  end.

(** It gets to the compare-and-swap or back to the load of the reservation index. *)
Lemma moves_attempt s t p rs :
  threads s !! t = Some p -> attempting p = Some rs ->
  exists q s', moves s t q s' /\ (q = Reserve rs \/ exists cur off, q = Cas rs cur off).
Proof.
  set (good s := exists q s', moves s t q s' /\ (q = Reserve rs \/ exists cur off, q = Cas rs cur off)).
  assert (Hnext : forall s p q, threads s !! t = Some p -> moves s t q (exec_thread s t p) ->
    (forall s', threads s' !! t = Some q -> good s') -> good s).
  { intros s0 p0 q H0 Hm Hg. destruct (Hg _ (moves_lookup _ _ _ _ _ H0 Hm)) as (q' & s' & Hm' & Hq).
    exists q', s'. split; [by eapply moves_trans|done]. }
  assert (Hend : forall s p, threads s !! t = Some p -> (p = Reserve rs \/ exists cur off, p = Cas rs cur off) -> good s).
  { intros s0 p0 H0 Hp. exists p0, s0. split; [by apply moves_refl|done]. }
  assert (G1 : forall cur off s, threads s !! t = Some (Recheck rs cur off) -> good s).
  { intros cur off s0 H0.
    destruct (can_write (cachedHwReadIndex (queue s0)) (u64 (cur + space_required rs + off))) eqn:E;
      [apply (Hnext _ _ (Cas rs cur off) H0) | apply (Hnext _ _ (Reserve rs) H0)];
      try (apply (moves_one _ _ _ _ H0); try done; cbn; by rewrite E); eauto. }
  assert (G2 : forall cur off v s, threads s !! t = Some (StoreHw rs cur off v) -> good s).
  { intros cur off v s0 H0. apply (Hnext _ _ (Recheck rs cur off) H0); [by apply (moves_one _ _ _ _ H0)|eauto]. }
  assert (G3 : forall cur off s, threads s !! t = Some (Refresh rs cur off) -> good s).
  { intros cur off s0 H0. apply (Hnext _ _ (StoreHw rs cur off (rptr (queue s0))) H0);
      [by apply (moves_one _ _ _ _ H0)|eauto]. }
  intros Ht Ha.
  destruct p as [|r|r cur offset|r cur offset|r cur offset v|r cur offset|r cur offset| | | | | | | |]; try done;
    cbn in Ha; injection Ha as ->; [by apply (Hend _ _ Ht); left | | by eapply G3 | by eapply G2 | by eapply G1 |
      by apply (Hend _ _ Ht); right; eauto].
  destruct (can_write (cachedHwReadIndex (queue s)) (u64 (cur + space_required rs + offset))) eqn:E;
    [apply (Hnext _ _ (Cas rs cur offset) Ht) | apply (Hnext _ _ (Refresh rs cur offset) Ht)];
    try (apply (moves_one _ _ _ _ Ht); try done; cbn; by rewrite E); eauto.
Qed.

(** With the engine done, the refreshed read index admits any group. *)
Lemma can_write_settled w rs :
  group_ok rs -> 0 <= w < 2 ^ 63 -> (4 | w) ->
  can_write w (u64 (w + space_required rs + pad_for w (space_required rs))) = true.
Proof.
  intros Hok Hw [k Hk]. replace w with (4 * k) by lia. destruct (pad_for_spec k rs Hok) as (j & -> & Hj & _).
  destruct Hok as [Hs0 Hs1]. unfold can_write. rewrite (wrap_small 64 (_ + _)) by lia.
  rewrite wrap_small by lia. change SDMA_QUEUE_SIZE with 1048576. lia.
Qed.

(** From the load of the reservation index to a compare-and-swap that succeeds. *)
Lemma moves_fresh s t rs :
  settled s -> reserved s < 2 ^ 63 -> threads s !! t = Some (Reserve rs) ->
  exists off s', moves s t (Cas rs (cachedWptr (queue s)) off) s'.
Proof.
  intros (Hi & Hcm & Hrp) Hb Ht. pose proof (i_local _ _ _ Hi _ _ Ht) as Hok. cbn in Hok.
  pose proof (i_len _ _ _ Hi) as Hl. fold (reserved s) in Hl.
  set (w := cachedWptr (queue s)) in *. set (off := pad_for w (space_required rs)). exists off.
  assert (Hcw : can_write w (u64 (w + space_required rs + off)) = true).
  { apply can_write_settled; [done| |].
    - unfold reserved in *. lia.
    - exists (Z.of_nat (length (stream (history s)))). unfold reserved in *. lia. }
  assert (Hm : moves s t (Upto rs w off) (exec_thread s t (Reserve rs))) by by apply (moves_one _ _ _ _ Ht).
  set (s1 := exec_thread s t (Reserve rs)) in *. pose proof (moves_lookup _ _ _ _ _ Ht Hm) as H1.
  destruct (can_write (cachedHwReadIndex (queue s1)) (u64 (w + space_required rs + off))) eqn:E.
  { exists (exec_thread s1 t (Upto rs w off)). eapply moves_trans; [exact Hm|].
    apply (moves_one _ _ _ _ H1); try done; cbn in E |- *; by rewrite E. }
  assert (Hm1 : moves s1 t (Refresh rs w off) (exec_thread s1 t (Upto rs w off))).
  { apply (moves_one _ _ _ _ H1); try done; cbn in E |- *; by rewrite E. }
  set (s2 := exec_thread s1 t (Upto rs w off)) in *. pose proof (moves_lookup _ _ _ _ _ H1 Hm1) as H2.
  assert (Hm2 : moves s2 t (StoreHw rs w off (rptr (queue s2))) (exec_thread s2 t (Refresh rs w off))) by by apply (moves_one _ _ _ _ H2).
  set (s3 := exec_thread s2 t (Refresh rs w off)) in *. pose proof (moves_lookup _ _ _ _ _ H2 Hm2) as H3.
  assert (Hv : rptr (queue s2) = w).
  { destruct (moves_trans _ _ _ _ _ _ Hm Hm1) as (_ & _ & _ & -> & _). done. }
  rewrite Hv in *.
  assert (Hm3 : moves s3 t (Recheck rs w off) (exec_thread s3 t (StoreHw rs w off w))) by by apply (moves_one _ _ _ _ H3).
  pose proof (moves_lookup _ _ _ _ _ H3 Hm3) as H4.
  eexists. eapply moves_trans, moves_trans, moves_trans, moves_trans; [exact Hm | exact Hm1 | exact Hm2 | exact Hm3 |].
  apply (moves_one _ _ _ _ H4); try done; cbn [exec_thread exec_reserve]; cbn [queue goto with_queue set_cachedHw cachedHwReadIndex]; by rewrite Hcw.
Qed.

Lemma settled_moves s t q s' : settled s -> reserved s < 2 ^ 63 -> moves s t q s' -> claim q = None -> settled s'.
Proof.
  intros (Hi & Hcm & Hrp) Hb (Hr & Ht & Hh & Hrp' & Hcw) Hq.
  assert (Hi' : sinv s') by (apply (rtc_inv s); [done..|unfold reserved in *; by rewrite Hh]).
  split; [done|]. split; [|congruence]. pose proof (i_order _ _ _ Hi') as Ho.
  destruct (decide (committedWptr (queue s') = cachedWptr (queue s'))) as [|Hne]; [done|].
  destruct (i_cover _ _ _ Hi' (committedWptr (queue s')) ltac:(lia)) as (u & p & b & e & Hu & Hc & _).
  rewrite Ht in Hu. apply list_lookup_insert_Some in Hu as [(_ & <- & _)|[_ Hu]]; [congruence|].
  rewrite (unclaimed_all s Hi Hcm _ _ Hu) in Hc. done.
Qed.

(** Thread [t] can get to the stores of a group. *)
Definition reserves (s : system) (t : nat) : Prop :=
  exists s' b st e, rtc step s s' /\ threads s' = <[t := Place b st e]> (threads s) /\ reserved s' <= reserved s + 200.

Lemma reserves_after s t q s1 : moves s t q s1 -> reserves s1 t -> reserves s t.
Proof.
  intros (Hr & Hts & Hh & _) (s' & b & st & e & Hr' & Hts' & Hle). exists s', b, st, e.
  split; [by etrans|]. rewrite Hts', Hts, list_insert_insert_eq. split; [done|].
  unfold reserved in *. by rewrite Hh in Hle.
Qed.

Lemma moves_reserved s t q s1 : moves s t q s1 -> reserved s1 = reserved s.
Proof. intros (_ & _ & Hh & _). unfold reserved. by rewrite Hh. Qed.

Lemma cas_reserves s t rs off :
  sinv s -> reserved s < 2 ^ 63 -> threads s !! t = Some (Cas rs (cachedWptr (queue s)) off) -> reserves s t.
Proof.
  intros Hi Hb Ht. pose proof (i_len _ _ _ Hi) as Hl. fold (reserved s) in Hl.
  assert (Hw : cachedWptr (queue s) < 2 ^ 63) by (unfold reserved in *; lia).
  pose proof (i_local _ _ _ Hi _ _ Ht) as ((Hok & [k Hk] & _ & Ho) & _). rewrite Hk, Z.mul_comm in Ho.
  destruct (pad_for_spec k rs Hok) as (j & Hp & Hj & _). rewrite Hp in Ho. destruct Hok as [_ Hs1].
  pose proof (thread_step _ _ _ Ht ltac:(done)) as Hst. cbn in Hst. rewrite Z.eqb_refl in Hst.
  destruct (inv_cas _ _ _ _ _ _ Hi Ht Hw) as (st & Hpl & _). rewrite Hpl in Hst.
  eexists _, _, _, _. split; [by apply rtc_once|]. split; [done|].
  unfold reserved in *. cbn [history]. rewrite stream_app, length_app. cbn [fst snd].
  pose proof (length_padded off rs ltac:(lia) ltac:(exists j; lia)). lia.
Qed.

Lemma fresh_reserves s t rs :
  settled s -> reserved s < 2 ^ 63 -> threads s !! t = Some (Reserve rs) -> reserves s t.
Proof.
  intros Hs Hb Ht. destruct (moves_fresh _ _ _ Hs Hb Ht) as (off & s1 & Hm). eapply reserves_after; [exact Hm|].
  pose proof (settled_moves _ _ _ _ Hs Hb Hm eq_refl) as [Hi1 _].
  pose proof (moves_lookup _ _ _ _ _ Ht Hm) as H1. pose proof (moves_reserved _ _ _ _ Hm).
  destruct Hm as (_ & _ & _ & _ & Hcw). rewrite <- Hcw in H1. eapply cas_reserves; eauto. lia.
Qed.

(** A thread in [ReserveQueueSpace] can reserve once the engine is done. *)
Lemma attempt_reserves s t p rs :
  settled s -> reserved s < 2 ^ 63 -> threads s !! t = Some p -> attempting p = Some rs -> reserves s t.
Proof.
  intros Hs Hb Ht Ha. destruct (moves_attempt _ _ _ _ Ht Ha) as (q & s1 & Hm & Hq).
  assert (Hs1 : settled s1) by (eapply settled_moves; eauto; naive_solver).
  pose proof (moves_lookup _ _ _ _ _ Ht Hm) as H1. pose proof (moves_reserved _ _ _ _ Hm) as Hr1.
  eapply reserves_after; [exact Hm|]. destruct Hq as [->|(cur & off & ->)].
  { eapply fresh_reserves; eauto. lia. }
  destruct (decide (cachedWptr (queue s1) = cur)) as [<-|Hne].
  { eapply cas_reserves; [apply Hs1 | lia | done]. }
  assert (Hm1 : moves s1 t (Reserve rs) (exec_thread s1 t (Cas rs cur off))).
  { apply (moves_one _ _ _ _ H1); try done; cbn; by rewrite (proj2 (Z.eqb_neq _ _) Hne). }
  eapply reserves_after; [exact Hm1|]. pose proof (moves_reserved _ _ _ _ Hm1).
  eapply fresh_reserves; [eapply settled_moves; [exact Hs1 | lia | exact Hm1 | done] | lia |].
  by eapply moves_lookup.
Qed.

(** Once the engine is done, each thread can come back to its caller. *)
Lemma finish_one s t p :
  settled s -> reserved s + 200 < 2 ^ 63 -> threads s !! t = Some p ->
  (forall target, p = Poll target -> target <= reserved s) ->
  exists s', rtc step s s' /\ returned s s' /\ threads s' !! t = Some Idle /\ settled s' /\ reserved s' <= reserved s + 200.
Proof.
  intros Hs Hb Ht Hpoll. pose proof Hs as (Hi & Hcm & Hrp).
  assert (Hl : cachedWptr (queue s) = reserved s) by apply (i_len _ _ _ Hi).
  assert (Hquick : forall s', moves s t Idle s' ->
    exists s', rtc step s s' /\ returned s s' /\ threads s' !! t = Some Idle /\ settled s' /\ reserved s' <= reserved s + 200).
  { intros s' Hm. exists s'. pose proof (moves_reserved _ _ _ _ Hm). split; [apply Hm|]. split; [by eapply moves_returned|].
    split; [by eapply moves_lookup|]. split; [|lia]. eapply settled_moves; eauto. lia. }
  assert (Hdone : forall s target, threads s !! t = Some (Poll target) -> target <= rptr (queue s) ->
    moves s t Idle (exec_thread s t (Poll target))).
  { intros s0 target H0 Hle. apply (moves_one _ _ _ _ H0); try done; cbn; by rewrite (proj2 (Z.ltb_ge _ _) Hle). }
  destruct (attempting p) as [rs|] eqn:Ha.
  - destruct (attempt_reserves _ _ _ _ Hs ltac:(lia) Ht Ha) as (s1 & b & st & e & Hr & Hts & Hle).
    assert (Hi1 : sinv s1) by (apply (rtc_inv s); [done..|lia]).
    destruct (settle s1 Hi1 ltac:(lia)) as (s' & Hr' & [Hlen Hret] & Hh & Hs').
    assert (Hres : reserved s' = reserved s1) by (unfold reserved; by rewrite Hh).
    rewrite Hts in Hlen, Hret. rewrite length_insert in Hlen.
    exists s'. split; [by etrans|]. split; [split; [done|]|split; [|split; [done|lia] ] ].
    + intros u q Hu. destruct (Hret u q Hu) as [->|Hq]; [by left|].
      apply list_lookup_insert_Some in Hq as [(_ & <- & _)|[_ Hq]]; [|by right].
      by pose proof (unclaimed_all s' (proj1 Hs') (proj1 (proj2 Hs')) _ _ Hu).
    + destruct (lookup_lt_is_Some_2 (threads s') t) as [q Hu]; [rewrite Hlen; eapply lookup_lt_Some; eauto|].
      destruct (Hret t q Hu) as [->|Hq]; [done|].
      rewrite list_lookup_insert_eq in Hq by (eapply lookup_lt_Some; eauto). simplify_eq.
      by pose proof (unclaimed_all s' (proj1 Hs') (proj1 (proj2 Hs')) _ _ Hu).
  - pose proof (unclaimed_all s Hi Hcm _ _ Ht) as Hnc. destruct p; try done.
    + eapply Hquick. by apply moves_refl.
    + eapply Hquick. by apply (moves_one _ _ _ _ Ht).
    + assert (Hm : moves s t (Poll (maxWritePtr (queue s))) (exec_thread s t LoadMax)) by by apply (moves_one _ _ _ _ Ht).
      eapply Hquick, moves_trans; [exact Hm|]. apply Hdone; [by eapply moves_lookup|].
      cbn. pose proof (i_max _ _ _ Hi). lia.
    + eapply Hquick, Hdone; [done|]. rewrite Hrp, Hl. by apply Hpoll.
Qed.

(** The first [k] threads can come back. *)
Lemma finish_all s0 n k :
  settled s0 -> length (threads s0) = n -> (k <= n)%nat -> reserved s0 + 200 * Z.of_nat n < 2 ^ 63 ->
  (forall t target, threads s0 !! t = Some (Poll target) -> target <= reserved s0) ->
  exists s', rtc step s0 s' /\ returned s0 s' /\ settled s' /\
    (forall t, (t < k)%nat -> threads s' !! t = Some Idle) /\ reserved s' <= reserved s0 + 200 * Z.of_nat k.
Proof.
  intros Hs0 Hlen Hkn Hb Hpoll. induction k as [|k IH].
  { exists s0. split; [done|]. split; [done|]. split; [done|]. split; [|]; lia. }
  destruct (IH ltac:(lia)) as (s1 & Hr1 & Hret1 & Hs1 & Hidle & Hle). pose proof (rtc_reserved _ _ Hr1).
  destruct (lookup_lt_is_Some_2 (threads s1) k) as [p Hp]; [rewrite (proj1 Hret1); lia|].
  destruct (finish_one s1 k p Hs1 ltac:(lia) Hp) as (s2 & Hr2 & Hret2 & Hk2 & Hs2 & Hle2).
  { intros target ->. destruct (proj2 Hret1 _ _ Hp) as [|Hp0]; [done|]. specialize (Hpoll _ _ Hp0). lia. }
  exists s2. split; [by etrans|]. split; [by etrans|]. split; [done|]. split; [|lia].
  intros t Ht. destruct (decide (t = k)) as [->|Hne]; [done|].
  destruct (lookup_lt_is_Some_2 (threads s2) t) as [q Hq]; [rewrite (proj1 Hret2), (proj1 Hret1); lia|].
  destruct (proj2 Hret2 _ _ Hq) as [->|Hq1]; [done|]. rewrite Hidle in Hq1 by lia. congruence.
Qed.

(** C40: From every reachable state, whatever the threads are doing, there is a
    continuation in which every call returns and the engine has executed every
    packet submitted: waiting for the reservation order, for ring space and for
    the read index never closes a cycle.  (A [flush] is taken to wait for an
    index that has been reserved.) *)
Theorem sdma_drains n s :
  rtc step (init n) s -> reserved s + 200 * Z.of_nat n < 2 ^ 63 ->
  (forall t target, threads s !! t = Some (Poll target) -> target <= reserved s) ->
  exists s', rtc step s s' /\ Forall (fun p => p = Idle) (threads s') /\
    rptr (queue s') = reserved s' /\ wptr (queue s') = reserved s'.
Proof.
  intros Hr Hb Hpoll. assert (Hi : sinv s) by (eapply sdma_reachable_inv; [done|lia]).
  assert (Hlen : length (threads s) = n).
  { refine (rtc_invariant step (fun s => length (threads s) = n) _ _ _ Hr _); [|apply length_replicate].
    intros x y Hx Hxy. by rewrite (step_threads _ _ Hxy). }
  destruct (settle s Hi ltac:(lia)) as (s0 & Hr0 & [Hl0 Hret0] & Hh0 & Hs0).
  assert (Hres0 : reserved s0 = reserved s) by (unfold reserved; by rewrite Hh0).
  destruct (finish_all s0 n n Hs0) as (s' & Hr' & Hret & (Hi' & Hcm & Hrp) & Hidle & _); try lia.
  { intros t target Ht. destruct (Hret0 _ _ Ht) as [|Hp]; [done|]. rewrite Hres0. eauto. }
  exists s'. split; [by etrans|]. assert (Hl : cachedWptr (queue s') = reserved s') by apply (i_len _ _ _ Hi').
  pose proof (i_order _ _ _ Hi'). split; [|split; lia].
  apply Forall_lookup. intros t p Ht. pose proof (lookup_lt_Some _ _ _ Ht) as Hlt.
  rewrite (proj1 Hret), Hl0, Hlen in Hlt. rewrite Hidle in Ht by done. congruence.
Qed.

Lemma sdma_drains_witness : exists s, rtc step (init 2) s /\ reserved s = 88 /\
  exists s', rtc step s s' /\ Forall (fun p => p = Idle) (threads s') /\
    rptr (queue s') = reserved s' /\ wptr (queue s') = reserved s'.
Proof.
  destruct sdma_demo_run as (s & Hr & Hb & Hp & Hpoll). exists s. apply sdma_run_rtc in Hr.
  split; [done|]. split; [done|]. apply (sdma_drains 2 s); [done|lia|].
  intros t target Ht. rewrite Hpoll in Ht. by destruct t as [|[|t]].
Defined.

(** ** What [quietAll] waits for *)

(** A step in which no thread commits while another has committed and not yet
    recorded it in [maxWritePtr]. *)
Definition ordered_step (s s' : system) : Prop :=
  exists l, exec s l = Some s' /\
    match l with
    | Thread t => forall b e u e', threads s !! t = Some (SetCommitted b e) -> threads s !! u <> Some (SetMax e')
    | _ => True
    end.

Lemma ordered_step_step s s' : ordered_step s s' -> step s s'.
Proof. intros (l & H & _). by exists l. Qed.

Record recorded (s : system) : Prop := {
  r_last : forall t e, lastput s !! t = Some e -> e <= maxWritePtr (queue s);
  r_set : forall t e, threads s !! t = Some (SetMax e) -> e = committedWptr (queue s)
}.

(** A step that touches neither [maxWritePtr] nor [committedWptr]. *)
Lemma recorded_local s s' t q :
  recorded s -> threads s' = <[t := q]> (threads s) -> (forall e, q <> SetMax e) -> lastput s' = lastput s ->
  maxWritePtr (queue s') = maxWritePtr (queue s) -> committedWptr (queue s') = committedWptr (queue s) -> recorded s'.
Proof.
  intros [Hl Hs] Ht Hq El Em Ec. split; rewrite ?El, ?Em, ?Ec, ?Ht; [done|].
  intros u e [(_ & -> & _)|[_ Hu]]%list_lookup_insert_Some; [by destruct (Hq e)|eauto].
Qed.

Lemma ordered_recorded s s' : sinv s -> recorded s -> ordered_step s s' -> recorded s'.
Proof.
  intros Hi Hrec (l & He & Hord). pose proof (i_max _ _ _ Hi) as Hmax. destruct l as [t c|t|r]; cbn in He.
  - destruct (threads s !! t) as [[]|] eqn:Ht; try done. injection He as <-.
    eapply recorded_local; eauto; try done. by destruct c.
  - destruct (threads s !! t) as [p|] eqn:Ht; [|done].
    assert (s' = exec_thread s t p) as -> by (destruct p; congruence). clear He.
    destruct p as [| | | | | | |b [|[c d] st] e|b e|b e|b e|b e|e| |target]; cbn; try done;
      repeat case_if; try destruct (placePackets _ _ _); try done; try (by eapply recorded_local; eauto).
    + destruct Hrec as [Hl Hs]. split; cbn; [done|].
      intros u e' [(_ & Heq & _)|[_ Hu]]%list_lookup_insert_Some; [by injection Heq|].
      by destruct (Hord b e u e' eq_refl).
    + pose proof (r_set _ Hrec _ _ Ht) as ->. destruct Hrec as [Hl Hs]. split; cbn.
      * intros u e' [(_ & -> & _)|[_ Hu]]%list_lookup_insert_Some; [done|]. specialize (Hl _ _ Hu). lia.
      * intros u e' [(_ & Heq & _)|[_ Hu]]%list_lookup_insert_Some; [done|eauto].
  - case_if_in He; [|done]. injection He as <-. destruct Hrec as [Hl Hs]. by split.
Qed.

Lemma ordered_reachable n s : rtc ordered_step (init n) s -> reserved s < 2 ^ 63 -> rtc step (init n) s /\ recorded s.
Proof.
  intros Hr. refine (rtc_invariant ordered_step (fun s => reserved s < 2 ^ 63 -> rtc step (init n) s /\ recorded s) _ _ _ Hr _).
  - intros x y IH Hxy Hb. pose proof (ordered_step_step _ _ Hxy) as Hst. pose proof (step_reserved _ _ Hst).
    destruct (IH ltac:(lia)) as [Hrx Hrec]. split; [by eapply rtc_r|].
    eapply ordered_recorded; eauto. eapply sdma_reachable_inv; eauto. lia.
  - intros _. split; [done|]. split; intros t e Ht; apply lookup_replicate in Ht as [Heq _]; [by rewrite Heq|done].
Qed.

(** As long as no two submissions overlap between their stores of
    [committedWptr] and of [maxWritePtr] (so in particular with one submitting
    thread per queue), [quietAll] returns only after the engine has executed
    every packet that the calling thread has submitted. *)
Theorem sdma_quiet_ordered n s t e s1 target s2 s3 :
  rtc ordered_step (init n) s -> reserved s < 2 ^ 63 ->
  threads s !! t = Some LoadMax -> lastput s !! t = Some e ->
  exec s (Thread t) = Some s1 -> threads s1 !! t = Some (Poll target) ->
  rtc step s1 s2 -> threads s2 !! t = Some (Poll target) ->
  exec s2 (Thread t) = Some s3 -> threads s3 !! t = Some Idle ->
  e <= rptr (queue s3).
Proof.
  intros Hr Hb Ht Hl H1 Ht1 H12 Ht2 H3 Ht3. destruct (ordered_reachable _ _ Hr Hb) as [_ Hrec].
  pose proof (r_last _ Hrec _ _ Hl) as Hle. cbn in H1, H3. rewrite Ht in H1. rewrite Ht2 in H3.
  injection H1 as <-. cbn in Ht1. rewrite list_lookup_insert_eq in Ht1 by (eapply lookup_lt_Some; eauto).
  injection Ht1 as <-. injection H3 as <-. cbn in Ht3 |- *. case_if; [congruence|]. cbn. lia.
Qed.

(** Thread 1 submits after thread 0, and records its index before it. *)
Definition overlap_steps : list label :=
  [Call 0 (put 4096 8192 256)] ++ replicate 15 (Thread 0) ++
  [Call 1 (put 65536 69632 1024)] ++ replicate 16 (Thread 1) ++ [Thread 0; Engine 28].

Lemma overlap_run :
  exists s s1 s2, run (init 2) overlap_steps = Some s /\ lastput s = [28; 56] /\ threads s = [Idle; Idle] /\
    exec s (Call 1 quiet) = Some s1 /\ run s1 [Thread 1; Thread 1] = Some s2 /\
    threads s2 = [Idle; Idle] /\ rptr (queue s2) = 28 /\ committedWptr (queue s2) = 56.
Proof.
  eexists _, _, _. split; [vm_compute; reflexivity|].
  do 6 (split; [vm_compute; reflexivity|]). vm_compute. reflexivity.
Qed.

(** In general it does not: [maxWritePtr] is stored after [committedWptr],
    so a thread that submitted earlier can overwrite it with its smaller index,
    and the [quiet] of the later thread returns while the engine has not yet
    reached that thread's own packet. *)
Theorem sdma_quiet_returns_early :
  exists s s1 s2 e, rtc step (init 2) s /\ threads s !! 1%nat = Some Idle /\ lastput s !! 1%nat = Some e /\
    exec s (Call 1 quiet) = Some s1 /\ run s1 [Thread 1; Thread 1] = Some s2 /\
    threads s2 !! 1%nat = Some Idle /\ rptr (queue s2) < e.
Proof.
  destruct overlap_run as (s & s1 & s2 & Hr & Hl & Ht & H1 & H2 & Ht2 & Hrp & _). exists s, s1, s2, 56.
  rewrite Hl, Ht, Ht2, Hrp. apply sdma_run_rtc in Hr.
  exact (conj Hr (conj eq_refl (conj eq_refl (conj H1 (conj H2 (conj eq_refl eq_refl)))))).
Qed.

(** ** The variant for a single producer *)

Module SingleProducer.

(** [SdmaQueueSingleProducerDeviceHandle]: reservation without
    compare-and-swap, padding as a submission of its own through the
    [submitPacket] of the base class, submission without [committedWptr]. *)
Inductive sp_pc :=
| SpIdle
| SpReserve (rs : list request)
| SpUpto (rs : list request) (cur : Z)
| SpRefreshed (rs : list request) (cur : Z)
| SpTake (rs : list request) (cur : Z)
| SpPlace (stores : list (Z * Z)) (pending : Z)
| SpSetWptr (pending : Z)
| SpSetDoorbell (pending : Z)
| SpSetMax (pending : Z)
| PadUpto (rs : list request) (cur : Z)
| PadRefreshed (rs : list request) (cur : Z)
| PadTake (rs : list request) (cur : Z)
| PadFill (rs : list request) (cur : Z) (stores : list (Z * Z)) (new : Z)
| PadSubmit (rs : list request) (cur new : Z)
| PadPublish (rs : list request) (new : Z).

Record producer := mk_producer { sp_queue : handle; sp_at : sp_pc }.

(** The index of the next start of the ring. *)
Definition pad_index (cur : Z) : Z := u64 (cur + (SDMA_QUEUE_SIZE - WrapIntoRing cur)).

(** The stores of [PadRingToEnd]. *)
Definition pad_stores (cur : Z) : list (Z * Z) :=
  stores_at (WrapIntoRing cur / 4) (replicate (Z.to_nat ((pad_index cur - cur) / 4)) 0).

(** [CanWriteUpto] with the refresh of the cached read index. *)
Definition upto (h : handle) (index : Z) (yes no : sp_pc) : producer :=
  mk_producer h (if can_write (cachedHwReadIndex h) index then yes else no).

Definition PadRingToEnd (h : handle) (p : sp_pc) : producer :=
  match p with
  | PadUpto rs cur => upto h (pad_index cur) (PadTake rs cur) (PadRefreshed rs cur)
  | PadRefreshed rs cur =>
      let h := set_cachedHw h (rptr h) in upto h (pad_index cur) (PadTake rs cur) (SpReserve rs)
  | PadTake rs cur =>
      mk_producer (set_cachedWptr h (pad_index cur)) (PadFill rs cur (pad_stores cur) (pad_index cur))
  | PadFill rs cur [] new => mk_producer h (PadSubmit rs cur new)
  | PadFill rs cur ((i, d) :: st) new => mk_producer (set_dword h i d) (PadFill rs cur st new)
  | PadSubmit rs cur new =>
      if committedWptr h =? cur then mk_producer (set_wptr h new) (PadPublish rs new) else mk_producer h p
  | PadPublish rs new =>
      mk_producer (set_max (set_committed (set_doorbell h new) new) new) (SpReserve rs)
  | _ => mk_producer h p
  end.

Definition sp_exec (h : handle) (p : sp_pc) : producer :=
  match p with
  | SpReserve rs =>
      let cur := cachedWptr h in
      if SDMA_QUEUE_SIZE <? WrapIntoRing cur + space_required rs then mk_producer h (PadUpto rs cur)
      else mk_producer h (SpUpto rs cur)
  | SpUpto rs cur => upto h (u64 (cur + space_required rs)) (SpTake rs cur) (SpRefreshed rs cur)
  | SpRefreshed rs cur =>
      let h := set_cachedHw h (rptr h) in upto h (u64 (cur + space_required rs)) (SpTake rs cur) (SpReserve rs)
  | SpTake rs cur =>
      let '(st, pending) := placePackets rs cur 0 in
      mk_producer (set_cachedWptr h (u64 (cur + space_required rs))) (SpPlace st pending)
  | SpPlace [] pending => mk_producer h (SpSetWptr pending)
  | SpPlace ((i, d) :: st) pending => mk_producer (set_dword h i d) (SpPlace st pending)
  | SpSetWptr pending => mk_producer (set_wptr h pending) (SpSetDoorbell pending)
  | SpSetDoorbell pending => mk_producer (set_doorbell h pending) (SpSetMax pending)
  | SpSetMax pending => mk_producer (set_max h pending) SpIdle
  | _ => PadRingToEnd h p
  end.

Inductive sp_step : producer -> producer -> Prop :=
| sp_call h rs : group_ok rs -> sp_step (mk_producer h SpIdle) (mk_producer h (SpReserve rs))
| sp_thread h p : p <> SpIdle -> sp_step (mk_producer h p) (sp_exec h p)
| sp_engine h p index :
    rptr h <= index <= wptr h -> sp_step (mk_producer h p) (mk_producer (set_rptr h index) p).

Definition sp_init : producer := mk_producer handle_init SpIdle.

(** The committed index never moves: only the padding would move it, and the
    padding waits for it to reach an index that is not the initial one. *)
Definition sp_inv (s : producer) : Prop :=
  committedWptr (sp_queue s) = 0 /\
  match sp_at s with
  | SpReserve rs | SpUpto rs _ | SpRefreshed rs _ => group_ok rs
  | PadUpto rs cur | PadRefreshed rs cur | PadTake rs cur | PadFill rs cur _ _ | PadSubmit rs cur _ => group_ok rs /\ cur <> 0
  | PadPublish _ _ => False
  | _ => True
  end.

Lemma sp_step_inv s s' : sp_inv s -> sp_step s s' -> sp_inv s'.
Proof.
  intros [Hc Hp] Hs. destruct Hs as [h rs Hok|h p Hne|h p index Hx]; [done| |done].
  destruct p as [|rs|rs cur|rs cur|rs cur|[|[i d] st] e|e|e|e|rs cur|rs cur|rs cur|rs cur [|[i d] st] e|rs cur e|rs e];
    cbn in Hc, Hp |- *; unfold upto; try done; try (case_if; try done).
  - split; [done|]. split; [done|]. intros Hz. destruct Hp as [_ Hp]. revert E. unfold WrapIntoRing.
    rewrite Hz, Z.mod_0_l by done. change SDMA_QUEUE_SIZE with 1048576. lia.
  - destruct (placePackets _ _ _). done.
  - split; [done|]. apply Hp.
  - lia.
Qed.

(** A padding that waits, waits for ever. *)
Lemma pad_submit_stuck s s' rs cur new :
  sp_inv s -> sp_at s = PadSubmit rs cur new -> rtc sp_step s s' -> sp_at s' = PadSubmit rs cur new.
Proof.
  intros Hi Hs Hr. refine (proj2 (rtc_invariant sp_step (fun s => sp_inv s /\ sp_at s = PadSubmit rs cur new) _ _ _ Hr _)); [|done].
  intros x y [Hx Hat] Hxy. split; [by eapply sp_step_inv|].
  destruct Hxy as [h r|h p|h p index]; cbn in Hat; simplify_eq; [|done].
  destruct Hx as [Hc [_ Hcur]]. cbn in Hc |- *. rewrite Hc. by rewrite (proj2 (Z.eqb_neq 0 cur)).
Qed.

(** The producer is idle after [n] copies. *)
Definition after_puts (n : Z) (s : producer) : Prop :=
  sp_at s = SpIdle /\ cachedWptr (sp_queue s) = 28 * n /\ cachedHwReadIndex (sp_queue s) = 0 /\
  wptr (sp_queue s) = 28 * n /\ rptr (sp_queue s) = 0.

Definition one_put : list request := call_packets (put 4096 8192 256).

Lemma place_stores st e h :
  exists h', rtc sp_step (mk_producer h (SpPlace st e)) (mk_producer h' (SpSetWptr e)) /\
    rptr h' = rptr h /\ cachedWptr h' = cachedWptr h /\ cachedHwReadIndex h' = cachedHwReadIndex h.
Proof.
  revert h. induction st as [|[i d] st IH]; intros h.
  - exists h. split; [|done]. by apply rtc_once, (sp_thread h (SpPlace [] e)).
  - destruct (IH (set_dword h i d)) as (h' & Hr & Hs). exists h'. split; [|done].
    econstructor; [by apply (sp_thread h (SpPlace ((i, d) :: st) e))|]. exact Hr.
Qed.

Lemma next_put n s :
  0 <= n < 37449 -> after_puts n s -> exists s', rtc sp_step s s' /\ after_puts (n + 1) s'.
Proof.
  intros Hn (Hat & Hc & Hhw & Hw & Hr). destruct s as [h p]. cbn in *. subst p.
  assert (Hfit : WrapIntoRing (28 * n) + 28 <= SDMA_QUEUE_SIZE).
  { unfold WrapIntoRing. change SDMA_QUEUE_SIZE with 1048576. rewrite Z.mod_small by lia. lia. }
  assert (Hpl : placePackets one_put (28 * n) 0 = (ring_stores (7 * n) (group_dwords one_put), 28 * n + 28)).
  { replace (28 * n) with (4 * (7 * n)) in * by lia. apply placePackets_plain; [lia|exact Hfit|].
    change (space_required one_put) with 28. lia. }
  set (e := 28 * n + 28) in *. set (st := ring_stores (7 * n) (group_dwords one_put)) in *.
  set (h1 := set_cachedWptr h e). destruct (place_stores st e h1) as (h2 & Hst & Hr2 & Hc2 & Hhw2).
  exists (mk_producer (set_max (set_doorbell (set_wptr h2 e) e) e) SpIdle). split.
  - econstructor; [by apply (sp_call h one_put)|].
    econstructor; [by apply (sp_thread h (SpReserve one_put))|].
    cbn [sp_exec]. rewrite Hc. change (space_required one_put) with 28. rewrite (proj2 (Z.ltb_ge _ _) Hfit).
    econstructor; [by apply (sp_thread h (SpUpto one_put (28 * n)))|].
    cbn [sp_exec]. unfold upto. change (space_required one_put) with 28.
    replace (can_write _ _) with true.
    2:{ symmetry. unfold can_write. rewrite Hhw. unwrap. apply Z.ltb_lt. change SDMA_QUEUE_SIZE with 1048576. lia. }
    econstructor; [by apply (sp_thread h (SpTake one_put (28 * n)))|].
    cbn [sp_exec]. change (space_required one_put) with 28. rewrite Hpl, wrap_small by lia.
    etrans; [exact Hst|]. econstructor; [by apply (sp_thread h2 (SpSetWptr e))|].
    econstructor; [by apply (sp_thread (set_wptr h2 e) (SpSetDoorbell e))|].
    apply rtc_once. by apply (sp_thread (set_doorbell (set_wptr h2 e) e) (SpSetMax e)).
  - unfold after_puts. cbn. rewrite Hc2, Hhw2, Hr2. cbn. repeat split; lia.
Qed.

Lemma all_puts : exists s, rtc sp_step sp_init s /\ after_puts 37449 s.
Proof.
  assert (H : forall n, (Z.of_nat n <= 37449) -> exists s, rtc sp_step sp_init s /\ after_puts (Z.of_nat n) s).
  { induction n as [|n IH]; intros Hn; [exists sp_init; done|].
    destruct (IH ltac:(lia)) as (s & Hr & Hs). destruct (next_put (Z.of_nat n) s ltac:(lia) Hs) as (s' & Hr' & Hs').
    exists s'. split; [by etrans|]. by replace (Z.of_nat (S n)) with (Z.of_nat n + 1) by lia. }
  apply (H (Z.to_nat 37449)). lia.
Qed.

(** The next copy pads, once the engine has read on. *)
Lemma pad_reached s :
  after_puts 37449 s -> exists s', rtc sp_step s s' /\ sp_at s' = PadSubmit one_put 1048572 1048576.
Proof.
  intros (Hat & Hc & Hhw & Hw & Hr). destruct s as [h p]. cbn in *. subst p.
  change (28 * 37449) with 1048572 in *. set (h1 := set_rptr h 1048572). set (h2 := set_cachedHw h1 1048572).
  set (h3 := set_dword (set_cachedWptr h2 1048576) 262143 0). exists (mk_producer h3 (PadSubmit one_put 1048572 1048576)).
  split; [|done]. econstructor; [by apply (sp_call h one_put)|].
  econstructor; [apply (sp_engine h (SpReserve one_put) 1048572); lia|]. fold h1.
  econstructor; [by apply (sp_thread h1 (SpReserve one_put))|]. cbn [sp_exec]. cbn [cachedWptr h1 set_rptr]. rewrite Hc.
  change (SDMA_QUEUE_SIZE <? WrapIntoRing 1048572 + space_required one_put) with true. cbn beta iota zeta.
  econstructor; [by apply (sp_thread h1 (PadUpto one_put 1048572))|]. cbn [sp_exec PadRingToEnd]. unfold upto.
  cbn [cachedHwReadIndex h1 set_rptr]. rewrite Hhw. change (can_write 0 (pad_index 1048572)) with false. cbn beta iota.
  fold h1. econstructor; [by apply (sp_thread h1 (PadRefreshed one_put 1048572))|].
  change (sp_exec h1 (PadRefreshed one_put 1048572)) with (mk_producer h2 (PadTake one_put 1048572)).
  econstructor; [by apply (sp_thread h2 (PadTake one_put 1048572))|].
  change (sp_exec h2 (PadTake one_put 1048572)) with
    (mk_producer (set_cachedWptr h2 1048576) (PadFill one_put 1048572 [(262143, 0)] 1048576)).
  econstructor; [by apply (sp_thread (set_cachedWptr h2 1048576) (PadFill one_put 1048572 [(262143, 0)] 1048576))|].
  apply rtc_once. by apply (sp_thread h3 (PadFill one_put 1048572 [] 1048576)).
Qed.

(** The first time the single-producer queue has to pad the end of the ring
    it never returns: [PadRingToEnd] submits through the base class, which waits
    for [committedWptr] to reach the padding, and no submission of the single
    producer ever moves [committedWptr].  A producer of plain copies gets there
    after 37449 of them, in the first lap of the ring. *)
Theorem single_producer_stalls :
  (forall s rs cur new s', rtc sp_step sp_init s -> sp_at s = PadSubmit rs cur new -> rtc sp_step s s' ->
    sp_at s' = PadSubmit rs cur new) /\
  (exists s, rtc sp_step sp_init s /\ sp_at s = PadSubmit one_put 1048572 1048576).
Proof.
  split.
  - intros s rs cur new s' Hr. eapply pad_submit_stuck.
    eapply (rtc_invariant sp_step sp_inv); [apply sp_step_inv | exact Hr | done].
  - destruct all_puts as (s & Hr & Hs). destruct (pad_reached s Hs) as (s' & Hr' & Hat).
    exists s'. split; [by etrans|done].
Qed.

End SingleProducer.
