(* ===== verification/SdmaPolicy.v ===== *)
(** * Choice of the copy engine and the record of pending copies

    [SdmaImpl] of src/sdma_policy.hpp and the part of [IpcOnImpl] of
    src/ipc_policy.hpp that uses it: a transfer of at least the threshold goes
    to the ring of one (PE, channel) pair, a transfer that is not blocking sets
    the bit of that pair in [sdmaDirty], and a fence or quiet waits for the rings
    whose bits it finds set and clears them.  The mask is shown to represent the
    set of pairs with a pending copy. *)

From stdpp Require Import base numbers list gmap sets.
From S2P Require Import Prelude Bits.

Record SdmaImpl := mk_impl {
  sdmaEnabled : bool;
  sdmaDirty : Z;
  sdmaThreshold : Z;
  numChannels : Z;
  sdmaChannel : Z;
  sdmaChannelStride : Z
}.

Inductive MemcpyKind := Put | Get | PutBlocking | GetBlocking.

Definition is_blocking (k : MemcpyKind) : bool :=
  match k with PutBlocking | GetBlocking => true | _ => false end.

Definition set_dirty (c : SdmaImpl) (d : Z) : SdmaImpl :=
  mk_impl (sdmaEnabled c) d (sdmaThreshold c) (numChannels c) (sdmaChannel c) (sdmaChannelStride c).

(** The channel of a context, assigned on the host. *)
Definition assignSdmaChannel (spread : bool) (c : SdmaImpl) (ctx_id : Z) : SdmaImpl :=
  if 0 <? numChannels c then
    mk_impl (sdmaEnabled c) (sdmaDirty c) (sdmaThreshold c) (numChannels c) (ctx_id mod numChannels c)
      (if (ctx_id =? 0) || spread then 1 else 0)
  else c.

(** The channel and the ring of a copy to [local_pe] by a thread of wavefront
    [wf] of its block. *)
Definition effective_channel (c : SdmaImpl) (wf : Z) : Z :=
  Z.rem (sdmaChannel c + sdmaChannelStride c * wf) (numChannels c).

Definition ring_of (c : SdmaImpl) (local_pe channel : Z) : Z := local_pe * numChannels c + channel.

Definition bit (i : Z) : Z := u64 (Z.shiftl 1 i).

(** [sdmaCopy]: the ring that takes the packet, if there is one, and the mask
    afterwards. *)
Definition sdmaCopy (present : Z -> bool) (c : SdmaImpl) (k : MemcpyKind) (wf local_pe : Z) : option Z * SdmaImpl :=
  let idx := ring_of c local_pe (effective_channel c wf) in
  if present idx then
    (Some idx, if is_blocking k then c else set_dirty c (Z.lor (sdmaDirty c) (bit idx)))
  else (None, c).

(** What [ipcCopy] does with a transfer of [size] bytes. *)
Inductive transfer :=
| ByEngine (ring : Z) (waits : bool)
| ByLanes
| NoRing.

Definition ipcCopy (present : Z -> bool) (c : SdmaImpl) (k : MemcpyKind) (wf local_pe size : Z) : transfer * SdmaImpl :=
  if sdmaEnabled c && (sdmaThreshold c <=? size) then
    match sdmaCopy present c k wf local_pe with
    | (Some r, c') => (ByEngine r (is_blocking k), c')
    | (None, c') => (NoRing, c')
    end
  else (ByLanes, c).

Definition pe_mask (c : SdmaImpl) (local_pe : Z) : Z :=
  u64 (Z.shiftl (u64 (bit (numChannels c) - 1)) (local_pe * numChannels c)).

(** The rings that [sdmaQuiet] waits for, and the mask afterwards. *)
Definition sdmaQuiet (present : Z -> bool) (c : SdmaImpl) (local_pe : Z) : list Z * SdmaImpl :=
  let m := pe_mask c local_pe in
  let was_dirty := Z.land (sdmaDirty c) m in
  let c' := set_dirty c (Z.land (sdmaDirty c) (complement 64 m)) in
  if was_dirty =? 0 then ([], c')
  else (filter (fun i => negb (Z.land was_dirty (bit i) =? 0) && present i)
          (ring_of c local_pe <$> seqZ 0 (numChannels c)), c').

(** The loop of [sdmaQuietAll] over the set bits, lowest first. *)
Fixpoint quiet_bits (fuel : nat) (dirty : Z) : list Z :=
  match fuel with
  | O => []
  | S fuel =>
      if dirty =? 0 then []
      else let b := ctz 64 dirty in b :: quiet_bits fuel (Z.land dirty (complement 64 (bit b)))
  end.

Definition sdmaQuietAll (present : Z -> bool) (c : SdmaImpl) : list Z * SdmaImpl :=
  (filter (fun i => present i) (quiet_bits 64 (sdmaDirty c)), set_dirty c 0).

Definition ipcQuiet (present : Z -> bool) (c : SdmaImpl) : list Z * SdmaImpl :=
  if sdmaEnabled c && negb (sdmaDirty c =? 0) then sdmaQuietAll present c else ([], c).

Definition ipcQuiet_pe (present : Z -> bool) (c : SdmaImpl) (local_pe : Z) : list Z * SdmaImpl :=
  if sdmaEnabled c && negb (Z.land (sdmaDirty c) (pe_mask c local_pe) =? 0)
  then sdmaQuiet present c local_pe else ([], c).

(** ** Bits of the mask *)

Lemma bit_testbit i j : 0 <= i < 64 -> 0 <= j -> Z.testbit (bit i) j = (j =? i).
Proof.
  intros Hi Hj. unfold bit. rewrite Z.shiftl_1_l, wrap_small.
  - rewrite Z.pow2_bits_eqb by lia. by rewrite Z.eqb_sym.
  - split; [lia|]. apply Z.pow_lt_mono_r; lia.
Qed.

Lemma bit_range i : 0 <= bit i < 2 ^ 64.
Proof. apply wrap_range. lia. Qed.

Lemma complement_testbit x j : 0 <= j < 64 -> Z.testbit (complement 64 x) j = negb (Z.testbit x j).
Proof.
  intros Hj. unfold complement, wrap. change (Z.of_nat 64) with 64.
  rewrite Z.mod_pow2_bits_low by lia. apply Z.lnot_spec. lia.
Qed.

Lemma land_range a b : 0 <= a < 2 ^ 64 -> 0 <= Z.land a b < 2 ^ 64.
Proof.
  intros Ha. assert (H0 : 0 <= Z.land a b) by (apply Z.land_nonneg; lia). split; [done|].
  destruct (Z.eq_dec (Z.land a b) 0) as [->|Hne]; [lia|]. apply Z.log2_lt_pow2; [lia|].
  apply Z.nle_gt. intros Hge. pose proof (Z.bit_log2 (Z.land a b) ltac:(lia)) as Hb.
  rewrite Z.land_spec, (Z.bits_above_log2 a) in Hb; [done|lia|].
  destruct (Z.eq_dec a 0) as [->|]; [cbn; lia|]. assert (Z.log2 a < 64) by (apply Z.log2_lt_pow2; lia). lia.
Qed.

Lemma lor_range a b : 0 <= a < 2 ^ 64 -> 0 <= b < 2 ^ 64 -> 0 <= Z.lor a b < 2 ^ 64.
Proof.
  intros Ha Hb. assert (H0 : 0 <= Z.lor a b) by (apply Z.lor_nonneg; lia). split; [done|].
  destruct (Z.eq_dec (Z.lor a b) 0) as [->|Hne]; [lia|]. apply Z.log2_lt_pow2; [lia|]. rewrite Z.log2_lor by lia.
  assert (forall x, 0 <= x < 2 ^ 64 -> Z.log2 x < 64).
  { intros x Hx. destruct (Z.eq_dec x 0) as [->|]; [cbn; lia|]. apply Z.log2_lt_pow2; lia. }
  apply Z.max_lub_lt; auto.
Qed.

Lemma zero_of_bits x : 0 <= x < 2 ^ 64 -> (forall i, 0 <= i < 64 -> Z.testbit x i = false) -> x = 0.
Proof.
  intros Hx Hb. apply Z.bits_inj'. intros n Hn. rewrite Z.bits_0.
  destruct (Z.lt_ge_cases n 64); [by apply Hb|].
  destruct (Z.eq_dec x 0) as [->|]; [apply Z.bits_0|]. apply Z.bits_above_log2; [lia|].
  assert (Z.log2 x < 64) by (apply Z.log2_lt_pow2; lia). lia.
Qed.

Lemma test_single x i : 0 <= x < 2 ^ 64 -> 0 <= i < 64 -> negb (Z.land x (bit i) =? 0) = Z.testbit x i.
Proof.
  intros Hx Hi. destruct (Z.testbit x i) eqn:E.
  - apply negb_true_iff, Z.eqb_neq. intros H0. assert (Hb : Z.testbit (Z.land x (bit i)) i = false) by (rewrite H0; apply Z.bits_0).
    rewrite Z.land_spec, E, bit_testbit, Z.eqb_refl in Hb by lia. done.
  - apply negb_false_iff, Z.eqb_eq, zero_of_bits; [by apply land_range|]. intros j Hj.
    rewrite Z.land_spec, bit_testbit by lia. destruct (Z.eqb_spec j i) as [->|]; [by rewrite E|]. apply andb_false_r.
Qed.

(** The loop of [sdmaQuietAll] visits every set bit once. *)
Lemma quiet_bits_spec n d :
  0 <= d < 2 ^ 64 -> (n <= 64)%nat -> (forall i, 0 <= i < 64 - Z.of_nat n -> Z.testbit d i = false) ->
  NoDup (quiet_bits n d) /\ forall i, i ∈ quiet_bits n d <-> 0 <= i < 64 /\ Z.testbit d i = true.
Proof.
  revert d. induction n as [|n IH]; intros d Hd Hn Hlow; cbn [quiet_bits].
  { split; [constructor|]. intros i. split; [by intros ?%elem_of_nil|]. intros [Hi Hb]. rewrite Hlow in Hb by lia. done. }
  destruct (Z.eqb_spec d 0) as [->|Hne].
  { split; [constructor|]. intros i. split; [by intros ?%elem_of_nil|]. intros [Hi Hb]. by rewrite Z.bits_0 in Hb. }
  destruct (ctz_spec 64 d) as (Hr & Hb & Hl); [change (Z.of_nat 64) with 64; lia|]. set (b := ctz 64 d) in *.
  change (Z.of_nat 64) with 64 in Hr.
  assert (Hge : 64 - Z.of_nat (S n) <= b).
  { apply Z.nlt_ge. intros Hlt. rewrite Hlow in Hb by lia. done. }
  set (d' := Z.land d (complement 64 (bit b))).
  assert (Hd' : forall i, 0 <= i < 64 -> Z.testbit d' i = Z.testbit d i && negb (i =? b)).
  { intros i Hi. unfold d'. rewrite Z.land_spec, complement_testbit, bit_testbit by lia. done. }
  destruct (IH d') as [Hnd Hin]; [by apply land_range|lia| |].
  { intros i Hi. rewrite Hd' by lia. destruct (Z.eqb_spec i b) as [->|]; [apply andb_false_r|].
    rewrite andb_true_r. destruct (Z.lt_ge_cases i (64 - Z.of_nat (S n))); [apply Hlow; lia|]. apply Hl. lia. }
  split.
  - constructor; [|done]. rewrite Hin. intros [_ Hbb]. rewrite Hd', Z.eqb_refl, andb_false_r in Hbb by lia. done.
  - intros i. rewrite elem_of_cons, Hin. destruct (Z.eqb_spec i b) as [->|Hnb]; [by split; [intros _; split|left]|].
    split; [intros [->|[Hi Hbi]]; [done|] | intros [Hi Hbi]; right]; rewrite Hd', (proj2 (Z.eqb_neq i b) Hnb), andb_true_r in * by lia; done.
Qed.

(** ** The mask represents the set of pending copies *)

Section Pending.

(** Which rings exist, and the number of PEs of the node. *)
Context (present : Z -> bool) (npes : Z).

(** What [sdmaHostInit] and [assignSdmaChannel] establish, with the bound that
    the comment on [sdmaDirty] gives. *)
Definition config_ok (c : SdmaImpl) : Prop :=
  1 <= numChannels c <= 8 /\ npes * numChannels c <= 64 /\ 0 <= sdmaChannel c /\ 0 <= sdmaChannelStride c.

(** The calls on a context, with the set of rings that have a pending copy of
    it. *)
Inductive pstep : SdmaImpl * gset Z -> SdmaImpl * gset Z -> Prop :=
| step_copy c P k wf pe size :
    0 <= wf -> 0 <= pe < npes ->
    pstep (c, P) ((ipcCopy present c k wf pe size).2,
                  match (ipcCopy present c k wf pe size).1 with ByEngine r false => {[r]} ∪ P | _ => P end)
| step_quiet_pe c P pe :
    0 <= pe < npes -> pstep (c, P) ((ipcQuiet_pe present c pe).2, P ∖ list_to_set (ipcQuiet_pe present c pe).1)
| step_quiet c P : pstep (c, P) ((ipcQuiet present c).2, P ∖ list_to_set (ipcQuiet present c).1).

Record represents (x : SdmaImpl * gset Z) : Prop := {
  p_config : config_ok x.1;
  p_range : 0 <= sdmaDirty x.1 < 2 ^ 64;
  p_bits : forall i, 0 <= i < 64 -> Z.testbit (sdmaDirty x.1) i = bool_decide (i ∈ x.2);
  p_known : forall i, i ∈ x.2 -> 0 <= i < 64 /\ present i = true;
  p_enabled : sdmaEnabled x.1 = false -> x.2 = ∅
}.

Lemma ring_range c pe ch : config_ok c -> 0 <= pe < npes -> 0 <= ch < numChannels c -> 0 <= ring_of c pe ch < 64.
Proof. unfold config_ok, ring_of. intros. nia. Qed.

Lemma effective_channel_range c wf : config_ok c -> 0 <= wf -> 0 <= effective_channel c wf < numChannels c.
Proof. intros (Hn & _ & Hc & Hs) Hw. apply Z.rem_bound_pos; nia. Qed.

Lemma pe_mask_testbit c pe i :
  config_ok c -> 0 <= pe < npes -> 0 <= i < 64 ->
  Z.testbit (pe_mask c pe) i = (ring_of c pe 0 <=? i) && (i <? ring_of c pe (numChannels c)).
Proof.
  unfold ring_of. intros (Hn & Hm & _) Hp Hi. unfold pe_mask, wrap at 1. rewrite Z.mod_pow2_bits_low, Z.shiftl_spec by lia.
  assert (Hb : bit (numChannels c) = 2 ^ numChannels c).
  { unfold bit. rewrite Z.shiftl_1_l. apply wrap_small. split; [lia|]. apply Z.pow_lt_mono_r; lia. }
  replace (u64 (bit (numChannels c) - 1)) with (Z.ones (numChannels c)).
  - rewrite Z.testbit_ones by lia. apply eq_bool_prop_intro. rewrite !andb_True, !Is_true_true, !Z.leb_le, !Z.ltb_lt. lia.
  - rewrite Hb, Z.ones_equiv. symmetry. rewrite wrap_small; [lia|].
    pose proof (Z.pow_lt_mono_r 2 (numChannels c) 64). pose proof (Z.pow_pos_nonneg 2 (numChannels c)). lia.
Qed.

(** The rings of one PE. *)
Definition of_pe (c : SdmaImpl) (pe i : Z) : Prop := ring_of c pe 0 <= i < ring_of c pe (numChannels c).

Lemma rings_of_pe c pe i : i ∈ ring_of c pe <$> seqZ 0 (numChannels c) <-> of_pe c pe i.
Proof.
  unfold of_pe, ring_of. rewrite list_elem_of_fmap. setoid_rewrite elem_of_seqZ. split.
  - intros (y & -> & Hy). lia.
  - intros Hi. exists (i - pe * numChannels c). lia.
Qed.

(** A mask with the bits of [W] cleared represents the rest. *)
Lemma represents_clear c P W d :
  represents (c, P) -> 0 <= d < 2 ^ 64 ->
  (forall i, 0 <= i < 64 -> Z.testbit d i = Z.testbit (sdmaDirty c) i && negb (bool_decide (i ∈ W))) ->
  represents (set_dirty c d, P ∖ list_to_set W).
Proof.
  intros [Hc Hr Hb Hk He] Hd Hbits. split; cbn in *; try done.
  - intros i Hi. rewrite Hbits, Hb by done. apply eq_bool_prop_intro.
    rewrite andb_True, negb_True, !bool_decide_spec. set_solver.
  - intros i [Hi _]%elem_of_difference. auto.
  - intros Hen. rewrite He by done. set_solver.
Qed.

(** The waits of a fence or quiet towards one PE. *)
Lemma quiet_pe_exact c P pe :
  represents (c, P) -> 0 <= pe < npes ->
  NoDup (ipcQuiet_pe present c pe).1 /\
  (forall i, i ∈ (ipcQuiet_pe present c pe).1 <-> i ∈ P /\ of_pe c pe i) /\
  represents ((ipcQuiet_pe present c pe).2, P ∖ list_to_set (ipcQuiet_pe present c pe).1).
Proof.
  intros Hrep Hpe. pose proof Hrep as [Hc Hr Hb Hk He]. cbn in Hc, Hr, Hb, Hk, He.
  set (wd := Z.land (sdmaDirty c) (pe_mask c pe)).
  assert (Hwr : 0 <= wd < 2 ^ 64) by by apply land_range.
  assert (Hwd : forall i, 0 <= i < 64 -> Z.testbit wd i = true <-> i ∈ P /\ of_pe c pe i).
  { intros i Hi. unfold wd, of_pe. rewrite Z.land_spec, Hb, pe_mask_testbit, !andb_true_iff, bool_decide_eq_true, Z.leb_le, Z.ltb_lt by done. done. }
  assert (Hnone : forall w, w = [] -> (forall i, i ∈ P -> ~ of_pe c pe i) ->
    NoDup w /\ (forall i, i ∈ w <-> i ∈ P /\ of_pe c pe i) /\ represents (c, P ∖ list_to_set w)).
  { intros w -> Hno. split; [constructor|]. split; [|cbn].
    { intros i. rewrite elem_of_nil. split; [done|]. intros [Hi Ho]. by apply (Hno i). }
    by rewrite difference_empty_L. }
  unfold ipcQuiet_pe. fold wd. destruct (sdmaEnabled c) eqn:Een; cbn [andb].
  2:{ apply Hnone; [done|]. intros i Hi. rewrite He in Hi by done. by apply not_elem_of_empty in Hi. }
  destruct (Z.eqb_spec wd 0) as [H0|Hne]; cbn [negb].
  { apply Hnone; [done|]. intros i Hi Hof. destruct (Hk i Hi) as [Hi64 _].
    assert (Hbi : Z.testbit wd i = true) by (apply Hwd; done). rewrite H0, Z.bits_0 in Hbi. done. }
  unfold sdmaQuiet. fold wd. rewrite (proj2 (Z.eqb_neq wd 0) Hne). cbn [fst snd].
  set (w := filter _ _).
  assert (Hw : forall i, i ∈ w <-> i ∈ P /\ of_pe c pe i).
  { intros i. unfold w. rewrite list_elem_of_filter, rings_of_pe, andb_True, !Is_true_true. split.
    - intros [[Ht _] Hof]. assert (Hi : 0 <= i < 64).
      { destruct Hc as (? & ? & _). unfold of_pe, ring_of in Hof. nia. }
      rewrite test_single in Ht by done. by apply Hwd.
    - intros [HP Hof]. destruct (Hk i HP) as [Hi Hp]. rewrite test_single by done. rewrite Hwd by done. done. }
  split; [|split; [done|]].
  - apply NoDup_filter, NoDup_fmap_2; [|apply NoDup_seqZ]. intros a b. unfold ring_of. lia.
  - apply represents_clear; [done|by apply land_range|]. intros i Hi.
    rewrite Z.land_spec, complement_testbit by done. apply eq_bool_prop_intro.
    rewrite !andb_True, !negb_True, bool_decide_spec, Hw, Hb, bool_decide_spec, pe_mask_testbit by done.
    unfold of_pe. rewrite andb_True, !Is_true_true, Z.leb_le, Z.ltb_lt. tauto.
Qed.

(** The waits of a fence or quiet towards all PEs. *)
Lemma quiet_all_exact c P :
  represents (c, P) ->
  NoDup (ipcQuiet present c).1 /\ (forall i, i ∈ (ipcQuiet present c).1 <-> i ∈ P) /\
  represents ((ipcQuiet present c).2, P ∖ list_to_set (ipcQuiet present c).1).
Proof.
  intros Hrep. pose proof Hrep as [Hc Hr Hb Hk He]. cbn in Hc, Hr, Hb, Hk, He.
  destruct (quiet_bits_spec 64 (sdmaDirty c) Hr ltac:(lia) ltac:(lia)) as [Hnd Hin].
  assert (Hw : forall i, i ∈ filter (fun i => present i) (quiet_bits 64 (sdmaDirty c)) <-> i ∈ P).
  { intros i. rewrite list_elem_of_filter, Hin, Is_true_true. split.
    - intros (_ & Hi & Hbi). rewrite Hb in Hbi by done. by apply bool_decide_eq_true in Hbi.
    - intros HP. destruct (Hk i HP) as [Hi Hp]. rewrite Hb, bool_decide_eq_true by done. done. }
  assert (Hnone : (forall i, i ∉ P) ->
    NoDup (@nil Z) /\ (forall i, i ∈ @nil Z <-> i ∈ P) /\ represents (c, P ∖ list_to_set [])).
  { intros Hno. split; [constructor|]. split; [|cbn].
    { intros i. rewrite elem_of_nil. split; [done|]. by intros ?%Hno. }
    by rewrite difference_empty_L. }
  unfold ipcQuiet. destruct (sdmaEnabled c) eqn:Een; cbn [andb].
  2:{ apply Hnone. intros i. rewrite He by done. apply not_elem_of_empty. }
  destruct (Z.eqb_spec (sdmaDirty c) 0) as [H0|Hne]; cbn [negb].
  { apply Hnone. intros i Hi. destruct (Hk i Hi) as [Hi64 _]. specialize (Hb i Hi64). rewrite H0, Z.bits_0 in Hb.
    by apply symmetry, bool_decide_eq_false in Hb. }
  split; [by apply NoDup_filter|]. split; [done|]. cbn [fst snd sdmaQuietAll].
  apply represents_clear; [done|lia|]. intros i Hi. rewrite Z.bits_0, Hb by done. symmetry.
  apply andb_false_iff. destruct (bool_decide (i ∈ P)) eqn:E; [right|by left].
  apply negb_false_iff, bool_decide_eq_true, Hw. by apply bool_decide_eq_true in E.
Qed.

Lemma pstep_represents x y : represents x -> pstep x y -> represents y.
Proof.
  intros Hrep Hs. destruct Hs as [c P k wf pe size Hwf Hpe|c P pe Hpe|c P].
  - pose proof Hrep as [Hc Hr Hb Hk He]. cbn in Hc, Hr, Hb, Hk, He. unfold ipcCopy.
    destruct (sdmaEnabled c && _) eqn:Een; [|done]. apply andb_true_iff in Een as [Een _]. unfold sdmaCopy.
    set (r := ring_of c pe (effective_channel c wf)).
    assert (Hrr : 0 <= r < 64) by (apply ring_range; [done..|by apply effective_channel_range]).
    destruct (present r) eqn:Ep; [|done]. destruct (is_blocking k); [done|]. cbn [fst snd].
    split; cbn; try done.
    + apply lor_range; [done|apply bit_range].
    + intros i Hi. rewrite Z.lor_spec, Hb, bit_testbit by lia. apply eq_bool_prop_intro.
      rewrite orb_True, !bool_decide_spec, Is_true_true, Z.eqb_eq. set_solver.
    + intros i [->%elem_of_singleton|Hi]%elem_of_union; auto.
    + congruence.
  - by apply quiet_pe_exact.
  - by apply quiet_all_exact.
Qed.

(** C29: Whatever copies, fences and quiets a context has made, the next quiet
    towards a PE waits, once each, for exactly the rings of that PE on which the
    context has a copy that no earlier quiet has waited for; a quiet towards all
    PEs waits for exactly all such rings, its loop over the set bits ending
    within 64 rounds. *)
Theorem sdma_quiet_exact c0 c P :
  config_ok c0 -> sdmaDirty c0 = 0 -> rtc pstep (c0, ∅) (c, P) ->
  (forall pe, 0 <= pe < npes -> NoDup (ipcQuiet_pe present c pe).1 /\
    forall i, i ∈ (ipcQuiet_pe present c pe).1 <-> i ∈ P /\ of_pe c pe i) /\
  NoDup (ipcQuiet present c).1 /\ forall i, i ∈ (ipcQuiet present c).1 <-> i ∈ P.
Proof.
  intros Hc H0 Hr.
  assert (Hrep : represents (c, P)).
  { eapply (rtc_invariant pstep represents); [apply pstep_represents|exact Hr|].
    split; cbn; rewrite ?H0; try done; try set_solver. intros i Hi. rewrite Z.bits_0. symmetry.
    apply bool_decide_eq_false. set_solver. }
  split.
  - intros pe Hpe. destruct (quiet_pe_exact c P pe Hrep Hpe) as (? & ? & _). done.
  - destruct (quiet_all_exact c P Hrep) as (? & ? & _). done.
Qed.

End Pending.

(** Two copies on two channels to PE 3 of 8, one of them blocking, and a copy to
    PE 1. *)
Definition demo_impl : SdmaImpl := mk_impl true 0 256 4 1 1.

Definition demo_after : SdmaImpl :=
  let c1 := (ipcCopy (fun _ => true) demo_impl Put 2 3 1024).2 in
  let c2 := (ipcCopy (fun _ => true) c1 PutBlocking 0 3 1024).2 in
  (ipcCopy (fun _ => true) c2 Get 0 1 4096).2.

Lemma sdma_quiet_exact_witness :
  rtc (pstep (fun _ => true) 8) (demo_impl, ∅) (demo_after, {[5]} ∪ ({[15]} ∪ ∅)) /\
  (ipcQuiet_pe (fun _ => true) demo_after 3).1 = [15] /\ (ipcQuiet (fun _ => true) demo_after).1 = [5; 15] /\
  NoDup (ipcQuiet (fun _ => true) demo_after).1.
Proof.
  assert (Hr : rtc (pstep (fun _ => true) 8) (demo_impl, ∅) (demo_after, {[5]} ∪ ({[15]} ∪ ∅))).
  { econstructor; [apply (step_copy _ _ _ _ Put 2 3 1024); lia|].
    econstructor; [apply (step_copy _ _ _ _ PutBlocking 0 3 1024); lia|].
    econstructor; [apply (step_copy _ _ _ _ Get 0 1 4096); lia|]. constructor. }
  split; [done|]. split; [done|]. split; [done|].
  apply (sdma_quiet_exact (fun _ => true) 8 demo_impl demo_after ({[5]} ∪ ({[15]} ∪ ∅))); [|done|exact Hr].
  unfold config_ok. cbn. lia.
Defined.

(** ** A context shared by threads

    The default context is shared: the exchange that clears the mask is atomic,
    the waits that follow are not part of it. *)

Record shared := mk_shared {
  sh_impl : SdmaImpl;
  sh_flight : list (nat * Z);     (* thread and ring of each copy in flight *)
  sh_waits : nat -> list Z        (* rings a thread in quiet still waits for *)
}.

Inductive sh_step (present : Z -> bool) : shared -> shared -> Prop :=
| sh_copy s t k wf pe size r :
    sh_waits s t = [] -> (ipcCopy present (sh_impl s) k wf pe size).1 = ByEngine r false ->
    sh_step present s (mk_shared (ipcCopy present (sh_impl s) k wf pe size).2 (sh_flight s ++ [(t, r)]) (sh_waits s))
| sh_quiet s t :
    sh_waits s t = [] ->
    sh_step present s (mk_shared (ipcQuiet present (sh_impl s)).2 (sh_flight s)
      (fun u => if decide (u = t) then (ipcQuiet present (sh_impl s)).1 else sh_waits s u))
| sh_drained s t r rest :
    sh_waits s t = r :: rest -> Forall (fun x => x.2 <> r) (sh_flight s) ->
    sh_step present s (mk_shared (sh_impl s) (sh_flight s) (fun u => if decide (u = t) then rest else sh_waits s u))
| sh_done s x fl :
    sh_flight s = x :: fl -> sh_step present s (mk_shared (sh_impl s) fl (sh_waits s)).

(** On a context that two threads share, the quiet of one thread clears the
    mask before it waits, so the quiet of the other finds nothing to wait for
    and returns while that thread's own copy is still in flight. *)
Theorem sdma_shared_quiet_early :
  exists s s' r, rtc (sh_step (fun _ => true)) (mk_shared demo_impl [] (fun _ => [])) s /\
    (0%nat, r) ∈ sh_flight s /\ (ipcQuiet (fun _ => true) (sh_impl s)).1 = [] /\
    sh_step (fun _ => true) s s' /\ sh_waits s' 0%nat = [] /\ (0%nat, r) ∈ sh_flight s'.
Proof.
  set (c1 := (ipcCopy (fun _ => true) demo_impl Put 0 3 1024).2).
  set (c2 := (ipcQuiet (fun _ => true) c1).2).
  set (w1 := fun u : nat => if decide (u = 1%nat) then (ipcQuiet (fun _ => true) c1).1 else []).
  set (s := mk_shared c2 [(0%nat, 13)] w1).
  exists s, (mk_shared (ipcQuiet (fun _ => true) c2).2 [(0%nat, 13)]
    (fun u => if decide (u = 0%nat) then (ipcQuiet (fun _ => true) c2).1 else w1 u)), 13.
  split; [|split; [|split; [|split; [|split]]]]; try done; try (by apply list_elem_of_singleton).
  - econstructor; [by apply (sh_copy (fun _ => true) (mk_shared demo_impl [] (fun _ => [])) 0 Put 0 3 1024 13)|].
    apply rtc_once. by apply (sh_quiet (fun _ => true) (mk_shared c1 [(0%nat, 13)] (fun _ => [])) 1).
  - by apply (sh_quiet (fun _ => true) s 0).
Qed.
